(* ===== verification/_CoqProject ===== *)
-Q . S2P
Prelude.v
Paths.v
Json.v
Caps.v
CapsSecurity.v
Gc.v
GcHandles.v
GcCollect.v
GcSweep.v
GcIncremental.v
GcSafety.v
GcIncrementalTheory.v
GcMutator.v
Text.v
Utf8.v
JsonText.v
JsonTotal.v
JsonRoundtrip.v
CapsConfig.v
Semver.v
SemverOrder.v
IndexMaps.v
Shared.v
Boundary.v
SmallVecs.v
Shapes.v
Bytes.v
Bits.v
Huffman.v
Hpack.v
HpackTheory.v
Http2Frames.v
Http2Conn.v
Http2ConnTheory.v
Http2Chunking.v
WebSocket.v
BaseN.v
PercentEncoding.v
Calendar.v
CalendarTheory.v
IsoDates.v
IsoDateTheory.v
Temporal.v
Arrays.v
Inflate.v
Deflate.v
InflateBits.v
HuffmanTables.v
PackageMerge.v
Lz77.v
DeflateWriter.v
DeflateHeader.v
DeflateRoundtrip.v
InflateTotal.v
Tar.v
TarPaths.v
TarRoundtrip.v
Integrity.v
Gunzip.v
Fetcher.v
Http1.v
Http1Decoder.v
Http1Theory.v
Http1Stream.v
Http1Roundtrip.v
Http1Chunked.v
Der.v
Punycode.v
EventLoop.v
EventLoopTheory.v
Promise.v
PromiseTheory.v
BigUInt.v
Montgomery.v
Rsa.v
Aes.v
AesModes.v
