(* ===== verification/Prelude.v ===== *)
(** * Cruft: a verification development

    Cruft is a JavaScript and TypeScript runtime in Rust (src/crates).  This
    library models the parts on which the safety of the programs it runs rests, and
    the codecs and the arithmetic that stand between a program and the outside, and
    proves what makes them correct.  Definitions are executable and follow the
    source function by function; theorems are about them.

    ** The modelled parts and how they fit together

    - Capabilities.  Every built-in that touches the outside world first asks the
      capability dispatcher (rusty-js-runtime/src/caps.rs); what each module may do
      is configured in cruft-caps.json (rusty-js-runtime/src/caps_config.rs), read
      through the JSON library (rusty-json-manifest/src/lib.rs).
    - The event loop (rusty-js-runtime/src/job_queue.rs, with the drains of module.rs)
      and the promises whose reactions are its jobs (promise.rs).  The interpreter
      itself is in a file that is not in the tree; it is an interface.
    - The garbage collector (rusty-js-gc/src/lib.rs): the slot heap every object
      lives in, with generational handles, owners (realms), ephemerons and external
      handles.
    - Sharing between compartments (rusty-js-gc/src/lib.rs and boundary.rs): the
      reference-counted arena, the mailboxes, the boundary every message crosses and
      the scheduler that binds compartments to workers.
    - The data structures objects are made of: the inline vector
      (rusty-js-smallvec), hidden classes (rusty-js-shapes) and the
      insertion-ordered hash map (rusty-js-indexmap).
    - The package manager's semantic versions (rusty-js-pm/src/semver.rs) and its
      fetcher (rusty-js-pm/src/fetcher.rs, store.rs), which downloads an archive,
      checks its digest (rusty-js-pm-integrity), decompresses it (compression,
      rusty-js-deflate), unpacks it (rusty-js-tar) and publishes it in the store.
    - HTTP: the HTTP/1.1 codec (http-codec) and the HTTP/2 server, header compression
      (http2-hpack), frames (http2-codec) and the connection (http2-conn), which reads
      bytes in any pieces, hands requests to the host and sends responses under flow
      control.  The WebSocket codec (websocket): frames and the reassembly of
      messages.
    - Cryptography (web-crypto): big numbers, Montgomery arithmetic, RSA, AES and
      its modes.  DER (asn1-der).
    - Text encodings: base-N (rusty-js-basen), percent-encoding
      (rusty-js-percent-encoding), form data (rusty-js-form-urlencoded) and punycode
      (rusty-js-punycode).
    - Dates: calendars, ISO dates and times (rusty-js-temporal-calendar), rounding and
      durations (rusty-js-temporal-core), on which the Temporal built-ins rest.

    ** Files

    - [Prelude]: results, panics, mutexes, machine integers, strings, shared lemmas
      and automation.  [Result] is [result]; a computation that may panic is an
      [outcome]; one that may do both is [fallible].  [Mutex] keeps its poison flag.
      An integer of width w is a [Z] with its wrap-around written out; lengths and
      indices are [nat].  A string is its UTF-8 bytes.
    - [Paths]: std::path components, prefixes and joining.  [Text]: the rest of
      [str] the code uses (Unicode white space, trimming, splitting, ordering,
      decimal printing).  [Utf8]: UTF-8 validation and encoding.  [Bytes], [Bits]:
      byte strings, big-endian numbers, bit lists; the class [Profile] says whether
      unsigned sums wrap or panic, as the build profile does.  [Bits] has the signed
      integers too, of 32, 64 and 128 bits, which wrap as in a release build, and
      Euclidean division.  [Arrays]: indexing that panics out of range.
    - [Json]: JSON values and ordered maps.  [JsonText]: the JSON parser and printer;
      [JsonTotal]: the parser always answers and its answers are well formed;
      [JsonRoundtrip]: printed values parse back.
    - [Caps]: all of caps.rs; the eight [require_*] checks are instances of one
      class [Endpoint], whose law says what a check decides and logs, and the
      clients are proved against the class.  What the checks read from the process
      (environment, current directory, clock) is the record [SysEnv].
      [CapsSecurity]: confinement, monotonicity, isolation, audit and attenuation.
      [CapsConfig]: caps_config.rs, [record_require_caps_grant] of module.rs and
      [wire_root_caps_from_config] of cruft/src/main.rs, with what a document means
      and that this is what it confers.
    - [EventLoop]: job_queue.rs, over the class [Host] of what jobs do;
      [EventLoopTheory]: histories of the queues, completion.  [Promise]: promise.rs,
      over the class [Interp] of the interpreter's services; [PromiseTheory]: the
      runs of a program as a step relation, settling once.
    - [Gc]: handles, heap state, allocation, freeing, owners, thresholds (the f64
      arithmetic of [autotuned_permille] is IEEE binary64); the resident set size
      and the environment are arguments.  [GcHandles]: the invariant [heap_wf], the
      life of a handle, allocation and freeing.  [GcCollect]: marking with its
      tri-colour invariant and reachability.  [GcSweep]: sweeping.  [GcSafety]:
      exactness of collection, realms, runs of heap operations.  [GcIncremental]:
      marking and sweeping a realm in slices; [GcIncrementalTheory]: the slices do
      what [collect_realm] does, for objects that satisfy the interface
      [SlicedTrace]; [GcMutator]: the program running between the slices.
    - [Semver]: versions, ranges, selection; [SemverOrder]: precedence, printing, and
      what ranges mean.
    - [IndexMaps]: the ordered map; its specification is the association list of
      [spec_op].  [SmallVecs]; [Shapes].
    - [Shared]: the arena.  [Boundary]: mailboxes, crossings, scheduling.
    - [Huffman], [Hpack], [HpackTheory]: header compression.  [Http2Frames]: frames
      and payloads.  [Http2Conn]: the connection, one definition per frame handler;
      the class [KeyOrder] is the order in which a hash map hands out its keys.
      [Http2ConnTheory]: its invariant; [Http2Chunking]: runs of a connection.
    - [Http1]: requests, responses, framing, chunks; [Http1Decoder]: the response
      decoder, a state machine fed with pieces.  [Http1Theory]: searches and limits;
      [Http1Stream]: how the bytes are cut does not matter; [Http1Roundtrip]: messages
      written are read back; [Http1Chunked]: loops end, framing is unambiguous.
    - [WebSocket]: frames, reassembly, close frames.
    - [BaseN]; [PercentEncoding] (with form data); [Punycode].
    - [Inflate]: the decoders of DEFLATE, zlib and gzip; [Deflate]: the compressor.
      [InflateBits]: decoding steps as readers of bits; [HuffmanTables]: canonical
      codes, and that words written are read; [PackageMerge]: code lengths of limited
      size satisfy Kraft's inequality; [Lz77]: matches stand for the data;
      [DeflateWriter]: the bit writer and blocks; [DeflateHeader]: the
      headers and what the encoder writes; [DeflateRoundtrip]: containers and the streaming adapter;
      [InflateTotal]: any bytes.  [Gunzip]: streams of several members.
    - [Tar]: reading, writing and extracting archives; [TarPaths]: confinement;
      [TarRoundtrip].  [Integrity]: SHA-1, SHA-256, SHA-512 and integrity strings.
      [Fetcher]: the fetcher and the store as computations on a file system.
    - [Der]: DER readers and writers.
    - [BigUInt]: numbers as limbs of 32 bits.  [Montgomery]: Montgomery form, powers
      by it, and that all of the arithmetic is that of numbers.  [Rsa]: signatures and
      encryption.  [Aes]: the block cipher, a permutation of the blocks; [AesModes]:
      CBC, CTR, key wrap and GCM.
    - [Calendar]: day numbers, the Julian family and the tabular Islamic calendars, with
      the interface [DayScheme] of a calendar whose years and months follow one
      another; [CalendarTheory]: the code implements it ([Implements]) and what
      follows.  [IsoDates]: dates, durations, times; [IsoDateTheory]: adding,
      differences, weeks, times and nanoseconds.  [Temporal]: rounding modes, time
      durations, nudging and bubbling, and what they compute.

    ** What the theorems show

    - Capabilities, C1, C16: in a sealed mode a request is allowed exactly when a held
      capability, the process-wide grant or the module's own grant covers it; a
      configuration document confers what its entries say, and nothing else.
    - The event loop, C8, C20, C31: queues are first in, first out, nothing is lost or
      repeated and macrotasks wait for microtasks; running to completion ends, with the
      queues empty or in an error there is a reason for; a promise settles once and its reactions are queued in order.
    - The heap, C3, C7, C22, C24, C26: a collection frees exactly what is unreachable;
      realms are isolated; along any run of operations a dead handle stays dead;
      collecting a realm in slices is collecting it at once, and with the program
      running under the write barrier nothing reachable is freed.
    - JSON, C11, C12: text prints and parses back; the parser is total and sound.
    - HTTP/2, C2, C6, C9, C21: along any run of a connection a request is handed out
      once, the state stays bounded, how the bytes are cut does not matter up to the
      first frame above the limit, and responses obey flow control.  C13, C18: header blocks decode to what was
      encoded, and when the string decoder panics.
    - HTTP/1, C10, C27, C29: a response in pieces is the response at once; messages
      written are read back; every request has one framing or is refused.
    - WebSocket, C25: messages.
    - Cryptography, C15, C17, C23, C28: limbs are numbers; when a signature verifies;
      what is encrypted or signed is decrypted or verified, with RSA and with AES, whose
      modes are the equations of the standards.
    - Archives, C5, C14, C19, C39, C40: an extraction stays inside its directory;
      what is compressed is decompressed, and any bytes are decoded without a panic
      and within the limit; archives are read back; what the
      store publishes is what the digest was checked on.
    - Encodings, C34, C38: DER has one encoding per value and the validator accepts
      exactly the encodings; punycode decodes to the label it was made from.
    - Dates, C4, C32: rounding is the rounding the mode names; differences of dates
      add back.  That calendars convert both ways is a lemma ([calendars_convert]).
    - Containers and sharing, C30, C33, C35, C36, C37: version selection is optimal and
      total; the hash index is exact and invisible; shared values are never freed early
      and are always reclaimed; crossings are checked.

    The files hold more theorems than these, as lemmas: that stricter modes allow
    less, that grants are isolated and the audit log is exact, and where derived
    capabilities are not weaker ([CapsSecurity]: [sub_dir_escalates],
    [prefix_policy_ignores_parent_dir]); allocation is fresh ([GcHandles]); the
    dynamic table of HPACK stays within its limit; Huffman codes, HTTP/2 frames, base-N,
    percent-encoding and form data are read back; precedence is a total order and caret
    and tilde ranges mean what they say; shape transitions are shared; weeks and
    instants convert both ways; and the lemmas that show a finding.

    ** Bounds and fuel

    The marking loops of [GcCollect] run on one unit of fuel per slot ([drain]) and
    one per slot plus one ([ephemeron_loop]); an object enters the worklist only when
    it turns from white to gray, and each repetition of the ephemeron loop but the
    last colours an object, so [mark_all_spec] proves that they finish.
    [mark_slice_loop] runs on one unit per slot and per reference and two more
    ([mark_fuel]): each turn either blackens an object or traces a reference that was
    left ([work]), and one turn may drop a stale cursor; [drain_mark_realm] runs on
    the same, [sweep_marked_realm] on one per slot and one more.  The JSON parser
    runs on two units per byte and three more ([json_fuel]): of two nested calls one
    reads a byte.  [collect_iter] of [SmallVecs] runs on the length plus one.
    [reclaim] takes one round per live value, which C36 proves enough.  The encoder
    of HPACK integers has one unit per bit; the loops over header blocks and frames
    one per byte, since every turn consumes one; the loop that sends a body one per
    pending byte and one more.  The padding of base-N and its gcd have one unit per
    byte of a group and per unit of the smaller number; the lenient decoder of UTF-8
    one per byte.  The searches for a year have 64 turns, which double the span or
    halve it ([CalendarTheory] proves them enough over the years it speaks of), and the
    loops of [date_until] have 16, of which they need at most thirteen.  The symbols
    of a DEFLATE block and the blocks of a stream run on one unit per bit left and one
    more, code lengths on one per entry, LZ77 and stored blocks on one per byte; the
    members of a gzip stream and the headers of a tar archive on one per byte and one
    more, and so do PAX records; the padding of a digest on one per byte of a block.
    The loops of HTTP/1 over chunks run on one unit per byte and one more, hexadecimal
    sizes on their sixteen digits.  The walk over DER runs on one unit per byte and one
    more.  A pass of punycode takes one unit per character, a number 33 digits, the
    adaptation of the bias 33 turns.  In all these a loop out of fuel panics and the
    theorems say that none does.  The event loop answers [None] when it runs out of
    fuel, which C20 excludes for the work there is; resolving a promise needs one unit
    per fulfilled promise it is chained to and one more ([resolve_promise_total]).
    Karatsuba's product gets a unit per limb and one more, and every split is shorter.
    Every other function is structurally recursive.

    ** What is not modelled

    Reading files, the environment and the clock: their results are arguments.
    Threads: each atomic operation is one step, and the scheduler's worker threads
    and blocking receive are left out.  Conversions to f64 of JSON numbers and of
    durations; the Hebrew and Chinese calendars with their astronomy, and the
    registry of calendar names.  Counters, timers and traces of the job queue, of
    promises and of the fetcher.  The promise constructor and the static methods,
    and the other built-ins (rusty-js-runtime/src/intrinsics.rs and the files next to
    it, over 300,000 lines), which are written against the interpreter's own object
    model, whose file (interp.rs) is not in the tree: any definition of theirs would
    rest on invented code.  For the same reason the collector's theorems are proved
    against the interface [SlicedTrace] and the event loop's against [Host].  The
    opening handshake of WebSocket, TLS, X.509, elliptic curves, key derivation,
    the digests of web-crypto; generating RSA keys.
    The encoders of the compression crate and Brotli; the package manager's resolver,
    lockfile and linker; URLs and the tables of UTS 46; WebAssembly, the SQL engines and
    the command line.  The ECMAScript and CruftScript parsers, the type checker, the
    bytecode compiler and the JIT are programs of their own size (each from 8,000 to
    57,000 lines) whose correctness is a statement about the semantics of a language,
    which this development does not define. *)

From Stdlib Require Export ZArith Lia.
From Stdlib Require Ascii.
Export (notations) Ascii.
From stdpp Require Export base tactics decidable option list gmap strings pretty.

(** ** Results, panics, mutexes *)

(** Rust's [Result<A, E>]. *)
Inductive result (A E : Type) : Type :=
| Ok (a : A)
| Err (e : E).
Arguments Ok {A E} a.
Arguments Err {A E} e.

(** A computation that may panic ([assert!], [expect], slice indexing out of
    range, [unreachable!]): the value it returns, or the panic. *)
Inductive outcome (A : Type) : Type :=
| Ret (a : A)
| Panic.
Arguments Ret {A} a.
Arguments Panic {A}.

Declare Scope cruft_scope.
Delimit Scope cruft_scope with cruft.

Definition outcome_bind {A B} (m : outcome A) (k : A → outcome B) : outcome B :=
  match m with Ret a => k a | Panic => Panic end.

Definition result_bind {A B E} (m : result A E) (k : A → result B E) : result B E :=
  match m with Ok a => k a | Err e => Err e end.

Notation "x <-! m ; k" := (outcome_bind m (λ x, k))
  (at level 100, m at next level, k at level 200, right associativity) : cruft_scope.
Notation "x <-? m ; k" := (result_bind m (λ x, k))
  (at level 100, m at next level, k at level 200, right associativity) : cruft_scope.

(** A fallible computation that may also panic. *)
Definition fallible (A E : Type) : Type := outcome (result A E).

Definition fallible_bind {A B E} (m : fallible A E) (k : A → fallible B E) : fallible B E :=
  match m with Ret (Ok a) => k a | Ret (Err e) => Ret (Err e) | Panic => Panic end.

Notation "x <-!? m ; k" := (fallible_bind m (λ x, k))
  (at level 100, m at next level, k at level 200, right associativity) : cruft_scope.

Definition is_ok {A E} (r : result A E) : bool :=
  match r with Ok _ => true | Err _ => false end.

Definition result_map_err {A E F} (f : E → F) (r : result A E) : result A F :=
  match r with Ok a => Ok a | Err e => Err (f e) end.

(** [Option::unwrap], [expect]: panics on [None]. *)
Definition unwrap {A} (o : option A) : outcome A :=
  match o with Some a => Ret a | None => Panic end.

(** [std::sync::Mutex<A>]: the guarded value and the poison flag that makes
    [lock()] return [Err]. *)
Record mutex (A : Type) : Type := Mutex { poisoned : bool; guarded : A }.
Arguments Mutex {A} poisoned guarded.
Arguments poisoned {A} m.
Arguments guarded {A} m.

Definition mutex_new {A} (a : A) : mutex A := Mutex false a.

(** [if let Ok(mut g) = m.lock() { f(g) }]: nothing happens when poisoned. *)
Definition mutex_update {A} (f : A → A) (m : mutex A) : mutex A :=
  if poisoned m then m else Mutex false (f (guarded m)).

(** [m.lock().ok().and_then(f)]. *)
Definition mutex_read {A B} (f : A → option B) (m : mutex A) : option B :=
  if poisoned m then None else f (guarded m).

(** ** Machine integers *)

Definition u16_max : Z := 65535.
Definition u32_max : Z := 4294967295.
Definition u64_max : Z := 18446744073709551615.
Definition u64_modulus : Z := 18446744073709551616.

Definition wrap64 (z : Z) : Z := z `mod` u64_modulus.
Definition saturating_add64 (a b : Z) : Z := Z.min (a + b) u64_max.
Definition saturating_mul64 (a b : Z) : Z := Z.min (a * b) u64_max.
Definition saturating_sub64 (a b : Z) : Z := Z.max (a - b) 0.

(** ** Strings: Rust's [str] as its bytes *)

Abbreviation char := Ascii.ascii (only parsing).

Fixpoint string_starts_with (p s : string) : bool :=
  match p, s with
  | EmptyString, _ => true
  | String a p', String b s' => bool_decide (a = b) && string_starts_with p' s'
  | _, _ => false
  end.

(** [str::split(c)] for a one-byte pattern: never empty, [""] gives [[""]]. *)
Fixpoint split_char (c : char) (s : string) : list string :=
  match s with
  | EmptyString => [EmptyString]
  | String a s' =>
      if bool_decide (a = c) then EmptyString :: split_char c s'
      else match split_char c s' with
           | [] => [String a EmptyString]
           | w :: ws => String a w :: ws
           end
  end.

(** [[..].join(sep)]. *)
Fixpoint string_join (sep : string) (ws : list string) : string :=
  match ws with
  | [] => EmptyString
  | [w] => w
  | w :: ws' => (w +:+ sep +:+ string_join sep ws')%string
  end.

(** [str::rsplit_once(c)]: the parts before and after the last [c]. *)
Fixpoint rsplit_once (c : char) (s : string) : option (string * string) :=
  match s with
  | EmptyString => None
  | String a s' =>
      match rsplit_once c s' with
      | Some (l, r) => Some (String a l, r)
      | None => if bool_decide (a = c) then Some (EmptyString, s') else None
      end
  end.

(** [str::split_once(c)]: the parts before and after the first [c]. *)
Fixpoint split_once (c : char) (s : string) : option (string * string) :=
  match s with
  | EmptyString => None
  | String a s' =>
      if bool_decide (a = c) then Some (EmptyString, s')
      else match split_once c s' with
           | Some (l, r) => Some (String a l, r)
           | None => None
           end
  end.

(** The value of an ASCII digit. *)
Definition digit_val (a : char) : option Z :=
  let n := Z.of_nat (Ascii.nat_of_ascii a) in
  if (48 <=? n)%Z && (n <=? 57)%Z then Some (n - 48)%Z else None.

(** The digit loop of [FromStr] for an unsigned integer of maximum [max]: it
    fails on a byte that is no digit and when the value passes [max]. *)
Fixpoint parse_digits (max acc : Z) (s : string) : option Z :=
  match s with
  | EmptyString => Some acc
  | String a s' =>
      match digit_val a with
      | None => None
      | Some v => let acc' := (acc * 10 + v)%Z in
                  if (acc' <=? max)%Z then parse_digits max acc' s' else None
      end
  end.

(** [str::parse::<uN>()]: one optional leading [+], then at least one digit. *)
Definition parse_uint (max : Z) (s : string) : option Z :=
  match s with
  | EmptyString => None
  | String a EmptyString => if bool_decide (a = "+"%char) then None else parse_digits max 0 s
  | String a s' => if bool_decide (a = "+"%char) then parse_digits max 0 s' else parse_digits max 0 s
  end.

(** The one-byte string of a double quote, which no literal here can hold. *)
Definition dquote : string := String (Ascii.ascii_of_nat 34) EmptyString.

Lemma string_app_nil_l (b : string) : "" +:+ b = b.
Proof. done. Qed.

Lemma string_app_cons x (a b : string) : String x a +:+ b = String x (a +:+ b).
Proof. done. Qed.

Lemma string_app_assoc (a b c : string) : (a +:+ b) +:+ c = a +:+ b +:+ c.
Proof. induction a as [|x a IH]; [done|]. by rewrite !string_app_cons, IH. Qed.

Lemma string_app_nil_r (a : string) : a +:+ "" = a.
Proof. induction a as [|x a IH]; [done|]. by rewrite string_app_cons, IH. Qed.

Lemma split_char_not_nil c s : split_char c s ≠ [].
Proof. destruct s; simpl; [done|]. case_bool_decide; [done|]. by destruct (split_char c s). Qed.

Lemma string_join_cons sep w ws :
  ws ≠ [] → string_join sep (w :: ws) = (w +:+ sep +:+ string_join sep ws)%string.
Proof. by destruct ws. Qed.

(** Splitting loses nothing: joining the pieces with the separator gives the
    string back. *)
Lemma string_join_split c s : string_join (String c EmptyString) (split_char c s) = s.
Proof.
  induction s as [|a s IH]; simpl; [done|]. case_bool_decide as Hac.
  - subst. rewrite string_join_cons by apply split_char_not_nil. simpl. by rewrite IH.
  - destruct (split_char c s) as [|w ws] eqn:E; [exfalso; exact (split_char_not_nil c s E)|].
    rewrite <-IH. by destruct ws.
Qed.

(** ** Generic lemmas *)

Lemma result_bind_Ok {A B E} (m : result A E) (k : A → result B E) b :
  result_bind m k = Ok b ↔ ∃ a, m = Ok a ∧ k a = Ok b.
Proof. destruct m; simpl; naive_solver. Qed.

Lemma existsb_elem_of {A} (f : A → bool) (l : list A) :
  existsb f l = true ↔ ∃ x, x ∈ l ∧ f x = true.
Proof.
  rewrite existsb_exists. split; intros (x & Hx & Hf); exists x; split; auto.
  - by apply list_elem_of_In.
  - by apply list_elem_of_In in Hx.
Qed.

Lemma existsb_bool_decide_eq `{EqDecision A} (x : A) (l : list A) :
  existsb (λ y, bool_decide (y = x)) l = bool_decide (x ∈ l).
Proof.
  apply eq_bool_prop_intro. rewrite !Is_true_true, existsb_elem_of, bool_decide_eq_true.
  split; [|by exists x; rewrite bool_decide_eq_true].
  intros (y & Hy & E). by apply bool_decide_eq_true in E as ->.
Qed.

(** Counting the elements of a list that satisfy a predicate. *)
Lemma filter_elem_ext {A} (P Q : A → Prop) `{∀ x, Decision (P x), ∀ x, Decision (Q x)} (l : list A) :
  (∀ x, x ∈ l → P x ↔ Q x) → filter P l = filter Q l.
Proof.
  induction l as [|x l IH]; intros HPQ; [done|]. rewrite !filter_cons, IH by set_solver.
  pose proof (HPQ x ltac:(by left)). repeat case_decide; done || naive_solver.
Qed.

Lemma filter_split_length {A} (P Q R : A → Prop)
    `{∀ x, Decision (P x), ∀ x, Decision (Q x), ∀ x, Decision (R x)} (l : list A) :
  (∀ x, x ∈ l → P x ↔ Q x ∨ R x) → (∀ x, x ∈ l → Q x → R x → False) →
  length (filter P l) = length (filter Q l) + length (filter R l).
Proof.
  induction l as [|x l IH]; intros Hor Hdis; [done|]. rewrite !filter_cons.
  specialize (IH ltac:(set_solver) ltac:(set_solver)).
  pose proof (Hor x ltac:(by left)). pose proof (Hdis x ltac:(by left)).
  repeat case_decide; simpl; try lia; naive_solver.
Qed.

Lemma filter_seq_lookup {A} (P : A → Prop) `{∀ x, Decision (P x)} (d : A) (l : list A) :
  length (filter P l) = length (filter (λ j, P (default d (l !! j))) (seq 0 (length l))).
Proof.
  induction l as [|x l IH] using rev_ind; [done|].
  rewrite filter_app, !length_app, seq_app, filter_app, length_app. cbn [length Nat.add seq].
  rewrite !filter_cons, !filter_nil, lookup_app_r, Nat.sub_diag by lia. cbn [lookup list_lookup default].
  replace (length (filter (λ j, P (default d ((l ++ [x]) !! j))) (seq 0 (length l)))) with (length (filter P l)).
  { change (default d (Some x)) with x. by repeat case_decide. }
  rewrite IH. f_equal. apply filter_elem_ext. intros j Hj%elem_of_seq. rewrite lookup_app_l by lia. done.
Qed.

(** ** Automation *)

(** Case analysis on every boolean test or match left in the goal. *)
Ltac crush_cases :=
  repeat (case_match || case_bool_decide || case_decide); simplify_eq/=; try done.

Create HintDb cruft.
Create Rewrite HintDb cruft.
#[export] Hint Resolve split_char_not_nil : cruft.
#[export] Hint Rewrite @string_join_split : cruft.
