(* ===== verification/Paths.v ===== *)
(** * Paths: [std::path::Path] on Unix

    The capability policies compare paths with [Path::starts_with], [==],
    [is_absolute] and [join].  Those compare lexical components, as the Rust
    library documents them: a leading root, a leading [.] (only at the start of
    a relative path), [..] kept as it is, empty and other [.] segments dropped. *)

From S2P Require Import Prelude.

Inductive component :=
| RootDir
| CurDir
| ParentDir
| Normal (s : string).

#[export] Instance component_eq_dec : EqDecision component.
Proof. solve_decision. Defined.

Definition slash : char := "/"%char.

Definition is_absolute (p : string) : bool := string_starts_with "/" p.

Definition segment_component (seg : string) : option component :=
  if bool_decide (seg = "" ∨ seg = ".") then None
  else if bool_decide (seg = "..") then Some ParentDir
  else Some (Normal seg).

Definition leading_cur_dir (p : string) : list component :=
  if bool_decide (head (split_char slash p) = Some ".") then [CurDir] else [].

(** [Path::components]. *)
Definition components (p : string) : list component :=
  (if is_absolute p then [RootDir] else leading_cur_dir p)
  ++ omap segment_component (split_char slash p).

(** [Path::starts_with]: the base's components are a prefix. *)
Definition path_starts_with (p base : string) : bool :=
  bool_decide (components base `prefix_of` components p).

(** [Path: PartialEq]: equal components. *)
Definition path_eq (p q : string) : bool := bool_decide (components p = components q).

Definition string_ends_with_slash (s : string) : bool :=
  bool_decide (last (String.list_ascii_of_string s) = Some slash).

(** [Path::join] (through [PathBuf::push]). *)
Definition path_join (base p : string) : string :=
  if is_absolute p then p
  else if bool_decide (base = "") || string_ends_with_slash base then (base +:+ p)%string
  else (base +:+ "/" +:+ p)%string.

(** ** Lemmas *)

Lemma split_char_app c a b :
  split_char c (a +:+ String c b) = split_char c a ++ split_char c b.
Proof.
  induction a as [|x a IH]; rewrite ?string_app_nil_l, ?string_app_cons; simpl.
  { by rewrite bool_decide_eq_true_2. }
  case_bool_decide; [by rewrite IH|]. rewrite IH.
  destruct (split_char c a) as [|w ws] eqn:E; [by destruct (split_char_not_nil c a)|done].
Qed.

Lemma head_split_char_app c a b :
  head (split_char c (a +:+ String c b)) = head (split_char c a).
Proof.
  rewrite split_char_app.
  destruct (split_char c a) eqn:E; [by destruct (split_char_not_nil c a)|done].
Qed.

(** Appending [/s] to a path appends the components of [s], [..] included. *)
Lemma components_app p s :
  p ≠ "" →
  components (p +:+ "/" +:+ s) = components p ++ omap segment_component (split_char slash s).
Proof.
  intros Hp. unfold components, leading_cur_dir.
  change ("/" +:+ s) with (String slash s).
  rewrite head_split_char_app, split_char_app, omap_app, (assoc (++)).
  destruct p; [done|]. unfold is_absolute. simpl. by rewrite !andb_true_r.
Qed.

Lemma ends_with_slash_inv s :
  string_ends_with_slash s = true → ∃ s', s = s' +:+ "/".
Proof.
  unfold string_ends_with_slash. rewrite bool_decide_eq_true, last_Some. intros [l Hl].
  exists (String.string_of_list_ascii l).
  rewrite <-(String.string_of_list_ascii_of_string s), Hl.
  clear. induction l as [|a l IH]; simpl; [done|]. by rewrite string_app_cons, IH.
Qed.

(** Joining a relative path to an absolute directory. *)
Lemma components_join cwd p :
  is_absolute cwd = true → is_absolute p = false →
  components (path_join cwd p) = components cwd ++ omap segment_component (split_char slash p).
Proof.
  intros Hc Hp. unfold path_join. rewrite Hp.
  destruct (decide (cwd = "")) as [->|Hne]; [done|].
  rewrite bool_decide_eq_false_2 by done. simpl.
  destruct (string_ends_with_slash cwd) eqn:E; [|by apply components_app].
  apply ends_with_slash_inv in E as [c ->]. rewrite string_app_assoc.
  destruct (decide (c = "")) as [->|Hc']; [done|].
  rewrite components_app by done.
  rewrite <-(string_app_nil_r "/"), components_app by done.
  simpl. by rewrite app_nil_r.
Qed.

Lemma path_starts_with_refl p : path_starts_with p p = true.
Proof. by apply bool_decide_eq_true. Qed.

Lemma path_starts_with_trans p q r :
  path_starts_with p q = true → path_starts_with q r = true → path_starts_with p r = true.
Proof. unfold path_starts_with. rewrite !bool_decide_eq_true. intros ??. by etrans. Qed.

Example components_abs : components "/a//b/./c/" = [RootDir; Normal "a"; Normal "b"; Normal "c"].
Proof. vm_compute. reflexivity. Qed.

Example components_rel : components "./a/../b" = [CurDir; Normal "a"; ParentDir; Normal "b"].
Proof. vm_compute. reflexivity. Qed.
