(* ===== verification/Json.v ===== *)
(** * Json: the JSON document type
    (src/crates/rusty-json-manifest/src/lib.rs)

    The value type with its insertion-ordered, duplicate-keeping object
    representation and the accessors the capability configuration reads with. *)

From S2P Require Import Prelude.

(** [JsonNumber] keeps the source text of the number. *)
Record JsonNumber := { raw : string }.

(** [JsonValue] with [Map] (a vector of entries) written in place. *)
Inductive JsonValue :=
| JNull
| JBool (b : bool)
| JNumber (n : JsonNumber)
| JString (s : string)
| JArray (vs : list JsonValue)
| JObject (entries : list (string * JsonValue)).

Definition Map : Type := list (string * JsonValue).

Definition Map_new : Map := [].

(** [Map::insert]: overwrites the first entry of the key, or appends. *)
Fixpoint Map_insert (m : Map) (key : string) (value : JsonValue) : Map * option JsonValue :=
  match m with
  | [] => ([(key, value)], None)
  | (k, v) :: m' =>
      if bool_decide (k = key) then ((k, value) :: m', Some v)
      else let '(m2, old) := Map_insert m' key value in ((k, v) :: m2, old)
  end.

(** [Map::get]: the first entry of the key. *)
Fixpoint Map_get (m : Map) (key : string) : option JsonValue :=
  match m with
  | [] => None
  | (k, v) :: m' => if bool_decide (k = key) then Some v else Map_get m' key
  end.

(** [Map::get_last]: the last entry of the key. *)
Definition Map_get_last (m : Map) (key : string) : option JsonValue := Map_get (reverse m) key.

Definition Map_len (m : Map) : nat := length m.
Definition Map_keys (m : Map) : list string := m.*1.

Definition JsonValue_get (v : JsonValue) (key : string) : option JsonValue :=
  match v with JObject entries => Map_get entries key | _ => None end.

Definition JsonValue_get_last (v : JsonValue) (key : string) : option JsonValue :=
  match v with JObject entries => Map_get_last entries key | _ => None end.

Definition JsonValue_as_str (v : JsonValue) : option string :=
  match v with JString s => Some s | _ => None end.

Definition JsonValue_as_array (v : JsonValue) : option (list JsonValue) :=
  match v with JArray a => Some a | _ => None end.

Definition JsonValue_as_object (v : JsonValue) : option Map :=
  match v with JObject o => Some o | _ => None end.

Definition JsonValue_as_bool (v : JsonValue) : option bool :=
  match v with JBool b => Some b | _ => None end.

Definition JsonValue_as_u64 (v : JsonValue) : option Z :=
  match v with JNumber n => parse_uint u64_max (raw n) | _ => None end.

(** A key read back after an insertion, and the others untouched. *)
Lemma Map_get_insert m k v k' :
  Map_get (Map_insert m k v).1 k' = if decide (k = k') then Some v else Map_get m k'.
Proof.
  induction m as [|[k0 v0] m IH]; simpl.
  - repeat case_bool_decide; case_decide; congruence.
  - destruct (Map_insert m k v) as [m2 old] eqn:E. simpl in IH.
    repeat (case_bool_decide; simpl); subst; repeat case_decide; simplify_eq; auto.
Qed.

Lemma Map_insert_old m k v : (Map_insert m k v).2 = Map_get m k.
Proof.
  induction m as [|[k0 v0] m IH]; simpl; [done|].
  case_bool_decide; [done|]. by destruct (Map_insert m k v).
Qed.
