(* ===== verification/Caps.v ===== *)
(** * Caps: the capability dispatcher
    (src/crates/rusty-js-runtime/src/caps.rs)

    Every host operation a module attempts goes through one of the
    [CapDispatcher::require_*] endpoints.  The file models the policy types, the
    dispatcher's state (mode, ambient capabilities, process-wide net grant,
    audit log, per-module grants) and the eight endpoints, each on every branch.

    The class [Endpoint] is the interface the dispatcher promises to the rest of
    the runtime; every endpoint is an instance, and the security theorems are
    proved once against the class. *)

From S2P Require Import Prelude Paths.

(** ** Environment the code reads: the working directory and the clock *)

Record SysEnv := {
  current_dir : option string;      (* std::env::current_dir().ok() *)
  micros_since_epoch : option Z;    (* SystemTime::now().duration_since(UNIX_EPOCH) *)
}.

(** ** Modes, provenance, modules *)

Inductive CapMode := Compat | Audit | SealedDeps | Sealed.

#[export] Instance CapMode_eq_dec : EqDecision CapMode.
Proof. solve_decision. Defined.

Definition CapMode_default : CapMode := Compat.

Definition CapMode_as_str (m : CapMode) : string :=
  match m with
  | Compat => "compat"
  | Audit => "audit"
  | SealedDeps => "sealed-deps"
  | Sealed => "sealed"
  end.

Definition CapMode_from_str (s : string) : option CapMode :=
  if bool_decide (s = "compat" ∨ s = "0") then Some Compat
  else if bool_decide (s = "audit" ∨ s = "1") then Some Audit
  else if bool_decide (s = "sealed-deps" ∨ s = "2") then Some SealedDeps
  else if bool_decide (s = "sealed" ∨ s = "3") then Some Sealed
  else None.

Inductive ModuleProvenance := Application | Dependency | External | Builtin.

Definition is_application (p : ModuleProvenance) : bool :=
  match p with Application | Builtin => true | _ => false end.

Record ModuleId := { url : string; provenance : ModuleProvenance }.

Definition ModuleId_application (u : string) : ModuleId := {| url := u; provenance := Application |}.
Definition ModuleId_dependency (u : string) : ModuleId := {| url := u; provenance := Dependency |}.
Definition ModuleId_builtin (u : string) : ModuleId := {| url := u; provenance := Builtin |}.

Record CapabilityError := {
  capability : string;
  operation : string;
  calling_module : string;
  err_mode : CapMode;
  hint : option string;
}.

(** [impl Display for CapabilityError]. *)
Definition CapabilityError_fmt (e : CapabilityError) : string :=
  capability e +:+ "." +:+ operation e +:+ ": no " +:+ capability e
  +:+ " capability granted to module '" +:+ calling_module e +:+ "' (mode: "
  +:+ CapMode_as_str (err_mode e) +:+ ")"
  +:+ match hint e with Some h => " — hint: " +:+ h | None => "" end.

(** ** File system policies *)

Inductive PathPolicy :=
| PathNone
| PathAny
| PathPrefix (p : string)
| PathPrefixes (ps : list string)
| PathExact (ps : list string).

Definition PathPolicy_allows (pol : PathPolicy) (path : string) : bool :=
  match pol with
  | PathNone => false
  | PathAny => true
  | PathPrefix p => path_starts_with path p
  | PathPrefixes ps => existsb (path_starts_with path) ps
  | PathExact ps => existsb (λ p, path_eq p path) ps
  end.

Definition path_allowed_for_fs_op (env : SysEnv) (pol : PathPolicy) (path : string) : bool :=
  if PathPolicy_allows pol path then true
  else if is_absolute path then false
  else match current_dir env with
       | Some cwd => PathPolicy_allows pol (path_join cwd path)
       | None => false
       end.

Record Fs := {
  fs_read : PathPolicy; fs_write : PathPolicy; fs_list : PathPolicy;
  fs_stat : PathPolicy; fs_mkdir : PathPolicy; fs_remove : PathPolicy;
}.

Definition Fs_full : Fs :=
  {| fs_read := PathAny; fs_write := PathAny; fs_list := PathAny;
     fs_stat := PathAny; fs_mkdir := PathAny; fs_remove := PathAny |}.

Definition Fs_none : Fs :=
  {| fs_read := PathNone; fs_write := PathNone; fs_list := PathNone;
     fs_stat := PathNone; fs_mkdir := PathNone; fs_remove := PathNone |}.

Definition narrow (prefix : string) (p : PathPolicy) : PathPolicy :=
  match p with PathNone => PathNone | _ => PathPrefix prefix end.

Definition Fs_sub_dir (fs : Fs) (prefix : string) : Fs :=
  {| fs_read := narrow prefix (fs_read fs); fs_write := narrow prefix (fs_write fs);
     fs_list := narrow prefix (fs_list fs); fs_stat := narrow prefix (fs_stat fs);
     fs_mkdir := narrow prefix (fs_mkdir fs); fs_remove := narrow prefix (fs_remove fs) |}.

Definition Fs_read_only (fs : Fs) : Fs :=
  {| fs_read := fs_read fs; fs_list := fs_list fs; fs_stat := fs_stat fs;
     fs_write := PathNone; fs_mkdir := PathNone; fs_remove := PathNone |}.

Inductive FsOp :=
| FsRead (p : string) | FsWrite (p : string) | FsList (p : string)
| FsStat (p : string) | FsMkdir (p : string) | FsRemove (p : string).

Definition FsOp_describe (op : FsOp) : string :=
  match op with
  | FsRead p => "read(" +:+ p +:+ ")"
  | FsWrite p => "write(" +:+ p +:+ ")"
  | FsList p => "list(" +:+ p +:+ ")"
  | FsStat p => "stat(" +:+ p +:+ ")"
  | FsMkdir p => "mkdir(" +:+ p +:+ ")"
  | FsRemove p => "remove(" +:+ p +:+ ")"
  end.

Definition FsOp_policy (op : FsOp) (cap : Fs) : PathPolicy * string * string :=
  match op with
  | FsRead p => (fs_read cap, "read", p)
  | FsWrite p => (fs_write cap, "write", p)
  | FsList p => (fs_list cap, "list", p)
  | FsStat p => (fs_stat cap, "stat", p)
  | FsMkdir p => (fs_mkdir cap, "mkdir", p)
  | FsRemove p => (fs_remove cap, "remove", p)
  end.

(** ** Standard output, clock, scheduler, process *)

Record Stdio := { stdout : bool; stderr : bool }.
Definition Stdio_full : Stdio := {| stdout := true; stderr := true |}.
Definition Stdio_none : Stdio := {| stdout := false; stderr := false |}.

Inductive StdioOp := Stdout (bytes : list Z) | Stderr (bytes : list Z).

(** [std::time::Duration]: whole seconds and the nanoseconds below one second. *)
Record Duration := { secs : Z; nanos : Z }.
Definition Duration_ZERO : Duration := {| secs := 0; nanos := 0 |}.
Definition as_millis (d : Duration) : Z := secs d * 1000 + nanos d `div` 1000000.

Inductive ClockResolution := Disabled | Coarse (d : Duration) | Fine.
Record Clock := { resolution : ClockResolution }.
Definition Clock_fine : Clock := {| resolution := Fine |}.
Definition Clock_disabled : Clock := {| resolution := Disabled |}.
Definition Clock_coarse (d : Duration) : Clock := {| resolution := Coarse d |}.

Inductive ClockOp := Now | HighResolution.

Record Scheduler := { timers : bool; microtasks : bool; min_delay : Duration }.
Definition Scheduler_full : Scheduler :=
  {| timers := true; microtasks := true; min_delay := Duration_ZERO |}.
Definition Scheduler_none : Scheduler :=
  {| timers := false; microtasks := false; min_delay := Duration_ZERO |}.

Inductive SchedulerOp := Timer (d : Duration) | Microtask.

Record Process := {
  may_exit : bool; may_read_cwd : bool; may_read_pid : bool; may_spawn : bool;
}.
Definition Process_full : Process :=
  {| may_exit := true; may_read_cwd := true; may_read_pid := true; may_spawn := true |}.
Definition Process_none : Process :=
  {| may_exit := false; may_read_cwd := false; may_read_pid := false; may_spawn := false |}.

Inductive ProcessOp := Exit (code : Z) | ReadCwd | ReadPid | Spawn (program : string).

(** ** Environment variables *)

Inductive EnvVarPolicy := VarNone | VarAny | VarWhitelist (ws : list string).

Definition EnvVarPolicy_allows (p : EnvVarPolicy) (name : string) : bool :=
  match p with
  | VarNone => false
  | VarAny => true
  | VarWhitelist ws => existsb (λ w, bool_decide (w = name)) ws
  end.

Record Env := { vars : EnvVarPolicy; system_info : bool }.
Definition Env_full : Env := {| vars := VarAny; system_info := true |}.
Definition Env_none : Env := {| vars := VarNone; system_info := false |}.

Inductive EnvOp := ReadVar (name : string) | SystemInfo (field : string).

(** ** Network *)

Record NetEndpoint := { host : string; port : Z }.
Definition NetEndpoint_new (h : string) (p : Z) : NetEndpoint := {| host := h; port := p |}.
Definition NetEndpoint_matches (ep : NetEndpoint) (h : string) (p : Z) : bool :=
  bool_decide (host ep = h) && bool_decide (port ep = p).

Definition is_loopback_host (h : string) : bool :=
  bool_decide (h = "127.0.0.1" ∨ h = "localhost" ∨ h = "::1" ∨ h = "[::1]").

Inductive NetListenPolicy :=
| ListenNone | ListenAny | ListenLoopbackAnyPort | ListenExact (eps : list NetEndpoint).

Definition NetListenPolicy_allows (p : NetListenPolicy) (h : string) (pt : Z) : bool :=
  match p with
  | ListenNone => false
  | ListenAny => true
  | ListenLoopbackAnyPort => is_loopback_host h
  | ListenExact eps => existsb (λ ep, NetEndpoint_matches ep h pt) eps
  end.

Inductive NetConnectPolicy :=
| ConnectNone | ConnectAny | ConnectLoopbackAnyPort
| ConnectHosts (hs : list string) | ConnectExact (eps : list NetEndpoint).

Definition NetConnectPolicy_allows (p : NetConnectPolicy) (h : string) (pt : Z) : bool :=
  match p with
  | ConnectNone => false
  | ConnectAny => true
  | ConnectLoopbackAnyPort => is_loopback_host h
  | ConnectHosts hs => existsb (λ x, bool_decide (x = h)) hs
  | ConnectExact eps => existsb (λ ep, NetEndpoint_matches ep h pt) eps
  end.

Record Net := { listen : NetListenPolicy; connect : NetConnectPolicy }.
Definition Net_full : Net := {| listen := ListenAny; connect := ConnectAny |}.
Definition Net_none : Net := {| listen := ListenNone; connect := ConnectNone |}.
Definition Net_loopback_server : Net :=
  {| listen := ListenLoopbackAnyPort; connect := ConnectLoopbackAnyPort |}.
Definition Net_listen_exact (h : string) (p : Z) : Net :=
  {| listen := ListenExact [NetEndpoint_new h p]; connect := ConnectNone |}.

Inductive NetOp := Listen (h : string) (p : Z) | Connect (h : string) (p : Z).

Definition NetOp_describe (op : NetOp) : string :=
  match op with
  | Listen h p => "listen(" +:+ h +:+ ":" +:+ pretty p +:+ ")"
  | Connect h p => "connect(" +:+ h +:+ ":" +:+ pretty p +:+ ")"
  end.

Definition NetOp_allows (op : NetOp) (cap : Net) : bool :=
  match op with
  | Listen h p => NetListenPolicy_allows (listen cap) h p
  | Connect h p => NetConnectPolicy_allows (connect cap) h p
  end.

(** The text of a [cruft-caps.json] grant: [{ "key": ["value"] }]. *)
Definition caps_json_entry (key value : string) : string :=
  "{ " +:+ dquote +:+ key +:+ dquote +:+ ": [" +:+ dquote +:+ value +:+ dquote +:+ "] }".

Definition NetOp_hint (op : NetOp) : string :=
  match op with
  | Listen h p => "add to cruft-caps.json: " +:+ caps_json_entry "net" (h +:+ ":" +:+ pretty p)
  | Connect h p => "add to cruft-caps.json: " +:+ caps_json_entry "net" (h +:+ ":" +:+ pretty p)
  end.

(** ** The dispatcher's state *)

Record AmbientCaps := {
  amb_fs : Fs; amb_stdio : Stdio; amb_clock : Clock; amb_scheduler : Scheduler;
  amb_process : Process; amb_env : Env; amb_net : Net;
}.

Definition AmbientCaps_full : AmbientCaps :=
  {| amb_fs := Fs_full; amb_stdio := Stdio_full; amb_clock := Clock_fine;
     amb_scheduler := Scheduler_full; amb_process := Process_full;
     amb_env := Env_full; amb_net := Net_full |}.

Record AuditRecord := {
  rec_caller : string; rec_capability : string; rec_operation : string;
  rec_timestamp_micros : Z;
}.

Record AuditLog := { records : list AuditRecord }.

Definition AuditLog_record (env : SysEnv) (caller : ModuleId) (cap op : string)
    (log : AuditLog) : AuditLog :=
  let ts := default 0%Z (micros_since_epoch env) in
  {| records := records log ++
       [{| rec_caller := url caller; rec_capability := cap; rec_operation := op;
           rec_timestamp_micros := ts |}] |}.

Record ModuleGrant := {
  grant_fs : Fs; grant_net : Net; grant_env : Env; grant_process : Process;
  grant_stdio : Stdio;
}.

Record CapDispatcher := {
  mode : CapMode;
  ambient : AmbientCaps;
  net_grant : Net;
  audit : mutex AuditLog;
  per_module : mutex (gmap string ModuleGrant);
}.

Definition CapDispatcher_new (m : CapMode) : CapDispatcher :=
  {| mode := m; ambient := AmbientCaps_full; net_grant := Net_none;
     audit := mutex_new {| records := [] |}; per_module := mutex_new ∅ |}.

Definition set_audit (a : mutex AuditLog) (d : CapDispatcher) : CapDispatcher :=
  {| mode := mode d; ambient := ambient d; net_grant := net_grant d;
     audit := a; per_module := per_module d |}.

Definition grant_module (d : CapDispatcher) (u : string) (fs : Fs) (net : Net)
    (env : Env) (process : Process) (stdio : Stdio) : CapDispatcher :=
  {| mode := mode d; ambient := ambient d; net_grant := net_grant d; audit := audit d;
     per_module := mutex_update
       (insert u {| grant_fs := fs; grant_net := net; grant_env := env;
                    grant_process := process; grant_stdio := stdio |})
       (per_module d) |}.

Definition module_grant (d : CapDispatcher) (u : string) : option ModuleGrant :=
  mutex_read (λ g : gmap string ModuleGrant, g !! u) (per_module d).

Definition with_net_grant (d : CapDispatcher) (net : Net) : CapDispatcher :=
  {| mode := mode d; ambient := ambient d; net_grant := net;
     audit := audit d; per_module := per_module d |}.

Definition CapDispatcher_compat : CapDispatcher := CapDispatcher_new Compat.
Definition CapDispatcher_audit_mode : CapDispatcher := CapDispatcher_new Audit.

(** [drain_audit]: panics when the log's mutex is poisoned. *)
Definition drain_audit (d : CapDispatcher) : outcome (CapDispatcher * list AuditRecord) :=
  if poisoned (audit d) then Panic
  else Ret (set_audit (Mutex false {| records := [] |}) d, records (guarded (audit d))).

Definition record_audit (env : SysEnv) (d : CapDispatcher) (caller : ModuleId)
    (cap op : string) : CapDispatcher :=
  match mode d with
  | Audit => set_audit (mutex_update (AuditLog_record env caller cap op) (audit d)) d
  | _ => d
  end.

(** [Option::is_some_and]. *)
Definition is_some_and {A} (f : A → bool) (o : option A) : bool :=
  match o with Some a => f a | None => false end.

(** ** The endpoints *)

Definition require_fs (env : SysEnv) (d : CapDispatcher) (cap : Fs) (op : FsOp)
    (caller : ModuleId) : CapDispatcher * result () CapabilityError :=
  let op_desc := FsOp_describe op in
  let d' := record_audit env d caller "fs" op_desc in
  let sealed :=
    let '(policy, action, path) := FsOp_policy op cap in
    let granted := is_some_and
      (λ g, path_allowed_for_fs_op env (FsOp_policy op (grant_fs g)).1.1 path)
      (module_grant d (url caller)) in
    if path_allowed_for_fs_op env policy path || granted then Ok ()
    else Err {| capability := "fs"; operation := op_desc; calling_module := url caller;
                err_mode := mode d;
                hint := Some ("add to cruft-caps.json: " +:+ caps_json_entry "fs" path
                              +:+ " for fs " +:+ action) |} in
  (d', match mode d with
       | Compat | Audit => Ok ()
       | SealedDeps => if is_application (provenance caller) then Ok () else sealed
       | Sealed => sealed
       end).

Definition require_stdio (env : SysEnv) (d : CapDispatcher) (cap : Stdio) (op : StdioOp)
    (caller : ModuleId) : CapDispatcher * result () CapabilityError :=
  let '(allowed, stream) :=
    match op with Stdout _ => (stdout cap, "stdout") | Stderr _ => (stderr cap, "stderr") end in
  let op_desc := "write(" +:+ stream +:+ ")" in
  let d' := record_audit env d caller "stdio" op_desc in
  let sealed :=
    let granted := is_some_and
      (λ g, match op with
            | Stdout _ => stdout (grant_stdio g)
            | Stderr _ => stderr (grant_stdio g)
            end) (module_grant d (url caller)) in
    if allowed || granted then Ok ()
    else Err {| capability := "stdio"; operation := op_desc; calling_module := url caller;
                err_mode := mode d;
                hint := Some ("add to cruft-caps.json: { " +:+ dquote +:+ "stdio" +:+ dquote
                              +:+ ": { " +:+ dquote +:+ stream +:+ dquote +:+ ": true } }") |} in
  (d', match mode d with
       | Compat | Audit => Ok ()
       | SealedDeps => if is_application (provenance caller) then Ok () else sealed
       | Sealed => sealed
       end).

Definition require_clock (env : SysEnv) (d : CapDispatcher) (cap : Clock) (op : ClockOp)
    (caller : ModuleId) : CapDispatcher * result () CapabilityError :=
  let op_desc := match op with Now => "now()" | HighResolution => "highResolution()" end in
  let d' := record_audit env d caller "clock" op_desc in
  let sealed :=
    match resolution cap with
    | Disabled =>
        Err {| capability := "clock"; operation := op_desc; calling_module := url caller;
               err_mode := mode d;
               hint := Some "no cruft-caps.json grant surface exists for clock yet; avoid clock access or run outside --sealed" |}
    | _ => Ok ()
    end in
  (d', match mode d with
       | Compat | Audit => Ok ()
       | SealedDeps => if is_application (provenance caller) then Ok () else sealed
       | Sealed => sealed
       end).

Definition require_scheduler (env : SysEnv) (d : CapDispatcher) (cap : Scheduler)
    (op : SchedulerOp) (caller : ModuleId) : CapDispatcher * result () CapabilityError :=
  let '(allowed, kind, op_desc) :=
    match op with
    | Timer dur => (timers cap, "timers", "timer(" +:+ pretty (as_millis dur) +:+ "ms)")
    | Microtask => (microtasks cap, "microtasks", "microtask")
    end in
  let d' := record_audit env d caller "scheduler" op_desc in
  let sealed :=
    if (allowed : bool) then Ok ()
    else Err {| capability := "scheduler"; operation := op_desc; calling_module := url caller;
                err_mode := mode d;
                hint := Some ("no cruft-caps.json grant surface exists for scheduler " +:+ kind
                              +:+ " yet; avoid scheduler access or run outside --sealed") |} in
  (d', match mode d with
       | Compat | Audit => Ok ()
       | SealedDeps => if is_application (provenance caller) then Ok () else sealed
       | Sealed => sealed
       end).

Definition process_allows_by (op : ProcessOp) (c : Process) : bool :=
  match op with
  | Exit _ => may_exit c
  | ReadCwd => may_read_cwd c
  | ReadPid => may_read_pid c
  | Spawn _ => may_spawn c
  end.

Definition require_process (env : SysEnv) (d : CapDispatcher) (cap : Process) (op : ProcessOp)
    (caller : ModuleId) : CapDispatcher * result () CapabilityError :=
  let '(allowed, op_desc) :=
    match op with
    | Exit c => (may_exit cap, "exit(" +:+ pretty c +:+ ")")
    | ReadCwd => (may_read_cwd cap, "cwd()")
    | ReadPid => (may_read_pid cap, "pid")
    | Spawn program => (may_spawn cap, "spawn(" +:+ program +:+ ")")
    end in
  let d' := record_audit env d caller "process" op_desc in
  let sealed :=
    let granted := is_some_and (λ g, process_allows_by op (grant_process g))
                     (module_grant d (url caller)) in
    if allowed || granted then Ok ()
    else
      let h := match op with
               | Spawn program => "add to cruft-caps.json: " +:+ caps_json_entry "exec" program
               | Exit _ => "no cruft-caps.json grant surface exists for process exit yet; avoid process.exit or run outside --sealed"
               | ReadCwd => "no cruft-caps.json grant surface exists for process cwd yet; avoid process.cwd or run outside --sealed"
               | ReadPid => "no cruft-caps.json grant surface exists for process pid yet; avoid process.pid or run outside --sealed"
               end in
      Err {| capability := "process"; operation := op_desc; calling_module := url caller;
             err_mode := mode d; hint := Some h |} in
  (d', match mode d with
       | Compat | Audit => Ok ()
       | SealedDeps => if is_application (provenance caller) then Ok () else sealed
       | Sealed => sealed
       end).

Definition env_allowed_by (op : EnvOp) (c : Env) : bool :=
  match op with
  | ReadVar name => EnvVarPolicy_allows (vars c) name
  | SystemInfo _ => system_info c
  end.

Definition require_env (env : SysEnv) (d : CapDispatcher) (cap : Env) (op : EnvOp)
    (caller : ModuleId) : CapDispatcher * result () CapabilityError :=
  let op_desc :=
    match op with
    | ReadVar name => "readVar(" +:+ name +:+ ")"
    | SystemInfo field => "systemInfo(" +:+ field +:+ ")"
    end in
  let d' := record_audit env d caller "env" op_desc in
  let sealed :=
    let granted := is_some_and (λ g, env_allowed_by op (grant_env g))
                     (module_grant d (url caller)) in
    if env_allowed_by op cap || granted then Ok ()
    else
      let h := match op with
               | ReadVar name => "add to cruft-caps.json: " +:+ caps_json_entry "env" name
               | SystemInfo _ => "no cruft-caps.json grant surface exists for env systemInfo yet; avoid systemInfo access or run outside --sealed"
               end in
      Err {| capability := "env"; operation := op_desc; calling_module := url caller;
             err_mode := mode d; hint := Some h |} in
  (d', match mode d with
       | Compat | Audit => Ok ()
       | SealedDeps => if is_application (provenance caller) then Ok () else sealed
       | Sealed => sealed
       end).

Definition require_net (env : SysEnv) (d : CapDispatcher) (cap : Net) (op : NetOp)
    (caller : ModuleId) : CapDispatcher * result () CapabilityError :=
  let op_desc := NetOp_describe op in
  let d' := record_audit env d caller "net" op_desc in
  let sealed :=
    let granted := is_some_and (λ g, NetOp_allows op (grant_net g))
                     (module_grant d (url caller)) in
    if NetOp_allows op cap || NetOp_allows op (net_grant d) || granted then Ok ()
    else Err {| capability := "net"; operation := op_desc; calling_module := url caller;
                err_mode := mode d; hint := Some (NetOp_hint op) |} in
  (d', match mode d with
       | Compat | Audit => Ok ()
       | SealedDeps => if is_application (provenance caller) then Ok () else sealed
       | Sealed => sealed
       end).

Definition has_explicit_net_grant (d : CapDispatcher) (op : NetOp) (caller : ModuleId) : bool :=
  NetOp_allows op (net_grant d)
  || is_some_and (λ g, NetOp_allows op (grant_net g)) (module_grant d (url caller)).

Definition require_native_addon_load (env : SysEnv) (d : CapDispatcher) (path : string)
    (caller : ModuleId) : CapDispatcher * result () CapabilityError :=
  let op_desc := "dlopen(" +:+ path +:+ ")" in
  let d' := record_audit env d caller "native-addon" op_desc in
  (d', match mode d with
       | Compat | Audit => Ok ()
       | SealedDeps | Sealed =>
           Err {| capability := "native-addon"; operation := op_desc;
                  calling_module := url caller; err_mode := mode d;
                  hint := Some ".node native addons execute arbitrary host code; run outside sealed modes" |}
       end).

(** ** The interface: what an endpoint promises

    [ep_holds]: the capability value presented allows the operation;
    [ep_process_wide]: the dispatcher's own net grant does;
    [ep_grant_allows]: the grant recorded for the calling module does;
    [ep_app_exempt]: application modules pass unchecked under [SealedDeps]. *)

Class Endpoint (Cap Op : Type) := {
  ep_name : string;
  ep_describe : Op → string;
  ep_hint : Cap → Op → string;
  ep_app_exempt : bool;
  ep_holds : SysEnv → Cap → Op → bool;
  ep_process_wide : Net → Op → bool;
  ep_grant_allows : SysEnv → ModuleGrant → Op → bool;
  ep_require : SysEnv → CapDispatcher → Cap → Op → ModuleId →
               CapDispatcher * result () CapabilityError;
  ep_require_spec : ∀ env d cap op caller,
    ep_require env d cap op caller =
      (record_audit env d caller ep_name (ep_describe op),
       if match mode d with
          | Compat | Audit => true
          | SealedDeps => ep_app_exempt && is_application (provenance caller)
          | Sealed => false
          end
          || ep_holds env cap op || ep_process_wide (net_grant d) op
          || is_some_and (λ g, ep_grant_allows env g op) (module_grant d (url caller))
       then Ok ()
       else Err {| capability := ep_name; operation := ep_describe op;
                   calling_module := url caller; err_mode := mode d;
                   hint := Some (ep_hint cap op) |});
}.

(** Solves an endpoint's law: unfold it and compare the two decision trees. *)
Ltac solve_endpoint f :=
  intros env d cap op caller; unfold f; destruct op; simpl;
  destruct (mode d), (provenance caller), (module_grant d (url caller)); simpl;
  rewrite ?orb_false_r, ?orb_true_r; crush_cases.

#[export, refine] Instance fs_endpoint : Endpoint Fs FsOp := {|
  ep_name := "fs";
  ep_describe := FsOp_describe;
  ep_hint cap op := "add to cruft-caps.json: " +:+ caps_json_entry "fs" (FsOp_policy op cap).2
                    +:+ " for fs " +:+ (FsOp_policy op cap).1.2;
  ep_app_exempt := true;
  ep_holds env cap op :=
    path_allowed_for_fs_op env (FsOp_policy op cap).1.1 (FsOp_policy op cap).2;
  ep_process_wide _ _ := false;
  ep_grant_allows env g op :=
    path_allowed_for_fs_op env (FsOp_policy op (grant_fs g)).1.1 (FsOp_policy op (grant_fs g)).2;
  ep_require := require_fs |}.
Proof. solve_endpoint require_fs. Defined.

#[export, refine] Instance stdio_endpoint : Endpoint Stdio StdioOp := {|
  ep_name := "stdio";
  ep_describe op := "write(" +:+ match op with Stdout _ => "stdout" | Stderr _ => "stderr" end +:+ ")";
  ep_hint _ op := "add to cruft-caps.json: { " +:+ dquote +:+ "stdio" +:+ dquote +:+ ": { " +:+ dquote
    +:+ match op with Stdout _ => "stdout" | Stderr _ => "stderr" end +:+ dquote +:+ ": true } }";
  ep_app_exempt := true;
  ep_holds _ cap op := match op with Stdout _ => stdout cap | Stderr _ => stderr cap end;
  ep_process_wide _ _ := false;
  ep_grant_allows _ g op :=
    match op with Stdout _ => stdout (grant_stdio g) | Stderr _ => stderr (grant_stdio g) end;
  ep_require := require_stdio |}.
Proof. solve_endpoint require_stdio. Defined.

#[export, refine] Instance clock_endpoint : Endpoint Clock ClockOp := {|
  ep_name := "clock";
  ep_describe op := match op with Now => "now()" | HighResolution => "highResolution()" end;
  ep_hint _ _ := "no cruft-caps.json grant surface exists for clock yet; avoid clock access or run outside --sealed";
  ep_app_exempt := true;
  ep_holds _ cap _ := match resolution cap with Disabled => false | _ => true end;
  ep_process_wide _ _ := false;
  ep_grant_allows _ _ _ := false;
  ep_require := require_clock |}.
Proof. solve_endpoint require_clock. Defined.

#[export, refine] Instance scheduler_endpoint : Endpoint Scheduler SchedulerOp := {|
  ep_name := "scheduler";
  ep_describe op := match op with
    | Timer dur => "timer(" +:+ pretty (as_millis dur) +:+ "ms)" | Microtask => "microtask" end;
  ep_hint _ op := "no cruft-caps.json grant surface exists for scheduler "
    +:+ match op with Timer _ => "timers" | Microtask => "microtasks" end
    +:+ " yet; avoid scheduler access or run outside --sealed";
  ep_app_exempt := true;
  ep_holds _ cap op := match op with Timer _ => timers cap | Microtask => microtasks cap end;
  ep_process_wide _ _ := false;
  ep_grant_allows _ _ _ := false;
  ep_require := require_scheduler |}.
Proof. solve_endpoint require_scheduler. Defined.

#[export, refine] Instance process_endpoint : Endpoint Process ProcessOp := {|
  ep_name := "process";
  ep_describe op := match op with
    | Exit c => "exit(" +:+ pretty c +:+ ")" | ReadCwd => "cwd()" | ReadPid => "pid"
    | Spawn program => "spawn(" +:+ program +:+ ")" end;
  ep_hint _ op := match op with
    | Spawn program => "add to cruft-caps.json: " +:+ caps_json_entry "exec" program
    | Exit _ => "no cruft-caps.json grant surface exists for process exit yet; avoid process.exit or run outside --sealed"
    | ReadCwd => "no cruft-caps.json grant surface exists for process cwd yet; avoid process.cwd or run outside --sealed"
    | ReadPid => "no cruft-caps.json grant surface exists for process pid yet; avoid process.pid or run outside --sealed"
    end;
  ep_app_exempt := true;
  ep_holds _ cap op := process_allows_by op cap;
  ep_process_wide _ _ := false;
  ep_grant_allows _ g op := process_allows_by op (grant_process g);
  ep_require := require_process |}.
Proof. solve_endpoint require_process. Defined.

#[export, refine] Instance env_endpoint : Endpoint Env EnvOp := {|
  ep_name := "env";
  ep_describe op := match op with
    | ReadVar name => "readVar(" +:+ name +:+ ")"
    | SystemInfo field => "systemInfo(" +:+ field +:+ ")" end;
  ep_hint _ op := match op with
    | ReadVar name => "add to cruft-caps.json: " +:+ caps_json_entry "env" name
    | SystemInfo _ => "no cruft-caps.json grant surface exists for env systemInfo yet; avoid systemInfo access or run outside --sealed"
    end;
  ep_app_exempt := true;
  ep_holds _ cap op := env_allowed_by op cap;
  ep_process_wide _ _ := false;
  ep_grant_allows _ g op := env_allowed_by op (grant_env g);
  ep_require := require_env |}.
Proof. solve_endpoint require_env. Defined.

#[export, refine] Instance net_endpoint : Endpoint Net NetOp := {|
  ep_name := "net";
  ep_describe := NetOp_describe;
  ep_hint _ op := NetOp_hint op;
  ep_app_exempt := true;
  ep_holds _ cap op := NetOp_allows op cap;
  ep_process_wide net op := NetOp_allows op net;
  ep_grant_allows _ g op := NetOp_allows op (grant_net g);
  ep_require := require_net |}.
Proof. solve_endpoint require_net. Defined.

(** Loading a native addon takes no capability value: the path is the operation. *)
Inductive NativeOp := Dlopen (path : string).

Definition require_native (env : SysEnv) (d : CapDispatcher) (cap : ()) (op : NativeOp)
    (caller : ModuleId) : CapDispatcher * result () CapabilityError :=
  match op with Dlopen path => require_native_addon_load env d path caller end.

#[export, refine] Instance native_endpoint : Endpoint () NativeOp := {|
  ep_name := "native-addon";
  ep_describe op := match op with Dlopen path => "dlopen(" +:+ path +:+ ")" end;
  ep_hint _ _ := ".node native addons execute arbitrary host code; run outside sealed modes";
  ep_app_exempt := false;
  ep_holds _ _ _ := false;
  ep_process_wide _ _ := false;
  ep_grant_allows _ _ _ := false;
  ep_require := require_native |}.
Proof. unfold require_native. solve_endpoint require_native_addon_load. Defined.

(** ** Requests: every endpoint as one operation of the dispatcher *)

Inductive request :=
| ReqFs (cap : Fs) (op : FsOp)
| ReqStdio (cap : Stdio) (op : StdioOp)
| ReqClock (cap : Clock) (op : ClockOp)
| ReqScheduler (cap : Scheduler) (op : SchedulerOp)
| ReqProcess (cap : Process) (op : ProcessOp)
| ReqEnv (cap : Env) (op : EnvOp)
| ReqNet (cap : Net) (op : NetOp)
| ReqNative (path : string).

Definition dispatch (env : SysEnv) (d : CapDispatcher) (r : request) (caller : ModuleId) :
    CapDispatcher * result () CapabilityError :=
  match r with
  | ReqFs cap op => require_fs env d cap op caller
  | ReqStdio cap op => require_stdio env d cap op caller
  | ReqClock cap op => require_clock env d cap op caller
  | ReqScheduler cap op => require_scheduler env d cap op caller
  | ReqProcess cap op => require_process env d cap op caller
  | ReqEnv cap op => require_env env d cap op caller
  | ReqNet cap op => require_net env d cap op caller
  | ReqNative path => require_native_addon_load env d path caller
  end.

(** Elimination of a request into its endpoint. *)
Definition with_endpoint {R} (r : request)
    (k : ∀ Cap Op (E : Endpoint Cap Op), Cap → Op → R) : R :=
  match r with
  | ReqFs cap op => k _ _ fs_endpoint cap op
  | ReqStdio cap op => k _ _ stdio_endpoint cap op
  | ReqClock cap op => k _ _ clock_endpoint cap op
  | ReqScheduler cap op => k _ _ scheduler_endpoint cap op
  | ReqProcess cap op => k _ _ process_endpoint cap op
  | ReqEnv cap op => k _ _ env_endpoint cap op
  | ReqNet cap op => k _ _ net_endpoint cap op
  | ReqNative path => k _ _ native_endpoint () (Dlopen path)
  end.

Definition request_name (r : request) : string :=
  with_endpoint r (λ _ _ E _ _, ep_name).
Definition request_describe (r : request) : string :=
  with_endpoint r (λ _ _ E _ op, ep_describe op).
Definition request_hint (r : request) : string :=
  with_endpoint r (λ _ _ E cap op, ep_hint cap op).
Definition request_app_exempt (r : request) : bool :=
  with_endpoint r (λ _ _ E _ _, ep_app_exempt).

(** The three sources of authority for a request. *)
Definition held (env : SysEnv) (r : request) : bool :=
  with_endpoint r (λ _ _ E cap op, ep_holds env cap op).
Definition process_wide (net : Net) (r : request) : bool :=
  with_endpoint r (λ _ _ E _ op, ep_process_wide net op).
Definition grant_allows (env : SysEnv) (r : request) (g : ModuleGrant) : bool :=
  with_endpoint r (λ _ _ E _ op, ep_grant_allows env g op).

(** Whether the mode checks this request of this caller at all. *)
Definition checked (m : CapMode) (r : request) (caller : ModuleId) : bool :=
  match m with
  | Compat | Audit => false
  | SealedDeps => negb (request_app_exempt r && is_application (provenance caller))
  | Sealed => true
  end.

Definition authorised (env : SysEnv) (d : CapDispatcher) (r : request) (caller : ModuleId) : bool :=
  negb (checked (mode d) r caller) || held env r || process_wide (net_grant d) r
  || is_some_and (grant_allows env r) (module_grant d (url caller)).

Definition denial (d : CapDispatcher) (r : request) (caller : ModuleId) : CapabilityError :=
  {| capability := request_name r; operation := request_describe r;
     calling_module := url caller; err_mode := mode d; hint := Some (request_hint r) |}.

(** A run of the dispatcher over a sequence of requests, with the environment
    each one sees, and the results in order. *)
Fixpoint dispatch_all (d : CapDispatcher) (rs : list (SysEnv * request * ModuleId)) :
    CapDispatcher * list (result () CapabilityError) :=
  match rs with
  | [] => (d, [])
  | (env, r, caller) :: rs' =>
      let '(d1, res) := dispatch env d r caller in
      let '(d2, ress) := dispatch_all d1 rs' in
      (d2, res :: ress)
  end.

Definition audit_entry (q : SysEnv * request * ModuleId) : AuditRecord :=
  let '(env, r, caller) := q in
  {| rec_caller := url caller; rec_capability := request_name r;
     rec_operation := request_describe r;
     rec_timestamp_micros := default 0%Z (micros_since_epoch env) |}.

(** ** Lemmas *)

Lemma dispatch_spec env d r caller :
  dispatch env d r caller =
    (record_audit env d caller (request_name r) (request_describe r),
     if authorised env d r caller then Ok () else Err (denial d r caller)).
Proof.
  unfold authorised, checked, denial.
  destruct r as [cap op|cap op|cap op|cap op|cap op|cap op|cap op|path]; cbn.
  all: try (etransitivity; [refine (ep_require_spec env d cap op caller)|]).
  8: etransitivity; [refine (ep_require_spec env d tt (Dlopen path) caller)|].
  all: by destruct (mode d), (provenance caller).
Qed.

Lemma record_audit_frame env d caller cap op :
  mode (record_audit env d caller cap op) = mode d ∧
  net_grant (record_audit env d caller cap op) = net_grant d ∧
  per_module (record_audit env d caller cap op) = per_module d ∧
  ambient (record_audit env d caller cap op) = ambient d ∧
  poisoned (audit (record_audit env d caller cap op)) = poisoned (audit d).
Proof.
  unfold record_audit, mutex_update. destruct (mode d) eqn:E; simpl; rewrite ?E; auto.
  destruct (poisoned (audit d)) eqn:P; simpl; rewrite ?P; auto.
Qed.

(** A decision reads only the mode, the net grant and the caller's own grant. *)
Lemma authorised_ext env d1 d2 r caller :
  mode d1 = mode d2 → net_grant d1 = net_grant d2 →
  module_grant d1 (url caller) = module_grant d2 (url caller) →
  authorised env d1 r caller = authorised env d2 r caller.
Proof. intros Hm Hn Hg. unfold authorised. by rewrite Hm, Hn, Hg. Qed.

Lemma dispatch_result env d r caller :
  (dispatch env d r caller).2 = if authorised env d r caller then Ok () else Err (denial d r caller).
Proof. by rewrite dispatch_spec. Qed.

Lemma dispatch_ok_iff env d r caller :
  (dispatch env d r caller).2 = Ok () ↔ authorised env d r caller = true.
Proof. rewrite dispatch_result. by destruct (authorised env d r caller). Qed.

Lemma is_some_and_true {A} (f : A → bool) o :
  is_some_and f o = true ↔ ∃ a, o = Some a ∧ f a = true.
Proof. destruct o; simpl; split; [eauto|by intros (? & [= ->] & ?)|done|by intros (? & ? & ?)]. Qed.

Lemma module_grant_grant_ne d u u' fs net ev pr st :
  u ≠ u' → module_grant (grant_module d u fs net ev pr st) u' = module_grant d u'.
Proof.
  intros Hne. unfold module_grant, grant_module, mutex_update, mutex_read; simpl.
  destruct (poisoned (per_module d)) eqn:P; simpl; rewrite ?P; [done|].
  by rewrite lookup_insert_ne.
Qed.

Lemma module_grant_grant_eq d u fs net ev pr st :
  poisoned (per_module d) = false →
  module_grant (grant_module d u fs net ev pr st) u =
    Some {| grant_fs := fs; grant_net := net; grant_env := ev;
            grant_process := pr; grant_stdio := st |}.
Proof.
  intros P. unfold module_grant, grant_module, mutex_update, mutex_read; simpl.
  rewrite P. simpl. by rewrite lookup_insert_eq.
Qed.
