(* ===== verification/CapsSecurity.v ===== *)
(** * CapsSecurity: what the capability dispatcher guarantees

    The theorems about caps.rs: confinement of checked callers, monotonicity in
    the mode, isolation of per-module grants, the audit trail, the order on
    file-system capabilities and the operations that derive one capability from
    another. *)

From S2P Require Import Prelude Paths Caps.

(** ** Confinement *)

(** C1: a module the mode checks (every module under [Sealed], every module but
    the application's own under [SealedDeps], and any module that loads a native
    addon under either) is allowed an operation exactly when the capability it
    presents, the process-wide net grant or the grant recorded for that very
    module allows it; otherwise it gets the error that names the capability, the
    operation, the module and the mode.  No other source of authority exists. *)
Theorem sealed_confinement env d r caller :
  checked (mode d) r caller = true →
  (dispatch env d r caller).2 =
    if decide (held env r = true ∨ process_wide (net_grant d) r = true ∨
               is_some_and (grant_allows env r) (module_grant d (url caller)) = true)
    then Ok () else Err (denial d r caller).
Proof.
  intros Hc. rewrite dispatch_result. unfold authorised. rewrite Hc. simpl.
  destruct (held env r), (process_wide (net_grant d) r),
    (is_some_and (grant_allows env r) (module_grant d (url caller))); simpl; crush_cases; naive_solver.
Qed.

Definition no_env : SysEnv := {| current_dir := None; micros_since_epoch := None |}.
Definition lodash : ModuleId := ModuleId_dependency "file:///proj/node_modules/lodash/index.js".

Lemma sealed_confinement_witness :
  (dispatch no_env (CapDispatcher_new SealedDeps) (ReqEnv Env_none (ReadVar "SECRET")) lodash).2
    = Err (denial (CapDispatcher_new SealedDeps) (ReqEnv Env_none (ReadVar "SECRET")) lodash).
Proof.
  rewrite (sealed_confinement no_env (CapDispatcher_new SealedDeps)
             (ReqEnv Env_none (ReadVar "SECRET")) lodash eq_refl).
  rewrite decide_False; [reflexivity|]. vm_compute. by intros [?|[?|?]].
Defined.

(** A request that presents the empty capability of its class. *)
Definition without_capability (r : request) : request :=
  match r with
  | ReqFs _ op => ReqFs Fs_none op
  | ReqStdio _ op => ReqStdio Stdio_none op
  | ReqClock _ op => ReqClock Clock_disabled op
  | ReqScheduler _ op => ReqScheduler Scheduler_none op
  | ReqProcess _ op => ReqProcess Process_none op
  | ReqEnv _ op => ReqEnv Env_none op
  | ReqNet _ op => ReqNet Net_none op
  | ReqNative path => ReqNative path
  end.

Lemma path_none_denies env path : path_allowed_for_fs_op env PathNone path = false.
Proof. unfold path_allowed_for_fs_op. simpl. crush_cases. Qed.

Lemma without_capability_not_held env r : held env (without_capability r) = false.
Proof.
  destruct r as [?[]|?[]|?[]|?[]|?[]|?[]|?[]|]; try done; apply path_none_denies.
Qed.

Lemma net_none_denies op : NetOp_allows op Net_none = false.
Proof. by destruct op. Qed.

Lemma dispatch_all_preserves (P : CapDispatcher → Prop) :
  (∀ env d r caller, P d → P (dispatch env d r caller).1) →
  ∀ rs d, P d → P (dispatch_all d rs).1.
Proof.
  intros HP rs. induction rs as [|[[env r] caller] rs IH]; intros d Hd; simpl; [done|].
  destruct (dispatch env d r caller) as [d1 res] eqn:E.
  destruct (dispatch_all d1 rs) as [d2 ress] eqn:E2. simpl.
  change d2 with (d2, ress).1. rewrite <-E2. apply IH.
  change d1 with (d1, res).1. rewrite <-E. by apply HP.
Qed.

(** The part of the dispatcher a decision reads. *)
Definition same_authority (d1 d2 : CapDispatcher) : Prop :=
  mode d1 = mode d2 ∧ net_grant d1 = net_grant d2 ∧ per_module d1 = per_module d2.

#[export] Instance same_authority_equiv : Equivalence same_authority.
Proof. split; red; unfold same_authority; naive_solver congruence. Qed.

#[export] Instance authorised_proper env :
  Proper (same_authority ==> eq ==> eq ==> eq) (authorised env).
Proof.
  intros d1 d2 (Hm & Hn & Hp) r ? <- c ? <-. apply authorised_ext; [done..|].
  unfold module_grant. by rewrite Hp.
Qed.

Lemma dispatch_same_authority env d r caller :
  same_authority (dispatch env d r caller).1 d.
Proof.
  rewrite dispatch_spec. simpl.
  destruct (record_audit_frame env d caller (request_name r) (request_describe r))
    as (? & ? & ? & ? & ?). done.
Qed.

Lemma dispatch_all_results d rs :
  (dispatch_all d rs).2 =
    (λ '(env, r, caller), if authorised env d r caller then Ok () else Err (denial d r caller)) <$> rs.
Proof.
  revert d. induction rs as [|[[env r] caller] rs IH]; intros d; [done|]. simpl.
  pose proof (dispatch_same_authority env d r caller) as Hd.
  pose proof (dispatch_result env d r caller) as Hr.
  destruct (dispatch env d r caller) as [d1 res]. simpl in Hd, Hr. subst res.
  specialize (IH d1). destruct (dispatch_all d1 rs) as [d2 ress]. simpl in *. subst ress.
  f_equal. apply list_fmap_ext. intros i [[e q] c] _.
  rewrite (authorised_proper e d1 d Hd q q eq_refl c c eq_refl).
  unfold denial. by destruct Hd as (-> & _).
Qed.

(** A fresh [Sealed] dispatcher is closed.  Whatever sequence of requests
    arrives, from whatever modules (the application's included), if each presents
    the empty capability of its class then every one of them is denied. *)
Lemma fresh_sealed_denies_everything rs :
  Forall (λ res, ∃ e, res = Err e ∧ err_mode e = Sealed)
    (dispatch_all (CapDispatcher_new Sealed)
       ((λ '(env, r, caller), (env, without_capability r, caller)) <$> rs)).2.
Proof.
  rewrite dispatch_all_results, <-list_fmap_compose. apply Forall_fmap, Forall_forall.
  intros [[env r] caller] _. simpl. unfold authorised.
  rewrite without_capability_not_held. simpl.
  assert (process_wide Net_none (without_capability r) = false) as ->.
  { destruct r as [| | | | | |? op|]; try done. apply net_none_denies. }
  simpl. eauto.
Qed.

(** No grant opens a native addon under a sealed mode.  Neither the
    application's provenance, nor the mode being [SealedDeps], nor any per-module
    or process-wide grant lets [require_native_addon_load] succeed. *)
Lemma native_addon_never_sealed env d path caller :
  (dispatch env d (ReqNative path) caller).2 = Ok () ↔ mode d = Compat ∨ mode d = Audit.
Proof.
  rewrite dispatch_ok_iff. unfold authorised; simpl.
  destruct (mode d), (module_grant d (url caller)); simpl; naive_solver.
Qed.

(** ** Modes *)

Definition set_mode (m : CapMode) (d : CapDispatcher) : CapDispatcher :=
  {| mode := m; ambient := ambient d; net_grant := net_grant d;
     audit := audit d; per_module := per_module d |}.

(** The strictness order of the modes. *)
Definition strictness (m : CapMode) : nat :=
  match m with Compat => 0 | Audit => 0 | SealedDeps => 1 | Sealed => 2 end.

(** Tightening the mode only removes authority.  Whatever succeeds under a
    mode succeeds, from the same state, under every mode that is not stricter. *)
Lemma mode_monotone env d m1 m2 r caller :
  strictness m1 ≤ strictness m2 →
  (dispatch env (set_mode m2 d) r caller).2 = Ok () →
  (dispatch env (set_mode m1 d) r caller).2 = Ok ().
Proof.
  intros Hs. rewrite !dispatch_ok_iff. unfold authorised.
  change (module_grant (set_mode m1 d)) with (module_grant d).
  change (module_grant (set_mode m2 d)) with (module_grant d). simpl.
  rewrite !orb_true_iff. intros [[[H|H]|H]|H]; eauto. left; left; left.
  destruct m1, m2; simpl in *; try done; lia.
Qed.

(** The command line's spelling of a mode is read back as that mode. *)
Lemma CapMode_str_roundtrip m : CapMode_from_str (CapMode_as_str m) = Some m.
Proof. by destruct m. Qed.

(** ** Grants *)

(** Registering grants for a list of modules, in order. *)
Definition grant_all (d : CapDispatcher) (gs : list (string * ModuleGrant)) : CapDispatcher :=
  foldl (λ d '(u, g), grant_module d u (grant_fs g) (grant_net g) (grant_env g)
                        (grant_process g) (grant_stdio g)) d gs.

Lemma grant_all_frame d gs :
  mode (grant_all d gs) = mode d ∧ net_grant (grant_all d gs) = net_grant d.
Proof. revert d. induction gs as [|[u g] gs IH]; intros d; [done|]. simpl. apply (IH (grant_module _ _ _ _ _ _ _)). Qed.

Lemma module_grant_grant_all_ne d gs u :
  Forall (λ q, q.1 ≠ u) gs → module_grant (grant_all d gs) u = module_grant d u.
Proof.
  intros H. revert d. induction H as [|[u' g] gs Hne _ IH]; intros d; [done|].
  simpl. rewrite (IH (grant_module _ _ _ _ _ _ _)). by apply module_grant_grant_ne.
Qed.

(** Grants do not leak between modules.  However many grants are recorded for
    other modules, no request of this caller changes its answer. *)
Lemma grant_isolation env d gs r caller :
  Forall (λ q, q.1 ≠ url caller) gs →
  (dispatch env (grant_all d gs) r caller).2 = (dispatch env d r caller).2.
Proof.
  intros H. rewrite !dispatch_result. destruct (grant_all_frame d gs) as [Hm Hn].
  rewrite (authorised_ext env (grant_all d gs) d) by
    (done || by apply module_grant_grant_all_ne).
  unfold denial. by rewrite Hm.
Qed.

Definition full_grant : ModuleGrant :=
  {| grant_fs := Fs_full; grant_net := Net_full; grant_env := Env_full;
     grant_process := Process_full; grant_stdio := Stdio_full |}.

(** A later grant for a module replaces the earlier one: under [Sealed], with
    an unpoisoned grant table, a request that presents no capability and that the
    process-wide net grant does not cover succeeds exactly when the latest grant
    allows it, whatever was granted before. *)
Lemma last_grant_wins env d g r caller :
  mode d = Sealed → poisoned (per_module d) = false →
  process_wide (net_grant d) (without_capability r) = false →
  is_ok (dispatch env (grant_all d [(url caller, g)]) (without_capability r) caller).2
    = grant_allows env r g.
Proof.
  intros Hm Hp Hw. rewrite dispatch_result. unfold authorised; simpl.
  rewrite module_grant_grant_eq, without_capability_not_held, Hw, Hm by done. simpl.
  assert (grant_allows env (without_capability r)
            (Build_ModuleGrant (grant_fs g) (grant_net g) (grant_env g) (grant_process g) (grant_stdio g))
          = grant_allows env r g) as ->.
  { destruct g. by destruct r as [?[]|?[]|?[]|?[]|?[]|?[]|?[]|]. }
  by destruct (grant_allows env r g).
Qed.

(** [has_explicit_net_grant] is the dispatcher's own answer: it is true exactly
    when, under [Sealed], the request with an empty net capability succeeds. *)
Lemma has_explicit_net_grant_iff env d op caller :
  has_explicit_net_grant d op caller
    = is_ok (dispatch env (set_mode Sealed d) (ReqNet Net_none op) caller).2.
Proof.
  rewrite dispatch_result. unfold authorised, has_explicit_net_grant; simpl.
  rewrite net_none_denies. simpl.
  change (module_grant (set_mode Sealed d)) with (module_grant d).
  unfold grant_allows; simpl.
  by destruct (NetOp_allows op (net_grant d)), (is_some_and _ _).
Qed.

(** ** The audit trail *)

Lemma dispatch_audit env d r caller :
  audit (dispatch env d r caller).1 =
    if decide (mode d = Audit)
    then mutex_update (λ log, {| records := records log ++ [audit_entry (env, r, caller)] |}) (audit d)
    else audit d.
Proof. rewrite dispatch_spec. simpl. unfold record_audit. by destruct (mode d). Qed.

Lemma dispatch_all_audit rs d :
  mode d = Audit → poisoned (audit d) = false →
  audit (dispatch_all d rs).1 =
    Mutex false {| records := records (guarded (audit d)) ++ (audit_entry <$> rs) |}.
Proof.
  revert d. induction rs as [|[[env r] caller] rs IH]; intros d Hm Hp; simpl.
  { rewrite app_nil_r. by destruct (audit d) as [? []]; simpl in *; subst. }
  pose proof (dispatch_same_authority env d r caller) as (Hm1 & _ & _).
  pose proof (dispatch_audit env d r caller) as Ha.
  rewrite decide_True in Ha by done. unfold mutex_update in Ha. rewrite Hp in Ha.
  destruct (dispatch env d r caller) as [d1 res]. simpl in *.
  specialize (IH d1). rewrite Ha in IH. simpl in IH.
  destruct (dispatch_all d1 rs) as [d2 ress]. simpl in *.
  rewrite IH by congruence. by rewrite <-(assoc (++)).
Qed.

(** The audit trail is complete, exact and ordered, and auditing changes no
    decision.  In [Audit] mode every request of a run succeeds, and draining the
    log afterwards returns what was there plus exactly one record per request, in
    request order, with its caller, capability, operation and time; it leaves the
    log empty. *)
Lemma audit_trail_exact d rs :
  mode d = Audit → poisoned (audit d) = false →
  Forall (λ res, res = Ok ()) (dispatch_all d rs).2 ∧
  ∃ d', drain_audit (dispatch_all d rs).1
          = Ret (d', records (guarded (audit d)) ++ (audit_entry <$> rs)) ∧
        records (guarded (audit d')) = [] ∧ same_authority d' d.
Proof.
  intros Hm Hp. split.
  - rewrite dispatch_all_results. apply Forall_fmap, Forall_forall.
    intros [[env r] caller] _. simpl. unfold authorised. by rewrite Hm.
  - unfold drain_audit. rewrite dispatch_all_audit by done. simpl. eexists; split; [done|].
    split; [done|]. apply (dispatch_all_preserves (λ d', same_authority d' d)); [|done].
    intros env d1 r c H. by rewrite dispatch_same_authority.
Qed.

(** ** The order on file-system capabilities *)

(** A policy is below another when every path it allows is allowed by the other. *)
Definition PathPolicy_le (p q : PathPolicy) : Prop :=
  ∀ path, PathPolicy_allows p path = true → PathPolicy_allows q path = true.

Definition Fs_le (a b : Fs) : Prop :=
  PathPolicy_le (fs_read a) (fs_read b) ∧ PathPolicy_le (fs_write a) (fs_write b) ∧
  PathPolicy_le (fs_list a) (fs_list b) ∧ PathPolicy_le (fs_stat a) (fs_stat b) ∧
  PathPolicy_le (fs_mkdir a) (fs_mkdir b) ∧ PathPolicy_le (fs_remove a) (fs_remove b).

#[export] Instance PathPolicy_le_preorder : PreOrder PathPolicy_le.
Proof. split; [intros p x; done|intros p q r Hpq Hqr x Hx; auto]. Qed.

#[export] Instance Fs_le_preorder : PreOrder Fs_le.
Proof.
  split; [intros a; repeat split; reflexivity|].
  intros a b c (?&?&?&?&?&?) (?&?&?&?&?&?); repeat split; by etrans.
Qed.

Lemma path_none_least p : PathPolicy_le PathNone p.
Proof. by intros path. Qed.

(** Resolution against the working directory respects the order. *)
Lemma path_allowed_mono env p q path :
  PathPolicy_le p q →
  path_allowed_for_fs_op env p path = true → path_allowed_for_fs_op env q path = true.
Proof.
  intros Hpq. unfold path_allowed_for_fs_op.
  destruct (PathPolicy_allows p path) eqn:E; [by rewrite Hpq|].
  destruct (PathPolicy_allows q path); [done|]. destruct (is_absolute path); [done|].
  destruct (current_dir env); [apply Hpq|done].
Qed.

Lemma held_fs_mono env a b op :
  Fs_le a b → held env (ReqFs a op) = true → held env (ReqFs b op) = true.
Proof. intros (?&?&?&?&?&?). destruct op; by apply path_allowed_mono. Qed.

(** A smaller capability is honoured less: replacing the capability a request
    presents by a larger one never turns success into failure. *)
Lemma dispatch_fs_mono env d a b op caller :
  Fs_le a b →
  (dispatch env d (ReqFs a op) caller).2 = Ok () →
  (dispatch env d (ReqFs b op) caller).2 = Ok ().
Proof.
  intros Hle. rewrite !dispatch_ok_iff. unfold authorised. rewrite !orb_true_iff.
  intros [[[H|H]|H]|H]; eauto using held_fs_mono.
Qed.

Lemma read_only_le fs : Fs_le (Fs_read_only fs) fs.
Proof. repeat split; simpl; auto using path_none_least; reflexivity. Qed.

(** [Fs::read_only] is a sound attenuation.  A holder of [fs.read_only()] can
    do nothing it could not do with [fs], in any mode and against any grants, and
    where the request is checked and no grant covers it, it cannot write, create
    or remove anything. *)
Lemma read_only_attenuates env d fs op caller :
  ((dispatch env d (ReqFs (Fs_read_only fs) op) caller).2 = Ok () →
   (dispatch env d (ReqFs fs op) caller).2 = Ok ()) ∧
  (checked (mode d) (ReqFs fs op) caller = true → module_grant d (url caller) = None →
   (dispatch env d (ReqFs (Fs_read_only fs) op) caller).2 = Ok () →
   ∃ p, op = FsRead p ∨ op = FsList p ∨ op = FsStat p).
Proof.
  split; [apply dispatch_fs_mono, read_only_le|]. intros Hc Hg.
  rewrite dispatch_ok_iff. unfold authorised. rewrite Hg.
  change (checked (mode d) (ReqFs (Fs_read_only fs) op) caller)
    with (checked (mode d) (ReqFs fs op) caller). rewrite Hc. simpl.
  destruct op; unfold held; simpl; rewrite ?path_none_denies; simpl; naive_solver.
Qed.

(** The policies made of whole subtrees. *)
Definition subtree_policy (p : PathPolicy) : Prop :=
  match p with PathExact _ => False | _ => True end.

Lemma subtree_policy_closed p a b :
  subtree_policy p → path_starts_with b a = true →
  PathPolicy_allows p a = true → PathPolicy_allows p b = true.
Proof.
  intros Hs Hab. destruct p as [| |q|qs|]; simpl in *; try done.
  - by apply path_starts_with_trans.
  - rewrite !existsb_elem_of. intros (q & Hq & Hqa). eauto using path_starts_with_trans.
Qed.

Lemma narrow_le_iff prefix p :
  subtree_policy p →
  PathPolicy_le (narrow prefix p) p ↔ p = PathNone ∨ PathPolicy_allows p prefix = true.
Proof.
  intros Hs. split.
  - intros H. destruct p; try done; auto; right; apply H, path_starts_with_refl.
  - intros [->|Hp]; [done|]. intros path.
    destruct p as [| |q|qs|]; try done; simpl narrow; intros Hx; by eapply subtree_policy_closed.
Qed.

(** [Fs::sub_dir] narrows exactly when the holder already reaches the
    directory.  For a capability made of subtree policies, [fs.sub_dir(prefix)] is
    below [fs] if and only if every policy of [fs] that is not [None] allows
    [prefix] itself; [sub_dir] does not check it. *)
Lemma sub_dir_attenuates_iff fs prefix :
  Forall subtree_policy [fs_read fs; fs_write fs; fs_list fs; fs_stat fs; fs_mkdir fs; fs_remove fs] →
  Fs_le (Fs_sub_dir fs prefix) fs ↔
  Forall (λ p, p = PathNone ∨ PathPolicy_allows p prefix = true)
    [fs_read fs; fs_write fs; fs_list fs; fs_stat fs; fs_mkdir fs; fs_remove fs].
Proof.
  rewrite !Forall_cons. intros (?&?&?&?&?&?&_).
  unfold Fs_le, Fs_sub_dir; simpl. rewrite !narrow_le_iff by done. split.
  - intros (?&?&?&?&?&?). repeat split; auto.
  - intros (?&?&?&?&?&?&_). auto 10.
Qed.

Definition data_fs : Fs :=
  {| fs_read := PathPrefix "/data"; fs_write := PathNone; fs_list := PathPrefix "/data";
     fs_stat := PathPrefix "/data"; fs_mkdir := PathNone; fs_remove := PathNone |}.

(** [Fs::sub_dir] can hand out authority its holder lacks: under [Sealed], a
    module that holds [/data] alone and derives [sub_dir("/etc")] from it reads
    [/etc/passwd], which it could not read with the capability it derived from. *)
Lemma sub_dir_escalates :
  ∃ fs prefix path,
    is_ok (dispatch no_env (CapDispatcher_new Sealed) (ReqFs fs (FsRead path)) lodash).2 = false ∧
    is_ok (dispatch no_env (CapDispatcher_new Sealed) (ReqFs (Fs_sub_dir fs prefix) (FsRead path)) lodash).2
      = true.
Proof. exists data_fs, "/etc", "/etc/passwd". vm_compute. done. Qed.

(** ** Paths against policies *)

(** A prefix policy is lexical.  It allows every path spelled as the prefix,
    a slash and any tail, the tails that climb out through [..] included. *)
Lemma prefix_policy_ignores_parent_dir env prefix tail :
  prefix ≠ "" →
  path_allowed_for_fs_op env (PathPrefix prefix) (prefix +:+ "/" +:+ tail) = true.
Proof.
  intros Hp. unfold path_allowed_for_fs_op; simpl. unfold path_starts_with.
  rewrite bool_decide_eq_true_2; [done|]. rewrite components_app by done. by eexists.
Qed.

Example dotdot_allowed :
  path_allowed_for_fs_op no_env (PathPrefix "/data") "/data/../etc/passwd" = true.
Proof. reflexivity. Qed.

(** Relative paths are judged against the working directory.  A relative path
    passes a prefix policy exactly when the prefix's components begin the path as
    written or begin the working directory's components followed by the path's. *)
Lemma relative_path_resolution env prefix cwd path :
  is_absolute path = false → current_dir env = Some cwd → is_absolute cwd = true →
  path_allowed_for_fs_op env (PathPrefix prefix) path = true ↔
  components prefix `prefix_of` components path ∨
  components prefix `prefix_of`
    components cwd ++ omap segment_component (split_char slash path).
Proof.
  intros Hp Hc Ha. unfold path_allowed_for_fs_op; simpl. rewrite Hp, Hc.
  unfold path_starts_with. rewrite components_join by done.
  repeat case_bool_decide; naive_solver.
Qed.

