(* ===== verification/Gc.v ===== *)
(** * Gc: the tracing heap
    (src/crates/rusty-js-gc/src/lib.rs, lines 1-682 and 1114-1160)

    Packed object handles, the heap's parallel vectors, allocation, freeing and
    the queries.  Slot indices are natural numbers: the casts to and from [u32]
    are the identity below the capacity of 2^25 slots that allocation enforces.
    A stack ([free_list]) is a list whose head is the last element pushed.

    The parallel vectors have the same length in every heap the operations can
    produce ([heap_wf] below), so the indexings of the source never panic; the
    model's reads of an index past the end return a default. *)

From Stdlib Require Import SpecFloat.
From S2P Require Import Prelude.

(** ** Handles *)

Definition OBJECT_ID_INDEX_BITS : Z := 25.
Definition OBJECT_ID_INDEX_MASK : Z := 33554431.
Definition OOM_SLOT_MARGIN : Z := 65536.
Definition OBJECT_ID_MAX_GENERATION : Z := Z.shiftr u32_max OBJECT_ID_INDEX_BITS.
Definition SOFT_TARGET_PRESSURE_ALLOC_QUANTUM : Z := 1024.

Record ObjectId := MkId { oid : Z }.

#[export] Instance ObjectId_eq_dec : EqDecision ObjectId.
Proof. solve_decision. Defined.

Definition ObjectId_new (index generation : Z) : outcome ObjectId :=
  if (index <=? OBJECT_ID_INDEX_MASK)%Z
  then Ret (MkId (Z.lor (Z.shiftl generation OBJECT_ID_INDEX_BITS `mod` 2 ^ 32) index))
  else Panic.

Definition slot_index (id : ObjectId) : nat := Z.to_nat (Z.land (oid id) OBJECT_ID_INDEX_MASK).

Definition generation (id : ObjectId) : Z :=
  Z.shiftr (oid id) OBJECT_ID_INDEX_BITS `mod` 2 ^ 16.

Inductive Color := White | Gray | Black.

#[export] Instance Color_eq_dec : EqDecision Color.
Proof. solve_decision. Defined.

Record TraceSlice := { next_index : nat; complete : bool }.

(** The trait [Trace]: the outgoing references of an object, and a slice of them
    from an index on, bounded by a budget. *)
Class Trace (T : Type) := {
  trace : T → list ObjectId;
  trace_slice : T → nat → Z → list ObjectId * TraceSlice;
}.

(** The trait's default [trace_slice]: all edges at once, on the first call. *)
Definition default_trace_slice {T} (tr : T → list ObjectId) (obj : T) (start : nat) (budget : Z) :
    list ObjectId * TraceSlice :=
  if bool_decide (start = 0) && (0 <? budget)%Z
  then (tr obj, {| next_index := 0; complete := true |})
  else ([], {| next_index := start; complete := true |}).

Definition ExternalHandle : Type := Z.

Inductive Slot (T : Type) :=
| Object (v : T)
| ExternalSlot (hd : ExternalHandle)
| Free.
Arguments Object {T} v.
Arguments ExternalSlot {T} hd.
Arguments Free {T}.

Definition is_free_slot {T} (s : Slot T) : bool := match s with Free => true | _ => false end.

Record Heap (T : Type) := {
  slots : list (Slot T);
  colors : list Color;
  owners : list Z;
  generations : list Z;
  free_list : list nat;
  no_slot_reuse : bool;
  alloc_count : Z;
  threshold : Z;
  growth_permille : Z;
  soft_target_bytes : Z;
  freed_external : list ExternalHandle;
  external_bytes_since_collect : Z;
  external_byte_threshold : Z;
  oom : bool;
  oom_sentinel : option nat;
}.
Arguments slots {T} h : rename.
Arguments colors {T} h : rename.
Arguments owners {T} h : rename.
Arguments generations {T} h : rename.
Arguments free_list {T} h : rename.
Arguments no_slot_reuse {T} h : rename.
Arguments alloc_count {T} h : rename.
Arguments threshold {T} h : rename.
Arguments growth_permille {T} h : rename.
Arguments soft_target_bytes {T} h : rename.
Arguments freed_external {T} h : rename.
Arguments external_bytes_since_collect {T} h : rename.
Arguments external_byte_threshold {T} h : rename.
Arguments oom {T} h : rename.
Arguments oom_sentinel {T} h : rename.

Definition set_slots {T} (x : list (Slot T)) (h : Heap T) : Heap T :=
  {| slots := x; colors := colors h; owners := owners h; generations := generations h;
     free_list := free_list h; no_slot_reuse := no_slot_reuse h; alloc_count := alloc_count
     h; threshold := threshold h; growth_permille := growth_permille h; soft_target_bytes :=
     soft_target_bytes h; freed_external := freed_external h; external_bytes_since_collect
     := external_bytes_since_collect h; external_byte_threshold := external_byte_threshold
     h; oom := oom h; oom_sentinel := oom_sentinel h |}.
Definition set_colors {T} (x : list Color) (h : Heap T) : Heap T :=
  {| slots := slots h; colors := x; owners := owners h; generations := generations h;
     free_list := free_list h; no_slot_reuse := no_slot_reuse h; alloc_count := alloc_count
     h; threshold := threshold h; growth_permille := growth_permille h; soft_target_bytes :=
     soft_target_bytes h; freed_external := freed_external h; external_bytes_since_collect
     := external_bytes_since_collect h; external_byte_threshold := external_byte_threshold
     h; oom := oom h; oom_sentinel := oom_sentinel h |}.
Definition set_owners {T} (x : list Z) (h : Heap T) : Heap T :=
  {| slots := slots h; colors := colors h; owners := x; generations := generations h;
     free_list := free_list h; no_slot_reuse := no_slot_reuse h; alloc_count := alloc_count
     h; threshold := threshold h; growth_permille := growth_permille h; soft_target_bytes :=
     soft_target_bytes h; freed_external := freed_external h; external_bytes_since_collect
     := external_bytes_since_collect h; external_byte_threshold := external_byte_threshold
     h; oom := oom h; oom_sentinel := oom_sentinel h |}.
Definition set_generations {T} (x : list Z) (h : Heap T) : Heap T :=
  {| slots := slots h; colors := colors h; owners := owners h; generations := x; free_list
     := free_list h; no_slot_reuse := no_slot_reuse h; alloc_count := alloc_count h;
     threshold := threshold h; growth_permille := growth_permille h; soft_target_bytes :=
     soft_target_bytes h; freed_external := freed_external h; external_bytes_since_collect
     := external_bytes_since_collect h; external_byte_threshold := external_byte_threshold
     h; oom := oom h; oom_sentinel := oom_sentinel h |}.
Definition set_free_list {T} (x : list nat) (h : Heap T) : Heap T :=
  {| slots := slots h; colors := colors h; owners := owners h; generations := generations h;
     free_list := x; no_slot_reuse := no_slot_reuse h; alloc_count := alloc_count h;
     threshold := threshold h; growth_permille := growth_permille h; soft_target_bytes :=
     soft_target_bytes h; freed_external := freed_external h; external_bytes_since_collect
     := external_bytes_since_collect h; external_byte_threshold := external_byte_threshold
     h; oom := oom h; oom_sentinel := oom_sentinel h |}.
Definition set_alloc_count {T} (x : Z) (h : Heap T) : Heap T :=
  {| slots := slots h; colors := colors h; owners := owners h; generations := generations h;
     free_list := free_list h; no_slot_reuse := no_slot_reuse h; alloc_count := x; threshold
     := threshold h; growth_permille := growth_permille h; soft_target_bytes :=
     soft_target_bytes h; freed_external := freed_external h; external_bytes_since_collect
     := external_bytes_since_collect h; external_byte_threshold := external_byte_threshold
     h; oom := oom h; oom_sentinel := oom_sentinel h |}.
Definition set_threshold {T} (x : Z) (h : Heap T) : Heap T :=
  {| slots := slots h; colors := colors h; owners := owners h; generations := generations h;
     free_list := free_list h; no_slot_reuse := no_slot_reuse h; alloc_count := alloc_count
     h; threshold := x; growth_permille := growth_permille h; soft_target_bytes :=
     soft_target_bytes h; freed_external := freed_external h; external_bytes_since_collect
     := external_bytes_since_collect h; external_byte_threshold := external_byte_threshold
     h; oom := oom h; oom_sentinel := oom_sentinel h |}.
Definition set_growth_permille {T} (x : Z) (h : Heap T) : Heap T :=
  {| slots := slots h; colors := colors h; owners := owners h; generations := generations h;
     free_list := free_list h; no_slot_reuse := no_slot_reuse h; alloc_count := alloc_count
     h; threshold := threshold h; growth_permille := x; soft_target_bytes :=
     soft_target_bytes h; freed_external := freed_external h; external_bytes_since_collect
     := external_bytes_since_collect h; external_byte_threshold := external_byte_threshold
     h; oom := oom h; oom_sentinel := oom_sentinel h |}.
Definition set_freed_external {T} (x : list ExternalHandle) (h : Heap T) : Heap T :=
  {| slots := slots h; colors := colors h; owners := owners h; generations := generations h;
     free_list := free_list h; no_slot_reuse := no_slot_reuse h; alloc_count := alloc_count
     h; threshold := threshold h; growth_permille := growth_permille h; soft_target_bytes :=
     soft_target_bytes h; freed_external := x; external_bytes_since_collect :=
     external_bytes_since_collect h; external_byte_threshold := external_byte_threshold h;
     oom := oom h; oom_sentinel := oom_sentinel h |}.
Definition set_external_bytes_since_collect {T} (x : Z) (h : Heap T) : Heap T :=
  {| slots := slots h; colors := colors h; owners := owners h; generations := generations h;
     free_list := free_list h; no_slot_reuse := no_slot_reuse h; alloc_count := alloc_count
     h; threshold := threshold h; growth_permille := growth_permille h; soft_target_bytes :=
     soft_target_bytes h; freed_external := freed_external h; external_bytes_since_collect
     := x; external_byte_threshold := external_byte_threshold h; oom := oom h; oom_sentinel
     := oom_sentinel h |}.
Definition set_oom {T} (x : bool) (h : Heap T) : Heap T :=
  {| slots := slots h; colors := colors h; owners := owners h; generations := generations h;
     free_list := free_list h; no_slot_reuse := no_slot_reuse h; alloc_count := alloc_count
     h; threshold := threshold h; growth_permille := growth_permille h; soft_target_bytes :=
     soft_target_bytes h; freed_external := freed_external h; external_bytes_since_collect
     := external_bytes_since_collect h; external_byte_threshold := external_byte_threshold
     h; oom := x; oom_sentinel := oom_sentinel h |}.
Definition set_oom_sentinel {T} (x : option nat) (h : Heap T) : Heap T :=
  {| slots := slots h; colors := colors h; owners := owners h; generations := generations h;
     free_list := free_list h; no_slot_reuse := no_slot_reuse h; alloc_count := alloc_count
     h; threshold := threshold h; growth_permille := growth_permille h; soft_target_bytes :=
     soft_target_bytes h; freed_external := freed_external h; external_bytes_since_collect
     := external_bytes_since_collect h; external_byte_threshold := external_byte_threshold
     h; oom := oom h; oom_sentinel := x |}.

Record CrossOwnerEdge := {
  edge_from : ObjectId; edge_from_owner : Z; edge_to : ObjectId; edge_to_owner : Z;
}.

(** ** Reads *)

Definition slot_at {T} (h : Heap T) (i : nat) : Slot T := default Free (slots h !! i).
Definition color_at {T} (h : Heap T) (i : nat) : Color := default White (colors h !! i).
Definition owner_at {T} (h : Heap T) (i : nat) : Z := default 0%Z (owners h !! i).
Definition generation_at {T} (h : Heap T) (i : nat) : Z := default 0%Z (generations h !! i).

(** ** Construction and configuration

    The environment variables that tune the heap are read once; their parsed
    values are the arguments. *)

Definition Heap_with_slot_reuse {T} (reuse_slots : bool)
    (soft_target external_threshold growth : Z) : Heap T :=
  let external_threshold :=
    if (0 <? soft_target)%Z
    then Z.min external_threshold (Z.max (soft_target `div` 2) 1048576)
    else external_threshold in
  {| slots := []; colors := []; owners := []; generations := []; free_list := [];
     no_slot_reuse := negb reuse_slots; alloc_count := 0; threshold := 1024;
     growth_permille := growth; soft_target_bytes := soft_target; freed_external := [];
     external_bytes_since_collect := 0; external_byte_threshold := external_threshold;
     oom := false; oom_sentinel := None |}.

Definition note_external_alloc {T} (bytes : Z) (h : Heap T) : Heap T :=
  set_external_bytes_since_collect
    (saturating_add64 (external_bytes_since_collect h) bytes) h.

Definition Heap_set_growth_permille {T} (permille : Z) (h : Heap T) : Heap T :=
  set_growth_permille (Z.max permille 1100) h.

Definition generation_matches {T} (h : Heap T) (i : nat) (id : ObjectId) : bool :=
  match generations h !! i with
  | Some g => (g =? generation id)%Z
  | None => false
  end.

Definition retire_slot_index {T} (i : nat) (h : Heap T) : Heap T :=
  match generations h !! i with
  | Some g =>
      if (g <? OBJECT_ID_MAX_GENERATION)%Z
      then set_free_list (i :: free_list h) (set_generations (<[i := (g + 1)%Z]> (generations h)) h)
      else h
  | None => h
  end.

(** ** Threshold adaptation *)

Definition live_len {T} (h : Heap T) : nat :=
  length (filter (λ s, is_free_slot s = false) (slots h)).

(** [f64]: IEEE binary64. *)
Definition f64_of_Z (z : Z) : spec_float := binary_normalize 53 1024 z 0 false.
Definition f64_half : spec_float := SFdiv 53 1024 (f64_of_Z 1) (f64_of_Z 2).

(** [x as usize]: truncation toward zero, saturating, 0 for NaN. *)
Definition f64_to_usize (x : spec_float) : Z :=
  match x with
  | S754_finite false m e =>
      Z.min u64_max (if (0 <=? e)%Z then Zpos m * 2 ^ e else Zpos m `div` 2 ^ (- e))%Z
  | S754_infinity false => u64_max
  | _ => 0%Z
  end.

(** [autotuned_permille], with the resident set size it reads as [rss]. *)
Definition autotuned_permille {T} (rss : Z) (h : Heap T) : Z :=
  if (soft_target_bytes h =? 0)%Z then growth_permille h
  else if (rss =? 0)%Z then growth_permille h
  else
    let target := f64_of_Z (soft_target_bytes h) in
    let pressure := SFdiv 53 1024 (f64_of_Z rss) target in
    let floor := f64_of_Z 1100 in
    let full := f64_of_Z (growth_permille h) in
    let eff :=
      if SFleb pressure f64_half then full
      else if SFleb (f64_of_Z 1) pressure then floor
      else
        let t := SFdiv 53 1024 (SFsub 53 1024 pressure f64_half) f64_half in
        SFadd 53 1024 full (SFmul 53 1024 (SFsub 53 1024 floor full) t) in
    Z.max (f64_to_usize eff) 1100.

Definition adapt_threshold_after_sweep {T} (rss : Z) (h : Heap T) : Heap T :=
  let h := set_external_bytes_since_collect 0 h in
  let live := Z.of_nat (live_len h) in
  let live_pressure := Z.max (saturating_mul64 live 2) 1024 in
  let free_len := Z.of_nat (length (free_list h)) in
  let reuse_pressure :=
    if (free_len =? 0)%Z then live_pressure else Z.max (free_len `div` 2) 1024 in
  let base :=
    if no_slot_reuse h then Z.max live_pressure 65536
    else Z.max (Z.min live_pressure reuse_pressure) 1024 in
  let effective_permille := autotuned_permille rss h in
  set_threshold (Z.max (saturating_mul64 base effective_permille `div` 2000) 1024) h.

(** ** Allocation *)

(** [slots[i] = s; colors[i] = c; owners[i] = o]. *)
Definition write_slot {T} (i : nat) (s : Slot T) (c : Color) (o : Z) (h : Heap T) : Heap T :=
  set_owners (<[i := o]> (owners h)) (set_colors (<[i := c]> (colors h))
    (set_slots (<[i := s]> (slots h)) h)).

Definition push_slot {T} (s : Slot T) (o : Z) (h : Heap T) : Heap T :=
  set_generations (generations h ++ [0%Z]) (set_owners (owners h ++ [o])
    (set_colors (colors h ++ [White]) (set_slots (slots h ++ [s]) h))).

(** [if self.no_slot_reuse { None } else { self.free_list.pop() }]. *)
Definition pop_free {T} (h : Heap T) : option nat * Heap T :=
  if no_slot_reuse h then (None, h)
  else match free_list h with
       | [] => (None, h)
       | i :: fl => (Some i, set_free_list fl h)
       end.

Definition handle_at {T} (h : Heap T) (i : nat) : outcome ObjectId :=
  ObjectId_new (Z.of_nat i) (generation_at h i).

Definition alloc_external_with_owner {T} (hd : ExternalHandle) (o : Z) (h : Heap T) :
    outcome (Heap T * ObjectId) :=
  (let h := set_alloc_count (wrap64 (alloc_count h + 1)) h in
   let '(popped, h) := pop_free h in
   match popped with
   | Some i =>
       let h := write_slot i (ExternalSlot hd) White o h in
       id <-! handle_at h i; Ret (h, id)
   | None =>
       let i := length (slots h) in
       if (Z.of_nat i <=? OBJECT_ID_INDEX_MASK)%Z then
         let h := push_slot (ExternalSlot hd) o h in
         id <-! handle_at h i; Ret (h, id)
       else Panic
   end)%cruft.

Definition alloc_external {T} (hd : ExternalHandle) (h : Heap T) : outcome (Heap T * ObjectId) :=
  alloc_external_with_owner hd 0 h.

Definition alloc_with_owner {T} (v : T) (o : Z) (h : Heap T) : outcome (Heap T * ObjectId) :=
  (let h := set_alloc_count (wrap64 (alloc_count h + 1)) h in
   let '(popped, h) := pop_free h in
   match popped with
   | Some i =>
       let h := write_slot i (Object v) White o h in
       id <-! handle_at h i; Ret (h, id)
   | None =>
       let i := length (slots h) in
       let idx := Z.of_nat i in
       if (OBJECT_ID_INDEX_MASK <? idx)%Z then
         match oom_sentinel h with
         | Some s =>
             let h := write_slot s (Object v) White o (set_oom true h) in
             id <-! handle_at h s; Ret (h, id)
         | None => Panic
         end
       else
         let h := if (idx =? OBJECT_ID_INDEX_MASK - OOM_SLOT_MARGIN)%Z then set_oom true h else h in
         let h := push_slot (Object v) o h in
         id <-! handle_at h i; Ret (h, id)
   end)%cruft.

Definition alloc {T} (v : T) (h : Heap T) : outcome (Heap T * ObjectId) := alloc_with_owner v 0 h.

Definition reserve_oom_sentinel {T} (id : ObjectId) (h : Heap T) : Heap T :=
  set_oom_sentinel (Some (slot_index id)) h.

Definition take_oom {T} (h : Heap T) : Heap T * bool := (set_oom false h, oom h).

(** ** Queries and updates through a handle *)

Definition is_external_handle {T} (h : Heap T) (id : ObjectId) : bool :=
  let i := slot_index id in
  generation_matches h i id && match slots h !! i with Some (ExternalSlot _) => true | _ => false end.

Definition take_freed_external_handles {T} (h : Heap T) : Heap T * list ExternalHandle :=
  (set_freed_external [] h, freed_external h).

Definition Heap_owner {T} (h : Heap T) (id : ObjectId) : option Z :=
  let i := slot_index id in
  if negb (generation_matches h i id) then None
  else match slots h !! i with
       | Some (Object _ | ExternalSlot _) => owners h !! i
       | _ => None
       end.

Definition set_owner {T} (id : ObjectId) (o : Z) (h : Heap T) : Heap T * bool :=
  let i := slot_index id in
  if negb (generation_matches h i id) then (h, false)
  else match slots h !! i with
       | Some (Object _ | ExternalSlot _) => (set_owners (<[i := o]> (owners h)) h, true)
       | _ => (h, false)
       end.

Definition preserve_new_owner_allocation {T} (o : Z) (id : ObjectId) (h : Heap T) : Heap T * bool :=
  let i := slot_index id in
  if negb (generation_matches h i id) then (h, false)
  else match slots h !! i with
       | Some (Object _ | ExternalSlot _) =>
           if bool_decide (owners h !! i = Some o)
           then (set_colors (<[i := Black]> (colors h)) h, true) else (h, false)
       | _ => (h, false)
       end.

Definition Heap_get {T} (h : Heap T) (id : ObjectId) : option T :=
  let i := slot_index id in
  if negb (generation_matches h i id) then None
  else match slots h !! i with Some (Object v) => Some v | _ => None end.

(** [get_mut], with what the caller does through the reference as [f]. *)
Definition Heap_modify {T} (f : T → T) (id : ObjectId) (h : Heap T) : Heap T :=
  let i := slot_index id in
  if negb (generation_matches h i id) then h
  else match slots h !! i with
       | Some (Object v) => set_slots (<[i := Object (f v)]> (slots h)) h
       | _ => h
       end.

Definition live_object_ids {T} (h : Heap T) : list (outcome ObjectId) :=
  omap (λ i, match slots h !! i with Some (Object _) => Some (handle_at h i) | _ => None end)
    (seq 0 (length (slots h))).

Definition is_free {T} (h : Heap T) (id : ObjectId) : bool :=
  let i := slot_index id in
  negb (generation_matches h i id)
  || match slots h !! i with Some Free | None => true | _ => false end.

Definition Heap_free {T} (id : ObjectId) (h : Heap T) : Heap T :=
  let i := slot_index id in
  if generation_matches h i id && bool_decide (i < length (slots h))
  then retire_slot_index i (write_slot i Free White 0 h)
  else h.

(** ** Collection triggers *)

Definition soft_target_pressure_exceeded {T} (rss : Z) (h : Heap T) : bool :=
  (0 <? soft_target_bytes h)%Z
  && (SOFT_TARGET_PRESSURE_ALLOC_QUANTUM <=? alloc_count h)%Z
  && (soft_target_bytes h <=? rss)%Z.

Definition should_collect {T} (rss : Z) (h : Heap T) : bool :=
  (threshold h <=? alloc_count h)%Z
  || (external_byte_threshold h <=? external_bytes_since_collect h)%Z
  || soft_target_pressure_exceeded rss h.

Definition live_count {T} (h : Heap T) : nat :=
  length (filter (λ s, match s with Object _ => true | _ => false end = true) (slots h)).

Definition free_count {T} (h : Heap T) : nat := length (free_list h).
