(* ===== verification/GcHandles.v ===== *)
(** * GcHandles: handles never dangle and never alias

    The heap's well-formedness invariant, the three states of a handle (live,
    dead, never issued) and the theorems that make handles safe: the packing is
    injective, allocation returns a handle never issued before, and a dead handle
    stays dead through every later operation. *)

From S2P Require Import Prelude Gc.

(** ** The packing *)

Lemma index_mask_ones : OBJECT_ID_INDEX_MASK = Z.ones OBJECT_ID_INDEX_BITS.
Proof. reflexivity. Qed.

Lemma max_generation_val : OBJECT_ID_MAX_GENERATION = 127%Z.
Proof. reflexivity. Qed.

Lemma pack_fields i g :
  (0 ≤ i ≤ OBJECT_ID_INDEX_MASK)%Z → (0 ≤ g ≤ OBJECT_ID_MAX_GENERATION)%Z →
  Z.land (Z.lor (Z.shiftl g OBJECT_ID_INDEX_BITS `mod` 2 ^ 32) i) OBJECT_ID_INDEX_MASK = i ∧
  Z.shiftr (Z.lor (Z.shiftl g OBJECT_ID_INDEX_BITS `mod` 2 ^ 32) i) OBJECT_ID_INDEX_BITS = g.
Proof.
  rewrite max_generation_val, index_mask_ones. unfold OBJECT_ID_INDEX_BITS. intros Hi Hg.
  change (Z.ones 25) with 33554431%Z in Hi.
  rewrite Z.shiftl_mul_pow2, Z.mod_small by lia. rewrite <-Z.shiftl_mul_pow2 by lia. split.
  - rewrite Z.land_lor_distr_l, !Z.land_ones, Z.shiftl_mul_pow2, Z.mod_mul, Z.mod_small by lia. done.
  - rewrite Z.shiftr_lor, Z.shiftr_shiftl_l, Z.sub_diag, Z.shiftl_0_r by lia.
    rewrite (Z.shiftr_div_pow2 i), Z.div_small by lia. apply Z.lor_0_r.
Qed.

Lemma ObjectId_new_fields i g id :
  ObjectId_new (Z.of_nat i) g = Ret id → (0 ≤ g ≤ OBJECT_ID_MAX_GENERATION)%Z →
  slot_index id = i ∧ generation id = g.
Proof.
  unfold ObjectId_new, slot_index, generation. destruct (Z.leb_spec (Z.of_nat i) OBJECT_ID_INDEX_MASK);
    intros [= <-] Hg. simpl.
  destruct (pack_fields (Z.of_nat i) g) as [-> ->]; [lia..|].
  rewrite max_generation_val in Hg. rewrite Z.mod_small by lia. lia.
Qed.

(** A handle is determined by its index and its generation. *)
Definition well_packed (id : ObjectId) : Prop := (0 ≤ oid id ≤ u32_max)%Z.

Lemma unpack_inj id1 id2 :
  well_packed id1 → well_packed id2 →
  slot_index id1 = slot_index id2 → generation id1 = generation id2 → id1 = id2.
Proof.
  destruct id1 as [a], id2 as [b]. unfold well_packed, slot_index, generation, u32_max,
    OBJECT_ID_INDEX_BITS; simpl. rewrite index_mask_ones. unfold OBJECT_ID_INDEX_BITS.
  intros Ha Hb. rewrite !Z.land_ones, !Z.shiftr_div_pow2 by lia.
  rewrite !(Z.mod_small (_ / _)) by (split; [apply Z.div_pos|apply Z.div_lt_upper_bound]; lia).
  intros H1 H2. apply Z2Nat.inj in H1; [|apply Z.mod_pos_bound; lia..].
  f_equal. rewrite (Z.div_mod a (2 ^ 25)), (Z.div_mod b (2 ^ 25)) by lia. congruence.
Qed.

(** Packing and unpacking a handle.  For every slot index the heap can have
    and every generation it can give, [ObjectId::new] succeeds, fits 32 bits, and
    [slot_index] and [generation] read back what was packed; past the capacity it
    panics. *)
Lemma object_id_roundtrip i g :
  (0 ≤ g ≤ OBJECT_ID_MAX_GENERATION)%Z →
  if decide (Z.of_nat i ≤ OBJECT_ID_INDEX_MASK)%Z
  then ∃ id, ObjectId_new (Z.of_nat i) g = Ret id ∧ well_packed id ∧
             slot_index id = i ∧ generation id = g
  else ObjectId_new (Z.of_nat i) g = Panic.
Proof.
  intros Hg. case_decide as Hi.
  - destruct (ObjectId_new (Z.of_nat i) g) as [id|] eqn:E.
    + exists id. split; [done|]. split; [|by apply ObjectId_new_fields].
      revert E. unfold ObjectId_new. destruct (Z.leb_spec (Z.of_nat i) OBJECT_ID_INDEX_MASK); [|done].
      intros [= <-]. unfold well_packed; simpl. rewrite max_generation_val in Hg.
      unfold OBJECT_ID_INDEX_BITS, u32_max, OBJECT_ID_INDEX_MASK in *.
      rewrite Z.shiftl_mul_pow2, Z.mod_small by lia. split; [apply Z.lor_nonneg; lia|].
      apply Z.lt_succ_r. change (Z.succ 4294967295) with (2 ^ 32)%Z.
      destruct (decide (Z.lor (g * 2 ^ 25) (Z.of_nat i) = 0)%Z) as [->|Hnz]; [lia|].
      apply Z.log2_lt_pow2; [pose proof (proj2 (Z.lor_nonneg (g * 2 ^ 25) (Z.of_nat i))); lia|].
      rewrite Z.log2_lor by lia. apply Z.max_lub_lt.
      * destruct (decide (g = 0)%Z) as [->|]; [simpl; lia|]. apply Z.log2_lt_pow2; lia.
      * destruct (decide (i = 0)%nat) as [->|]; [simpl; lia|]. apply Z.log2_lt_pow2; lia.
    + revert E. unfold ObjectId_new. destruct (Z.leb_spec (Z.of_nat i) OBJECT_ID_INDEX_MASK); [done|lia].
  - unfold ObjectId_new. destruct (Z.leb_spec (Z.of_nat i) OBJECT_ID_INDEX_MASK); [lia|done].
Qed.

(** ** The invariant and the states of a handle *)

Section Handles.
Context {T : Type}.
Implicit Types (h : Heap T) (i : nat) (g : Z) (id : ObjectId).

Record heap_wf h : Prop := {
  wf_colors : length (colors h) = length (slots h);
  wf_owners : length (owners h) = length (slots h);
  wf_generations : length (generations h) = length (slots h);
  wf_capacity : (Z.of_nat (length (slots h)) ≤ OBJECT_ID_INDEX_MASK + 1)%Z;
  wf_gen_range : ∀ i g, generations h !! i = Some g → (0 ≤ g ≤ OBJECT_ID_MAX_GENERATION)%Z;
  wf_free_nodup : NoDup (free_list h);
  wf_free_slots : ∀ i, i ∈ free_list h → slots h !! i = Some Free;
}.

(** Index [i] holds a value under generation [g]. *)
Definition live_at h i g : Prop :=
  generations h !! i = Some g ∧ ∃ s, slots h !! i = Some s ∧ s ≠ Free.

(** Generation [g] of index [i] is over for good: a later one has begun, or it was
    the last and the slot is out of circulation. *)
Definition dead_at h i g : Prop :=
  ∃ g', generations h !! i = Some g' ∧
    ((g < g')%Z ∨
     (g = g' ∧ g' = OBJECT_ID_MAX_GENERATION ∧ slots h !! i = Some Free ∧ i ∉ free_list h)).

Definition live h id : Prop := live_at h (slot_index id) (generation id).
Definition dead h id : Prop := dead_at h (slot_index id) (generation id).
Definition issued h id : Prop := live h id ∨ dead h id.

(** What every operation preserves: dead stays dead, live stays live or dies. *)
Definition evolves h h' : Prop :=
  ∀ i g, (dead_at h i g → dead_at h' i g) ∧ (live_at h i g → live_at h' i g ∨ dead_at h' i g).

#[export] Instance evolves_preorder : PreOrder evolves.
Proof. split; [intros h; unfold evolves; auto|]. intros h1 h2 h3 H12 H23 i g. specialize (H12 i g). specialize (H23 i g). naive_solver. Qed.

(** The part of the heap handles depend on. *)
Definition same_core h h' : Prop :=
  slots h' = slots h ∧ generations h' = generations h ∧ free_list h' = free_list h.

Lemma same_core_evolves h h' : same_core h h' → evolves h h'.
Proof. intros (Hs & Hg & Hf) i g. unfold dead_at, live_at. rewrite Hs, Hg, Hf. auto. Qed.

Lemma generation_matches_true h i id :
  generation_matches h i id = true ↔ generations h !! i = Some (generation id).
Proof.
  unfold generation_matches. destruct (generations h !! i) as [g|]; [|done].
  rewrite Z.eqb_eq. naive_solver.
Qed.

Lemma is_free_false h id : is_free h id = false ↔ live h id.
Proof.
  unfold is_free, live, live_at. rewrite orb_false_iff, negb_false_iff, generation_matches_true.
  destruct (slots h !! slot_index id) as [[]|]; naive_solver.
Qed.

Lemma live_not_dead h id : live h id → dead h id → False.
Proof. intros (Hg & s & Hs & Hne) (g' & Hg' & H). destruct H as [H|(?&?&?&?)]; simplify_eq; lia. Qed.

Lemma dead_get h id : dead h id → Heap_get h id = None ∧ is_free h id = true.
Proof.
  intros Hd. assert (is_free h id = true) as Hf.
  { destruct (is_free h id) eqn:E; [done|]. exfalso. eapply live_not_dead; [|done]. by apply is_free_false. }
  split; [|done]. unfold is_free in Hf. unfold Heap_get.
  destruct (generation_matches h (slot_index id) id); [|done]. simpl in *.
  by destruct (slots h !! slot_index id) as [[]|].
Qed.

Lemma wf_bound h i g : heap_wf h → generations h !! i = Some g → (Z.of_nat i ≤ OBJECT_ID_INDEX_MASK)%Z.
Proof.
  intros Hwf Hi. apply lookup_lt_Some in Hi. rewrite wf_generations in Hi by done.
  pose proof (wf_capacity h Hwf). lia.
Qed.

(** Under the invariant the handle of a slot can always be formed. *)
Lemma handle_at_ok h i g :
  heap_wf h → generations h !! i = Some g →
  ∃ id, handle_at h i = Ret id ∧ slot_index id = i ∧ generation id = g.
Proof.
  intros Hwf Hi. unfold handle_at, generation_at. rewrite Hi. simpl.
  pose proof (wf_bound h i g Hwf Hi). pose proof (wf_gen_range h Hwf i g Hi) as Hg.
  destruct (ObjectId_new (Z.of_nat i) g) as [id|] eqn:E.
  - exists id. split; [done|]. by apply ObjectId_new_fields.
  - revert E. unfold ObjectId_new. destruct (Z.leb_spec (Z.of_nat i) OBJECT_ID_INDEX_MASK); [done|lia].
Qed.

(** ** Releasing a slot *)

Lemma retire_slots i h : slots (retire_slot_index i h) = slots h.
Proof. unfold retire_slot_index. by repeat case_match. Qed.
Lemma retire_colors i h : colors (retire_slot_index i h) = colors h.
Proof. unfold retire_slot_index. by repeat case_match. Qed.
Lemma retire_owners i h : owners (retire_slot_index i h) = owners h.
Proof. unfold retire_slot_index. by repeat case_match. Qed.
Lemma retire_freed_external i h : freed_external (retire_slot_index i h) = freed_external h.
Proof. unfold retire_slot_index. by repeat case_match. Qed.
Lemma retire_length_generations i h :
  length (generations (retire_slot_index i h)) = length (generations h).
Proof. unfold retire_slot_index. repeat case_match; simpl; rewrite ?length_insert; done. Qed.

(** [h1] is [h] with slot [i] emptied; retiring the index in [h1] ends the
    generation that was running in [h]. *)
Lemma retire_cases h i g :
  generations h !! i = Some g →
  (g < OBJECT_ID_MAX_GENERATION ∧
     generations (retire_slot_index i h) = <[i := (g + 1)%Z]> (generations h) ∧
     free_list (retire_slot_index i h) = i :: free_list h)%Z
  ∨ (OBJECT_ID_MAX_GENERATION ≤ g ∧
     generations (retire_slot_index i h) = generations h ∧
     free_list (retire_slot_index i h) = free_list h)%Z.
Proof.
  intros Hi. unfold retire_slot_index. rewrite Hi.
  destruct (Z.ltb_spec g OBJECT_ID_MAX_GENERATION); [left|right]; done.
Qed.

Lemma release_dead h h1 i g :
  heap_wf h → live_at h i g →
  slots h1 = <[i := Free]> (slots h) → generations h1 = generations h → free_list h1 = free_list h →
  dead_at (retire_slot_index i h1) i g.
Proof.
  intros Hwf (Hg & s & Hs & Hne) Es Eg Ef.
  assert (i ∉ free_list h) as Hni by (intros Hi%(wf_free_slots h Hwf); congruence).
  destruct (retire_cases h1 i g) as [(Hlt & Hgen & Hfl)|(Hle & Hgen & Hfl)]; [congruence|..];
    unfold dead_at; rewrite Hgen, Hfl, retire_slots, Es, Eg, Ef.
  - exists (g + 1)%Z. rewrite list_lookup_insert_eq by eauto using lookup_lt_Some. split; [done|left; lia].
  - exists g. split; [done|]. right. pose proof (wf_gen_range h Hwf i g Hg).
    rewrite list_lookup_insert_eq by eauto using lookup_lt_Some. repeat split; [lia|done].
Qed.

Lemma release_evolves h h1 i g :
  heap_wf h → live_at h i g →
  slots h1 = <[i := Free]> (slots h) → generations h1 = generations h → free_list h1 = free_list h →
  evolves h (retire_slot_index i h1).
Proof.
  intros Hwf Hl Es Eg Ef j g'. pose proof (release_dead h h1 i g Hwf Hl Es Eg Ef) as Hd.
  destruct (decide (j = i)) as [->|Hne].
  - split; [|intros [? _]; right; by destruct Hl as [? _]; simplify_eq].
    intros (g0 & Hg0 & H). destruct Hl as (Hg & s & Hs & Hns).
    destruct H as [H|(?&?&?&?)]; simplify_eq. destruct Hd as (g1 & Hg1 & Hd).
    exists g1. split; [done|]. left. destruct Hd as [?|(?&_)]; lia.
  - destruct Hl as (Hg & _).
    destruct (retire_cases h1 i g) as [(_ & Hgen & Hfl)|(_ & Hgen & Hfl)]; [congruence|..];
      unfold dead_at, live_at; rewrite Hgen, Hfl, retire_slots, Es, Eg, Ef;
      rewrite ?list_lookup_insert_ne by done; set_unfold; naive_solver.
Qed.

Lemma release_wf h h1 i g :
  heap_wf h → live_at h i g →
  slots h1 = <[i := Free]> (slots h) → generations h1 = generations h → free_list h1 = free_list h →
  length (colors h1) = length (colors h) → length (owners h1) = length (owners h) →
  heap_wf (retire_slot_index i h1).
Proof.
  intros Hwf (Hg & s & Hs & Hne) Es Eg Ef Ec Eo.
  assert (i ∉ free_list h) as Hni by (intros Hi%(wf_free_slots h Hwf); congruence).
  destruct Hwf as [Wc Wo Wg Wcap Wr Wnd Wfs].
  split; rewrite ?retire_slots, ?retire_colors, ?retire_owners, ?retire_length_generations, ?Es, ?length_insert;
    try congruence.
  - intros j g0. destruct (retire_cases h1 i g) as [(? & -> & _)|(? & -> & _)]; [congruence|..]; rewrite Eg; [|apply Wr].
    destruct (decide (j = i)) as [->|]; [|rewrite list_lookup_insert_ne by done; apply Wr].
    rewrite list_lookup_insert_eq by eauto using lookup_lt_Some. intros [= <-]. specialize (Wr _ _ Hg). lia.
  - destruct (retire_cases h1 i g) as [(? & _ & ->)|(? & _ & ->)]; [congruence|..]; rewrite Ef; [|done].
    by constructor.
  - intros j Hj. destruct (decide (j = i)) as [->|Hji].
    { apply list_lookup_insert_eq. eauto using lookup_lt_Some. }
    rewrite list_lookup_insert_ne by done. apply Wfs.
    destruct (retire_cases h1 i g) as [(? & _ & E)|(? & _ & E)]; [congruence|..]; rewrite E, Ef in Hj; [|done].
    set_solver.
Qed.

(** ** Allocation *)

Lemma pop_free_some h i h1 :
  heap_wf h → pop_free h = (Some i, h1) →
  slots h !! i = Some Free ∧ i ∈ free_list h ∧ i ∉ free_list h1 ∧
  (∀ j, j ∈ free_list h1 ↔ j ∈ free_list h ∧ j ≠ i) ∧ NoDup (free_list h1) ∧
  h1 = set_free_list (free_list h1) h.
Proof.
  intros Hwf. pose proof (wf_free_nodup h Hwf) as Hnd. pose proof (wf_free_slots h Hwf) as Hfs.
  unfold pop_free. destruct (no_slot_reuse h); [done|].
  destruct (free_list h) as [|k fl] eqn:E; [done|]. intros [= -> <-]. simpl.
  apply NoDup_cons in Hnd as [Hni Hnd]. rewrite !elem_of_cons.
  split_and!; auto; [apply Hfs; set_solver|set_solver].
Qed.

Lemma pop_free_none h h1 : pop_free h = (None, h1) → h1 = h.
Proof. unfold pop_free. by repeat case_match; intros [=]. Qed.

(** Putting a value in the popped slot [i]. *)
Definition refilled h h' i (s : Slot T) : Prop :=
  slots h' = <[i := s]> (slots h) ∧ generations h' = generations h ∧
  NoDup (free_list h') ∧ (∀ j, j ∈ free_list h' ↔ j ∈ free_list h ∧ j ≠ i) ∧
  (∃ c, colors h' = <[i := c]> (colors h)) ∧ (∃ o, owners h' = <[i := o]> (owners h)).

Lemma refill_evolves h h' i s :
  heap_wf h → i ∈ free_list h → refilled h h' i s → evolves h h'.
Proof.
  intros Hwf Hi (Es & Eg & _ & Ef & _). pose proof (wf_free_slots h Hwf i Hi) as Hfree. intros j g.
  unfold dead_at, live_at. rewrite Es, Eg. split.
  - intros (g' & Hg' & [H|(?&?&Hs&Hn)]); exists g'; (split; [done|]); [by left|right].
    assert (j ≠ i) by (intros ->; done).
    rewrite list_lookup_insert_ne by done. rewrite Ef. naive_solver.
  - intros (Hg & s' & Hs & Hne). left. split; [done|]. exists s'. split; [|done].
    rewrite list_lookup_insert_ne; [done|]. intros ->. congruence.
Qed.

Lemma refill_wf h h' i s : heap_wf h → i ∈ free_list h → refilled h h' i s → heap_wf h'.
Proof.
  intros Hwf Hi (Es & Eg & End & Ef & [? Ec] & [? Eo]). destruct Hwf as [Wc Wo Wg Wcap Wr Wnd Wfs].
  split; rewrite ?Es, ?Eg, ?Ec, ?Eo, ?length_insert; try congruence; [done..|].
  intros j [Hj Hne]%Ef. rewrite list_lookup_insert_ne by done. auto.
Qed.

(** Appending a slot. *)
Definition appended h h' (s : Slot T) : Prop :=
  slots h' = slots h ++ [s] ∧ generations h' = generations h ++ [0%Z] ∧
  free_list h' = free_list h ∧ (∃ c, colors h' = colors h ++ [c]) ∧ (∃ o, owners h' = owners h ++ [o]).

Lemma append_evolves h h' s : heap_wf h → appended h h' s → evolves h h'.
Proof.
  intros Hwf (Es & Eg & Ef & _) i g. unfold dead_at, live_at. rewrite Es, Eg, Ef.
  pose proof (wf_generations h Hwf) as Hl.
  split.
  - intros (g' & Hg' & H). exists g'. split; [by apply lookup_app_l_Some|].
    destruct H as [H|(?&?&?&?)]; [by left|right]. split_and!; auto using lookup_app_l_Some.
  - intros (Hg & s' & Hs & Hne). left. split; [by apply lookup_app_l_Some|].
    exists s'. split; [by apply lookup_app_l_Some|done].
Qed.

Lemma append_wf h h' s :
  heap_wf h → (Z.of_nat (length (slots h)) ≤ OBJECT_ID_INDEX_MASK)%Z → appended h h' s → heap_wf h'.
Proof.
  intros Hwf Hcap (Es & Eg & Ef & [? Ec] & [? Eo]). destruct Hwf as [Wc Wo Wg Wcap Wr Wnd Wfs].
  split; rewrite ?Es, ?Eg, ?Ef, ?Ec, ?Eo, ?length_app; simpl; try lia; [|done|].
  - intros i g [Hg|[_ Hg]]%lookup_app_Some; [by eapply Wr|].
    apply list_lookup_singleton_Some in Hg as [_ <-]. rewrite max_generation_val. lia.
  - intros i Hi. apply lookup_app_l_Some. auto.
Qed.

(** The heap is full: no slot to reuse and no index left. *)
Definition at_capacity h : Prop :=
  (pop_free h).1 = None ∧ (OBJECT_ID_INDEX_MASK < Z.of_nat (length (slots h)))%Z.

(** Where an allocation puts its value. *)
Definition allocated h h' (s : Slot T) (o : Z) id : Prop :=
  (slot_index id ∈ free_list h ∧ refilled h h' (slot_index id) s
   ∨ slot_index id = length (slots h) ∧ appended h h' s ∧
     (Z.of_nat (length (slots h)) ≤ OBJECT_ID_INDEX_MASK)%Z) ∧
  generations h' !! slot_index id = Some (generation id) ∧
  slots h' !! slot_index id = Some s ∧
  owners h' !! slot_index id = Some o ∧ colors h' !! slot_index id = Some White.

Ltac solve_write Hwf :=
  pose proof (wf_colors _ Hwf); pose proof (wf_owners _ Hwf); pose proof (wf_generations _ Hwf).

Lemma reuse_allocated h h1 i s o :
  heap_wf h → pop_free h = (Some i, h1) →
  ∃ id, handle_at (write_slot i s White o h1) i = Ret id ∧ allocated h (write_slot i s White o h1) s o id.
Proof.
  intros Hwf Hp. destruct (pop_free_some h i h1 Hwf Hp) as (Hs & Hin & Hni & Hfl & Hnd & E1).
  set (h' := write_slot i s White o h1).
  assert (refilled h h' i s) as Hr.
  { unfold refilled, h', write_slot. rewrite E1. simpl. split_and!; eauto. }
  pose proof (refill_wf h h' i s Hwf Hin Hr) as Hwf'.
  assert (i < length (slots h)) as Hlt by eauto using lookup_lt_Some.
  solve_write Hwf.
  destruct (lookup_lt_is_Some_2 (generations h) i) as [g Hg]; [lia|].
  destruct (handle_at_ok h' i g Hwf') as (id & Hid & Hsi & Hgi); [by destruct Hr as (_ & -> & _)|].
  exists id. split; [done|]. unfold allocated. rewrite Hsi, Hgi. split; [left; auto|].
  destruct Hr as (-> & -> & _). unfold h', write_slot. rewrite E1. simpl.
  rewrite !list_lookup_insert_eq by lia. auto.
Qed.

Lemma push_allocated h s o (b : bool) :
  heap_wf h → (Z.of_nat (length (slots h)) ≤ OBJECT_ID_INDEX_MASK)%Z →
  let h' := push_slot s o (if b then set_oom true h else h) in
  ∃ id, handle_at h' (length (slots h)) = Ret id ∧ allocated h h' s o id.
Proof.
  intros Hwf Hcap h'.
  assert (appended h h' s) as Ha.
  { unfold appended, h', push_slot. destruct b; simpl; split_and!; eauto. }
  pose proof (append_wf h h' s Hwf Hcap Ha) as Hwf'. solve_write Hwf.
  assert (generations h' !! length (slots h) = Some 0%Z) as Hg0.
  { destruct Ha as (_ & -> & _). rewrite lookup_app_r by lia.
    replace (length (slots h) - length (generations h)) with 0 by lia. done. }
  destruct (handle_at_ok h' (length (slots h)) 0 Hwf' Hg0) as (id & Hid & Hsi & Hgi).
  exists id. split; [done|]. unfold allocated. rewrite Hsi, Hgi. split; [right; auto|].
  split; [done|]. unfold h', push_slot. destruct b; simpl;
    rewrite !lookup_app_r by lia; split_and!;
    match goal with |- [_] !! ?k = _ => replace k with 0 by lia end; done.
Qed.

Lemma set_alloc_count_wf n h : heap_wf h → heap_wf (set_alloc_count n h).
Proof. by intros []. Qed.

Lemma allocated_alloc_count n h h' s o id :
  allocated (set_alloc_count n h) h' s o id → allocated h h' s o id.
Proof. done. Qed.

Lemma alloc_with_owner_spec h v o :
  heap_wf h → ¬ at_capacity h →
  ∃ h' id, alloc_with_owner v o h = Ret (h', id) ∧ allocated h h' (Object v) o id.
Proof.
  intros Hwf Hcap. unfold alloc_with_owner.
  set (h0 := set_alloc_count (wrap64 (alloc_count h + 1)) h).
  assert (heap_wf h0) as Hwf0 by by apply set_alloc_count_wf.
  destruct (pop_free h0) as [[i|] h1] eqn:Hp.
  - destruct (reuse_allocated h0 h1 i (Object v) o Hwf0 Hp) as (id & Hid & Ha).
    exists (write_slot i (Object v) White o h1), id. rewrite Hid. done.
  - pose proof (pop_free_none h0 h1 Hp) as ->.
    assert (Z.of_nat (length (slots h0)) ≤ OBJECT_ID_INDEX_MASK)%Z as Hle.
    { apply Z.nlt_ge. intros Hlt. apply Hcap. split; [|done].
      revert Hp. unfold pop_free, h0. simpl. destruct (no_slot_reuse h); [done|]. by destruct (free_list h). }
    destruct (Z.ltb_spec OBJECT_ID_INDEX_MASK (Z.of_nat (length (slots h0)))); [lia|].
    destruct (push_allocated h0 (Object v) o
      (Z.of_nat (length (slots h0)) =? OBJECT_ID_INDEX_MASK - OOM_SLOT_MARGIN)%Z Hwf0 Hle)
      as (id & Hid & Ha).
    cbv zeta in Hid, Ha.
    destruct (Z.of_nat (length (slots h0)) =? OBJECT_ID_INDEX_MASK - OOM_SLOT_MARGIN)%Z;
      (eexists _, id; unfold outcome_bind; rewrite Hid; split; [done|exact Ha]).
Qed.

Lemma alloc_external_with_owner_spec h hd o :
  heap_wf h → ¬ at_capacity h →
  ∃ h' id, alloc_external_with_owner hd o h = Ret (h', id) ∧ allocated h h' (ExternalSlot hd) o id.
Proof.
  intros Hwf Hcap. unfold alloc_external_with_owner.
  set (h0 := set_alloc_count (wrap64 (alloc_count h + 1)) h).
  assert (heap_wf h0) as Hwf0 by by apply set_alloc_count_wf.
  destruct (pop_free h0) as [[i|] h1] eqn:Hp.
  - destruct (reuse_allocated h0 h1 i (ExternalSlot hd) o Hwf0 Hp) as (id & Hid & Ha).
    exists (write_slot i (ExternalSlot hd) White o h1), id. rewrite Hid. done.
  - pose proof (pop_free_none h0 h1 Hp) as ->.
    assert (Z.of_nat (length (slots h0)) ≤ OBJECT_ID_INDEX_MASK)%Z as Hle.
    { apply Z.nlt_ge. intros Hlt. apply Hcap. split; [|done].
      revert Hp. unfold pop_free, h0. simpl. destruct (no_slot_reuse h); [done|]. by destruct (free_list h). }
    destruct (Z.leb_spec (Z.of_nat (length (slots h0))) OBJECT_ID_INDEX_MASK); [|lia].
    destruct (push_allocated h0 (ExternalSlot hd) o false Hwf0 Hle) as (id & Hid & Ha).
    cbv zeta in Hid, Ha. eexists _, id. unfold outcome_bind. rewrite Hid. split; [done|exact Ha].
Qed.

Lemma allocated_wf h h' s o id : heap_wf h → allocated h h' s o id → heap_wf h'.
Proof. intros Hwf ([[Hi Hr]|(? & Ha & Hc)] & _); eauto using refill_wf, append_wf. Qed.

Lemma allocated_evolves h h' s o id : heap_wf h → allocated h h' s o id → evolves h h'.
Proof. intros Hwf ([[Hi Hr]|(? & Ha & Hc)] & _); eauto using refill_evolves, append_evolves. Qed.

(** The handle of an allocation was never issued before. *)
Lemma allocated_fresh h h' s o id : heap_wf h → allocated h h' s o id → ¬ issued h id.
Proof.
  intros Hwf (Hw & Hg & _). unfold issued, live, dead, live_at, dead_at.
  destruct Hw as [[Hi (Es & Eg & _)]|(Hi & _)].
  - rewrite Eg in Hg. pose proof (wf_free_slots h Hwf _ Hi) as Hs.
    intros [(_ & s' & Hs' & ?)|(g' & Hg' & [H|(_ & _ & _ & Hn)])]; [congruence| |done].
    simplify_eq. lia.
  - pose proof (wf_generations h Hwf) as Hl.
    intros [(Hg' & _)|(g' & Hg' & _)]; apply lookup_lt_Some in Hg'; lia.
Qed.

Lemma allocated_lookup_ne h h' s o id i s' :
  heap_wf h → allocated h h' s o id → slots h !! i = Some s' → s' ≠ Free →
  slots h' !! i = Some s' ∧ generations h' !! i = generations h !! i.
Proof.
  intros Hwf (Hw & _) Hs Hne. destruct Hw as [[Hi (-> & -> & _)]|(Hi & (-> & -> & _) & _)].
  - split; [|done]. rewrite list_lookup_insert_ne; [done|]. intros <-.
    pose proof (wf_free_slots h Hwf _ Hi). congruence.
  - pose proof (wf_generations h Hwf). apply lookup_lt_Some in Hs as Hlt.
    rewrite !lookup_app_l by lia. done.
Qed.

Lemma allocated_frame h h' s o id id' :
  heap_wf h → allocated h h' s o id → issued h id' →
  Heap_get h' id' = Heap_get h id' ∧ (live h' id' ↔ live h id').
Proof.
  intros Hwf Ha [Hl|Hd].
  - destruct Hl as (Hg & s' & Hs & Hne).
    destruct (allocated_lookup_ne h h' s o id _ s' Hwf Ha Hs Hne) as [Hs' Hg'].
    unfold Heap_get, live, live_at, generation_matches. rewrite Hs', Hg', Hs. done.
  - pose proof (proj1 (allocated_evolves h h' s o id Hwf Ha _ _) Hd) as Hd'.
    rewrite (proj1 (dead_get h id' Hd)), (proj1 (dead_get h' id' Hd')).
    split; [done|]. split; intros Hl; exfalso; eauto using live_not_dead.
Qed.

(** ** Freeing *)

Lemma Heap_free_release h id :
  live h id →
  Heap_free id h = retire_slot_index (slot_index id) (write_slot (slot_index id) Free White 0 h).
Proof.
  intros (Hg & s & Hs & _). unfold Heap_free.
  rewrite (proj2 (generation_matches_true h _ id) Hg), bool_decide_eq_true_2 by eauto using lookup_lt_Some.
  done.
Qed.

Lemma Heap_free_live h id :
  heap_wf h → live h id →
  heap_wf (Heap_free id h) ∧ evolves h (Heap_free id h) ∧ dead (Heap_free id h) id.
Proof.
  intros Hwf Hl. rewrite Heap_free_release by done.
  split_and!; [eapply release_wf|eapply release_evolves|eapply release_dead]; try done;
    unfold write_slot; simpl; by rewrite length_insert.
Qed.

Lemma Heap_free_dead h id :
  heap_wf h → dead h id →
  heap_wf (Heap_free id h) ∧ evolves h (Heap_free id h) ∧ dead (Heap_free id h) id.
Proof.
  intros Hwf Hd. cut (same_core h (Heap_free id h) ∧ heap_wf (Heap_free id h)).
  { intros [Hc Hwf']. pose proof (same_core_evolves _ _ Hc) as He. split_and!; [done..|]. by apply He. }
  unfold Heap_free. destruct (generation_matches h (slot_index id) id) eqn:Hm; [|done].
  case_bool_decide; [simpl|done]. apply generation_matches_true in Hm.
  destruct Hd as (g' & Hg' & Hd). assert (g' = generation id) as -> by congruence.
  destruct Hd as [H1|(_ & Hmax & Hs & Hn)]; [lia|].
  assert (retire_slot_index (slot_index id) (write_slot (slot_index id) Free White 0 h)
          = write_slot (slot_index id) Free White 0 h) as ->.
  { unfold retire_slot_index, write_slot; simpl. rewrite Hm, Hmax. done. }
  unfold write_slot, same_core; simpl. rewrite list_insert_id by done. split; [done|].
  destruct Hwf. by split; simpl; rewrite ?length_insert; try rewrite list_insert_id.
Qed.

(** ** The theorems *)

(** Allocation is safe.  In a well-formed heap that is not full,
    [alloc_with_owner] does not panic; the heap stays well formed; the handle it
    returns was never issued before, now reads back the value and its owner; and
    every handle issued earlier reads what it read before, alive or not. *)
Lemma alloc_fresh_and_framed h v o :
  heap_wf h → ¬ at_capacity h →
  ∃ h' id, alloc_with_owner v o h = Ret (h', id) ∧ heap_wf h' ∧ ¬ issued h id ∧
    Heap_get h' id = Some v ∧ Heap_owner h' id = Some o ∧
    ∀ id', issued h id' → Heap_get h' id' = Heap_get h id' ∧ (live h' id' ↔ live h id').
Proof.
  intros Hwf Hcap. destruct (alloc_with_owner_spec h v o Hwf Hcap) as (h' & id & E & Ha).
  exists h', id. split_and!; eauto using allocated_wf, allocated_fresh, allocated_frame.
  all: destruct Ha as (_ & Hg & Hs & Ho & _); apply generation_matches_true in Hg;
       unfold Heap_get, Heap_owner; by rewrite Hg, Hs.
Qed.

(** Freeing is safe, once or many times.  Freeing any issued handle (live, or
    already dead) keeps the heap well formed, leaves the handle dead, and leaves
    every live handle of another slot live with the value it had. *)
Lemma free_is_idempotently_safe h id :
  heap_wf h → issued h id →
  heap_wf (Heap_free id h) ∧ dead (Heap_free id h) id ∧
  ∀ id', live h id' → slot_index id' ≠ slot_index id →
    live (Heap_free id h) id' ∧ Heap_get (Heap_free id h) id' = Heap_get h id'.
Proof.
  intros Hwf Hi. assert (heap_wf (Heap_free id h) ∧ dead (Heap_free id h) id) as [Hwf' Hd'].
  { destruct Hi as [Hl|Hd]; [edestruct Heap_free_live|edestruct Heap_free_dead]; naive_solver. }
  split_and!; [done..|]. intros id' (Hg & s & Hs & Hne) Hneq.
  assert (slots (Heap_free id h) !! slot_index id' = slots h !! slot_index id' ∧
          generations (Heap_free id h) !! slot_index id' = generations h !! slot_index id') as [Es Eg].
  { unfold Heap_free. destruct (_ && _); [|done]. rewrite retire_slots.
    split; [unfold write_slot; simpl; by rewrite list_lookup_insert_ne|].
    unfold retire_slot_index. repeat case_match; simpl; rewrite ?list_lookup_insert_ne; done. }
  unfold Heap_get, live, live_at, generation_matches. rewrite Es, Eg. eauto.
Qed.

(** Running out of slots.  At capacity an object allocation reuses the
    reserved sentinel's slot: it raises the [oom] flag and returns that slot's
    running handle, which now reads the new value, so nothing else is touched;
    without a sentinel it panics.  An external-handle allocation at capacity
    always panics. *)
Lemma alloc_at_capacity h v hd o :
  heap_wf h → at_capacity h →
  (match oom_sentinel h with
   | Some s => s < length (slots h) →
       ∃ h' id, alloc_with_owner v o h = Ret (h', id) ∧ slot_index id = s ∧ oom h' = true ∧
         Heap_get h' id = Some v ∧ generations h' = generations h ∧
         ∀ i, i ≠ s → slots h' !! i = slots h !! i
   | None => alloc_with_owner v o h = Panic
   end) ∧
  alloc_external_with_owner hd o h = Panic.
Proof.
  intros Hwf [Hp Hc]. unfold alloc_with_owner, alloc_external_with_owner.
  set (h0 := set_alloc_count (wrap64 (alloc_count h + 1)) h).
  destruct (pop_free h0) as [p h1] eqn:Ep.
  assert (p = None) as ->.
  { revert Hp Ep. unfold pop_free, h0; simpl. destruct (no_slot_reuse h); [by intros _ [=]|].
    destruct (free_list h); [by intros _ [=]|done]. }
  pose proof (pop_free_none h0 h1 Ep) as ->. simpl.
  rewrite (proj2 (Z.ltb_lt _ _) Hc).
  destruct (Z.leb_spec (Z.of_nat (length (slots h))) OBJECT_ID_INDEX_MASK); [lia|].
  split; [|done]. destruct (oom_sentinel h) as [s|]; [|done]. intros Hs.
  set (h' := write_slot s (Object v) White o (set_oom true h0)).
  destruct (lookup_lt_is_Some_2 (generations h) s) as [g Hg]; [by rewrite wf_generations|].
  assert (handle_at h' s = handle_at h s) as Eh by done.
  destruct (handle_at_ok h s g Hwf Hg) as (id & Hid & Hsi & Hgi).
  rewrite Eh, Hid. exists h', id. split_and!; try done.
  - unfold Heap_get, generation_matches. change (generations h') with (generations h).
    rewrite Hsi, Hg, Hgi, Z.eqb_refl. simpl. by rewrite list_lookup_insert_eq.
  - intros i Hi. by apply list_lookup_insert_ne.
Qed.

(** The bounds the collector's tuning keeps: the allocation threshold is never
    below 1024 after a sweep, and fits a machine word. *)
Lemma adapt_threshold_bounds rss h :
  (1024 ≤ threshold (adapt_threshold_after_sweep rss h) ≤ u64_max)%Z.
Proof.
  unfold adapt_threshold_after_sweep; simpl. set (m := saturating_mul64 _ (autotuned_permille _ _)).
  assert (m ≤ u64_max)%Z by (unfold m, saturating_mul64; lia).
  split; [lia|]. apply Z.max_lub; [|unfold u64_max; lia].
  destruct (decide (0 ≤ m)%Z).
  - etrans; [|done]. apply Z.div_le_upper_bound; lia.
  - assert (m `div` 2000 < 0)%Z by (apply Z.div_lt_upper_bound; lia). unfold u64_max in *. lia.
Qed.
End Handles.

(** ** A concrete heap *)

(** An object that is the list of its references. *)
Definition Node : Type := list ObjectId.

#[export] Instance Node_trace : Trace Node := {|
  trace n := n;
  trace_slice := default_trace_slice (λ n, n) |}.

Definition empty_heap : Heap Node := Heap_with_slot_reuse true 0 67108864 4000.

Lemma empty_heap_wf {T} reuse st et gr : heap_wf (@Heap_with_slot_reuse T reuse st et gr).
Proof. split; simpl; try done; [constructor|set_solver]. Qed.

Lemma empty_not_full : ¬ at_capacity empty_heap.
Proof. intros [_ H]. vm_compute in H. discriminate. Qed.

Definition one_heap : Heap Node :=
  match alloc ([] : Node) empty_heap with Ret (h, _) => h | Panic => empty_heap end.

Lemma one_heap_wf : heap_wf one_heap.
Proof.
  split; try reflexivity.
  - vm_compute. discriminate.
  - intros [|[|i]] g; vm_compute; intros [= <-]; split; discriminate.
  - constructor.
  - intros i Hi. inversion Hi.
Qed.

(** A heap of [n] empty objects whose slot 0 is the reserved sentinel. *)
Definition packed_heap (n : nat) : Heap Node :=
  set_oom_sentinel (Some 0) (set_generations (replicate n 0%Z) (set_owners (replicate n 0%Z)
    (set_colors (replicate n White) (set_slots (replicate n (Object [])) empty_heap)))).

Lemma packed_heap_wf n : (Z.of_nat n ≤ OBJECT_ID_INDEX_MASK + 1)%Z → heap_wf (packed_heap n).
Proof.
  intros Hn. split; simpl; rewrite ?length_replicate; try done.
  - intros i g [-> _]%lookup_replicate. rewrite max_generation_val. lia.
  - constructor.
  - intros i Hi. inversion Hi.
Qed.

Lemma packed_heap_full n : Z.of_nat n = (OBJECT_ID_INDEX_MASK + 1)%Z → at_capacity (packed_heap n).
Proof. intros Hn. split; [done|]. simpl. rewrite length_replicate. lia. Qed.

(** A heap can be full, and then the allocation of an external object panics. *)
Lemma alloc_external_panics_when_full : ∃ n, alloc_external_with_owner 9%Z 0 (packed_heap n) = Panic.
Proof.
  exists (Z.to_nat (OBJECT_ID_INDEX_MASK + 1)).
  assert (Z.of_nat (Z.to_nat (OBJECT_ID_INDEX_MASK + 1)) = (OBJECT_ID_INDEX_MASK + 1)%Z) as E
    by (apply Z2Nat.id; unfold OBJECT_ID_INDEX_MASK; lia).
  apply (alloc_at_capacity (packed_heap (Z.to_nat (OBJECT_ID_INDEX_MASK + 1))) [] 9%Z 0%Z).
  - apply packed_heap_wf. rewrite E. reflexivity.
  - apply packed_heap_full. exact E.
Qed.
