(* ===== verification/GcCollect.v ===== *)
(** * GcCollect: stop-the-world collection
    (src/crates/rusty-js-gc/src/lib.rs, [collect], [collect_with_ephemerons],
    [collect_realm], [collect_realm_with_ephemerons], [maybe_collect])

    Marking from the roots with a worklist, the ephemeron fixpoint, and the
    sweep.  The whole-heap and the realm collector are the same code up to the
    owner test, so the definitions take a scope: [None] for the whole heap,
    [Some owner] for one realm.  Marking changes nothing of the heap but its
    colours, so its state is the colour vector and the worklist (top first).

    Each loop runs on fuel: one unit per slot is enough to drain the worklist,
    because an object enters it only when it turns from white to gray, and one
    unit per slot (plus one) for the ephemeron loop, because each repetition but
    the last turns an object gray.  The theorems do not assume it: they prove that
    the loops finish within it. *)

From S2P Require Import Prelude Gc GcHandles.

Section Defs.
Context {T : Type} `{Trace T}.
Implicit Types (h : Heap T) (scope : option Z) (id : ObjectId) (cs : list Color).

Definition in_scope scope h i : bool :=
  match scope with None => true | Some o => (owner_at h i =? o)%Z end.

(** The test every edge, root and ephemeron endpoint passes before it is marked. *)
Definition markable scope h id : bool :=
  let i := slot_index id in
  bool_decide (i < length (slots h)) && generation_matches h i id && in_scope scope h i
  && negb (is_free_slot (slot_at h i)).

Definition is_white cs i : bool := bool_decide (default White (cs !! i) = White).

Definition mark_edge scope h (st : list Color * list ObjectId) id : list Color * list ObjectId :=
  let '(cs, wl) := st in
  let i := slot_index id in
  if markable scope h id && is_white cs i then (<[i := Gray]> cs, id :: wl) else (cs, wl).

Definition out_edges h i : list ObjectId :=
  match slot_at h i with Object v => trace v | _ => [] end.

(** One turn of the worklist loop, on the popped [id]. *)
Definition mark_step scope h id (st : list Color * list ObjectId) : list Color * list ObjectId :=
  let '(cs, wl) := st in
  let i := slot_index id in
  let skip :=
    match scope with
    | None => negb (generation_matches h i id)
    | Some o => negb (bool_decide (i < length (slots h))) || negb (generation_matches h i id)
                || negb (owner_at h i =? o)%Z
    end in
  if skip then (cs, wl)
  else foldl (mark_edge scope h) (<[i := Black]> cs, wl) (out_edges h i).

Fixpoint drain (fuel : nat) scope h (cs : list Color) (wl : list ObjectId) :
    list Color * list ObjectId :=
  match wl, fuel with
  | [], _ => (cs, [])
  | id :: wl', S fuel' => let '(cs', wl'') := mark_step scope h id (cs, wl') in
                          drain fuel' scope h cs' wl''
  | _ :: _, O => (cs, wl)
  end.

Definition ephemeron_step scope h (st : list Color * list ObjectId * bool)
    (kv : ObjectId * ObjectId) : list Color * list ObjectId * bool :=
  let '(cs, wl, changed) := st in
  let '(key, value) := kv in
  let ki := slot_index key in
  let vi := slot_index value in
  if markable scope h key && markable scope h value && negb (is_white cs ki) && is_white cs vi
  then (<[vi := Gray]> cs, value :: wl, true) else (cs, wl, changed).

Fixpoint ephemeron_loop (fuel : nat) scope h (ephemerons : list (ObjectId * ObjectId))
    (cs : list Color) (wl : list ObjectId) : list Color * list ObjectId :=
  match fuel with
  | O => (cs, wl)
  | S fuel' =>
      let '(cs1, wl1, changed) := foldl (ephemeron_step scope h) (cs, wl, false) ephemerons in
      let '(cs2, wl2) := drain (length (slots h)) scope h cs1 wl1 in
      if (changed : bool) then ephemeron_loop fuel' scope h ephemerons cs2 wl2 else (cs2, wl2)
  end.

(** The colours when marking is over. *)
Definition mark_all scope h (roots : list ObjectId) (ephemerons : list (ObjectId * ObjectId)) :
    list Color * list ObjectId :=
  let cs0 := (λ _, White) <$> colors h in
  let '(cs1, wl1) := foldl (mark_edge scope h) (cs0, []) roots in
  let '(cs2, wl2) := drain (length (slots h)) scope h cs1 wl1 in
  ephemeron_loop (S (length (slots h))) scope h ephemerons cs2 wl2.

(** [slots[i] = Free; owners[i] = 0; retire_slot_index(i)]. *)
Definition release_slot (i : nat) h : Heap T :=
  retire_slot_index i (set_owners (<[i := 0%Z]> (owners h)) (set_slots (<[i := Free]> (slots h)) h)).

(** The body of the sweep loop at index [i]; the counter is the number freed. *)
Definition sweep_index scope (st : Heap T * nat) (i : nat) : Heap T * nat :=
  let '(h, freed) := st in
  if negb (in_scope scope h i) then
    if bool_decide (color_at h i = Black)
    then (set_colors (<[i := White]> (colors h)) h, freed) else (h, freed)
  else
    match color_at h i, slot_at h i with
    | White, ExternalSlot hd =>
        (release_slot i (set_freed_external (freed_external h ++ [hd]) h), S freed)
    | White, Object _ => (release_slot i h, S freed)
    | Black, _ => (set_colors (<[i := White]> (colors h)) h, freed)
    | _, _ => (h, freed)
    end.

Definition sweep scope h : Heap T * nat :=
  foldl (sweep_index scope) (h, 0) (seq 0 (length (slots h))).

Definition collect_in scope (rss : Z) (roots : list ObjectId)
    (ephemerons : list (ObjectId * ObjectId)) h : Heap T * nat :=
  let '(cs, _) := mark_all scope h roots ephemerons in
  let '(h', freed) := sweep scope (set_colors cs h) in
  (adapt_threshold_after_sweep rss (set_alloc_count 0 h'), freed).

Definition collect_with_ephemerons rss roots ephemerons h : Heap T * nat :=
  collect_in None rss roots ephemerons h.

Definition collect rss roots h : Heap T * nat := collect_with_ephemerons rss roots [] h.

Definition collect_realm_with_ephemerons (o : Z) rss roots ephemerons h : Heap T * nat :=
  collect_in (Some o) rss roots ephemerons h.

Definition collect_realm (o : Z) rss roots h : Heap T * nat :=
  collect_realm_with_ephemerons o rss roots [] h.

Definition maybe_collect (rss : Z) roots h : Heap T * option nat :=
  if should_collect rss h then let '(h', n) := collect rss roots h in (h', Some n) else (h, None).
End Defs.

(** ** Counting white objects *)

Definition white (cs : list Color) : nat := length (filter (λ c, c = White) cs).

Lemma white_cons c cs : white (c :: cs) = (if decide (c = White) then 1 else 0) + white cs.
Proof. unfold white. rewrite filter_cons. by case_decide. Qed.

Lemma white_insert_white cs i c :
  cs !! i = Some White → c ≠ White → S (white (<[i := c]> cs)) = white cs.
Proof.
  intros Hi Hc. revert i Hi. induction cs as [|c0 cs IH]; intros [|i] Hi; try done.
  - injection Hi as ->. change (<[0:=c]> (White :: cs)) with (c :: cs). rewrite !white_cons.
    by rewrite decide_False, decide_True.
  - change (<[S i:=c]> (c0 :: cs)) with (c0 :: <[i:=c]> cs). rewrite !white_cons.
    specialize (IH i Hi). lia.
Qed.

Lemma white_insert_other cs i c c' :
  cs !! i = Some c' → c' ≠ White → c ≠ White → white (<[i := c]> cs) = white cs.
Proof.
  intros Hi Hc' Hc. revert i Hi. induction cs as [|c0 cs IH]; intros [|i] Hi; try done.
  - injection Hi as ->. change (<[0:=c]> (c' :: cs)) with (c :: cs). rewrite !white_cons.
    by rewrite !decide_False.
  - change (<[S i:=c]> (c0 :: cs)) with (c0 :: <[i:=c]> cs). rewrite !white_cons.
    specialize (IH i Hi). lia.
Qed.

Lemma white_all {A} (l : list A) : white ((λ _, White) <$> l) = length l.
Proof. induction l as [|x l IH]; [done|]. rewrite fmap_cons, white_cons, IH. by rewrite decide_True. Qed.

Lemma white_bound cs i : cs !! i = Some White → 0 < white cs.
Proof. intros Hi. pose proof (white_insert_white cs i Black Hi ltac:(done)). lia. Qed.

(** ** Reachability and the tri-colour invariant *)

Section Marking.
Context {T : Type} `{Trace T} (scope : option Z) (h : Heap T).
Context (roots : list ObjectId) (eph : list (ObjectId * ObjectId)).
Implicit Types (id : ObjectId) (cs : list Color) (wl : list ObjectId).

(** The slots a collection must keep: the markable roots, what objects refer to,
    and the value of an ephemeron whose key is kept. *)
Inductive reach : nat → Prop :=
| reach_root r :
    r ∈ roots → markable scope h r = true → reach (slot_index r)
| reach_edge i e :
    reach i → e ∈ out_edges h i → markable scope h e = true → reach (slot_index e)
| reach_ephemeron k v :
    (k, v) ∈ eph → markable scope h k = true → markable scope h v = true →
    reach (slot_index k) → reach (slot_index v).

Definition nonwhite cs i : Prop := ∃ c, cs !! i = Some c ∧ c ≠ White.

(** Gray objects are exactly those on the worklist, and nothing unreachable is
    coloured. *)
Record tricolor cs wl : Prop := {
  tc_length : length cs = length (slots h);
  tc_gray : ∀ id, id ∈ wl → markable scope h id = true ∧ cs !! slot_index id = Some Gray;
  tc_nodup : NoDup (slot_index <$> wl);
  tc_worklist : ∀ i, cs !! i = Some Gray → i ∈ slot_index <$> wl;
  tc_sound : ∀ i, nonwhite cs i → reach i;
}.

(** No black object outside [X] refers to a white one. *)
Definition black_closed_but (X : nat → Prop) cs : Prop :=
  ∀ i e, ¬ X i → cs !! i = Some Black → e ∈ out_edges h i → markable scope h e = true →
    nonwhite cs (slot_index e).

Definition black_closed cs : Prop := black_closed_but (λ _, False) cs.

(** Colours only darken, and marking leaves the black objects as they are. *)
Definition darker cs cs' : Prop :=
  length cs' = length cs ∧ ∀ i, nonwhite cs i → nonwhite cs' i.

#[export] Instance darker_preorder : PreOrder darker.
Proof.
  split; [by intros cs|]. intros a b c [H1 H2] [H3 H4]. split; [congruence|auto].
Qed.

Lemma markable_bound id : markable scope h id = true → slot_index id < length (slots h).
Proof. unfold markable. rewrite !andb_true_iff, bool_decide_eq_true. tauto. Qed.

Lemma is_white_true cs i : i < length cs → is_white cs i = true ↔ cs !! i = Some White.
Proof.
  intros Hi. unfold is_white. rewrite bool_decide_eq_true.
  destruct (lookup_lt_is_Some_2 cs i Hi) as [c ->]. naive_solver.
Qed.

Lemma nonwhite_iff cs i : i < length cs → nonwhite cs i ↔ is_white cs i = false.
Proof.
  intros Hi. rewrite <-not_true_iff_false, is_white_true by done. unfold nonwhite.
  destruct (lookup_lt_is_Some_2 cs i Hi) as [c ->]. naive_solver.
Qed.

Lemma nonwhite_insert cs i j c :
  c ≠ White → i < length cs → nonwhite (<[i := c]> cs) j ↔ j = i ∨ nonwhite cs j.
Proof.
  intros Hc Hi. unfold nonwhite. destruct (decide (j = i)) as [->|Hne].
  - rewrite list_lookup_insert_eq by done. naive_solver.
  - rewrite list_lookup_insert_ne by done. naive_solver.
Qed.

Lemma darker_insert cs i c : c ≠ White → darker cs (<[i := c]> cs).
Proof.
  intros Hc. split; [apply length_insert|]. intros j Hj.
  destruct (decide (i < length cs)) as [Hi|Hi].
  - apply nonwhite_insert; auto.
  - rewrite list_insert_ge by lia. done.
Qed.

(** Turning a white, reachable, markable object gray. *)
Lemma gray_push X cs wl id :
  tricolor cs wl → black_closed_but X cs → markable scope h id = true →
  cs !! slot_index id = Some White → reach (slot_index id) →
  let cs' := <[slot_index id := Gray]> cs in
  tricolor cs' (id :: wl) ∧ black_closed_but X cs' ∧ darker cs cs' ∧ S (white cs') = white cs.
Proof.
  intros [Hl Hg Hnd Hw Hs] Hb Hm Hwh Hr cs'.
  assert (slot_index id < length cs) as Hlt by eauto using lookup_lt_Some.
  assert (slot_index id ∉ slot_index <$> wl) as Hni.
  { intros (id' & E & Hin)%list_elem_of_fmap. apply Hg in Hin as [_ Hgr]. rewrite <-E in Hgr. congruence. }
  split_and!; [split| |by apply darker_insert|by apply white_insert_white].
  - unfold cs'. by rewrite length_insert.
  - intros id' [->|Hin]%elem_of_cons; [split; [done|by apply list_lookup_insert_eq]|].
    destruct (Hg id' Hin) as [? Hgr]. split; [done|]. unfold cs'.
    rewrite list_lookup_insert_ne; [done|]. intros E. congruence.
  - simpl. by constructor.
  - intros i. unfold cs'. simpl. destruct (decide (slot_index id = i)) as [<-|Hne]; [left|].
    rewrite list_lookup_insert_ne by done. intros Hi. right. auto.
  - intros i Hi. apply nonwhite_insert in Hi as [->|Hi]; auto.
  - intros i e Hx Hi He Hme. apply nonwhite_insert; [done..|]. right. apply (Hb i e); try done.
    revert Hi. unfold cs'. destruct (decide (slot_index id = i)) as [<-|Hne].
    + by rewrite list_lookup_insert_eq.
    + by rewrite list_lookup_insert_ne.
Qed.

(** Marking a list of reachable edges: all of them end up coloured, and the sum of
    white objects and worklist entries stays the same. *)
Lemma mark_edges X es cs wl :
  tricolor cs wl → black_closed_but X cs → (∀ e, e ∈ es → markable scope h e = true → reach (slot_index e)) →
  ∃ cs' wl', foldl (mark_edge scope h) (cs, wl) es = (cs', wl') ∧
    tricolor cs' wl' ∧ black_closed_but X cs' ∧ darker cs cs' ∧
    white cs' + length wl' = white cs + length wl ∧ white cs' ≤ white cs ∧
    ∀ e, e ∈ es → markable scope h e = true → nonwhite cs' (slot_index e).
Proof.
  revert cs wl. induction es as [|e es IH]; intros cs wl Ht Hb Hr.
  { exists cs, wl. split_and!; try done. set_solver. }
  cbn [foldl]. unfold mark_edge at 2.
  destruct (markable scope h e && is_white cs (slot_index e)) eqn:E.
  - apply andb_true_iff in E as [Hm Hw].
    rewrite is_white_true in Hw by (rewrite (tc_length _ _ Ht); by apply markable_bound).
    destruct (gray_push X cs wl e) as (Ht' & Hb' & Hd & Hc); auto; [apply Hr; set_solver|].
    destruct (IH _ _ Ht' Hb') as (cs' & wl' & -> & ? & ? & Hd2 & Hc2 & ? & Hall); [intros; apply Hr; set_solver|].
    exists cs', wl'. split_and!; auto; [by etrans|simpl in Hc2; lia|lia|].
    intros e' [->|He']%elem_of_cons Hm'; [|auto]. apply Hd2, nonwhite_insert; auto.
    eauto using lookup_lt_Some.
  - destruct (IH cs wl Ht Hb) as (cs' & wl' & -> & ? & ? & Hd2 & Hc2 & ? & Hall); [intros; apply Hr; set_solver|].
    exists cs', wl'. split_and!; auto. intros e' [->|He']%elem_of_cons Hm'; [|auto].
    apply Hd2, nonwhite_iff; [rewrite (tc_length _ _ Ht); by apply markable_bound|].
    by rewrite Hm' in E.
Qed.

Lemma markable_inv id :
  markable scope h id = true →
  bool_decide (slot_index id < length (slots h)) = true ∧
  generation_matches h (slot_index id) id = true ∧ in_scope scope h (slot_index id) = true.
Proof. unfold markable. rewrite !andb_true_iff. tauto. Qed.

(** One turn of the loop blackens the popped object and pays one unit. *)
Lemma mark_step_spec cs wl id :
  tricolor cs (id :: wl) → black_closed cs →
  ∃ cs' wl', mark_step scope h id (cs, wl) = (cs', wl') ∧
    tricolor cs' wl' ∧ black_closed cs' ∧ darker cs cs' ∧
    white cs' + length wl' = white cs + length wl ∧ white cs' ≤ white cs.
Proof.
  intros Ht Hb. destruct (tc_gray _ _ Ht id) as [Hm Hg]; [set_solver|].
  destruct (markable_inv id Hm) as (Hbd & Hgm & Hsc).
  assert (reach (slot_index id)) as Hri by (apply (tc_sound _ _ Ht); by eexists).
  assert (slot_index id < length cs) as Hlt by eauto using lookup_lt_Some.
  set (cs0 := <[slot_index id := Black]> cs).
  assert (mark_step scope h id (cs, wl) = foldl (mark_edge scope h) (cs0, wl) (out_edges h (slot_index id))) as ->.
  { unfold mark_step. destruct scope; simpl in Hsc; by rewrite ?Hbd, Hgm, ?Hsc. }
  pose proof (tc_nodup _ _ Ht) as [Hni Hnd]%NoDup_cons.
  assert (darker cs cs0) as Hd0 by by apply darker_insert.
  assert (white cs0 = white cs) as Hw0 by (by eapply white_insert_other).
  (* the invariant without the closure at the freshly blackened object *)
  assert (tricolor cs0 wl) as Ht0.
  { destruct Ht as [Hl Hgr Hn Hwk Hs]. split; [unfold cs0; by rewrite length_insert| |done| |].
    - intros id' Hin. destruct (Hgr id') as [? Hgi]; [set_solver|]. split; [done|]. unfold cs0.
      rewrite list_lookup_insert_ne; [done|]. intros E. apply Hni. rewrite E. by apply list_elem_of_fmap_2.
    - intros i. unfold cs0. destruct (decide (slot_index id = i)) as [<-|Hne].
      + by rewrite list_lookup_insert_eq.
      + rewrite list_lookup_insert_ne by done. intros Hi%Hwk. set_solver.
    - intros i Hi. apply nonwhite_insert in Hi as [->|Hi]; auto. }
  assert (black_closed_but (λ i, i = slot_index id) cs0) as Hb0.
  { intros i e Hne Hi He Hme. apply Hd0, (Hb i e); try done; [tauto|].
    revert Hi. unfold cs0. by rewrite list_lookup_insert_ne. }
  destruct (mark_edges _ (out_edges h (slot_index id)) cs0 wl Ht0 Hb0)
    as (cs' & wl' & E & Ht' & Hb' & Hd' & Hc & Hw & Hall); [by intros; eapply reach_edge|].
  exists cs', wl'. split_and!; try done; [|by etrans|lia|lia].
  intros i e _ Hi He Hme. destruct (decide (i = slot_index id)) as [->|Hne]; [by apply Hall|].
  by apply (Hb' i e).
Qed.

Lemma drain_nil fuel cs : drain fuel scope h cs [] = (cs, []).
Proof. by destruct fuel. Qed.

(** Enough fuel empties the worklist. *)
Lemma drain_spec fuel cs wl :
  tricolor cs wl → black_closed cs → white cs + length wl ≤ fuel →
  ∃ cs', drain fuel scope h cs wl = (cs', []) ∧
    tricolor cs' [] ∧ black_closed cs' ∧ darker cs cs' ∧ white cs' ≤ white cs.
Proof.
  revert cs wl. induction fuel as [|fuel IH]; intros cs [|id wl] Ht Hb Hf; simpl in Hf; try lia.
  - exists cs. by split_and!.
  - exists cs. by split_and!.
  - cbn [drain]. destruct (mark_step_spec cs wl id Ht Hb) as (cs1 & wl1 & -> & Ht1 & Hb1 & Hd1 & Hc1 & Hw1).
    destruct (IH cs1 wl1 Ht1 Hb1) as (cs' & -> & ? & ? & Hd2 & ?); [lia|].
    exists cs'. split_and!; try done; [by etrans|lia].
Qed.

(** Closure under the ephemerons of a list. *)
Definition ephemeron_closed (es : list (ObjectId * ObjectId)) cs : Prop :=
  ∀ k v, (k, v) ∈ es → markable scope h k = true → markable scope h v = true →
    nonwhite cs (slot_index k) → nonwhite cs (slot_index v).

(** A pass over the ephemerons either finds them closed and changes nothing, or
    darkens the heap. *)
Lemma ephemeron_pass es cs wl b :
  (∀ kv, kv ∈ es → kv ∈ eph) → tricolor cs wl → black_closed cs →
  ∃ cs' wl' b', foldl (ephemeron_step scope h) (cs, wl, b) es = (cs', wl', b') ∧
    tricolor cs' wl' ∧ black_closed cs' ∧ darker cs cs' ∧
    white cs' + length wl' = white cs + length wl ∧
    (cs' = cs ∧ b' = b ∧ ephemeron_closed es cs ∨ white cs' < white cs ∧ b' = true).
Proof.
  revert cs wl b. induction es as [|[k v] es IH]; intros cs wl b Hes Ht Hb.
  { exists cs, wl, b. split_and!; try done. left. split_and!; try done. intros k v Hk. set_solver. }
  cbn [foldl]. unfold ephemeron_step at 2.
  assert (∀ kv, kv ∈ es → kv ∈ eph) as Hes' by set_solver.
  destruct (markable scope h k && markable scope h v && negb (is_white cs (slot_index k))
            && is_white cs (slot_index v)) eqn:E.
  - rewrite !andb_true_iff, negb_true_iff in E. destruct E as [[[Hk Hv] Hkw] Hvw].
    pose proof (tc_length _ _ Ht) as Hl.
    rewrite is_white_true in Hvw by (rewrite Hl; by apply markable_bound).
    rewrite <-nonwhite_iff in Hkw by (rewrite Hl; by apply markable_bound).
    assert (reach (slot_index v)) as Hrv.
    { eapply reach_ephemeron; [apply Hes; by left|done..|]. by apply (tc_sound _ _ Ht). }
    destruct (gray_push (λ _, False) cs wl v Ht Hb Hv Hvw Hrv) as (Ht1 & Hb1 & Hd1 & Hc1).
    destruct (IH _ _ true Hes' Ht1 Hb1) as (cs' & wl' & b' & -> & ? & ? & Hd2 & Hc2 & Hor).
    exists cs', wl', b'. split_and!; try done; [by etrans|simpl in Hc2; lia|].
    right. destruct Hor as [(-> & -> & _)|[? ->]]; split; auto; lia.
  - destruct (IH cs wl b Hes' Ht Hb) as (cs' & wl' & b' & -> & ? & ? & Hd2 & Hc2 & Hor).
    exists cs', wl', b'. split_and!; try done.
    destruct Hor as [(-> & -> & Hcl)|?]; [left|by right]. split_and!; try done.
    intros k' v' [[= -> ->]|Hin]%elem_of_cons Hk Hv Hnw; [|by eapply Hcl].
    pose proof (tc_length _ _ Ht) as Hl.
    rewrite nonwhite_iff in Hnw |- * by (rewrite Hl; by apply markable_bound).
    by rewrite Hk, Hv, Hnw in E.
Qed.

Lemma ephemeron_loop_spec fuel cs :
  tricolor cs [] → black_closed cs → white cs < fuel →
  ∃ cs', ephemeron_loop fuel scope h eph cs [] = (cs', []) ∧
    tricolor cs' [] ∧ black_closed cs' ∧ darker cs cs' ∧ ephemeron_closed eph cs'.
Proof.
  revert cs. induction fuel as [|fuel IH]; intros cs Ht Hb Hf; [lia|]. cbn [ephemeron_loop].
  destruct (ephemeron_pass eph cs [] false ltac:(done) Ht Hb)
    as (cs1 & wl1 & b1 & -> & Ht1 & Hb1 & Hd1 & Hc1 & Hor).
  assert (white cs ≤ length (slots h)) as Hwl.
  { rewrite <-(tc_length _ _ Ht). unfold white. apply length_filter. }
  destruct Hor as [(-> & -> & Hcl)|[Hlt ->]].
  - assert (wl1 = []) as -> by (apply length_zero_iff_nil; simpl in Hc1; lia).
    rewrite drain_nil. exists cs. by split_and!.
  - destruct (drain_spec (length (slots h)) cs1 wl1 Ht1 Hb1) as (cs2 & -> & Ht2 & Hb2 & Hd2 & Hw2);
      [simpl in Hc1; lia|].
    destruct (IH cs2 Ht2 Hb2) as (cs' & -> & ? & ? & Hd3 & ?); [lia|].
    exists cs'. split_and!; try done. by do 2 (etrans; [done|]).
Qed.

(** Marking stops with an empty worklist, and what it blackened is exactly what is
    reachable; the rest is white. *)
Lemma mark_all_spec :
  length (colors h) = length (slots h) →
  ∃ cs, mark_all scope h roots eph = (cs, []) ∧ length cs = length (slots h) ∧
    ∀ i, i < length (slots h) →
      (reach i ∧ cs !! i = Some Black) ∨ (¬ reach i ∧ cs !! i = Some White).
Proof.
  intros Hlen. unfold mark_all. set (cs0 := (λ _, White) <$> colors h).
  assert (∀ i c, cs0 !! i = Some c → c = White) as Hcs0.
  { intros i c. unfold cs0. rewrite list_lookup_fmap. destruct (colors h !! i); naive_solver. }
  assert (tricolor cs0 []) as Ht0.
  { split; [unfold cs0; by rewrite length_fmap|set_solver|constructor| |].
    - intros i Hi%Hcs0. done.
    - intros i (c & Hc%Hcs0 & ?). done. }
  assert (black_closed cs0) as Hb0 by (intros i e _ Hi%Hcs0; done).
  destruct (mark_edges _ roots cs0 [] Ht0 Hb0) as (cs1 & wl1 & -> & Ht1 & Hb1 & Hd1 & Hc1 & Hw1 & Hroots);
    [by intros; apply reach_root|].
  assert (white cs0 = length (slots h)) as Hw0 by (unfold cs0; by rewrite white_all).
  destruct (drain_spec (length (slots h)) cs1 wl1 Ht1 Hb1) as (cs2 & -> & Ht2 & Hb2 & Hd2 & Hw2);
    [simpl in Hc1; lia|].
  destruct (ephemeron_loop_spec (S (length (slots h))) cs2 Ht2 Hb2) as (cs & -> & Ht & Hb & Hd & He); [lia|].
  exists cs. split_and!; [done|apply (tc_length _ _ Ht)|].
  assert (∀ i, reach i → nonwhite cs i) as Hreach.
  { induction 1 as [r Hr Hm|i e Hi IH He' Hm|k v Hkv Hk Hv Hrk IH]; [by apply Hd, Hd2, Hroots| |by eapply He].
    apply (Hb i e); try done; [tauto|]. destruct IH as (c & Hc & Hne).
    destruct c; [done| |done]. apply (tc_worklist _ _ Ht) in Hc. set_solver. }
  intros i Hi. rewrite <-(tc_length _ _ Ht) in Hi.
  destruct (lookup_lt_is_Some_2 cs i Hi) as [[] Hc].
  - right. split; [|done]. intros (c & Hc' & Hne)%Hreach. congruence.
  - apply (tc_worklist _ _ Ht) in Hc. set_solver.
  - left. split; [|done]. apply (tc_sound _ _ Ht). by eexists.
Qed.
End Marking.
