(* ===== verification/GcSweep.v ===== *)
(** * GcSweep: the sweep, and what a collection guarantees

    The sweep is described cell by cell (slot, colour, owner and generation of one
    index), then combined with the marking theorem of [GcCollect] into the
    guarantee of the collector: exactly the unreachable objects of the scope are
    freed, and their handles are dead for good. *)

From S2P Require Import Prelude Gc GcHandles GcCollect.

Section Sweep.
Context {T : Type} `{Trace T} (scope : option Z).
Implicit Types (h : Heap T) (i j : nat).

Definition cell : Type := Slot T * Color * Z * Z.

Definition cell_at h i : cell := (slot_at h i, color_at h i, owner_at h i, generation_at h i).

Definition scope_owner (o : Z) : bool :=
  match scope with None => true | Some o' => (o =? o')%Z end.

Definition next_generation (g : Z) : Z := if (g <? OBJECT_ID_MAX_GENERATION)%Z then (g + 1)%Z else g.

(** What the sweep does to a cell. *)
Definition doomed (c : cell) : bool :=
  let '(s, col, o, _) := c in
  scope_owner o && bool_decide (col = White) && negb (is_free_slot s).

Definition sweep_cell (c : cell) : cell :=
  let '(s, col, o, g) := c in
  if doomed c then (Free, White, 0%Z, next_generation g)
  else (s, if bool_decide (col = Black) then White else col, o, g).

Definition cell_external (c : cell) : option ExternalHandle :=
  if doomed c then match c.1.1.1 with ExternalSlot hd => Some hd | _ => None end else None.

(** The vectors of a heap are parallel. *)
Definition parallel h : Prop :=
  length (colors h) = length (slots h) ∧ length (owners h) = length (slots h) ∧
  length (generations h) = length (slots h).

Lemma wf_parallel h : heap_wf h → parallel h.
Proof. intros []. done. Qed.

Lemma default_insert {A} (d x : A) (l : list A) i j :
  i < length l → default d (<[i := x]> l !! j) = if decide (j = i) then x else default d (l !! j).
Proof.
  intros Hi. case_decide as E; [subst; by rewrite list_lookup_insert_eq|by rewrite list_lookup_insert_ne].
Qed.

Lemma retire_generation_at i j h :
  i < length (generations h) →
  generation_at (retire_slot_index i h) j
    = if decide (j = i) then next_generation (generation_at h i) else generation_at h j.
Proof.
  intros Hi. unfold retire_slot_index, generation_at, next_generation.
  destruct (lookup_lt_is_Some_2 _ _ Hi) as [g Hg]. rewrite Hg. simpl.
  destruct (g <? OBJECT_ID_MAX_GENERATION)%Z; simpl.
  - by apply default_insert.
  - case_decide; [by subst; rewrite Hg|done].
Qed.

Lemma release_cell i j h :
  parallel h → i < length (slots h) →
  cell_at (release_slot i h) j
    = if decide (j = i) then (Free, color_at h i, 0%Z, next_generation (generation_at h i)) else cell_at h j.
Proof.
  intros (Hc & Ho & Hg) Hi. unfold cell_at, release_slot, slot_at, owner_at, color_at.
  rewrite retire_slots, retire_owners, retire_colors, retire_generation_at by (simpl; lia). simpl.
  rewrite !default_insert by lia. unfold generation_at; simpl. by case_decide; subst.
Qed.

Lemma recolor_cell i j h :
  parallel h → i < length (slots h) →
  cell_at (set_colors (<[i := White]> (colors h)) h) j
    = if decide (j = i) then (slot_at h i, White, owner_at h i, generation_at h i) else cell_at h j.
Proof.
  intros (Hc & Ho & Hg) Hi. unfold cell_at, color_at. simpl. rewrite default_insert by lia.
  case_decide; by subst.
Qed.

(** One turn of the sweep. *)
Lemma sweep_index_cell i j h n :
  parallel h → i < length (slots h) →
  cell_at (sweep_index scope (h, n) i).1 j = if decide (j = i) then sweep_cell (cell_at h i) else cell_at h j.
Proof.
  intros Hp Hi. unfold sweep_index, sweep_cell, doomed. cbn [cell_at].
  change (in_scope scope h i) with (scope_owner (owner_at h i)).
  destruct (scope_owner (owner_at h i)); simpl.
  - destruct (color_at h i) eqn:Ec, (slot_at h i) eqn:Es; simpl;
      rewrite ?release_cell, ?recolor_cell by done;
      unfold cell_at; case_decide; subst; rewrite ?Ec, ?Es; try done;
      unfold color_at in *; simpl; by rewrite ?Ec.
  - destruct (color_at h i) eqn:Ec; simpl; rewrite ?recolor_cell by done;
      unfold cell_at; case_decide; subst; rewrite ?Ec; done.
Qed.

Lemma release_parallel i h : parallel h → parallel (release_slot i h).
Proof.
  unfold parallel, release_slot.
  rewrite retire_slots, retire_colors, retire_owners, retire_length_generations; simpl.
  by rewrite !length_insert.
Qed.

Lemma sweep_index_parallel i h n :
  parallel h →
  parallel (sweep_index scope (h, n) i).1 ∧
  length (slots (sweep_index scope (h, n) i).1) = length (slots h).
Proof.
  intros Hp. unfold sweep_index.
  assert (∀ h', slots h' = slots h → colors h' = colors h → owners h' = owners h →
            generations h' = generations h →
            parallel (release_slot i h') ∧ length (slots (release_slot i h')) = length (slots h)) as Hrel.
  { intros h' Es Ec Eo Eg. split; [apply release_parallel; unfold parallel; by rewrite Es, Ec, Eo, Eg|].
    unfold release_slot. rewrite retire_slots. simpl. by rewrite length_insert, Es. }
  assert (parallel (set_colors (<[i:=White]> (colors h)) h)) as Hcol.
  { unfold parallel; simpl. by rewrite length_insert. }
  repeat case_match; simpl; auto.
Qed.

(** The prefix of the sweep up to [k]. *)
Definition sweep_to h k : Heap T * nat := foldl (sweep_index scope) (h, 0) (seq 0 k).

Lemma sweep_to_S h k : sweep_to h (S k) = sweep_index scope (sweep_to h k) k.
Proof. unfold sweep_to. by rewrite seq_S, foldl_app. Qed.

Lemma sweep_to_spec h k :
  parallel h → k ≤ length (slots h) →
  parallel (sweep_to h k).1 ∧ length (slots (sweep_to h k).1) = length (slots h) ∧
  ∀ j, cell_at (sweep_to h k).1 j = if decide (j < k) then sweep_cell (cell_at h j) else cell_at h j.
Proof.
  intros Hp. induction k as [|k IH]; intros Hk.
  { by split_and!. }
  destruct IH as (Hpk & Hlk & Hck); [lia|]. rewrite sweep_to_S.
  destruct (sweep_to h k) as [hk n]. cbn [fst snd] in *.
  destruct (sweep_index_parallel k hk n Hpk) as [Hp' Hl'].
  split_and!; [done|congruence|]. intros j. rewrite sweep_index_cell by (done || lia).
  rewrite !Hck. repeat case_decide; subst; try lia; done.
Qed.

Lemma sweep_to_all h :
  parallel h → ∀ j, cell_at (sweep_to h (length (slots h))).1 j = sweep_cell (cell_at h j).
Proof.
  intros Hp j. destruct (sweep_to_spec h (length (slots h)) Hp (Nat.le_refl _)) as (_ & _ & ->).
  case_decide as Hj; [done|]. destruct Hp as (Pc & Po & Pg).
  unfold cell_at, slot_at, color_at, owner_at, generation_at.
  rewrite !lookup_ge_None_2 by lia. unfold sweep_cell, doomed; simpl. by rewrite andb_false_r.
Qed.

(** The counter and the list of freed external handles. *)
Lemma sweep_index_counts h n k :
  (sweep_index scope (h, n) k).2 = n + (if doomed (cell_at h k) then 1 else 0) ∧
  freed_external (sweep_index scope (h, n) k).1
    = freed_external h ++ omap cell_external [cell_at h k].
Proof.
  unfold sweep_index, cell_external, doomed. cbn [cell_at omap list_omap].
  change (in_scope scope h k) with (scope_owner (owner_at h k)).
  destruct (scope_owner (owner_at h k)); simpl;
    destruct (color_at h k), (slot_at h k); simpl; unfold release_slot;
    rewrite ?retire_freed_external; simpl; rewrite ?app_nil_r; split; try done; lia.
Qed.

Lemma sweep_to_counts h k :
  parallel h → k ≤ length (slots h) →
  (sweep_to h k).2 = length (filter (λ j, doomed (cell_at h j) = true) (seq 0 k)) ∧
  freed_external (sweep_to h k).1
    = freed_external h ++ omap (λ j, cell_external (cell_at h j)) (seq 0 k).
Proof.
  intros Hp. induction k as [|k IH]; intros Hk.
  { simpl. by rewrite app_nil_r. }
  destruct (sweep_to_spec h k Hp) as (_ & _ & Hck); [lia|].
  destruct IH as [IHn IHe]; [lia|]. specialize (Hck k). rewrite decide_False in Hck by lia.
  rewrite sweep_to_S, seq_S, filter_app, omap_app, length_app.
  destruct (sweep_to h k) as [hk n]. cbn [fst snd] in *.
  destruct (sweep_index_counts hk n k) as [-> ->]. rewrite Hck, IHn, IHe. split.
  - f_equal. rewrite filter_cons, filter_nil, Nat.add_0_l.
    destruct (doomed (cell_at h k)); simpl; done.
  - by rewrite <-(assoc_L (++)).
Qed.

(** ** The sweep and the handles *)

Lemma slot_at_live h i s :
  parallel h → slot_at h i = s → s ≠ Free → live_at h i (generation_at h i).
Proof.
  intros (_ & _ & Hg) Hs Hne. unfold slot_at in Hs. unfold live_at, generation_at.
  destruct (slots h !! i) as [s'|] eqn:E; simpl in Hs; [|done]. subst s'.
  destruct (lookup_lt_is_Some_2 (generations h) i) as [g ->]; [rewrite Hg; eauto using lookup_lt_Some|].
  eauto.
Qed.

Lemma sweep_index_safe h n i :
  heap_wf h → heap_wf (sweep_index scope (h, n) i).1 ∧ evolves h (sweep_index scope (h, n) i).1.
Proof.
  intros Hwf.
  assert (∀ h1, slots h1 = slots h → generations h1 = generations h → free_list h1 = free_list h →
     colors h1 = colors h → owners h1 = owners h → ∀ s, slot_at h i = s → s ≠ Free →
     heap_wf (release_slot i h1) ∧ evolves h (release_slot i h1)) as Hrel.
  { intros h1 Es Eg Ef Ec Eo s Hs Hne. pose proof (slot_at_live h i s (wf_parallel h Hwf) Hs Hne) as Hl.
    unfold release_slot.
    split; [eapply release_wf|eapply release_evolves]; try done; simpl; by rewrite ?length_insert, ?Es, ?Ec, ?Eo. }
  assert (heap_wf (set_colors (<[i := White]> (colors h)) h) ∧
          evolves h (set_colors (<[i := White]> (colors h)) h)) as Hcol.
  { split; [|by apply same_core_evolves]. by destruct Hwf; split; simpl; rewrite ?length_insert. }
  assert (heap_wf h ∧ evolves h h) as Hid by (split; [done|reflexivity]).
  unfold sweep_index. destruct (negb _); [case_bool_decide; simpl; done|].
  destruct (color_at h i), (slot_at h i) eqn:Es; simpl; try done;
    by refine (Hrel _ _ _ _ _ _ _ eq_refl _).
Qed.

Lemma sweep_to_safe h k : heap_wf h → heap_wf (sweep_to h k).1 ∧ evolves h (sweep_to h k).1.
Proof.
  intros Hwf. induction k as [|k [IH1 IH2]]; [done|]. rewrite sweep_to_S.
  destruct (sweep_to h k) as [hk n]. cbn [fst] in *.
  destruct (sweep_index_safe hk n k IH1). split; [done|by etrans].
Qed.

(** ** Counting live slots *)

Definition nonfree h (j : nat) : Prop := is_free_slot (slot_at h j) = false.

#[export] Instance nonfree_dec h j : Decision (nonfree h j).
Proof. unfold nonfree. apply _. Defined.

Lemma live_len_seq h : live_len h = length (filter (nonfree h) (seq 0 (length (slots h)))).
Proof. unfold live_len. by rewrite (filter_seq_lookup (λ s, is_free_slot s = false) Free). Qed.

(** ** Collection *)

Section Collection.
Context (rss : Z) (roots : list ObjectId) (eph : list (ObjectId * ObjectId)).

(** The slots a collection gives back: those of the scope that are in use and not
    reachable. *)
Definition garbage h (j : nat) : Prop :=
  nonfree h j ∧ in_scope scope h j = true ∧ ¬ reach scope h roots eph j.

Lemma adapt_threshold_core h :
  let h' := adapt_threshold_after_sweep rss (set_alloc_count 0 h) in
  slots h' = slots h ∧ colors h' = colors h ∧ owners h' = owners h ∧ generations h' = generations h ∧
  free_list h' = free_list h ∧ freed_external h' = freed_external h.
Proof. done. Qed.

Lemma reach_bound h i : reach scope h roots eph i → i < length (slots h).
Proof. intros Hr. destruct Hr as [? ? Hm|? ? ? ? Hm|? ? ? ? Hm]; by eapply markable_bound. Qed.

Lemma mark_colors h cs :
  parallel h → mark_all scope h roots eph = (cs, []) → length cs = length (slots h) ∧
  ∀ j, j < length (slots h) →
    (reach scope h roots eph j ∧ color_at (set_colors cs h) j = Black)
    ∨ (¬ reach scope h roots eph j ∧ color_at (set_colors cs h) j = White).
Proof.
  intros (Hc & _) E. destruct (mark_all_spec scope h roots eph Hc) as (cs' & E' & Hl & Hcs).
  rewrite E in E'. injection E' as <-. split; [done|]. intros j Hj. unfold color_at; simpl.
  destruct (Hcs j Hj) as [[? ->]|[? ->]]; auto.
Qed.

(** After marking, the doomed cells are the garbage. *)
Lemma doomed_iff_garbage h cs :
  (∀ j, j < length (slots h) →
     (reach scope h roots eph j ∧ color_at (set_colors cs h) j = Black)
     ∨ (¬ reach scope h roots eph j ∧ color_at (set_colors cs h) j = White)) →
  ∀ j, doomed (cell_at (set_colors cs h) j) = true ↔ garbage h j.
Proof.
  intros Hcol j. unfold garbage, nonfree, doomed. cbn [cell_at].
  change (scope_owner (owner_at (set_colors cs h) j)) with (in_scope scope h j).
  change (slot_at (set_colors cs h) j) with (slot_at h j).
  rewrite !andb_true_iff, bool_decide_eq_true, negb_true_iff.
  destruct (decide (j < length (slots h))) as [Hj|Hj].
  - destruct (Hcol j Hj) as [[? ->]|[? ->]]; naive_solver.
  - assert (slot_at h j = Free) as -> by (unfold slot_at; by rewrite lookup_ge_None_2 by lia). naive_solver.
Qed.

(** What a swept cell looks like. *)
Lemma swept_fields h0 h1 j :
  cell_at h1 j = sweep_cell (cell_at h0 j) →
  if doomed (cell_at h0 j) then slot_at h1 j = Free ∧ color_at h1 j = White
  else slot_at h1 j = slot_at h0 j ∧ generation_at h1 j = generation_at h0 j ∧
       owner_at h1 j = owner_at h0 j ∧
       color_at h1 j = if bool_decide (color_at h0 j = Black) then White else color_at h0 j.
Proof.
  unfold sweep_cell. cbn [cell_at].
  change (doomed (slot_at h0 j, color_at h0 j, owner_at h0 j, generation_at h0 j)) with (doomed (cell_at h0 j)).
  destruct (doomed (cell_at h0 j)); intros [= ? ? ? ?]; auto.
Qed.

(** Cell by cell, what a collection leaves. *)
Lemma collect_in_cells h h' n :
  heap_wf h → collect_in scope rss roots eph h = (h', n) →
  heap_wf h' ∧ evolves h h' ∧ length (slots h') = length (slots h) ∧
  (∀ j, garbage h j → slot_at h' j = Free) ∧
  (∀ j, ¬ garbage h j → slot_at h' j = slot_at h j ∧ generation_at h' j = generation_at h j ∧
                        owner_at h' j = owner_at h j) ∧
  (∀ j, color_at h' j = White) ∧
  ∃ D : nat → bool, (∀ j, D j = true ↔ garbage h j) ∧
    n = length (filter (λ j, D j = true) (seq 0 (length (slots h)))) ∧
    freed_external h' = freed_external h ++
      omap (λ j, if D j then match slot_at h j with ExternalSlot hd => Some hd | _ => None end else None)
        (seq 0 (length (slots h))).
Proof.
  intros Hwf. unfold collect_in.
  destruct (mark_all scope h roots eph) as [cs wl] eqn:Em.
  assert (wl = []) as ->.
  { destruct (mark_all_spec scope h roots eph (wf_colors h Hwf)) as (? & E & _). congruence. }
  destruct (mark_colors h cs (wf_parallel h Hwf) Em) as [Hl Hcol].
  pose proof (doomed_iff_garbage h cs Hcol) as HD.
  set (h0 := set_colors cs h) in *. assert (heap_wf h0) as Hwf0 by (destruct Hwf; by split).
  change (sweep scope h0) with (sweep_to h0 (length (slots h0))).
  pose proof (sweep_to_all h0 (wf_parallel h0 Hwf0)) as Hcell.
  destruct (sweep_to_spec h0 (length (slots h0)) (wf_parallel h0 Hwf0) (Nat.le_refl _)) as (_ & Hls & _).
  destruct (sweep_to_counts h0 (length (slots h0)) (wf_parallel h0 Hwf0) (Nat.le_refl _)) as [Hn He].
  destruct (sweep_to_safe h0 (length (slots h0)) Hwf0) as [Hwf1 Hev].
  destruct (sweep_to h0 (length (slots h0))) as [h1 n1]. cbn [fst snd] in *.
  intros [= <- <-]. assert (∀ j, _) as Hf by exact (λ j, swept_fields h0 h1 j (Hcell j)).
  split_and!.
  - destruct Hwf1; by split.
  - etrans; [by apply (same_core_evolves h h0)|]. etrans; [exact Hev|]. by apply same_core_evolves.
  - done.
  - intros j Hg%HD. specialize (Hf j). rewrite Hg in Hf. apply Hf.
  - intros j Hg. rewrite <-HD, not_true_iff_false in Hg. specialize (Hf j). rewrite Hg in Hf.
    destruct Hf as (? & ? & ? & _). done.
  - intros j. specialize (Hf j). change (color_at h1 j = White).
    destruct (doomed (cell_at h0 j)); [apply Hf|]. destruct Hf as (_ & _ & _ & ->).
    destruct (decide (j < length (slots h))) as [Hj|Hj]; [destruct (Hcol j Hj) as [[_ ->]|[_ ->]]; done|].
    unfold color_at. rewrite lookup_ge_None_2; [done|]. simpl. lia.
  - exists (λ j, doomed (cell_at h0 j)). split_and!; [done|done|]. exact He.
Qed.
End Collection.
End Sweep.
