(* ===== verification/GcIncremental.v ===== *)
(** * GcIncremental: marking and sweeping a realm in slices
    (src/crates/rusty-js-gc/src/lib.rs, [begin_mark_realm] to
    [sweep_marked_realm_slice])

    A realm can be collected a little at a time: [begin_mark_realm] grays the
    roots, slices of marking scan the heap for gray objects and trace a bounded
    number of edges, a cursor remembering the place in the heap and in a
    half-traced object; slices of sweeping follow.  As in [GcCollect], marking
    changes only the colours, so the loops pass the colour vector.

    The marking loop runs on fuel and gives [None] when it runs out; the fuel
    [mark_fuel] is one unit per slot and per edge, and two more.
    [GcIncrementalTheory] proves it enough. *)

From S2P Require Import Prelude Gc GcHandles GcCollect.

Record RealmSweepState := { sweep_next_index : nat; sweep_freed : nat }.
Definition RealmSweepState_default : RealmSweepState := {| sweep_next_index := 0; sweep_freed := 0 |}.

Record RealmMarkCursor := { cursor_object : option (ObjectId * nat); cursor_next_index : nat }.
Definition RealmMarkCursor_default : RealmMarkCursor := {| cursor_object := None; cursor_next_index := 0 |}.

(** [cursor.object = ob] and [cursor.next_index = n]. *)
Definition set_object (ob : option (ObjectId * nat)) (cur : RealmMarkCursor) : RealmMarkCursor :=
  {| cursor_object := ob; cursor_next_index := cursor_next_index cur |}.
Definition set_next_index (n : nat) (cur : RealmMarkCursor) : RealmMarkCursor :=
  {| cursor_object := cursor_object cur; cursor_next_index := n |}.

Section Defs.
Context {T : Type} `{Trace T}.
Implicit Types (h : Heap T) (o : Z) (id : ObjectId) (cs : list Color) (cur : RealmMarkCursor).

(** ** Marking *)

(** A white object of the realm turns gray. *)
Definition gray_edge o h cs id : list Color :=
  let i := slot_index id in
  if markable (Some o) h id && is_white cs i then <[i := Gray]> cs else cs.

Definition begin_mark_realm o (roots : list ObjectId) h : Heap T :=
  set_colors (foldl (gray_edge o h) ((λ _, White) <$> colors h) roots) h.

Definition enqueue_mark_owner o (root : ObjectId) h : Heap T :=
  let i := slot_index root in
  if negb (markable (Some o) h root) || bool_decide (color_at h i = Black) then h
  else set_colors (<[i := Gray]> (colors h)) h.

(** The scan for the next gray object, from the cursor on and around. *)
Definition next_gray_owner_object o h cs cur : outcome (option ObjectId * RealmMarkCursor) :=
  (let len := length (slots h) in
   if bool_decide (len = 0) then Ret (None, set_next_index 0 cur)
   else
     let start := cursor_next_index cur `min` len in
     let is_gray i := bool_decide (default White (cs !! i) = Gray) && (owner_at h i =? o)%Z
                      && negb (is_free_slot (slot_at h i)) in
     match find is_gray ((λ offset, (start + offset) `mod` len) <$> seq 0 len) with
     | Some i => id <-! handle_at h i; Ret (Some id, set_next_index ((i + 1) `mod` len) cur)
     | None => Ret (None, set_next_index 0 cur)
     end)%cruft.

(** Tracing one slice of the object [id] from edge [start]: the colours, the cursor
    and the budget left. *)
Definition mark_visit o h cs cur (budget : Z) id (start : nat) : list Color * RealmMarkCursor * Z :=
  let i := slot_index id in
  let '(out_edges, slice) :=
    match slot_at h i with
    | Object obj => trace_slice obj start budget
    | _ => ([], {| next_index := start; complete := true |})
    end in
  let budget := saturating_sub64 budget (Z.max (Z.of_nat (length out_edges)) 1) in
  let '(cs, cur) :=
    if complete slice then (<[i := Black]> cs, cur)
    else (cs, set_object (Some (id, next_index slice)) cur) in
  (foldl (gray_edge o h) cs out_edges, cur, budget).

Fixpoint mark_slice_loop (fuel : nat) o h cs cur (budget : Z) (processed : nat) :
    option (outcome (list Color * RealmMarkCursor * nat)) :=
  match fuel with
  | O => None
  | S fuel =>
      if negb (0 <? budget)%Z then Some (Ret (cs, cur, processed))
      else
        let turn id start cur :=
          if negb (markable (Some o) h id) || bool_decide (default White (cs !! slot_index id) = Black)
          then mark_slice_loop fuel o h cs cur budget processed
          else
            let '(cs, cur, budget) := mark_visit o h cs cur budget id start in
            mark_slice_loop fuel o h cs cur budget (S processed) in
        match cursor_object cur with
        | Some (id, start) => turn id start (set_object None cur)
        | None =>
            match next_gray_owner_object o h cs cur with
            | Panic => Some Panic
            | Ret (None, cur) => Some (Ret (cs, cur, processed))
            | Ret (Some id, cur) => turn id 0 cur
            end
        end
  end.

Definition mark_fuel h : nat :=
  2 + sum_list_with (λ i, S (length (out_edges h i))) (seq 0 (length (slots h))).

Definition mark_owner_slice_with_cursor o (budget : Z) cur h :
    option (outcome (Heap T * RealmMarkCursor * nat)) :=
  if (budget =? 0)%Z then Some (Ret (h, cur, 0))
  else
    match mark_slice_loop (mark_fuel h) o h (colors h) cur budget 0 with
    | None => None
    | Some Panic => Some Panic
    | Some (Ret (cs, cur, processed)) => Some (Ret (set_colors cs h, cur, processed))
    end.

(** [mark_owner_slice]: the cursor is a temporary, so it is lost. *)
Definition mark_owner_slice o (budget : Z) h : option (outcome (Heap T * nat)) :=
  match mark_owner_slice_with_cursor o budget RealmMarkCursor_default h with
  | None => None
  | Some Panic => Some Panic
  | Some (Ret (h, _, processed)) => Some (Ret (h, processed))
  end.

(** [while self.mark_owner_slice(owner, usize::MAX) != 0 {}]. *)
Fixpoint drain_loop (fuel : nat) o h : option (outcome (Heap T)) :=
  match fuel with
  | O => None
  | S fuel =>
      match mark_owner_slice o u64_max h with
      | None => None
      | Some Panic => Some Panic
      | Some (Ret (h, O)) => Some (Ret h)
      | Some (Ret (h, S _)) => drain_loop fuel o h
      end
  end.

Definition drain_mark_realm o h : option (outcome (Heap T)) := drain_loop (mark_fuel h) o h.

Definition mark_from_owner o (root : ObjectId) h : option (outcome (Heap T)) :=
  let h := enqueue_mark_owner o root h in drain_loop (mark_fuel h) o h.

(** ** Sweeping *)

(** The sweep loop; its body is that of [collect_realm_with_ephemerons].  The fuel
    is the number of slots from the index on. *)
Fixpoint sweep_slice_loop (fuel : nat) o (budget : Z) h (st : RealmSweepState) : Heap T * RealmSweepState :=
  match fuel with
  | O => (h, st)
  | S fuel =>
      if (0 <? budget)%Z && bool_decide (sweep_next_index st < length (slots h)) then
        let i := sweep_next_index st in
        let '(h, freed) := sweep_index (Some o) (h, sweep_freed st) i in
        sweep_slice_loop fuel o (budget - 1) h {| sweep_next_index := S i; sweep_freed := freed |}
      else (h, st)
  end.

Definition sweep_marked_realm_slice o (rss budget : Z) h (st : RealmSweepState) :
    Heap T * RealmSweepState * bool :=
  let '(h, st) := sweep_slice_loop (length (slots h) - sweep_next_index st) o budget h st in
  if bool_decide (sweep_next_index st < length (slots h)) then (h, st, false)
  else (adapt_threshold_after_sweep rss (set_alloc_count 0 h), st, true).

(** [while !self.sweep_marked_realm_slice(owner, usize::MAX, &mut state) {}]. *)
Fixpoint sweep_marked_loop (fuel : nat) o (rss : Z) h (st : RealmSweepState) : option (Heap T * nat) :=
  match fuel with
  | O => None
  | S fuel =>
      match sweep_marked_realm_slice o rss u64_max h st with
      | (h, st, true) => Some (h, sweep_freed st)
      | (h, st, false) => sweep_marked_loop fuel o rss h st
      end
  end.

Definition sweep_marked_realm o (rss : Z) h : option (Heap T * nat) :=
  sweep_marked_loop (S (length (slots h))) o rss h RealmSweepState_default.
End Defs.
