(* ===== verification/GcSafety.v ===== *)
(** * GcSafety: what the collector guarantees to its clients

    Whole-heap collection frees exactly the unreachable objects; realm collection
    frees exactly the realm's unreachable objects and touches nothing else; with
    no reference into the realm from outside, the two agree on the realm
    ([try_collect_realm]); and along any run of heap operations a dead handle
    stays dead.

    Models, besides: [cross_owner_edges], [try_collect_realm],
    [try_collect_realm_with_ephemerons] and [sweep_realm] of
    src/crates/rusty-js-gc/src/lib.rs. *)

From S2P Require Import Prelude Gc GcHandles GcCollect GcSweep GcIncremental.

Section Defs.
Context {T : Type} `{Trace T}.
Implicit Types (h : Heap T) (id : ObjectId).

(** Collecting fallible results; the first panic wins. *)
Fixpoint outcome_all {A} (l : list (outcome A)) : outcome (list A) :=
  match l with
  | [] => Ret []
  | x :: l' => (a <-! x; l'' <-! outcome_all l'; Ret (a :: l''))%cruft
  end.

(** The edge from slot [i] to [to], if it crosses owners. *)
Definition cross_edge h (i : nat) (to : ObjectId) : option (outcome CrossOwnerEdge) :=
  let from_owner := owner_at h i in
  let ti := slot_index to in
  if negb (generation_matches h ti to) || negb (bool_decide (ti < length (slots h)))
     || is_free_slot (slot_at h ti)
  then None
  else
    let to_owner := owner_at h ti in
    if (from_owner =? to_owner)%Z then None
    else Some (from <-! handle_at h i;
               Ret {| edge_from := from; edge_from_owner := from_owner;
                      edge_to := to; edge_to_owner := to_owner |})%cruft.

Definition cross_owner_edges h : outcome (list CrossOwnerEdge) :=
  outcome_all (i ← seq 0 (length (slots h)); omap (cross_edge h i) (out_edges h i)).

Definition has_cross_owner_edges h : outcome bool :=
  (es <-! cross_owner_edges h; Ret (negb (bool_decide (length es = 0))))%cruft.

(** [Err] holds the edges of a [CrossOwnerEdgesError]. *)
Definition try_collect_realm_with_ephemerons (o : Z) (rss : Z) (roots : list ObjectId)
    (ephemerons : list (ObjectId * ObjectId)) h :
    outcome (result (Heap T * nat) (list CrossOwnerEdge)) :=
  (es <-! cross_owner_edges h;
   let edges := filter (λ e, edge_to_owner e = o) es in
   match edges with
   | _ :: _ => Ret (Err edges)
   | [] => Ret (Ok (collect_realm_with_ephemerons o rss roots ephemerons h))
   end)%cruft.

Definition try_collect_realm (o rss : Z) (roots : list ObjectId) h :
    outcome (result (Heap T * nat) (list CrossOwnerEdge)) :=
  try_collect_realm_with_ephemerons o rss roots [] h.

(** [sweep_realm]: frees everything a realm owns, marked or not. *)
Definition sweep_realm_index (o : Z) (st : Heap T * nat) (i : nat) : Heap T * nat :=
  let '(h, freed) := st in
  if negb (owner_at h i =? o)%Z || is_free_slot (slot_at h i) then (h, freed)
  else
    let h := match slot_at h i with
             | ExternalSlot hd => set_freed_external (freed_external h ++ [hd]) h
             | _ => h
             end in
    (retire_slot_index i (write_slot i Free White 0 h), S freed).

Definition sweep_realm (o : Z) h : Heap T * nat :=
  foldl (sweep_realm_index o) (h, 0) (seq 0 (length (slots h))).
End Defs.

(** ** Collection, handle by handle *)

Section Safety.
Context {T : Type} `{Trace T}.
Implicit Types (h : Heap T) (id : ObjectId).

Lemma live_nonfree h id : live h id → nonfree h (slot_index id).
Proof. intros (_ & s & Hs & Hne). unfold nonfree, slot_at. rewrite Hs. by destruct s. Qed.

Lemma live_slot_eq h h' id :
  parallel h' → slot_at h' (slot_index id) = slot_at h (slot_index id) →
  generation_at h' (slot_index id) = generation_at h (slot_index id) →
  live h id → live h' id ∧ Heap_get h' id = Heap_get h id ∧ is_external_handle h' id = is_external_handle h id.
Proof.
  intros Hp Hs Hg Hl. pose proof (live_nonfree h id Hl) as Hnf. destruct Hl as (Hgi & s & Hsi & Hne).
  assert (slot_at h (slot_index id) = s) as Es by (unfold slot_at; by rewrite Hsi).
  pose proof (slot_at_live h' (slot_index id) s Hp (eq_trans Hs Es) Hne) as Hl'.
  assert (generation_at h' (slot_index id) = generation id) as Eg.
  { rewrite Hg. unfold generation_at. by rewrite Hgi. }
  rewrite Eg in Hl'. split; [done|]. destruct Hl' as (Hgi' & s' & Hsi' & _).
  assert (s' = s) as -> by (unfold slot_at in Hs; rewrite Hsi, Hsi' in Hs; done).
  unfold Heap_get, is_external_handle, generation_matches. by rewrite Hgi, Hgi', Hsi, Hsi'.
Qed.

(** The common part of the two collectors. *)
Lemma collect_in_handles scope rss roots eph h h' n :
  heap_wf h → collect_in scope rss roots eph h = (h', n) →
  heap_wf h' ∧ evolves h h' ∧ live_len h = live_len h' + n ∧
  freed_external h' = freed_external h ++
    omap (λ j, match slot_at h j, slot_at h' j with ExternalSlot hd, Free => Some hd | _, _ => None end)
      (seq 0 (length (slots h))) ∧
  (∀ id, live h id → ¬ garbage scope roots eph h (slot_index id) →
     live h' id ∧ Heap_get h' id = Heap_get h id ∧ is_external_handle h' id = is_external_handle h id ∧
     Heap_owner h' id = Heap_owner h id) ∧
  (∀ id, live h id → garbage scope roots eph h (slot_index id) → dead h' id).
Proof.
  intros Hwf Hc. destruct (collect_in_cells scope rss roots eph h h' n Hwf Hc)
    as (Hwf' & Hev & Hlen & Hgar & Hkeep & _ & D & HD & Hn & He).
  assert (∀ j, nonfree h' j ↔ nonfree h j ∧ D j = false) as Hnf.
  { intros j. unfold nonfree. destruct (D j) eqn:E.
    - apply HD in E. rewrite (Hgar j E). simpl. naive_solver.
    - rewrite <-not_true_iff_false, HD in E. destruct (Hkeep j E) as (-> & _). naive_solver. }
  split_and!; try done.
  - rewrite !live_len_seq, Hlen, Hn. apply filter_split_length.
    + intros j _. rewrite Hnf. destruct (D j) eqn:E; [|naive_solver]. apply HD in E as (? & _). naive_solver.
    + intros j _. rewrite Hnf. by intros [_ ->].
  - rewrite He. f_equal. apply list_omap_ext. apply Forall2_same_length_lookup_2; [done|].
    intros k x y Hx Hy. simplify_eq. specialize (Hnf x). unfold nonfree in Hnf.
    destruct (D x) eqn:E.
    + apply HD, Hgar in E as ->. by destruct (slot_at h x).
    + rewrite <-not_true_iff_false, HD in E. destruct (Hkeep x E) as (-> & _). by destruct (slot_at h x).
  - intros id Hl Hng. destruct (Hkeep _ Hng) as (Hs & Hg & Ho).
    destruct (live_slot_eq h h' id (wf_parallel h' Hwf') Hs Hg Hl) as (Hl' & ? & ?). split_and!; try done.
    destruct Hl as (Hgi & s & Hsi & _), Hl' as (Hgi' & s' & Hsi' & _).
    unfold Heap_owner, generation_matches. rewrite Hgi, Hgi', Hsi, Hsi', Z.eqb_refl. simpl.
    unfold slot_at, owner_at in Hs, Ho. rewrite Hsi, Hsi' in Hs. simpl in Hs. subst s'.
    apply lookup_lt_Some in Hsi, Hsi'.
    destruct (lookup_lt_is_Some_2 (owners h) (slot_index id)) as [o Eo]; [by rewrite wf_owners|].
    destruct (lookup_lt_is_Some_2 (owners h') (slot_index id)) as [o' Eo']; [by rewrite wf_owners|].
    rewrite Eo, Eo' in *. simpl in Ho. by subst.
  - intros id Hl Hg. destruct (Hev (slot_index id) (generation id)) as [_ Hev'].
    destruct (Hev' Hl) as [Hl'|]; [|done]. exfalso. apply live_nonfree in Hl'.
    unfold nonfree in Hl'. by rewrite (Hgar _ Hg) in Hl'.
Qed.

(** A handle alive after a collection was alive before it and is not garbage. *)
Lemma collect_in_live scope rss roots eph h h' n id :
  heap_wf h → collect_in scope rss roots eph h = (h', n) →
  live h' id ↔ live h id ∧ ¬ garbage scope roots eph h (slot_index id).
Proof.
  intros Hwf Hc. destruct (collect_in_handles scope rss roots eph h h' n Hwf Hc) as (Hwf' & _ & _ & _ & Hk & _).
  split; [|intros [Hl Hg]; by apply Hk]. intros Hl'.
  destruct (collect_in_cells scope rss roots eph h h' n Hwf Hc) as (_ & _ & _ & Hgar & Hkeep & _).
  assert (¬ garbage scope roots eph h (slot_index id)) as Hng.
  { intros Hg%Hgar. apply live_nonfree in Hl'. unfold nonfree in Hl'. by rewrite Hg in Hl'. }
  split; [|done]. destruct (Hkeep _ Hng) as (Hs & Hg & _).
  by apply (live_slot_eq h' h id (wf_parallel h Hwf) (eq_sym Hs) (eq_sym Hg)).
Qed.

Lemma reach_dec scope h roots eph i :
  length (colors h) = length (slots h) → reach scope h roots eph i ∨ ¬ reach scope h roots eph i.
Proof.
  intros Hl. destruct (mark_all_spec scope h roots eph Hl) as (cs & _ & _ & Hcs).
  destruct (decide (i < length (slots h))) as [Hi|Hi].
  - destruct (Hcs i Hi) as [[? _]|[? _]]; auto.
  - right. intros Hr%reach_bound. done.
Qed.

(** Not being garbage, for a live object: reachable, or another realm's. *)
Lemma not_garbage_iff scope roots eph h id :
  heap_wf h → live h id →
  ¬ garbage scope roots eph h (slot_index id) ↔
  reach scope h roots eph (slot_index id) ∨ in_scope scope h (slot_index id) = false.
Proof.
  intros Hwf Hl. unfold garbage. pose proof (live_nonfree h id Hl).
  destruct (reach_dec scope h roots eph (slot_index id) (wf_colors h Hwf)), (in_scope scope h (slot_index id));
    naive_solver.
Qed.

(** ** Realms *)

Lemma owner_in_scope h id o :
  heap_wf h → live h id → in_scope (Some o) h (slot_index id) = true ↔ Heap_owner h id = Some o.
Proof.
  intros Hwf (Hg & s & Hs & Hne). unfold Heap_owner, generation_matches. rewrite Hg, Hs, Z.eqb_refl. simpl.
  unfold owner_at. destruct (lookup_lt_is_Some_2 (owners h) (slot_index id)) as [o' ->].
  { rewrite wf_owners by done. eauto using lookup_lt_Some. }
  simpl. rewrite Z.eqb_eq. destruct s; naive_solver.
Qed.

Lemma markable_scope h id o :
  markable (Some o) h id = true ↔ markable None h id = true ∧ owner_at h (slot_index id) = o.
Proof. unfold markable. simpl. rewrite !andb_true_iff, Z.eqb_eq. tauto. Qed.

Lemma reach_scope_None h roots eph o i :
  reach (Some o) h roots eph i → reach None h roots eph i.
Proof.
  induction 1 as [r Hr Hm|i e Hi IH He Hm|k v Hkv Hk Hv Hr IH].
  - apply markable_scope in Hm as [? _]. by apply reach_root.
  - apply markable_scope in Hm as [? _]. by eapply reach_edge.
  - apply markable_scope in Hk as [? _], Hv as [? _]. by eapply reach_ephemeron.
Qed.

Lemma reach_nonfree scope h roots eph i : reach scope h roots eph i → nonfree h i.
Proof.
  intros Hr. unfold nonfree.
  destruct Hr as [? ? Hm|? ? ? ? Hm|? ? ? ? Hm]; unfold markable in Hm;
    rewrite !andb_true_iff, negb_true_iff in Hm; tauto.
Qed.

(** No reference, and no ephemeron, leads into realm [o] from outside it. *)
Definition realm_closed h (eph : list (ObjectId * ObjectId)) (o : Z) : Prop :=
  (∀ i e, i < length (slots h) → e ∈ out_edges h i → markable (Some o) h e = true → owner_at h i = o) ∧
  (∀ k v, (k, v) ∈ eph → markable (Some o) h v = true → owner_at h (slot_index k) = o).

Lemma reach_realm_closed h roots eph o i :
  realm_closed h eph o → reach None h roots eph i → owner_at h i = o → reach (Some o) h roots eph i.
Proof.
  intros [Hedge Heph]. induction 1 as [r Hr Hm|i e Hi IH He Hm|k v Hkv Hk Hv Hr IH]; intros Ho.
  - apply reach_root; [done|]. by apply markable_scope.
  - assert (markable (Some o) h e = true) as Hme by by apply markable_scope.
    eapply reach_edge; [|done..]. apply IH, (Hedge i e); [by eapply reach_bound|done..].
  - assert (markable (Some o) h v = true) as Hmv by by apply markable_scope.
    pose proof (Heph k v Hkv Hmv). eapply reach_ephemeron; [done|by apply markable_scope|done|auto].
Qed.

(** ** Cross-owner edges *)

Lemma outcome_all_Ret {A} (l : list (outcome A)) :
  (∀ x, x ∈ l → ∃ a, x = Ret a) → ∃ l', outcome_all l = Ret l' ∧ l = Ret <$> l'.
Proof.
  induction l as [|x l IH]; intros Hl; [by exists []|]. destruct (Hl x) as [a ->]; [by left|].
  destruct IH as (l' & E & ->); [intros; apply Hl; by right|]. exists (a :: l'). simpl. by rewrite E.
Qed.

Lemma cross_edge_Some h i to x :
  heap_wf h → i < length (slots h) →
  cross_edge h i to = Some x ↔
  markable None h to = true ∧ owner_at h i ≠ owner_at h (slot_index to) ∧
  ∃ from, handle_at h i = Ret from ∧
    x = Ret {| edge_from := from; edge_from_owner := owner_at h i;
               edge_to := to; edge_to_owner := owner_at h (slot_index to) |}.
Proof.
  intros Hwf Hi. destruct (lookup_lt_is_Some_2 (generations h) i) as [g Hg]; [by rewrite wf_generations|].
  destruct (handle_at_ok h i g Hwf Hg) as (from & Hfrom & _). unfold cross_edge, markable. rewrite Hfrom.
  simpl. rewrite andb_true_r.
  destruct (generation_matches h (slot_index to) to), (bool_decide (slot_index to < length (slots h))),
    (is_free_slot (slot_at h (slot_index to))); simpl; try naive_solver.
  destruct (Z.eqb_spec (owner_at h i) (owner_at h (slot_index to))) as [E|E]; [naive_solver|].
  split; [|naive_solver]. intros [= <-]. eauto 10.
Qed.

(** The edges [cross_owner_edges] lists: every reference between live objects of
    different owners, with both handles and owners, and nothing else. *)
Lemma cross_owner_edges_spec h :
  heap_wf h → ∃ es, cross_owner_edges h = Ret es ∧
  ∀ e, e ∈ es ↔ ∃ i, i < length (slots h) ∧ edge_to e ∈ out_edges h i ∧ markable None h (edge_to e) = true ∧
    handle_at h i = Ret (edge_from e) ∧ edge_from_owner e = owner_at h i ∧
    edge_to_owner e = owner_at h (slot_index (edge_to e)) ∧ edge_from_owner e ≠ edge_to_owner e.
Proof.
  intros Hwf. unfold cross_owner_edges. set (l := _ ← seq 0 _; _).
  assert (∀ x, x ∈ l ↔ ∃ i to, i < length (slots h) ∧ to ∈ out_edges h i ∧ cross_edge h i to = Some x) as Hl.
  { intros x. unfold l. rewrite list_elem_of_bind. split.
    - intros (i & (to & ? & ?)%list_elem_of_omap & Hi%elem_of_seq). exists i, to. split_and!; [lia|done..].
    - intros (i & to & ? & ? & ?). exists i. rewrite list_elem_of_omap, elem_of_seq. split; [eauto|lia]. }
  destruct (outcome_all_Ret l) as (es & -> & El).
  { intros x (i & to & Hi & _ & Hx)%Hl. apply cross_edge_Some in Hx as (_ & _ & from & _ & ->); eauto. }
  exists es. split; [done|]. intros e.
  assert (e ∈ es ↔ Ret e ∈ l) as ->.
  { rewrite El, list_elem_of_fmap. split; [eauto|]. by intros (? & [= ->] & ?). }
  rewrite Hl. split.
  - intros (i & to & Hi & Hto & Hx). apply cross_edge_Some in Hx as (? & ? & from & ? & [= ->]); [|done..].
    exists i. simpl. split_and!; done.
  - intros (i & Hi & Hto & Hm & Hh & Ef & Et & Hne). exists i, (edge_to e). split_and!; [done..|].
    apply cross_edge_Some; [done..|]. split_and!; [done|congruence|]. exists (edge_from e). split; [done|].
    destruct e; simpl in *; by subst.
Qed.

Lemma cross_owner_edges_closed h es o :
  heap_wf h → cross_owner_edges h = Ret es →
  filter (λ e, edge_to_owner e = o) es = [] → realm_closed h [] o.
Proof.
  intros Hwf E Hf. destruct (cross_owner_edges_spec h Hwf) as (es' & E' & Hes).
  rewrite E in E'. injection E' as <-. split; [|set_solver]. intros i e Hi He [Hm Ho]%markable_scope.
  destruct (decide (owner_at h i = o)) as [|Hne]; [done|]. exfalso.
  destruct (lookup_lt_is_Some_2 (generations h) i) as [g Hg]; [by rewrite wf_generations|].
  destruct (handle_at_ok h i g Hwf Hg) as (from & Hfrom & _).
  set (edge := {| edge_from := from; edge_from_owner := owner_at h i;
                  edge_to := e; edge_to_owner := owner_at h (slot_index e) |}).
  assert (edge ∈ filter (λ e, edge_to_owner e = o) es) as Hin.
  { apply list_elem_of_filter. split; [done|]. apply Hes. exists i. simpl. split_and!; try done. congruence. }
  rewrite Hf in Hin. set_solver.
Qed.

(** ** The theorems *)

(** C22: whole-heap collection is exact.  For any roots and ephemerons,
    [collect_with_ephemerons] keeps the heap well formed; the handles alive
    afterwards are those that were alive and lead to a reachable slot, and each of
    them reads the value and the owner it had; every other live handle is dead for
    good; the count returned is the number of objects lost; and no colour is left
    behind. *)
Theorem collect_exact rss roots eph h h' n :
  heap_wf h → collect_with_ephemerons rss roots eph h = (h', n) →
  heap_wf h' ∧
  (∀ id, live h' id ↔ live h id ∧ reach None h roots eph (slot_index id)) ∧
  (∀ id, live h' id → Heap_get h' id = Heap_get h id ∧ Heap_owner h' id = Heap_owner h id) ∧
  (∀ id, live h id → ¬ reach None h roots eph (slot_index id) → dead h' id) ∧
  live_len h = live_len h' + n ∧ (∀ j, color_at h' j = White).
Proof.
  intros Hwf Hc. pose proof (λ id, collect_in_live None rss roots eph h h' n id Hwf Hc) as Hlive.
  assert (∀ id, live h id → ¬ garbage None roots eph h (slot_index id) ↔ reach None h roots eph (slot_index id)) as Hng.
  { intros id Hl. rewrite not_garbage_iff by done. simpl. naive_solver. }
  destruct (collect_in_handles None rss roots eph h h' n Hwf Hc) as (Hwf' & _ & Hn & _ & Hk & Hd).
  destruct (collect_in_cells None rss roots eph h h' n Hwf Hc) as (_ & _ & _ & _ & _ & Hcol & _).
  split_and!; try done.
  - intros id. rewrite Hlive. specialize (Hng id). naive_solver.
  - intros id [Hl Hg]%Hlive. destruct (Hk id Hl Hg) as (_ & ? & _ & ?). done.
  - intros id Hl Hr. apply Hd; [done|]. split_and!; [by apply live_nonfree|done..].
Qed.

(** Every external handle is reported once.  A collection appends to the
    freed list, in slot order, exactly the handles of the external slots it
    emptied, one entry per slot, and draining returns them and clears the list. *)
Lemma collect_reports_externals rss roots eph h h' n :
  heap_wf h → collect_with_ephemerons rss roots eph h = (h', n) →
  freed_external h' = freed_external h ++
    omap (λ j, match slot_at h j, slot_at h' j with ExternalSlot hd, Free => Some hd | _, _ => None end)
      (seq 0 (length (slots h))) ∧
  (∀ j hd, slot_at h j = ExternalSlot hd →
     slot_at h' j = Free ↔ ¬ reach None h roots eph j) ∧
  snd (take_freed_external_handles h') = freed_external h' ∧
  freed_external (fst (take_freed_external_handles h')) = [].
Proof.
  intros Hwf Hc. destruct (collect_in_handles None rss roots eph h h' n Hwf Hc) as (_ & _ & _ & He & _).
  destruct (collect_in_cells None rss roots eph h h' n Hwf Hc) as (_ & _ & _ & Hgar & Hkeep & _).
  split_and!; try done. intros j hd Hj. split.
  - intros Hf Hr. destruct (Hkeep j) as (E & _); [by intros (_ & _ & ?)|]. congruence.
  - intros Hr. apply Hgar. split_and!; [unfold nonfree; by rewrite Hj|done..].
Qed.

(** C24: realm collection is exact and stays in its realm.  After
    [collect_realm_with_ephemerons owner], a handle the realm owns is alive iff it
    was alive and reachable inside the realm; every live handle of another realm
    is alive, with its value and its owner, whatever refers to it. *)
Theorem collect_realm_isolated o rss roots eph h h' n :
  heap_wf h → collect_realm_with_ephemerons o rss roots eph h = (h', n) →
  heap_wf h' ∧
  (∀ id, live h id → Heap_owner h id = Some o →
     (live h' id ↔ reach (Some o) h roots eph (slot_index id)) ∧
     (¬ reach (Some o) h roots eph (slot_index id) → dead h' id)) ∧
  (∀ id, live h id → Heap_owner h id ≠ Some o → live h' id) ∧
  (∀ id, live h' id → Heap_get h' id = Heap_get h id ∧ Heap_owner h' id = Heap_owner h id) ∧
  live_len h = live_len h' + n.
Proof.
  intros Hwf Hc. pose proof (λ id, collect_in_live (Some o) rss roots eph h h' n id Hwf Hc) as Hlive.
  destruct (collect_in_handles (Some o) rss roots eph h h' n Hwf Hc) as (Hwf' & _ & Hn & _ & Hk & Hd).
  split_and!; try done.
  - intros id Hl Ho%owner_in_scope; [|done..]. rewrite Hlive, not_garbage_iff, Ho by done. split; [intuition discriminate|].
    intros Hr. apply Hd; [done|]. split_and!; [by apply live_nonfree|done..].
  - intros id Hl Ho. rewrite Hlive. split; [done|]. apply not_garbage_iff; [done..|]. right.
    apply not_true_iff_false. by rewrite owner_in_scope.
  - intros id [Hl Hg]%Hlive. destruct (Hk id Hl Hg) as (_ & ? & _ & ?). done.
Qed.

(** Checked realm collection.  [try_collect_realm] never panics.  It refuses
    exactly when some live object of another realm refers to a live object of this
    one, and then returns all those references and leaves the heap alone;
    otherwise it collects, and the realm's survivors are those a whole-heap
    collection from the same roots would keep. *)
Lemma try_collect_realm_agrees o rss roots h :
  heap_wf h →
  ∃ r, try_collect_realm o rss roots h = Ret r ∧
  match r with
  | Err edges => edges ≠ [] ∧ ∀ e, e ∈ edges ↔
      ∃ i, i < length (slots h) ∧ edge_to e ∈ out_edges h i ∧ markable None h (edge_to e) = true ∧
        handle_at h i = Ret (edge_from e) ∧ edge_from_owner e = owner_at h i ∧
        edge_to_owner e = owner_at h (slot_index (edge_to e)) ∧
        edge_from_owner e ≠ edge_to_owner e ∧ edge_to_owner e = o
  | Ok (h', n) =>
      (∀ i e, i < length (slots h) → e ∈ out_edges h i → markable (Some o) h e = true → owner_at h i = o) ∧
      ∀ id, live h id → Heap_owner h id = Some o →
        (live h' id ↔ reach None h roots [] (slot_index id))
  end.
Proof.
  intros Hwf. destruct (cross_owner_edges_spec h Hwf) as (es & E & Hes).
  unfold try_collect_realm, try_collect_realm_with_ephemerons. rewrite E. simpl.
  destruct (filter (λ e, edge_to_owner e = o) es) as [|e0 es0] eqn:Hf.
  - exists (Ok (collect_realm_with_ephemerons o rss roots [] h)). split; [done|].
    pose proof (cross_owner_edges_closed h es o Hwf E Hf) as Hcl.
    destruct (collect_realm_with_ephemerons o rss roots [] h) as [h' n] eqn:Hc. split; [apply Hcl|].
    intros id Hl Ho%owner_in_scope; [|done..].
    rewrite (collect_in_live (Some o) rss roots [] h h' n id Hwf Hc), not_garbage_iff, Ho by done.
    apply Z.eqb_eq in Ho. split; [intros [_ [Hr|?]]; [by eapply reach_scope_None|done]|].
    intros Hr. split; [done|]. left. by apply reach_realm_closed.
  - eexists. split; [done|]. cbv beta iota. rewrite <-Hf. split; [by rewrite Hf|].
    intros e. rewrite list_elem_of_filter, Hes. split.
    + intros (Ho & i & ? & ? & ? & ? & ? & ? & ?). exists i. by split_and!.
    + intros (i & ? & ? & ? & ? & ? & ? & ? & ?). split; [done|]. exists i. by split_and!.
Qed.

(** ** Runs *)

(** One operation of the heap's interface.  [free] is called on a handle the heap
    issued; an allocation at capacity, which overwrites the reserved slot, is
    apart ([alloc_at_capacity]); [mark_from_owner], [drain_mark_realm] and
    [sweep_marked_realm] are sequences of the slices listed. *)
Inductive heap_step : Heap T → Heap T → Prop :=
| step_alloc h h' v o id :
    ¬ at_capacity h → alloc_with_owner v o h = Ret (h', id) → heap_step h h'
| step_alloc_external h h' hd o id :
    ¬ at_capacity h → alloc_external_with_owner hd o h = Ret (h', id) → heap_step h h'
| step_free h id : issued h id → heap_step h (Heap_free id h)
| step_modify h f id : heap_step h (Heap_modify f id h)
| step_set_owner h id o : heap_step h (set_owner id o h).1
| step_preserve h id o : heap_step h (preserve_new_owner_allocation o id h).1
| step_note_external h bytes : heap_step h (note_external_alloc bytes h)
| step_growth h permille : heap_step h (Heap_set_growth_permille permille h)
| step_take_oom h : heap_step h (take_oom h).1
| step_sentinel h id : heap_step h (reserve_oom_sentinel id h)
| step_take_external h : heap_step h (take_freed_external_handles h).1
| step_collect h rss roots eph : heap_step h (collect_with_ephemerons rss roots eph h).1
| step_collect_realm h o rss roots eph : heap_step h (collect_realm_with_ephemerons o rss roots eph h).1
| step_maybe_collect h rss roots : heap_step h (maybe_collect rss roots h).1
| step_sweep_realm h o : heap_step h (sweep_realm o h).1
| step_begin_mark h o roots : heap_step h (begin_mark_realm o roots h)
| step_enqueue_mark h o id : heap_step h (enqueue_mark_owner o id h)
| step_mark_slice h o budget cur h' cur' n :
    mark_owner_slice_with_cursor o budget cur h = Some (Ret (h', cur', n)) → heap_step h h'
| step_sweep_slice h o rss budget st : heap_step h (sweep_marked_realm_slice o rss budget h st).1.1.

Lemma Heap_modify_safe h f id : heap_wf h → heap_wf (Heap_modify f id h) ∧ evolves h (Heap_modify f id h).
Proof.
  intros Hwf. unfold Heap_modify. destruct (generation_matches h (slot_index id) id); [simpl|done].
  destruct (slots h !! slot_index id) as [[v| |]|] eqn:Hs; try done.
  assert (∀ j, slots h !! j = Some Free → <[slot_index id:=Object (f v)]> (slots h) !! j = Some Free) as Hfree.
  { intros j Hj. rewrite list_lookup_insert_ne; [done|]. intros <-. congruence. }
  split.
  - destruct Hwf as [Wc Wo Wg Wcap Wr Wnd Wfs]. split; simpl; rewrite ?length_insert; auto.
  - intros j g. unfold dead_at, live_at; simpl. split.
    + intros (g' & Hg' & Hd). exists g'. split; [done|]. destruct Hd as [?|(?&?&?&?)]; [by left|right; auto].
    + intros (Hg & s & Hsj & Hne). left. split; [done|].
      destruct (decide (j = slot_index id)) as [->|Hj].
      * exists (Object (f v)). split; [|done]. apply list_lookup_insert_eq. eauto using lookup_lt_Some.
      * exists s. by rewrite list_lookup_insert_ne.
Qed.

Lemma sweep_realm_safe_to o h k :
  heap_wf h → let h' := (foldl (sweep_realm_index o) (h, 0) (seq 0 k)).1 in heap_wf h' ∧ evolves h h'.
Proof.
  intros Hwf. induction k as [|k IH]; [done|]. rewrite seq_S, foldl_app. simpl.
  destruct (foldl (sweep_realm_index o) (h, 0) (seq 0 k)) as [h1 n]. simpl in IH |- *. destruct IH as [Hwf1 Hev1].
  destruct (negb (owner_at h1 k =? o)%Z || is_free_slot (slot_at h1 k)) eqn:E; [done|].
  apply orb_false_iff in E as [_ Hnf]. simpl.
  pose proof (slot_at_live h1 k _ (wf_parallel h1 Hwf1) eq_refl) as Hl.
  set (h2 := match slot_at h1 k with ExternalSlot hd => set_freed_external (freed_external h1 ++ [hd]) h1
             | _ => h1 end).
  assert (same_core h1 h2 ∧ length (colors h2) = length (colors h1) ∧ length (owners h2) = length (owners h1))
    as ((Es & Eg & Ef) & Ec & Eo) by (unfold h2; by destruct (slot_at h1 k)).
  assert (live_at h1 k (generation_at h1 k)) as Hla by (apply Hl; by intros Ef'; rewrite Ef' in Hnf).
  split; [|etrans; [done|]].
  - eapply release_wf; try done; unfold write_slot; simpl; rewrite ?length_insert; congruence.
  - eapply release_evolves; try done; unfold write_slot; simpl; congruence.
Qed.

Lemma collect_in_safe scope rss roots eph h :
  heap_wf h → heap_wf (collect_in scope rss roots eph h).1 ∧ evolves h (collect_in scope rss roots eph h).1.
Proof.
  intros Hwf. destruct (collect_in scope rss roots eph h) as [h' n] eqn:Hc.
  destruct (collect_in_handles scope rss roots eph h h' n Hwf Hc) as (? & ? & _). done.
Qed.

Lemma recolor_safe h cs :
  heap_wf h → length cs = length (colors h) → heap_wf (set_colors cs h) ∧ evolves h (set_colors cs h).
Proof. intros Hwf Hl. split; [destruct Hwf; split; simpl; rewrite ?Hl; done|by apply same_core_evolves]. Qed.

Lemma gray_fold_length o h es cs : length (foldl (gray_edge o h) cs es) = length cs.
Proof.
  revert cs. induction es as [|e es IH]; intros cs; [done|]. simpl. rewrite IH. unfold gray_edge.
  destruct (_ && _); [apply length_insert|done].
Qed.

Lemma mark_visit_length o h cs cur budget id start :
  length (mark_visit o h cs cur budget id start).1.1 = length cs.
Proof.
  unfold mark_visit. destruct (match slot_at h (slot_index id) with Object _ => _ | _ => _ end) as [ids slice].
  destruct (complete slice); cbn [fst]; rewrite gray_fold_length; [apply length_insert|done].
Qed.

Lemma mark_loop_length fuel o h cs cur budget n cs' cur' n' :
  mark_slice_loop fuel o h cs cur budget n = Some (Ret (cs', cur', n')) → length cs' = length cs.
Proof.
  revert cs cur budget n. induction fuel as [|fuel IH]; intros cs cur budget n; [done|]. cbn [mark_slice_loop].
  destruct (negb (0 <? budget)%Z); [by intros [= <- _ _]|].
  assert (∀ id start cur1,
    (if negb (markable (Some o) h id) || bool_decide (default White (cs !! slot_index id) = Black)
     then mark_slice_loop fuel o h cs cur1 budget n
     else let '(cs1, cur2, b1) := mark_visit o h cs cur1 budget id start in
          mark_slice_loop fuel o h cs1 cur2 b1 (S n)) = Some (Ret (cs', cur', n')) → length cs' = length cs) as Hturn.
  { intros id start cur1. destruct (_ || _); [apply IH|].
    pose proof (mark_visit_length o h cs cur1 budget id start) as Hl.
    destruct (mark_visit o h cs cur1 budget id start) as [[cs1 cur2] b1]. cbn [fst] in Hl. rewrite <-Hl. apply IH. }
  destruct (cursor_object cur) as [[id start]|]; [apply Hturn|].
  destruct (next_gray_owner_object o h cs cur) as [[[id|] cur1]|]; [apply Hturn|by intros [= <- _ _]|done].
Qed.

Lemma mark_slice_safe h o budget cur h' cur' n :
  heap_wf h → mark_owner_slice_with_cursor o budget cur h = Some (Ret (h', cur', n)) → heap_wf h' ∧ evolves h h'.
Proof.
  intros Hwf. unfold mark_owner_slice_with_cursor. destruct (budget =? 0)%Z; [by intros [= <- _ _]|].
  destruct (mark_slice_loop _ _ _ _ _ _ _) as [[[[cs cur1] k]|]|] eqn:E; [|done..]. intros [= <- _ _].
  apply recolor_safe; [done|by eapply mark_loop_length].
Qed.

Lemma sweep_slice_safe fuel o budget h st :
  heap_wf h → heap_wf (sweep_slice_loop fuel o budget h st).1 ∧ evolves h (sweep_slice_loop fuel o budget h st).1.
Proof.
  revert budget h st. induction fuel as [|fuel IH]; intros budget h st Hwf; [done|]. cbn [sweep_slice_loop].
  destruct (_ && _); [|done].
  destruct (sweep_index_safe (Some o) h (sweep_freed st) (sweep_next_index st) Hwf) as [Hwf1 Hev1].
  destruct (sweep_index (Some o) (h, sweep_freed st) (sweep_next_index st)) as [h1 freed]. cbn [fst] in *.
  destruct (IH (budget - 1)%Z h1 {| sweep_next_index := S (sweep_next_index st); sweep_freed := freed |} Hwf1).
  split; [done|by etrans].
Qed.

Lemma sweep_marked_slice_safe o rss budget h st :
  heap_wf h → let h' := (sweep_marked_realm_slice o rss budget h st).1.1 in heap_wf h' ∧ evolves h h'.
Proof.
  intros Hwf. unfold sweep_marked_realm_slice.
  destruct (sweep_slice_safe (length (slots h) - sweep_next_index st) o budget h st Hwf) as [Hwf1 Hev1].
  destruct (sweep_slice_loop _ o budget h st) as [h1 st1]. cbn [fst] in *. case_bool_decide; [done|].
  split; [by destruct Hwf1; split|]. etrans; [done|]. by apply same_core_evolves.
Qed.

Lemma heap_step_safe h h' : heap_wf h → heap_step h h' → heap_wf h' ∧ evolves h h'.
Proof.
  intros Hwf. destruct 1 as [h h' v o id Hc E|h h' hd o id Hc E|h id Hi|h f id|h id o|h id o| | | | | | | |h rss roots|h o
    |h o roots|h o id|h o b cur h' cur' n E|h o rss b st].
  - destruct (alloc_with_owner_spec h v o Hwf Hc) as (h1 & id1 & E1 & Ha). rewrite E in E1. simplify_eq.
    eauto using allocated_wf, allocated_evolves.
  - destruct (alloc_external_with_owner_spec h hd o Hwf Hc) as (h1 & id1 & E1 & Ha). rewrite E in E1. simplify_eq.
    eauto using allocated_wf, allocated_evolves.
  - destruct Hi as [Hl|Hd]; [destruct (Heap_free_live h id Hwf Hl) as (? & ? & _)|destruct (Heap_free_dead h id Hwf Hd) as (? & ? & _)]; auto.
  - by apply Heap_modify_safe.
  - unfold set_owner. destruct (negb _); [done|]. destruct (slots h !! slot_index id) as [[]|]; try done;
      (split; [destruct Hwf; split; simpl; rewrite ?length_insert; done|by apply same_core_evolves]).
  - unfold preserve_new_owner_allocation. destruct (negb _); [done|].
    destruct (slots h !! slot_index id) as [[]|]; try done; (case_bool_decide; [|done]);
      (split; [destruct Hwf; split; simpl; rewrite ?length_insert; done|by apply same_core_evolves]).
  - split; [by destruct Hwf; split|by apply same_core_evolves].
  - split; [by destruct Hwf; split|by apply same_core_evolves].
  - split; [by destruct Hwf; split|by apply same_core_evolves].
  - split; [by destruct Hwf; split|by apply same_core_evolves].
  - split; [by destruct Hwf; split|by apply same_core_evolves].
  - by apply collect_in_safe.
  - by apply collect_in_safe.
  - unfold maybe_collect. destruct (should_collect rss h); [|done].
    pose proof (collect_in_safe None rss roots [] h Hwf) as Hs. unfold collect, collect_with_ephemerons.
    by destruct (collect_in None rss roots [] h).
  - by apply sweep_realm_safe_to.
  - apply recolor_safe; [done|]. by rewrite gray_fold_length, length_fmap.
  - unfold enqueue_mark_owner. destruct (_ || _); [done|]. apply recolor_safe; [done|apply length_insert].
  - by eapply mark_slice_safe.
  - by apply sweep_marked_slice_safe.
Qed.

(** C26: no use after free, ever.  Along any sequence of heap operations from a
    well-formed heap (the empty one included) the heap stays well formed, a handle
    that died never reads a value again, and an allocation at the end of the
    sequence never returns a handle the program already held, alive or dead. *)
Theorem dead_handles_stay_dead h h' :
  heap_wf h → rtc heap_step h h' →
  heap_wf h' ∧
  (∀ id, dead h id → dead h' id ∧ Heap_get h' id = None ∧ is_free h' id = true) ∧
  (∀ id, issued h id → issued h' id) ∧
  (∀ v o h'' id, ¬ at_capacity h' → alloc_with_owner v o h' = Ret (h'', id) → ¬ issued h id).
Proof.
  intros Hwf Hrun. assert (heap_wf h' ∧ evolves h h') as [Hwf' Hev].
  { induction Hrun as [h|h h1 h' Hstep Hrun IH]; [done|].
    destruct (heap_step_safe h h1 Hwf Hstep) as [Hwf1 Hev1]. destruct (IH Hwf1) as [? ?].
    split; [done|by etrans]. }
  assert (∀ id, issued h id → issued h' id) as Hiss.
  { intros id. destruct (Hev (slot_index id) (generation id)) as [Hd Hl]. unfold issued, live, dead.
    intros [?|?]; [by apply Hl|right; by apply Hd]. }
  split_and!; try done.
  - intros id Hd. apply Hev in Hd. change (dead h' id) in Hd. destruct (dead_get h' id Hd). done.
  - intros v o h'' id Hc E Hi. destruct (alloc_with_owner_spec h' v o Hwf' Hc) as (h1 & id1 & E1 & Ha).
    rewrite E in E1. simplify_eq. by eapply allocated_fresh, Hiss.
Qed.
End Safety.

(** ** A concrete heap

    Realm 1 holds slots 0 and 1, realm 2 holds slots 2 and 3; 0 refers to 1, 2
    refers to 3; slot 4 is an external handle of realm 1; slot 5 of realm 1 refers
    to itself and nothing refers to it. *)

Definition realm_heap : Heap Node :=
  set_generations (replicate 6 0%Z) (set_owners [1; 1; 2; 2; 1; 1]%Z (set_colors (replicate 6 White)
    (set_slots [Object [MkId 1]; Object []; Object [MkId 3]; Object []; ExternalSlot 77%Z; Object [MkId 5]]
       empty_heap))).

Lemma realm_heap_wf : heap_wf realm_heap.
Proof.
  split; try reflexivity; [vm_compute; discriminate| |constructor|intros i Hi; inversion Hi].
  intros i g [-> _]%lookup_replicate. rewrite max_generation_val. lia.
Qed.

Lemma collect_exact_witness :
  let h' := (collect_with_ephemerons 0 [MkId 0; MkId 2] [] realm_heap).1 in
  live h' (MkId 1) ∧ dead h' (MkId 5).
Proof.
  destruct (collect_with_ephemerons 0 [MkId 0; MkId 2] [] realm_heap) as [h' n] eqn:E.
  destruct (collect_exact 0 [MkId 0; MkId 2] [] realm_heap h' n realm_heap_wf E) as (_ & Hl & _ & Hd & _).
  assert (∀ k, k < 6 → live realm_heap (MkId (Z.of_nat k))) as Hlive.
  { intros k Hk. do 6 (destruct k as [|k]; [split; [reflexivity|eexists; split; [reflexivity|discriminate]]|]). lia. }
  cbn [fst]. split.
  - apply Hl. split; [apply (Hlive 1); lia|]. apply (reach_edge _ _ _ _ 0 (MkId 1)); [|left|reflexivity].
    apply (reach_root _ _ _ _ (MkId 0)); [left|reflexivity].
  - apply Hd; [apply (Hlive 5); lia|]. intros Hr.
    assert (∀ i, reach None realm_heap [MkId 0; MkId 2] [] i → i < 4) as Hb; [|specialize (Hb _ Hr); vm_compute in Hb; lia].
    clear. induction 1 as [r Hr _|i e Hi IH He _|k v Hkv _ _ _ _]; [| |by inversion Hkv].
    + apply elem_of_cons in Hr as [->|[->|Hr]%elem_of_cons]; [vm_compute; lia..|by inversion Hr].
    + do 4 (destruct i as [|i]; [cbn in He; try (apply elem_of_cons in He as [->|He]; [vm_compute; lia|]); by inversion He|]).
      lia.
Defined.

Lemma collect_realm_isolated_witness :
  live (collect_realm_with_ephemerons 1 0 [MkId 0] [] realm_heap).1 (MkId 3).
Proof.
  destruct (collect_realm_with_ephemerons 1 0 [MkId 0] [] realm_heap) as [h' n] eqn:E.
  apply (collect_realm_isolated 1 0 [MkId 0] [] realm_heap h' n realm_heap_wf E); [|vm_compute; discriminate].
  split; [reflexivity|eexists; split; [reflexivity|discriminate]].
Defined.

(** Freed and then reallocated: the old handle stays dead. *)
Lemma dead_handles_stay_dead_witness :
  Heap_get (Heap_modify (λ n, n) (MkId 0) (Heap_free (MkId 0) (Heap_free (MkId 0) one_heap))) (MkId 0) = None.
Proof.
  assert (live one_heap (MkId 0)) as Hl
    by (split; [reflexivity|exists (Object []); split; [reflexivity|discriminate]]).
  destruct (Heap_free_live one_heap (MkId 0) one_heap_wf Hl) as (Hwf & _ & Hd).
  assert (rtc heap_step (Heap_free (MkId 0) one_heap)
    (Heap_modify (λ n, n) (MkId 0) (Heap_free (MkId 0) (Heap_free (MkId 0) one_heap)))) as Hrun.
  { eapply rtc_l; [apply step_free; by right|]. apply rtc_once, step_modify. }
  destruct (dead_handles_stay_dead _ _ Hwf Hrun) as (_ & Hdead & _). by apply Hdead.
Defined.
