(* ===== verification/GcIncrementalTheory.v ===== *)
(** * GcIncrementalTheory: slices of marking and sweeping do what a collection does

    Marking in slices terminates and blackens exactly what is reachable, whatever
    the budgets; with the sweep in slices it is [collect_realm]
    ([incremental_is_collect_realm]).  With a mutator running between the slices
    that keeps to the write barrier, nothing reachable is freed
    ([GcMutator]).

    What marking needs of an object's [trace_slice] is the class [SlicedTrace]; the
    trait's default is an instance, and so is the object of the crate's tests that
    traces in slices.  [mark_owner_slice_stalls] shows what becomes of a budget when
    the cursor is not kept. *)

From S2P Require Import Prelude Gc GcHandles GcCollect GcSweep GcSafety GcIncremental.

(** [trace_slice] goes through [trace] from front to back: from [start] on,
    [trace_from] is left; a slice emits the front of it, and at least one edge
    unless it completes the object. *)
Class SlicedTrace (T : Type) `{Trace T} := {
  trace_from : T → nat → list ObjectId;
  trace_from_0 v : trace_from v 0 = trace v;
  trace_from_suffix v start : trace_from v start `suffix_of` trace v;
  trace_slice_from v start budget :
    (0 < budget)%Z →
    let '(ids, slice) := trace_slice v start budget in
    trace_from v start = ids ++ (if complete slice then [] else trace_from v (next_index slice)) ∧
    (complete slice = false → ids ≠ []);
}.

(** ** Sums over the slots *)

Lemma sum_with_le {A} (f g : A → nat) (l : list A) :
  (∀ x, x ∈ l → f x ≤ g x) → sum_list_with f l ≤ sum_list_with g l.
Proof.
  induction l as [|x l IH]; intros Hfg; [done|]. simpl.
  pose proof (Hfg x ltac:(by left)). assert (sum_list_with f l ≤ sum_list_with g l) by (apply IH; intros; apply Hfg; by right). lia.
Qed.

Lemma sum_with_drop {A} (f g : A → nat) (l : list A) y k :
  (∀ x, x ∈ l → f x ≤ g x) → y ∈ l → f y + k ≤ g y → sum_list_with f l + k ≤ sum_list_with g l.
Proof.
  intros Hfg Hy Hk. induction l as [|x l IH]; [by inversion Hy|]. simpl.
  apply elem_of_cons in Hy as [<-|Hy].
  - assert (sum_list_with f l ≤ sum_list_with g l) by (apply sum_with_le; intros; apply Hfg; by right). lia.
  - pose proof (Hfg x ltac:(by left)).
    assert (sum_list_with f l + k ≤ sum_list_with g l) by (apply IH; [intros; apply Hfg; by right|done]). lia.
Qed.

Lemma sum_with_ext {A} (f g : A → nat) (l : list A) :
  (∀ x, f x = g x) → sum_list_with f l = sum_list_with g l.
Proof. intros Hfg. induction l as [|x l IH]; [done|]. simpl. by rewrite Hfg, IH. Qed.

(** ** One slice of marking *)

Section Slice.
Context {T : Type} `{SlicedTrace T} (o : Z) (h : Heap T).
Implicit Types (id : ObjectId) (cs : list Color) (cur : RealmMarkCursor).

Definition scope : option Z := Some o.

Definition edges_from (i start : nat) : list ObjectId :=
  match slot_at h i with Object v => trace_from v start | _ => [] end.

(** What is left to do for a half-traced object: its edges are coloured, or still
    to come. *)
Definition pending cs id start : Prop :=
  markable scope h id = true → cs !! slot_index id ≠ Some Black →
  ∀ e, e ∈ out_edges h (slot_index id) → markable scope h e = true →
    nonwhite cs (slot_index e) ∨ e ∈ edges_from (slot_index id) start.

(** The invariant of incremental marking: black objects refer to no white ones, and
    the cursor's object is the only one half done. *)
Record marking cs cur : Prop := {
  mk_length : length cs = length (slots h);
  mk_black : black_closed scope h cs;
  mk_cursor : ∀ id start, cursor_object cur = Some (id, start) → pending cs id start;
}.

(** The cursor's object is one to go on with. *)
Definition cursor_live cs cur : Prop :=
  ∀ id start, cursor_object cur = Some (id, start) →
    markable scope h id = true ∧ cs !! slot_index id ≠ Some Black.

(** Marking stays inside [R]. *)
Definition inside (R : nat → Prop) cs cur : Prop :=
  (∀ i, nonwhite cs i → R i) ∧ (∀ id start, cursor_object cur = Some (id, start) → R (slot_index id)).

Definition edge_closed (R : nat → Prop) : Prop :=
  ∀ i e, R i → e ∈ out_edges h i → markable scope h e = true → R (slot_index e).

(** The work left: for each object not black, its edges and itself. *)
Definition slot_work cs cur (i : nat) : nat :=
  if decide (cs !! i = Some Black) then 0
  else S (match cursor_object cur with
          | Some (id, start) => if decide (slot_index id = i) then length (edges_from i start)
                                else length (out_edges h i)
          | None => length (out_edges h i)
          end).

Definition work cs cur : nat := sum_list_with (slot_work cs cur) (seq 0 (length (slots h))).

Lemma edges_from_0 i : edges_from i 0 = out_edges h i.
Proof. unfold edges_from, out_edges. destruct (slot_at h i); try done. apply trace_from_0. Qed.

Lemma edges_from_suffix i start : edges_from i start `suffix_of` out_edges h i.
Proof. unfold edges_from, out_edges. destruct (slot_at h i); try done. apply trace_from_suffix. Qed.

Lemma work_bound cs cur : 2 + work cs cur ≤ mark_fuel h.
Proof.
  unfold mark_fuel, work. apply le_n_S, le_n_S, sum_with_le. intros i _. unfold slot_work.
  case_decide; [lia|]. apply le_n_S. destruct (cursor_object cur) as [[id start]|]; [|done].
  case_decide; [|done]. apply suffix_length, edges_from_suffix.
Qed.

(** *** Graying edges *)

Lemma gray_edge_cases cs id :
  gray_edge o h cs id = cs ∨
  markable scope h id = true ∧ cs !! slot_index id = Some White ∧ gray_edge o h cs id = <[slot_index id := Gray]> cs.
Proof.
  unfold gray_edge. fold scope. destruct (markable scope h id) eqn:Hm; [|by left].
  destruct (is_white cs (slot_index id)) eqn:Hw; [|by left]. simpl.
  destruct (decide (slot_index id < length cs)) as [Hi|Hi].
  - right. by rewrite is_white_true in Hw.
  - left. apply list_insert_ge. lia.
Qed.

Lemma gray_edge_lookup cs id i c :
  c ≠ White → cs !! i = Some c → gray_edge o h cs id !! i = Some c.
Proof.
  intros Hc Hi. destruct (gray_edge_cases cs id) as [->|(_ & Hw & ->)]; [done|].
  rewrite list_lookup_insert_ne; [done|]. intros <-. congruence.
Qed.

Lemma gray_edge_black cs id i : gray_edge o h cs id !! i = Some Black ↔ cs !! i = Some Black.
Proof.
  split; [|by apply gray_edge_lookup]. destruct (gray_edge_cases cs id) as [->|(_ & Hw & ->)]; [done|].
  destruct (decide (slot_index id = i)) as [<-|Hne]; [|by rewrite list_lookup_insert_ne].
  rewrite list_lookup_insert_eq by (by eapply lookup_lt_Some). done.
Qed.

Lemma gray_edge_length cs id : length (gray_edge o h cs id) = length cs.
Proof. destruct (gray_edge_cases cs id) as [->|(_ & _ & ->)]; [done|]. apply length_insert. Qed.

Lemma gray_edge_darker cs id : darker cs (gray_edge o h cs id).
Proof. destruct (gray_edge_cases cs id) as [->|(_ & _ & ->)]; [done|]. by apply darker_insert. Qed.

Lemma gray_edge_marks cs id :
  length cs = length (slots h) → markable scope h id = true → nonwhite (gray_edge o h cs id) (slot_index id).
Proof.
  intros Hl Hm. pose proof (markable_bound _ _ _ Hm). unfold gray_edge. fold scope. rewrite Hm. simpl.
  destruct (is_white cs (slot_index id)) eqn:Hw; [|by apply nonwhite_iff; [lia|]].
  apply nonwhite_insert; [done|lia|by left].
Qed.

Lemma gray_edge_inside (R : nat → Prop) cs id :
  (∀ i, nonwhite cs i → R i) → (markable scope h id = true → R (slot_index id)) →
  ∀ i, nonwhite (gray_edge o h cs id) i → R i.
Proof.
  intros HR Hid i. destruct (gray_edge_cases cs id) as [->|(Hm & Hw & ->)]; [auto|].
  intros [->|?]%nonwhite_insert; eauto using lookup_lt_Some.
Qed.

(** Graying a list of edges. *)
Lemma gray_edges es cs :
  length cs = length (slots h) →
  let cs' := foldl (gray_edge o h) cs es in
  darker cs cs' ∧ (∀ i, cs' !! i = Some Black ↔ cs !! i = Some Black) ∧
  (∀ e, e ∈ es → markable scope h e = true → nonwhite cs' (slot_index e)) ∧
  (∀ R : nat → Prop, (∀ i, nonwhite cs i → R i) →
     (∀ e, e ∈ es → markable scope h e = true → R (slot_index e)) → ∀ i, nonwhite cs' i → R i).
Proof.
  revert cs. induction es as [|e es IH]; intros cs Hl.
  { split_and!; [done|done| |auto]. intros e He. by inversion He. }
  destruct (IH (gray_edge o h cs e)) as (Hd & Hb & Hm & Hr); [by rewrite gray_edge_length|]. simpl. split_and!.
  - etrans; [apply gray_edge_darker|done].
  - intros i. by rewrite Hb, gray_edge_black.
  - intros e' [->|He']%elem_of_cons Hme; [|by apply Hm]. by apply Hd, gray_edge_marks.
  - intros R HR Hes. apply Hr; [|intros; apply Hes; [by right|done]].
    apply gray_edge_inside; [done|]. apply Hes. by left.
Qed.
(** *** Visiting an object *)

Lemma visit_slice i start budget :
  (0 < budget)%Z →
  ∃ ids slice,
    match slot_at h i with
    | Object obj => trace_slice obj start budget
    | _ => ([], {| next_index := start; complete := true |})
    end = (ids, slice) ∧
    edges_from i start = ids ++ (if complete slice then [] else edges_from i (next_index slice)) ∧
    (complete slice = false → ids ≠ []).
Proof.
  intros Hb. unfold edges_from. destruct (slot_at h i) as [v|hd|]; [|by eexists _, _..].
  pose proof (trace_slice_from v start budget Hb) as Hs.
  destruct (trace_slice v start budget) as [ids slice]. by exists ids, slice.
Qed.

Lemma work_step cs cs' cur cur' id k :
  slot_index id < length (slots h) → (∀ i, cs !! i = Some Black → cs' !! i = Some Black) →
  (∀ j, j ≠ slot_index id → slot_work cs' cur' j ≤ slot_work cs cur j) →
  slot_work cs' cur' (slot_index id) + k ≤ slot_work cs cur (slot_index id) →
  work cs' cur' + k ≤ work cs cur.
Proof.
  intros Hi Hb Hj Hk. apply (sum_with_drop _ _ _ (slot_index id)); [|apply elem_of_seq; lia|done].
  intros j _. destruct (decide (j = slot_index id)) as [->|]; [lia|auto].
Qed.

Lemma slot_work_le cs cs' cur cur' i :
  (cs !! i = Some Black → cs' !! i = Some Black) →
  (∀ id start, cursor_object cur' = Some (id, start) → slot_index id ≠ i) →
  (∀ id start, cursor_object cur = Some (id, start) → slot_index id ≠ i) →
  slot_work cs' cur' i ≤ slot_work cs cur i.
Proof.
  intros Hb Hc' Hc. unfold slot_work. repeat case_decide; try lia; try (by exfalso; auto).
  apply le_n_S. destruct (cursor_object cur') as [[id' st']|]; [rewrite decide_False by (by eapply Hc')|];
    (destruct (cursor_object cur) as [[id st]|]; [rewrite decide_False by (by eapply Hc)|]); done.
Qed.

(** A visit that completes its object. *)
Lemma visit_complete cs cur id start (ids : list ObjectId) :
  marking cs cur → cursor_object cur = None → pending cs id start → markable scope h id = true →
  cs !! slot_index id ≠ Some Black → edges_from (slot_index id) start = ids →
  let cs' := foldl (gray_edge o h) (<[slot_index id := Black]> cs) ids in
  marking cs' cur ∧ darker cs cs' ∧
  work cs' cur + S (length ids) ≤ work cs (set_object (Some (id, start)) cur).
Proof.
  intros [Hl Hbc _] Hc Hp Hm Hnb He cs'. pose proof (markable_bound _ _ _ Hm) as Hi.
  set (cs1 := <[slot_index id := Black]> cs) in *.
  assert (length cs1 = length (slots h)) as Hl1 by (unfold cs1; by rewrite length_insert).
  destruct (gray_edges ids cs1 Hl1) as (Hd & Hbl & Hmk & _). fold cs' in Hd, Hbl, Hmk.
  assert (darker cs cs') as Hdd by (etrans; [by apply (darker_insert cs (slot_index id) Black)|exact Hd]).
  assert (∀ i, cs' !! i = Some Black ↔ i = slot_index id ∨ cs !! i = Some Black) as Hblack.
  { intros i. rewrite Hbl. unfold cs1. destruct (decide (slot_index id = i)) as [<-|Hne].
    - rewrite list_lookup_insert_eq by lia. tauto.
    - rewrite list_lookup_insert_ne by done. split; [tauto|]. intros [->|?]; done. }
  split_and!; [split| done|].
  - by rewrite (proj1 Hdd).
  - intros i e _ [->|Hbi]%Hblack Hin Hme.
    + destruct (Hp Hm Hnb e Hin Hme) as [Hn|Hr]; [by apply Hdd|]. apply Hmk; [by rewrite <-He|done].
    + apply Hdd. apply (Hbc i e); try done; tauto.
  - intros id' st' E. congruence.
  - eapply work_step; [done|intros i ?; apply Hblack; by right| |].
    + intros j Hj. apply slot_work_le; [intros ?; apply Hblack; by right|congruence|].
      simpl. intros ? ? [= <- <-]. done.
    + unfold slot_work. rewrite decide_True by (apply Hblack; by left). rewrite decide_False by done. simpl.
      rewrite decide_True by done. by rewrite He.
Qed.

(** A visit that stops inside its object. *)
Lemma visit_partial cs cur id start next (ids : list ObjectId) :
  marking cs cur → cursor_object cur = None → pending cs id start → markable scope h id = true →
  cs !! slot_index id ≠ Some Black → edges_from (slot_index id) start = ids ++ edges_from (slot_index id) next →
  let cs' := foldl (gray_edge o h) cs ids in
  let cur' := set_object (Some (id, next)) cur in
  marking cs' cur' ∧ cursor_live cs' cur' ∧ darker cs cs' ∧
  work cs' cur' + length ids ≤ work cs (set_object (Some (id, start)) cur).
Proof.
  intros [Hl Hbc _] Hc Hp Hm Hnb He cs' cur'. pose proof (markable_bound _ _ _ Hm) as Hi.
  destruct (gray_edges ids cs Hl) as (Hd & Hbl & Hmk & _). fold cs' in Hd, Hbl, Hmk.
  split_and!; [split| |done|].
  - by rewrite (proj1 Hd).
  - intros i e _ Hbi%Hbl Hin Hme. apply Hd. apply (Hbc i e); try done; tauto.
  - simpl. intros ? ? [= <- <-] _ _ e Hin Hme.
    destruct (Hp Hm Hnb e Hin Hme) as [Hn|Hr]; [left; by apply Hd|].
    rewrite He in Hr. apply elem_of_app in Hr as [Hr|Hr]; [left; by apply Hmk|by right].
  - simpl. intros ? ? [= <- <-]. by rewrite Hbl.
  - eapply work_step; [done|intros i ?; by apply Hbl| |].
    + intros j Hj. apply slot_work_le; [intros ?; by apply Hbl|simpl; by intros ? ? [= <- <-]..].
    + unfold slot_work. rewrite !decide_False by (rewrite ?Hbl; done). simpl.
      rewrite !decide_True by done. rewrite He, length_app. lia.
Qed.

(** Both, with what is left of the budget. *)
Lemma mark_visit_spec cs cur budget id start :
  marking cs cur → cursor_object cur = None → pending cs id start → markable scope h id = true →
  cs !! slot_index id ≠ Some Black → (0 < budget)%Z →
  ∃ cs' cur' k, mark_visit o h cs cur budget id start = (cs', cur', Z.max (budget - Z.of_nat k) 0) ∧
    marking cs' cur' ∧ cursor_live cs' cur' ∧ darker cs cs' ∧ 1 ≤ k ∧
    work cs' cur' + k ≤ work cs (set_object (Some (id, start)) cur) ∧
    ∀ R, edge_closed R → (∀ i, nonwhite cs i → R i) → R (slot_index id) → inside R cs' cur'.
Proof.
  intros Hmk Hc Hp Hm Hnb Hb. unfold mark_visit.
  destruct (visit_slice (slot_index id) start budget Hb) as (ids & slice & -> & He & Hne).
  pose proof (mk_length _ _ Hmk) as Hl. pose proof (markable_bound _ _ _ Hm) as Hi.
  assert (∀ e, e ∈ ids → e ∈ out_edges h (slot_index id)) as Hsub.
  { intros e Hin. destruct (edges_from_suffix (slot_index id) start) as [pre ->]. rewrite He. set_solver. }
  destruct (complete slice) eqn:Ec.
  - rewrite app_nil_r in He.
    destruct (visit_complete cs cur id start ids Hmk Hc Hp Hm Hnb He) as (H1 & H2 & H3).
    eexists _, cur, (length ids `max` 1). split_and!; [by rewrite Nat2Z.inj_max|done|congruence|done|lia|lia|].
    intros R Hcl HR Hid. split; [|congruence].
    apply (gray_edges ids (<[slot_index id:=Black]> cs) ltac:(by rewrite length_insert)).
    + intros i [->|?]%nonwhite_insert; [done|auto|done|lia].
    + intros e Hin Hme. by eapply Hcl; [|apply Hsub|].
  - destruct (visit_partial cs cur id start (next_index slice) ids Hmk Hc Hp Hm Hnb He) as (H1 & H2 & H3 & H4).
    specialize (Hne eq_refl). destruct ids as [|e0 ids]; [done|].
    eexists _, _, (length (e0 :: ids) `max` 1). split_and!; [by rewrite Nat2Z.inj_max|done..|lia| |].
    + simpl in H4 |- *. lia.
    + intros R Hcl HR Hid. split; [|simpl; by intros ? ? [= <- <-]].
      apply (gray_edges (e0 :: ids) cs Hl); [done|]. intros e Hin Hme. by eapply Hcl; [|apply Hsub|].
Qed.
(** *** The scan and the loop *)

Definition no_gray cs : Prop :=
  ∀ i, cs !! i = Some Gray → owner_at h i = o → is_free_slot (slot_at h i) = true.

Lemma scan_covers len start i :
  start ≤ len → i < len → ∃ offset, offset < len ∧ (start + offset) `mod` len = i.
Proof.
  intros Hs Hi. exists ((i + (len - start)) `mod` len). split; [apply Nat.mod_upper_bound; lia|].
  rewrite Nat.Div0.add_mod_idemp_r. replace (start + (i + (len - start))) with (i + 1 * len) by lia.
  rewrite Nat.Div0.mod_add. by apply Nat.mod_small.
Qed.

Lemma next_gray_spec cs cur :
  heap_wf h → length cs = length (slots h) →
  (∃ id n, next_gray_owner_object o h cs cur = Ret (Some id, set_next_index n cur) ∧
     markable scope h id = true ∧ cs !! slot_index id = Some Gray)
  ∨ (next_gray_owner_object o h cs cur = Ret (None, set_next_index 0 cur) ∧ no_gray cs).
Proof.
  intros Hwf Hl. unfold next_gray_owner_object. case_bool_decide as Hlen0.
  { right. split; [done|]. intros i Hi%lookup_lt_Some. lia. }
  set (start := cursor_next_index cur `min` length (slots h)).
  set (is_gray := λ i, _ && _ && _). set (order := _ <$> seq 0 _).
  destruct (find is_gray order) as [i|] eqn:Ef.
  - left. apply find_some in Ef as [Hin Hg]. unfold is_gray in Hg.
    rewrite !andb_true_iff, bool_decide_eq_true in Hg. destruct Hg as [[Hgray Ho] Hnf].
    assert (i < length (slots h)) as Hi.
    { unfold order in Hin. apply list_elem_of_In, list_elem_of_fmap in Hin as (k & -> & _).
      apply Nat.mod_upper_bound. lia. }
    destruct (lookup_lt_is_Some_2 (generations h) i) as [g Hg]; [by rewrite wf_generations|].
    destruct (handle_at_ok h i g Hwf Hg) as (id & -> & Hidx & Hgen). eexists id, _. split; [done|].
    destruct (lookup_lt_is_Some_2 cs i) as [c Hc]; [lia|]. rewrite Hc in Hgray. simpl in Hgray. subst c i.
    split; [|done]. unfold markable. rewrite bool_decide_eq_true_2 by done. simpl. rewrite Ho, Hnf.
    rewrite (proj2 (generation_matches_true _ _ _)); [done|]. by rewrite Hgen.
  - right. split; [done|]. intros i Hc Ho. apply negb_false_iff.
    destruct (scan_covers (length (slots h)) start i) as (k & Hk & Ek);
      [unfold start; lia|rewrite <-Hl; by eapply lookup_lt_Some|].
    assert (is_gray i = false) as Hf.
    { eapply find_none; [done|]. apply list_elem_of_In, list_elem_of_fmap. exists k. split; [done|].
      apply elem_of_seq. lia. }
    unfold is_gray in Hf. rewrite Hc, Ho, bool_decide_eq_true_2, Z.eqb_refl in Hf by done. done.
Qed.

Lemma work_object cs cur cur' : cursor_object cur = cursor_object cur' → work cs cur = work cs cur'.
Proof. intros E. unfold work. apply sum_with_ext. intros i. unfold slot_work. by rewrite E. Qed.

Lemma work_fresh cs cur cur' id :
  cursor_object cur = None → work cs (set_object (Some (id, 0)) cur') = work cs cur.
Proof.
  intros E. unfold work. apply sum_with_ext. intros i. unfold slot_work. rewrite E. simpl.
  repeat case_decide; try done. subst. by rewrite edges_from_0.
Qed.

Lemma pending_fresh cs id : pending cs id 0.
Proof. intros _ _ e He _. right. by rewrite edges_from_0. Qed.

Lemma marking_object cs cur cur' :
  marking cs cur → cursor_object cur' = None ∨ cursor_object cur' = cursor_object cur → marking cs cur'.
Proof. intros [Hl Hb Hc] E. split; [done..|]. intros id start E'. destruct E; [congruence|]. apply Hc. congruence. Qed.

(** What a run of the loop from [cs], [cur] gives: the invariant, and, when the
    budget covers the work or nothing was left to process, no gray object. *)
Definition loop_post cs cur (budget : Z) (n : nat) (r : option (outcome (list Color * RealmMarkCursor * nat))) : Prop :=
  ∃ cs' cur' n', r = Some (Ret (cs', cur', n + n')) ∧
    marking cs' cur' ∧ cursor_live cs' cur' ∧ darker cs cs' ∧ work cs' cur' + n' ≤ work cs cur ∧
    (∀ R, edge_closed R → inside R cs cur → inside R cs' cur') ∧
    ((Z.of_nat (work cs cur) < budget)%Z ∨ (n' = 0 ∧ (0 < budget)%Z) → no_gray cs' ∧ cursor_object cur' = None).

(** A turn on an object to be visited, given the rest of the loop. *)
Lemma mark_turn_spec (loop : list Color → RealmMarkCursor → Z → nat → _) fuel cs cur cur0 budget n id start :
  (∀ cs cur budget n, marking cs cur → cursor_live cs cur → work cs cur < fuel →
     loop_post cs cur budget n (loop cs cur budget n)) →
  marking cs cur → work cs cur < S fuel → (0 < budget)%Z →
  cursor_object cur0 = None → pending cs id start → markable scope h id = true →
  cs !! slot_index id ≠ Some Black → work cs (set_object (Some (id, start)) cur0) = work cs cur →
  (∀ R, inside R cs cur → R (slot_index id)) →
  loop_post cs cur budget n
    (if negb (markable (Some o) h id) || bool_decide (default White (cs !! slot_index id) = Black)
     then loop cs cur0 budget n
     else let '(cs1, cur1, b1) := mark_visit o h cs cur0 budget id start in loop cs1 cur1 b1 (S n)).
Proof.
  intros IH Hmk Hf Hb Hc0 Hp Hm Hnb Hw HR. change (Some o) with scope. rewrite Hm. simpl.
  rewrite bool_decide_eq_false_2 by (destruct (cs !! slot_index id) as [[]|]; naive_solver).
  destruct (mark_visit_spec cs cur0 budget id start) as (cs1 & cur1 & k & -> & Hm1 & Hl1 & Hd1 & Hk & Hw1 & HR1);
    [by eapply marking_object; [|left]|done..|].
  destruct (IH cs1 cur1 (Z.max (budget - Z.of_nat k) 0) (S n) Hm1 Hl1)
    as (cs' & cur' & n' & -> & ? & ? & Hd2 & Hw2 & HR2 & Hfin); [lia|].
  exists cs', cur', (S n'). split_and!; [do 3 f_equal; lia|done|done|by etrans|lia| |].
  - intros R Hcl Hin. apply HR2; [done|]. apply HR1; [done|apply Hin|by apply HR].
  - intros [?|[? _]]; [|lia]. apply Hfin. left. lia.
Qed.

Lemma mark_loop_spec fuel cs cur budget n :
  heap_wf h → marking cs cur → cursor_live cs cur → work cs cur < fuel →
  loop_post cs cur budget n (mark_slice_loop fuel o h cs cur budget n).
Proof.
  intros Hwf. revert cs cur budget n. induction fuel as [|fuel IH]; intros cs cur budget n Hmk Hlv Hf; [lia|].
  cbn [mark_slice_loop]. destruct (Z.ltb_spec 0 budget) as [Hb|Hb]; simpl.
  2:{ exists cs, cur, 0. rewrite Nat.add_0_r. split_and!; try done; [lia|]. intros [?|[_ ?]]; lia. }
  destruct (cursor_object cur) as [[id start]|] eqn:Ec.
  - destruct (Hlv id start Ec) as [Hm Hnb].
    apply (mark_turn_spec (mark_slice_loop fuel o h) fuel); try done.
    + by apply (mk_cursor _ _ Hmk).
    + apply work_object. by rewrite Ec.
    + intros R [_ HR]. by eapply HR.
  - destruct (next_gray_spec cs cur Hwf (mk_length _ _ Hmk)) as [(id & k & -> & Hm & Hg)|[-> Hng]].
    + apply (mark_turn_spec (mark_slice_loop fuel o h) fuel); try done.
      * apply pending_fresh.
      * congruence.
      * by apply work_fresh.
      * intros R [HR _]. apply HR. by exists Gray.
    + exists cs, (set_next_index 0 cur), 0. rewrite Nat.add_0_r. split_and!; try done.
      * eapply marking_object; [done|by right].
      * rewrite (work_object cs (set_next_index 0 cur) cur) by done. lia.
Qed.

(** A slice from a cursor whose object is to be gone on with. *)
Lemma mark_slice_live cur budget :
  heap_wf h → marking (colors h) cur → cursor_live (colors h) cur → (0 < budget)%Z →
  ∃ cs cur' n, mark_owner_slice_with_cursor o budget cur h = Some (Ret (set_colors cs h, cur', n)) ∧
    marking cs cur' ∧ cursor_live cs cur' ∧ darker (colors h) cs ∧ work cs cur' + n ≤ work (colors h) cur ∧
    (∀ R, edge_closed R → inside R (colors h) cur → inside R cs cur') ∧
    ((Z.of_nat (work (colors h) cur) < budget)%Z ∨ n = 0 → no_gray cs ∧ cursor_object cur' = None).
Proof.
  intros Hwf Hmk Hlv Hb. unfold mark_owner_slice_with_cursor. rewrite (proj2 (Z.eqb_neq _ _)) by lia.
  pose proof (work_bound (colors h) cur) as Hw.
  destruct (mark_loop_spec (mark_fuel h) (colors h) cur budget 0 Hwf Hmk Hlv)
    as (cs & cur' & n & -> & ? & ? & ? & ? & ? & Hfin); [lia|].
  exists cs, cur', n. split_and!; try done. intros [?|?]; apply Hfin; auto.
Qed.

(** A slice, whatever the state of the cursor. *)
Lemma mark_slice_total cur budget :
  heap_wf h → marking (colors h) cur → (0 < budget)%Z →
  ∃ cs cur' n, mark_owner_slice_with_cursor o budget cur h = Some (Ret (set_colors cs h, cur', n)) ∧
    marking cs cur' ∧ darker (colors h) cs ∧ (n = 0 → no_gray cs ∧ cursor_object cur' = None).
Proof.
  intros Hwf Hmk Hb.
  assert (cursor_live (colors h) cur ∨ ∃ id start, cursor_object cur = Some (id, start) ∧
    negb (markable scope h id) || bool_decide (default White (colors h !! slot_index id) = Black) = true)
    as [Hlv|(id & start & Ec & Hst)].
  { unfold cursor_live. destruct (cursor_object cur) as [[id start]|]; [|by left; intros].
    destruct (markable scope h id) eqn:Hm; [|right; exists id, start; by rewrite Hm].
    destruct (decide (colors h !! slot_index id = Some Black)) as [E|E].
    - right. exists id, start. by rewrite Hm, E.
    - left. by intros ? ? [= <- <-]. }
  - destruct (mark_slice_live cur budget Hwf Hmk Hlv Hb) as (cs & cur' & n & -> & ? & _ & ? & _ & _ & Hfin).
    exists cs, cur', n. split_and!; auto.
  - unfold mark_owner_slice_with_cursor. rewrite (proj2 (Z.eqb_neq _ _)) by lia.
    pose proof (work_bound (colors h) (set_object None cur)) as Hw.
    destruct (mark_fuel h) as [|fuel]; [lia|]. cbn [mark_slice_loop].
    rewrite (proj2 (Z.ltb_lt _ _)) by lia. simpl. rewrite Ec. change (Some o) with scope. rewrite Hst.
    destruct (mark_loop_spec fuel (colors h) (set_object None cur) budget 0 Hwf)
      as (cs & cur' & n & -> & ? & _ & ? & _ & _ & Hfin);
      [by eapply marking_object; [|left]|by intros ? ?|lia|].
    exists cs, cur', n. split_and!; try done. intros ->. apply Hfin. right. lia.
Qed.
End Slice.

(** ** A realm marked in slices *)

Section Realm.
Context {T : Type} `{SlicedTrace T} (o : Z).
Implicit Types (h : Heap T) (cs : list Color) (cur : RealmMarkCursor).

(** The invariant reads of the heap only what marking does not change. *)
Lemma marking_set_colors h cs0 cs cur : marking o (set_colors cs0 h) cs cur ↔ marking o h cs cur.
Proof. split; intros [? ? ?]; by split. Qed.

Lemma set_colors_wf h cs : heap_wf h → length cs = length (slots h) → heap_wf (set_colors cs h).
Proof. intros [] ?. by split. Qed.

(** After [begin_mark_realm] the roots are coloured, nothing else is, and no object
    is black. *)
Lemma begin_mark_spec roots h :
  heap_wf h →
  let cs := colors (begin_mark_realm o roots h) in
  marking o h cs RealmMarkCursor_default ∧ heap_wf (begin_mark_realm o roots h) ∧
  (∀ r, r ∈ roots → markable (Some o) h r = true → nonwhite cs (slot_index r)) ∧
  inside (reach (Some o) h roots []) cs RealmMarkCursor_default.
Proof.
  intros Hwf cs. set (cs0 := (λ _, White) <$> colors h : list Color).
  assert (length cs0 = length (slots h)) as Hl0 by (unfold cs0; rewrite length_fmap; apply Hwf).
  assert (∀ i c, cs0 !! i = Some c → c = White) as Hcs0.
  { intros i c. unfold cs0. rewrite list_lookup_fmap. destruct (colors h !! i); naive_solver. }
  destruct (gray_edges o h roots cs0 Hl0) as (Hd & Hb & Hr & Hin).
  change (foldl (gray_edge o h) cs0 roots) with cs in *. destruct Hd as [Hl Hd].
  split_and!; [split| |done|split].
  - lia.
  - intros i e _ Hi%Hb%Hcs0. done.
  - done.
  - apply set_colors_wf; [done|]. fold cs. change (length cs = length (slots h)). lia.
  - apply Hin; [intros i (c & Hc%Hcs0 & ?); done|]. intros e He Hm. by apply reach_root.
  - done.
Qed.

Lemma reach_edge_closed roots h : edge_closed o h (reach (Some o) h roots []).
Proof. intros i e Hi He Hm. by eapply reach_edge. Qed.

Lemma reach_in_realm roots h i :
  reach (Some o) h roots [] i → owner_at h i = o ∧ is_free_slot (slot_at h i) = false.
Proof.
  intros Hr. assert (∃ id, markable (Some o) h id = true ∧ slot_index id = i) as (id & Hm & <-).
  { destruct Hr as [r _ Hm|j e _ _ Hm|k v _ _ Hm _]; eauto. }
  unfold markable in Hm. rewrite !andb_true_iff, negb_true_iff in Hm. simpl in Hm.
  destruct Hm as [[_ Ho%Z.eqb_eq] Hf]. done.
Qed.

(** With no gray object left, the coloured objects include the reachable ones. *)
Lemma marked_reachable roots h cs cur i :
  marking o h cs cur → no_gray o h cs →
  (∀ r, r ∈ roots → markable (Some o) h r = true → nonwhite cs (slot_index r)) →
  reach (Some o) h roots [] i → cs !! i = Some Black.
Proof.
  intros Hmk Hng Hroots. assert (∀ j, reach (Some o) h roots [] j → nonwhite cs j → cs !! j = Some Black) as Hblack.
  { intros j Hr%reach_in_realm (c & Hc & Hne). destruct c; [done| |done].
    specialize (Hng j Hc (proj1 Hr)). destruct Hr. congruence. }
  intros Hr. apply Hblack; [done|]. induction Hr as [r Hr Hm|j e Hj IH He Hm|k v Hkv _ _ _ _].
  - by apply Hroots.
  - apply (mk_black _ _ _ _ Hmk j e); [tauto|by apply Hblack|done..].
  - by inversion Hkv.
Qed.

(** Hence, marked from its roots alone, the realm has the colours of
    [collect_realm]. *)
Lemma marked_colors roots h cs cur :
  heap_wf h → marking o h cs cur → no_gray o h cs →
  (∀ r, r ∈ roots → markable (Some o) h r = true → nonwhite cs (slot_index r)) →
  inside (reach (Some o) h roots []) cs cur → mark_all (Some o) h roots [] = (cs, []).
Proof.
  intros Hwf Hmk Hng Hroots [Hin _]. destruct (mark_all_spec (Some o) h roots [] (wf_colors h Hwf)) as (cs' & -> & Hl & Hcs).
  f_equal. pose proof (mk_length _ _ _ _ Hmk). apply list_eq_same_length with (length (slots h)); [done..|].
  intros i c' c Hi Hc' Hc. destruct (Hcs i Hi) as [[Hr E]|[Hr E]].
  - pose proof (marked_reachable roots h cs cur i Hmk Hng Hroots Hr). congruence.
  - destruct (decide (c = White)) as [->|Hne]; [congruence|]. exfalso. apply Hr, Hin. by exists c.
Qed.

(** Slices with the budgets of a list, until one has nothing left to do; the flag
    tells whether one had. *)
Fixpoint mark_slices (budgets : list Z) cur h : option (outcome (Heap T * bool)) :=
  match budgets with
  | [] => Some (Ret (h, false))
  | b :: bs =>
      match mark_owner_slice_with_cursor o b cur h with
      | None => None
      | Some Panic => Some Panic
      | Some (Ret (h, _, O)) => Some (Ret (h, true))
      | Some (Ret (h, cur, S _)) => mark_slices bs cur h
      end
  end.

Lemma mark_slices_spec h R budgets cs cur :
  heap_wf h → marking o h cs cur → cursor_live o h cs cur → edge_closed o h R → inside R cs cur →
  Forall (λ b, 0 < b)%Z budgets → work h cs cur < length budgets →
  ∃ cs' cur', mark_slices budgets cur (set_colors cs h) = Some (Ret (set_colors cs' h, true)) ∧
    marking o h cs' cur' ∧ no_gray o h cs' ∧ inside R cs' cur' ∧ darker cs cs'.
Proof.
  intros Hwf Hmk Hlv Hcl Hin Hbs. revert cs cur Hmk Hlv Hin.
  induction Hbs as [|b bs Hb _ IH]; intros cs cur Hmk Hlv Hin Hw; simpl in Hw; [lia|]. cbn [mark_slices].
  destruct (mark_slice_live o (set_colors cs h) cur b) as (cs1 & cur1 & n & -> & Hm1 & Hl1 & Hd1 & Hw1 & HR1 & Hfin);
    [by apply set_colors_wf; [|apply (mk_length _ _ _ _ Hmk)]|by apply marking_set_colors|done|done|].
  rewrite marking_set_colors in Hm1. change (set_colors cs1 (set_colors cs h)) with (set_colors cs1 h).
  change (work h cs1 cur1 + n ≤ work h cs cur) in Hw1.
  destruct n as [|n].
  - destruct Hfin as [Hng _]; [by right|]. exists cs1, cur1. split_and!; try done. by apply HR1.
  - destruct (IH cs1 cur1 Hm1 Hl1) as (cs' & cur' & -> & ? & ? & ? & ?); [by apply HR1|lia|].
    exists cs', cur'. split_and!; try done. by etrans.
Qed.

(** Draining in one go. *)
Lemma drain_loop_spec h R cs fuel :
  heap_wf h → marking o h cs RealmMarkCursor_default → edge_closed o h R → inside R cs RealmMarkCursor_default →
  (Z.of_nat (work h cs RealmMarkCursor_default) < u64_max)%Z → work h cs RealmMarkCursor_default < fuel →
  ∃ cs' cur', drain_loop fuel o (set_colors cs h) = Some (Ret (set_colors cs' h)) ∧
    marking o h cs' cur' ∧ no_gray o h cs' ∧ inside R cs' cur' ∧ darker cs cs'.
Proof.
  intros Hwf Hmk Hcl Hin Hmax. revert cs Hmk Hin Hmax. induction fuel as [|fuel IH]; intros cs Hmk Hin Hmax Hw; [lia|].
  cbn [drain_loop]. unfold mark_owner_slice.
  destruct (mark_slice_live o (set_colors cs h) RealmMarkCursor_default u64_max)
    as (cs1 & cur1 & n & -> & Hm1 & _ & Hd1 & Hw1 & HR1 & Hfin);
    [by apply set_colors_wf; [|apply (mk_length _ _ _ _ Hmk)]|by apply marking_set_colors|by intros ? ?|done|].
  rewrite marking_set_colors in Hm1. change (set_colors cs1 (set_colors cs h)) with (set_colors cs1 h).
  change (work h cs1 cur1 + n ≤ work h cs RealmMarkCursor_default) in Hw1.
  destruct Hfin as [Hng Ec]; [by left|]. apply HR1 in Hin; [|done].
  destruct n as [|n].
  - exists cs1, cur1. by split_and!.
  - assert (work h cs1 cur1 = work h cs1 RealmMarkCursor_default) as Ew by by apply work_object.
    destruct (IH cs1) as (cs' & cur' & -> & ? & ? & ? & ?); [by eapply marking_object; [|left]| |lia|lia|].
    + destruct Hin as [? _]. split; [done|by intros ? ?].
    + exists cs', cur'. split_and!; try done. by etrans.
Qed.
(** ** The sweep in slices *)

Lemma sweep_slice_loop_spec h0 k budget fuel :
  parallel h0 → k + fuel = length (slots h0) → (0 ≤ budget)%Z →
  let k' := k + (fuel `min` Z.to_nat budget) in
  sweep_slice_loop fuel o budget (sweep_to (Some o) h0 k).1
    {| sweep_next_index := k; sweep_freed := (sweep_to (Some o) h0 k).2 |}
  = ((sweep_to (Some o) h0 k').1, {| sweep_next_index := k'; sweep_freed := (sweep_to (Some o) h0 k').2 |}).
Proof.
  intros Hp. revert k budget. induction fuel as [|fuel IH]; intros k budget Hk Hb.
  { simpl. by rewrite Nat.add_0_r. }
  cbn [sweep_slice_loop sweep_next_index sweep_freed].
  destruct (sweep_to_spec (Some o) h0 k Hp) as (_ & Hl & _); [lia|]. rewrite Hl.
  rewrite bool_decide_eq_true_2 by lia. rewrite andb_true_r. destruct (Z.ltb_spec 0 budget) as [Hpos|Hz].
  - pose proof (sweep_to_S (Some o) h0 k) as HS.
    rewrite <-(surjective_pairing (sweep_to (Some o) h0 k)), <-HS. destruct (sweep_to (Some o) h0 (S k)) as [h1 n1] eqn:E1.
    specialize (IH (S k) (budget - 1)%Z). rewrite E1 in IH. cbn [fst snd] in IH. rewrite IH by lia.
    replace (S k + fuel `min` Z.to_nat (budget - 1)) with (k + S fuel `min` Z.to_nat budget) by lia. done.
  - replace (Z.to_nat budget) with 0 by lia. by rewrite Nat.min_0_r, Nat.add_0_r.
Qed.

Lemma sweep_slice_spec h0 rss k budget :
  parallel h0 → k ≤ length (slots h0) → (0 ≤ budget)%Z →
  let k' := length (slots h0) `min` (k + Z.to_nat budget) in
  let h' := (sweep_to (Some o) h0 k').1 in
  sweep_marked_realm_slice o rss budget (sweep_to (Some o) h0 k).1
    {| sweep_next_index := k; sweep_freed := (sweep_to (Some o) h0 k).2 |}
  = (if bool_decide (k' < length (slots h0)) then h' else adapt_threshold_after_sweep rss (set_alloc_count 0 h'),
     {| sweep_next_index := k'; sweep_freed := (sweep_to (Some o) h0 k').2 |},
     negb (bool_decide (k' < length (slots h0)))).
Proof.
  intros Hp Hk Hb. unfold sweep_marked_realm_slice. cbn [sweep_next_index].
  destruct (sweep_to_spec (Some o) h0 k Hp Hk) as (_ & Hl & _).
  rewrite Hl, sweep_slice_loop_spec by (done || lia). cbn [sweep_next_index].
  replace (k + (length (slots h0) - k) `min` Z.to_nat budget) with (length (slots h0) `min` (k + Z.to_nat budget)) by lia.
  destruct (sweep_to_spec (Some o) h0 (length (slots h0) `min` (k + Z.to_nat budget)) Hp) as (_ & Hl' & _); [lia|].
  rewrite Hl'. by case_bool_decide.
Qed.

(** What the sweep of [collect_realm] makes of a marked heap. *)
Definition swept (rss : Z) h0 : Heap T * nat :=
  let '(h1, freed) := sweep (Some o) h0 in (adapt_threshold_after_sweep rss (set_alloc_count 0 h1), freed).

(** Slices of sweeping with the budgets of a list, until one reports the end. *)
Fixpoint sweep_slices (rss : Z) (budgets : list Z) h (st : RealmSweepState) : option (Heap T * nat) :=
  match budgets with
  | [] => None
  | b :: bs =>
      match sweep_marked_realm_slice o rss b h st with
      | (h, st, true) => Some (h, sweep_freed st)
      | (h, st, false) => sweep_slices rss bs h st
      end
  end.

Lemma sweep_slices_spec h0 rss budgets k :
  parallel h0 → k ≤ length (slots h0) → Forall (λ b, 0 < b)%Z budgets → length (slots h0) - k < length budgets →
  sweep_slices rss budgets (sweep_to (Some o) h0 k).1
    {| sweep_next_index := k; sweep_freed := (sweep_to (Some o) h0 k).2 |} = Some (swept rss h0).
Proof.
  intros Hp Hk Hbs. revert k Hk. induction Hbs as [|b bs Hb _ IH]; intros k Hk Hlen; simpl in Hlen; [lia|].
  cbn [sweep_slices]. rewrite sweep_slice_spec by (done || lia).
  case_bool_decide as E; simpl; [apply IH; lia|].
  replace (length (slots h0) `min` (k + Z.to_nat b)) with (length (slots h0)) by lia.
  unfold swept. change (sweep (Some o) h0) with (sweep_to (Some o) h0 (length (slots h0))).
  by destruct (sweep_to (Some o) h0 (length (slots h0))).
Qed.

Lemma sweep_marked_loop_slices rss fuel h st :
  sweep_marked_loop fuel o rss h st = sweep_slices rss (replicate fuel u64_max) h st.
Proof.
  revert h st. induction fuel as [|fuel IH]; intros h st; [done|]. simpl.
  destruct (sweep_marked_realm_slice o rss u64_max h st) as [[h' st'] []]; [done|]. apply IH.
Qed.

Lemma sweep_marked_realm_spec h0 rss : parallel h0 → sweep_marked_realm o rss h0 = Some (swept rss h0).
Proof.
  intros Hp. unfold sweep_marked_realm. rewrite sweep_marked_loop_slices.
  apply (sweep_slices_spec h0 rss _ 0 Hp); [lia| |rewrite length_replicate; lia].
  apply Forall_replicate. done.
Qed.

(** ** Incremental collection *)

(** Marking and sweeping in slices with the given budgets. *)
Definition incremental_collect (rss : Z) (roots : list ObjectId) (mark_budgets sweep_budgets : list Z) h :
    option (outcome (Heap T * nat)) :=
  match mark_slices mark_budgets RealmMarkCursor_default (begin_mark_realm o roots h) with
  | Some (Ret (h, true)) => Ret <$> sweep_slices rss sweep_budgets h RealmSweepState_default
  | Some Panic => Some Panic
  | _ => None
  end.

(** The same in one go. *)
Definition drained_collect (rss : Z) (roots : list ObjectId) h : option (outcome (Heap T * nat)) :=
  match drain_mark_realm o (begin_mark_realm o roots h) with
  | Some (Ret h) => Ret <$> sweep_marked_realm o rss h
  | Some Panic => Some Panic
  | None => None
  end.

Lemma swept_collect_realm rss roots h cs :
  mark_all (Some o) h roots [] = (cs, []) → swept rss (set_colors cs h) = collect_realm o rss roots h.
Proof.
  intros E. unfold swept, collect_realm, collect_realm_with_ephemerons, collect_in. by rewrite E.
Qed.

End Realm.

(** C3: collecting a realm in slices is collecting it at once.  From a well-formed
    heap, [begin_mark_realm], slices of marking with any positive budgets until one
    finds nothing to do, and slices of sweeping with any positive budgets until one
    reports the end, give the heap and the count of [collect_realm], provided the
    lists of budgets are long enough; one slice for each slot and edge (and two
    more) always is.  No slice panics and each returns.  The same holds of
    [drain_mark_realm] and [sweep_marked_realm]. *)
Theorem incremental_is_collect_realm {T} `{SlicedTrace T} o rss roots mark_budgets sweep_budgets (h : Heap T) :
  heap_wf h → Forall (λ b, 0 < b)%Z mark_budgets → Forall (λ b, 0 < b)%Z sweep_budgets →
  mark_fuel h ≤ length mark_budgets → length (slots h) < length sweep_budgets →
  (Z.of_nat (mark_fuel h) ≤ u64_max)%Z →
  incremental_collect o rss roots mark_budgets sweep_budgets h = Some (Ret (collect_realm o rss roots h)) ∧
  drained_collect o rss roots h = Some (Ret (collect_realm o rss roots h)).
Proof.
  intros Hwf Hmb Hsb Hml Hsl Hmax. destruct (begin_mark_spec o roots h Hwf) as (Hmk & Hwf1 & Hroots & Hin).
  pose proof (work_bound h (colors (begin_mark_realm o roots h)) RealmMarkCursor_default) as Hw.
  pose proof (reach_edge_closed o roots h) as Hcl.
  assert (∀ cs cur, marking o h cs cur → no_gray o h cs → inside (reach (Some o) h roots []) cs cur →
    darker (colors (begin_mark_realm o roots h)) cs →
    parallel (set_colors cs h) ∧ swept o rss (set_colors cs h) = collect_realm o rss roots h) as Hend.
  { intros cs cur Hm Hng Hi Hd. split; [apply wf_parallel, set_colors_wf; [done|apply (mk_length _ _ _ _ Hm)]|].
    apply swept_collect_realm. eapply marked_colors; try done. intros r Hr Hmr. by apply Hd, Hroots. }
  split.
  - unfold incremental_collect.
    destruct (mark_slices_spec o h _ mark_budgets _ _ Hwf Hmk ltac:(by intros ? ?) Hcl Hin Hmb)
      as (cs & cur & E & Hm & Hng & Hi & Hd); [lia|].
    change (begin_mark_realm o roots h) with (set_colors (colors (begin_mark_realm o roots h)) h). rewrite E.
    destruct (Hend cs cur Hm Hng Hi Hd) as [Hp <-].
    pose proof (sweep_slices_spec o (set_colors cs h) rss sweep_budgets 0 Hp) as Hs.
    cbn [sweep_to foldl seq fst snd] in Hs. unfold RealmSweepState_default.
    rewrite Hs; [done|lia|done|simpl; lia].
  - unfold drained_collect, drain_mark_realm.
    destruct (drain_loop_spec o h _ _ (mark_fuel h) Hwf Hmk Hcl Hin) as (cs & cur & E & Hm & Hng & Hi & Hd); [lia..|].
    change (mark_fuel (begin_mark_realm o roots h)) with (mark_fuel h).
    change (begin_mark_realm o roots h) with (set_colors (colors (begin_mark_realm o roots h)) h). rewrite E.
    destruct (Hend cs cur Hm Hng Hi Hd) as [Hp <-]. by rewrite sweep_marked_realm_spec.
Qed.

(** ** Objects that trace in slices *)

(** The trait's default. *)
#[export] Instance Node_sliced : SlicedTrace Node.
Proof.
  refine {| trace_from := λ (v : Node) start, if decide (start = 0) then v else []; trace_from_0 := _ |}.
  - done.
  - intros v start. case_decide; [done|]. apply suffix_nil.
  - intros v start budget Hb. simpl. unfold default_trace_slice. rewrite (proj2 (Z.ltb_lt _ _) Hb), andb_true_r.
    case_bool_decide; simpl; [rewrite decide_True, app_nil_r by done|rewrite decide_False by done]; done.
Defined.

(** [SlicedNode]: a slice is a range of the references. *)
Record SlicedNode := MkSliced { sliced_edges : list ObjectId }.

Definition SlicedNode_trace_slice (n : SlicedNode) (start : nat) (budget : Z) : list ObjectId * TraceSlice :=
  let len := length (sliced_edges n) in
  let end_ := Z.to_nat (Z.min (Z.of_nat start + budget) (Z.of_nat len)) in
  (take (end_ - start) (drop start (sliced_edges n)),
   {| next_index := end_; complete := bool_decide (end_ = len) |}).

#[export] Instance SlicedNode_trace : Trace SlicedNode := {|
  trace := sliced_edges; trace_slice := SlicedNode_trace_slice |}.

#[export] Instance SlicedNode_sliced : SlicedTrace SlicedNode.
Proof.
  refine {| trace_from := λ n start, drop start (sliced_edges n); trace_from_0 := _ |}.
  - done.
  - intros n start. simpl. exists (take start (sliced_edges n)). by rewrite take_drop.
  - intros n start budget Hb. simpl. unfold SlicedNode_trace_slice. simpl.
    set (l := sliced_edges n). case_bool_decide as E.
    + rewrite E. split; [|done]. rewrite app_nil_r, take_ge; [done|]. rewrite length_drop. lia.
    + set (e := Z.to_nat _) in *. assert (e = start + Z.to_nat budget ∧ e < length l) as [He Hlt] by lia. split.
      * replace e with (start + (e - start)) at 2 by lia. by rewrite <-drop_drop, take_drop.
      * intros _ Hnil. apply (f_equal length) in Hnil. rewrite length_take, length_drop in Hnil. simpl in Hnil. lia.
Defined.

(** Realm 7: slots 0 to 2 are leaves, slot 3 refers to them, slot 4 is garbage. *)
Definition wide_heap : Heap SlicedNode :=
  set_generations (replicate 5 0%Z) (set_owners (replicate 5 7%Z) (set_colors (replicate 5 White)
    (set_slots [Object (MkSliced []); Object (MkSliced []); Object (MkSliced []);
                Object (MkSliced [MkId 0; MkId 1; MkId 2]); Object (MkSliced [MkId 4])]
       (Heap_with_slot_reuse true 0 67108864 4000)))).

Lemma wide_heap_wf : heap_wf wide_heap.
Proof.
  split; try reflexivity; [vm_compute; discriminate| |constructor|intros i Hi; inversion Hi].
  intros i g [-> _]%lookup_replicate. rewrite max_generation_val. lia.
Qed.

Lemma incremental_is_collect_realm_witness :
  incremental_collect 7 0 [MkId 3] (replicate 20 2%Z) (replicate 6 1%Z) wide_heap
  = Some (Ret (collect_realm 7 0 [MkId 3] wide_heap)).
Proof.
  apply (incremental_is_collect_realm 7 0 [MkId 3] (replicate 20 2%Z) (replicate 6 1%Z) wide_heap wide_heap_wf);
    try (apply Forall_replicate; done); vm_compute; try discriminate; lia.
Defined.

(** [mark_owner_slice] keeps no cursor between calls.  With a budget smaller than
    the number of references of an object, repeated calls end up in a state in which
    each of them traces the same first references, reports progress, and changes
    nothing, while a reachable object is still white. *)
Lemma mark_owner_slice_stalls :
  ∃ h1 h2, mark_owner_slice 7 2 (begin_mark_realm 7 [MkId 3] wide_heap) = Some (Ret (h1, 1)) ∧
    mark_owner_slice 7 2 h1 = Some (Ret (h2, 2)) ∧ mark_owner_slice 7 2 h2 = Some (Ret (h2, 1)) ∧
    color_at h2 2 = White ∧ reach (Some 7%Z) wide_heap [MkId 3] [] 2.
Proof.
  eexists _, _. split_and!; [vm_compute; reflexivity..|].
  apply (reach_edge _ _ _ _ 3 (MkId 2)); [|right; right; left|reflexivity].
  apply (reach_root _ _ _ _ (MkId 3)); [left|reflexivity].
Qed.
