(* ===== verification/GcMutator.v ===== *)
(** * GcMutator: a mutator between the slices

    Between two slices of marking the program goes on: it allocates, writes
    references and drops objects.  [mutator_step] lists what it may do in the realm
    being marked: it enqueues the references it writes ([enqueue_mark_owner], the
    write barrier) and preserves what it allocates
    ([preserve_new_owner_allocation]).  The invariant [marking] of
    [GcIncrementalTheory] holds along every such run, so when a slice finds nothing
    left to do, what is reachable then survives the sweep. *)

From S2P Require Import Prelude Gc GcHandles GcCollect GcSweep GcSafety GcIncremental GcIncrementalTheory.

Section Mutator.
Context {T : Type} `{SlicedTrace T} (o : Z).
Implicit Types (h : Heap T) (id : ObjectId) (i j : nat) (cur : RealmMarkCursor).

(** Enqueuing the references in [es], one after the other. *)
Definition barrier (es : list ObjectId) h : Heap T := foldl (λ h e, enqueue_mark_owner o e h) h es.

Inductive mutator_step : Heap T * RealmMarkCursor → Heap T * RealmMarkCursor → Prop :=
| mutator_slice h cur budget h' cur' n :
    (0 < budget)%Z → mark_owner_slice_with_cursor o budget cur h = Some (Ret (h', cur', n)) →
    mutator_step (h, cur) (h', cur')
| mutator_enqueue h cur id : mutator_step (h, cur) (enqueue_mark_owner o id h, cur)
| mutator_write h cur f id :
    let h' := Heap_modify f id h in
    mutator_step (h, cur) (barrier (out_edges h' (slot_index id)) h', cur)
| mutator_alloc h cur v h' id :
    ¬ at_capacity h → alloc_with_owner v o h = Ret (h', id) →
    mutator_step (h, cur) (barrier (trace v) (preserve_new_owner_allocation o id h').1, cur)
| mutator_alloc_other h cur v o' h' id :
    o' ≠ o → ¬ at_capacity h → alloc_with_owner v o' h = Ret (h', id) → mutator_step (h, cur) (h', cur)
| mutator_free h cur id : issued h id → mutator_step (h, cur) (Heap_free id h, cur).

(** ** The invariant, cell by cell *)

Lemma nonwhite_color h j : nonwhite (colors h) j ↔ color_at h j ≠ White.
Proof. unfold nonwhite, color_at. destruct (colors h !! j); naive_solver. Qed.

Lemma black_color h j : colors h !! j = Some Black ↔ color_at h j = Black.
Proof. unfold color_at. destruct (colors h !! j); naive_solver. Qed.

Lemma markable_cell h id :
  parallel h →
  markable (Some o) h id = true ↔
  slot_at h (slot_index id) ≠ Free ∧ owner_at h (slot_index id) = o ∧
  generation_at h (slot_index id) = generation id.
Proof.
  intros (_ & _ & Hg). unfold markable, slot_at, generation_at, generation_matches. simpl.
  rewrite !andb_true_iff, bool_decide_eq_true, Z.eqb_eq, negb_true_iff.
  destruct (decide (slot_index id < length (slots h))) as [Hi|Hi].
  - destruct (lookup_lt_is_Some_2 (slots h) (slot_index id) Hi) as [s ->].
    destruct (lookup_lt_is_Some_2 (generations h) (slot_index id)) as [g ->]; [lia|].
    rewrite Z.eqb_eq. simpl. destruct s; naive_solver.
  - rewrite (lookup_ge_None_2 (slots h)) by lia. naive_solver.
Qed.

Lemma cell_eq_fields h h' j :
  cell_at h' j = cell_at h j →
  slot_at h' j = slot_at h j ∧ color_at h' j = color_at h j ∧ owner_at h' j = owner_at h j ∧
  generation_at h' j = generation_at h j.
Proof. unfold cell_at. by intros [= ? ? ? ?]. Qed.

(** The invariant but for the references out of slot [i]. *)
Definition marking_but i h cur : Prop :=
  length (colors h) = length (slots h) ∧ black_closed_but (Some o) h (λ j, j = i) (colors h) ∧
  ∀ id start, cursor_object cur = Some (id, start) → slot_index id ≠ i → pending o h (colors h) id start.

(** A change of slot [i] alone, when a reference to it leads to a coloured object,
    or to the object that was there. *)
Lemma marking_change i h h' cur :
  parallel h → parallel h' → (∀ j, j ≠ i → cell_at h' j = cell_at h j) →
  (∀ e, markable (Some o) h' e = true → slot_index e = i →
     color_at h' i ≠ White ∨ markable (Some o) h e = true ∧ color_at h' i = color_at h i) →
  marking o h (colors h) cur → marking_but i h' cur.
Proof.
  intros Hp Hp' Hcell Hi [Hl Hb Hc].
  assert (∀ e, markable (Some o) h' e = true → nonwhite (colors h') (slot_index e) ∨
    markable (Some o) h e = true ∧ (nonwhite (colors h) (slot_index e) → nonwhite (colors h') (slot_index e))) as He.
  { intros e Hm. rewrite !nonwhite_color. destruct (decide (slot_index e = i)) as [E|E].
    - destruct (Hi e Hm E) as [?|[? Ec]]; [left; by rewrite E|right]. by rewrite E, Ec.
    - right. apply Hcell in E. apply cell_eq_fields in E as (Es & -> & Eo & Eg).
      rewrite markable_cell in Hm |- * by done. by rewrite Es, Eo, Eg in Hm. }
  assert (∀ j, j ≠ i → out_edges h' j = out_edges h j ∧ (colors h' !! j = Some Black ↔ colors h !! j = Some Black)) as Hj.
  { intros j [Es [Ec _]]%Hcell%cell_eq_fields. unfold out_edges. by rewrite Es, !black_color, Ec. }
  split_and!; [apply Hp'| |].
  - intros j e Hne Hbl Hin Hm. destruct (Hj j Hne) as [E1 E2]. rewrite E1 in Hin. apply E2 in Hbl.
    destruct (He e Hm) as [?|[Hm' Hn]]; [done|]. apply Hn, (Hb j e); try done. tauto.
  - intros id start Ec Hne Hm Hnb e Hin Hme. destruct (Hj _ Hne) as [E1 E2]. rewrite E1 in Hin.
    destruct (cell_eq_fields h h' _ (Hcell _ Hne)) as (Es & _ & Eo & Eg).
    assert (markable (Some o) h id = true) as Hm0.
    { change (markable (Some o) h' id = true) in Hm. rewrite markable_cell in Hm |- * by done. by rewrite Es, Eo, Eg in Hm. }
    destruct (He e Hme) as [?|[Hme' Hn]]; [by left|].
    destruct (Hc id start Ec Hm0 ltac:(by rewrite <-E2) e Hin Hme') as [?|Hr]; [left; auto|right].
    unfold edges_from in *. by rewrite Es.
Qed.

(** Closing the gap. *)
Lemma marking_close i h cur :
  marking_but i h cur →
  (color_at h i = Black ∨ (∃ id start, cursor_object cur = Some (id, start) ∧ slot_index id = i ∧ markable (Some o) h id = true) →
   ∀ e, e ∈ out_edges h i → markable (Some o) h e = true → nonwhite (colors h) (slot_index e)) →
  marking o h (colors h) cur.
Proof.
  intros (Hl & Hb & Hc) Hi. split; [done| |].
  - intros j e _ Hbl Hin Hm. destruct (decide (j = i)) as [->|Hne]; [|by apply (Hb j e)].
    apply Hi; [left; by apply black_color|done..].
  - intros id start Ec. destruct (decide (slot_index id = i)) as [<-|Hne]; [|by apply Hc].
    intros Hm _ e Hin Hme. left. apply Hi; [right; by exists id, start|done..].
Qed.

(** ** The operations *)

Lemma set_colors_id h : set_colors (colors h) h = h.
Proof. by destruct h. Qed.

Lemma enqueue_gray id h :
  length (colors h) = length (slots h) → enqueue_mark_owner o id h = set_colors (gray_edge o h (colors h) id) h.
Proof.
  intros Hl. unfold enqueue_mark_owner, gray_edge. destruct (markable (Some o) h id) eqn:Hm; simpl; [|by rewrite set_colors_id].
  apply markable_bound in Hm. rewrite <-Hl in Hm. destruct (lookup_lt_is_Some_2 _ _ Hm) as [c Hc].
  unfold color_at, is_white. rewrite Hc. simpl. destruct c; simpl; [done| |by rewrite set_colors_id].
  by rewrite (list_insert_id _ _ _ Hc), set_colors_id.
Qed.

Lemma barrier_gray es h :
  length (colors h) = length (slots h) → barrier es h = set_colors (foldl (gray_edge o h) (colors h) es) h.
Proof.
  revert h. induction es as [|e es IH]; intros h Hl; [simpl; by rewrite set_colors_id|]. simpl.
  rewrite enqueue_gray by done. rewrite IH by (simpl; by rewrite gray_edge_length). done.
Qed.

(** The barrier restores the invariant at the slot whose references it enqueues. *)
Lemma barrier_marking i es h cur :
  heap_wf h → marking_but i h cur → (∀ e, e ∈ out_edges h i → e ∈ es) →
  heap_wf (barrier es h) ∧ marking o (barrier es h) (colors (barrier es h)) cur.
Proof.
  intros Hwf (Hl & Hb & Hc) Hes. rewrite barrier_gray by done.
  destruct (gray_edges o h es (colors h) Hl) as (Hd & Hbl & Hm & _). set (cs := foldl _ _ es) in *.
  split; [apply set_colors_wf; [done|]; by rewrite (proj1 Hd)|].
  apply (marking_close i); [split_and!; simpl|].
  - by rewrite (proj1 Hd).
  - intros j e Hne Hj Hin Hme. apply Hd. apply Hbl in Hj. by apply (Hb j e).
  - intros id start Ec Hne Hmi Hnb e Hin Hme.
    destruct (Hc id start Ec Hne Hmi ltac:(by rewrite <-Hbl) e Hin Hme) as [?|?]; [left; by apply Hd|by right].
  - intros _ e Hin Hme. apply Hm; [by apply Hes|done].
Qed.

Lemma marking_but_any i h cur : marking o h (colors h) cur → marking_but i h cur.
Proof. intros [Hl Hb Hc]. split_and!; [done| |auto]. intros j e _ Hj Hin Hm. apply (Hb j e); try done. tauto. Qed.

Lemma modify_cells f id h j :
  j ≠ slot_index id → cell_at (Heap_modify f id h) j = cell_at h j.
Proof.
  intros Hne. unfold Heap_modify. destruct (negb _); [done|].
  destruct (slots h !! slot_index id) as [[]|]; try done.
  unfold cell_at, slot_at. simpl. by rewrite list_lookup_insert_ne.
Qed.

Lemma modify_own f id h :
  let h' := Heap_modify f id h in
  (slot_at h' (slot_index id) = Free ↔ slot_at h (slot_index id) = Free) ∧
  colors h' = colors h ∧ owners h' = owners h ∧ generations h' = generations h.
Proof.
  unfold Heap_modify. destruct (negb _); [done|].
  destruct (slots h !! slot_index id) as [[]|] eqn:E; try done.
  split; [|done]. unfold slot_at. simpl.
  rewrite list_lookup_insert_eq by (by eapply lookup_lt_Some). by rewrite E.
Qed.
Lemma default_app_ne {A} (d x : A) (l : list A) n j :
  length l = n → j ≠ n → default d ((l ++ [x]) !! j) = default d (l !! j).
Proof.
  intros Hl Hne. destruct (decide (j < n)) as [Hj|Hj]; [by rewrite lookup_app_l by lia|].
  rewrite !lookup_ge_None_2; [done|lia|rewrite length_app; simpl; lia].
Qed.

Lemma allocated_cells h h' s o' id j :
  heap_wf h → allocated h h' s o' id → j ≠ slot_index id → cell_at h' j = cell_at h j.
Proof.
  intros [Wc Wo Wg _ _ _ _] (Hw & _) Hne. unfold cell_at, slot_at, color_at, owner_at, generation_at.
  destruct Hw as [(_ & Es & Eg & _ & _ & [? Ec] & [? Eo])|(Hi & (Es & Eg & _ & [? Ec] & [? Eo]) & _)];
    rewrite Es, Eg, Ec, Eo.
  - by rewrite !list_lookup_insert_ne.
  - rewrite !(default_app_ne _ _ _ (length (slots h))) by congruence. done.
Qed.

(** The cells after a free. *)
Lemma free_cells h id j :
  parallel h →
  (j ≠ slot_index id → cell_at (Heap_free id h) j = cell_at h j) ∧
  (Heap_free id h = h ∨ slot_at (Heap_free id h) (slot_index id) = Free ∧ color_at (Heap_free id h) (slot_index id) = White).
Proof.
  intros (Pc & Po & Pg). unfold Heap_free. destruct (_ && _) eqn:E; [|by auto].
  apply andb_true_iff in E as [_ Hi%bool_decide_eq_true].
  unfold cell_at, slot_at, color_at, owner_at.
  rewrite retire_slots, retire_colors, retire_owners. unfold write_slot. simpl. split.
  - intros Hne. rewrite retire_generation_at, decide_False by (simpl; lia || done).
    by rewrite !list_lookup_insert_ne.
  - right. rewrite !list_lookup_insert_eq by lia. done.
Qed.

Lemma free_slot_marking h i cur :
  slot_at h i = Free → color_at h i = White → parallel h → marking_but i h cur → marking o h (colors h) cur.
Proof.
  intros Hs Hc Hp Hm. apply (marking_close i); [done|]. intros [E|(id & start & _ & <- & Hmk)]; [congruence|].
  apply (proj1 (markable_cell _ _ Hp)) in Hmk as [Hne _]. by destruct (Hne Hs).
Qed.

Lemma write_inv f id h cur :
  heap_wf h → marking o h (colors h) cur →
  let h' := Heap_modify f id h in
  let h'' := barrier (out_edges h' (slot_index id)) h' in
  heap_wf h'' ∧ marking o h'' (colors h'') cur.
Proof.
  intros Hwf Hmk h' h''. destruct (Heap_modify_safe h f id Hwf) as [Hwf' _]. fold h' in Hwf'.
  apply (barrier_marking (slot_index id)); [done| |done].
  apply (marking_change _ h); [by apply wf_parallel..| | |done].
  - intros j Hj. by apply modify_cells.
  - intros e Hm Ei. right. destruct (modify_own f id h) as (Es & Ec & Eo & Eg). fold h' in Es, Ec, Eo, Eg.
    rewrite markable_cell in Hm |- * by (by apply wf_parallel). unfold owner_at, generation_at, color_at in *.
    rewrite Ei, Eo, Eg in Hm. rewrite Ei, Ec. rewrite Es in Hm. done.
Qed.

Lemma alloc_inv v id h h' cur :
  heap_wf h → marking o h (colors h) cur → allocated h h' (Object v) o id →
  let h1 := (preserve_new_owner_allocation o id h').1 in
  let h'' := barrier (trace v) h1 in
  heap_wf h'' ∧ marking o h'' (colors h'') cur.
Proof.
  intros Hwf Hmk Ha. pose proof (allocated_wf h h' _ _ _ Hwf Ha) as Hwf'.
  pose proof Ha as (_ & Hg & Hs & Ho & Hc). unfold preserve_new_owner_allocation.
  rewrite (proj2 (generation_matches_true _ _ _) Hg), Hs. simpl. rewrite bool_decide_eq_true_2 by done. simpl.
  set (h1 := set_colors (<[slot_index id := Black]> (colors h')) h').
  assert (heap_wf h1) as Hwf1 by (apply set_colors_wf; [done|]; rewrite length_insert; apply Hwf').
  assert (slot_index id < length (colors h')) as Hlt by (by eapply lookup_lt_Some).
  apply (barrier_marking (slot_index id)); [done| |].
  - apply (marking_change _ h); [by apply wf_parallel..| | |done].
    + intros j Hj. rewrite <-(allocated_cells h h' _ _ _ j Hwf Ha Hj). unfold cell_at, color_at, h1. simpl.
      by rewrite list_lookup_insert_ne.
    + intros e _ _. left. unfold color_at, h1. simpl. by rewrite list_lookup_insert_eq.
  - intros e. unfold out_edges, slot_at, h1. simpl. by rewrite Hs.
Qed.

Lemma alloc_other_inv s o' id h h' cur :
  o' ≠ o → heap_wf h → marking o h (colors h) cur → allocated h h' s o' id →
  heap_wf h' ∧ marking o h' (colors h') cur.
Proof.
  intros Hne Hwf Hmk Ha. pose proof (allocated_wf h h' _ _ _ Hwf Ha) as Hwf'. split; [done|].
  pose proof Ha as (_ & Hg & Hs & Ho & Hc).
  assert (∀ e, markable (Some o) h' e = true → slot_index e = slot_index id → False) as Hno.
  { intros e [_ [Eo _]]%markable_cell E; [|by apply wf_parallel]. rewrite E in Eo. unfold owner_at in Eo.
    rewrite Ho in Eo. done. }
  apply (marking_close (slot_index id)).
  - apply (marking_change _ h); [by apply wf_parallel..| | |done].
    + intros j Hj. by eapply allocated_cells.
    + intros e Hm E. by destruct (Hno e Hm E).
  - intros [Hb|(id' & start & _ & E & Hm)]; [|by destruct (Hno id' Hm E)].
    unfold color_at in Hb. rewrite Hc in Hb. done.
Qed.

Lemma free_inv id h cur :
  heap_wf h → marking o h (colors h) cur → issued h id →
  heap_wf (Heap_free id h) ∧ marking o (Heap_free id h) (colors (Heap_free id h)) cur.
Proof.
  intros Hwf Hmk Hi. destruct (heap_step_safe h (Heap_free id h) Hwf) as [Hwf' _]; [by constructor|]. split; [done|].
  pose proof (wf_parallel h Hwf) as Hp. destruct (free_cells h id 0 Hp) as [_ [->|[Hs Hc]]]; [done|].
  apply (free_slot_marking _ (slot_index id)); [done..|by apply wf_parallel|].
  apply (marking_change _ h); [done|by apply wf_parallel| | |done].
  - intros j Hj. by apply free_cells.
  - intros e Hm E. apply markable_cell in Hm as [Hne _]; [|by apply wf_parallel]. by rewrite E in Hne.
Qed.

Lemma mutator_step_inv st st' :
  mutator_step st st' → heap_wf st.1 → marking o st.1 (colors st.1) st.2 →
  heap_wf st'.1 ∧ marking o st'.1 (colors st'.1) st'.2.
Proof.
  destruct 1 as [h cur b h' cur' n Hb E|h cur id|h cur f id h'|h cur v h' id Hc E|h cur v o' h' id Hne Hc E|h cur id Hi];
    simpl; intros Hwf Hmk.
  - destruct (mark_slice_total o h cur b Hwf Hmk Hb) as (cs & cur1 & n1 & E1 & Hm1 & _). rewrite E in E1. simplify_eq.
    split; [apply set_colors_wf; [done|apply (mk_length _ _ _ _ Hm1)]|]. by apply marking_set_colors.
  - apply (barrier_marking (length (slots h)) [id] h); [done|by apply marking_but_any|].
    unfold out_edges, slot_at. rewrite lookup_ge_None_2 by lia. simpl. by intros ? ?%elem_of_nil.
  - by apply write_inv.
  - destruct (alloc_with_owner_spec h v o Hwf Hc) as (h1 & id1 & E1 & Ha). rewrite E in E1. simplify_eq.
    by eapply alloc_inv.
  - destruct (alloc_with_owner_spec h v o' Hwf Hc) as (h1 & id1 & E1 & Ha). rewrite E in E1. simplify_eq.
    by eapply alloc_other_inv.
  - by apply free_inv.
Qed.

(** ** What the sweep keeps *)

Lemma sweep_marked_keeps rss h :
  heap_wf h →
  ∃ h' n, sweep_marked_realm o rss h = Some (h', n) ∧ heap_wf h' ∧
    ∀ id, live h id → color_at h (slot_index id) ≠ White ∨ Heap_owner h id ≠ Some o →
      live h' id ∧ Heap_get h' id = Heap_get h id.
Proof.
  intros Hwf. pose proof (wf_parallel h Hwf) as Hp. rewrite sweep_marked_realm_spec by done. unfold swept.
  change (sweep (Some o) h) with (sweep_to (Some o) h (length (slots h))).
  pose proof (sweep_to_all (Some o) h Hp) as Hcell. destruct (sweep_to_safe (Some o) h (length (slots h)) Hwf) as [Hwf1 _].
  destruct (sweep_to (Some o) h (length (slots h))) as [h1 n]. cbn [fst] in *.
  eexists _, n. split; [done|]. split; [by destruct Hwf1; split|]. intros id Hl Hk.
  assert (doomed (Some o) (cell_at h (slot_index id)) = false) as Hd.
  { unfold doomed. cbn [cell_at]. change (scope_owner (Some o) (owner_at h (slot_index id))) with (in_scope (Some o) h (slot_index id)).
    destruct Hk as [Hk|Hk]; [by rewrite bool_decide_eq_false_2, andb_false_r|].
    rewrite <-(owner_in_scope h id o Hwf Hl), not_true_iff_false in Hk. by rewrite Hk. }
  pose proof (swept_fields (Some o) h h1 (slot_index id) (Hcell _)) as Hf. rewrite Hd in Hf. destruct Hf as (Hs & Hg & _).
  by destruct (live_slot_eq h h1 id (wf_parallel h1 Hwf1) Hs Hg Hl) as (? & ? & _).
Qed.
End Mutator.

(** C7: marking in slices is safe with the program running.  Start marking a realm,
    then let slices of marking with any positive budgets, writes and allocations
    that keep to the write barrier, allocations in other realms and frees follow one
    another in any order.  The heap stays well formed and every slice returns
    without a panic.  When a slice processes nothing, every live object of the
    realm reachable, at that moment, from coloured roots survives the sweep that
    follows with its value, and so does every live object of other realms. *)
Theorem incremental_marking_safe {T} `{SlicedTrace T} o rss roots (h0 h : Heap T) cur :
  heap_wf h0 → rtc (mutator_step o) (begin_mark_realm o roots h0, RealmMarkCursor_default) (h, cur) →
  heap_wf h ∧
  ∀ budget, (0 < budget)%Z → ∃ h1 cur1 n,
    mark_owner_slice_with_cursor o budget cur h = Some (Ret (h1, cur1, n)) ∧ slots h1 = slots h ∧
    (n = 0 → ∃ h2 freed, sweep_marked_realm o rss h1 = Some (h2, freed) ∧ heap_wf h2 ∧
      (∀ id, live h id → Heap_owner h id ≠ Some o → live h2 id ∧ Heap_get h2 id = Heap_get h id) ∧
      ∀ roots', (∀ r, r ∈ roots' → markable (Some o) h r = true → color_at h (slot_index r) ≠ White) →
        ∀ id, live h id → reach (Some o) h roots' [] (slot_index id) →
          live h2 id ∧ Heap_get h2 id = Heap_get h id).
Proof.
  intros Hwf0 Hrun. destruct (begin_mark_spec o roots h0 Hwf0) as (Hmk0 & Hwfb & _).
  assert (heap_wf h ∧ marking o h (colors h) cur) as [Hwf Hmk].
  { apply (rtc_ind_r (λ st, heap_wf st.1 ∧ marking o st.1 (colors st.1) st.2)) in Hrun; [done| |].
    - split; [done|]. by apply (marking_set_colors o h0).
    - intros st st' _ Hs [? ?]. by eapply mutator_step_inv. }
  split; [done|]. intros budget Hb.
  destruct (mark_slice_total o h cur budget Hwf Hmk Hb) as (cs & cur1 & n & -> & Hm1 & Hd & Hfin).
  exists (set_colors cs h), cur1, n. split_and!; [done..|]. intros Hn. destruct (Hfin Hn) as [Hng _].
  assert (heap_wf (set_colors cs h)) as Hwf1 by (apply set_colors_wf; [done|apply (mk_length _ _ _ _ Hm1)]).
  destruct (sweep_marked_keeps o rss (set_colors cs h) Hwf1) as (h2 & freed & -> & Hwf2 & Hkeep).
  exists h2, freed. split_and!; [done..| |].
  - intros id Hl Ho. by apply (Hkeep id); [|right].
  - intros roots' Hr id Hl Hreach. apply (Hkeep id); [done|left].
    assert (cs !! slot_index id = Some Black) as Hblack.
    { eapply marked_reachable; try done. intros r Hin Hm. apply Hd, nonwhite_color. by apply Hr. }
    unfold color_at. simpl. by rewrite Hblack.
Qed.

(** While realm 7 is being marked, the program makes slot 3 refer to slot 4 and
    allocates an object that refers to slot 3. *)
Lemma wide_run :
  { st | rtc (mutator_step 7) (begin_mark_realm 7 [MkId 3] wide_heap, RealmMarkCursor_default) st }.
Proof.
  eexists. eapply rtc_l; [eapply (mutator_slice 7 _ _ 2); [reflexivity|vm_compute; reflexivity]|].
  eapply rtc_l; [apply (mutator_write 7 _ _ (λ _, MkSliced [MkId 4; MkId 2]) (MkId 3))|].
  eapply rtc_l; [eapply (mutator_alloc 7 _ _ (MkSliced [MkId 3])); [|vm_compute; reflexivity]|apply rtc_refl].
  intros [_ Hfull]. vm_compute in Hfull. discriminate.
Defined.

Lemma incremental_marking_safe_witness :
  let '(h, cur) := proj1_sig wide_run in
  heap_wf h ∧ ∃ h1 cur1 n, mark_owner_slice_with_cursor 7 2 cur h = Some (Ret (h1, cur1, n)).
Proof.
  destruct wide_run as [[h cur] Hrun]. simpl.
  destruct (incremental_marking_safe 7 0 [MkId 3] wide_heap h cur wide_heap_wf Hrun) as [Hwf Hs].
  split; [exact Hwf|]. destruct (Hs 2%Z) as (h1 & cur1 & n & E & _); [reflexivity|]. exists h1, cur1, n. exact E.
Defined.
