(* ===== verification/Text.v ===== *)
(** * Text: the string operations of Rust's standard library

    [str] methods on the UTF-8 bytes of a string, beyond those of [Prelude]:
    Unicode white space, [trim], [split_whitespace], [strip_prefix], [find],
    ordering, sorting and the decimal printing of integers.  White space is the
    Unicode property, recognised on its UTF-8 encoding (one, two or three bytes). *)

From Stdlib Require String.
From Stdlib Require Import DecimalString DecimalN DecimalPos.
From S2P Require Import Prelude.

Definition code (a : char) : Z := Z.of_nat (Ascii.nat_of_ascii a).

Definition code_in (a : char) (lo hi : Z) : bool := (lo <=? code a)%Z && (code a <=? hi)%Z.

(** White space of one byte (tab to carriage return, space), of two (U+0085,
    U+00A0), of three (U+1680, U+2000 to U+200A, U+2028, U+2029, U+202F, U+205F,
    U+3000). *)
Definition ws1 (a : char) : bool := code_in a 9 13 || (code a =? 32)%Z.
Definition ws2 (a b : char) : bool :=
  (code a =? 194)%Z && ((code b =? 133)%Z || (code b =? 160)%Z).
Definition ws3 (a b c : char) : bool :=
  (code a =? 225)%Z && (code b =? 154)%Z && (code c =? 128)%Z
  || (code a =? 226)%Z && (code b =? 128)%Z
     && (code_in c 128 138 || (code c =? 168)%Z || (code c =? 169)%Z || (code c =? 175)%Z)
  || (code a =? 226)%Z && (code b =? 129)%Z && (code c =? 159)%Z
  || (code a =? 227)%Z && (code b =? 128)%Z && (code c =? 128)%Z.

(** Dropping leading white space, with the bytes of a character read in the order
    given by the three tests. *)
Fixpoint trim_with (w1 : char → bool) (w2 : char → char → bool) (w3 : char → char → char → bool)
    (s : string) : string :=
  match s with
  | EmptyString => EmptyString
  | String a s1 =>
      if w1 a then trim_with w1 w2 w3 s1 else
      match s1 with
      | EmptyString => s
      | String b s2 =>
          if w2 a b then trim_with w1 w2 w3 s2 else
          match s2 with
          | EmptyString => s
          | String c s3 => if w3 a b c then trim_with w1 w2 w3 s3 else s
          end
      end
  end.

Definition srev (s : string) : string :=
  String.string_of_list_ascii (rev (String.list_ascii_of_string s)).

Definition trim_start (s : string) : string := trim_with ws1 ws2 ws3 s.
Definition trim_end (s : string) : string :=
  srev (trim_with ws1 (λ b a, ws2 a b) (λ c b a, ws3 a b c) (srev s)).
Definition trim (s : string) : string := trim_end (trim_start s).

(** [str::contains(char::is_whitespace)]. *)
Fixpoint has_whitespace (s : string) : bool :=
  match s with
  | EmptyString => false
  | String a s1 =>
      ws1 a ||
      match s1 with
      | String b s2 => ws2 a b || match s2 with String c _ => ws3 a b c | EmptyString => false end
      | EmptyString => false
      end || has_whitespace s1
  end.

(** Putting a byte in front of the first piece. *)
Definition push_front (a : char) (ws : list string) : list string :=
  match ws with [] => [String a EmptyString] | w :: ws' => String a w :: ws' end.

Fixpoint split_ws (s : string) : list string :=
  match s with
  | EmptyString => [EmptyString]
  | String a s1 =>
      if ws1 a then EmptyString :: split_ws s1 else
      match s1 with
      | EmptyString => push_front a (split_ws s1)
      | String b s2 =>
          if ws2 a b then EmptyString :: split_ws s2 else
          match s2 with
          | EmptyString => push_front a (split_ws s1)
          | String c s3 => if ws3 a b c then EmptyString :: split_ws s3 else push_front a (split_ws s1)
          end
      end
  end.

Definition split_whitespace (s : string) : list string :=
  filter (λ w, w ≠ EmptyString) (split_ws s).

(** [str::strip_prefix]. *)
Fixpoint strip_prefix (p s : string) : option string :=
  match p, s with
  | EmptyString, _ => Some s
  | String a p', String b s' => if bool_decide (a = b) then strip_prefix p' s' else None
  | _, _ => None
  end.

(** [str::find]: the byte offset of the first occurrence. *)
Fixpoint find_str (p s : string) : option nat :=
  if string_starts_with p s then Some 0
  else match s with EmptyString => None | String _ s' => S <$> find_str p s' end.

Fixpoint string_take (n : nat) (s : string) : string :=
  match n, s with
  | S n', String a s' => String a (string_take n' s')
  | _, _ => EmptyString
  end.
Fixpoint string_drop (n : nat) (s : string) : string :=
  match n, s with
  | S n', String _ s' => string_drop n' s'
  | _, _ => s
  end.

Definition string_contains (p s : string) : bool :=
  match find_str p s with Some _ => true | None => false end.

Fixpoint string_forallb (f : char → bool) (s : string) : bool :=
  match s with EmptyString => true | String a s' => f a && string_forallb f s' end.

(** [u8::is_ascii_digit]. *)
Definition is_ascii_digit (a : char) : bool := code_in a 48 57.

(** ** Comparison

    Rust's [Ordering] is [comparison]; [then_with] is a match. *)

Definition then_cmp (a b : comparison) : comparison := match a with Eq => b | _ => a end.

(** What [Ord] asks of [cmp]. *)
Class TotalCmp {A} (cmp : A → A → comparison) : Prop := {
  cmp_eq : ∀ x y, cmp x y = Eq ↔ x = y;
  cmp_opp : ∀ x y, cmp y x = CompOpp (cmp x y);
  cmp_trans : ∀ x y z, cmp x y = Lt → cmp y z = Lt → cmp x z = Lt;
}.

#[export] Instance Z_compare_total : TotalCmp Z.compare.
Proof.
  split; [apply Z.compare_eq_iff|intros; by rewrite Z.compare_antisym|].
  intros x y z. rewrite !Z.compare_lt_iff. lia.
Qed.

#[export] Instance nat_compare_total : TotalCmp Nat.compare.
Proof.
  split; [apply Nat.compare_eq_iff|intros; by rewrite Nat.compare_antisym|].
  intros x y z. rewrite !Nat.compare_lt_iff. lia.
Qed.

(** Lexicographic comparison of lists. *)
Fixpoint lex_compare {A} (cmp : A → A → comparison) (a b : list A) : comparison :=
  match a, b with
  | [], [] => Eq
  | [], _ :: _ => Lt
  | _ :: _, [] => Gt
  | x :: a', y :: b' => then_cmp (cmp x y) (lex_compare cmp a' b')
  end.

Lemma cmp_lt_gt {A} (cmp : A → A → comparison) `{!TotalCmp cmp} x y : cmp x y = Gt ↔ cmp y x = Lt.
Proof. rewrite (cmp_opp (cmp:=cmp) x y). by destruct (cmp x y). Qed.

#[export] Instance lex_compare_total {A} (cmp : A → A → comparison) `{!TotalCmp cmp} :
  TotalCmp (lex_compare cmp).
Proof.
  split.
  - induction x as [|x a IH]; intros [|y b]; simpl; try done.
    destruct (cmp x y) eqn:E; simpl.
    + apply cmp_eq in E as ->. rewrite IH. naive_solver.
    + split; [done|]. intros [= -> ->]. by rewrite (proj2 (cmp_eq (cmp:=cmp) y y) eq_refl) in E.
    + split; [done|]. intros [= -> ->]. by rewrite (proj2 (cmp_eq (cmp:=cmp) y y) eq_refl) in E.
  - induction x as [|x a IH]; intros [|y b]; simpl; try done.
    rewrite (cmp_opp (cmp:=cmp) x y), IH. by destruct (cmp x y).
  - induction x as [|x a IH]; intros [|y b] [|z c]; simpl; try done.
    destruct (cmp x y) eqn:E1; simpl; try done.
    + apply cmp_eq in E1 as ->. destruct (cmp y z); simpl; eauto.
    + intros _. destruct (cmp y z) eqn:E2; simpl; try done.
      * apply cmp_eq in E2 as <-. by rewrite E1.
      * intros _. by rewrite (cmp_trans (cmp:=cmp) x y z).
Qed.

(** A key that determines the value carries the order over. *)
Lemma total_by_key {A B} (f : A → B) (cmp : B → B → comparison) `{!TotalCmp cmp} :
  Inj (=) (=) f → TotalCmp (λ x y, cmp (f x) (f y)).
Proof.
  intros Hf. split.
  - intros x y. rewrite cmp_eq. split; [apply Hf|by intros ->].
  - intros x y. apply cmp_opp.
  - intros x y z. apply cmp_trans.
Qed.

(** [str::cmp]: bytewise. *)
Definition string_codes (s : string) : list Z := code <$> String.list_ascii_of_string s.
Definition string_compare (a b : string) : comparison :=
  lex_compare Z.compare (string_codes a) (string_codes b).

Lemma code_inj : Inj (=) (=) code.
Proof.
  intros a b H. apply Nat2Z.inj in H.
  by rewrite <-(Ascii.ascii_nat_embedding a), <-(Ascii.ascii_nat_embedding b), H.
Qed.

Lemma string_codes_inj : Inj (=) (=) string_codes.
Proof.
  intros a b H. apply list_fmap_eq_inj in H; [|exact code_inj].
  by rewrite <-(String.string_of_list_ascii_of_string a), <-(String.string_of_list_ascii_of_string b), H.
Qed.

#[export] Instance string_compare_total : TotalCmp string_compare.
Proof. exact (total_by_key string_codes (lex_compare Z.compare) string_codes_inj). Qed.

(** [Vec<String>::sort] and [dedup]: equal strings cannot be told apart, so the
    result does not depend on the sorting algorithm. *)
Fixpoint insert_sorted (x : string) (l : list string) : list string :=
  match l with
  | [] => [x]
  | y :: l' => match string_compare x y with Gt => y :: insert_sorted x l' | _ => x :: l end
  end.
Definition sort_strings (l : list string) : list string := foldr insert_sorted [] l.

Fixpoint dedup (l : list string) : list string :=
  match l with
  | [] => []
  | x :: l' => match dedup l' with
               | [] => [x]
               | y :: l'' => if bool_decide (x = y) then y :: l'' else x :: y :: l''
               end
  end.

(** ** Decimal printing *)

(** [u64::to_string]. *)
Definition u64_to_string (z : Z) : string := NilEmpty.string_of_uint (N.to_uint (Z.to_N z)).

(** ** Lemmas *)

(** A printable ASCII character: no byte of any white space. *)
Definition graphic (a : char) : bool := code_in a 33 126.

Lemma code_in_true a lo hi : code_in a lo hi = true ↔ (lo ≤ code a ≤ hi)%Z.
Proof. unfold code_in. rewrite andb_true_iff, !Z.leb_le. done. Qed.

Lemma graphic_not_ws1 a : graphic a = true → ws1 a = false.
Proof.
  unfold graphic, ws1. rewrite code_in_true. intros H. apply orb_false_iff. split; [|lia].
  apply not_true_iff_false. rewrite code_in_true. lia.
Qed.

Lemma graphic_not_ws2 a b : graphic a = true ∨ graphic b = true → ws2 a b = false.
Proof.
  unfold graphic, ws2. rewrite !code_in_true. intros H. apply andb_false_iff.
  destruct H as [H|H]; [left; lia|right]. apply orb_false_iff. lia.
Qed.

Lemma graphic_not_ws3 a b c : graphic a = true ∨ graphic c = true → ws3 a b c = false.
Proof.
  unfold graphic, ws3. rewrite !code_in_true. intros H. apply not_true_iff_false.
  rewrite !orb_true_iff, !andb_true_iff, !orb_true_iff, !Z.eqb_eq, code_in_true. lia.
Qed.

Lemma trim_with_graphic w1 w2 w3 a s :
  w1 a = false → (∀ b, w2 a b = false) → (∀ b c, w3 a b c = false) →
  trim_with w1 w2 w3 (String a s) = String a s.
Proof. intros H1 H2 H3. simpl. rewrite H1. destruct s as [|b [|c s]]; [done|..]; by rewrite ?H2, ?H3. Qed.

Lemma string_forallb_list f s :
  string_forallb f s = true ↔ ∀ a, a ∈ String.list_ascii_of_string s → f a = true.
Proof.
  induction s as [|a s IH]; simpl; [set_solver|]. rewrite andb_true_iff, IH.
  split; [intros [? ?] b [->|?]%elem_of_cons; auto|]. intros H. split; [|intros]; apply H; set_solver.
Qed.

Lemma srev_involutive s : srev (srev s) = s.
Proof.
  unfold srev. by rewrite String.list_ascii_of_string_of_list_ascii, rev_involutive,
    String.string_of_list_ascii_of_string.
Qed.

Lemma string_forallb_srev f s : string_forallb f (srev s) = string_forallb f s.
Proof.
  apply eq_bool_prop_intro. rewrite !Is_true_true, !string_forallb_list. unfold srev.
  rewrite String.list_ascii_of_string_of_list_ascii. setoid_rewrite list_elem_of_In.
  setoid_rewrite <-in_rev. done.
Qed.

(** Trimming leaves printable text alone. *)
Lemma trim_graphic s : string_forallb graphic s = true → trim s = s.
Proof.
  intros Hs. assert (trim_start s = s) as E.
  { destruct s as [|a s]; [done|]. simpl in Hs. apply andb_true_iff in Hs as [Ha _].
    apply trim_with_graphic; auto using graphic_not_ws1, graphic_not_ws2, graphic_not_ws3. }
  unfold trim, trim_end. rewrite E. rewrite <-string_forallb_srev in Hs.
  rewrite <-(srev_involutive s) at 2. f_equal. destruct (srev s) as [|a s']; [done|].
  simpl in Hs. apply andb_true_iff in Hs as [Ha _].
  apply trim_with_graphic; auto using graphic_not_ws1, graphic_not_ws2, graphic_not_ws3.
Qed.

Lemma string_forallb_app f s t : string_forallb f (s +:+ t) = string_forallb f s && string_forallb f t.
Proof. induction s as [|a s IH]; [done|]. rewrite string_app_cons. simpl. by rewrite IH, andb_assoc. Qed.

Lemma string_forallb_join f sep ws :
  string_forallb f sep = true → (∀ w, w ∈ ws → string_forallb f w = true) →
  string_forallb f (string_join sep ws) = true.
Proof.
  intros Hsep. induction ws as [|w [|w' ws] IH]; intros Hws; [done|apply Hws; set_solver|].
  rewrite string_join_cons by done. rewrite !string_forallb_app, Hsep, IH by (intros; apply Hws; set_solver).
  rewrite Hws by set_solver. done.
Qed.

Lemma string_forallb_impl (f g : char → bool) s :
  (∀ a, f a = true → g a = true) → string_forallb f s = true → string_forallb g s = true.
Proof. intros H. rewrite !string_forallb_list. eauto. Qed.

(** A string without the separator. *)
Definition no_char (c : char) (s : string) : bool := string_forallb (λ a, negb (bool_decide (a = c))) s.

Lemma split_once_none c s : no_char c s = true → split_once c s = None.
Proof.
  induction s as [|a s IH]; [done|]. unfold no_char. simpl. rewrite andb_true_iff. intros [Ha Hs].
  rewrite IH by done. by destruct (bool_decide (a = c)).
Qed.

Lemma split_once_app c s t : no_char c s = true → split_once c (s +:+ String c t) = Some (s, t).
Proof.
  induction s as [|a s IH]; unfold no_char; simpl.
  - intros _. rewrite ?string_app_nil_l. simpl. by rewrite bool_decide_eq_true_2.
  - rewrite andb_true_iff. intros [Ha Hs]. rewrite ?string_app_cons. simpl. rewrite IH by done.
    by destruct (bool_decide (a = c)).
Qed.

Lemma split_char_none c s : no_char c s = true → split_char c s = [s].
Proof.
  induction s as [|a s IH]; unfold no_char; simpl; [done|]. rewrite andb_true_iff. intros [Ha Hs].
  rewrite IH by done. by destruct (bool_decide (a = c)).
Qed.

Lemma split_char_sep_app c s t : no_char c s = true → split_char c (s +:+ String c t) = s :: split_char c t.
Proof.
  induction s as [|a s IH]; unfold no_char; simpl.
  - intros _. rewrite ?string_app_nil_l. simpl. by rewrite bool_decide_eq_true_2.
  - rewrite andb_true_iff. intros [Ha Hs]. rewrite ?string_app_cons. simpl. rewrite IH by done.
    by destruct (bool_decide (a = c)).
Qed.

(** Joining and splitting again. *)
Lemma split_char_join c ws :
  ws ≠ [] → (∀ w, w ∈ ws → no_char c w = true) → split_char c (string_join (String c EmptyString) ws) = ws.
Proof.
  induction ws as [|w [|w' ws] IH]; intros Hne Hws; [done|apply split_char_none, Hws; set_solver|].
  rewrite string_join_cons by done. rewrite string_app_cons, string_app_nil_l, split_char_sep_app by (apply Hws; set_solver).
  f_equal. apply IH; [done|]. intros; apply Hws; set_solver.
Qed.

(** Reading back a printed number. *)
Lemma digit_val_bound a v : digit_val a = Some v → (0 ≤ v ≤ 9)%Z.
Proof. unfold digit_val. destruct (_ && _) eqn:E; [|done]. intros [= <-]. lia. Qed.

Lemma of_uint_acc_ge d acc : (acc ≤ Pos.of_uint_acc d acc)%positive.
Proof.
  revert acc. induction d as [|d IH|d IH|d IH|d IH|d IH|d IH|d IH|d IH|d IH|d IH]; intros acc;
    cbn [Pos.of_uint_acc]; [lia|etrans; [|apply IH]; lia..].
Qed.

(** The digit at the head of a printed number, evaluated. *)
Ltac next_digit :=
  cbn [NilEmpty.string_of_uint parse_digits];
  match goal with |- context [digit_val ?a] =>
    let v := eval vm_compute in (digit_val a) in change (digit_val a) with v
  end; cbv zeta beta iota.

Lemma parse_digits_uint max d acc :
  (Z.pos (Pos.of_uint_acc d acc) ≤ max)%Z →
  parse_digits max (Z.pos acc) (NilEmpty.string_of_uint d) = Some (Z.pos (Pos.of_uint_acc d acc)).
Proof.
  revert acc. induction d as [|d IH|d IH|d IH|d IH|d IH|d IH|d IH|d IH|d IH|d IH]; intros acc Hle;
    cbn [Pos.of_uint_acc] in Hle |- *; [done|..].
  all: next_digit.
  all: match goal with |- context [Pos.of_uint_acc ?d ?a] =>
         pose proof (of_uint_acc_ge d a);
         match goal with |- context [(Z.pos ?acc * 10 + ?v)%Z] =>
           replace (Z.pos acc * 10 + v)%Z with (Z.pos a) by lia
         end
       end.
  all: rewrite (proj2 (Z.leb_le _ _)) by lia; by apply IH.
Qed.

Lemma parse_digits_of_uint max d :
  (Z.of_N (Pos.of_uint d) ≤ max)%Z → (0 ≤ max)%Z →
  parse_digits max 0 (NilEmpty.string_of_uint d) = Some (Z.of_N (Pos.of_uint d)).
Proof.
  induction d as [|d IH|d IH|d IH|d IH|d IH|d IH|d IH|d IH|d IH|d IH]; cbn [Pos.of_uint]; intros Hle H0; [done|..].
  all: next_digit; rewrite Z.mul_0_l, Z.add_0_l.
  { rewrite (proj2 (Z.leb_le _ _)) by done. auto. }
  all: cbn [Z.of_N] in Hle |- *;
    match goal with |- context [Pos.of_uint_acc ?d ?a] =>
      pose proof (of_uint_acc_ge d a); pose proof (parse_digits_uint max d a Hle) as E end.
  all: rewrite (proj2 (Z.leb_le _ _)) by lia; exact E.
Qed.

Lemma string_of_uint_digits d : string_forallb is_ascii_digit (NilEmpty.string_of_uint d) = true.
Proof. by induction d. Qed.

Lemma u64_to_string_digits z : string_forallb is_ascii_digit (u64_to_string z) = true.
Proof. apply string_of_uint_digits. Qed.

Lemma u64_to_string_not_nil z : u64_to_string z ≠ EmptyString.
Proof.
  unfold u64_to_string. destruct (Z.to_N z) as [|p]; [done|]. cbn [N.to_uint].
  pose proof (DecimalPos.Unsigned.to_uint_nonnil p). by destruct (Pos.to_uint p).
Qed.

(** A printed number has no leading zero. *)
Lemma u64_to_string_head z s : u64_to_string z = String "0" s → s = EmptyString.
Proof.
  unfold u64_to_string. intros E.
  assert (Decimal.unorm (N.to_uint (Z.to_N z)) = N.to_uint (Z.to_N z)) as Hn.
  { rewrite <-(DecimalN.Unsigned.to_of (N.to_uint (Z.to_N z))). by rewrite DecimalN.Unsigned.of_to. }
  destruct (N.to_uint (Z.to_N z)) as [|d|d|d|d|d|d|d|d|d|d] eqn:Ed; try done. injection E as <-.
  unfold Decimal.unorm in Hn. simpl in Hn. destruct (Decimal.nzhead d) eqn:Eh; try done;
    [by injection Hn as <-|]. exfalso. eapply DecimalFacts.nzhead_nonzero. exact Eh.
Qed.

Lemma parse_uint_digits max s :
  string_forallb is_ascii_digit s = true → s ≠ EmptyString → parse_uint max s = parse_digits max 0 s.
Proof.
  intros Hs Hne. destruct s as [|a s]; [done|]. simpl in Hs. apply andb_true_iff in Hs as [Ha _].
  assert (a ≠ "+"%char) as Hp by by intros ->. unfold parse_uint. rewrite !bool_decide_eq_false_2 by done.
  by destruct s.
Qed.

Lemma parse_u64_to_string z : (0 ≤ z ≤ u64_max)%Z → parse_uint u64_max (u64_to_string z) = Some z.
Proof.
  intros Hz. rewrite parse_uint_digits by auto using u64_to_string_digits, u64_to_string_not_nil.
  pose proof (DecimalN.Unsigned.of_to (Z.to_N z)) as E. unfold N.of_uint in E.
  unfold u64_to_string. rewrite parse_digits_of_uint; rewrite ?E, ?Z2N.id; try done; lia.
Qed.

(** ** Text without white space *)

Lemma has_whitespace_tail a s : has_whitespace (String a s) = false → has_whitespace s = false.
Proof. simpl. rewrite !orb_false_iff. tauto. Qed.

(** White space, if there is some, is a run of bytes somewhere in the string. *)
Lemma has_whitespace_run s :
  has_whitespace s = true ↔ ∃ l1 l2 w, String.list_ascii_of_string s = l1 ++ w ++ l2 ∧
    match w with [a] => ws1 a | [a; b] => ws2 a b | [a; b; c] => ws3 a b c | _ => false end = true.
Proof.
  split.
  - induction s as [|a s IH]; [done|]. intros H.
    destruct (has_whitespace s) eqn:Es.
    { destruct IH as (l1 & l2 & w & E & Hw); [done|]. exists (a :: l1), l2, w. simpl. by rewrite E. }
    simpl in H. rewrite Es, orb_false_r in H. apply orb_true_iff in H as [H|H].
    + by exists [], (String.list_ascii_of_string s), [a].
    + destruct s as [|b s]; [done|]. apply orb_true_iff in H as [H|H].
      * by exists [], (String.list_ascii_of_string s), [a; b].
      * destruct s as [|c s]; [done|]. by exists [], (String.list_ascii_of_string s), [a; b; c].
  - revert s. intros s (l1 & l2 & w & E & Hw). revert s E. induction l1 as [|x l1 IH]; intros s E.
    + destruct w as [|a [|b [|c [|]]]]; try done; destruct s as [|a' s]; try done; injection E as -> E; simpl.
      * by rewrite Hw.
      * destruct s as [|b' s]; [done|]. injection E as -> E. by rewrite Hw, orb_true_r.
      * destruct s as [|b' s]; [done|]. injection E as -> E. destruct s as [|c' s]; [done|]. injection E as -> E.
        by rewrite Hw, !orb_true_r.
    + destruct s as [|a s]; [done|]. injection E as -> E. simpl. by rewrite (IH s E), !orb_true_r.
Qed.

Lemma trim_with_stop w1 w2 w3 s :
  (∀ w l, String.list_ascii_of_string s = w ++ l →
     match w with [a] => w1 a | [a; b] => w2 a b | [a; b; c] => w3 a b c | _ => false end = false) →
  trim_with w1 w2 w3 s = s.
Proof.
  intros H. destruct s as [|a s]; [done|]. simpl. rewrite (H [a] (String.list_ascii_of_string s)) by done.
  destruct s as [|b s]; [done|]. rewrite (H [a; b] (String.list_ascii_of_string s)) by done.
  destruct s as [|c s]; [done|]. by rewrite (H [a; b; c] (String.list_ascii_of_string s)).
Qed.

Lemma trim_no_whitespace s : has_whitespace s = false → trim s = s.
Proof.
  rewrite <-not_true_iff_false, has_whitespace_run. intros H.
  assert (trim_start s = s) as E.
  { apply trim_with_stop. intros w l E. apply not_true_iff_false. intros Hw. apply H. by exists [], l, w. }
  unfold trim, trim_end. rewrite E. rewrite <-(srev_involutive s) at 2. f_equal.
  apply trim_with_stop. intros w l Hl. apply not_true_iff_false. intros Hw. apply H.
  unfold srev in Hl. rewrite String.list_ascii_of_string_of_list_ascii in Hl.
  apply (f_equal (@rev _)) in Hl. rewrite rev_involutive, rev_app_distr in Hl.
  exists (rev l), [], (rev w). rewrite app_nil_r. split; [done|].
  by destruct w as [|a [|b [|c [|]]]].
Qed.

Lemma split_ws_none s : has_whitespace s = false → split_ws s = [s].
Proof.
  induction s as [|a s IH]; [done|]. intros H. pose proof (has_whitespace_tail a s H) as Ht.
  specialize (IH Ht). simpl in H. rewrite !orb_false_iff in H. destruct H as [[H1 H2] _].
  cbn [split_ws]. rewrite H1. destruct s as [|b s]; [by rewrite IH|]. apply orb_false_iff in H2 as [H2 H3].
  rewrite H2. destruct s as [|c s]; [by rewrite IH|]. rewrite H3. by rewrite IH.
Qed.

Lemma split_whitespace_none s : has_whitespace s = false → s ≠ EmptyString → split_whitespace s = [s].
Proof. intros H Hne. unfold split_whitespace. rewrite split_ws_none by done. by rewrite filter_cons_True. Qed.

Lemma strip_prefix_None p s : string_starts_with p s = false → strip_prefix p s = None.
Proof.
  revert s. induction p as [|a p IH]; intros [|b s]; simpl; try done. case_bool_decide; simpl; auto.
Qed.

Lemma starts_with_app p q s : string_starts_with p s = false → string_starts_with (p +:+ q) s = false.
Proof.
  revert s. induction p as [|a p IH]; intros [|b s]; rewrite ?string_app_cons; simpl; try done.
  case_bool_decide; simpl; auto.
Qed.

Lemma string_contains_cons p a s : string_contains p (String a s) = false → string_contains p s = false.
Proof.
  unfold string_contains. simpl. destruct (string_starts_with p (String a s)); [done|].
  by destruct (find_str p s).
Qed.

Lemma string_contains_head p s : string_contains p s = false → string_starts_with p s = false.
Proof. unfold string_contains. destruct s; simpl; destruct (string_starts_with _ _); done. Qed.

Lemma find_str_None p s : string_contains p s = false → find_str p s = None.
Proof. unfold string_contains. by destruct (find_str p s). Qed.
