(* ===== verification/Utf8.v ===== *)
(** * Utf8: UTF-8 as Rust's standard library checks and produces it

    [std::str::from_utf8], the first character of a string with its length in
    bytes, [char::from_u32] and the encoding of a scalar value.  Bytes are [ascii]
    values; [code] is their number. *)

From Stdlib Require String.
From S2P Require Import Prelude Text.

Definition continuation (a : char) : bool := code_in a 128 191.

(** Well-formed encodings of two, three and four bytes: no overlong forms, no
    surrogates, nothing above U+10FFFF. *)
Definition utf8_two (a b : char) : bool := code_in a 194 223 && continuation b.

Definition utf8_three (a b c : char) : bool :=
  ((code a =? 224)%Z && code_in b 160 191
   || code_in a 225 236 && continuation b
   || (code a =? 237)%Z && code_in b 128 159
   || code_in a 238 239 && continuation b) && continuation c.

Definition utf8_four (a b c d : char) : bool :=
  ((code a =? 240)%Z && code_in b 144 191
   || code_in a 241 243 && continuation b
   || (code a =? 244)%Z && code_in b 128 143) && continuation c && continuation d.

Definition is_ascii (a : char) : bool := (code a <? 128)%Z.

(** The length of the first character, if a well-formed one comes first. *)
Definition utf8_char_len (l : list char) : option nat :=
  match l with
  | [] => None
  | a :: l1 =>
      if is_ascii a then Some 1 else
      match l1 with
      | [] => None
      | b :: l2 =>
          if utf8_two a b then Some 2 else
          match l2 with
          | [] => None
          | c :: l3 =>
              if utf8_three a b c then Some 3 else
              match l3 with
              | [] => None
              | d :: _ => if utf8_four a b c d then Some 4 else None
              end
          end
      end
  end.

(** [str::from_utf8]: the length of the longest well-formed prefix ([valid_up_to]
    of the error). *)
Fixpoint valid_up_to (l : list char) : nat :=
  match l with
  | [] => 0
  | a :: l1 =>
      if is_ascii a then S (valid_up_to l1) else
      match l1 with
      | [] => 0
      | b :: l2 =>
          if utf8_two a b then 2 + valid_up_to l2 else
          match l2 with
          | [] => 0
          | c :: l3 =>
              if utf8_three a b c then 3 + valid_up_to l3 else
              match l3 with
              | [] => 0
              | d :: l4 => if utf8_four a b c d then 4 + valid_up_to l4 else 0
              end
          end
      end
  end.

Definition from_utf8 (l : list char) : bool := bool_decide (valid_up_to l = length l).

(** [char::from_u32] and [String::push] of a scalar value: its bytes. *)
Definition is_scalar (n : Z) : bool :=
  (0 <=? n)%Z && (n <? 55296)%Z || (57344 <=? n)%Z && (n <=? 1114111)%Z.

Definition byte (n : Z) : char := Ascii.ascii_of_nat (Z.to_nat n).

Definition encode_utf8 (n : Z) : list char :=
  (if n <? 128 then [byte n]
   else if n <? 2048 then [byte (192 + n / 64); byte (128 + n mod 64)]
   else if n <? 65536 then [byte (224 + n / 4096); byte (128 + (n / 64) mod 64); byte (128 + n mod 64)]
   else [byte (240 + n / 262144); byte (128 + (n / 4096) mod 64); byte (128 + (n / 64) mod 64);
         byte (128 + n mod 64)])%Z.

Definition char_from_u32 (n : Z) : option (list char) := if is_scalar n then Some (encode_utf8 n) else None.

(** ** Characters *)

(** [c] is the encoding of one character of two to four bytes. *)
Definition multibyte (c : list char) : bool :=
  match c with
  | [a; b] => utf8_two a b
  | [a; b; c] => utf8_three a b c
  | [a; b; c; d] => utf8_four a b c d
  | _ => false
  end.

Inductive utf8 : list char → Prop :=
| utf8_nil : utf8 []
| utf8_ascii a l : is_ascii a = true → utf8 l → utf8 (a :: l)
| utf8_multi c l : multibyte c = true → utf8 l → utf8 (c ++ l).

Ltac code_lia :=
  unfold multibyte, utf8_two, utf8_three, utf8_four, continuation, code_in, is_ascii in *;
  repeat match goal with
  | H : _ && _ = true |- _ => apply andb_true_iff in H as [? ?]
  | H : _ || _ = true |- _ => apply orb_true_iff in H as [?|?]
  end; lia.

Lemma two_lead a b : utf8_two a b = true → is_ascii a = false.
Proof. intros H. code_lia. Qed.

Lemma three_lead a b c : utf8_three a b c = true → is_ascii a = false ∧ utf8_two a b = false.
Proof. intros H. split; code_lia. Qed.

Lemma four_lead a b c d :
  utf8_four a b c d = true → is_ascii a = false ∧ utf8_two a b = false ∧ utf8_three a b c = false.
Proof. intros H. split_and!; code_lia. Qed.

(** Reading a character off the front. *)
Lemma multibyte_front c l :
  multibyte c = true →
  utf8_char_len (c ++ l) = Some (length c) ∧ valid_up_to (c ++ l) = length c + valid_up_to l ∧
  ∃ a c', c = a :: c' ∧ is_ascii a = false.
Proof.
  destruct c as [|a [|b [|c [|d [|? ?]]]]]; try done; simpl; intros H.
  - pose proof (two_lead _ _ H) as E. rewrite E, H. split_and!; [done..|by exists a, [b]].
  - destruct (three_lead _ _ _ H) as [E1 E2]. rewrite E1, E2, H. split_and!; [done..|by exists a, [b; c]].
  - destruct (four_lead _ _ _ _ H) as (E1 & E2 & E3). rewrite E1, E2, E3, H. split_and!; [done..|by exists a, [b; c; d]].
Qed.

Lemma ascii_front a l :
  is_ascii a = true → utf8_char_len (a :: l) = Some 1 ∧ valid_up_to (a :: l) = S (valid_up_to l).
Proof. intros H. simpl. by rewrite H. Qed.

(** The first character, when there is one. *)
Lemma char_len_cases l k :
  utf8_char_len l = Some k →
  (∃ a l', l = a :: l' ∧ is_ascii a = true ∧ k = 1) ∨
  (∃ c l', l = c ++ l' ∧ multibyte c = true ∧ k = length c).
Proof.
  destruct l as [|a l1]; [done|]. simpl. destruct (is_ascii a) eqn:Ea; [intros [= <-]; left; eauto|].
  destruct l1 as [|b l2]; [done|]. destruct (utf8_two a b) eqn:E2; [intros [= <-]; right; by exists [a; b], l2|].
  destruct l2 as [|c l3]; [done|]. destruct (utf8_three a b c) eqn:E3; [intros [= <-]; right; by exists [a; b; c], l3|].
  destruct l3 as [|d l4]; [done|]. destruct (utf8_four a b c d) eqn:E4; [|done].
  intros [= <-]. right. by exists [a; b; c; d], l4.
Qed.

Lemma utf8_app l1 l2 : utf8 l1 → utf8 l2 → utf8 (l1 ++ l2).
Proof.
  induction 1 as [|a l Ha Hl IH|c l Hc Hl IH]; intros H2; [done|by apply utf8_ascii; auto|].
  rewrite <-(assoc_L (++)). apply utf8_multi; auto.
Qed.

Lemma utf8_char_multi c : multibyte c = true → utf8 c.
Proof. intros H. rewrite <-(app_nil_r c). apply utf8_multi; [done|constructor]. Qed.

Lemma char_len_None l : utf8_char_len l = None → valid_up_to l = 0.
Proof.
  destruct l as [|a l1]; [done|]. simpl. destruct (is_ascii a); [done|].
  destruct l1 as [|b l2]; [done|]. destruct (utf8_two a b); [done|].
  destruct l2 as [|c l3]; [done|]. destruct (utf8_three a b c); [done|].
  destruct l3 as [|d l4]; [done|]. by destruct (utf8_four a b c d).
Qed.

Lemma valid_up_to_le l : valid_up_to l ≤ length l.
Proof.
  remember (length l) as n eqn:En. revert l En. induction (lt_wf n) as [n _ IH]. intros l ->.
  destruct (utf8_char_len l) as [k|] eqn:Ek; [|rewrite (char_len_None l Ek); lia].
  destruct (char_len_cases _ _ Ek) as [(a & l' & -> & Ha & ->)|(c & l' & -> & Hc & ->)].
  - rewrite (proj2 (ascii_front a l' Ha)). simpl. specialize (IH (length l') ltac:(simpl; lia) l' eq_refl). lia.
  - destruct (multibyte_front c l' Hc) as (_ & -> & a & c' & -> & _). rewrite length_app.
    specialize (IH (length l') ltac:(rewrite length_app; simpl; lia) l' eq_refl). lia.
Qed.

Lemma utf8_app_inv c l : multibyte c = true → valid_up_to (c ++ l) = length (c ++ l) → valid_up_to l = length l.
Proof. intros Hc. destruct (multibyte_front c l Hc) as (_ & -> & _). rewrite length_app. lia. Qed.

(** [from_utf8] accepts exactly the sequences of characters. *)
Lemma from_utf8_iff l : from_utf8 l = true ↔ utf8 l.
Proof.
  unfold from_utf8. rewrite bool_decide_eq_true. split.
  - remember (length l) as n eqn:En. revert l En. induction (lt_wf n) as [n _ IH]. intros l -> Hv.
    destruct l as [|a l0]; [constructor|].
    destruct (utf8_char_len (a :: l0)) as [k|] eqn:Ek; [|apply char_len_None in Ek; simpl in *; lia].
    destruct (char_len_cases _ _ Ek) as [(a' & l' & [= <- <-] & Ha & ->)|(c & l' & E & Hc & ->)].
    + apply utf8_ascii; [done|]. rewrite (proj2 (ascii_front a l0 Ha)) in Hv. simpl in Hv.
      apply (IH (length l0)); [simpl; lia|done|lia].
    + rewrite E in Hv |- *. apply utf8_multi; [done|]. apply (IH (length l')); [|done|by eapply utf8_app_inv].
      apply (f_equal length) in E. rewrite length_app in E. destruct c; [done|]. simpl in E |- *. lia.
  - induction 1 as [|a l Ha Hl IH|c l Hc Hl IH]; [done| |].
    + rewrite (proj2 (ascii_front a l Ha)). simpl. lia.
    + destruct (multibyte_front c l Hc) as (_ & -> & _). rewrite length_app. lia.
Qed.

Lemma code_byte n : (0 ≤ n < 256)%Z → code (byte n) = n.
Proof. intros Hn. unfold code, byte. rewrite Ascii.nat_ascii_embedding by lia. lia. Qed.

(** A scalar value is encoded as one character. *)
Lemma encode_utf8_ok n :
  is_scalar n = true →
  (∃ a, encode_utf8 n = [a] ∧ is_ascii a = true) ∨ multibyte (encode_utf8 n) = true.
Proof.
  unfold is_scalar, encode_utf8. intros Hn.
  assert (0 ≤ n ≤ 1114111 ∧ (n < 55296 ∨ 57344 ≤ n))%Z as [Hr Hs] by lia. clear Hn.
  destruct (Z.ltb_spec n 128); [left; exists (byte n); split; [done|]; unfold is_ascii; rewrite code_byte; lia|].
  right. destruct (Z.ltb_spec n 2048); [|destruct (Z.ltb_spec n 65536)];
    simpl; unfold utf8_two, utf8_three, utf8_four, continuation, code_in;
    rewrite !code_byte by (Z.to_euclidean_division_equations; lia);
    Z.to_euclidean_division_equations; lia.
Qed.

Lemma encode_utf8_valid n bs : char_from_u32 n = Some bs → utf8 bs.
Proof.
  unfold char_from_u32. destruct (is_scalar n) eqn:E; intros [= <-].
  destruct (encode_utf8_ok n E) as [(a & -> & Ha)|Hm]; [by repeat constructor|by apply utf8_char_multi].
Qed.

(** ** [String::from_utf8_lossy] *)

(** Whether [b] may follow a lead byte [a] of three or four bytes. *)
Definition second3 (a b : char) : bool :=
  (code a =? 224)%Z && code_in b 160 191 || code_in a 225 236 && continuation b
  || (code a =? 237)%Z && code_in b 128 159 || code_in a 238 239 && continuation b.
Definition second4 (a b : char) : bool :=
  (code a =? 240)%Z && code_in b 144 191 || code_in a 241 243 && continuation b
  || (code a =? 244)%Z && code_in b 128 143.

(** The length of the longest beginning of a character at the front of bytes that do
    not start with a whole one. *)
Definition invalid_len (l : list char) : nat :=
  match l with
  | a :: b :: c :: _ => if second3 a b then 2 else if second4 a b then if continuation c then 3 else 2 else 1
  | [a; b] => if second3 a b || second4 a b then 2 else 1
  | _ => 1
  end.

Definition replacement : list char := [byte 239; byte 191; byte 189].

(** Each ill-formed part becomes one replacement character. *)
Fixpoint lossy_loop (fuel : nat) (l : list char) : list char :=
  match fuel with
  | O => []
  | S fuel' =>
      match l with
      | [] => []
      | _ =>
          match utf8_char_len l with
          | Some k => take k l ++ lossy_loop fuel' (drop k l)
          | None => replacement ++ lossy_loop fuel' (drop (invalid_len l) l)
          end
      end
  end.

Definition from_utf8_lossy (l : list char) : list char := lossy_loop (length l) l.

Lemma lossy_loop_valid fuel l : utf8 l → length l ≤ fuel → lossy_loop fuel l = l.
Proof.
  intros H. revert fuel. induction H as [|a l Ha Hl IH|c l Hc Hl IH]; intros fuel Hf; [by destruct fuel|..].
  - destruct fuel as [|fuel]; [simpl in Hf; lia|]. cbn [lossy_loop]. rewrite (proj1 (ascii_front a l Ha)). simpl. f_equal. apply IH. simpl in Hf. lia.
  - destruct (multibyte_front c l Hc) as (Ek & _ & a & c' & -> & _). destruct fuel as [|fuel]; [simpl in Hf; lia|].
    cbn [lossy_loop]. rewrite Ek. simpl app at 1. rewrite take_app_length, drop_app_length. f_equal. apply IH.
    rewrite length_app in Hf. simpl in Hf. lia.
Qed.

Lemma from_utf8_lossy_valid l : utf8 l → from_utf8_lossy l = l.
Proof. intros H. by apply lossy_loop_valid. Qed.
