(* ===== verification/JsonText.v ===== *)
(** * JsonText: the JSON parser and printer
    (src/crates/rusty-json-manifest/src/lib.rs, [parse_value_str] to [write_string])

    The parser eqc a recursive descent over the bytes of the text, with a position
    and a nesting depth.  A method that takes [&mut self] eqc a function of the
    parser that gives a [parsed]: a value or an error, with the parser left behind,
    a panic, or the end of the fuel.  The fuel counts calls; [parse_value_str] runs
    on two units for each byte and three more, and [JsonTheory] proves it enough.

    The printer's [out: &mut String] is the text it appends.  [write_string] goes
    through the characters of a string; those it does not copy are ASCII, so it is
    written byte by byte. *)

From Stdlib Require String.
From S2P Require Import Prelude Text Utf8 Json.

Record JsonError := { offset : nat; message : string }.

Definition DEFAULT_MAX_JSON_BYTES : Z := (8 * 1024 * 1024)%Z.
Definition MAX_DEPTH : nat := 256.

(** [Parser] without its [bytes], which do not change. *)
Record Parser := { pos : nat; depth : nat }.

Inductive parsed (A : Type) :=
| POk (a : A) (p : Parser)
| PErr (e : JsonError) (p : Parser)
| PPanic
| PFuel.
Arguments POk {A} a p.
Arguments PErr {A} e p.
Arguments PPanic {A}.
Arguments PFuel {A}.

(** [m?]. *)
Definition parsed_bind {A B} (m : parsed A) (k : A → Parser → parsed B) : parsed B :=
  match m with POk a p => k a p | PErr e p => PErr e p | PPanic => PPanic | PFuel => PFuel end.

Notation "m >>=p k" := (parsed_bind m k) (at level 60, right associativity) : cruft_scope.

Definition parsed_map {A B} (f : A → B) (m : parsed A) : parsed B :=
  parsed_bind m (λ a p, POk (f a) p).

Definition set_pos (n : nat) (p : Parser) : Parser := {| pos := n; depth := depth p |}.
Definition set_depth (n : nat) (p : Parser) : Parser := {| pos := pos p; depth := n |}.

Definition eqc (a b : char) : bool := bool_decide (a = b).

Definition quote : char := Ascii.ascii_of_nat 34.
Definition backslash : char := Ascii.ascii_of_nat 92.
Definition newline : char := Ascii.ascii_of_nat 10.

Fixpoint count_while (f : char → bool) (l : list char) : nat :=
  match l with a :: l' => if f a then S (count_while f l') else 0 | [] => 0 end.

Definition is_json_ws (a : char) : bool :=
  eqc a " "%char || eqc a newline || eqc a (Ascii.ascii_of_nat 13) || eqc a (Ascii.ascii_of_nat 9).

Section Parse.
Context (bytes : list char).
Implicit Types (p : Parser).

Definition eof p : bool := bool_decide (length bytes ≤ pos p).
Definition peek p : option char := bytes !! pos p.

Definition bump p : option char * Parser :=
  match peek p with Some b => (Some b, set_pos (S (pos p)) p) | None => (None, p) end.

Definition err p (m : string) : JsonError := {| offset := pos p; message := m |}.

Definition fail {A} (m : string) p : parsed A := PErr (err p m) p.

Definition enter_nested p : parsed unit :=
  if bool_decide (MAX_DEPTH ≤ depth p) then fail "json nesting depth exceeded" p
  else POk tt (set_depth (S (depth p)) p).

Definition leave_nested p : Parser := set_depth (depth p - 1) p.

(** [while matches!(self.peek(), ..) { self.pos += 1 }]. *)
Definition advance_while (f : char → bool) p : Parser :=
  set_pos (pos p + count_while f (drop (pos p) bytes)) p.

Definition skip_ws p : Parser := advance_while is_json_ws p.

Definition literal (lit : string) (value : JsonValue) p : parsed JsonValue :=
  let lit := String.list_ascii_of_string lit in
  if bool_decide (take (length lit) (drop (pos p) bytes) = lit)
  then POk value (set_pos (pos p + length lit) p) else fail "invalid literal" p.

(** *** Strings *)

Definition hex_val (b : char) : option Z :=
  if code_in b 48 57 then Some (code b - 48)%Z
  else if code_in b 97 102 then Some (code b - 97 + 10)%Z
  else if code_in b 65 70 then Some (code b - 65 + 10)%Z
  else None.

(** [n] digits of a [u16]. *)
Fixpoint parse_hex (count : nat) (n : Z) p : parsed Z :=
  match count with
  | O => POk n p
  | S count =>
      match bump p with
      | (None, p) => fail "short unicode escape" p
      | (Some b, p) =>
          match hex_val b with
          | Some d => parse_hex count (Z.lor (Z.shiftl n 4 `mod` 65536) d) p
          | None => fail "invalid unicode escape" p
          end
      end
  end.

Definition parse_hex4 p : parsed Z := parse_hex 4 0 p.

Definition push_char (out : list char) (n : Z) p : parsed (list char) :=
  match char_from_u32 n with
  | Some c => POk (out ++ c) p
  | None => fail "invalid unicode scalar" p
  end.

Definition parse_unicode_escape (out : list char) p : parsed (list char) :=
  (parse_hex4 p >>=p λ first p,
   if (55296 <=? first)%Z && (first <=? 56319)%Z then
     let save := pos p in
     let missing p := fail "missing low surrogate" (set_pos save p) in
     match bump p with
     | (Some b1, p) =>
         if eqc b1 backslash then
           match bump p with
           | (Some b2, p) =>
               if eqc b2 "u"%char then
                 parse_hex4 p >>=p λ second p,
                 if (56320 <=? second)%Z && (second <=? 57343)%Z
                 then push_char out (65536 + Z.shiftl (first - 55296) 10 + (second - 56320)) p
                 else fail "invalid low surrogate" p
               else missing p
           | (None, p) => missing p
           end
         else missing p
     | (None, p) => missing p
     end
   else if (56320 <=? first)%Z && (first <=? 57343)%Z then fail "lone low surrogate" p
   else push_char out first p)%cruft.

Definition parse_escape (out : list char) p : parsed (list char) :=
  match bump p with
  | (None, p) => fail "unterminated escape" p
  | (Some b, p) =>
      if eqc b quote then POk (out ++ [quote]) p
      else if eqc b backslash then POk (out ++ [backslash]) p
      else if eqc b "/"%char then POk (out ++ ["/"%char]) p
      else if eqc b "b"%char then POk (out ++ [byte 8]) p
      else if eqc b "f"%char then POk (out ++ [byte 12]) p
      else if eqc b "n"%char then POk (out ++ [byte 10]) p
      else if eqc b "r"%char then POk (out ++ [byte 13]) p
      else if eqc b "t"%char then POk (out ++ [byte 9]) p
      else if eqc b "u"%char then parse_unicode_escape out p
      else fail "invalid escape" p
  end.

(** [&self.bytes[start..]]. *)
Definition slice_from (start : nat) : outcome (list char) :=
  if bool_decide (start ≤ length bytes) then Ret (drop start bytes) else Panic.

Fixpoint string_loop (fuel : nat) (out : list char) p : parsed string :=
  match fuel with
  | O => PFuel
  | S fuel =>
      match bump p with
      | (None, p) => fail "unterminated string" p
      | (Some b, p) =>
          if eqc b quote then POk (String.string_of_list_ascii out) p
          else if eqc b backslash then parsed_bind (parse_escape out p) (string_loop fuel)
          else if (code b <=? 31)%Z then fail "control character in string" p
          else if is_ascii b then string_loop fuel (out ++ [b]) p
          else
            let start := pos p - 1 in
            match slice_from start with
            | Panic => PPanic
            | Ret s =>
                if from_utf8 s then
                  match utf8_char_len s with
                  | None => fail "invalid string" p
                  | Some k => string_loop fuel (out ++ take k s) (set_pos (start + k) p)
                  end
                else PErr {| offset := start; message := "invalid utf-8 in string" |} p
            end
      end
  end.

Definition parse_string p : parsed string :=
  match bump p with
  | (Some b, p) => if eqc b quote then string_loop (S (length bytes)) [] p else fail "expected string" p
  | (None, p) => fail "expected string" p
  end.

(** *** Numbers *)

Definition peek_is (f : char → bool) p : bool := match peek p with Some b => f b | None => false end.

Definition is_digit (a : char) : bool := is_ascii_digit a.

(** The integer part. *)
Definition parse_int_part p : parsed unit :=
  match peek p with
  | Some b =>
      if eqc b "0"%char then POk tt (set_pos (S (pos p)) p)
      else if is_digit b then POk tt (advance_while is_digit (set_pos (S (pos p)) p))
      else fail "invalid number" p
  | None => fail "invalid number" p
  end.

(** At least one digit, or the error. *)
Definition parse_digits1 (m : string) p : parsed unit :=
  let digit_start := pos p in
  let p := advance_while is_digit p in
  if bool_decide (pos p = digit_start) then fail m p else POk tt p.

Definition parse_fraction p : parsed unit :=
  if peek_is (λ b, eqc b "."%char) p then parse_digits1 "invalid number fraction" (set_pos (S (pos p)) p)
  else POk tt p.

Definition parse_exponent p : parsed unit :=
  if peek_is (λ b, eqc b "e"%char || eqc b "E"%char) p then
    let p := set_pos (S (pos p)) p in
    let p := if peek_is (λ b, eqc b "+"%char || eqc b "-"%char) p then set_pos (S (pos p)) p else p in
    parse_digits1 "invalid number exponent" p
  else POk tt p.

Definition parse_number p : parsed JsonNumber :=
  (let start := pos p in
   let p := if peek_is (λ b, eqc b "-"%char) p then set_pos (S (pos p)) p else p in
   parse_int_part p >>=p λ _ p,
   parse_fraction p >>=p λ _ p,
   parse_exponent p >>=p λ _ p,
   let text := take (pos p - start) (drop start bytes) in
   if bool_decide (pos p ≤ length bytes) && from_utf8 text
   then POk {| raw := String.string_of_list_ascii text |} p else PPanic)%cruft.

(** *** Values *)

Fixpoint parse_value (fuel : nat) p : parsed JsonValue :=
  match fuel with
  | O => PFuel
  | S fuel =>
      match peek p with
      | Some b =>
          if eqc b "n"%char then literal "null" JNull p
          else if eqc b "t"%char then literal "true" (JBool true) p
          else if eqc b "f"%char then literal "false" (JBool false) p
          else if eqc b quote then parsed_map JString (parse_string p)
          else if eqc b "["%char then
            (enter_nested p >>=p λ _ p,
             let p := skip_ws (bump p).2 in
             if peek_is (λ b, eqc b "]"%char) p then POk (JArray []) (leave_nested (bump p).2)
             else parse_elements fuel [] p)%cruft
          else if eqc b "{"%char then
            (enter_nested p >>=p λ _ p,
             let p := skip_ws (bump p).2 in
             if peek_is (λ b, eqc b "}"%char) p then POk (JObject []) (leave_nested (bump p).2)
             else parse_entries fuel [] p)%cruft
          else if eqc b "-"%char || is_digit b then parsed_map JNumber (parse_number p)
          else fail "expected json value" p
      | None => fail "unexpected end of input" p
      end
  end
(** The loop of [parse_array]. *)
with parse_elements (fuel : nat) (values : list JsonValue) p : parsed JsonValue :=
  match fuel with
  | O => PFuel
  | S fuel =>
      match parse_value fuel (skip_ws p) with
      | POk value p =>
          let values := values ++ [value] in
          match bump (skip_ws p) with
          | (Some b, p) =>
              if eqc b ","%char then parse_elements fuel values p
              else if eqc b "]"%char then POk (JArray values) (leave_nested p)
              else PErr (err p "expected ',' or ']'") (leave_nested p)
          | (None, p) => PErr (err p "expected ',' or ']'") (leave_nested p)
          end
      | PErr e p => PErr e (leave_nested p)
      | PPanic => PPanic
      | PFuel => PFuel
      end
  end
(** The loop of [parse_object]. *)
with parse_entries (fuel : nat) (entries : list (string * JsonValue)) p : parsed JsonValue :=
  match fuel with
  | O => PFuel
  | S fuel =>
      let p := skip_ws p in
      if negb (peek_is (λ b, eqc b quote) p) then PErr (err p "expected object key") (leave_nested p)
      else
        match parse_string p with
        | POk key p =>
            match bump (skip_ws p) with
            | (Some b, p) =>
                if eqc b ":"%char then
                  match parse_value fuel (skip_ws p) with
                  | POk value p =>
                      let entries := entries ++ [(key, value)] in
                      match bump (skip_ws p) with
                      | (Some b, p) =>
                          if eqc b ","%char then parse_entries fuel entries p
                          else if eqc b "}"%char then POk (JObject entries) (leave_nested p)
                          else PErr (err p "expected ',' or '}'") (leave_nested p)
                      | (None, p) => PErr (err p "expected ',' or '}'") (leave_nested p)
                      end
                  | PErr e p => PErr e (leave_nested p)
                  | PPanic => PPanic
                  | PFuel => PFuel
                  end
                else PErr (err p "expected ':'") (leave_nested p)
            | (None, p) => PErr (err p "expected ':'") (leave_nested p)
            end
        | PErr e p => PErr e (leave_nested p)
        | PPanic => PPanic
        | PFuel => PFuel
        end
  end.
End Parse.

Definition validate_input_size (len : nat) : result unit JsonError :=
  if (DEFAULT_MAX_JSON_BYTES <? Z.of_nat len)%Z
  then Err {| offset := Z.to_nat DEFAULT_MAX_JSON_BYTES;
              message := "json input exceeds parser limit of 8388608 bytes" |}
  else Ok tt.

Definition json_fuel (bytes : list char) : nat := 2 * length bytes + 3.

(** [parse_value_str], which is [from_str] at [JsonValue]. *)
Definition parse_value_str (src : list char) : parsed JsonValue :=
  let p := {| pos := 0; depth := 0 |} in
  match validate_input_size (length src) with
  | Err e => PErr e p
  | Ok _ =>
      (parse_value src (json_fuel src) (skip_ws src p) >>=p λ value p,
       let p := skip_ws src p in
       if eof src p then POk value p else fail "trailing characters" p)%cruft
  end.

Definition from_slice (src : list char) : parsed JsonValue :=
  let p := {| pos := 0; depth := 0 |} in
  match validate_input_size (length src) with
  | Err e => PErr e p
  | Ok _ =>
      if from_utf8 src then parse_value_str src
      else PErr {| offset := valid_up_to src; message := "input is not utf-8" |} p
  end.

(** ** The printer *)

Definition lowercase_hex (n : Z) : char := byte (if (n <? 10)%Z then 48 + n else 87 + n).

(** [format!("\u{:04x}", n)] for [n] below 2^16. *)
Definition unicode_escape (n : Z) : list char :=
  [backslash; "u"%char; lowercase_hex ((n / 4096) `mod` 16)%Z; lowercase_hex ((n / 256) `mod` 16)%Z;
   lowercase_hex ((n / 16) `mod` 16)%Z; lowercase_hex (n `mod` 16)%Z].

Definition write_char (b : char) : list char :=
  if eqc b quote then [backslash; quote]
  else if eqc b backslash then [backslash; backslash]
  else if eqc b (byte 10) then [backslash; "n"%char]
  else if eqc b (byte 13) then [backslash; "r"%char]
  else if eqc b (byte 9) then [backslash; "t"%char]
  else if eqc b (byte 8) then [backslash; "b"%char]
  else if eqc b (byte 12) then [backslash; "f"%char]
  else if (code b <=? 31)%Z then unicode_escape (code b)
  else [b].

Definition write_string (s : string) : list char :=
  quote :: (String.list_ascii_of_string s ≫= write_char) ++ [quote].

(** The separator before an item, and the text before the closing bracket; [n] is
    the depth. *)
Definition write_sep (first : bool) (pretty : option nat) (n : nat) : list char :=
  (if first then [] else [","%char]) ++
  match pretty with Some spaces => newline :: replicate ((n + 1) * spaces) " "%char | None => [] end.

Definition write_close (empty : bool) (pretty : option nat) (n : nat) : list char :=
  if empty then []
  else match pretty with Some spaces => newline :: replicate (n * spaces) " "%char | None => [] end.

Fixpoint write_json (v : JsonValue) (pretty : option nat) (n : nat) : list char :=
  let fix write_items first values :=
    match values with
    | [] => []
    | value :: values => write_sep first pretty n ++ write_json value pretty (n + 1) ++ write_items false values
    end in
  let fix write_entries first (entries : list (string * JsonValue)) :=
    match entries with
    | [] => []
    | (k, value) :: entries =>
        write_sep first pretty n ++ write_string k ++ ":"%char ::
        (if pretty then [" "%char] else []) ++ write_json value pretty (n + 1) ++ write_entries false entries
    end in
  match v with
  | JNull => String.list_ascii_of_string "null"
  | JBool b => String.list_ascii_of_string (if b then "true" else "false")
  | JNumber x => String.list_ascii_of_string (raw x)
  | JString s => write_string s
  | JArray values =>
      "["%char :: write_items true values ++ write_close (bool_decide (length values = 0)) pretty n ++ ["]"%char]
  | JObject entries =>
      "{"%char :: write_entries true entries ++ write_close (bool_decide (length entries = 0)) pretty n ++ ["}"%char]
  end.

Definition to_compact_string (v : JsonValue) : list char := write_json v None 0.
Definition to_pretty_string (v : JsonValue) : list char := write_json v (Some 2) 0.
