(* ===== verification/JsonTotal.v ===== *)
(** * JsonTotal: the JSON parser always answers, and answers well

    On any bytes the parser returns, without a panic, a well-formed value (numbers
    that follow the JSON grammar, strings that are UTF-8, nesting within the limit)
    or an error whose offset lies in the input. *)

From Stdlib Require String.
From S2P Require Import Prelude Text Utf8 Json JsonText.

(** ** Well-formed values *)

Definition all_digits (l : list char) : Prop := Forall (λ a, is_digit a = true) l.

Definition int_text (l : list char) : Prop :=
  l = ["0"%char] ∨ ∃ d ds, l = d :: ds ∧ is_digit d = true ∧ d ≠ "0"%char ∧ all_digits ds.
Definition frac_text (l : list char) : Prop :=
  l = [] ∨ ∃ ds, l = "."%char :: ds ∧ ds ≠ [] ∧ all_digits ds.
Definition exp_text (l : list char) : Prop :=
  l = [] ∨ ∃ e s ds, l = e :: s ++ ds ∧ (e = "e"%char ∨ e = "E"%char) ∧
    (s = [] ∨ s = ["+"%char] ∨ s = ["-"%char]) ∧ ds ≠ [] ∧ all_digits ds.

(** The grammar of JSON numbers. *)
Definition number_text (l : list char) : Prop :=
  ∃ sg ip fr ex, l = sg ++ ip ++ fr ++ ex ∧ (sg = [] ∨ sg = ["-"%char]) ∧ int_text ip ∧ frac_text fr ∧ exp_text ex.

Fixpoint json_wf (v : JsonValue) : Prop :=
  match v with
  | JNull | JBool _ => True
  | JNumber x => number_text (String.list_ascii_of_string (raw x))
  | JString s => utf8 (String.list_ascii_of_string s)
  | JArray vs => foldr (λ v P, json_wf v ∧ P) True vs
  | JObject es => foldr (λ e P, utf8 (String.list_ascii_of_string e.1) ∧ json_wf e.2 ∧ P) True es
  end.

(** How deep arrays and objects are nested. *)
Fixpoint nesting (v : JsonValue) : nat :=
  match v with
  | JArray vs => S (foldr (λ v m, nesting v `max` m) 0 vs)
  | JObject es => S (foldr (λ e m, nesting e.2 `max` m) 0 es)
  | _ => 0
  end.

Definition value_ok (d : nat) (v : JsonValue) : Prop := json_wf v ∧ nesting v ≤ d.
Definition entry_ok (d : nat) (e : string * JsonValue) : Prop :=
  utf8 (String.list_ascii_of_string e.1) ∧ value_ok d e.2.

Lemma array_ok d vs : value_ok (S d) (JArray vs) ↔ Forall (value_ok d) vs.
Proof.
  unfold value_ok. induction vs as [|v vs IH]; simpl; [split; [constructor|split; [done|lia]]|].
  rewrite Forall_cons, <-IH. simpl. unfold value_ok. intuition lia.
Qed.

Lemma object_ok d es : value_ok (S d) (JObject es) ↔ Forall (entry_ok d) es.
Proof.
  unfold value_ok. induction es as [|e es IH]; simpl; [split; [constructor|split; [done|lia]]|].
  rewrite Forall_cons, <-IH. simpl. unfold entry_ok, value_ok. intuition lia.
Qed.

(** ** Positions *)

Section Total.
Context (bytes : list char).
Implicit Types (p : Parser).

Abbreviation n := (length bytes).

Lemma bump_cases p :
  pos p ≤ n →
  (bump bytes p = (None, p) ∧ pos p = n) ∨
  (∃ b, bump bytes p = (Some b, set_pos (S (pos p)) p) ∧ bytes !! pos p = Some b ∧ pos p < n).
Proof.
  intros Hp. unfold bump, peek. destruct (bytes !! pos p) as [b|] eqn:E.
  - right. exists b. split_and!; [done..|by eapply lookup_lt_Some].
  - left. apply lookup_ge_None in E. split; [done|lia].
Qed.

Lemma count_while_le f l : count_while f l ≤ length l.
Proof. induction l as [|a l IH]; simpl; [lia|]. destruct (f a); lia. Qed.

Lemma advance_pos f p : pos p ≤ n → pos p ≤ pos (advance_while bytes f p) ≤ n.
Proof. intros Hp. simpl. pose proof (count_while_le f (drop (pos p) bytes)). rewrite length_drop in *. lia. Qed.

Lemma skip_pos p : pos p ≤ n → pos p ≤ pos (skip_ws bytes p) ≤ n.
Proof. apply advance_pos. Qed.

(** A parser's answer from [p0]: a value of [Q] at least [k] bytes further on, at
    the same depth, or an error inside the input. *)
Definition answers {A} (p0 : Parser) (k : nat) (Q : A → Prop) (r : parsed A) : Prop :=
  match r with
  | POk a p => pos p0 + k ≤ pos p ≤ n ∧ depth p = depth p0 ∧ Q a
  | PErr e _ => offset e ≤ n
  | PPanic | PFuel => False
  end.

Lemma answers_bind {A B} p0 k k' (Q : A → Prop) (R : B → Prop) m f :
  answers p0 k Q m →
  (∀ a p, pos p0 + k ≤ pos p ≤ n → depth p = depth p0 → Q a → answers p (k' - k) R (f a p)) →
  answers p0 k' R (parsed_bind m f).
Proof.
  destruct m as [a p|e p| |]; simpl; [|done..]. intros (Hp & Hd & Ha) Hf.
  specialize (Hf a p Hp Hd Ha). destruct (f a p); simpl in *; [|done..]. destruct Hf as (? & ? & ?).
  split_and!; [lia..|congruence|done].
Qed.

Lemma answers_weaken {A} p0 p k k' (Q R : A → Prop) r :
  answers p k Q r → depth p = depth p0 → pos p0 + k' ≤ pos p + k → (∀ a, Q a → R a) → answers p0 k' R r.
Proof.
  destruct r as [a q|e q| |]; simpl; [|done..]. intros (? & ? & ?) Hd Hk HQ. split_and!; [lia..|congruence|auto].
Qed.

Lemma fail_answers {A} m p p0 k (Q : A → Prop) : pos p ≤ n → answers p0 k Q (fail m p).
Proof. done. Qed.

(** ** Strings *)

Lemma parse_hex_answers count z p : pos p ≤ n → answers p 0 (λ _, True) (parse_hex bytes count z p).
Proof.
  revert z p. induction count as [|count IH]; intros z p Hp; simpl; [split_and!; [lia..|done|done]|].
  destruct (bump_cases p Hp) as [[-> _]|(b & -> & _ & Hlt)]; [done|].
  destruct (hex_val b) as [d|]; [|simpl; lia].
  eapply answers_weaken; [apply IH; simpl; lia|done|simpl; lia|done].
Qed.

Lemma push_char_answers out z p :
  pos p ≤ n → utf8 out → answers p 0 utf8 (push_char out z p).
Proof.
  intros Hp Ho. unfold push_char. destruct (char_from_u32 z) as [c|] eqn:E; [|done].
  simpl. split_and!; [lia..|done|]. apply utf8_app; [done|by eapply encode_utf8_valid].
Qed.

Lemma unicode_escape_answers out p :
  pos p ≤ n → utf8 out → answers p 0 utf8 (parse_unicode_escape bytes out p).
Proof.
  intros Hp Ho. unfold parse_unicode_escape. eapply answers_bind; [by apply parse_hex_answers|].
  intros first p1 Hp1 Hd1 _. destruct (_ && _).
  2:{ destruct (_ && _); [apply fail_answers; lia|]. apply push_char_answers; [lia|done]. }
  destruct (bump_cases p1) as [[-> _]|(b1 & -> & _ & Hlt)]; [lia|simpl; lia|].
  destruct (eqc b1 backslash); [|simpl; lia].
  destruct (bump_cases (set_pos (S (pos p1)) p1)) as [[-> _]|(b2 & -> & _ & Hlt2)]; [simpl; lia..|].
  destruct (eqc b2 "u"%char); [|simpl in *; lia].
  apply (answers_bind _ 0 _ (λ _, True)).
  { eapply answers_weaken; [apply parse_hex_answers; simpl in *; lia|done|simpl; lia|done]. }
  intros second p2 Hp2 Hd2 _. destruct (_ && _); [|apply fail_answers; lia]. apply push_char_answers; [lia|done].
Qed.

Lemma utf8_snoc out a : utf8 out → is_ascii a = true → utf8 (out ++ [a]).
Proof. intros Ho Ha. apply utf8_app; [done|]. by repeat constructor. Qed.

Lemma parse_escape_answers out p :
  pos p ≤ n → utf8 out → answers p 0 utf8 (parse_escape bytes out p).
Proof.
  intros Hp Ho. unfold parse_escape. destruct (bump_cases p Hp) as [[-> _]|(b & -> & _ & Hlt)]; [done|].
  assert (∀ a, is_ascii a = true → answers p 0 utf8 (POk (out ++ [a]) (set_pos (S (pos p)) p))) as Hone.
  { intros a Ha. simpl. split_and!; [lia..|done|by apply utf8_snoc]. }
  repeat (case_match; [by apply Hone|]). case_match; [|simpl; lia].
  eapply answers_weaken; [apply unicode_escape_answers|..]; simpl; try done; lia.
Qed.

Lemma string_loop_answers fuel out p :
  pos p ≤ n → utf8 out → n - pos p < fuel →
  answers p 1 (λ s, utf8 (String.list_ascii_of_string s)) (string_loop bytes fuel out p).
Proof.
  revert out p. induction fuel as [|fuel IH]; intros out p Hp Ho Hf; [lia|]. cbn [string_loop].
  destruct (bump_cases p Hp) as [[-> _]|(b & -> & Hb & Hlt)]; [done|].
  destruct (eqc b quote); [simpl; rewrite String.list_ascii_of_string_of_list_ascii; split_and!; [lia..|done|done]|].
  destruct (eqc b backslash).
  { eapply (answers_bind _ 1); [eapply answers_weaken; [by apply parse_escape_answers|..]|]; simpl; try done; [lia|].
    intros out' q Hq Hd Ho'. eapply answers_weaken; [apply IH|..]; simpl in *; try done; lia. }
  destruct (code b <=? 31)%Z; [simpl; lia|].
  destruct (is_ascii b) eqn:Ea.
  { eapply answers_weaken; [apply IH; [simpl; lia|by apply utf8_snoc|simpl; lia]|done|simpl; lia|done]. }
  cbn [pos set_pos]. replace (S (pos p) - 1) with (pos p) by lia. unfold slice_from.
  rewrite bool_decide_eq_true_2 by lia. destruct (from_utf8 (drop (pos p) bytes)); [|simpl; lia].
  destruct (utf8_char_len (drop (pos p) bytes)) as [k|] eqn:Ek; [|simpl; lia].
  destruct (char_len_cases _ _ Ek) as [(a & l' & El & Ha & ->)|(c & l' & El & Hc & ->)].
  { assert (bytes !! pos p = Some a) as Hb' by (rewrite <-(Nat.add_0_r (pos p)), <-lookup_drop, El; done). congruence. }
  pose proof (f_equal length El) as Hlen. rewrite length_drop, length_app in Hlen.
  assert (1 ≤ length c) by (destruct c; [done|simpl; lia]).
  rewrite El, take_app_length.
  eapply answers_weaken; [apply IH; [simpl; lia|by apply utf8_app, utf8_char_multi|simpl; lia]|done|simpl; lia|done].
Qed.

Lemma parse_string_answers p :
  pos p ≤ n → answers p 1 (λ s, utf8 (String.list_ascii_of_string s)) (parse_string bytes p).
Proof.
  intros Hp. unfold parse_string. destruct (bump_cases p Hp) as [[-> _]|(b & -> & _ & Hlt)]; [done|].
  destruct (eqc b quote); [|simpl; lia].
  eapply answers_weaken; [apply string_loop_answers; [simpl; lia|constructor|simpl; lia]|done|simpl; lia|done].
Qed.
(** ** Numbers *)

(** From [p] to [q] the parser reads [l]. *)
Definition consumes p q (l : list char) : Prop :=
  drop (pos p) bytes = l ++ drop (pos q) bytes ∧ pos q = pos p + length l ∧ depth q = depth p ∧ pos q ≤ n.

(** The answer of a part of a number: it reads a text of [Q]. *)
Definition reads p (Q : list char → Prop) (r : parsed unit) : Prop :=
  match r with
  | POk _ q => ∃ l, consumes p q l ∧ Q l
  | PErr e _ => offset e ≤ n
  | PPanic | PFuel => False
  end.

Lemma consumes_nil p : pos p ≤ n → consumes p p [].
Proof. intros Hp. unfold consumes. simpl. split_and!; [done|lia|done..]. Qed.

Lemma consumes_app p q r l1 l2 : consumes p q l1 → consumes q r l2 → consumes p r (l1 ++ l2).
Proof.
  intros (E1 & H1 & D1 & _) (E2 & H2 & D2 & ?). unfold consumes. rewrite E1, E2, length_app, (assoc_L (++)).
  split_and!; [done|lia|congruence|done].
Qed.

Lemma consumes_one p b : bytes !! pos p = Some b → consumes p (set_pos (S (pos p)) p) [b].
Proof.
  intros Hb. pose proof (lookup_lt_Some _ _ _ Hb). unfold consumes. simpl.
  split_and!; [by apply drop_S|lia|done|lia].
Qed.

Lemma count_while_split f l :
  ∃ l1 l2, l = l1 ++ l2 ∧ count_while f l = length l1 ∧ Forall (λ a, f a = true) l1.
Proof.
  induction l as [|a l (l1 & l2 & -> & E & Hl)]; [by exists [], []|]. simpl. destruct (f a) eqn:Ef.
  - exists (a :: l1), l2. simpl. rewrite E. auto.
  - by exists [], (a :: l1 ++ l2).
Qed.

Lemma advance_reads f p :
  pos p ≤ n → ∃ l, consumes p (advance_while bytes f p) l ∧ Forall (λ a, f a = true) l.
Proof.
  intros Hp. destruct (count_while_split f (drop (pos p) bytes)) as (l1 & l2 & E & Ec & Hl). exists l1. split; [|done].
  pose proof (f_equal length E) as Hlen. rewrite length_drop, length_app in Hlen.
  unfold consumes. simpl. rewrite Ec. split_and!; [|done|done|lia].
  rewrite <-drop_drop, E, drop_app_length. done.
Qed.

Lemma peek_is_true f p : peek_is bytes f p = true → ∃ b, bytes !! pos p = Some b ∧ f b = true.
Proof. unfold peek_is, peek. destruct (bytes !! pos p); [eauto|done]. Qed.

Lemma eqc_true a b : eqc a b = true ↔ a = b.
Proof. unfold eqc. apply bool_decide_eq_true. Qed.

Lemma int_part_reads p : pos p ≤ n → reads p int_text (parse_int_part bytes p).
Proof.
  intros Hp. unfold parse_int_part, peek. destruct (bytes !! pos p) as [b|] eqn:Eb; [|done].
  pose proof (consumes_one p b Eb) as H1. destruct (eqc b "0"%char) eqn:E0.
  { apply eqc_true in E0 as ->. exists ["0"%char]. split; [done|by left]. }
  destruct (is_digit b) eqn:Ed; [|done].
  destruct (advance_reads is_digit (set_pos (S (pos p)) p)) as (ds & Hc & Hds); [apply H1|].
  exists (b :: ds). split; [by eapply (consumes_app _ _ _ [b])|]. right. exists b, ds. split_and!; [done..| |done].
  intros ->. done.
Qed.

Lemma digits1_reads m p : pos p ≤ n → reads p (λ l, l ≠ [] ∧ all_digits l) (parse_digits1 bytes m p).
Proof.
  intros Hp. unfold parse_digits1. destruct (advance_reads is_digit p Hp) as (ds & Hc & Hds).
  case_bool_decide as E; [apply Hc|]. exists ds. split_and!; [done| |done].
  intros ->. destruct Hc as (_ & Hc & _). simpl in Hc, E. lia.
Qed.

Lemma fraction_reads p : pos p ≤ n → reads p frac_text (parse_fraction bytes p).
Proof.
  intros Hp. unfold parse_fraction. destruct (peek_is bytes _ p) eqn:E.
  2:{ exists []. split; [by apply consumes_nil|by left]. }
  apply peek_is_true in E as (b & Eb & ->%eqc_true). pose proof (consumes_one p _ Eb) as H1.
  pose proof (digits1_reads "invalid number fraction" (set_pos (S (pos p)) p)) as Hd.
  destruct (parse_digits1 _ _ _) as [u q|e q| |]; simpl in *; try (apply Hd; apply H1).
  destruct Hd as (ds & Hc & Hne & Hds); [apply H1|]. exists ("."%char :: ds).
  split; [by eapply (consumes_app _ _ _ ["."%char])|]. right. by exists ds.
Qed.

Lemma exponent_reads p : pos p ≤ n → reads p exp_text (parse_exponent bytes p).
Proof.
  intros Hp. unfold parse_exponent. destruct (peek_is bytes _ p) eqn:E.
  2:{ exists []. split; [by apply consumes_nil|by left]. }
  apply peek_is_true in E as (b & Eb & Hb). rewrite orb_true_iff, !eqc_true in Hb.
  pose proof (consumes_one p _ Eb) as H1. set (p1 := set_pos (S (pos p)) p) in *.
  assert (∃ s, consumes p1 (if peek_is bytes (λ b, eqc b "+"%char || eqc b "-"%char) p1 then set_pos (S (pos p1)) p1 else p1) s ∧
    (s = [] ∨ s = ["+"%char] ∨ s = ["-"%char])) as (sg & H2 & Hs).
  { destruct (peek_is bytes _ p1) eqn:Es; [|exists []; split; [apply consumes_nil, H1|by left]].
    apply peek_is_true in Es as (c & Ec & Hc). rewrite orb_true_iff, !eqc_true in Hc. exists [c].
    split; [by apply consumes_one|]. destruct Hc as [->| ->]; auto. }
  set (p2 := if peek_is _ _ _ then _ else _) in *.
  pose proof (digits1_reads "invalid number exponent" p2) as Hd.
  destruct (parse_digits1 _ _ _) as [u q|e q| |]; simpl in *; try (apply Hd; apply H2).
  destruct Hd as (ds & Hc & Hne & Hds); [apply H2|]. exists (b :: sg ++ ds).
  split; [eapply (consumes_app _ _ _ [b]); [done|by eapply consumes_app]|]. right. by exists b, sg, ds.
Qed.

Lemma digit_ascii a : is_digit a = true → is_ascii a = true.
Proof. unfold is_digit, is_ascii_digit. code_lia. Qed.

Lemma ascii_utf8 l : Forall (λ a, is_ascii a = true) l → utf8 l.
Proof. induction 1; by constructor. Qed.

Lemma number_ascii l : number_text l → Forall (λ a, is_ascii a = true) l.
Proof.
  assert (∀ ds, all_digits ds → Forall (λ a, is_ascii a = true) ds) as Hd.
  { intros ds Hds. eapply Forall_impl; [exact Hds|]. apply digit_ascii. }
  intros (sg & ip & fr & ex & -> & Hsg & Hip & Hfr & Hex). rewrite !Forall_app. split_and!.
  - destruct Hsg as [->| ->]; by repeat constructor.
  - destruct Hip as [->|(d & ds & -> & ? & _ & ?)]; [by repeat constructor|]. constructor; auto using digit_ascii.
  - destruct Hfr as [->|(ds & -> & _ & ?)]; constructor; auto.
  - destruct Hex as [->|(e & s & ds & -> & He & Hs & _ & ?)]; [constructor|]. constructor; [by destruct He as [->| ->]|].
    apply Forall_app. split; [|auto]. destruct Hs as [->|[->| ->]]; by repeat constructor.
Qed.

Lemma number_nonempty l : number_text l → 1 ≤ length l.
Proof.
  intros (sg & ip & fr & ex & -> & _ & Hip & _). rewrite !length_app.
  destruct Hip as [->|(d & ds & -> & _)]; simpl; lia.
Qed.

Lemma parse_number_answers p :
  pos p ≤ n → answers p 1 (λ x, number_text (String.list_ascii_of_string (raw x))) (parse_number bytes p).
Proof.
  intros Hp. unfold parse_number.
  assert (∃ sg, consumes p (if peek_is bytes (λ b, eqc b "-"%char) p then set_pos (S (pos p)) p else p) sg ∧
    (sg = [] ∨ sg = ["-"%char])) as (sg & H1 & Hsg).
  { destruct (peek_is bytes _ p) eqn:E; [|exists []; split; [by apply consumes_nil|by left]].
    apply peek_is_true in E as (b & Eb & ->%eqc_true). exists ["-"%char]. split; [by apply consumes_one|by right]. }
  set (p1 := if peek_is _ _ _ then _ else _) in *.
  pose proof (int_part_reads p1 ltac:(apply H1)) as Hi.
  destruct (parse_int_part bytes p1) as [u q|e q| |]; simpl in *; try done. destruct Hi as (ip & H2 & Hip).
  pose proof (fraction_reads q ltac:(apply H2)) as Hf.
  destruct (parse_fraction bytes q) as [u' q'|e q'| |]; simpl in *; try done. destruct Hf as (fr & H3 & Hfr).
  pose proof (exponent_reads q' ltac:(apply H3)) as Hx.
  destruct (parse_exponent bytes q') as [u'' r|e r| |]; simpl in *; try done. destruct Hx as (ex & H4 & Hex).
  assert (consumes p r (sg ++ ip ++ fr ++ ex)) as (E & Hpos & Hd & Hn) by (repeat (eapply consumes_app; [done|]); done).
  assert (number_text (sg ++ ip ++ fr ++ ex)) as Hnum by (by exists sg, ip, fr, ex).
  rewrite bool_decide_eq_true_2 by done. rewrite Hpos, Nat.add_comm, Nat.add_sub, E, take_app_length.
  rewrite (proj2 (from_utf8_iff _)) by (by apply ascii_utf8, number_ascii). simpl.
  rewrite String.list_ascii_of_string_of_list_ascii. pose proof (number_nonempty _ Hnum). split_and!; [lia..|done|done].
Qed.

(** ** Values *)

(** The depth left when the parser is at depth [d]. *)
Definition room d : nat := MAX_DEPTH - d.

Lemma literal_answers lit v p :
  pos p < n → lit ≠ EmptyString → value_ok (room (depth p)) v →
  answers p 1 (value_ok (room (depth p))) (literal bytes lit v p).
Proof.
  intros Hp Hlit Hv. unfold literal. case_bool_decide as E; [|simpl; lia].
  apply (f_equal length) in E. rewrite length_take, length_drop in E.
  assert (1 ≤ length (String.list_ascii_of_string lit)) by (destruct lit; [done|simpl; lia]).
  simpl. split_and!; [lia..|done|done].
Qed.

(** Reading the closing bracket or going on: the end of an element or an entry. *)
Lemma delimiter_answers p (close : char) (m : string) v (next : Parser → parsed JsonValue) d :
  pos p ≤ n → value_ok d v →
  (∀ q, pos p < pos q ≤ n → depth q = depth p → answers (leave_nested q) 0 (value_ok d) (next q)) →
  answers (leave_nested p) 1 (value_ok d)
    match bump bytes (skip_ws bytes p) with
    | (Some b, p) => if eqc b ","%char then next p else if eqc b close then POk v (leave_nested p)
                     else PErr (err p m) (leave_nested p)
    | (None, p) => PErr (err p m) (leave_nested p)
    end.
Proof.
  intros Hp Hv Hnext. pose proof (skip_pos p Hp) as Hs.
  destruct (bump_cases (skip_ws bytes p)) as [[-> _]|(b & -> & _ & Hlt)]; [lia|simpl in *; lia|].
  destruct (eqc b ","%char).
  { eapply answers_weaken; [apply Hnext; [|done]; cbn [pos set_pos]; lia|done|simpl in *; lia|done]. }
  destruct (eqc b close); simpl in *; [split_and!; [lia..|done|done]|lia].
Qed.

Lemma entry_end_answers p q k (r : parsed JsonValue) d (f : JsonValue → Parser → parsed JsonValue) :
  answers p k (value_ok d) r → depth q = depth p → pos q ≤ pos p →
  (∀ v p', pos p + k ≤ pos p' ≤ n → depth p' = depth p → value_ok d v → answers (leave_nested q) 0 (value_ok (S d)) (f v p')) →
  answers (leave_nested q) 0 (value_ok (S d))
    match r with POk v p' => f v p' | PErr e p' => PErr e (leave_nested p') | PPanic => PPanic | PFuel => PFuel end.
Proof.
  destruct r as [v p'|e p'| |]; simpl; [|done..]. intros (Hp & Hd & Hv) Hq Hpq Hf. by apply Hf.
Qed.

(** Opening an array or an object. *)
Lemma open_answers p (empty : JsonValue) (close : char) (rest : Parser → parsed JsonValue) :
  pos p < n → depth p ≤ MAX_DEPTH → (∀ d, value_ok (S d) empty) →
  (∀ q, pos p < pos q ≤ n → depth q = S (depth p) → depth q ≤ MAX_DEPTH →
     answers (leave_nested q) 0 (value_ok (S (room (depth q)))) (rest q)) →
  answers p 1 (value_ok (room (depth p)))
    (enter_nested p >>=p λ _ p,
     let p := skip_ws bytes (bump bytes p).2 in
     if peek_is bytes (λ b, eqc b close) p then POk empty (leave_nested (bump bytes p).2) else rest p)%cruft.
Proof.
  intros Hp Hd He Hrest. unfold enter_nested. case_bool_decide as Em; [simpl; lia|]. simpl.
  set (p1 := set_depth (S (depth p)) p). assert (room (depth p) = S (room (S (depth p)))) as Er by (unfold room; lia).
  destruct (bump_cases p1) as [[_ ?]|(b & -> & _ & _)]; [simpl; lia|simpl in *; lia|]. cbn [snd].
  set (p2 := set_pos (S (pos p1)) p1). pose proof (skip_pos p2) as Hs. set (p3 := skip_ws bytes p2) in *.
  assert (pos p < pos p3 ≤ n ∧ depth p3 = S (depth p)) as [Hp3 Hd3] by (split; [simpl in *; lia|done]).
  destruct (peek_is bytes _ p3) eqn:Ek.
  - destruct (bump_cases p3) as [[_ E]|(c & -> & _ & Hlt)]; [lia| |].
    { apply peek_is_true in Ek as (c & Hc%lookup_lt_Some & _). lia. }
    simpl. rewrite Er. split_and!; [simpl in *; lia..|simpl in *; lia|apply He].
  - eapply answers_weaken; [apply Hrest; lia|simpl; lia|simpl in *; lia|].
    intros v. rewrite Hd3, Er. done.
Qed.

Lemma scalar_answers {A} p (f : A → JsonValue) (Q : A → Prop) r :
  answers p 1 Q r → (∀ a d, Q a → value_ok d (f a)) → answers p 1 (value_ok (room (depth p))) (parsed_map f r).
Proof.
  intros Hr Hf. unfold parsed_map. eapply answers_bind; [done|]. intros a q Hq Hd Ha. simpl.
  split_and!; [lia..|done|by apply Hf].
Qed.

Definition value_answers fuel : Prop :=
  ∀ p, pos p ≤ n → depth p ≤ MAX_DEPTH → 2 * (n - pos p) + 1 ≤ fuel →
    answers p 1 (value_ok (room (depth p))) (parse_value bytes fuel p).
Definition elements_answer fuel : Prop :=
  ∀ vs p, pos p ≤ n → depth p ≤ MAX_DEPTH → 2 * (n - pos p) + 2 ≤ fuel →
    Forall (value_ok (room (depth p))) vs →
    answers (leave_nested p) 0 (value_ok (S (room (depth p)))) (parse_elements bytes fuel vs p).
Definition entries_answer fuel : Prop :=
  ∀ es p, pos p ≤ n → depth p ≤ MAX_DEPTH → 2 * (n - pos p) + 2 ≤ fuel →
    Forall (entry_ok (room (depth p))) es →
    answers (leave_nested p) 0 (value_ok (S (room (depth p)))) (parse_entries bytes fuel es p).

Lemma parse_value_step fuel : elements_answer fuel → entries_answer fuel → value_answers (S fuel).
Proof.
  intros IHa IHo p Hp Hd Hf. cbn [parse_value]. unfold peek.
  destruct (bytes !! pos p) as [b|] eqn:Eb; [|done]. pose proof (lookup_lt_Some _ _ _ Eb) as Hlt.
  do 3 (case_match; [apply literal_answers; [done..|split; [done|simpl; lia]]|]).
  case_match; [by eapply scalar_answers; [apply parse_string_answers|intros s d Hs; split; [done|simpl; lia]]|].
  case_match; [apply open_answers; [done..|intros d; by apply array_ok|]|].
  { intros q Hq Hdq Hq'. apply IHa; [lia..|done]. }
  case_match; [apply open_answers; [done..|intros d; by apply object_ok|]|].
  { intros q Hq Hdq Hq'. apply IHo; [lia..|done]. }
  case_match; [|done].
  eapply scalar_answers; [by apply parse_number_answers|]. intros x d Hx. split; [done|simpl; lia].
Qed.

Lemma parse_elements_step fuel : value_answers fuel → elements_answer fuel → elements_answer (S fuel).
Proof.
  intros IHv IHa vs p Hp Hd Hf Hvs. cbn [parse_elements]. pose proof (skip_pos p Hp) as Hs.
  eapply (entry_end_answers (skip_ws bytes p) p 1); [apply (IHv (skip_ws bytes p)); [lia|done|lia]|done|lia|].
  intros v q Hq Hdq Hv. change (depth (skip_ws bytes p)) with (depth p) in *.
  assert (Forall (value_ok (room (depth p))) (vs ++ [v])) as Hvs' by (apply Forall_app; split; [done|by constructor]).
  eapply answers_weaken; [apply (delimiter_answers _ _ _ _ _ (S (room (depth p))))|simpl; lia|simpl in *; lia|done].
  - lia.
  - by apply array_ok.
  - intros r Hr Hdr. replace (depth p) with (depth r) by congruence. apply IHa; [lia..|].
    by replace (depth r) with (depth p) by congruence.
Qed.

Lemma parse_entries_step fuel : value_answers fuel → entries_answer fuel → entries_answer (S fuel).
Proof.
  intros IHv IHo es p Hp Hd Hf Hes. cbn [parse_entries]. pose proof (skip_pos p Hp) as Hs.
  set (p1 := skip_ws bytes p) in *. destruct (peek_is bytes _ p1); [|cbn [answers offset err negb]; lia]. cbn [negb].
  pose proof (parse_string_answers p1 ltac:(lia)) as Hk.
  destruct (parse_string bytes p1) as [key p2|e p2| |]; simpl in Hk; try done. destruct Hk as (Hp2 & Hd2 & Hkey).
  pose proof (skip_pos p2 ltac:(lia)) as Hs2. set (p3 := skip_ws bytes p2) in *.
  destruct (bump_cases p3) as [[-> _]|(b & -> & _ & Hlt)]; [lia|cbn [answers offset err]; lia|].
  set (p4 := set_pos (S (pos p3)) p3) in *. assert (pos p < pos p4 ≤ n ∧ depth p4 = depth p) as [Hp4 Hd4].
  { change (depth p4) with (depth p2). change (depth p1) with (depth p) in Hd2. split; [change (pos p4) with (S (pos p3)); lia|done]. }
  destruct (eqc b ":"%char); [|cbn [answers offset err]; lia]. pose proof (skip_pos p4 ltac:(lia)) as Hs4. set (p5 := skip_ws bytes p4) in *.
  change (depth p4) with (depth p5) in Hd4.
  eapply (entry_end_answers p5 p 1); [rewrite <-Hd4; apply (IHv p5); lia|done|lia|].
  intros v q Hq Hdq Hv.
  assert (Forall (entry_ok (room (depth p))) (es ++ [(key, v)])) as Hes' by (apply Forall_app; split; [done|constructor; [done|constructor]]).
  eapply answers_weaken; [apply (delimiter_answers _ _ _ _ _ (S (room (depth p))))|simpl; lia|simpl in *; lia|done].
  - lia.
  - by apply object_ok.
  - intros r Hr Hdr. replace (depth p) with (depth r) by congruence. apply IHo; [lia..|].
    by replace (depth r) with (depth p) by congruence.
Qed.

(** One unit of fuel a call, two for each byte left. *)
Lemma parse_answers fuel : value_answers fuel ∧ elements_answer fuel ∧ entries_answer fuel.
Proof.
  induction fuel as [|fuel (IHv & IHa & IHo)]; [split_and!; intros ?; intros; lia|].
  auto using parse_value_step, parse_elements_step, parse_entries_step.
Qed.
End Total.

Definition sound_answer (src : list char) (r : parsed JsonValue) : Prop :=
  match r with
  | POk v _ => value_ok MAX_DEPTH v
  | PErr e _ => offset e ≤ length src
  | PPanic | PFuel => False
  end.

Lemma size_error_sound src e p : validate_input_size (length src) = Err e → sound_answer src (PErr e p).
Proof.
  unfold validate_input_size. destruct (Z.ltb_spec DEFAULT_MAX_JSON_BYTES (Z.of_nat (length src))); [|done].
  intros [= <-]. simpl. lia.
Qed.

Lemma parse_value_str_sound src : sound_answer src (parse_value_str src).
Proof.
  unfold parse_value_str. destruct (validate_input_size (length src)) as [u|e] eqn:E; [|by apply size_error_sound].
  set (p := skip_ws src {| pos := 0; depth := 0 |}).
  assert (0 ≤ pos p ≤ length src) as Hp by (apply (skip_pos src {| pos := 0; depth := 0 |}); simpl; lia).
  pose proof (proj1 (parse_answers src (json_fuel src)) p ltac:(lia) ltac:(simpl; lia) ltac:(unfold json_fuel; lia)) as Hv.
  destruct (parse_value src (json_fuel src) p) as [v q|e q| |]; simpl in Hv; try done. destruct Hv as (Hq & _ & Hv).
  simpl. destruct (eof src (skip_ws src q)); [done|]. pose proof (skip_pos src q). simpl in *. lia.
Qed.

Lemma parsed_value_ok src v p : parse_value_str src = POk v p → value_ok MAX_DEPTH v.
Proof. intros E. pose proof (parse_value_str_sound src) as Hs. by rewrite E in Hs. Qed.

(** C12: the JSON parser is total and its answers are sound.  On any bytes
    [parse_value_str] returns, with no panic, either a value whose numbers follow
    the JSON grammar, whose strings are UTF-8 and whose nesting is at most 256, or
    an error whose offset lies in the input; [from_slice] does too, and it accepts
    only UTF-8. *)
Theorem json_parse_total (src : list char) :
  sound_answer src (parse_value_str src) ∧ sound_answer src (from_slice src) ∧
  (∀ v p, from_slice src = POk v p → utf8 src ∧ parse_value_str src = POk v p).
Proof.
  split_and!; [apply parse_value_str_sound| |].
  - unfold from_slice. destruct (validate_input_size (length src)) as [u|e] eqn:E; [|by apply size_error_sound].
    destruct (from_utf8 src); [apply parse_value_str_sound|]. simpl. apply valid_up_to_le.
  - unfold from_slice. intros v p. destruct (validate_input_size (length src)); [|done].
    destruct (from_utf8 src) eqn:Eu; [|done]. intros Ev. split; [by apply from_utf8_iff|done].
Qed.
