(* ===== verification/JsonRoundtrip.v ===== *)
(** * JsonRoundtrip: what is printed parses back

    The parser run on the text the printer writes, compact or indented, gives the
    printed value: strings through their escapes, numbers, arrays and objects with
    any layout of white space the printer produces. *)

From Stdlib Require String.
From S2P Require Import Prelude Text Utf8 Json JsonText JsonTotal.

(** Induction on JSON values through their lists. *)
Lemma JsonValue_nested_ind (P : JsonValue → Prop) :
  P JNull → (∀ b, P (JBool b)) → (∀ x, P (JNumber x)) → (∀ s, P (JString s)) →
  (∀ vs, Forall P vs → P (JArray vs)) → (∀ es, Forall (λ e, P e.2) es → P (JObject es)) → ∀ v, P v.
Proof.
  intros H1 H2 H3 H4 H5 H6. fix IH 1. intros [|b|x|s|vs|es].
  - exact H1.
  - apply H2.
  - apply H3.
  - apply H4.
  - apply H5. induction vs as [|v vs IHvs]; constructor; [apply IH|exact IHvs].
  - apply H6. induction es as [|[k v] es IHes]; constructor; [apply IH|exact IHes].
Qed.

(** ** The printed text *)

Fixpoint write_items (pretty : option nat) (n : nat) (first : bool) (vs : list JsonValue) : list char :=
  match vs with
  | [] => []
  | v :: vs => write_sep first pretty n ++ write_json v pretty (n + 1) ++ write_items pretty n false vs
  end.

Fixpoint write_entries (pretty : option nat) (n : nat) (first : bool) (es : list (string * JsonValue)) : list char :=
  match es with
  | [] => []
  | (k, v) :: es =>
      write_sep first pretty n ++ write_string k ++ ":"%char ::
      (if pretty then [" "%char] else []) ++ write_json v pretty (n + 1) ++ write_entries pretty n false es
  end.

Lemma write_array vs pretty n :
  write_json (JArray vs) pretty n =
  "["%char :: write_items pretty n true vs ++ write_close (bool_decide (length vs = 0)) pretty n ++ ["]"%char].
Proof.
  cbn [write_json]. f_equal. f_equal.
  match goal with |- ?F true vs = _ => cut (∀ b, F b vs = write_items pretty n b vs); [intros Hb; apply Hb|] end.
  induction vs as [|v vs IH]; intros b; [done|]. cbn [write_items]. by rewrite <-IH.
Qed.

Lemma write_object es pretty n :
  write_json (JObject es) pretty n =
  "{"%char :: write_entries pretty n true es ++ write_close (bool_decide (length es = 0)) pretty n ++ ["}"%char].
Proof.
  cbn [write_json]. f_equal. f_equal.
  match goal with |- ?F true es = _ => cut (∀ b, F b es = write_entries pretty n b es); [intros Hb; apply Hb|] end.
  induction es as [|[k v] es IH]; intros b; [done|]. cbn [write_entries]. by rewrite <-IH.
Qed.

Definition all_ws (l : list char) : Prop := Forall (λ a, is_json_ws a = true) l.

Definition indent (pretty : option nat) (n : nat) : list char :=
  match pretty with Some spaces => newline :: replicate (n * spaces) " "%char | None => [] end.

Lemma indent_ws pretty n : all_ws (indent pretty n).
Proof. destruct pretty; simpl; [|constructor]. constructor; [done|]. by apply Forall_replicate. Qed.

Lemma write_close_ws b pretty n : all_ws (write_close b pretty n).
Proof. unfold write_close. destruct b; [constructor|apply indent_ws]. Qed.

Lemma ws_ascii l : all_ws l → Forall (λ a, is_ascii a = true) l.
Proof.
  intros Hl. eapply Forall_impl; [exact Hl|]. intros a. unfold is_json_ws. rewrite !orb_true_iff, !eqc_true.
  by intros [[[->| ->]| ->]| ->].
Qed.

(** ** Escapes *)

Definition escape (l : list char) : list char := l ≫= write_char.

Lemma lowercase_hex_ascii z : (0 ≤ z < 16)%Z → is_ascii (lowercase_hex z) = true.
Proof. intros Hz. unfold lowercase_hex, is_ascii. rewrite code_byte; destruct (Z.ltb_spec z 10); lia. Qed.

Lemma write_char_ascii a : is_ascii a = true → Forall (λ b, is_ascii b = true) (write_char a).
Proof.
  intros Ha. unfold write_char. repeat (case_match; [by repeat constructor|]). case_match; [|by repeat constructor].
  unfold unicode_escape. repeat (constructor; [first [done|apply lowercase_hex_ascii, Z.mod_pos_bound; lia]|]). constructor.
Qed.

(** The bytes of a character of several bytes are copied. *)
Lemma write_char_high b : (128 ≤ code b)%Z → write_char b = [b].
Proof.
  intros Hb. unfold write_char, eqc.
  repeat (rewrite bool_decide_eq_false_2 by (intros ->; vm_compute in Hb; done)).
  destruct (Z.leb_spec (code b) 31); [lia|done].
Qed.

Lemma multibyte_high c : multibyte c = true → Forall (λ b, 128 ≤ code b)%Z c.
Proof.
  destruct c as [|a [|b [|c [|d [|? ?]]]]]; try done; simpl; intros H;
    repeat (constructor; [code_lia|]); constructor.
Qed.

Lemma escape_multibyte c : multibyte c = true → escape c = c.
Proof.
  intros Hc%multibyte_high. induction Hc as [|b c Hb _ IH]; [done|].
  change (escape (b :: c)) with (write_char b ++ escape c). by rewrite write_char_high, IH.
Qed.

Lemma escape_utf8 l : utf8 l → utf8 (escape l).
Proof.
  induction 1 as [|a l Ha _ IH|c l Hc _ IH]; [constructor| |].
  - apply (utf8_app (write_char a)); [by apply ascii_utf8, write_char_ascii|done].
  - unfold escape. rewrite bind_app. apply utf8_app; [|done]. change (utf8 (escape c)).
    rewrite escape_multibyte by done. by apply utf8_char_multi.
Qed.

Lemma write_string_utf8 s : utf8 (String.list_ascii_of_string s) → utf8 (write_string s).
Proof.
  intros Hs. apply utf8_ascii; [done|]. apply utf8_app; [by apply escape_utf8|]. by repeat constructor.
Qed.

Lemma ws_utf8 l : all_ws l → utf8 l.
Proof. intros Hl. by apply ascii_utf8, ws_ascii. Qed.

Lemma write_sep_utf8 b pretty n : utf8 (write_sep b pretty n).
Proof.
  unfold write_sep. apply utf8_app; [destruct b; by repeat constructor|]. apply ws_utf8, (indent_ws pretty (n + 1)).
Qed.

Lemma string_ascii_utf8 (s : string) :
  forallb is_ascii (String.list_ascii_of_string s) = true → utf8 (String.list_ascii_of_string s).
Proof.
  intros Hs. apply ascii_utf8, Forall_forall. intros a Ha. rewrite forallb_forall in Hs. apply Hs. by apply list_elem_of_In.
Qed.

Lemma items_utf8 pretty n b vs :
  Forall (λ v, utf8 (write_json v pretty (n + 1))) vs → utf8 (write_items pretty n b vs).
Proof. intros Hvs. revert b. induction Hvs; intros b; simpl; [constructor|]. auto using utf8_app, write_sep_utf8. Qed.

Lemma entries_utf8 pretty n b es :
  Forall (λ e, utf8 (String.list_ascii_of_string e.1) ∧ utf8 (write_json e.2 pretty (n + 1))) es →
  utf8 (write_entries pretty n b es).
Proof.
  intros Hes. revert b. induction Hes as [|[k v] es [Hk Hv] _ IH]; intros b; cbn [write_entries]; [constructor|].
  apply utf8_app; [apply write_sep_utf8|]. apply utf8_app; [by apply write_string_utf8|].
  apply utf8_ascii; [done|]. apply utf8_app; [destruct pretty; by repeat constructor|]. by apply utf8_app.
Qed.

Lemma write_json_utf8 v pretty n d : value_ok d v → utf8 (write_json v pretty n).
Proof.
  revert n d. induction v as [|b|x|s|vs IH|es IH] using JsonValue_nested_ind; intros n d [Hwf Hd].
  - by apply string_ascii_utf8.
  - destruct b; by apply string_ascii_utf8.
  - by apply ascii_utf8, number_ascii.
  - by apply write_string_utf8.
  - destruct d as [|d]; [simpl in Hd; lia|]. pose proof (proj1 (array_ok d vs) (conj Hwf Hd)) as Hvs.
    rewrite write_array. apply utf8_ascii; [done|]. apply utf8_app; [|apply utf8_app; [apply ws_utf8, write_close_ws|by repeat constructor]].
    apply items_utf8. rewrite Forall_forall in *. eauto.
  - destruct d as [|d]; [simpl in Hd; lia|]. pose proof (proj1 (object_ok d es) (conj Hwf Hd)) as Hes.
    rewrite write_object. apply utf8_ascii; [done|]. apply utf8_app; [|apply utf8_app; [apply ws_utf8, write_close_ws|by repeat constructor]].
    apply entries_utf8. rewrite Forall_forall in *. intros e He. destruct (Hes e He). eauto.
Qed.

(** ** Reading the text back *)

Section Read.
Context (bytes : list char).
Implicit Types (p : Parser) (l post : list char).

(** The text in front of the parser. *)
Definition facing p l : Prop := drop (pos p) bytes = l ∧ pos p ≤ length bytes.

Definition adv (k : nat) p : Parser := set_pos (pos p + k) p.

Lemma adv_0 p : adv 0 p = p.
Proof. destruct p. unfold adv, set_pos. simpl. by rewrite Nat.add_0_r. Qed.

Lemma adv_adv j k p : adv j (adv k p) = adv (k + j) p.
Proof. unfold adv, set_pos. simpl. by rewrite Nat.add_assoc. Qed.

Lemma facing_length p l : facing p l → pos p + length l = length bytes.
Proof. intros [<- Hp]. rewrite length_drop. lia. Qed.

Lemma facing_adv p l1 l2 : facing p (l1 ++ l2) → facing (adv (length l1) p) l2.
Proof.
  intros Hf. pose proof (facing_length _ _ Hf) as Hl. rewrite length_app in Hl. destruct Hf as [E Hp].
  split; [|simpl; lia]. simpl. by rewrite <-drop_drop, E, drop_app_length.
Qed.

Lemma facing_peek p b l : facing p (b :: l) → peek bytes p = Some b.
Proof. intros [E _]. unfold peek. rewrite <-(Nat.add_0_r (pos p)), <-lookup_drop, E. done. Qed.

Lemma facing_bump p b l : facing p (b :: l) → bump bytes p = (Some b, adv 1 p) ∧ facing (adv 1 p) l.
Proof.
  intros Hf. split; [|by apply (facing_adv p [b])]. unfold bump. rewrite (facing_peek _ _ _ Hf).
  unfold adv. by rewrite Nat.add_1_r.
Qed.

(** [stop f l]: the text [l] does not begin with a character of [f]. *)
Definition stop (f : char → bool) l : Prop := match l with [] => True | b :: _ => f b = false end.

Lemma count_while_app f l post :
  Forall (λ a, f a = true) l → stop f post → count_while f (l ++ post) = length l.
Proof.
  induction 1 as [|a l Ha _ IH]; simpl; intros Hs; [destruct post as [|b post]; [done|]; simpl in *; by rewrite Hs|].
  rewrite Ha. auto.
Qed.

Lemma advance_facing f p l post :
  facing p (l ++ post) → Forall (λ a, f a = true) l → stop f post →
  advance_while bytes f p = adv (length l) p ∧ facing (adv (length l) p) post.
Proof.
  intros Hf Hl Hs. split; [|by apply facing_adv]. unfold advance_while. destruct Hf as [-> _].
  by rewrite count_while_app.
Qed.

Lemma skip_facing p l post :
  facing p (l ++ post) → all_ws l → stop is_json_ws post →
  skip_ws bytes p = adv (length l) p ∧ facing (adv (length l) p) post.
Proof. apply advance_facing. Qed.

Lemma skip_none p l : facing p l → stop is_json_ws l → skip_ws bytes p = p.
Proof. intros Hf Hs. destruct (skip_facing p [] l Hf) as [-> _]; [constructor|done|]. apply adv_0. Qed.

Lemma literal_reads lit v p post :
  facing p (String.list_ascii_of_string lit ++ post) →
  literal bytes lit v p = POk v (adv (length (String.list_ascii_of_string lit)) p).
Proof.
  intros [E _]. unfold literal. rewrite E, take_app_length. by rewrite bool_decide_eq_true_2.
Qed.

(** *** Strings *)

Lemma hex_lowercase z : (0 ≤ z < 16)%Z → hex_val (lowercase_hex z) = Some z.
Proof.
  intros Hz. unfold lowercase_hex, hex_val, code_in. rewrite code_byte by (destruct (Z.ltb_spec z 10); lia).
  destruct (Z.ltb_spec z 10).
  - rewrite (proj2 (andb_true_iff _ _)) by lia. f_equal. lia.
  - rewrite (proj2 (andb_false_iff _ _)) by lia. rewrite (proj2 (andb_true_iff _ _)) by lia. f_equal. lia.
Qed.

Lemma lor_hex m d : (0 ≤ m < 4096)%Z → (0 ≤ d < 16)%Z → Z.lor (Z.shiftl m 4 `mod` 65536) d = (m * 16 + d)%Z.
Proof.
  intros Hm Hd. rewrite Z.shiftl_mul_pow2 by lia. change (2 ^ 4)%Z with 16%Z. rewrite Z.mod_small by lia.
  assert (Z.land (m * 16) d = 0%Z) as H0.
  { apply Z.bits_inj'. intros k Hk. rewrite Z.land_spec, Z.bits_0. destruct (Z.lt_ge_cases k 4).
    - change 16%Z with (2 ^ 4)%Z. by rewrite Z.mul_pow2_bits_low.
    - rewrite andb_comm, (Z.bits_above_log2 d); [done|lia|].
      destruct (Z.eq_dec d 0%Z) as [->|]; [simpl; lia|]. apply Z.log2_lt_pow2; [lia|].
      apply Z.lt_le_trans with (2 ^ 4)%Z; [lia|]. apply Z.pow_le_mono_r; lia. }
  rewrite <-Z.lxor_lor by done. symmetry. by apply Z.add_nocarry_lxor.
Qed.

Lemma parse_hex_step count m p d l :
  facing p (lowercase_hex d :: l) → (0 ≤ m < 4096)%Z → (0 ≤ d < 16)%Z →
  parse_hex bytes (S count) m p = parse_hex bytes count (m * 16 + d) (adv 1 p) ∧ facing (adv 1 p) l.
Proof.
  intros Hf Hm Hd. destruct (facing_bump _ _ _ Hf) as [E Hf']. split; [|done]. cbn [parse_hex].
  by rewrite E, hex_lowercase, lor_hex.
Qed.

(** A control character comes back from its four digits. *)
Lemma unicode_escape_reads a out p post :
  (code a ≤ 31)%Z → facing p (unicode_escape (code a) ++ post) →
  parse_escape bytes out (adv 1 p) = POk (out ++ [a]) (adv 6 p) ∧ facing (adv 6 p) post.
Proof.
  intros Ha Hf. assert (0 ≤ code a)%Z as H0 by (unfold code; lia).
  unfold unicode_escape in Hf. cbn [app] in Hf. set (z := code a) in *.
  destruct (facing_bump _ _ _ Hf) as [_ Hf1]. destruct (facing_bump _ _ _ Hf1) as [E2 Hf2].
  unfold parse_escape. rewrite E2. cbn [eqc]. change (parse_unicode_escape bytes out (adv 1 (adv 1 p)) = POk (out ++ [a]) (adv 6 p) ∧ facing (adv 6 p) post).
  unfold parse_unicode_escape, parse_hex4.
  assert (∀ k, (0 ≤ (z / k) `mod` 16 < 16)%Z) as Hm by (intros k; apply Z.mod_pos_bound; lia).
  destruct (parse_hex_step 3 0%Z _ _ _ Hf2 ltac:(lia) (Hm 4096%Z)) as [-> Hf3].
  assert ((z / 4096) `mod` 16 = 0 ∧ (z / 256) `mod` 16 = 0)%Z as [Z1 Z2] by (Z.to_euclidean_division_equations; lia).
  rewrite Z1. destruct (parse_hex_step 2 (0 * 16 + 0)%Z _ _ _ Hf3 ltac:(lia) (Hm 256%Z)) as [-> Hf4]. rewrite Z2.
  destruct (parse_hex_step 1 ((0 * 16 + 0) * 16 + 0)%Z _ _ _ Hf4 ltac:(lia) (Hm 16%Z)) as [-> Hf5].
  pose proof (Hm 16%Z). pose proof (Hm 1%Z) as Hm1. rewrite Z.div_1_r in Hm1.
  destruct (parse_hex_step 0 (((0 * 16 + 0) * 16 + 0) * 16 + (z / 16) `mod` 16)%Z _ _ _ Hf5 ltac:(lia) Hm1) as [-> Hf6].
  cbn [parse_hex parsed_bind].
  replace ((((0 * 16 + 0) * 16 + 0) * 16 + (z / 16) `mod` 16) * 16 + z `mod` 16)%Z with z
    by (Z.to_euclidean_division_equations; lia).
  rewrite (proj2 (andb_false_iff _ _)) by lia. rewrite (proj2 (andb_false_iff _ _)) by lia.
  unfold push_char, char_from_u32, is_scalar, encode_utf8.
  rewrite (proj2 (orb_true_iff _ _)) by lia. destruct (Z.ltb_spec z 128); [|lia].
  assert (byte z = a) as -> by (apply code_inj; rewrite code_byte; [done|lia]).
  rewrite !adv_adv in *. by split.
Qed.
Lemma escape_step fuel out p b l :
  facing p (backslash :: b :: l) →
  string_loop bytes (S fuel) out p = parsed_bind (parse_escape bytes out (adv 1 p)) (string_loop bytes fuel).
Proof. intros Hf. destruct (facing_bump _ _ _ Hf) as [E _]. cbn [string_loop]. by rewrite E. Qed.

(** The escapes of one letter. *)
Lemma letter_step fuel out p b a l :
  facing p (backslash :: b :: l) →
  (∀ q, bump bytes q = (Some b, adv 1 q) → parse_escape bytes out q = POk (out ++ [a]) (adv 1 q)) →
  string_loop bytes (S fuel) out p = string_loop bytes fuel (out ++ [a]) (adv 2 p).
Proof.
  intros Hf He. rewrite (escape_step _ _ _ _ _ Hf). destruct (facing_bump _ _ _ Hf) as [_ Hf1].
  destruct (facing_bump _ _ _ Hf1) as [E _]. rewrite (He _ E). simpl. by rewrite adv_adv.
Qed.

(** A character of one byte. *)
Lemma ascii_step fuel out p a l :
  is_ascii a = true → facing p (write_char a ++ l) →
  string_loop bytes (S fuel) out p = string_loop bytes fuel (out ++ [a]) (adv (length (write_char a)) p).
Proof.
  intros Ha Hf. unfold write_char in *.
  repeat match type of Hf with
  | facing _ ((if eqc a ?b then _ else _) ++ _) =>
      destruct (eqc a b) eqn:?;
        [match goal with E : eqc a b = true |- _ => apply eqc_true in E; subst a end;
         eapply letter_step; [exact Hf|]; intros q E; unfold parse_escape; rewrite E; reflexivity|]
  end.
  destruct (Z.leb_spec (code a) 31) as [Hc|Hc].
  - rewrite (escape_step _ _ _ _ _ Hf).
    destruct (unicode_escape_reads a out p l Hc Hf) as [-> _]. done.
  - destruct (facing_bump _ _ _ Hf) as [E _]. cbn [string_loop]. rewrite E.
    repeat match goal with H : eqc a _ = false |- _ => rewrite H; clear H end.
    destruct (Z.leb_spec (code a) 31); [lia|]. by rewrite Ha.
Qed.

(** A character of several bytes. *)
Lemma multi_step fuel out p c l :
  multibyte c = true → facing p (c ++ l) → utf8 l →
  string_loop bytes (S fuel) out p = string_loop bytes fuel (out ++ c) (adv (length c) p).
Proof.
  intros Hc Hf Hl. destruct (multibyte_front c l Hc) as (Hlen & _ & a & c' & -> & Ha).
  pose proof (multibyte_high _ Hc) as [Hhigh _]%Forall_cons.
  destruct (facing_bump _ _ _ Hf) as [E _]. cbn [string_loop]. rewrite E. unfold eqc.
  rewrite !bool_decide_eq_false_2 by (intros ->; vm_compute in Hhigh; done).
  destruct (Z.leb_spec (code a) 31); [lia|]. rewrite Ha. unfold slice_from. cbn [pos adv set_pos].
  replace (pos p + 1 - 1) with (pos p) by lia. destruct Hf as [E' Hp]. rewrite bool_decide_eq_true_2 by done.
  rewrite E', (proj2 (from_utf8_iff _)) by (by apply utf8_multi). rewrite Hlen, take_app_length. done.
Qed.

Lemma write_char_length a : 1 ≤ length (write_char a).
Proof. unfold write_char. repeat (case_match; [simpl; lia|]). simpl. lia. Qed.

Lemma string_loop_reads s out p fuel post :
  utf8 s → facing p (escape s ++ quote :: post) → utf8 post → length bytes - pos p < fuel →
  string_loop bytes fuel out p = POk (String.string_of_list_ascii (out ++ s)) (adv (S (length (escape s))) p).
Proof.
  intros Hs Hf Hpost. revert out p fuel Hf. induction Hs as [|a s Ha Hs IH|c s Hc Hs IH]; intros out p fuel Hf Hfuel;
    (destruct fuel as [|fuel]; [lia|]).
  - destruct (facing_bump _ _ _ Hf) as [E _]. cbn [string_loop]. rewrite E. by rewrite app_nil_r.
  - change (escape (a :: s)) with (write_char a ++ escape s) in *. rewrite <-(assoc_L (++)) in Hf.
    rewrite (ascii_step _ _ _ _ _ Ha Hf). apply facing_adv in Hf as Hf'.
    pose proof (write_char_length a). pose proof (facing_length _ _ Hf'). rewrite (IH _ _ _ Hf') by (simpl in *; lia).
    rewrite adv_adv, length_app, <-(assoc_L (++)). do 2 f_equal. lia.
  - assert (escape (c ++ s) = c ++ escape s) as E by (unfold escape; rewrite bind_app; f_equal; by apply escape_multibyte).
    rewrite E, <-(assoc_L (++)) in *.
    assert (utf8 (escape s ++ quote :: post)) as Htail by (apply utf8_app; [by apply escape_utf8|by apply utf8_ascii]).
    rewrite (multi_step _ _ _ _ _ Hc Hf Htail). apply facing_adv in Hf as Hf'.
    assert (1 ≤ length c) by (destruct c; [done|simpl; lia]). pose proof (facing_length _ _ Hf').
    rewrite (IH _ _ _ Hf') by (simpl in *; lia).
    rewrite adv_adv, length_app, <-(assoc_L (++)). do 2 f_equal. lia.
Qed.

Lemma parse_string_reads s p post :
  utf8 (String.list_ascii_of_string s) → facing p (write_string s ++ post) → utf8 post →
  parse_string bytes p = POk s (adv (length (write_string s)) p).
Proof.
  intros Hs Hf Hpost. unfold write_string in *. fold (escape (String.list_ascii_of_string s)) in *.
  cbn [app] in Hf. rewrite <-(assoc_L (++)) in Hf. destruct (facing_bump _ _ _ Hf) as [E Hf1].
  unfold parse_string. rewrite E. cbn [app] in Hf1. change (eqc quote quote) with true. cbv iota.
  rewrite (string_loop_reads _ [] _ _ post Hs Hf1 Hpost) by lia.
  cbn [app]. rewrite adv_adv, String.string_of_list_ascii_of_string. cbn [length]. rewrite length_app.
  cbn [length]. do 2 f_equal. lia.
Qed.

(** *** Numbers *)

(** What may follow a number. *)
Definition number_stop l : Prop :=
  stop is_digit l ∧ stop (λ b, eqc b "."%char) l ∧ stop (λ b, eqc b "e"%char || eqc b "E"%char) l.

Lemma peek_is_facing f p b l : facing p (b :: l) → peek_is bytes f p = f b.
Proof. intros Hf. unfold peek_is. by rewrite (facing_peek _ _ _ Hf). Qed.

Lemma peek_is_stop f p l : facing p l → stop f l → peek_is bytes f p = false.
Proof.
  intros Hf Hs. destruct l as [|b l]; [|by rewrite (peek_is_facing f _ _ _ Hf)].
  unfold peek_is, peek. destruct Hf as [E _]. rewrite <-(Nat.add_0_r (pos p)), <-lookup_drop, E. done.
Qed.

Lemma int_part_facing p ip l :
  int_text ip → facing p (ip ++ l) → stop is_digit l →
  parse_int_part bytes p = POk tt (adv (length ip) p) ∧ facing (adv (length ip) p) l.
Proof.
  intros Hip Hf Hs. split; [|by apply facing_adv]. unfold parse_int_part.
  destruct Hip as [->|(d & ds & -> & Hd & Hne & Hds)]; cbn [app] in Hf; rewrite (facing_peek _ _ _ Hf).
  - simpl. unfold adv. by rewrite Nat.add_1_r.
  - unfold eqc at 1. rewrite bool_decide_eq_false_2, Hd by done. destruct (facing_bump _ _ _ Hf) as [_ Hf1].
    destruct (advance_facing is_digit _ _ _ Hf1 Hds Hs) as [E _].
    replace (set_pos (S (pos p)) p) with (adv 1 p) by (unfold adv; by rewrite Nat.add_1_r).
    by rewrite E, adv_adv.
Qed.

Lemma digits1_facing m p ds l :
  ds ≠ [] → all_digits ds → facing p (ds ++ l) → stop is_digit l →
  parse_digits1 bytes m p = POk tt (adv (length ds) p) ∧ facing (adv (length ds) p) l.
Proof.
  intros Hne Hds Hf Hs. unfold parse_digits1. destruct (advance_facing is_digit _ _ _ Hf Hds Hs) as [-> Hf'].
  rewrite bool_decide_eq_false_2; [done|]. simpl. destruct ds; [done|]. simpl. lia.
Qed.

Lemma fraction_facing p fr l :
  frac_text fr → facing p (fr ++ l) → stop is_digit l → stop (λ b, eqc b "."%char) l →
  parse_fraction bytes p = POk tt (adv (length fr) p) ∧ facing (adv (length fr) p) l.
Proof.
  intros Hfr Hf Hs1 Hs2. unfold parse_fraction. destruct Hfr as [->|(ds & -> & Hne & Hds)].
  - rewrite (peek_is_stop _ _ _ Hf Hs2). cbn [length]. by rewrite adv_0.
  - cbn [app] in Hf. rewrite (peek_is_facing _ _ _ _ Hf). destruct (facing_bump _ _ _ Hf) as [_ Hf1].
    replace (set_pos (S (pos p)) p) with (adv 1 p) by (unfold adv; by rewrite Nat.add_1_r).
    destruct (digits1_facing "invalid number fraction" _ _ _ Hne Hds Hf1 Hs1) as [-> Hf2].
    by rewrite adv_adv in *.
Qed.

Lemma exponent_facing p ex l :
  exp_text ex → facing p (ex ++ l) → stop is_digit l → stop (λ b, eqc b "e"%char || eqc b "E"%char) l →
  parse_exponent bytes p = POk tt (adv (length ex) p) ∧ facing (adv (length ex) p) l.
Proof.
  intros Hex Hf Hs1 Hs2. unfold parse_exponent. destruct Hex as [->|(e & sg & ds & -> & He & Hsg & Hne & Hds)].
  - rewrite (peek_is_stop _ _ _ Hf Hs2). cbn [length]. by rewrite adv_0.
  - cbn [app] in Hf. rewrite (peek_is_facing _ _ _ _ Hf). destruct (facing_bump _ _ _ Hf) as [_ Hf1].
    replace (eqc e "e"%char || eqc e "E"%char) with true by (destruct He as [->| ->]; done).
    replace (set_pos (S (pos p)) p) with (adv 1 p) by (unfold adv; by rewrite Nat.add_1_r).
    rewrite <-(assoc_L (++)) in Hf1.
    assert ((if peek_is bytes (λ b, eqc b "+"%char || eqc b "-"%char) (adv 1 p) then set_pos (S (pos (adv 1 p))) (adv 1 p) else adv 1 p)
      = adv (length sg) (adv 1 p)) as ->.
    { destruct Hsg as [->|[->| ->]].
      - destruct ds as [|d ds]; [done|]. apply Forall_cons in Hds as [Hd _]. cbn [app] in Hf1.
        rewrite (peek_is_facing _ _ _ _ Hf1). cbn [length]. rewrite adv_0. unfold eqc.
        by rewrite !bool_decide_eq_false_2 by (intros ->; done).
      - cbn [app] in Hf1. rewrite (peek_is_facing _ _ _ _ Hf1). simpl. unfold adv. simpl. by rewrite (Nat.add_1_r (pos p + 1)).
      - cbn [app] in Hf1. rewrite (peek_is_facing _ _ _ _ Hf1). simpl. unfold adv. simpl. by rewrite (Nat.add_1_r (pos p + 1)). }
    apply facing_adv in Hf1. destruct (digits1_facing "invalid number exponent" _ _ _ Hne Hds Hf1 Hs1) as [-> Hf2].
    rewrite !adv_adv in *. cbn [length]. rewrite length_app. replace (1 + (length sg + length ds)) with (S (length sg + length ds)) in * by lia. done.
Qed.
Lemma frac_stop fr l : frac_text fr → stop is_digit l → stop is_digit (fr ++ l).
Proof. by intros [->|(ds & -> & _)]. Qed.

Lemma exp_stop ex l :
  exp_text ex → (stop is_digit l → stop is_digit (ex ++ l)) ∧
  (stop (λ b, eqc b "."%char) l → stop (λ b, eqc b "."%char) (ex ++ l)).
Proof. intros [->|(e & sg & ds & -> & [->| ->] & _)]; [done|by split..]. Qed.

Lemma int_not_minus ip l : int_text ip → stop (λ b, eqc b "-"%char) (ip ++ l).
Proof.
  intros [->|(d & ds & -> & Hd & _)]; [done|]. simpl. unfold eqc.
  by rewrite bool_decide_eq_false_2 by (intros ->; done).
Qed.

Lemma parse_number_reads l p post :
  number_text l → facing p (l ++ post) → number_stop post →
  parse_number bytes p = POk {| raw := String.string_of_list_ascii l |} (adv (length l) p).
Proof.
  intros Hnum Hf (Hs1 & Hs2 & Hs3). pose proof Hnum as (sg & ip & fr & ex & El & Hsg & Hip & Hfr & Hex).
  assert (facing p (sg ++ ip ++ fr ++ ex ++ post)) as Hf0 by (by rewrite El, <- !(assoc_L (++)) in Hf).
  unfold parse_number.
  assert ((if peek_is bytes (λ b, eqc b "-"%char) p then set_pos (S (pos p)) p else p) = adv (length sg) p) as ->.
  { destruct Hsg as [->| ->].
    - rewrite (peek_is_stop _ _ _ Hf0 (int_not_minus ip _ Hip)). simpl. by rewrite adv_0.
    - rewrite (peek_is_facing _ _ _ _ Hf0). simpl. unfold adv. by rewrite Nat.add_1_r. }
  apply facing_adv in Hf0. destruct (exp_stop ex post Hex) as [He1 He2].
  destruct (int_part_facing _ _ _ Hip Hf0) as [-> Hf1]; [apply frac_stop; auto|]. cbn [parsed_bind].
  destruct (fraction_facing _ _ _ Hfr Hf1) as [-> Hf2]; [auto..|]. cbn [parsed_bind].
  destruct (exponent_facing _ _ _ Hex Hf2 Hs1 Hs3) as [-> Hf3]. cbn [parsed_bind]. rewrite !adv_adv in *.
  replace (length sg + (length ip + (length fr + length ex))) with (length l) in *
    by (subst l; rewrite !length_app; lia).
  rewrite bool_decide_eq_true_2 by (apply Hf3). destruct Hf as [E Hp].
  change (pos (adv (length l) p)) with (pos p + length l).
  replace (pos p + length l - pos p) with (length l) by lia. rewrite E, take_app_length.
  by rewrite (proj2 (from_utf8_iff _)) by (by apply ascii_utf8, number_ascii).
Qed.

(** *** Values *)

(** The first character a value is printed with. *)
Definition value_start (b : char) : bool :=
  negb (is_json_ws b || eqc b "]"%char || eqc b "}"%char || eqc b ","%char).

Lemma number_start l : number_text l → ∃ b l', l = b :: l' ∧ eqc b "-"%char || is_digit b = true.
Proof.
  intros (sg & ip & fr & ex & -> & [->| ->] & Hip & _); [|by eexists _, _].
  destruct Hip as [->|(d & ds & -> & Hd & _)]; eexists _, _; (split; [done|]); [done|by rewrite Hd, orb_true_r].
Qed.

(** A character a number starts with starts nothing else. *)
Lemma number_start_only b :
  eqc b "-"%char || is_digit b = true →
  value_start b = true ∧ eqc b "n"%char = false ∧ eqc b "t"%char = false ∧ eqc b "f"%char = false ∧
  eqc b quote = false ∧ eqc b "["%char = false ∧ eqc b "{"%char = false.
Proof.
  intros Hb. assert (∀ c, eqc c "-"%char || is_digit c = false → eqc b c = false) as Hne.
  { intros c Hc. unfold eqc at 1. apply bool_decide_eq_false_2. intros <-. congruence. }
  unfold value_start, is_json_ws. rewrite !Hne by done. done.
Qed.

Lemma write_json_start v pretty m d :
  value_ok d v → ∃ b l, write_json v pretty m = b :: l ∧ value_start b = true.
Proof.
  intros [Hwf _]. destruct v as [|[]|x|s|vs|es]; try (by eexists _, _).
  destruct (number_start _ Hwf) as (b & l & E & Hb). exists b, l. split; [done|by apply number_start_only].
Qed.

Lemma value_start_stop b l : value_start b = true → stop is_json_ws (b :: l) ∧ stop (λ b, eqc b "]"%char) (b :: l).
Proof. unfold value_start. simpl. rewrite negb_true_iff, !orb_false_iff. tauto. Qed.

(** What stands between two items or before the closing bracket, and stops a number. *)
Lemma number_stop_char b l :
  b = ","%char ∨ b = "]"%char ∨ b = "}"%char ∨ is_json_ws b = true → number_stop (b :: l).
Proof.
  unfold is_json_ws. rewrite !orb_true_iff, !eqc_true. unfold number_stop. simpl.
  intros [->|[->|[->|[[[->| ->]| ->]| ->]]]]; done.
Qed.

Lemma number_stop_ws l b post :
  all_ws l → b = ","%char ∨ b = "]"%char ∨ b = "}"%char → number_stop (l ++ b :: post).
Proof. intros Hl Hb. destruct Hl as [|a l Ha]; simpl; apply number_stop_char; tauto. Qed.

(** The parser reads [v] back from its text. *)
Definition reads_back (v : JsonValue) : Prop :=
  ∀ pretty m p post fuel,
    facing p (write_json v pretty m ++ post) → value_ok (room (depth p)) v → depth p ≤ MAX_DEPTH →
    number_stop post → utf8 post → 2 * (length bytes - pos p) + 1 ≤ fuel →
    parse_value bytes fuel p = POk v (adv (length (write_json v pretty m)) p).
(** *** Arrays *)

(** White space, then a character. *)
Lemma skip_bump p ws b l :
  facing p (ws ++ b :: l) → all_ws ws → is_json_ws b = false →
  bump bytes (skip_ws bytes p) = (Some b, adv (S (length ws)) p) ∧ facing (adv (S (length ws)) p) l.
Proof.
  intros Hf Hws Hb. destruct (skip_facing p ws (b :: l) Hf Hws Hb) as [-> Hf1].
  destruct (facing_bump _ _ _ Hf1) as [-> Hf2]. rewrite adv_adv, Nat.add_1_r in *. done.
Qed.

Lemma write_sep_false pretty m : write_sep false pretty m = ","%char :: indent pretty (m + 1).
Proof. done. Qed.

(** What follows an item: more items, the last indentation and the bracket [c]. *)
Lemma tail_ok (items : list char) pretty m c post :
  utf8 items → (items = [] ∨ ∃ l, items = ","%char :: l) → c = "]"%char ∨ c = "}"%char → utf8 post →
  number_stop (items ++ write_close false pretty m ++ c :: post) ∧
  utf8 (items ++ write_close false pretty m ++ c :: post).
Proof.
  intros Hi Hor Hc Hpost. split.
  - destruct Hor as [->|[l ->]]; [apply number_stop_ws; [apply write_close_ws|tauto]|by apply number_stop_char; left].
  - apply utf8_app; [done|]. apply utf8_app; [apply ws_utf8, write_close_ws|].
    apply utf8_ascii; [by destruct Hc as [->| ->]|done].
Qed.

Lemma items_tail_ok pretty m vs d post :
  Forall (value_ok d) vs → utf8 post →
  let tail := write_items pretty m false vs ++ write_close false pretty m ++ "]"%char :: post in
  number_stop tail ∧ utf8 tail.
Proof.
  intros Hvs Hpost. apply tail_ok; [|destruct vs; [by left|right; by eexists]|by left|done].
  apply items_utf8. eapply Forall_impl; [exact Hvs|]. intros v. apply write_json_utf8.
Qed.

Definition items_length pretty m v vs : nat :=
  length (write_json v pretty (m + 1) ++ write_items pretty m false vs ++ write_close false pretty m ++ ["]"%char]).

Lemma elements_read_back pretty m post vs v acc p ws fuel :
  Forall reads_back (v :: vs) → Forall (value_ok (room (depth p))) (v :: vs) → depth p ≤ MAX_DEPTH → utf8 post →
  facing p (ws ++ write_json v pretty (m + 1) ++ write_items pretty m false vs ++ write_close false pretty m ++ "]"%char :: post) →
  all_ws ws → 2 * (length bytes - pos p) + 2 ≤ fuel →
  parse_elements bytes fuel acc p
  = POk (JArray (acc ++ v :: vs)) (leave_nested (adv (length ws + items_length pretty m v vs) p)).
Proof.
  intros Hrb Hok Hd Hpost. revert v acc p ws fuel Hrb Hok Hd.
  induction vs as [|v' vs IH]; intros v acc p ws fuel [Hv Hrb]%Forall_cons [Hvok Hok]%Forall_cons Hd Hf Hws Hfuel;
    (destruct fuel as [|fuel]; [lia|]); cbn [parse_elements].
  all: destruct (write_json_start v pretty (m + 1) _ Hvok) as (b & l & Ev & Hb).
  all: destruct (skip_facing _ _ _ Hf Hws) as [-> Hf1]; [rewrite Ev; by apply value_start_stop|].
  all: pose proof (facing_length _ _ Hf1) as Hl1.
  all: destruct (items_tail_ok pretty m _ _ post Hok Hpost) as [Hstop Hu].
  all: rewrite (Hv pretty (m + 1) _ _ fuel Hf1 Hvok Hd Hstop Hu) by (simpl in *; lia).
  all: apply facing_adv in Hf1 as Hf2; rewrite adv_adv in *.
  - cbn [write_items app] in Hf2.
    destruct (skip_bump _ _ _ _ Hf2 (write_close_ws false pretty m) eq_refl) as [-> _].
    rewrite adv_adv. change (eqc "]" ","%char) with false. change (eqc "]" "]"%char) with true. cbv iota. do 3 f_equal.
    unfold items_length. cbn [write_items app]. rewrite !length_app. simpl. lia.
  - cbn [write_items] in Hf2. rewrite write_sep_false, <-(assoc_L (++)) in Hf2. cbn [app] in Hf2.
    destruct (skip_bump _ [] _ _ Hf2 (Forall_nil_2 _) eq_refl) as [-> Hf3]. rewrite adv_adv in *.
    change (eqc "," ","%char) with true. cbv iota. pose proof (facing_length _ _ Hf2) as Hl2.
    rewrite <-(assoc_L (++)) in Hf3.
    match type of Hf3 with facing ?q _ =>
      rewrite (IH v' (acc ++ [v]) q _ fuel Hrb Hok Hd Hf3 (indent_ws _ _)) by (cbn [pos adv set_pos length] in *; lia) end.
    rewrite adv_adv, <-(assoc_L (++)). do 3 f_equal.
    unfold items_length. cbn [write_items]. rewrite write_sep_false. cbn [length].
    rewrite !length_app. cbn [length]. lia.
Qed.
(** *** Objects *)

Lemma entries_tail_ok pretty m es d post :
  Forall (entry_ok d) es → utf8 post →
  let tail := write_entries pretty m false es ++ write_close false pretty m ++ "}"%char :: post in
  number_stop tail ∧ utf8 tail.
Proof.
  intros Hes Hpost. apply tail_ok; [|destruct es as [|[]]; [by left|right; by eexists]|by right|done].
  apply entries_utf8. eapply Forall_impl; [exact Hes|]. intros e [? ?]. eauto using write_json_utf8.
Qed.

Definition key_gap (pretty : option nat) : list char := if pretty then [" "%char] else [].

Lemma key_gap_ws pretty : all_ws (key_gap pretty).
Proof. destruct pretty; by repeat constructor. Qed.

(** One entry: the key, the colon and the value, up to the tail. *)
Lemma entry_read_back pretty m tail k v es p ws fuel :
  reads_back v → entry_ok (room (depth p)) (k, v) → depth p ≤ MAX_DEPTH → number_stop tail → utf8 tail →
  facing p (ws ++ write_string k ++ ":"%char :: key_gap pretty ++ write_json v pretty (m + 1) ++ tail) →
  all_ws ws → 2 * (length bytes - pos p) + 1 ≤ fuel →
  let used := length ws + length (write_string k) + 1 + length (key_gap pretty) + length (write_json v pretty (m + 1)) in
  parse_entries bytes (S fuel) es p =
    match bump bytes (skip_ws bytes (adv used p)) with
    | (Some b, p) =>
        if eqc b ","%char then parse_entries bytes fuel (es ++ [(k, v)]) p
        else if eqc b "}"%char then POk (JObject (es ++ [(k, v)])) (leave_nested p)
        else PErr (err p "expected ',' or '}'") (leave_nested p)
    | (None, p) => PErr (err p "expected ',' or '}'") (leave_nested p)
    end.
Proof.
  intros Hrb [Hk Hv] Hd Hstop Hu Hf Hws Hfuel used. cbn [parse_entries].
  destruct (skip_facing _ _ _ Hf Hws) as [-> Hf1]; [done|]. set (p1 := adv (length ws) p) in *.
  rewrite (peek_is_facing _ p1 _ _ Hf1). change (eqc quote quote) with true. cbn [negb].
  destruct (write_json_start v pretty (m + 1) _ Hv) as (b & l & Ev & Hb).
  assert (utf8 (":"%char :: key_gap pretty ++ write_json v pretty (m + 1) ++ tail)) as Hu1.
  { apply utf8_ascii; [done|]. apply utf8_app; [apply ws_utf8, key_gap_ws|]. apply utf8_app; [by eapply write_json_utf8|done]. }
  rewrite (parse_string_reads k p1 _ Hk Hf1 Hu1). apply facing_adv in Hf1. set (p2 := adv _ p1) in *.
  destruct (skip_bump _ [] _ _ Hf1 (Forall_nil_2 _) eq_refl) as [-> Hf2]. change (eqc ":" ":"%char) with true. cbv iota.
  set (p3 := adv _ p2) in *.
  destruct (skip_facing _ _ _ Hf2 (key_gap_ws pretty)) as [-> Hf3]; [rewrite Ev; by apply value_start_stop|].
  set (p4 := adv _ p3) in *. pose proof (facing_length _ _ Hf3) as Hl.
  rewrite (Hrb pretty (m + 1) p4 _ fuel Hf3 Hv Hd Hstop Hu) by (simpl in *; lia).
  assert (adv (length (write_json v pretty (m + 1))) p4 = adv used p) as ->; [|done].
  unfold p4, p3, p2, p1. rewrite !adv_adv. f_equal. unfold used. simpl. lia.
Qed.
Definition entries_length pretty m k v es : nat :=
  length (write_string k ++ ":"%char :: key_gap pretty ++ write_json v pretty (m + 1) ++
          write_entries pretty m false es ++ write_close false pretty m ++ ["}"%char]).

Lemma entries_read_back pretty m post es k v acc p ws fuel :
  Forall (λ e, reads_back e.2) ((k, v) :: es) → Forall (entry_ok (room (depth p))) ((k, v) :: es) →
  depth p ≤ MAX_DEPTH → utf8 post →
  facing p (ws ++ write_string k ++ ":"%char :: key_gap pretty ++ write_json v pretty (m + 1) ++
            write_entries pretty m false es ++ write_close false pretty m ++ "}"%char :: post) →
  all_ws ws → 2 * (length bytes - pos p) + 2 ≤ fuel →
  parse_entries bytes fuel acc p
  = POk (JObject (acc ++ (k, v) :: es)) (leave_nested (adv (length ws + entries_length pretty m k v es) p)).
Proof.
  intros Hrb Hok Hd Hpost. revert k v acc p ws fuel Hrb Hok Hd.
  induction es as [|[k' v'] es IH]; intros k v acc p ws fuel [Hv Hrb]%Forall_cons [Hvok Hok]%Forall_cons Hd Hf Hws Hfuel;
    (destruct fuel as [|fuel]; [lia|]).
  all: destruct (entries_tail_ok pretty m _ _ post Hok Hpost) as [Hstop Hu].
  all: rewrite (entry_read_back pretty m _ k v acc p ws fuel Hv Hvok Hd Hstop Hu Hf Hws) by lia.
  all: set (used := length ws + _ + 1 + _ + _).
  all: match type of Hf with facing ?q (?sp ++ ?s ++ ?c :: ?gap ++ ?w ++ ?tail) =>
         assert (facing (adv used q) tail) as Hf2 by
           (replace used with (length (sp ++ s ++ c :: gap ++ w))
              by (unfold used; rewrite !length_app; cbn [length]; rewrite length_app; lia);
            apply facing_adv; rewrite <- !app_assoc; cbn [app]; rewrite <- !app_assoc; exact Hf) end.
  - cbn [write_entries app] in Hf2.
    destruct (skip_bump _ _ _ _ Hf2 (write_close_ws false pretty m) eq_refl) as [-> _]. rewrite adv_adv.
    change (eqc "}" ","%char) with false. change (eqc "}" "}"%char) with true. cbv iota. do 3 f_equal.
    unfold entries_length, used. cbn [write_entries app]. rewrite !length_app. cbn [length]. rewrite !length_app. simpl. lia.
  - cbn [write_entries] in Hf2. rewrite write_sep_false, <-(assoc_L (++)) in Hf2. cbn [app] in Hf2.
    destruct (skip_bump _ [] _ _ Hf2 (Forall_nil_2 _) eq_refl) as [-> Hf3]. rewrite adv_adv in *.
    change (eqc "," ","%char) with true. cbv iota. pose proof (facing_length _ _ Hf2) as Hl2.
    rewrite <- !app_assoc in Hf3. cbn [app] in Hf3. rewrite <- !app_assoc in Hf3.
    match type of Hf3 with facing ?q _ =>
      rewrite (IH k' v' (acc ++ [(k, v)]) q _ fuel Hrb Hok Hd Hf3 (indent_ws _ _)) by (cbn [pos adv set_pos length] in *; lia) end.
    rewrite adv_adv, <-(assoc_L (++)). do 3 f_equal.
    unfold entries_length, used. cbn [write_entries]. rewrite write_sep_false.
    repeat (rewrite !length_app || cbn [length]). fold (key_gap pretty). lia.
Qed.
(** *** All values *)

(** Going into an array or an object. *)
Lemma open_reads p c ws l close (empty : JsonValue) (rest : Parser → parsed JsonValue) :
  facing p (c :: ws ++ l) → all_ws ws → stop is_json_ws l → depth p < MAX_DEPTH →
  let q := adv (S (length ws)) (set_depth (S (depth p)) p) in
  facing q l ∧
  (enter_nested p >>=p λ _ p,
   let p := skip_ws bytes (bump bytes p).2 in
   if peek_is bytes (λ b, eqc b close) p then POk empty (leave_nested (bump bytes p).2) else rest p)%cruft
  = (if peek_is bytes (λ b, eqc b close) q then POk empty (leave_nested (bump bytes q).2) else rest q).
Proof.
  intros Hf Hws Hs Hd q. unfold enter_nested. rewrite bool_decide_eq_false_2 by lia. cbn [parsed_bind].
  assert (facing (set_depth (S (depth p)) p) (c :: ws ++ l)) as Hf1 by exact Hf.
  destruct (facing_bump _ _ _ Hf1) as [-> Hf2]. cbn [snd]. destruct (skip_facing _ _ _ Hf2 Hws Hs) as [-> Hf3].
  rewrite adv_adv in *. done.
Qed.

Lemma leave_entered k p : leave_nested (adv k (set_depth (S (depth p)) p)) = adv k p.
Proof. destruct p. unfold leave_nested, adv, set_depth, set_pos. simpl. by rewrite Nat.sub_0_r. Qed.

Lemma nested_room p v d :
  value_ok (room (depth p)) v → nesting v = S d → depth p < MAX_DEPTH ∧ room (depth p) = S (room (S (depth p))).
Proof. unfold room. intros [_ Hn] E. lia. Qed.

(** Evaluates comparisons of given characters. *)
Ltac eval_eqc :=
  repeat match goal with |- context [eqc ?a ?b] =>
    let r := eval vm_compute in (eqc a b) in
    match r with true => change (eqc a b) with true | false => change (eqc a b) with false end
  end; cbn [orb]; cbv iota.

Lemma array_reads_back vs : Forall reads_back vs → reads_back (JArray vs).
Proof.
  intros Hrb pretty m p post fuel Hf Hok Hd Hstop Hu Hfuel. destruct fuel as [|fuel]; [lia|].
  destruct (nested_room p _ _ Hok eq_refl) as [Hlt Hroom]. rewrite Hroom, array_ok in Hok. rewrite write_array in *.
  pose proof (facing_length _ _ Hf) as Hlen. cbn [app] in Hf. rewrite <- !app_assoc in Hf. cbn [app] in Hf.
  cbn [parse_value]. rewrite (facing_peek _ _ _ Hf). eval_eqc. destruct vs as [|v vs].
  - pose proof (open_reads p "["%char [] _ "]"%char (JArray []) (parse_elements bytes fuel []) Hf (Forall_nil_2 _) eq_refl Hlt) as Ho. cbv zeta in Ho. destruct Ho as [Hq ->].
    rewrite (peek_is_facing _ _ _ _ Hq). destruct (facing_bump _ _ _ Hq) as [-> _]. cbn [snd].
    rewrite adv_adv. eval_eqc. by rewrite leave_entered.
  - pose proof (Forall_inv Hok) as Hv. destruct (write_json_start v pretty (m + 1) _ Hv) as (b & l & Ev & Hb).
    cbn [write_items length] in *. change (bool_decide (S (length vs) = 0)) with false in *.
    change (write_sep true pretty m) with (indent pretty (m + 1)) in *. rewrite <- !app_assoc in Hf.
    pose proof (open_reads p "["%char _ _ "]"%char (JArray []) (parse_elements bytes fuel []) Hf (indent_ws _ _)) as Ho. cbv zeta in Ho.
    destruct Ho as [Hq ->]; [rewrite Ev; by apply value_start_stop|done|].
    rewrite (peek_is_stop _ _ _ Hq) by (rewrite Ev; by apply value_start_stop).
    match type of Hq with facing ?q _ => rewrite (elements_read_back pretty m post vs v [] q [] fuel Hrb Hok Hlt Hu Hq (Forall_nil_2 _)) by (simpl in *; lia) end.
    rewrite adv_adv, leave_entered. cbn [app]. do 2 f_equal. unfold items_length.
    repeat (rewrite !length_app || cbn [length]). lia.
Qed.

Lemma object_reads_back es : Forall (λ e, reads_back e.2) es → reads_back (JObject es).
Proof.
  intros Hrb pretty m p post fuel Hf Hok Hd Hstop Hu Hfuel. destruct fuel as [|fuel]; [lia|].
  destruct (nested_room p _ _ Hok eq_refl) as [Hlt Hroom]. rewrite Hroom, object_ok in Hok. rewrite write_object in *.
  pose proof (facing_length _ _ Hf) as Hlen. cbn [app] in Hf. rewrite <- !app_assoc in Hf. cbn [app] in Hf.
  cbn [parse_value]. rewrite (facing_peek _ _ _ Hf). eval_eqc. destruct es as [|[k v] es].
  - pose proof (open_reads p "{"%char [] _ "}"%char (JObject []) (parse_entries bytes fuel []) Hf (Forall_nil_2 _) eq_refl Hlt) as Ho. cbv zeta in Ho. destruct Ho as [Hq ->].
    rewrite (peek_is_facing _ _ _ _ Hq). destruct (facing_bump _ _ _ Hq) as [-> _]. cbn [snd].
    rewrite adv_adv. eval_eqc. by rewrite leave_entered.
  - cbn [write_entries length] in *. change (bool_decide (S (length es) = 0)) with false in *.
    change (write_sep true pretty m) with (indent pretty (m + 1)) in *. rewrite <- !app_assoc in Hf.
    cbn [app] in Hf. rewrite <- !app_assoc in Hf.
    pose proof (open_reads p "{"%char _ _ "}"%char (JObject []) (parse_entries bytes fuel []) Hf (indent_ws _ _)) as Ho. cbv zeta in Ho.
    destruct Ho as [Hq ->]; [done..|].
    rewrite (peek_is_stop _ _ _ Hq) by done.
    match type of Hq with facing ?q _ => rewrite (entries_read_back pretty m post es k v [] q [] fuel Hrb Hok Hlt Hu Hq (Forall_nil_2 _)) by (simpl in *; lia) end.
    rewrite adv_adv, leave_entered. cbn [app]. do 2 f_equal. unfold entries_length. fold (key_gap pretty).
    repeat (rewrite !length_app || cbn [length]). lia.
Qed.

Lemma scalar_reads_back v : (∀ vs, v ≠ JArray vs) → (∀ es, v ≠ JObject es) → reads_back v.
Proof.
  intros Ha Ho pretty m p post fuel Hf [Hwf _] Hd Hstop Hu Hfuel. destruct fuel as [|fuel]; [lia|].
  cbn [parse_value]. destruct v as [|[]|x|s|vs|es]; [..|by destruct (Ha vs)|by destruct (Ho es)].
  - rewrite (facing_peek _ _ _ Hf). eval_eqc. by erewrite literal_reads by exact Hf.
  - rewrite (facing_peek _ _ _ Hf). eval_eqc. by erewrite literal_reads by exact Hf.
  - rewrite (facing_peek _ _ _ Hf). eval_eqc. by erewrite literal_reads by exact Hf.
  - cbn [write_json json_wf] in *. destruct (number_start _ Hwf) as (b & l & E & Hb).
    assert (peek bytes p = Some b) as -> by (apply (facing_peek p b (l ++ post)); by rewrite E in Hf).
    destruct (number_start_only b Hb) as (_ & -> & -> & -> & -> & -> & ->). rewrite Hb.
    rewrite (parse_number_reads _ _ _ Hwf Hf Hstop). unfold parsed_map. simpl.
    rewrite String.string_of_list_ascii_of_string. by destruct x.
  - rewrite (facing_peek _ _ _ Hf). eval_eqc. cbn [write_json] in *. by rewrite (parse_string_reads s p post Hwf Hf Hu).
Qed.

Lemma value_reads_back v : reads_back v.
Proof.
  induction v using JsonValue_nested_ind; try by apply scalar_reads_back.
  - by apply array_reads_back.
  - by apply object_reads_back.
Qed.
End Read.

(** A text printed from a value, parsed. *)
Lemma parse_printed v pretty :
  value_ok MAX_DEPTH v → (Z.of_nat (length (write_json v pretty 0)) ≤ DEFAULT_MAX_JSON_BYTES)%Z →
  parse_value_str (write_json v pretty 0) = POk v {| pos := length (write_json v pretty 0); depth := 0 |}.
Proof.
  intros Hok Hlen. set (text := write_json v pretty 0) in *. unfold parse_value_str, validate_input_size.
  destruct (Z.ltb_spec DEFAULT_MAX_JSON_BYTES (Z.of_nat (length text))); [lia|].
  set (p := {| pos := 0; depth := 0 |}). assert (facing text p text) as Hf by (split; [done|simpl; lia]).
  destruct (write_json_start v pretty 0 _ Hok) as (b & l & Ev & Hb).
  rewrite (skip_none text p text Hf) by (unfold text; rewrite Ev; by apply value_start_stop).
  assert (facing text p (write_json v pretty 0 ++ [])) as Hf' by (by rewrite app_nil_r).
  rewrite (value_reads_back text v pretty 0 p [] (json_fuel text) Hf' Hok (Nat.le_0_l _) (conj I (conj I I)) utf8_nil)
    by (unfold json_fuel; lia).
  cbn [parsed_bind]. fold text. apply facing_adv in Hf'. fold text in Hf'. rewrite (skip_none text _ _ Hf') by done.
  unfold eof. by rewrite bool_decide_eq_true_2 by (simpl; lia).
Qed.

(** C11: JSON prints and parses back.  For a value whose numbers follow the JSON
    grammar, whose strings are UTF-8 and whose nesting is at most 256, the compact
    and the indented text, if they fit the parser's size limit, parse to the value
    itself, key order and repeated keys included; so every value the parser returns
    survives being printed and parsed again. *)
Theorem json_print_parse v :
  (value_ok MAX_DEPTH v ∨ ∃ src p, parse_value_str src = POk v p) →
  ((Z.of_nat (length (to_compact_string v)) ≤ DEFAULT_MAX_JSON_BYTES)%Z →
     ∃ p, parse_value_str (to_compact_string v) = POk v p ∧ from_slice (to_compact_string v) = POk v p) ∧
  ((Z.of_nat (length (to_pretty_string v)) ≤ DEFAULT_MAX_JSON_BYTES)%Z →
     ∃ p, parse_value_str (to_pretty_string v) = POk v p ∧ from_slice (to_pretty_string v) = POk v p).
Proof.
  intros Hv. assert (value_ok MAX_DEPTH v) as Hok.
  { destruct Hv as [Hv|(src & p & E)]; [done|]. by eapply parsed_value_ok. }
  assert (∀ pretty, (Z.of_nat (length (write_json v pretty 0)) ≤ DEFAULT_MAX_JSON_BYTES)%Z →
    ∃ p, parse_value_str (write_json v pretty 0) = POk v p ∧ from_slice (write_json v pretty 0) = POk v p) as Hall.
  { intros pretty Hlen. rewrite (parse_printed v pretty Hok Hlen). eexists. split; [done|].
    unfold from_slice, validate_input_size. destruct (Z.ltb_spec DEFAULT_MAX_JSON_BYTES (Z.of_nat (length (write_json v pretty 0)))); [lia|].
    rewrite (proj2 (from_utf8_iff _)) by (by eapply write_json_utf8). by apply parse_printed. }
  split; apply Hall.
Qed.

(** An object with a repeated key, an escape, a number and nested arrays. *)
Definition sample_json : JsonValue :=
  JObject [("b", JNumber {| raw := "-12.5e+2" |}); ("a", JArray [JArray []; JBool true; JNull]);
           ("b", JString (String newline (String quote "x")))].

Lemma json_print_parse_witness : ∃ p, parse_value_str (to_pretty_string sample_json) = POk sample_json p.
Proof.
  destruct (json_print_parse sample_json) as [_ Hp].
  - right. exists (to_compact_string sample_json). eexists. vm_compute. reflexivity.
  - destruct Hp as (p & E & _); [vm_compute; discriminate|]. by exists p.
Defined.

(** A number made from a float that is not finite prints as a word the parser
    rejects. *)
Lemma nan_does_not_parse :
  ∃ e p, parse_value_str (to_compact_string (JNumber {| raw := "NaN" |})) = PErr e p.
Proof. eexists _, _. vm_compute. reflexivity. Qed.
