(* ===== verification/CapsConfig.v ===== *)
(** * CapsConfig: capability grants from cruft-caps.json
    (src/crates/rusty-js-runtime/src/caps_config.rs, the registration of a grant
    for a required module in src/crates/rusty-js-runtime/src/module.rs, and that of the
    document of a project for its modules in src/crates/cruft/src/main.rs)

    A [CapsGrant] is read off a JSON document, projected onto the capability
    types of [Caps] and recorded in the dispatcher.  [authority] says, entry by entry,
    what a document means; the theorem is that this is what it confers.
    The directory walk that finds the document and the modules of the project, and
    [canonicalize], are arguments. *)

From S2P Require Import Prelude Text Paths Json JsonText Caps CapsSecurity.

Record CapsGrant := {
  cg_fs : list string;
  cg_net : list string;
  cg_env : list string;
  cg_exec : list string;
  cg_stdio_stdout : bool;
  cg_stdio_stderr : bool;
}.

Definition CapsGrant_default : CapsGrant :=
  {| cg_fs := []; cg_net := []; cg_env := []; cg_exec := [];
     cg_stdio_stdout := false; cg_stdio_stderr := false |}.

Definition is_nil {A} (l : list A) : bool := match l with [] => true | _ => false end.

Definition CapsGrant_is_empty (g : CapsGrant) : bool :=
  is_nil (cg_fs g) && is_nil (cg_net g) && is_nil (cg_env g) && is_nil (cg_exec g)
  && negb (cg_stdio_stdout g) && negb (cg_stdio_stderr g).

Definition json_strings (root : JsonValue) (key : string) : list string :=
  match JsonValue_get root key with
  | Some v => match JsonValue_as_array v with
              | Some arr => omap JsonValue_as_str arr
              | None => []
              end
  | None => []
  end.

Definition json_flag (root : JsonValue) (key1 key2 : string) : bool :=
  default false (JsonValue_get root key1 ≫= λ v, JsonValue_get v key2 ≫= JsonValue_as_bool).

Definition CapsGrant_from_json (root : JsonValue) : CapsGrant :=
  {| cg_fs := json_strings root "fs";
     cg_net := json_strings root "net";
     cg_env := json_strings root "env";
     cg_exec := json_strings root "exec";
     cg_stdio_stdout := json_flag root "stdio" "stdout";
     cg_stdio_stderr := json_flag root "stdio" "stderr" |}.

(** [parse_str], and [load_file] of a file that was read or was not: then the parser is the
    one of an empty text. *)
Definition CapsGrant_parse_str (src : list char) : parsed CapsGrant := parsed_map CapsGrant_from_json (parse_value_str src).

Definition CapsGrant_load_file (read : option (list char)) : parsed CapsGrant :=
  match read with
  | Some body => CapsGrant_parse_str body
  | None => POk CapsGrant_default {| pos := 0; depth := 0 |}
  end.

Definition CapsGrant_to_fs (g : CapsGrant) : Fs :=
  if is_nil (cg_fs g) then Fs_none
  else let policy := PathPrefixes (cg_fs g) in
       {| fs_read := policy; fs_write := policy; fs_list := policy;
          fs_stat := policy; fs_mkdir := policy; fs_remove := policy |}.

Definition colon : char := ":"%char.

Definition parse_host_port (entry : string) : string * option Z :=
  match rsplit_once colon entry with
  | Some (h, p) =>
      match parse_uint u16_max p with
      | Some n => if bool_decide (h = "") then (entry, None) else (h, Some n)
      | None => (entry, None)
      end
  | None => (entry, None)
  end.

(** The loop of [to_net] that sorts the entries into [exact] and [hosts]. *)
Fixpoint split_entries (entries : list string) : list NetEndpoint * list string :=
  match entries with
  | [] => ([], [])
  | e :: es =>
      let '(exact, hosts) := split_entries es in
      match parse_host_port e with
      | (h, Some p) => (NetEndpoint_new h p :: exact, hosts)
      | (h, None) => (exact, h :: hosts)
      end
  end.

Fixpoint listen_endpoints (entries : list string) : list NetEndpoint :=
  match entries with
  | [] => []
  | e :: es =>
      let '(h, p) := parse_host_port e in
      match p with
      | Some p => NetEndpoint_new h p :: listen_endpoints es
      | None => listen_endpoints es
      end
  end.

Definition listen_policy_from_entries (entries : list string) : NetListenPolicy :=
  let exact := listen_endpoints entries in
  if is_nil exact then ListenNone else ListenExact exact.

Definition CapsGrant_to_net (g : CapsGrant) : Net :=
  if is_nil (cg_net g) then Net_none
  else
    let '(exact, hosts) := split_entries (cg_net g) in
    let connect :=
      if is_nil hosts then ConnectExact exact
      else ConnectHosts (hosts ++ (host <$> exact)) in
    {| listen := listen_policy_from_entries (cg_net g); connect := connect |}.

Definition CapsGrant_to_env (g : CapsGrant) : Env :=
  if is_nil (cg_env g) then Env_none
  else {| vars := VarWhitelist (cg_env g); system_info := false |}.

Definition CapsGrant_to_process (g : CapsGrant) : Process :=
  if is_nil (cg_exec g) then Process_none
  else {| may_spawn := true; may_exit := may_exit Process_none;
          may_read_cwd := may_read_cwd Process_none; may_read_pid := may_read_pid Process_none |}.

Definition CapsGrant_to_stdio (g : CapsGrant) : Stdio :=
  {| stdout := cg_stdio_stdout g; stderr := cg_stdio_stderr g |}.

(** The projections of a grant, recorded for a URL. *)
Definition grant_to (g : CapsGrant) (d : CapDispatcher) (u : string) : CapDispatcher :=
  grant_module d u (CapsGrant_to_fs g) (CapsGrant_to_net g) (CapsGrant_to_env g)
    (CapsGrant_to_process g) (CapsGrant_to_stdio g).

(** [Runtime::record_require_caps_grant]: the grant is recorded under the resolved
    name and, unless it is one already, under its [file://] URL. *)
Definition record_require_caps_grant (d : CapDispatcher) (resolved : string) (g : CapsGrant) :
    CapDispatcher :=
  let d1 := grant_to g d resolved in
  if string_starts_with "file://" resolved then d1 else grant_to g d1 ("file://" +:+ resolved).

(** *** The document of a project *)

Section Project.
Context (canonicalize : string → option string) (project_root : string).

(** An [fs] entry of the document, relative to the project. *)
Definition canonical_entry (path : string) : string :=
  if is_absolute path then default path (canonicalize path)
  else let resolved := path_join project_root path in default resolved (canonicalize resolved).

Definition canonical_grant (g : CapsGrant) : CapsGrant :=
  {| cg_fs := canonical_entry <$> cg_fs g; cg_net := cg_net g; cg_env := cg_env g; cg_exec := cg_exec g;
     cg_stdio_stdout := cg_stdio_stdout g; cg_stdio_stderr := cg_stdio_stderr g |}.

(** The URLs of a module of the project. *)
Definition module_urls (file : string) : list string :=
  let u := "file://" +:+ file in
  match canonicalize file with
  | Some c => let cu := "file://" +:+ c in if bool_decide (cu = u) then [u] else [u; cu]
  | None => [u]
  end.

Definition wire_root_caps (cap_mode : CapMode) (read : option (list char)) (app_files : list string) (d : CapDispatcher) : CapDispatcher :=
  match cap_mode with
  | Sealed | SealedDeps =>
      match CapsGrant_load_file read with
      | POk g _ =>
          let g := canonical_grant g in
          if CapsGrant_is_empty g then d else foldl (grant_to g) d (app_files ≫= module_urls)
      | _ => d
      end
  | _ => d
  end.
End Project.

(** ** What a document means

    This is said of the JSON value and of the texts in it, not of the grant made from it. *)

(** The first member of an object with this key. *)
Definition member (root : JsonValue) (key : string) (v : JsonValue) : Prop :=
  ∃ before after, root = JObject (before ++ (key, v) :: after) ∧ key ∉ before.*1.

(** The strings of the array under this key. *)
Definition lists (root : JsonValue) (key s : string) : Prop :=
  ∃ entries, member root key (JArray entries) ∧ JString s ∈ entries.

Definition enables (root : JsonValue) (stream : string) : Prop :=
  ∃ stdio, member root "stdio" stdio ∧ member stdio stream (JBool true).

Definition digit_string (ds : list nat) : string := foldr (λ d s, String (Ascii.ascii_of_nat (48 + d)) s) "" ds.
Definition decimal (ds : list nat) : Z := foldl (λ n d, n * 10 + Z.of_nat d)%Z 0%Z ds.

(** [host:port]: a host, a colon and a decimal number of 16 bits, which may have a sign. *)
Definition endpoint_entry (e h : string) (p : Z) : Prop :=
  h ≠ "" ∧ ∃ sign ds, e = h +:+ ":" +:+ sign +:+ digit_string ds ∧ (sign = "" ∨ sign = "+") ∧
    ds ≠ [] ∧ Forall (λ d, d < 10) ds ∧ p = decimal ds ∧ (p ≤ 65535)%Z.

(** Any other entry is a host. *)
Definition host_entry (e : string) : Prop := ¬ ∃ h p, endpoint_entry e h p.

(** A path is below a prefix as it stands or, when it is relative, from the working directory. *)
Definition below (env : SysEnv) (path prefix : string) : Prop :=
  path_starts_with path prefix = true ∨
  (is_absolute path = false ∧ ∃ cwd, current_dir env = Some cwd ∧ path_starts_with (path_join cwd path) prefix = true).

Definition op_path (op : FsOp) : string :=
  match op with FsRead p | FsWrite p | FsList p | FsStat p | FsMkdir p | FsRemove p => p end.

(** The requests that entries allow.  With only [host:port] entries, connections go to exactly
    those endpoints; as soon as one entry is a host, every host any entry names may be
    connected to on every port.  Listening is for [host:port] entries only.  One [exec] entry
    allows every program. *)
Definition authority (fs net vars exec : string → Prop) (out err : Prop) (env : SysEnv) (r : request) : Prop :=
  match r with
  | ReqFs _ op => ∃ prefix, fs prefix ∧ below env (op_path op) prefix
  | ReqStdio _ (Stdout _) => out
  | ReqStdio _ (Stderr _) => err
  | ReqEnv _ (ReadVar name) => vars name
  | ReqNet _ (Listen h p) => ∃ e, net e ∧ endpoint_entry e h p
  | ReqNet _ (Connect h p) =>
      ((¬ ∃ b, net b ∧ host_entry b) ∧ ∃ e, net e ∧ endpoint_entry e h p) ∨
      ((∃ b, net b ∧ host_entry b) ∧ ((net h ∧ host_entry h) ∨ ∃ e p', net e ∧ endpoint_entry e h p'))
  | ReqProcess _ (Spawn _) => ∃ program, exec program
  | _ => False
  end.

Definition grant_authority (g : CapsGrant) : SysEnv → request → Prop :=
  authority (.∈ cg_fs g) (.∈ cg_net g) (.∈ cg_env g) (.∈ cg_exec g) (cg_stdio_stdout g = true) (cg_stdio_stderr g = true).

Definition document_authority (canonicalize : string → option string) (project_root : string) (doc : JsonValue) : SysEnv → request → Prop :=
  authority (λ p, ∃ e, lists doc "fs" e ∧ p = canonical_entry canonicalize project_root e)
    (lists doc "net") (lists doc "env") (lists doc "exec") (enables doc "stdout") (enables doc "stderr").

(** ** Reading a document *)

Lemma Map_get_first m k v : Map_get m k = Some v ↔ ∃ before after, m = before ++ (k, v) :: after ∧ k ∉ before.*1.
Proof.
  induction m as [|[k' v'] m IH]; simpl.
  - split; [done|]. intros ([|] & ? & ? & _); discriminate.
  - case_bool_decide as E.
    + subst k'. split; [intros [= ->]; exists [], m; split; [done|set_solver]|].
      intros ([|[k2 v2] before] & after & Eq & Hn); simplify_eq/=; [done|set_solver].
    + rewrite IH. split.
      * intros (before & after & -> & Hn). exists ((k', v') :: before), after. split; [done|set_solver].
      * intros ([|[k2 v2] before] & after & Eq & Hn); simplify_eq/=. exists before, after. split; [done|set_solver].
Qed.

Lemma get_member root k v : JsonValue_get root k = Some v ↔ member root k v.
Proof.
  unfold JsonValue_get, member. destruct root as [| | | | |m]; [split; [done|by intros (? & ? & ? & _)]..|]. rewrite Map_get_first.
  split; intros (before & after & E & Hn); exists before, after; (split; [|done]); congruence.
Qed.

Lemma json_strings_lists root key s : s ∈ json_strings root key ↔ lists root key s.
Proof.
  unfold json_strings, lists. setoid_rewrite <-get_member. destruct (JsonValue_get root key) as [v|].
  - destruct v as [| | | |vs|]; cbn; try (split; [set_solver|by intros (? & [=] & _)]).
    rewrite list_elem_of_omap. split.
    + intros (v & Hin & E). exists vs. split; [done|]. destruct v; try done. by injection E as ->.
    + intros (entries & [= ->] & Hin). by exists (JString s).
  - split; [set_solver|by intros (? & ? & _)].
Qed.

Lemma json_flag_enables root stream : json_flag root "stdio" stream = true ↔ enables root stream.
Proof.
  unfold json_flag, enables. setoid_rewrite <-get_member. destruct (JsonValue_get root "stdio") as [v|]; cbn; [|split; [done|by intros (? & ? & _)]].
  split.
  - intros E. exists v. split; [done|]. destruct (JsonValue_get v stream) as [w|]; [|done]. destruct w; try done. cbn in E. by subst.
  - intros (? & [= <-] & ->). done.
Qed.

(** ** Reading an entry *)

Lemma digit_val_iff a v : digit_val a = Some v ↔ ∃ d, d < 10 ∧ a = Ascii.ascii_of_nat (48 + d) ∧ v = Z.of_nat d.
Proof.
  unfold digit_val. split.
  - destruct ((48 <=? _)%Z && _)%bool eqn:E; [|done]. apply andb_true_iff in E as [E1 E2]. apply Z.leb_le in E1, E2. intros [= <-].
    exists (Ascii.nat_of_ascii a - 48). split_and!; [lia| |lia]. replace (48 + (Ascii.nat_of_ascii a - 48)) with (Ascii.nat_of_ascii a) by lia. by rewrite Ascii.ascii_nat_embedding.
  - intros (d & Hd & -> & ->). rewrite Ascii.nat_ascii_embedding by lia. rewrite (proj2 (Z.leb_le _ _)), (proj2 (Z.leb_le _ _)) by lia. cbn [andb]. f_equal. lia.
Qed.

Lemma decimal_grows ds acc : (0 ≤ acc)%Z → (acc ≤ foldl (λ n d, n * 10 + Z.of_nat d) acc ds)%Z.
Proof. revert acc. induction ds as [|d ds IH]; intros acc Ha; cbn [foldl]; [done|]. etrans; [|apply IH]; lia. Qed.

Lemma parse_digits_iff max s : ∀ acc n, (0 ≤ acc ≤ max)%Z →
  parse_digits max acc s = Some n ↔
  ∃ ds, s = digit_string ds ∧ Forall (λ d, d < 10) ds ∧ n = foldl (λ n d, n * 10 + Z.of_nat d)%Z acc ds ∧ (n ≤ max)%Z.
Proof.
  induction s as [|a s IH]; intros acc n Ha; cbn [parse_digits].
  - split; [intros [= <-]; exists []; split_and!; [done|constructor|done|lia]|]. by intros ([|d ds] & E & _ & -> & _).
  - destruct (digit_val a) as [v|] eqn:Ev.
    + apply digit_val_iff in Ev as (d & Hd & -> & ->). destruct (Z.leb_spec (acc * 10 + Z.of_nat d) max).
      * rewrite IH by lia. split.
        -- intros (ds & -> & Hds & -> & Hn). exists (d :: ds). split_and!; [done|by constructor|done|done].
        -- intros ([|d' ds] & E & Hds & -> & Hn); [done|]. injection E as E ->. apply Forall_cons in Hds as [Hd' Hds].
           apply (f_equal Ascii.nat_of_ascii) in E. rewrite !Ascii.nat_ascii_embedding in E by lia. assert (d' = d) as -> by lia. by exists ds.
      * split; [done|]. intros ([|d' ds] & E & Hds & -> & Hn); [done|]. injection E as E ->. apply Forall_cons in Hds as [Hd' Hds].
        apply (f_equal Ascii.nat_of_ascii) in E. rewrite !Ascii.nat_ascii_embedding in E by lia. assert (d' = d) as -> by lia.
        cbn [foldl] in Hn. pose proof (decimal_grows ds (acc * 10 + Z.of_nat d)). lia.
    + split; [done|]. intros ([|d ds] & E & Hds & _); [done|]. injection E as -> ->. apply Forall_cons in Hds as [Hd _].
      assert (digit_val (Ascii.ascii_of_nat (48 + d)) = Some (Z.of_nat d)) by (apply digit_val_iff; by exists d). cbn in *. congruence.
Qed.

Lemma parse_uint_iff max s n : (0 ≤ max)%Z →
  parse_uint max s = Some n ↔
  ∃ sign ds, s = sign +:+ digit_string ds ∧ (sign = "" ∨ sign = "+") ∧ ds ≠ [] ∧ Forall (λ d, d < 10) ds ∧ n = decimal ds ∧ (n ≤ max)%Z.
Proof.
  intros Hmax. pose proof (λ s, parse_digits_iff max s 0 n ltac:(lia)) as Hd.
  assert (∀ d ds t, String "+" t = digit_string (d :: ds) → Forall (λ d, d < 10) (d :: ds) → False) as Hplus.
  { intros d ds t E Hds. injection E as E _. apply Forall_cons in Hds as [Hd' _].
    assert (digit_val "+"%char = Some (Z.of_nat d)) as Ev by (apply digit_val_iff; by exists d). done. }
  assert (parse_uint max s = match s with "" => None | String a t => if bool_decide (a = "+"%char) then (if bool_decide (t = "") then None else parse_digits max 0 t) else parse_digits max 0 s end) as ->.
  { destruct s as [|a [|b t]]; [done|..]; cbn; by repeat case_bool_decide. }
  destruct s as [|a t]; [split; [done|by intros ([|] & [|] & ? & [|] & ? & _)]|]. case_bool_decide as Ea; [subst a; case_bool_decide as Et|].
  - subst t. split; [done|]. intros (sign & ds & E & Hs & Hne & Hds & _). destruct ds as [|d ds]; [done|]. destruct Hs as [-> | ->]; [exfalso; by eapply Hplus|]. by injection E.
  - rewrite Hd. split.
    + intros (ds & -> & Hds & -> & Hn). exists "+", ds. split_and!; [done|by right|by intros ->|done..].
    + intros (sign & ds & E & Hs & Hne & Hds & Hn). destruct ds as [|d ds]; [done|]. destruct Hs as [-> | ->]; [exfalso; by eapply Hplus|]. injection E as ->. by exists (d :: ds).
  - rewrite Hd. split.
    + intros (ds & E & Hds & -> & Hn). exists "", ds. split_and!; [done|by left|by intros ->|done..].
    + intros (sign & ds & E & Hs & Hne & Hds & Hn). destruct Hs as [-> | ->]; [by exists ds|]. by injection E.
Qed.

Lemma digit_string_no_char c sign ds : sign = "" ∨ sign = "+" → Forall (λ d, d < 10) ds → digit_val c = None → c ≠ "+"%char → no_char c (sign +:+ digit_string ds) = true.
Proof.
  intros Hs Hds Hc Hplus. assert (no_char c (digit_string ds) = true) as H.
  { induction Hds as [|d ds Hd Hds IH]; [done|]. apply andb_true_iff. split; [|exact IH]. apply negb_true_iff, bool_decide_eq_false. intros E.
    assert (digit_val c = Some (Z.of_nat d)); [|congruence]. apply digit_val_iff. by exists d. }
  destruct Hs as [-> | ->]; [done|]. apply andb_true_iff. split; [|exact H]. by apply negb_true_iff, bool_decide_eq_false.
Qed.

Lemma rsplit_once_iff c s h t : rsplit_once c s = Some (h, t) ↔ s = h +:+ String c t ∧ no_char c t = true.
Proof.
  revert h. induction s as [|a s IH]; intros h; cbn [rsplit_once].
  - split; [done|]. by intros [E _]; destruct h.
  - assert (rsplit_once c s = None ↔ no_char c s = true) as Hnone.
    { clear IH. induction s as [|b s IH]; [done|]. cbn [rsplit_once]. change (no_char c (String b s)) with (negb (bool_decide (b = c)) && no_char c s). destruct (rsplit_once c s) as [[]|].
      - split; [done|]. intros [_ H]%andb_true_iff. by apply IH in H.
      - rewrite (proj1 IH), andb_true_r by done. by repeat case_bool_decide. }
    destruct (rsplit_once c s) as [[l r]|] eqn:E.
    + split.
      * intros [= <- <-]. destruct (proj1 (IH l) eq_refl) as [-> Hr]. by split.
      * intros [Eq Ht]. destruct h as [|b h]; [injection Eq as -> ->; by apply Hnone in Ht|]. injection Eq as -> ->.
        assert (Some (l, r) = Some (h, t)) as E2 by (by apply IH). by injection E2 as -> ->.
    + split.
      * case_bool_decide; [|done]. intros [= <- <-]. subst. split; [done|by apply Hnone].
      * intros [Eq Ht]. destruct h as [|b h]; [injection Eq as -> ->; by rewrite bool_decide_eq_true_2|]. injection Eq as -> ->.
        assert (None = Some (h, t)) as E2 by (by apply IH). done.
Qed.

Lemma colon_tail sign ds : sign = "" ∨ sign = "+" → Forall (λ d, d < 10) ds → no_char colon (sign +:+ digit_string ds) = true.
Proof. intros Hs Hds. by apply digit_string_no_char. Qed.

Lemma parse_endpoint e h p : parse_host_port e = (h, Some p) ↔ endpoint_entry e h p.
Proof.
  unfold parse_host_port, endpoint_entry. split.
  - destruct (rsplit_once colon e) as [[h' t]|] eqn:E; [|done]. apply rsplit_once_iff in E as [-> Ht].
    destruct (parse_uint u16_max t) as [n|] eqn:En; [|done]. apply parse_uint_iff in En as (sign & ds & -> & Hs & Hne & Hds & -> & Hn); [|done].
    case_bool_decide; [done|]. intros [= <- <-]. split; [done|]. by exists sign, ds.
  - intros (Hh & sign & ds & -> & Hs & Hne & Hds & -> & Hp). rewrite (proj2 (rsplit_once_iff colon _ h (sign +:+ digit_string ds))) by (split; [done|by apply colon_tail]).
    rewrite (proj2 (parse_uint_iff u16_max _ (decimal ds) ltac:(done))) by (by exists sign, ds). by rewrite bool_decide_eq_false_2.
Qed.

Lemma parse_host e h : parse_host_port e = (h, None) ↔ h = e ∧ host_entry e.
Proof.
  unfold host_entry. setoid_rewrite <-parse_endpoint. destruct (parse_host_port e) as [h' [p|]] eqn:E.
  - split; [done|]. intros [_ Hn]. destruct Hn. by exists h', p.
  - assert (h' = e) as -> by (unfold parse_host_port in E; repeat case_match; by simplify_eq). split; [intros [= <-]; split; [done|]; by intros (? & ? & ?)|by intros [-> _]].
Qed.

(** ** Lemmas on the entry lists *)

Definition exact_of (e : string) : option NetEndpoint :=
  match parse_host_port e with (h, Some p) => Some (NetEndpoint_new h p) | _ => None end.
Definition bare_of (e : string) : option string :=
  match parse_host_port e with (h, None) => Some h | _ => None end.

Lemma split_entries_omap es : split_entries es = (omap exact_of es, omap bare_of es).
Proof.
  induction es as [|e es IH]; [done|]. simpl. rewrite IH. unfold exact_of, bare_of.
  by destruct (parse_host_port e) as [h [p|]].
Qed.

Lemma split_entries_exact es h p :
  NetEndpoint_new h p ∈ (split_entries es).1 ↔ ∃ e, e ∈ es ∧ parse_host_port e = (h, Some p).
Proof.
  rewrite split_entries_omap. cbn [fst snd]. rewrite list_elem_of_omap. f_equiv; intros e. f_equiv.
  unfold exact_of, NetEndpoint_new. by destruct (parse_host_port e) as [? [?|]]; split; intros [=]; subst.
Qed.

Lemma split_entries_hosts es h :
  h ∈ (split_entries es).2 ↔ ∃ e, e ∈ es ∧ parse_host_port e = (h, None).
Proof.
  rewrite split_entries_omap. cbn [fst snd]. rewrite list_elem_of_omap. f_equiv; intros e. f_equiv.
  unfold bare_of. by destruct (parse_host_port e) as [? [?|]]; split; intros [=]; subst.
Qed.

Lemma listen_endpoints_split es : listen_endpoints es = (split_entries es).1.
Proof.
  induction es as [|e es IH]; simpl; [done|]. rewrite IH.
  destruct (split_entries es) as [exact hosts]; simpl.
  by destruct (parse_host_port e) as [? [?|]].
Qed.

Lemma existsb_endpoint eps h p :
  existsb (λ ep, NetEndpoint_matches ep h p) eps = true ↔ NetEndpoint_new h p ∈ eps.
Proof.
  rewrite existsb_elem_of. unfold NetEndpoint_matches. split.
  - intros ([h' p'] & Hin & H). apply andb_true_iff in H as [H1 H2].
    apply bool_decide_eq_true in H1, H2. simpl in *. by subst.
  - intros Hin. exists (NetEndpoint_new h p). split; [done|]. simpl.
    by rewrite !bool_decide_eq_true_2.
Qed.

Lemma endpoint_host_iff (eps : list NetEndpoint) h :
  h ∈ host <$> eps ↔ ∃ p, NetEndpoint_new h p ∈ eps.
Proof.
  rewrite list_elem_of_fmap. split.
  - intros ([h' p] & -> & Hin). by exists p.
  - intros [p Hin]. by exists (NetEndpoint_new h p).
Qed.

Lemma is_nil_true {A} (l : list A) : is_nil l = true ↔ l = [].
Proof. by destruct l. Qed.

(** The connections a grant confers. *)
Lemma to_net_connect g h p :
  NetOp_allows (Connect h p) (CapsGrant_to_net g) = true ↔
  ((¬ ∃ b, b ∈ cg_net g ∧ host_entry b) ∧ ∃ e, e ∈ cg_net g ∧ endpoint_entry e h p) ∨
  ((∃ b, b ∈ cg_net g ∧ host_entry b) ∧ ((h ∈ cg_net g ∧ host_entry h) ∨ ∃ e p', e ∈ cg_net g ∧ endpoint_entry e h p')).
Proof.
  assert ((∃ b, b ∈ cg_net g ∧ host_entry b) ↔ ∃ b, b ∈ (split_entries (cg_net g)).2) as ->.
  { setoid_rewrite split_entries_hosts. setoid_rewrite parse_host. naive_solver. }
  assert ((h ∈ cg_net g ∧ host_entry h) ↔ h ∈ (split_entries (cg_net g)).2) as ->.
  { rewrite split_entries_hosts. setoid_rewrite parse_host. naive_solver. }
  assert ((∃ e, e ∈ cg_net g ∧ endpoint_entry e h p) ↔ NetEndpoint_new h p ∈ (split_entries (cg_net g)).1) as ->.
  { rewrite split_entries_exact. by setoid_rewrite parse_endpoint. }
  assert ((∃ e p', e ∈ cg_net g ∧ endpoint_entry e h p') ↔ ∃ p', NetEndpoint_new h p' ∈ (split_entries (cg_net g)).1) as ->.
  { setoid_rewrite split_entries_exact. setoid_rewrite parse_endpoint. naive_solver. }
  unfold CapsGrant_to_net. destruct (is_nil (cg_net g)) eqn:En.
  { apply is_nil_true in En as ->. simpl. setoid_rewrite elem_of_nil. naive_solver. }
  destruct (split_entries (cg_net g)) as [exact hosts]; simpl.
  destruct hosts as [|h0 hosts]; simpl.
  - setoid_rewrite elem_of_nil. rewrite existsb_endpoint. naive_solver.
  - assert (∃ h', h' ∈ h0 :: hosts) as Hne by (exists h0; set_solver).
    change (bool_decide (h0 = h) || existsb (λ x, bool_decide (x = h)) (hosts ++ (host <$> exact)))
      with (existsb (λ x, bool_decide (x = h)) ((h0 :: hosts) ++ (host <$> exact))).
    rewrite existsb_bool_decide_eq, bool_decide_eq_true, elem_of_app, endpoint_host_iff. naive_solver.
Qed.

Lemma listen_policy_allows_iff es h p :
  NetListenPolicy_allows (listen_policy_from_entries es) h p = true ↔
  ∃ e, e ∈ es ∧ parse_host_port e = (h, Some p).
Proof.
  unfold listen_policy_from_entries. rewrite listen_endpoints_split, <-split_entries_exact.
  destruct (split_entries es).1 as [|ep eps]; simpl; [by rewrite elem_of_nil|].
  change (NetEndpoint_matches ep h p || existsb (λ e, NetEndpoint_matches e h p) eps)
    with (existsb (λ e, NetEndpoint_matches e h p) (ep :: eps)). apply existsb_endpoint.
Qed.

(** The listening sockets a grant confers are exactly its [host:port]
    entries; a bare host confers none. *)
Lemma to_net_listen g h p :
  NetOp_allows (Listen h p) (CapsGrant_to_net g) = true ↔ ∃ e, e ∈ cg_net g ∧ endpoint_entry e h p.
Proof.
  setoid_rewrite <-parse_endpoint. rewrite <-listen_policy_allows_iff. unfold CapsGrant_to_net.
  destruct (is_nil (cg_net g)) eqn:En; [by apply is_nil_true in En as ->|].
  by destruct (split_entries (cg_net g)).
Qed.

(** ** From a grant to the dispatcher's answers *)

Lemma below_iff env ps path : path_allowed_for_fs_op env (PathPrefixes ps) path = true ↔ ∃ prefix, prefix ∈ ps ∧ below env path prefix.
Proof.
  assert (∀ q, PathPolicy_allows (PathPrefixes ps) q = true ↔ ∃ prefix, prefix ∈ ps ∧ path_starts_with q prefix = true) as Hp by (intros q; apply existsb_elem_of).
  unfold path_allowed_for_fs_op, below. destruct (PathPolicy_allows (PathPrefixes ps) path) eqn:E1.
  { split; [intros _|done]. apply Hp in E1 as (q & ? & ?). by exists q; split; [|left]. }
  assert (¬ ∃ q, q ∈ ps ∧ path_starts_with path q = true) as Hn by (rewrite <-Hp; congruence).
  destruct (is_absolute path); [split; [done|naive_solver]|]. destruct (current_dir env) as [cwd|]; [|naive_solver]. rewrite Hp. naive_solver.
Qed.

Lemma path_prefixes_nil env ps path :
  path_allowed_for_fs_op env (if is_nil ps then PathNone else PathPrefixes ps) path
    = path_allowed_for_fs_op env (PathPrefixes ps) path.
Proof. by destruct ps. Qed.

Lemma is_nil_false {A} (l : list A) : negb (is_nil l) = true ↔ ∃ a, a ∈ l.
Proof. destruct l as [|a l]; cbn; [split; [done|set_solver]|split; [intros _; exists a; set_solver|done]]. Qed.

(** What a recorded grant allows is its authority. *)
Lemma grant_of_config env g r :
  grant_allows env r (Build_ModuleGrant (CapsGrant_to_fs g) (CapsGrant_to_net g) (CapsGrant_to_env g)
                        (CapsGrant_to_process g) (CapsGrant_to_stdio g)) = true ↔ grant_authority g env r.
Proof.
  destruct r as [? op|?[]|?[]|?[]|?[]|?[]|?[]|]; try done; cbn.
  - rewrite <-below_iff, <-path_prefixes_nil. unfold CapsGrant_to_fs. by destruct op, (is_nil (cg_fs g)).
  - unfold CapsGrant_to_process. by destruct (is_nil (cg_exec g)).
  - unfold CapsGrant_to_process. by destruct (is_nil (cg_exec g)).
  - unfold CapsGrant_to_process. by destruct (is_nil (cg_exec g)).
  - rewrite <-is_nil_false. unfold CapsGrant_to_process. by destruct (is_nil (cg_exec g)).
  - unfold CapsGrant_to_env. destruct (cg_env g) as [|w ws] eqn:E; [split; [done|set_solver]|]. cbn [is_nil Caps.vars EnvVarPolicy_allows].
    rewrite existsb_bool_decide_eq. apply bool_decide_eq_true.
  - unfold CapsGrant_to_env. by destruct (is_nil (cg_env g)).
  - apply (to_net_listen g h p).
  - apply (to_net_connect g h p).
Qed.

Lemma grant_to_frame g d u : mode (grant_to g d u) = mode d ∧ net_grant (grant_to g d u) = net_grant d ∧ poisoned (per_module (grant_to g d u)) = poisoned (per_module d).
Proof. unfold grant_to, grant_module, mutex_update. cbn. by destruct (poisoned (per_module d)) eqn:E. Qed.

Lemma grants_frame g us d :
  let d' := foldl (grant_to g) d us in mode d' = mode d ∧ net_grant d' = net_grant d ∧ poisoned (per_module d') = poisoned (per_module d).
Proof. revert d. induction us as [|u us IH]; intros d; [done|]. cbn [foldl]. destruct (IH (grant_to g d u)) as (-> & -> & ->). apply grant_to_frame. Qed.

(** After a grant is recorded for some URLs, it is the grant of each, and the others keep theirs. *)
Lemma grants_lookup g us d u : poisoned (per_module d) = false →
  module_grant (foldl (grant_to g) d us) u =
    if decide (u ∈ us)
    then Some (Build_ModuleGrant (CapsGrant_to_fs g) (CapsGrant_to_net g) (CapsGrant_to_env g) (CapsGrant_to_process g) (CapsGrant_to_stdio g))
    else module_grant d u.
Proof.
  intros Hp. induction us as [|u' us IH] using rev_ind; [by rewrite decide_False by set_solver|]. rewrite foldl_snoc. unfold grant_to at 1.
  destruct (decide (u = u')) as [->|Hne].
  - rewrite decide_True by set_solver. apply module_grant_grant_eq. by rewrite (proj2 (proj2 (grants_frame g us d))).
  - rewrite module_grant_grant_ne, IH by done. destruct (decide (u ∈ us)); [rewrite decide_True by set_solver|rewrite decide_False by set_solver]; done.
Qed.

(** The answer to a module that presents no capability, where the mode checks it, is its
    grant's. *)
Lemma dispatch_granted env d r caller :
  checked (mode d) r caller = true → net_grant d = Net_none →
  is_ok (dispatch env d (without_capability r) caller).2 = is_some_and (grant_allows env r) (module_grant d (url caller)).
Proof.
  intros Hc Hn. rewrite dispatch_result. unfold authorised. rewrite without_capability_not_held, Hn.
  assert (checked (mode d) (without_capability r) caller = true) as -> by (by destruct r).
  assert (process_wide Net_none (without_capability r) = false) as ->.
  { destruct r as [| | | | | |? op|]; try done. apply net_none_denies. }
  cbn [negb orb]. assert (∀ o, is_some_and (grant_allows env (without_capability r)) o = is_some_and (grant_allows env r) o) as ->.
  { intros [[]|]; [|done]. by destruct r as [?[]|?[]|?[]|?[]|?[]|?[]|?[]|]. }
  by destruct (is_some_and _ _).
Qed.

(** [CapsGrant::is_empty] recognises exactly the grants that confer nothing, so skipping
    the registration of an empty document loses no grant. *)
Lemma is_empty_iff_confers_nothing g :
  CapsGrant_is_empty g = true ↔ ∀ env r, ¬ grant_authority g env r.
Proof.
  unfold CapsGrant_is_empty. rewrite !andb_true_iff, !negb_true_iff, !is_nil_true. split.
  - intros [[[[[Hf Hn] He] Hx] Ho] Hr] env r. unfold grant_authority. rewrite Hf, Hn, He, Hx, Ho, Hr.
    destruct r as [? op|?[]|?[]|?[]|?[]|?[]|?[]|]; cbn; try done; set_solver.
  - intros H. repeat split.
    + destruct (cg_fs g) as [|p ps] eqn:E; [done|]. destruct (H no_env (ReqFs Fs_none (FsRead p))). exists p. rewrite E. split; [set_solver|].
      left. apply path_starts_with_refl.
    + destruct (cg_net g) as [|e es] eqn:E; [done|]. assert (e ∈ cg_net g) as Hin by (rewrite E; set_solver).
      destruct (parse_host_port e) as [h [p|]] eqn:Ee.
      * apply parse_endpoint in Ee. destruct (H no_env (ReqNet Net_none (Listen h p))). by exists e.
      * apply parse_host in Ee as [-> Ee]. destruct (H no_env (ReqNet Net_none (Connect e 0))). right. split; [by exists e|by left].
    + destruct (cg_env g) as [|x xs] eqn:E; [done|]. destruct (H no_env (ReqEnv Env_none (ReadVar x))). cbn. rewrite E. set_solver.
    + destruct (cg_exec g) as [|x xs] eqn:E; [done|]. destruct (H no_env (ReqProcess Process_none (Spawn x))). exists x. rewrite E. set_solver.
    + destruct (cg_stdio_stdout g) eqn:E; [|done]. by destruct (H no_env (ReqStdio Stdio_none (Stdout []))).
    + destruct (cg_stdio_stderr g) eqn:E; [|done]. by destruct (H no_env (ReqStdio Stdio_none (Stderr []))).
Qed.

(** ** From a document to a grant *)

#[export] Instance authority_proper :
  Proper (pointwise_relation _ iff ==> pointwise_relation _ iff ==> pointwise_relation _ iff ==> pointwise_relation _ iff ==> iff ==> iff ==> eq ==> eq ==> iff) authority.
Proof.
  intros f1 f2 Hf n1 n2 Hn v1 v2 Hv x1 x2 Hx o1 o2 Ho e1 e2 He env ? <- r ? <-. unfold pointwise_relation in *.
  destruct r as [? op|?[]|?[]|?[]|?[]|?[]|?[]|]; cbn; try done; by repeat (setoid_rewrite Hf || setoid_rewrite Hn || setoid_rewrite Hx).
Qed.

Lemma document_grant canonicalize root doc env r :
  grant_authority (canonical_grant canonicalize root (CapsGrant_from_json doc)) env r ↔ document_authority canonicalize root doc env r.
Proof.
  unfold grant_authority, document_authority, canonical_grant, CapsGrant_from_json. cbn [cg_fs cg_net cg_env cg_exec cg_stdio_stdout cg_stdio_stderr].
  apply authority_proper; try (intros s; apply json_strings_lists); try apply json_flag_enables; [|done..].
  intros s. rewrite list_elem_of_fmap. setoid_rewrite json_strings_lists. naive_solver.
Qed.

(** C16: what a cruft-caps document confers, end to end, in a mode that checks the request.
    Once the document of a project is wired, a request of one of the project's modules that
    presents no capability succeeds exactly when an entry of the document, as JSON and as
    text, allows it: a path below one of its [fs] prefixes, a listed variable, an enabled
    stream, an endpoint to listen on, a connection to a listed endpoint or, with a bare host
    among the entries, to any named host, and any program at all once the [exec] list is not
    empty.  Other modules are answered as before, and a document that does not parse, or is not
    there, confers nothing.  What a module is required with confers the same way on its
    resolved name and its [file://] URL. *)
Theorem config_confers_exactly (canonicalize : string → option string) env d project_root src app_files r caller :
  checked (mode d) r caller = true → poisoned (per_module d) = false → net_grant d = Net_none →
  let wired read := wire_root_caps canonicalize project_root (mode d) read app_files d in
  let urls := app_files ≫= module_urls canonicalize in
  (∀ doc p, parse_value_str src = POk doc p → url caller ∈ urls → module_grant d (url caller) = None →
     is_ok (dispatch env (wired (Some src)) (without_capability r) caller).2 = true ↔ document_authority canonicalize project_root doc env r) ∧
  (∀ read env r, url caller ∉ urls → (dispatch env (wired read) r caller).2 = (dispatch env d r caller).2) ∧
  wired None = d ∧ ((∀ doc p, parse_value_str src ≠ POk doc p) → wired (Some src) = d) ∧
  (∀ g resolved, url caller = resolved ∨ (url caller = "file://" +:+ resolved ∧ string_starts_with "file://" resolved = false) →
     is_ok (dispatch env (record_require_caps_grant d resolved g) (without_capability r) caller).2 = true ↔ grant_authority g env r).
Proof.
  intros Hc Hp Hn wired urls.
  assert (∀ g us, url caller ∈ us → is_ok (dispatch env (foldl (grant_to g) d us) (without_capability r) caller).2 = true ↔ grant_authority g env r) as Hwired.
  { intros g us Hu. destruct (grants_frame g us d) as (Em & En & _). rewrite dispatch_granted by congruence.
    rewrite grants_lookup, decide_True by done. apply grant_of_config. }
  split_and!.
  - intros doc p Edoc Hu Hfresh. rewrite <-document_grant. unfold wired, wire_root_caps, CapsGrant_load_file, CapsGrant_parse_str. rewrite Edoc. cbn [parsed_map parsed_bind].
    set (g := canonical_grant _ _ _). destruct (CapsGrant_is_empty g) eqn:Ee; [|destruct (mode d); try done; by apply Hwired].
    apply (proj1 (is_empty_iff_confers_nothing g)) with (env := env) (r := r) in Ee.
    assert (is_ok (dispatch env d (without_capability r) caller).2 = false) as Ed by (rewrite dispatch_granted, Hfresh by done; done).
    destruct (mode d); try done; rewrite Ed; naive_solver.
  - intros read env' r' Hu. rewrite !dispatch_result. assert (∀ us g, url caller ∉ us → authorised env' (foldl (grant_to g) d us) r' caller = authorised env' d r' caller ∧
      denial (foldl (grant_to g) d us) r' caller = denial d r' caller) as Hsame.
    { intros us g Hus. destruct (grants_frame g us d) as (Em & En & _). split; [|unfold denial; by rewrite Em]. apply authorised_ext; [done..|]. rewrite grants_lookup by done. by rewrite decide_False. }
    unfold wired, wire_root_caps. destruct (CapsGrant_load_file read) as [g q| | |]; [|by destruct (mode d)..].
    destruct (CapsGrant_is_empty _); [by destruct (mode d)|]. destruct (Hsame urls (canonical_grant canonicalize project_root g) Hu) as [E1 E2]. fold urls; destruct (mode d); try done; by rewrite E1, E2.
  - unfold wired, wire_root_caps. by destruct (mode d).
  - intros Hbad. unfold wired, wire_root_caps, CapsGrant_load_file, CapsGrant_parse_str. destruct (parse_value_str src) as [doc p| | |]; [by destruct (Hbad doc p)|by destruct (mode d)..].
  - intros g resolved Hu. unfold record_require_caps_grant. destruct (string_starts_with "file://" resolved) eqn:Es.
    + apply (Hwired g [resolved]). destruct Hu as [->|[_ ?]]; [set_solver|done].
    + apply (Hwired g [resolved; "file://" +:+ resolved]). destruct Hu as [->|[-> _]]; set_solver.
Qed.

(** A document with every kind of entry, and a module of its project. *)
Definition sample_document : JsonValue :=
  JObject [("net", JArray [JString "db.internal:5432"; JString "api.example.com:443"]); ("env", JArray [JString "HOME"; JNull]);
           ("fs", JArray [JString "data"]); ("net", JArray [JString "evil.example"])].

Definition app_main : ModuleId := ModuleId_application "file:///p/main.js".

Lemma config_confers_exactly_witness :
  let ask r := is_ok (dispatch no_env (wire_root_caps (λ _, None) "/p" Sealed (Some (to_compact_string sample_document)) ["/p/main.js"] (CapDispatcher_new Sealed)) (without_capability r) app_main).2 in
  ask (ReqNet Net_none (Connect "db.internal" 5432)) = true ∧ ask (ReqFs Fs_none (FsRead "/p/data/x")) = true ∧ ask (ReqNet Net_none (Connect "evil.example" 80)) = false.
Proof.
  assert (∀ r, ∃ b, b = is_ok (dispatch no_env (wire_root_caps (λ _, None) "/p" Sealed (Some (to_compact_string sample_document)) ["/p/main.js"] (CapDispatcher_new Sealed)) (without_capability r) app_main).2 ∧
    (b = true ↔ document_authority (λ _, None) "/p" sample_document no_env r)) as H.
  { intros r. eexists. split; [reflexivity|].
    assert (∃ p, parse_value_str (to_compact_string sample_document) = POk sample_document p) as [p Ep] by (eexists; vm_compute; reflexivity).
    apply (proj1 (config_confers_exactly (λ _, None) no_env (CapDispatcher_new Sealed) "/p" (to_compact_string sample_document) ["/p/main.js"] r app_main eq_refl eq_refl eq_refl) sample_document p Ep); [|done].
    change ("file:///p/main.js" ∈ ["file:///p/main.js"]). by left. }
  cbv zeta. split_and!.
  - destruct (H (ReqNet Net_none (Connect "db.internal" 5432))) as (b & <- & Hb). apply Hb. clear H Hb. left. split.
    + intros (e & (entries & (before & after & Em & Hk) & Hin) & He). apply He.
      destruct before as [|kv before]; [injection Em as <- _|injection Em as <- _; destruct Hk; by left].
      apply list_elem_of_In in Hin. destruct Hin as [Hin|[Hin|[]]]; injection Hin as <-.
      * exists "db.internal", 5432%Z. split; [done|]. exists "", [5; 4; 3; 2]. split_and!; [done|by left|done|repeat constructor; lia|done|done].
      * exists "api.example.com", 443%Z. split; [done|]. exists "", [4; 4; 3]. split_and!; [done|by left|done|repeat constructor; lia|done|done].
    + exists "db.internal:5432". split; [eexists; split; [eexists [], _; split; [reflexivity|by apply not_elem_of_nil]|by left]|].
      split; [done|]. exists "", [5; 4; 3; 2]. split_and!; [done|by left|done|repeat constructor; lia|done|done].
  - destruct (H (ReqFs Fs_none (FsRead "/p/data/x"))) as (b & <- & Hb). apply Hb. clear H Hb. exists "/p/data". split; [|by left].
    exists "data". split; [|done]. eexists. split; [eexists [_; _], _; split; [reflexivity|]|by left].
    intros Hin. apply list_elem_of_In in Hin. by destruct Hin as [Hin|[Hin|[]]].
  - vm_compute. reflexivity.
Defined.
