(* ===== verification/Semver.v ===== *)
(** * Semver: versions, ranges and selection
    (src/crates/rusty-js-pm/src/semver.rs)

    The package manager's semantic versions: parsing and comparing versions,
    desugaring range expressions (caret, tilde, hyphen, wildcards, operators) into
    comparator sets, and choosing a version among those a registry offers. *)

From S2P Require Import Prelude Text.

(** ** Versions *)

Inductive SemverError := SemverParse (message : string).

Inductive Identifier :=
| Numeric (n : Z)
| AlphaNumeric (s : string).

#[export] Instance Identifier_eq_dec : EqDecision Identifier.
Proof. solve_decision. Defined.

Record Version := MkVersion { major : Z; minor : Z; patch : Z; pre : list Identifier }.

#[export] Instance Version_eq_dec : EqDecision Version.
Proof. solve_decision. Defined.

Definition Version_new (maj min pat : Z) : Version := MkVersion maj min pat [].

(** [seg] is what the segment iterator gives: [None] when it is exhausted. *)
Definition parse_num (seg : option string) : result Z SemverError :=
  match seg with
  | None => Err (SemverParse "missing version segment")
  | Some s => match parse_uint u64_max s with
              | Some n => Ok n
              | None => Err (SemverParse ("non-numeric version segment: " +:+ s))
              end
  end.

Definition checked_inc (n : Z) (ctx : string) : result Z SemverError :=
  if (n + 1 <=? u64_max)%Z then Ok (n + 1)%Z
  else Err (SemverParse ("version component overflow in " +:+ ctx)).

Definition parse_identifier (id : string) : result Identifier SemverError :=
  if bool_decide (id = "") then Err (SemverParse "empty prerelease identifier")
  else if string_forallb is_ascii_digit id then
    if (1 <? Z.of_nat (String.length id))%Z && string_starts_with "0" id
    then Err (SemverParse ("leading-zero numeric prerelease: " +:+ id))
    else match parse_uint u64_max id with
         | Some n => Ok (Numeric n)
         | None => Err (SemverParse ("numeric prerelease overflow: " +:+ id))
         end
  else Ok (AlphaNumeric id).

Fixpoint parse_identifiers (ids : list string) : result (list Identifier) SemverError :=
  match ids with
  | [] => Ok []
  | id :: ids' => (x <-? parse_identifier id; xs <-? parse_identifiers ids'; Ok (x :: xs))%cruft
  end.

Definition dot : char := "."%char.
Definition plus : char := "+"%char.
Definition hyphen : char := "-"%char.

Definition parse_pre (p : string) : result (list Identifier) SemverError :=
  parse_identifiers (split_char dot p).

(** [match s.split_once(c) { Some((a, b)) => (a, Some(b)), None => (s, None) }]. *)
Definition cut (c : char) (s : string) : string * option string :=
  match split_once c s with Some (a, b) => (a, Some b) | None => (s, None) end.

Definition strip_prefix_or (p s : string) : string := default s (strip_prefix p s).

Definition Version_parse (s : string) : result Version SemverError :=
  (let s := trim s in
   let s := trim (default (strip_prefix_or "=" s) (strip_prefix "v" s)) in
   let s := (cut plus s).1 in
   let '(core, pre_str) := cut hyphen s in
   let it := split_char dot core in
   maj <-? parse_num (it !! 0);
   min <-? parse_num (it !! 1);
   pat <-? parse_num (it !! 2);
   match it !! 3 with
   | Some _ => Err (SemverParse ("too many version segments: " +:+ s))
   | None =>
       p <-? match pre_str with
             | None => Ok []
             | Some p => if bool_decide (p = "") then Err (SemverParse "empty prerelease")
                         else parse_pre p
             end;
       Ok (MkVersion maj min pat p)
   end)%cruft.

Definition cmp_identifier (x y : Identifier) : comparison :=
  match x, y with
  | Numeric m, Numeric n => Z.compare m n
  | Numeric _, AlphaNumeric _ => Lt
  | AlphaNumeric _, Numeric _ => Gt
  | AlphaNumeric m, AlphaNumeric n => string_compare m n
  end.

(** The loop over the zipped identifiers: the first difference decides. *)
Fixpoint cmp_zipped (xys : list (Identifier * Identifier)) (rest : comparison) : comparison :=
  match xys with
  | [] => rest
  | (x, y) :: xys' => match cmp_identifier x y with Eq => cmp_zipped xys' rest | o => o end
  end.

Definition cmp_pre (a b : list Identifier) : comparison :=
  match a, b with
  | [], [] => Eq
  | [], _ => Gt
  | _, [] => Lt
  | _, _ => cmp_zipped (zip a b) (Nat.compare (length a) (length b))
  end.

Definition cmp_precedence (v w : Version) : comparison :=
  then_cmp (then_cmp (Z.compare (major v) (major w))
             (then_cmp (Z.compare (minor v) (minor w)) (Z.compare (patch v) (patch w))))
           (cmp_pre (pre v) (pre w)).

Definition is_prerelease (v : Version) : bool := negb (bool_decide (pre v = [])).

(** ** Comparators and ranges *)

Inductive Op := OpLt | OpLte | OpGt | OpGte | OpEq.

#[export] Instance Op_eq_dec : EqDecision Op.
Proof. solve_decision. Defined.

Record Comparator := MkComparator { op : Op; version : Version }.

Definition Comparator_matches (c : Comparator) (v : Version) : bool :=
  let o := cmp_precedence v (version c) in
  match op c with
  | OpLt => bool_decide (o = Lt)
  | OpLte => bool_decide (o ≠ Gt)
  | OpGt => bool_decide (o = Gt)
  | OpGte => bool_decide (o ≠ Lt)
  | OpEq => bool_decide (o = Eq)
  end.

Record ComparatorSet := MkSet { comparators : list Comparator }.
Record Range := MkRange { sets : list ComparatorSet }.

Definition set_satisfies (set : ComparatorSet) (v : Version) : bool :=
  if negb (forallb (λ c, Comparator_matches c v) (comparators set)) then false
  else if is_prerelease v then
    existsb (λ c, negb (bool_decide (pre (version c) = []))
                  && (major (version c) =? major v)%Z && (minor (version c) =? minor v)%Z
                  && (patch (version c) =? patch v)%Z) (comparators set)
  else true.

Definition Range_satisfies (r : Range) (v : Version) : bool :=
  existsb (λ set, set_satisfies set v) (sets r).

(** ** Partial versions *)

Record Partial := MkPartial { p_major : option Z; p_minor : option Z; p_patch : option Z }.

Definition parse_xr (seg : option string) : result (option Z) SemverError :=
  match seg with
  | None => Ok None
  | Some s =>
      let s := trim s in
      if bool_decide (s = "") || bool_decide (s = "x") || bool_decide (s = "X") || bool_decide (s = "*")
      then Ok None
      else match parse_uint u64_max s with
           | Some n => Ok (Some n)
           | None => Err (SemverParse ("bad version segment: " +:+ s))
           end
  end.

Definition parse_partial (s : string) : result (Partial * list Identifier) SemverError :=
  (let s := trim s in
   let s := strip_prefix_or "v" s in
   let s := (cut plus s).1 in
   let '(core, pre_str) := cut hyphen s in
   let parts := split_char dot core in
   maj <-? parse_xr (parts !! 0);
   min <-? parse_xr (parts !! 1);
   pat <-? parse_xr (parts !! 2);
   p <-? match pre_str with
         | None => Ok []
         | Some p => if bool_decide (p = "") then Ok [] else parse_pre p
         end;
   Ok (MkPartial maj min pat, p))%cruft.

Definition band (lmaj lmin lpat hmaj hmin hpat : Z) : list Comparator :=
  [MkComparator OpGte (Version_new lmaj lmin lpat); MkComparator OpLt (Version_new hmaj hmin hpat)].

Definition checked_band (lmaj lmin lpat hmaj hmin hpat : Z) : result (list Comparator) SemverError :=
  Ok (band lmaj lmin lpat hmaj hmin hpat).

Definition bare_partial (tok : string) : result (list Comparator) SemverError :=
  (pp <-? parse_partial tok;
   let '(p, pr) := pp in
   match p_major p, p_minor p, p_patch p with
   | Some maj, Some min, Some pat => Ok [MkComparator OpEq (MkVersion maj min pat pr)]
   | Some maj, Some min, None =>
       min' <-? checked_inc min "bare minor"; checked_band maj min 0 maj min' 0
   | Some maj, None, _ =>
       maj' <-? checked_inc maj "bare major"; checked_band maj 0 0 maj' 0 0
   | None, _, _ => Ok []
   end)%cruft.

Definition caret (rest : string) : result (list Comparator) SemverError :=
  (pp <-? parse_partial rest;
   let '(p, pr) := pp in
   let lo := MkVersion (default 0%Z (p_major p)) (default 0%Z (p_minor p)) (default 0%Z (p_patch p)) pr in
   let both hi := Ok [MkComparator OpGte lo; MkComparator OpLt hi] in
   match p_major p, p_minor p, p_patch p with
   | Some 0%Z, Some 0%Z, Some _ => n <-? checked_inc (patch lo) "caret patch"; both (Version_new 0 0 n)
   | Some 0%Z, Some 0%Z, None => both (Version_new 0 1 0)
   | Some 0%Z, Some m, _ => n <-? checked_inc m "caret minor"; both (Version_new 0 n 0)
   | Some 0%Z, None, _ => both (Version_new 1 0 0)
   | Some maj, _, _ => n <-? checked_inc maj "caret major"; both (Version_new n 0 0)
   | None, _, _ => Ok []
   end)%cruft.

Definition tilde (rest : string) : result (list Comparator) SemverError :=
  (pp <-? parse_partial rest;
   let '(p, pr) := pp in
   match p_major p, p_minor p, p_patch p with
   | Some maj, Some min, Some pat =>
       min' <-? checked_inc min "tilde full minor";
       Ok [MkComparator OpGte (MkVersion maj min pat pr); MkComparator OpLt (Version_new maj min' 0)]
   | Some maj, Some min, None =>
       min' <-? checked_inc min "tilde minor"; checked_band maj min 0 maj min' 0
   | Some maj, None, _ =>
       maj' <-? checked_inc maj "tilde major"; checked_band maj 0 0 maj' 0 0
   | None, _, _ => Ok []
   end)%cruft.

(** The bound a comparator with a wildcard stands for. *)
Definition wildcard_comparator (o : Op) (x_min : bool) (maj min : Z) : fallible Comparator SemverError :=
  (match o with
   | OpGt => Ret (if x_min
                  then n <-? checked_inc maj "> major wildcard"; Ok (MkComparator OpGte (Version_new n 0 0))
                  else n <-? checked_inc min "> minor wildcard"; Ok (MkComparator OpGte (Version_new maj n 0)))
   | OpLte => Ret (if x_min
                   then n <-? checked_inc maj "<= major wildcard"; Ok (MkComparator OpLt (Version_new n 0 0))
                   else n <-? checked_inc min "<= minor wildcard"; Ok (MkComparator OpLt (Version_new maj n 0)))
   | OpGte => Ret (Ok (MkComparator OpGte (Version_new maj min 0)))
   | OpLt => Ret (Ok (MkComparator OpLt (Version_new maj min 0)))
   | OpEq => Panic (* unreachable! *)
   end)%cruft.

Definition is_none {A} (o : option A) : bool := match o with None => true | Some _ => false end.

Definition operator_partial (o : Op) (rest : string) : fallible (list Comparator) SemverError :=
  (pp <-!? Ret (parse_partial rest);
   let '(p, pr) := pp in
   let any_x := is_none (p_major p) || is_none (p_minor p) || is_none (p_patch p) in
   if bool_decide (o = OpEq) && any_x then
     Ret (match p_major p, p_minor p with
          | None, _ => Ok []
          | Some maj, None => n <-? checked_inc maj "= major"; checked_band maj 0 0 n 0 0
          | Some maj, Some min => n <-? checked_inc min "= minor"; checked_band maj min 0 maj n 0
          end)
   else
     match p_major p with
     | None => Ret (Ok (match o with
                        | OpGt | OpLt => [MkComparator OpLt (Version_new 0 0 0)]
                        | _ => []
                        end))
     | Some maj =>
         let min := default 0%Z (p_minor p) in
         let pat := default 0%Z (p_patch p) in
         if negb any_x then Ret (Ok [MkComparator o (MkVersion maj min pat pr)])
         else c <-!? wildcard_comparator o (is_none (p_minor p)) maj min; Ret (Ok [c])
     end)%cruft.

(** The prefix table of [expand_comparator], in its order. *)
Definition op_prefixes : list (string * Op) :=
  [(">=", OpGte); ("<=", OpLte); (">", OpGt); ("<", OpLt); ("=", OpEq)].

Fixpoint find_op (table : list (string * Op)) (tok : string) : option (Op * string) :=
  match table with
  | [] => None
  | (prefix, o) :: table' =>
      match strip_prefix prefix tok with
      | Some rest => Some (o, rest)
      | None => find_op table' tok
      end
  end.

Definition expand_comparator (tok : string) : fallible (list Comparator) SemverError :=
  let tok := trim tok in
  if bool_decide (tok = "") || bool_decide (tok = "*") || bool_decide (tok = "x") || bool_decide (tok = "X")
  then Ret (Ok [])
  else match strip_prefix "^" tok with
       | Some rest => Ret (caret rest)
       | None =>
           match strip_prefix "~" tok with
           | Some rest => Ret (tilde rest)
           | None =>
               match find_op op_prefixes tok with
               | Some (o, rest) => operator_partial o rest
               | None => Ret (bare_partial tok)
               end
           end
       end.

Definition find_hyphen (s : string) : option nat := find_str " - " s.

Definition hyphen_range (lo hi : string) : result ComparatorSet SemverError :=
  (lpp <-? parse_partial lo;
   hpp <-? parse_partial hi;
   let '(lp, lpre) := lpp in
   let '(hp, hpre) := hpp in
   let low := MkVersion (default 0%Z (p_major lp)) (default 0%Z (p_minor lp)) (default 0%Z (p_patch lp)) lpre in
   match p_major hp, p_minor hp, p_patch hp with
   | None, _, _ => Ok (MkSet [MkComparator OpGte low])
   | Some maj, None, _ =>
       n <-? checked_inc maj "hyphen upper major";
       Ok (MkSet [MkComparator OpGte low; MkComparator OpLt (Version_new n 0 0)])
   | Some maj, Some min, None =>
       n <-? checked_inc min "hyphen upper minor";
       Ok (MkSet [MkComparator OpGte low; MkComparator OpLt (Version_new maj n 0)])
   | Some maj, Some min, Some pat =>
       Ok (MkSet [MkComparator OpGte low; MkComparator OpLte (MkVersion maj min pat hpre)])
   end)%cruft.

(** [glue_operator_spaces]: white space after a run of operator characters goes.
    [after_op] says whether the last character kept was one. *)
Definition is_op_char (a : char) : bool :=
  bool_decide (a ∈ ["<"; ">"; "="; "~"; "^"]%char).

Fixpoint glue (after_op : bool) (s : string) : string :=
  match s with
  | EmptyString => EmptyString
  | String a s1 =>
      if is_op_char a then String a (glue true s1) else
      if after_op then
        if ws1 a then glue true s1 else
        match s1 with
        | EmptyString => String a (glue false s1)
        | String b s2 =>
            if ws2 a b then glue true s2 else
            match s2 with
            | EmptyString => String a (glue false s1)
            | String c s3 => if ws3 a b c then glue true s3 else String a (glue false s1)
            end
        end
      else String a (glue false s1)
  end.

Definition glue_operator_spaces (s : string) : string := glue false s.

Fixpoint expand_all (toks : list string) : fallible (list Comparator) SemverError :=
  match toks with
  | [] => Ret (Ok [])
  | tok :: toks' =>
      (cs <-!? expand_comparator tok; cs' <-!? expand_all toks'; Ret (Ok (cs ++ cs')))%cruft
  end.

Definition parse_comparator_set (clause : string) : fallible ComparatorSet SemverError :=
  (let clause := trim clause in
   if bool_decide (clause = "") || bool_decide (clause = "*") then Ret (Ok (MkSet []))
   else match find_hyphen clause with
        | Some idx =>
            let lo := trim (string_take idx clause) in
            let hi := trim (string_drop (idx + 3) clause) in
            Ret (hyphen_range lo hi)
        | None =>
            let glued := glue_operator_spaces clause in
            cs <-!? expand_all (split_whitespace glued); Ret (Ok (MkSet cs))
        end)%cruft.

(** [input.split("||")]. *)
Fixpoint split_bars (s : string) : list string :=
  match s with
  | EmptyString => [EmptyString]
  | String a s1 =>
      match s1 with
      | String b s2 =>
          if bool_decide (a = "|"%char) && bool_decide (b = "|"%char)
          then EmptyString :: split_bars s2 else push_front a (split_bars s1)
      | EmptyString => push_front a (split_bars s1)
      end
  end.

Fixpoint parse_sets (clauses : list string) : fallible (list ComparatorSet) SemverError :=
  match clauses with
  | [] => Ret (Ok [])
  | clause :: clauses' =>
      (set <-!? parse_comparator_set (trim clause); sets <-!? parse_sets clauses'; Ret (Ok (set :: sets)))%cruft
  end.

Definition Range_parse (input : string) : fallible Range SemverError :=
  (sets <-!? parse_sets (split_bars (trim input));
   Ret (Ok (MkRange (match sets with [] => [MkSet []] | _ => sets end))))%cruft.

(** ** Canonical text *)

Definition canonical_str (o : Op) : string :=
  match o with OpLt => "<" | OpLte => "<=" | OpGt => ">" | OpGte => ">=" | OpEq => "=" end.

Definition identifier_string (id : Identifier) : string :=
  match id with Numeric n => u64_to_string n | AlphaNumeric a => a end.

Definition version_canonical (v : Version) : string :=
  let s := u64_to_string (major v) +:+ "." +:+ u64_to_string (minor v) +:+ "." +:+ u64_to_string (patch v) in
  if bool_decide (pre v = []) then s
  else s +:+ "-" +:+ string_join "." (identifier_string <$> pre v).

Definition comparator_string (c : Comparator) : string :=
  canonical_str (op c) +:+ version_canonical (version c).

Definition ComparatorSet_canonical_string (set : ComparatorSet) : string :=
  string_join " " (dedup (sort_strings (comparator_string <$> comparators set))).

Definition Range_canonical_string (r : Range) : string :=
  string_join " || " (dedup (sort_strings (ComparatorSet_canonical_string <$> sets r))).

(** ** Selection *)

Definition satisfies (range version : string) : fallible bool SemverError :=
  (r <-!? Range_parse range; v <-!? Ret (Version_parse version); Ret (Ok (Range_satisfies r v)))%cruft.

(** One turn of the selection loop, on candidate [s]; [good] is its test. *)
Definition consider (good : Version → bool) (best : option (string * Version)) (s : string) :
    option (string * Version) :=
  match Version_parse s with
  | Err _ => best
  | Ok v =>
      if good v then
        match best with
        | Some (_, bv) => if bool_decide (cmp_precedence v bv ≠ Gt) then best else Some (s, v)
        | None => Some (s, v)
        end
      else best
  end.

Definition max_satisfying (range : string) (available : list string) : outcome (option string) :=
  (r <-! Range_parse range;
   Ret (match r with
        | Err _ => None
        | Ok r => fst <$> foldl (consider (Range_satisfies r)) None available
        end))%cruft.

Fixpoint parse_ranges (ranges : list string) : fallible (list Range) SemverError :=
  match ranges with
  | [] => Ret (Ok [])
  | r :: ranges' => (x <-!? Range_parse r; xs <-!? parse_ranges ranges'; Ret (Ok (x :: xs)))%cruft
  end.

Definition max_satisfying_all (ranges available : list string) : outcome (option string) :=
  (parsed <-! parse_ranges ranges;
   Ret (match parsed with
        | Err _ => None
        | Ok rs => fst <$> foldl (consider (λ v, forallb (λ r, Range_satisfies r v) rs)) None available
        end))%cruft.

(** [filter_map(|r| Range::parse(r).ok())]. *)
Fixpoint parse_valid_ranges (ranges : list string) : outcome (list Range) :=
  match ranges with
  | [] => Ret []
  | r :: ranges' =>
      (x <-! Range_parse r; xs <-! parse_valid_ranges ranges';
       Ret (match x with Ok r => r :: xs | Err _ => xs end))%cruft
  end.

Definition satisfied_count (rs : list Range) (v : Version) : nat :=
  length (filter (λ r, Range_satisfies r v = true) rs).

Definition consider_most (rs : list Range) (best : option (string * nat * Version)) (s : string) :
    option (string * nat * Version) :=
  match Version_parse s with
  | Err _ => best
  | Ok v =>
      let count := satisfied_count rs v in
      if bool_decide (count = 0) then best
      else
        let better :=
          match best with
          | None => true
          | Some (_, bc, bv) =>
              bool_decide (bc < count)
              || bool_decide (count = bc) && bool_decide (cmp_precedence v bv = Gt)
          end in
        if better then Some (s, count, v) else best
  end.

Definition version_satisfying_most (ranges available : list string) : outcome (option string) :=
  (rs <-! parse_valid_ranges ranges;
   Ret (fst ∘ fst <$> foldl (consider_most rs) None available))%cruft.

Definition is_exact_pin (spec : string) : bool :=
  let t := trim spec in
  if existsb (λ p, string_starts_with p t) ["^"; "~"; ">"; "<"; "="; "v"]
     || string_contains "*" t || string_contains " - " t || string_contains "||" t || has_whitespace t
  then false
  else match parse_partial t with
       | Ok (p, _) => negb (is_none (p_major p)) && negb (is_none (p_minor p)) && negb (is_none (p_patch p))
       | Err _ => false
       end.
