(* ===== verification/SemverOrder.v ===== *)
(** * SemverOrder: precedence is a total order, versions print and parse back, and ranges

    The best version that satisfies a range is chosen ([max_satisfying_best]). *)

From S2P Require Import Prelude Text Semver.

(** ** Precedence *)

#[export] Instance cmp_identifier_total : TotalCmp cmp_identifier.
Proof.
  split.
  - intros [m|m] [n|n]; simpl; try done; rewrite cmp_eq; naive_solver.
  - intros [m|m] [n|n]; simpl; try done; apply cmp_opp.
  - intros [m|m] [n|n] [k|k]; simpl; try done; apply cmp_trans.
Qed.

(** The loop over the zipped identifiers is lexicographic comparison. *)
Lemma cmp_zipped_lex a b :
  cmp_zipped (zip a b) (Nat.compare (length a) (length b)) = lex_compare cmp_identifier a b.
Proof.
  revert b. induction a as [|x a IH]; intros [|y b]; try done. simpl. rewrite IH.
  by destruct (cmp_identifier x y).
Qed.

(** An empty list of identifiers comes after every other. *)
Lemma cmp_pre_lex a b :
  cmp_pre a b = match a, b with
                | [], [] => Eq | [], _ => Gt | _, [] => Lt
                | _, _ => lex_compare cmp_identifier a b
                end.
Proof. destruct a as [|x a], b as [|y b]; try done. apply cmp_zipped_lex. Qed.

#[export] Instance cmp_pre_total : TotalCmp cmp_pre.
Proof.
  split.
  - intros a b. rewrite cmp_pre_lex. destruct a, b; try done. apply cmp_eq.
  - intros a b. rewrite !cmp_pre_lex. destruct a, b; try done. apply cmp_opp.
  - intros a b c. rewrite !cmp_pre_lex. destruct a, b, c; try done. apply cmp_trans.
Qed.

(** Comparing by a first key, then by a second. *)
Lemma then_total {A B} (c1 : A → A → comparison) (c2 : B → B → comparison) `{!TotalCmp c1, !TotalCmp c2} :
  TotalCmp (λ x y : A * B, then_cmp (c1 x.1 y.1) (c2 x.2 y.2)).
Proof.
  split.
  - intros [a b] [a' b']; simpl. destruct (c1 a a') eqn:E; simpl.
    + apply cmp_eq in E as ->. rewrite cmp_eq. naive_solver.
    + split; [done|]. intros [= -> ->]. by rewrite (proj2 (cmp_eq (cmp:=c1) a' a') eq_refl) in E.
    + split; [done|]. intros [= -> ->]. by rewrite (proj2 (cmp_eq (cmp:=c1) a' a') eq_refl) in E.
  - intros [a b] [a' b']; simpl. rewrite (cmp_opp (cmp:=c1) a a'), (cmp_opp (cmp:=c2) b b').
    by destruct (c1 a a').
  - intros [a b] [a' b'] [a'' b'']; simpl. destruct (c1 a a') eqn:E1; simpl; try done.
    + apply cmp_eq in E1 as ->. destruct (c1 a' a''); simpl; try done. apply cmp_trans.
    + intros _. destruct (c1 a' a'') eqn:E2; simpl; try done.
      * apply cmp_eq in E2 as <-. by rewrite E1.
      * intros _. by rewrite (cmp_trans (cmp:=c1) a a' a'').
Qed.

Definition core (v : Version) : Z * (Z * Z) := (major v, (minor v, patch v)).

Definition cmp_core (x y : Z * (Z * Z)) : comparison :=
  then_cmp (Z.compare x.1 y.1) (then_cmp (Z.compare x.2.1 y.2.1) (Z.compare x.2.2 y.2.2)).

#[export] Instance cmp_core_total : TotalCmp cmp_core.
Proof.
  pose proof (then_total Z.compare Z.compare) as H.
  exact (then_total Z.compare (λ x y, then_cmp (Z.compare x.1 y.1) (Z.compare x.2 y.2))).
Qed.

Lemma cmp_precedence_core v w :
  cmp_precedence v w = then_cmp (cmp_core (core v) (core w)) (cmp_pre (pre v) (pre w)).
Proof. done. Qed.

#[export] Instance cmp_precedence_total : TotalCmp cmp_precedence.
Proof.
  pose proof (then_total cmp_core cmp_pre) as H.
  apply (total_by_key (λ v, (core v, pre v)) (λ x y, then_cmp (cmp_core x.1 y.1) (cmp_pre x.2 y.2))).
  intros [] []. unfold core. simpl. naive_solver.
Qed.

(** Precedence is the total order semantic versioning asks for.  Two versions
    compare equal only if they are the same; swapping the arguments swaps the
    answer; the order is transitive; and a prerelease comes before its release. *)
Lemma precedence_total_order :
  (∀ v w, cmp_precedence v w = Eq ↔ v = w) ∧
  (∀ v w, cmp_precedence w v = CompOpp (cmp_precedence v w)) ∧
  (∀ u v w, cmp_precedence u v = Lt → cmp_precedence v w = Lt → cmp_precedence u w = Lt) ∧
  (∀ v, is_prerelease v = true → cmp_precedence v (Version_new (major v) (minor v) (patch v)) = Lt).
Proof.
  split_and!; [apply cmp_eq|apply cmp_opp|apply cmp_trans|].
  intros [a b c p]. unfold is_prerelease, cmp_precedence. simpl. rewrite !Z.compare_refl. simpl.
  by destruct p.
Qed.

(** ** Printing and parsing *)

(** The characters of an identifier: letters, digits and the hyphen. *)
Definition is_identifier_char (a : char) : bool :=
  is_ascii_digit a || code_in a 65 90 || code_in a 97 122 || (code a =? 45)%Z.

Definition wf_identifier (id : Identifier) : Prop :=
  match id with
  | Numeric n => (0 ≤ n ≤ u64_max)%Z
  | AlphaNumeric s => string_forallb is_identifier_char s = true ∧ string_forallb is_ascii_digit s = false
  end.

Record wf_version (v : Version) : Prop := {
  wf_major : (0 ≤ major v ≤ u64_max)%Z;
  wf_minor : (0 ≤ minor v ≤ u64_max)%Z;
  wf_patch : (0 ≤ patch v ≤ u64_max)%Z;
  wf_pre : ∀ id, id ∈ pre v → wf_identifier id;
}.

Lemma identifier_char_code a :
  is_identifier_char a = true →
  (48 ≤ code a ≤ 57 ∨ 65 ≤ code a ≤ 90 ∨ 97 ≤ code a ≤ 122 ∨ code a = 45)%Z.
Proof. unfold is_identifier_char, is_ascii_digit. rewrite !orb_true_iff, !code_in_true, Z.eqb_eq. lia. Qed.

Lemma digit_identifier_char a : is_ascii_digit a = true → is_identifier_char a = true.
Proof. unfold is_identifier_char. by intros ->. Qed.

Lemma identifier_char_ne a c :
  is_identifier_char a = true → is_identifier_char c = false → negb (bool_decide (a = c)) = true.
Proof. intros Ha Hc. apply negb_true_iff, bool_decide_eq_false_2. intros ->. congruence. Qed.

(** A string of identifier characters avoids every other character. *)
Lemma identifier_no_char c s :
  string_forallb is_identifier_char s = true → is_identifier_char c = false → no_char c s = true.
Proof. intros Hs Hc. eapply string_forallb_impl; [|exact Hs]. intros a Ha. by apply identifier_char_ne. Qed.

Lemma digits_no_char c s :
  string_forallb is_ascii_digit s = true → is_ascii_digit c = false → no_char c s = true.
Proof.
  intros Hs Hc. eapply string_forallb_impl; [|exact Hs]. intros a Ha.
  apply negb_true_iff, bool_decide_eq_false_2. intros ->. congruence.
Qed.

Lemma identifier_string_chars id :
  wf_identifier id → string_forallb is_identifier_char (identifier_string id) = true.
Proof.
  destruct id as [n|s]; simpl; [|by intros []]. intros _.
  eapply string_forallb_impl; [apply digit_identifier_char|apply u64_to_string_digits].
Qed.

Lemma parse_identifier_string id : wf_identifier id → parse_identifier (identifier_string id) = Ok id.
Proof.
  destruct id as [n|s]; unfold parse_identifier; cbn [identifier_string wf_identifier].
  - intros Hn. rewrite bool_decide_eq_false_2 by apply u64_to_string_not_nil.
    rewrite u64_to_string_digits, parse_u64_to_string by done.
    destruct (u64_to_string n) as [|a s] eqn:E; [by apply u64_to_string_not_nil in E|].
    destruct ((1 <? Z.of_nat (String.length (String a s)))%Z && string_starts_with "0" (String a s)) eqn:E2; [|done].
    apply andb_true_iff in E2 as [Hl H0]. simpl in H0. rewrite andb_true_r in H0.
    apply bool_decide_eq_true in H0 as <-. apply u64_to_string_head in E as ->. by vm_compute in Hl.
  - intros [_ Hd]. rewrite Hd. rewrite bool_decide_eq_false_2; [done|]. by intros ->.
Qed.

Lemma parse_identifiers_strings ids :
  (∀ id, id ∈ ids → wf_identifier id) → parse_identifiers (identifier_string <$> ids) = Ok ids.
Proof.
  induction ids as [|id ids IH]; intros Hids; [done|]. cbn [fmap list_fmap parse_identifiers].
  rewrite parse_identifier_string by (apply Hids; set_solver). cbn [result_bind].
  by rewrite IH by (intros; apply Hids; set_solver).
Qed.

Lemma parse_pre_join ids :
  ids ≠ [] → (∀ id, id ∈ ids → wf_identifier id) →
  parse_pre (string_join "." (identifier_string <$> ids)) = Ok ids.
Proof.
  intros Hne Hids. unfold parse_pre, dot. rewrite split_char_join; [by apply parse_identifiers_strings|by destruct ids|].
  intros w (id & -> & Hid)%list_elem_of_fmap. apply identifier_no_char; [|done]. by apply identifier_string_chars, Hids.
Qed.

Definition core_string (v : Version) : string :=
  string_join "." [u64_to_string (major v); u64_to_string (minor v); u64_to_string (patch v)].

Lemma version_canonical_core v :
  version_canonical v =
  if bool_decide (pre v = []) then core_string v
  else core_string v +:+ String hyphen (string_join "." (identifier_string <$> pre v)).
Proof.
  unfold version_canonical, core_string, string_join. case_bool_decide; rewrite ?string_app_assoc; done.
Qed.

(** Every character of the core is a digit or a dot. *)
Lemma core_string_chars (f : char → bool) v :
  (∀ a, is_ascii_digit a = true → f a = true) → f dot = true → string_forallb f (core_string v) = true.
Proof.
  intros Hd Hdot. apply string_forallb_join; [unfold string_forallb; fold dot; by rewrite Hdot|].
  intros w Hw. eapply string_forallb_impl; [exact Hd|].
  repeat (apply elem_of_cons in Hw as [->|Hw]; [apply u64_to_string_digits|]). by inversion Hw.
Qed.

Lemma version_canonical_chars (f : char → bool) v :
  (∀ id, id ∈ pre v → wf_identifier id) →
  (∀ a, is_identifier_char a = true → f a = true) → f dot = true → string_forallb f (version_canonical v) = true.
Proof.
  intros Hids Hf Hdot.
  assert (string_forallb f (core_string v) = true) as Hc by (apply core_string_chars; auto using digit_identifier_char).
  rewrite version_canonical_core. case_bool_decide; [done|]. rewrite string_forallb_app, Hc. simpl.
  rewrite (Hf hyphen) by done. apply string_forallb_join; [unfold string_forallb; fold dot; by rewrite Hdot|].
  intros w (id & -> & Hid)%list_elem_of_fmap. eapply string_forallb_impl; [exact Hf|].
  by apply identifier_string_chars, Hids.
Qed.

Lemma cut_none c s : no_char c s = true → cut c s = (s, None).
Proof. intros H. unfold cut. by rewrite split_once_none. Qed.

Lemma canonical_no_prefix v p a :
  (∀ id, id ∈ pre v → wf_identifier id) → is_ascii_digit a = false → p = String a EmptyString →
  strip_prefix p (version_canonical v) = None.
Proof.
  intros _ Ha ->. assert (∃ b s, version_canonical v = String b s ∧ is_ascii_digit b = true) as (b & s & -> & Hb).
  { pose proof (u64_to_string_digits (major v)) as Hd.
    assert (∃ t, version_canonical v = u64_to_string (major v) +:+ t) as [t ->].
    { unfold version_canonical. case_bool_decide; rewrite ?string_app_assoc; eauto. }
    destruct (u64_to_string (major v)) as [|b s] eqn:E; [by apply u64_to_string_not_nil in E|].
    simpl in Hd. apply andb_true_iff in Hd as [Hb _]. exists b, (s +:+ t). by rewrite string_app_cons. }
  simpl. rewrite bool_decide_eq_false_2; [done|]. intros ->. congruence.
Qed.

(** Versions survive printing and parsing.  For every version with 64-bit
    components and identifiers of letters, digits and hyphens (numeric ones
    canonical), [Version::parse] of its canonical text gives the version back. *)
Lemma version_print_parse v : wf_version v → Version_parse (version_canonical v) = Ok v.
Proof.
  intros [Hmaj Hmin Hpat Hpre].
  assert (string_forallb graphic (version_canonical v) = true) as Hg.
  { apply version_canonical_chars; [done| |done]. intros a Ha%identifier_char_code. apply code_in_true. lia. }
  assert (no_char plus (version_canonical v) = true) as Hp.
  { apply version_canonical_chars; [done| |done]. intros a Ha. by apply identifier_char_ne. }
  assert (no_char hyphen (core_string v) = true) as Hh.
  { apply core_string_chars; [|done]. intros a Ha. apply negb_true_iff, bool_decide_eq_false_2. by intros ->. }
  unfold Version_parse. cbv zeta. rewrite (trim_graphic _ Hg).
  unfold strip_prefix_or. rewrite (canonical_no_prefix v "v" "v"%char), (canonical_no_prefix v "=" "="%char) by done.
  cbn [default]. rewrite (trim_graphic _ Hg), (cut_none plus _ Hp). cbn [fst].
  assert (split_char dot (core_string v) = [u64_to_string (major v); u64_to_string (minor v); u64_to_string (patch v)]) as Hs.
  { apply split_char_join; [done|]. intros w Hw.
    repeat (apply elem_of_cons in Hw as [->|Hw]; [by apply digits_no_char; [apply u64_to_string_digits|]|]).
    by inversion Hw. }
  assert (cut hyphen (version_canonical v) =
          (core_string v, if bool_decide (pre v = []) then None
                          else Some (string_join "." (identifier_string <$> pre v)))) as ->.
  { rewrite version_canonical_core. case_bool_decide; [by apply cut_none|].
    unfold cut. by rewrite split_once_app. }
  cbv beta iota. rewrite Hs. cbn [lookup list_lookup parse_num]. rewrite !parse_u64_to_string by done.
  cbn [result_bind]. case_bool_decide as Hnil.
  - cbn [result_bind]. destruct v; simpl in *. by subst.
  - rewrite bool_decide_eq_false_2.
    + rewrite parse_pre_join by done. by destruct v.
    + intros E. pose proof (parse_pre_join (pre v) Hnil Hpre) as Hj. rewrite E in Hj. by vm_compute in Hj.
Qed.

(** ** What range expressions mean and which version is chosen *)

(** ** Precedence on the core *)

Definition core_lt (v w : Version) : Prop :=
  (major v < major w ∨ major v = major w ∧ (minor v < minor w ∨ minor v = minor w ∧ patch v < patch w))%Z.

Definition same_core (v w : Version) : Prop :=
  major v = major w ∧ minor v = minor w ∧ patch v = patch w.

Lemma cmp_core_cases v w :
  (cmp_core (core v) (core w) = Lt ∧ core_lt v w) ∨
  (cmp_core (core v) (core w) = Eq ∧ same_core v w) ∨
  (cmp_core (core v) (core w) = Gt ∧ core_lt w v).
Proof.
  unfold cmp_core, core, core_lt, same_core, then_cmp; simpl.
  destruct (Z.compare_spec (major v) (major w)), (Z.compare_spec (minor v) (minor w)),
    (Z.compare_spec (patch v) (patch w));
    first [by left; split; [done|lia]|by right; left; split; [done|lia]|by right; right; split; [done|lia]].
Qed.

Lemma precedence_lt v w :
  cmp_precedence v w = Lt ↔ core_lt v w ∨ same_core v w ∧ cmp_pre (pre v) (pre w) = Lt.
Proof.
  rewrite cmp_precedence_core. destruct (cmp_core_cases v w) as [[-> H]|[[-> H]|[-> H]]]; simpl;
    unfold core_lt, same_core in *; intuition (try lia; try discriminate).
Qed.

Lemma precedence_le v w :
  cmp_precedence v w ≠ Gt ↔ core_lt v w ∨ same_core v w ∧ cmp_pre (pre v) (pre w) ≠ Gt.
Proof.
  rewrite cmp_precedence_core. destruct (cmp_core_cases v w) as [[-> H]|[[-> H]|[-> H]]]; simpl;
    unfold core_lt, same_core in *; intuition (try lia; try discriminate).
Qed.

(** A prerelease version is let in only where the lower bound names its release. *)
Definition opt_in (lo v : Version) : Prop := pre v ≠ [] → pre lo ≠ [] ∧ same_core lo v.

Lemma is_prerelease_true v : is_prerelease v = true ↔ pre v ≠ [].
Proof. unfold is_prerelease. by rewrite negb_true_iff, bool_decide_eq_false. Qed.

Lemma interval_satisfies lo hi v :
  pre hi = [] →
  set_satisfies (MkSet [MkComparator OpGte lo; MkComparator OpLt hi]) v = true ↔
  cmp_precedence lo v ≠ Gt ∧ cmp_precedence v hi = Lt ∧ opt_in lo v.
Proof.
  intros Hhi. unfold set_satisfies, opt_in. simpl. unfold Comparator_matches; simpl.
  rewrite andb_true_r, Hhi. simpl.
  assert (cmp_precedence v lo ≠ Lt ↔ cmp_precedence lo v ≠ Gt) as E.
  { by rewrite (cmp_lt_gt cmp_precedence lo v). }
  destruct (decide (cmp_precedence v lo ≠ Lt)) as [H1|H1]; [rewrite bool_decide_eq_true_2 by done|
    rewrite bool_decide_eq_false_2 by done; simpl; naive_solver].
  destruct (decide (cmp_precedence v hi = Lt)) as [H2|H2]; [rewrite bool_decide_eq_true_2 by done|
    rewrite bool_decide_eq_false_2 by done; simpl; naive_solver].
  simpl. destruct (is_prerelease v) eqn:Ep.
  - apply is_prerelease_true in Ep. rewrite orb_false_r, !andb_true_iff, negb_true_iff, bool_decide_eq_false, !Z.eqb_eq.
    unfold same_core. naive_solver.
  - rewrite <-not_true_iff_false, is_prerelease_true in Ep. naive_solver.
Qed.

(** ** Partial versions *)

Definition bounded (o : option Z) : Prop := ∀ n, o = Some n → (0 ≤ n ≤ u64_max)%Z.

Lemma parse_digits_bounds max acc s n :
  (0 ≤ acc ≤ max)%Z → parse_digits max acc s = Some n → (0 ≤ n ≤ max)%Z.
Proof.
  revert acc. induction s as [|a s IH]; intros acc Hacc; simpl; [by intros [= <-]|].
  destruct (digit_val a) as [v|] eqn:E; [|done]. apply digit_val_bound in E.
  destruct (Z.leb_spec (acc * 10 + v)%Z max); [|done]. apply IH. lia.
Qed.

Lemma parse_uint_bounds max s n : (0 ≤ max)%Z → parse_uint max s = Some n → (0 ≤ n ≤ max)%Z.
Proof.
  intros Hmax. unfold parse_uint. destruct s as [|a [|b s]]; [done|..]; case_bool_decide; try done;
    apply parse_digits_bounds; lia.
Qed.

Lemma parse_xr_bounds seg o : parse_xr seg = Ok o → bounded o.
Proof.
  unfold parse_xr. destruct seg as [s|]; [|by intros [= <-] n]. cbv zeta.
  destruct (_ || _); [by intros [= <-] n|].
  destruct (parse_uint u64_max (trim s)) as [n|] eqn:E; [|done]. intros [= <-] n' [= <-].
  by eapply parse_uint_bounds.
Qed.

Lemma parse_partial_bounds s p pr :
  parse_partial s = Ok (p, pr) → bounded (p_major p) ∧ bounded (p_minor p) ∧ bounded (p_patch p).
Proof.
  unfold parse_partial. cbv zeta. destruct (cut hyphen _) as [c po].
  intros (maj & H1 & (min & H2 & (pat & H3 & (q & _ & [= <- _])%result_bind_Ok)%result_bind_Ok)%result_bind_Ok)%result_bind_Ok.
  split_and!; eauto using parse_xr_bounds.
Qed.

Lemma checked_inc_cases n ctx :
  (0 ≤ n ≤ u64_max)%Z →
  (n ≠ u64_max ∧ checked_inc n ctx = Ok (n + 1)%Z) ∨ (n = u64_max ∧ ∃ e, checked_inc n ctx = Err e).
Proof. intros Hn. unfold checked_inc. destruct (Z.leb_spec (n + 1)%Z u64_max); [left|right]; split; eauto; lia. Qed.

(** ** Caret and tilde *)

(** The least version a partial version stands for. *)
Definition lower (p : Partial) (pr : list Identifier) : Version :=
  MkVersion (default 0%Z (p_major p)) (default 0%Z (p_minor p)) (default 0%Z (p_patch p)) pr.

(** Up to the leftmost component that is not zero, [v] is as [p] says. *)
Definition caret_prefix (p : Partial) (v : Version) : Prop :=
  match p_major p with
  | None => True
  | Some maj => major v = maj ∧ (maj = 0%Z →
      match p_minor p with
      | None => True
      | Some min => minor v = min ∧ (min = 0%Z →
          match p_patch p with None => True | Some pat => patch v = pat end)
      end)
  end.

(** The component the upper bound of a caret range increments. *)
Definition caret_bumped (p : Partial) : option Z :=
  match p_major p, p_minor p, p_patch p with
  | Some 0%Z, Some 0%Z, pat => pat
  | Some 0%Z, min, _ => min
  | maj, _, _ => maj
  end.

(** The same for a tilde range: major and minor are fixed. *)
Definition tilde_prefix (p : Partial) (v : Version) : Prop :=
  match p_major p with
  | None => True
  | Some maj => major v = maj ∧ match p_minor p with None => True | Some min => minor v = min end
  end.

Definition tilde_lower (p : Partial) (pr : list Identifier) : Version :=
  match p_minor p, p_patch p with
  | Some _, Some _ => lower p pr
  | _, _ => Version_new (default 0%Z (p_major p)) (default 0%Z (p_minor p)) 0
  end.

Definition tilde_bumped (p : Partial) : option Z :=
  match p_major p, p_minor p with Some _, Some min => Some min | maj, _ => maj end.

Definition nonneg (v : Version) : Prop := (0 ≤ major v ∧ 0 ≤ minor v ∧ 0 ≤ patch v)%Z.

(** From the order to the prefix and back, for an interval below [hi]. *)
Lemma interval_prefix (P : Prop) lo hi v :
  pre hi = [] →
  (same_core lo v → P) → (core_lt lo v ∨ same_core lo v → core_lt v hi → P) →
  (P → core_lt v hi) →
  set_satisfies (MkSet [MkComparator OpGte lo; MkComparator OpLt hi]) v = true ↔
  cmp_precedence lo v ≠ Gt ∧ P ∧ opt_in lo v.
Proof.
  intros Hhi Hsame Hin Hout. rewrite interval_satisfies by done. split.
  - intros (Hlo & Hlt & Hopt). split_and!; [done| |done].
    apply precedence_lt in Hlt as [Hlt|[Hsc Hp]].
    + apply Hin; [|done]. apply precedence_le in Hlo as [?|[? _]]; auto.
    + destruct (decide (pre v = [])) as [E|E]; [by rewrite E, Hhi in Hp|]. apply Hsame, Hopt, E.
  - intros (Hlo & HP & Hopt). split_and!; [done| |done]. apply precedence_lt. auto.
Qed.

(** The empty set of comparators lets every release in, and no prerelease. *)
Lemma any_satisfies v : set_satisfies (MkSet []) v = true ↔ pre v = [].
Proof.
  unfold set_satisfies. simpl. unfold is_prerelease. case_bool_decide; simpl; naive_solver.
Qed.

Ltac solve_prefix :=
  apply interval_prefix; [done|..];
  unfold caret_prefix, tilde_prefix, core_lt, same_core, lower, nonneg in *; simpl in *; lia.

Lemma caret_spec p pr rest :
  parse_partial rest = Ok (p, pr) →
  match caret rest with
  | Err _ => caret_bumped p = Some u64_max
  | Ok cs => caret_bumped p ≠ Some u64_max ∧ ∀ v, nonneg v →
      set_satisfies (MkSet cs) v = true ↔
      match p_major p with
      | None => pre v = []
      | Some _ => cmp_precedence (lower p pr) v ≠ Gt ∧ caret_prefix p v ∧ opt_in (lower p pr) v
      end
  end.
Proof.
  intros Hp. destruct (parse_partial_bounds rest p pr Hp) as (B1 & B2 & B3).
  unfold caret. rewrite Hp. cbn [result_bind]. destruct p as [maj min pat]. simpl in B1, B2, B3.
  unfold caret_bumped, lower; simpl. destruct maj as [maj|]; simpl;
    [|split; [done|]; intros v _; apply any_satisfies].
  specialize (B1 maj eq_refl).
  destruct maj as [|maj|maj]; [|destruct (checked_inc_cases (Z.pos maj) "caret major" B1) as [[Hne ->]|[-> [e ->]]]|lia].
  - destruct min as [min|]; simpl; [|split; [done|]; intros v Hv; solve_prefix].
    specialize (B2 min eq_refl).
    destruct min as [|min|min]; [|destruct (checked_inc_cases (Z.pos min) "caret minor" B2) as [[Hne ->]|[-> [e ->]]]|lia].
    + destruct pat as [pat|]; simpl; [|split; [done|]; intros v Hv; solve_prefix].
      specialize (B3 pat eq_refl).
      destruct (checked_inc_cases pat "caret patch" B3) as [[Hne ->]|[-> [e ->]]]; simpl; [|done].
      split; [congruence|]. intros v Hv. solve_prefix.
    + simpl. split; [congruence|]. intros v Hv. solve_prefix.
    + done.
  - simpl. split; [congruence|]. intros v Hv. solve_prefix.
  - done.
Qed.

Lemma tilde_spec p pr rest :
  parse_partial rest = Ok (p, pr) →
  match tilde rest with
  | Err _ => tilde_bumped p = Some u64_max
  | Ok cs => tilde_bumped p ≠ Some u64_max ∧ ∀ v, nonneg v →
      set_satisfies (MkSet cs) v = true ↔
      match p_major p with
      | None => pre v = []
      | Some _ => cmp_precedence (tilde_lower p pr) v ≠ Gt ∧ tilde_prefix p v ∧ opt_in (tilde_lower p pr) v
      end
  end.
Proof.
  intros Hp. destruct (parse_partial_bounds rest p pr Hp) as (B1 & B2 & B3).
  unfold tilde. rewrite Hp. cbn [result_bind]. destruct p as [maj min pat]. simpl in B1, B2, B3.
  unfold tilde_bumped, tilde_lower; simpl. destruct maj as [maj|]; simpl;
    [|split; [done|]; intros v _; apply any_satisfies].
  specialize (B1 maj eq_refl). destruct min as [min|].
  - specialize (B2 min eq_refl). destruct pat as [pat|].
    + destruct (checked_inc_cases min "tilde full minor" B2) as [[Hne ->]|[-> [e ->]]]; simpl; [|done].
      split; [congruence|]. intros v Hv. solve_prefix.
    + destruct (checked_inc_cases min "tilde minor" B2) as [[Hne ->]|[-> [e ->]]]; simpl; [|done].
      split; [congruence|]. intros v Hv. solve_prefix.
  - destruct (checked_inc_cases maj "tilde major" B1) as [[Hne ->]|[-> [e ->]]]; simpl; [|done].
    split; [congruence|]. intros v Hv. solve_prefix.
Qed.

(** What caret and tilde ranges mean.  Whatever partial version follows the
    sign, a caret range is satisfied by exactly the versions that are not below it
    and agree with it up to its leftmost non-zero component, and a tilde range by
    those that are not below it and agree with it on major and minor; a prerelease
    only if the lower bound is a prerelease of the same release.  The only error is
    the overflow of the component the upper bound increments. *)
Lemma caret_and_tilde_exact rest p pr :
  parse_partial rest = Ok (p, pr) →
  match caret rest with
  | Err _ => caret_bumped p = Some u64_max
  | Ok cs => caret_bumped p ≠ Some u64_max ∧ ∀ v, nonneg v →
      set_satisfies (MkSet cs) v = true ↔
      match p_major p with
      | None => pre v = []
      | Some _ => cmp_precedence (lower p pr) v ≠ Gt ∧ caret_prefix p v ∧ opt_in (lower p pr) v
      end
  end ∧
  match tilde rest with
  | Err _ => tilde_bumped p = Some u64_max
  | Ok cs => tilde_bumped p ≠ Some u64_max ∧ ∀ v, nonneg v →
      set_satisfies (MkSet cs) v = true ↔
      match p_major p with
      | None => pre v = []
      | Some _ => cmp_precedence (tilde_lower p pr) v ≠ Gt ∧ tilde_prefix p v ∧ opt_in (tilde_lower p pr) v
      end
  end.
Proof. intros Hp. split; [by apply caret_spec|by apply tilde_spec]. Qed.

(** ** No panic *)

Lemma wildcard_comparator_total o x_min maj min : o ≠ OpEq → ∃ r, wildcard_comparator o x_min maj min = Ret r.
Proof. destruct o; simpl; eauto. done. Qed.

Lemma operator_partial_total o rest : ∃ r, operator_partial o rest = Ret r.
Proof.
  unfold operator_partial. destruct (parse_partial rest) as [[p pr]|e]; simpl; [|eauto].
  case_bool_decide as Ho; simpl.
  - destruct (p_major p) as [maj|], (p_minor p) as [min|], (p_patch p) as [pat|]; simpl; eauto.
  - destruct (p_major p) as [maj|]; simpl; [|eauto].
    destruct (negb _); [eauto|].
    destruct (wildcard_comparator_total o (is_none (p_minor p)) maj (default 0%Z (p_minor p)) Ho) as [[c|e] ->];
      simpl; eauto.
Qed.

Lemma fallible_bind_total {A B E} (m : fallible A E) (k : A → fallible B E) :
  (∃ r, m = Ret r) → (∀ a, ∃ r, k a = Ret r) → ∃ r, fallible_bind m k = Ret r.
Proof. intros [[a|e] ->] Hk; simpl; eauto. Qed.

Lemma expand_comparator_total tok : ∃ r, expand_comparator tok = Ret r.
Proof.
  unfold expand_comparator. cbv zeta. destruct (_ || _); [eauto|].
  destruct (strip_prefix "^" (trim tok)); [eauto|]. destruct (strip_prefix "~" (trim tok)); [eauto|].
  destruct (find_op op_prefixes (trim tok)) as [[o rest]|]; [apply operator_partial_total|eauto].
Qed.

Lemma expand_all_total toks : ∃ r, expand_all toks = Ret r.
Proof.
  induction toks as [|tok toks IH]; simpl; [eauto|].
  apply fallible_bind_total; [apply expand_comparator_total|]. intros cs.
  apply fallible_bind_total; [done|eauto].
Qed.

Lemma parse_comparator_set_total clause : ∃ r, parse_comparator_set clause = Ret r.
Proof.
  unfold parse_comparator_set. cbv zeta. destruct (_ || _); [eauto|]. destruct (find_hyphen _); [eauto|].
  apply fallible_bind_total; [apply expand_all_total|eauto].
Qed.

Lemma Range_parse_total input : ∃ r, Range_parse input = Ret r.
Proof.
  unfold Range_parse. apply fallible_bind_total; [|eauto].
  induction (split_bars (trim input)) as [|c cs IH]; simpl; [eauto|].
  apply fallible_bind_total; [apply parse_comparator_set_total|]. intros x. apply fallible_bind_total; eauto.
Qed.

(** ** Selection *)

Definition candidate (good : Version → bool) (available : list string) (s : string) (v : Version) : Prop :=
  s ∈ available ∧ Version_parse s = Ok v ∧ good v = true.

(** What the loop has found after a prefix of the candidates. *)
Definition best_of (good : Version → bool) (available : list string) (best : option (string * Version)) : Prop :=
  match best with
  | None => ∀ s v, ¬ candidate good available s v
  | Some (s, v) => candidate good available s v ∧
                   ∀ s' v', candidate good available s' v' → cmp_precedence v' v ≠ Gt
  end.

Lemma cmp_le_trans u v w :
  cmp_precedence u v ≠ Gt → cmp_precedence v w ≠ Gt → cmp_precedence u w ≠ Gt.
Proof.
  intros H1 H2 H3. apply (cmp_lt_gt cmp_precedence) in H3.
  destruct (cmp_precedence u v) eqn:E1; [apply cmp_eq in E1 as ->|clear H1|done].
  - rewrite (cmp_opp (cmp:=cmp_precedence) v w) in H3. by destruct (cmp_precedence v w).
  - pose proof (cmp_trans (cmp:=cmp_precedence) w u v H3 E1) as H4.
    rewrite (cmp_opp (cmp:=cmp_precedence) v w) in H4. by destruct (cmp_precedence v w).
Qed.

Lemma candidate_snoc good l s0 s v :
  candidate good (l ++ [s0]) s v ↔ candidate good l s v ∨ s = s0 ∧ Version_parse s0 = Ok v ∧ good v = true.
Proof. unfold candidate. rewrite elem_of_app, list_elem_of_singleton. naive_solver. Qed.

Lemma cmp_refl_not_gt v : cmp_precedence v v ≠ Gt.
Proof. by rewrite (proj2 (cmp_eq (cmp:=cmp_precedence) v v) eq_refl). Qed.

Lemma consider_best good l s0 best :
  best_of good l best → best_of good (l ++ [s0]) (consider good best s0).
Proof.
  intros Hb. unfold consider. destruct (Version_parse s0) as [v0|e] eqn:Ev; [destruct (good v0) eqn:Eg|].
  - destruct best as [[s v]|]; simpl in Hb; [case_bool_decide as Hc|]; simpl.
    + destruct Hb as [Hs Hmax]. split; [apply candidate_snoc; auto|].
      intros s' v' [?|(-> & E & _)]%candidate_snoc; [eauto|]. rewrite E in Ev. by simplify_eq.
    + destruct Hb as [Hs Hmax]. split; [apply candidate_snoc; right; done|].
      intros s' v' [Hc'|(-> & E & _)]%candidate_snoc; [|rewrite E in Ev; simplify_eq; apply cmp_refl_not_gt].
      apply (cmp_le_trans v' v v0); [eauto|]. apply (cmp_lt_gt cmp_precedence) in Hc.
      by rewrite Hc.
    + split; [apply candidate_snoc; right; done|].
      intros s' v' [Hc'|(-> & E & _)]%candidate_snoc; [by apply Hb in Hc'|]. rewrite E in Ev; simplify_eq.
      apply cmp_refl_not_gt.
  - destruct best as [[s v]|]; simpl in *.
    + destruct Hb as [Hs Hmax]. split; [apply candidate_snoc; auto|].
      intros s' v' [?|(-> & E & Hg)]%candidate_snoc; [eauto|]. congruence.
    + intros s v [Hc|(-> & E & Hg)]%candidate_snoc; [by eapply Hb|congruence].
  - destruct best as [[s v]|]; simpl in *.
    + destruct Hb as [Hs Hmax]. split; [apply candidate_snoc; auto|].
      intros s' v' [?|(-> & E & Hg)]%candidate_snoc; [eauto|]. congruence.
    + intros s v [Hc|(-> & E & Hg)]%candidate_snoc; [by eapply Hb|congruence].
Qed.

Lemma consider_all good l : best_of good l (foldl (consider good) None l).
Proof.
  induction l as [|s l IH] using rev_ind; [intros s v (Hs & _); set_solver|].
  rewrite foldl_app. by apply consider_best.
Qed.

Lemma parse_ranges_total ranges : ∃ r, parse_ranges ranges = Ret r.
Proof.
  induction ranges as [|r rs IH]; simpl; [eauto|]. apply fallible_bind_total; [apply Range_parse_total|].
  intros x. apply fallible_bind_total; eauto.
Qed.

(** C30: the version chosen is the best one.  [max_satisfying_all] never panics.
    If it returns a version, that version is offered, parses, satisfies every
    range, and none of the offered versions that do is above it; if it returns
    none, a range does not parse or no offered version satisfies them all.  For a
    single range it is [max_satisfying]. *)
Theorem max_satisfying_best ranges available :
  (∃ res, max_satisfying_all ranges available = Ret res ∧
   match parse_ranges ranges with
   | Panic => False
   | Ret (Err _) => res = None
   | Ret (Ok rs) =>
       let good v := forallb (λ r, Range_satisfies r v) rs in
       match res with
       | None => ∀ s v, ¬ candidate good available s v
       | Some s => ∃ v, candidate good available s v ∧
                        ∀ s' v', candidate good available s' v' → cmp_precedence v' v ≠ Gt
       end
   end) ∧
  ∀ range, max_satisfying range available = max_satisfying_all [range] available.
Proof.
  split.
  - unfold max_satisfying_all. destruct (parse_ranges_total ranges) as [[rs|e] ->]; simpl; [|eauto].
    eexists. split; [done|]. set (good := λ v, forallb (λ r, Range_satisfies r v) rs).
    pose proof (consider_all good available) as Hb.
    destruct (foldl (consider good) None available) as [[s v]|]; simpl in *; eauto.
  - intros range. unfold max_satisfying, max_satisfying_all. simpl.
    destruct (Range_parse_total range) as [[r|e] ->]; simpl; [|done]. do 2 f_equal.
    assert (∀ l b, foldl (consider (Range_satisfies r)) b l
                   = foldl (consider (λ v, Range_satisfies r v && true)) b l) as E; [|apply E].
    induction l as [|s l IH]; intros b; [done|]. simpl. rewrite IH. f_equal. unfold consider.
    destruct (Version_parse s); [|done]. by rewrite andb_true_r.
Qed.

(** ** Serving as many ranges as possible *)

Definition served (rs : list Range) (available : list string) (s : string) (v : Version) : Prop :=
  s ∈ available ∧ Version_parse s = Ok v ∧ satisfied_count rs v ≠ 0.

(** [v'] serves fewer ranges than [v], or as many and is not above it. *)
Definition no_better (rs : list Range) (v' v : Version) : Prop :=
  satisfied_count rs v' < satisfied_count rs v ∨
  satisfied_count rs v' = satisfied_count rs v ∧ cmp_precedence v' v ≠ Gt.

Definition most_of (rs : list Range) (available : list string) (best : option (string * nat * Version)) : Prop :=
  match best with
  | None => ∀ s v, ¬ served rs available s v
  | Some (s, n, v) => n = satisfied_count rs v ∧ served rs available s v ∧
                      ∀ s' v', served rs available s' v' → no_better rs v' v
  end.

Lemma served_snoc rs l s0 s v :
  served rs (l ++ [s0]) s v ↔ served rs l s v ∨ s = s0 ∧ Version_parse s0 = Ok v ∧ satisfied_count rs v ≠ 0.
Proof. unfold served. rewrite elem_of_app, list_elem_of_singleton. naive_solver. Qed.

Lemma no_better_trans rs u v w : no_better rs u v → no_better rs v w → no_better rs u w.
Proof.
  unfold no_better. intros [?|[? ?]] [?|[? ?]]; [left; lia..|]. right. split; [lia|].
  by eapply cmp_le_trans.
Qed.

Lemma consider_most_better rs s0 v0 s n v :
  Version_parse s0 = Ok v0 → satisfied_count rs v0 ≠ 0 → n = satisfied_count rs v →
  (consider_most rs (Some (s, n, v)) s0 = Some (s, n, v) ∧ no_better rs v0 v) ∨
  (consider_most rs (Some (s, n, v)) s0 = Some (s0, satisfied_count rs v0, v0) ∧ no_better rs v v0).
Proof.
  intros E Hc ->. unfold consider_most. rewrite E, bool_decide_eq_false_2 by done. cbv zeta.
  destruct (bool_decide _ || _) eqn:B.
  - right. split; [done|]. unfold no_better.
    rewrite orb_true_iff, andb_true_iff, !bool_decide_eq_true in B.
    destruct B as [?|[? Hg]]; [by left|right]. split; [done|].
    rewrite (cmp_opp (cmp:=cmp_precedence) v0 v), Hg. done.
  - left. split; [done|]. unfold no_better.
    rewrite orb_false_iff, andb_false_iff, !bool_decide_eq_false in B. destruct B as [? [?|?]]; [left; lia|].
    destruct (decide (satisfied_count rs v0 = satisfied_count rs v)); [by right|left; lia].
Qed.

Lemma no_better_refl rs v : no_better rs v v.
Proof. right. split; [done|apply cmp_refl_not_gt]. Qed.

Lemma consider_most_best rs l s0 best :
  most_of rs l best → most_of rs (l ++ [s0]) (consider_most rs best s0).
Proof.
  intros Hb. destruct (Version_parse s0) as [v0|e] eqn:Ev; [destruct (decide (satisfied_count rs v0 = 0)) as [Hz|Hz]|].
  - assert (consider_most rs best s0 = best) as ->.
    { unfold consider_most. rewrite Ev. cbv zeta. by rewrite bool_decide_eq_true_2. }
    destruct best as [[[s n] v]|]; simpl in *; [destruct Hb as (? & ? & Hmax); split_and!; [done|by apply served_snoc; left|]|];
      intros s' v' [Hc|(-> & E & Hg)]%served_snoc; try congruence; by eapply Hb || eauto.
  - destruct best as [[[s n] v]|].
    + destruct Hb as (Hn & Hs & Hmax).
      destruct (consider_most_better rs s0 v0 s n v Ev Hz Hn) as [[-> Hnb]|[-> Hnb]]; simpl; split_and!; try done.
      * apply served_snoc. by left.
      * intros s' v' [Hc|(-> & E & Hg)]%served_snoc; [by eapply Hmax|]. rewrite E in Ev. by simplify_eq.
      * apply served_snoc. by right.
      * intros s' v' [Hc|(-> & E & Hg)]%served_snoc; [eapply no_better_trans; [by eapply Hmax|done]|].
        rewrite E in Ev. simplify_eq. apply no_better_refl.
    + unfold consider_most. rewrite Ev, bool_decide_eq_false_2 by done. simpl. split_and!; [done|by apply served_snoc; right|].
      intros s' v' [Hc|(-> & E & Hg)]%served_snoc; [by apply Hb in Hc|]. rewrite E in Ev. simplify_eq. apply no_better_refl.
  - unfold consider_most. rewrite Ev. destruct best as [[[s n] v]|]; simpl in *;
      [destruct Hb as (? & ? & Hmax); split_and!; [done|by apply served_snoc; left|]|];
      intros s' v' [Hc|(-> & E & Hg)]%served_snoc; try congruence; by eapply Hb || eauto.
Qed.

Lemma parse_valid_ranges_total ranges : ∃ rs, parse_valid_ranges ranges = Ret rs.
Proof.
  induction ranges as [|r rs [xs IH]]; simpl; [eauto|].
  destruct (Range_parse_total r) as [x ->]. rewrite IH. simpl. eauto.
Qed.

(** The most widely acceptable version.  [version_satisfying_most] never
    panics; over the ranges that parse, what it returns is an offered version that
    satisfies at least one of them, and every other offered version satisfies
    fewer, or as many without being above it; it returns none only if no offered
    version satisfies any. *)
Lemma version_satisfying_most_best ranges available :
  ∃ rs res, parse_valid_ranges ranges = Ret rs ∧ version_satisfying_most ranges available = Ret res ∧
  match res with
  | None => ∀ s v, ¬ served rs available s v
  | Some s => ∃ v, served rs available s v ∧ ∀ s' v', served rs available s' v' → no_better rs v' v
  end.
Proof.
  unfold version_satisfying_most. destruct (parse_valid_ranges_total ranges) as [rs ->]. exists rs.
  eexists. split; [done|]. split; [done|].
  assert (most_of rs available (foldl (consider_most rs) None available)) as Hb.
  { induction available as [|s l IH] using rev_ind; [intros s v (Hs & _); set_solver|].
    rewrite foldl_app. by apply consider_most_best. }
  destruct (foldl (consider_most rs) None available) as [[[s n] v]|]; simpl in *; [|done].
  exists v. by destruct Hb as (_ & ? & ?).
Qed.

(** ** Exact pins *)

Lemma split_bars_none s : string_contains "||" s = false → split_bars s = [s].
Proof.
  induction s as [|a s IH]; [done|]. intros H. specialize (IH (string_contains_cons _ _ _ H)).
  apply string_contains_head in H. cbn [split_bars]. destruct s as [|b s]; [done|].
  simpl in H. rewrite andb_true_r in H.
  rewrite (bool_decide_ext (a = "|"%char) ("|"%char = a)), (bool_decide_ext (b = "|"%char) ("|"%char = b)) by done.
  rewrite H. by rewrite IH.
Qed.

Lemma glue_none b s : has_whitespace s = false → glue b s = s.
Proof.
  revert b. induction s as [|a s IH]; intros b; [done|]. intros H. pose proof (has_whitespace_tail a s H) as Ht.
  simpl in H. rewrite !orb_false_iff in H. destruct H as [[H1 H2] _]. cbn [glue].
  destruct (is_op_char a); [by rewrite IH|]. destruct b; [|by rewrite IH]. rewrite H1.
  destruct s as [|c s]; [done|]. apply orb_false_iff in H2 as [H2 H3]. rewrite H2.
  destruct s as [|d s]; [by rewrite IH|]. rewrite H3. by rewrite IH.
Qed.

Lemma pin_satisfies v w : set_satisfies (MkSet [MkComparator OpEq v]) w = true ↔ w = v.
Proof.
  unfold set_satisfies. simpl. unfold Comparator_matches; simpl. rewrite andb_true_r.
  destruct (decide (cmp_precedence w v = Eq)) as [E|E].
  - rewrite bool_decide_eq_true_2 by done. apply cmp_eq in E as ->. simpl. split; [done|intros _].
    rewrite !Z.eqb_refl. unfold is_prerelease. by case_bool_decide.
  - rewrite bool_decide_eq_false_2 by done. simpl. rewrite cmp_eq in E. naive_solver.
Qed.

(** An exact pin is exact.  If [is_exact_pin] accepts a specification, it
    parses as a range, and that range is satisfied by one version only: the one
    written, prerelease identifiers included. *)
Lemma exact_pin_is_exact spec :
  is_exact_pin spec = true →
  ∃ a b c pr, parse_partial (trim spec) = Ok (MkPartial (Some a) (Some b) (Some c), pr) ∧
    ∃ r, Range_parse spec = Ret (Ok r) ∧ ∀ v, Range_satisfies r v = true ↔ v = MkVersion a b c pr.
Proof.
  unfold is_exact_pin. cbv zeta. set (t := trim spec).
  destruct (existsb _ _ || _ || _ || _ || _) eqn:B; [done|].
  rewrite !orb_false_iff in B. destruct B as [[[[Hpre Hstar] Hhy] Hbars] Hws].
  cbn [existsb] in Hpre. rewrite !orb_false_iff in Hpre. destruct Hpre as (P1 & P2 & P3 & P4 & P5 & _ & _).
  destruct (parse_partial t) as [[p pr]|e] eqn:Ep; [|done].
  destruct p as [[a|] [b|] [c|]]; try done. intros _. exists a, b, c, pr. split; [done|].
  exists (MkRange [MkSet [MkComparator OpEq (MkVersion a b c pr)]]).
  split; [|intros v; unfold Range_satisfies; simpl; rewrite orb_false_r; apply pin_satisfies].
  assert (∀ u, t = u → parse_partial u = Ok (MkPartial (Some a) (Some b) (Some c), pr)) as Hne by (intros u <-; done).
  unfold Range_parse. fold t. rewrite split_bars_none by done. cbn [parse_sets].
  unfold parse_comparator_set. cbv zeta. rewrite !(trim_no_whitespace t Hws).
  rewrite (bool_decide_eq_false_2 (t = "")) by (intros E%Hne; by vm_compute in E).
  rewrite (bool_decide_eq_false_2 (t = "*")) by (intros E%Hne; by vm_compute in E). cbn [orb].
  unfold find_hyphen, glue_operator_spaces. rewrite find_str_None, glue_none by done.
  rewrite split_whitespace_none by (done || (intros E%Hne; by vm_compute in E)). cbn [expand_all].
  unfold expand_comparator. cbv zeta. rewrite !(trim_no_whitespace t Hws).
  rewrite (bool_decide_eq_false_2 (t = "")) by (intros E%Hne; by vm_compute in E).
  rewrite (bool_decide_eq_false_2 (t = "*")) by (intros E%Hne; by vm_compute in E).
  rewrite (bool_decide_eq_false_2 (t = "x")) by (intros E%Hne; by vm_compute in E).
  rewrite (bool_decide_eq_false_2 (t = "X")) by (intros E%Hne; by vm_compute in E). cbn [orb].
  cbn [find_op op_prefixes].
  rewrite !(strip_prefix_None _ t) by first [done|by apply (starts_with_app ">" "=")|by apply (starts_with_app "<" "=")].
  unfold bare_partial. rewrite Ep. done.
Qed.

