(* ===== verification/IndexMaps.v ===== *)
(** * IndexMaps: the insertion-ordered hash map
    (src/crates/rusty-js-indexmap/src/lib.rs)

    The map and the set every JavaScript object and module table of the runtime is
    built on: a vector of entries in insertion order and, from sixteen entries on,
    a hash index from key hashes to positions.  The hash function (the standard
    library's [DefaultHasher]) is a parameter: nothing is asked of it.  Indexing
    the vector out of range is a panic, so the operations return an [outcome]. *)

From S2P Require Import Prelude.

Definition INDEX_THRESHOLD : nat := 16.

Section IndexMap.
Context {K V : Type} `{EqDecision K} (key_hash : K → Z).
Implicit Types (k : K) (v : V) (l : list (K * V)) (h : Z) (i : nat).

Record IndexMap := MkIndexMap {
  entries : list (K * V);
  index : option (gmap Z (list nat));
}.
Implicit Types m : IndexMap.

Definition IndexMap_new : IndexMap := MkIndexMap [] None.
(** [with_capacity]: the capacity is not observable. *)
Definition IndexMap_with_capacity (capacity : Z) : IndexMap := MkIndexMap [] None.
Definition IndexMap_len m : nat := length (entries m).
Definition IndexMap_is_empty m : bool := bool_decide (entries m = []).
Definition IndexMap_iter m : list (K * V) := entries m.
Definition IndexMap_keys m : list K := (entries m).*1.
Definition IndexMap_values m : list V := (entries m).*2.
Definition IndexMap_get_index m i : option (K * V) := entries m !! i.
Definition IndexMap_clear m : IndexMap := MkIndexMap [] None.

(** [keep] may change the value it is shown. *)
Definition IndexMap_retain (keep : K → V → V * bool) m : IndexMap :=
  MkIndexMap (omap (λ e : K * V, let '(v', b) := keep e.1 e.2 in if b : bool then Some (e.1, v') else None)
                (entries m)) None.

(** [iter_mut] and [values_mut], with what the caller does to each value as [f]. *)
Definition IndexMap_iter_mut (f : K → V → V) m : IndexMap :=
  MkIndexMap ((λ e : K * V, (e.1, f e.1 e.2)) <$> entries m) (index m).

Definition scan_pos m k : option nat := fst <$> list_find (λ e : K * V, e.1 = k) (entries m).

(** [idx.entry(h).or_default().push(i)]. *)
Definition push_position (idx : gmap Z (list nat)) h i : gmap Z (list nat) :=
  <[h := default [] (idx !! h) ++ [i]]> idx.

Definition index_entries l : gmap Z (list nat) :=
  foldl (λ idx (p : nat * (K * V)), push_position idx (key_hash p.2.1) p.1) ∅ (imap pair l).

Definition build_index m : IndexMap := MkIndexMap (entries m) (Some (index_entries (entries m))).

Definition ensure_index m : IndexMap :=
  match index m with
  | None => if bool_decide (INDEX_THRESHOLD ≤ length (entries m)) then build_index m else m
  | Some _ => m
  end.

(** The loop over the candidate positions. *)
Fixpoint check_candidates l k (cands : list nat) : outcome (option nat) :=
  match cands with
  | [] => Ret None
  | i :: cands' =>
      match l !! i with
      | None => Panic
      | Some e => if bool_decide (e.1 = k) then Ret (Some i) else check_candidates l k cands'
      end
  end.

Definition find_pos m k : outcome (option nat) :=
  match index m with
  | Some idx =>
      match idx !! key_hash k with
      | None => Ret None
      | Some cands => check_candidates (entries m) k cands
      end
  | None => Ret (scan_pos m k)
  end.

(** [std::mem::replace(&mut self.entries[pos].1, value)]. *)
Definition replace_value m i v : outcome (IndexMap * V) :=
  match entries m !! i with
  | Some (k0, old) => Ret (MkIndexMap (<[i := (k0, v)]> (entries m)) (index m), old)
  | None => Panic
  end.

(** The end of [insert] and [VacantEntry::insert]: the new entry at the back. *)
Definition push_entry m k v : IndexMap :=
  let es := entries m ++ [(k, v)] in
  let i := length es - 1 in
  match index m with
  | Some idx => MkIndexMap es (Some (push_position idx (key_hash k) i))
  | None => ensure_index (MkIndexMap es None)
  end.

Definition IndexMap_insert m k v : outcome (IndexMap * option V) :=
  (pos <-! find_pos m k;
   match pos with
   | Some i => r <-! replace_value m i v; Ret (r.1, Some r.2)
   | None => Ret (push_entry m k v, None)
   end)%cruft.

Definition contains_key m k : outcome bool :=
  (pos <-! find_pos m k; Ret (match pos with Some _ => true | None => false end))%cruft.

Definition IndexMap_get m k : outcome (option V) :=
  (pos <-! find_pos m k;
   match pos with
   | None => Ret None
   | Some i => e <-! unwrap (entries m !! i); Ret (Some e.2)
   end)%cruft.

(** [get_mut], with what the caller does through the reference as [f]. *)
Definition IndexMap_modify (f : V → V) m k : outcome (IndexMap * bool) :=
  (pos <-! find_pos m k;
   match pos with
   | None => Ret (m, false)
   | Some i => e <-! unwrap (entries m !! i); r <-! replace_value m i (f e.2); Ret (r.1, true)
   end)%cruft.

(** [positions.retain(|&p| p != index)], then the decrement. *)
Definition shift_positions (i : nat) (positions : list nat) : list nat :=
  (λ p, if bool_decide (i < p) then p - 1 else p) <$> filter (λ p, p ≠ i) positions.

Definition shift_index (i : nat) (idx : gmap Z (list nat)) : gmap Z (list nat) :=
  omap (λ ps, match shift_positions i ps with [] => None | ps' => Some ps' end) idx.

Definition shift_remove m k : outcome (IndexMap * option V) :=
  (pos <-! find_pos m k;
   match pos with
   | None => Ret (m, None)
   | Some i =>
       e <-! unwrap (entries m !! i);
       let es := delete i (entries m) in
       let idx' := match index m with
                   | Some idx => if bool_decide (length es < INDEX_THRESHOLD) then None
                                 else Some (shift_index i idx)
                   | None => None
                   end in
       Ret (MkIndexMap es idx', Some e.2)
   end)%cruft.

Definition IndexMap_remove m k : outcome (IndexMap * option V) := shift_remove m k.

Inductive Entry := Occupied (i : nat) | Vacant (k : K).

Definition IndexMap_entry m k : outcome Entry :=
  (pos <-! find_pos m k; Ret (match pos with Some i => Occupied i | None => Vacant k end))%cruft.

(** [entry.or_insert(default)], with what the caller does to the value it is given
    as [f]; [or_insert_with] runs its closure in the vacant case only. *)
Definition or_insert m (e : Entry) (dflt : V) (f : V → V) : outcome IndexMap :=
  match e with
  | Occupied i => (x <-! unwrap (entries m !! i); r <-! replace_value m i (f x.2); Ret r.1)%cruft
  | Vacant k =>
      let m' := push_entry m k dflt in
      (x <-! unwrap (entries m' !! (length (entries m') - 1));
       r <-! replace_value m' (length (entries m') - 1) (f x.2); Ret r.1)%cruft
  end.

Definition from_iter (kvs : list (K * V)) : outcome IndexMap :=
  foldl (λ acc (e : K * V), (m <-! acc; r <-! IndexMap_insert m e.1 e.2; Ret r.1)%cruft) (Ret IndexMap_new) kvs.

(** [map[key]]: panics when the key is absent. *)
Definition IndexMap_index m k : outcome V := (r <-! IndexMap_get m k; unwrap r)%cruft.
End IndexMap.

Arguments IndexMap : clear implicits.

(** ** The set *)

Section IndexSet.
Context {T : Type} `{EqDecision T} (key_hash : T → Z).

Record IndexSet := MkIndexSet { map : IndexMap T () }.

Definition IndexSet_new : IndexSet := MkIndexSet IndexMap_new.

Definition IndexSet_insert (s : IndexSet) (x : T) : outcome (IndexSet * bool) :=
  (r <-! IndexMap_insert key_hash (map s) x ();
   Ret (MkIndexSet r.1, match r.2 with None => true | Some _ => false end))%cruft.

Definition IndexSet_contains (s : IndexSet) (x : T) : outcome bool := contains_key key_hash (map s) x.

Definition IndexSet_shift_remove (s : IndexSet) (x : T) : outcome (IndexSet * bool) :=
  (r <-! shift_remove key_hash (map s) x;
   Ret (MkIndexSet r.1, match r.2 with None => false | Some _ => true end))%cruft.

Definition IndexSet_len (s : IndexSet) : nat := IndexMap_len (map s).
Definition IndexSet_is_empty (s : IndexSet) : bool := IndexMap_is_empty (map s).
Definition IndexSet_iter (s : IndexSet) : list T := IndexMap_keys (map s).
End IndexSet.

(** ** The hash index is exact and invisible

    The invariant of [IndexMap] (distinct keys, an index equal to the one built
    from scratch, present only from the threshold on), and the refinement of its
    operations by a specification on association lists that knows no index. *)

(** ** Positions of the keys with a given hash *)

Section Positions.
Context {K V : Type} `{EqDecision K} (key_hash : K → Z).
Implicit Types (k : K) (v : V) (l : list (K * V)) (h : Z) (i n : nat) (m : IndexMap K V).

Fixpoint positions n h l : list nat :=
  match l with
  | [] => []
  | e :: l' => (if decide (key_hash e.1 = h) then [n] else []) ++ positions (S n) h l'
  end.

Definition nonempty {A} (ps : list A) : option (list A) := match ps with [] => None | _ => Some ps end.

Definition index_exact (idx : gmap Z (list nat)) l : Prop := ∀ h, idx !! h = nonempty (positions 0 h l).

Lemma positions_shift n h l : positions (S n) h l = S <$> positions n h l.
Proof. revert n. induction l as [|e l IH]; intros n; [done|]. simpl. rewrite IH. by case_decide. Qed.

Lemma positions_ge n h l p : p ∈ positions n h l → n ≤ p.
Proof.
  revert n. induction l as [|e l IH]; intros n; simpl; [set_solver|].
  rewrite elem_of_app. intros [Hp|Hp%IH]; [|lia]. case_decide; set_solver by lia.
Qed.

Lemma positions_snoc n h l e :
  positions n h (l ++ [e]) = positions n h l ++ (if decide (key_hash e.1 = h) then [n + length l] else []).
Proof.
  revert n. induction l as [|x l IH]; intros n; simpl; [rewrite app_nil_r; by rewrite Nat.add_0_r|].
  rewrite IH, <-app_assoc. by rewrite Nat.add_succ_r.
Qed.

Lemma positions_keys n h l l' : l'.*1 = l.*1 → positions n h l' = positions n h l.
Proof.
  revert n l'. induction l as [|e l IH]; intros n [|e' l'] E; try done. simpl in *.
  injection E as E1 E2. rewrite E1. by rewrite (IH (S n) l').
Qed.

Lemma elem_of_positions h l i : i ∈ positions 0 h l ↔ ∃ e, l !! i = Some e ∧ key_hash e.1 = h.
Proof.
  enough (∀ n j, j ∈ positions n h l ↔ ∃ i e, j = n + i ∧ l !! i = Some e ∧ key_hash e.1 = h) as Hn.
  { rewrite (Hn 0 i). split; [intros (? & e & -> & ?)|intros (e & ?)]; eauto. }
  induction l as [|e l IH]; intros n j; simpl; [set_solver|]. rewrite elem_of_app, IH. split.
  - intros [Hj|(i' & e' & -> & Hi & Hh)]; [|exists (S i'), e'; split_and!; [lia|done..]].
    case_decide; [|set_solver]. apply list_elem_of_singleton in Hj as ->. exists 0, e. split_and!; [lia|done..].
  - intros ([|i'] & e' & -> & Hi & Hh); simpl in Hi.
    + left. simplify_eq. rewrite decide_True by done. apply list_elem_of_singleton. lia.
    + right. exists i', e'. split_and!; [lia|done..].
Qed.

Lemma shift_positions_above i ps : (∀ p, p ∈ ps → i < p) → shift_positions i ps = pred <$> ps.
Proof.
  intros Hps. unfold shift_positions. induction ps as [|p ps IH]; [done|].
  assert (i < p) by (apply Hps; set_solver). rewrite filter_cons_True by lia. rewrite !fmap_cons.
  rewrite IH by (intros; apply Hps; set_solver). rewrite bool_decide_eq_true_2 by done. f_equal. lia.
Qed.

Lemma shift_positions_app i ps qs : shift_positions i (ps ++ qs) = shift_positions i ps ++ shift_positions i qs.
Proof. unfold shift_positions. by rewrite filter_app, fmap_app. Qed.

(** Deleting an entry deletes its position and moves the later ones down. *)
Lemma positions_delete n h l i :
  i < length l → positions n h (delete i l) = shift_positions (n + i) (positions n h l).
Proof.
  revert n i. induction l as [|e l IH]; intros n i Hi; [simpl in Hi; lia|]. destruct i as [|i].
  - change (delete 0 (e :: l)) with l. cbn [positions]. rewrite Nat.add_0_r, shift_positions_app.
    assert (shift_positions n (if decide (key_hash e.1 = h) then [n] else []) = []) as ->.
    { case_decide; [|done]. unfold shift_positions. rewrite filter_cons_False by tauto. done. }
    rewrite shift_positions_above by (intros p Hp%positions_ge; lia).
    rewrite positions_shift, <-list_fmap_compose. simpl.
    rewrite (list_fmap_ext (pred ∘ S) id) by done. by rewrite list_fmap_id.
  - change (delete (S i) (e :: l)) with (e :: delete i l). cbn [positions]. simpl in Hi.
    rewrite IH, shift_positions_app by lia. f_equal; [|f_equal; lia].
    case_decide; [|done]. unfold shift_positions. rewrite filter_cons_True by lia. simpl.
    rewrite bool_decide_eq_false_2 by lia. done.
Qed.

(** ** Building and maintaining the index *)

Lemma index_exact_unique idx1 idx2 l : index_exact idx1 l → index_exact idx2 l → idx1 = idx2.
Proof. intros H1 H2. apply map_eq. intros h. by rewrite H1, H2. Qed.

Lemma push_position_exact idx l k v :
  index_exact idx l → index_exact (push_position idx (key_hash k) (length l)) (l ++ [(k, v)]).
Proof.
  intros Hx h. unfold push_position. rewrite positions_snoc. simpl.
  destruct (decide (key_hash k = h)) as [<-|Hne].
  - rewrite lookup_insert_eq, (Hx (key_hash k)). by destruct (positions 0 (key_hash k) l).
  - rewrite lookup_insert_ne by done. by rewrite app_nil_r, Hx.
Qed.

Lemma index_entries_exact l : index_exact (index_entries key_hash l) l.
Proof.
  induction l as [|[k v] l IH] using rev_ind; [intros h; apply lookup_empty|].
  unfold index_entries. rewrite imap_app, foldl_app. simpl. rewrite Nat.add_0_r. by apply push_position_exact.
Qed.

Lemma shift_index_exact idx l i :
  i < length l → index_exact idx l → index_exact (shift_index i idx) (delete i l).
Proof.
  intros Hi Hx h. unfold shift_index. rewrite lookup_omap, (Hx h), positions_delete by done. simpl.
  destruct (positions 0 h l) as [|p ps]; [done|]. simpl. by destruct (shift_positions i (p :: ps)).
Qed.

(** ** The invariant *)

Record map_wf m : Prop := {
  wf_keys : NoDup (entries m).*1;
  wf_index : ∀ idx, index m = Some idx → index_exact idx (entries m) ∧ INDEX_THRESHOLD ≤ length (entries m);
}.

Lemma wf_keys_unique m i j k v w :
  map_wf m → entries m !! i = Some (k, v) → entries m !! j = Some (k, w) → i = j.
Proof.
  intros Hwf Hi Hj. eapply (NoDup_lookup _ _ _ k (wf_keys m Hwf)); by rewrite list_lookup_fmap, ?Hi, ?Hj.
Qed.

Lemma scan_pos_Some m k i :
  map_wf m → scan_pos m k = Some i ↔ ∃ v, entries m !! i = Some (k, v).
Proof.
  intros Hwf. unfold scan_pos. split.
  - destruct (list_find _ _) as [[j [k' v]]|] eqn:E; [|done]. intros [= ->].
    apply list_find_Some in E as (Hj & E & _). simpl in E. subst. eauto.
  - intros [v Hi]. destruct (list_find (λ e : K * V, e.1 = k) (entries m)) as [[j [k' v']]|] eqn:E.
    + apply list_find_Some in E as (Hj & E & _). simpl in E. subst.
      by rewrite (wf_keys_unique m j i k v' v Hwf Hj Hi).
    + eapply list_find_None, Forall_lookup_1 in E; [|done]. by destruct E.
Qed.

Lemma scan_pos_None m k : scan_pos m k = None ↔ k ∉ (entries m).*1.
Proof.
  clear key_hash. unfold scan_pos. rewrite fmap_None, list_find_None, Forall_forall, list_elem_of_fmap. naive_solver.
Qed.

(** With a correct index a lookup finds what a scan finds, and does not panic. *)
Lemma find_pos_scan m k : map_wf m → find_pos key_hash m k = Ret (scan_pos m k).
Proof.
  intros Hwf. unfold find_pos. destruct (index m) as [idx|] eqn:Ei; [|done].
  destruct (wf_index m Hwf idx Ei) as [Hx _]. rewrite (Hx (key_hash k)).
  pose proof (elem_of_positions (key_hash k) (entries m)) as Hpos.
  assert (∀ ps, (∀ p, p ∈ ps → p ∈ positions 0 (key_hash k) (entries m)) →
            (∀ i v, entries m !! i = Some (k, v) → i ∈ ps) →
            check_candidates (entries m) k ps = Ret (scan_pos m k)) as Hcheck.
  { induction ps as [|p ps IH]; intros Hin Hall; simpl.
    - f_equal. symmetry. apply scan_pos_None. intros ([k' v] & -> & [i Hi]%list_elem_of_lookup)%list_elem_of_fmap.
      apply Hall in Hi. set_solver.
    - destruct (proj1 (Hpos p)) as ([k' v] & Hp & _); [apply Hin; set_solver|]. rewrite Hp. simpl.
      case_bool_decide as E; [subst; f_equal; symmetry; apply scan_pos_Some; eauto|].
      apply IH; [intros; apply Hin; set_solver|]. intros i w Hi.
      specialize (Hall i w Hi). apply elem_of_cons in Hall as [->|?]; [|done]. congruence. }
  assert (∀ i v, entries m !! i = Some (k, v) → i ∈ positions 0 (key_hash k) (entries m)) as Hall
    by (intros i v Hi; apply Hpos; eauto).
  specialize (Hcheck (positions 0 (key_hash k) (entries m)) ltac:(done) Hall).
  by destruct (positions 0 (key_hash k) (entries m)).
Qed.

(** ** Preservation *)

Lemma wf_new : map_wf IndexMap_new.
Proof. split; [constructor|done]. Qed.

Lemma ensure_index_wf m : NoDup (entries m).*1 → index m = None → map_wf (ensure_index key_hash m).
Proof.
  intros Hnd Hi. unfold ensure_index. rewrite Hi. case_bool_decide; [|split; [done|congruence]].
  split; [done|]. intros idx [= <-]. split; [apply index_entries_exact|done].
Qed.

Lemma push_entry_wf m k v :
  map_wf m → k ∉ (entries m).*1 →
  map_wf (push_entry key_hash m k v) ∧ entries (push_entry key_hash m k v) = entries m ++ [(k, v)].
Proof.
  intros Hwf Hk. assert (NoDup (entries m ++ [(k, v)]).*1) as Hnd.
  { rewrite fmap_app, NoDup_app. split_and!; [apply Hwf|set_solver|]. apply NoDup_singleton. }
  unfold push_entry. rewrite length_app, Nat.add_sub. destruct (index m) as [idx|] eqn:Ei.
  - split; [|done]. destruct (wf_index m Hwf idx Ei) as [Hx Hl]. split; [done|]. intros idx' [= <-].
    split; [by apply push_position_exact|]. simpl. rewrite length_app. lia.
  - split; [by apply ensure_index_wf|]. unfold ensure_index. simpl. by case_bool_decide.
Qed.

Lemma replace_value_wf m i k v w :
  map_wf m → entries m !! i = Some (k, v) →
  ∃ m', replace_value m i w = Ret (m', v) ∧ map_wf m' ∧ entries m' = <[i := (k, w)]> (entries m).
Proof.
  intros Hwf Hi. unfold replace_value. rewrite Hi. eexists. split; [done|]. split; [|done].
  assert ((<[i:=(k, w)]> (entries m)).*1 = (entries m).*1) as Ek.
  { rewrite list_fmap_insert. apply list_insert_id. by rewrite list_lookup_fmap, Hi. }
  split; simpl; [rewrite Ek; apply Hwf|]. intros idx E. destruct (wf_index m Hwf idx E) as [Hx Hl].
  rewrite length_insert. split; [|done]. intros h. by rewrite (positions_keys 0 h _ _ Ek), Hx.
Qed.

Lemma shift_remove_wf m i k v idx' :
  map_wf m → entries m !! i = Some (k, v) →
  idx' = match index m with
         | Some idx => if bool_decide (length (delete i (entries m)) < INDEX_THRESHOLD) then None
                       else Some (shift_index i idx)
         | None => None
         end →
  map_wf (MkIndexMap (delete i (entries m)) idx').
Proof.
  intros Hwf Hi ->. apply lookup_lt_Some in Hi as Hlt. split; simpl.
  - rewrite list_fmap_delete. pose proof (wf_keys m Hwf) as Hnd. eapply sublist_NoDup; [exact Hnd|].
    apply sublist_delete.
  - intros idx. destruct (index m) as [idx0|] eqn:Ei; [|done]. case_bool_decide; [done|]. intros [= <-].
    destruct (wf_index m Hwf idx0 Ei) as [Hx _]. split; [by apply shift_index_exact|]. lia.
Qed.
End Positions.

(** ** The specification: association lists *)

Section Spec.
Context {K V : Type} `{EqDecision K}.
Implicit Types (k : K) (v : V) (l : list (K * V)).

Fixpoint assoc_get k l : option V :=
  match l with [] => None | e :: l' => if decide (e.1 = k) then Some e.2 else assoc_get k l' end.

Definition assoc_update k (f : V → V) l : list (K * V) :=
  (λ e : K * V, if decide (e.1 = k) then (e.1, f e.2) else e) <$> l.

(** A key keeps the place it was first given. *)
Definition assoc_put k v l : list (K * V) :=
  if decide (k ∈ l.*1) then assoc_update k (λ _, v) l else l ++ [(k, v)].

Definition assoc_del k l : list (K * V) := filter (λ e : K * V, e.1 ≠ k) l.

(** The operations of the map and their replies. *)
Inductive map_op :=
| OInsert k v | ORemove k | OGet k | OContains k | OModify k (f : V → V) | OOrInsert k v (f : V → V)
| ORetain (keep : K → V → V * bool) | OIterMut (f : K → V → V) | OClear.

Inductive map_reply := RValue (o : option V) | RFlag (b : bool) | RUnit.

Definition spec_op (o : map_op) l : list (K * V) * map_reply :=
  match o with
  | OInsert k v => (assoc_put k v l, RValue (assoc_get k l))
  | ORemove k => (assoc_del k l, RValue (assoc_get k l))
  | OGet k => (l, RValue (assoc_get k l))
  | OContains k => (l, RFlag (bool_decide (k ∈ l.*1)))
  | OModify k f => (assoc_update k f l, RFlag (bool_decide (k ∈ l.*1)))
  | OOrInsert k v f => (if decide (k ∈ l.*1) then assoc_update k f l else l ++ [(k, f v)], RUnit)
  | ORetain keep => (omap (λ e : K * V, let '(v', b) := keep e.1 e.2 in if b : bool then Some (e.1, v') else None) l, RUnit)
  | OIterMut f => ((λ e : K * V, (e.1, f e.1 e.2)) <$> l, RUnit)
  | OClear => ([], RUnit)
  end.

Fixpoint spec_ops (os : list map_op) l : list (K * V) * list map_reply :=
  match os with
  | [] => (l, [])
  | o :: os' => let '(l1, r) := spec_op o l in let '(l2, rs) := spec_ops os' l1 in (l2, r :: rs)
  end.

(** With distinct keys, the entry at a position is the one of its key. *)
Lemma assoc_get_lookup l i k v : NoDup l.*1 → l !! i = Some (k, v) → assoc_get k l = Some v.
Proof.
  revert i. induction l as [|e l IH]; intros i Hnd Hi; [done|]. simpl in *. apply NoDup_cons in Hnd as [Hn Hnd].
  destruct i as [|i]; simpl in Hi; [simplify_eq; by rewrite decide_True|].
  rewrite decide_False; [by eapply IH|]. intros <-. apply Hn. apply list_elem_of_fmap.
  exists (e.1, v). split; [done|]. by eapply list_elem_of_lookup_2.
Qed.

Lemma assoc_get_None l k : k ∉ l.*1 → assoc_get k l = None.
Proof.
  induction l as [|e l IH]; simpl; [done|]. intros Hk. rewrite decide_False by set_solver. apply IH. set_solver.
Qed.

Lemma assoc_update_None l k f : k ∉ l.*1 → assoc_update k f l = l.
Proof.
  induction l as [|e l IH]; simpl; [done|]. intros Hk. unfold assoc_update in *. simpl.
  rewrite decide_False by set_solver. f_equal. apply IH. set_solver.
Qed.

Lemma assoc_del_None l k : k ∉ l.*1 → assoc_del k l = l.
Proof.
  induction l as [|e l IH]; [done|]. intros Hk. unfold assoc_del in *. rewrite filter_cons_True by set_solver.
  f_equal. apply IH. set_solver.
Qed.

Lemma assoc_update_insert l i k v f :
  NoDup l.*1 → l !! i = Some (k, v) → <[i := (k, f v)]> l = assoc_update k f l.
Proof.
  revert i. induction l as [|e l IH]; intros i Hnd Hi; [done|]. simpl in Hnd. apply NoDup_cons in Hnd as [Hn Hnd].
  destruct i as [|i]; simpl in Hi.
  - simplify_eq. change (<[0:=(k, f v)]> ((k, v) :: l)) with ((k, f v) :: l). unfold assoc_update. simpl.
    rewrite decide_True by done. f_equal. symmetry. by apply assoc_update_None.
  - change (<[S i:=(k, f v)]> (e :: l)) with (e :: <[i:=(k, f v)]> l). rewrite IH by done. unfold assoc_update. simpl.
    rewrite decide_False; [done|]. intros E. apply Hn. rewrite E. apply list_elem_of_fmap. exists (k, v).
    split; [done|]. by eapply list_elem_of_lookup_2.
Qed.

Lemma assoc_del_delete l i k v : NoDup l.*1 → l !! i = Some (k, v) → delete i l = assoc_del k l.
Proof.
  revert i. induction l as [|e l IH]; intros i Hnd Hi; [done|]. simpl in Hnd. apply NoDup_cons in Hnd as [Hn Hnd].
  destruct i as [|i]; simpl in Hi.
  - simplify_eq. change (delete 0 ((k, v) :: l)) with l. unfold assoc_del.
    rewrite filter_cons_False by (simpl; tauto). symmetry. by apply assoc_del_None.
  - change (delete (S i) (e :: l)) with (e :: delete i l). rewrite (IH i) by done. unfold assoc_del.
    rewrite filter_cons_True; [done|]. intros E. apply Hn. rewrite E. apply list_elem_of_fmap. exists (k, v).
    split; [done|]. by eapply list_elem_of_lookup_2.
Qed.

Lemma assoc_get_app k l1 l2 :
  assoc_get k (l1 ++ l2) = match assoc_get k l1 with Some v => Some v | None => assoc_get k l2 end.
Proof. induction l1 as [|e l1 IH]; [done|]. simpl. by case_decide. Qed.

Lemma assoc_get_update k k' f l :
  assoc_get k' (assoc_update k f l) = if decide (k' = k) then f <$> assoc_get k l else assoc_get k' l.
Proof.
  induction l as [|e l IH]; simpl; [by case_decide|]. unfold assoc_update in *. simpl.
  destruct (decide (e.1 = k)) as [E|E]; simpl; rewrite IH; destruct (decide (k' = k)) as [->|Hne]; simpl.
  - by rewrite !decide_True.
  - rewrite E. by rewrite !(decide_False (P:=k = k')) by congruence.
  - by rewrite !decide_False by done.
  - done.
Qed.

Lemma assoc_get_del k k' l : assoc_get k' (assoc_del k l) = if decide (k' = k) then None else assoc_get k' l.
Proof.
  unfold assoc_del. induction l as [|e l IH]; [by case_decide|].
  destruct (decide (e.1 = k)) as [E|E].
  - rewrite filter_cons_False by tauto. rewrite IH. simpl. case_decide; [done|]. by rewrite decide_False by congruence.
  - rewrite filter_cons_True by done. simpl. rewrite IH. destruct (decide (e.1 = k')) as [<-|]; [|done].
    by rewrite decide_False.
Qed.

Lemma assoc_get_is_Some k l : k ∈ l.*1 → ∃ v, assoc_get k l = Some v.
Proof.
  induction l as [|e l IH]; simpl; [set_solver|]. intros [->|Hk]%elem_of_cons; [rewrite decide_True by done; eauto|].
  case_decide; eauto.
Qed.

Lemma assoc_get_put k k' v l :
  assoc_get k' (assoc_put k v l) = if decide (k' = k) then Some v else assoc_get k' l.
Proof.
  unfold assoc_put. case_decide as Hk.
  - rewrite assoc_get_update. case_decide; [|done]. by destruct (assoc_get_is_Some k l Hk) as [w ->].
  - rewrite assoc_get_app. simpl. destruct (decide (k' = k)) as [->|Hne].
    + rewrite assoc_get_None by done. by rewrite decide_True.
    + rewrite decide_False by done. by destruct (assoc_get k' l).
Qed.

Lemma assoc_update_keys k f l : (assoc_update k f l).*1 = l.*1.
Proof. unfold assoc_update. rewrite <-list_fmap_compose. apply list_fmap_ext. intros i e _. simpl. by case_decide. Qed.

Lemma assoc_put_keys k v l : (assoc_put k v l).*1 = if decide (k ∈ l.*1) then l.*1 else l.*1 ++ [k].
Proof. unfold assoc_put. case_decide; [apply assoc_update_keys|]. by rewrite fmap_app. Qed.

Lemma assoc_del_keys k l : (assoc_del k l).*1 = filter (λ k', k' ≠ k) l.*1.
Proof.
  unfold assoc_del. induction l as [|e l IH]; [done|]. rewrite fmap_cons. destruct (decide (e.1 = k)).
  - by rewrite !filter_cons_False by tauto.
  - rewrite !filter_cons_True by done. by rewrite fmap_cons, IH.
Qed.
End Spec.

(** ** The refinement *)

Section Refinement.
Context {K V : Type} `{EqDecision K} (key_hash : K → Z).
Implicit Types (k : K) (v : V) (l : list (K * V)) (m : IndexMap K V).

Definition run_op (o : map_op (K:=K) (V:=V)) m : outcome (IndexMap K V * map_reply (V:=V)) :=
  (match o with
   | OInsert k v => r <-! IndexMap_insert key_hash m k v; Ret (r.1, RValue r.2)
   | ORemove k => r <-! IndexMap_remove key_hash m k; Ret (r.1, RValue r.2)
   | OGet k => r <-! IndexMap_get key_hash m k; Ret (m, RValue r)
   | OContains k => r <-! contains_key key_hash m k; Ret (m, RFlag r)
   | OModify k f => r <-! IndexMap_modify key_hash f m k; Ret (r.1, RFlag r.2)
   | OOrInsert k v f => e <-! IndexMap_entry key_hash m k; m' <-! or_insert key_hash m e v f; Ret (m', RUnit)
   | ORetain keep => Ret (IndexMap_retain keep m, RUnit)
   | OIterMut f => Ret (IndexMap_iter_mut f m, RUnit)
   | OClear => Ret (IndexMap_clear m, RUnit)
   end)%cruft.

Fixpoint run_ops (os : list (map_op (K:=K) (V:=V))) m : outcome (IndexMap K V * list (map_reply (V:=V))) :=
  match os with
  | [] => Ret (m, [])
  | o :: os' => (x <-! run_op o m; y <-! run_ops os' x.1; Ret (y.1, x.2 :: y.2))%cruft
  end.

(** A key is found at its position, or is absent. *)
Lemma find_pos_cases m k :
  map_wf key_hash m →
  (∃ i v, find_pos key_hash m k = Ret (Some i) ∧ entries m !! i = Some (k, v) ∧ k ∈ (entries m).*1 ∧
          assoc_get k (entries m) = Some v) ∨
  (find_pos key_hash m k = Ret None ∧ k ∉ (entries m).*1 ∧ assoc_get k (entries m) = None).
Proof.
  intros Hwf. rewrite find_pos_scan by done. destruct (scan_pos m k) as [i|] eqn:E.
  - apply (scan_pos_Some key_hash) in E as [v Hi]; [|done]. left. exists i, v. split_and!; try done.
    + apply list_elem_of_fmap. exists (k, v). split; [done|]. by eapply list_elem_of_lookup_2.
    + eapply assoc_get_lookup; [apply (wf_keys key_hash m Hwf)|done].
  - apply scan_pos_None in E. right. split_and!; [done..|]. by apply assoc_get_None.
Qed.

Lemma iter_mut_wf f m : map_wf key_hash m → map_wf key_hash (IndexMap_iter_mut f m).
Proof.
  intros Hwf. assert (((λ e : K * V, (e.1, f e.1 e.2)) <$> entries m).*1 = (entries m).*1) as Ek.
  { rewrite <-list_fmap_compose. by apply list_fmap_ext. }
  split; simpl; [rewrite Ek; apply Hwf|]. intros idx E. destruct (wf_index key_hash m Hwf idx E) as [Hx Hl].
  rewrite length_fmap. split; [|done]. intros h. by rewrite (positions_keys key_hash 0 h _ _ Ek), Hx.
Qed.

Lemma retain_wf keep m : map_wf key_hash m → map_wf key_hash (IndexMap_retain keep m).
Proof.
  intros Hwf. split; [|done]. simpl. pose proof (wf_keys key_hash m Hwf) as Hnd.
  eapply sublist_NoDup; [exact Hnd|]. clear. induction (entries m) as [|[k v] l IH]; [done|]. simpl.
  destruct (keep k v) as [v' []]; simpl; by constructor.
Qed.

(** One operation refines the specification, keeps the invariant, cannot panic. *)
Lemma run_op_refines o m :
  map_wf key_hash m →
  ∃ m' r, run_op o m = Ret (m', r) ∧ map_wf key_hash m' ∧ spec_op o (entries m) = (entries m', r).
Proof.
  intros Hwf. pose proof (wf_keys key_hash m Hwf) as Hnd. destruct o as [k v|k|k|k|k f|k v f|keep|f|]; cbn [run_op spec_op].
  - unfold IndexMap_insert, assoc_put. destruct (find_pos_cases m k Hwf) as [(i & v0 & -> & Hi & Hk & ->)|(-> & Hk & ->)]; simpl.
    + destruct (replace_value_wf key_hash m i k v0 v Hwf Hi) as (m' & -> & Hwf' & E). simpl.
      exists m', (RValue (Some v0)). split_and!; [done..|]. rewrite decide_True, E by done.
      by rewrite (assoc_update_insert _ i k v0 (λ _, v)).
    + destruct (push_entry_wf key_hash m k v Hwf Hk) as [Hwf' E]. eexists _, _. split_and!; [done..|].
      by rewrite decide_False, E.
  - unfold IndexMap_remove, shift_remove. destruct (find_pos_cases m k Hwf) as [(i & v0 & -> & Hi & Hk & ->)|(-> & Hk & ->)]; simpl.
    + rewrite Hi. simpl. eexists _, _. split; [done|]. split; [by eapply shift_remove_wf|]. simpl.
      by rewrite (assoc_del_delete _ i k v0).
    + eexists _, _. split_and!; [done..|]. by rewrite assoc_del_None.
  - unfold IndexMap_get. destruct (find_pos_cases m k Hwf) as [(i & v0 & -> & Hi & Hk & ->)|(-> & Hk & ->)]; simpl;
      [rewrite Hi; simpl|]; eauto 10.
  - unfold contains_key. destruct (find_pos_cases m k Hwf) as [(i & v0 & -> & Hi & Hk & _)|(-> & Hk & _)]; simpl;
      [rewrite bool_decide_eq_true_2 by done|rewrite bool_decide_eq_false_2 by done]; eauto 10.
  - unfold IndexMap_modify. destruct (find_pos_cases m k Hwf) as [(i & v0 & -> & Hi & Hk & _)|(-> & Hk & _)]; simpl.
    + rewrite Hi. simpl. destruct (replace_value_wf key_hash m i k v0 (f v0) Hwf Hi) as (m' & -> & Hwf' & E). simpl.
      eexists _, _. split_and!; [done..|]. rewrite bool_decide_eq_true_2, E by done. by rewrite (assoc_update_insert _ i k v0 f).
    + eexists _, _. split_and!; [done..|]. by rewrite bool_decide_eq_false_2, assoc_update_None.
  - unfold IndexMap_entry. destruct (find_pos_cases m k Hwf) as [(i & v0 & -> & Hi & Hk & _)|(-> & Hk & _)]; simpl.
    + rewrite Hi. simpl. destruct (replace_value_wf key_hash m i k v0 (f v0) Hwf Hi) as (m' & -> & Hwf' & E). simpl.
      eexists _, _. split_and!; [done..|]. rewrite decide_True, E by done. by rewrite (assoc_update_insert _ i k v0 f).
    + destruct (push_entry_wf key_hash m k v Hwf Hk) as [Hwf' E].
      assert (entries (push_entry key_hash m k v) !! (length (entries (push_entry key_hash m k v)) - 1) = Some (k, v)) as Hl.
      { rewrite E, length_app, Nat.add_sub, lookup_app_r, Nat.sub_diag by done. done. }
      rewrite Hl. simpl. destruct (replace_value_wf key_hash _ _ k v (f v) Hwf' Hl) as (m' & -> & Hwf2 & E2). simpl.
      eexists _, _. split_and!; [done..|]. rewrite decide_False, E2, E by done. do 2 f_equal.
      rewrite length_app, Nat.add_sub. by rewrite insert_app_r_alt, Nat.sub_diag by done.
  - eexists _, _. split_and!; [done|by apply retain_wf|done].
  - eexists _, _. split_and!; [done|by apply iter_mut_wf|done].
  - eexists _, _. split_and!; [done|apply wf_new|done].
Qed.

(** C33: the hash index is exact and invisible.  From a well-formed map (the new
    one included), any sequence of operations runs without a panic, replies
    exactly what the index-free specification on association lists replies, and
    leaves the same entries in the same order; the keys stay distinct, and the
    index, when there is one, is the one that building it from scratch would give.
    Nothing is assumed of the hash function: colliding keys make no difference. *)
Theorem index_map_refines os m :
  map_wf key_hash m →
  ∃ m' rs, run_ops os m = Ret (m', rs) ∧ spec_ops os (entries m) = (entries m', rs) ∧
    NoDup (entries m').*1 ∧ ∀ idx, index m' = Some idx → idx = index_entries key_hash (entries m').
Proof.
  intros Hwf. cut (∃ m' rs, run_ops os m = Ret (m', rs) ∧ spec_ops os (entries m) = (entries m', rs) ∧ map_wf key_hash m').
  { intros (m' & rs & ? & ? & Hwf'). exists m', rs. split_and!; [done..|apply Hwf'|].
    intros idx E. eapply index_exact_unique; [by apply (wf_index key_hash m' Hwf')|apply index_entries_exact]. }
  revert m Hwf. induction os as [|o os IH]; intros m Hwf; [by exists m, []|].
  destruct (run_op_refines o m Hwf) as (m1 & r & E1 & Hwf1 & S1).
  destruct (IH m1 Hwf1) as (m2 & rs & E2 & S2 & Hwf2). exists m2, (r :: rs).
  cbn [run_ops spec_ops]. rewrite E1. cbn [outcome_bind fst snd]. rewrite E2. cbn [outcome_bind fst snd].
  by rewrite S1, S2.
Qed.

Lemma get_spec m k : map_wf key_hash m → IndexMap_get key_hash m k = Ret (assoc_get k (entries m)).
Proof.
  intros Hwf. destruct (run_op_refines (OGet k) m Hwf) as (m' & r & E & _ & [= E1 <-]). simpl in E.
  destruct (IndexMap_get key_hash m k); simpl in E; by simplify_eq.
Qed.

Lemma insert_spec m k v :
  map_wf key_hash m → ∃ m', IndexMap_insert key_hash m k v = Ret (m', assoc_get k (entries m)) ∧
    map_wf key_hash m' ∧ entries m' = assoc_put k v (entries m).
Proof.
  intros Hwf. destruct (run_op_refines (OInsert k v) m Hwf) as (m' & r & E & Hwf' & [= E1 <-]). simpl in E.
  destruct (IndexMap_insert key_hash m k v) as [[m1 o]|]; simpl in E; simplify_eq. eauto.
Qed.

Lemma remove_spec m k :
  map_wf key_hash m → ∃ m', shift_remove key_hash m k = Ret (m', assoc_get k (entries m)) ∧
    map_wf key_hash m' ∧ entries m' = assoc_del k (entries m).
Proof.
  intros Hwf. destruct (run_op_refines (ORemove k) m Hwf) as (m' & r & E & Hwf' & [= E1 <-]). simpl in E.
  unfold IndexMap_remove in E. destruct (shift_remove key_hash m k) as [[m1 o]|]; simpl in E; simplify_eq. eauto.
Qed.

(** Inserting, looking up and removing.  Inserting returns the value the key
    had; afterwards the key reads the new value, every other key what it read
    before, and the iteration order is the old one with a new key at its end;
    removing the key gives the value back, leaves every other key alone, and the
    iteration order is the original one without it. *)
Lemma insert_get_remove m k v :
  map_wf key_hash m →
  ∃ m1 old m2,
    IndexMap_insert key_hash m k v = Ret (m1, old) ∧ IndexMap_get key_hash m k = Ret old ∧
    IndexMap_get key_hash m1 k = Ret (Some v) ∧
    (∀ k', k' ≠ k → IndexMap_get key_hash m1 k' = IndexMap_get key_hash m k') ∧
    IndexMap_keys m1 = (if decide (k ∈ IndexMap_keys m) then IndexMap_keys m else IndexMap_keys m ++ [k]) ∧
    shift_remove key_hash m1 k = Ret (m2, Some v) ∧ IndexMap_get key_hash m2 k = Ret None ∧
    (∀ k', k' ≠ k → IndexMap_get key_hash m2 k' = IndexMap_get key_hash m k') ∧
    IndexMap_keys m2 = filter (λ k', k' ≠ k) (IndexMap_keys m).
Proof.
  intros Hwf. destruct (insert_spec m k v Hwf) as (m1 & E1 & Hwf1 & En1).
  destruct (remove_spec m1 k Hwf1) as (m2 & E2 & Hwf2 & En2). exists m1, (assoc_get k (entries m)), m2.
  assert (∀ k', assoc_get k' (entries m1) = if decide (k' = k) then Some v else assoc_get k' (entries m)) as G1
    by (intros k'; by rewrite En1, assoc_get_put).
  assert (∀ k', assoc_get k' (entries m2) = if decide (k' = k) then None else assoc_get k' (entries m)) as G2.
  { intros k'. rewrite En2, assoc_get_del, G1. by case_decide. }
  split_and!.
  - done.
  - by apply get_spec.
  - by rewrite get_spec, G1, decide_True.
  - intros k' Hne. by rewrite !get_spec, G1, decide_False.
  - unfold IndexMap_keys. by rewrite En1, assoc_put_keys.
  - by rewrite E2, G1, decide_True.
  - by rewrite get_spec, G2, decide_True.
  - intros k' Hne. by rewrite !get_spec, G2, decide_False.
  - unfold IndexMap_keys. rewrite En2, assoc_del_keys, En1, assoc_put_keys. case_decide as Hk; [done|].
    rewrite filter_app, filter_cons_False, app_nil_r by tauto. done.
Qed.
End Refinement.

(** ** Instances: a hash under which all keys collide *)

Definition collide (k : nat) : Z := 7.

Lemma index_map_refines_witness :
  ∃ m' rs, run_ops collide ((λ i, OInsert i (i * 10)) <$> seq 0 20) IndexMap_new = Ret (m', rs) ∧
    NoDup (entries m').*1.
Proof.
  destruct (index_map_refines collide ((λ i, OInsert i (i * 10)) <$> seq 0 20) IndexMap_new (wf_new collide))
    as (m' & rs & E & _ & Hnd & _). exists m', rs. split; assumption.
Defined.

