(* ===== verification/Shared.v ===== *)
(** * Shared: the reference-counted heap shared between compartments
    (src/crates/rusty-js-gc/src/lib.rs, [Tier2Arena], [RefcountDeltaPlan], [Tier3])

    Immutable values shared by several compartments live in an arena of slots with
    atomic reference counts; a value refers only to values frozen before it.  A
    slot whose count falls to zero goes on a retired list with the epoch of that
    moment and is freed two epochs later.  Each atomic operation is one step of the
    model; counters are 64-bit and wrap. *)

From S2P Require Import Prelude.

(** A handle is an index of the slot vector. *)
Abbreviation Tier2Handle := nat (only parsing).

Inductive CyclicSharedError := MkCyclicSharedError.

Record Tier2Slot (T : Type) := MkTier2Slot { value : T; rc : Z; refs : list Tier2Handle }.
Arguments MkTier2Slot {T}.
Arguments value {T}.
Arguments rc {T}.
Arguments refs {T}.

Record Tier2Arena (T : Type) := MkArena {
  aslots : list (option (Tier2Slot T));
  retired : mutex (list (Z * Tier2Handle));
  aepoch : Z;
}.
Arguments MkArena {T}.
Arguments aslots {T}.
Arguments retired {T}.
Arguments aepoch {T}.

Section Arena.
Context {T : Type}.
Implicit Types (a : Tier2Arena T) (h : Tier2Handle) (s : Tier2Slot T).

Definition Tier2Arena_new : Tier2Arena T := MkArena [] (mutex_new []) 0.

Definition epoch a : Z := aepoch a.

Definition advance_epoch a : Tier2Arena T * Z :=
  (MkArena (aslots a) (retired a) (wrap64 (aepoch a + 1)), wrap64 (aepoch a + 1)).

(** The slot a handle leads to: [None] when it is out of range or freed. *)
Definition shared_slot a h : option (Tier2Slot T) := default None (aslots a !! h).

Definition set_rc a h (z : Z) s : Tier2Arena T :=
  MkArena (<[h := Some (MkTier2Slot (value s) z (refs s))]> (aslots a)) (retired a) (aepoch a).

Definition incref a h : Tier2Arena T :=
  match shared_slot a h with
  | Some s => set_rc a h (wrap64 (rc s + 1)) s
  | None => a
  end.

Definition freeze a (v : T) (rs : list Tier2Handle) : result (Tier2Arena T * Tier2Handle) CyclicSharedError :=
  let new_id := length (aslots a) in
  if existsb (λ r, bool_decide (new_id ≤ r) || bool_decide (shared_slot a r = None)) rs
  then Err MkCyclicSharedError
  else
    let a' := foldl incref a rs in
    Ok (MkArena (aslots a' ++ [Some (MkTier2Slot v 1 rs)]) (retired a') (aepoch a'), new_id).

Definition Tier2Arena_get a h : option T := value <$> shared_slot a h.

(** [self.retired.lock().unwrap().push(..)]: panics when the mutex is poisoned. *)
Definition push_retired a (x : Z * Tier2Handle) : outcome (Tier2Arena T) :=
  if poisoned (retired a) then Panic
  else Ret (MkArena (aslots a) (Mutex false (guarded (retired a) ++ [x])) (aepoch a)).

Definition decref a h : outcome (Tier2Arena T * bool) :=
  (match shared_slot a h with
   | None => Ret (a, false)
   | Some s =>
       let a' := set_rc a h (wrap64 (rc s - 1)) s in
       if (rc s =? 1)%Z then a'' <-! push_retired a' (aepoch a', h); Ret (a'', true)
       else Ret (a', false)
   end)%cruft.

(** A loop of [decref]s. *)
Fixpoint decref_all a (hs : list Tier2Handle) : outcome (Tier2Arena T) :=
  match hs with
  | [] => Ret a
  | h :: hs' => (x <-! decref a h; decref_all x.1 hs')%cruft
  end.

(** The body of the freeing loop: [slot.take()], then the references go. *)
Definition free_slot a (freed : nat) h : outcome (Tier2Arena T * nat) :=
  match shared_slot a h with
  | None => Ret (a, freed)
  | Some s =>
      (a' <-! decref_all (MkArena (<[h := None]> (aslots a)) (retired a) (aepoch a)) (refs s);
       Ret (a', S freed))%cruft
  end.

Fixpoint free_all a (freed : nat) (hs : list Tier2Handle) : outcome (Tier2Arena T * nat) :=
  match hs with
  | [] => Ret (a, freed)
  | h :: hs' => (x <-! free_slot a freed h; free_all x.1 x.2 hs')%cruft
  end.

Definition is_due (e : Z) (x : Z * Tier2Handle) : bool := (wrap64 (x.1 + 2) <=? e)%Z.

Definition retire a : outcome (Tier2Arena T * nat) :=
  if poisoned (retired a) then Panic
  else
    let pending := guarded (retired a) in
    let to_free := (filter (λ x, is_due (aepoch a) x = true) pending).*2 in
    let still_pending := filter (λ x, is_due (aepoch a) x = false) pending in
    free_all (MkArena (aslots a) (Mutex false still_pending) (aepoch a)) 0 to_free.

Definition shared_live_count a : nat := length (filter (λ o : option (Tier2Slot T), o ≠ None) (aslots a)).

Definition refcount a h : option Z := rc <$> shared_slot a h.
End Arena.

(** ** Crossing plans *)

Record RefcountDeltaPlan := {
  increments : list Tier2Handle;
  decrements : list Tier2Handle;
  targets_valid : bool;
}.

Inductive TargetNotRegisteredError := MkTargetNotRegisteredError.

Record Tier3 (T : Type) := MkTier3 { arena : Tier2Arena T; registered : gset Z }.
Arguments MkTier3 {T}.
Arguments arena {T}.
Arguments registered {T}.

Section Tier3.
Context {T : Type}.
Implicit Types t : Tier3 T.

Definition Tier3_new : Tier3 T := MkTier3 Tier2Arena_new ∅.
Definition register t (c : Z) : Tier3 T := MkTier3 (arena t) ({[c]} ∪ registered t).
Definition unregister t (c : Z) : Tier3 T := MkTier3 (arena t) (registered t ∖ {[c]}).
Definition is_registered t (c : Z) : bool := bool_decide (c ∈ registered t).

Definition plan_crossing t (clone_crossed transfer_crossed : list Tier2Handle) (to_compartment : Z) :
    RefcountDeltaPlan :=
  {| increments := clone_crossed; decrements := transfer_crossed;
     targets_valid := is_registered t to_compartment |}.

Definition apply_plan t (plan : RefcountDeltaPlan) : fallible (Tier3 T) TargetNotRegisteredError :=
  if negb (targets_valid plan) then Ret (Err MkTargetNotRegisteredError)
  else (a <-! decref_all (foldl incref (arena t) (increments plan)) (decrements plan);
        Ret (Ok (MkTier3 a (registered t))))%cruft.
End Tier3.

Definition tier3_atomic_touches (plan : RefcountDeltaPlan) : nat :=
  length (increments plan) + length (decrements plan).

(** ** Reference counts are right, nothing is freed early or kept forever

    The counts of the arena are accounted for by owners (the compartments that
    hold a handle) and by references from live values.  The invariant says so, and
    every operation of a disciplined client keeps it: a handle somebody owns is
    live, and once nobody owns anything the arena empties itself. *)

Definition count_ref (i : nat) (rs : list Tier2Handle) : nat := length (filter (λ r, r = i) rs).

Lemma count_ref_cons i r rs : count_ref i (r :: rs) = (if decide (r = i) then 1 else 0) + count_ref i rs.
Proof. unfold count_ref. rewrite filter_cons. by case_decide. Qed.

Lemma count_ref_pos i rs : i ∈ rs → 0 < count_ref i rs.
Proof.
  induction rs as [|r rs IH]; [set_solver|]. rewrite count_ref_cons. intros [->|Hi]%elem_of_cons.
  - rewrite decide_True by done. lia.
  - specialize (IH Hi). lia.
Qed.

Lemma count_ref_zero i rs : i ∉ rs → count_ref i rs = 0.
Proof.
  induction rs as [|r rs IH]; [done|]. rewrite count_ref_cons. intros Hi. rewrite decide_False by set_solver.
  rewrite IH; [done|set_solver].
Qed.

(** Owners of each handle: how many times it is held. *)
Abbreviation owners := (nat → nat) (only parsing).
Definition own (tok : owners) (hs : list Tier2Handle) : owners := λ i, tok i + count_ref i hs.

Section Theory.
Context {T : Type}.
Implicit Types (a : Tier2Arena T) (h i : nat) (tok : owners) (due : list nat) (l : list (option (Tier2Slot T))).

Definition slot_refs (o : option (Tier2Slot T)) i : nat :=
  match o with Some s => count_ref i (refs s) | None => 0 end.

(** References to [i] from the live slots. *)
Definition inrefs l i : nat := sum_list ((λ o, slot_refs o i) <$> l).

Lemma inrefs_cons o l i : inrefs (o :: l) i = slot_refs o i + inrefs l i.
Proof. done. Qed.

Lemma inrefs_insert l h o o' i :
  l !! h = Some o → inrefs (<[h := o']> l) i + slot_refs o i = inrefs l i + slot_refs o' i.
Proof.
  revert h. induction l as [|x l IH]; intros [|h] Hh; try done; simpl in Hh.
  - simplify_eq. change (<[0:=o']> (o :: l)) with (o' :: l). rewrite !inrefs_cons. lia.
  - change (<[S h:=o']> (x :: l)) with (x :: <[h:=o']> l). rewrite !inrefs_cons. specialize (IH h Hh). lia.
Qed.

Lemma inrefs_snoc l o i : inrefs (l ++ [o]) i = inrefs l i + slot_refs o i.
Proof.
  induction l as [|x l IH]; [rewrite app_nil_l, inrefs_cons; unfold inrefs; simpl; lia|].
  rewrite <-app_comm_cons, !inrefs_cons, IH. lia.
Qed.

Lemma inrefs_pos l h s i : l !! h = Some (Some s) → i ∈ refs s → 0 < inrefs l i.
Proof.
  intros Hh Hi. pose proof (inrefs_insert l h (Some s) None i Hh) as E. simpl in E.
  pose proof (count_ref_pos i (refs s) Hi). lia.
Qed.

Lemma inrefs_zero l i : (∀ h s, l !! h = Some (Some s) → i ∉ refs s) → inrefs l i = 0.
Proof.
  induction l as [|o l IH]; intros Hl; [done|]. change (inrefs (o :: l) i) with (slot_refs o i + inrefs l i).
  rewrite IH by (intros h s Hh; apply (Hl (S h) s Hh)). destruct o as [s|]; [|done]. simpl.
  rewrite count_ref_zero; [done|]. by apply (Hl 0 s).
Qed.

(** The invariant.  [due] are the handles a retirement has taken off the list and
    not freed yet. *)
Record arena_inv tok due a : Prop := {
  ai_lock : poisoned (retired a) = false;
  ai_rc : ∀ i s, shared_slot a i = Some s →
    rc s = Z.of_nat (tok i + inrefs (aslots a) i) ∧ (rc s ≤ u64_max)%Z;
  ai_dead : ∀ i, shared_slot a i = None → tok i = 0 ∧ inrefs (aslots a) i = 0;
  ai_refs : ∀ i s r, shared_slot a i = Some s → r ∈ refs s → r < i;
  ai_nodup : NoDup ((guarded (retired a)).*2 ++ due);
  ai_zero : ∀ i, i ∈ (guarded (retired a)).*2 ++ due ↔ ∃ s, shared_slot a i = Some s ∧ rc s = 0%Z;
  ai_epoch : (0 ≤ aepoch a ≤ u64_max)%Z ∧ ∀ e h, (e, h) ∈ guarded (retired a) → (0 ≤ e ≤ aepoch a)%Z;
}.

Lemma shared_slot_Some a i s : shared_slot a i = Some s ↔ aslots a !! i = Some (Some s).
Proof. unfold shared_slot. destruct (aslots a !! i) as [[|]|]; naive_solver. Qed.

Lemma shared_slot_insert l m e h o i :
  h < length l → shared_slot (MkArena (<[h := o]> l) m e) i =
  if decide (i = h) then o else default None (l !! i).
Proof.
  intros Hh. unfold shared_slot. simpl. destruct (decide (i = h)) as [->|Hne].
  - by rewrite list_lookup_insert_eq.
  - by rewrite list_lookup_insert_ne.
Qed.

(** Who owns matters only pointwise. *)
Lemma arena_inv_ext tok tok' due a : (∀ i, tok i = tok' i) → arena_inv tok due a → arena_inv tok' due a.
Proof.
  intros E []. split; try done.
  - intros i s Hs. rewrite <-E. auto.
  - intros i Hi. rewrite <-E. auto.
Qed.

Lemma owned_live tok due a h : arena_inv tok due a → 0 < tok h → ∃ s, shared_slot a h = Some s.
Proof.
  intros Hinv Ht. destruct (shared_slot a h) as [s|] eqn:E; [eauto|]. apply (ai_dead _ _ _ Hinv) in E. lia.
Qed.

(** Changing the count of [h] leaves the references as they are. *)
Lemma set_rc_slot a h z s i :
  shared_slot a h = Some s →
  shared_slot (set_rc a h z s) i = if decide (i = h) then Some (MkTier2Slot (value s) z (refs s)) else shared_slot a i.
Proof.
  intros Hs%shared_slot_Some. unfold set_rc. rewrite shared_slot_insert by eauto using lookup_lt_Some. done.
Qed.

Lemma set_rc_inrefs a h z s i : shared_slot a h = Some s → inrefs (aslots (set_rc a h z s)) i = inrefs (aslots a) i.
Proof.
  intros Hs%shared_slot_Some. unfold set_rc. simpl.
  pose proof (inrefs_insert _ h (Some s) (Some (MkTier2Slot (value s) z (refs s))) i Hs). simpl in *. lia.
Qed.

Lemma own_nil tok i : own tok [] i = tok i.
Proof. unfold own. simpl. unfold count_ref. simpl. lia. Qed.

Lemma own_single tok h i : own tok [h] i = tok i + if decide (i = h) then 1 else 0.
Proof. unfold own. rewrite count_ref_cons. unfold count_ref. simpl. repeat case_decide; lia || congruence. Qed.

Lemma wrap64_small z : (0 ≤ z ≤ u64_max)%Z → wrap64 z = z.
Proof. intros Hz. unfold wrap64, u64_modulus, u64_max in *. apply Z.mod_small. lia. Qed.

(** ** Counting up *)

Lemma incref_inv tok due a h :
  arena_inv tok due a → 0 < tok h → (∀ s, shared_slot a h = Some s → (rc s < u64_max)%Z) →
  arena_inv (own tok [h]) due (incref a h).
Proof.
  intros Hinv Ht Hov. destruct (owned_live tok due a h Hinv Ht) as [s Hs]. unfold incref. rewrite Hs.
  destruct (ai_rc _ _ _ Hinv h s Hs) as [Hrc Hle]. specialize (Hov s Hs).
  assert (0 < rc s)%Z as Hpos by (rewrite Hrc; lia).
  rewrite wrap64_small by lia. pose proof (λ i, set_rc_slot a h (rc s + 1) s i Hs) as Hsl.
  pose proof (λ i, set_rc_inrefs a h (rc s + 1) s i Hs) as Hin. destruct Hinv as [Hlock Hr Hd Hrf Hnd Hz He].
  split; try done.
  - intros i s' Hi. rewrite Hsl in Hi. rewrite Hin, own_single. case_decide as E; simplify_eq/=; [|rewrite Nat.add_0_r; auto].
    split; lia.
  - intros i Hi. rewrite Hsl in Hi. rewrite Hin, own_single. case_decide; [done|]. destruct (Hd i Hi). lia.
  - intros i s' r Hi. rewrite Hsl in Hi. case_decide as E; simplify_eq/=; eauto.
  - intros i. rewrite Hsl. change (guarded (retired (set_rc a h (rc s + 1) s))) with (guarded (retired a)).
    rewrite Hz. case_decide as E; [|done]. subst. split.
    + intros (s' & Hs' & H0). rewrite Hs in Hs'. simplify_eq. lia.
    + intros (s' & [= <-] & H0). simpl in H0. lia.
Qed.

(** ** Counting down *)

Lemma decref_inv tok due a h :
  arena_inv (own tok [h]) due a →
  ∃ a' b, decref a h = Ret (a', b) ∧ arena_inv tok due a' ∧ aepoch a' = aepoch a ∧
    (∀ i, shared_slot a' i = None ↔ shared_slot a i = None).
Proof.
  intros Hinv. destruct (owned_live _ due a h Hinv) as [s Hs]; [rewrite own_single, decide_True by done; lia|].
  destruct (ai_rc _ _ _ Hinv h s Hs) as [Hrc Hle]. rewrite own_single, decide_True in Hrc by done.
  unfold decref. rewrite Hs. cbv zeta. rewrite wrap64_small by lia.
  set (a1 := set_rc a h (rc s - 1) s). pose proof (λ i, set_rc_slot a h (rc s - 1) s i Hs) as Hsl. fold a1 in Hsl.
  pose proof (λ i, set_rc_inrefs a h (rc s - 1) s i Hs) as Hin. fold a1 in Hin.
  assert (∀ i, shared_slot a1 i = None ↔ shared_slot a i = None) as Hnone.
  { intros i. rewrite Hsl. case_decide as E; [|done]. subst. by rewrite Hs. }
  destruct Hinv as [Hlock Hr Hd Hrf Hnd Hz He].
  assert (∀ i s', shared_slot a1 i = Some s' → rc s' = Z.of_nat (tok i + inrefs (aslots a1) i) ∧ (rc s' ≤ u64_max)%Z) as Hr1.
  { intros i s' Hi. rewrite Hsl in Hi. rewrite Hin. case_decide as E; simplify_eq/=; [lia|].
    specialize (Hr i s' Hi). rewrite own_single, decide_False in Hr by done. rewrite Nat.add_0_r in Hr. done. }
  assert (∀ i, shared_slot a1 i = None → tok i = 0 ∧ inrefs (aslots a1) i = 0) as Hd1.
  { intros i Hi%Hnone%Hd. rewrite Hin, own_single in *. lia. }
  assert (∀ i s' r, shared_slot a1 i = Some s' → r ∈ refs s' → r < i) as Hrf1.
  { intros i s' r Hi. rewrite Hsl in Hi. case_decide as E; simplify_eq/=; eauto. }
  assert (h ∉ (guarded (retired a)).*2 ++ due) as Hnotin.
  { rewrite Hz. intros (s' & Hs' & H0). rewrite Hs in Hs'. simplify_eq. lia. }
  destruct (Z.eqb_spec (rc s) 1) as [E1|E1].
  - unfold push_retired. change (retired a1) with (retired a). rewrite Hlock. simpl.
    eexists _, _. split; [done|]. split_and!; [|done|done].
    split; simpl; try done.
    + rewrite fmap_app. simpl. rewrite <-app_assoc. apply NoDup_app in Hnd as (N1 & N2 & N3).
      rewrite elem_of_app in Hnotin. apply NoDup_app. split_and!; [done|set_solver|]. constructor; set_solver.
    + intros i. rewrite fmap_app. simpl. change (shared_slot (MkArena _ _ _) i) with (shared_slot a1 i).
      rewrite Hsl. destruct (decide (i = h)) as [->|Hne].
      * split; [intros _|set_solver]. eexists. split; [done|]. simpl. lia.
      * rewrite <-Hz. set_solver.
    + destruct He as [He1 He2]. split; [done|]. intros e h'.
      rewrite elem_of_app, list_elem_of_singleton. intros [?|[= -> ->]]; [eauto|lia].
  - eexists _, _. split; [done|]. split_and!; [|done|done]. split; try done.
    + intros i. rewrite Hsl. change (guarded (retired a1)) with (guarded (retired a)). rewrite Hz.
      destruct (decide (i = h)) as [->|Hne]; [|done]. split.
      * intros (s' & Hs' & H0). rewrite Hs in Hs'. simplify_eq. lia.
      * intros (s' & [= <-] & H0). simpl in H0. lia.
Qed.

Lemma decref_all_inv tok due a hs :
  arena_inv (own tok hs) due a →
  ∃ a', decref_all a hs = Ret a' ∧ arena_inv tok due a' ∧ aepoch a' = aepoch a ∧
    (∀ i, shared_slot a' i = None ↔ shared_slot a i = None).
Proof.
  revert tok a. induction hs as [|h hs IH]; intros tok a Hinv.
  { exists a. split_and!; try done. eapply arena_inv_ext; [|exact Hinv]. intros i. apply own_nil. }
  assert (arena_inv (own (own tok hs) [h]) due a) as Hinv'.
  { eapply arena_inv_ext; [|exact Hinv]. intros i. rewrite own_single. unfold own. rewrite count_ref_cons.
    repeat case_decide; lia || congruence. }
  destruct (decref_inv (own tok hs) due a h Hinv') as (a1 & b & E & Hi1 & He1 & Hn1).
  destruct (IH tok a1 Hi1) as (a2 & E2 & Hi2 & He2 & Hn2). exists a2. cbn [decref_all]. rewrite E.
  cbn [outcome_bind fst]. split_and!; [done..|congruence|]. intros i. by rewrite Hn2, Hn1.
Qed.

(** ** Freeing *)

(** A slot with count zero is taken: its references become debts. *)
Lemma take_inv tok due a h :
  arena_inv tok (h :: due) a → ∃ s, shared_slot a h = Some s ∧
    arena_inv (own tok (refs s)) due (MkArena (<[h := None]> (aslots a)) (retired a) (aepoch a)).
Proof.
  intros Hinv. destruct (proj1 (ai_zero _ _ _ Hinv h)) as (s & Hs & H0); [set_solver|].
  exists s. split; [done|]. destruct Hinv as [Hlock Hr Hd Hrf Hnd Hz He].
  destruct (Hr h s Hs) as [Hrc _]. pose proof Hs as Hs'. apply shared_slot_Some in Hs'.
  assert (h < length (aslots a)) as Hlt by eauto using lookup_lt_Some.
  set (a1 := MkArena _ _ _).
  assert (∀ i, shared_slot a1 i = if decide (i = h) then None else shared_slot a i) as Hsl
    by (intros i; by apply shared_slot_insert).
  assert (∀ i, inrefs (aslots a1) i + count_ref i (refs s) = inrefs (aslots a) i) as Hin.
  { intros i. pose proof (inrefs_insert (aslots a) h (Some s) None i Hs') as E. simpl in E. unfold a1. simpl. lia. }
  split; simpl; try done.
  - intros i s' Hi. rewrite Hsl in Hi. case_decide; [done|]. destruct (Hr i s' Hi) as [Hi1 ?]. split; [|done].
    unfold own. specialize (Hin i). unfold a1 in Hin. simpl in Hin. lia.
  - intros i Hi. rewrite Hsl in Hi. unfold own. specialize (Hin i). unfold a1 in Hin. simpl in Hin.
    case_decide as E; [subst; lia|]. destruct (Hd i Hi). lia.
  - intros i s' r Hi. rewrite Hsl in Hi. case_decide; [done|]. eauto.
  - apply NoDup_app in Hnd as (N1 & N2 & [N3 N4]%NoDup_cons). apply NoDup_app. split_and!; [done|set_solver|done].
  - intros i. rewrite Hsl. specialize (Hz i). case_decide as E.
    + subst. split; [|naive_solver]. intros Hi. exfalso. apply NoDup_app in Hnd as (N1 & N2 & [N3 N4]%NoDup_cons).
      set_solver.
    + rewrite <-Hz. set_solver.
Qed.

Lemma free_slot_inv tok due a n h :
  arena_inv tok (h :: due) a →
  ∃ a', free_slot a n h = Ret (a', S n) ∧ arena_inv tok due a' ∧ aepoch a' = aepoch a ∧
    (∀ i, shared_slot a' i = None ↔ i = h ∨ shared_slot a i = None).
Proof.
  intros Hinv. destruct (take_inv tok due a h Hinv) as (s & Hs & Hinv1). unfold free_slot. rewrite Hs.
  destruct (decref_all_inv tok due _ (refs s) Hinv1) as (a' & -> & Hinv' & He & Hn). exists a'.
  split_and!; [done..|]. intros i. rewrite Hn. apply shared_slot_Some in Hs.
  rewrite shared_slot_insert by eauto using lookup_lt_Some. unfold shared_slot. case_decide; naive_solver.
Qed.

Lemma free_all_inv tok a n hs :
  arena_inv tok hs a →
  ∃ a', free_all a n hs = Ret (a', n + length hs) ∧ arena_inv tok [] a' ∧ aepoch a' = aepoch a ∧
    (∀ i, shared_slot a' i = None ↔ i ∈ hs ∨ shared_slot a i = None).
Proof.
  revert n a. induction hs as [|h hs IH]; intros n a Hinv.
  { exists a. split_and!; [by rewrite Nat.add_0_r|done|done|set_solver]. }
  destruct (free_slot_inv tok hs a n h Hinv) as (a1 & E1 & Hi1 & He1 & Hn1).
  destruct (IH (S n) a1 Hi1) as (a2 & E2 & Hi2 & He2 & Hn2). exists a2.
  cbn [free_all]. rewrite E1. cbn [outcome_bind fst snd]. rewrite E2.
  split_and!; [f_equal; f_equal; simpl; lia|done|congruence|]. intros i. rewrite Hn2, Hn1. set_solver.
Qed.

Lemma filter_partition_perm {A} (f : A → bool) (l : list A) :
  l ≡ₚ filter (λ x, f x = false) l ++ filter (λ x, f x = true) l.
Proof.
  induction l as [|x l IH]; [done|]. destruct (f x) eqn:E.
  - rewrite (filter_cons_False (λ x, f x = false)), (filter_cons_True (λ x, f x = true)) by congruence.
    by rewrite <-Permutation_middle, <-IH.
  - rewrite (filter_cons_True (λ x, f x = false)), (filter_cons_False (λ x, f x = true)) by congruence.
    simpl. by rewrite <-IH.
Qed.

(** The handles a retirement frees: those retired two epochs ago or more. *)
Definition due_now a : list nat := (filter (λ x, is_due (aepoch a) x = true) (guarded (retired a))).*2.

Lemma retire_inv tok a :
  arena_inv tok [] a →
  ∃ a', retire a = Ret (a', length (due_now a)) ∧ arena_inv tok [] a' ∧ aepoch a' = aepoch a ∧
    (∀ i, shared_slot a' i = None ↔ i ∈ due_now a ∨ shared_slot a i = None).
Proof.
  intros Hinv. pose proof (ai_lock _ _ _ Hinv) as Hlock. unfold retire. rewrite Hlock. cbv zeta.
  change ((filter (λ x, is_due (aepoch a) x = true) (guarded (retired a))).*2) with (due_now a).
  set (a1 := MkArena _ _ _).
  assert (arena_inv tok (due_now a) a1) as Hinv1.
  { destruct Hinv as [_ Hr Hd Hrf Hnd Hz He].
    assert ((guarded (retired a)).*2 ≡ₚ (guarded (retired a1)).*2 ++ due_now a) as Hp.
    { unfold due_now, a1. simpl. rewrite <-fmap_app. apply fmap_Permutation, filter_partition_perm. }
    split; try done.
    - rewrite <-Hp. by rewrite app_nil_r in Hnd.
    - intros i. rewrite <-Hp. specialize (Hz i). rewrite app_nil_r in Hz. exact Hz.
    - split; [apply He|]. intros e h [_ Hin]%list_elem_of_filter. by eapply He. }
  destruct (free_all_inv tok a1 0 (due_now a) Hinv1) as (a' & E & Hi & He & Hn).
  exists a'. split_and!; [exact E|done|exact He|]. intros i. rewrite Hn. done.
Qed.

(** ** Freezing *)

Lemma incref_all_inv tok due a rs :
  arena_inv tok due a → (∀ r, r ∈ rs → 0 < tok r) →
  (∀ i, (Z.of_nat (own tok rs i + inrefs (aslots a) i) ≤ u64_max)%Z) →
  arena_inv (own tok rs) due (foldl incref a rs) ∧
  (∀ i, inrefs (aslots (foldl incref a rs)) i = inrefs (aslots a) i) ∧
  length (aslots (foldl incref a rs)) = length (aslots a).
Proof.
  revert tok a. induction rs as [|r rs IH]; intros tok a Hinv Hown Hov; simpl.
  { split_and!; try done. eapply arena_inv_ext; [|exact Hinv]. intros i. by rewrite own_nil. }
  destruct (owned_live tok due a r Hinv) as [s Hs]; [apply Hown; set_solver|].
  assert (∀ i, own (own tok [r]) rs i = own tok (r :: rs) i) as Eown.
  { intros i. change (own (own tok [r]) rs i) with (own tok [r] i + count_ref i rs). rewrite own_single.
    unfold own. rewrite count_ref_cons. repeat case_decide; lia || congruence. }
  assert (arena_inv (own tok [r]) due (incref a r)) as Hinv1.
  { apply incref_inv; [done|apply Hown; set_solver|]. intros s' Hs'. rewrite Hs in Hs'. injection Hs' as <-.
    destruct (ai_rc _ _ _ Hinv r s Hs) as [-> _]. specialize (Hov r). unfold own in Hov. rewrite count_ref_cons in Hov.
    rewrite decide_True in Hov by done. lia. }
  assert (∀ i, inrefs (aslots (incref a r)) i = inrefs (aslots a) i) as Hin.
  { intros i. unfold incref. rewrite Hs. by apply set_rc_inrefs. }
  destruct (IH (own tok [r]) (incref a r) Hinv1) as (H1 & H2 & H3).
  - intros r' Hr'. unfold own. specialize (Hown r' ltac:(set_solver)). lia.
  - intros i. rewrite Eown, Hin. apply Hov.
  - split_and!; [by eapply arena_inv_ext; [exact Eown|]|intros i; by rewrite H2, Hin|].
    rewrite H3. unfold incref. rewrite Hs. unfold set_rc. simpl. apply length_insert.
Qed.

(** Freezing gives the caller a new handle to own; the references are counted. *)
Lemma freeze_inv tok a v rs :
  arena_inv tok [] a → (∀ r, r ∈ rs → 0 < tok r) →
  (∀ i, (Z.of_nat (own tok rs i + inrefs (aslots a) i) ≤ u64_max)%Z) →
  ∃ a' h, freeze a v rs = Ok (a', h) ∧ h = length (aslots a) ∧ arena_inv (own tok [h]) [] a' ∧ Tier2Arena_get a' h = Some v.
Proof.
  intros Hinv Hown Hov. unfold freeze. cbv zeta.
  assert (∀ i, length (aslots a) ≤ i → shared_slot a i = None) as Hout.
  { intros i Hi. unfold shared_slot. by rewrite lookup_ge_None_2. }
  destruct (existsb _ rs) eqn:E.
  { exfalso. apply existsb_elem_of in E as (r & Hr & [Hb|Hb]%orb_true_iff); apply bool_decide_eq_true in Hb;
      destruct (owned_live tok [] a r Hinv (Hown r Hr)) as [s Hs]; [rewrite Hout in Hs by done; done|congruence]. }
  destruct (incref_all_inv tok [] a rs Hinv Hown Hov) as (Hinv1 & Hin & Hlen). set (a1 := foldl incref a rs) in *.
  eexists _, _. split; [done|]. split; [done|]. set (new := length (aslots a)) in *.
  set (a2 := MkArena _ _ _).
  assert (∀ i, shared_slot a2 i = if decide (i = new) then Some (MkTier2Slot v 1 rs) else shared_slot a1 i) as Hsl.
  { intros i. unfold a2, shared_slot. simpl. destruct (decide (i = new)) as [->|Hne].
    - by rewrite lookup_app_r, Hlen, Nat.sub_diag by lia.
    - destruct (decide (i < new)); [by rewrite lookup_app_l by lia|].
      rewrite lookup_app_r, (lookup_ge_None_2 (aslots a1)) by lia. rewrite Hlen.
      destruct (i - new) as [|k] eqn:Ek; [lia|]. done. }
  assert (shared_slot a1 new = None) as Hfresh by (unfold shared_slot; rewrite lookup_ge_None_2 by lia; done).
  destruct Hinv1 as [Hlock Hr Hd Hrf Hnd Hz He]. destruct (Hd new Hfresh) as [Htn Hrn]. unfold own in Htn.
  assert (∀ i, inrefs (aslots a2) i = inrefs (aslots a1) i + count_ref i rs) as Hin2
    by (intros i; unfold a2; simpl; by rewrite inrefs_snoc).
  split; [|unfold Tier2Arena_get; by rewrite Hsl, decide_True].
  split; try done.
  - intros i s' Hi. rewrite Hsl in Hi. rewrite Hin2, own_single. case_decide as En.
    + injection Hi as <-. subst i. simpl. unfold u64_max. split; [lia|done].
    + destruct (Hr i s' Hi) as [-> ?]. unfold own in *. split; [lia|]. lia.
  - intros i Hi. rewrite Hsl in Hi. rewrite Hin2, own_single. case_decide; [done|]. destruct (Hd i Hi). unfold own in *. lia.
  - intros i s' r Hi Hr'. rewrite Hsl in Hi. case_decide as En; [|eauto]. injection Hi as <-. subst i. simpl in Hr'.
    destruct (owned_live tok [] a r Hinv (Hown r Hr')) as [s Hs]. apply shared_slot_Some, lookup_lt_Some in Hs. done.
  - intros i. rewrite Hsl. change (guarded (retired a2)) with (guarded (retired a1)). rewrite Hz. case_decide as En; [|done].
    subst i. rewrite Hfresh. split; [naive_solver|]. intros (s' & [= <-] & H0). done.
Qed.

(** ** Clients *)

(** A step of a client that increments and decrements only what it owns, and
    freezes values that refer only to what it owns.  The counters must not reach
    their 64-bit limit. *)
Inductive shared_step : (nat → nat) * Tier2Arena T → (nat → nat) * Tier2Arena T → Prop :=
| sh_freeze tok a v rs a' h :
    (∀ r, r ∈ rs → 0 < tok r) →
    (∀ i, (Z.of_nat (own tok rs i + inrefs (aslots a) i) ≤ u64_max)%Z) →
    freeze a v rs = Ok (a', h) → shared_step (tok, a) (own tok [h], a')
| sh_incref tok a h :
    0 < tok h → (∀ s, shared_slot a h = Some s → (rc s < u64_max)%Z) →
    shared_step (tok, a) (own tok [h], incref a h)
| sh_decref tok tok' a h a' b :
    (∀ i, tok i = own tok' [h] i) → decref a h = Ret (a', b) → shared_step (tok, a) (tok', a')
| sh_epoch tok a :
    (aepoch a < u64_max)%Z → shared_step (tok, a) (tok, (advance_epoch a).1)
| sh_retire tok a a' n :
    retire a = Ret (a', n) → shared_step (tok, a) (tok, a').

Lemma new_inv : arena_inv (λ _, 0) [] Tier2Arena_new.
Proof.
  split; simpl; try done; [constructor| |split; [unfold u64_max; lia|set_solver]].
  intros i. split; [set_solver|]. by intros (s & Hs & _).
Qed.

Lemma advance_inv tok a :
  arena_inv tok [] a → (aepoch a < u64_max)%Z →
  arena_inv tok [] (advance_epoch a).1 ∧ aepoch (advance_epoch a).1 = (aepoch a + 1)%Z.
Proof.
  intros [Hlock Hr Hd Hrf Hnd Hz [He1 He2]] Hlt. unfold advance_epoch. cbn [fst].
  rewrite wrap64_small by lia. split; [|done]. split; simpl; try done. split; [lia|].
  intros e h Hin. specialize (He2 e h Hin). lia.
Qed.

Lemma shared_step_inv x y : shared_step x y → arena_inv x.1 [] x.2 → arena_inv y.1 [] y.2.
Proof.
  destruct 1 as [tok a v rs a' h Hown Hov E|tok a h Ht Hov|tok tok' a h a' b Htok E|tok a Hlt|tok a a' n E];
    cbn [fst snd]; intros Hinv.
  - destruct (freeze_inv tok a v rs Hinv Hown Hov) as (a1 & h1 & E1 & _ & Hi & _). rewrite E in E1. by simplify_eq.
  - by apply incref_inv.
  - destruct (decref_inv tok' [] a h) as (a1 & b1 & E1 & Hi & _); [by eapply arena_inv_ext|].
    rewrite E in E1. by simplify_eq.
  - by apply advance_inv.
  - destruct (retire_inv tok a Hinv) as (a1 & E1 & Hi & _). rewrite E in E1. by simplify_eq.
Qed.

Lemma shared_run_inv x y : rtc shared_step x y → arena_inv x.1 [] x.2 → arena_inv y.1 [] y.2.
Proof. induction 1; eauto using shared_step_inv. Qed.

(** C35: shared values are never freed early.  In any state a disciplined client
    can reach from the empty arena, a handle somebody owns reads a value; its
    reference count is exactly its owners plus the references from live values;
    live values refer only to live values frozen before them, so there is no
    cycle; and giving a handle back or retiring cannot panic. *)
Theorem shared_values_live tok a :
  rtc shared_step (λ _, 0, Tier2Arena_new) (tok, a) →
  (∀ h, 0 < tok h → ∃ v, Tier2Arena_get a h = Some v) ∧
  (∀ h n, refcount a h = Some n → n = Z.of_nat (tok h + inrefs (aslots a) h)) ∧
  (∀ i s r, shared_slot a i = Some s → r ∈ refs s → r < i ∧ ∃ s', shared_slot a r = Some s') ∧
  (∀ h, 0 < tok h → decref a h ≠ Panic) ∧ retire a ≠ Panic.
Proof.
  intros Hrun. pose proof (shared_run_inv _ _ Hrun new_inv) as Hinv. cbn [fst snd] in Hinv. split_and!.
  - intros h Hh. destruct (owned_live tok [] a h Hinv Hh) as [s Hs]. unfold Tier2Arena_get. rewrite Hs. eauto.
  - intros h n. unfold refcount. destruct (shared_slot a h) as [s|] eqn:E; [|done]. intros [= <-].
    by apply (ai_rc _ _ _ Hinv).
  - intros i s r Hs Hr. split; [by eapply ai_refs|]. destruct (shared_slot a r) as [s'|] eqn:E; [eauto|].
    apply (ai_dead _ _ _ Hinv) in E as [_ E]. apply shared_slot_Some in Hs.
    pose proof (inrefs_pos (aslots a) i s r Hs Hr). lia.
  - intros h Hh. set (tok' := λ i, if decide (i = h) then tok i - 1 else tok i).
    destruct (decref_inv tok' [] a h) as (a1 & b1 & -> & _); [|done].
    eapply arena_inv_ext; [|exact Hinv]. intros i. rewrite own_single. unfold tok'. case_decide; subst; lia.
  - by destruct (retire_inv tok a Hinv) as (a1 & -> & _).
Qed.

(** ** Reclamation *)

Lemma decref_length a h a' b : decref a h = Ret (a', b) → length (aslots a') = length (aslots a).
Proof.
  unfold decref, push_retired. destruct (shared_slot a h) as [s|]; [|by intros [= <- _]]. cbv zeta.
  destruct (rc s =? 1)%Z; [destruct (poisoned _); [done|]|]; simpl; intros [= <- _]; simpl; apply length_insert.
Qed.

Lemma decref_all_length a hs a' : decref_all a hs = Ret a' → length (aslots a') = length (aslots a).
Proof.
  revert a. induction hs as [|h hs IH]; intros a; cbn [decref_all]; [by intros [= <-]|].
  destruct (decref a h) as [[a1 b]|] eqn:E; [|done]. cbn [outcome_bind fst]. intros ->%IH. by eapply decref_length.
Qed.

Lemma free_all_length a n hs a' n' : free_all a n hs = Ret (a', n') → length (aslots a') = length (aslots a).
Proof.
  revert a n. induction hs as [|h hs IH]; intros a n; cbn [free_all]; [by intros [= <- _]|].
  destruct (free_slot a n h) as [[a1 n1]|] eqn:E; [|done]. cbn [outcome_bind fst snd]. intros ->%IH.
  revert E. unfold free_slot. destruct (shared_slot a h) as [s|]; [|by intros [= <- _]].
  destruct (decref_all _ (refs s)) as [a2|] eqn:E2; [|done]. intros [= <- _].
  apply decref_all_length in E2 as ->. apply length_insert.
Qed.

Definition alive a i : Prop := shared_slot a i ≠ None.

Lemma live_count_alive a :
  shared_live_count a = length (filter (λ i, shared_slot a i ≠ None) (seq 0 (length (aslots a)))).
Proof. unfold shared_live_count. by rewrite (filter_seq_lookup (λ o, o ≠ None) None). Qed.

(** Two epochs pass and the arena retires what is due. *)
Definition reclaim_round a : outcome (Tier2Arena T) :=
  (x <-! retire (advance_epoch (advance_epoch a).1).1; Ret x.1)%cruft.

Fixpoint reclaim (n : nat) a : outcome (Tier2Arena T) :=
  match n with O => Ret a | S n' => (a' <-! reclaim_round a; reclaim n' a')%cruft end.

(** Some live slot is referred to by no other: the last one. *)
Lemma last_live a :
  shared_live_count a ≠ 0 → ∃ h, alive a h ∧ ∀ i, alive a i → i ≤ h.
Proof.
  rewrite live_count_alive. assert (∀ i, alive a i → i < length (aslots a)) as Hlt.
  { intros i Hi. destruct (shared_slot a i) as [s|] eqn:E; [|done]. apply shared_slot_Some in E. eauto using lookup_lt_Some. }
  revert Hlt. generalize (length (aslots a)) as n. induction n as [|n IH]; intros Hlt Hc; [done|].
  destruct (decide (shared_slot a n = None)) as [Hn|Hn].
  - rewrite seq_S, filter_app, (filter_cons_False _ (0 + n)), app_nil_r in Hc by (simpl; tauto).
    apply IH; [|done]. intros i Hi. destruct (decide (i = n)) as [->|]; [done|]. specialize (Hlt i Hi). lia.
  - exists n. split; [done|]. intros i Hi. specialize (Hlt i Hi). lia.
Qed.

Lemma reclaim_round_progress a :
  arena_inv (λ _, 0) [] a → (aepoch a + 2 ≤ u64_max)%Z →
  ∃ a', reclaim_round a = Ret a' ∧ arena_inv (λ _, 0) [] a' ∧ aepoch a' = (aepoch a + 2)%Z ∧
    (shared_live_count a' < shared_live_count a ∨ shared_live_count a = 0 ∧ shared_live_count a' = 0).
Proof.
  intros Hinv Hep. destruct (advance_inv _ a Hinv) as [Hi1 He1]; [lia|].
  destruct (advance_inv _ (advance_epoch a).1 Hi1) as [Hi2 He2]; [lia|].
  set (a2 := (advance_epoch (advance_epoch a).1).1) in *.
  assert (∀ i, shared_slot a2 i = shared_slot a i) as Hs2 by done.
  destruct (retire_inv _ a2 Hi2) as (a' & E & Hi' & He' & Hn). exists a'. unfold reclaim_round. fold a2. rewrite E.
  split_and!; [done|done|lia|].
  assert (length (aslots a') = length (aslots a)) as Hlen.
  { revert E. unfold retire. rewrite (ai_lock _ _ _ Hi2). cbv zeta. by intros ->%free_all_length. }
  assert (shared_live_count a = shared_live_count a' +
    length (filter (λ i, i ∈ due_now a2) (filter (λ i, shared_slot a i ≠ None) (seq 0 (length (aslots a)))))) as Hsplit.
  { rewrite !live_count_alive, Hlen, list_filter_filter. apply filter_split_length.
    - intros i _. rewrite (Hn i), Hs2. destruct (decide (i ∈ due_now a2)); tauto.
    - intros i _. rewrite (Hn i). tauto. }
  destruct (decide (shared_live_count a = 0)) as [Hz|Hz]; [right; lia|left].
  destruct (last_live a Hz) as (h & Hh & Hmax).
  assert (h ∈ due_now a2) as Hdue.
  { unfold alive in Hh. destruct (shared_slot a h) as [s|] eqn:Es; [clear Hh|done].
    assert (inrefs (aslots a) h = 0) as H0.
    { apply inrefs_zero. intros j sj Hj Hin. apply shared_slot_Some in Hj.
      pose proof (ai_refs _ _ _ Hinv j sj h Hj Hin). specialize (Hmax j). unfold alive in Hmax. rewrite Hj in Hmax.
      specialize (Hmax ltac:(done)). lia. }
    destruct (ai_rc _ _ _ Hinv h s Es) as [Hrc _]. rewrite H0 in Hrc. simpl in Hrc.
    assert (h ∈ (guarded (retired a)).*2 ++ []) as Hin by (apply (ai_zero _ _ _ Hinv); eauto).
    rewrite app_nil_r in Hin. apply list_elem_of_fmap in Hin as ([e h'] & E2 & Hin). simpl in E2. subst h'.
    unfold due_now. apply list_elem_of_fmap. exists (e, h). split; [done|]. apply list_elem_of_filter. split; [|done].
    destruct (ai_epoch _ _ _ Hinv) as [_ Hee]. specialize (Hee e h Hin). unfold is_due. cbn [fst].
    rewrite wrap64_small by lia. apply Z.leb_le. lia. }
  assert (h ∈ filter (λ i, i ∈ due_now a2) (filter (λ i, shared_slot a i ≠ None) (seq 0 (length (aslots a))))) as Hin.
  { apply list_elem_of_filter. split; [done|]. apply list_elem_of_filter. split; [done|]. apply elem_of_seq.
    unfold alive in Hh. destruct (shared_slot a h) as [s|] eqn:Es; [|done]. apply shared_slot_Some, lookup_lt_Some in Es. lia. }
  destruct (filter (λ i, i ∈ due_now a2) _); [set_solver|simpl in Hsplit; lia].
Qed.

(** C36: shared values are not kept forever.  Once nobody owns a handle, letting two
    epochs pass and retiring, at most once per value still there, empties the
    arena: chains of references of any depth and any sharing are reclaimed. *)
Theorem shared_values_reclaimed a n :
  rtc shared_step (λ _, 0, Tier2Arena_new) (λ _, 0, a) →
  shared_live_count a ≤ n → (aepoch a + 2 * Z.of_nat n ≤ u64_max)%Z →
  ∃ a', reclaim n a = Ret a' ∧ shared_live_count a' = 0 ∧ ∀ h, Tier2Arena_get a' h = None.
Proof.
  intros Hrun. pose proof (shared_run_inv _ _ Hrun new_inv) as Hinv. cbn [fst snd] in Hinv. clear Hrun.
  revert a Hinv. induction n as [|n IH]; intros a Hinv Hle Hep.
  - exists a. split; [done|]. assert (shared_live_count a = 0) as Hz by lia. split; [done|]. intros h.
    unfold Tier2Arena_get. destruct (shared_slot a h) as [s|] eqn:E; [|done]. exfalso.
    apply shared_slot_Some in E. unfold shared_live_count in Hz. apply length_zero_iff_nil in Hz.
    assert (Some s ∈ filter (λ o : option (Tier2Slot T), o ≠ None) (aslots a)) as Hin
      by (apply list_elem_of_filter; split; [done|by eapply list_elem_of_lookup_2]).
    rewrite Hz in Hin. set_solver.
  - destruct (reclaim_round_progress a Hinv) as (a1 & E & Hi1 & He1 & Hc); [lia|]. cbn [reclaim]. rewrite E.
    cbn [outcome_bind]. apply IH; [done|lia|lia].
Qed.
End Theory.

(** ** A run: a value, a value that refers to it, both given back *)

Definition demo_arena : Tier2Arena Z :=
  match freeze Tier2Arena_new 10%Z [] with
  | Ok (a, _) => match freeze a 20%Z [0] with
                 | Ok (a, _) => match decref_all a [0; 1] with Ret a => a | Panic => a end
                 | Err _ => a
                 end
  | Err _ => Tier2Arena_new
  end.

Lemma demo_run : rtc shared_step (λ _, 0, Tier2Arena_new) (λ _, 0, demo_arena).
Proof.
  eapply rtc_l.
  { apply (sh_freeze (λ _, 0) Tier2Arena_new 10%Z [] (MkArena [Some (MkTier2Slot 10%Z 1 [])] (mutex_new []) 0) 0); [intros r Hr; inversion Hr| |reflexivity].
    intros i. vm_compute. discriminate. }
  eapply rtc_l.
  { eapply (sh_freeze _ _ 20%Z [0] _ 1); [| |reflexivity].
    - intros r [->|Hr]%elem_of_cons; [vm_compute; lia|inversion Hr].
    - intros i. unfold own. rewrite !count_ref_cons. change (count_ref i []) with 0. change (inrefs _ i) with 0.
      unfold u64_max. repeat case_decide; lia. }
  eapply rtc_l.
  { eapply (sh_decref _ (own (λ _, 0) [1]) _ 0); [|reflexivity]. intros i. unfold own. rewrite !count_ref_cons. change (count_ref i []) with 0. lia. }
  apply rtc_once. eapply (sh_decref _ (λ _, 0) _ 1); [|reflexivity]. done.
Qed.

Lemma shared_values_live_witness : retire demo_arena ≠ Panic.
Proof. apply (shared_values_live (λ _, 0) demo_arena demo_run). Defined.

Lemma shared_values_reclaimed_witness :
  ∃ a', reclaim 2 demo_arena = Ret a' ∧ shared_live_count a' = 0.
Proof.
  destruct (shared_values_reclaimed demo_arena 2 demo_run) as (a' & E & Hz & _); [vm_compute; lia|vm_compute; discriminate|].
  exists a'. split; assumption.
Defined.
