(* ===== verification/Boundary.v ===== *)
(** * Boundary: mailboxes, crossing a compartment boundary, worker scheduling
    (src/crates/rusty-js-gc/src/lib.rs, [MailboxSender], [Mailbox], [WorkerPool],
    [Scheduler], [boundary_send]; src/crates/rusty-js-gc/src/boundary.rs)

    Channels are the standard library's [mpsc]: unbounded, first in first out, and
    sending fails exactly when the receiver is gone.  They live in a store indexed
    by channel number; a sender is that number.  The closures that classify and
    clone a message are parameters. *)

From S2P Require Import Prelude Shared.

(** ** Mailboxes *)

Record channel (M : Type) := MkChannel { queue : list M; rx_open : bool }.
Arguments MkChannel {M}.
Arguments queue {M}.
Arguments rx_open {M}.

Abbreviation channels M := (gmap nat (channel M)) (only parsing).
Abbreviation MailboxSender := nat (only parsing).

Inductive MailboxClosedError := MkMailboxClosedError.

Section Mailbox.
Context {M : Type}.
Implicit Types (ch : channels M) (tx : MailboxSender).

(** [Mailbox::new]: a channel not in use. *)
Definition Mailbox_new ch : channels M * nat :=
  let id := fresh (dom ch) in (<[id := MkChannel [] true]> ch, id).

Definition enqueue ch tx (msg : M) : result (channels M) MailboxClosedError :=
  match ch !! tx with
  | Some c => if rx_open c then Ok (<[tx := MkChannel (queue c ++ [msg]) true]> ch)
              else Err MkMailboxClosedError
  | None => Err MkMailboxClosedError
  end.

Definition try_dequeue ch (rx : nat) : channels M * option M :=
  match ch !! rx with
  | Some (MkChannel (m :: q) o) => (<[rx := MkChannel q o]> ch, Some m)
  | _ => (ch, None)
  end.

Definition mailbox_drain ch (rx : nat) : channels M * list M :=
  match ch !! rx with
  | Some (MkChannel q o) => (<[rx := MkChannel [] o]> ch, q)
  | None => (ch, [])
  end.

(** Dropping the [Mailbox]. *)
Definition Mailbox_drop ch (rx : nat) : channels M :=
  match ch !! rx with
  | Some c => <[rx := MkChannel [] false]> ch
  | None => ch
  end.
End Mailbox.

(** ** Sending to a compartment *)

Inductive BoundaryError :=
| Transfer (e : string)
| Capability (e : string)
| TargetNotRegistered.

Record Envelope (Msg Cap : Type) := MkEnvelope { message : Msg; capabilities : list Cap }.
Arguments MkEnvelope {Msg Cap}.
Arguments message {Msg Cap}.
Arguments capabilities {Msg Cap}.

Record Crossing := { clone_crossed : list Tier2Handle; transfer_crossed : list Tier2Handle }.

Record SendPlan (Cap : Type) := MkSendPlan { plan_refcount : RefcountDeltaPlan; plan_capabilities : list Cap }.
Arguments MkSendPlan {Cap}.
Arguments plan_refcount {Cap}.
Arguments plan_capabilities {Cap}.

Definition atomic_touches {Cap} (p : SendPlan Cap) : nat := tier3_atomic_touches (plan_refcount p).

Record BoundaryWrapper (T : Type) := MkWrapper { tier3 : Tier3 T; senders : gmap Z MailboxSender }.
Arguments MkWrapper {T}.
Arguments tier3 {T}.
Arguments senders {T}.

Section Wrapper.
Context {T Msg Cap : Type} `{Countable Cap}.
Implicit Types (w : BoundaryWrapper T) (ch : channels (Envelope Msg Cap)).

Definition BoundaryWrapper_new : BoundaryWrapper T := MkWrapper Tier3_new ∅.

Definition register_compartment w (c : Z) (sender : MailboxSender) : BoundaryWrapper T :=
  MkWrapper (register (tier3 w) c) (<[c := sender]> (senders w)).

Definition terminate_compartment w (c : Z) : BoundaryWrapper T :=
  MkWrapper (unregister (tier3 w) c) (delete c (senders w)).

Definition wrapper_is_registered w (c : Z) : bool := is_registered (tier3 w) c.

Definition validate w (to_compartment : Z) (crossing : Crossing) (capability_set : list Cap)
    (sender_capabilities : gset Cap) (classify : result () string) : result (SendPlan Cap) BoundaryError :=
  (_ <-? result_map_err Transfer classify;
   let refcount := plan_crossing (tier3 w) (clone_crossed crossing) (transfer_crossed crossing) to_compartment in
   if negb (targets_valid refcount) then Err TargetNotRegistered
   else if existsb (λ cap, negb (bool_decide (cap ∈ sender_capabilities))) capability_set
   then Err (Capability "capability not held by sender (no privilege escalation)")
   else Ok (MkSendPlan refcount capability_set))%cruft.

(** The state after [commit] and what it returns; the state changes already made
    stay when a later step fails. *)
Definition commit w ch (to_compartment : Z) (msg : Msg) (plan : SendPlan Cap)
    (clone : Msg → result Msg string) :
    outcome (BoundaryWrapper T * channels (Envelope Msg Cap) * result () BoundaryError) :=
  (match clone msg with
   | Err e => Ret (w, ch, Err (Transfer e))
   | Ok msg' =>
       applied <-! apply_plan (tier3 w) (plan_refcount plan);
       match applied with
       | Err _ => Ret (w, ch, Err TargetNotRegistered)
       | Ok t =>
           let w' := MkWrapper t (senders w) in
           let env := MkEnvelope msg' (plan_capabilities plan) in
           sender <-! unwrap (senders w !! to_compartment);
           match enqueue ch sender env with
           | Err _ => Ret (w', ch, Err TargetNotRegistered)
           | Ok ch' => Ret (w', ch', Ok ())
           end
       end
   end)%cruft.

Definition wrapper_boundary_send w ch (to_compartment : Z) (msg : Msg) (crossing : Crossing)
    (capability_set : list Cap) (sender_capabilities : gset Cap) (classify : result () string)
    (clone : Msg → result Msg string) :
    outcome (BoundaryWrapper T * channels (Envelope Msg Cap) * result () BoundaryError) :=
  match validate w to_compartment crossing capability_set sender_capabilities classify with
  | Err e => Ret (w, ch, Err e)
  | Ok plan => commit w ch to_compartment msg plan clone
  end.
End Wrapper.

(** ** The crossing without a wrapper *)

Inductive BoundarySendError := SendTargetNotRegistered | SendMailboxClosed.

Definition boundary_send {T M} (a : Tier2Arena T) (ch : channels M) (target_registered : bool)
    (clone transfer : list Tier2Handle) (target_mailbox : MailboxSender) (envelope : M) :
    outcome (Tier2Arena T * channels M * result () BoundarySendError) :=
  (if negb target_registered then Ret (a, ch, Err SendTargetNotRegistered)
   else a' <-! decref_all (foldl incref a clone) transfer;
        match enqueue ch target_mailbox envelope with
        | Ok ch' => Ret (a', ch', Ok ())
        | Err _ => Ret (a', ch, Err SendMailboxClosed)
        end)%cruft.

(** ** Worker pool and scheduler *)

Inductive WorkerMsg (Job : Type) := Run (job : Job) | Shutdown.
Arguments Run {Job}.
Arguments Shutdown {Job}.

(** The mailboxes of the worker threads, in order. *)
Record WorkerPool (Job : Type) := MkPool { workers : list (channel (WorkerMsg Job)) }.
Arguments MkPool {Job}.
Arguments workers {Job}.

Record Scheduler (Job : Type) := MkScheduler {
  pool : WorkerPool Job;
  affinity : gmap Z nat;
  load : list nat;
  next : nat;
}.
Arguments MkScheduler {Job}.
Arguments pool {Job}.
Arguments affinity {Job}.
Arguments load {Job}.
Arguments next {Job}.

Section Scheduling.
Context {Job : Type}.
Implicit Types (p : WorkerPool Job) (s : Scheduler Job).

Definition WorkerPool_new (n : nat) : WorkerPool Job := MkPool (replicate (Nat.max n 1) (MkChannel [] true)).

Definition worker_count p : nat := length (workers p).

(** [self.senders[worker % self.senders.len()]]: panics on an empty pool. *)
Definition submit p (worker : nat) (job : Job) : outcome (WorkerPool Job * result () MailboxClosedError) :=
  if bool_decide (worker_count p = 0) then Panic
  else
    let i := worker `mod` worker_count p in
    (c <-! unwrap (workers p !! i);
     if rx_open c then Ret (MkPool (<[i := MkChannel (queue c ++ [Run job]) true]> (workers p)), Ok ())
     else Ret (p, Err MkMailboxClosedError))%cruft.

Definition Scheduler_new (threads : nat) : Scheduler Job :=
  let p := WorkerPool_new threads in
  MkScheduler p ∅ (replicate (worker_count p) 0) 0.

(** One turn of the search loop: [w] replaces [best] when it is less loaded. *)
Definition better_worker (ld : list nat) (start n : nat) (best : outcome nat) (k : nat) : outcome nat :=
  (b <-! best;
   let w := (start + k) `mod` n in
   lw <-! unwrap (ld !! w); lb <-! unwrap (ld !! b);
   Ret (if bool_decide (lw < lb) then w else b))%cruft.

Definition assign s (c : Z) : outcome (Scheduler Job * nat) :=
  match affinity s !! c with
  | Some w => Ret (s, w)
  | None =>
      let n := length (load s) in
      if bool_decide (n = 0) then Panic
      else
        let start := next s `mod` n in
        (best <-! foldl (better_worker (load s) start n) (Ret start) (seq 0 n);
         lb <-! unwrap (load s !! best);
         Ret (MkScheduler (pool s) (<[c := best]> (affinity s)) (<[best := S lb]> (load s)) ((best + 1) `mod` n),
              best))%cruft
  end.

Definition worker_of s (c : Z) : option nat := affinity s !! c.

Definition migrate s (c : Z) (to_worker : nat) : outcome (Scheduler Job * bool) :=
  if bool_decide (length (load s) = 0) then Panic
  else
    let to := to_worker `mod` length (load s) in
    match affinity s !! c with
    | Some from =>
        if bool_decide (from = to) then Ret (s, false)
        else
          (lf <-! unwrap (load s !! from);
           let ld := <[from := lf - 1]> (load s) in
           lt <-! unwrap (ld !! to);
           Ret (MkScheduler (pool s) (<[c := to]> (affinity s)) (<[to := S lt]> ld) (next s), true))%cruft
    | None => Ret (s, false)
    end.

Definition Scheduler_remove s (c : Z) : outcome (Scheduler Job) :=
  match affinity s !! c with
  | Some w => (lw <-! unwrap (load s !! w);
               Ret (MkScheduler (pool s) (delete c (affinity s)) (<[w := lw - 1]> (load s)) (next s)))%cruft
  | None => Ret s
  end.

Definition submit_turn s (c : Z) (job : Job) : outcome (Scheduler Job * result () MailboxClosedError) :=
  (x <-! assign s c;
   y <-! submit (pool x.1) x.2 job;
   Ret (MkScheduler y.1 (affinity x.1) (load x.1) (next x.1), y.2))%cruft.
End Scheduling.

(** ** Crossing a boundary and balancing workers *)

(** ** Crossings *)

Section Crossing.
Context {T : Type}.
Implicit Types a : Tier2Arena T.

Lemma incref_lock a h : poisoned (retired (incref a h)) = poisoned (retired a).
Proof. unfold incref. by destruct (shared_slot a h). Qed.

Lemma decref_no_panic a h :
  poisoned (retired a) = false → ∃ a' b, decref a h = Ret (a', b) ∧ poisoned (retired a') = false.
Proof.
  intros Hl. unfold decref, push_retired. destruct (shared_slot a h) as [s|]; [|eauto]. cbv zeta.
  change (retired (set_rc a h (wrap64 (rc s - 1)) s)) with (retired a). rewrite Hl.
  destruct (rc s =? 1)%Z; simpl; eauto.
Qed.

Lemma decref_all_no_panic a hs :
  poisoned (retired a) = false → ∃ a', decref_all a hs = Ret a' ∧ poisoned (retired a') = false.
Proof.
  revert a. induction hs as [|h hs IH]; intros a Hl; [eauto|]. cbn [decref_all].
  destruct (decref_no_panic a h Hl) as (a1 & b & -> & Hl1). cbn [outcome_bind fst]. by apply IH.
Qed.

Lemma incref_all_lock a hs : poisoned (retired (foldl incref a hs)) = poisoned (retired a).
Proof. revert a. induction hs as [|h hs IH]; intros a; [done|]. simpl. by rewrite IH, incref_lock. Qed.
End Crossing.

Section Send.
Context {T Msg Cap : Type} `{Countable Cap}.
Implicit Types (w : BoundaryWrapper T) (ch : channels (Envelope Msg Cap)).

(** A registered compartment has a sender, and nobody else has. *)
Record wrapper_wf w : Prop := {
  ww_dom : ∀ c, is_Some (senders w !! c) ↔ c ∈ registered (tier3 w);
  ww_lock : poisoned (retired (arena (tier3 w))) = false;
}.

Lemma wrapper_new_wf : wrapper_wf BoundaryWrapper_new.
Proof. split; [|done]. intros c. simpl. rewrite lookup_empty. split; [by intros []|set_solver]. Qed.

Lemma register_wf w c tx : wrapper_wf w → wrapper_wf (register_compartment w c tx).
Proof.
  intros [Hd Hl]. split; [|done]. intros c'. simpl. rewrite elem_of_union, elem_of_singleton, <-Hd.
  destruct (decide (c' = c)) as [->|]; [rewrite lookup_insert_eq; naive_solver|].
  rewrite lookup_insert_ne by done. naive_solver.
Qed.

Lemma terminate_wf w c : wrapper_wf w → wrapper_wf (terminate_compartment w c).
Proof.
  intros [Hd Hl]. split; [|done]. intros c'. simpl. rewrite elem_of_difference, elem_of_singleton, <-Hd.
  destruct (decide (c' = c)) as [->|]; [rewrite lookup_delete_eq; split; [by intros []|naive_solver]|].
  rewrite lookup_delete_ne by done. naive_solver.
Qed.

(** The wrapper with the counts of a crossing applied. *)
Definition crossed w (x : Crossing) w' : Prop :=
  decref_all (foldl incref (arena (tier3 w)) (clone_crossed x)) (transfer_crossed x) = Ret (arena (tier3 w')) ∧
  registered (tier3 w') = registered (tier3 w) ∧ senders w' = senders w.

Lemma validate_Ok w c x (cs : list Cap) (held : gset Cap) cl plan :
  validate w c x cs held cl = Ok plan →
  cl = Ok () ∧ c ∈ registered (tier3 w) ∧ (∀ cap, cap ∈ cs → cap ∈ held) ∧
  plan = MkSendPlan {| increments := clone_crossed x; decrements := transfer_crossed x; targets_valid := true |} cs.
Proof.
  unfold validate. destruct cl as [[]|e]; [|done]. simpl. unfold is_registered. case_bool_decide as Hc; [|done]. simpl.
  destruct (existsb _ cs) eqn:E; [done|]. intros [= <-]. split_and!; try done.
  - intros cap Hcap. destruct (decide (cap ∈ held)) as [|Hn]; [done|]. exfalso. rewrite <-not_true_iff_false in E. apply E.
    apply existsb_elem_of. exists cap. split; [done|]. by rewrite bool_decide_eq_false_2.
  - unfold plan_crossing, is_registered. by rewrite bool_decide_eq_true_2.
Qed.

(** C37: a boundary crossing is checked before it happens and happens whole.
    [boundary_send] never panics.  A successful send means that the message was
    classified, the target registered and every capability sent is one the sender
    holds; then the target's queue has grown by exactly the cloned message with
    those capabilities, no other queue has changed, and the counts of the crossing
    are applied.  A refused send delivers nothing and leaves the shared heap as it
    was, but for one case: when the target is registered and its receiver is gone,
    the counts are applied although nothing is delivered. *)
Theorem boundary_send_checked w ch c (msg : Msg) x (cs : list Cap) (held : gset Cap) classify clone :
  wrapper_wf w →
  ∃ w' ch' r, wrapper_boundary_send w ch c msg x cs held classify clone = Ret (w', ch', r) ∧ wrapper_wf w' ∧
  match r with
  | Ok _ => classify = Ok () ∧ c ∈ registered (tier3 w) ∧ (∀ cap, cap ∈ cs → cap ∈ held) ∧ crossed w x w' ∧
      ∃ msg' tx q, clone msg = Ok msg' ∧ senders w !! c = Some tx ∧ ch !! tx = Some (MkChannel q true) ∧
        ch' = <[tx := MkChannel (q ++ [MkEnvelope msg' cs]) true]> ch
  | Err e => ch' = ch ∧
      (w' = w ∨ e = TargetNotRegistered ∧ c ∈ registered (tier3 w) ∧ crossed w x w' ∧
        ∃ tx, senders w !! c = Some tx ∧ ∀ q, ch !! tx ≠ Some (MkChannel q true))
  end.
Proof.
  intros Hwf. unfold wrapper_boundary_send.
  destruct (validate w c x cs held classify) as [plan|e] eqn:Ev; [|by exists w, ch, (Err e); auto].
  apply validate_Ok in Ev as (Hcl & Hc & Hcs & ->). unfold commit.
  destruct (clone msg) as [msg'|e] eqn:Ec; [|by exists w, ch, (Err (Transfer e)); auto].
  unfold apply_plan. simpl.
  destruct (decref_all_no_panic (foldl incref (arena (tier3 w)) (clone_crossed x)) (transfer_crossed x))
    as (a' & Ea & Hl'); [rewrite incref_all_lock; apply Hwf|].
  rewrite Ea. simpl. destruct (proj2 (ww_dom w Hwf c) Hc) as [tx Htx]. rewrite Htx. simpl.
  set (w' := MkWrapper _ _).
  assert (wrapper_wf w') as Hwf' by (split; [apply Hwf|done]).
  assert (crossed w x w') as Hx by done.
  unfold enqueue. destruct (ch !! tx) as [[q []]|] eqn:Eq; simpl.
  - exists w', (<[tx := MkChannel (q ++ [MkEnvelope msg' cs]) true]> ch), (Ok ()). split_and!; try done.
    exists msg', tx, q. done.
  - exists w', ch, (Err TargetNotRegistered). split_and!; try done. right. split_and!; try done. exists tx.
    split; [done|]. intros q'. rewrite Eq. naive_solver.
  - exists w', ch, (Err TargetNotRegistered). split_and!; try done. right. split_and!; try done. exists tx.
    split; [done|]. intros q'. by rewrite Eq.
Qed.
End Send.

Lemma boundary_send_checked_witness :
  ∃ w' ch' r,
    wrapper_boundary_send (register_compartment (BoundaryWrapper_new (T:=Z)) 1 0)
      {[0 := MkChannel [] true]} 1 "hello" {| clone_crossed := []; transfer_crossed := [] |}
      ["net"] {["net"; "fs"]} (Ok ()) Ok = Ret (w', ch', r).
Proof.
  destruct (boundary_send_checked (register_compartment (BoundaryWrapper_new (T:=Z)) 1 0)
    {[0 := MkChannel [] true]} 1 "hello" {| clone_crossed := []; transfer_crossed := [] |}
    ["net"] {["net"; "fs"]} (Ok ()) Ok (register_wf _ 1 0 wrapper_new_wf)) as (w' & ch' & r & E & _).
  exists w', ch', r. exact E.
Defined.

(** ** Scheduling *)

Definition load_of (m : gmap Z nat) (w : nat) : nat := size (filter (λ p : Z * nat, p.2 = w) m).

Lemma load_of_insert m c x w :
  m !! c = None → load_of (<[c := x]> m) w = (if decide (x = w) then 1 else 0) + load_of m w.
Proof.
  intros Hc. unfold load_of. rewrite map_filter_insert. simpl. destruct (decide (x = w)).
  - rewrite map_size_insert_None; [done|]. apply map_lookup_filter_None. by left.
  - by rewrite delete_id.
Qed.

Lemma load_of_delete m c x w :
  m !! c = Some x → load_of m w = (if decide (x = w) then 1 else 0) + load_of (delete c m) w.
Proof.
  intros Hc. rewrite <-(insert_delete_id m c x Hc) at 1. apply load_of_insert. apply lookup_delete_eq.
Qed.

Section Scheduling.
Context {Job : Type}.
Implicit Types s : Scheduler Job.

Record sched_wf s : Prop := {
  sw_nonempty : 0 < length (load s);
  sw_pool : length (load s) = worker_count (pool s);
  sw_range : ∀ c w, affinity s !! c = Some w → w < length (load s);
  sw_load : ∀ w, w < length (load s) → load s !! w = Some (load_of (affinity s) w);
}.

Lemma scheduler_new_wf n : sched_wf (Scheduler_new n : Scheduler Job).
Proof.
  unfold Scheduler_new, WorkerPool_new, worker_count. split; simpl; rewrite ?length_replicate.
  - lia.
  - unfold worker_count. simpl. by rewrite length_replicate.
  - intros c w Hc. by rewrite lookup_empty in Hc.
  - intros w Hw. rewrite lookup_replicate_2 by lia. unfold load_of. by rewrite map_filter_empty.
Qed.

(** The search visits every worker once, so the result is a least loaded one. *)
Lemma best_worker_spec ld start n ks :
  n = length ld → 0 < n → start < n →
  ∃ b lb, foldl (better_worker ld start n) (Ret start) ks = Ret b ∧ ld !! b = Some lb ∧
    ∀ k lk, (k = 0 ∨ k ∈ ks) → ld !! ((start + k) `mod` n) = Some lk → lb ≤ lk.
Proof.
  intros Hn Hpos Hs. induction ks as [|k ks IH] using rev_ind.
  - destruct (lookup_lt_is_Some_2 ld start) as [l0 Hl0]; [lia|]. exists start, l0. split_and!; [done..|].
    intros k lk [->|Hk]; [|set_solver]. rewrite Nat.add_0_r, Nat.mod_small by lia. intros E. by simplify_eq.
  - destruct IH as (b & lb & E & Hb & Hmin). rewrite foldl_app, E. simpl.
    assert ((start + k) `mod` n < length ld) as Hw by (rewrite <-Hn; apply Nat.mod_upper_bound; lia).
    destruct (lookup_lt_is_Some_2 ld _ Hw) as [lw Hlw]. rewrite Hlw, Hb. simpl. case_bool_decide as Hlt.
    + exists ((start + k) `mod` n), lw. split_and!; [done..|]. intros k' lk' Hk' Hlk'.
      destruct (decide (k' = k)) as [->|]; [by simplify_eq|].
      assert (lb ≤ lk') by (apply (Hmin k'); [|done]; set_solver). lia.
    + exists b, lb. split_and!; [done..|]. intros k' lk' Hk' Hlk'.
      destruct (decide (k' = k)) as [->|]; [simplify_eq; lia|]. apply (Hmin k'); [|done]. set_solver.
Qed.

(** The offset that leads to worker [w]. *)
Lemma worker_offset start n w : start < n → w < n → ∃ k, k < n ∧ (start + k) `mod` n = w.
Proof.
  intros Hs Hw. destruct (decide (start ≤ w)).
  - exists (w - start). split; [lia|]. rewrite Nat.mod_small; lia.
  - exists (n - start + w). split; [lia|]. replace (start + (n - start + w)) with (w + 1 * n) by lia.
    rewrite Nat.Div0.mod_add. apply Nat.mod_small. lia.
Qed.

(** What [assign] does to a compartment that has no worker yet. *)
Definition placed s c s' w : Prop :=
  affinity s' = <[c := w]> (affinity s) ∧ length (load s') = length (load s) ∧
  ∃ lw, load s !! w = Some lw ∧ ∀ w' lw', load s !! w' = Some lw' → lw ≤ lw'.

Lemma assign_wf s c :
  sched_wf s → ∃ s' w, assign s c = Ret (s', w) ∧ sched_wf s' ∧ affinity s' !! c = Some w ∧
    match affinity s !! c with Some w0 => s' = s ∧ w = w0 | None => placed s c s' w end.
Proof.
  intros Hwf. pose proof (sw_nonempty s Hwf) as Hpos. unfold assign.
  destruct (affinity s !! c) as [w0|] eqn:Ea; [by exists s, w0|]. cbv zeta. rewrite bool_decide_eq_false_2 by lia.
  destruct (best_worker_spec (load s) (next s `mod` length (load s)) (length (load s)) (seq 0 (length (load s))))
    as (b & lb & -> & Hb & Hmin); [done|done|apply Nat.mod_upper_bound; lia|]. simpl. rewrite Hb. simpl.
  assert (b < length (load s)) as Hblt by eauto using lookup_lt_Some.
  assert (lb = load_of (affinity s) b) as Elb by (rewrite (sw_load s Hwf b Hblt) in Hb; by simplify_eq).
  eexists _, b. split; [done|]. split_and!.
  - split; simpl; rewrite ?length_insert; [lia|apply Hwf| |].
    + intros c' w. destruct (decide (c' = c)) as [->|]; [rewrite lookup_insert_eq; intros [= <-]; done|].
      rewrite lookup_insert_ne by done. apply Hwf.
    + intros w Hw. rewrite load_of_insert by done. destruct (decide (b = w)) as [<-|Hne].
      * rewrite list_lookup_insert_eq by done. by rewrite Elb.
      * rewrite list_lookup_insert_ne by done. by apply Hwf.
  - simpl. apply lookup_insert_eq.
  - split_and!; [done|simpl; apply length_insert|]. exists lb. split; [done|]. intros w' lw' Hw'.
    apply lookup_lt_Some in Hw' as Hlt'.
    destruct (worker_offset (next s `mod` length (load s)) (length (load s)) w') as (k & Hk & Ek);
      [apply Nat.mod_upper_bound; lia|done|].
    apply (Hmin k); [right; apply elem_of_seq; lia|by rewrite Ek].
Qed.

Lemma migrate_wf s c to :
  sched_wf s → ∃ s' b, migrate s c to = Ret (s', b) ∧ sched_wf s' ∧
    affinity s' = (if b then <[c := to `mod` length (load s)]> (affinity s) else affinity s).
Proof.
  intros Hwf. pose proof (sw_nonempty s Hwf) as Hpos. unfold migrate. rewrite bool_decide_eq_false_2 by lia. cbv zeta.
  set (n := length (load s)) in *. destruct (affinity s !! c) as [from|] eqn:Ea; [|by exists s, false].
  case_bool_decide as Eft; [by exists s, false|].
  pose proof (sw_range s Hwf c from Ea) as Hf. assert (to `mod` n < n) as Ht by (apply Nat.mod_upper_bound; lia).
  rewrite (sw_load s Hwf from Hf). simpl. rewrite list_lookup_insert_ne by done. rewrite (sw_load s Hwf _ Ht). simpl.
  eexists _, true. split; [done|]. split; [|done]. split; simpl; rewrite ?length_insert; [lia|apply Hwf| |].
  - intros c' w. destruct (decide (c' = c)) as [->|]; [rewrite lookup_insert_eq; intros [= <-]; done|].
    rewrite lookup_insert_ne by done. apply Hwf.
  - intros w Hw. pose proof (load_of_delete _ _ _ w Ea) as Hdel.
    assert (load_of (<[c:=to `mod` n]> (affinity s)) w =
            (if decide (to `mod` n = w) then 1 else 0) + load_of (delete c (affinity s)) w) as Hins.
    { rewrite <-insert_delete_eq. apply load_of_insert, lookup_delete_eq. }
    rewrite Hins. destruct (decide (to `mod` n = w)) as [<-|Hne].
    + rewrite list_lookup_insert_eq by (rewrite length_insert; done). rewrite Hdel, decide_False by done. done.
    + rewrite list_lookup_insert_ne by done. destruct (decide (from = w)) as [<-|Hne2].
      * rewrite list_lookup_insert_eq by done. rewrite (load_of_delete _ _ _ from Ea), decide_True by done.
        f_equal. lia.
      * rewrite list_lookup_insert_ne by done. rewrite (sw_load s Hwf w Hw), Hdel. done.
Qed.

Lemma remove_wf s c :
  sched_wf s → ∃ s', Scheduler_remove s c = Ret s' ∧ sched_wf s' ∧ affinity s' = delete c (affinity s).
Proof.
  intros Hwf. unfold Scheduler_remove. destruct (affinity s !! c) as [w0|] eqn:Ea.
  - pose proof (sw_range s Hwf c w0 Ea) as Hlt. rewrite (sw_load s Hwf w0 Hlt). simpl. eexists. split; [done|].
    split; [|done]. split; simpl; rewrite ?length_insert; [apply Hwf|apply Hwf| |].
    + intros c' w. destruct (decide (c' = c)) as [->|]; [by rewrite lookup_delete_eq|].
      rewrite lookup_delete_ne by done. apply Hwf.
    + intros w Hw. pose proof (load_of_delete _ _ _ w Ea) as Hdel. destruct (decide (w0 = w)) as [<-|Hne].
      * rewrite list_lookup_insert_eq by done. f_equal. lia.
      * rewrite list_lookup_insert_ne by done. rewrite (sw_load s Hwf w Hw), Hdel. done.
  - exists s. split_and!; [done..|]. by rewrite delete_id.
Qed.

Lemma submit_turn_wf s c job :
  sched_wf s → ∃ s' r, submit_turn s c job = Ret (s', r) ∧ sched_wf s' ∧ is_Some (affinity s' !! c).
Proof.
  intros Hwf. unfold submit_turn. destruct (assign_wf s c Hwf) as (s1 & w & -> & Hwf1 & Hw & _). simpl.
  unfold submit. rewrite <-(sw_pool s1 Hwf1). rewrite bool_decide_eq_false_2 by (pose proof (sw_nonempty s1 Hwf1); lia).
  assert (w `mod` length (load s1) < length (workers (pool s1))) as Hlt.
  { change (length (workers (pool s1))) with (worker_count (pool s1)). rewrite <-(sw_pool s1 Hwf1).
    apply Nat.mod_upper_bound. pose proof (sw_nonempty s1 Hwf1). lia. }
  destruct (lookup_lt_is_Some_2 _ _ Hlt) as [cn ->]. simpl.
  destruct (rx_open cn); simpl; eexists _, _; (split; [done|]); (split; [|simpl; by rewrite Hw]);
    split; simpl; try apply Hwf1. unfold worker_count. simpl. rewrite length_insert. apply Hwf1.
Qed.

Inductive sched_step : Scheduler Job → Scheduler Job → Prop :=
| st_assign s c s' w : assign s c = Ret (s', w) → sched_step s s'
| st_migrate s c to s' b : migrate s c to = Ret (s', b) → sched_step s s'
| st_remove s c s' : Scheduler_remove s c = Ret s' → sched_step s s'
| st_submit s c job s' r : submit_turn s c job = Ret (s', r) → sched_step s s'.

Lemma sched_run_wf s s' : rtc sched_step s s' → sched_wf s → sched_wf s'.
Proof.
  induction 1 as [|s s1 s' Hst _ IH]; [done|]. intros Hwf. apply IH. destruct Hst as [s c s1 w E|s c to s1 b E|s c s1 E|s c job s1 r E].
  - destruct (assign_wf s c Hwf) as (? & ? & E' & ? & _). rewrite E in E'. by simplify_eq.
  - destruct (migrate_wf s c to Hwf) as (? & ? & E' & ? & _). rewrite E in E'. by simplify_eq.
  - destruct (remove_wf s c Hwf) as (? & E' & ? & _). rewrite E in E'. by simplify_eq.
  - destruct (submit_turn_wf s c job Hwf) as (? & ? & E' & ? & _). rewrite E in E'. by simplify_eq.
Qed.

(** The scheduler's books balance.  After any sequence of assignments,
    migrations, removals and submissions, every worker's load is the number of
    compartments bound to it; no operation panics; a compartment that has a worker
    keeps it, and one that has none is placed on a worker no other is less loaded
    than. *)
Lemma scheduler_balanced threads s :
  rtc sched_step (Scheduler_new threads) s →
  (∀ w, w < length (load s) → load s !! w = Some (load_of (affinity s) w)) ∧
  (∀ c, ∃ s' w, assign s c = Ret (s', w) ∧ affinity s' !! c = Some w ∧
     match affinity s !! c with Some w0 => s' = s ∧ w = w0 | None => placed s c s' w end) ∧
  (∀ c to, migrate s c to ≠ Panic) ∧ (∀ c, Scheduler_remove s c ≠ Panic) ∧ (∀ c job, submit_turn s c job ≠ Panic).
Proof.
  intros Hrun. pose proof (sched_run_wf _ _ Hrun (scheduler_new_wf threads)) as Hwf. split_and!.
  - apply Hwf.
  - intros c. destruct (assign_wf s c Hwf) as (s' & w & E & _ & Hw & Hm). eauto.
  - intros c to. by destruct (migrate_wf s c to Hwf) as (? & ? & -> & _).
  - intros c. by destruct (remove_wf s c Hwf) as (? & -> & _).
  - intros c job. by destruct (submit_turn_wf s c job Hwf) as (? & ? & -> & _).
Qed.
End Scheduling.

