(* ===== verification/SmallVecs.v ===== *)
(** * SmallVecs: the inline vector
    (src/crates/rusty-js-smallvec/src/lib.rs)

    A vector that keeps up to [N] elements in an inline buffer of optional cells
    and moves to the heap when the next one comes.  Reading an empty cell below the
    length is an [expect] that panics; the theorem is that it never happens and
    that the vector is a list. *)

From S2P Require Import Prelude.

Inductive SmallVec (T : Type) :=
| Inline (buf : list (option T)) (len : nat)
| OnHeap (v : list T).
Arguments Inline {T}.
Arguments OnHeap {T}.

(** The consuming iterator. *)
Inductive SmallVecIntoIter (T : Type) :=
| IntoInline (buf : list (option T)) (idx len : nat)
| IntoHeap (v : list T).
Arguments IntoInline {T}.
Arguments IntoHeap {T}.

Section SmallVec.
Context {T : Type} (N : nat).
Implicit Types (sv : SmallVec T) (x : T) (buf : list (option T)).

Definition SmallVec_new : SmallVec T := Inline (replicate N None) 0.

Definition SmallVec_len sv : nat := match sv with Inline _ len => len | OnHeap v => length v end.
Definition SmallVec_is_empty sv : bool := bool_decide (SmallVec_len sv = 0).

(** A cell that must be full: [expect]. *)
Definition full_cell (o : option (option T)) : outcome T :=
  match o with Some (Some x) => Ret x | _ => Panic end.

(** The first [len] cells of the buffer, in order. *)
Fixpoint read_cells buf (len : nat) : outcome (list T) :=
  match len, buf with
  | O, _ => Ret []
  | S len', o :: buf' => (x <-! full_cell (Some o); xs <-! read_cells buf' len'; Ret (x :: xs))%cruft
  | S _, [] => Panic
  end.

Definition SmallVec_push sv x : outcome (SmallVec T) :=
  match sv with
  | Inline buf len =>
      if bool_decide (len < N) then
        if bool_decide (len < length buf) then Ret (Inline (<[len := Some x]> buf) (S len)) else Panic
      else (v <-! read_cells buf len; Ret (OnHeap (v ++ [x])))%cruft
  | OnHeap v => Ret (OnHeap (v ++ [x]))
  end.

(** What iterating over a reference yields. *)
Definition SmallVec_iter sv : outcome (list T) :=
  match sv with Inline buf len => read_cells buf len | OnHeap v => Ret v end.

Definition SmallVec_into_iter sv : SmallVecIntoIter T :=
  match sv with Inline buf len => IntoInline buf 0 len | OnHeap v => IntoHeap v end.

Definition IntoIter_next (it : SmallVecIntoIter T) : outcome (option T * SmallVecIntoIter T) :=
  match it with
  | IntoInline buf idx len =>
      if bool_decide (idx < len) then
        (x <-! full_cell (buf !! idx); Ret (Some x, IntoInline (<[idx := None]> buf) (S idx) len))%cruft
      else Ret (None, it)
  | IntoHeap [] => Ret (None, it)
  | IntoHeap (x :: v) => Ret (Some x, IntoHeap v)
  end.

(** A [for] loop over the iterator, on fuel. *)
Fixpoint collect_iter (fuel : nat) (it : SmallVecIntoIter T) : outcome (list T) :=
  match fuel with
  | O => Ret []
  | S fuel' =>
      (r <-! IntoIter_next it;
       match r.1 with
       | None => Ret []
       | Some x => xs <-! collect_iter fuel' r.2; Ret (x :: xs)
       end)%cruft
  end.

Definition SmallVec_into_list sv : outcome (list T) :=
  collect_iter (S (SmallVec_len sv)) (SmallVec_into_iter sv).

Fixpoint push_all sv (xs : list T) : outcome (SmallVec T) :=
  match xs with [] => Ret sv | x :: xs' => (sv' <-! SmallVec_push sv x; push_all sv' xs')%cruft end.

(** ** The vector is a list *)

(** [sv] holds the elements [xs]: inline while they fit, on the heap afterwards. *)
Definition holds sv (xs : list T) : Prop :=
  match sv with
  | Inline buf len => length xs ≤ N ∧ len = length xs ∧ buf = (Some <$> xs) ++ replicate (N - length xs) None
  | OnHeap v => N < length xs ∧ v = xs
  end.

Lemma read_cells_full (xs : list T) buf : read_cells ((Some <$> xs) ++ buf) (length xs) = Ret xs.
Proof.
  induction xs as [|x xs IH]; [by destruct buf|].
  rewrite fmap_cons. cbn [app length read_cells full_cell outcome_bind]. by rewrite IH.
Qed.

Lemma new_holds : holds SmallVec_new [].
Proof. simpl. rewrite Nat.sub_0_r. split_and!; [lia|done..]. Qed.

Lemma push_holds sv xs x : holds sv xs → ∃ sv', SmallVec_push sv x = Ret sv' ∧ holds sv' (xs ++ [x]).
Proof.
  destruct sv as [buf len|v]; simpl.
  - intros (Hle & -> & ->). case_bool_decide as Hlt.
    + rewrite bool_decide_eq_true_2 by (rewrite length_app, length_fmap, length_replicate; lia).
      eexists. split; [done|]. simpl. rewrite length_app, fmap_app. simpl. split_and!; [lia..|].
      replace (N - length xs) with (S (N - (length xs + 1))) by lia. simpl.
      rewrite insert_app_r_alt by (by rewrite length_fmap). rewrite length_fmap, Nat.sub_diag. simpl. by rewrite <-app_assoc.
    + rewrite read_cells_full. simpl. eexists. split; [done|]. simpl. rewrite length_app. simpl. split; [lia|done].
  - intros (Hle & ->). eexists. split; [done|]. simpl. rewrite length_app. simpl. split; [lia|done].
Qed.

Lemma push_all_holds xs ys sv : holds sv ys → ∃ sv', push_all sv xs = Ret sv' ∧ holds sv' (ys ++ xs).
Proof.
  revert ys sv. induction xs as [|x xs IH]; intros ys sv Hh; simpl; [exists sv; by rewrite app_nil_r|].
  destruct (push_holds sv ys x Hh) as (sv1 & -> & Hh1). destruct (IH _ _ Hh1) as (sv' & E & Hh').
  exists sv'. split; [exact E|]. by rewrite <-app_assoc in Hh'.
Qed.

Lemma iter_holds sv xs : holds sv xs → SmallVec_iter sv = Ret xs ∧ SmallVec_len sv = length xs.
Proof. destruct sv as [buf len|v]; simpl; [intros (_ & -> & ->); by rewrite read_cells_full|by intros (_ & ->)]. Qed.

Lemma collect_inline (ys xs : list T) buf fuel :
  length xs < fuel →
  collect_iter fuel (IntoInline (replicate (length ys) None ++ (Some <$> xs) ++ buf) (length ys) (length ys + length xs)) = Ret xs.
Proof.
  revert ys fuel. induction xs as [|x xs IH]; intros ys fuel Hf; (destruct fuel as [|fuel]; [simpl in Hf; lia|]); simpl.
  - by rewrite bool_decide_eq_false_2 by lia.
  - rewrite bool_decide_eq_true_2 by lia.
    rewrite lookup_app_r, length_replicate, Nat.sub_diag by (by rewrite length_replicate). simpl.
    rewrite insert_app_r_alt, length_replicate, Nat.sub_diag by (by rewrite length_replicate). simpl.
    assert (∀ l : list (option T), replicate (length ys) None ++ None :: l = replicate (length (ys ++ [x])) None ++ l) as ->.
    + intros l. rewrite length_app, replicate_add. simpl. by rewrite <-app_assoc.
    + replace (S (length ys)) with (length (ys ++ [x])) by (rewrite length_app; simpl; lia).
      replace (length ys + S (length xs)) with (length (ys ++ [x]) + length xs) by (rewrite length_app; simpl; lia).
      rewrite IH by (simpl in Hf; lia). done.
Qed.

Lemma into_list_holds sv xs : holds sv xs → SmallVec_into_list sv = Ret xs.
Proof.
  intros Hh. unfold SmallVec_into_list. rewrite (proj2 (iter_holds sv xs Hh)). destruct sv as [buf len|v]; simpl in Hh.
  - destruct Hh as (_ & -> & ->). apply (collect_inline [] xs (replicate (N - length xs) None)). lia.
  - destruct Hh as (_ & ->). unfold SmallVec_into_iter. clear.
    assert (∀ l fuel, length l < fuel → collect_iter fuel (IntoHeap l) = Ret l) as Hc; [|apply Hc; lia].
    induction l as [|x l IH]; intros [|fuel] Hf; simpl in Hf; try lia; simpl; [done|]. by rewrite IH by lia.
Qed.

(** The inline vector is a vector.  Pushing any elements never panics; reading
    them back, by reference or by consuming the vector, gives them all in order;
    they are inline exactly while they fit. *)
Lemma small_vec_is_vec xs :
  ∃ sv, push_all SmallVec_new xs = Ret sv ∧ SmallVec_iter sv = Ret xs ∧ SmallVec_into_list sv = Ret xs ∧
    SmallVec_len sv = length xs ∧ ((∃ buf, sv = Inline buf (length xs)) ↔ length xs ≤ N).
Proof.
  destruct (push_all_holds xs [] SmallVec_new new_holds) as (sv & E & Hh). simpl in Hh. exists sv.
  destruct (iter_holds sv xs Hh). split_and!; [done|done|by apply into_list_holds|done|].
  destruct sv as [buf len|v]; simpl in Hh; [destruct Hh as (? & -> & _); split; eauto|].
  split; [by intros [? ?]|lia].
Qed.
End SmallVec.
