(* ===== verification/Shapes.v ===== *)
(** * Shapes: hidden classes and their transitions
    (src/crates/rusty-js-shapes/src/shape.rs)

    A shape maps property names to slots and remembers, by weak references, the
    shapes that adding one more property leads to.  Both maps are inline vectors
    while they are small and hash maps afterwards.  Shapes live in a store indexed
    by identities that are never reused: an [Rc] is an identity in the store, a
    [Weak] upgrades iff its identity still is.  A panic is an [expect] of the
    inline vector or a dead [self], and the theorems exclude both. *)

From S2P Require Import Prelude SmallVecs.

Definition SLOTS_INLINE_CAP : nat := 8.
Definition TRANSITIONS_INLINE_CAP : nat := 4.

Definition wrap32 (z : Z) : Z := z `mod` 4294967296.

(** ** Slot maps *)

Inductive SmallOrLargeSlotMap :=
| SlotsSmall (v : SmallVec (string * Z))
| SlotsLarge (v : list (string * Z)) (h : gmap string Z).

Definition SlotMap_new : SmallOrLargeSlotMap := SlotsSmall (SmallVec_new SLOTS_INLINE_CAP).

Definition SlotMap_len (m : SmallOrLargeSlotMap) : nat :=
  match m with SlotsSmall v => SmallVec_len v | SlotsLarge v _ => length v end.

(** [iter().find(|(n, _)| n == name)]. *)
Definition find_name {A} (name : string) (l : list (string * A)) : option A :=
  (λ p : nat * (string * A), p.2.2) <$> list_find (λ e : string * A, e.1 = name) l.

Definition SlotMap_get (m : SmallOrLargeSlotMap) (name : string) : outcome (option Z) :=
  match m with
  | SlotsSmall v => (es <-! SmallVec_iter v; Ret (find_name name es))%cruft
  | SlotsLarge _ h => Ret (h !! name)
  end.

Definition SlotMap_iter (m : SmallOrLargeSlotMap) : outcome (list (string * Z)) :=
  match m with SlotsSmall v => SmallVec_iter v | SlotsLarge v _ => Ret v end.

Definition SlotMap_push (m : SmallOrLargeSlotMap) (name : string) : outcome (SmallOrLargeSlotMap * Z) :=
  let new_slot := wrap32 (Z.of_nat (SlotMap_len m)) in
  match m with
  | SlotsSmall v =>
      if bool_decide (SmallVec_len v < SLOTS_INLINE_CAP)
      then (v' <-! SmallVec_push SLOTS_INLINE_CAP v (name, new_slot); Ret (SlotsSmall v', new_slot))%cruft
      else
        (old <-! SmallVec_into_list v;
         let map := <[name := new_slot]> (foldl (λ h (e : string * Z), <[e.1 := e.2]> h) ∅ old) in
         Ret (SlotsLarge (old ++ [(name, new_slot)]) map, new_slot))%cruft
  | SlotsLarge v h => Ret (SlotsLarge (v ++ [(name, new_slot)]) (<[name := new_slot]> h), new_slot)
  end.

(** ** Transition maps: names to weak references *)

Inductive SmallOrLargeTransitionMap :=
| TransSmall (v : SmallVec (string * nat))
| TransLarge (h : gmap string nat) (reap_at : nat).

Definition TransitionMap_new : SmallOrLargeTransitionMap := TransSmall (SmallVec_new TRANSITIONS_INLINE_CAP).

Definition TransitionMap_len (m : SmallOrLargeTransitionMap) : nat :=
  match m with TransSmall v => SmallVec_len v | TransLarge h _ => size h end.

Record Shape := MkShape {
  slots : SmallOrLargeSlotMap;
  transitions : SmallOrLargeTransitionMap;
  parent : option nat;
  slot_count : Z;
}.

Record ShapeStore := MkStore { shapes : gmap nat Shape; next_id : nat }.

(** [Weak::strong_count() > 0]. *)
Definition is_alive (st : ShapeStore) (id : nat) : bool := bool_decide (is_Some (shapes st !! id)).

(** [Weak::upgrade]. *)
Definition upgrade (st : ShapeStore) (id : nat) : option nat := if is_alive st id then Some id else None.

Definition TransitionMap_get (st : ShapeStore) (m : SmallOrLargeTransitionMap) (name : string) :
    outcome (option nat) :=
  match m with
  | TransSmall v => (es <-! SmallVec_iter v; Ret (find_name name es ≫= upgrade st))%cruft
  | TransLarge h _ => Ret (h !! name ≫= upgrade st)
  end.

Definition TransitionMap_insert (st : ShapeStore) (m : SmallOrLargeTransitionMap) (name : string) (weak : nat) :
    outcome SmallOrLargeTransitionMap :=
  match m with
  | TransSmall v =>
      (es <-! SmallVec_iter v;
       let kept := filter (λ e : string * nat, e.1 ≠ name ∧ is_alive st e.2 = true) es in
       if bool_decide (length kept < TRANSITIONS_INLINE_CAP)
       then nv <-! push_all TRANSITIONS_INLINE_CAP (SmallVec_new TRANSITIONS_INLINE_CAP) (kept ++ [(name, weak)]);
            Ret (TransSmall nv)
       else Ret (TransLarge (<[name := weak]> (foldl (λ h (e : string * nat), <[e.1 := e.2]> h) ∅ kept)) 64))%cruft
  | TransLarge h reap_at =>
      let '(h, reap_at) :=
        if bool_decide (reap_at ≤ size h)
        then let h' := filter (λ e : string * nat, is_alive st e.2 = true) h in (h', size h' * 2 + 64)
        else (h, reap_at) in
      Ret (TransLarge (<[name := weak]> h) reap_at)
  end.

(** ** Shapes *)

(** The thread's root shape, at identity 0. *)
Definition root_shape : Shape := MkShape SlotMap_new TransitionMap_new None 0.
Definition ShapeStore_new : ShapeStore := MkStore {[0 := root_shape]} 1.

Definition set_transitions (m : SmallOrLargeTransitionMap) (sh : Shape) : Shape :=
  MkShape (slots sh) m (parent sh) (slot_count sh).

Definition transition_to (st : ShapeStore) (self : nat) (name : string) : outcome (ShapeStore * nat) :=
  (sh <-! unwrap (shapes st !! self);
   existing <-! TransitionMap_get st (transitions sh) name;
   match existing with
   | Some c => Ret (st, c)
   | None =>
       child_slots <-! SlotMap_push (slots sh) name;
       let child := MkShape child_slots.1 TransitionMap_new (Some self) (wrap32 (slot_count sh + 1)) in
       let id := next_id st in
       let st1 := MkStore (<[id := child]> (shapes st)) (S id) in
       tm <-! TransitionMap_insert st1 (transitions sh) name id;
       Ret (MkStore (<[self := set_transitions tm sh]> (shapes st1)) (S id), id)
   end)%cruft.

Definition slot_of (sh : Shape) (name : string) : outcome (option Z) := SlotMap_get (slots sh) name.
Definition iter_slots (sh : Shape) : outcome (list (string * Z)) := SlotMap_iter (slots sh).
Definition transition_count (sh : Shape) : nat := TransitionMap_len (transitions sh).

(** The last strong reference to [id] goes. *)
Definition drop_shape (st : ShapeStore) (id : nat) : ShapeStore := MkStore (delete id (shapes st)) (next_id st).

(** ** Transitions are deterministic and lay properties out in order *)

(** ** Looking names up *)

Lemma find_name_nil {A} name : find_name name ([] : list (string * A)) = None.
Proof. done. Qed.

Lemma find_name_cons {A} name (e : string * A) l :
  find_name name (e :: l) = if decide (e.1 = name) then Some e.2 else find_name name l.
Proof.
  unfold find_name. simpl. destruct (decide (e.1 = name)); [done|].
  destruct (list_find _ l) as [[]|]; done.
Qed.

Lemma find_name_app {A} name (l1 l2 : list (string * A)) :
  find_name name (l1 ++ l2) = match find_name name l1 with Some a => Some a | None => find_name name l2 end.
Proof. induction l1 as [|e l1 IH]; [done|]. simpl. rewrite !find_name_cons, IH. by case_decide. Qed.

Lemma find_name_None {A} name (l : list (string * A)) : find_name name l = None ↔ name ∉ l.*1.
Proof.
  induction l as [|e l IH]; [set_solver|]. rewrite find_name_cons, fmap_cons, not_elem_of_cons.
  case_decide as E; [subst; naive_solver|]. rewrite IH. naive_solver.
Qed.

(** Inserting the pairs of a list with distinct names, one after the other. *)
Lemma fold_insert_lookup {A} (l : list (string * A)) name :
  NoDup l.*1 → foldl (λ h (e : string * A), <[e.1 := e.2]> h) (∅ : gmap string A) l !! name = find_name name l.
Proof.
  induction l as [|e l IH] using rev_ind; intros Hnd; [done|]. rewrite fmap_app, NoDup_app in Hnd.
  destruct Hnd as (H1 & H2 & _). rewrite foldl_app, find_name_app. simpl.
  rewrite find_name_cons, find_name_nil. destruct (decide (e.1 = name)) as [<-|Hne].
  - rewrite lookup_insert_eq. destruct (find_name e.1 l) eqn:E; [|done]. exfalso.
    assert (e.1 ∈ l.*1) as Hin.
    { destruct (decide (e.1 ∈ l.*1)) as [|Hn]; [done|]. apply find_name_None in Hn. congruence. }
    apply (H2 e.1 Hin). set_solver.
  - rewrite lookup_insert_ne, IH by done. by destruct (find_name name l).
Qed.

(** ** Slot maps *)

(** Property names with the slots they are given: their rank. *)
Definition numbered (ns : list string) : list (string * Z) := imap (λ i n, (n, Z.of_nat i)) ns.

Lemma numbered_snoc ns n : numbered (ns ++ [n]) = numbered ns ++ [(n, Z.of_nat (length ns))].
Proof. unfold numbered. rewrite imap_app. simpl. by rewrite Nat.add_0_r. Qed.

Lemma numbered_names ns : (numbered ns).*1 = ns.
Proof. unfold numbered. rewrite fmap_imap. apply list_eq. intros i. rewrite list_lookup_imap. simpl. by destruct (ns !! i). Qed.

Lemma numbered_length ns : length (numbered ns) = length ns.
Proof. apply length_imap. Qed.

Definition slots_hold (m : SmallOrLargeSlotMap) (ns : list string) : Prop :=
  match m with
  | SlotsSmall v => holds SLOTS_INLINE_CAP v (numbered ns) ∧ length ns ≤ SLOTS_INLINE_CAP
  | SlotsLarge v h => v = numbered ns ∧ ∀ n, h !! n = find_name n (numbered ns)
  end.

Lemma slots_hold_reads m ns :
  slots_hold m ns → SlotMap_iter m = Ret (numbered ns) ∧ SlotMap_len m = length ns ∧
    ∀ n, SlotMap_get m n = Ret (find_name n (numbered ns)).
Proof.
  destruct m as [v|v h]; simpl.
  - intros [Hh _]. destruct (iter_holds _ v _ Hh) as [E1 E2]. rewrite E1, E2, numbered_length. done.
  - intros [-> Hh]. rewrite numbered_length. split_and!; [done..|]. intros n. by rewrite Hh.
Qed.

Lemma slot_push_hold m ns name :
  slots_hold m ns → NoDup ns → name ∉ ns → (Z.of_nat (length ns) < 4294967296)%Z →
  ∃ m', SlotMap_push m name = Ret (m', Z.of_nat (length ns)) ∧ slots_hold m' (ns ++ [name]).
Proof.
  intros Hm Hnd Hname Hlt. destruct (slots_hold_reads m ns Hm) as (_ & Hlen & _).
  unfold SlotMap_push. rewrite Hlen. unfold wrap32. rewrite Z.mod_small by lia.
  assert (∀ h : gmap string Z, (∀ n, h !! n = find_name n (numbered ns)) →
            ∀ n, <[name := Z.of_nat (length ns)]> h !! n = find_name n (numbered (ns ++ [name]))) as Hins.
  { intros h Hh n. rewrite numbered_snoc, find_name_app, find_name_cons, find_name_nil. simpl.
    destruct (decide (name = n)) as [<-|Hne].
    - rewrite lookup_insert_eq. rewrite (proj2 (find_name_None name (numbered ns))); [done|]. by rewrite numbered_names.
    - rewrite lookup_insert_ne, Hh by done. by destruct (find_name n (numbered ns)). }
  destruct m as [v|v h]; simpl in Hm.
  - destruct Hm as [Hh Hle]. destruct (iter_holds _ v _ Hh) as [_ Ev]. rewrite Ev, numbered_length.
    case_bool_decide as Hcap.
    + destruct (push_holds _ v _ (name, Z.of_nat (length ns)) Hh) as (v' & -> & Hh'). simpl. eexists. split; [done|].
      simpl. rewrite numbered_snoc, length_app. simpl. split; [done|]. unfold SLOTS_INLINE_CAP in *. lia.
    + rewrite (into_list_holds _ v _ Hh). simpl. eexists. split; [done|]. simpl. split; [by rewrite numbered_snoc|].
      apply Hins. intros n. apply fold_insert_lookup. by rewrite numbered_names.
  - destruct Hm as [-> Hh]. eexists. split; [done|]. simpl. split; [by rewrite numbered_snoc|]. by apply Hins.
Qed.

(** ** Transition maps *)

Definition trans_hold (m : SmallOrLargeTransitionMap) (g : string → option nat) : Prop :=
  match m with
  | TransSmall v => ∃ es, holds TRANSITIONS_INLINE_CAP v es ∧ NoDup es.*1 ∧ ∀ n, g n = find_name n es
  | TransLarge h _ => ∀ n, g n = h !! n
  end.

Lemma trans_get_hold st m g n : trans_hold m g → TransitionMap_get st m n = Ret (g n ≫= upgrade st).
Proof.
  destruct m as [v|h r]; simpl.
  - intros (es & Hh & _ & Hg). rewrite (proj1 (iter_holds _ v _ Hh)). simpl. by rewrite Hg.
  - intros Hg. by rewrite Hg.
Qed.

(** A transition map forgets only dead shapes. *)
Definition forgets (st : ShapeStore) (g g' : string → option nat) (name : string) : Prop :=
  ∀ n, n ≠ name → g' n = g n ∨ g' n = None ∧ ∃ id, g n = Some id ∧ is_alive st id = false.

Lemma find_name_filter st name (es : list (string * nat)) n :
  NoDup es.*1 → n ≠ name →
  let kept := filter (λ e : string * nat, e.1 ≠ name ∧ is_alive st e.2 = true) es in
  find_name n kept = find_name n es ∨ find_name n kept = None ∧ ∃ id, find_name n es = Some id ∧ is_alive st id = false.
Proof.
  intros Hnd Hn. cbv zeta. induction es as [|e es IH]; [by left|]. rewrite fmap_cons, NoDup_cons in Hnd.
  destruct Hnd as [Hni Hnd]. specialize (IH Hnd). rewrite (find_name_cons n e es).
  destruct (decide (e.1 = n)) as [<-|Hne].
  - destruct (is_alive st e.2) eqn:Ea.
    + rewrite filter_cons_True by done. left. by rewrite find_name_cons, decide_True.
    + rewrite filter_cons_False by (intros [_ ?]; congruence). right. split; [|eauto]. apply find_name_None.
      intros ([n' c] & E & [_ Hin]%list_elem_of_filter)%list_elem_of_fmap. apply Hni, list_elem_of_fmap. eauto.
  - rewrite filter_cons. case_decide; [rewrite find_name_cons, decide_False by done|]; exact IH.
Qed.

Lemma filter_names_nodup (P : string * nat → Prop) `{∀ x, Decision (P x)} (es : list (string * nat)) :
  NoDup es.*1 → NoDup (filter P es).*1.
Proof.
  intros Hnd. eapply sublist_NoDup; [exact Hnd|]. clear. induction es as [|e es IH]; [done|].
  rewrite filter_cons. case_decide; simpl; by constructor.
Qed.

Lemma trans_insert_hold st m g name id :
  trans_hold m g → ∃ m' g', TransitionMap_insert st m name id = Ret m' ∧ trans_hold m' g' ∧
    g' name = Some id ∧ forgets st g g' name.
Proof.
  destruct m as [v|h r]; simpl.
  - intros (es & Hh & Hnd & Hg). rewrite (proj1 (iter_holds _ v _ Hh)). simpl.
    set (kept := filter _ es). assert (NoDup kept.*1) as Hk by by apply filter_names_nodup.
    assert (name ∉ kept.*1) as Hname.
    { intros ([n c] & E & [[Hne _] _]%list_elem_of_filter)%list_elem_of_fmap. by simplify_eq/=. }
    assert (forgets st g (λ n, find_name n kept) name) as Hf.
    { intros n Hn. rewrite !Hg. by apply find_name_filter. }
    case_bool_decide as Hc.
    + destruct (push_all_holds TRANSITIONS_INLINE_CAP (kept ++ [(name, id)]) [] _ (new_holds (T:=string * nat) TRANSITIONS_INLINE_CAP)) as (sv & E & Hsv). rewrite E. simpl.
      exists (TransSmall sv), (λ n, find_name n (kept ++ [(name, id)])). split_and!; [done| | |].
      * exists (kept ++ [(name, id)]). split_and!; [done| |done]. rewrite fmap_app. apply NoDup_app.
        split_and!; [done|set_solver|apply NoDup_singleton].
      * rewrite find_name_app, (proj2 (find_name_None name kept) Hname), find_name_cons. by rewrite decide_True.
      * intros n Hn. rewrite find_name_app, find_name_cons, find_name_nil. simpl. rewrite decide_False by done.
        specialize (Hf n Hn). by destruct (find_name n kept).
    + eexists _, (λ n, if decide (name = n) then Some id else find_name n kept). split; [done|]. split_and!.
      * simpl. intros n. case_decide as E; [subst; by rewrite lookup_insert_eq|]. rewrite lookup_insert_ne by done.
        by rewrite fold_insert_lookup.
      * by rewrite decide_True.
      * intros n Hn. rewrite decide_False by done. by apply Hf.
  - intros Hg. set (h' := if bool_decide (r ≤ size h) then filter (λ e : string * nat, is_alive st e.2 = true) h else h).
    assert (forgets st g (λ n, h' !! n) name) as Hf.
    { intros n Hn. rewrite Hg. unfold h'. case_bool_decide; [|by left]. destruct (h !! n) as [c|] eqn:En.
      - destruct (is_alive st c) eqn:Ea; [left; by apply map_lookup_filter_Some_2|right].
        split; [|eauto]. apply map_lookup_filter_None. right. intros x. rewrite En. intros [= <-]. simpl. congruence.
      - left. apply map_lookup_filter_None. by left. }
    exists (TransLarge (<[name := id]> h') (if bool_decide (r ≤ size h) then size h' * 2 + 64 else r)),
      (λ n, <[name := id]> h' !! n). split_and!; [|done|by rewrite lookup_insert_eq|].
    + unfold h'. by case_bool_decide.
    + intros n Hn. rewrite lookup_insert_ne by done. by apply Hf.
Qed.

(** ** The store *)

(** What a shape of the store promises: its slots hold distinct names in order, and
    each of its transitions that is still alive leads to a child with one more. *)
Definition shape_ok (st : ShapeStore) (id : nat) (sh : Shape) (ns : list string) (g : string → option nat) : Prop :=
  slots_hold (slots sh) ns ∧ NoDup ns ∧ trans_hold (transitions sh) g ∧
  ∀ n c, g n = Some c → c < next_id st ∧ n ∉ ns ∧
    ∀ ch, shapes st !! c = Some ch → parent ch = Some id ∧ slots_hold (slots ch) (ns ++ [n]).

Record store_wf (st : ShapeStore) : Prop := {
  sw_ids : ∀ id sh, shapes st !! id = Some sh → id < next_id st;
  sw_shapes : ∀ id sh, shapes st !! id = Some sh → ∃ ns g, shape_ok st id sh ns g;
}.

Lemma new_trans_hold : trans_hold TransitionMap_new (λ _, None).
Proof. exists []. split_and!; [apply new_holds|constructor|done]. Qed.

Lemma new_slots_hold : slots_hold SlotMap_new [].
Proof. split; [apply new_holds|simpl; lia]. Qed.

Lemma store_new_wf : store_wf ShapeStore_new.
Proof.
  split; simpl; intros id sh [<- <-]%lookup_singleton_Some; [lia|].
  exists [], (λ _, None). split_and!; [apply new_slots_hold|constructor|apply new_trans_hold|done].
Qed.

(** Dropping a shape breaks nothing: references to it are weak. *)
Lemma drop_shape_wf st id : store_wf st → store_wf (drop_shape st id).
Proof.
  intros [Hid Hsh]. split; simpl; intros i sh [_ Hi]%lookup_delete_Some; [eauto|].
  destruct (Hsh i sh Hi) as (ns & g & H1 & H2 & H3 & H4). exists ns, g. split_and!; [done..|].
  intros n c Hc. destruct (H4 n c Hc) as (Hlt & Hn & Hch). split_and!; [done..|].
  intros ch Hd. simpl in Hd. apply lookup_delete_Some in Hd as [_ ?]. eauto.
Qed.

Lemma slots_hold_unique m ns ns' : slots_hold m ns → slots_hold m ns' → ns = ns'.
Proof.
  intros (E1 & _)%slots_hold_reads (E2 & _)%slots_hold_reads. rewrite E1 in E2. injection E2 as E2.
  by rewrite <-(numbered_names ns), <-(numbered_names ns'), E2.
Qed.

(** The child a transition leads to. *)
Definition extends (s : nat) (ns : list string) (name : string) (ch : Shape) : Prop :=
  parent ch = Some s ∧ slots_hold (slots ch) (ns ++ [name]).

Lemma trans_get_Some st s sh ns g name :
  shape_ok st s sh ns g →
  TransitionMap_get st (transitions sh) name = Ret (g name ≫= upgrade st) ∧
  ∀ c, g name ≫= upgrade st = Some c → ∃ ch, shapes st !! c = Some ch ∧ extends s ns name ch.
Proof.
  intros (_ & _ & Ht & Hc). split; [by apply trans_get_hold|]. intros c.
  destruct (g name) as [c0|] eqn:E; [|done]. simpl. unfold upgrade, is_alive.
  case_bool_decide as Hs; [|done]. intros [= <-]. destruct Hs as [ch Hch]. exists ch. split; [done|].
  by apply (Hc name c0 E).
Qed.

(** A new child is recorded: the old shapes keep their slots, the invariant holds. *)
Lemma add_child_wf st s sh ns g name cm tm g' :
  store_wf st → shapes st !! s = Some sh → shape_ok st s sh ns g → slots_hold cm (ns ++ [name]) → name ∉ ns →
  let id := next_id st in
  let child := MkShape cm TransitionMap_new (Some s) (wrap32 (slot_count sh + 1)) in
  let st1 := MkStore (<[id := child]> (shapes st)) (S id) in
  trans_hold tm g' → g' name = Some id → forgets st1 g g' name →
  store_wf (MkStore (<[s := set_transitions tm sh]> (shapes st1)) (S id)).
Proof.
  intros Hwf Hs Hok Hcm Hname id child st1 Htm Hgn Hforg. destruct Hwf as [Hid Hsh].
  assert (s < id) as Hlt by (by eapply Hid). destruct Hok as (Hsl & Hnd & _ & Hg).
  assert (NoDup (ns ++ [name])) as Hnd'.
  { apply NoDup_app. split_and!; [done|set_solver|apply NoDup_singleton]. }
  set (st2 := MkStore _ _).
  assert (∀ i x, shapes st2 !! i = Some x →
    i = s ∧ x = set_transitions tm sh ∨ i = id ∧ x = child ∨ i ≠ s ∧ i ≠ id ∧ shapes st !! i = Some x) as Hcases.
  { intros i x. simpl. destruct (decide (i = s)) as [->|]; [rewrite lookup_insert_eq; naive_solver|].
    rewrite lookup_insert_ne by done. destruct (decide (i = id)) as [->|]; [rewrite lookup_insert_eq; naive_solver|].
    rewrite lookup_insert_ne by done. naive_solver. }
  (* what an old weak reference leads to is still the child it was *)
  assert (∀ p ns0 n c, c < id →
    (∀ ch, shapes st !! c = Some ch → parent ch = Some p ∧ slots_hold (slots ch) (ns0 ++ [n])) →
    ∀ ch, shapes st2 !! c = Some ch → parent ch = Some p ∧ slots_hold (slots ch) (ns0 ++ [n])) as Hold.
  { intros p ns0 n c Hc Hold ch Hch. apply Hcases in Hch as [[-> ->]|[[-> ->]|(_ & _ & Hch)]]; [apply (Hold sh Hs)|lia|eauto]. }
  split; simpl.
  - intros i x Hx. apply Hcases in Hx as [[-> ->]|[[-> ->]|(_ & _ & Hx)]]; [lia..|]. specialize (Hid i x Hx). lia.
  - intros i x Hx. apply Hcases in Hx as [[-> ->]|[[-> ->]|(Hi1 & Hi2 & Hx)]].
    + exists ns, g'. split_and!; [done..|]. intros n c Hc. destruct (decide (n = name)) as [->|Hn].
      * rewrite Hgn in Hc. injection Hc as <-. split_and!; [simpl; lia|done|]. intros ch Hch.
        apply Hcases in Hch as [[E _]|[[_ ->]|(_ & ? & _)]]; [lia|done|done].
      * assert (g n = Some c) as Hgc by (destruct (Hforg n Hn) as [E|[E _]]; congruence).
        destruct (Hg n c Hgc) as (Hlt' & Hnn & Hch). split_and!; [simpl; lia|done|]. by apply Hold.
    + exists (ns ++ [name]), (λ _, None). split_and!; [done..|apply new_trans_hold|done].
    + destruct (Hsh i x Hx) as (ns0 & g0 & H1 & H2 & H3 & H4). exists ns0, g0. split_and!; [done..|].
      intros n c Hc. destruct (H4 n c Hc) as (Hlt' & Hnn & Hch). split_and!; [simpl; lia|done|]. by apply Hold.
Qed.

(** Reading a child's slots: the parent's names keep their slots, the new one is
    last. *)
Lemma extends_reads s sh ns name ch :
  slots_hold (slots sh) ns → name ∉ ns → extends s ns name ch →
  iter_slots ch = Ret (numbered ns ++ [(name, Z.of_nat (length (numbered ns)))]) ∧
  slot_of ch name = Ret (Some (Z.of_nat (length (numbered ns)))) ∧ (∀ n, n ≠ name → slot_of ch n = slot_of sh n).
Proof.
  intros Hsl Hname [_ Hch]. destruct (slots_hold_reads _ _ Hsl) as (_ & _ & Hget).
  destruct (slots_hold_reads _ _ Hch) as (Ei & _ & Eg). unfold iter_slots, slot_of.
  rewrite numbered_length. rewrite Ei, numbered_snoc. split; [done|].
  assert (∀ n, SlotMap_get (slots ch) n = Ret (match find_name n (numbered ns) with Some a => Some a
      | None => if decide (name = n) then Some (Z.of_nat (length ns)) else None end)) as Eg'.
  { intros n. rewrite Eg, numbered_snoc, find_name_app, find_name_cons, find_name_nil. done. }
  split.
  - rewrite Eg', (proj2 (find_name_None name (numbered ns))) by (by rewrite numbered_names). by rewrite decide_True.
  - intros n Hn. rewrite Eg', Hget. rewrite decide_False by done. by destruct (find_name n (numbered ns)).
Qed.

(** Shape transitions.  Adding a property the shape does not have gives,
    without a panic, a child whose slots are the shape's own followed by the new
    name at the next index: every old name keeps its slot.  The transition is
    deterministic, since asking again returns the same child and creates nothing;
    no other shape's slots change; and the store stays well formed, also when
    shapes are dropped. *)
Lemma shape_transition st s sh name :
  store_wf st → shapes st !! s = Some sh → slot_of sh name = Ret None →
  (∀ l, iter_slots sh = Ret l → (Z.of_nat (length l) < 4294967296)%Z) →
  ∃ st' c ch l, transition_to st s name = Ret (st', c) ∧ store_wf st' ∧ shapes st' !! c = Some ch ∧
    iter_slots sh = Ret l ∧ iter_slots ch = Ret (l ++ [(name, Z.of_nat (length l))]) ∧ parent ch = Some s ∧
    slot_of ch name = Ret (Some (Z.of_nat (length l))) ∧
    (∀ n, n ≠ name → slot_of ch n = slot_of sh n) ∧
    transition_to st' s name = Ret (st', c) ∧
    (∀ i x, shapes st !! i = Some x → ∃ x', shapes st' !! i = Some x' ∧ slots x' = slots x ∧ parent x' = parent x) ∧
    (∀ i, store_wf (drop_shape st' i)).
Proof.
  intros Hwf Hs Hfresh Hlen. destruct (sw_shapes st Hwf s sh Hs) as (ns & g & Hok).
  pose proof Hok as (Hsl & Hnd & Ht & Hg). destruct (slots_hold_reads _ _ Hsl) as (Hit & Hl & Hget).
  assert (name ∉ ns) as Hname.
  { unfold slot_of in Hfresh. rewrite Hget in Hfresh. injection Hfresh as Hn. apply find_name_None in Hn.
    by rewrite numbered_names in Hn. }
  assert (Z.of_nat (length ns) < 4294967296)%Z as Hns.
  { rewrite <-(numbered_length ns). by apply Hlen. }
  assert (∀ ch, extends s ns name ch → _) as Hread by (intros ch; exact (extends_reads s sh ns name ch Hsl Hname)).
  destruct (trans_get_Some st s sh ns g name Hok) as [Hget1 Hlive].
  destruct (g name ≫= upgrade st) as [c|] eqn:Eu.
  - destruct (Hlive c eq_refl) as (ch & Hch & Hext). destruct (Hread ch Hext) as (R1 & R2 & R3).
    assert (transition_to st s name = Ret (st, c)) as Etr.
    { unfold transition_to. rewrite Hs. simpl. rewrite Hget1. done. }
    exists st, c, ch, (numbered ns). split_and!; try done; [apply Hext|eauto|intros i; by apply drop_shape_wf].
  - destruct (slot_push_hold (slots sh) ns name Hsl Hnd Hname Hns) as (cm & Epush & Hcm).
    set (id := next_id st). set (child := MkShape cm TransitionMap_new (Some s) (wrap32 (slot_count sh + 1))).
    set (st1 := MkStore (<[id := child]> (shapes st)) (S id)).
    destruct (trans_insert_hold st1 (transitions sh) g name id Ht) as (tm & g' & Eins & Htm & Hgn & Hforg).
    set (st2 := MkStore (<[s := set_transitions tm sh]> (shapes st1)) (S id)).
    assert (store_wf st2) as Hwf2 by by eapply add_child_wf.
    assert (s ≠ id) as Hne by (pose proof (sw_ids st Hwf s sh Hs); unfold id; lia).
    assert (shapes st2 !! id = Some child) as Hc2 by (simpl; rewrite lookup_insert_ne, lookup_insert_eq by done; done).
    assert (shapes st2 !! s = Some (set_transitions tm sh)) as Hs2 by (simpl; by rewrite lookup_insert_eq).
    assert (extends s ns name child) as Hext by done. destruct (Hread child Hext) as (R1 & R2 & R3).
    assert (transition_to st s name = Ret (st2, id)) as Etr.
    { unfold transition_to. rewrite Hs. simpl. rewrite Hget1. simpl. rewrite Epush. simpl.
      fold id. fold child. fold st1. by rewrite Eins. }
    exists st2, id, child, (numbered ns). split_and!; try done.
    + unfold transition_to. rewrite Hs2. simpl.
      rewrite (trans_get_hold st2 tm g' name Htm), Hgn. simpl. unfold upgrade, is_alive.
      rewrite bool_decide_eq_true_2 by (rewrite Hc2; done). done.
    + intros i x Hx. simpl. destruct (decide (i = s)) as [->|].
      * rewrite Hs in Hx. injection Hx as <-. exists (set_transitions tm sh). by rewrite lookup_insert_eq.
      * assert (i ≠ id) by (pose proof (sw_ids st Hwf i x Hx); unfold id; lia).
        exists x. by rewrite !lookup_insert_ne.
    + intros i. by apply drop_shape_wf.
Qed.

