(* ===== verification/Bytes.v ===== *)
(** * Bytes: octets, machine words and the wire codecs' common ground

    A byte is a [Z] below 256, a buffer a list of them.  Positions and lengths that
    the code adds up are [usize] values, kept as [Z] with the behaviour of an
    overflowing addition written out: it panics in a build with overflow checks and
    wraps around in one without ([Profile]).  The class [Prefixed] is what a stream
    reader asks of a codec; the wire formats are its instances. *)

From Stdlib Require String.
From S2P Require Import Prelude Text Utf8.

Local Open Scope Z_scope.

(** ** Machine words *)

Definition is_u8 (b : Z) : Prop := 0 ≤ b < 256.
Definition is_u16 (v : Z) : Prop := 0 ≤ v < 65536.
Definition is_u32 (v : Z) : Prop := 0 ≤ v < 4294967296.
Definition is_u64 (v : Z) : Prop := 0 ≤ v ≤ u64_max.

Definition bytes_ok (l : list Z) : Prop := Forall is_u8 l.

(** [as u8], [as u32]. *)
Definition as_u8 (z : Z) : Z := z `mod` 256.
Definition as_u32 (z : Z) : Z := z `mod` 4294967296.

(** The build profile: whether arithmetic overflow panics (debug builds) or wraps
    (release builds). *)
Class Profile : Type := overflow_checks : bool.

(** [a + b] on [u64] or [usize]. *)
Definition add64 `{Profile} (a b : Z) : outcome Z :=
  if overflow_checks && (u64_max <? a + b) then Panic else Ret (wrap64 (a + b)).

(** [a - b] on [u64] or [usize]. *)
Definition sub64 `{Profile} (a b : Z) : outcome Z :=
  if overflow_checks && (a <? b) then Panic else Ret (wrap64 (a - b)).

(** [usize::checked_add]. *)
Definition checked_add64 (a b : Z) : option Z := if a + b <=? u64_max then Some (a + b) else None.

(** A computation that may panic and may answer [None]: [Option]'s [?]. *)
Definition maybe_bind {A B} (m : outcome (option A)) (k : A → outcome (option B)) : outcome (option B) :=
  match m with Ret (Some a) => k a | Ret None => Ret None | Panic => Panic end.

Notation "x <-!~ m ; k" := (maybe_bind m (λ x, k))
  (at level 100, m at next level, k at level 200, right associativity) : cruft_scope.
(** ** Slices *)

Definition len {A} (l : list A) : Z := Z.of_nat (length l).

(** [l.get(i)]. *)
Definition get_at {A} (l : list A) (i : Z) : option A :=
  if (0 <=? i) && (i <? len l) then l !! Z.to_nat i else None.

(** [&l[a..b]] and [&l[a..]]: they panic when the bounds are out of order or out of
    range. *)
Definition slice {A} (l : list A) (a b : Z) : outcome (list A) :=
  if (a <=? b) && (b <=? len l) then Ret (take (Z.to_nat (b - a)) (drop (Z.to_nat a) l)) else Panic.

Definition slice_from {A} (l : list A) (a : Z) : outcome (list A) := slice l a (len l).

(** [str::as_bytes], [String::from_utf8]. *)
Definition as_bytes (s : string) : list Z := code <$> String.list_ascii_of_string s.

Definition string_of_bytes (l : list Z) : string := String.string_of_list_ascii (byte <$> l).

Definition string_from_utf8 (l : list Z) : option string :=
  if from_utf8 (byte <$> l) then Some (string_of_bytes l) else None.

(** Rust's [str]: a string whose bytes are UTF-8. *)
Definition is_str (s : string) : Prop := utf8 (String.list_ascii_of_string s).

(** ** Big-endian words: [to_be_bytes], [from_be_bytes] *)

Fixpoint to_be_bytes (n : nat) (v : Z) : list Z :=
  match n with
  | O => []
  | S n' => (v / 256 ^ Z.of_nat n') `mod` 256 :: to_be_bytes n' v
  end.

Definition from_be_bytes (l : list Z) : Z := foldl (λ acc b, acc * 256 + b) 0 l.

(** ** Facts about bytes, decided by looking at all of them *)

Definition every_byte : list Z := Z.of_nat <$> seq 0 256.

Lemma every_byte_spec b : is_u8 b ↔ b ∈ every_byte.
Proof.
  unfold every_byte. rewrite list_elem_of_fmap. setoid_rewrite elem_of_seq. split.
  - intros Hb. exists (Z.to_nat b). unfold is_u8 in Hb. lia.
  - intros (n & -> & Hn). unfold is_u8. lia.
Qed.

Lemma byte_decide (P : Z → bool) : forallb P every_byte = true → ∀ b, is_u8 b → P b = true.
Proof. rewrite forallb_forall. intros HP b Hb%every_byte_spec. by apply HP, list_elem_of_In. Qed.

(** Prove a fact about one byte [b] that computes to a boolean equality. *)
Ltac byte_cases b :=
  apply (proj1 (bool_decide_eq_true _));
  match goal with
  | |- ?t = true =>
      let f := eval pattern b in t in
      match f with
      | ?g _ => apply (byte_decide g); [vm_compute; reflexivity | assumption]
      end
  end.

Lemma land_128 b : is_u8 b → (Z.land b 128 =? 0) = (b <? 128).
Proof. intros Hb. byte_cases b. Qed.

Lemma as_u8_ok z : is_u8 (as_u8 z).
Proof. unfold is_u8, as_u8. apply Z.mod_pos_bound. lia. Qed.

Lemma as_u8_id b : is_u8 b → as_u8 b = b.
Proof. intros Hb. apply Z.mod_small, Hb. Qed.

(** ** Bit operations as arithmetic *)

Lemma lor_shift_add hi lo k : 0 ≤ k → 0 ≤ lo < 2 ^ k → Z.lor (Z.shiftl hi k) lo = hi * 2 ^ k + lo.
Proof.
  intros Hk Hlo. rewrite <-Z.shiftl_mul_pow2 by done. rewrite <-Z.add_lor_land.
  replace (Z.land (Z.shiftl hi k) lo) with 0; [lia|]. symmetry. apply Z.bits_inj'. intros i Hi.
  rewrite Z.land_spec, Z.bits_0. destruct (Z.lt_ge_cases i k) as [Hik|Hik].
  - by rewrite Z.shiftl_spec_low.
  - rewrite <-(Z.mod_small lo (2 ^ k)), Z.mod_pow2_bits_high, andb_false_r by lia. done.
Qed.

Lemma lor_add_disjoint hi lo k : 0 ≤ k → 0 ≤ lo < 2 ^ k → hi `mod` 2 ^ k = 0 → Z.lor hi lo = hi + lo.
Proof.
  intros Hk Hlo Hhi. assert (hi = Z.shiftl (hi / 2 ^ k) k) as ->.
  { rewrite Z.shiftl_mul_pow2 by done. pose proof (Z.div_mod hi (2 ^ k) ltac:(lia)). lia. }
  rewrite lor_shift_add by done. rewrite Z.shiftl_mul_pow2 by done. done.
Qed.

Lemma land_low a k : 0 ≤ k → Z.land a (2 ^ k - 1) = a `mod` 2 ^ k.
Proof. intros Hk. rewrite <-Z.land_ones by done. f_equal. rewrite Z.ones_equiv. lia. Qed.

Lemma wrap64_id v : is_u64 v → wrap64 v = v.
Proof. unfold is_u64, u64_max, wrap64, u64_modulus. intros Hv. apply Z.mod_small. lia. Qed.

Lemma wrap64_ok v : is_u64 (wrap64 v).
Proof. unfold is_u64, u64_max, wrap64, u64_modulus. pose proof (Z.mod_pos_bound v 18446744073709551616). lia. Qed.

Lemma add64_exact `{Profile} a b : 0 ≤ a + b ≤ u64_max → add64 a b = Ret (a + b).
Proof.
  intros Hab. unfold add64. rewrite (proj2 (Z.ltb_ge _ _)), andb_false_r by lia. by rewrite wrap64_id.
Qed.

(** ** Slices and lengths *)

Lemma len_nil {A} : len (@nil A) = 0.
Proof. done. Qed.
Lemma len_cons {A} (x : A) l : len (x :: l) = 1 + len l.
Proof. unfold len. simpl length. lia. Qed.
Lemma len_app {A} (l k : list A) : len (l ++ k) = len l + len k.
Proof. unfold len. rewrite length_app. lia. Qed.
Lemma len_nonneg {A} (l : list A) : 0 ≤ len l.
Proof. unfold len. lia. Qed.

#[export] Hint Rewrite @len_nil @len_cons @len_app : bytes.
#[export] Hint Resolve @len_nonneg as_u8_ok : cruft.

(** The part between two ends of a concatenation. *)
Lemma slice_middle {A} (l m r : list A) a b :
  a = len l → b = len l + len m → slice (l ++ m ++ r) a b = Ret m.
Proof.
  intros -> ->. unfold slice. rewrite (proj2 (Z.leb_le _ _)), (proj2 (Z.leb_le _ _)); simpl.
  - replace (Z.to_nat (len l + len m - len l)) with (length m) by (unfold len; lia).
    unfold len. by rewrite Nat2Z.id, drop_app_length, take_app_length.
  - rewrite !len_app. pose proof (len_nonneg r). lia.
  - pose proof (len_nonneg m). lia.
Qed.

Lemma slice_prefix {A} (l r : list A) b : b = len l → slice (l ++ r) 0 b = Ret l.
Proof. intros ->. exact (slice_middle [] l r 0 (len l) eq_refl eq_refl). Qed.

Lemma slice_from_app {A} (l r : list A) a : a = len l → slice_from (l ++ r) a = Ret r.
Proof.
  intros ->. unfold slice_from. rewrite <-(app_nil_r r) at 1. rewrite slice_middle; [done..|].
  by rewrite len_app.
Qed.

Lemma slice_ok {A} (l : list A) a b :
  0 ≤ a ≤ b → b ≤ len l → slice l a b = Ret (take (Z.to_nat (b - a)) (drop (Z.to_nat a) l)).
Proof. intros Ha Hb. unfold slice. rewrite !(proj2 (Z.leb_le _ _)) by lia. done. Qed.

Lemma slice_from_ok {A} (l : list A) a : 0 ≤ a ≤ len l → slice_from l a = Ret (drop (Z.to_nat a) l).
Proof.
  intros Ha. unfold slice_from. rewrite slice_ok by lia. f_equal. apply take_ge.
  rewrite length_drop. unfold len in *. lia.
Qed.

Lemma slice_panics {A} (l : list A) a b : b < a → slice l a b = Panic.
Proof. intros Hab. unfold slice. by rewrite (proj2 (Z.leb_gt _ _)) by lia. Qed.

(** ** Strings and their bytes *)

Lemma byte_code (a : char) : byte (code a) = a.
Proof. unfold byte, code. rewrite Nat2Z.id. apply Ascii.ascii_nat_embedding. Qed.

Lemma code_u8 (a : char) : is_u8 (code a).
Proof. unfold is_u8, code. pose proof (Ascii.nat_ascii_bounded a). lia. Qed.

Lemma as_bytes_ok s : bytes_ok (as_bytes s).
Proof. unfold bytes_ok, as_bytes. apply Forall_fmap, Forall_true. intros a. apply code_u8. Qed.

Lemma chars_of_bytes s : byte <$> as_bytes s = String.list_ascii_of_string s.
Proof.
  unfold as_bytes. rewrite <-list_fmap_compose. rewrite <-(list_fmap_id (String.list_ascii_of_string s)) at 2.
  apply list_fmap_ext. intros _ a _. apply byte_code.
Qed.

Lemma string_of_as_bytes s : string_of_bytes (as_bytes s) = s.
Proof. unfold string_of_bytes. by rewrite chars_of_bytes, String.string_of_list_ascii_of_string. Qed.

Lemma as_bytes_of_bytes l : bytes_ok l → as_bytes (string_of_bytes l) = l.
Proof.
  intros Hl. unfold as_bytes, string_of_bytes. rewrite String.list_ascii_of_string_of_list_ascii, <-list_fmap_compose.
  induction Hl as [|b l Hb _ IH]; [done|]. rewrite fmap_cons, IH. f_equal. by apply code_byte.
Qed.

Lemma string_from_as_bytes s : is_str s → string_from_utf8 (as_bytes s) = Some s.
Proof.
  intros Hs. unfold string_from_utf8. rewrite chars_of_bytes.
  rewrite (proj2 (from_utf8_iff _) Hs). by rewrite string_of_as_bytes.
Qed.

Lemma string_from_utf8_str l s : string_from_utf8 l = Some s → is_str s.
Proof.
  unfold string_from_utf8. destruct (from_utf8 (byte <$> l)) eqn:E; [|done]. intros [= <-].
  unfold is_str, string_of_bytes. rewrite String.list_ascii_of_string_of_list_ascii. by apply from_utf8_iff.
Qed.

Lemma as_bytes_inj : Inj (=) (=) as_bytes.
Proof. intros s t E. rewrite <-(string_of_as_bytes s), E. apply string_of_as_bytes. Qed.

Lemma as_bytes_app s t : as_bytes (s +:+ t) = as_bytes s ++ as_bytes t.
Proof. induction s as [|a s IH]; [done|]. change (code a :: as_bytes (s +:+ t) = code a :: as_bytes s ++ as_bytes t). by rewrite IH. Qed.

(** ** Big-endian words *)

Lemma to_be_bytes_length n v : length (to_be_bytes n v) = n.
Proof. induction n; simpl; auto. Qed.

Lemma to_be_bytes_ok n v : bytes_ok (to_be_bytes n v).
Proof. induction n; constructor; [|done]. unfold is_u8. apply Z.mod_pos_bound. lia. Qed.

Lemma from_be_bytes_app l b : from_be_bytes (l ++ [b]) = from_be_bytes l * 256 + b.
Proof. unfold from_be_bytes. by rewrite foldl_app. Qed.

Lemma to_be_bytes_snoc n v : 0 ≤ v → to_be_bytes (S n) v = to_be_bytes n (v / 256) ++ [v `mod` 256].
Proof.
  intros Hv. induction n as [|n IH].
  - simpl. by rewrite Z.div_1_r.
  - change (to_be_bytes (S (S n)) v) with ((v / 256 ^ Z.of_nat (S n)) `mod` 256 :: to_be_bytes (S n) v).
    rewrite IH. simpl app. f_equal. f_equal. rewrite Nat2Z.inj_succ, Z.pow_succ_r by lia.
    by rewrite Z.div_div by lia.
Qed.

Lemma from_to_be_bytes n v : 0 ≤ v < 256 ^ Z.of_nat n → from_be_bytes (to_be_bytes n v) = v.
Proof.
  revert v. induction n as [|n IH]; intros v Hv; [simpl in *; unfold from_be_bytes; simpl; lia|].
  rewrite to_be_bytes_snoc, from_be_bytes_app by lia. rewrite IH.
  - pose proof (Z.div_mod v 256). lia.
  - rewrite Nat2Z.inj_succ, Z.pow_succ_r in Hv by lia.
    split; [apply Z.div_pos; lia|apply Z.div_lt_upper_bound; lia].
Qed.

Lemma from_be_bytes_bound l : bytes_ok l → 0 ≤ from_be_bytes l < 256 ^ len l.
Proof.
  induction l as [|b l IH] using rev_ind; intros Hl; [by unfold from_be_bytes; simpl|].
  apply Forall_app in Hl as [Hl Hb]. inversion_clear Hb as [|? ? Hb0 _]. specialize (IH Hl).
  rewrite from_be_bytes_app, len_app. change (len [b]) with 1.
  pose proof (len_nonneg l). rewrite Z.pow_add_r, Z.pow_1_r by lia. unfold is_u8 in Hb0. lia.
Qed.

Lemma from_be_bytes_cat a b : from_be_bytes (a ++ b) = from_be_bytes a * 256 ^ Z.of_nat (length b) + from_be_bytes b.
Proof.
  induction b as [|x b IH] using rev_ind; [rewrite app_nil_r; cbn; lia|].
  rewrite app_assoc, !from_be_bytes_app, IH, length_app, Nat2Z.inj_add, Z.pow_add_r by lia. change (256 ^ Z.of_nat (length [x])) with 256. lia.
Qed.

Lemma from_be_bytes_nonneg bs : bytes_ok bs → 0 ≤ from_be_bytes bs.
Proof. intros Hb. apply from_be_bytes_bound in Hb. lia. Qed.

(** ** What a stream reader asks of a codec *)

(** [dec] reads a value off the front of a buffer with the number of bytes used:
    encoded values are read back whatever follows, a value once complete does not
    depend on what follows, and reading uses at least one byte and no more than
    there are. *)
Class Prefixed {A} (ok : A → Prop) (enc : A → list Z) (dec : list Z → option (A * nat)) : Prop := {
  enc_ok a : ok a → bytes_ok (enc a);
  dec_enc a rest : ok a → dec (enc a ++ rest) = Some (a, length (enc a));
  dec_more buf a n rest : bytes_ok buf → dec buf = Some (a, n) → dec (buf ++ rest) = Some (a, n);
  dec_used buf a n : bytes_ok buf → dec buf = Some (a, n) → (0 < n ≤ length buf)%nat;
}.

(** Reading values until no complete one is left, as a stream reader does. *)
Section stream.
Context {A : Type} (dec : list Z → option (A * nat)).

Fixpoint read_all (fuel : nat) (buf : list Z) : list A * list Z :=
  match fuel with
  | O => ([], buf)
  | S fuel' =>
      match dec buf with
      | None => ([], buf)
      | Some (a, n) => let '(l, rest) := read_all fuel' (drop n buf) in (a :: l, rest)
      end
  end.

Definition read_stream (buf : list Z) : list A * list Z := read_all (length buf) buf.
End stream.

Section stream_laws.
Context {A : Type} (ok : A → Prop) (enc : A → list Z) (dec : list Z → option (A * nat)) `{!Prefixed ok enc dec}.

Lemma read_all_fuel f g buf :
  bytes_ok buf → (length buf ≤ f)%nat → (length buf ≤ g)%nat → read_all dec f buf = read_all dec g buf.
Proof using Prefixed0.
  revert g buf. induction f as [|f IH]; intros g buf Hb Hf Hg.
  - destruct g; simpl; [done|]. destruct (dec buf) as [[a n]|] eqn:E; [|done].
    apply dec_used in E; [lia|done].
  - destruct g as [|g]; simpl; destruct (dec buf) as [[a n]|] eqn:E; try done; pose proof (dec_used _ _ _ Hb E); [lia|].
    rewrite (IH g); [done|by apply Forall_drop|rewrite length_drop; lia..].
Qed.

Lemma read_stream_step buf a n :
  bytes_ok buf → dec buf = Some (a, n) → read_stream dec buf = (λ '(l, rest), (a :: l, rest)) (read_stream dec (drop n buf)).
Proof using Prefixed0.
  intros Hb E. pose proof (dec_used _ _ _ Hb E). unfold read_stream. destruct buf as [|b buf]; [simpl in *; lia|].
  cbn [length read_all]. rewrite E. rewrite (read_all_fuel _ (length (drop n (b :: buf)))); [done|by apply Forall_drop| |done].
  rewrite length_drop. simpl. lia.
Qed.

Lemma read_stream_stop buf : dec buf = None → read_stream dec buf = ([], buf).
Proof using. unfold read_stream. intros E. destruct buf as [|b buf]; simpl; [done|by rewrite E]. Qed.

(** A stream of encoded values is read back, up to an incomplete tail. *)
Lemma read_stream_enc vs tail :
  Forall ok vs → bytes_ok tail → dec tail = None → read_stream dec ((vs ≫= enc) ++ tail) = (vs, tail).
Proof using Prefixed0.
  intros Hvs Hb Htail. assert (bytes_ok ((vs ≫= enc) ++ tail)) as Hall.
  { apply Forall_app. split; [|done]. clear Htail. induction Hvs as [|v vs Hv _ IH]; [constructor|].
    cbn [mbind list_bind]. apply Forall_app. split; [by apply enc_ok|done]. }
  revert Hall. induction Hvs as [|v vs Hv _ IH]; intros Hall; [by apply read_stream_stop|].
  cbn [mbind list_bind] in *. rewrite <-(assoc_L (++)) in *.
  erewrite read_stream_step by (done || by apply dec_enc). rewrite drop_app_length.
  apply Forall_app in Hall as [_ Hall]. by rewrite IH.
Qed.

(** How the bytes are cut into reads does not matter. *)
Lemma read_stream_app buf more l rest :
  bytes_ok buf → bytes_ok more → read_stream dec buf = (l, rest) →
  read_stream dec (buf ++ more) = (λ '(l', rest'), (l ++ l', rest')) (read_stream dec (rest ++ more)).
Proof using Prefixed0.
  intros Hb Hmore. remember (length buf) as k eqn:Ek. revert buf l Ek Hb. induction (lt_wf k) as [k _ IH]. intros buf l -> Hb E.
  destruct (dec buf) as [[a n]|] eqn:Ed.
  - pose proof (dec_used _ _ _ Hb Ed). rewrite (read_stream_step _ _ _ Hb Ed) in E.
    assert (bytes_ok (buf ++ more)) as Hbm by by apply Forall_app.
    rewrite (read_stream_step _ _ _ Hbm (dec_more _ _ _ more Hb Ed)), drop_app_le by lia.
    destruct (read_stream dec (drop n buf)) as [l0 r0] eqn:E0. injection E as <- <-.
    rewrite (IH (length (drop n buf)) ltac:(rewrite length_drop; lia) (drop n buf) l0 eq_refl ltac:(by apply Forall_drop) E0).
    by destruct (read_stream dec (r0 ++ more)).
  - rewrite (read_stream_stop _ Ed) in E. injection E as <- <-. by destruct (read_stream dec (buf ++ more)).
Qed.
End stream_laws.

(** ** Exclusive or *)

Definition xor_bytes (a b : list Z) : list Z := zip_with Z.lxor a b.

Lemma lxor_u8 x y : is_u8 x → is_u8 y → is_u8 (Z.lxor x y).
Proof.
  unfold is_u8. intros Hx Hy. assert (0 ≤ Z.lxor x y) as H0 by (apply Z.lxor_nonneg; lia). split; [done|].
  destruct (Z.eq_dec (Z.lxor x y) 0) as [->|Hne]; [lia|]. apply (Z.log2_lt_pow2 _ 8); [lia|]. eapply Z.le_lt_trans; [apply Z.log2_lxor; lia|].
  apply Z.max_lub_lt; (destruct (Z.eq_dec x 0) as [->|]; destruct (Z.eq_dec y 0) as [->|]; try (cbn; lia); apply Z.log2_lt_pow2; lia).
Qed.

Lemma land_u8 x y : is_u8 x → is_u8 (Z.land x y).
Proof.
  intros Hx. assert (Z.land x y = Z.land x y `mod` 2 ^ 8) as ->; [|pose proof (Z.mod_pos_bound (Z.land x y) (2 ^ 8)); unfold is_u8; lia].
  rewrite <-land_low, <-Z.land_assoc, (Z.land_comm y), Z.land_assoc, land_low by lia. f_equal. symmetry. by apply Z.mod_small.
Qed.

Lemma xor_bytes_length a b : length (xor_bytes a b) = (length a `min` length b)%nat.
Proof. apply length_zip_with. Qed.

Lemma xor_bytes_ok a b : bytes_ok a → bytes_ok b → bytes_ok (xor_bytes a b).
Proof. intros Ha. revert b. induction Ha as [|x a Hx Ha IH]; intros b Hb; [by apply Forall_nil|]. destruct b as [|y b]; [by apply Forall_nil|]. apply Forall_cons in Hb as [Hy Hb]. apply Forall_cons. split; [by apply lxor_u8|by apply IH]. Qed.

Lemma xor_xor a : ∀ b, (length a ≤ length b)%nat → xor_bytes (xor_bytes a b) b = a.
Proof.
  unfold xor_bytes. induction a as [|x a IH]; intros [|y b] Hl; cbn [length zip_with] in *; [done|done|lia|]. rewrite IH by lia. f_equal.
  by rewrite Z.lxor_assoc, Z.lxor_nilpotent, Z.lxor_0_r.
Qed.

(** Bytes are those of the number they are. *)
Lemma to_from_be_bytes l : bytes_ok l → to_be_bytes (length l) (from_be_bytes l) = l.
Proof.
  induction l as [|b l IH] using rev_ind; intros Hl; [done|]. apply Forall_app in Hl as [Hl Hb]. rewrite Forall_singleton in Hb. unfold is_u8 in Hb.
  rewrite length_app, Nat.add_1_r, from_be_bytes_app. pose proof (from_be_bytes_bound l Hl). rewrite to_be_bytes_snoc by lia.
  rewrite Z.div_add_l, (Z.div_small b), Z.add_0_r, IH by (done || lia). f_equal. by rewrite Z.add_comm, Z.mod_add, Z.mod_small by lia.
Qed.
