(* ===== verification/Bits.v ===== *)
(** * Bits: bit strings and the accumulators that regroup them

    The Huffman coder and the base-N encodings share one loop: shift what comes in
    into an accumulator, and while enough bits are there, push the topmost group out
    ([emit_groups]).  The accumulator is a machine word whose high bits are lost;
    [emit_groups_spec] and [bits_push] show that nothing needed is.  Signed machine integers are at the end. *)

From Stdlib Require Import Lia.
From S2P Require Import Prelude Bytes.

Local Open Scope Z_scope.

(** The [n] low bits of [v], most significant first. *)
Fixpoint bits_be (n : nat) (v : Z) : list Z :=
  match n with
  | O => []
  | S n' => (v / 2 ^ Z.of_nat n') `mod` 2 :: bits_be n' v
  end.

Definition from_bits (l : list Z) : Z := foldl (λ acc b, acc * 2 + b) 0 l.

(** [while nbits >= width { nbits -= width; out.push(item(bits, nbits)); }]: what is
    pushed, and the bits left. *)
Fixpoint emit_groups {B} (width : Z) (item : Z → Z → B) (fuel : nat) (bits nbits : Z) : list B * Z :=
  match fuel with
  | O => ([], nbits)
  | S fuel' =>
      if width <=? nbits then
        let '(out, rem) := emit_groups width item fuel' bits (nbits - width) in
        (item bits (nbits - width) :: out, rem)
      else ([], nbits)
  end.

(** ** Bit strings *)

Lemma bits_be_length n v : length (bits_be n v) = n.
Proof. induction n; simpl; auto. Qed.

Lemma bits_be_mod n v w : v `mod` 2 ^ Z.of_nat n = w `mod` 2 ^ Z.of_nat n → bits_be n v = bits_be n w.
Proof.
  intros E. apply list_eq. assert (∀ v k, (k < n)%nat → bits_be n v !! k = Some (Z.b2z (Z.testbit v (Z.of_nat (n - 1 - k))))) as L.
  { clear. induction n as [|n IH]; intros v k Hk; [lia|]. destruct k as [|k]; simpl.
    - rewrite Z.testbit_spec' by lia. by rewrite !Nat.sub_0_r.
    - rewrite IH by lia. do 4 f_equal. lia. }
  intros k. destruct (decide (k < n)%nat) as [Hk|Hk].
  - rewrite !L by done. do 2 f_equal.
    rewrite <-(Z.mod_pow2_bits_low v (Z.of_nat n)), <-(Z.mod_pow2_bits_low w (Z.of_nat n)) by lia. by rewrite E.
  - rewrite !lookup_ge_None_2; [done|rewrite bits_be_length; lia..].
Qed.

Lemma bits_be_add n m v : bits_be (n + m) v = bits_be n (v / 2 ^ Z.of_nat m) ++ bits_be m v.
Proof.
  induction n as [|n IH]; [done|]. simpl. rewrite IH. f_equal. f_equal.
  rewrite Nat2Z.inj_add, Z.div_div, (Z.add_comm (Z.of_nat n)), Z.pow_add_r by lia. done.
Qed.

Lemma from_bits_app l b : from_bits (l ++ [b]) = from_bits l * 2 + b.
Proof. unfold from_bits. by rewrite foldl_app. Qed.

Lemma from_bits_be n v : from_bits (bits_be n v) = v `mod` 2 ^ Z.of_nat n.
Proof.
  revert v. induction n as [|n IH]; intros v; [by rewrite Z.mod_1_r|].
  rewrite <-Nat.add_1_r, bits_be_add. change (bits_be 1 v) with [(v / 1) `mod` 2].
  rewrite from_bits_app, IH, Z.div_1_r, Nat2Z.inj_add, Z.pow_add_r by lia. change (2 ^ Z.of_nat 1) with 2.
  rewrite (Z.mul_comm (2 ^ _)), Z.rem_mul_r by lia. lia.
Qed.

Lemma bits_be_small n v : 0 ≤ v < 2 ^ Z.of_nat n → from_bits (bits_be n v) = v.
Proof. intros Hv. rewrite from_bits_be. by apply Z.mod_small. Qed.

(** Groups of bits determine the values, when the values fit. *)
Lemma bits_groups_inj n (vs ws : list Z) :
  (0 < n)%nat → Forall (λ v, 0 ≤ v < 2 ^ Z.of_nat n) vs → Forall (λ v, 0 ≤ v < 2 ^ Z.of_nat n) ws →
  vs ≫= bits_be n = ws ≫= bits_be n → vs = ws.
Proof.
  intros Hn Hvs. revert ws. induction Hvs as [|v vs Hv _ IH]; intros ws Hws E.
  - destruct ws as [|w ws]; [done|]. apply (f_equal length) in E. simpl in E.
    rewrite length_app, bits_be_length in E. lia.
  - destruct ws as [|w ws].
    { apply (f_equal length) in E. simpl in E. rewrite length_app, bits_be_length in E. lia. }
    inversion_clear Hws as [|? ? Hw Hws']. cbn [mbind list_bind] in E.
    apply app_inj_1 in E as [E1 E2]; [|by rewrite !bits_be_length].
    rewrite <-(bits_be_small n v Hv), E1, bits_be_small by done. f_equal. by apply IH.
Qed.

(** ** Accumulators *)

Lemma div_pow_mod a n k : 0 ≤ n → 0 ≤ k → (a / 2 ^ n) `mod` 2 ^ k = (a `mod` 2 ^ (n + k)) / 2 ^ n.
Proof.
  intros Hn Hk. rewrite Z.pow_add_r, Z.rem_mul_r by lia.
  rewrite Z.add_comm, Z.mul_comm, Z.div_add_l by lia.
  rewrite (Z.div_small (a `mod` 2 ^ n)) by (apply Z.mod_pos_bound; lia). lia.
Qed.

(** Shifting [m] bits into a word of [w] bits that holds [n] that matter. *)
Lemma bits_push w (n m : nat) acc v :
  Z.of_nat n + Z.of_nat m ≤ w → 0 ≤ v < 2 ^ Z.of_nat m →
  bits_be (n + m) (Z.lor (Z.shiftl acc (Z.of_nat m) `mod` 2 ^ w) v) = bits_be n acc ++ bits_be m v.
Proof.
  intros Hw Hv. rewrite (lor_add_disjoint _ _ (Z.of_nat m)); [|lia|done|].
  2:{ rewrite Z.shiftl_mul_pow2 by lia. replace w with (Z.of_nat m + (w - Z.of_nat m)) by lia.
      rewrite Z.pow_add_r, (Z.mul_comm acc), Z.mul_mod_distr_l by lia. rewrite Z.mul_comm. apply Z.mod_mul. lia. }
  rewrite bits_be_add. f_equal; apply bits_be_mod.
  - rewrite Z.shiftl_mul_pow2 by lia. replace w with (Z.of_nat m + (w - Z.of_nat m)) by lia.
    rewrite Z.pow_add_r, (Z.mul_comm acc), Z.mul_mod_distr_l by lia.
    rewrite (Z.mul_comm (2 ^ Z.of_nat m)), Z.div_add_l, (Z.div_small v), Z.add_0_r by lia.
    replace (w - Z.of_nat m) with (Z.of_nat n + (w - Z.of_nat m - Z.of_nat n)) by lia.
    rewrite Z.pow_add_r by lia. rewrite Z.rem_mul_r by lia.
    rewrite Z.mul_comm, Z.mod_add by lia. by rewrite Z.mod_mod by lia.
  - rewrite Z.shiftl_mul_pow2 by lia. replace w with (Z.of_nat m + (w - Z.of_nat m)) by lia.
    rewrite Z.pow_add_r, (Z.mul_comm acc), Z.mul_mod_distr_l by lia.
    rewrite Z.mul_comm, Z.add_comm, Z.mod_add by lia. done.
Qed.

(** The loop pushes the groups from the top and leaves less than one. *)
Lemma emit_groups_spec {B} (w : nat) (item : Z → Z → B) (g : Z → B) fuel bits (n : nat) out rem :
  (0 < w)%nat → (n ≤ fuel)%nat →
  (∀ k, 0 ≤ k → item bits k = g ((bits / 2 ^ k) `mod` 2 ^ Z.of_nat w)) →
  emit_groups (Z.of_nat w) item fuel bits (Z.of_nat n) = (out, rem) →
  ∃ (groups : list Z) (r : nat),
    out = g <$> groups ∧ rem = Z.of_nat r ∧ (r < w)%nat ∧
    Forall (λ v, 0 ≤ v < 2 ^ Z.of_nat w) groups ∧
    bits_be n bits = (groups ≫= bits_be w) ++ bits_be r bits.
Proof.
  intros Hw Hfuel Hitem. revert n out rem Hfuel. induction fuel as [|fuel IH]; intros n out rem Hfuel E; simpl in E.
  - injection E as <- <-. exists [], n. split_and!; [done..|lia|constructor|done].
  - destruct (Z.leb_spec (Z.of_nat w) (Z.of_nat n)) as [Hn|Hn].
    + rewrite <-Nat2Z.inj_sub in E by lia. destruct (emit_groups _ _ fuel bits _) as [out0 rem0] eqn:E0.
      injection E as <- <-. destruct (IH (n - w)%nat _ _ ltac:(lia) E0) as (gs & r & -> & -> & Hr & Hgs & Hb).
      exists ((bits / 2 ^ Z.of_nat (n - w)) `mod` 2 ^ Z.of_nat w :: gs), r. split_and!; [|done..| |].
      * rewrite fmap_cons. by rewrite Hitem by lia.
      * constructor; [apply Z.mod_pos_bound; lia|done].
      * cbn [mbind list_bind]. rewrite <-(assoc_L (++)), <-Hb.
        replace n with (w + (n - w))%nat at 1 by lia. rewrite bits_be_add. f_equal.
        apply bits_be_mod. by rewrite Z.mod_mod by lia.
    + injection E as <- <-. exists [], n. split_and!; [done..|lia|constructor|done].
Qed.

(** * Signed machine integers

    [i32], [i64] and [i128] values are [Z]; [i64 z] is the value [z] wraps to.  A sum,
    difference or product wraps in the release profile.  Wrapping commutes with these
    operations ([i64_add_l], [i64_mul_l]), so the definitions wrap the value of an
    expression made of them once.  Casts truncate.  Shared by the files on dates. *)

Open Scope Z_scope.

(** ** Definitions *)

Definition i32 (z : Z) : Z := (z + 2147483648) `mod` 4294967296 - 2147483648.
Definition i64 (z : Z) : Z := (z + 9223372036854775808) `mod` 18446744073709551616 - 9223372036854775808.
Definition i128 (z : Z) : Z :=
  (z + 170141183460469231731687303715884105728) `mod` 340282366920938463463374607431768211456
  - 170141183460469231731687303715884105728.
Definition as_u16 (z : Z) : Z := z `mod` 65536.

Definition is_i32 (z : Z) : Prop := -2147483648 ≤ z < 2147483648.
Definition is_i64 (z : Z) : Prop := -9223372036854775808 ≤ z < 9223372036854775808.
Definition is_i128 (z : Z) : Prop :=
  -170141183460469231731687303715884105728 ≤ z < 170141183460469231731687303715884105728.

(** [div_euclid] and [rem_euclid]: the remainder is never negative. *)
Definition div_euclid (a b : Z) : Z := Z.sgn b * (a / Z.abs b).
Definition rem_euclid (a b : Z) : Z := a `mod` Z.abs b.

(** [clamp]; the source never gives it bounds out of order. *)
Definition clamp (v lo hi : Z) : Z := if v <? lo then lo else if hi <? v then hi else v.

(** ** Lemmas *)

Lemma i32_id z : is_i32 z → i32 z = z.
Proof. unfold is_i32, i32. intros Hz. rewrite Z.mod_small; lia. Qed.

Lemma i64_id z : is_i64 z → i64 z = z.
Proof. unfold is_i64, i64. intros Hz. rewrite Z.mod_small; lia. Qed.

Lemma i128_id z : is_i128 z → i128 z = z.
Proof. unfold is_i128, i128. intros Hz. rewrite Z.mod_small; lia. Qed.

Lemma i32_ok z : is_i32 (i32 z).
Proof. unfold is_i32, i32. pose proof (Z.mod_pos_bound (z + 2147483648) 4294967296). lia. Qed.

(** Values that wrap to one another differ by a multiple of the modulus. *)
Lemma i64_mod a b : a `mod` 18446744073709551616 = b `mod` 18446744073709551616 → i64 a = i64 b.
Proof. unfold i64. intros H. by rewrite (Z.add_mod a), (Z.add_mod b), H by done. Qed.

Lemma i64_cong z : i64 z `mod` 18446744073709551616 = z `mod` 18446744073709551616.
Proof.
  unfold i64. rewrite Zminus_mod, Z.mod_mod, <- Zminus_mod by done. f_equal. lia.
Qed.

Lemma i64_add_l a b : i64 (i64 a + b) = i64 (a + b).
Proof. apply i64_mod. by rewrite Z.add_mod, i64_cong, <- Z.add_mod by done. Qed.

Lemma i64_mul_l a b : i64 (i64 a * b) = i64 (a * b).
Proof. apply i64_mod. by rewrite Z.mul_mod, i64_cong, <- Z.mul_mod by done. Qed.

Lemma div_euclid_pos a b : 0 < b → div_euclid a b = a / b.
Proof. intros Hb. unfold div_euclid. rewrite Z.sgn_pos, Z.abs_eq by lia. lia. Qed.

Lemma rem_euclid_pos a b : 0 < b → rem_euclid a b = a `mod` b.
Proof. intros Hb. unfold rem_euclid. by rewrite Z.abs_eq by lia. Qed.

Lemma div_rem_euclid a b : b ≠ 0 → a = b * div_euclid a b + rem_euclid a b ∧ 0 ≤ rem_euclid a b < Z.abs b.
Proof.
  intros Hb. unfold div_euclid, rem_euclid. pose proof (Z.div_mod a (Z.abs b)). pose proof (Z.mod_pos_bound a (Z.abs b)).
  split; [|lia]. pose proof (Z.sgn_abs b). pose proof (Z.abs_sgn b). nia.
Qed.

Lemma clamp_spec v lo hi : lo ≤ hi → lo ≤ clamp v lo hi ≤ hi ∧ (lo ≤ v ≤ hi → clamp v lo hi = v).
Proof. unfold clamp. intros H. destruct (Z.ltb_spec v lo), (Z.ltb_spec hi v); lia. Qed.

(** Linear arithmetic with divisions and remainders by constants. *)
Ltac dlia := Z.to_euclidean_division_equations; lia.

(** Removes the wrap of a value that is in range. *)
Ltac no_wrap e := rewrite (i64_id e) by (unfold is_i64; first [lia | dlia]).
