(* ===== verification/Huffman.v ===== *)
(** * Huffman: HPACK's string compression

    Module [huffman] of http2-hpack/src/lib.rs: the code table, the bit-accumulating
    encoder and the decoder that looks codes up bit by bit.  [huffman_roundtrip] is
    the lemma the header codec rests on. *)

From S2P Require Import Prelude Bytes Bits.

Local Open Scope Z_scope.

(** The code of each byte and its length in bits. *)
Definition TABLE : list (Z * Z) :=
  [(0x1ff8, 13); (0x7fffd8, 23); (0xfffffe2, 28); (0xfffffe3, 28); (0xfffffe4, 28); (0xfffffe5, 28);
   (0xfffffe6, 28); (0xfffffe7, 28); (0xfffffe8, 28); (0xffffea, 24); (0x3ffffffc, 30); (0xfffffe9, 28);
   (0xfffffea, 28); (0x3ffffffd, 30); (0xfffffeb, 28); (0xfffffec, 28); (0xfffffed, 28); (0xfffffee, 28);
   (0xfffffef, 28); (0xffffff0, 28); (0xffffff1, 28); (0xffffff2, 28); (0x3ffffffe, 30); (0xffffff3, 28);
   (0xffffff4, 28); (0xffffff5, 28); (0xffffff6, 28); (0xffffff7, 28); (0xffffff8, 28); (0xffffff9, 28);
   (0xffffffa, 28); (0xffffffb, 28); (0x14, 6); (0x3f8, 10); (0x3f9, 10); (0xffa, 12);
   (0x1ff9, 13); (0x15, 6); (0xf8, 8); (0x7fa, 11); (0x3fa, 10); (0x3fb, 10);
   (0xf9, 8); (0x7fb, 11); (0xfa, 8); (0x16, 6); (0x17, 6); (0x18, 6);
   (0x0, 5); (0x1, 5); (0x2, 5); (0x19, 6); (0x1a, 6); (0x1b, 6);
   (0x1c, 6); (0x1d, 6); (0x1e, 6); (0x1f, 6); (0x5c, 7); (0xfb, 8);
   (0x7ffc, 15); (0x20, 6); (0xffb, 12); (0x3fc, 10); (0x1ffa, 13); (0x21, 6);
   (0x5d, 7); (0x5e, 7); (0x5f, 7); (0x60, 7); (0x61, 7); (0x62, 7);
   (0x63, 7); (0x64, 7); (0x65, 7); (0x66, 7); (0x67, 7); (0x68, 7);
   (0x69, 7); (0x6a, 7); (0x6b, 7); (0x6c, 7); (0x6d, 7); (0x6e, 7);
   (0x6f, 7); (0x70, 7); (0x71, 7); (0x72, 7); (0xfc, 8); (0x73, 7);
   (0xfd, 8); (0x1ffb, 13); (0x7fff0, 19); (0x1ffc, 13); (0x3ffc, 14); (0x22, 6);
   (0x7ffd, 15); (0x3, 5); (0x23, 6); (0x4, 5); (0x24, 6); (0x5, 5);
   (0x25, 6); (0x26, 6); (0x27, 6); (0x6, 5); (0x74, 7); (0x75, 7);
   (0x28, 6); (0x29, 6); (0x2a, 6); (0x7, 5); (0x2b, 6); (0x76, 7);
   (0x2c, 6); (0x8, 5); (0x9, 5); (0x2d, 6); (0x77, 7); (0x78, 7);
   (0x79, 7); (0x7a, 7); (0x7b, 7); (0x7ffe, 15); (0x7fc, 11); (0x3ffd, 14);
   (0x1ffd, 13); (0xffffffc, 28); (0xfffe6, 20); (0x3fffd2, 22); (0xfffe7, 20); (0xfffe8, 20);
   (0x3fffd3, 22); (0x3fffd4, 22); (0x3fffd5, 22); (0x7fffd9, 23); (0x3fffd6, 22); (0x7fffda, 23);
   (0x7fffdb, 23); (0x7fffdc, 23); (0x7fffdd, 23); (0x7fffde, 23); (0xffffeb, 24); (0x7fffdf, 23);
   (0xffffec, 24); (0xffffed, 24); (0x3fffd7, 22); (0x7fffe0, 23); (0xffffee, 24); (0x7fffe1, 23);
   (0x7fffe2, 23); (0x7fffe3, 23); (0x7fffe4, 23); (0x1fffdc, 21); (0x3fffd8, 22); (0x7fffe5, 23);
   (0x3fffd9, 22); (0x7fffe6, 23); (0x7fffe7, 23); (0xffffef, 24); (0x3fffda, 22); (0x1fffdd, 21);
   (0xfffe9, 20); (0x3fffdb, 22); (0x3fffdc, 22); (0x7fffe8, 23); (0x7fffe9, 23); (0x1fffde, 21);
   (0x7fffea, 23); (0x3fffdd, 22); (0x3fffde, 22); (0xfffff0, 24); (0x1fffdf, 21); (0x3fffdf, 22);
   (0x7fffeb, 23); (0x7fffec, 23); (0x1fffe0, 21); (0x1fffe1, 21); (0x3fffe0, 22); (0x1fffe2, 21);
   (0x7fffed, 23); (0x3fffe1, 22); (0x7fffee, 23); (0x7fffef, 23); (0xfffea, 20); (0x3fffe2, 22);
   (0x3fffe3, 22); (0x3fffe4, 22); (0x7ffff0, 23); (0x3fffe5, 22); (0x3fffe6, 22); (0x7ffff1, 23);
   (0x3ffffe0, 26); (0x3ffffe1, 26); (0xfffeb, 20); (0x7fff1, 19); (0x3fffe7, 22); (0x7ffff2, 23);
   (0x3fffe8, 22); (0x1ffffec, 25); (0x3ffffe2, 26); (0x3ffffe3, 26); (0x3ffffe4, 26); (0x7ffffde, 27);
   (0x7ffffdf, 27); (0x3ffffe5, 26); (0xfffff1, 24); (0x1ffffed, 25); (0x7fff2, 19); (0x1fffe3, 21);
   (0x3ffffe6, 26); (0x7ffffe0, 27); (0x7ffffe1, 27); (0x3ffffe7, 26); (0x7ffffe2, 27); (0xfffff2, 24);
   (0x1fffe4, 21); (0x1fffe5, 21); (0x3ffffe8, 26); (0x3ffffe9, 26); (0xffffffd, 28); (0x7ffffe3, 27);
   (0x7ffffe4, 27); (0x7ffffe5, 27); (0xfffec, 20); (0xfffff3, 24); (0xfffed, 20); (0x1fffe6, 21);
   (0x3fffe9, 22); (0x1fffe7, 21); (0x1fffe8, 21); (0x7ffff3, 23); (0x3fffea, 22); (0x3fffeb, 22);
   (0x1ffffee, 25); (0x1ffffef, 25); (0xfffff4, 24); (0xfffff5, 24); (0x3ffffea, 26); (0x7ffff4, 23);
   (0x3ffffeb, 26); (0x7ffffe6, 27); (0x3ffffec, 26); (0x3ffffed, 26); (0x7ffffe7, 27); (0x7ffffe8, 27);
   (0x7ffffe9, 27); (0x7ffffea, 27); (0x7ffffeb, 27); (0xffffffe, 28); (0x7ffffec, 27); (0x7ffffed, 27);
   (0x7ffffee, 27); (0x7ffffef, 27); (0x7fffff0, 27); (0x3ffffee, 26)].

(** ** Encoding *)

(** [while nbits >= 8 { nbits -= 8; out.push((bits >> nbits) as u8); }] *)
Definition flush_bits (bits nbits : Z) : list Z * Z :=
  emit_groups 8 (λ bits nbits, as_u8 (Z.shiftr bits nbits)) (Z.to_nat nbits) bits nbits.

Definition encode_byte (st : Z * Z * list Z) (b : Z) : Z * Z * list Z :=
  let '(bits, nbits, out) := st in
  let '(code, clen) := nth (Z.to_nat b) TABLE (0, 0) in
  let bits := Z.lor (wrap64 (Z.shiftl bits clen)) code in
  let '(emitted, rem) := flush_bits bits (nbits + clen) in
  (bits, rem, out ++ emitted).

Definition huffman_encode (input : list Z) : list Z :=
  let '(bits, nbits, out) := foldl encode_byte (0, 0, []) input in
  if 0 <? nbits then
    let pad := 8 - nbits in
    let bits := Z.lor (wrap64 (Z.shiftl bits pad)) (Z.shiftl 1 pad - 1) in
    out ++ [as_u8 bits]
  else out.

(** ** Decoding *)

(** The map from code and length to symbol, filled in table order. *)
Definition decode_map : gmap (Z * Z) Z :=
  foldl (λ m '(sym, entry), <[entry := sym]> m) ∅ (zip every_byte TABLE).

Definition decode_bit (st : Z * Z * list Z) (bit : Z) : option (Z * Z * list Z) :=
  let '(code, clen, out) := st in
  let code := Z.lor (as_u32 (Z.shiftl code 1)) bit in
  let clen := clen + 1 in
  match decode_map !! (code, clen) with
  | Some sym => Some (0, 0, out ++ [sym])
  | None => if 30 <? clen then None else Some (code, clen, out)
  end.

Fixpoint decode_bits (st : Z * Z * list Z) (bits : list Z) : option (Z * Z * list Z) :=
  match bits with
  | [] => Some st
  | bit :: bits' => match decode_bit st bit with None => None | Some st' => decode_bits st' bits' end
  end.

(** The bits of a byte, [for bit in (0..8).rev() { (byte >> bit) & 1 }]. *)
Definition byte_bits (b : Z) : list Z := (λ i, Z.land (Z.shiftr b i) 1) <$> [7; 6; 5; 4; 3; 2; 1; 0].

Definition huffman_decode (input : list Z) : option (list Z) :=
  match decode_bits (0, 0, []) (input ≫= byte_bits) with
  | None => None
  | Some (code, clen, out) =>
      if 8 <=? clen then None
      else if 0 <? clen then
        let mask := Z.shiftl 1 clen - 1 in
        if Z.land code mask =? mask then Some out else None
      else Some out
  end.

(** ** Lemmas *)

#[local] Opaque TABLE decode_map.

Definition code_bits (b : Z) : list Z := let '(code, clen) := nth (Z.to_nat b) TABLE (0, 0) in bits_be (Z.to_nat clen) code.

(** Every code fits its length, between 5 and 30 bits. *)
Lemma table_bounds b code clen :
  is_u8 b → nth (Z.to_nat b) TABLE (0, 0) = (code, clen) → 5 ≤ clen ≤ 30 ∧ 0 ≤ code < 2 ^ clen.
Proof.
  intros Hb E.
  pose proof (byte_decide (λ b, let '(code, clen) := nth (Z.to_nat b) TABLE (0, 0) in
    (5 <=? clen) && (clen <=? 30) && (0 <=? code) && (code <? 2 ^ clen)) ltac:(vm_compute; reflexivity) b Hb) as H.
  cbv beta in H. rewrite E in H. rewrite !andb_true_iff in H. lia.
Qed.

Lemma byte_bits_be b : is_u8 b → byte_bits b = bits_be 8 b.
Proof. intros Hb. byte_cases b. Qed.

Lemma byte_bits_flat l : bytes_ok l → l ≫= byte_bits = l ≫= bits_be 8.
Proof. intros Hl. induction Hl as [|b l Hb _ IH]; [done|]. cbn [mbind list_bind] in *. by rewrite IH, byte_bits_be. Qed.

Lemma flush_bits_spec bits (n : nat) out rem :
  flush_bits bits (Z.of_nat n) = (out, rem) →
  ∃ r : nat, rem = Z.of_nat r ∧ (r < 8)%nat ∧ bytes_ok out ∧ bits_be n bits = (out ≫= bits_be 8) ++ bits_be r bits.
Proof.
  unfold flush_bits. rewrite Nat2Z.id. intros E.
  eapply (emit_groups_spec 8 _ (λ v, v) n bits n out rem) in E as (gs & r & Ho & -> & Hr & Hgs & Hb); [|lia|lia|].
  - rewrite list_fmap_id in Ho. subst gs. by exists r.
  - intros k Hk. unfold as_u8. by rewrite Z.shiftr_div_pow2.
Qed.

(** The encoder's invariant: what is out, with the bits still held, are the codes of
    the bytes read. *)
Lemma encode_bytes_inv input :
  bytes_ok input →
  ∃ bits (r : nat) out, foldl encode_byte (0, 0, []) input = (bits, Z.of_nat r, out) ∧ (r < 8)%nat ∧ bytes_ok out ∧
    (out ≫= bits_be 8) ++ bits_be r bits = input ≫= code_bits.
Proof.
  induction input as [|b input IH] using rev_ind; intros Hin.
  { exists 0, 0%nat, []. split_and!; [done|lia|constructor|done]. }
  apply Forall_app in Hin as [Hin Hb]. inversion_clear Hb as [|? ? Hb0 _].
  destruct (IH Hin) as (bits & r & out & E & Hr & Hout & Hbits). rewrite foldl_app, E. cbn [foldl]. unfold encode_byte at 1.
  destruct (nth (Z.to_nat b) TABLE (0, 0)) as [code clen] eqn:Et. destruct (table_bounds b code clen Hb0 Et) as [Hl Hc].
  replace clen with (Z.of_nat (Z.to_nat clen)) by lia. set (m := Z.to_nat clen).
  rewrite <-Nat2Z.inj_add. destruct (flush_bits _ (Z.of_nat (r + m))) as [em rem] eqn:Ef.
  destruct (flush_bits_spec _ _ _ _ Ef) as (r' & -> & Hr' & Hem & Hb').
  eexists _, r', _. split_and!; [done|done|by apply Forall_app|].
  rewrite bind_app, <-(assoc_L (++)), <-Hb'. unfold wrap64. change u64_modulus with (2 ^ 64).
  rewrite bits_push; [|lia|replace (Z.of_nat m) with clen by lia; done].
  rewrite (assoc_L (++)), Hbits, bind_app. f_equal. cbn [mbind list_bind]. rewrite app_nil_r.
  unfold code_bits. by rewrite Et.
Qed.

(** The encoder writes the codes and pads them with ones to a whole byte. *)
Lemma huffman_encode_bits input :
  bytes_ok input →
  ∃ pad : nat, (pad < 8)%nat ∧ bytes_ok (huffman_encode input) ∧
    huffman_encode input ≫= bits_be 8 = (input ≫= code_bits) ++ bits_be pad (2 ^ Z.of_nat pad - 1).
Proof.
  intros Hin. destruct (encode_bytes_inv input Hin) as (bits & r & out & E & Hr & Hout & Hbits).
  unfold huffman_encode. rewrite E. destruct (Z.ltb_spec 0 (Z.of_nat r)) as [H0|H0].
  - exists (8 - r)%nat. split_and!; [lia|apply Forall_app; split; [done|repeat constructor; apply as_u8_ok]|].
    rewrite bind_app. cbn [mbind list_bind]. rewrite app_nil_r, <-Hbits, <-(assoc_L (++)). f_equal.
    replace (8 - Z.of_nat r) with (Z.of_nat (8 - r)) by lia. set (p := (8 - r)%nat).
    erewrite bits_be_mod by (unfold as_u8; change 256 with (2 ^ Z.of_nat 8); by rewrite Z.mod_mod).
    unfold wrap64. change u64_modulus with (2 ^ 64). rewrite Z.shiftl_1_l.
    replace 8%nat with (r + p)%nat at 1 by lia. rewrite bits_push; [done|lia|]. pose proof (Z.pow_pos_nonneg 2 (Z.of_nat p)). lia.
  - assert (r = 0)%nat as -> by lia. exists 0%nat. split_and!; [lia|done|]. simpl in Hbits. by rewrite app_nil_r in *.
Qed.

(** What has been decoded does not influence the rest. *)
Lemma decode_bits_out code clen out bits :
  decode_bits (code, clen, out) bits =
  (λ '(c, n, o), (c, n, out ++ o)) <$> decode_bits (code, clen, []) bits.
Proof.
  revert code clen out. induction bits as [|bit bits IH]; intros code clen out; simpl; [by rewrite app_nil_r|].
  unfold decode_bit. destruct (decode_map !! _) as [sym|]; [|destruct (30 <? clen + 1); [done|apply IH]].
  rewrite (IH 0 0 (out ++ [sym])), (IH 0 0 [sym]). destruct (decode_bits (0, 0, []) bits) as [[[c n] o]|]; simpl; [|done].
  by rewrite <-(assoc_L (++)).
Qed.

Lemma decode_bits_app st l k :
  decode_bits st (l ++ k) = match decode_bits st l with Some st' => decode_bits st' k | None => None end.
Proof. revert st. induction l as [|b l IH]; intros st; simpl; [done|]. by destruct (decode_bit st b). Qed.

(** No code is the beginning of another: reading the bits of a code gives its byte,
    after all of them and not before. *)
Lemma decode_code_bits b : is_u8 b → decode_bits (0, 0, []) (code_bits b) = Some (0, 0, [b]).
Proof. intros Hb. byte_cases b. Qed.

Lemma decode_codes input : bytes_ok input → decode_bits (0, 0, []) (input ≫= code_bits) = Some (0, 0, input).
Proof.
  induction 1 as [|b l Hb _ IH]; [done|]. cbn [mbind list_bind].
  rewrite decode_bits_app, decode_code_bits, decode_bits_out by done. cbn [mbind list_bind] in IH. by rewrite IH.
Qed.

(** Padding is seven ones at most, which no code is. *)
Lemma decode_padding (pad : nat) :
  (pad < 8)%nat → decode_bits (0, 0, []) (bits_be pad (2 ^ Z.of_nat pad - 1)) = Some (2 ^ Z.of_nat pad - 1, Z.of_nat pad, []).
Proof. intros Hp. do 8 (destruct pad as [|pad]; [vm_compute; reflexivity|]). lia. Qed.

Lemma huffman_decode_encode input : bytes_ok input → huffman_decode (huffman_encode input) = Some input.
Proof.
  intros Hin. destruct (huffman_encode_bits input Hin) as (pad & Hp & Hok & Hb).
  unfold huffman_decode. rewrite byte_bits_flat, Hb, decode_bits_app, decode_codes by done.
  rewrite decode_bits_out, decode_padding by done. simpl. rewrite app_nil_r.
  rewrite (proj2 (Z.leb_gt _ _)) by lia. destruct (Z.ltb_spec 0 (Z.of_nat pad)); [|done].
  rewrite Z.shiftl_1_l, land_low, Z.mod_small, Z.eqb_refl by lia || (pose proof (Z.pow_pos_nonneg 2 (Z.of_nat pad)); lia). done.
Qed.

Lemma huffman_encode_ok input : bytes_ok input → bytes_ok (huffman_encode input).
Proof. intros Hin. by destruct (huffman_encode_bits input Hin) as (? & _ & ? & _). Qed.
