(* ===== verification/Hpack.v ===== *)
(** * Hpack: header compression for HTTP/2

    http2-hpack/src/lib.rs: prefixed integers, strings, the static and the dynamic
    table, and the coding of header lists.  Decoders that can overflow are given in
    both build profiles ([Profile] of [Bytes]); the decoder of a header block updates
    the dynamic table as it goes, and the update stays when it then fails. *)

From S2P Require Import Prelude Bytes Huffman.

Local Open Scope Z_scope.
Local Open Scope cruft_scope.

(** ** Integers with an [n]-bit prefix *)

(** [while v >= 128 { push(v % 128 | 0x80); v /= 128 } push(v)] *)
Fixpoint integer_tail_loop (fuel : nat) (v : Z) : list Z :=
  match fuel with
  | O => [v]
  | S fuel' =>
      if 128 <=? v then Z.lor (as_u8 (v `mod` 128)) 128 :: integer_tail_loop fuel' (v / 128)
      else [as_u8 v]
  end.

Definition integer_tail (v : Z) : list Z := integer_tail_loop (S (Z.to_nat (Z.log2 v))) v.

Definition encode_integer (value n prefix_bits : Z) : list Z :=
  let max_prefix := Z.shiftl 1 n - 1 in
  if value <? max_prefix then [Z.lor prefix_bits (as_u8 value)]
  else Z.lor prefix_bits (as_u8 max_prefix) :: integer_tail (value - max_prefix).

(** The loop over the continuation bytes, [i] of them read so far; [m] is the shift. *)
Fixpoint decode_integer_tail `{Profile} (buf : list Z) (value m i : Z) : outcome (option (Z * Z)) :=
  match buf with
  | [] => Ret None
  | b :: buf' =>
      value <-! add64 value (wrap64 (Z.shiftl (Z.land b 127) m));
      let m := m + 7 in
      if Z.land b 128 =? 0 then Ret (Some (value, i + 1))
      else if 63 <? m then Ret None
      else decode_integer_tail buf' value m (i + 1)
  end.

Definition decode_integer `{Profile} (buf : list Z) (n : Z) : outcome (option (Z * Z)) :=
  let max_prefix := Z.shiftl 1 n - 1 in
  match buf with
  | [] => Ret None
  | b :: buf' =>
      let first := Z.land b max_prefix in
      if first <? max_prefix then Ret (Some (first, 1))
      else decode_integer_tail buf' max_prefix 0 1
  end.

(** ** Strings *)

Definition encode_string (s : list Z) : list Z := encode_integer (len s) 7 0 ++ s.

Definition decode_string `{Profile} (buf : list Z) : outcome (option (list Z * Z)) :=
  match buf with
  | [] => Ret None
  | b0 :: _ =>
      let huffman := negb (Z.land b0 128 =? 0) in
      r <-!~ decode_integer buf 7;
      let '(slen, n) := r in
      stop <-! add64 n slen;
      if len buf <? stop then Ret None
      else
        s <-! slice buf n stop;
        if huffman then Ret (option_map (λ s, (s, stop)) (huffman_decode s))
        else Ret (Some (s, stop))
  end.

(** ** Tables *)

Definition STATIC_TABLE : list (string * string) :=
  [(":authority", EmptyString); (":method", "GET"); (":method", "POST"); (":path", "/");
   (":path", "/index.html"); (":scheme", "http"); (":scheme", "https"); (":status", "200");
   (":status", "204"); (":status", "206"); (":status", "304"); (":status", "400");
   (":status", "404"); (":status", "500"); ("accept-charset", EmptyString);
   ("accept-encoding", "gzip, deflate"); ("accept-language", EmptyString);
   ("accept-ranges", EmptyString); ("accept", EmptyString);
   ("access-control-allow-origin", EmptyString); ("age", EmptyString); ("allow", EmptyString);
   ("authorization", EmptyString); ("cache-control", EmptyString);
   ("content-disposition", EmptyString); ("content-encoding", EmptyString);
   ("content-language", EmptyString); ("content-length", EmptyString);
   ("content-location", EmptyString); ("content-range", EmptyString); ("content-type", EmptyString);
   ("cookie", EmptyString); ("date", EmptyString); ("etag", EmptyString); ("expect", EmptyString);
   ("expires", EmptyString); ("from", EmptyString); ("host", EmptyString); ("if-match", EmptyString);
   ("if-modified-since", EmptyString); ("if-none-match", EmptyString); ("if-range", EmptyString);
   ("if-unmodified-since", EmptyString); ("last-modified", EmptyString); ("link", EmptyString);
   ("location", EmptyString); ("max-forwards", EmptyString); ("proxy-authenticate", EmptyString);
   ("proxy-authorization", EmptyString); ("range", EmptyString); ("referer", EmptyString);
   ("refresh", EmptyString); ("retry-after", EmptyString); ("server", EmptyString);
   ("set-cookie", EmptyString); ("strict-transport-security", EmptyString);
   ("transfer-encoding", EmptyString); ("user-agent", EmptyString); ("vary", EmptyString);
   ("via", EmptyString); ("www-authenticate", EmptyString)].

Abbreviation header := (string * string)%type (only parsing).

Record DynamicTable := { entries : list header; size : Z; max_size : Z }.

Record DecodeLimits := { max_header_list_size : Z; max_dynamic_table_size : Z }.

Definition default_limits : DecodeLimits :=
  {| max_header_list_size := 65536; max_dynamic_table_size := 4096 |}.

Inductive DecodeError : Type :=
| Malformed
| HeaderListTooLarge
| DynamicTableSizeUpdateTooLarge.

Definition str_len (s : string) : Z := len (as_bytes s).

Definition table_new (max : Z) : DynamicTable := {| entries := []; size := 0; max_size := max |}.

Definition entry_size (h : header) : Z := str_len h.1 + str_len h.2 + 32.

(** [while size > max_size { pop_back or break }]: one turn per entry at most.  The
    loop is on the entries from the back. *)
Fixpoint evict_back (rev_entries : list header) (size max : Z) : list header * Z :=
  if max <? size then
    match rev_entries with
    | [] => ([], size)
    | h :: rest => evict_back rest (size - entry_size h) max
    end
  else (rev_entries, size).

Definition evict (t : DynamicTable) : DynamicTable :=
  let '(r, s) := evict_back (rev (entries t)) (size t) (max_size t) in
  {| entries := rev r; size := s; max_size := max_size t |}.

Definition table_insert (t : DynamicTable) (h : header) : DynamicTable :=
  evict {| entries := h :: entries t; size := size t + entry_size h; max_size := max_size t |}.

Definition set_max_size (t : DynamicTable) (max : Z) : DynamicTable :=
  evict {| entries := entries t; size := size t; max_size := max |}.

Definition table_get (t : DynamicTable) (index : Z) : option header :=
  if index =? 0 then None
  else if index <=? len STATIC_TABLE then get_at STATIC_TABLE (index - 1)
  else get_at (entries t) (index - len STATIC_TABLE - 1).

(** ** Header blocks *)

Definition checked_header_list_size (current : Z) (h : header) (limits : DecodeLimits) : result Z DecodeError :=
  match checked_add64 current (str_len h.1) with
  | None => Err HeaderListTooLarge
  | Some a =>
      match checked_add64 a (str_len h.2) with
      | None => Err HeaderListTooLarge
      | Some b =>
          match checked_add64 b 32 with
          | None => Err HeaderListTooLarge
          | Some next => if max_header_list_size limits <? next then Err HeaderListTooLarge else Ok next
          end
      end
  end.

Definition decode_literal `{Profile} (p : list Z) (prefix_bits : Z) (t : DynamicTable)
    : outcome (option (header * Z)) :=
  r <-!~ decode_integer p prefix_bits;
  let '(name_idx, n) := r in
  nm <-!~ (if name_idx =? 0 then
             rest <-! slice_from p n;
             q <-!~ decode_string rest;
             let '(nb, ns) := q in
             Ret (option_map (λ name, (name, n + ns)) (string_from_utf8 nb))
           else Ret (option_map (λ h : header, (h.1, n)) (table_get t name_idx)));
  let '(name, used) := nm in
  rest <-! slice_from p used;
  q <-!~ decode_string rest;
  let '(vb, vs) := q in
  Ret (option_map (λ value, ((name, value), used + vs)) (string_from_utf8 vb)).

(** One representation: what it adds to the header list, the size counted so far,
    the table and the rest of the block. *)
Definition decode_field `{Profile} (p : list Z) (b0 : Z) (t : DynamicTable) (limits : DecodeLimits) (decoded_size : Z)
    : outcome (result (option header * Z * DynamicTable * Z) DecodeError) :=
  if negb (Z.land b0 128 =? 0) then
    o <-! decode_integer p 7;
    match o with
    | None => Ret (Err Malformed)
    | Some (idx, n) =>
        match table_get t idx with
        | None => Ret (Err Malformed)
        | Some h => Ret (s <-? checked_header_list_size decoded_size h limits; Ok (Some h, s, t, n))
        end
    end
  else if negb (Z.land b0 64 =? 0) then
    o <-! decode_literal p 6 t;
    match o with
    | None => Ret (Err Malformed)
    | Some (h, used) =>
        Ret (s <-? checked_header_list_size decoded_size h limits; Ok (Some h, s, table_insert t h, used))
    end
  else if negb (Z.land b0 32 =? 0) then
    o <-! decode_integer p 5;
    match o with
    | None => Ret (Err Malformed)
    | Some (max, n) =>
        if max_dynamic_table_size limits <? max then Ret (Err DynamicTableSizeUpdateTooLarge)
        else Ret (Ok (None, decoded_size, set_max_size t max, n))
    end
  else
    o <-! decode_literal p 4 t;
    match o with
    | None => Ret (Err Malformed)
    | Some (h, used) => Ret (s <-? checked_header_list_size decoded_size h limits; Ok (Some h, s, t, used))
    end.

(** [while !p.is_empty()]: each turn uses a byte at least, so the length of the block
    bounds the turns ([decode_block_fuel]). *)
Fixpoint decode_block `{Profile} (fuel : nat) (p : list Z) (t : DynamicTable) (limits : DecodeLimits)
    (decoded_size : Z) (out : list header) : outcome (DynamicTable * result (list header) DecodeError) :=
  match p with
  | [] => Ret (t, Ok out)
  | b0 :: _ =>
      match fuel with
      | O => Panic
      | S fuel' =>
          r <-! decode_field p b0 t limits decoded_size;
          match r with
          | Err e => Ret (t, Err e)
          | Ok (h, s, t', used) =>
              p' <-! slice_from p used;
              decode_block fuel' p' t' limits s (out ++ option_list h)
          end
      end
  end.

Definition decode_header_block_limited `{Profile} (block : list Z) (t : DynamicTable) (limits : DecodeLimits)
    : outcome (DynamicTable * result (list header) DecodeError) :=
  decode_block (length block) block t limits 0 [].

Definition decode_header_block `{Profile} (block : list Z) (t : DynamicTable)
    : outcome (DynamicTable * option (list header)) :=
  r <-! decode_header_block_limited block t default_limits;
  Ret (r.1, match r.2 with Ok hs => Some hs | Err _ => None end).

(** [iter().position(..)]. *)
Fixpoint position {A} (f : A → bool) (l : list A) : option Z :=
  match l with
  | [] => None
  | x :: l' => if f x then Some 0 else Z.succ <$> position f l'
  end.

Definition encode_header (h : header) : list Z :=
  match position (λ e, bool_decide (e.1 = h.1) && bool_decide (e.2 = h.2)) STATIC_TABLE with
  | Some i => encode_integer (i + 1) 7 128
  | None =>
      match position (λ e, bool_decide (e.1 = h.1)) STATIC_TABLE with
      | Some i => encode_integer (i + 1) 4 0
      | None => encode_integer 0 4 0 ++ encode_string (as_bytes h.1)
      end ++ encode_string (as_bytes h.2)
  end.

Definition encode_header_block (headers : list header) : list Z := headers ≫= encode_header.
