(* ===== verification/HpackTheory.v ===== *)
(** * HpackTheory: integers, strings and header lists survive the wire

    Integers and header lists are read back as written, in both build profiles; what
    a decoder answers is within bounds on every input; the dynamic table keeps its
    size equal to that of its entries and below its maximum whatever is decoded, and
    eviction keeps the longest prefix that fits; a string whose announced length
    wraps around panics, exactly then. *)

From S2P Require Import Prelude Bytes Huffman Hpack.

Local Open Scope Z_scope.
Local Open Scope cruft_scope.

#[local] Opaque STATIC_TABLE.

(** ** Integers *)

Lemma integer_tail_loop_ok fuel v : 0 ≤ v < 2 ^ Z.of_nat fuel → bytes_ok (integer_tail_loop fuel v).
Proof.
  revert v. induction fuel as [|fuel IH]; intros v Hv; simpl; [repeat constructor; simpl in *; lia|].
  destruct (Z.leb_spec 128 v); [|repeat constructor; apply as_u8_ok]. constructor.
  - pose proof (Z.mod_pos_bound v 128 ltac:(lia)). rewrite as_u8_id by (unfold is_u8; lia).
    rewrite Z.lor_comm, (lor_add_disjoint 128 _ 7) by (done || lia). unfold is_u8. lia.
  - apply IH. rewrite Nat2Z.inj_succ, Z.pow_succ_r in Hv by lia. split; [apply Z.div_pos; lia|].
    apply Z.div_lt_upper_bound; lia.
Qed.

Lemma tail_byte_flags v : 0 ≤ v →
  let b := Z.lor (as_u8 (v `mod` 128)) 128 in Z.land b 127 = v `mod` 128 ∧ (Z.land b 128 =? 0) = false.
Proof.
  intros Hv b. pose proof (Z.mod_pos_bound v 128 ltac:(lia)) as Hm. subst b.
  assert (is_u8 (v `mod` 128)) as Hb by (unfold is_u8; lia). rewrite as_u8_id by done.
  rewrite Z.lor_comm, (lor_add_disjoint 128 _ 7) by (done || lia). split.
  - change 127 with (2 ^ 7 - 1). rewrite land_low by lia. change (2 ^ 7) with 128.
    rewrite <-(Z.mod_add _ (-1)) by lia. rewrite Z.mod_small; lia.
  - rewrite land_128 by (unfold is_u8; lia). lia.
Qed.

Section integers.
Context `{Profile}.

Lemma decode_tail_loop fuel v value m i rest :
  0 ≤ v < 2 ^ Z.of_nat fuel → 0 ≤ m → 0 ≤ value → value + v * 2 ^ m ≤ u64_max →
  decode_integer_tail (integer_tail_loop fuel v ++ rest) value m i =
    Ret (Some (value + v * 2 ^ m, i + len (integer_tail_loop fuel v))).
Proof.
  revert v value m i. induction fuel as [|fuel IH]; intros v value m i Hv Hm Hval Hmax; simpl.
  - assert (v = 0) as -> by (simpl in Hv; lia). simpl. rewrite Z.shiftl_0_l, add64_exact by (change (wrap64 0) with 0; lia). simpl.
    done.
  - destruct (Z.leb_spec 128 v) as [Hc|Hc].
    + destruct (tail_byte_flags v) as [E1 E2]; [lia|]. simpl. rewrite E1, E2.
      pose proof (Z.div_mod v 128 ltac:(lia)) as Hdm. pose proof (Z.mod_pos_bound v 128 ltac:(lia)).
      pose proof (Z.pow_pos_nonneg 2 m ltac:(lia) Hm) as Hp. assert (0 ≤ v / 128) by (apply Z.div_pos; lia).
      assert (2 ^ (m + 7) = 2 ^ m * 128) as Hp7 by (rewrite Z.pow_add_r by lia; lia).
      rewrite Z.shiftl_mul_pow2, wrap64_id by (try (unfold is_u64; nia); lia).
      rewrite add64_exact by nia. simpl. rewrite (proj2 (Z.ltb_ge _ _)).
      * rewrite IH; [|split; [done|]| lia|nia|rewrite Hp7; nia].
        -- do 3 f_equal; [rewrite Hp7; nia|]. rewrite len_cons. lia.
        -- rewrite Nat2Z.inj_succ, Z.pow_succ_r in Hv by lia. apply Z.div_lt_upper_bound; lia.
      * destruct (Z.le_gt_cases (m + 7) 63) as [|Hb]; [done|exfalso].
        assert (2 ^ 64 ≤ 2 ^ (m + 7)) by (apply Z.pow_le_mono_r; lia).
        change (2 ^ 64) with 18446744073709551616 in *. unfold u64_max in *. nia.
    + simpl. rewrite as_u8_id by (unfold is_u8; lia). change 127 with (2 ^ 7 - 1). rewrite land_low, Z.mod_small by (simpl; lia).
      rewrite land_128, (proj2 (Z.ltb_lt _ _)) by (try (unfold is_u8); lia).
      pose proof (Z.pow_pos_nonneg 2 m ltac:(lia) Hm) as Hp.
      rewrite Z.shiftl_mul_pow2, wrap64_id by (try (unfold is_u64; nia); lia).
      rewrite add64_exact by nia. simpl. done.
Qed.

Lemma log2_fuel v : 0 ≤ v → 0 ≤ v < 2 ^ Z.of_nat (S (Z.to_nat (Z.log2 v))).
Proof.
  intros Hv. split; [done|]. rewrite Nat2Z.inj_succ, Z2Nat.id by apply Z.log2_nonneg.
  destruct (Z.eq_dec v 0) as [->|]; [done|]. apply Z.log2_spec. lia.
Qed.

(** What a prefix must leave free, and the first byte an encoded integer has. *)
Definition prefix_ok (n prefix : Z) : Prop := 1 ≤ n ≤ 8 ∧ is_u8 prefix ∧ prefix `mod` 2 ^ n = 0.

Lemma prefix_pow n : 1 ≤ n ≤ 8 → 2 ≤ 2 ^ n ≤ 256.
Proof.
  intros Hn. pose proof (Z.pow_le_mono_r 2 1 n ltac:(lia)). pose proof (Z.pow_le_mono_r 2 n 8 ltac:(lia)).
  change (2 ^ 1) with 2 in *. change (2 ^ 8) with 256 in *. lia.
Qed.

Lemma prefix_room n prefix v :
  prefix_ok n prefix → 0 ≤ v < 2 ^ n → Z.lor prefix (as_u8 v) = prefix + v ∧ is_u8 (prefix + v).
Proof.
  intros (Hn & Hp & Hmod) Hv. pose proof (prefix_pow n Hn) as H2.
  rewrite as_u8_id by (unfold is_u8; lia). rewrite (lor_add_disjoint _ _ n) by lia. split; [done|].
  unfold is_u8 in *. pose proof (Z.div_mod prefix (2 ^ n) ltac:(lia)) as Hd. rewrite Hmod in Hd.
  assert (256 = 2 ^ n * 2 ^ (8 - n)) by (rewrite <-Z.pow_add_r by lia; by replace (n + (8 - n)) with 8 by lia).
  assert (prefix / 2 ^ n < 2 ^ (8 - n)) by (apply Z.div_lt_upper_bound; lia).
  assert (2 ^ n * (prefix / 2 ^ n + 1) ≤ 2 ^ n * 2 ^ (8 - n)) by (apply Z.mul_le_mono_nonneg_l; lia). lia.
Qed.

Lemma encode_integer_shape value n prefix :
  prefix_ok n prefix → 0 ≤ value →
  ∃ tail, encode_integer value n prefix = prefix + Z.min value (2 ^ n - 1) :: tail ∧
          is_u8 (prefix + Z.min value (2 ^ n - 1)) ∧ bytes_ok tail ∧ (value < 2 ^ n - 1 → tail = []).
Proof.
  intros Hp Hv. pose proof (prefix_pow n (proj1 Hp)) as H2. unfold encode_integer. rewrite Z.shiftl_1_l.
  destruct (Z.ltb_spec value (2 ^ n - 1)) as [Hlt|Hge].
  - destruct (prefix_room n prefix value Hp ltac:(lia)) as [-> Hu]. rewrite Z.min_l by lia. exists []. split_and!; [done|done|constructor|done].
  - destruct (prefix_room n prefix (2 ^ n - 1) Hp ltac:(lia)) as [-> Hu]. rewrite Z.min_r by lia. eexists.
    split_and!; [done|done| |lia]. apply integer_tail_loop_ok, log2_fuel. lia.
Qed.

Lemma encode_integer_ok value n prefix : prefix_ok n prefix → 0 ≤ value → bytes_ok (encode_integer value n prefix).
Proof. intros Hp Hv. destruct (encode_integer_shape value n prefix Hp Hv) as (t & -> & H1 & H2 & _). by constructor. Qed.

Lemma decode_encode_integer value n prefix rest :
  prefix_ok n prefix → is_u64 value →
  decode_integer (encode_integer value n prefix ++ rest) n = Ret (Some (value, len (encode_integer value n prefix))).
Proof.
  intros Hp Hv. pose proof (prefix_pow n (proj1 Hp)) as H2. pose proof Hp as (Hn & Hp1 & Hp2).
  assert (∀ v, 0 ≤ v < 2 ^ n → Z.land (Z.lor prefix (as_u8 v)) (2 ^ n - 1) = v) as Hland.
  { intros v Hv'. destruct (prefix_room n prefix v Hp Hv') as [-> _].
    rewrite land_low, Z.add_mod, Hp2, Z.add_0_l, Z.mod_mod by lia. by apply Z.mod_small. }
  unfold decode_integer, encode_integer, is_u64 in *. rewrite Z.shiftl_1_l.
  destruct (Z.ltb_spec value (2 ^ n - 1)) as [Hlt|Hge]; simpl; rewrite Hland by lia.
  - by rewrite (proj2 (Z.ltb_lt _ _)).
  - rewrite Z.ltb_irrefl. unfold integer_tail.
    rewrite decode_tail_loop; [|apply log2_fuel; lia|lia..]. rewrite Z.pow_0_r, len_cons. do 3 f_equal; lia.
Qed.

(** *** Bounds on every input *)

Definition tail_answer (buf : list Z) (i : Z) (o : outcome (option (Z * Z))) : Prop :=
  match o with
  | Ret (Some (v, k)) => is_u64 v ∧ i < k ≤ i + len buf
  | Ret None => True
  | Panic => overflow_checks = true
  end.

Lemma decode_tail_bounds buf value m i : tail_answer buf i (decode_integer_tail buf value m i).
Proof.
  revert value m i. induction buf as [|b buf IH]; intros value m i; simpl; [done|].
  unfold add64 at 1. destruct (overflow_checks && _) eqn:Eo; simpl; [by apply andb_true_iff in Eo as [? _]|].
  destruct (Z.land b 128 =? 0); simpl.
  - split; [apply wrap64_ok|]. rewrite len_cons. pose proof (len_nonneg buf). lia.
  - destruct (63 <? m + 7); simpl; [done|]. generalize (IH (wrap64 (value + wrap64 (Z.shiftl (Z.land b 127) m))) (m + 7) (i + 1)).
    destruct (decode_integer_tail _ _ _ _) as [[[v k]|]|]; simpl; [|done..]. intros [? ?]. rewrite len_cons. split; [done|lia].
Qed.

Lemma decode_tail_steps buf value m i v k :
  decode_integer_tail buf value m i = Ret (Some (v, k)) → 0 ≤ m → 7 * (k - i - 1) ≤ Z.max (63 - m) 0.
Proof.
  revert value m i. induction buf as [|b buf IH]; intros value m i; simpl; [done|].
  unfold add64 at 1. destruct (overflow_checks && _); simpl; [done|].
  destruct (Z.land b 128 =? 0); [intros [= <- <-]; lia|].
  destruct (Z.ltb_spec 63 (m + 7)); [done|]. intros E Hm. apply IH in E; lia.
Qed.

Lemma decode_integer_answer buf n v k :
  1 ≤ n ≤ 8 → bytes_ok buf → decode_integer buf n = Ret (Some (v, k)) → is_u64 v ∧ 1 ≤ k ≤ len buf ∧ k ≤ 11.
Proof.
  intros Hn Hb. destruct buf as [|b buf]; simpl; [done|]. pose proof (prefix_pow n Hn) as H2.
  rewrite Z.shiftl_1_l. destruct (Z.ltb_spec (Z.land b (2 ^ n - 1)) (2 ^ n - 1)).
  - intros [= <- <-]. rewrite len_cons. pose proof (len_nonneg buf).
    rewrite land_low in * by lia. pose proof (Z.mod_pos_bound b (2 ^ n) ltac:(lia)). unfold is_u64, u64_max. lia.
  - intros E. pose proof (decode_tail_bounds buf (2 ^ n - 1) 0 1) as Hb'. pose proof (decode_tail_steps _ _ _ _ _ _ E ltac:(lia)).
    rewrite E in Hb'. destruct Hb' as [? ?]. rewrite len_cons. split_and!; [done|lia..].
Qed.
End integers.

(** ** Strings *)

Lemma prefix_ok_7_0 : prefix_ok 7 0.
Proof. done. Qed.

Section strings.
Context `{Profile}.

Lemma decode_string_integer buf slen n :
  decode_integer buf 7 = Ret (Some (slen, n)) →
  decode_string buf =
    (stop <-! add64 n slen;
     if len buf <? stop then Ret None
     else s <-! slice buf n stop;
          if negb (Z.land (default 0 (head buf)) 128 =? 0)
          then Ret (option_map (λ s, (s, stop)) (huffman_decode s)) else Ret (Some (s, stop))).
Proof. intros E. unfold decode_string. destruct buf as [|b buf]; [done|]. rewrite E. done. Qed.

(** The content announced by a length, plain or Huffman-coded by the prefix. *)
Lemma decode_framed content prefix rest :
  prefix_ok 7 prefix → len content + 11 ≤ u64_max →
  let coded := encode_integer (len content) 7 prefix ++ content in
  decode_string (coded ++ rest) =
    Ret (if prefix =? 0 then Some (content, len coded) else option_map (λ s, (s, len coded)) (huffman_decode content)).
Proof.
  intros Hp Hlen coded. subst coded. pose proof (len_nonneg content) as H0.
  assert (is_u64 (len content)) as H64 by (unfold is_u64; lia).
  pose proof (encode_integer_ok (len content) 7 prefix Hp H0) as Henc.
  pose proof (decode_encode_integer (len content) 7 prefix [] Hp H64) as E0. rewrite app_nil_r in E0.
  destruct (decode_integer_answer _ 7 _ _ ltac:(lia) Henc E0) as (_ & Hk & Hk11).
  rewrite <-(assoc_L (++)), len_app.
  rewrite (decode_string_integer _ _ _ (decode_encode_integer (len content) 7 prefix (content ++ rest) Hp H64)), add64_exact by lia.
  cbn [outcome_bind]. rewrite (proj2 (Z.ltb_ge _ _)) by (rewrite !len_app; pose proof (len_nonneg rest); lia).
  rewrite slice_middle by done. cbn [outcome_bind].
  destruct (encode_integer_shape (len content) 7 prefix Hp H0) as (tail & Esh & Hb0 & _ & _).
  assert (default 0 (head (encode_integer (len content) 7 prefix ++ content ++ rest)) = prefix + Z.min (len content) (2 ^ 7 - 1)) as ->
    by by rewrite Esh.
  rewrite land_128 by done. destruct Hp as (_ & Hpu & Hpm). change (2 ^ 7) with 128 in *. unfold is_u8 in Hpu.
  assert (prefix = 0 ∨ prefix = 128) as [-> | ->] by (pose proof (Z.div_mod prefix 128); lia).
  - rewrite (proj2 (Z.ltb_lt _ _)) by lia. done.
  - rewrite (proj2 (Z.ltb_ge _ _)) by lia. done.
Qed.

(** Plain strings come back, and so do Huffman-coded ones. *)
Lemma decode_encode_string s rest :
  bytes_ok s → len s + 11 ≤ u64_max → decode_string (encode_string s ++ rest) = Ret (Some (s, len (encode_string s))).
Proof. intros _ Hlen. by apply (decode_framed s 0 rest prefix_ok_7_0). Qed.

Lemma decode_huffman_string s rest :
  bytes_ok s → len (huffman_encode s) + 11 ≤ u64_max →
  let coded := encode_integer (len (huffman_encode s)) 7 128 ++ huffman_encode s in
  decode_string (coded ++ rest) = Ret (Some (s, len coded)).
Proof.
  intros Hs Hlen coded. subst coded. rewrite decode_framed by done. change (128 =? 0) with false. cbv iota.
  by rewrite huffman_decode_encode.
Qed.

(** The announced length decides: past the end of a 64-bit address space, and only
    then, reading a string panics. *)
Lemma decode_string_panic buf slen n :
  bytes_ok buf → decode_integer buf 7 = Ret (Some (slen, n)) → decode_string buf = Panic ↔ u64_max < n + slen.
Proof.
  intros Hb E. destruct (decode_integer_answer buf 7 _ _ ltac:(lia) Hb E) as ([Hv1 Hv2] & Hk & Hk11).
  rewrite (decode_string_integer _ _ _ E). split.
  - intros Hp. destruct (Z.le_gt_cases (n + slen) u64_max) as [Hle|]; [exfalso|done].
    rewrite add64_exact in Hp by lia. simpl in Hp. destruct (Z.ltb_spec (len buf) (n + slen)); [done|].
    rewrite slice_ok in Hp by lia. simpl in Hp. destruct (negb _); [|done].
    by destruct (huffman_decode _).
  - intros Hov. unfold add64. destruct overflow_checks; simpl; [by rewrite (proj2 (Z.ltb_lt _ _))|].
    assert (wrap64 (n + slen) = n + slen - u64_modulus) as Ew.
    { unfold wrap64. rewrite <-(Z.mod_add _ (-1)) by done. apply Z.mod_small. unfold u64_max, u64_modulus, len in *. lia. }
    unfold u64_modulus, u64_max in *. rewrite (proj2 (Z.ltb_ge _ _)) by lia. by rewrite slice_panics by lia.
Qed.
End strings.

(** ** The dynamic table *)

Fixpoint total_size (l : list header) : Z :=
  match l with [] => 0 | h :: l' => entry_size h + total_size l' end.

(** The size is that of the entries, and within the maximum. *)
Definition table_wf (t : DynamicTable) : Prop := size t = total_size (entries t) ∧ size t ≤ max_size t.

(** The longest prefix that fits. *)
Fixpoint fitting (max : Z) (l : list header) : list header :=
  match l with
  | [] => []
  | h :: l' => if entry_size h <=? max then h :: fitting (max - entry_size h) l' else []
  end.

Lemma entry_size_ge h : 32 ≤ entry_size h.
Proof. unfold entry_size, str_len. pose proof (len_nonneg (as_bytes h.1)). pose proof (len_nonneg (as_bytes h.2)). lia. Qed.

Lemma total_size_nonneg l : 32 * len l ≤ total_size l.
Proof. induction l as [|h l IH]; simpl; [done|]. rewrite len_cons. pose proof (entry_size_ge h). lia. Qed.

Lemma total_size_app l k : total_size (l ++ k) = total_size l + total_size k.
Proof. induction l as [|h l IH]; simpl; lia. Qed.

Lemma fitting_all max l : total_size l ≤ max → fitting max l = l.
Proof.
  revert max. induction l as [|h l IH]; intros max Hm; simpl in *; [done|].
  pose proof (total_size_nonneg l). pose proof (len_nonneg l). rewrite (proj2 (Z.leb_le _ _)), IH by lia. done.
Qed.

Lemma fitting_snoc max l h : max < total_size (l ++ [h]) → fitting max (l ++ [h]) = fitting max l.
Proof.
  revert max. induction l as [|g l IH]; intros max Hm; simpl in *; [by rewrite (proj2 (Z.leb_gt _ _)) by lia|].
  destruct (entry_size g <=? max); [|done]. rewrite IH; [done|lia].
Qed.

(** Evicting from the back keeps the longest prefix that fits. *)
Lemma evict_back_spec l s max :
  0 ≤ max → s = total_size (rev l) →
  ∃ r, evict_back l s max = (r, total_size (rev r)) ∧ rev r = fitting max (rev l) ∧ total_size (rev r) ≤ max.
Proof.
  intros Hmax. revert s. induction l as [|h l IH]; intros s ->; simpl.
  - rewrite (proj2 (Z.ltb_ge _ _)) by lia. exists []. split_and!; [done..|simpl; lia].
  - destruct (Z.ltb_spec max (total_size (rev l ++ [h]))) as [Hlt|Hge].
    + rewrite fitting_snoc by done. apply IH. rewrite total_size_app. simpl. lia.
    + exists (h :: l). split_and!; [done|by rewrite fitting_all|done].
Qed.

Lemma evict_spec t :
  0 ≤ max_size t → size t = total_size (entries t) →
  table_wf (evict t) ∧ entries (evict t) = fitting (max_size t) (entries t) ∧ max_size (evict t) = max_size t.
Proof.
  intros Hmax Hs. unfold evict, table_wf.
  destruct (evict_back_spec (rev (entries t)) (size t) (max_size t) Hmax) as (r & -> & Er & Hr); [by rewrite rev_involutive|].
  rewrite rev_involutive in Er. by simpl.
Qed.

Lemma table_insert_spec t h :
  table_wf t → 0 ≤ max_size t →
  table_wf (table_insert t h) ∧ entries (table_insert t h) = fitting (max_size t) (h :: entries t) ∧
  max_size (table_insert t h) = max_size t.
Proof. intros [Hs _] Hm. apply (evict_spec {| entries := h :: entries t; size := _; max_size := _ |}); simpl; lia. Qed.

Lemma set_max_size_spec t max :
  table_wf t → 0 ≤ max →
  table_wf (set_max_size t max) ∧ entries (set_max_size t max) = fitting max (entries t) ∧ max_size (set_max_size t max) = max.
Proof. intros [Hs _] Hm. by apply (evict_spec {| entries := entries t; size := size t; max_size := max |}). Qed.

(** ** Header blocks *)

Section blocks.
Context `{Profile}.

Lemma decode_string_used buf s k : bytes_ok buf → decode_string buf = Ret (Some (s, k)) → 1 ≤ k ≤ len buf.
Proof.
  intros Hb E. destruct buf as [|b buf]; [done|]. destruct (decode_integer (b :: buf) 7) as [[[slen n]|]|] eqn:Ei;
    [|unfold decode_string in E; by rewrite Ei in E..].
  destruct (decode_integer_answer _ 7 _ _ ltac:(lia) Hb Ei) as ([Hv1 Hv2] & Hk & _).
  destruct (Z.le_gt_cases (n + slen) u64_max) as [Hle|Hgt].
  - rewrite (decode_string_integer _ _ _ Ei), add64_exact in E by lia. cbn [outcome_bind] in E.
    destruct (Z.ltb_spec (len (b :: buf)) (n + slen)); [done|]. rewrite slice_ok in E by lia. cbn [outcome_bind] in E.
    destruct (negb _); [|injection E as <- <-; lia]. destruct (huffman_decode _); [|done]. injection E as <- <-. lia.
  - apply (decode_string_panic _ _ _ Hb Ei) in Hgt. congruence.
Qed.

Lemma slice_from_bytes (l r : list Z) a : bytes_ok l → slice_from l a = Ret r → bytes_ok r.
Proof.
  unfold slice_from, slice. destruct (_ && _); [|done]. intros Hl [= <-]. by apply Forall_take, Forall_drop.
Qed.

Lemma slice_from_len {A} (l r : list A) a : 0 ≤ a → slice_from l a = Ret r → len r = len l - a.
Proof.
  unfold slice_from, slice. intros Ha. destruct (Z.leb_spec a (len l)); [|done]. rewrite Z.leb_refl. intros [= <-].
  unfold len in *. rewrite length_take, length_drop. lia.
Qed.

Lemma decode_literal_used p n t h k :
  1 ≤ n ≤ 8 → bytes_ok p → decode_literal p n t = Ret (Some (h, k)) → 1 ≤ k ≤ len p.
Proof.
  intros Hn Hp. unfold decode_literal. destruct (decode_integer p n) as [[[idx i]|]|] eqn:Ei; [|done..].
  destruct (decode_integer_answer _ n _ _ Hn Hp Ei) as (_ & Hi & _). cbn [maybe_bind].
  assert (∀ name used, i ≤ used →
    (rest <-! slice_from p used; q <-!~ decode_string rest;
     let '(vb, vs) := q in Ret (option_map (λ value, ((name, value), used + vs)) (string_from_utf8 vb))) = Ret (Some (h, k)) →
    1 ≤ k ≤ len p) as Hvalue.
  { intros name used Hu E. destruct (slice_from p used) as [rest|] eqn:Es; [|done]. cbn [outcome_bind] in E.
    pose proof (slice_from_bytes _ _ _ Hp Es) as Hr. apply slice_from_len in Es; [|lia].
    destruct (decode_string rest) as [[[vb vs]|]|] eqn:Ed; [|done..]. apply decode_string_used in Ed; [|done].
    cbn [maybe_bind] in E. destruct (string_from_utf8 vb); [|done]. injection E as <- <-. lia. }
  destruct (idx =? 0).
  - destruct (slice_from p i) as [rest|] eqn:Es; [|done]. cbn [outcome_bind].
    pose proof (slice_from_bytes _ _ _ Hp Es) as Hr.
    destruct (decode_string rest) as [[[nb ns]|]|] eqn:Ed; [|done..]. apply decode_string_used in Ed; [|done].
    cbn [maybe_bind]. destruct (string_from_utf8 nb) as [name|]; [|done]. cbn [option_map maybe_bind]. apply Hvalue. lia.
  - destruct (table_get t idx) as [e|]; [|done]. cbn [option_map maybe_bind]. apply Hvalue. lia.
Qed.

(** What a field leaves: a table that is well formed and within the limit, the size
    of the list grown by the header, and at least one byte used. *)
Lemma decode_field_spec p b0 t limits s o s' t' used :
  bytes_ok p → table_wf t → 0 ≤ max_size t ≤ max_dynamic_table_size limits → 0 ≤ s →
  decode_field p b0 t limits s = Ret (Ok (o, s', t', used)) →
  table_wf t' ∧ 0 ≤ max_size t' ≤ max_dynamic_table_size limits ∧ 1 ≤ used ≤ len p ∧
  s' = s + total_size (option_list o) ∧ (s' ≤ max_header_list_size limits ∨ o = None).
Proof.
  intros Hp Hwf Hmax Hs. unfold decode_field.
  assert (∀ h t1 u, (s0 <-? checked_header_list_size s h limits; Ok (Some h, s0, t1, u)) = Ok (o, s', t', used) →
    t' = t1 ∧ used = u ∧ s' = s + total_size (option_list o) ∧ s' ≤ max_header_list_size limits) as Hchk.
  { intros h t1 u. unfold checked_header_list_size, checked_add64.
    destruct (_ <=? _); [|done]. destruct (_ <=? _); [|done]. destruct (_ <=? _); [|done].
    destruct (Z.ltb_spec (max_header_list_size limits) (s + str_len h.1 + str_len h.2 + 32)); [done|].
    simpl. intros [= <- <- <- <-]. simpl. unfold entry_size. split_and!; [done..|lia|lia]. }
  destruct (negb (Z.land b0 128 =? 0)); [|destruct (negb (Z.land b0 64 =? 0)); [|destruct (negb (Z.land b0 32 =? 0))]].
  - destruct (decode_integer p 7) as [[[idx n]|]|] eqn:E; [|done..]. cbn [outcome_bind].
    apply decode_integer_answer in E as (_ & ? & _); [|lia|done]. destruct (table_get t idx) as [h|]; [|done].
    intros [= (-> & -> & ? & ?)%Hchk]. split_and!; [done|lia..|by left].
  - destruct (decode_literal p 6 t) as [[[h n]|]|] eqn:E; [|done..]. cbn [outcome_bind].
    apply decode_literal_used in E; [|lia|done]. intros [= (-> & -> & ? & ?)%Hchk].
    destruct (table_insert_spec t h Hwf ltac:(lia)) as (? & _ & ->). split_and!; [done|lia..|by left].
  - destruct (decode_integer p 5) as [[[max n]|]|] eqn:E; [|done..]. cbn [outcome_bind].
    apply decode_integer_answer in E as ([? ?] & ? & _); [|lia|done].
    destruct (Z.ltb_spec (max_dynamic_table_size limits) max); [done|]. intros [= <- <- <- <-].
    destruct (set_max_size_spec t max Hwf ltac:(lia)) as (? & _ & ->). split_and!; [done|lia..|simpl; lia|by right].
  - destruct (decode_literal p 4 t) as [[[h n]|]|] eqn:E; [|done..]. cbn [outcome_bind].
    apply decode_literal_used in E; [|lia|done]. intros [= (-> & -> & ? & ?)%Hchk]. split_and!; [done|lia..|by left].
Qed.

(** The fuel of the block loop is never what stops it. *)
Lemma decode_block_fuel f g p t limits s out :
  bytes_ok p → table_wf t → 0 ≤ max_size t ≤ max_dynamic_table_size limits → 0 ≤ s →
  (length p ≤ f)%nat → (length p ≤ g)%nat →
  decode_block f p t limits s out = decode_block g p t limits s out.
Proof.
  revert g p t s out. induction f as [|f IH]; intros g p t s out Hp Hwf Hm Hs Hf Hg; destruct p as [|b p]; [by destruct g|simpl in *; lia|by destruct g|].
  destruct g as [|g]; [simpl in *; lia|]. cbn [decode_block].
  destruct (decode_field (b :: p) b t limits s) as [[[[[o s'] t'] used]|e]|] eqn:E; [|done..]. cbn [outcome_bind].
  destruct (decode_field_spec _ _ _ _ _ _ _ _ _ Hp Hwf Hm Hs E) as (Hwf' & Hm' & Hu & Hs' & _).
  destruct (slice_from (b :: p) used) as [p'|] eqn:Es; [|done]. cbn [outcome_bind].
  pose proof (slice_from_bytes _ _ _ Hp Es). apply slice_from_len in Es; [|lia].
  pose proof (total_size_nonneg (option_list o)). pose proof (len_nonneg (option_list o)).
  unfold len in Es, Hu. simpl length in *. apply IH; [done..|lia|lia|lia].
Qed.

Lemma decode_block_spec f p t limits s out t' r :
  bytes_ok p → table_wf t → 0 ≤ max_size t ≤ max_dynamic_table_size limits → s = total_size out →
  s ≤ max_header_list_size limits → decode_block f p t limits s out = Ret (t', r) →
  table_wf t' ∧ 0 ≤ max_size t' ≤ max_dynamic_table_size limits ∧
  ∀ hs, r = Ok hs → total_size hs ≤ max_header_list_size limits.
Proof.
  revert p t s out. induction f as [|f IH]; intros p t s out Hp Hwf Hm Hs Hle; destruct p as [|b p]; simpl; try done.
  1, 2: intros [= <- <-]; split_and!; [done|lia..|]; intros hs [= <-]; lia.
  destruct (decode_field (b :: p) b t limits s) as [[[[[o s'] t1] used]|e]|] eqn:E; simpl; [| |done].
  2:{ intros [= <- <-]. by split_and!; [done|lia..|]. }
  pose proof (total_size_nonneg out). pose proof (len_nonneg out). assert (0 ≤ s) as Hs0 by lia.
  destruct (decode_field_spec _ _ _ _ _ _ _ _ _ Hp Hwf Hm Hs0 E) as (Hwf' & Hm' & Hu & Hs' & Hl).
  destruct (slice_from (b :: p) used) as [p'|] eqn:Es; simpl; [|done]. intros E'.
  eapply IH in E'; [done| |done|done| |].
  - by eapply slice_from_bytes.
  - rewrite total_size_app. lia.
  - destruct Hl as [|Hnone]; [done|]. subst o. simpl in Hs'. lia.
Qed.
End blocks.

(** ** Header lists *)

Lemma position_Some {A} (f : A → bool) l i :
  position f l = Some i → 0 ≤ i < len l ∧ ∃ x, l !! Z.to_nat i = Some x ∧ f x = true.
Proof.
  revert i. induction l as [|x l IH]; intros i; simpl; [done|]. rewrite len_cons. pose proof (len_nonneg l).
  destruct (f x) eqn:Ef; [intros [= <-]; split; [lia|by exists x]|].
  destruct (position f l) as [j|]; [|done]. intros [= <-]. destruct (IH j eq_refl) as [Hj (y & Hy & Hf)].
  split; [lia|]. exists y. by rewrite Z2Nat.inj_succ by lia.
Qed.

Lemma static_len : len STATIC_TABLE = 61.
Proof. vm_compute. reflexivity. Qed.

Lemma table_get_static t i h :
  0 ≤ i < len STATIC_TABLE → STATIC_TABLE !! Z.to_nat i = Some h → table_get t (i + 1) = Some h.
Proof.
  intros Hi Hh. unfold table_get, get_at. rewrite (proj2 (Z.eqb_neq _ _)), (proj2 (Z.leb_le _ _)) by lia.
  replace (i + 1 - 1) with i by lia. rewrite (proj2 (Z.leb_le _ _)), (proj2 (Z.ltb_lt _ _)) by lia. done.
Qed.

(** A header that Rust can hold. *)
Definition header_ok (h : header) : Prop := is_str h.1 ∧ is_str h.2.

Section roundtrip.
Context `{Profile}.

Lemma first_byte_flags value n rest :
  n = 4 → 0 ≤ value → ∃ b l, encode_integer value n 0 ++ rest = b :: l ∧
  (Z.land b 128 =? 0) = true ∧ (Z.land b 64 =? 0) = true ∧ (Z.land b 32 =? 0) = true.
Proof.
  intros -> Hv. destruct (encode_integer_shape value 4 0) as (tail & -> & Hb & _); [done..|].
  eexists _, _. split; [done|]. change (2 ^ 4) with 16 in *. assert (0 + Z.min value (16 - 1) < 16) as Hlt by lia.
  revert Hb Hlt. generalize (0 + Z.min value (16 - 1)). intros b Hb Hlt.
  pose proof (byte_decide (λ b, negb (b <? 16) || ((Z.land b 128 =? 0) && (Z.land b 64 =? 0) && (Z.land b 32 =? 0)))
    ltac:(vm_compute; reflexivity) b Hb) as Hd. cbv beta in Hd.
  rewrite (proj2 (Z.ltb_lt _ _) Hlt) in Hd. simpl in Hd. rewrite !andb_true_iff in Hd. tauto.
Qed.

Lemma decode_literal_indexed t i name v value rest :
  0 ≤ i < len STATIC_TABLE → STATIC_TABLE !! Z.to_nat i = Some (name, v) →
  is_str value → str_len value + 11 ≤ u64_max →
  decode_literal (encode_integer (i + 1) 4 0 ++ encode_string (as_bytes value) ++ rest) 4 t =
    Ret (Some ((name, value), len (encode_integer (i + 1) 4 0 ++ encode_string (as_bytes value)))).
Proof.
  intros Hi Hn Hs Hl. rewrite static_len in Hi. unfold decode_literal.
  rewrite decode_encode_integer by (done || (unfold is_u64, u64_max; lia)). cbn [maybe_bind].
  rewrite (proj2 (Z.eqb_neq _ _)) by lia. rewrite (table_get_static t i _ ltac:(rewrite static_len; lia) Hn). cbn [option_map maybe_bind].
  rewrite slice_from_app by done. cbn [outcome_bind]. rewrite decode_encode_string by (done || apply as_bytes_ok).
  cbn [maybe_bind]. rewrite string_from_as_bytes by done. by rewrite len_app.
Qed.

Lemma decode_literal_new t name value rest :
  is_str name → is_str value → str_len name + 11 ≤ u64_max → str_len value + 11 ≤ u64_max →
  decode_literal (encode_integer 0 4 0 ++ encode_string (as_bytes name) ++ encode_string (as_bytes value) ++ rest) 4 t =
    Ret (Some ((name, value), len (encode_integer 0 4 0 ++ encode_string (as_bytes name) ++ encode_string (as_bytes value)))).
Proof.
  intros Hn Hv Hln Hlv. unfold decode_literal. rewrite decode_encode_integer by done. cbn [maybe_bind].
  change (0 =? 0) with true. cbv iota. rewrite slice_from_app by done. cbn [outcome_bind].
  rewrite decode_encode_string by (done || apply as_bytes_ok). cbn [maybe_bind]. rewrite string_from_as_bytes by done.
  cbn [option_map maybe_bind]. rewrite (assoc_L (++)), slice_from_app by by rewrite len_app. cbn [outcome_bind].
  rewrite decode_encode_string by (done || apply as_bytes_ok). cbn [maybe_bind]. rewrite string_from_as_bytes by done.
  rewrite !len_app. by rewrite <-Z.add_assoc.
Qed.

Lemma checked_size_ok s h limits :
  0 ≤ s → s + entry_size h ≤ max_header_list_size limits → max_header_list_size limits ≤ u64_max →
  checked_header_list_size s h limits = Ok (s + entry_size h).
Proof.
  intros Hs Hl Hm. unfold checked_header_list_size, checked_add64, entry_size, str_len in *.
  pose proof (len_nonneg (as_bytes h.1)). pose proof (len_nonneg (as_bytes h.2)).
  rewrite !(proj2 (Z.leb_le _ _)) by lia. rewrite (proj2 (Z.ltb_ge _ _)) by lia. f_equal. lia.
Qed.

(** One header: read back, with the table as it was. *)
Lemma decode_field_encode h t limits s rest :
  header_ok h → 0 ≤ s → s + entry_size h ≤ max_header_list_size limits → max_header_list_size limits ≤ u64_max →
  ∃ b l, encode_header h ++ rest = b :: l ∧
    decode_field (encode_header h ++ rest) b t limits s = Ret (Ok (Some h, s + entry_size h, t, len (encode_header h))).
Proof.
  intros [Hn Hv] Hs Hl Hm. destruct h as [name value]. cbn [fst snd] in Hn, Hv. pose proof (checked_size_ok s (name, value) limits Hs Hl Hm) as Hc.
  assert (str_len name + 11 ≤ u64_max ∧ str_len value + 11 ≤ u64_max) as [Hln Hlv].
  { unfold entry_size, str_len in *. cbn [fst snd] in *. pose proof (len_nonneg (as_bytes name)). pose proof (len_nonneg (as_bytes value)). lia. }
  unfold encode_header. cbn [fst snd].
  destruct (position (λ e, bool_decide (e.1 = name) && bool_decide (e.2 = value)) STATIC_TABLE) as [i|] eqn:Ep.
  - destruct (position_Some _ _ _ Ep) as (Hi & [n v] & Hx & Hf). cbn [fst snd] in Hf.
    apply andb_true_iff in Hf as [->%bool_decide_eq_true ->%bool_decide_eq_true].
    cbn [fst snd] in *. pose proof (table_get_static t i _ Hi Hx) as Hg. rewrite static_len in Hi.
    assert (prefix_ok 7 128) as Hp by done. destruct (encode_integer_shape (i + 1) 7 128 Hp ltac:(lia)) as (tail & Esh & Hb & _).
    eexists _, _. split; [by rewrite Esh|]. unfold decode_field. rewrite land_128, (proj2 (Z.ltb_ge _ _)) by (done || lia).
    simpl negb. cbv iota. rewrite decode_encode_integer by (done || (unfold is_u64, u64_max; lia)). cbn [outcome_bind].
    rewrite Hg, Hc. done.
  - destruct (position (λ e, bool_decide (e.1 = name)) STATIC_TABLE) as [i|] eqn:En.
    + destruct (position_Some _ _ _ En) as (Hi & [n v] & Hx & Hf). cbn [fst] in Hf. apply bool_decide_eq_true in Hf as ->. rewrite <-(assoc_L (++)).
      destruct (first_byte_flags (i + 1) 4 (encode_string (as_bytes value) ++ rest)) as (b & l & E & F1 & F2 & F3); [done|lia|].
      exists b, l. split; [done|]. unfold decode_field. rewrite F1, F2, F3. simpl negb. cbv iota.
      rewrite (decode_literal_indexed t i name v) by done. cbn [outcome_bind]. by rewrite Hc.
    + rewrite <- !(assoc_L (++)).
      destruct (first_byte_flags 0 4 (encode_string (as_bytes name) ++ encode_string (as_bytes value) ++ rest)) as (b & l & E & F1 & F2 & F3); [done|lia|].
      exists b, l. split; [done|]. unfold decode_field. rewrite F1, F2, F3. simpl negb. cbv iota.
      rewrite decode_literal_new by done. cbn [outcome_bind]. by rewrite Hc.
Qed.

Lemma decode_block_encode hs fuel t limits out :
  Forall header_ok hs → total_size (out ++ hs) ≤ max_header_list_size limits → max_header_list_size limits ≤ u64_max →
  (length (encode_header_block hs) ≤ fuel)%nat →
  decode_block fuel (encode_header_block hs) t limits (total_size out) out = Ret (t, Ok (out ++ hs)).
Proof.
  intros Hhs. revert fuel out. induction Hhs as [|h hs Hh _ IH]; intros fuel out Hl Hm Hf.
  { rewrite app_nil_r. by destruct fuel. }
  pose proof (total_size_nonneg out). pose proof (len_nonneg out). pose proof (total_size_nonneg hs). pose proof (len_nonneg hs).
  rewrite total_size_app in Hl. cbn [total_size] in Hl.
  change (encode_header_block (h :: hs)) with (encode_header h ++ encode_header_block hs) in *.
  destruct (decode_field_encode h t limits (total_size out) (encode_header_block hs) Hh) as (b & l & E & Ed); [lia..|].
  destruct fuel as [|fuel]; [rewrite E in Hf; simpl in Hf; lia|]. rewrite E at 1. cbn [decode_block]. rewrite <-E, Ed.
  cbn [outcome_bind]. rewrite slice_from_app by done. cbn [outcome_bind option_list].
  replace (total_size out + entry_size h) with (total_size (out ++ [h])) by (rewrite total_size_app; simpl; lia).
  assert (0 < length (encode_header h))%nat.
  { destruct (encode_header h) as [|] eqn:Eh; [|simpl; lia]. unfold decode_field in Ed.
    destruct (decode_field_encode h t limits (total_size out) [] Hh) as (? & ? & E' & _); [lia..|]. by rewrite Eh in E'. }
  rewrite length_app in Hf. change (option_list (Some h)) with [h]. rewrite (IH fuel (out ++ [h])); [|rewrite !total_size_app; simpl; lia|done|lia]. by rewrite <-(assoc_L (++)).
Qed.
End roundtrip.

(** ** Properties *)

Lemma decode_tail_short `{Profile} buf value m i :
  bytes_ok buf → 0 ≤ m → 0 ≤ value ≤ 255 + 2 ^ m → m + 7 * len buf ≤ 63 → decode_integer_tail buf value m i ≠ Panic.
Proof.
  intros Hb. revert value m i. induction Hb as [|b buf Hb0 _ IH]; intros value m i Hm Hv Hl; simpl; [done|].
  rewrite len_cons in Hl. pose proof (len_nonneg buf). pose proof (Z.pow_pos_nonneg 2 m ltac:(lia) Hm).
  assert (2 ^ (m + 7) ≤ 2 ^ 63) by (apply Z.pow_le_mono_r; lia).
  assert (2 ^ (m + 7) = 2 ^ m * 128) as E7 by (rewrite Z.pow_add_r by lia; lia). change (2 ^ 63) with 9223372036854775808 in *.
  change 127 with (2 ^ 7 - 1). rewrite land_low by lia. change (2 ^ 7) with 128.
  pose proof (Z.mod_pos_bound b 128 ltac:(lia)). rewrite Z.shiftl_mul_pow2 by lia.
  rewrite wrap64_id, add64_exact by (unfold is_u64, u64_max; nia). cbn [outcome_bind].
  destruct (_ =? 0); [done|]. destruct (63 <? m + 7); [done|]. apply IH; [lia|nia|lia].
Qed.

(** Reading an integer off any bytes, in either build profile, answers
    a 64-bit value and a length of at most eleven bytes that lies within the buffer,
    or [None]; a panic needs overflow checks and eleven bytes. *)
Lemma hpack_integer_bounds (checks : bool) (buf : list Z) (n : Z) :
  bytes_ok buf → 1 ≤ n ≤ 8 →
  match decode_integer (H := checks) buf n with
  | Ret (Some (v, k)) => is_u64 v ∧ 1 ≤ k ≤ len buf ∧ k ≤ 11
  | Ret None => True
  | Panic => checks = true ∧ 11 ≤ len buf
  end.
Proof.
  intros Hb Hn. destruct (decode_integer buf n) as [[[v k]|]|] eqn:E; [by eapply decode_integer_answer|done|].
  destruct buf as [|b buf]; [done|]. unfold decode_integer in E. destruct (_ <? _); [done|]. split.
  - pose proof (decode_tail_bounds (H := checks) buf (Z.shiftl 1 n - 1) 0 1) as Ht. by rewrite E in Ht.
  - destruct (Z.le_gt_cases 11 (len (b :: buf))) as [|Hl]; [done|exfalso]. rewrite len_cons in Hl.
    inversion_clear Hb. pose proof (prefix_pow n Hn). rewrite Z.shiftl_1_l in E.
    eapply decode_tail_short in E; [done..| |]; [change (2 ^ 0) with 1; lia|lia].
Qed.

(** C18: whether or not the build checks for overflow, reading a string whose
    length was read as [slen] in [n] bytes panics exactly when their sum passes the
    largest 64-bit value: the unchecked sum wraps to a position before the string and
    the slice is out of order.  Any other length is answered. *)
Theorem hpack_string_panics_iff (checks : bool) (buf : list Z) (slen n : Z) :
  bytes_ok buf → decode_integer (H := checks) buf 7 = Ret (Some (slen, n)) →
  decode_string (H := checks) buf = Panic ↔ u64_max < n + slen.
Proof. apply decode_string_panic. Qed.

Lemma hpack_string_panics_iff_witness :
  decode_string (H := false) [127; 128; 255; 255; 255; 255; 255; 255; 255; 255; 1] = Panic ↔ u64_max < 11 + u64_max.
Proof.
  apply (hpack_string_panics_iff false [127; 128; 255; 255; 255; 255; 255; 255; 255; 255; 1]);
    [repeat constructor; done|vm_compute; reflexivity].
Defined.

(** Huffman coding loses nothing: any bytes, coded and padded, decode
    to themselves, and what the encoder writes are bytes. *)
Lemma huffman_roundtrip (input : list Z) :
  bytes_ok input → huffman_decode (huffman_encode input) = Some input ∧ bytes_ok (huffman_encode input).
Proof. intros Hin. split; [by apply huffman_decode_encode|by apply huffman_encode_ok]. Qed.

(** Decoding any block, from a table in order and within the limit,
    in either build profile: whether it succeeds or fails, the table stays in order
    (its size is that of its entries and at most its maximum), its maximum stays within
    the limit and so do 32 bytes per entry, and a list that is answered is within the
    list limit.  An insertion keeps the longest prefix of newest entries that fits. *)
Lemma dynamic_table_bounded (checks : bool) (block : list Z) (t t' : DynamicTable) (limits : DecodeLimits)
    (r : result (list header) DecodeError) :
  bytes_ok block → table_wf t → 0 ≤ max_size t ≤ max_dynamic_table_size limits → 0 ≤ max_header_list_size limits →
  decode_header_block_limited (H := checks) block t limits = Ret (t', r) →
  (table_wf t' ∧ max_size t' ≤ max_dynamic_table_size limits ∧ 32 * len (entries t') ≤ max_dynamic_table_size limits) ∧
  (∀ hs, r = Ok hs → total_size hs ≤ max_header_list_size limits) ∧
  (∀ h, entries (table_insert t h) = fitting (max_size t) (h :: entries t)).
Proof.
  intros Hb Hwf Hm Hl E. eapply decode_block_spec in E as (Hwf' & Hm' & Hr); [|done..]. split_and!.
  - done.
  - lia.
  - destruct Hwf' as [Hs Hle]. pose proof (total_size_nonneg (entries t')). lia.
  - done.
  - intros h. apply table_insert_spec; [done|lia].
Qed.

(** C13: a header list of UTF-8 strings within the list limit, encoded,
    is decoded to itself, in either build profile, and the dynamic table of the decoder
    is left as it was (the encoder never refers to it). *)
Theorem hpack_headers_roundtrip (checks : bool) (hs : list header) (t : DynamicTable) (limits : DecodeLimits) :
  Forall header_ok hs → total_size hs ≤ max_header_list_size limits → max_header_list_size limits ≤ u64_max →
  decode_header_block_limited (H := checks) (encode_header_block hs) t limits = Ret (t, Ok hs).
Proof. intros Hhs Hl Hm. by apply (decode_block_encode hs _ t limits []). Qed.

Lemma hpack_headers_roundtrip_witness :
  decode_header_block_limited (H := true)
    (encode_header_block [(":status", "200"); ("content-type", "text/plain"); ("x-custom", "hello")]%string) (table_new 4096) default_limits =
  Ret (table_new 4096, Ok [(":status", "200"); ("content-type", "text/plain"); ("x-custom", "hello")]%string).
Proof.
  apply (hpack_headers_roundtrip true [(":status", "200"); ("content-type", "text/plain"); ("x-custom", "hello")]%string (table_new 4096) default_limits).
  - repeat constructor; done.
  - vm_compute. discriminate.
  - vm_compute. discriminate.
Defined.
