(* ===== verification/Http2Frames.v ===== *)
(** * Http2Frames: the frame layer of HTTP/2

    http2-codec/src/lib.rs: frame headers, frames, and the payloads of SETTINGS,
    WINDOW_UPDATE, PING, RST_STREAM, GOAWAY, DATA and HEADERS.  [take_frame] is an
    instance of [Prefixed], which is what the connection relies on. *)

From S2P Require Import Prelude Bytes.

Local Open Scope Z_scope.

Definition CONNECTION_PREFACE : list Z :=
  [80; 82; 73; 32; 42; 32; 72; 84; 84; 80; 47; 50; 46; 48; 13; 10; 13; 10; 83; 77; 13; 10; 13; 10].

Definition DEFAULT_MAX_FRAME_SIZE : Z := 16384.

Inductive FrameType : Type :=
| Data | Headers | Priority | RstStream | Settings | PushPromise | Ping | GoAwayFrame | WindowUpdate | Continuation
| Unknown (b : Z).

Definition frame_type_from_u8 (b : Z) : FrameType :=
  match b with
  | 0 => Data | 1 => Headers | 2 => Priority | 3 => RstStream | 4 => Settings | 5 => PushPromise
  | 6 => Ping | 7 => GoAwayFrame | 8 => WindowUpdate | 9 => Continuation | other => Unknown other
  end.

Definition frame_type_to_u8 (t : FrameType) : Z :=
  match t with
  | Data => 0 | Headers => 1 | Priority => 2 | RstStream => 3 | Settings => 4 | PushPromise => 5
  | Ping => 6 | GoAwayFrame => 7 | WindowUpdate => 8 | Continuation => 9 | Unknown b => b
  end.

Definition FLAG_END_STREAM : Z := 1.
Definition FLAG_ACK : Z := 1.
Definition FLAG_END_HEADERS : Z := 4.
Definition FLAG_PADDED : Z := 8.
Definition FLAG_PRIORITY : Z := 32.

Record FrameHeader := { fh_length : Z; fh_type : FrameType; fh_flags : Z; fh_stream_id : Z }.

Definition encode_frame_header (h : FrameHeader) : list Z :=
  let flen := Z.land (fh_length h) 0xFFFFFF in
  let sid := Z.land (fh_stream_id h) 0x7FFFFFFF in
  [as_u8 (Z.shiftr flen 16); as_u8 (Z.shiftr flen 8); as_u8 flen;
   frame_type_to_u8 (fh_type h); fh_flags h;
   as_u8 (Z.shiftr sid 24); as_u8 (Z.shiftr sid 16); as_u8 (Z.shiftr sid 8); as_u8 sid].

Definition decode_frame_header (b : list Z) : option FrameHeader :=
  match b with
  | b0 :: b1 :: b2 :: b3 :: b4 :: b5 :: b6 :: b7 :: b8 :: _ =>
      Some {| fh_length := Z.lor (Z.lor (Z.shiftl b0 16) (Z.shiftl b1 8)) b2;
              fh_type := frame_type_from_u8 b3;
              fh_flags := b4;
              fh_stream_id := Z.land (Z.lor (Z.lor (Z.lor (Z.shiftl b5 24) (Z.shiftl b6 16)) (Z.shiftl b7 8)) b8) 0x7FFFFFFF |}
  | _ => None
  end.

Record Frame := { f_header : FrameHeader; f_payload : list Z }.

Definition encode_frame (t : FrameType) (flags stream_id : Z) (payload : list Z) : list Z :=
  encode_frame_header {| fh_length := as_u32 (len payload); fh_type := t; fh_flags := flags; fh_stream_id := stream_id |} ++ payload.

Definition take_frame (buf : list Z) : option (Frame * nat) :=
  match decode_frame_header buf with
  | None => None
  | Some header =>
      let total := 9 + fh_length header in
      if len buf <? total then None
      else Some ({| f_header := header; f_payload := take (Z.to_nat (total - 9)) (drop 9 buf) |}, Z.to_nat total)
  end.

(** ** Settings *)

Definition SETTINGS_HEADER_TABLE_SIZE : Z := 1.
Definition SETTINGS_ENABLE_PUSH : Z := 2.
Definition SETTINGS_MAX_CONCURRENT_STREAMS : Z := 3.
Definition SETTINGS_INITIAL_WINDOW_SIZE : Z := 4.
Definition SETTINGS_MAX_FRAME_SIZE : Z := 5.
Definition SETTINGS_MAX_HEADER_LIST_SIZE : Z := 6.

Record Setting := { s_id : Z; s_value : Z }.

Definition encode_setting (s : Setting) : list Z := to_be_bytes 2 (s_id s) ++ to_be_bytes 4 (s_value s).

Definition encode_settings_payload (settings : list Setting) : list Z := settings ≫= encode_setting.

(** [chunks_exact(6).map(..)]: a shorter rest is dropped. *)
Fixpoint decode_settings_payload (payload : list Z) : list Setting :=
  match payload with
  | c0 :: c1 :: c2 :: c3 :: c4 :: c5 :: rest =>
      {| s_id := from_be_bytes [c0; c1]; s_value := from_be_bytes [c2; c3; c4; c5] |} :: decode_settings_payload rest
  | _ => []
  end.

Definition decode_settings_payload_checked (payload : list Z) : option (list Setting) :=
  if negb (len payload `mod` 6 =? 0) then None else Some (decode_settings_payload payload).

Definition encode_settings_frame (settings : list Setting) : list Z :=
  encode_frame Settings 0 0 (encode_settings_payload settings).

Definition encode_settings_ack : list Z := encode_frame Settings FLAG_ACK 0 [].

Definition ERR_PROTOCOL_ERROR : Z := 1.
Definition ERR_FLOW_CONTROL_ERROR : Z := 3.
Definition ERR_STREAM_CLOSED : Z := 5.
Definition ERR_FRAME_SIZE_ERROR : Z := 6.
Definition ERR_ENHANCE_YOUR_CALM : Z := 11.

(** ** Control frames *)

Definition encode_window_update (stream_id increment : Z) : list Z :=
  encode_frame WindowUpdate 0 stream_id (to_be_bytes 4 (Z.land increment 0x7FFFFFFF)).

Definition window_update_increment (payload : list Z) : option Z :=
  match payload with
  | [a; b; c; d] => Some (Z.land (from_be_bytes [a; b; c; d]) 0x7FFFFFFF)
  | _ => None
  end.

Definition encode_ping (opaque : list Z) : list Z := encode_frame Ping 0 0 opaque.
Definition encode_ping_ack (opaque : list Z) : list Z := encode_frame Ping FLAG_ACK 0 opaque.

Definition encode_rst_stream (stream_id error_code : Z) : list Z :=
  encode_frame RstStream 0 stream_id (to_be_bytes 4 error_code).

Record GoAway := { g_last_stream_id : Z; g_error_code : Z; g_debug_data : list Z }.

Definition encode_goaway (g : GoAway) : list Z :=
  encode_frame GoAwayFrame 0 0
    (to_be_bytes 4 (Z.land (g_last_stream_id g) 0x7FFFFFFF) ++ to_be_bytes 4 (g_error_code g) ++ g_debug_data g).

Definition decode_goaway (payload : list Z) : option GoAway :=
  match payload with
  | p0 :: p1 :: p2 :: p3 :: p4 :: p5 :: p6 :: p7 :: debug =>
      Some {| g_last_stream_id := Z.land (from_be_bytes [p0; p1; p2; p3]) 0x7FFFFFFF;
              g_error_code := from_be_bytes [p4; p5; p6; p7]; g_debug_data := debug |}
  | _ => None
  end.

(** ** DATA and HEADERS *)

Definition encode_data (stream_id : Z) (end_stream : bool) (data : list Z) : list Z :=
  encode_frame Data (if end_stream then FLAG_END_STREAM else 0) stream_id data.

(** [body[..body.len() - pad_len]], when there is that much. *)
Definition unpad (body : list Z) (pad_len : Z) : option (list Z) :=
  if len body <? pad_len then None else Some (take (Z.to_nat (len body - pad_len)) body).

Definition strip_padding (padded : bool) (payload : list Z) : option (list Z) :=
  if negb padded then Some payload
  else match payload with [] => None | pad_len :: body => unpad body pad_len end.

Definition has_flag (flags flag : Z) : bool := negb (Z.land flags flag =? 0).

Definition data_payload (f : Frame) : option (list Z) :=
  strip_padding (has_flag (fh_flags (f_header f)) FLAG_PADDED) (f_payload f).

Definition encode_headers (stream_id : Z) (header_block : list Z) (end_stream end_headers : bool) : list Z :=
  let flags := if end_stream then Z.lor 0 FLAG_END_STREAM else 0 in
  let flags := if end_headers then Z.lor flags FLAG_END_HEADERS else flags in
  encode_frame Headers flags stream_id header_block.

Definition header_block_fragment (f : Frame) : option (list Z) :=
  let flags := fh_flags (f_header f) in
  let skip_priority (p : list Z) (pad_len : Z) :=
    if has_flag flags FLAG_PRIORITY then if len p <? 5 then None else unpad (drop 5 p) pad_len
    else unpad p pad_len in
  if has_flag flags FLAG_PADDED then
    match f_payload f with [] => None | pl :: p => skip_priority p pl end
  else skip_priority (f_payload f) 0.

(** ** Round trips *)

(** The frames [encode_frame] can write: the length announced is the payload's and
    fits 24 bits, the stream id 31, and the type is one [from_u8] answers. *)
Definition frame_type_ok (t : FrameType) : Prop := match t with Unknown b => 10 ≤ b < 256 | _ => True end.

Definition frame_ok (f : Frame) : Prop :=
  fh_length (f_header f) = len (f_payload f) ∧ len (f_payload f) < 2 ^ 24 ∧ frame_type_ok (fh_type (f_header f)) ∧
  is_u8 (fh_flags (f_header f)) ∧ 0 ≤ fh_stream_id (f_header f) < 2 ^ 31.

Definition write_frame (f : Frame) : list Z :=
  encode_frame (fh_type (f_header f)) (fh_flags (f_header f)) (fh_stream_id (f_header f)) (f_payload f).

Lemma frame_type_roundtrip t : frame_type_ok t → frame_type_from_u8 (frame_type_to_u8 t) = t.
Proof.
  destruct t; try done. simpl. intros Hb. unfold frame_type_from_u8.
  destruct b as [|p|]; [lia| |lia]. do 4 (try destruct p as [p|p|]; try done; try lia).
Qed.

(** Three and four bytes put together with shifts are their big-endian word. *)
Lemma lor_be3 a b c : is_u8 a → is_u8 b → is_u8 c →
  Z.lor (Z.lor (Z.shiftl a 16) (Z.shiftl b 8)) c = from_be_bytes [a; b; c].
Proof.
  unfold is_u8. intros Ha Hb Hc. rewrite lor_shift_add by (rewrite ?Z.shiftl_mul_pow2; simpl; lia).
  rewrite (lor_add_disjoint _ _ 8); [|lia|simpl; lia|].
  - rewrite Z.shiftl_mul_pow2 by lia. unfold from_be_bytes. simpl. lia.
  - rewrite Z.shiftl_mul_pow2 by lia. change (2 ^ 16) with (256 * 2 ^ 8). rewrite Z.mul_assoc, <-Z.mul_add_distr_r.
    by apply Z.mod_mul.
Qed.

Lemma lor_be4 a b c d : is_u8 a → is_u8 b → is_u8 c → is_u8 d →
  Z.lor (Z.lor (Z.lor (Z.shiftl a 24) (Z.shiftl b 16)) (Z.shiftl c 8)) d = from_be_bytes [a; b; c; d].
Proof.
  intros Ha Hb Hc Hd.
  assert (Z.lor (Z.lor (Z.shiftl a 24) (Z.shiftl b 16)) (Z.shiftl c 8) = Z.shiftl (Z.lor (Z.lor (Z.shiftl a 16) (Z.shiftl b 8)) c) 8) as ->.
  { by rewrite !Z.shiftl_lor, !Z.shiftl_shiftl by lia. }
  rewrite lor_be3 by done. unfold is_u8 in Hd. rewrite lor_shift_add by (simpl; lia).
  change [a; b; c; d] with ([a; b; c] ++ [d]). by rewrite from_be_bytes_app.
Qed.

Lemma shift_bytes3 v : 0 ≤ v → [as_u8 (Z.shiftr v 16); as_u8 (Z.shiftr v 8); as_u8 v] = to_be_bytes 3 v.
Proof. intros Hv. unfold as_u8. rewrite !Z.shiftr_div_pow2 by lia. simpl. by rewrite Z.div_1_r. Qed.

Lemma shift_bytes4 v : 0 ≤ v →
  [as_u8 (Z.shiftr v 24); as_u8 (Z.shiftr v 16); as_u8 (Z.shiftr v 8); as_u8 v] = to_be_bytes 4 v.
Proof. intros Hv. unfold as_u8. rewrite !Z.shiftr_div_pow2 by lia. simpl. by rewrite Z.div_1_r. Qed.

Lemma land_31 v : 0 ≤ v < 2 ^ 31 → Z.land v 0x7FFFFFFF = v.
Proof. intros Hv. change 0x7FFFFFFF with (2 ^ 31 - 1). rewrite land_low by lia. by apply Z.mod_small. Qed.

Lemma decode_encode_frame_header h rest :
  0 ≤ fh_length h < 2 ^ 24 → frame_type_ok (fh_type h) → 0 ≤ fh_stream_id h < 2 ^ 31 →
  decode_frame_header (encode_frame_header h ++ rest) = Some h.
Proof.
  intros Hl Ht Hs. unfold encode_frame_header. rewrite land_31 by done.
  change 0xFFFFFF with (2 ^ 24 - 1). rewrite land_low, (Z.mod_small (fh_length h)) by lia.
  simpl app. unfold decode_frame_header. rewrite lor_be3, lor_be4 by apply as_u8_ok.
  rewrite shift_bytes3, shift_bytes4, !from_to_be_bytes by (simpl; lia).
  rewrite land_31, frame_type_roundtrip by done. by destruct h.
Qed.

Lemma decode_frame_header_app b c h : decode_frame_header b = Some h → decode_frame_header (b ++ c) = Some h.
Proof. by destruct b as [|? [|? [|? [|? [|? [|? [|? [|? [|? ?]]]]]]]]]. Qed.

Lemma decode_frame_header_len b h : decode_frame_header b = Some h → 9 ≤ len b.
Proof.
  destruct b as [|? [|? [|? [|? [|? [|? [|? [|? [|? ?]]]]]]]]]; try done. intros _.
  unfold len. simpl length. lia.
Qed.

Lemma decode_frame_header_bound b h : bytes_ok b → decode_frame_header b = Some h → 0 ≤ fh_length h < 2 ^ 24.
Proof.
  intros Hb. destruct b as [|b0 [|b1 [|b2 [|? [|? [|? [|? [|? [|? ?]]]]]]]]]; try done. intros [= <-]. simpl.
  do 3 (inversion_clear Hb as [|? ? Hx Hb']; rename Hx into Hq; pose proof Hq; clear Hq; rename Hb' into Hb).
  rewrite lor_be3 by done. apply (from_be_bytes_bound [b0; b1; b2]). unfold bytes_ok. rewrite !Forall_cons. auto using Forall_nil_2.
Qed.

Lemma encode_frame_header_ok h :
  frame_type_ok (fh_type h) → is_u8 (fh_flags h) → bytes_ok (encode_frame_header h).
Proof.
  intros Ht Hf. unfold encode_frame_header, bytes_ok.
  assert (is_u8 (frame_type_to_u8 (fh_type h))) by (destruct (fh_type h); unfold is_u8; simpl in *; lia).
  rewrite !Forall_cons. auto 20 using as_u8_ok, Forall_nil_2.
Qed.

Lemma encode_frame_header_length h : length (encode_frame_header h) = 9%nat.
Proof. done. Qed.

(** A frame complete at the front of a buffer. *)
Lemma take_frame_Some buf f n :
  bytes_ok buf → take_frame buf = Some (f, n) →
  n = (9 + length (f_payload f))%nat ∧ (n ≤ length buf)%nat ∧ fh_length (f_header f) = len (f_payload f) ∧
  decode_frame_header buf = Some (f_header f) ∧ take n buf = take 9 buf ++ f_payload f.
Proof.
  intros Hb. unfold take_frame. destruct (decode_frame_header buf) as [h|] eqn:Eh; [|done].
  pose proof (decode_frame_header_len _ _ Eh) as H9. pose proof (decode_frame_header_bound _ _ Hb Eh) as Hl.
  destruct (Z.ltb_spec (len buf) (9 + fh_length h)) as [|Hlen]; [done|]. intros [= <- <-]. simpl f_payload. simpl f_header.
  replace (9 + fh_length h - 9) with (fh_length h) by lia.
  assert (length (take (Z.to_nat (fh_length h)) (drop 9 buf)) = Z.to_nat (fh_length h)) as El.
  { rewrite length_take, length_drop. unfold len in *. lia. }
  unfold len in *. rewrite El. split_and!; [lia..|done|].
  replace (Z.to_nat (9 + fh_length h)) with (9 + Z.to_nat (fh_length h))%nat by lia. symmetry. apply take_take_drop.
Qed.

#[export] Instance frames_prefixed : Prefixed (λ f, frame_ok f ∧ bytes_ok (f_payload f)) write_frame take_frame.
Proof.
  split.
  - intros f [(_ & _ & Ht & Hf & _) Hp]. unfold write_frame, encode_frame.
    apply Forall_app. split; [by apply encode_frame_header_ok|done].
  - intros f rest [(Hl & Hmax & Ht & Hf & Hs) Hp]. unfold write_frame, encode_frame. rewrite <-(assoc_L (++)).
    pose proof (len_nonneg (f_payload f)) as H0. change (2 ^ 24) with 16777216 in Hmax.
    unfold as_u32. rewrite Z.mod_small by lia. set (h := {| fh_length := _ |}).
    assert (h = f_header f) as -> by (subst h; destruct f as [[]]; simpl in *; congruence).
    unfold take_frame. rewrite decode_encode_frame_header by (rewrite ?Hl; simpl; done || lia).
    rewrite Hl, (proj2 (Z.ltb_ge _ _)).
    2:{ rewrite !len_app. unfold len at 2. rewrite encode_frame_header_length. pose proof (len_nonneg rest). lia. }
    replace (9 + len (f_payload f) - 9) with (len (f_payload f)) by lia.
    rewrite drop_app_ge by (rewrite encode_frame_header_length; lia).
    rewrite encode_frame_header_length, Nat.sub_diag, drop_0. unfold len. rewrite Nat2Z.id, take_app_length, length_app, encode_frame_header_length.
    replace (Z.to_nat (9 + Z.of_nat (length (f_payload f)))) with (9 + length (f_payload f))%nat by lia. by destruct f.
  - intros buf f n rest Hb E. pose proof (take_frame_Some _ _ _ Hb E) as (Hn & Hle & Hl & Eh & Et).
    unfold take_frame in *. rewrite (decode_frame_header_app _ _ _ Eh). rewrite Eh in E.
    destruct (Z.ltb_spec (len buf) (9 + fh_length (f_header f))) as [|Hlen]; [done|].
    rewrite (proj2 (Z.ltb_ge _ _)) by (rewrite len_app; pose proof (len_nonneg rest); lia).
    rewrite drop_app_le, take_app_le; [done|rewrite length_drop; unfold len in *; lia|lia].
  - intros buf f n Hb E. apply take_frame_Some in E as (-> & ? & _); [lia|done].
Qed.

(** ** Payloads *)

Definition setting_ok (s : Setting) : Prop := is_u16 (s_id s) ∧ is_u32 (s_value s).

Lemma decode_setting_front s rest :
  setting_ok s → decode_settings_payload (encode_setting s ++ rest) = s :: decode_settings_payload rest.
Proof.
  intros [Hi Hv]. unfold encode_setting.
  assert (∃ a b, to_be_bytes 2 (s_id s) = [a; b]) as (a & b & Ei) by (simpl; eauto).
  assert (∃ c d e f, to_be_bytes 4 (s_value s) = [c; d; e; f]) as (c & d & e & f & Ev) by (simpl; eauto 6).
  rewrite Ei, Ev. simpl app. cbn [decode_settings_payload]. rewrite <-Ei, <-Ev, !from_to_be_bytes.
  - by destruct s.
  - exact Hv.
  - exact Hi.
Qed.

Lemma encode_settings_len ss : len (encode_settings_payload ss) = 6 * len ss.
Proof.
  unfold encode_settings_payload. induction ss as [|s ss IH]; [done|]. cbn [mbind list_bind] in *. rewrite len_app, len_cons, IH.
  change (len (encode_setting s)) with 6. lia.
Qed.

Lemma encode_settings_ok ss : bytes_ok (encode_settings_payload ss).
Proof.
  unfold encode_settings_payload. induction ss as [|s ss IH]; [constructor|]. cbn [mbind list_bind].
  apply Forall_app. split; [apply Forall_app; split; apply to_be_bytes_ok|done].
Qed.

Lemma decode_encode_settings ss : Forall setting_ok ss → decode_settings_payload_checked (encode_settings_payload ss) = Some ss.
Proof.
  intros Hss. unfold decode_settings_payload_checked. rewrite encode_settings_len, Z.mul_comm, Z.mod_mul by lia. simpl. f_equal.
  unfold encode_settings_payload.
  induction Hss as [|s ss Hs _ IH]; [done|]. cbn [mbind list_bind] in *. by rewrite decode_setting_front, IH.
Qed.

Lemma window_update_roundtrip inc : 0 ≤ inc < 2 ^ 31 → window_update_increment (to_be_bytes 4 (Z.land inc 0x7FFFFFFF)) = Some inc.
Proof.
  intros Hi. rewrite land_31 by done. assert (∃ c d e f, to_be_bytes 4 inc = [c; d; e; f]) as (c & d & e & f & Ev) by (simpl; eauto 6).
  rewrite Ev. simpl. rewrite <-Ev, from_to_be_bytes, land_31; [done|done|change (256 ^ Z.of_nat 4) with (2 ^ 32); lia].
Qed.

Lemma goaway_roundtrip g :
  0 ≤ g_last_stream_id g < 2 ^ 31 → is_u32 (g_error_code g) →
  decode_goaway (to_be_bytes 4 (Z.land (g_last_stream_id g) 0x7FFFFFFF) ++ to_be_bytes 4 (g_error_code g) ++ g_debug_data g) = Some g.
Proof.
  intros Hl He. rewrite land_31 by done.
  assert (∃ c d e f, to_be_bytes 4 (g_last_stream_id g) = [c; d; e; f]) as (p0 & p1 & p2 & p3 & E1) by (simpl; eauto 6).
  assert (∃ c d e f, to_be_bytes 4 (g_error_code g) = [c; d; e; f]) as (p4 & p5 & p6 & p7 & E2) by (simpl; eauto 6).
  rewrite E1, E2. simpl. rewrite <-E1, <-E2, !from_to_be_bytes, land_31; [by destruct g|done|exact He|].
  change (256 ^ Z.of_nat 4) with (2 ^ 32). lia.
Qed.

(** Padding put around a body, with its length in front, is taken off again. *)
Lemma strip_padding_padded body pad :
  len pad < 256 → strip_padding true (len pad :: body ++ pad) = Some body.
Proof.
  intros _. unfold strip_padding, unpad. cbn [negb]. rewrite len_app. pose proof (len_nonneg body).
  rewrite (proj2 (Z.ltb_ge _ _)) by lia. replace (len body + len pad - len pad) with (len body) by lia.
  unfold len. by rewrite Nat2Z.id, take_app_length.
Qed.

(** ** Properties *)

(** The frame [encode_frame] writes. *)
Definition frame_of (t : FrameType) (flags stream_id : Z) (payload : list Z) : Frame :=
  {| f_header := {| fh_length := len payload; fh_type := t; fh_flags := flags; fh_stream_id := stream_id |}; f_payload := payload |}.

Lemma take_encode_frame t flags sid payload rest :
  frame_type_ok t → is_u8 flags → 0 ≤ sid < 2 ^ 31 → bytes_ok payload → len payload < 2 ^ 24 →
  take_frame (encode_frame t flags sid payload ++ rest) = Some (frame_of t flags sid payload, (9 + length payload)%nat).
Proof.
  intros Ht Hf Hs Hp Hl.
  rewrite (dec_enc (dec := take_frame) (enc := write_frame) (ok := λ f, frame_ok f ∧ bytes_ok (f_payload f)) (frame_of t flags sid payload)); [|done].
  unfold write_frame, encode_frame. by rewrite length_app, encode_frame_header_length.
Qed.

(** Any sequence of frames, written one after the other and followed
    by an incomplete frame, is read back, with the incomplete frame left in the buffer;
    and SETTINGS, WINDOW_UPDATE and GOAWAY frames, whatever follows them, are taken and
    decode to what was encoded. *)
Lemma http2_frames_roundtrip (fs : list Frame) (tail : list Z) (ss : list Setting) (sid inc : Z) (g : GoAway) (rest : list Z) :
  Forall (λ f, frame_ok f ∧ bytes_ok (f_payload f)) fs → bytes_ok tail → take_frame tail = None →
  Forall setting_ok ss → len ss < 2 ^ 20 → 0 ≤ sid < 2 ^ 31 → 0 ≤ inc < 2 ^ 31 →
  0 ≤ g_last_stream_id g < 2 ^ 31 → is_u32 (g_error_code g) → bytes_ok (g_debug_data g) → len (g_debug_data g) < 2 ^ 23 →
  read_stream take_frame ((fs ≫= write_frame) ++ tail) = (fs, tail) ∧
  (∃ f n, take_frame (encode_settings_frame ss ++ rest) = Some (f, n) ∧ fh_type (f_header f) = Settings ∧
          decode_settings_payload_checked (f_payload f) = Some ss) ∧
  (∃ f n, take_frame (encode_window_update sid inc ++ rest) = Some (f, n) ∧ fh_type (f_header f) = WindowUpdate ∧
          fh_stream_id (f_header f) = sid ∧ window_update_increment (f_payload f) = Some inc) ∧
  (∃ f n, take_frame (encode_goaway g ++ rest) = Some (f, n) ∧ fh_type (f_header f) = GoAwayFrame ∧
          decode_goaway (f_payload f) = Some g).
Proof.
  intros Hfs Htail Hnone Hss Hls Hsid Hinc Hlast Hcode Hdebug Hld. split_and!.
  - by apply (read_stream_enc (λ f, frame_ok f ∧ bytes_ok (f_payload f)) write_frame take_frame).
  - eexists _, _. unfold encode_settings_frame. rewrite take_encode_frame; [|done|unfold is_u8; lia|lia|apply encode_settings_ok|].
    + split_and!; [done..|by apply decode_encode_settings].
    + rewrite encode_settings_len. lia.
  - eexists _, _. unfold encode_window_update. rewrite take_encode_frame; [|done|unfold is_u8; lia|done|apply to_be_bytes_ok|].
    + split_and!; [done..|by apply window_update_roundtrip].
    + unfold len. rewrite to_be_bytes_length. lia.
  - eexists _, _. unfold encode_goaway. rewrite take_encode_frame; [|done|unfold is_u8; lia|lia| |].
    + split_and!; [done..|by apply goaway_roundtrip].
    + apply Forall_app. split; [apply to_be_bytes_ok|]. apply Forall_app. split; [apply to_be_bytes_ok|done].
    + rewrite !len_app. unfold len at 1 2. rewrite !to_be_bytes_length. lia.
Qed.

