(* ===== verification/Http2Conn.v ===== *)
(** * Http2Conn: the server side of an HTTP/2 connection

    http2-conn/src/lib.rs: the connection's state, the bytes fed to it, the handler
    of each kind of frame, the assembly of requests and the flow-controlled sending
    of responses.  Handlers take the connection and the [Http2Feed] being filled and
    give both back with Rust's [Result]; an error keeps what was changed before it.
    A panic can only come from HPACK.  The order in which a [HashMap] yields its keys
    is not specified by Rust: it is an operation of the class [KeyOrder]. *)

From S2P Require Import Prelude Text Bytes Huffman Hpack Http2Frames.

Local Open Scope Z_scope.
Local Open Scope cruft_scope.

Definition SERVER_MAX_CONCURRENT_STREAMS : Z := 100.
Definition SERVER_INITIAL_WINDOW_SIZE : Z := 1048576.
Definition SERVER_HEADER_TABLE_SIZE : Z := 4096.
Definition SERVER_MAX_HEADER_LIST_SIZE : Z := 65536.
Definition SERVER_MAX_HEADER_BLOCK_BYTES : Z := 65536.
Definition SERVER_MAX_CONTINUATIONS_PER_BLOCK : Z := 32.
Definition SERVER_MAX_RST_STREAMS : Z := 100.
Definition SERVER_MAX_STREAM_LIFETIME : Z := 1000.

(** ** State *)

Record Http2Request := { rq_stream_id : Z; rq_headers : list header; rq_body : list Z }.

(** [Http2Request::header], [method], [path]. *)
Definition request_header (r : Http2Request) (name : string) : option string :=
  snd <$> List.find (λ h : header, bool_decide (h.1 = name)) (rq_headers r).
Definition request_method (r : Http2Request) : option string := request_header r ":method".
Definition request_path (r : Http2Request) : option string := request_header r ":path".

Record Stream := {
  st_header_block : list Z;
  continuation_count : Z;
  st_headers : list header;
  headers_done : bool;
  st_body : list Z;
  recv_window : Z;
  st_end_stream : bool;
  emitted : bool
}.

Definition stream_default : Stream :=
  {| st_header_block := []; continuation_count := 0; st_headers := []; headers_done := false; st_body := [];
     recv_window := 0; st_end_stream := false; emitted := false |}.

Record Http2Feed := { outbound : list Z; requests : list Http2Request }.

Definition feed_default : Http2Feed := {| outbound := []; requests := [] |}.

Record SendState := { pending : list Z; window : Z }.

Record Http2Connection := {
  rbuf : list Z;
  preface_seen : bool;
  settings_sent : bool;
  goaway_sent : bool;
  streams : gmap Z Stream;
  last_stream_id : Z;
  active_header_stream : option Z;
  rst_stream_count : Z;
  stream_lifetime_count : Z;
  inbound_max_frame_size : Z;
  inbound_header_list_size : Z;
  inbound_header_table_size : Z;
  inbound_hpack : DynamicTable;
  conn_recv_window : Z;
  conn_send_window : Z;
  peer_initial_window : Z;
  peer_max_frame_size : Z;
  send : gmap Z SendState
}.

Definition http2_new : Http2Connection :=
  {| rbuf := []; preface_seen := false; settings_sent := false; goaway_sent := false; streams := ∅; last_stream_id := 0;
     active_header_stream := None; rst_stream_count := 0; stream_lifetime_count := 0;
     inbound_max_frame_size := DEFAULT_MAX_FRAME_SIZE; inbound_header_list_size := SERVER_MAX_HEADER_LIST_SIZE;
     inbound_header_table_size := SERVER_HEADER_TABLE_SIZE; inbound_hpack := table_new SERVER_HEADER_TABLE_SIZE;
     conn_recv_window := SERVER_INITIAL_WINDOW_SIZE; conn_send_window := 65535; peer_initial_window := 65535;
     peer_max_frame_size := DEFAULT_MAX_FRAME_SIZE; send := ∅ |}.

(** Assignments to one field. *)
Definition set_st_header_block (v : list Z) (s : Stream) : Stream :=
  {| st_header_block := v; continuation_count := continuation_count s; st_headers := st_headers s; headers_done := headers_done s; st_body := st_body s; recv_window := recv_window s; st_end_stream := st_end_stream s; emitted := emitted s |}.
Definition set_continuation_count (v : Z) (s : Stream) : Stream :=
  {| st_header_block := st_header_block s; continuation_count := v; st_headers := st_headers s; headers_done := headers_done s; st_body := st_body s; recv_window := recv_window s; st_end_stream := st_end_stream s; emitted := emitted s |}.
Definition set_st_headers (v : list header) (s : Stream) : Stream :=
  {| st_header_block := st_header_block s; continuation_count := continuation_count s; st_headers := v; headers_done := headers_done s; st_body := st_body s; recv_window := recv_window s; st_end_stream := st_end_stream s; emitted := emitted s |}.
Definition set_headers_done (v : bool) (s : Stream) : Stream :=
  {| st_header_block := st_header_block s; continuation_count := continuation_count s; st_headers := st_headers s; headers_done := v; st_body := st_body s; recv_window := recv_window s; st_end_stream := st_end_stream s; emitted := emitted s |}.
Definition set_st_body (v : list Z) (s : Stream) : Stream :=
  {| st_header_block := st_header_block s; continuation_count := continuation_count s; st_headers := st_headers s; headers_done := headers_done s; st_body := v; recv_window := recv_window s; st_end_stream := st_end_stream s; emitted := emitted s |}.
Definition set_recv_window (v : Z) (s : Stream) : Stream :=
  {| st_header_block := st_header_block s; continuation_count := continuation_count s; st_headers := st_headers s; headers_done := headers_done s; st_body := st_body s; recv_window := v; st_end_stream := st_end_stream s; emitted := emitted s |}.
Definition set_st_end_stream (v : bool) (s : Stream) : Stream :=
  {| st_header_block := st_header_block s; continuation_count := continuation_count s; st_headers := st_headers s; headers_done := headers_done s; st_body := st_body s; recv_window := recv_window s; st_end_stream := v; emitted := emitted s |}.
Definition set_emitted (v : bool) (s : Stream) : Stream :=
  {| st_header_block := st_header_block s; continuation_count := continuation_count s; st_headers := st_headers s; headers_done := headers_done s; st_body := st_body s; recv_window := recv_window s; st_end_stream := st_end_stream s; emitted := v |}.
Definition set_rbuf (v : list Z) (c : Http2Connection) : Http2Connection :=
  {| rbuf := v; preface_seen := preface_seen c; settings_sent := settings_sent c; goaway_sent := goaway_sent c; streams := streams c; last_stream_id := last_stream_id c; active_header_stream := active_header_stream c; rst_stream_count := rst_stream_count c; stream_lifetime_count := stream_lifetime_count c; inbound_max_frame_size := inbound_max_frame_size c; inbound_header_list_size := inbound_header_list_size c; inbound_header_table_size := inbound_header_table_size c; inbound_hpack := inbound_hpack c; conn_recv_window := conn_recv_window c; conn_send_window := conn_send_window c; peer_initial_window := peer_initial_window c; peer_max_frame_size := peer_max_frame_size c; send := send c |}.
Definition set_preface_seen (v : bool) (c : Http2Connection) : Http2Connection :=
  {| rbuf := rbuf c; preface_seen := v; settings_sent := settings_sent c; goaway_sent := goaway_sent c; streams := streams c; last_stream_id := last_stream_id c; active_header_stream := active_header_stream c; rst_stream_count := rst_stream_count c; stream_lifetime_count := stream_lifetime_count c; inbound_max_frame_size := inbound_max_frame_size c; inbound_header_list_size := inbound_header_list_size c; inbound_header_table_size := inbound_header_table_size c; inbound_hpack := inbound_hpack c; conn_recv_window := conn_recv_window c; conn_send_window := conn_send_window c; peer_initial_window := peer_initial_window c; peer_max_frame_size := peer_max_frame_size c; send := send c |}.
Definition set_settings_sent (v : bool) (c : Http2Connection) : Http2Connection :=
  {| rbuf := rbuf c; preface_seen := preface_seen c; settings_sent := v; goaway_sent := goaway_sent c; streams := streams c; last_stream_id := last_stream_id c; active_header_stream := active_header_stream c; rst_stream_count := rst_stream_count c; stream_lifetime_count := stream_lifetime_count c; inbound_max_frame_size := inbound_max_frame_size c; inbound_header_list_size := inbound_header_list_size c; inbound_header_table_size := inbound_header_table_size c; inbound_hpack := inbound_hpack c; conn_recv_window := conn_recv_window c; conn_send_window := conn_send_window c; peer_initial_window := peer_initial_window c; peer_max_frame_size := peer_max_frame_size c; send := send c |}.
Definition set_goaway_sent (v : bool) (c : Http2Connection) : Http2Connection :=
  {| rbuf := rbuf c; preface_seen := preface_seen c; settings_sent := settings_sent c; goaway_sent := v; streams := streams c; last_stream_id := last_stream_id c; active_header_stream := active_header_stream c; rst_stream_count := rst_stream_count c; stream_lifetime_count := stream_lifetime_count c; inbound_max_frame_size := inbound_max_frame_size c; inbound_header_list_size := inbound_header_list_size c; inbound_header_table_size := inbound_header_table_size c; inbound_hpack := inbound_hpack c; conn_recv_window := conn_recv_window c; conn_send_window := conn_send_window c; peer_initial_window := peer_initial_window c; peer_max_frame_size := peer_max_frame_size c; send := send c |}.
Definition set_streams (v : gmap Z Stream) (c : Http2Connection) : Http2Connection :=
  {| rbuf := rbuf c; preface_seen := preface_seen c; settings_sent := settings_sent c; goaway_sent := goaway_sent c; streams := v; last_stream_id := last_stream_id c; active_header_stream := active_header_stream c; rst_stream_count := rst_stream_count c; stream_lifetime_count := stream_lifetime_count c; inbound_max_frame_size := inbound_max_frame_size c; inbound_header_list_size := inbound_header_list_size c; inbound_header_table_size := inbound_header_table_size c; inbound_hpack := inbound_hpack c; conn_recv_window := conn_recv_window c; conn_send_window := conn_send_window c; peer_initial_window := peer_initial_window c; peer_max_frame_size := peer_max_frame_size c; send := send c |}.
Definition set_last_stream_id (v : Z) (c : Http2Connection) : Http2Connection :=
  {| rbuf := rbuf c; preface_seen := preface_seen c; settings_sent := settings_sent c; goaway_sent := goaway_sent c; streams := streams c; last_stream_id := v; active_header_stream := active_header_stream c; rst_stream_count := rst_stream_count c; stream_lifetime_count := stream_lifetime_count c; inbound_max_frame_size := inbound_max_frame_size c; inbound_header_list_size := inbound_header_list_size c; inbound_header_table_size := inbound_header_table_size c; inbound_hpack := inbound_hpack c; conn_recv_window := conn_recv_window c; conn_send_window := conn_send_window c; peer_initial_window := peer_initial_window c; peer_max_frame_size := peer_max_frame_size c; send := send c |}.
Definition set_active_header_stream (v : option Z) (c : Http2Connection) : Http2Connection :=
  {| rbuf := rbuf c; preface_seen := preface_seen c; settings_sent := settings_sent c; goaway_sent := goaway_sent c; streams := streams c; last_stream_id := last_stream_id c; active_header_stream := v; rst_stream_count := rst_stream_count c; stream_lifetime_count := stream_lifetime_count c; inbound_max_frame_size := inbound_max_frame_size c; inbound_header_list_size := inbound_header_list_size c; inbound_header_table_size := inbound_header_table_size c; inbound_hpack := inbound_hpack c; conn_recv_window := conn_recv_window c; conn_send_window := conn_send_window c; peer_initial_window := peer_initial_window c; peer_max_frame_size := peer_max_frame_size c; send := send c |}.
Definition set_rst_stream_count (v : Z) (c : Http2Connection) : Http2Connection :=
  {| rbuf := rbuf c; preface_seen := preface_seen c; settings_sent := settings_sent c; goaway_sent := goaway_sent c; streams := streams c; last_stream_id := last_stream_id c; active_header_stream := active_header_stream c; rst_stream_count := v; stream_lifetime_count := stream_lifetime_count c; inbound_max_frame_size := inbound_max_frame_size c; inbound_header_list_size := inbound_header_list_size c; inbound_header_table_size := inbound_header_table_size c; inbound_hpack := inbound_hpack c; conn_recv_window := conn_recv_window c; conn_send_window := conn_send_window c; peer_initial_window := peer_initial_window c; peer_max_frame_size := peer_max_frame_size c; send := send c |}.
Definition set_stream_lifetime_count (v : Z) (c : Http2Connection) : Http2Connection :=
  {| rbuf := rbuf c; preface_seen := preface_seen c; settings_sent := settings_sent c; goaway_sent := goaway_sent c; streams := streams c; last_stream_id := last_stream_id c; active_header_stream := active_header_stream c; rst_stream_count := rst_stream_count c; stream_lifetime_count := v; inbound_max_frame_size := inbound_max_frame_size c; inbound_header_list_size := inbound_header_list_size c; inbound_header_table_size := inbound_header_table_size c; inbound_hpack := inbound_hpack c; conn_recv_window := conn_recv_window c; conn_send_window := conn_send_window c; peer_initial_window := peer_initial_window c; peer_max_frame_size := peer_max_frame_size c; send := send c |}.
Definition set_inbound_hpack (v : DynamicTable) (c : Http2Connection) : Http2Connection :=
  {| rbuf := rbuf c; preface_seen := preface_seen c; settings_sent := settings_sent c; goaway_sent := goaway_sent c; streams := streams c; last_stream_id := last_stream_id c; active_header_stream := active_header_stream c; rst_stream_count := rst_stream_count c; stream_lifetime_count := stream_lifetime_count c; inbound_max_frame_size := inbound_max_frame_size c; inbound_header_list_size := inbound_header_list_size c; inbound_header_table_size := inbound_header_table_size c; inbound_hpack := v; conn_recv_window := conn_recv_window c; conn_send_window := conn_send_window c; peer_initial_window := peer_initial_window c; peer_max_frame_size := peer_max_frame_size c; send := send c |}.
Definition set_conn_recv_window (v : Z) (c : Http2Connection) : Http2Connection :=
  {| rbuf := rbuf c; preface_seen := preface_seen c; settings_sent := settings_sent c; goaway_sent := goaway_sent c; streams := streams c; last_stream_id := last_stream_id c; active_header_stream := active_header_stream c; rst_stream_count := rst_stream_count c; stream_lifetime_count := stream_lifetime_count c; inbound_max_frame_size := inbound_max_frame_size c; inbound_header_list_size := inbound_header_list_size c; inbound_header_table_size := inbound_header_table_size c; inbound_hpack := inbound_hpack c; conn_recv_window := v; conn_send_window := conn_send_window c; peer_initial_window := peer_initial_window c; peer_max_frame_size := peer_max_frame_size c; send := send c |}.
Definition set_conn_send_window (v : Z) (c : Http2Connection) : Http2Connection :=
  {| rbuf := rbuf c; preface_seen := preface_seen c; settings_sent := settings_sent c; goaway_sent := goaway_sent c; streams := streams c; last_stream_id := last_stream_id c; active_header_stream := active_header_stream c; rst_stream_count := rst_stream_count c; stream_lifetime_count := stream_lifetime_count c; inbound_max_frame_size := inbound_max_frame_size c; inbound_header_list_size := inbound_header_list_size c; inbound_header_table_size := inbound_header_table_size c; inbound_hpack := inbound_hpack c; conn_recv_window := conn_recv_window c; conn_send_window := v; peer_initial_window := peer_initial_window c; peer_max_frame_size := peer_max_frame_size c; send := send c |}.
Definition set_peer_initial_window (v : Z) (c : Http2Connection) : Http2Connection :=
  {| rbuf := rbuf c; preface_seen := preface_seen c; settings_sent := settings_sent c; goaway_sent := goaway_sent c; streams := streams c; last_stream_id := last_stream_id c; active_header_stream := active_header_stream c; rst_stream_count := rst_stream_count c; stream_lifetime_count := stream_lifetime_count c; inbound_max_frame_size := inbound_max_frame_size c; inbound_header_list_size := inbound_header_list_size c; inbound_header_table_size := inbound_header_table_size c; inbound_hpack := inbound_hpack c; conn_recv_window := conn_recv_window c; conn_send_window := conn_send_window c; peer_initial_window := v; peer_max_frame_size := peer_max_frame_size c; send := send c |}.
Definition set_peer_max_frame_size (v : Z) (c : Http2Connection) : Http2Connection :=
  {| rbuf := rbuf c; preface_seen := preface_seen c; settings_sent := settings_sent c; goaway_sent := goaway_sent c; streams := streams c; last_stream_id := last_stream_id c; active_header_stream := active_header_stream c; rst_stream_count := rst_stream_count c; stream_lifetime_count := stream_lifetime_count c; inbound_max_frame_size := inbound_max_frame_size c; inbound_header_list_size := inbound_header_list_size c; inbound_header_table_size := inbound_header_table_size c; inbound_hpack := inbound_hpack c; conn_recv_window := conn_recv_window c; conn_send_window := conn_send_window c; peer_initial_window := peer_initial_window c; peer_max_frame_size := v; send := send c |}.
Definition set_send (v : gmap Z SendState) (c : Http2Connection) : Http2Connection :=
  {| rbuf := rbuf c; preface_seen := preface_seen c; settings_sent := settings_sent c; goaway_sent := goaway_sent c; streams := streams c; last_stream_id := last_stream_id c; active_header_stream := active_header_stream c; rst_stream_count := rst_stream_count c; stream_lifetime_count := stream_lifetime_count c; inbound_max_frame_size := inbound_max_frame_size c; inbound_header_list_size := inbound_header_list_size c; inbound_header_table_size := inbound_header_table_size c; inbound_hpack := inbound_hpack c; conn_recv_window := conn_recv_window c; conn_send_window := conn_send_window c; peer_initial_window := peer_initial_window c; peer_max_frame_size := peer_max_frame_size c; send := v |}.

Definition out_bytes (bs : list Z) (f : Http2Feed) : Http2Feed :=
  {| outbound := outbound f ++ bs; requests := requests f |}.
Definition out_request (r : Http2Request) (f : Http2Feed) : Http2Feed :=
  {| outbound := outbound f; requests := requests f ++ [r] |}.

(** [HashMap::keys]: all keys once, in an order of the map's own. *)
Class KeyOrder : Type := {
  hash_keys : gmap Z SendState → list Z;
  hash_keys_perm m : hash_keys m ≡ₚ (map_to_list m).*1;
}.

Definition server_settings : list Z :=
  encode_settings_frame
    [{| s_id := SETTINGS_MAX_CONCURRENT_STREAMS; s_value := SERVER_MAX_CONCURRENT_STREAMS |};
     {| s_id := SETTINGS_INITIAL_WINDOW_SIZE; s_value := SERVER_INITIAL_WINDOW_SIZE |};
     {| s_id := SETTINGS_HEADER_TABLE_SIZE; s_value := SERVER_HEADER_TABLE_SIZE |};
     {| s_id := SETTINGS_MAX_HEADER_LIST_SIZE; s_value := SERVER_MAX_HEADER_LIST_SIZE |}].

(** What a handler gives back. *)
Abbreviation handled := (Http2Connection * Http2Feed * result unit string)%type (only parsing).

(** ** GOAWAY *)

Definition goaway_code (c : Http2Connection) (f : Http2Feed) (code : Z) : handled :=
  if goaway_sent c then (c, f, Ok tt)
  else (set_goaway_sent true c,
        out_bytes (encode_goaway {| g_last_stream_id := last_stream_id c; g_error_code := code; g_debug_data := [] |}) f, Ok tt).

Definition goaway (c : Http2Connection) (f : Http2Feed) : handled := goaway_code c f ERR_PROTOCOL_ERROR.

(** ** Sending *)

(** The loop of [flush_stream]; each turn but the last sends a byte at least. *)
Fixpoint flush_loop (fuel : nat) (c : Http2Connection) (sid : Z) (out : list Z) : Http2Connection * list Z :=
  match fuel with
  | O => (c, out)
  | S fuel' =>
      match send c !! sid with
      | None => (c, out)
      | Some ss =>
          if bool_decide (pending ss = []) then (set_send (delete sid (send c)) c, out)
          else
            let allowed := Z.min (Z.min (Z.min (conn_send_window c) (window ss)) (peer_max_frame_size c)) (len (pending ss)) in
            if allowed <=? 0 then (c, out)
            else
              let chunk := take (Z.to_nat allowed) (pending ss) in
              let rest := drop (Z.to_nat allowed) (pending ss) in
              let final := bool_decide (rest = []) in
              let out := out ++ encode_data sid final chunk in
              let c := set_conn_send_window (conn_send_window c - allowed) c in
              let c := set_send (<[sid := {| pending := rest; window := window ss - allowed |}]> (send c)) c in
              if final then (set_send (delete sid (send c)) c, out)
              else flush_loop fuel' c sid out
      end
  end.

Definition flush_stream (c : Http2Connection) (sid : Z) (out : list Z) : Http2Connection * list Z :=
  flush_loop (S (length (from_option pending [] (send c !! sid)))) c sid out.

Definition flush_all `{KeyOrder} (c : Http2Connection) (out : list Z) : Http2Connection * list Z :=
  foldl (λ '(c, out) sid, flush_stream c sid out) (c, out) (hash_keys (send c)).

Definition flush_feed `{KeyOrder} (c : Http2Connection) (f : Http2Feed) : Http2Connection * Http2Feed :=
  let '(c, out) := flush_all c (outbound f) in (c, {| outbound := out; requests := requests f |}).

Definition respond (c : Http2Connection) (stream_id status : Z) (headers : list header) (body : list Z)
    : Http2Connection * list Z :=
  let header_list := (":status"%string, u64_to_string status) :: headers in
  let block := encode_header_block header_list in
  let no_body := bool_decide (body = []) in
  let out := encode_headers stream_id block no_body true in
  let c := set_streams (delete stream_id (streams c)) c in
  if no_body then (c, out)
  else
    let c := set_send (<[stream_id := {| pending := body; window := peer_initial_window c |}]> (send c)) c in
    flush_stream c stream_id out.

(** ** Requests *)

Definition hpack_error (e : DecodeError) : string :=
  match e with
  | HeaderListTooLarge => "http2: HPACK header list too large"
  | DynamicTableSizeUpdateTooLarge => "http2: HPACK dynamic table size update too large"
  | Malformed => "http2: HPACK decode failed"
  end.

Definition finish_headers `{Profile} (c : Http2Connection) (sid : Z) : outcome (Http2Connection * result unit string) :=
  match streams c !! sid with
  | None => Ret (c, Err "http2: no stream"%string)
  | Some st =>
      let block := st_header_block st in
      let c := set_streams (<[sid := set_st_header_block [] st]> (streams c)) c in
      r <-! decode_header_block_limited block (inbound_hpack c)
              {| max_header_list_size := inbound_header_list_size c; max_dynamic_table_size := inbound_header_table_size c |};
      let '(t, decoded) := r in
      let c := set_inbound_hpack t c in
      match decoded with
      | Err e => Ret (c, Err (hpack_error e))
      | Ok headers =>
          match streams c !! sid with
          | None => Ret (c, Err "http2: no stream"%string)
          | Some st =>
              let st := set_continuation_count 0 (set_headers_done true (set_st_headers headers st)) in
              Ret (set_streams (<[sid := st]> (streams c)) c, Ok tt)
          end
      end
  end.

Definition try_emit (c : Http2Connection) (f : Http2Feed) (sid : Z) : Http2Connection * Http2Feed :=
  match streams c !! sid with
  | None => (c, f)
  | Some st =>
      if headers_done st && st_end_stream st && negb (emitted st) then
        (set_streams (delete sid (streams c)) c,
         out_request {| rq_stream_id := sid; rq_headers := st_headers st; rq_body := st_body st |} f)
      else (c, f)
  end.

(** ** Frame handlers *)

(** The settings of one frame in order, and whether none of them made the handler
    return. *)
Fixpoint apply_settings (c : Http2Connection) (f : Http2Feed) (settings : list Setting)
    : Http2Connection * Http2Feed * bool :=
  match settings with
  | [] => (c, f, true)
  | s :: rest =>
      let refuse (h : handled) := (h.1.1, h.1.2, false) in
      if (s_id s =? SETTINGS_ENABLE_PUSH) && (1 <? s_value s) then refuse (goaway c f)
      else if s_id s =? SETTINGS_MAX_FRAME_SIZE then
        if negb ((16384 <=? s_value s) && (s_value s <=? 16777215)) then refuse (goaway c f)
        else apply_settings (set_peer_max_frame_size (s_value s) c) f rest
      else if s_id s =? SETTINGS_INITIAL_WINDOW_SIZE then
        if 0x7FFFFFFF <? s_value s then refuse (goaway_code c f ERR_FLOW_CONTROL_ERROR)
        else
          let delta := s_value s - peer_initial_window c in
          let c := set_peer_initial_window (s_value s) c in
          let c := set_send ((λ ss, {| pending := pending ss; window := window ss + delta |}) <$> send c) c in
          apply_settings c f rest
      else apply_settings c f rest
  end.

Definition handle_settings `{KeyOrder} (c : Http2Connection) (f : Http2Feed) (fr : Frame) : handled :=
  let flags := fh_flags (f_header fr) in
  if negb (fh_stream_id (f_header fr) =? 0) then goaway c f
  else if has_flag flags FLAG_ACK && negb (bool_decide (f_payload fr = [])) then goaway_code c f ERR_FRAME_SIZE_ERROR
  else if has_flag flags FLAG_ACK then (c, f, Ok tt)
  else
    match decode_settings_payload_checked (f_payload fr) with
    | None => goaway_code c f ERR_FRAME_SIZE_ERROR
    | Some settings =>
        let '(c, f, go_on) := apply_settings c f settings in
        if go_on then
          let f := out_bytes encode_settings_ack f in
          let '(c, f) := flush_feed c f in (c, f, Ok tt)
        else (c, f, Ok tt)
    end.

Definition handle_ping (c : Http2Connection) (f : Http2Feed) (fr : Frame) : handled :=
  if negb (fh_stream_id (f_header fr) =? 0) || negb (len (f_payload fr) =? 8) then goaway_code c f ERR_FRAME_SIZE_ERROR
  else if negb (has_flag (fh_flags (f_header fr)) FLAG_ACK) && (len (f_payload fr) =? 8) then
    (c, out_bytes (encode_ping_ack (f_payload fr)) f, Ok tt)
  else (c, f, Ok tt).

Definition handle_window_update `{KeyOrder} (c : Http2Connection) (f : Http2Feed) (fr : Frame) : handled :=
  let sid := fh_stream_id (f_header fr) in
  let flush (c : Http2Connection) : handled := let '(c, f) := flush_feed c f in (c, f, Ok tt) in
  match window_update_increment (f_payload fr) with
  | None => goaway_code c f ERR_FRAME_SIZE_ERROR
  | Some inc =>
      if inc =? 0 then goaway c f
      else if sid =? 0 then
        if 0x7FFFFFFF <? conn_send_window c + inc then goaway_code c f ERR_FLOW_CONTROL_ERROR
        else flush (set_conn_send_window (conn_send_window c + inc) c)
      else
        match send c !! sid with
        | None => flush c
        | Some ss =>
            if 0x7FFFFFFF <? window ss + inc then goaway_code c f ERR_FLOW_CONTROL_ERROR
            else flush (set_send (<[sid := {| pending := pending ss; window := window ss + inc |}]> (send c)) c)
        end
  end.

Definition handle_rst_stream (c : Http2Connection) (f : Http2Feed) (fr : Frame) : handled :=
  let sid := fh_stream_id (f_header fr) in
  if (sid =? 0) || negb (len (f_payload fr) =? 4) then goaway_code c f ERR_FRAME_SIZE_ERROR
  else
    let c := set_rst_stream_count (rst_stream_count c + 1) c in
    if SERVER_MAX_RST_STREAMS <? rst_stream_count c then goaway_code c f ERR_ENHANCE_YOUR_CALM
    else
      let c := set_streams (delete sid (streams c)) c in
      (if bool_decide (active_header_stream c = Some sid) then set_active_header_stream None c else c, f, Ok tt).

(** After the fragment is stored: decode the block if it is complete. *)
Definition end_of_headers `{Profile} (c : Http2Connection) (f : Http2Feed) (sid : Z) (k : Http2Connection → handled)
    : outcome handled :=
  r <-! finish_headers c sid;
  match r with
  | (c, Err e) => Ret (c, f, Err e)
  | (c, Ok _) => Ret (k (set_active_header_stream None c))
  end.

Definition emit_then_ok (f : Http2Feed) (sid : Z) (c : Http2Connection) : handled :=
  let '(c, f) := try_emit c f sid in (c, f, Ok tt).

Definition handle_headers `{Profile} (c : Http2Connection) (f : Http2Feed) (fr : Frame) : outcome handled :=
  let sid := fh_stream_id (f_header fr) in
  let flags := fh_flags (f_header fr) in
  if sid =? 0 then Ret (goaway c f)
  else if (sid `mod` 2 =? 0) || (sid <=? last_stream_id c) then Ret (goaway c f)
  else if bool_decide (is_Some (active_header_stream c)) then Ret (goaway c f)
  else if SERVER_MAX_CONCURRENT_STREAMS <=? Z.of_nat (base.size (streams c)) then Ret (goaway_code c f ERR_ENHANCE_YOUR_CALM)
  else
    let c := set_stream_lifetime_count (stream_lifetime_count c + 1) c in
    if SERVER_MAX_STREAM_LIFETIME <? stream_lifetime_count c then Ret (goaway_code c f ERR_ENHANCE_YOUR_CALM)
    else
      match header_block_fragment fr with
      | None => Ret (c, f, Err "http2: bad HEADERS padding"%string)
      | Some fragment =>
          if SERVER_MAX_HEADER_BLOCK_BYTES <? len fragment then Ret (goaway_code c f ERR_ENHANCE_YOUR_CALM)
          else
            let c := set_last_stream_id sid c in
            let st := default (set_recv_window SERVER_INITIAL_WINDOW_SIZE stream_default) (streams c !! sid) in
            let st := set_st_header_block (st_header_block st ++ fragment) st in
            let st := if has_flag flags FLAG_END_STREAM then set_st_end_stream true st else st in
            let c := set_streams (<[sid := st]> (streams c)) c in
            if has_flag flags FLAG_END_HEADERS then end_of_headers c f sid (emit_then_ok f sid)
            else Ret (emit_then_ok f sid (set_active_header_stream (Some sid) c))
      end.

Definition handle_continuation `{Profile} (c : Http2Connection) (f : Http2Feed) (fr : Frame) : outcome handled :=
  let sid := fh_stream_id (f_header fr) in
  if negb (bool_decide (active_header_stream c = Some sid)) then Ret (goaway c f)
  else
    match streams c !! sid with
    | None => Ret (c, f, Err "http2: CONTINUATION without stream"%string)
    | Some st =>
        let st := set_continuation_count (continuation_count st + 1) st in
        let c := set_streams (<[sid := st]> (streams c)) c in
        if SERVER_MAX_CONTINUATIONS_PER_BLOCK <? continuation_count st then Ret (goaway_code c f ERR_ENHANCE_YOUR_CALM)
        else if SERVER_MAX_HEADER_BLOCK_BYTES <? len (st_header_block st) + len (f_payload fr) then
          Ret (goaway_code c f ERR_ENHANCE_YOUR_CALM)
        else
          let st := set_st_header_block (st_header_block st ++ f_payload fr) st in
          let c := set_streams (<[sid := st]> (streams c)) c in
          if has_flag (fh_flags (f_header fr)) FLAG_END_HEADERS then end_of_headers c f sid (emit_then_ok f sid)
          else Ret (c, f, Ok tt)
    end.

Definition handle_data (c : Http2Connection) (f : Http2Feed) (fr : Frame) : handled :=
  let sid := fh_stream_id (f_header fr) in
  let flen := fh_length (f_header fr) in
  if sid =? 0 then goaway c f
  else
    match streams c !! sid with
    | None => goaway_code c f ERR_STREAM_CLOSED
    | Some st =>
        match data_payload fr with
        | None => (c, f, Err "http2: bad DATA padding"%string)
        | Some body =>
            if conn_recv_window c - flen <? 0 then goaway_code c f ERR_FLOW_CONTROL_ERROR
            else
              let c := set_conn_recv_window (conn_recv_window c - flen) c in
              if recv_window st - flen <? 0 then goaway_code c f ERR_FLOW_CONTROL_ERROR
              else
                let st := set_recv_window (recv_window st - flen) st in
                let st := set_st_body (st_body st ++ body) st in
                let st := if has_flag (fh_flags (f_header fr)) FLAG_END_STREAM then set_st_end_stream true st else st in
                emit_then_ok f sid (set_streams (<[sid := st]> (streams c)) c)
        end
    end.

Definition handle_frame `{Profile, KeyOrder} (c : Http2Connection) (f : Http2Feed) (fr : Frame) : outcome handled :=
  match fh_type (f_header fr) with
  | Settings => Ret (handle_settings c f fr)
  | Ping => Ret (handle_ping c f fr)
  | WindowUpdate => Ret (handle_window_update c f fr)
  | RstStream => Ret (handle_rst_stream c f fr)
  | GoAwayFrame => Ret (c, f, Ok tt)
  | Headers => handle_headers c f fr
  | Continuation => handle_continuation c f fr
  | Data => Ret (handle_data c f fr)
  | Priority | PushPromise | Unknown _ => Ret (c, f, Ok tt)
  end.

(** ** Feeding bytes *)

(** [while let Some((frame, used)) = take_frame(&self.rbuf)]: each turn takes nine
    bytes at least. *)
Fixpoint frame_loop `{Profile, KeyOrder} (fuel : nat) (c : Http2Connection) (f : Http2Feed) : outcome handled :=
  match fuel with
  | O => Ret (c, f, Ok tt)
  | S fuel' =>
      match take_frame (rbuf c) with
      | None => Ret (c, f, Ok tt)
      | Some (fr, used) =>
          let c := set_rbuf (drop used (rbuf c)) c in
          if inbound_max_frame_size c <? fh_length (f_header fr) then Ret (goaway_code c f ERR_FRAME_SIZE_ERROR)
          else
            r <-! handle_frame c f fr;
            match r with
            | (c, f, Err e) => Ret (c, f, Err e)
            | (c, f, Ok _) => frame_loop fuel' c f
            end
      end
  end.

(** The check of a frame that has begun to arrive. *)
Definition check_partial (c : Http2Connection) (f : Http2Feed) : Http2Connection * Http2Feed :=
  match decode_frame_header (rbuf c) with
  | Some h =>
      if inbound_max_frame_size c <? fh_length h then
        let '(c, f, _) := goaway_code c f ERR_FRAME_SIZE_ERROR in (set_rbuf [] c, f)
      else (c, f)
  | None => (c, f)
  end.

Definition feed_frames `{Profile, KeyOrder} (c : Http2Connection) (f : Http2Feed) : outcome (Http2Connection * result Http2Feed string) :=
  r <-! frame_loop (length (rbuf c)) c f;
  match r with
  | (c, f, Err e) => Ret (c, Err e)
  | (c, f, Ok _) => let '(c, f) := check_partial c f in Ret (c, Ok f)
  end.

Definition feed `{Profile, KeyOrder} (c : Http2Connection) (inbound : list Z) : outcome (Http2Connection * result Http2Feed string) :=
  let c := set_rbuf (rbuf c ++ inbound) c in
  let f := feed_default in
  if preface_seen c then feed_frames c f
  else if len (rbuf c) <? len CONNECTION_PREFACE then Ret (c, Ok f)
  else if negb (bool_decide (take (length CONNECTION_PREFACE) (rbuf c) = CONNECTION_PREFACE)) then
    Ret (c, Err "http2: invalid connection preface"%string)
  else
    let c := set_rbuf (drop (length CONNECTION_PREFACE) (rbuf c)) c in
    let c := set_preface_seen true c in
    let f := out_bytes server_settings f in
    feed_frames (set_settings_sent true c) f.
