(* ===== verification/Http2ConnTheory.v ===== *)
(** * Http2ConnTheory: what an HTTP/2 connection keeps, emits and sends

    The connection's invariant [conn_wf] (bounded buffers and windows, streams that
    are odd and not newer than the last) holds along any run of feeding bytes and
    responding; the requests of a run have distinct streams; sending respects both
    flow-control windows and the peer's frame size and loses no byte of a body. *)

From S2P Require Import Prelude Text Bytes Huffman Hpack HpackTheory Http2Frames Http2Conn.

Local Open Scope Z_scope.
Local Open Scope cruft_scope.

#[local] Arguments base.size {_ _} _ : simpl never.

Definition window_max : Z := 2147483647.

(** ** The invariant *)

(** A stream buffers no more than its limits: the header block, the decoded list, and
    the body within the window the peer was given. *)
Record stream_wf (st : Stream) : Prop := {
  sw_block : bytes_ok (st_header_block st);
  sw_block_len : len (st_header_block st) ≤ SERVER_MAX_HEADER_BLOCK_BYTES;
  sw_headers : total_size (st_headers st) ≤ SERVER_MAX_HEADER_LIST_SIZE;
  sw_recv : 0 ≤ recv_window st;
  sw_body : len (st_body st) + recv_window st ≤ SERVER_INITIAL_WINDOW_SIZE;
  sw_emitted : emitted st = false;
}.

Definition send_wf (initial : Z) (ss : SendState) : Prop :=
  bytes_ok (pending ss) ∧ - window_max ≤ window ss - initial ≤ window_max.

Record conn_wf (c : Http2Connection) : Prop := {
  wf_rbuf : bytes_ok (rbuf c);
  wf_limits : inbound_max_frame_size c = DEFAULT_MAX_FRAME_SIZE ∧ inbound_header_list_size c = SERVER_MAX_HEADER_LIST_SIZE ∧
              inbound_header_table_size c = SERVER_HEADER_TABLE_SIZE;
  wf_hpack : table_wf (inbound_hpack c) ∧ 0 ≤ max_size (inbound_hpack c) ≤ SERVER_HEADER_TABLE_SIZE;
  wf_streams : map_Forall (λ sid st, 0 < sid ≤ last_stream_id c ∧ sid `mod` 2 = 1 ∧ stream_wf st) (streams c);
  wf_count : Z.of_nat (base.size (streams c)) ≤ SERVER_MAX_CONCURRENT_STREAMS;
  wf_last : 0 ≤ last_stream_id c;
  wf_recv : 0 ≤ conn_recv_window c ≤ SERVER_INITIAL_WINDOW_SIZE;
  wf_conn_send : 0 ≤ conn_send_window c ≤ window_max;
  wf_initial : 0 ≤ peer_initial_window c ≤ window_max;
  wf_frame_size : 16384 ≤ peer_max_frame_size c ≤ 16777215;
  wf_send : map_Forall (λ _, send_wf (peer_initial_window c)) (send c);
}.

Definition frame_bytes (fr : Frame) : Prop :=
  bytes_ok (f_payload fr) ∧ fh_length (f_header fr) = len (f_payload fr) ∧ 0 ≤ fh_stream_id (f_header fr).

(** Prove the invariant of an updated connection from that of the old one. *)
Ltac wf_step H := destruct H; constructor; cbn in *; try assumption; try lia.

Lemma http2_new_wf : conn_wf http2_new.
Proof. constructor; cbn; try done; constructor. Qed.

Lemma set_rbuf_wf c b : conn_wf c → bytes_ok b → conn_wf (set_rbuf b c).
Proof. intros H Hb. by wf_step H. Qed.

Lemma goaway_code_wf c f code : conn_wf c → conn_wf (goaway_code c f code).1.1.
Proof. intros H. unfold goaway_code. destruct (goaway_sent c); [done|]. by wf_step H. Qed.

(** Streams may go, and may be replaced by well-formed ones. *)
Lemma delete_stream_wf c sid : conn_wf c → conn_wf (set_streams (delete sid (streams c)) c).
Proof.
  intros H. wf_step H; [by apply map_Forall_delete|]. rewrite map_size_delete. destruct (streams c !! sid); unfold id; lia.
Qed.

Lemma replace_stream_wf c sid st st' :
  conn_wf c → streams c !! sid = Some st → stream_wf st' → conn_wf (set_streams (<[sid := st']> (streams c)) c).
Proof.
  intros H Hst Hst'. wf_step H.
  - pose proof (map_Forall_lookup_1 _ _ _ _ wf_streams0 Hst) as (? & ? & _). by apply map_Forall_insert_2.
  - rewrite map_size_insert, Hst. unfold id; lia.
Qed.

(** *** Sending *)

Lemma send_wf_delete c sid : conn_wf c → conn_wf (set_send (delete sid (send c)) c).
Proof. intros H. wf_step H. by apply map_Forall_delete. Qed.

Lemma send_wf_insert c sid ss :
  conn_wf c → send_wf (peer_initial_window c) ss → conn_wf (set_send (<[sid := ss]> (send c)) c).
Proof. intros H Hs. wf_step H. by apply map_Forall_insert_2. Qed.

Lemma conn_send_wf c w : conn_wf c → 0 ≤ w ≤ window_max → conn_wf (set_conn_send_window w c).
Proof. intros H Hw. by wf_step H. Qed.

Lemma flush_loop_wf fuel c sid out : conn_wf c → conn_wf (flush_loop fuel c sid out).1.
Proof.
  revert c out. induction fuel as [|fuel IH]; intros c out H; cbn [flush_loop]; [done|].
  destruct (send c !! sid) as [ss|] eqn:Es; [|done]. case_bool_decide as Hp; [by apply send_wf_delete|].
  set (allowed := Z.min _ (len (pending ss))). destruct (Z.leb_spec allowed 0) as [|Ha]; [done|].
  assert (conn_wf (set_conn_send_window (conn_send_window c - allowed) c)) as H1.
  { apply conn_send_wf; [done|]. pose proof (wf_conn_send _ H). lia. }
  pose proof (map_Forall_lookup_1 _ _ _ _ (wf_send _ H) Es) as [Hb Hw].
  eassert (conn_wf (set_send (<[sid := {| pending := drop (Z.to_nat allowed) (pending ss); window := window ss - allowed |}]> _) _)) as H2.
  { apply send_wf_insert; [exact H1|]. split; cbn [pending window]; [by apply Forall_drop|].
    change (peer_initial_window (set_conn_send_window _ c)) with (peer_initial_window c).
    pose proof (wf_initial _ H). unfold window_max in *. lia. }
  case_bool_decide; [by apply send_wf_delete|by apply IH].
Qed.

Lemma flush_stream_wf c sid out : conn_wf c → conn_wf (flush_stream c sid out).1.
Proof. apply flush_loop_wf. Qed.

Section conn.
Context `{Profile, KeyOrder}.

Lemma flush_all_wf c out : conn_wf c → conn_wf (flush_all c out).1.
Proof.
  unfold flush_all. generalize (hash_keys (send c)). intros keys. revert c out.
  induction keys as [|k keys IH]; intros c out Hc; [done|]. cbn [foldl].
  destruct (flush_stream c k out) as [c' out'] eqn:E. apply IH. pose proof (flush_stream_wf c k out Hc) as Hw. by rewrite E in Hw.
Qed.

Lemma flush_feed_wf c f : conn_wf c → conn_wf (flush_feed c f).1.
Proof.
  intros Hc. unfold flush_feed. pose proof (flush_all_wf c (outbound f) Hc) as Hw. by destruct (flush_all c (outbound f)).
Qed.

Lemma respond_wf c sid status hs body : conn_wf c → bytes_ok body → conn_wf (respond c sid status hs body).1.
Proof.
  intros Hc Hb. unfold respond. pose proof (delete_stream_wf c sid Hc) as H1. case_bool_decide; [done|].
  apply flush_stream_wf, send_wf_insert; [done|]. split; [done|]. cbn. unfold window_max. lia.
Qed.

(** *** Receiving *)

Lemma stream_wf_block st b :
  stream_wf st → bytes_ok b → len b ≤ SERVER_MAX_HEADER_BLOCK_BYTES → stream_wf (set_st_header_block b st).
Proof. intros Hs Hb Hl. by destruct Hs; constructor. Qed.

Lemma stream_wf_end st b : stream_wf st → stream_wf (set_st_end_stream b st).
Proof. intros Hs. by destruct Hs; constructor. Qed.

Lemma stream_wf_count st n : stream_wf st → stream_wf (set_continuation_count n st).
Proof. intros Hs. by destruct Hs; constructor. Qed.

Lemma stream_wf_new : stream_wf (set_recv_window SERVER_INITIAL_WINDOW_SIZE stream_default).
Proof. constructor; cbn; try done. constructor. Qed.

Lemma try_emit_wf c f sid : conn_wf c → conn_wf (try_emit c f sid).1.
Proof.
  intros Hc. unfold try_emit. destruct (streams c !! sid) as [st|]; [|done]. destruct (_ && _); [by apply delete_stream_wf|done].
Qed.

Lemma emit_then_ok_wf c f sid : conn_wf c → conn_wf (emit_then_ok f sid c).1.1.
Proof. intros Hc. unfold emit_then_ok. pose proof (try_emit_wf c f sid Hc). by destruct (try_emit c f sid). Qed.

Lemma finish_headers_wf c sid c' r : conn_wf c → finish_headers c sid = Ret (c', r) → conn_wf c'.
Proof.
  intros Hc. unfold finish_headers. destruct (streams c !! sid) as [st|] eqn:Es; [|by intros [= <- <-]].
  pose proof (map_Forall_lookup_1 _ _ _ _ (wf_streams _ Hc) Es) as (Hsid & Hodd & Hst).
  set (c1 := set_streams _ c). assert (conn_wf c1) as H1.
  { eapply replace_stream_wf; [done..|]. by apply stream_wf_block; [|constructor|]. }
  destruct (wf_hpack _ Hc) as [Ht Hm]. destruct (wf_limits _ Hc) as (_ & El & Em).
  change (inbound_hpack c1) with (inbound_hpack c). change (inbound_header_list_size c1) with (inbound_header_list_size c).
  change (inbound_header_table_size c1) with (inbound_header_table_size c). rewrite El, Em.
  destruct (decode_header_block_limited _ _ _) as [[t decoded]|] eqn:Ed; [|done]. cbn [outcome_bind].
  eapply decode_block_spec in Ed as (Ht' & Hm' & Hlist); [|apply Hst|done|exact Hm|done|done].
  assert (conn_wf (set_inbound_hpack t c1)) as H2 by (wf_step H1; done).
  destruct decoded as [hs|e]; [|by intros [= <- <-]]. cbn [streams set_inbound_hpack]. subst c1. cbn [streams set_streams].
  rewrite lookup_insert_eq. intros [= <- <-].
  specialize (Hlist hs eq_refl). cbn in Hlist.
  refine (replace_stream_wf (set_inbound_hpack t (set_streams _ c)) sid (set_st_header_block [] st) _ H2 _ _); [cbn; apply lookup_insert_eq|].
  destruct Hst. constructor; cbn; try done. constructor.
Qed.

(** *** The handlers *)

Lemma unpad_spec body pad b : 0 ≤ pad → unpad body pad = Some b → bytes_ok body → bytes_ok b ∧ len b ≤ len body.
Proof.
  unfold unpad. intros Hp. destruct (_ <? _); [done|]. intros [= <-] Hb. split; [by apply Forall_take|].
  unfold len. rewrite length_take. lia.
Qed.

Lemma data_payload_spec fr b : bytes_ok (f_payload fr) → data_payload fr = Some b → len b ≤ len (f_payload fr).
Proof.
  unfold data_payload, strip_padding. intros Hb. destruct (has_flag _ _); cbn [negb]; [|intros [= <-]; done].
  destruct (f_payload fr) as [|pad body]; [done|]. inversion_clear Hb as [|? ? Hp Hb']. unfold is_u8 in Hp.
  intros E. apply unpad_spec in E as [_ ?]; [|lia|done]. rewrite len_cons. lia.
Qed.

Lemma header_block_fragment_ok fr b : bytes_ok (f_payload fr) → header_block_fragment fr = Some b → bytes_ok b.
Proof.
  unfold header_block_fragment. intros Hb. destruct (has_flag _ FLAG_PADDED).
  - destruct (f_payload fr) as [|pad p]; [done|]. inversion_clear Hb as [|? ? Hp Hb']. unfold is_u8 in Hp.
    destruct (has_flag _ _); [destruct (_ <? _); [done|]|]; intros E; apply unpad_spec in E as [? _]; try done; try lia.
    by apply Forall_drop.
  - destruct (has_flag _ _); [destruct (_ <? _); [done|]|]; intros E; apply unpad_spec in E as [? _]; try done.
    by apply Forall_drop.
Qed.

Lemma decode_settings_values payload : bytes_ok payload → Forall (λ s, 0 ≤ s_value s) (decode_settings_payload payload).
Proof.
  remember (length payload) as n eqn:En. revert payload En. induction (lt_wf n) as [n _ IH]. intros payload -> Hb.
  destruct payload as [|c0 [|c1 [|c2 [|c3 [|c4 [|c5 rest]]]]]]; try by constructor.
  cbn [decode_settings_payload]. do 2 (inversion_clear Hb as [|? ? _ Hb']; rename Hb' into Hb).
  constructor; [|apply (IH (length rest)); [simpl; lia|done|by apply (Forall_drop _ 4) in Hb]].
  apply (from_be_bytes_bound [c2; c3; c4; c5]). by apply (Forall_take _ 4) in Hb.
Qed.

Lemma initial_window_wf c v :
  conn_wf c → 0 ≤ v ≤ window_max →
  let c := set_send ((λ ss, {| pending := pending ss; window := window ss + (v - peer_initial_window c) |}) <$> send c)
             (set_peer_initial_window v c) in conn_wf c.
Proof.
  intros Hc Hv. destruct Hc. constructor; cbn in *; try assumption.
  apply map_Forall_fmap. intros sid ss Hss. pose proof (map_Forall_lookup_1 _ _ _ _ wf_send0 Hss) as [Hb Hw].
  split; cbn; [done|lia].
Qed.

Lemma apply_settings_wf c f ss : conn_wf c → Forall (λ s, 0 ≤ s_value s) ss → conn_wf (apply_settings c f ss).1.1.
Proof.
  intros Hc Hss. revert c f Hc. induction Hss as [|s ss Hs _ IH]; intros c f Hc; cbn [apply_settings]; [done|].
  destruct (_ && _); [by apply goaway_code_wf|]. destruct (s_id s =? _).
  { destruct (Z.leb_spec 16384 (s_value s)), (Z.leb_spec (s_value s) 16777215); cbn [andb negb]; try by apply goaway_code_wf.
    apply IH. by wf_step Hc. }
  destruct (s_id s =? _); [|by apply IH].
  destruct (Z.ltb_spec 0x7FFFFFFF (s_value s)); [by apply goaway_code_wf|]. apply IH.
  refine (initial_window_wf c (s_value s) Hc _). unfold window_max. lia.
Qed.

Lemma handle_settings_wf c f fr : conn_wf c → frame_bytes fr → conn_wf (handle_settings c f fr).1.1.
Proof.
  intros Hc (Hb & _). unfold handle_settings. destruct (negb _); [by apply goaway_code_wf|].
  destruct (_ && _); [by apply goaway_code_wf|]. destruct (has_flag _ _); [done|].
  unfold decode_settings_payload_checked. destruct (negb _); [by apply goaway_code_wf|].
  pose proof (apply_settings_wf c f _ Hc (decode_settings_values _ Hb)) as Ha.
  destruct (apply_settings c f _) as [[c' f'] go_on]. destruct go_on; [|done].
  pose proof (flush_feed_wf c' (out_bytes encode_settings_ack f') Ha) as Hf. by destruct (flush_feed c' _).
Qed.

Lemma handle_ping_wf c f fr : conn_wf c → conn_wf (handle_ping c f fr).1.1.
Proof. intros Hc. unfold handle_ping. destruct (_ || _); [by apply goaway_code_wf|]. by destruct (_ && _). Qed.

Lemma window_update_increment_nonneg p inc : window_update_increment p = Some inc → 0 ≤ inc.
Proof.
  unfold window_update_increment. destruct p as [|? [|? [|? [|? [|]]]]]; try done. intros [= <-].
  apply Z.land_nonneg. by right.
Qed.

Lemma handle_window_update_wf c f fr : conn_wf c → conn_wf (handle_window_update c f fr).1.1.
Proof.
  intros Hc. unfold handle_window_update. destruct (window_update_increment _) as [inc|] eqn:Ei; [|by apply goaway_code_wf].
  apply window_update_increment_nonneg in Ei. destruct (inc =? 0); [by apply goaway_code_wf|].
  assert (∀ c', conn_wf c' → conn_wf ((let '(c, f) := flush_feed c' f in (c, f, Ok tt)) : handled).1.1) as Hflush.
  { intros c' Hc'. pose proof (flush_feed_wf c' f Hc'). by destruct (flush_feed c' f). }
  destruct (_ =? 0).
  - destruct (Z.ltb_spec 0x7FFFFFFF (conn_send_window c + inc)); [by apply goaway_code_wf|].
    apply Hflush, conn_send_wf; [done|]. pose proof (wf_conn_send _ Hc). unfold window_max in *. lia.
  - destruct (send c !! _) as [ss|] eqn:Es; [|by apply Hflush].
    destruct (Z.ltb_spec 0x7FFFFFFF (window ss + inc)); [by apply goaway_code_wf|].
    pose proof (map_Forall_lookup_1 _ _ _ _ (wf_send _ Hc) Es) as [Hb Hw].
    apply Hflush, send_wf_insert; [done|]. split; cbn; [done|]. pose proof (wf_initial _ Hc). unfold window_max in *. lia.
Qed.

Lemma handle_rst_stream_wf c f fr : conn_wf c → conn_wf (handle_rst_stream c f fr).1.1.
Proof.
  intros Hc. unfold handle_rst_stream. destruct (_ || _); [by apply goaway_code_wf|].
  set (c1 := set_rst_stream_count _ c). assert (conn_wf c1) as H1 by by wf_step Hc.
  destruct (_ <? _); [by apply goaway_code_wf|]. pose proof (delete_stream_wf c1 (fh_stream_id (f_header fr)) H1) as H2.
  cbn. case_bool_decide; [|done]. by wf_step H2.
Qed.

Lemma end_of_headers_wf c f sid k h :
  conn_wf c → (∀ c', conn_wf c' → conn_wf (k c').1.1) → end_of_headers c f sid k = Ret h → conn_wf h.1.1.
Proof.
  intros Hc Hk. unfold end_of_headers. destruct (finish_headers c sid) as [[c' r]|] eqn:E; [|done]. cbn [outcome_bind].
  apply finish_headers_wf in E; [|done]. destruct r as [u|e]; intros [= <-]; [|done]. apply Hk. by wf_step E.
Qed.

Lemma handle_headers_wf c f fr h : conn_wf c → frame_bytes fr → handle_headers c f fr = Ret h → conn_wf h.1.1.
Proof.
  intros Hc (Hb & _ & Hsid). unfold handle_headers. set (sid := fh_stream_id (f_header fr)) in *.
  assert (∀ c' code h, conn_wf c' → Ret (goaway_code c' f code) = Ret h → conn_wf h.1.1) as Hgo.
  { intros c' code h' Hc' [= <-]. by apply goaway_code_wf. }
  destruct (Z.eqb_spec sid 0); [by apply Hgo|].
  destruct (Z.eqb_spec (sid `mod` 2) 0); [by apply Hgo|]. destruct (Z.leb_spec sid (last_stream_id c)); [by apply Hgo|].
  cbn [orb]. case_bool_decide; [by apply Hgo|]. destruct (Z.leb_spec SERVER_MAX_CONCURRENT_STREAMS (Z.of_nat (base.size (streams c)))); [by apply Hgo|].
  set (c1 := set_stream_lifetime_count _ c). assert (conn_wf c1) as Hw1 by by wf_step Hc.
  destruct (_ <? _); [by apply Hgo|]. destruct (header_block_fragment fr) as [frag|] eqn:Ef; [|by intros [= <-]].
  apply header_block_fragment_ok in Ef; [|done]. destruct (Z.ltb_spec SERVER_MAX_HEADER_BLOCK_BYTES (len frag)); [by apply Hgo|].
  assert (streams c !! sid = None) as Hnew.
  { destruct (streams c !! sid) as [st|] eqn:Es; [|done].
    pose proof (map_Forall_lookup_1 _ _ _ _ (wf_streams _ Hc) Es) as (? & _). lia. }
  cbn [streams set_last_stream_id c1 set_stream_lifetime_count]. rewrite Hnew. cbn [default].
  set (st := (if has_flag _ FLAG_END_STREAM then _ else _)).
  assert (stream_wf st) as Hst.
  { subst st. pose proof stream_wf_new as Hn. eapply stream_wf_block in Hn; [|exact Ef|done].
    destruct (has_flag _ _); [by apply stream_wf_end|done]. }
  set (c2 := set_streams _ _). assert (conn_wf c2) as Hw2.
  { subst c2 c1. destruct Hc. constructor; cbn in *; try assumption; try lia.
    - apply map_Forall_insert_2; [split_and!; [lia..| |done]|].
      + pose proof (Z.mod_pos_bound sid 2 ltac:(lia)). lia.
      + eapply map_Forall_impl; [done|]. intros ? ? (? & ? & ?). split_and!; [lia..|done|done].
    - rewrite map_size_insert, Hnew. lia. }
  destruct (has_flag _ FLAG_END_HEADERS).
  - apply end_of_headers_wf; [done|]. intros c' Hc'. by apply emit_then_ok_wf.
  - intros [= <-]. apply emit_then_ok_wf. by wf_step Hw2.
Qed.

Lemma handle_continuation_wf c f fr h : conn_wf c → frame_bytes fr → handle_continuation c f fr = Ret h → conn_wf h.1.1.
Proof.
  intros Hc (Hb & _). unfold handle_continuation. destruct (negb _); [intros [= <-]; by apply goaway_code_wf|].
  destruct (streams c !! _) as [st|] eqn:Es; [|by intros [= <-]].
  pose proof (map_Forall_lookup_1 _ _ _ _ (wf_streams _ Hc) Es) as (_ & _ & Hst).
  set (st1 := set_continuation_count _ st). assert (stream_wf st1) as Hw1 by by apply stream_wf_count.
  set (c1 := set_streams _ c). assert (conn_wf c1) as Hc1 by by eapply replace_stream_wf.
  destruct (_ <? _); [intros [= <-]; by apply goaway_code_wf|].
  destruct (Z.ltb_spec SERVER_MAX_HEADER_BLOCK_BYTES (len (st_header_block st1) + len (f_payload fr))); [intros [= <-]; by apply goaway_code_wf|].
  set (c2 := set_streams _ c1). assert (conn_wf c2) as Hc2.
  { eapply replace_stream_wf; [done|cbn; apply lookup_insert_eq|]. apply stream_wf_block; [done| |by rewrite len_app].
    apply Forall_app. split; [apply Hw1|done]. }
  destruct (has_flag _ _); [|by intros [= <-]]. apply end_of_headers_wf; [done|]. intros c' Hc'. by apply emit_then_ok_wf.
Qed.

Lemma handle_data_wf c f fr : conn_wf c → frame_bytes fr → conn_wf (handle_data c f fr).1.1.
Proof.
  intros Hc (Hb & Hlen & _). unfold handle_data. destruct (_ =? 0); [by apply goaway_code_wf|].
  destruct (streams c !! _) as [st|] eqn:Es; [|by apply goaway_code_wf]. destruct (data_payload fr) as [body|] eqn:Ed; [|done].
  apply data_payload_spec in Ed; [|done]. pose proof (len_nonneg (f_payload fr)). rewrite Hlen.
  pose proof (map_Forall_lookup_1 _ _ _ _ (wf_streams _ Hc) Es) as (Hsid & Hodd & Hst).
  destruct (Z.ltb_spec (conn_recv_window c - len (f_payload fr)) 0); [by apply goaway_code_wf|].
  set (c1 := set_conn_recv_window _ c). assert (conn_wf c1) as Hw1 by (subst c1; wf_step Hc; lia).
  destruct (Z.ltb_spec (recv_window st - len (f_payload fr)) 0); [by apply goaway_code_wf|].
  apply emit_then_ok_wf. eapply replace_stream_wf; [done|exact Es|].
  assert (stream_wf (set_st_body (st_body st ++ body) (set_recv_window (recv_window st - len (f_payload fr)) st))) as Hw2.
  { destruct Hst. constructor; cbn in *; try done; try lia. rewrite len_app. lia. }
  destruct (has_flag _ _); [by apply stream_wf_end|done].
Qed.

Lemma handle_frame_wf c f fr h : conn_wf c → frame_bytes fr → handle_frame c f fr = Ret h → conn_wf h.1.1.
Proof.
  intros Hc Hfr. unfold handle_frame. destruct (fh_type (f_header fr));
    first [by apply handle_headers_wf | by apply handle_continuation_wf | intros [= <-]]; try done.
  - by apply handle_data_wf.
  - by apply handle_rst_stream_wf.
  - by apply handle_settings_wf.
  - by apply handle_ping_wf.
  - by apply handle_window_update_wf.
Qed.

(** *** Feeding *)

Lemma take_frame_bytes buf fr n : bytes_ok buf → take_frame buf = Some (fr, n) → frame_bytes fr.
Proof.
  intros Hb E. pose proof (take_frame_Some _ _ _ Hb E) as (_ & _ & Hl & Eh & _). split_and!; [|done|].
  - unfold take_frame in E. destruct (decode_frame_header buf); [|done]. destruct (_ <? _); [done|]. injection E as <- _.
    by apply Forall_take, Forall_drop.
  - destruct buf as [|? [|? [|? [|? [|? [|? [|? [|? [|? ?]]]]]]]]]; try done. injection Eh as <-. cbn. apply Z.land_nonneg. by right.
Qed.

Lemma frame_loop_wf fuel c f h : conn_wf c → frame_loop fuel c f = Ret h → conn_wf h.1.1.
Proof.
  revert c f. induction fuel as [|fuel IH]; intros c f Hc; cbn [frame_loop]; [by intros [= <-]|].
  destruct (take_frame (rbuf c)) as [[fr used]|] eqn:Et; [|by intros [= <-]].
  pose proof (take_frame_bytes _ _ _ (wf_rbuf _ Hc) Et) as Hfr.
  assert (conn_wf (set_rbuf (drop used (rbuf c)) c)) as H1 by (apply set_rbuf_wf; [done|apply Forall_drop, Hc]).
  destruct (_ <? _); [intros [= <-]; by apply goaway_code_wf|].
  destruct (handle_frame _ f fr) as [[[c' f'] r]|] eqn:Eh; [|done]. cbn [outcome_bind].
  apply handle_frame_wf in Eh; [|done..]. destruct r; [by apply IH|by intros [= <-]].
Qed.

Lemma check_partial_wf c f : conn_wf c → conn_wf (check_partial c f).1.
Proof.
  intros Hc. unfold check_partial. destruct (decode_frame_header (rbuf c)) as [h|]; [|done]. destruct (_ <? _); [|done].
  pose proof (goaway_code_wf c f ERR_FRAME_SIZE_ERROR Hc) as Hg. destruct (goaway_code c f _) as [[c' f'] r].
  apply set_rbuf_wf; [done|constructor].
Qed.

Lemma feed_frames_wf c f c' r : conn_wf c → feed_frames c f = Ret (c', r) → conn_wf c'.
Proof.
  intros Hc. unfold feed_frames. destruct (frame_loop _ c f) as [[[c1 f1] o]|] eqn:E; [|done]. cbn [outcome_bind].
  apply frame_loop_wf in E; [|done]. cbn in E. destruct o as [u|e]; [|by intros [= <- <-]].
  pose proof (check_partial_wf c1 f1 E) as Hp. destruct (check_partial c1 f1). by intros [= <- <-].
Qed.

Lemma feed_wf c inbound c' r : conn_wf c → bytes_ok inbound → feed c inbound = Ret (c', r) → conn_wf c'.
Proof.
  intros Hc Hin. unfold feed. set (c1 := set_rbuf _ c).
  assert (conn_wf c1) as H1 by (apply set_rbuf_wf; [done|apply Forall_app; split; [apply Hc|done]]).
  destruct (preface_seen c1); [by apply feed_frames_wf|]. destruct (_ <? _); [by intros [= <- <-]|].
  destruct (negb _); [by intros [= <- <-]|]. apply feed_frames_wf.
  assert (conn_wf (set_rbuf (drop (length CONNECTION_PREFACE) (rbuf c1)) c1)) as H2.
  { apply set_rbuf_wf; [done|]. apply Forall_drop, H1. }
  by wf_step H2.
Qed.
End conn.

(** ** Each request once *)

(** From [c] to [c'] the streams [ids] were answered as requests: each was open before
    or is newer than the last one, and is neither open nor ahead afterwards; streams are
    opened only ahead of the last one. *)
Record advance (c c' : Http2Connection) (ids : list Z) : Prop := {
  adv_last : last_stream_id c ≤ last_stream_id c';
  adv_nodup : NoDup ids;
  adv_ids i : i ∈ ids → (is_Some (streams c !! i) ∨ last_stream_id c < i) ∧ i ≤ last_stream_id c' ∧ streams c' !! i = None;
  adv_open i : is_Some (streams c' !! i) → is_Some (streams c !! i) ∨ last_stream_id c < i ≤ last_stream_id c';
}.

Lemma advance_still c c' :
  last_stream_id c' = last_stream_id c → (∀ i, is_Some (streams c' !! i) → is_Some (streams c !! i)) → advance c c' [].
Proof. intros El Hs. constructor; [lia|constructor|by intros i ?%elem_of_nil|auto]. Qed.

Lemma advance_trans c1 c2 c3 a b : advance c1 c2 a → advance c2 c3 b → advance c1 c3 (a ++ b).
Proof.
  intros H1 H2. pose proof (adv_last _ _ _ H1). pose proof (adv_last _ _ _ H2). constructor.
  - lia.
  - apply NoDup_app. split_and!; [apply H1| |apply H2]. intros i Ha Hb.
    apply (adv_ids _ _ _ H1) in Ha as (_ & ? & E). apply (adv_ids _ _ _ H2) in Hb as ([Hs|?] & _); [|lia].
    rewrite E in Hs. by destruct Hs.
  - intros i [Hi|Hi]%elem_of_app.
    + apply (adv_ids _ _ _ H1) in Hi as (? & ? & E). split_and!; [done|lia|].
      destruct (streams c3 !! i) as [st|] eqn:E3; [|done].
      destruct (adv_open _ _ _ H2 i (ex_intro _ st E3)) as [Hs|?]; [rewrite E in Hs; by destruct Hs|lia].
    + apply (adv_ids _ _ _ H2) in Hi as ([Hs|?] & ? & ?); [|by split_and!; [right; lia|..]].
      destruct (adv_open _ _ _ H1 i Hs) as [?|?]; split_and!; auto. right. lia.
  - intros i Hi. destruct (adv_open _ _ _ H2 i Hi) as [Hs|?]; [|right; lia].
    destruct (adv_open _ _ _ H1 i Hs) as [?|?]; [by left|right; lia].
Qed.

Lemma advance_refl c : advance c c [].
Proof. by apply advance_still. Qed.

Definition handled_adv (c : Http2Connection) (f : Http2Feed) (h : Http2Connection * Http2Feed) : Prop :=
  ∃ rs, requests h.2 = requests f ++ rs ∧ advance c h.1 (rq_stream_id <$> rs).

Lemma adv_still c f c' f' :
  requests f' = requests f → last_stream_id c' = last_stream_id c →
  (∀ i, is_Some (streams c' !! i) → is_Some (streams c !! i)) → handled_adv c f (c', f').
Proof. intros Hr Hl Hs. exists []. rewrite app_nil_r. split; [done|by apply advance_still]. Qed.

(** A handler that went on from a connection like [c]. *)
Lemma adv_from c f c1 f1 h :
  handled_adv c f (c1, f1) → handled_adv c1 f1 h → handled_adv c f h.
Proof.
  intros (r1 & E1 & A1) (r2 & E2 & A2). exists (r1 ++ r2). cbn in *. rewrite E2, E1, <-(assoc_L (++)), fmap_app.
  split; [done|by eapply advance_trans].
Qed.

Lemma goaway_code_adv c f code : handled_adv c f (goaway_code c f code).1.
Proof. unfold goaway_code. destruct (goaway_sent c); by apply adv_still. Qed.

Lemma flush_loop_streams fuel c sid out :
  streams (flush_loop fuel c sid out).1 = streams c ∧ last_stream_id (flush_loop fuel c sid out).1 = last_stream_id c.
Proof.
  revert c out. induction fuel as [|fuel IH]; intros c out; cbn [flush_loop]; [done|].
  destruct (send c !! sid) as [ss|]; [|done]. case_bool_decide; [done|]. destruct (_ <=? 0); [done|].
  case_bool_decide; [done|]. apply (IH (set_send _ (set_conn_send_window _ c))).
Qed.

Section emission.
Context `{Profile, KeyOrder}.

Lemma flush_feed_adv c f : handled_adv c f (flush_feed c f).
Proof.
  unfold flush_feed, flush_all. generalize (hash_keys (send c)) (outbound f). intros keys out.
  assert (∀ keys c out, let c' := (foldl (λ '(c, out) sid, flush_stream c sid out) (c, out) keys).1 in
            streams c' = streams c ∧ last_stream_id c' = last_stream_id c) as L.
  { clear. induction keys as [|k keys IH]; intros c out; [done|]. cbn [foldl].
    destruct (flush_stream c k out) as [c1 o1] eqn:E. pose proof (flush_loop_streams (S (length (from_option pending [] (send c !! k)))) c k out) as [E1 E2].
    unfold flush_stream in E. rewrite E in E1, E2. cbn in *. destruct (IH c1 o1) as [-> ->]. by rewrite E1, E2. }
  specialize (L keys c out). destruct (foldl _ _ keys) as [c' out']. destruct L as [Es El]. apply adv_still; [done|done|].
  intros i. cbn in Es. by rewrite Es.
Qed.

Lemma try_emit_adv c f sid : sid ≤ last_stream_id c → handled_adv c f (try_emit c f sid).
Proof.
  intros Hsid. unfold try_emit. destruct (streams c !! sid) as [st|] eqn:Es; [|by apply adv_still].
  destruct (_ && _); [|by apply adv_still]. exists [{| rq_stream_id := sid; rq_headers := st_headers st; rq_body := st_body st |}].
  split; [done|]. constructor; cbn; [done|by apply NoDup_singleton| |].
  - intros i ->%list_elem_of_singleton. split_and!; [left; rewrite Es; by eexists|done|apply lookup_delete_eq].
  - intros i [_ Hi]%lookup_delete_is_Some. by left.
Qed.

Lemma apply_settings_adv c f ss : handled_adv c f (apply_settings c f ss).1.
Proof.
  revert c f. induction ss as [|s ss IH]; intros c f; cbn [apply_settings]; [by apply adv_still|].
  destruct (_ && _); [exact (goaway_code_adv c f _)|]. destruct (_ =? _).
  { destruct (negb _); [exact (goaway_code_adv c f _)|]. eapply adv_from; [|apply IH]. by apply adv_still. }
  destruct (_ =? _); [|apply IH]. destruct (_ <? _); [exact (goaway_code_adv c f _)|]. eapply adv_from; [|apply IH]. by apply adv_still.
Qed.

Lemma handle_settings_adv c f fr : handled_adv c f (handle_settings c f fr).1.
Proof.
  unfold handle_settings. destruct (negb _); [apply goaway_code_adv|]. destruct (_ && _); [apply goaway_code_adv|].
  destruct (has_flag _ _); [by apply adv_still|]. destruct (decode_settings_payload_checked _) as [ss|]; [|apply goaway_code_adv].
  pose proof (apply_settings_adv c f ss) as Ha. destruct (apply_settings c f ss) as [[c1 f1] go_on]. destruct go_on; [|done].
  pose proof (flush_feed_adv c1 (out_bytes encode_settings_ack f1)) as Hf. destruct (flush_feed c1 _) as [c2 f2].
  eapply adv_from; [exact Ha|]. eapply adv_from; [|exact Hf]. by apply adv_still.
Qed.

Lemma handle_window_update_adv c f fr : handled_adv c f (handle_window_update c f fr).1.
Proof.
  unfold handle_window_update. destruct (window_update_increment _) as [inc|]; [|apply goaway_code_adv].
  destruct (inc =? 0); [apply goaway_code_adv|].
  assert (∀ c', last_stream_id c' = last_stream_id c → streams c' = streams c →
    handled_adv c f ((let '(c, f) := flush_feed c' f in (c, f, Ok tt)) : handled).1) as Hflush.
  { intros c' El Es. pose proof (flush_feed_adv c' f) as Hf. destruct (flush_feed c' f). cbn [fst] in *.
    eapply adv_from; [|exact Hf]. apply adv_still; [done|done|]. intros i. by rewrite Es. }
  destruct (_ =? 0); [destruct (_ <? _); [apply goaway_code_adv|by apply Hflush]|].
  destruct (send c !! _); [|by apply Hflush]. destruct (_ <? _); [apply goaway_code_adv|by apply Hflush].
Qed.

Lemma handle_rst_stream_adv c f fr : handled_adv c f (handle_rst_stream c f fr).1.
Proof.
  unfold handle_rst_stream. destruct (_ || _); [apply goaway_code_adv|]. destruct (_ <? _).
  - eapply adv_from; [|apply goaway_code_adv]. by apply adv_still.
  - cbn. case_bool_decide; (apply adv_still; [done|done|]; cbn; intros i [_ Hi]%lookup_delete_is_Some; done).
Qed.

Lemma finish_headers_same c sid c' r :
  finish_headers c sid = Ret (c', r) →
  last_stream_id c' = last_stream_id c ∧ ∀ i, is_Some (streams c' !! i) → is_Some (streams c !! i).
Proof.
  unfold finish_headers. destruct (streams c !! sid) as [st|] eqn:Es; [|by intros [= <- <-]].
  destruct (decode_header_block_limited _ _ _) as [[t d]|]; [|done]. cbn.
  assert (∀ st' i, is_Some ((<[sid := st']> (streams c)) !! i) → is_Some (streams c !! i)) as Hin.
  { intros st' i [->|[_ ?]]%lookup_insert_is_Some; [by rewrite Es|done]. }
  destruct d as [hs|e]; [|intros [= <- <-]; split; [done|apply Hin]]. cbn. rewrite lookup_insert_eq. intros [= <- <-].
  split; [done|]. cbn. rewrite insert_insert_eq. apply Hin.
Qed.

Lemma end_of_headers_adv c f sid h :
  sid ≤ last_stream_id c → end_of_headers c f sid (emit_then_ok f sid) = Ret h → handled_adv c f h.1.
Proof.
  intros Hsid. unfold end_of_headers. destruct (finish_headers c sid) as [[c' r]|] eqn:E; [|done]. cbn [outcome_bind].
  apply finish_headers_same in E as [El Es]. destruct r as [u|e]; intros [= <-]; [|by apply adv_still].
  unfold emit_then_ok. pose proof (try_emit_adv (set_active_header_stream None c') f sid ltac:(cbn; lia)) as He.
  destruct (try_emit _ f sid) as [c2 f2]. eapply adv_from; [|exact He]. by apply adv_still.
Qed.

Lemma handle_headers_adv c f fr h : handle_headers c f fr = Ret h → handled_adv c f h.1.
Proof.
  unfold handle_headers. set (sid := fh_stream_id (f_header fr)).
  assert (∀ c' code h, last_stream_id c' = last_stream_id c → streams c' = streams c →
            Ret (goaway_code c' f code) = Ret h → handled_adv c f h.1) as Hgo.
  { intros c' code h' El Es [= <-]. eapply adv_from; [|apply goaway_code_adv]. apply adv_still; [done|done|]. intros i. by rewrite Es. }
  destruct (sid =? 0); [by apply Hgo|]. destruct (Z.leb_spec sid (last_stream_id c)) as [|Hnew]; [rewrite orb_true_r; by apply Hgo|].
  destruct (_ || _); [by apply Hgo|]. case_bool_decide; [by apply Hgo|]. destruct (_ <=? _); [by apply Hgo|].
  destruct (_ <? _); [by apply Hgo|]. destruct (header_block_fragment fr) as [frag|]; [|intros [= <-]; by apply adv_still].
  destruct (_ <? _); [by apply Hgo|]. set (c2 := set_streams _ _).
  assert (handled_adv c f (c2, f)) as H2.
  { exists []. rewrite app_nil_r. split; [done|]. constructor; cbn; [lia|constructor|by intros i ?%elem_of_nil|].
    intros i [->|[_ ?]]%lookup_insert_is_Some; [right; lia|by left]. }
  destruct (has_flag _ FLAG_END_HEADERS).
  - intros E. apply end_of_headers_adv in E; [|cbn; lia]. by eapply adv_from.
  - intros [= <-]. unfold emit_then_ok. pose proof (try_emit_adv (set_active_header_stream (Some sid) c2) f sid ltac:(cbn; lia)) as He.
    destruct (try_emit _ f sid). eapply adv_from; [exact H2|]. eapply adv_from; [|exact He]. by apply adv_still.
Qed.

Lemma insert_open (m : gmap Z Stream) sid st st' :
  m !! sid = Some st → ∀ i, is_Some (<[sid := st']> m !! i) → is_Some (m !! i).
Proof. intros Es i [<-|[_ ?]]%lookup_insert_is_Some; [by rewrite Es|done]. Qed.

Lemma insert_stream_adv c f sid st st' :
  streams c !! sid = Some st → handled_adv c f (set_streams (<[sid := st']> (streams c)) c, f).
Proof. intros Es. apply adv_still; [done|done|]. by eapply insert_open. Qed.

Lemma handle_continuation_adv c f fr h :
  conn_wf c → handle_continuation c f fr = Ret h → handled_adv c f h.1.
Proof.
  intros Hc. unfold handle_continuation. destruct (negb _); [intros [= <-]; apply goaway_code_adv|].
  destruct (streams c !! _) as [st|] eqn:Es; [|intros [= <-]; by apply adv_still].
  pose proof (map_Forall_lookup_1 _ _ _ _ (wf_streams _ Hc) Es) as (Hsid & _).
  destruct (_ <? _); [intros [= <-]; eapply adv_from; [by eapply insert_stream_adv|apply goaway_code_adv]|].
  destruct (_ <? _); [intros [= <-]; eapply adv_from; [by eapply insert_stream_adv|apply goaway_code_adv]|].
  cbn [streams set_streams]. rewrite insert_insert_eq. destruct (has_flag _ _).
  - intros E. apply end_of_headers_adv in E; [|cbn; lia]. eapply adv_from; [|exact E].
    apply adv_still; [done|done|]. by eapply insert_open.
  - intros [= <-]. apply adv_still; [done|done|]. by eapply insert_open.
Qed.

Lemma handle_data_adv c f fr : conn_wf c → handled_adv c f (handle_data c f fr).1.
Proof.
  intros Hc. unfold handle_data. destruct (_ =? 0); [apply goaway_code_adv|].
  destruct (streams c !! _) as [st|] eqn:Es; [|apply goaway_code_adv]. destruct (data_payload fr); [|by apply adv_still].
  pose proof (map_Forall_lookup_1 _ _ _ _ (wf_streams _ Hc) Es) as (Hsid & _). destruct (_ <? 0); [apply goaway_code_adv|].
  destruct (_ <? 0); [eapply adv_from; [|apply goaway_code_adv]; by apply adv_still|].
  unfold emit_then_ok. set (c2 := set_streams _ _).
  pose proof (try_emit_adv c2 f (fh_stream_id (f_header fr)) ltac:(cbn; lia)) as He. destruct (try_emit _ f _).
  eapply adv_from; [|exact He]. apply adv_still; [done|done|]. by eapply insert_open.
Qed.

Lemma handle_frame_adv c f fr h : conn_wf c → handle_frame c f fr = Ret h → handled_adv c f h.1.
Proof.
  intros Hc. unfold handle_frame. destruct (fh_type (f_header fr));
    first [by apply handle_headers_adv | by apply handle_continuation_adv | intros [= <-]]; try by apply adv_still.
  - by apply handle_data_adv.
  - apply handle_rst_stream_adv.
  - apply handle_settings_adv.
  - unfold handle_ping. destruct (_ || _); [apply goaway_code_adv|]. destruct (_ && _); by apply adv_still.
  - apply handle_window_update_adv.
Qed.

Lemma frame_loop_adv fuel c f h : conn_wf c → frame_loop fuel c f = Ret h → handled_adv c f h.1.
Proof.
  revert c f. induction fuel as [|fuel IH]; intros c f Hc; cbn [frame_loop]; [intros [= <-]; by apply adv_still|].
  destruct (take_frame (rbuf c)) as [[fr used]|] eqn:Et; [|intros [= <-]; by apply adv_still].
  pose proof (take_frame_bytes _ _ _ (wf_rbuf _ Hc) Et) as Hfr.
  assert (conn_wf (set_rbuf (drop used (rbuf c)) c)) as H1 by (apply set_rbuf_wf; [done|apply Forall_drop, Hc]).
  assert (handled_adv c f (set_rbuf (drop used (rbuf c)) c, f)) as A1 by by apply adv_still.
  destruct (_ <? _); [intros [= <-]; eapply adv_from; [exact A1|apply goaway_code_adv]|].
  destruct (handle_frame _ f fr) as [[[c' f'] r]|] eqn:Eh; [|done]. cbn [outcome_bind].
  pose proof (handle_frame_wf _ _ _ _ H1 Hfr Eh) as Hc'. apply handle_frame_adv in Eh; [|done]. cbn in *.
  destruct r; [|intros [= <-]; by eapply adv_from]. intros E. apply IH in E; [|done]. eapply adv_from; [exact A1|]. by eapply adv_from.
Qed.

Lemma feed_frames_adv c f c' r :
  conn_wf c → feed_frames c f = Ret (c', r) →
  ∃ ids, advance c c' ids ∧ ∀ f', r = Ok f' → ∃ rs, requests f' = requests f ++ rs ∧ ids = rq_stream_id <$> rs.
Proof.
  intros Hc. unfold feed_frames. destruct (frame_loop _ c f) as [[[c1 f1] o]|] eqn:E; [|done]. cbn [outcome_bind].
  apply frame_loop_adv in E as (rs & Er & Ha); [|done]. cbn in Er, Ha.
  destruct o as [u|e]; [|intros [= <- <-]; eexists; by split].
  assert (handled_adv c1 f1 (check_partial c1 f1)) as (rs2 & Er2 & Ha2).
  { unfold check_partial. destruct (decode_frame_header _); [|by apply adv_still]. destruct (_ <? _); [|by apply adv_still].
    pose proof (goaway_code_adv c1 f1 ERR_FRAME_SIZE_ERROR) as Hg. destruct (goaway_code c1 f1 _) as [[c2 f2] ?]. cbn in Hg.
    eapply adv_from; [exact Hg|]. by apply adv_still. }
  destruct (check_partial c1 f1) as [c2 f2]. cbn in *. intros [= <- <-]. exists (rq_stream_id <$> rs ++ rs2). split.
  - rewrite fmap_app. by eapply advance_trans.
  - intros f' [= <-]. exists (rs ++ rs2). by rewrite Er2, Er, (assoc_L (++)).
Qed.

Lemma feed_adv c inbound c' r :
  conn_wf c → bytes_ok inbound → feed c inbound = Ret (c', r) →
  ∃ ids, advance c c' ids ∧ ∀ f', r = Ok f' → ids = rq_stream_id <$> requests f'.
Proof.
  intros Hc Hin. unfold feed. set (c1 := set_rbuf _ c).
  assert (conn_wf c1) as H1 by (apply set_rbuf_wf; [done|apply Forall_app; split; [apply Hc|done]]).
  assert (∀ c2 f, conn_wf c2 → streams c2 = streams c → last_stream_id c2 = last_stream_id c → requests f = [] →
    feed_frames c2 f = Ret (c', r) → ∃ ids, advance c c' ids ∧ ∀ f', r = Ok f' → ids = rq_stream_id <$> requests f') as Hgo.
  { intros c2 f Hc2 Es El Ef E. apply feed_frames_adv in E as (ids & Ha & Hr); [|done]. exists ids. split.
    - eapply (advance_trans c c2 c' []); [|done]. apply advance_still; [done|]. intros i. by rewrite Es.
    - intros f' E'. destruct (Hr f' E') as (rs & E1 & ->). by rewrite E1, Ef. }
  destruct (preface_seen c1); [by apply Hgo|].
  destruct (_ <? _). { intros [= <- <-]. exists []. split; [by apply advance_still|]. by intros f' [= <-]. }
  destruct (negb _). { intros [= <- <-]. exists []. split; [by apply advance_still|done]. }
  apply Hgo; [|done..]. assert (conn_wf (set_rbuf (drop (length CONNECTION_PREFACE) (rbuf c1)) c1)) as H2.
  { apply set_rbuf_wf; [done|]. apply Forall_drop, H1. }
  by wf_step H2.
Qed.
End emission.

(** ** Sending a body *)

(** The DATA frames that carry [chunks], the last one marked when [final]. *)
Fixpoint data_frames (sid : Z) (final : bool) (chunks : list (list Z)) : list Z :=
  match chunks with
  | [] => []
  | [ch] => encode_data sid final ch
  | ch :: rest => encode_data sid false ch ++ data_frames sid final rest
  end.

(** What sending on stream [sid] with [ss] waiting does: [chunks] go out, within both
    windows and the peer's frame size, what is left waits, and something is left only if
    a window is used up. *)
Record flushed (c c' : Http2Connection) (sid : Z) (ss : SendState) (chunks : list (list Z)) (rest : list Z) : Prop := {
  fl_body : pending ss = concat chunks ++ rest;
  fl_chunks : Forall (λ ch, 0 < len ch ≤ peer_max_frame_size c) chunks;
  fl_windows : chunks ≠ [] → len (concat chunks) ≤ conn_send_window c ∧ len (concat chunks) ≤ window ss;
  fl_conn : conn_send_window c' = conn_send_window c - len (concat chunks);
  fl_send : send c' !! sid = (if decide (rest = []) then None else Some {| pending := rest; window := window ss - len (concat chunks) |});
  fl_others sid' : sid' ≠ sid → send c' !! sid' = send c !! sid';
  fl_stops : rest ≠ [] → conn_send_window c' ≤ 0 ∨ window ss - len (concat chunks) ≤ 0;
}.

Lemma data_frames_cons sid final ch chunks :
  chunks ≠ [] → data_frames sid final (ch :: chunks) = encode_data sid false ch ++ data_frames sid final chunks.
Proof. by destruct chunks. Qed.

Lemma flush_loop_spec fuel c sid ss out c' out' :
  conn_wf c → send c !! sid = Some ss → (length (pending ss) < fuel)%nat → flush_loop fuel c sid out = (c', out') →
  ∃ chunks rest, flushed c c' sid ss chunks rest ∧ out' = out ++ data_frames sid (bool_decide (rest = [])) chunks.
Proof.
  revert c ss out. induction fuel as [|fuel IH]; intros c ss out Hc Es Hfuel E; [lia|].
  cbn [flush_loop] in E. rewrite Es in E. case_bool_decide as Hp.
  { injection E as <- <-. exists [], []. split; [|by rewrite app_nil_r]. constructor; cbn [concat app send set_send conn_send_window]; rewrite ?len_nil, ?Z.sub_0_r; try done; [apply lookup_delete_eq|].
    intros sid' Hn. by rewrite lookup_delete_ne. }
  pose proof (wf_frame_size _ Hc) as Hmf. set (allowed := Z.min _ (len (pending ss))) in E.
  destruct (Z.leb_spec allowed 0) as [Ha|Ha].
  { injection E as <- <-. exists [], (pending ss). split; [|by rewrite app_nil_r]. constructor; cbn [concat app]; rewrite ?len_nil, ?Z.sub_0_r; try done; [rewrite decide_False by done; by destruct ss|].
    intros _. assert (0 < len (pending ss)) by (destruct (pending ss); [done|rewrite len_cons; pose proof (len_nonneg l); lia]). lia. }
  set (chunk := take (Z.to_nat allowed) (pending ss)) in *. set (left := drop (Z.to_nat allowed) (pending ss)) in *.
  assert (len chunk = allowed) as Hlen by (subst chunk allowed; unfold len in *; rewrite length_take; lia).
  assert (pending ss = chunk ++ left) as Hsplit by (symmetry; apply take_drop).
  assert (allowed ≤ conn_send_window c ∧ allowed ≤ window ss ∧ allowed ≤ peer_max_frame_size c) as (Hw1 & Hw2 & Hw3) by lia.
  clearbody chunk left allowed. cbn [send set_conn_send_window set_send] in E.
  case_bool_decide as Hl.
  - injection E as <- <-. subst left. exists [chunk], []. split; [|done].
    constructor; cbn [concat]; rewrite ?app_nil_r, ?Hlen in *; try done; [repeat constructor; lia| |].
    + cbn. apply lookup_delete_eq.
    + intros sid' Hn. cbn. by rewrite delete_insert_eq, lookup_delete_ne.
  - eapply IH in E as (chunks & rest & Hf & ->); [| |cbn; apply lookup_insert_eq|cbn; rewrite Hsplit, length_app in Hfuel; unfold len in *; lia].
    2:{ refine (send_wf_insert (set_conn_send_window (conn_send_window c - allowed) c) sid _ _ _); [apply conn_send_wf; [done|]|].
        - pose proof (wf_conn_send _ Hc). lia.
        - pose proof (map_Forall_lookup_1 _ _ _ _ (wf_send _ Hc) Es) as [Hb Hwin]. pose proof (wf_initial _ Hc).
          split; cbn; [rewrite Hsplit in Hb; by apply Forall_app in Hb as [_ ?]|unfold window_max in *; lia]. }
    destruct Hf as [Hf1 Hf2 Hf3 Hf4 Hf5 Hf6 Hf7]. cbn in Hf1, Hf2, Hf3, Hf4, Hf5, Hf6, Hf7. exists (chunk :: chunks), rest. split.
    + pose proof (len_nonneg (concat chunks)).
      constructor; cbn [concat]; rewrite ?len_app, ?Hlen.
      * by rewrite Hsplit, Hf1, (assoc_L (++)).
      * constructor; [lia|done].
      * intros _. destruct (decide (chunks = [])) as [->|Hne]; [cbn [concat]; rewrite len_nil; lia|]. destruct (Hf3 Hne). lia.
      * lia.
      * rewrite Hf5. destruct (decide _); [done|]. do 2 f_equal. lia.
      * intros sid' Hn. by rewrite Hf6, lookup_insert_ne.
      * intros Hr. destruct (Hf7 Hr); [by left|right; lia].
    + destruct (decide (chunks = [])) as [->|Hne]; [|by rewrite data_frames_cons, <-(assoc_L (++))].
      cbn. rewrite app_nil_r. cbn in Hf1. subst left. by rewrite bool_decide_false.
Qed.

(** ** Runs of a connection *)

Section runs.
Context `{Profile, KeyOrder}.

(** What the host does with a connection, and the requests it is given. *)
Inductive conn_step (c : Http2Connection) : Http2Connection → list Http2Request → Prop :=
| step_feed inbound c' f : bytes_ok inbound → feed c inbound = Ret (c', Ok f) → conn_step c c' (requests f)
| step_feed_err inbound c' e : bytes_ok inbound → feed c inbound = Ret (c', Err e) → conn_step c c' []
| step_respond sid status hs body : bytes_ok body → conn_step c (respond c sid status hs body).1 [].

Inductive conn_run : Http2Connection → list Http2Request → Prop :=
| run_new : conn_run http2_new []
| run_step c rs c' rs' : conn_run c rs → conn_step c c' rs' → conn_run c' (rs ++ rs').

Lemma step_wf c c' rs : conn_wf c → conn_step c c' rs → conn_wf c'.
Proof. intros Hc [? ? ? Hb E|? ? ? Hb E|? ? ? ? Hb]; [by eapply feed_wf..|by apply respond_wf]. Qed.

Lemma run_wf c rs : conn_run c rs → conn_wf c.
Proof. induction 1; [apply http2_new_wf|by eapply step_wf]. Qed.

Lemma respond_adv c sid status hs body : advance c (respond c sid status hs body).1 [].
Proof.
  unfold respond. assert (∀ i, is_Some (delete sid (streams c) !! i) → is_Some (streams c !! i)) as Hd by by intros i [_ ?]%lookup_delete_is_Some.
  case_bool_decide; [by apply advance_still|].
  set (c1 := set_send _ _). destruct (flush_loop_streams (S (length (from_option pending [] (send c1 !! sid)))) c1 sid
    (encode_headers sid (encode_header_block ((":status"%string, u64_to_string status) :: hs)) false true)) as [Es El].
  apply advance_still; unfold flush_stream; [by rewrite El|by rewrite Es].
Qed.

Lemma step_adv c c' rs :
  conn_wf c → conn_step c c' rs → ∃ ids, advance c c' ids ∧ sublist (rq_stream_id <$> rs) ids.
Proof.
  intros Hc [? ? f Hb E|? ? ? Hb E|? ? ? ? Hb].
  - apply feed_adv in E as (ids & Ha & Hr); [|done..]. exists ids. split; [done|]. by rewrite (Hr f).
  - apply feed_adv in E as (ids & Ha & Hr); [|done..]. exists ids. split; [done|apply sublist_nil_l].
  - exists []. split; [apply respond_adv|done].
Qed.

Lemma run_adv c rs : conn_run c rs → ∃ ids, advance http2_new c ids ∧ sublist (rq_stream_id <$> rs) ids.
Proof.
  induction 1 as [|c rs c' rs' Hr (ids & Ha & Hs) Hstep]; [exists []; split; [apply advance_refl|done]|].
  apply step_adv in Hstep as (ids' & Ha' & Hs'); [|by eapply run_wf]. exists (ids ++ ids').
  split; [by eapply advance_trans|]. rewrite fmap_app. by apply sublist_app.
Qed.
End runs.
