(* ===== verification/Http2Chunking.v ===== *)
(** * Http2Chunking: how the bytes arrive does not matter

    A connection that is fed the same bytes in other pieces ends in the same state and
    gives the same requests and the same bytes to send, up to the first frame above the
    limit; and what waits in its buffer is bounded.  No handler reads the input buffer or
    what was sent before ([handle_frame_lift]), and the reader of frames does not depend on
    what follows a frame ([Prefixed]), so a feed is described frame by frame
    ([feed_frames_step], [frames_ind]). *)

From S2P Require Import Prelude Text Bytes Huffman Hpack HpackTheory Http2Frames Http2Conn Http2ConnTheory.

Local Open Scope Z_scope.
Local Open Scope cruft_scope.

#[local] Arguments base.size {_ _} _ : simpl never.

Definition feed_app (F f : Http2Feed) : Http2Feed :=
  {| outbound := outbound F ++ outbound f; requests := requests F ++ requests f |}.

(** The same result over another input buffer and after other output. *)
Definition lift (b : list Z) (F : Http2Feed) (h : Http2Connection * Http2Feed) : Http2Connection * Http2Feed :=
  (set_rbuf b h.1, feed_app F h.2).
Definition lift_handled (b : list Z) (F : Http2Feed) (h : Http2Connection * Http2Feed * result unit string)
    : Http2Connection * Http2Feed * result unit string := (lift b F h.1, h.2).
Definition outcome_map {A B} (g : A → B) (m : outcome A) : outcome B :=
  match m with Ret a => Ret (g a) | Panic => Panic end.

Lemma feed_app_out F f bs : out_bytes bs (feed_app F f) = feed_app F (out_bytes bs f).
Proof. unfold out_bytes, feed_app. cbn. by rewrite <-(assoc_L (++)). Qed.

Lemma feed_app_request F f r : out_request r (feed_app F f) = feed_app F (out_request r f).
Proof. unfold out_request, feed_app. cbn. by rewrite <-(assoc_L (++)). Qed.

Lemma goaway_code_lift b F c f code :
  goaway_code (set_rbuf b c) (feed_app F f) code = lift_handled b F (goaway_code c f code).
Proof. unfold goaway_code. cbn. destruct (goaway_sent c); [done|]. by rewrite feed_app_out. Qed.

Lemma flush_loop_lift b fuel c sid O out :
  flush_loop fuel (set_rbuf b c) sid (O ++ out) =
  (set_rbuf b (flush_loop fuel c sid out).1, O ++ (flush_loop fuel c sid out).2).
Proof.
  revert c out. induction fuel as [|fuel IH]; intros c out; cbn [flush_loop]; [done|]. cbn [send set_rbuf].
  destruct (send c !! sid) as [ss|]; [|done]. case_bool_decide; [done|]. cbn [conn_send_window peer_max_frame_size set_rbuf].
  destruct (_ <=? 0); [done|]. case_bool_decide; [cbn; by rewrite <-(assoc_L (++))|]. rewrite <-(assoc_L (++)).
  apply (IH (set_send _ (set_conn_send_window _ c))).
Qed.

Lemma flush_stream_lift b c sid O out :
  flush_stream (set_rbuf b c) sid (O ++ out) = (set_rbuf b (flush_stream c sid out).1, O ++ (flush_stream c sid out).2).
Proof. apply flush_loop_lift. Qed.

Section lift.
Context `{Profile, KeyOrder}.

Lemma flush_feed_lift b F c f : flush_feed (set_rbuf b c) (feed_app F f) = lift b F (flush_feed c f).
Proof.
  unfold flush_feed, flush_all. cbn [send set_rbuf]. generalize (hash_keys (send c)). intros keys.
  assert (∀ keys c out, foldl (λ '(c, out) sid, flush_stream c sid out) (set_rbuf b c, outbound F ++ out) keys =
    (λ '(c, o), (set_rbuf b c, outbound F ++ o)) (foldl (λ '(c, out) sid, flush_stream c sid out) (c, out) keys)) as L.
  { clear. induction keys as [|k keys IH]; intros c out; [done|]. cbn [foldl]. rewrite flush_stream_lift.
    destruct (flush_stream c k out) as [c1 o1]. apply IH. }
  change (outbound (feed_app F f)) with (outbound F ++ outbound f). rewrite L.
  destruct (foldl _ (c, outbound f) keys). done.
Qed.

Lemma try_emit_lift b F c f sid : try_emit (set_rbuf b c) (feed_app F f) sid = lift b F (try_emit c f sid).
Proof.
  unfold try_emit. cbn [streams set_rbuf]. destruct (streams c !! sid) as [st|]; [|done]. destruct (_ && _); [|done].
  by rewrite feed_app_request.
Qed.

Lemma emit_then_ok_lift b F c f sid :
  emit_then_ok (feed_app F f) sid (set_rbuf b c) = lift_handled b F (emit_then_ok f sid c).
Proof. unfold emit_then_ok. rewrite try_emit_lift. by destruct (try_emit c f sid). Qed.

Lemma apply_settings_lift b F c f ss :
  apply_settings (set_rbuf b c) (feed_app F f) ss = (lift b F (apply_settings c f ss).1, (apply_settings c f ss).2).
Proof.
  revert c f. induction ss as [|s ss IH]; intros c f; cbn [apply_settings]; [done|]. unfold goaway. rewrite !goaway_code_lift.
  destruct (_ && _); [done|]. destruct (_ =? _); [destruct (negb _); [done|apply (IH (set_peer_max_frame_size _ c))]|].
  destruct (_ =? _); [|apply IH]. destruct (_ <? _); [done|].
  exact (IH (set_send ((λ ss, {| pending := pending ss; window := window ss + (s_value s - peer_initial_window c) |}) <$> send c)
    (set_peer_initial_window (s_value s) c)) f).
Qed.

Lemma handle_settings_lift b F c f fr :
  handle_settings (set_rbuf b c) (feed_app F f) fr = lift_handled b F (handle_settings c f fr).
Proof.
  unfold handle_settings, goaway. rewrite !goaway_code_lift. destruct (negb _); [done|]. destruct (_ && _); [done|].
  destruct (has_flag _ _); [done|]. destruct (decode_settings_payload_checked _) as [ss|]; [|done].
  rewrite apply_settings_lift. destruct (apply_settings c f ss) as [[c1 f1] go_on]. cbn [fst snd lift]. destruct go_on; [|done].
  rewrite feed_app_out, flush_feed_lift. by destruct (flush_feed c1 _).
Qed.

Lemma handle_ping_lift b F c f fr :
  handle_ping (set_rbuf b c) (feed_app F f) fr = lift_handled b F (handle_ping c f fr).
Proof.
  unfold handle_ping. rewrite goaway_code_lift, feed_app_out. destruct (_ || _); [done|]. by destruct (_ && _).
Qed.

Lemma handle_window_update_lift b F c f fr :
  handle_window_update (set_rbuf b c) (feed_app F f) fr = lift_handled b F (handle_window_update c f fr).
Proof.
  unfold handle_window_update, goaway. rewrite !goaway_code_lift.
  assert (∀ c', (let '(c, f) := flush_feed (set_rbuf b c') (feed_app F f) in (c, f, Ok tt)) =
    lift_handled b F (let '(c, f) := flush_feed c' f in (c, f, Ok tt))) as Hfl.
  { intros c'. rewrite flush_feed_lift. by destruct (flush_feed c' f). }
  destruct (window_update_increment _) as [inc|]; [|done]. destruct (inc =? 0); [done|]. cbn [conn_send_window send set_rbuf].
  destruct (_ =? 0); [destruct (_ <? _); [done|apply (Hfl (set_conn_send_window _ c))]|].
  destruct (send c !! _); [|apply Hfl]. destruct (_ <? _); [done|apply (Hfl (set_send _ c))].
Qed.

Lemma handle_rst_stream_lift b F c f fr :
  handle_rst_stream (set_rbuf b c) (feed_app F f) fr = lift_handled b F (handle_rst_stream c f fr).
Proof.
  unfold handle_rst_stream. destruct (_ || _); [apply goaway_code_lift|]. cbn [rst_stream_count set_rbuf set_rst_stream_count].
  destruct (_ <? _); [apply (goaway_code_lift b F (set_rst_stream_count _ c))|].
  cbn [active_header_stream set_streams set_rst_stream_count set_rbuf]. by case_bool_decide.
Qed.

Lemma finish_headers_lift b c sid :
  finish_headers (set_rbuf b c) sid = outcome_map (λ '(c, r), (set_rbuf b c, r)) (finish_headers c sid).
Proof.
  unfold finish_headers. cbn [streams set_rbuf]. destruct (streams c !! sid) as [st|]; [|done].
  cbn [inbound_hpack inbound_header_list_size inbound_header_table_size set_streams set_rbuf].
  destruct (decode_header_block_limited _ _ _) as [[t d]|]; [|done]. cbn [outcome_bind]. destruct d as [hs|e]; [|done].
  cbn [streams set_inbound_hpack set_streams set_rbuf]. by rewrite lookup_insert_eq.
Qed.

Lemma end_of_headers_lift b F c f sid :
  end_of_headers (set_rbuf b c) (feed_app F f) sid (emit_then_ok (feed_app F f) sid) =
  outcome_map (lift_handled b F) (end_of_headers c f sid (emit_then_ok f sid)).
Proof.
  unfold end_of_headers. rewrite finish_headers_lift. destruct (finish_headers c sid) as [[c1 r]|]; [|done].
  cbn [outcome_map outcome_bind]. destruct r; [|done]. cbn [outcome_map]. f_equal.
  apply (emit_then_ok_lift b F (set_active_header_stream None c1)).
Qed.

Lemma handle_headers_lift b F c f fr :
  handle_headers (set_rbuf b c) (feed_app F f) fr = outcome_map (lift_handled b F) (handle_headers c f fr).
Proof.
  unfold handle_headers, goaway. cbn [last_stream_id active_header_stream streams stream_lifetime_count set_rbuf set_stream_lifetime_count set_last_stream_id].
  rewrite !goaway_code_lift. destruct (_ =? 0); [done|]. destruct (_ || _); [done|]. case_bool_decide; [done|].
  destruct (_ <=? _); [done|].
  destruct (_ <? _); [cbn [outcome_map]; f_equal; apply (goaway_code_lift b F (set_stream_lifetime_count _ c))|].
  destruct (header_block_fragment fr) as [frag|]; [|done].
  destruct (_ <? _); [cbn [outcome_map]; f_equal; apply (goaway_code_lift b F (set_stream_lifetime_count _ c))|].
  set (st := (if has_flag _ FLAG_END_STREAM then _ else _)). destruct (has_flag _ FLAG_END_HEADERS).
  - apply (end_of_headers_lift b F (set_streams _ (set_last_stream_id _ (set_stream_lifetime_count _ c)))).
  - cbn [outcome_map]. f_equal.
    apply (emit_then_ok_lift b F (set_active_header_stream _ (set_streams _ (set_last_stream_id _ (set_stream_lifetime_count _ c))))).
Qed.

Lemma handle_continuation_lift b F c f fr :
  handle_continuation (set_rbuf b c) (feed_app F f) fr = outcome_map (lift_handled b F) (handle_continuation c f fr).
Proof.
  unfold handle_continuation, goaway. cbn [active_header_stream streams set_rbuf]. rewrite goaway_code_lift. destruct (negb _); [done|].
  destruct (streams c !! _) as [st|]; [|done]. set (c1 := set_streams (<[_ := _]> (streams c)) c).
  change (set_streams (<[_ := _]> (streams c)) (set_rbuf b c)) with (set_rbuf b c1). rewrite !goaway_code_lift.
  destruct (_ <? _); [done|]. destruct (_ <? _); [done|]. destruct (has_flag _ _); [|done].
  apply (end_of_headers_lift b F (set_streams _ c1)).
Qed.

Lemma handle_data_lift b F c f fr :
  handle_data (set_rbuf b c) (feed_app F f) fr = lift_handled b F (handle_data c f fr).
Proof.
  unfold handle_data, goaway. cbn [streams conn_recv_window set_rbuf set_conn_recv_window]. rewrite !goaway_code_lift.
  destruct (_ =? 0); [done|]. destruct (streams c !! _) as [st|]; [|done]. destruct (data_payload fr) as [body|]; [|done].
  destruct (_ <? 0); [done|]. destruct (_ <? 0); [apply (goaway_code_lift b F (set_conn_recv_window _ c))|].
  apply (emit_then_ok_lift b F (set_streams _ (set_conn_recv_window _ c))).
Qed.

(** Handling a frame neither reads nor changes the input buffer or earlier output. *)
Lemma handle_frame_lift b F c f fr :
  handle_frame (set_rbuf b c) (feed_app F f) fr = outcome_map (lift_handled b F) (handle_frame c f fr).
Proof.
  unfold handle_frame. destruct (fh_type (f_header fr)); try done.
  - cbn [outcome_map]. f_equal. apply handle_data_lift.
  - apply handle_headers_lift.
  - cbn [outcome_map]. f_equal. apply handle_rst_stream_lift.
  - cbn [outcome_map]. f_equal. apply handle_settings_lift.
  - cbn [outcome_map]. f_equal. apply handle_ping_lift.
  - cbn [outcome_map]. f_equal. apply handle_window_update_lift.
  - apply handle_continuation_lift.
Qed.
End lift.

(** ** Frames one by one *)

Section frames.
Context `{Profile, KeyOrder}.

Lemma feed_app_nil f : feed_app feed_default f = f.
Proof. by destruct f. Qed.
Lemma feed_app_default f : feed_app f feed_default = f.
Proof. unfold feed_app. cbn. rewrite !app_nil_r. by destruct f. Qed.
Lemma set_rbuf_same c : set_rbuf (rbuf c) c = c.
Proof. by destruct c. Qed.

(** Handling a frame does not change the buffer. *)
Lemma handle_frame_rbuf c f fr h : handle_frame c f fr = Ret h → rbuf h.1.1 = rbuf c.
Proof.
  intros E. pose proof (handle_frame_lift (rbuf c) feed_default c f fr) as L.
  rewrite set_rbuf_same, feed_app_nil, E in L. injection L as L. by rewrite L.
Qed.

(** The two halves of lifting: another buffer, and earlier output. *)
Definition rebuf (b : list Z) (h : Http2Connection * Http2Feed * result unit string) := (set_rbuf b h.1.1, h.1.2, h.2).
Definition after (F : Http2Feed) (h : Http2Connection * Http2Feed * result unit string) := (h.1.1, feed_app F h.1.2, h.2).

Lemma handle_frame_rebuf b c f fr : handle_frame (set_rbuf b c) f fr = outcome_map (rebuf b) (handle_frame c f fr).
Proof.
  pose proof (handle_frame_lift b feed_default c f fr) as L. rewrite feed_app_nil in L. rewrite L.
  destruct (handle_frame c f fr) as [[[c1 f1] r]|]; [|done]. cbn. unfold lift_handled, lift, rebuf. cbn. by rewrite feed_app_nil.
Qed.

Lemma handle_frame_after F c f fr : handle_frame c (feed_app F f) fr = outcome_map (after F) (handle_frame c f fr).
Proof.
  pose proof (handle_frame_lift (rbuf c) F c f fr) as L. rewrite set_rbuf_same in L. rewrite L.
  destruct (handle_frame c f fr) as [[[c1 f1] r]|] eqn:E; [|done]. apply handle_frame_rbuf in E. cbn in *.
  unfold lift_handled, lift, after. cbn. by rewrite <-E, set_rbuf_same.
Qed.

(** *** The preface is not forgotten *)

Lemma flush_loop_preface fuel c sid out : preface_seen (flush_loop fuel c sid out).1 = preface_seen c.
Proof.
  revert c out. induction fuel as [|fuel IH]; intros c out; cbn [flush_loop]; [done|].
  destruct (send c !! sid); [|done]. case_bool_decide; [done|]. destruct (_ <=? 0); [done|].
  case_bool_decide; [done|]. apply (IH (set_send _ (set_conn_send_window _ c))).
Qed.

Lemma flush_feed_preface c f : preface_seen (flush_feed c f).1 = preface_seen c.
Proof.
  unfold flush_feed, flush_all. generalize (hash_keys (send c)) (outbound f). intros keys. revert c.
  induction keys as [|k keys IH]; intros c out; [done|]. cbn [foldl].
  pose proof (flush_loop_preface (S (length (from_option pending [] (send c !! k)))) c k out) as Hp.
  unfold flush_stream at 2. destruct (flush_loop _ c k out) as [c1 o1]. rewrite IH. exact Hp.
Qed.

Lemma goaway_code_preface c f code : preface_seen (goaway_code c f code).1.1 = preface_seen c.
Proof. unfold goaway_code. by destruct (goaway_sent c). Qed.

Lemma apply_settings_preface c f ss : preface_seen (apply_settings c f ss).1.1 = preface_seen c.
Proof.
  revert c f. induction ss as [|s ss IH]; intros c f; cbn [apply_settings]; [done|].
  destruct (_ && _); [apply goaway_code_preface|].
  destruct (_ =? _); [destruct (negb _); [apply goaway_code_preface|apply (IH (set_peer_max_frame_size _ c))]|].
  destruct (_ =? _); [|apply IH]. destruct (_ <? _); [apply goaway_code_preface|]. apply (IH (set_send _ (set_peer_initial_window _ c))).
Qed.

Lemma emit_then_ok_preface c f sid : preface_seen (emit_then_ok f sid c).1.1 = preface_seen c.
Proof. unfold emit_then_ok, try_emit. destruct (streams c !! sid); [|done]. by destruct (_ && _). Qed.

Lemma end_of_headers_preface c f sid h :
  end_of_headers c f sid (emit_then_ok f sid) = Ret h → preface_seen h.1.1 = preface_seen c.
Proof.
  unfold end_of_headers, finish_headers. destruct (streams c !! sid) as [st|]; [|by intros [= <-]].
  destruct (decode_header_block_limited _ _ _) as [[t d]|]; [|done]. cbn [outcome_bind]. destruct d; [|by intros [= <-]].
  cbn [streams set_inbound_hpack set_streams]. rewrite lookup_insert_eq. intros [= <-]. by rewrite emit_then_ok_preface.
Qed.

Lemma handle_frame_preface c f fr h : handle_frame c f fr = Ret h → preface_seen h.1.1 = preface_seen c.
Proof.
  unfold handle_frame. destruct (fh_type (f_header fr)); try by intros [= <-].
  - intros [= <-]. unfold handle_data, goaway. repeat case_match; rewrite ?goaway_code_preface, ?emit_then_ok_preface; done.
  - unfold handle_headers, goaway. repeat case_match;
      first [intros [= <-]; rewrite ?goaway_code_preface, ?emit_then_ok_preface; done | intros E; by apply end_of_headers_preface in E].
  - intros [= <-]. unfold handle_rst_stream. destruct (_ || _); [apply goaway_code_preface|]. destruct (_ <? _); [by rewrite goaway_code_preface|].
    cbn. by case_bool_decide.
  - intros [= <-]. unfold handle_settings, goaway. destruct (negb _); [apply goaway_code_preface|]. destruct (_ && _); [apply goaway_code_preface|].
    destruct (has_flag _ _); [done|]. destruct (decode_settings_payload_checked _) as [ss|]; [|apply goaway_code_preface].
    pose proof (apply_settings_preface c f ss) as Hp. destruct (apply_settings c f ss) as [[c1 f1] []]; [|done].
    pose proof (flush_feed_preface c1 (out_bytes encode_settings_ack f1)) as Hf. destruct (flush_feed c1 _). cbn in *. congruence.
  - intros [= <-]. unfold handle_ping. destruct (_ || _); [apply goaway_code_preface|]. by destruct (_ && _).
  - intros [= <-]. unfold handle_window_update, goaway. destruct (window_update_increment _); [|apply goaway_code_preface].
    destruct (_ =? 0); [apply goaway_code_preface|].
    assert (∀ c', preface_seen c' = preface_seen c → preface_seen ((let '(c, f) := flush_feed c' f in (c, f, @Ok unit string tt))).1.1 = preface_seen c) as Hfl.
    { intros c' E. pose proof (flush_feed_preface c' f). destruct (flush_feed c' f). cbn in *. congruence. }
    destruct (_ =? 0); [destruct (_ <? _); [apply goaway_code_preface|by apply Hfl]|].
    destruct (send c !! _); [|by apply Hfl]. destruct (_ <? _); [apply goaway_code_preface|by apply Hfl].
  - unfold handle_continuation, goaway. repeat case_match;
      first [intros [= <-]; rewrite ?goaway_code_preface; done | intros E; by apply end_of_headers_preface in E].
Qed.

End frames.

(** ** The frames of a buffer *)

Definition large (h : FrameHeader) : bool := DEFAULT_MAX_FRAME_SIZE <? fh_length h.

(** The header of a frame above the limit has arrived. *)
Definition oversized (buf : list Z) : bool :=
  let '(frs, rest) := read_stream take_frame buf in
  existsb (λ fr, large (f_header fr)) frs || match decode_frame_header rest with Some h => large h | None => false end.

Lemma oversized_step buf fr n :
  bytes_ok buf → take_frame buf = Some (fr, n) → oversized buf = large (f_header fr) || oversized (drop n buf).
Proof.
  intros Hb E. unfold oversized. rewrite (read_stream_step (λ f, frame_ok f ∧ bytes_ok (f_payload f)) write_frame take_frame _ _ _ Hb E).
  destruct (read_stream take_frame (drop n buf)). cbn. by rewrite orb_assoc.
Qed.

Lemma oversized_stop buf :
  take_frame buf = None → oversized buf = match decode_frame_header buf with Some h => large h | None => false end.
Proof. intros E. unfold oversized. by rewrite (read_stream_stop take_frame _ E). Qed.

(** What a feed answers: a panic, an error, or the connection and what it gives. *)
Definition answer (o : outcome (Http2Connection * result Http2Feed string)) : fallible (Http2Connection * Http2Feed) string :=
  match o with
  | Ret (c, Ok f) => Ret (Ok (c, f))
  | Ret (_, Err e) => Ret (Err e)
  | Panic => Panic
  end.

Definition answer_handled (o : outcome (Http2Connection * Http2Feed * result unit string)) : fallible (Http2Connection * Http2Feed) string :=
  match o with
  | Ret (h, Ok _) => Ret (Ok h)
  | Ret (_, Err e) => Ret (Err e)
  | Panic => Panic
  end.

(** An answer but for what waits in the input buffer. *)
Definition but_buffer (x : fallible (Http2Connection * Http2Feed) string) : fallible (Http2Connection * Http2Feed) string :=
  h <-!? x; Ret (Ok (set_rbuf [] h.1, h.2)).

Lemma answer_ok o c f : answer o = Ret (Ok (c, f)) ↔ o = Ret (c, Ok f).
Proof. destruct o as [[? [?|?]]|]; cbn; split; by try intros [= -> ->]. Qed.

Section feeding.
Context `{Profile, KeyOrder}.

Lemma frame_loop_fuel n m c f :
  conn_wf c → (length (rbuf c) ≤ n)%nat → (length (rbuf c) ≤ m)%nat → frame_loop n c f = frame_loop m c f.
Proof.
  revert m c f. induction n as [|n IH]; intros [|m] c f Hc Hn Hm; try done; cbn [frame_loop];
    (destruct (take_frame (rbuf c)) as [[fr used]|] eqn:Et; [|done]); pose proof (wf_rbuf _ Hc) as Hb; pose proof (dec_used _ _ _ Hb Et) as Hu; [lia..|].
  destruct (_ <? _); [done|]. destruct (handle_frame _ f fr) as [[[c1 f1] r]|] eqn:Eh; [|done]. cbn [outcome_bind].
  pose proof (handle_frame_rbuf _ _ _ _ Eh) as Hr. cbn in Hr.
  apply handle_frame_wf in Eh; [|apply set_rbuf_wf; [done|by apply Forall_drop]|by eapply take_frame_bytes].
  destruct r; [|done]. apply IH; [done|rewrite Hr, length_drop; lia..].
Qed.

Lemma feed_frames_stop c f : take_frame (rbuf c) = None → answer (feed_frames c f) = Ret (Ok (check_partial c f)).
Proof.
  intros E. unfold feed_frames. destruct (length (rbuf c)); cbn [frame_loop]; rewrite ?E; cbn; by destruct (check_partial c f).
Qed.

Lemma feed_frames_step c f fr used :
  conn_wf c → take_frame (rbuf c) = Some (fr, used) →
  let c' := set_rbuf (drop used (rbuf c)) c in
  answer (feed_frames c f) =
    if large (f_header fr) then Ret (Ok (check_partial (goaway_code c' f ERR_FRAME_SIZE_ERROR).1.1 (goaway_code c' f ERR_FRAME_SIZE_ERROR).1.2))
    else h <-!? answer_handled (handle_frame c' f fr); answer (feed_frames h.1 h.2).
Proof.
  intros Hc Et c'. unfold feed_frames at 1. pose proof (wf_rbuf _ Hc) as Hb. pose proof (dec_used _ _ _ Hb Et) as Hu.
  destruct (length (rbuf c)) as [|n] eqn:En; [lia|]. cbn [frame_loop]. rewrite Et. fold c'. destruct (wf_limits _ Hc) as (El & _).
  change (inbound_max_frame_size c') with (inbound_max_frame_size c). rewrite El. fold (large (f_header fr)). destruct (large _).
  { cbn [outcome_bind]. destruct (goaway_code c' f _) as [[c1 f1] r] eqn:Eg. cbn [fst snd].
    assert (r = Ok tt) as -> by (unfold goaway_code in Eg; destruct (goaway_sent c'); by injection Eg). by destruct (check_partial c1 f1). }
  destruct (handle_frame c' f fr) as [[[c1 f1] r]|] eqn:Eh; [|done]. cbn [outcome_bind]. destruct r as [[]|e]; [|done]. cbn [answer_handled fallible_bind fst snd].
  unfold feed_frames. pose proof (handle_frame_rbuf _ _ _ _ Eh) as Hr. cbn in Hr.
  apply handle_frame_wf in Eh; [|apply set_rbuf_wf; [done|by apply Forall_drop]|by eapply take_frame_bytes].
  by rewrite (frame_loop_fuel n (length (rbuf c1))) by (done || rewrite Hr, length_drop; lia).
Qed.

(** The induction the frames of a buffer allow. *)
Lemma frames_ind (P : Http2Connection → Prop) :
  (∀ c, conn_wf c → take_frame (rbuf c) = None → P c) →
  (∀ c fr used, conn_wf c → take_frame (rbuf c) = Some (fr, used) → (∀ c1, conn_wf c1 → rbuf c1 = drop used (rbuf c) → P c1) → P c) →
  ∀ c, conn_wf c → P c.
Proof.
  intros Hstop Hstep c. remember (length (rbuf c)) as n eqn:En. revert c En. induction (lt_wf n) as [n _ IH]. intros c -> Hc.
  destruct (take_frame (rbuf c)) as [[fr used]|] eqn:Et; [|by apply Hstop]. apply (Hstep c fr used); [done..|]. intros c1 Hc1 Hr.
  pose proof (dec_used _ _ _ (wf_rbuf _ Hc) Et). apply (IH (length (rbuf c1))); [rewrite Hr, length_drop; lia|done..].
Qed.

(** The state in which the frames after a handled one are read. *)
Lemma handled_next c f fr used c1 f1 :
  conn_wf c → take_frame (rbuf c) = Some (fr, used) →
  answer_handled (handle_frame (set_rbuf (drop used (rbuf c)) c) f fr) = Ret (Ok (c1, f1)) → conn_wf c1 ∧ rbuf c1 = drop used (rbuf c).
Proof.
  intros Hc Et. destruct (handle_frame _ f fr) as [[[c2 f2] r]|] eqn:Eh; [|done]. cbn. destruct r; [|done]. intros [= <- <-].
  pose proof (handle_frame_rbuf _ _ _ _ Eh) as Hr. apply handle_frame_wf in Eh; [by split| |by eapply take_frame_bytes; [apply Hc|]].
  apply set_rbuf_wf; [done|apply Forall_drop, Hc].
Qed.

Lemma check_partial_after F c f : check_partial c (feed_app F f) = ((check_partial c f).1, feed_app F (check_partial c f).2).
Proof.
  unfold check_partial. destruct (decode_frame_header (rbuf c)) as [h|]; [|done]. destruct (_ <? _); [|done].
  pose proof (goaway_code_lift (rbuf c) F c f ERR_FRAME_SIZE_ERROR) as L. rewrite set_rbuf_same in L. rewrite L.
  by destruct (goaway_code c f _) as [[c1 f1] r].
Qed.

(** What was sent before only comes first. *)
Lemma feed_frames_after F c f :
  conn_wf c → answer (feed_frames c (feed_app F f)) = (h <-!? answer (feed_frames c f); Ret (Ok (h.1, feed_app F h.2))).
Proof.
  intros Hc. revert f. revert c Hc. refine (frames_ind _ _ _); [intros c Hc Et f|intros c fr used Hc Et IH f].
  { rewrite !feed_frames_stop by done. cbn. by rewrite check_partial_after. }
  rewrite !(feed_frames_step c _ fr used Hc Et). set (c' := set_rbuf _ c). destruct (large _).
  { pose proof (goaway_code_lift (rbuf c') F c' f ERR_FRAME_SIZE_ERROR) as L. rewrite set_rbuf_same in L. rewrite L. cbn [fallible_bind lift_handled lift fst snd].
    assert (set_rbuf (rbuf c') (goaway_code c' f ERR_FRAME_SIZE_ERROR).1.1 = (goaway_code c' f ERR_FRAME_SIZE_ERROR).1.1) as ->.
    { unfold goaway_code. destruct (goaway_sent c'); reflexivity. }
    by rewrite check_partial_after. }
  rewrite handle_frame_after. pose proof (handled_next c f fr used) as Hn. fold c' in Hn.
  destruct (handle_frame c' f fr) as [[[c1 f1] [u|e]]|]; [|done..]. cbn in Hn |- *. destruct (Hn c1 f1) as [H1 H2]; [done..|]. by apply IH.
Qed.

(** When no frame above the limit has begun, what arrives later is read as if it had been
    there: the frames complete by then are handled, and the rest waits for it. *)
Lemma feed_frames_more c f b :
  conn_wf c → bytes_ok b → oversized (rbuf c) = false →
  answer (feed_frames (set_rbuf (rbuf c ++ b) c) f) = (h <-!? answer (feed_frames c f); answer (feed_frames (set_rbuf (rbuf h.1 ++ b) h.1) h.2)).
Proof.
  intros Hc Hb. revert f. revert c Hc. refine (frames_ind _ _ _); [intros c Hc Et f Hs|intros c fr used Hc Et IH f Hs].
  { rewrite oversized_stop in Hs by done. rewrite (feed_frames_stop c) by done. cbn [fallible_bind].
    assert (check_partial c f = (c, f)) as -> by (unfold check_partial; destruct (decode_frame_header (rbuf c)); [|done]; destruct (wf_limits _ Hc) as (-> & _); unfold large in Hs; by rewrite Hs).
    done. }
  pose proof (wf_rbuf _ Hc) as Hr. rewrite (oversized_step _ _ _ Hr Et) in Hs. apply orb_false_iff in Hs as [Hl Hs].
  pose proof (dec_used _ _ _ Hr Et) as Hu. pose proof (dec_more _ _ _ b Hr Et) as Et'.
  assert (conn_wf (set_rbuf (rbuf c ++ b) c)) as Hcb by (apply set_rbuf_wf; [done|by apply Forall_app]).
  rewrite (feed_frames_step _ f fr used Hcb Et'), (feed_frames_step c f fr used Hc Et), Hl. cbn [rbuf set_rbuf]. rewrite drop_app_le by lia.
  change (set_rbuf (drop used (rbuf c) ++ b) (set_rbuf (rbuf c ++ b) c)) with (set_rbuf (drop used (rbuf c) ++ b) (set_rbuf (drop used (rbuf c)) c)).
  rewrite handle_frame_rebuf. pose proof (handled_next c f fr used) as Hn.
  destruct (handle_frame _ f fr) as [[[c1 f1] [u|e]]|]; [|done..]. cbn in Hn |- *. destruct (Hn c1 f1) as [H1 H2]; [done..|].
  rewrite <-H2. apply IH; [done..|]. by rewrite H2.
Qed.

Lemma goaway_code_sent c f code : goaway_sent (goaway_code c f code).1.1 = true.
Proof. unfold goaway_code. by destruct (goaway_sent c) eqn:E. Qed.

Lemma goaway_code_rebuf b c f code : goaway_code (set_rbuf b c) f code = rebuf b (goaway_code c f code).
Proof. unfold goaway_code, rebuf. cbn. by destruct (goaway_sent c). Qed.

Lemma goaway_code_rbuf c f code : rbuf (goaway_code c f code).1.1 = rbuf c.
Proof. unfold goaway_code. by destruct (goaway_sent c). Qed.

(** After a GOAWAY the check of a frame that has begun only empties the buffer. *)
Lemma check_partial_sent c f : goaway_sent c = true → ∃ r, check_partial c f = (set_rbuf r c, f) ∧ (r = [] ∨ r = rbuf c).
Proof.
  intros Hg. unfold check_partial, goaway_code. rewrite Hg.
  destruct (decode_frame_header (rbuf c)); [destruct (_ <? _)|]; [exists []; auto|exists (rbuf c); rewrite set_rbuf_same; auto..].
Qed.

(** A frame above the limit is answered when its header has arrived: what comes after it
    changes nothing but what waits in the buffer. *)
Lemma feed_frames_refused c f b :
  conn_wf c → bytes_ok b → oversized (rbuf c) = true →
  but_buffer (answer (feed_frames (set_rbuf (rbuf c ++ b) c) f)) = but_buffer (answer (feed_frames c f)).
Proof.
  intros Hc Hb. revert f. revert c Hc. refine (frames_ind _ _ _); [intros c Hc Et f Hs|intros c fr used Hc Et IH f Hs];
    pose proof (wf_rbuf _ Hc) as Hr; assert (conn_wf (set_rbuf (rbuf c ++ b) c)) as Hcb by (apply set_rbuf_wf; [done|by apply Forall_app]).
  - rewrite oversized_stop in Hs by done. rewrite (feed_frames_stop c) by done. destruct (decode_frame_header (rbuf c)) as [h|] eqn:Eh; [|done].
    pose proof (decode_frame_header_app _ b _ Eh) as Eh'. destruct (wf_limits _ Hc) as (El & _). unfold check_partial. rewrite Eh, El. fold (large h). rewrite Hs.
    destruct (take_frame (rbuf c ++ b)) as [[fr used]|] eqn:Et'.
    + rewrite (feed_frames_step _ f fr used Hcb Et'). cbn [rbuf set_rbuf]. apply take_frame_Some in Et' as (_ & _ & _ & Eh2 & _); [|by apply Forall_app].
      rewrite Eh' in Eh2. injection Eh2 as <-. rewrite Hs. change (set_rbuf ?x (set_rbuf _ c)) with (set_rbuf x c). rewrite goaway_code_rebuf. unfold rebuf. cbn [fst snd].
      destruct (check_partial_sent (set_rbuf (drop used (rbuf c ++ b)) (goaway_code c f ERR_FRAME_SIZE_ERROR).1.1) (goaway_code c f ERR_FRAME_SIZE_ERROR).1.2) as (r & -> & _); [apply goaway_code_sent|].
      by destruct (goaway_code c f _) as [[c1 f1] u].
    + rewrite feed_frames_stop by done. unfold check_partial. cbn [rbuf set_rbuf inbound_max_frame_size]. rewrite Eh', El. fold (large h). rewrite Hs, goaway_code_rebuf. unfold rebuf.
      by destruct (goaway_code c f _) as [[c1 f1] u].
  - rewrite (oversized_step _ _ _ Hr Et) in Hs. pose proof (dec_used _ _ _ Hr Et) as Hu. pose proof (dec_more _ _ _ b Hr Et) as Et'.
    rewrite (feed_frames_step _ f fr used Hcb Et'), (feed_frames_step c f fr used Hc Et). cbn [rbuf set_rbuf]. rewrite drop_app_le by lia.
    change (set_rbuf ?x (set_rbuf (rbuf c ++ b) c)) with (set_rbuf x (set_rbuf (drop used (rbuf c)) c)). set (c' := set_rbuf (drop used (rbuf c)) c). destruct (large _).
    + rewrite goaway_code_rebuf. unfold rebuf. cbn [fst snd]. set (g := goaway_code c' f ERR_FRAME_SIZE_ERROR).
      destruct (check_partial_sent (set_rbuf (drop used (rbuf c) ++ b) g.1.1) g.1.2) as (r & -> & _); [apply goaway_code_sent|].
      destruct (check_partial_sent g.1.1 g.1.2) as (r' & -> & _); [apply goaway_code_sent|]. done.
    + rewrite handle_frame_rebuf. pose proof (handled_next c f fr used) as Hn. fold c' in Hn.
      destruct (handle_frame c' f fr) as [[[c1 f1] [u|e]]|]; [|done..]. cbn in Hn |- *. destruct (Hn c1 f1) as [H1 H2]; [done..|].
      rewrite <-H2. apply IH; [done..|]. by rewrite H2.
Qed.

(** What is left in the buffer: less than a frame within the limit, or all that follows a
    frame above it, which has been answered with a GOAWAY. *)
Definition waiting (input : list Z) (c : Http2Connection) : Prop :=
  len (rbuf c) < 9 + DEFAULT_MAX_FRAME_SIZE ∨
  (goaway_sent c = true ∧ ∃ at_byte fr used, take_frame (drop at_byte input) = Some (fr, used) ∧ large (f_header fr) = true ∧
     rbuf c = drop used (drop at_byte input)).

Lemma incomplete_short buf :
  take_frame buf = None → (∀ h, decode_frame_header buf = Some h → large h = false) → len buf < 9 + DEFAULT_MAX_FRAME_SIZE.
Proof.
  unfold take_frame. intros E Hs. destruct (decode_frame_header buf) as [h|] eqn:Eh.
  - specialize (Hs h eq_refl). unfold large in Hs. apply Z.ltb_ge in Hs. destruct (Z.ltb_spec (len buf) (9 + fh_length h)); [lia|done].
  - unfold DEFAULT_MAX_FRAME_SIZE. destruct buf as [|? [|? [|? [|? [|? [|? [|? [|? [|? ?]]]]]]]]]; try done.
Qed.

Lemma feed_frames_waiting c f c' f' : conn_wf c → answer (feed_frames c f) = Ret (Ok (c', f')) →
  waiting (rbuf c) c' ∧ (oversized (rbuf c) = true → goaway_sent c' = true).
Proof.
  intros Hc. revert f. revert c Hc. refine (frames_ind _ _ _); [intros c Hc Et f|intros c fr used Hc Et IH f].
  - rewrite feed_frames_stop, oversized_stop by done. intros E. injection E as E. unfold check_partial in E. destruct (wf_limits _ Hc) as (El & _). rewrite El in E.
    destruct (decode_frame_header (rbuf c)) as [h|] eqn:Eh.
    + fold (large h) in E. destruct (large h) eqn:Hl.
      * pose proof (goaway_code_sent c f ERR_FRAME_SIZE_ERROR) as Hg. destruct (goaway_code c f _) as [[c2 f2] ?]. injection E as <- <-. by split; [left|].
      * injection E as <- <-. split; [|done]. left. apply incomplete_short; [done|]. intros h' Eh'. rewrite Eh in Eh'. by injection Eh' as <-.
    + injection E as <- <-. split; [|done]. left. apply incomplete_short; [done|]. intros h' Eh'. congruence.
  - pose proof (wf_rbuf _ Hc) as Hr. rewrite (feed_frames_step c f fr used Hc Et), (oversized_step _ _ _ Hr Et). destruct (large _) eqn:Hl.
    + set (g := goaway_code _ f _). assert (goaway_sent g.1.1 = true) as Hg by apply goaway_code_sent.
      assert (rbuf g.1.1 = drop used (rbuf c)) as Eg by apply goaway_code_rbuf.
      destruct (check_partial_sent g.1.1 g.1.2 Hg) as (r & -> & Hr'). intros [= <- _]. split; [|done].
      destruct Hr' as [->| ->]; [by left|right]. split; [done|]. exists 0%nat, fr, used. by rewrite drop_0.
    + cbn [orb]. pose proof (handled_next c f fr used) as Hn. destruct (answer_handled _) as [[[c1 f1]|e]|]; [|done..]. cbn [fallible_bind fst snd]. intros E.
      destruct (Hn c1 f1) as [H1 H2]; [done..|]. destruct (IH c1 H1 H2 f1 E) as [Hw Hg]. rewrite H2 in Hw, Hg. split; [|done].
      destruct Hw as [Hw|(Hs & at_byte & fr' & used' & Hw)]; [by left|right]. split; [done|]. exists (used + at_byte)%nat, fr', used'. by rewrite <-drop_drop.
Qed.

(** ** Feeding in two pieces *)

(** The frame bytes of the input so far. *)
Definition frame_bytes_of (c : Http2Connection) (inbound : list Z) : list Z :=
  if preface_seen c then rbuf c ++ inbound else drop (length CONNECTION_PREFACE) (rbuf c ++ inbound).

Lemma feed_frames_preface c f c' f' :
  conn_wf c → answer (feed_frames c f) = Ret (Ok (c', f')) → preface_seen c' = preface_seen c.
Proof.
  intros Hc. revert f. assert (∀ c f, preface_seen (check_partial c f).1 = preface_seen c) as Hp.
  { intros c0 f. unfold check_partial. destruct (decode_frame_header _); [|done]. destruct (_ <? _); [|done].
    pose proof (goaway_code_preface c0 f ERR_FRAME_SIZE_ERROR) as Hg. by destruct (goaway_code c0 f _) as [[c1 f1] u]. }
  revert c Hc. refine (frames_ind _ _ _); [intros c Hc Et f|intros c fr used Hc Et IH f].
  - rewrite feed_frames_stop by done. intros E. injection E as E. pose proof (Hp c f) as H1. by rewrite E in H1.
  - rewrite (feed_frames_step c f fr used Hc Et). set (c1 := set_rbuf _ c). destruct (large _).
    + intros E. injection E as E. pose proof (Hp (goaway_code c1 f ERR_FRAME_SIZE_ERROR).1.1 (goaway_code c1 f ERR_FRAME_SIZE_ERROR).1.2) as H1.
      rewrite E, goaway_code_preface in H1. exact H1.
    + pose proof (handled_next c f fr used) as Hn. fold c1 in Hn. destruct (handle_frame c1 f fr) as [[[c2 f2] [u|e]]|] eqn:Eh; [|done..]. apply handle_frame_preface in Eh.
      cbn in Hn, Eh |- *. destruct (Hn c2 f2) as [H1 H2]; [done..|]. intros E. by rewrite (IH c2 H1 H2 f2 E).
Qed.
End feeding.

Section split.
Context `{Profile, KeyOrder}.

(** [cut over b whole first]: how feeding the whole compares with feeding a first piece and
    then [b], where [over] says that a frame above the limit has begun in the first piece.
    If not, they answer the same; if so, the first piece alone gives what the whole gives, and
    the connection has sent GOAWAY. *)
Definition cut (over : bool) (b : list Z) (whole first : outcome (Http2Connection * result Http2Feed string)) : Prop :=
  if over
  then but_buffer (answer whole) = but_buffer (answer first) ∧ ∀ c1 f1, first = Ret (c1, Ok f1) → goaway_sent c1 = true
  else answer whole = (x <-!? answer first; y <-!? answer (feed x.1 b); Ret (Ok (y.1, feed_app x.2 y.2))).

Lemma feed_frames_cut c F b :
  conn_wf c → bytes_ok b → preface_seen c = true → cut (oversized (rbuf c)) b (feed_frames (set_rbuf (rbuf c ++ b) c) F) (feed_frames c F).
Proof.
  intros Hc Hb Hp. unfold cut. destruct (oversized (rbuf c)) eqn:Ho.
  - split; [by apply feed_frames_refused|]. intros c1 f1 E. by apply (feed_frames_waiting c F c1 f1 Hc (proj2 (answer_ok _ _ _) E)).
  - rewrite feed_frames_more by done. destruct (answer (feed_frames c F)) as [[[c1 f1]|e]|] eqn:E; [|done..]. cbn [fallible_bind fst snd].
    pose proof (feed_frames_preface _ _ _ _ Hc E) as Hp1. apply answer_ok, feed_frames_wf in E; [|done].
    unfold feed. cbn [preface_seen set_rbuf]. rewrite Hp1, Hp, <-(feed_app_default f1) at 1. apply feed_frames_after.
    apply set_rbuf_wf; [done|apply Forall_app; split; [apply E|done]].
Qed.

Lemma feed_cut c a b : conn_wf c → bytes_ok a → bytes_ok b → cut (oversized (frame_bytes_of c a)) b (feed c (a ++ b)) (feed c a).
Proof.
  intros Hc Ha Hb. unfold frame_bytes_of. set (ca := set_rbuf (rbuf c ++ a) c).
  assert (conn_wf ca) as Hca by (apply set_rbuf_wf; [done|apply Forall_app; split; [apply Hc|done]]).
  assert (feed c (a ++ b) = feed ca b) as Hj by (unfold feed; cbn [rbuf set_rbuf ca]; by rewrite <-(assoc_L (++))).
  assert (feed c a = feed ca []) as Hf by (unfold feed; cbn [rbuf set_rbuf ca]; by rewrite app_nil_r).
  change (rbuf c ++ a) with (rbuf ca). rewrite Hj, Hf. destruct (preface_seen c) eqn:Hpre.
  { unfold feed. cbn [preface_seen set_rbuf]. change (preface_seen ca) with (preface_seen c). rewrite Hpre, app_nil_r, set_rbuf_same. by apply feed_frames_cut. }
  destruct (Z.ltb_spec (len (rbuf ca)) (len CONNECTION_PREFACE)) as [Hshort|Hlong].
  - rewrite drop_ge by (unfold len in *; lia). change (oversized []) with false. cbn [cut].
    assert (feed ca [] = Ret (ca, Ok feed_default)) as ->.
    { unfold feed. cbn [preface_seen set_rbuf]. change (preface_seen ca) with (preface_seen c). rewrite Hpre, app_nil_r, set_rbuf_same. cbn zeta. by rewrite (proj2 (Z.ltb_lt _ _) Hshort). }
    cbn [answer fallible_bind fst snd]. destruct (answer (feed ca b)) as [[[c2 f2]|e]|]; [|done..]. cbn. by rewrite feed_app_nil.
  - unfold feed. cbn [preface_seen set_rbuf rbuf]. change (preface_seen ca) with (preface_seen c). rewrite Hpre, app_nil_r. cbn zeta.
    rewrite len_app, !(proj2 (Z.ltb_ge _ _)) by (pose proof (len_nonneg b); lia).
    assert (length CONNECTION_PREFACE ≤ length (rbuf ca))%nat as Hl by (unfold len in *; lia).
    rewrite (take_app_le (rbuf ca)), drop_app_le by done. case_bool_decide; cbn [negb].
    2:{ unfold cut. destruct (oversized _); done. }
    set (c' := set_settings_sent true (set_preface_seen true (set_rbuf (drop (length CONNECTION_PREFACE) (rbuf ca)) ca))).
    apply (feed_frames_cut c' (out_bytes server_settings feed_default) b); [|done..].
    assert (conn_wf (set_rbuf (drop (length CONNECTION_PREFACE) (rbuf ca)) ca)) as H2.
    { apply set_rbuf_wf; [done|]. apply Forall_drop, Hca. }
    by wf_step H2.
Qed.

(** *** Bounded input *)

Lemma feed_waiting c inbound c' f : conn_wf c → bytes_ok inbound → feed c inbound = Ret (c', Ok f) → waiting (frame_bytes_of c inbound) c'.
Proof.
  intros Hc Hin. unfold feed, frame_bytes_of. set (c1 := set_rbuf _ c).
  assert (conn_wf c1) as H1 by (apply set_rbuf_wf; [done|apply Forall_app; split; [apply Hc|done]]). change (rbuf c ++ inbound) with (rbuf c1).
  change (preface_seen c) with (preface_seen c1). destruct (preface_seen c1); [intros E; by apply (feed_frames_waiting c1 feed_default c' f H1), answer_ok|].
  destruct (Z.ltb_spec (len (rbuf c1)) (len CONNECTION_PREFACE)) as [Hl|]; [intros [= <- <-]; left; by etrans|].
  destruct (negb _); [done|]. set (c2 := set_rbuf _ c1). intros E. refine (proj1 (feed_frames_waiting (set_settings_sent true (set_preface_seen true c2)) _ c' f _ (proj2 (answer_ok _ _ _) E))).
  assert (conn_wf c2) as Hw2 by (apply set_rbuf_wf; [done|]; apply Forall_drop, H1).
  by wf_step Hw2.
Qed.
End split.

(** ** Properties *)

(** Keys in the order of the tree: one order a [HashMap] may have. *)
#[export] Instance key_order_tree : KeyOrder.
Proof. refine {| hash_keys := λ m, (map_to_list m).*1 |}. done. Defined.

(** C6: feeding bytes in two pieces is feeding them at once, whatever state the connection is
    in and wherever the cut falls, in the preface, a header or a payload.  As long as no frame
    above the limit has begun in the first piece, the two feeds answer what the one does: they
    panic or fail alike, with the same message, and otherwise leave the same connection, with
    the output and requests of the pieces, put together, those of the whole.  When one has
    begun, the first piece alone answers what the whole does, but for what waits in the
    buffer, and the connection has sent GOAWAY. *)
Theorem feed_chunking (checks : bool) `{KeyOrder} (c : Http2Connection) (a b : list Z) :
  conn_wf c → bytes_ok a → bytes_ok b →
  if oversized (frame_bytes_of c a)
  then but_buffer (answer (feed (H := checks) c (a ++ b))) = but_buffer (answer (feed (H := checks) c a)) ∧
       ∀ c1 f1, feed (H := checks) c a = Ret (c1, Ok f1) → goaway_sent c1 = true
  else answer (feed (H := checks) c (a ++ b)) =
         (x <-!? answer (feed (H := checks) c a); y <-!? answer (feed (H := checks) x.1 b); Ret (Ok (y.1, feed_app x.2 y.2))).
Proof. apply (feed_cut (H := checks)). Qed.

(** A request in one HEADERS frame, after the preface. *)
Definition sample_request : list Z :=
  encode_settings_frame [] ++ encode_headers 1 (encode_header_block [(":method", "GET"); (":path", "/x")]%string) true true.

(** The header of a DATA frame of 16385 bytes, after the preface. *)
Definition sample_oversized : list Z := CONNECTION_PREFACE ++ [0; 64; 1; 0; 0; 0; 0; 0; 1].

Lemma feed_chunking_witness :
  (let a := take 30 (CONNECTION_PREFACE ++ sample_request) in let b := drop 30 (CONNECTION_PREFACE ++ sample_request) in
   ∃ c2 f2, answer (feed (H := false) http2_new (a ++ b)) = Ret (Ok (c2, f2)) ∧ length (requests f2) = 1%nat ∧
     (x <-!? answer (feed (H := false) http2_new a); y <-!? answer (feed (H := false) x.1 b); Ret (Ok (y.1, feed_app x.2 y.2))) = Ret (Ok (c2, f2))) ∧
  but_buffer (answer (feed (H := false) http2_new (sample_oversized ++ [7; 7; 7]))) = but_buffer (answer (feed (H := false) http2_new sample_oversized)).
Proof.
  split.
  - eexists _, _. split; [vm_compute; reflexivity|]. split; [reflexivity|].
    rewrite <-(feed_chunking false http2_new (take 30 (CONNECTION_PREFACE ++ sample_request)) (drop 30 (CONNECTION_PREFACE ++ sample_request))).
    + vm_compute. reflexivity.
    + apply http2_new_wf.
    + vm_compute. repeat constructor; intros ?; discriminate.
    + vm_compute. repeat constructor; intros ?; discriminate.
  - refine (proj1 (feed_chunking false http2_new sample_oversized [7; 7; 7] _ _ _)).
    + apply http2_new_wf.
    + vm_compute. repeat constructor; intros ?; discriminate.
    + repeat constructor; done.
Defined.

(** A frame above the limit, complete, keeps what follows it waiting until the next feed: here a
    PING that is answered by feeding nothing. *)
Lemma oversized_keeps_the_rest :
  ∃ c f, feed (H := false) http2_new (sample_oversized ++ replicate (Z.to_nat 16385) 0 ++ [0; 0; 8; 6; 0; 0; 0; 0; 0; 1; 2; 3; 4; 5; 6; 7; 8]) = Ret (c, Ok f) ∧
    len (rbuf c) = 17 ∧ ∃ c' g, feed (H := false) c [] = Ret (c', Ok g) ∧ outbound g = [0; 0; 8; 6; 1; 0; 0; 0; 0; 1; 2; 3; 4; 5; 6; 7; 8].
Proof. eexists _, _. split; [vm_compute; reflexivity|]. split; [reflexivity|]. eexists _, _. split; vm_compute; reflexivity. Qed.

(** When only the header of such a frame has arrived, the bytes of its payload are read as
    frames once they do: here as a request, after the GOAWAY. *)
Lemma refused_payload_is_read :
  ∃ c f, feed (H := false) http2_new sample_oversized = Ret (c, Ok f) ∧ goaway_sent c = true ∧
    ∃ c' g, feed (H := false) c sample_request = Ret (c', Ok g) ∧ length (requests g) = 1%nat.
Proof. eexists _, _. split; [vm_compute; reflexivity|]. split; [reflexivity|]. eexists _, _. split; vm_compute; reflexivity. Qed.

(** C2: along any run of a connection (bytes fed in any pieces, errors,
    responses at any time), no two requests given to the host have the same stream, and
    the stream of a request is never open again. *)
Theorem requests_once (checks : bool) `{KeyOrder} (c : Http2Connection) (rs : list Http2Request) :
  conn_run (H := checks) c rs →
  NoDup (rq_stream_id <$> rs) ∧ Forall (λ r, 0 < rq_stream_id r ≤ last_stream_id c ∧ streams c !! rq_stream_id r = None) rs.
Proof.
  intros Hrun. destruct (run_adv c rs Hrun) as (ids & Ha & Hs). split.
  - eapply sublist_NoDup; [apply Ha|done].
  - apply Forall_forall. intros r Hr. assert (rq_stream_id r ∈ ids) as Hi.
    { eapply elem_of_sublist; [|exact Hs]. by apply list_elem_of_fmap_2. }
    destruct (adv_ids _ _ _ Ha _ Hi) as ([[? Hn]|?] & ? & ?); [done|]. cbn in *. split; [lia|done].
Qed.

Lemma requests_once_witness :
  ∃ c rs, conn_run (H := false) c rs ∧ length rs = 1%nat ∧
  NoDup (rq_stream_id <$> rs) ∧ Forall (λ r, 0 < rq_stream_id r ≤ last_stream_id c ∧ streams c !! rq_stream_id r = None) rs.
Proof.
  assert (∃ c rs, conn_run (H := false) c rs ∧ length rs = 1%nat) as (c & rs & Hrun & Hl).
  { eexists _, _. split.
    - eapply run_step; [apply run_new|]. eapply (step_feed _ (CONNECTION_PREFACE ++ sample_request)).
      + vm_compute. repeat constructor; intros ?; discriminate.
      + vm_compute. reflexivity.
    - reflexivity. }
  exists c, rs. split; [done|]. split; [done|]. apply (requests_once false c rs Hrun).
Defined.

(** C9: along any run a connection keeps what it holds bounded: at most
    100 streams, each with at most 64 KiB of header block, a decoded list within the
    limit and a body within the 1 MiB window it was given; the windows stay in range
    (so no signed overflow), the dynamic table in order; and after a successful feed less
    than one maximal frame is buffered, unless the feed came to a whole frame above the limit:
    then GOAWAY has been sent and exactly what followed that frame in the input waits. *)
Theorem connection_bounded (checks : bool) `{KeyOrder} (c : Http2Connection) (rs : list Http2Request) :
  conn_run (H := checks) c rs →
  conn_wf c ∧
  ∀ inbound c' f, bytes_ok inbound → feed (H := checks) c inbound = Ret (c', Ok f) →
    len (rbuf c') < 9 + DEFAULT_MAX_FRAME_SIZE ∨
    (goaway_sent c' = true ∧ ∃ at_byte fr used,
       take_frame (drop at_byte (frame_bytes_of c inbound)) = Some (fr, used) ∧ DEFAULT_MAX_FRAME_SIZE < fh_length (f_header fr) ∧
       rbuf c' = drop used (drop at_byte (frame_bytes_of c inbound))).
Proof.
  intros Hrun. pose proof (run_wf c rs Hrun) as Hc. split; [done|]. intros inbound c' f Hb E.
  destruct (feed_waiting _ _ _ _ Hc Hb E) as [Hw|(Hg & i & fr & n & Ht & Hl & Hr)]; [by left|right]. split; [done|]. exists i, fr, n. by apply Z.ltb_lt in Hl.
Qed.

Lemma connection_bounded_witness :
  conn_wf http2_new ∧
  ∀ f c', feed (H := true) http2_new CONNECTION_PREFACE = Ret (c', Ok f) →
    len (rbuf c') < 9 + DEFAULT_MAX_FRAME_SIZE ∨
    (goaway_sent c' = true ∧ ∃ at_byte fr used,
       take_frame (drop at_byte (frame_bytes_of http2_new CONNECTION_PREFACE)) = Some (fr, used) ∧ DEFAULT_MAX_FRAME_SIZE < fh_length (f_header fr) ∧
       rbuf c' = drop used (drop at_byte (frame_bytes_of http2_new CONNECTION_PREFACE))).
Proof.
  destruct (connection_bounded true http2_new []) as [H1 H2]; [apply run_new|]. split; [exact H1|]. intros f c' E. apply (H2 CONNECTION_PREFACE c' f); [|exact E].
  vm_compute. repeat constructor; intros ?; discriminate.
Defined.

(** C21: responding with a body sends the headers and then DATA frames
    whose contents, in order, are the beginning of the body: each at most as large as the
    peer's frames, together within the connection's and the stream's window; the windows
    shrink by what was sent, other streams' queues are untouched, the rest waits, and
    something waits only when a window is used up.  The last frame, and only when all is
    sent, ends the stream.  Resuming a stream later does the same with what waits. *)
Theorem response_flow_control (c : Http2Connection) (sid status : Z) (hs : list header) (body : list Z) :
  conn_wf c → bytes_ok body → body ≠ [] →
  (∃ chunks rest,
     flushed c (respond c sid status hs body).1 sid {| pending := body; window := peer_initial_window c |} chunks rest ∧
     (respond c sid status hs body).2 =
       encode_headers sid (encode_header_block ((":status"%string, u64_to_string status) :: hs)) false true ++
       data_frames sid (bool_decide (rest = [])) chunks) ∧
  (∀ ss out, send c !! sid = Some ss → ∃ chunks rest,
     flushed c (flush_stream c sid out).1 sid ss chunks rest ∧
     (flush_stream c sid out).2 = out ++ data_frames sid (bool_decide (rest = [])) chunks).
Proof.
  intros Hc Hb Hne. split.
  - unfold respond. rewrite bool_decide_false by done. set (c1 := set_send _ _). set (out := encode_headers _ _ _ _).
    assert (conn_wf c1) as Hc1.
    { apply send_wf_insert; [by apply delete_stream_wf|]. split; [done|]. cbn. unfold window_max. lia. }
    unfold flush_stream. assert (send c1 !! sid = Some {| pending := body; window := peer_initial_window c |}) as Es by (cbn; apply lookup_insert_eq).
    rewrite Es. destruct (flush_loop _ c1 sid out) as [c2 out2] eqn:E.
    eapply flush_loop_spec in E as (chunks & rest & Hf & ->); [|done..|cbn; lia]. exists chunks, rest. split; [|done].
    destruct Hf as [Hf1 Hf2 Hf3 Hf4 Hf5 Hf6 Hf7]. constructor; try done. intros sid' Hn. rewrite Hf6 by done. cbn. by rewrite lookup_insert_ne.
  - intros ss out Es. unfold flush_stream. rewrite Es. destruct (flush_loop _ c sid out) as [c2 out2] eqn:E.
    eapply flush_loop_spec in E as (chunks & rest & Hf & ->); [|done..|cbn; lia]. by exists chunks, rest.
Qed.

Lemma response_flow_control_witness :
  (∃ chunks rest,
     flushed http2_new (respond http2_new 1 200 [] [7; 8; 9]).1 1 {| pending := [7; 8; 9]; window := 65535 |} chunks rest ∧
     (respond http2_new 1 200 [] [7; 8; 9]).2 =
       encode_headers 1 (encode_header_block [(":status"%string, u64_to_string 200)]) false true ++
       data_frames 1 (bool_decide (rest = [])) chunks) ∧
  (∀ ss out, send http2_new !! 1 = Some ss → ∃ chunks rest,
     flushed http2_new (flush_stream http2_new 1 out).1 1 ss chunks rest ∧
     (flush_stream http2_new 1 out).2 = out ++ data_frames 1 (bool_decide (rest = [])) chunks).
Proof. apply (response_flow_control http2_new 1 200 [] [7; 8; 9]); [apply http2_new_wf|repeat constructor; done|done]. Defined.

(** Forty-five bytes from a peer, the preface and one HEADERS frame whose header name
    announces 2^64 - 1 bytes, panic the connection in either build profile. *)
Lemma feed_panics_on_wrapping_length (checks : bool) :
  feed (H := checks) http2_new (CONNECTION_PREFACE ++ encode_headers 1 ([0] ++ encode_integer u64_max 7 0) true true) = Panic.
Proof. destruct checks; vm_compute; reflexivity. Qed.
