(* ===== verification/WebSocket.v ===== *)
(** * WebSocket: frames, messages and the opening handshake

    websocket/src/lib.rs: framing with its three length forms and masking, the
    reassembly of fragmented messages, close payloads, and the checks of a handshake.
    Frames are read back as written whatever follows ([ws_frame_roundtrip]); fragments
    give their message whatever control frames come between ([ws_reassembly]). *)

From S2P Require Import Prelude Text Utf8 Bytes.

Local Open Scope Z_scope.
Local Open Scope cruft_scope.

Inductive Opcode : Type := Continuation | Text | Binary | Close | Ping | Pong.

#[export] Instance Opcode_eq_dec : EqDecision Opcode.
Proof. solve_decision. Defined.

Definition opcode_byte (o : Opcode) : Z :=
  match o with Continuation => 0 | Text => 1 | Binary => 2 | Close => 8 | Ping => 9 | Pong => 10 end.

Definition opcode_from_u8 (b : Z) : option Opcode :=
  match Z.land b 15 with
  | 0 => Some Continuation | 1 => Some Text | 2 => Some Binary | 8 => Some Close | 9 => Some Ping | 10 => Some Pong
  | _ => None
  end.

Definition is_control (o : Opcode) : bool := match o with Close | Ping | Pong => true | _ => false end.

Abbreviation mask_key := (Z * Z * Z * Z)%type (only parsing).

Record Frame := { fin : bool; opcode : Opcode; payload : list Z; mask : option mask_key }.
Record Message := { m_opcode : Opcode; m_payload : list Z }.
Record FrameLimits := { max_frame_payload : Z; max_message_payload : Z }.

Definition limits_default : FrameLimits :=
  {| max_frame_payload := 16 * 1024 * 1024; max_message_payload := 64 * 1024 * 1024 |}.

Inductive WsError : Type :=
| UnexpectedEnd | InvalidOpcode (b : Z) | ControlTooLong | ControlFragmented | ReservedBitsSet | PayloadTooLong
| MessageTooLong | UnexpectedContinuation | FragmentAlreadyStarted | InvalidTextUtf8 | InvalidClosePayload
| InvalidCloseCode (code : Z) | InvalidHandshakeKey | UnsupportedWebSocketVersion | OriginRejected
| UnmaskedClientFrame | MaskedServerFrame | Crypto (s : string).

(** ** Frames *)

Definition mask_at (m : mask_key) (i : nat) : Z :=
  let '(m0, m1, m2, m3) := m in nth (i mod 4)%nat [m0; m1; m2; m3] 0.

(** [for (i, b) in payload.iter().enumerate() { b ^ mask[i % 4] }] *)
Definition apply_mask (m : mask_key) (p : list Z) : list Z := imap (λ i b, Z.lxor b (mask_at m i)) p.

Definition mask_bytes (m : mask_key) : list Z := let '(m0, m1, m2, m3) := m in [m0; m1; m2; m3].

(** [for shift in (0..8).rev() { ((len >> (8 * shift)) & 0xFF) as u8 }] *)
Definition length_bytes (plen : Z) : list Z :=
  (λ shift, as_u8 (Z.land (Z.shiftr plen (8 * shift)) 0xFF)) <$> [7; 6; 5; 4; 3; 2; 1; 0].

Definition encode_length (mask_bit plen : Z) : result (list Z) WsError :=
  if plen <=? 125 then Ok [Z.lor mask_bit (as_u8 plen)]
  else if plen <=? 0xFFFF then Ok [Z.lor mask_bit 126; as_u8 (Z.shiftr plen 8); as_u8 (Z.land plen 0xFF)]
  else if plen <=? 0x7FFFFFFFFFFFFFFF then
    Ok (Z.lor mask_bit 127 :: length_bytes plen)
  else Err PayloadTooLong.

Definition encode_frame (f : Frame) : result (list Z) WsError :=
  if is_control (opcode f) && (125 <? len (payload f)) then Err ControlTooLong
  else if is_control (opcode f) && negb (fin f) then Err ControlFragmented
  else
    let b0 := Z.lor (if fin f then 128 else 0) (opcode_byte (opcode f)) in
    let mask_bit := if mask f then 128 else 0 in
    l <-? encode_length mask_bit (len (payload f));
    Ok (b0 :: l ++ match mask f with
                   | Some m => mask_bytes m ++ apply_mask m (payload f)
                   | None => payload f
                   end).

Definition encode_client_frame (f : Frame) : result (list Z) WsError :=
  match mask f with None => Err UnmaskedClientFrame | Some _ => encode_frame f end.

Definition encode_server_frame (f : Frame) : result (list Z) WsError :=
  match mask f with Some _ => Err MaskedServerFrame | None => encode_frame f end.

(** The payload length, from the seven bits and what follows them, with the rest. *)
Definition decode_length (len7 : Z) (rest : list Z) : result (Z * list Z) WsError :=
  if len7 <=? 125 then Ok (len7, rest)
  else if len7 =? 126 then
    match rest with
    | a :: b :: rest' => Ok (Z.lor (Z.shiftl a 8) b, rest')
    | _ => Err UnexpectedEnd
    end
  else if len rest <? 8 then Err UnexpectedEnd
  else
    let l := foldl (λ l b, Z.lor (wrap64 (Z.shiftl l 8)) b) 0 (take 8 rest) in
    if 0x7FFFFFFFFFFFFFFF <? l then Err PayloadTooLong else Ok (l, drop 8 rest).

Definition decode_mask (masked : bool) (rest : list Z) : result (option mask_key * list Z) WsError :=
  if masked then
    match rest with
    | m0 :: m1 :: m2 :: m3 :: rest' => Ok (Some (m0, m1, m2, m3), rest')
    | _ => Err UnexpectedEnd
    end
  else Ok (None, rest).

(** The number of bytes used is what the buffer lost. *)
Definition decode_frame_with_limits (buf : list Z) (limits : FrameLimits) : result (Frame * Z) WsError :=
  match buf with
  | b0 :: b1 :: rest =>
      let f := negb (Z.land b0 128 =? 0) in
      if negb (Z.land b0 0x70 =? 0) then Err ReservedBitsSet
      else
        match opcode_from_u8 (Z.land b0 15) with
        | None => Err (InvalidOpcode (Z.land b0 15))
        | Some o =>
            if is_control o && negb f then Err ControlFragmented
            else
              let masked := negb (Z.land b1 128 =? 0) in
              pl <-? decode_length (Z.land b1 127) rest;
              let '(payload_len, rest) := pl in
              if max_frame_payload limits <? payload_len then Err PayloadTooLong
              else if is_control o && (125 <? payload_len) then Err ControlTooLong
              else
                mk <-? decode_mask masked rest;
                let '(m, rest) := mk in
                if len rest <? payload_len then Err UnexpectedEnd
                else
                  let p := take (Z.to_nat payload_len) rest in
                  let p := match m with Some k => apply_mask k p | None => p end in
                  Ok ({| fin := f; opcode := o; payload := p; mask := m |}, len buf - len rest + payload_len)
        end
  | _ => Err UnexpectedEnd
  end.

Definition decode_frame (buf : list Z) : result (Frame * Z) WsError :=
  decode_frame_with_limits buf {| max_frame_payload := u64_max; max_message_payload := u64_max |}.

Definition decode_server_frame_with_limits (buf : list Z) (limits : FrameLimits) : result (Frame * Z) WsError :=
  r <-? decode_frame_with_limits buf limits;
  match mask r.1 with None => Err UnmaskedClientFrame | Some _ => Ok r end.

Definition decode_server_frame (buf : list Z) := decode_server_frame_with_limits buf limits_default.

Definition decode_client_frame_with_limits (buf : list Z) (limits : FrameLimits) : result (Frame * Z) WsError :=
  r <-? decode_frame_with_limits buf limits;
  match mask r.1 with Some _ => Err MaskedServerFrame | None => Ok r end.

Definition decode_client_frame (buf : list Z) := decode_client_frame_with_limits buf limits_default.

(** ** Messages *)

Record MessageReassembler := { r_limits : FrameLimits; current_opcode : option Opcode; r_payload : list Z }.

Definition reassembler_new (limits : FrameLimits) : MessageReassembler :=
  {| r_limits := limits; current_opcode := None; r_payload := [] |}.

Definition validate_message_payload (o : Opcode) (p : list Z) : result unit WsError :=
  if bool_decide (o = Text) && negb (from_utf8 (byte <$> p)) then Err InvalidTextUtf8 else Ok tt.

Definition push_frame (r : MessageReassembler) (f : Frame) : MessageReassembler * result (option Message) WsError :=
  let message (o : Opcode) (p : list Z) : result (option Message) WsError :=
    _ <-? validate_message_payload o p; Ok (Some {| m_opcode := o; m_payload := p |}) in
  match opcode f with
  | Close | Ping | Pong => (r, Ok (Some {| m_opcode := opcode f; m_payload := payload f |}))
  | Text | Binary =>
      match current_opcode r with
      | Some _ => (r, Err FragmentAlreadyStarted)
      | None =>
          if max_message_payload (r_limits r) <? len (payload f) then (r, Err MessageTooLong)
          else if fin f then (r, message (opcode f) (payload f))
          else ({| r_limits := r_limits r; current_opcode := Some (opcode f); r_payload := payload f |}, Ok None)
      end
  | Continuation =>
      match current_opcode r with
      | None => (r, Err UnexpectedContinuation)
      | Some o =>
          match checked_add64 (len (r_payload r)) (len (payload f)) with
          | None => (r, Err MessageTooLong)
          | Some next_len =>
              if max_message_payload (r_limits r) <? next_len then
                ({| r_limits := r_limits r; current_opcode := None; r_payload := [] |}, Err MessageTooLong)
              else if fin f then
                ({| r_limits := r_limits r; current_opcode := None; r_payload := [] |}, message o (r_payload r ++ payload f))
              else ({| r_limits := r_limits r; current_opcode := Some o; r_payload := r_payload r ++ payload f |}, Ok None)
          end
      end
  end.

(** ** Closing *)

Record CloseFrame := { cl_code : option Z; reason : string }.

Definition encode_close (code : option Z) (reason : string) : list Z :=
  match code with
  | Some c => [as_u8 (Z.shiftr c 8); as_u8 (Z.land c 0xFF)] ++ as_bytes reason
  | None => []
  end.

Definition validate_close_code (code : Z) : result unit WsError :=
  if (1000 <=? code) && (code <=? 1003) || (1007 <=? code) && (code <=? 1014) || (3000 <=? code) && (code <=? 4999)
  then Ok tt else Err (InvalidCloseCode code).

Definition decode_close (p : list Z) : result CloseFrame WsError :=
  match p with
  | [] => Ok {| cl_code := None; reason := EmptyString |}
  | [_] => Err InvalidClosePayload
  | a :: b :: rest =>
      let code := Z.lor (Z.shiftl a 8) b in
      _ <-? validate_close_code code;
      match string_from_utf8 rest with
      | None => Err InvalidClosePayload
      | Some s => Ok {| cl_code := Some code; reason := s |}
      end
  end.

(** ** Lemmas on frames *)

Lemma apply_mask_involutive m p : apply_mask m (apply_mask m p) = p.
Proof.
  unfold apply_mask. apply list_eq. intros i. rewrite !list_lookup_imap. destruct (p !! i) as [b|]; [|done]. cbn.
  by rewrite Z.lxor_assoc, Z.lxor_nilpotent, Z.lxor_0_r.
Qed.

Lemma apply_mask_len m p : len (apply_mask m p) = len p.
Proof. unfold len, apply_mask. by rewrite length_imap. Qed.

Lemma opcode_byte_from o f :
  let b0 := Z.lor (if f : bool then 128 else 0) (opcode_byte o) in
  negb (Z.land b0 128 =? 0) = f ∧ Z.land b0 0x70 = 0 ∧ opcode_from_u8 (Z.land b0 15) = Some o.
Proof. by destruct f, o. Qed.

Lemma length_bytes_be plen :
  0 ≤ plen → length_bytes plen = to_be_bytes 8 plen.
Proof.
  intros Hp. unfold length_bytes. cbn [fmap list_fmap to_be_bytes]. unfold as_u8. change 0xFF with (2 ^ 8 - 1). rewrite !land_low, !Z.shiftr_div_pow2 by lia.
  change (2 ^ 8) with 256. rewrite !Z.mod_mod by lia. done.
Qed.

Lemma fold_be l : bytes_ok l → (length l ≤ 8)%nat → foldl (λ l b, Z.lor (wrap64 (Z.shiftl l 8)) b) 0 l = from_be_bytes l.
Proof.
  induction l as [|b l IH] using rev_ind; intros Hl Hlen; [done|]. apply Forall_app in Hl as [Hl Hb]. inversion_clear Hb as [|? ? Hb0 _].
  rewrite length_app in Hlen. cbn in Hlen. rewrite foldl_app, from_be_bytes_app, IH by (done || lia). cbn [foldl].
  pose proof (from_be_bytes_bound l Hl) as Hv. assert (256 ^ len l ≤ 256 ^ 7) by (apply Z.pow_le_mono_r; unfold len; lia).
  change (256 ^ 7) with 72057594037927936 in *. rewrite wrap64_id.
  - unfold is_u8 in Hb0. rewrite lor_shift_add by (change (2 ^ 8) with 256; lia). done.
  - unfold is_u64, u64_max. rewrite Z.shiftl_mul_pow2 by lia. change (2 ^ 8) with 256. lia.
Qed.

(** The three forms of the length, read back. *)
Lemma decode_encode_length (masked : bool) plen l rest :
  0 ≤ plen → encode_length (if masked then 128 else 0) plen = Ok l →
  ∃ b1 ext, l = b1 :: ext ∧ negb (Z.land b1 128 =? 0) = masked ∧ decode_length (Z.land b1 127) (ext ++ rest) = Ok (plen, rest).
Proof.
  intros Hp. unfold encode_length. destruct (Z.leb_spec plen 125) as [H1|H1]; [|destruct (Z.leb_spec plen 0xFFFF) as [H2|H2]; [|destruct (Z.leb_spec plen 0x7FFFFFFFFFFFFFFF) as [H3|]; [|done]]];
    intros [= <-].
  - assert (is_u8 plen) as Hu by (unfold is_u8; lia). rewrite as_u8_id by done.
    assert (Z.lor (if masked then 128 else 0) plen = (if masked then 128 else 0) + plen) as ->.
    { destruct masked; [apply (lor_add_disjoint 128 plen 7); (done || lia)|done]. }
    eexists _, []. split; [done|]. change 127 with (2 ^ 7 - 1). rewrite land_low by lia. change (2 ^ 7) with 128.
    rewrite land_128 by (unfold is_u8 in *; destruct masked; lia).
    assert (((if masked then 128 else 0) + plen) `mod` 128 = plen) as ->.
    { destruct masked; [replace (128 + plen) with (plen + 1 * 128) by lia; rewrite Z.mod_add by lia|]; apply Z.mod_small; lia. }
    split; [destruct masked; [rewrite (proj2 (Z.ltb_ge _ _))|rewrite (proj2 (Z.ltb_lt _ _))]; (done || lia)|].
    unfold decode_length. by rewrite (proj2 (Z.leb_le _ _)).
  - eexists _, [_; _]. split; [done|]. split; [by destruct masked|].
    assert (Z.land (Z.lor (if masked then 128 else 0) 126) 127 = 126) as -> by by destruct masked.
    unfold decode_length. cbn [app]. change (126 <=? 125) with false. change (126 =? 126) with true. cbv iota.
    unfold as_u8. change 0xFF with (2 ^ 8 - 1). rewrite land_low, Z.shiftr_div_pow2 by lia. change (2 ^ 8) with 256.
    pose proof (Z.mod_pos_bound plen 256). rewrite Z.mod_mod, (Z.mod_small (plen / 256)) by (try (split; [apply Z.div_pos|apply Z.div_lt_upper_bound]); lia).
    rewrite lor_shift_add by (change (2 ^ 8) with 256; lia). change (2 ^ 8) with 256. do 2 f_equal. pose proof (Z.div_mod plen 256). lia.
  - rewrite length_bytes_be by done. eexists _, _. split; [done|]. split; [by destruct masked|].
    assert (Z.land (Z.lor (if masked then 128 else 0) 127) 127 = 127) as -> by by destruct masked.
    unfold decode_length. change (127 <=? 125) with false. change (127 =? 126) with false. cbv iota.
    rewrite (proj2 (Z.ltb_ge _ _)) by (unfold len; rewrite length_app, to_be_bytes_length; lia).
    rewrite take_app_length', drop_app_length', fold_be by (rewrite ?to_be_bytes_length; done || apply to_be_bytes_ok).
    rewrite from_to_be_bytes by (change (256 ^ Z.of_nat 8) with 18446744073709551616; lia). by rewrite (proj2 (Z.ltb_ge _ _)).
Qed.

(** A frame that [encode_frame] accepts, within the limits. *)
Definition frame_ok (limits : FrameLimits) (f : Frame) : Prop :=
  len (payload f) ≤ max_frame_payload limits ∧ len (payload f) ≤ 0x7FFFFFFFFFFFFFFF ∧
  (is_control (opcode f) = true → fin f = true ∧ len (payload f) ≤ 125).

Lemma encode_length_ok bit plen : plen ≤ 0x7FFFFFFFFFFFFFFF → ∃ l, encode_length bit plen = Ok l.
Proof.
  intros Hp. unfold encode_length. destruct (plen <=? 125); [by eexists|]. destruct (plen <=? 0xFFFF); [by eexists|].
  rewrite (proj2 (Z.leb_le _ _)) by done. by eexists.
Qed.

Lemma decode_encode_frame limits f rest :
  frame_ok limits f → ∃ bs, encode_frame f = Ok bs ∧ decode_frame_with_limits (bs ++ rest) limits = Ok (f, len bs).
Proof.
  intros (Hmax & Hlen & Hctl). unfold encode_frame. pose proof (len_nonneg (payload f)) as H0.
  assert (is_control (opcode f) && (125 <? len (payload f)) = false) as ->.
  { destruct (is_control (opcode f)); [|done]. destruct (Hctl eq_refl). by rewrite (proj2 (Z.ltb_ge _ _)). }
  assert (is_control (opcode f) && negb (fin f) = false) as Hfin.
  { destruct (is_control (opcode f)); [|done]. by destruct (Hctl eq_refl) as [-> _]. }
  rewrite Hfin. destruct (encode_length_ok (if mask f then 128 else 0) (len (payload f)) Hlen) as [l El].
  assert ((if mask f then 128 else 0) = (if bool_decide (is_Some (mask f)) then 128 else 0)) as Em by by destruct (mask f).
  rewrite El. cbn [result_bind]. eexists. split; [done|]. rewrite Em in El.
  set (body := match mask f with Some m => _ | None => _ end).
  destruct (decode_encode_length _ _ _ (body ++ rest) H0 El) as (b1 & ext & -> & Hm & Hd).
  cbn [app]. unfold decode_frame_with_limits. destruct (opcode_byte_from (opcode f) (fin f)) as (Ef & Er & Eo).
  rewrite Ef, Er, Eo, Hfin, Hm. cbn [negb Z.eqb]. rewrite <-(assoc_L (++)), Hd. cbn [result_bind].
  rewrite (proj2 (Z.ltb_ge _ _)) by done.
  assert (is_control (opcode f) && (125 <? len (payload f)) = false) as ->.
  { destruct (is_control (opcode f)); [|done]. destruct (Hctl eq_refl). by rewrite (proj2 (Z.ltb_ge _ _)). }
  subst body. destruct f as [fn o p [[[[m0 m1] m2] m3]|]]; cbn [mask opcode payload fin] in *.
  - rewrite bool_decide_true by done. cbn [mask_bytes app decode_mask result_bind].
    rewrite (proj2 (Z.ltb_ge _ _)) by (rewrite len_app, apply_mask_len; pose proof (len_nonneg rest); lia).
    rewrite take_app_length' by (unfold len; rewrite Nat2Z.id; unfold apply_mask; by rewrite length_imap).
    rewrite apply_mask_involutive. do 2 f_equal. autorewrite with bytes. rewrite apply_mask_len. lia.
  - rewrite bool_decide_false by (by intros [? [=]]). cbn [decode_mask result_bind].
    rewrite (proj2 (Z.ltb_ge _ _)) by (rewrite len_app; pose proof (len_nonneg rest); lia).
    rewrite take_app_length' by (unfold len; by rewrite Nat2Z.id). do 2 f_equal. autorewrite with bytes. lia.
Qed.

(** ** Lemmas on messages *)

Fixpoint push_all (r : MessageReassembler) (fs : list Frame) : MessageReassembler * list (result (option Message) WsError) :=
  match fs with
  | [] => (r, [])
  | f :: fs' => let '(r, x) := push_frame r f in let '(r, xs) := push_all r fs' in (r, x :: xs)
  end.

(** [fs] carries the fragments [parts], with any control frames between them; the
    first fragment is still to come when the opcode is given. *)
Inductive carries : option Opcode → list (list Z) → list Frame → Prop :=
| carries_nil : carries None [] []
| carries_control st parts f fs : is_control (opcode f) = true → carries st parts fs → carries st parts (f :: fs)
| carries_first parts f fs :
    opcode f = Text ∨ opcode f = Binary → fin f = bool_decide (parts = []) → carries None parts fs →
    carries (Some (opcode f)) (payload f :: parts) (f :: fs)
| carries_next parts f fs :
    opcode f = Continuation → fin f = bool_decide (parts = []) → carries None parts fs →
    carries None (payload f :: parts) (f :: fs).

(** What is delivered at each frame of a message. *)
Definition delivered (m : Message) (f : Frame) : result (option Message) WsError :=
  if is_control (opcode f) then Ok (Some {| m_opcode := opcode f; m_payload := payload f |})
  else if fin f then Ok (Some m) else Ok None.

Lemma push_control r f : is_control (opcode f) = true → push_frame r f = (r, Ok (Some {| m_opcode := opcode f; m_payload := payload f |})).
Proof. unfold push_frame. by destruct (opcode f). Qed.

Lemma delivered_control m f :
  is_control (opcode f) = true → delivered m f = Ok (Some {| m_opcode := opcode f; m_payload := payload f |}).
Proof. unfold delivered. by intros ->. Qed.

Lemma delivered_next m f : opcode f = Continuation → delivered m f = if fin f then Ok (Some m) else Ok None.
Proof. unfold delivered. by intros ->. Qed.

Definition message_ok (limits : FrameLimits) (m : Message) : Prop :=
  len (m_payload m) ≤ max_message_payload limits ∧ len (m_payload m) ≤ u64_max ∧
  (m_opcode m = Text → from_utf8 (byte <$> m_payload m) = true).

Lemma validate_ok limits m : message_ok limits m → validate_message_payload (m_opcode m) (m_payload m) = Ok tt.
Proof. intros (_ & _ & Hu). unfold validate_message_payload. case_bool_decide as E; [|done]. by rewrite (Hu E). Qed.

(** From the middle of a message to its end, and past it. *)
Lemma push_rest limits m parts fs acc :
  message_ok limits m → m_payload m = acc ++ concat parts → carries None parts fs →
  push_all (if decide (parts = []) then reassembler_new limits
            else {| r_limits := limits; current_opcode := Some (m_opcode m); r_payload := acc |}) fs =
  (reassembler_new limits, delivered m <$> fs).
Proof.
  intros Hm. remember None as st eqn:Est. intros Hp Hc. revert acc Hp. induction Hc as [|st parts f fs Hctl Hc IH|parts f fs Ho Hf Hc IH|parts f fs Ho Hf Hc IH];
    intros acc Hp; [done| |done|].
  - cbn [push_all]. rewrite push_control, (IH Est acc Hp), fmap_cons, delivered_control by done. done.
  - rewrite decide_False by done. cbn [push_all]. cbn [concat] in Hp. rewrite (assoc_L (++)) in Hp.
    specialize (IH eq_refl (acc ++ payload f) Hp). destruct Hm as (Hmax & H64 & Hutf).
    assert (len acc + len (payload f) ≤ len (m_payload m)) as Hle by (rewrite Hp, !len_app; pose proof (len_nonneg (concat parts)); lia).
    unfold push_frame. rewrite Ho. cbn [current_opcode r_payload r_limits]. unfold checked_add64. rewrite (proj2 (Z.leb_le _ _)) by lia.
    rewrite (proj2 (Z.ltb_ge _ _)) by lia. rewrite Hf. case_bool_decide as Hl.
    + subst parts. rewrite app_nil_r in Hp. rewrite <-Hp. rewrite (validate_ok limits) by done. rewrite decide_True in IH by done.
      cbn [result_bind]. change {| r_limits := limits; current_opcode := None; r_payload := [] |} with (reassembler_new limits). rewrite IH.
      rewrite fmap_cons, delivered_next, Hf by done. by destruct m.
    + rewrite decide_False in IH by done. rewrite IH, fmap_cons, delivered_next, Hf by done. done.
Qed.

Lemma push_message limits o parts fs :
  message_ok limits {| m_opcode := o; m_payload := concat parts |} → carries (Some o) parts fs →
  push_all (reassembler_new limits) fs = (reassembler_new limits, delivered {| m_opcode := o; m_payload := concat parts |} <$> fs).
Proof.
  intros Hm Hc. remember (Some o) as st eqn:Est. induction Hc as [|st parts f fs Hctl Hc IH|parts f fs Ho Hf Hc IH|parts f fs Ho Hf Hc IH]; [done| | |done].
  - cbn [push_all]. rewrite push_control, IH, fmap_cons, delivered_control by done. done.
  - injection Est as <-. clear IH. cbn [push_all]. pose proof (push_rest limits _ parts fs (payload f) Hm eq_refl Hc) as Hr.
    destruct Hm as (Hmax & H64 & Hutf). cbn [concat m_payload m_opcode] in *. rewrite len_app in Hmax, H64. pose proof (len_nonneg (concat parts)).
    assert (push_frame (reassembler_new limits) f =
      (if decide (parts = []) then reassembler_new limits
       else {| r_limits := limits; current_opcode := Some (opcode f); r_payload := payload f |},
       delivered {| m_opcode := opcode f; m_payload := payload f ++ concat parts |} f)) as ->.
    { unfold push_frame, delivered. rewrite Hf. cbn [current_opcode reassembler_new r_limits].
      rewrite (proj2 (Z.ltb_ge _ _)) by lia. case_bool_decide as Hl.
      - subst parts. cbn [concat] in *. rewrite app_nil_r in *.
        assert (validate_message_payload (opcode f) (payload f) = Ok tt) as Hv.
        { apply (validate_ok limits {| m_opcode := opcode f; m_payload := payload f |}). split_and!; cbn; [lia|lia|exact Hutf]. }
        destruct Ho as [Ho|Ho]; rewrite Ho in *; by rewrite Hv.
      - destruct Ho as [Ho|Ho]; rewrite Ho in *; by rewrite decide_False. }
    by rewrite Hr.
Qed.

(** *** Any frames at all *)

Definition reassembler_ok (r : MessageReassembler) : Prop := len (r_payload r) ≤ max_message_payload (r_limits r).

Definition delivery_ok (limits : FrameLimits) (x : result (option Message) WsError) : Prop :=
  ∀ m, x = Ok (Some m) → is_control (m_opcode m) = true ∨
    len (m_payload m) ≤ max_message_payload limits ∧ (m_opcode m = Text → from_utf8 (byte <$> m_payload m) = true).

Lemma message_delivery limits o p :
  len p ≤ max_message_payload limits →
  delivery_ok limits (_ <-? validate_message_payload o p; Ok (Some {| m_opcode := o; m_payload := p |})).
Proof.
  intros Hl m. unfold validate_message_payload. destruct (bool_decide (o = Text) && negb (from_utf8 (byte <$> p))) eqn:E; [done|].
  intros [= <-]. right. split; [done|]. cbn. intros ->. rewrite bool_decide_true in E by done. by destruct (from_utf8 _).
Qed.

Lemma push_frame_ok r f :
  reassembler_ok r → 0 ≤ max_message_payload (r_limits r) →
  reassembler_ok (push_frame r f).1 ∧ r_limits (push_frame r f).1 = r_limits r ∧ delivery_ok (r_limits r) (push_frame r f).2.
Proof.
  intros Hr H0. unfold push_frame, checked_add64.
  assert (∀ e, delivery_ok (r_limits r) (Err e)) as Herr by done. assert (delivery_ok (r_limits r) (Ok None)) as Hnone by done.
  destruct (opcode f) eqn:Ho; try (split_and!; [done..|]; intros m [= <-]; by left).
  - destruct (current_opcode r) as [o|]; [|done]. destruct (_ <=? _); [|done].
    destruct (Z.ltb_spec (max_message_payload (r_limits r)) (len (r_payload r) + len (payload f))); [done|].
    destruct (fin f); [split_and!; [done..|apply message_delivery; rewrite len_app; lia]|].
    split_and!; [|done..]. unfold reassembler_ok. cbn. rewrite len_app. lia.
  - destruct (current_opcode r); [done|]. destruct (Z.ltb_spec (max_message_payload (r_limits r)) (len (payload f))); [done|].
    destruct (fin f); [split_and!; [done..|by apply message_delivery]|done].
  - destruct (current_opcode r); [done|]. destruct (Z.ltb_spec (max_message_payload (r_limits r)) (len (payload f))); [done|].
    destruct (fin f); [split_and!; [done..|by apply message_delivery]|done].
Qed.

Lemma push_all_ok fs r r' xs :
  reassembler_ok r → 0 ≤ max_message_payload (r_limits r) → push_all r fs = (r', xs) →
  reassembler_ok r' ∧ r_limits r' = r_limits r ∧ Forall (delivery_ok (r_limits r)) xs.
Proof.
  revert r xs. induction fs as [|f fs IH]; intros r xs Hr H0; cbn [push_all]; [by intros [= <- <-]|].
  destruct (push_frame r f) as [r1 x] eqn:E. destruct (push_all r1 fs) as [r2 xs2] eqn:E2. intros [= <- <-].
  destruct (push_frame_ok r f Hr H0) as (H1 & H2 & H3). rewrite E in H1, H2, H3. cbn in *.
  destruct (IH r1 xs2) as (? & ? & ?); [done|by rewrite H2|done|]. rewrite H2 in *. split_and!; [done..|by constructor].
Qed.

(** ** Properties *)

(** A frame within the limits encodes, and decoding what was written,
    whatever follows it, gives the frame back and the number of bytes it took, in all
    three length forms, masked or not.  A server refuses the frame exactly when it is
    unmasked and a client exactly when it is masked. *)
Lemma ws_frame_roundtrip (limits : FrameLimits) (f : Frame) (rest : list Z) :
  frame_ok limits f →
  ∃ bs, encode_frame f = Ok bs ∧ decode_frame_with_limits (bs ++ rest) limits = Ok (f, len bs) ∧
    decode_server_frame_with_limits (bs ++ rest) limits = (if mask f then Ok (f, len bs) else Err UnmaskedClientFrame) ∧
    decode_client_frame_with_limits (bs ++ rest) limits = (if mask f then Err MaskedServerFrame else Ok (f, len bs)).
Proof.
  intros Hok. destruct (decode_encode_frame limits f rest Hok) as (bs & He & Hd). exists bs.
  unfold decode_server_frame_with_limits, decode_client_frame_with_limits. rewrite Hd. cbn. by destruct (mask f).
Qed.

(** C25: a message cut into fragments, with control frames anywhere
    between them, is delivered at its last fragment as the concatenation, each control
    frame as it comes, nothing at the other fragments, and the reassembler is as new.
    For any frames whatever, in error too, what is buffered and every data message
    delivered stay within the message limit, and a text delivered is UTF-8. *)
Theorem ws_reassembly (limits : FrameLimits) (o : Opcode) (parts : list (list Z)) (fs anything : list Frame)
    (r' : MessageReassembler) (xs : list (result (option Message) WsError)) :
  message_ok limits {| m_opcode := o; m_payload := concat parts |} → carries (Some o) parts fs →
  0 ≤ max_message_payload limits → push_all (reassembler_new limits) anything = (r', xs) →
  push_all (reassembler_new limits) fs =
    (reassembler_new limits, delivered {| m_opcode := o; m_payload := concat parts |} <$> fs) ∧
  len (r_payload r') ≤ max_message_payload limits ∧ Forall (delivery_ok limits) xs.
Proof.
  intros Hm Hc H0 E. split; [by apply push_message|].
  destruct (push_all_ok anything (reassembler_new limits) r' xs) as (H1 & H2 & H3); [done|done|done|].
  unfold reassembler_ok in H1. rewrite H2 in H1. done.
Qed.

Definition sample_frame (f : bool) (o : Opcode) (p : list Z) : Frame := {| fin := f; opcode := o; payload := p; mask := None |}.

Lemma ws_reassembly_witness :
  let fs := [sample_frame false Text [104; 105]; sample_frame true Ping [1]; sample_frame true Continuation [33]] in
  push_all (reassembler_new limits_default) fs =
    (reassembler_new limits_default, delivered {| m_opcode := Text; m_payload := concat [[104; 105]; [33]] |} <$> fs) ∧
  len (r_payload (reassembler_new limits_default)) ≤ max_message_payload limits_default ∧
  Forall (delivery_ok limits_default) [Err UnexpectedContinuation].
Proof.
  intros fs. apply (ws_reassembly limits_default Text [[104; 105]; [33]] fs [sample_frame true Continuation []]).
  - split_and!; [vm_compute; discriminate..|]. intros _. vm_compute. reflexivity.
  - apply (carries_first [[33]] (sample_frame false Text [104; 105])); [by left|done|]. apply carries_control; [done|].
    apply (carries_next [] (sample_frame true Continuation [33])); [done..|]. apply carries_nil.
  - vm_compute. discriminate.
  - reflexivity.
Defined.
