(* ===== verification/BaseN.v ===== *)
(** * BaseN: base16, base32, base64 and base64url

    rusty-js-basen/src/lib.rs: one encoder and one decoder for any alphabet of 2, 4,
    .., 128 symbols.  Texts are lists of ASCII bytes.  Every alphabet whose lookup
    table inverts it decodes what it encoded ([basen_roundtrip]). *)

From S2P Require Import Prelude Text Bytes Bits.

Local Open Scope Z_scope.
Local Open Scope cruft_scope.

Inductive BaseNError : Type :=
| InvalidAlphabet | InvalidLength | InvalidByte (b : Z) | NonZeroTrailingBits | DataAfterPadding.

Inductive Padding : Type := Required | Optional | NoPadding.

#[export] Instance Padding_eq_dec : EqDecision Padding.
Proof. solve_decision. Defined.

Record Encoding := { alphabet : list Z; symbol_bits : Z; padding : Padding; case_insensitive_decode : bool }.

Definition BASE16_LOWER : Encoding :=
  {| alphabet := as_bytes "0123456789abcdef"; symbol_bits := 4; padding := NoPadding; case_insensitive_decode := true |}.
Definition BASE32 : Encoding :=
  {| alphabet := as_bytes "ABCDEFGHIJKLMNOPQRSTUVWXYZ234567"; symbol_bits := 5; padding := Optional;
     case_insensitive_decode := true |}.
Definition BASE64 : Encoding :=
  {| alphabet := as_bytes "ABCDEFGHIJKLMNOPQRSTUVWXYZabcdefghijklmnopqrstuvwxyz0123456789+/"; symbol_bits := 6;
     padding := Optional; case_insensitive_decode := false |}.
Definition BASE64URL : Encoding :=
  {| alphabet := as_bytes "ABCDEFGHIJKLMNOPQRSTUVWXYZabcdefghijklmnopqrstuvwxyz0123456789-_"; symbol_bits := 6;
     padding := Optional; case_insensitive_decode := false |}.

Definition validate (e : Encoding) : result unit BaseNError :=
  if (symbol_bits e =? 0) || (8 <=? symbol_bits e) then Err InvalidAlphabet
  else if negb (len (alphabet e) =? Z.shiftl 1 (symbol_bits e)) then Err InvalidAlphabet
  else Ok tt.

(** [while b != 0 { r = a % b; a = b; b = r }]: [b] decreases. *)
Fixpoint gcd_loop (fuel : nat) (a b : Z) : Z :=
  match fuel with
  | O => a
  | S fuel' => if b =? 0 then a else gcd_loop fuel' b (a `mod` b)
  end.
Definition gcd (a b : Z) : Z := gcd_loop (S (Z.to_nat b)) a b.

Definition output_quantum (bits : Z) : Z := 8 / gcd 8 bits.

Definition invalid_symbol_remainder (bits symbols : Z) : bool :=
  match bits with
  | 4 => symbols `mod` 2 =? 1
  | 5 => let r := symbols `mod` 8 in (r =? 1) || (r =? 3) || (r =? 6)
  | 6 => symbols `mod` 4 =? 1
  | _ => false
  end.

Definition equals_sign : Z := 61.

Definition symbol_mask (e : Encoding) : Z := Z.shiftl 1 (symbol_bits e) - 1.

(** [self.alphabet[idx]]; an index below the mask is in range of a valid alphabet. *)
Definition symbol (e : Encoding) (idx : Z) : Z := nth (Z.to_nat idx) (alphabet e) 0.

(** ** Encoding *)

Definition encode_step (e : Encoding) (st : Z * Z * list Z) (byte : Z) : Z * Z * list Z :=
  let '(acc, bits, out) := st in
  let acc := Z.lor (as_u32 (Z.shiftl acc 8)) byte in
  let bits := bits + 8 in
  let '(pushed, bits) :=
    emit_groups (symbol_bits e) (λ acc bits, symbol e (Z.land (Z.shiftr acc bits) (symbol_mask e))) (Z.to_nat bits) acc bits in
  (acc, bits, out ++ pushed).

(** [while out.len() % quantum != 0 { out.push('=') }]: less than a quantum of them. *)
Fixpoint pad_loop (fuel : nat) (quantum : Z) (out : list Z) : list Z :=
  match fuel with
  | O => out
  | S fuel' => if len out `mod` quantum =? 0 then out else pad_loop fuel' quantum (out ++ [equals_sign])
  end.

Definition encode (e : Encoding) (input : list Z) : result (list Z) BaseNError :=
  _ <-? validate e;
  let '(acc, bits, out) := foldl (encode_step e) (0, 0, []) input in
  let out :=
    if 0 <? bits then out ++ [symbol e (Z.land (as_u32 (Z.shiftl acc (symbol_bits e - bits))) (symbol_mask e))] else out in
  match padding e with
  | NoPadding => Ok out
  | Required | Optional =>
      let quantum := output_quantum (symbol_bits e) in Ok (pad_loop (Z.to_nat quantum) quantum out)
  end.

(** ** Decoding *)

Definition is_ascii_alphabetic (b : Z) : bool := (65 <=? b) && (b <=? 90) || (97 <=? b) && (b <=? 122).
Definition to_ascii_lowercase (b : Z) : Z := if (65 <=? b) && (b <=? 90) then b + 32 else b.
Definition to_ascii_uppercase (b : Z) : Z := if (97 <=? b) && (b <=? 122) then b - 32 else b.

(** The lookup table, filled in the order of the alphabet. *)
Definition lut_insert (e : Encoding) (lut : list Z) (entry : nat * Z) : list Z :=
  let '(idx, b) := entry in
  let lut := <[Z.to_nat b := Z.of_nat idx]> lut in
  if case_insensitive_decode e && is_ascii_alphabetic b then
    <[Z.to_nat (to_ascii_uppercase b) := Z.of_nat idx]> (<[Z.to_nat (to_ascii_lowercase b) := Z.of_nat idx]> lut)
  else lut.

Definition decode_lut (e : Encoding) : list Z :=
  foldl (lut_insert e) (repeat 255 256) (imap pair (alphabet e)).

Record DecodeState := { d_acc : Z; d_bits : Z; symbols : Z; saw_padding : bool; d_out : list Z }.

Definition decode_byte (e : Encoding) (lut : list Z) (st : DecodeState) (b : Z) : result DecodeState BaseNError :=
  if b =? equals_sign then
    match padding e with
    | NoPadding => Err (InvalidByte b)
    | _ => Ok {| d_acc := d_acc st; d_bits := d_bits st; symbols := symbols st; saw_padding := true; d_out := d_out st |}
    end
  else if saw_padding st then Err DataAfterPadding
  else
    let v := nth (Z.to_nat b) lut 255 in
    if v =? 255 then Err (InvalidByte b)
    else
      let acc := Z.lor (as_u32 (Z.shiftl (d_acc st) (symbol_bits e))) v in
      let bits := d_bits st + symbol_bits e in
      let '(pushed, bits) :=
        emit_groups 8 (λ acc bits, as_u8 (Z.land (Z.shiftr acc bits) 255)) (Z.to_nat bits) acc bits in
      Ok {| d_acc := acc; d_bits := bits; symbols := symbols st + 1; saw_padding := saw_padding st; d_out := d_out st ++ pushed |}.

Fixpoint decode_bytes (e : Encoding) (lut : list Z) (st : DecodeState) (input : list Z) : result DecodeState BaseNError :=
  match input with
  | [] => Ok st
  | b :: rest => st <-? decode_byte e lut st b; decode_bytes e lut st rest
  end.

Definition decode_start : DecodeState := {| d_acc := 0; d_bits := 0; symbols := 0; saw_padding := false; d_out := [] |}.

Definition decode (e : Encoding) (input : list Z) : result (list Z) BaseNError :=
  _ <-? validate e;
  st <-? decode_bytes e (decode_lut e) decode_start input;
  if invalid_symbol_remainder (symbol_bits e) (symbols st) then Err InvalidLength
  else if (0 <? d_bits st) && negb (Z.land (d_acc st) (Z.shiftl 1 (d_bits st) - 1) =? 0) then Err NonZeroTrailingBits
  else Ok (d_out st).

(** ** The named encodings *)

Definition unwrap_or_default (r : result (list Z) BaseNError) : list Z := match r with Ok l => l | Err _ => [] end.

Definition encode_base16_lower (input : list Z) : list Z := unwrap_or_default (encode BASE16_LOWER input).
Definition decode_base16 (input : list Z) : result (list Z) BaseNError := decode BASE16_LOWER input.
Definition encode_base32 (input : list Z) : list Z := unwrap_or_default (encode BASE32 input).
Definition decode_base32 (input : list Z) : result (list Z) BaseNError := decode BASE32 input.
Definition encode_base64 (input : list Z) : list Z := unwrap_or_default (encode BASE64 input).
Definition decode_base64 (input : list Z) : result (list Z) BaseNError := decode BASE64 input.

Definition base64url_with (padded : bool) : Encoding :=
  {| alphabet := alphabet BASE64URL; symbol_bits := symbol_bits BASE64URL;
     padding := if padded then Required else NoPadding; case_insensitive_decode := false |}.

Definition encode_base64url (input : list Z) (padded : bool) : list Z := unwrap_or_default (encode (base64url_with padded) input).
Definition decode_base64url (input : list Z) : result (list Z) BaseNError := decode BASE64URL input.

(** ** Lemmas *)

(** The table reads every symbol back as its index, and no symbol is padding. *)
Definition lut_inverts (e : Encoding) : bool :=
  forallb (λ idx, (nth (Z.to_nat (symbol e idx)) (decode_lut e) 255 =? idx) && negb (symbol e idx =? equals_sign))
    (Z.of_nat <$> seq 0 (length (alphabet e))).

Lemma lut_inverts_spec e idx :
  lut_inverts e = true → 0 ≤ idx < len (alphabet e) →
  nth (Z.to_nat (symbol e idx)) (decode_lut e) 255 = idx ∧ symbol e idx ≠ equals_sign.
Proof.
  unfold lut_inverts. rewrite forallb_forall. intros Hl Hidx. specialize (Hl idx).
  rewrite andb_true_iff, Z.eqb_eq, negb_true_iff, Z.eqb_neq in Hl. apply Hl. apply list_elem_of_In, list_elem_of_fmap.
  exists (Z.to_nat idx). split; [lia|]. apply elem_of_seq. unfold len in Hidx. lia.
Qed.

Lemma symbol_remainder (w g n pad : nat) :
  (0 < w < 8)%nat → (pad < w)%nat → (w * g = 8 * n + pad)%nat → invalid_symbol_remainder (Z.of_nat w) (Z.of_nat g) = false.
Proof.
  intros Hw Hpad E. assert (w = 1 ∨ w = 2 ∨ w = 3 ∨ w = 4 ∨ w = 5 ∨ w = 6 ∨ w = 7)%nat as Hcases by lia.
  destruct_or! Hcases; subst w; [done..| | | |done];
    [change (Z.of_nat 4) with 4 | change (Z.of_nat 5) with 5 | change (Z.of_nat 6) with 6]; cbn [invalid_symbol_remainder];
    rewrite ?orb_false_iff, ?Z.eqb_neq; Z.to_euclidean_division_equations; lia.
Qed.

Section roundtrip.
Context (e : Encoding) (w : nat) (Hw : (0 < w < 8)%nat) (Hbits : symbol_bits e = Z.of_nat w)
  (Hlen : len (alphabet e) = 2 ^ Z.of_nat w) (Hlut : lut_inverts e = true).

Lemma mask_low v : Z.land v (symbol_mask e) = v `mod` 2 ^ Z.of_nat w.
Proof. unfold symbol_mask. rewrite Hbits, Z.shiftl_1_l. apply land_low. lia. Qed.

(** What the encoder has written are the symbols of groups of the input's bits. *)
Lemma encode_fold_inv input :
  bytes_ok input →
  ∃ acc (r : nat) groups, foldl (encode_step e) (0, 0, []) input = (acc, Z.of_nat r, symbol e <$> groups) ∧ (r < w)%nat ∧
    Forall (λ v, 0 ≤ v < 2 ^ Z.of_nat w) groups ∧ (groups ≫= bits_be w) ++ bits_be r acc = input ≫= bits_be 8.
Proof.
  induction input as [|b input IH] using rev_ind; intros Hin.
  { exists 0, 0%nat, []. split_and!; [done|lia|constructor|done]. }
  apply Forall_app in Hin as [Hin Hb]. inversion_clear Hb as [|? ? Hb0 _].
  destruct (IH Hin) as (acc & r & groups & E & Hr & Hg & Hinv). rewrite foldl_app, E. cbn [foldl encode_step].
  replace (Z.of_nat r + 8) with (Z.of_nat (r + 8)) by lia. rewrite Nat2Z.id. set (acc' := Z.lor _ b).
  destruct (emit_groups _ _ (r + 8) acc' _) as [pushed bits] eqn:Ee. rewrite Hbits in Ee.
  eapply (emit_groups_spec w _ (symbol e)) in Ee as (gs & r' & -> & -> & Hr' & Hgs & Hb'); [|lia|lia|].
  2:{ intros k Hk. by rewrite mask_low, Z.shiftr_div_pow2. }
  exists acc', r', (groups ++ gs). rewrite fmap_app. split_and!; [done|done|by apply Forall_app|].
  rewrite !bind_app, <-(assoc_L (++)), <-Hb'. subst acc'. unfold as_u32. change 4294967296 with (2 ^ 32). change 8 with (Z.of_nat 8) at 1.
  rewrite bits_push; [|lia|exact Hb0]. rewrite (assoc_L (++)), Hinv. done.
Qed.

(** The symbols of the whole text, before padding: the bits of the input and fewer
    than a symbol's worth of zeros. *)
Lemma encode_symbols input :
  bytes_ok input →
  ∃ groups (pad : nat),
    (let '(acc, bits, out) := foldl (encode_step e) (0, 0, []) input in
     if 0 <? bits then out ++ [symbol e (Z.land (as_u32 (Z.shiftl acc (symbol_bits e - bits))) (symbol_mask e))] else out)
    = symbol e <$> groups ∧
    (pad < w)%nat ∧ Forall (λ v, 0 ≤ v < 2 ^ Z.of_nat w) groups ∧ groups ≫= bits_be w = (input ≫= bits_be 8) ++ bits_be pad 0.
Proof.
  intros Hin. destruct (encode_fold_inv input Hin) as (acc & r & groups & -> & Hr & Hg & Hinv).
  destruct (Z.ltb_spec 0 (Z.of_nat r)).
  - set (last := Z.land _ _). exists (groups ++ [last]), (w - r)%nat.
    assert (last = (Z.shiftl acc (Z.of_nat (w - r)) `mod` 2 ^ 32) `mod` 2 ^ Z.of_nat w) as El.
    { subst last. rewrite mask_low, Hbits, <-Nat2Z.inj_sub by lia. done. }
    split_and!; [by rewrite fmap_app|lia| |].
    + apply Forall_app. split; [done|]. constructor; [|constructor]. rewrite El. apply Z.mod_pos_bound. lia.
    + rewrite bind_app, <-Hinv, <-(assoc_L (++)). f_equal. cbn [mbind list_bind]. rewrite app_nil_r, El.
      rewrite (bits_be_mod w _ (Z.lor (Z.shiftl acc (Z.of_nat (w - r)) `mod` 2 ^ 32) 0)) by (rewrite Z.lor_0_r, Z.mod_mod by lia; done).
      replace w with (r + (w - r))%nat at 1 by lia. rewrite bits_push; [done|lia|]. pose proof (Z.pow_pos_nonneg 2 (Z.of_nat (w - r))). lia.
  - assert (r = 0)%nat as -> by lia. exists groups, 0%nat. split_and!; [done|lia|done|]. cbn [bits_be] in *. by rewrite app_nil_r in *.
Qed.

(** The decoder's invariant, over symbols. *)
Lemma decode_groups groups st (n : nat) :
  Forall (λ v, 0 ≤ v < 2 ^ Z.of_nat w) groups → saw_padding st = false → d_bits st = Z.of_nat n → (n < 8)%nat → bytes_ok (d_out st) →
  ∃ acc (r : nat) out, decode_bytes e (decode_lut e) st (symbol e <$> groups) =
    Ok {| d_acc := acc; d_bits := Z.of_nat r; symbols := symbols st + len groups; saw_padding := false; d_out := d_out st ++ out |} ∧
    (r < 8)%nat ∧ bytes_ok out ∧ (out ≫= bits_be 8) ++ bits_be r acc = bits_be n (d_acc st) ++ (groups ≫= bits_be w).
Proof.
  intros Hg. revert st n. induction Hg as [|v groups Hv _ IH]; intros st n Hsaw Hn Hn8 Hout.
  { destruct st as [a b s p o]. cbn in *. subst. exists a, n, []. rewrite len_nil, Z.add_0_r, !app_nil_r. split_and!; [done|lia|constructor|done]. }
  cbn [fmap list_fmap decode_bytes]. unfold decode_byte at 1.
  destruct (lut_inverts_spec e v Hlut) as [El Eq]; [by rewrite Hlen|].
  rewrite (proj2 (Z.eqb_neq _ _) Eq), Hsaw, El.
  assert (v ≠ 255) as Hv255. { pose proof (Z.pow_le_mono_r 2 (Z.of_nat w) 7 ltac:(lia) ltac:(lia)). change (2 ^ 7) with 128 in *. lia. }
  rewrite (proj2 (Z.eqb_neq _ _) Hv255), Hn, Hbits, <-Nat2Z.inj_add, Nat2Z.id. set (acc' := Z.lor _ v).
  destruct (emit_groups 8 _ (n + w) acc' _) as [pushed bits] eqn:Ee.
  eapply (emit_groups_spec 8 _ (λ v, v)) in Ee as (gs & r' & -> & -> & Hr' & Hgs & Hb'); [|lia|lia|].
  2:{ intros k Hk. unfold as_u8. change 255 with (2 ^ 8 - 1). rewrite land_low, Z.shiftr_div_pow2 by lia. by rewrite Z.mod_mod. }
  rewrite list_fmap_id. cbn [result_bind].
  edestruct (IH {| d_acc := acc'; d_bits := Z.of_nat r'; symbols := symbols st + 1; saw_padding := false; d_out := d_out st ++ gs |} r')
    as (acc & r & out & -> & Hr & Hok & Hinv); [done|done|lia|by apply Forall_app|]. cbn [d_acc d_out symbols] in *.
  exists acc, r, (gs ++ out). split_and!; [|done|by apply Forall_app|].
  - rewrite len_cons, <-(assoc_L (++)). do 2 f_equal. lia.
  - rewrite bind_app, <-(assoc_L (++)), Hinv, (assoc_L (++)), <-Hb'. cbn [mbind list_bind]. rewrite (assoc_L (++)). f_equal.
    subst acc'. unfold as_u32. change 4294967296 with (2 ^ 32). apply bits_push; [lia|done].
Qed.

(** Padding at the end is skipped, where the encoding has padding at all. *)
Lemma decode_padding_bytes st k :
  padding e ≠ NoPadding → ∃ p, decode_bytes e (decode_lut e) st (repeat equals_sign k) =
    Ok {| d_acc := d_acc st; d_bits := d_bits st; symbols := symbols st; saw_padding := p; d_out := d_out st |}.
Proof.
  intros Hp. revert st. induction k as [|k IH]; intros st; [exists (saw_padding st); by destruct st|].
  cbn [repeat decode_bytes]. unfold decode_byte at 1. rewrite Z.eqb_refl. destruct (padding e); [| |done]; cbn [result_bind];
    apply (IH {| d_acc := d_acc st; d_bits := d_bits st; symbols := symbols st; saw_padding := true; d_out := d_out st |}).
Qed.

Lemma decode_bytes_app st l k :
  decode_bytes e (decode_lut e) st (l ++ k) = (st <-? decode_bytes e (decode_lut e) st l; decode_bytes e (decode_lut e) st k).
Proof using. revert st. induction l as [|b l IH]; intros st; cbn [app decode_bytes]; [done|]. destruct (decode_byte _ _ st b); cbn [result_bind]; auto. Qed.

Lemma pad_loop_app fuel q out : ∃ k, pad_loop fuel q out = out ++ repeat equals_sign k.
Proof.
  revert out. induction fuel as [|fuel IH]; intros out; cbn [pad_loop]; [exists 0%nat; by rewrite app_nil_r|].
  destruct (_ =? 0); [exists 0%nat; by rewrite app_nil_r|]. destruct (IH (out ++ [equals_sign])) as [k ->].
  exists (S k). by rewrite <-(assoc_L (++)).
Qed.

(** The number of symbols is one the decoder accepts. *)
Lemma symbol_count groups (input : list Z) (pad : nat) :
  (pad < w)%nat → groups ≫= bits_be w = (input ≫= bits_be 8) ++ bits_be pad 0 →
  invalid_symbol_remainder (symbol_bits e) (len groups) = false.
Proof.
  intros Hpad E. apply (f_equal length) in E.
  assert (∀ n (l : list Z), length (l ≫= bits_be n) = n * length l)%nat as Hl.
  { intros n. induction l as [|v l IH]; [cbn; lia|]. cbn [mbind list_bind] in *. rewrite length_app, bits_be_length, IH. cbn. lia. }
  rewrite length_app, !Hl, bits_be_length in E. rewrite Hbits. by eapply symbol_remainder.
Qed.

Lemma decode_encode input :
  bytes_ok input → validate e = Ok tt → ∃ s, encode e input = Ok s ∧ decode e s = Ok input.
Proof.
  intros Hin Hval. destruct (encode_symbols input Hin) as (groups & pad & Eout & Hpad & Hg & Hbitseq).
  assert (∃ k, (padding e = NoPadding → k = 0%nat) ∧ encode e input = Ok ((symbol e <$> groups) ++ repeat equals_sign k)) as (k & Hk & ->).
  { unfold encode. rewrite Hval. cbn [result_bind]. destruct (foldl (encode_step e) (0, 0, []) input) as [[acc bits] out]. rewrite Eout.
    destruct (padding e); [| |exists 0%nat; by rewrite app_nil_r];
      destruct (pad_loop_app (Z.to_nat (output_quantum (symbol_bits e))) (output_quantum (symbol_bits e)) (symbol e <$> groups)) as [k ->]; by exists k. }
  eexists. split; [done|]. unfold decode. rewrite Hval. cbn [result_bind]. rewrite decode_bytes_app.
  destruct (decode_groups groups decode_start 0 Hg) as (acc & r & out & -> & Hr & Hok & Hinv); [done|done|lia|constructor|].
  cbn [result_bind d_acc d_out decode_start symbols app bits_be] in *. rewrite Hbitseq in Hinv.
  assert (out = input ∧ r = pad ∧ bits_be r acc = bits_be pad 0) as (-> & -> & Hacc).
  { assert (∀ l : list Z, length (l ≫= bits_be 8) = 8 * length l)%nat as Hl.
    { induction l as [|v l IH]; [done|]. cbn [mbind list_bind] in *. rewrite length_app, bits_be_length, IH. cbn. lia. }
    pose proof (f_equal length Hinv) as HL. rewrite !length_app, !Hl, !bits_be_length in HL.
    apply app_inj_1 in Hinv as [H1 H2]; [|rewrite !Hl; lia]. split_and!; [|lia|done].
    apply (bits_groups_inj 8); [lia|done|done|done]. }
  assert (acc `mod` 2 ^ Z.of_nat pad = 0) as Hzero by (rewrite <-from_bits_be, Hacc, from_bits_be; apply Z.mod_0_l; lia).
  assert (∃ p, decode_bytes e (decode_lut e)
      {| d_acc := acc; d_bits := Z.of_nat pad; symbols := 0 + len groups; saw_padding := false; d_out := input |} (repeat equals_sign k) =
    Ok {| d_acc := acc; d_bits := Z.of_nat pad; symbols := 0 + len groups; saw_padding := p; d_out := input |}) as [p ->].
  { destruct (decide (padding e = NoPadding)) as [Ep|Ep]; [rewrite (Hk Ep); by exists false|].
    exact (decode_padding_bytes {| d_acc := acc; d_bits := Z.of_nat pad; symbols := 0 + len groups; saw_padding := false; d_out := input |} k Ep). }
  cbn [result_bind symbols d_bits d_acc d_out]. rewrite Z.add_0_l, (symbol_count _ _ _ Hpad Hbitseq), Z.shiftl_1_l, land_low, Hzero by lia.
  by rewrite andb_false_r.
Qed.
End roundtrip.

(** ** Properties *)

(** Every encoding that passes its own validation and whose lookup
    table inverts its alphabet (the four of the crate, and base64url with and without
    padding, among them) encodes any bytes and decodes the text to them. *)
Lemma basen_roundtrip (e : Encoding) (input : list Z) :
  validate e = Ok tt → 0 < symbol_bits e → lut_inverts e = true → bytes_ok input →
  ∃ s, encode e input = Ok s ∧ decode e s = Ok input.
Proof.
  intros Hval Hpos Hlut Hin. pose proof Hval as Hv. unfold validate in Hv.
  destruct (Z.eqb_spec (symbol_bits e) 0); [lia|]. destruct (Z.leb_spec 8 (symbol_bits e)); [done|].
  destruct (Z.eqb_spec (len (alphabet e)) (Z.shiftl 1 (symbol_bits e))) as [El|]; [|done].
  rewrite Z.shiftl_1_l in El. apply (decode_encode e (Z.to_nat (symbol_bits e))); [lia|lia|by rewrite Z2Nat.id by lia|done..].
Qed.

