(* ===== verification/PercentEncoding.v ===== *)
(** * PercentEncoding: percent-encoding and form data

    rusty-js-percent-encoding/src/lib.rs with its encode sets, and
    rusty-js-form-urlencoded/src/lib.rs on top of it.  Texts are lists of bytes.
    Encoding with a set that contains the percent sign is undone by both decoders
    ([percent_decode_encode]), and any list of name and value pairs survives form
    serialisation ([form_roundtrip]). *)

From S2P Require Import Prelude Text Utf8 Bytes Bits BaseN.

Local Open Scope Z_scope.
Local Open Scope cruft_scope.

Inductive PercentError : Type := TruncatedTriplet | InvalidHex.

(** ** Encode sets *)

Record EncodeSet := { table : list bool }.

Definition contains (s : EncodeSet) (b : Z) : bool := nth (Z.to_nat b) (table s) false.

Definition with_byte (s : EncodeSet) (b : Z) : EncodeSet := {| table := <[Z.to_nat b := true]> (table s) |}.

(** The bytes from [lo] to [hi]. *)
Definition byte_range (lo hi : Z) : list Z := (λ i, lo + Z.of_nat i) <$> seq 0 (Z.to_nat (hi - lo + 1)).

Definition table_set (v : bool) (t : list bool) (b : Z) : list bool := <[Z.to_nat b := v]> t.

Definition unreserved_table : list bool :=
  foldl (table_set false) (repeat true 256) (byte_range 65 90 ++ byte_range 97 122 ++ byte_range 48 57 ++ as_bytes "-._~").
Definition reserved_table : list bool := foldl (table_set true) (repeat false 256) (as_bytes ":/?#[]@!$&'()*+,;=").
Definition controls_table : list bool := foldl (table_set true) (repeat false 256) (byte_range 0 31 ++ [127]).
Definition merge (a b : list bool) : list bool := zip_with orb a b.
Definition add_bytes (t : list bool) (bytes : list Z) : list bool := foldl (table_set true) t bytes.
Definition fragment_table : list bool := add_bytes controls_table (as_bytes (" " +:+ dquote +:+ "<>`")).
Definition path_table : list bool := add_bytes fragment_table (as_bytes "?#{}^").
Definition userinfo_table : list bool := add_bytes path_table (as_bytes "/:;=@[\]^|").
Definition special_query_table : list bool := add_bytes fragment_table (as_bytes "'").
Definition component_table : list bool := merge unreserved_table (add_bytes (repeat false 256) (as_bytes "$%&+,/:;=?@")).

Definition UNRESERVED : EncodeSet := {| table := unreserved_table |}.
Definition RESERVED : EncodeSet := {| table := reserved_table |}.
Definition CONTROLS : EncodeSet := {| table := controls_table |}.
Definition FRAGMENT : EncodeSet := {| table := fragment_table |}.
Definition PATH : EncodeSet := {| table := path_table |}.
Definition USERINFO : EncodeSet := {| table := userinfo_table |}.
Definition SPECIAL_QUERY : EncodeSet := {| table := special_query_table |}.
Definition COMPONENT : EncodeSet := {| table := component_table |}.

(** ** Encoding and decoding *)

Definition percent : Z := 37.

Definition encode_one (s : EncodeSet) (b : Z) : list Z :=
  if (128 <=? b) || contains s b then percent :: (to_ascii_uppercase <$> encode_base16_lower [b]) else [b].

Definition percent_encode (bytes : list Z) (s : EncodeSet) : list Z := bytes ≫= encode_one s.

Fixpoint percent_decode (bytes : list Z) : outcome (result (list Z) PercentError) :=
  match bytes with
  | [] => Ret (Ok [])
  | b :: rest =>
      if negb (b =? percent) then out <-!? percent_decode rest; Ret (Ok (b :: out))
      else
        match rest with
        | h1 :: h2 :: rest' =>
            if negb (from_utf8 (byte <$> [h1; h2])) then Ret (Err InvalidHex)
            else
              match decode_base16 [h1; h2] with
              | Err _ => Ret (Err InvalidHex)
              | Ok (d :: _) => out <-!? percent_decode rest'; Ret (Ok (d :: out))
              | Ok [] => Panic
              end
        | _ => Ret (Err TruncatedTriplet)
        end
  end.

Definition is_ascii_hex (b : Z) : bool :=
  (48 <=? b) && (b <=? 57) || (97 <=? b) && (b <=? 102) || (65 <=? b) && (b <=? 70).

Definition hex_value (b : Z) : Z :=
  if (48 <=? b) && (b <=? 57) then b - 48
  else if (97 <=? b) && (b <=? 102) then b - 97 + 10
  else if (65 <=? b) && (b <=? 70) then b - 65 + 10
  else 0.

Fixpoint decode_lenient (bytes : list Z) : list Z :=
  match bytes with
  | [] => []
  | b :: rest =>
      if negb (b =? percent) then b :: decode_lenient rest
      else
        match rest with
        | h1 :: h2 :: rest' =>
            if is_ascii_hex h1 && is_ascii_hex h2 then Z.lor (as_u8 (Z.shiftl (hex_value h1) 4)) (hex_value h2) :: decode_lenient rest'
            else b :: decode_lenient rest
        | _ => b :: decode_lenient rest
        end
  end.

(** ** Forms *)

Definition form_byte (b : Z) : bool :=
  negb ((48 <=? b) && (b <=? 57) || (65 <=? b) && (b <=? 90) || (97 <=? b) && (b <=? 122)
        || (b =? 42) || (b =? 45) || (b =? 46) || (b =? 95) || (b =? 32)).

Definition form_encode_table : list bool := form_byte <$> every_byte.
Definition FORM_SET : EncodeSet := {| table := form_encode_table |}.

Definition serialize_string (s : list Z) : list Z :=
  (λ ch, if ch =? 32 then 43 else ch) <$> percent_encode s FORM_SET.

Definition serialize_pair (out : list Z) (p : list Z * list Z) : list Z :=
  (if bool_decide (out = []) then out else out ++ [38]) ++ serialize_string p.1 ++ [61] ++ serialize_string p.2.

Definition serialize (pairs : list (list Z * list Z)) : list Z := foldl serialize_pair [] pairs.

(** [bytes.split(|&b| b == c)]. *)
Fixpoint split_on (c : Z) (l : list Z) : list (list Z) :=
  match l with
  | [] => [[]]
  | b :: l' =>
      if b =? c then [] :: split_on c l'
      else match split_on c l' with [] => [[b]] | w :: ws => (b :: w) :: ws end
  end.

(** The parts before and after the first [=], or everything and nothing. *)
Fixpoint split_pair (l : list Z) : list Z * list Z :=
  match l with
  | [] => ([], [])
  | b :: l' => if b =? 61 then ([], l') else let '(n, v) := split_pair l' in (b :: n, v)
  end.

Definition lossy_bytes (l : list Z) : list Z := code <$> from_utf8_lossy (byte <$> l).

Definition decode_component (bytes : list Z) : list Z :=
  let plus_replaced := (λ b, if b =? 43 then 32 else b) <$> lossy_bytes bytes in
  lossy_bytes (decode_lenient plus_replaced).

Definition form_parse (input : list Z) : list (list Z * list Z) :=
  (λ s, let '(n, v) := split_pair s in (decode_component n, decode_component v)) <$> filter (λ s, s ≠ []) (split_on 38 input).

(** ** Lemmas *)

(** A percent triplet is read back by both decoders, and is plain ASCII. *)
Definition triplet_ok (b : Z) : bool :=
  match to_ascii_uppercase <$> encode_base16_lower [b] with
  | [h1; h2] =>
      is_ascii_hex h1 && is_ascii_hex h2 && (Z.lor (as_u8 (Z.shiftl (hex_value h1) 4)) (hex_value h2) =? b)
      && from_utf8 (byte <$> [h1; h2]) && match decode_base16 [h1; h2] with Ok [d] => d =? b | _ => false end
  | _ => false
  end.

Lemma triplet b :
  is_u8 b → ∃ h1 h2, to_ascii_uppercase <$> encode_base16_lower [b] = [h1; h2] ∧
    (is_ascii_hex h1 = true ∧ is_ascii_hex h2 = true) ∧ Z.lor (as_u8 (Z.shiftl (hex_value h1) 4)) (hex_value h2) = b ∧
    from_utf8 (byte <$> [h1; h2]) = true ∧ decode_base16 [h1; h2] = Ok [b].
Proof.
  intros Hb. pose proof (byte_decide triplet_ok ltac:(vm_compute; reflexivity) b Hb) as H. unfold triplet_ok in H.
  destruct (to_ascii_uppercase <$> _) as [|h1 [|h2 [|]]]; try done. exists h1, h2.
  rewrite !andb_true_iff in H. destruct H as ((((? & ?) & ?%Z.eqb_eq) & ?) & Hd).
  destruct (decode_base16 [h1; h2]) as [[|d [|]]|]; try done. apply Z.eqb_eq in Hd. by subst.
Qed.

Lemma decode_lenient_encode s bytes :
  contains s percent = true → bytes_ok bytes → decode_lenient (percent_encode bytes s) = bytes.
Proof.
  intros Hs. induction 1 as [|b bytes Hb _ IH]; [done|]. unfold percent_encode in *. cbn [mbind list_bind]. unfold encode_one at 1.
  destruct ((128 <=? b) || contains s b) eqn:E.
  - destruct (triplet b Hb) as (h1 & h2 & -> & [H1 H2] & Hv & _). cbn [app decode_lenient]. rewrite Z.eqb_refl, H1, H2. cbn. by rewrite Hv, IH.
  - apply orb_false_iff in E as [_ E]. assert (b ≠ percent) as Hn by (intros ->; congruence).
    cbn [app decode_lenient]. rewrite (proj2 (Z.eqb_neq _ _) Hn). cbn. by rewrite IH.
Qed.

Lemma percent_decode_encode s bytes :
  contains s percent = true → bytes_ok bytes → percent_decode (percent_encode bytes s) = Ret (Ok bytes).
Proof.
  intros Hs. induction 1 as [|b bytes Hb _ IH]; [done|]. unfold percent_encode in *. cbn [mbind list_bind]. unfold encode_one at 1.
  destruct ((128 <=? b) || contains s b) eqn:E.
  - destruct (triplet b Hb) as (h1 & h2 & -> & _ & _ & Hu & Hd). cbn [app percent_decode]. rewrite Z.eqb_refl, Hu, Hd. cbn. by rewrite IH.
  - apply orb_false_iff in E as [_ E]. assert (b ≠ percent) as Hn by (intros ->; congruence).
    cbn [app percent_decode]. rewrite (proj2 (Z.eqb_neq _ _) Hn). cbn. by rewrite IH.
Qed.

(** Two bytes that base16 accepts are one byte. *)
Lemma decode_base16_pair h1 h2 l : decode_base16 [h1; h2] = Ok l → length l = 1%nat.
Proof.
  unfold decode_base16, BaseN.decode. assert (validate BASE16_LOWER = Ok tt) as -> by (vm_compute; reflexivity).
  cbn [result_bind]. generalize (decode_lut BASE16_LOWER). intros lut.
  unfold decode_bytes, decode_byte. cbn [padding BASE16_LOWER decode_start saw_padding d_acc d_bits symbol_bits symbols d_out].
  destruct (h1 =? equals_sign); [done|]. destruct (_ =? 255); [done|]. cbn [result_bind]. cbn.
  destruct (h2 =? equals_sign); [done|]. destruct (_ =? 255); [done|]. cbn. by intros [= <-].
Qed.

Lemma percent_decode_no_panic bytes : percent_decode bytes ≠ Panic.
Proof.
  remember (length bytes) as n eqn:En. revert bytes En. induction (lt_wf n) as [n _ IH]. intros bytes ->.
  destruct bytes as [|b rest]; [done|]. cbn [percent_decode]. destruct (negb _).
  - pose proof (IH (length rest) ltac:(cbn; lia) rest eq_refl) as Hr. by destruct (percent_decode rest) as [[|]|].
  - destruct rest as [|h1 [|h2 rest]]; [done..|]. destruct (negb _); [done|].
    destruct (decode_base16 [h1; h2]) as [l|] eqn:E; [|done]. apply decode_base16_pair in E. destruct l as [|d l]; [done|].
    pose proof (IH (length rest) ltac:(cbn; lia) rest eq_refl) as Hr. by destruct (percent_decode rest) as [[|]|].
Qed.

(** *** Forms *)

(** Bytes of serialised text: ASCII, and neither [&] nor [=] nor a space. *)
Definition form_text (b : Z) : Prop := 0 ≤ b < 128 ∧ b ≠ 38 ∧ b ≠ 61 ∧ b ≠ 32.

Definition encoded_ok (b : Z) : bool :=
  forallb (λ c, (0 <=? c) && (c <? 128) && negb (c =? 38) && negb (c =? 61) && negb (c =? 43)) (encode_one FORM_SET b).

Lemma percent_form_bytes bytes :
  bytes_ok bytes → Forall (λ c, 0 ≤ c < 128 ∧ c ≠ 38 ∧ c ≠ 61 ∧ c ≠ 43) (percent_encode bytes FORM_SET).
Proof.
  induction 1 as [|b bytes Hb _ IH]; [constructor|]. unfold percent_encode in *. cbn [mbind list_bind]. apply Forall_app. split; [|done].
  pose proof (byte_decide encoded_ok ltac:(vm_compute; reflexivity) b Hb) as H. unfold encoded_ok in H.
  apply Forall_forall. intros c Hc%list_elem_of_In. rewrite forallb_forall in H. specialize (H c Hc).
  rewrite !andb_true_iff, !negb_true_iff, !Z.eqb_neq in H. lia.
Qed.

Lemma serialize_string_text bytes : bytes_ok bytes → Forall form_text (serialize_string bytes).
Proof.
  intros Hb. unfold serialize_string. apply Forall_fmap. eapply Forall_impl; [by apply percent_form_bytes|].
  intros c Hc. cbv beta in Hc. unfold form_text, compose. destruct (Z.eqb_spec c 32); [repeat split; done | lia].
Qed.

Lemma lossy_bytes_valid l : bytes_ok l → utf8 (byte <$> l) → lossy_bytes l = l.
Proof.
  intros Hl Hu. unfold lossy_bytes. rewrite from_utf8_lossy_valid by done. rewrite <-list_fmap_compose.
  rewrite <-(list_fmap_id l) at 2. apply list_fmap_ext. intros i b Hb. cbn. apply code_byte. exact (Forall_lookup_1 _ _ _ _ Hl Hb).
Qed.

Lemma plain_ascii_utf8 l : Forall (λ b, 0 ≤ b < 128) l → utf8 (byte <$> l).
Proof.
  induction 1 as [|b l Hb _ IH]; [constructor|]. rewrite fmap_cons. apply utf8_ascii; [|done].
  unfold is_ascii. rewrite code_byte by lia. lia.
Qed.

(** Plus signs stand for the spaces again. *)
Lemma plus_space_undone s :
  bytes_ok s → (λ b, if b =? 43 then 32 else b) <$> serialize_string s = percent_encode s FORM_SET.
Proof.
  intros Hs. unfold serialize_string. pose proof (percent_form_bytes s Hs) as Hp.
  induction Hp as [|c l Hc _ IH]; [done|]. rewrite !fmap_cons, IH. f_equal. destruct (Z.eqb_spec c 32) as [->|]; [done|].
  destruct (Z.eqb_spec c 43); [lia|done].
Qed.

(** A component is decoded to what was serialised. *)
Lemma decode_serialize_string s : bytes_ok s → utf8 (byte <$> s) → decode_component (serialize_string s) = s.
Proof.
  intros Hs Hu. pose proof (serialize_string_text s Hs) as Ht. unfold decode_component. rewrite (lossy_bytes_valid (serialize_string s)).
  - rewrite (plus_space_undone s Hs).
    rewrite decode_lenient_encode by done. by apply lossy_bytes_valid.
  - eapply Forall_impl; [exact Ht|]. unfold form_text, is_u8. lia.
  - apply plain_ascii_utf8. eapply Forall_impl; [exact Ht|]. unfold form_text. lia.
Qed.

Definition pair_text (p : list Z * list Z) : list Z := serialize_string p.1 ++ [61] ++ serialize_string p.2.

Lemma split_on_app c w l : Forall (λ b, b ≠ c) w → split_on c (w ++ c :: l) = w :: split_on c l.
Proof.
  induction 1 as [|b w Hb _ IH]; cbn [app split_on]; [by rewrite Z.eqb_refl|]. by rewrite (proj2 (Z.eqb_neq _ _) Hb), IH.
Qed.

Lemma split_on_single c w : Forall (λ b, b ≠ c) w → split_on c w = [w].
Proof. induction 1 as [|b w Hb _ IH]; cbn [split_on]; [done|]. by rewrite (proj2 (Z.eqb_neq _ _) Hb), IH. Qed.

Lemma split_pair_text n v : Forall (λ b, b ≠ 61) n → split_pair (n ++ [61] ++ v) = (n, v).
Proof. induction 1 as [|b n Hb _ IH]; cbn [app split_pair]; [done|]. rewrite (proj2 (Z.eqb_neq _ _) Hb). cbn in IH. by rewrite IH. Qed.

Lemma pair_text_sep p : bytes_ok p.1 → bytes_ok p.2 → Forall (λ b, b ≠ 38) (pair_text p).
Proof.
  intros H1 H2. unfold pair_text. apply Forall_app. split; [eapply Forall_impl; [by apply serialize_string_text|]; unfold form_text; lia|].
  constructor; [lia|]. eapply Forall_impl; [by apply serialize_string_text|]. unfold form_text. lia.
Qed.

(** The pieces between the separators are the pairs. *)
Lemma split_serialize pairs out :
  Forall (λ p, bytes_ok p.1 ∧ bytes_ok p.2) pairs → out ≠ [] → Forall (λ b, b ≠ 38) out →
  split_on 38 (foldl serialize_pair out pairs) = out :: (pair_text <$> pairs).
Proof.
  intros Hp. revert out. assert (∀ pairs out, out ≠ [] → foldl serialize_pair out pairs = out ++ (pairs ≫= λ p, 38 :: pair_text p)) as Hf.
  { clear. induction pairs as [|p pairs IH]; intros out Ho; cbn [foldl]; [by rewrite app_nil_r|]. unfold serialize_pair at 2.
    rewrite bool_decide_false by done. rewrite IH by (destruct out; done). cbn [mbind list_bind]. unfold pair_text. rewrite <- !(assoc_L (++)). cbn [app]. by rewrite <- !(assoc_L (++)). }
  induction Hp as [|p pairs [H1 H2] _ IH]; intros out Ho Hsep; [cbn; by apply split_on_single|].
  rewrite Hf by done. cbn [mbind list_bind app]. rewrite split_on_app by done. f_equal. rewrite fmap_cons.
  assert (pair_text p ≠ []) as Hne by (unfold pair_text; by destruct (serialize_string p.1)).
  specialize (IH (pair_text p) Hne (pair_text_sep p H1 H2)). by rewrite Hf in IH by done.
Qed.

Definition text_ok (s : list Z) : Prop := bytes_ok s ∧ utf8 (byte <$> s).

Lemma form_parse_serialize pairs : Forall (λ p, text_ok p.1 ∧ text_ok p.2) pairs → form_parse (serialize pairs) = pairs.
Proof.
  intros Hp. unfold form_parse, serialize. destruct Hp as [|p pairs [Hn Hv] Hp]; [done|]. cbn [foldl].
  change (serialize_pair [] p) with (pair_text p).
  assert (∀ p : list Z * list Z, pair_text p ≠ []) as Hne by (intros q; unfold pair_text; by destruct (serialize_string q.1)).
  rewrite split_serialize; [|eapply Forall_impl; [exact Hp|]; unfold text_ok; naive_solver|done|apply pair_text_sep; [apply Hn|apply Hv]].
  rewrite <-fmap_cons. assert (filter (λ s, s ≠ []) (pair_text <$> p :: pairs) = pair_text <$> p :: pairs) as ->.
  { generalize (p :: pairs). intros l. induction l as [|q l IH]; [done|]. rewrite fmap_cons, filter_cons_True by done. by rewrite IH. }
  rewrite <-list_fmap_compose. assert (Forall (λ p, text_ok p.1 ∧ text_ok p.2) (p :: pairs)) as Hall by by constructor.
  rewrite <-(list_fmap_id (p :: pairs)) at 2. apply list_fmap_ext. intros i q Hq. eapply Forall_lookup_1 in Hall as [[Hb1 Hu1] [Hb2 Hu2]]; [|exact Hq].
  cbn. unfold pair_text. rewrite split_pair_text.
  - rewrite !decode_serialize_string by done. by destruct q.
  - eapply Forall_impl; [by apply serialize_string_text|]. unfold form_text. lia.
Qed.

(** ** Properties *)

(** Percent-encoding with any set that contains the percent sign is
    undone by the strict and the lenient decoder, the strict decoder never panics on any
    bytes, and form data of any UTF-8 names and values, empty ones, separators and
    duplicates included, parses back to the pairs in order. *)
Lemma form_roundtrip (s : EncodeSet) (bytes : list Z) (pairs : list (list Z * list Z)) :
  contains s percent = true → bytes_ok bytes → Forall (λ p, text_ok p.1 ∧ text_ok p.2) pairs →
  percent_decode (percent_encode bytes s) = Ret (Ok bytes) ∧ decode_lenient (percent_encode bytes s) = bytes ∧
  (∀ input, percent_decode input ≠ Panic) ∧ form_parse (serialize pairs) = pairs.
Proof.
  intros Hs Hb Hp. split_and!; [by apply percent_decode_encode|by apply decode_lenient_encode|apply percent_decode_no_panic|by apply form_parse_serialize].
Qed.

