(* ===== verification/Calendar.v ===== *)
(** * Arithmetic calendars (rusty-js-temporal-calendar/src/lib.rs)

    Day numbers ([RataDie]), the Julian family (Julian, Gregorian, Buddhist, Coptic,
    Ethiopic and Minguo calendars) and the tabular Islamic calendars, with their
    conversions between day numbers and years, months and days.  The theorems are proved
    once, against the interface [DayScheme], and the calendars are its instances. *)

From stdpp Require Import prelude.
From Stdlib Require Import Lia.
From S2P Require Import Prelude Bytes Bits.

Open Scope cruft_scope.
Open Scope Z_scope.

(** ** Definitions *)

(** [RataDie] is its day number. *)
Notation RataDie := Z (only parsing).

Definition RataDie_add (rd : RataDie) (days : Z) : RataDie := i64 (rd + days).
Definition RataDie_since (rd other : RataDie) : Z := i64 (rd - other).
Definition RataDie_until (rd other : RataDie) : Z := i64 (other - rd).

Inductive LeapRule :=
  | LeapJulian
  | LeapGregorian
  | GregorianYearOffset (offset : Z)
  | LeapCoptic.

Inductive MonthLengths := MonthsGregorian | CopticEpagomenal.

Record JulianFamily := {
  epoch_offset : Z;
  century_correction : bool;
  leap_rule : LeapRule;
  month_lengths : MonthLengths }.

Definition JULIAN := {| epoch_offset := -2; century_correction := false; leap_rule := LeapJulian; month_lengths := MonthsGregorian |}.
Definition GREGORIAN := {| epoch_offset := 0; century_correction := true; leap_rule := LeapGregorian; month_lengths := MonthsGregorian |}.
Definition BUDDHIST := {| epoch_offset := 0; century_correction := true; leap_rule := GregorianYearOffset (-543); month_lengths := MonthsGregorian |}.
Definition COPTIC := {| epoch_offset := 103604; century_correction := false; leap_rule := LeapCoptic; month_lengths := CopticEpagomenal |}.
Definition ETHIOPIC := {| epoch_offset := 2795; century_correction := false; leap_rule := LeapCoptic; month_lengths := CopticEpagomenal |}.
Definition ROC := {| epoch_offset := 0; century_correction := true; leap_rule := GregorianYearOffset 1911; month_lengths := MonthsGregorian |}.

Definition epoch (f : JulianFamily) : Z := i64 (epoch_offset f + 1).

Definition is_gregorian_leap_year (year : Z) : bool :=
  (year `mod` 4 =? 0) && (negb (year `mod` 100 =? 0) || (year `mod` 400 =? 0)).

Definition is_leap_year (f : JulianFamily) (year : Z) : bool :=
  match leap_rule f with
  | LeapJulian => year `mod` 4 =? 0
  | LeapGregorian => is_gregorian_leap_year year
  | GregorianYearOffset offset => is_gregorian_leap_year (i64 (year + offset))
  | LeapCoptic => year `mod` 4 =? 3
  end.

(** The [Gregorian] arm of [leap_accumulator], and [GREGORIAN.day_before_year] with it. *)
Definition gregorian_accumulator (year : Z) : Z :=
  let ym1 := i64 (year - 1) in i64 (ym1 / 4 - ym1 / 100 + ym1 / 400).

Definition day_before_gregorian_year (year : Z) : Z := i64 (365 * (year - 1) + gregorian_accumulator year).

Definition leap_accumulator (f : JulianFamily) (year : Z) : Z :=
  let ym1 := i64 (year - 1) in
  match leap_rule f with
  | LeapJulian => ym1 / 4
  | LeapGregorian => gregorian_accumulator year
  | GregorianYearOffset offset =>
      i64 (day_before_gregorian_year (i64 (year + offset)) - day_before_gregorian_year (i64 (1 + offset)) - 365 * ym1)
  | LeapCoptic => year / 4
  end.

Definition day_before_year (f : JulianFamily) (year : Z) : Z := i64 (365 * (year - 1) + leap_accumulator f year).

Definition days_before_month (f : JulianFamily) (year month : Z) : outcome Z :=
  match month_lengths f with
  | MonthsGregorian =>
      if month =? 1 then Ret 0
      else if month =? 2 then Ret 31
      else
        let leap := if is_leap_year f year then 1 else 0 in
        Ret (i64 (31 + 28 + leap + Z.shiftr (i64 (979 * month - 2919)) 5))
  | CopticEpagomenal => if (1 <=? month) && (month <=? 13) then Ret (i64 ((month - 1) * 30)) else Panic
  end.

(** [fixed_from] past the test for a year offset. *)
Definition fixed_from_own (f : JulianFamily) (year month day : Z) : outcome RataDie :=
  b <-! days_before_month f year month;
  Ret (i64 (epoch_offset f + day_before_year f year + b + day)).

Definition fixed_from (f : JulianFamily) (year month day : Z) : outcome RataDie :=
  match leap_rule f with
  | GregorianYearOffset offset => fixed_from_own GREGORIAN (i64 (year + offset)) month day
  | _ => fixed_from_own f year month day
  end.

(** The [Gregorian] and the [Julian] arm of [year_from_fixed]. *)
Definition gregorian_year (d0 : Z) : Z :=
  let n400 := d0 / 146097 in
  let d1 := d0 `mod` 146097 in
  let n100 := d1 / 36524 in
  let d2 := d1 `mod` 36524 in
  let n4 := d2 / 1461 in
  let d3 := d2 `mod` 1461 in
  let n1 := d3 / 365 in
  let year := i64 (400 * n400 + 100 * n100 + 4 * n4 + n1) in
  if (n100 =? 4) || (n1 =? 4) then year else i64 (year + 1).

Definition julian_year (d0 : Z) : Z :=
  let n4 := d0 / 1461 in
  let d1 := d0 `mod` 1461 in
  let n1 := d1 / 365 in
  let year := i64 (4 * n4 + n1) in
  if n1 =? 4 then year else i64 (year + 1).

(** The search of the other rules.  [while fixed_from(hi, 1, 1) <= rd { hi += span; span
    *= 2 }], the same downwards for [lo], and a bisection.  The spans double and the
    interval halves, so 64 turns are enough; a search that needs more answers [Panic],
    which [search_year_spec] excludes. *)
Fixpoint raise_hi (fuel : nat) (f : JulianFamily) (rd hi span : Z) : outcome Z :=
  match fuel with
  | O => Panic
  | S fuel' =>
      d <-! fixed_from f hi 1 1;
      if d <=? rd then raise_hi fuel' f rd (i64 (hi + span)) (i64 (span * 2)) else Ret hi
  end.

Fixpoint lower_lo (fuel : nat) (f : JulianFamily) (rd lo span : Z) : outcome Z :=
  match fuel with
  | O => Panic
  | S fuel' =>
      d <-! fixed_from f lo 1 1;
      if rd <? d then lower_lo fuel' f rd (i64 (lo - span)) (i64 (span * 2)) else Ret lo
  end.

Fixpoint bisect (fuel : nat) (f : JulianFamily) (rd lo hi : Z) : outcome Z :=
  match fuel with
  | O => Panic
  | S fuel' =>
      if i64 (lo + 1) <? hi then
        let mid := i64 (lo + i64 (hi - lo) / 2) in
        d <-! fixed_from f mid 1 1;
        if d <=? rd then bisect fuel' f rd mid hi else bisect fuel' f rd lo mid
      else Ret lo
  end.

Definition search_year (f : JulianFamily) (rd d0 : Z) : outcome Z :=
  let estimate := i64 (d0 / 365 + 1) in
  hi <-! raise_hi 64 f rd (i64 (estimate + 4)) 8;
  lo <-! lower_lo 64 f rd (i64 (estimate - 4)) 8;
  bisect 64 f rd lo hi.

Definition year_from_fixed (f : JulianFamily) (rd : RataDie) : outcome Z :=
  let d0 := i64 (rd - epoch f) in
  match leap_rule f with
  | GregorianYearOffset offset => Ret (i64 (gregorian_year (i64 (rd - epoch GREGORIAN)) - offset))
  | LeapGregorian => Ret (gregorian_year d0)
  | LeapJulian => Ret (julian_year d0)
  | LeapCoptic => search_year f rd d0
  end.

Definition month_from_day_of_year (f : JulianFamily) (year day_of_year : Z) : outcome Z :=
  match month_lengths f with
  | MonthsGregorian =>
      b <-! days_before_month f year 3;
      let correction := if day_of_year <? b then 0 else if is_leap_year f year then 1 else 2 in
      Ret (Z.quot (i64 (12 * (day_of_year + correction) + 373)) 367)
  | CopticEpagomenal => Ret (Z.min (i64 (day_of_year / 30 + 1)) 13)
  end.

(** [ymd_from_fixed] past the test for a year offset. *)
Definition ymd_from_own (f : JulianFamily) (rd : RataDie) : outcome (Z * Z * Z) :=
  year <-! year_from_fixed f rd;
  start <-! fixed_from f year 1 1;
  let day_of_year := i64 (rd - start) in
  month <-! month_from_day_of_year f year day_of_year;
  b <-! days_before_month f year month;
  Ret (year, month, i64 (day_of_year - b + 1)).

Definition ymd_from_fixed (f : JulianFamily) (rd : RataDie) : outcome (Z * Z * Z) :=
  match leap_rule f with
  | GregorianYearOffset offset =>
      r <-! ymd_from_own GREGORIAN rd; let '(year, month, day) := r in Ret (i64 (year - offset), month, day)
  | _ => ymd_from_own f rd
  end.

Definition days_in_year (f : JulianFamily) (year : Z) : Z := if is_leap_year f year then 366 else 365.

Definition days_in_month (f : JulianFamily) (year month : Z) : outcome Z :=
  match month_lengths f with
  | MonthsGregorian =>
      next <-! fixed_from f year month 1;
      after <-! (if month =? 12 then fixed_from f (i64 (year + 1)) 1 1 else fixed_from f year (i64 (month + 1)) 1);
      Ret (i64 (after - next))
  | CopticEpagomenal => Ret (if month =? 13 then if is_leap_year f year then 6 else 5 else 30)
  end.

(** *** Tabular Islamic calendars *)

Record TabularIslamic := { epoch_rd : Z }.

Definition ISLAMIC_CIVIL := {| epoch_rd := 227015 |}.
Definition ISLAMIC_TBLA := {| epoch_rd := 227014 |}.
Definition ISLAMIC_MEAN_YEAR_X30 : Z := 354 * 30 + 11.

Definition islamic_fixed_from (t : TabularIslamic) (year month day : Z) : RataDie :=
  i64 (epoch_rd t - 1 + (year - 1) * 354 + i64 (3 + year * 11) / 30 + 29 * (month - 1) + month / 2 + day).

Definition islamic_year_from_fixed (t : TabularIslamic) (rd : RataDie) : Z :=
  i64 (30 * (rd - epoch_rd t) + 10646) / ISLAMIC_MEAN_YEAR_X30.

Definition islamic_ymd_from_fixed (t : TabularIslamic) (rd : RataDie) : Z * Z * Z :=
  let year := islamic_year_from_fixed t rd in
  let prior_days := i64 (rd - islamic_fixed_from t year 1 1) in
  let month := Z.quot (i64 (prior_days * 11 + 330)) 325 in
  (year, month, i64 (rd - islamic_fixed_from t year month 1 + 1)).

Definition islamic_year_length (t : TabularIslamic) (year : Z) : Z :=
  i64 (islamic_fixed_from t (i64 (year + 1)) 1 1 - islamic_fixed_from t year 1 1).

Definition islamic_is_leap_year (t : TabularIslamic) (year : Z) : bool := islamic_year_length t year =? 355.

Definition islamic_days_in_month (t : TabularIslamic) (year month : Z) : Z :=
  if Z.rem month 2 =? 1 then 30
  else if (month =? 12) && islamic_is_leap_year t year then 30
  else 29.

(** ** Calendars as day schemes *)

(** What a calendar promises: its years follow one another without a gap, each cut into
    months of at least one day.  [year_start] counts the days before a year,
    [month_start] those of the year before a month. *)
Class DayScheme {C : Type} (c : C) := {
  months : Z;
  year_start : Z → Z;
  month_start : Z → Z → Z;
  months_pos : 1 ≤ months;
  first_month y : month_start y 1 = 0;
  month_grows y m : 1 ≤ m ≤ months → month_start y m < month_start y (m + 1);
  next_year y : year_start (y + 1) = year_start y + month_start y (months + 1) }.

Arguments months {C} c {_}.
Arguments year_start {C} c {_} _.
Arguments month_start {C} c {_} _ _.

Section scheme.
Context {C : Type} (c : C) `{!DayScheme c}.

Definition valid_day (p : Z * Z * Z) : Prop :=
  let '(y, m, d) := p in 1 ≤ m ≤ months c ∧ 1 ≤ d ≤ month_start c y (m + 1) - month_start c y m.

Definition day_number (p : Z * Z * Z) : Z := let '(y, m, d) := p in year_start c y + month_start c y m + d.

(** The order of dates, by year, month and day. *)
Definition ymd_lt (p q : Z * Z * Z) : Prop :=
  let '(y, m, d) := p in let '(y', m', d') := q in
  y < y' ∨ y = y' ∧ (m < m' ∨ m = m' ∧ d < d').

Lemma month_start_le y m m' : 1 ≤ m → m ≤ m' ≤ months c + 1 → month_start c y m ≤ month_start c y m'.
Proof.
  intros Hm [Hle Hm']. revert Hm'. pattern m'. apply (Zlt_lower_bound_ind _ m); [|lia]. clear m' Hle.
  intros m' IH Hle Hm'. destruct (decide (m' = m)) as [->|]; [done|].
  specialize (IH (m' - 1) ltac:(lia) ltac:(lia)). assert (1 ≤ m' - 1 ≤ months c) as Hr by lia.
  pose proof (month_grows (c := c) y (m' - 1) Hr).
  replace (m' - 1 + 1) with m' in * by lia. lia.
Qed.

Lemma year_start_le y y' : y < y' → year_start c y + month_start c y (months c + 1) ≤ year_start c y'.
Proof.
  intros Hlt. rewrite <- (next_year (c := c)). assert (y + 1 ≤ y') as Hle by lia. revert Hle. generalize (y + 1). clear y Hlt.
  intros y Hle. pattern y'. apply (Zlt_lower_bound_ind _ y); [|lia]. clear y' Hle. intros y' IH Hle.
  destruct (decide (y' = y)) as [->|]; [done|]. specialize (IH (y' - 1) ltac:(lia)).
  pose proof (next_year (c := c) (y' - 1)) as Hn. replace (y' - 1 + 1) with y' in Hn by lia.
  pose proof (months_pos (c := c)). pose proof (month_start_le (y' - 1) 1 (months c + 1)). rewrite (first_month (c := c)) in *. lia.
Qed.

Lemma day_number_lt p q : valid_day p → valid_day q → ymd_lt p q → day_number p < day_number q.
Proof.
  destruct p as [[y m] d], q as [[y' m'] d']. intros [Hm Hd] [Hm' Hd'] Hlt. cbn in *.
  pose proof (month_start_le y (m + 1) (months c + 1)). pose proof (month_start_le y' 1 m'). rewrite (first_month (c := c)) in *.
  destruct Hlt as [Hy|[-> [Hlt|[-> Hlt]]]]; [|pose proof (month_start_le y' (m + 1) m')|]; [pose proof (year_start_le y y' Hy)|..]; lia.
Qed.

Lemma ymd_trichotomy p q : ymd_lt p q ∨ p = q ∨ ymd_lt q p.
Proof.
  destruct p as [[y m] d], q as [[y' m'] d']. cbn.
  destruct (Z.lt_trichotomy y y') as [?|[->|?]]; [lia| |lia].
  destruct (Z.lt_trichotomy m m') as [?|[->|?]]; [lia| |lia].
  destruct (Z.lt_trichotomy d d') as [?|[->|?]]; [lia|auto|lia].
Qed.

(** Dates are compared as their day numbers are. *)
Lemma day_number_iff p q : valid_day p → valid_day q → ymd_lt p q ↔ day_number p < day_number q.
Proof.
  intros Hp Hq. split; [by apply day_number_lt|]. intros Hlt. destruct (ymd_trichotomy p q) as [?|[->|Hgt]]; [done|lia|].
  apply day_number_lt in Hgt; [lia|done..].
Qed.

Lemma day_number_inj p q : valid_day p → valid_day q → day_number p = day_number q → p = q.
Proof.
  intros Hp Hq Heq. destruct (ymd_trichotomy p q) as [Hlt|[?|Hlt]]; [|done|]; apply day_number_lt in Hlt; auto; lia.
Qed.
End scheme.

(** The Gregorian and Julian months; month 13 is the end of the year. *)
Definition month_cut (leap : bool) (m : Z) : Z :=
  if m =? 1 then 0 else if m =? 2 then 31 else 59 + (if leap then 1 else 0) + (979 * m - 2919) / 32.

Lemma month_cut_grows leap m : 1 ≤ m ≤ 12 → month_cut leap m < month_cut leap (m + 1).
Proof.
  intros Hm. assert (m = 1 ∨ m = 2 ∨ m = 3 ∨ m = 4 ∨ m = 5 ∨ m = 6 ∨ m = 7 ∨ m = 8 ∨ m = 9 ∨ m = 10 ∨ m = 11 ∨ m = 12)
    as Hc by lia. by destruct leap; repeat destruct Hc as [->|Hc]; subst.
Qed.

Definition gregorian_start (y : Z) : Z := 365 * (y - 1) + (y - 1) / 4 - (y - 1) / 100 + (y - 1) / 400.

Lemma gregorian_next y : gregorian_start (y + 1) = gregorian_start y + month_cut (is_gregorian_leap_year y) 13.
Proof.
  unfold gregorian_start, is_gregorian_leap_year. replace (y + 1 - 1) with y by lia.
  destruct (Z.eqb_spec (y `mod` 4) 0), (Z.eqb_spec (y `mod` 100) 0), (Z.eqb_spec (y `mod` 400) 0);
    cbn [negb andb orb]; unfold month_cut; cbn; Z.to_euclidean_division_equations; lia.
Qed.

Definition julian_start (y : Z) : Z := 365 * (y - 1) + (y - 1) / 4.

Lemma julian_next y : julian_start (y + 1) = julian_start y + month_cut (y `mod` 4 =? 0) 13.
Proof.
  unfold julian_start. destruct (Z.eqb_spec (y `mod` 4) 0); unfold month_cut; cbn; Z.to_euclidean_division_equations; lia.
Qed.

(** Twelve months of thirty days and a short thirteenth. *)
Definition coptic_start (y : Z) : Z := 365 * (y - 1) + y / 4.

Definition coptic_cut (y m : Z) : Z := if m <=? 13 then (m - 1) * 30 else 365 + (if y `mod` 4 =? 3 then 1 else 0).

Lemma coptic_next y : coptic_start (y + 1) = coptic_start y + coptic_cut y 14.
Proof.
  unfold coptic_start, coptic_cut. cbn. destruct (Z.eqb_spec (y `mod` 4) 3); Z.to_euclidean_division_equations; lia.
Qed.

Lemma coptic_cut_grows y m : 1 ≤ m ≤ 13 → coptic_cut y m < coptic_cut y (m + 1).
Proof.
  intros Hm. unfold coptic_cut. destruct (Z.leb_spec m 13), (Z.leb_spec (m + 1) 13); [lia| |lia..].
  destruct (y `mod` 4 =? 3); lia.
Qed.

Definition islamic_start (y : Z) : Z := (y - 1) * 354 + (3 + y * 11) / 30.

Definition islamic_cut (y m : Z) : Z :=
  if m <=? 12 then 29 * (m - 1) + m / 2 else islamic_start (y + 1) - islamic_start y.

Lemma islamic_cut_grows y m : 1 ≤ m ≤ 12 → islamic_cut y m < islamic_cut y (m + 1).
Proof.
  intros Hm. unfold islamic_cut, islamic_start. destruct (Z.leb_spec m 12), (Z.leb_spec (m + 1) 12); [|  |lia..];
    Z.to_euclidean_division_equations; lia.
Qed.

#[refine, export] Instance gregorian_scheme : DayScheme GREGORIAN :=
  {| months := 12; year_start := gregorian_start; month_start y := month_cut (is_gregorian_leap_year y) |}.
Proof.
  - done.
  - done.
  - intros y. apply month_cut_grows.
  - apply gregorian_next.
Defined.

#[refine, export] Instance julian_scheme : DayScheme JULIAN :=
  {| months := 12; year_start y := julian_start y - 2; month_start y := month_cut (y `mod` 4 =? 0) |}.
Proof.
  - done.
  - done.
  - intros y. apply month_cut_grows.
  - intros y. change (12 + 1) with 13. rewrite julian_next. lia.
Defined.

(** The calendars that number the Gregorian years from elsewhere. *)
Definition gregorian_from (offset : Z) : JulianFamily :=
  {| epoch_offset := 0; century_correction := true; leap_rule := GregorianYearOffset offset; month_lengths := MonthsGregorian |}.

#[refine, export] Instance offset_scheme (offset : Z) : DayScheme (gregorian_from offset) :=
  {| months := 12; year_start y := gregorian_start (y + offset);
     month_start y := month_cut (is_gregorian_leap_year (y + offset)) |}.
Proof.
  - done.
  - done.
  - intros y. apply month_cut_grows.
  - intros y. rewrite <- gregorian_next. f_equal. lia.
Defined.

(** The Coptic and the Ethiopic calendar. *)
Definition coptic_from (offset : Z) : JulianFamily :=
  {| epoch_offset := offset; century_correction := false; leap_rule := LeapCoptic; month_lengths := CopticEpagomenal |}.

#[refine, export] Instance coptic_scheme (offset : Z) : DayScheme (coptic_from offset) :=
  {| months := 13; year_start y := coptic_start y + offset; month_start := coptic_cut |}.
Proof.
  - done.
  - done.
  - apply coptic_cut_grows.
  - intros y. change (13 + 1) with 14. rewrite coptic_next. lia.
Defined.

#[refine, export] Instance islamic_scheme (t : TabularIslamic) : DayScheme t :=
  {| months := 12; year_start y := islamic_start y + epoch_rd t - 1; month_start := islamic_cut |}.
Proof.
  - done.
  - done.
  - apply islamic_cut_grows.
  - intros y. change (islamic_cut y (12 + 1)) with (islamic_start (y + 1) - islamic_start y). lia.
Defined.
