(* ===== verification/CalendarTheory.v ===== *)
(** * The calendars convert between day numbers and dates

    Each calendar of [Calendar] implements its day scheme: the year and the month that are
    computed hold the day, and the two conversions are inverse to one another. *)

From stdpp Require Import prelude.
From Stdlib Require Import Lia.
From S2P Require Import Prelude Bytes Bits Calendar.

Open Scope cruft_scope.
Open Scope Z_scope.

(** The years and days the theorems speak of, far beyond what Temporal admits and far
    within what [i64] holds. *)
Definition year_ok (y : Z) : Prop := -35184372088832 ≤ y ≤ 35184372088832.
Definition day_ok (rd : Z) : Prop := -1125899906842624 ≤ rd ≤ 1125899906842624.

(** ** Years *)

Lemma gregorian_accumulator_exact y :
  year_ok y → gregorian_accumulator y = (y - 1) / 4 - (y - 1) / 100 + (y - 1) / 400.
Proof. intros Hy. unfold year_ok in Hy. unfold gregorian_accumulator. no_wrap (y - 1). by rewrite i64_id by (unfold is_i64; dlia). Qed.

Lemma gregorian_day_before y : year_ok y → day_before_year GREGORIAN y = gregorian_start y.
Proof.
  intros Hy. unfold day_before_year, leap_accumulator, gregorian_start. cbn [leap_rule GREGORIAN].
  rewrite gregorian_accumulator_exact by done. unfold year_ok in Hy. rewrite i64_id; [lia|unfold is_i64; dlia].
Qed.

Lemma gregorian_start_bound y : year_ok y → -20000000000000000 ≤ gregorian_start y ≤ 20000000000000000.
Proof. unfold year_ok, gregorian_start. intros Hy. dlia. Qed.

Lemma julian_day_before y : year_ok y → day_before_year JULIAN y = julian_start y.
Proof.
  intros Hy. unfold year_ok in Hy. unfold day_before_year, leap_accumulator, julian_start. cbn [leap_rule JULIAN].
  no_wrap (y - 1). rewrite i64_id; [lia|unfold is_i64; dlia].
Qed.

Lemma coptic_day_before offset y : year_ok y → day_before_year (coptic_from offset) y = coptic_start y.
Proof.
  intros Hy. unfold year_ok in Hy. unfold day_before_year, leap_accumulator, coptic_start. cbn [leap_rule coptic_from].
  rewrite i64_id; [lia|unfold is_i64; dlia].
Qed.

(** The year that is computed from a day holds it. *)
Lemma gregorian_year_holds rd :
  day_ok rd → gregorian_start (gregorian_year (i64 (rd - 1))) < rd ≤ gregorian_start (gregorian_year (i64 (rd - 1)) + 1).
Proof.
  intros Hrd. unfold day_ok in Hrd. no_wrap (rd - 1). rewrite gregorian_next. unfold gregorian_year.
  set (a := (rd - 1) / 146097). set (d1 := (rd - 1) `mod` 146097).
  set (b := d1 / 36524). set (d2 := d1 `mod` 36524). set (c := d2 / 1461). set (d3 := d2 `mod` 1461). set (e := d3 / 365).
  assert (rd - 1 = 146097 * a + 36524 * b + 1461 * c + d3 ∧ 0 ≤ b ≤ 4 ∧ 0 ≤ c ≤ 24 ∧ 365 * e ≤ d3 < 365 * e + 365 ∧ 0 ≤ e ≤ 4 ∧
          (b = 4 → c = 0 ∧ d3 = 0) ∧ (e = 4 → d3 = 1460 ∧ c ≤ 23)) as (Hd & Hb & Hc & He & He4 & Hb' & He').
  { subst a b c e d3 d2 d1. dlia. }
  clearbody a b c e d3 d2 d1.
  assert (-10000000000 ≤ a ≤ 10000000000) by lia. no_wrap (400 * a + 100 * b + 4 * c + e).
  destruct (Z.eqb_spec b 4) as [->|Hb4]; [|destruct (Z.eqb_spec e 4) as [->|He4']]; cbn [orb].
  - destruct Hb' as [-> ->]; [done|]. assert (e = 0) as -> by lia.
    assert (is_gregorian_leap_year (400 * a + 100 * 4 + 4 * 0 + 0) = true) as ->.
    { unfold is_gregorian_leap_year. apply andb_true_iff. rewrite orb_true_iff, !Z.eqb_eq. split; [|right]; dlia. }
    unfold gregorian_start, month_cut. cbn. dlia.
  - destruct He' as [-> Hc']; [done|].
    assert (is_gregorian_leap_year (400 * a + 100 * b + 4 * c + 4) = true) as ->.
    { unfold is_gregorian_leap_year. apply andb_true_iff. rewrite orb_true_iff, negb_true_iff, Z.eqb_neq, !Z.eqb_eq. split; [|left]; dlia. }
    unfold gregorian_start, month_cut. cbn. dlia.
  - no_wrap (400 * a + 100 * b + 4 * c + e + 1).
    assert (365 ≤ month_cut (is_gregorian_leap_year (400 * a + 100 * b + 4 * c + e + 1)) 13)
      by (destruct (is_gregorian_leap_year _); by vm_compute).
    assert (gregorian_start (400 * a + 100 * b + 4 * c + e + 1) = 146097 * a + 36524 * b + 1461 * c + 365 * e) as ->
      by (unfold gregorian_start; dlia). lia.
Qed.

Lemma julian_year_holds rd :
  day_ok rd → julian_start (julian_year (i64 (rd + 1))) - 2 < rd ≤ julian_start (julian_year (i64 (rd + 1)) + 1) - 2.
Proof.
  intros Hrd. unfold day_ok in Hrd. no_wrap (rd + 1). rewrite julian_next. unfold julian_year.
  set (a := (rd + 1) / 1461). set (d1 := (rd + 1) `mod` 1461). set (e := d1 / 365).
  assert (rd + 1 = 1461 * a + d1 ∧ 365 * e ≤ d1 < 365 * e + 365 ∧ 0 ≤ e ≤ 4 ∧ (e = 4 → d1 = 1460)) as (Hd & He & He4 & He')
    by (subst a e d1; dlia).
  clearbody a e d1. assert (-1000000000000 ≤ a ≤ 1000000000000) by lia. no_wrap (4 * a + e).
  destruct (Z.eqb_spec e 4) as [->|He4'].
  - rewrite (proj2 (Z.eqb_eq _ _)) by dlia. unfold julian_start, month_cut. cbn. dlia.
  - no_wrap (4 * a + e + 1).
    assert (365 ≤ month_cut ((4 * a + e + 1) `mod` 4 =? 0) 13) by (destruct ((4 * a + e + 1) `mod` 4 =? 0); by vm_compute).
    assert (julian_start (4 * a + e + 1) = 1461 * a + 365 * e) as -> by (unfold julian_start; dlia). lia.
Qed.

(** ** Months *)

Lemma month_cut_code (leap : bool) (m : Z) :
  1 ≤ m ≤ 13 →
  (if m =? 1 then 0 else if m =? 2 then 31 else i64 (31 + 28 + (if leap then 1 else 0) + Z.shiftr (i64 (979 * m - 2919)) 5)) =
  month_cut leap m.
Proof.
  intros Hm. unfold month_cut. destruct (m =? 1), (m =? 2); try done. no_wrap (979 * m - 2919).
  rewrite Z.shiftr_div_pow2 by done. change (2 ^ 5) with 32.
  rewrite i64_id; [destruct leap; lia|unfold is_i64; destruct leap; dlia].
Qed.

(** The months of every day of a common and of a leap year. *)
Definition month_of (leap : bool) (doy : Z) : Z :=
  let correction := if doy <? month_cut leap 3 then 0 else if leap then 1 else 2 in Z.quot (12 * (doy + correction) + 373) 367.

Definition month_of_ok (leap : bool) (doy : Z) : bool :=
  let m := month_of leap doy in (1 <=? m) && (m <=? 12) && (month_cut leap m <=? doy) && (doy <? month_cut leap (m + 1)).

Lemma month_of_holds leap doy :
  0 ≤ doy < month_cut leap 13 →
  1 ≤ month_of leap doy ≤ 12 ∧ month_cut leap (month_of leap doy) ≤ doy < month_cut leap (month_of leap doy + 1).
Proof.
  intros Hd. assert (month_of_ok leap doy = true) as Hok.
  { assert (∀ l, forallb (month_of_ok l) (Z.of_nat <$> seq 0 (Z.to_nat (month_cut l 13))) = true) as Hall
      by (intros []; vm_compute; reflexivity).
    specialize (Hall leap). rewrite forallb_forall in Hall. apply Hall, list_elem_of_In, list_elem_of_fmap.
    exists (Z.to_nat doy). split; [lia|]. apply elem_of_seq. lia. }
  unfold month_of_ok in Hok. rewrite !andb_true_iff, !Z.leb_le, Z.ltb_lt in Hok. lia.
Qed.

Lemma month_cut_bound leap m : 1 ≤ m ≤ 13 → 0 ≤ month_cut leap m ≤ 366.
Proof. intros Hm. unfold month_cut. destruct (Z.eqb_spec m 1), (Z.eqb_spec m 2), leap; dlia. Qed.

(** The families with the Gregorian months. *)
Lemma family_month_cut f y m :
  month_lengths f = MonthsGregorian → 1 ≤ m ≤ 13 → days_before_month f y m = Ret (month_cut (is_leap_year f y) m).
Proof.
  intros Hf Hm. unfold days_before_month. rewrite Hf, <- month_cut_code by done. by destruct (m =? 1), (m =? 2).
Qed.

Lemma family_month_of f y doy :
  month_lengths f = MonthsGregorian → 0 ≤ doy < 366 → month_from_day_of_year f y doy = Ret (month_of (is_leap_year f y) doy).
Proof.
  intros Hf Hd. unfold month_from_day_of_year. rewrite Hf, family_month_cut by (done || lia). cbn [outcome_bind]. unfold month_of.
  set (k := if _ <? _ then _ else _). assert (0 ≤ k ≤ 2) by (subst k; destruct (_ <? _), (is_leap_year f y); lia).
  by rewrite i64_id by (unfold is_i64; lia).
Qed.

(** From the year to the date: what is left once the year of a day is known. *)
Lemma ymd_from_own_spec f rd y s :
  month_lengths f = MonthsGregorian → day_ok rd → year_from_fixed f rd = Ret y → -20000000000000000 ≤ s ≤ 20000000000000000 →
  fixed_from f y 1 1 = Ret (s + 1) → s < rd ≤ s + month_cut (is_leap_year f y) 13 →
  ∃ m d, ymd_from_own f rd = Ret (y, m, d) ∧ 1 ≤ m ≤ 12 ∧
    1 ≤ d ≤ month_cut (is_leap_year f y) (m + 1) - month_cut (is_leap_year f y) m ∧
    s + month_cut (is_leap_year f y) m + d = rd.
Proof.
  intros Hf Hrd Hy Hs Hstart Hin. unfold day_ok in Hrd. unfold ymd_from_own. rewrite Hy. cbn [outcome_bind]. rewrite Hstart. cbn [outcome_bind].
  no_wrap (rd - (s + 1)). pose proof (month_cut_bound (is_leap_year f y) 13).
  assert (0 ≤ rd - (s + 1) < month_cut (is_leap_year f y) 13) as Hd by lia.
  destruct (month_of_holds _ _ Hd) as [Hm Hc]. rewrite family_month_of by (done || lia). cbn [outcome_bind].
  rewrite family_month_cut by (done || lia). cbn [outcome_bind].
  pose proof (month_cut_bound (is_leap_year f y) (month_of (is_leap_year f y) (rd - (s + 1)))).
  rewrite i64_id by (unfold is_i64; lia). eexists _, _. split; [reflexivity|]. lia.
Qed.

(** ** The search for a year *)

Section search.
Context (f : JulianFamily) (g : Z → Z) (rd : Z).
Hypothesis start_of : ∀ y, year_ok y → fixed_from f y 1 1 = Ret (g y).
Hypothesis start_lt : ∀ y y', y < y' → g y < g y'.

Lemma start_ge y y' : g y ≤ rd → rd < g y' → y < y'.
Proof. intros H1 H2. destruct (Z.lt_ge_cases y y') as [?|Hge]; [done|]. apply Zle_lt_or_eq in Hge as [Hge| ->]; [apply start_lt in Hge|]; lia. Qed.

(** The bound is found before [top], the spans doubling from eight. *)
Lemma raise_hi_spec fuel hi0 hi span top :
  -10000000000000 ≤ hi0 → span = hi - hi0 + 8 → hi0 ≤ hi ≤ 20000000000000 → top ≤ 4000000000000 →
  rd < g top → top ≤ hi + span * (2 ^ Z.of_nat fuel - 1) →
  ∃ hi', raise_hi (S fuel) f rd hi span = Ret hi' ∧ rd < g hi' ∧ hi0 ≤ hi' ≤ 20000000000000.
Proof.
  intros Hlo. revert hi span. induction fuel as [|fuel IH]; intros hi span Hspan Hhi Htop Hg Hfuel; cbn [raise_hi];
    rewrite start_of by (unfold year_ok; lia); cbn [outcome_bind]; (destruct (Z.leb_spec (g hi) rd) as [Hle|Hgt]; [|by exists hi]).
  - pose proof (start_ge _ _ Hle Hg). cbn in Hfuel. lia.
  - pose proof (start_ge _ _ Hle Hg). no_wrap (hi + span). no_wrap (span * 2).
    apply IH; [lia..|done|]. rewrite Nat2Z.inj_succ, Z.pow_succ_r in Hfuel by lia. lia.
Qed.

Lemma lower_lo_spec fuel lo0 lo span bottom :
  lo0 ≤ 10000000000000 → span = lo0 - lo + 8 → -20000000000000 ≤ lo ≤ lo0 → -4000000000000 ≤ bottom →
  g bottom ≤ rd → lo - span * (2 ^ Z.of_nat fuel - 1) ≤ bottom →
  ∃ lo', lower_lo (S fuel) f rd lo span = Ret lo' ∧ g lo' ≤ rd ∧ -20000000000000 ≤ lo' ≤ lo0.
Proof.
  intros Hhi. revert lo span. induction fuel as [|fuel IH]; intros lo span Hspan Hlo Hbot Hg Hfuel; cbn [lower_lo];
    rewrite start_of by (unfold year_ok; lia); cbn [outcome_bind]; (destruct (Z.ltb_spec rd (g lo)) as [Hlt|Hge]; [|by exists lo]).
  - pose proof (start_ge _ _ Hg Hlt). cbn in Hfuel. lia.
  - pose proof (start_ge _ _ Hg Hlt). no_wrap (lo - span). no_wrap (span * 2).
    apply IH; [lia..|done|]. rewrite Nat2Z.inj_succ, Z.pow_succ_r in Hfuel by lia. lia.
Qed.

Lemma bisect_step fuel lo hi :
  bisect (S fuel) f rd lo hi =
    if i64 (lo + 1) <? hi then
      d <-! fixed_from f (i64 (lo + i64 (hi - lo) / 2)) 1 1;
      if d <=? rd then bisect fuel f rd (i64 (lo + i64 (hi - lo) / 2)) hi else bisect fuel f rd lo (i64 (lo + i64 (hi - lo) / 2))
    else Ret lo.
Proof. reflexivity. Qed.

Lemma bisect_spec fuel lo hi :
  -20000000000000 ≤ lo → hi ≤ 20000000000000 → g lo ≤ rd < g hi → hi - lo ≤ 2 ^ Z.of_nat fuel →
  ∃ y, bisect (S fuel) f rd lo hi = Ret y ∧ g y ≤ rd < g (y + 1) ∧ lo ≤ y ≤ hi.
Proof.
  revert lo hi. induction fuel as [|fuel IH]; intros lo hi Hlo Hhi [Hl Hh] Hfuel; rewrite bisect_step;
    pose proof (start_ge _ _ Hl Hh); no_wrap (lo + 1); (destruct (Z.ltb_spec (lo + 1) hi) as [Hlt|Hge];
      [|exists lo; replace (lo + 1) with hi by lia; split_and!; (done || lia)]).
  - cbn in Hfuel. lia.
  - rewrite Nat2Z.inj_succ, Z.pow_succ_r in Hfuel by lia. no_wrap (hi - lo). no_wrap (lo + (hi - lo) / 2).
    rewrite start_of by (unfold year_ok; dlia). cbn [outcome_bind].
    destruct (Z.leb_spec (g (lo + (hi - lo) / 2)) rd) as [Hm|Hm].
    + destruct (IH (lo + (hi - lo) / 2) hi) as (y & E & Hy & Hb); [dlia|done|done|dlia|]. exists y. split; [exact E|]. split; [exact Hy|dlia].
    + destruct (IH lo (lo + (hi - lo) / 2)) as (y & E & Hy & Hb); [done|dlia|done|dlia|]. exists y. split; [exact E|]. split; [exact Hy|dlia].
Qed.

Lemma search_year_spec d0 top bottom :
  -2000000000000000 ≤ d0 ≤ 2000000000000000 → top ≤ 4000000000000 → -4000000000000 ≤ bottom →
  rd < g top → g bottom ≤ rd →
  ∃ y, search_year f rd d0 = Ret y ∧ g y ≤ rd < g (y + 1) ∧ -20000000000000 ≤ y ≤ 20000000000000.
Proof.
  intros Hd Ht Hb Hgt Hgb. unfold search_year. pose proof (start_ge _ _ Hgb Hgt). no_wrap (d0 / 365 + 1). no_wrap (d0 / 365 + 1 + 4). no_wrap (d0 / 365 + 1 - 4).
  destruct (raise_hi_spec 63 (d0 / 365 + 1 + 4) (d0 / 365 + 1 + 4) 8 top) as (hi & -> & Hhi & Hb1); [dlia..|done|change (2 ^ Z.of_nat 63) with 9223372036854775808; dlia|]. cbn [outcome_bind].
  destruct (lower_lo_spec 63 (d0 / 365 + 1 - 4) (d0 / 365 + 1 - 4) 8 bottom) as (lo & -> & Hlo & Hb2); [dlia..|done|change (2 ^ Z.of_nat 63) with 9223372036854775808; dlia|]. cbn [outcome_bind].
  destruct (bisect_spec 63 lo hi) as (y & -> & Hy & Hby); [dlia..|done|change (2 ^ Z.of_nat 63) with 9223372036854775808; dlia|]. exists y. split_and!; (done || lia).
Qed.
End search.

(** ** The calendars implement their schemes *)

Definition year_in (y : Z) : Prop := -30000000000000 ≤ y ≤ 30000000000000.

(** The years of the days of [day_ok] are among these. *)
Definition year_near (y : Z) : Prop := -4000000000000 ≤ y ≤ 4000000000000.

Class Implements (f : JulianFamily) `{!DayScheme f} := {
  fixed_number y m d : year_in y → 1 ≤ m ≤ months f → day_ok d → fixed_from f y m d = Ret (day_number f (y, m, d));
  ymd_number rd : day_ok rd → ∃ p, ymd_from_fixed f rd = Ret p ∧ valid_day f p ∧ day_number f p = rd ∧ year_near p.1.1 }.

(** Families with Gregorian months, from the days before their years. *)
Lemma fixed_from_own_number f y m d s :
  month_lengths f = MonthsGregorian → -20000000000000000 ≤ s ≤ 20000000000000000 → 1 ≤ m ≤ 12 → day_ok d →
  i64 (epoch_offset f + day_before_year f y) = s →
  fixed_from_own f y m d = Ret (s + month_cut (is_leap_year f y) m + d).
Proof.
  intros Hf Hs Hm Hd <-. unfold day_ok in Hd. unfold fixed_from_own. rewrite family_month_cut by (done || lia). cbn [outcome_bind]. f_equal.
  pose proof (month_cut_bound (is_leap_year f y) m). rewrite <- (Z.add_assoc _ _ d), <- i64_add_l, i64_id; [lia|].
  unfold is_i64. lia.
Qed.

Lemma gregorian_fixed y m d :
  year_ok y → 1 ≤ m ≤ 12 → day_ok d → fixed_from GREGORIAN y m d = Ret (day_number GREGORIAN (y, m, d)).
Proof.
  intros Hy Hm Hd. unfold fixed_from. cbn [leap_rule GREGORIAN]. pose proof (gregorian_start_bound y Hy).
  rewrite (fixed_from_own_number _ _ _ _ (gregorian_start y)); try done.
  rewrite gregorian_day_before by done. cbn. rewrite i64_id; [lia|unfold is_i64; lia].
Qed.

#[export] Instance gregorian_implements : Implements GREGORIAN.
Proof.
  assert (∀ y, year_in y → year_ok y) as Hok by (unfold year_in, year_ok; lia).
  assert (∀ y, year_near y → year_in y) as Hnear by (unfold year_near, year_in; lia).
  split; [intros; apply gregorian_fixed; auto|]. intros rd Hrd. pose proof (gregorian_year_holds rd Hrd) as Hy.
  set (y := gregorian_year (i64 (rd - 1))) in *. rewrite gregorian_next in Hy. assert (year_near y) as Hin.
  { pose proof (month_cut_bound (is_gregorian_leap_year y) 13). unfold day_ok, year_near, gregorian_start in *. dlia. }
  destruct (ymd_from_own_spec GREGORIAN rd y (gregorian_start y)) as (m & d & E & Hm & Hd & Hn); try done.
  - apply gregorian_start_bound. auto.
  - rewrite gregorian_fixed by (auto || (unfold day_ok; lia)). cbn. f_equal. lia.
  - exists (y, m, d). done.
Qed.

#[export] Instance julian_implements : Implements JULIAN.
Proof.
  assert (∀ y, year_in y → -20000000000000000 ≤ julian_start y - 2 ≤ 20000000000000000) as Hb
    by (unfold year_in, julian_start; intros; dlia).
  assert (∀ y m d, year_in y → 1 ≤ m ≤ 12 → day_ok d → fixed_from JULIAN y m d = Ret (day_number JULIAN (y, m, d))) as Hf.
  { intros y m d Hy Hm Hd. unfold fixed_from. cbn [leap_rule JULIAN]. specialize (Hb y Hy). unfold year_in in Hy.
    rewrite (fixed_from_own_number _ _ _ _ (julian_start y - 2)); try done.
    rewrite julian_day_before by (unfold year_ok; lia). cbn. rewrite i64_id; [lia|unfold is_i64; lia]. }
  assert (∀ y, year_near y → year_in y) as Hnear by (unfold year_near, year_in; lia).
  split; [done|]. intros rd Hrd. pose proof (julian_year_holds rd Hrd) as Hy. set (y := julian_year (i64 (rd + 1))) in *.
  rewrite julian_next in Hy. assert (year_near y) as Hin.
  { pose proof (month_cut_bound (y `mod` 4 =? 0) 13). unfold day_ok, year_near, julian_start in *. dlia. }
  destruct (ymd_from_own_spec JULIAN rd y (julian_start y - 2)) as (m & d & E & Hm & Hd & Hn); try done.
  - by apply Hb, Hnear.
  - rewrite Hf by (auto || (unfold day_ok; lia)). cbn. f_equal. lia.
  - cbn [is_leap_year leap_rule JULIAN]. lia.
  - exists (y, m, d). done.
Qed.

#[export] Instance offset_implements (offset : Z) (H : -1000000 ≤ offset ≤ 1000000) : Implements (gregorian_from offset).
Proof.
  split.
  - intros y m d Hy Hm Hd. unfold year_in in Hy. unfold fixed_from. cbn [leap_rule gregorian_from]. no_wrap (y + offset).
    pose proof (gregorian_fixed (y + offset) m d) as Hf. unfold fixed_from in Hf. cbn [leap_rule GREGORIAN] in Hf.
    rewrite Hf by (done || (unfold year_ok; lia)). done.
  - intros rd Hrd. destruct (ymd_number (f := GREGORIAN) rd Hrd) as ([[y m] d] & E & [Hm Hd] & Hn & Hy). cbn in Hy.
    unfold ymd_from_fixed in *. cbn [leap_rule gregorian_from GREGORIAN] in *. rewrite E. cbn [outcome_bind].
    assert (-3900000000000 ≤ y ≤ 3900000000000) as Hb.
    { cbn in Hm, Hd, Hn. pose proof (month_cut_bound (is_gregorian_leap_year y) m). pose proof (month_cut_bound (is_gregorian_leap_year y) (m + 1)).
      unfold day_ok, gregorian_start in *. dlia. }
    no_wrap (y - offset). exists (y - offset, m, d). unfold valid_day, day_number in *. cbn in *.
    replace (y - offset + offset) with y by lia. unfold year_near. split_and!; (done || lia).
Qed.

Lemma coptic_fixed offset y m d :
  -1000000 ≤ offset ≤ 1000000 → year_ok y → 1 ≤ m ≤ 13 → day_ok d →
  fixed_from (coptic_from offset) y m d = Ret (day_number (coptic_from offset) (y, m, d)).
Proof.
  intros Ho Hy Hm Hd. unfold fixed_from, fixed_from_own, days_before_month. cbn [leap_rule coptic_from month_lengths].
  rewrite (proj2 (Z.leb_le 1 m)), (proj2 (Z.leb_le m 13)) by lia. cbn [andb outcome_bind].
  rewrite coptic_day_before by done. cbn [epoch_offset coptic_from]. unfold year_ok, day_ok in *. no_wrap ((m - 1) * 30).
  rewrite i64_id by (unfold is_i64, coptic_start; dlia). f_equal. cbn. unfold coptic_cut. rewrite (proj2 (Z.leb_le m 13)) by lia. lia.
Qed.

#[export] Instance coptic_implements (offset : Z) (H : -1000000 ≤ offset ≤ 1000000) : Implements (coptic_from offset).
Proof.
  split; [intros y m d Hy Hm Hd; apply coptic_fixed; unfold year_in, year_ok in *; (done || lia)|].
  intros rd Hrd. unfold ymd_from_fixed, ymd_from_own, year_from_fixed. cbn [leap_rule coptic_from].
  change (epoch (coptic_from offset)) with (i64 (offset + 1)). no_wrap (offset + 1). unfold day_ok in Hrd. no_wrap (rd - (offset + 1)).
  set (d0 := rd - (offset + 1)).
  destruct (search_year_spec (coptic_from offset) (λ y, coptic_start y + offset + 1) rd) with
    (d0 := d0) (top := Z.max (d0 / 365) (d0 / 366) + 5) (bottom := Z.min (d0 / 365) (d0 / 366) - 3) as (y & -> & Hy & Hin).
  - intros y Hy. rewrite coptic_fixed by (done || (unfold day_ok; lia)). cbn. unfold coptic_cut. cbn. f_equal. lia.
  - intros y y' Hlt. unfold coptic_start. dlia.
  - lia.
  - subst d0. dlia.
  - subst d0. dlia.
  - unfold coptic_start. subst d0. dlia.
  - unfold coptic_start. subst d0. dlia.
  - cbn beta in Hy. cbn [outcome_bind]. rewrite coptic_fixed by (done || (unfold day_ok, year_ok; lia)). cbn [outcome_bind].
    replace (day_number (coptic_from offset) (y, 1, 1)) with (coptic_start y + offset + 1) by (cbn; lia).
    unfold coptic_start in Hy. rewrite (i64_id (rd - _)) by (unfold is_i64, coptic_start; dlia).
    set (doy := rd - (coptic_start y + offset + 1)). assert (0 ≤ doy < 365 + (if y `mod` 4 =? 3 then 1 else 0)) as Hdoy.
    { subst doy. unfold coptic_start. destruct (Z.eqb_spec (y `mod` 4) 3); dlia. }
    assert (0 ≤ doy < 366) by (destruct (y `mod` 4 =? 3); lia).
    unfold month_from_day_of_year, days_before_month. cbn [month_lengths coptic_from outcome_bind]. no_wrap (doy / 30 + 1).
    set (m := Z.min (doy / 30 + 1) 13). assert (1 ≤ m ≤ 13 ∧ (m - 1) * 30 ≤ doy ∧ (m < 13 → doy < m * 30)) as (Hm & Hle & Hlt) by (subst m; dlia).
    rewrite (proj2 (Z.leb_le 1 m)), (proj2 (Z.leb_le m 13)) by lia. cbn [andb outcome_bind]. no_wrap ((m - 1) * 30). no_wrap (doy - (m - 1) * 30 + 1).
    exists (y, m, doy - (m - 1) * 30 + 1). split; [done|]. unfold valid_day, day_number. cbn. unfold coptic_cut.
    rewrite (proj2 (Z.leb_le m 13)) by lia. unfold year_near.
    assert (-4000000000000 ≤ y ≤ 4000000000000) by (unfold coptic_start in *; dlia). split_and!; try lia.
    destruct (Z.leb_spec (m + 1) 13); lia.
Qed.

(** ** The tabular Islamic calendars *)

Lemma islamic_fixed t y m d :
  -1000000 ≤ epoch_rd t ≤ 1000000 → year_ok y → 1 ≤ m ≤ 12 → day_ok d →
  islamic_fixed_from t y m d = day_number t (y, m, d).
Proof.
  intros He Hy Hm Hd. unfold year_ok, day_ok in *. unfold islamic_fixed_from. no_wrap (3 + y * 11).
  rewrite i64_id by (unfold is_i64; dlia). cbn. unfold islamic_start, islamic_cut. rewrite (proj2 (Z.leb_le m 12)) by lia. lia.
Qed.

Lemma islamic_year_holds t rd :
  -1000000 ≤ epoch_rd t ≤ 1000000 → day_ok rd →
  islamic_start (islamic_year_from_fixed t rd) + epoch_rd t ≤ rd < islamic_start (islamic_year_from_fixed t rd + 1) + epoch_rd t ∧
  -4000000000000 ≤ islamic_year_from_fixed t rd ≤ 4000000000000.
Proof.
  intros He Hrd. unfold day_ok in Hrd. unfold islamic_year_from_fixed. no_wrap (30 * (rd - epoch_rd t) + 10646).
  change ISLAMIC_MEAN_YEAR_X30 with 10631. unfold islamic_start. dlia.
Qed.

(** Eleven days in 325 a month: right for every day of a year. *)
Lemma islamic_month_holds p :
  0 ≤ p < 355 → let m := (p * 11 + 330) / 325 in 1 ≤ m ≤ 12 ∧ 29 * (m - 1) + m / 2 ≤ p ∧ (m < 12 → p < 29 * m + (m + 1) / 2).
Proof.
  intros Hp m. assert (m = 1 ∨ m = 2 ∨ m = 3 ∨ m = 4 ∨ m = 5 ∨ m = 6 ∨ m = 7 ∨ m = 8 ∨ m = 9 ∨ m = 10 ∨ m = 11 ∨ m = 12)
    as Hc by (subst m; dlia).
  assert (325 * m ≤ p * 11 + 330 < 325 * m + 325) as Hb by (subst m; dlia). clearbody m.
  repeat destruct Hc as [->|Hc]; subst; cbn; dlia.
Qed.

Lemma islamic_ymd t rd :
  -1000000 ≤ epoch_rd t ≤ 1000000 → day_ok rd →
  valid_day t (islamic_ymd_from_fixed t rd) ∧ day_number t (islamic_ymd_from_fixed t rd) = rd ∧ year_near (islamic_ymd_from_fixed t rd).1.1.
Proof.
  intros He Hrd. destruct (islamic_year_holds t rd He Hrd) as [Hy Hin]. unfold islamic_ymd_from_fixed.
  set (y := islamic_year_from_fixed t rd) in *. assert (year_ok y) by (unfold year_ok; lia).
  rewrite islamic_fixed by (done || (unfold day_ok; lia)).
  replace (day_number t (y, 1, 1)) with (islamic_start y + epoch_rd t) by (cbn; dlia).
  assert (islamic_start (y + 1) - islamic_start y ≤ 355) by (unfold islamic_start; dlia).
  unfold day_ok in Hrd. set (p := rd - (islamic_start y + epoch_rd t)). no_wrap p. no_wrap (p * 11 + 330). rewrite Z.quot_div_nonneg by lia.
  assert (0 ≤ p < 355) as Hp by (subst p; lia). destruct (islamic_month_holds p Hp) as (Hm & Hle & Hlt).
  set (m := (p * 11 + 330) / 325) in *.
  rewrite islamic_fixed by (done || (unfold day_ok; lia)). rewrite i64_id by (unfold is_i64; cbn; unfold islamic_cut; rewrite (proj2 (Z.leb_le m 12)) by lia; dlia).
  unfold valid_day, day_number. cbn. unfold islamic_cut. rewrite (proj2 (Z.leb_le m 12)) by lia. unfold year_near.
  split_and!; try lia. destruct (Z.leb_spec (m + 1) 12); [replace (m + 1 - 1) with m by lia|]; lia.
Qed.

(** ** Lengths of months *)

Lemma days_in_month_number f `{Implements f} y m :
  month_lengths f = MonthsGregorian → months f = 12 → year_in y → year_in (y + 1) → 1 ≤ m ≤ 12 →
  -20000000000000000 ≤ day_number f (y, m, 0) ≤ 20000000000000000 → 0 ≤ month_start f y (m + 1) - month_start f y m ≤ 366 →
  days_in_month f y m = Ret (month_start f y (m + 1) - month_start f y m).
Proof.
  intros Hf H12 Hy Hy' Hm Hb Hl. unfold days_in_month. rewrite Hf. rewrite fixed_number by (done || (unfold day_ok; lia)). cbn [outcome_bind].
  unfold day_number in *. unfold year_in in Hy, Hy'. destruct (Z.eqb_spec m 12) as [->|Hne].
  - no_wrap (y + 1). rewrite fixed_number by (done || (unfold day_ok; lia)). cbn [outcome_bind]. unfold day_number.
    rewrite (next_year (c := f)), (first_month (c := f)), H12. f_equal. rewrite i64_id; [lia|unfold is_i64; lia].
  - no_wrap (m + 1). rewrite fixed_number by (done || (unfold day_ok; lia)). cbn [outcome_bind]. unfold day_number.
    f_equal. rewrite i64_id; [lia|unfold is_i64; lia].
Qed.

(** Years whose days are all among [day_ok]. *)
Definition year_small (y : Z) : Prop := -3000000000000 ≤ y ≤ 3000000000000.

Definition month_count (f : JulianFamily) : Z := match month_lengths f with MonthsGregorian => 12 | CopticEpagomenal => 13 end.

(** A date of a calendar, as the calendar itself counts. *)
Definition date_in (f : JulianFamily) (p : Z * Z * Z) : Prop :=
  let '(y, m, d) := p in 1 ≤ m ≤ month_count f ∧ ∃ n, days_in_month f y m = Ret n ∧ 1 ≤ d ≤ n.

(** What it is to convert without loss: every day has one date and every date one day,
    in the same order. *)
Definition converts (f : JulianFamily) : Prop :=
  (∀ rd, day_ok rd → ∃ y m d, ymd_from_fixed f rd = Ret (y, m, d) ∧ date_in f (y, m, d) ∧ fixed_from f y m d = Ret rd) ∧
  (∀ y m d, year_small y → date_in f (y, m, d) → ∃ rd, fixed_from f y m d = Ret rd ∧ ymd_from_fixed f rd = Ret (y, m, d)) ∧
  (∀ y m d y' m' d' rd rd', year_small y → year_small y' → date_in f (y, m, d) → date_in f (y', m', d') →
    fixed_from f y m d = Ret rd → fixed_from f y' m' d' = Ret rd' → ymd_lt (y, m, d) (y', m', d') ↔ rd < rd').

Lemma implements_converts f `{Implements f} :
  months f = month_count f →
  (∀ y m, year_near y → 1 ≤ m ≤ months f → days_in_month f y m = Ret (month_start f y (m + 1) - month_start f y m)) →
  (∀ p, valid_day f p → year_small p.1.1 → day_ok (day_number f p)) →
  (∀ p, valid_day f p → p.2 ≤ 31) →
  converts f.
Proof.
  intros Hm Hdim Hok Hd31. assert (∀ y, year_small y → year_near y) as Hsmall by (unfold year_small, year_near; lia).
  assert (∀ y, year_near y → year_in y) as Hnear by (unfold year_near, year_in; lia).
  assert (∀ y m d, year_near y → date_in f (y, m, d) ↔ valid_day f (y, m, d)) as Hdate.
  { intros y m d Hy. unfold date_in, valid_day. rewrite Hm. split.
    - intros (Hmm & n & E & Hd). rewrite Hdim in E by (rewrite ?Hm; done). injection E as <-. done.
    - intros (Hmm & Hd). split; [done|]. eexists. rewrite Hdim by (rewrite ?Hm; done). done. }
  assert (∀ y m d, year_near y → valid_day f (y, m, d) → fixed_from f y m d = Ret (day_number f (y, m, d))) as Hfix.
  { intros y m d Hy Hv. pose proof (Hd31 _ Hv) as Hd. destruct Hv as [Hmm Hdd]. cbn in Hd. apply fixed_number; [auto|done|unfold day_ok; lia]. }
  split_and!.
  - intros rd Hrd. destruct (ymd_number rd Hrd) as ([[y m] d] & E & Hv & <- & Hy). cbn in Hy. exists y, m, d.
    rewrite Hdate by done. split_and!; [done..|]. auto.
  - intros y m d Hy Hv%Hdate; [|auto]. exists (day_number f (y, m, d)). split; [auto|].
    destruct (ymd_number (day_number f (y, m, d))) as (q & -> & Hq & Hn & _); [by apply Hok|].
    f_equal. by apply (day_number_inj f).
  - intros y m d y' m' d' rd rd' Hy Hy' Hv%Hdate Hv'%Hdate; [|auto..]. rewrite !Hfix by auto. intros [= <-] [= <-].
    exact (day_number_iff f (y, m, d) (y', m', d') Hv Hv').
Qed.

Lemma cut_length leap m : 1 ≤ m ≤ 12 → month_cut leap (m + 1) - month_cut leap m ≤ 31.
Proof.
  intros Hm. assert (m = 1 ∨ m = 2 ∨ m = 3 ∨ m = 4 ∨ m = 5 ∨ m = 6 ∨ m = 7 ∨ m = 8 ∨ m = 9 ∨ m = 10 ∨ m = 11 ∨ m = 12)
    as Hc by lia. by destruct leap; repeat destruct Hc as [->|Hc]; subst.
Qed.

Lemma cut_ordered leap m : 1 ≤ m ≤ 12 → 0 ≤ month_cut leap (m + 1) - month_cut leap m.
Proof. intros Hm. pose proof (month_cut_grows leap m Hm). lia. Qed.

(** The calendars with the Gregorian months. *)
Lemma cut_converts f `{Implements f} lp :
  month_lengths f = MonthsGregorian → months f = 12 → (∀ y m, month_start f y m = month_cut (lp y) m) →
  (∀ y, year_near y → -10000000000000000 ≤ year_start f y ≤ 10000000000000000) →
  (∀ y, year_small y → -1125899906840000 ≤ year_start f y ≤ 1125899906840000) →
  converts f.
Proof.
  intros Hf H12 Hcut Hyn Hys.
  assert (∀ y m, 1 ≤ m ≤ 12 → 0 ≤ month_cut (lp y) m ≤ 366 ∧ 0 ≤ month_cut (lp y) (m + 1) - month_cut (lp y) m ≤ 31) as Hcuts.
  { intros y m Hm. pose proof (month_cut_bound (lp y) m). pose proof (cut_length (lp y) m Hm). pose proof (month_cut_grows (lp y) m Hm). lia. }
  apply (implements_converts f).
  - by rewrite H12; unfold month_count; rewrite Hf.
  - intros y m Hy Hm. rewrite H12 in Hm. specialize (Hyn y Hy). specialize (Hcuts y m Hm). unfold year_near in Hy.
    apply days_in_month_number; rewrite ?Hcut; try done; unfold year_in; try lia. unfold day_number. rewrite Hcut. lia.
  - intros [[y m] d] [Hm Hd] Hy. cbn in Hy. rewrite H12 in Hm. rewrite !Hcut in Hd. specialize (Hcuts y m Hm). specialize (Hys y Hy).
    unfold day_number, day_ok. rewrite Hcut. lia.
  - intros [[y m] d] [Hm Hd]. rewrite H12 in Hm. rewrite !Hcut in Hd. specialize (Hcuts y m Hm). cbn. lia.
Qed.

Lemma coptic_converts offset : -1000000 ≤ offset ≤ 1000000 → converts (coptic_from offset).
Proof.
  intros Ho. pose proof (coptic_implements offset Ho). apply (implements_converts (coptic_from offset)).
  - done.
  - intros y m Hy Hm. cbn in Hm. cbn. unfold days_in_month, is_leap_year, coptic_cut. cbn [month_lengths leap_rule coptic_from]. f_equal.
    destruct (Z.eqb_spec m 13) as [->|]; [change (13 + 1 <=? 13) with false; cbn; destruct (y `mod` 4 =? 3); lia|].
    rewrite (proj2 (Z.leb_le m 13)), (proj2 (Z.leb_le (m + 1) 13)) by lia. lia.
  - intros [[y m] d] [Hm Hd] Hy. cbn in Hy, Hm, Hd. unfold coptic_cut, year_small in *. unfold day_number, day_ok. cbn. unfold coptic_cut, coptic_start.
    rewrite (proj2 (Z.leb_le m 13)) in * by lia. destruct (m + 1 <=? 13), (y `mod` 4 =? 3); dlia.
  - intros [[y m] d] [Hm Hd]. cbn in Hm, Hd. unfold coptic_cut in Hd. cbn.
    rewrite (proj2 (Z.leb_le m 13)) in Hd by lia. destruct (Z.leb_spec (m + 1) 13), (y `mod` 4 =? 3); lia.
Qed.

Lemma offset_converts offset : -1000000 ≤ offset ≤ 1000000 → converts (gregorian_from offset).
Proof.
  intros Ho. pose proof (offset_implements offset Ho).
  apply (cut_converts (gregorian_from offset) (λ y, is_gregorian_leap_year (y + offset))); try done;
    unfold year_near, year_small; cbn; unfold gregorian_start; intros y Hy; dlia.
Qed.

Lemma gregorian_converts : converts GREGORIAN.
Proof.
  apply (cut_converts GREGORIAN is_gregorian_leap_year); try done; unfold year_near, year_small; cbn; unfold gregorian_start; intros y Hy; dlia.
Qed.

Lemma julian_converts : converts JULIAN.
Proof.
  apply (cut_converts JULIAN (λ y, y `mod` 4 =? 0)); try done; unfold year_near, year_small; cbn; unfold julian_start; intros y Hy; dlia.
Qed.

Lemma islamic_days_cut t y m :
  -1000000 ≤ epoch_rd t ≤ 1000000 → year_near y → 1 ≤ m ≤ 12 →
  islamic_days_in_month t y m = islamic_cut y (m + 1) - islamic_cut y m.
Proof.
  intros He Hy Hm. unfold year_near in Hy. assert (354 ≤ islamic_start (y + 1) - islamic_start y ≤ 355) as Hlen by (unfold islamic_start; dlia).
  assert (islamic_year_length t y = islamic_start (y + 1) - islamic_start y) as Hyl.
  { unfold islamic_year_length. no_wrap (y + 1). rewrite !islamic_fixed by (done || (unfold year_ok, day_ok; lia)). cbn.
    rewrite i64_id by (unfold is_i64, islamic_start; dlia). lia. }
  unfold islamic_days_in_month, islamic_is_leap_year. rewrite Hyl, Z.rem_mod_nonneg by lia.
  unfold islamic_cut. rewrite (proj2 (Z.leb_le m 12)) by lia.
  destruct (Z.eqb_spec (m `mod` 2) 1), (Z.eqb_spec m 12), (Z.leb_spec (m + 1) 12); subst; cbn [andb]; try dlia.
  destruct (Z.eqb_spec (islamic_start (y + 1) - islamic_start y) 355); dlia.
Qed.

Lemma islamic_cut_length y m : 1 ≤ m ≤ 12 → 0 ≤ islamic_cut y m ≤ 355 ∧ islamic_cut y (m + 1) - islamic_cut y m ≤ 30.
Proof.
  intros Hm. assert (354 ≤ islamic_start (y + 1) - islamic_start y ≤ 355) as Hlen by (unfold islamic_start; dlia).
  unfold islamic_cut. destruct (Z.leb_spec m 12), (Z.leb_spec (m + 1) 12); dlia.
Qed.

(** ** Properties *)

(** The Julian, Gregorian, Buddhist, Coptic, Ethiopic and Minguo calendars convert
    without loss, over more than six million million years: every day number has one date, whose month and day exist in
    the calendar's own count, every such date one day number, and dates are in the order
    of their day numbers.  The searches for a year end.  The two tabular Islamic calendars do the
    same. *)
Lemma calendars_convert :
  Forall converts [JULIAN; GREGORIAN; BUDDHIST; COPTIC; ETHIOPIC; ROC] ∧
  Forall (λ t,
    (∀ rd, day_ok rd → ∃ y m d, islamic_ymd_from_fixed t rd = (y, m, d) ∧ 1 ≤ m ≤ 12 ∧
      1 ≤ d ≤ islamic_days_in_month t y m ∧ islamic_fixed_from t y m d = rd) ∧
    (∀ y m d, year_small y → 1 ≤ m ≤ 12 → 1 ≤ d ≤ islamic_days_in_month t y m →
      islamic_ymd_from_fixed t (islamic_fixed_from t y m d) = (y, m, d))) [ISLAMIC_CIVIL; ISLAMIC_TBLA].
Proof.
  split.
  - repeat apply Forall_cons_2; [apply julian_converts|apply gregorian_converts|by apply (offset_converts (-543))|
      by apply (coptic_converts 103604)|by apply (coptic_converts 2795)|by apply (offset_converts 1911)|apply Forall_nil_2].
  - apply Forall_forall. intros t Ht. assert (-1000000 ≤ epoch_rd t ≤ 1000000) as He
      by (rewrite !elem_of_cons, elem_of_nil in Ht; destruct Ht as [->|[->|[]]]; done).
    split.
    + intros rd Hrd. destruct (islamic_ymd t rd He Hrd) as (Hv & Hn & Hy). destruct (islamic_ymd_from_fixed t rd) as [[y m] d] eqn:E.
      destruct Hv as [Hm Hd]. cbn in Hy. exists y, m, d. rewrite islamic_days_cut by done. split; [done|]. split; [exact Hm|]. split; [exact Hd|].
      pose proof (islamic_cut_length y m Hm). rewrite islamic_fixed; [done..|unfold year_near, year_ok in *; lia|done|].
      cbn in Hd. unfold day_ok. lia.
    + intros y m d Hy Hm Hd. assert (year_near y) as Hn by (unfold year_small, year_near in *; lia).
      rewrite islamic_days_cut in Hd by done. pose proof (islamic_cut_length y m Hm). assert (valid_day t (y, m, d)) as Hv by done.
      rewrite islamic_fixed; [|done|unfold year_small, year_ok in *; lia|done|unfold day_ok; lia].
      apply (day_number_inj t); [|done|]; apply islamic_ymd; try done; cbn; unfold islamic_start, day_ok, year_small in *; dlia.
Qed.
