(* ===== verification/IsoDates.v ===== *)
(** * ISO dates, times and date-times (rusty-js-temporal-calendar/src/lib.rs)

    [IsoDate], [IsoTime] and [IsoDateTime] with validation, balancing, addition and
    difference of dates, ISO weeks and epoch nanoseconds.  A [RangeError] is its message.
    Casts to narrower integers truncate, as in the code. *)

From stdpp Require Import prelude.
From Stdlib Require Import Lia String.
From S2P Require Import Prelude Bytes Bits Calendar.

Open Scope cruft_scope.
Open Scope Z_scope.

(** ** Dates *)

Inductive Overflow := Constrain | Reject.

Definition UNIX_EPOCH_RD : Z := 719163.
Definition MAX_EPOCH_DAYS : Z := 100000000 + 1.

Record IsoDate := { year : Z; month : Z; day : Z }.

Definition new_unchecked (y m d : Z) : IsoDate := {| year := y; month := m; day := d |}.

(** [IsoDate::days_in_month]. *)
Definition iso_days_in_month (y m : Z) : outcome Z := n <-! days_in_month GREGORIAN y m; Ret (as_u8 n).

Definition is_valid_date (y m d : Z) : outcome bool :=
  if (1 <=? m) && (m <=? 12) then n <-! iso_days_in_month y m; Ret ((1 <=? d) && (d <=? n)) else Ret false.

Definition is_valid (d : IsoDate) : outcome bool := is_valid_date (year d) (month d) (day d).

Definition check_validity (d : IsoDate) : fallible unit string :=
  v <-! is_valid d; Ret (if v then Ok tt else Err "IsoDate does not have valid fields."%string).

(** [IsoDate::rd]. *)
Definition rd (d : IsoDate) : outcome RataDie := fixed_from GREGORIAN (year d) (month d) (day d).

Definition to_epoch_days (d : IsoDate) : outcome Z := r <-! rd d; Ret (i64 (r - UNIX_EPOCH_RD)).

Definition within_limits (d : IsoDate) : outcome bool := e <-! to_epoch_days d; Ret (i64 (Z.abs e) <=? MAX_EPOCH_DAYS).

Definition check_within_limits (d : IsoDate) : fallible unit string :=
  w <-! within_limits d; Ret (if w then Ok tt else Err "date is out of range."%string).

Definition regulate (y m d : Z) (overflow : Overflow) : fallible IsoDate string :=
  match overflow with
  | Constrain =>
      let m := clamp m 1 12 in
      n <-! iso_days_in_month y m;
      Ret (Ok (new_unchecked y m (clamp d 1 n)))
  | Reject =>
      v <-! is_valid_date y m d;
      Ret (if v then Ok (new_unchecked y m d) else Err "not a valid ISO date."%string)
  end.

Definition new_with_overflow (y m d : Z) (overflow : Overflow) : fallible IsoDate string :=
  date <-!? regulate y m d overflow;
  _ <-!? check_within_limits date;
  Ret (Ok date).

Definition year_month_within_limits (y m : Z) : bool :=
  if negb ((-271821 <=? y) && (y <=? 275760)) then false
  else if (y =? -271821) && (m <? 4) then false
  else if (y =? 275760) && (9 <? m) then false
  else true.

Definition balance_iso_year_month (y m : Z) : Z * Z :=
  let n := i64 (m - 1) in (i64 (y + n / 12), as_u8 (n `mod` 12 + 1)).

(** [IsoDate::balance]. *)
Definition balance (y m d : Z) : outcome IsoDate :=
  let '(y, m) := balance_iso_year_month y m in
  r <-! fixed_from GREGORIAN y m 1;
  p <-! ymd_from_fixed GREGORIAN (i64 (r + (d - 1)));
  let '(y2, m2, d2) := p in Ret (new_unchecked (i32 y2) (as_u8 m2) (as_u8 d2)).

Definition try_balance (y m d : Z) : fallible IsoDate string :=
  let '(y', m') := balance_iso_year_month y m in
  r <-! fixed_from GREGORIAN y' m' 1;
  let epoch_days := i64 (r + (d - 1) - UNIX_EPOCH_RD) in
  if MAX_EPOCH_DAYS <? i64 (Z.abs epoch_days) then Ret (Err "epoch days exceed maximum range."%string)
  else b <-! balance y m d; Ret (Ok b).

(** ** Durations and units *)

Record DateDuration := { years : Z; months : Z; weeks : Z; days : Z }.

Definition new_duration (y m w d : Z) : DateDuration := {| years := y; months := m; weeks := w; days := d |}.
Definition duration_default : DateDuration := new_duration 0 0 0 0.

(** [DateDuration::negated]. *)
Definition negated (d : DateDuration) : DateDuration :=
  new_duration (i64 (- years d)) (i64 (- months d)) (i64 (- weeks d)) (i64 (- days d)).

(** [Unit] of the calendar crate. *)
Inductive CalUnit := CalYear | CalMonth | CalWeek | CalDay.

#[export] Instance CalUnit_eq_dec : EqDecision CalUnit.
Proof. solve_decision. Defined.

Definition iso_month_code (m : Z) : list Z := [77; as_u8 (48 + m / 10); as_u8 (48 + m `mod` 10)].

Definition day_of_week (d : IsoDate) : outcome Z := r <-! rd d; Ret (as_u16 (i64 (r - 1) `mod` 7 + 1)).

Definition day_of_year (d : IsoDate) : outcome Z :=
  r <-! rd d; s <-! fixed_from GREGORIAN (year d) 1 1; Ret (as_u16 (i64 (r - s + 1))).

Definition days_in_week (d : IsoDate) : Z := 7.
Definition months_in_year (d : IsoDate) : Z := 12.
Definition in_leap_year (d : IsoDate) : bool := is_leap_year GREGORIAN (year d).
Definition days_in_month_of (d : IsoDate) : outcome Z := iso_days_in_month (year d) (month d).
Definition days_in_year_of (d : IsoDate) : Z := as_u16 (days_in_year GREGORIAN (year d)).
Definition month_code (d : IsoDate) : list Z := iso_month_code (month d).

Definition iso_weeks_in_year (y : Z) : Z :=
  let p (y : Z) := i64 (y + y / 4 - y / 100 + y / 400) `mod` 7 in
  if (p y =? 4) || (p (i64 (y - 1)) =? 3) then 53 else 52.

Definition week_of_year (d : IsoDate) : outcome (Z * Z) :=
  ordinal <-! day_of_year d;
  weekday <-! day_of_week d;
  let week := (ordinal - weekday + 10) / 7 in
  Ret (if week <? 1 then (i32 (year d - 1), iso_weeks_in_year (i64 (year d - 1)))
       else if iso_weeks_in_year (year d) <? week then (i32 (year d + 1), 1)
       else (year d, as_u8 week)).

(** The derived order: by year, month and day. *)
Definition cmp_date (a b : IsoDate) : comparison :=
  match year a ?= year b with
  | Eq => match month a ?= month b with Eq => day a ?= day b | c => c end
  | c => c
  end.

(** [Ordering as i8]. *)
Definition ordering_sign (c : comparison) : Z := match c with Lt => -1 | Eq => 0 | Gt => 1 end.

Definition surpasses (a b : IsoDate) (sign : Z) : bool := ordering_sign (cmp_date a b) * sign =? 1.

(** ** Addition and difference *)

Definition date_add (self : IsoDate) (dur : DateDuration) (overflow : Overflow) : fallible IsoDate string :=
  let '(iy, im) := balance_iso_year_month (i64 (year self + years dur)) (i64 (month self + months dur)) in
  intermediate <-!? new_with_overflow (i32 iy) im (day self) overflow;
  let additional_days := i64 (days dur + 7 * weeks dur) in
  let intermediate_days := i64 (day intermediate + additional_days) in
  try_balance (year intermediate) (month intermediate) intermediate_days.

(** The loop over candidate years.  It ends within three turns and the loop over candidate
    months within thirteen ([until_years_spec], [until_months_spec]); a loop that needs
    more than sixteen answers [Panic]. *)
Fixpoint until_years (fuel : nat) (self other : IsoDate) (sign years candidate : Z) : outcome Z :=
  match fuel with
  | O => Panic
  | S fuel' =>
      if surpasses (new_unchecked (i32 (year self + candidate)) (month self) (day self)) other sign then Ret years
      else until_years fuel' self other sign candidate (i32 (candidate + sign))
  end.

Fixpoint until_months (fuel : nat) (self other : IsoDate) (sign months candidate : Z) (inter : Z * Z) : outcome Z :=
  match fuel with
  | O => Panic
  | S fuel' =>
      if surpasses (new_unchecked (i32 inter.1) inter.2 (day self)) other sign then Ret months
      else until_months fuel' self other sign candidate (i32 (candidate + sign)) (balance_iso_year_month inter.1 (i64 (inter.2 + sign)))
  end.

(** The years and months of [date_until]. *)
Definition until_years_months (self other : IsoDate) (sign : Z) (largest_unit : CalUnit) : outcome (Z * Z) :=
  if bool_decide (largest_unit = CalYear) || bool_decide (largest_unit = CalMonth) then
    let candidate_years := i32 (year other - year self) in
    let candidate_years := if negb (candidate_years =? 0) then i32 (candidate_years - sign) else candidate_years in
    years <-! until_years 16 self other sign 0 candidate_years;
    let inter := balance_iso_year_month (i64 (year self + years)) (i64 (month self + sign)) in
    months <-! until_months 16 self other sign 0 sign inter;
    Ret (if bool_decide (largest_unit = CalMonth) then (0, i32 (months + i32 (years * 12))) else (years, months))
  else Ret (0, 0).

Definition date_until (self other : IsoDate) (largest_unit : CalUnit) : outcome DateDuration :=
  let sign := - ordering_sign (cmp_date self other) in
  if sign =? 0 then Ret duration_default
  else
    ym <-! until_years_months self other sign largest_unit;
    let '(years, months) := ym in
    let inter := balance_iso_year_month (i64 (year self + years)) (i64 (month self + months)) in
    r <-! regulate (i32 inter.1) inter.2 (day self) Constrain;
    match r with
    | Err _ => Panic
    | Ok constrained =>
        o <-! rd other;
        c <-! rd constrained;
        let days := i64 (i64 (o - UNIX_EPOCH_RD) - i64 (c - UNIX_EPOCH_RD)) in
        let '(weeks, days) := if bool_decide (largest_unit = CalWeek) then (Z.quot days 7, Z.rem days 7) else (0, days) in
        Ret (new_duration years months weeks days)
    end.

(** ** Times *)

Definition MS_PER_DAY : Z := 24 * 60 * 60 * 1000.
Definition NS_PER_DAY : Z := MS_PER_DAY * 1000000.

Record IsoTime := {
  hour : Z; minute : Z; second : Z; millisecond : Z; microsecond : Z; nanosecond : Z }.

Definition in_range (v lo hi : Z) : bool := (lo <=? v) && (v <=? hi).

Definition is_valid_time (h m s ms mis ns : Z) : bool :=
  in_range h 0 23 && in_range m 0 59 && in_range s 0 59 && in_range ms 0 999 && in_range mis 0 999 && in_range ns 0 999.

Definition new_time (h m s ms mis ns : Z) : IsoTime :=
  {| hour := h; minute := m; second := s; millisecond := ms; microsecond := mis; nanosecond := ns |}.

Definition noon : IsoTime := new_time 12 0 0 0 0 0.

Definition time_with_overflow (h m s ms mis ns : Z) (overflow : Overflow) : result IsoTime string :=
  match overflow with
  | Constrain => Ok (new_time (clamp h 0 23) (clamp m 0 59) (clamp s 0 59) (clamp ms 0 999) (clamp mis 0 999) (clamp ns 0 999))
  | Reject => if is_valid_time h m s ms mis ns then Ok (new_time h m s ms mis ns) else Err "time is not valid."%string
  end.

(** [IsoTime::balance]. *)
Definition balance_time (h m s ms mis ns : Z) : Z * IsoTime :=
  let mis := i128 (mis + ns / 1000) in
  let ns := ns `mod` 1000 in
  let ms := i64 (ms + i64 (mis / 1000)) in
  let mis := mis `mod` 1000 in
  let s := i64 (s + ms / 1000) in
  let ms := ms `mod` 1000 in
  let m := i64 (m + s / 60) in
  let s := s `mod` 60 in
  let h := i64 (h + m / 60) in
  let m := m `mod` 60 in
  let days := h / 24 in
  let h := h `mod` 24 in
  (days, new_time (as_u8 h) (as_u8 m) (as_u8 s) (as_u16 ms) (as_u16 mis) (as_u16 ns)).

Definition to_nanoseconds (t : IsoTime) : Z :=
  let minutes := i128 (hour t * 60 + minute t) in
  let seconds := i128 (minutes * 60 + second t) in
  let millis := i128 (seconds * 1000 + millisecond t) in
  let micros := i128 (millis * 1000 + microsecond t) in
  i128 (micros * 1000 + nanosecond t).

(** ** Date-times *)

Record IsoDateTime := { date : IsoDate; time : IsoTime }.

Definition from_epoch_nanos (epoch_nanoseconds : Z) : outcome IsoDateTime :=
  let remainder_nanos := epoch_nanoseconds `mod` 1000000 in
  let epoch_millis := i64 (i128 (epoch_nanoseconds - remainder_nanos) / 1000000) in
  let epoch_days := epoch_millis / MS_PER_DAY in
  p <-! ymd_from_fixed GREGORIAN (i64 (epoch_days + UNIX_EPOCH_RD));
  let '(y, m, d) := p in
  let dt := new_unchecked (i32 y) (as_u8 m) (as_u8 d) in
  let h := (epoch_millis / 3600000) `mod` 24 in
  let mi := (epoch_millis / 60000) `mod` 60 in
  let s := (epoch_millis / 1000) `mod` 60 in
  let millis := epoch_millis `mod` 1000 in
  let micros := i64 (remainder_nanos / 1000) in
  let nanos := i64 (remainder_nanos `mod` 1000) in
  let '(days, t) := balance_time h mi s millis micros nanos in
  dt <-! (if negb (days =? 0) then balance (year dt) (month dt) (i64 (day dt + days)) else Ret dt);
  Ret {| date := dt; time := t |}.

Definition to_epoch_nanos (dt : IsoDateTime) : outcome Z :=
  e <-! to_epoch_days (date dt);
  Ret (i128 (e * NS_PER_DAY + to_nanoseconds (time dt))).
