(* ===== verification/IsoDateTheory.v ===== *)
(** * ISO dates: order, addition and difference, weeks, epoch nanoseconds *)

From stdpp Require Import prelude.
From Stdlib Require Import Lia String.
From S2P Require Import Prelude Bytes Bits Calendar CalendarTheory IsoDates.

Open Scope cruft_scope.
Open Scope Z_scope.

(** ** Valid dates and their numbers *)

(** The days of a month, and the number of a date from the Unix epoch. *)
Definition dim (y m : Z) : Z :=
  month_cut (is_gregorian_leap_year y) (m + 1) - month_cut (is_gregorian_leap_year y) m.

Definition number (y m d : Z) : Z := gregorian_start y + month_cut (is_gregorian_leap_year y) m + d - 719163.

Definition epoch_of (d : IsoDate) : Z := number (year d) (month d) (day d).

Definition date_ok (d : IsoDate) : Prop :=
  is_i32 (year d) ∧ 1 ≤ month d ≤ 12 ∧ 1 ≤ day d ≤ dim (year d) (month d).

(** Within the limits of Temporal. *)
Definition date_limited (d : IsoDate) : Prop := date_ok d ∧ Z.abs (epoch_of d) ≤ MAX_EPOCH_DAYS.

Lemma dim_bounds y m : 1 ≤ m ≤ 12 → 28 ≤ dim y m ≤ 31.
Proof.
  intros Hm. unfold dim. assert (m = 1 ∨ m = 2 ∨ m = 3 ∨ m = 4 ∨ m = 5 ∨ m = 6 ∨ m = 7 ∨ m = 8 ∨ m = 9 ∨ m = 10 ∨ m = 11 ∨ m = 12)
    as Hc by lia. by destruct (is_gregorian_leap_year y); repeat destruct Hc as [->|Hc]; subst.
Qed.

Lemma number_day y m d : number y m d = day_number GREGORIAN (y, m, d) - 719163.
Proof. unfold number. cbn. lia. Qed.




Lemma fixed_number_iso y m d :
  -10000000000 ≤ y ≤ 10000000000 → 1 ≤ m ≤ 12 → -10000000000000 ≤ d ≤ 10000000000000 →
  fixed_from GREGORIAN y m d = Ret (number y m d + 719163) ∧ -20000000000000 ≤ number y m d ≤ 20000000000000.
Proof.
  intros Hy Hm Hd. rewrite gregorian_fixed by (done || (unfold year_ok, day_ok; lia)). split; [f_equal; rewrite number_day; lia|].
  unfold number, gregorian_start. pose proof (month_cut_bound (is_gregorian_leap_year y) m). dlia.
Qed.
Lemma iso_dim y m : -10000000000 ≤ y ≤ 10000000000 → 1 ≤ m ≤ 12 → iso_days_in_month y m = Ret (dim y m).
Proof.
  intros Hy Hm. unfold iso_days_in_month. pose proof (dim_bounds y m Hm) as Hd.
  destruct (fixed_number_iso y m 0 Hy Hm ltac:(lia)) as [_ Hb]. rewrite number_day in Hb.
  rewrite (days_in_month_number GREGORIAN); cbn [outcome_bind]; [|done|done|unfold year_in; lia|unfold year_in; lia|done|lia|cbn; unfold dim in Hd; lia].
  change (Ret (as_u8 (dim y m)) = Ret (dim y m)). f_equal. apply as_u8_id. unfold is_u8. lia.
Qed.

Lemma rd_number d : date_ok d → rd d = Ret (epoch_of d + 719163) ∧ -20000000000000 ≤ epoch_of d ≤ 20000000000000.
Proof.
  intros (Hy & Hm & Hd). unfold is_i32 in Hy. pose proof (dim_bounds (year d) (month d) Hm). apply fixed_number_iso; lia.
Qed.

Lemma to_epoch_days_ok d : date_ok d → to_epoch_days d = Ret (epoch_of d).
Proof.
  intros Hd. unfold to_epoch_days. destruct (rd_number d Hd) as [-> Hb]. cbn [outcome_bind]. change UNIX_EPOCH_RD with 719163.
  f_equal. rewrite i64_id; [lia|unfold is_i64; lia].
Qed.

(** Dates in range are in the order of their days, and are known by them. *)
Lemma epoch_of_iff a b :
  date_ok a → date_ok b →
  ymd_lt (year a, month a, day a) (year b, month b, day b) ↔ epoch_of a < epoch_of b.
Proof.
  intros (_ & Ha & Ha') (_ & Hb & Hb'). unfold epoch_of. rewrite !number_day.
  rewrite (day_number_iff GREGORIAN) by done. lia.
Qed.

Lemma epoch_of_inj a b : date_ok a → date_ok b → epoch_of a = epoch_of b → a = b.
Proof.
  intros (_ & Ha & Ha') (_ & Hb & Hb') He. unfold epoch_of in He. rewrite !number_day in He.
  assert ((year a, month a, day a) = (year b, month b, day b)) as [= E1 E2 E3] by (apply (day_number_inj GREGORIAN); [done..|lia]).
  destruct a, b. cbn in *. by subst.
Qed.

Lemma cmp_date_spec a b :
  match cmp_date a b with
  | Lt => ymd_lt (year a, month a, day a) (year b, month b, day b)
  | Eq => a = b
  | Gt => ymd_lt (year b, month b, day b) (year a, month a, day a)
  end.
Proof.
  unfold cmp_date, ymd_lt. destruct (Z.compare_spec (year a) (year b)); [|lia..].
  destruct (Z.compare_spec (month a) (month b)); [|lia..]. destruct (Z.compare_spec (day a) (day b)); [|lia..].
  destruct a, b. cbn in *. by subst.
Qed.

(** ** Reading and regulating *)

Lemma ymd_of_number n :
  -10000000000 ≤ n ≤ 10000000000 →
  ∃ y m d, ymd_from_fixed GREGORIAN n = Ret (y, m, d) ∧ -100000000 ≤ y ≤ 100000000 ∧ 1 ≤ m ≤ 12 ∧ 1 ≤ d ≤ dim y m ∧
    number y m d = n - 719163.
Proof.
  intros Hn. destruct (ymd_number (f := GREGORIAN) n) as ([[y m] d] & E & [Hm Hd] & Hnum & Hy); [unfold day_ok; lia|].
  exists y, m, d. rewrite number_day, Hnum. split; [done|]. cbn in Hm, Hd. split; [|done].
  pose proof (dim_bounds y m Hm). pose proof (month_cut_bound (is_gregorian_leap_year y) m). unfold dim in *. cbn in Hnum.
  unfold gregorian_start in Hnum. dlia.
Qed.

Lemma regulate_constrain y m d :
  -10000000000 ≤ y ≤ 10000000000 → 1 ≤ m ≤ 12 → regulate y m d Constrain = Ret (Ok (new_unchecked y m (clamp d 1 (dim y m)))).
Proof. intros Hy Hm. unfold regulate. rewrite (proj2 (clamp_spec m 1 12 ltac:(lia)) Hm), iso_dim by done. done. Qed.

Lemma regulate_reject y m d :
  -10000000000 ≤ y ≤ 10000000000 → 1 ≤ m ≤ 12 → 1 ≤ d →
  regulate y m d Reject = Ret (if d <=? dim y m then Ok (new_unchecked y m d) else Err "not a valid ISO date."%string).
Proof.
  intros Hy Hm Hd. unfold regulate, is_valid_date. rewrite (proj2 (Z.leb_le 1 m)), (proj2 (Z.leb_le m 12)), iso_dim by (done || lia).
  cbn [andb outcome_bind]. by rewrite (proj2 (Z.leb_le 1 d)) by lia.
Qed.

Lemma balance_iso_exact y m :
  -1000000000000 ≤ y ≤ 1000000000000 → -1000000000000 ≤ m ≤ 1000000000000 →
  balance_iso_year_month y m = (y + (m - 1) / 12, (m - 1) `mod` 12 + 1).
Proof.
  intros Hy Hm. unfold balance_iso_year_month. no_wrap (m - 1). no_wrap (y + (m - 1) / 12). f_equal. apply as_u8_id. unfold is_u8. dlia.
Qed.

(** Balancing a date with any day number. *)
Lemma try_balance_spec y m d :
  -5000000000 ≤ y ≤ 5000000000 → 1 ≤ m ≤ 12 → -5000000000000 ≤ d ≤ 5000000000000 →
  if MAX_EPOCH_DAYS <? Z.abs (number y m d)
  then try_balance y m d = Ret (Err "epoch days exceed maximum range."%string)
  else ∃ r, try_balance y m d = Ret (Ok r) ∧ date_ok r ∧ epoch_of r = number y m d.
Proof.
  intros Hy Hm Hd. unfold try_balance, balance. rewrite balance_iso_exact by lia.
  replace (y + (m - 1) / 12) with y by dlia. replace ((m - 1) `mod` 12 + 1) with m by dlia.
  destruct (fixed_number_iso y m 1) as [-> Hb]; [lia..|]. cbn [outcome_bind].
  assert (number y m 1 + (d - 1) = number y m d) as Hnum by (unfold number; lia).
  replace (number y m 1 + 719163 + (d - 1) - UNIX_EPOCH_RD) with (number y m d) by (unfold UNIX_EPOCH_RD; lia).
  no_wrap (number y m d). no_wrap (Z.abs (number y m d)). destruct (Z.ltb_spec MAX_EPOCH_DAYS (Z.abs (number y m d))) as [|Hle]; [done|].
  unfold MAX_EPOCH_DAYS in Hle. replace (number y m 1 + 719163 + (d - 1)) with (number y m d + 719163) by lia.
  no_wrap (number y m d + 719163). destruct (ymd_of_number (number y m d + 719163)) as (y2 & m2 & d2 & -> & Hy2 & Hm2 & Hd2 & Hn2); [lia|].
  cbn [outcome_bind]. pose proof (dim_bounds y2 m2 Hm2). rewrite i32_id by (unfold is_i32; lia). rewrite !as_u8_id by (unfold is_u8; lia).
  eexists. split; [done|]. unfold date_ok, epoch_of, is_i32. cbn. split; [|lia]. split; [lia|done].
Qed.

(** ** Addition *)

(** The month reached by the years and months of a duration. *)
Definition target_year (self : IsoDate) (dur : DateDuration) : Z := year self + years dur + (month self + months dur - 1) / 12.
Definition target_month (self : IsoDate) (dur : DateDuration) : Z := (month self + months dur - 1) `mod` 12 + 1.

(** The day in that month, at most its last, and the day the addition means. *)
Definition target_start (self : IsoDate) (dur : DateDuration) : Z :=
  number (target_year self dur) (target_month self dur) (Z.min (day self) (dim (target_year self dur) (target_month self dur))).

Definition target_epoch (self : IsoDate) (dur : DateDuration) : Z := target_start self dur + days dur + 7 * weeks dur.

(** The durations Temporal admits are among these. *)
Definition duration_ok (dur : DateDuration) : Prop :=
  Z.abs (years dur) < 4294967296 ∧ Z.abs (months dur) < 4294967296 ∧ Z.abs (weeks dur) < 4294967296 ∧ Z.abs (days dur) ≤ 200000000000.

Lemma new_with_overflow_spec y m d overflow :
  is_i32 y → 1 ≤ m ≤ 12 → 1 ≤ d ≤ 31 →
  let limited := Z.abs (number y m (Z.min d (dim y m))) <=? MAX_EPOCH_DAYS in
  match overflow with
  | Constrain =>
      new_with_overflow y m d Constrain =
        Ret (if limited then Ok (new_unchecked y m (Z.min d (dim y m))) else Err "date is out of range."%string)
  | Reject =>
      new_with_overflow y m d Reject =
        Ret (if d <=? dim y m then if limited then Ok (new_unchecked y m d) else Err "date is out of range."%string
             else Err "not a valid ISO date."%string)
  end.
Proof.
  intros Hy Hm Hd limited. unfold is_i32 in Hy. pose proof (dim_bounds y m Hm).
  assert (∀ d', 1 ≤ d' ≤ dim y m → check_within_limits (new_unchecked y m d') =
      Ret (if Z.abs (number y m d') <=? MAX_EPOCH_DAYS then Ok tt else Err "date is out of range."%string)) as Hc.
  { intros d' Hd'. assert (date_ok (new_unchecked y m d')) as Hok by done. unfold check_within_limits, within_limits.
    rewrite to_epoch_days_ok by done. cbn [outcome_bind]. destruct (rd_number _ Hok) as [_ Hb]. unfold epoch_of in *. cbn [year month day new_unchecked] in *.
    by no_wrap (Z.abs (number y m d')). }
  destruct overflow; unfold new_with_overflow.
  - rewrite regulate_constrain by lia. assert (clamp d 1 (dim y m) = Z.min d (dim y m)) as ->.
    { unfold clamp. destruct (Z.ltb_spec d 1), (Z.ltb_spec (dim y m) d); lia. }
    cbn [fallible_bind]. rewrite Hc by lia. subst limited. by destruct (_ <=? _).
  - rewrite regulate_reject by lia. destruct (Z.leb_spec d (dim y m)); [|done]. cbn [fallible_bind].
    rewrite Hc by lia. subst limited. rewrite Z.min_l by lia. by destruct (_ <=? _).
Qed.

Lemma date_add_spec self dur overflow :
  date_ok self → duration_ok dur → is_i32 (target_year self dur) →
  match date_add self dur overflow with
  | Ret (Ok r) =>
      date_ok r ∧ epoch_of r = target_epoch self dur ∧ Z.abs (target_epoch self dur) ≤ MAX_EPOCH_DAYS ∧
      Z.abs (target_start self dur) ≤ MAX_EPOCH_DAYS ∧
      (overflow = Reject → day self ≤ dim (target_year self dur) (target_month self dur))
  | Ret (Err _) =>
      MAX_EPOCH_DAYS < Z.abs (target_start self dur) ∨ MAX_EPOCH_DAYS < Z.abs (target_epoch self dur) ∨
      (overflow = Reject ∧ dim (target_year self dur) (target_month self dur) < day self)
  | Panic => False
  end.
Proof.
  intros (Hy & Hm & Hd) (Dy & Dm & Dw & Dd) Ht. pose proof (dim_bounds (year self) (month self) Hm). unfold date_add.
  unfold is_i32 in Hy. no_wrap (year self + years dur). no_wrap (month self + months dur). rewrite balance_iso_exact by lia.
  fold (target_year self dur). fold (target_month self dur). rewrite i32_id by done.
  assert (1 ≤ target_month self dur ≤ 12) as Htm by (unfold target_month; dlia). pose proof (dim_bounds (target_year self dur) _ Htm).
  no_wrap (days dur + 7 * weeks dur).
  assert (∀ d', 1 ≤ d' ≤ dim (target_year self dur) (target_month self dur) → target_start self dur = number (target_year self dur) (target_month self dur) d' →
     (Z.abs (target_start self dur) ≤ MAX_EPOCH_DAYS) → (overflow = Reject → day self ≤ dim (target_year self dur) (target_month self dur)) →
     match try_balance (target_year self dur) (target_month self dur) (i64 (d' + (days dur + 7 * weeks dur))) with
     | Ret (Ok r) => date_ok r ∧ epoch_of r = target_epoch self dur ∧ Z.abs (target_epoch self dur) ≤ MAX_EPOCH_DAYS ∧
         Z.abs (target_start self dur) ≤ MAX_EPOCH_DAYS ∧ (overflow = Reject → day self ≤ dim (target_year self dur) (target_month self dur))
     | Ret (Err _) => MAX_EPOCH_DAYS < Z.abs (target_start self dur) ∨ MAX_EPOCH_DAYS < Z.abs (target_epoch self dur) ∨
         (overflow = Reject ∧ dim (target_year self dur) (target_month self dur) < day self)
     | Panic => False
     end) as Hbal.
  { intros d' Hd' Hs Hl Hr. no_wrap (d' + (days dur + 7 * weeks dur)). unfold is_i32 in Ht.
    pose proof (try_balance_spec (target_year self dur) (target_month self dur) (d' + (days dur + 7 * weeks dur)) ltac:(lia) Htm ltac:(lia)) as Hb.
    assert (number (target_year self dur) (target_month self dur) (d' + (days dur + 7 * weeks dur)) = target_epoch self dur) as Hn
      by (unfold target_epoch; rewrite Hs; unfold number; lia). rewrite Hn in Hb.
    destruct (Z.ltb_spec MAX_EPOCH_DAYS (Z.abs (target_epoch self dur))) as [Hlt|Hle]; [rewrite Hb; auto|].
    destruct Hb as (r & -> & Hok & He). split; [exact Hok|]. split; [exact He|]. auto. }
  pose proof (new_with_overflow_spec (target_year self dur) (target_month self dur) (day self) overflow Ht Htm ltac:(lia)) as Hn.
  cbv zeta in Hn. fold (target_start self dur) in Hn. destruct overflow; rewrite Hn.
  - destruct (Z.leb_spec (Z.abs (target_start self dur)) MAX_EPOCH_DAYS); cbn [fallible_bind]; [|left; lia].
    apply Hbal; [cbn; lia|done..].
  - destruct (Z.leb_spec (day self) (dim (target_year self dur) (target_month self dur))); [|cbn; right; right; split; [done|lia]].
    destruct (Z.leb_spec (Z.abs (target_start self dur)) MAX_EPOCH_DAYS); cbn [fallible_bind]; [|left; lia].
    apply Hbal; [cbn; lia|unfold target_start; by rewrite Z.min_l by done|done|done].
Qed.

(** ** Difference *)

(** Months counted from year zero, and the whole months from one date to another in the
    direction [s]: the last one counts only if its day is reached. *)
Definition ordinal (y m : Z) : Z := 12 * y + m.

Definition whole_months (a b : IsoDate) (s : Z) : Z :=
  let n := s * (ordinal (year b) (month b) - ordinal (year a) (month a)) in
  if 0 <? s * (day a - day b) then n - 1 else n.

(** A date of the month [t] months on is past the other when [t] passes the whole months. *)
Lemma surpasses_iff a b s y m t :
  s = 1 ∨ s = -1 → 1 ≤ m ≤ 12 → 1 ≤ month a ≤ 12 → 1 ≤ month b ≤ 12 → ordinal y m = ordinal (year a) (month a) + s * t →
  surpasses (new_unchecked y m (day a)) b s = bool_decide (whole_months a b s < t).
Proof.
  intros Hs Hm Ha Hb Hord. unfold surpasses, ordering_sign, cmp_date, whole_months, ordinal in *. cbn [year month day new_unchecked].
  symmetry. destruct (Z.compare_spec y (year b)), (Z.compare_spec m (month b)), (Z.compare_spec (day a) (day b)), Hs as [-> | ->];
    cbn [ordering_sign Z.mul Z.eqb Z.opp]; (destruct (Z.ltb_spec 0 (1 * (day a - day b))), (Z.ltb_spec 0 (-1 * (day a - day b)));
    first [lia | apply bool_decide_eq_true; cbn; lia | apply bool_decide_eq_false; cbn; lia]).
Qed.

Lemma balance_ordinal y m :
  -1000000 ≤ y ≤ 1000000 → -10000000 ≤ m ≤ 10000000 →
  let p := balance_iso_year_month y m in ordinal p.1 p.2 = ordinal y m ∧ 1 ≤ p.2 ≤ 12 ∧ -2000000 ≤ p.1 ≤ 2000000.
Proof. intros Hy Hm. rewrite balance_iso_exact by lia. unfold ordinal. cbn [fst snd]. dlia. Qed.

Section until.
Context (a b : IsoDate) (s : Z).
Hypothesis sign_ok : s = 1 ∨ s = -1.
Hypothesis month_a : 1 ≤ month a ≤ 12.
Hypothesis month_b : 1 ≤ month b ≤ 12.
Hypothesis years_near : -300000 ≤ year a ≤ 300000 ∧ -300000 ≤ year b ≤ 300000.

Let T := whole_months a b s.

Lemma whole_months_bounds :
  T ≤ 12 * Z.abs (year b - year a) + 11 ∧ (0 < s * (year b - year a) → 12 * Z.abs (year b - year a) - 12 ≤ T).
Proof. unfold T, whole_months, ordinal. destruct sign_ok as [-> | ->]; destruct (0 <? _); lia. Qed.

Lemma until_years_spec fuel ys k :
  0 ≤ k ≤ 700000 → 0 ≤ T ≤ 7300000 → (12 * k ≤ T ∨ 0 ≤ 12 * k - T ≤ 12) → T / 12 + 1 - k < Z.of_nat fuel →
  until_years fuel a b s ys (s * k) = Ret (if T <? 12 * k then ys else s * (T / 12)).
Proof.
  revert ys k. induction fuel as [|fuel IH]; intros ys k Hk HT Hnear Hfuel; [dlia|]. cbn [until_years].
  assert (-1000000 ≤ s * k ≤ 1000000) as Hsk by (destruct sign_ok; subst; lia). rewrite i32_id by (unfold is_i32; lia).
  rewrite (surpasses_iff a b s _ _ (12 * k)); [|done..|unfold ordinal; lia]. fold T.
  destruct (Z.ltb_spec T (12 * k)) as [Hlt|Hge]; [by rewrite bool_decide_true|]. rewrite bool_decide_false by lia.
  rewrite i32_id by (unfold is_i32; destruct sign_ok; subst; lia). replace (s * k + s) with (s * (k + 1)) by lia.
  rewrite IH by dlia. f_equal. destruct (Z.ltb_spec T (12 * (k + 1))); [|done]. f_equal. dlia.
Qed.

Lemma until_months_spec fuel k inter :
  1 ≤ k ≤ T `mod` 12 + 1 → 0 ≤ T ≤ 7300000 → T `mod` 12 + 1 - k < Z.of_nat fuel →
  ordinal inter.1 inter.2 = ordinal (year a) (month a) + s * (12 * (T / 12) + k) → 1 ≤ inter.2 ≤ 12 →
  until_months fuel a b s (s * (k - 1)) (s * k) inter = Ret (s * (T `mod` 12)).
Proof.
  revert k inter. induction fuel as [|fuel IH]; intros k inter Hk HT Hfuel Hord Hm; [lia|]. cbn [until_months].
  assert (-1000000 ≤ inter.1 ≤ 1000000) as Hi by (unfold ordinal in Hord; destruct sign_ok; subst; dlia).
  rewrite i32_id by (unfold is_i32; lia). rewrite (surpasses_iff a b s _ _ (12 * (T / 12) + k)); [|done..]. fold T.
  destruct (decide (k = T `mod` 12 + 1)) as [->|Hne]; [rewrite bool_decide_true by dlia; f_equal; f_equal; lia|].
  rewrite bool_decide_false by dlia.
  rewrite i32_id by (unfold is_i32; destruct sign_ok; subst; dlia). replace (s * k + s) with (s * (k + 1)) by lia.
  replace (s * k) with (s * (k + 1 - 1)) by lia. no_wrap (inter.2 + s).
  destruct (balance_ordinal inter.1 (inter.2 + s)) as (Ho & Hm' & _); [lia|destruct sign_ok; subst; lia|].
  apply IH; [lia|done|lia| |done]. rewrite Ho. unfold ordinal in *. destruct sign_ok; subst; lia.
Qed.
End until.

Lemma limited_year d : date_limited d → -300000 ≤ year d ≤ 300000.
Proof.
  intros [(Hy & Hm & Hd) He]. unfold epoch_of, number, gregorian_start, MAX_EPOCH_DAYS in He. pose proof (dim_bounds (year d) _ Hm).
  pose proof (month_cut_bound (is_gregorian_leap_year (year d)) (month d)). dlia.
Qed.

(** The direction from one date to another, and that it goes there. *)
Definition direction (a b : IsoDate) : Z := - ordering_sign (cmp_date a b).

Lemma direction_spec a b :
  date_limited a → date_limited b →
  direction a b = 0 ∧ a = b ∨
  (direction a b = 1 ∨ direction a b = -1) ∧ 0 ≤ whole_months a b (direction a b) ≤ 7300000 ∧
  0 ≤ direction a b * (year b - year a) ∧ 0 < direction a b * (epoch_of b - epoch_of a).
Proof.
  intros Ha Hb. pose proof (limited_year a Ha). pose proof (limited_year b Hb). destruct Ha as [Ha _], Hb as [Hb _].
  pose proof (cmp_date_spec a b) as Hc. unfold direction, ordering_sign. pose proof Ha as (_ & Hm & Hd). pose proof Hb as (_ & Hm' & Hd').
  unfold whole_months, ordinal. cbv zeta. destruct (cmp_date a b); [by left|right..].
  - pose proof (proj1 (epoch_of_iff a b Ha Hb) Hc). cbn in Hc. cbv iota. change (- -1) with 1. destruct (Z.ltb_spec 0 (1 * (day a - day b))); lia.
  - pose proof (proj1 (epoch_of_iff b a Hb Ha) Hc). cbn in Hc. cbv iota. change (Z.opp 1) with (-1). destruct (Z.ltb_spec 0 (-1 * (day a - day b))); lia.
Qed.

(** The month a part of the whole months reaches lies between the two dates. *)
Lemma start_between a b s y m t :
  date_ok a → date_ok b → (s = 1 ∨ s = -1) → -1000000 ≤ y ≤ 1000000 → 1 ≤ m ≤ 12 →
  ordinal y m = ordinal (year a) (month a) + s * t → 0 ≤ t ≤ whole_months a b s →
  0 ≤ s * (epoch_of b - number y m (Z.min (day a) (dim y m))).
Proof.
  intros Ha Hb Hs Hy Hm Hord Ht. pose proof Ha as (_ & Hma & Hda). pose proof Hb as (_ & Hmb & Hdb). pose proof (dim_bounds y m Hm).
  set (c := new_unchecked y m (Z.min (day a) (dim y m))).
  assert (date_ok c) as Hc by (unfold date_ok, is_i32; cbn; lia).
  change (number y m (Z.min (day a) (dim y m))) with (epoch_of c).
  pose proof (epoch_of_iff b c Hb Hc) as H1. pose proof (epoch_of_iff c b Hc Hb) as H2. unfold ymd_lt in H1, H2. cbn [year month day c new_unchecked] in H1, H2.
  assert (y = year b → m = month b → dim y m = dim (year b) (month b)) as Hdim by congruence.
  unfold whole_months, ordinal in *. destruct Hs as [-> | ->].
  - destruct (Z.ltb_spec 0 (1 * (day a - day b))); lia.
  - destruct (Z.ltb_spec 0 (-1 * (day a - day b))); lia.
Qed.

(** The years and months of the difference: all whole months, or none, split as the
    largest unit asks. *)
Definition until_ym (a b : IsoDate) (u : CalUnit) : Z * Z :=
  let s := direction a b in
  let t := whole_months a b s in
  match u with
  | CalYear => (s * (t / 12), s * (t `mod` 12))
  | CalMonth => (0, s * t)
  | _ => (0, 0)
  end.

Lemma until_ym_loops a b :
  date_limited a → date_limited b → direction a b ≠ 0 →
  let s := direction a b in
  let t := whole_months a b s in
  let c := i32 (year b - year a) in
  let c := if negb (c =? 0) then i32 (c - s) else c in
  until_years 16 a b s 0 c = Ret (s * (t / 12)) ∧
  until_months 16 a b s 0 s (balance_iso_year_month (i64 (year a + s * (t / 12))) (i64 (month a + s))) = Ret (s * (t `mod` 12)).
Proof.
  intros Ha Hb Hne s t c0 c. destruct (direction_spec a b Ha Hb) as [[]|(Hs & Ht & Hyr & _)]; [done|].
  pose proof (limited_year a Ha) as Hya. pose proof (limited_year b Hb) as Hyb. destruct Ha as [(_ & Hma & _) _], Hb as [(_ & Hmb & _) _].
  fold s in Hs, Ht, Hyr. fold t in Ht. pose proof (whole_months_bounds a b s Hs Hma Hmb) as [Hup Hlow]. fold t in Hup, Hlow.
  assert (∃ k, c = s * k ∧ 0 ≤ k ≤ 700000 ∧ (12 * k ≤ t) ∧ t / 12 + 1 - k < 16) as (k & -> & Hk & Hkt & Hfuel).
  { subst c c0. rewrite (i32_id (year b - year a)) by (unfold is_i32; lia). destruct (Z.eqb_spec (year b - year a) 0) as [E|E]; cbn [negb].
    - exists 0. rewrite E. dlia.
    - rewrite i32_id by (unfold is_i32; lia). exists (Z.abs (year b - year a) - 1). destruct Hs as [-> | ->]; dlia. }
  split.
  - rewrite until_years_spec; try done; [|fold t; lia..]. fold t. destruct (Z.ltb_spec t (12 * k)); [lia|done].
  - assert (-700000 ≤ s * (t / 12) ≤ 700000) as Hst by (destruct Hs as [-> | ->]; dlia).
    no_wrap (year a + s * (t / 12)). no_wrap (month a + s).
    destruct (balance_ordinal (year a + s * (t / 12)) (month a + s)) as (Ho & Hm & _); [lia..|].
    replace (until_months 16 a b s 0 s) with (until_months 16 a b s (s * (1 - 1)) (s * 1)) by (f_equal; lia).
    apply until_months_spec; try done; [fold t; dlia|fold t; dlia|]. fold t. rewrite Ho. unfold ordinal. lia.
Qed.

Lemma ym_part_bounds a b u :
  date_limited a → date_limited b →
  let '(y, m) := until_ym a b u in
  -700000 ≤ y ≤ 700000 ∧ -7300000 ≤ m ≤ 7300000 ∧
  ∃ t, 12 * y + m = direction a b * t ∧ 0 ≤ t ≤ Z.max 0 (whole_months a b (direction a b)) ∧
    (direction a b = 0 → t = 0) ∧ 0 ≤ direction a b * y ∧ 0 ≤ direction a b * m ∧ (u = CalYear → Z.abs m < 12).
Proof.
  intros Ha Hb. unfold until_ym. destruct (direction_spec a b Ha Hb) as [[-> ->]|(Hs & Ht & _)].
  - destruct u; split_and!; try lia; exists 0; split_and!; try lia.
  - set (s := direction a b) in *. set (t := whole_months a b s) in *. destruct u.
    + split_and!; [destruct Hs as [-> | ->]; dlia..|]. exists t. destruct Hs as [-> | ->]; split_and!; dlia.
    + split_and!; [lia|lia|destruct Hs as [-> | ->]; lia..|]. exists t. destruct Hs as [-> | ->]; split_and!; (done || lia).
    + split_and!; try lia. exists 0. split_and!; (done || lia).
    + split_and!; try lia. exists 0. split_and!; (done || lia).
Qed.

(** The month the years and months of a difference reach, and its day. *)
Lemma target_ordinal self dur :
  ordinal (target_year self dur) (target_month self dur) = ordinal (year self) (month self) + (12 * years dur + months dur) ∧
  1 ≤ target_month self dur ≤ 12.
Proof. unfold ordinal, target_year, target_month. dlia. Qed.

Lemma until_start a b u :
  date_limited a → date_limited b →
  let '(y, m) := until_ym a b u in
  let dur := new_duration y m 0 0 in
  -1000000 ≤ target_year a dur ≤ 1000000 ∧ 0 ≤ direction a b * (epoch_of b - target_start a dur) ∧
  Z.abs (target_start a dur) ≤ MAX_EPOCH_DAYS ∧ (direction a b = 0 → target_start a dur = epoch_of b).
Proof.
  intros Ha Hb. pose proof (ym_part_bounds a b u Ha Hb) as Hym. destruct (until_ym a b u) as [y m].
  destruct Hym as (By & Bm & t & Hord & Ht & Ht0 & _). intros dur. destruct (target_ordinal a dur) as [Ho Hm].
  cbn [years months new_duration dur] in Ho. fold dur in Ho, Hm. pose proof (limited_year a Ha).
  assert (-1000000 ≤ target_year a dur ≤ 1000000) as Hty.
  { unfold ordinal in Ho. rewrite Hord in Ho. pose proof Ha as [(_ & ? & _) _].
    destruct (direction_spec a b Ha Hb) as [[E _]|(Hs & Hw & _)]; [rewrite Ht0 in Ho by done; lia|destruct Hs as [Es | Es]; rewrite Es in *; lia]. }
  pose proof Ha as [Hda Hla]. pose proof Hb as [Hdb Hlb]. pose proof Hda as (_ & Hma & Hdma).
  destruct (direction_spec a b Ha Hb) as [[E <-]|(Hs & Hw & _ & Hd)].
  - rewrite Ht0 in Hord by done. assert (target_year a dur = year a ∧ target_month a dur = month a) as [Ey Em] by (unfold ordinal in Ho; lia).
    assert (target_start a dur = epoch_of a) as Es by (unfold target_start, epoch_of; rewrite Ey, Em; f_equal; lia).
    rewrite E, Es. split_and!; (done || lia).
  - rewrite Hord in Ho. assert (0 ≤ direction a b * (epoch_of b - target_start a dur)) as H1 by (eapply start_between; eauto; lia).
    assert (0 ≤ - direction a b * (epoch_of a - target_start a dur)) as H2.
    { pose proof Hda as (_ & _ & _). unfold target_start.
      set (c := new_unchecked (target_year a dur) (target_month a dur) (Z.min (day a) (dim (target_year a dur) (target_month a dur)))).
      pose proof (dim_bounds (target_year a dur) _ Hm). assert (date_ok c) as Hc by (unfold date_ok, is_i32; cbn; lia).
      change (0 ≤ - direction a b * (epoch_of a - epoch_of c)).
      pose proof (epoch_of_iff a c Hda Hc) as G1. pose proof (epoch_of_iff c a Hc Hda) as G2. unfold ymd_lt in G1, G2. cbn [year month day c new_unchecked] in G1, G2.
      assert (target_year a dur = year a → target_month a dur = month a → dim (target_year a dur) (target_month a dur) = dim (year a) (month a)) by congruence.
      unfold ordinal in Ho. destruct Hs as [Es | Es]; rewrite Es in *; lia. }
    split_and!; [lia..| |intros E; rewrite E in Hs; lia]. destruct Hs as [Es | Es]; rewrite Es in *; lia.
Qed.

Lemma date_until_shape a b u :
  date_limited a → date_limited b →
  let '(y, m) := until_ym a b u in
  let n := epoch_of b - target_start a (new_duration y m 0 0) in
  date_until a b u =
    Ret (if bool_decide (u = CalWeek) then new_duration y m (Z.quot n 7) (Z.rem n 7) else new_duration y m 0 n).
Proof.
  intros Ha Hb. pose proof (until_start a b u Ha Hb) as Hs. pose proof (ym_part_bounds a b u Ha Hb) as Hym.
  destruct (until_ym a b u) as [y m] eqn:Eym. destruct Hs as (Hty & _ & Hst & Hst0). destruct Hym as (By & Bm & _). intros n.
  destruct (target_ordinal a (new_duration y m 0 0)) as [_ Hm]. pose proof (limited_year a Ha). unfold date_until. fold (direction a b).
  destruct (Z.eqb_spec (direction a b) 0) as [E|E].
  - assert (n = 0) as -> by (subst n; rewrite Hst0 by done; lia). unfold until_ym in Eym. rewrite E in Eym.
    destruct u; simplify_eq; done.
  - assert (until_years_months a b (direction a b) u = Ret (y, m)) as ->.
    { destruct (until_ym_loops a b Ha Hb E) as [Ey Em]. destruct (direction_spec a b Ha Hb) as [[]|(Hs & Ht & _)]; [done|].
      unfold until_ym in Eym. unfold until_years_months. destruct u; cbn [bool_decide orb decide]; simplify_eq; try done; cbv zeta; rewrite Ey; cbn [outcome_bind]; rewrite Em; cbn [outcome_bind]; [done|].
      do 2 f_equal. set (t := whole_months a b (direction a b)) in *.
      rewrite (i32_id (_ * 12)) by (unfold is_i32; destruct Hs as [-> | ->]; dlia).
      rewrite i32_id by (unfold is_i32; destruct Hs as [-> | ->]; dlia). dlia. }
    cbn [outcome_bind]. no_wrap (year a + y). destruct Ha as [(Hya & Hma & Hda) _]. no_wrap (month a + m). rewrite balance_iso_exact by lia. cbn [fst snd].
    change (year a + y + (month a + m - 1) / 12) with (target_year a (new_duration y m 0 0)).
    change ((month a + m - 1) `mod` 12 + 1) with (target_month a (new_duration y m 0 0)).
    set (ty := target_year a (new_duration y m 0 0)) in *. set (tm := target_month a (new_duration y m 0 0)) in *.
    rewrite i32_id by (unfold is_i32; lia). rewrite regulate_constrain by lia. cbn [outcome_bind].
    pose proof (dim_bounds ty tm Hm). assert (clamp (day a) 1 (dim ty tm) = Z.min (day a) (dim ty tm)) as ->.
    { unfold clamp. destruct (Z.ltb_spec (day a) 1), (Z.ltb_spec (dim ty tm) (day a)); lia. }
    destruct Hb as [Hb Hlb]. destruct (rd_number b Hb) as [-> _]. cbn [outcome_bind].
    destruct (fixed_number_iso ty tm (Z.min (day a) (dim ty tm))) as [Ec _]; [lia..|]. unfold rd. cbn [year month day new_unchecked].
    rewrite Ec. cbn [outcome_bind]. fold (target_start a (new_duration y m 0 0)) in *. unfold MAX_EPOCH_DAYS, UNIX_EPOCH_RD in *.
    change (number ty tm (Z.min (day a) (dim ty tm))) with (target_start a (new_duration y m 0 0)).
    rewrite (i64_id (_ - 719163)) by (unfold is_i64; lia). rewrite (i64_id (_ - 719163)) by (unfold is_i64; lia).
    replace (epoch_of b + 719163 - 719163 - (target_start a (new_duration y m 0 0) + 719163 - 719163)) with n by (subst n; lia).
    rewrite (i64_id n) by (unfold is_i64; lia). by destruct (bool_decide (u = CalWeek)).
Qed.

(** ** Properties *)

(** C32: for any two dates within Temporal's limits, in either order, and any largest
    unit, the difference is computed (the loops end and nothing panics), adding it to the first date
    gives the second, all its parts point from the first to the second, a part is used only when the unit asks
    for it, and the smaller parts are less than the next larger unit. *)
Theorem date_until_add (a b : IsoDate) (u : CalUnit) :
  date_limited a → date_limited b →
  ∃ dur, date_until a b u = Ret dur ∧ date_add a dur Constrain = Ret (Ok b) ∧
    Forall (λ v, 0 ≤ Z.sgn (epoch_of b - epoch_of a) * v) [years dur; months dur; weeks dur; days dur] ∧
    match u with
    | CalYear => Z.abs (months dur) < 12 ∧ weeks dur = 0
    | CalMonth => years dur = 0 ∧ weeks dur = 0
    | CalWeek => years dur = 0 ∧ months dur = 0 ∧ Z.abs (days dur) < 7
    | CalDay => years dur = 0 ∧ months dur = 0 ∧ weeks dur = 0
    end.
Proof.
  intros Ha Hb. pose proof (date_until_shape a b u Ha Hb) as Hshape. pose proof (until_start a b u Ha Hb) as Hstart.
  pose proof (ym_part_bounds a b u Ha Hb) as Hym. destruct (until_ym a b u) as [y m] eqn:Eym. cbv zeta in Hshape.
  set (n := epoch_of b - target_start a (new_duration y m 0 0)) in *. destruct Hstart as (Hty & Hn & Hs & _). destruct Hym as (By & Bm & t & _ & _ & _ & Sy & Sm & H12).
  assert (∃ w d, date_until a b u = Ret (new_duration y m w d) ∧ d + 7 * w = n ∧ 0 ≤ direction a b * w ∧ 0 ≤ direction a b * d ∧
    (if bool_decide (u = CalWeek) then Z.abs d < 7 else w = 0)) as (w & d & -> & En & Sw & Sd & Hw).
  { assert (direction a b = 0 ∧ n = 0 ∨ direction a b = 1 ∧ 0 ≤ n ∨ direction a b = -1 ∧ n ≤ 0) as Hdir.
    { pose proof (until_start a b u Ha Hb) as G. rewrite Eym in G. destruct G as (_ & _ & _ & G0). subst n.
      destruct (direction_spec a b Ha Hb) as [[E _]|([E|E] & _)]; rewrite E in *; [left; rewrite G0 by done|..]; lia. }
    destruct (bool_decide (u = CalWeek)); [|exists 0, n; split_and!; (done || lia)].
    exists (Z.quot n 7), (Z.rem n 7). split; [done|]. destruct Hdir as [[E1 E2]|[[E1 E2]|[E1 E2]]]; rewrite E1; dlia. }
  exists (new_duration y m w d). split; [done|]. split; [|split].
  - pose proof Ha as [Hda Hla]. pose proof Hb as [Hdb Hlb]. unfold MAX_EPOCH_DAYS in *.
    assert (n = d + 7 * w ∧ Z.abs w ≤ 300000000 ∧ Z.abs d ≤ 300000000) as (_ & Bw & Bd).
    { split; [lia|]. destruct (direction_spec a b Ha Hb) as [[E _]|([E|E] & _)]; rewrite E in *; destruct (bool_decide (u = CalWeek)); subst n; lia. }
    pose proof (date_add_spec a (new_duration y m w d) Constrain Hda) as Hadd.
    change (target_year a (new_duration y m w d)) with (target_year a (new_duration y m 0 0)) in Hadd.
    change (target_start a (new_duration y m w d)) with (target_start a (new_duration y m 0 0)) in Hadd.
    assert (target_epoch a (new_duration y m w d) = epoch_of b) as Ht
      by (unfold target_epoch; cbn [days weeks new_duration];
          change (target_start a (new_duration y m w d)) with (target_start a (new_duration y m 0 0)); lia).
    rewrite Ht in Hadd. assert (duration_ok (new_duration y m w d)) as Hdur by (unfold duration_ok; cbn; lia).
    specialize (Hadd Hdur ltac:(unfold is_i32; lia)). unfold MAX_EPOCH_DAYS in Hadd.
    destruct (date_add a (new_duration y m w d) Constrain) as [[r|e]|]; [|exfalso; destruct Hadd as [?|[?|[? _]]]; (done || lia)|done].
    destruct Hadd as (Hr & He & _). do 2 f_equal. by apply epoch_of_inj.
  - destruct (direction_spec a b Ha Hb) as [[E <-]|([E|E] & _ & _ & Hlt)]; cbn [years months weeks days new_duration].
    + rewrite Z.sub_diag. repeat constructor; lia.
    + rewrite Z.sgn_pos by lia. rewrite E in *. repeat constructor; lia.
    + rewrite Z.sgn_neg by lia. rewrite E in *. repeat constructor; lia.
  - unfold until_ym in Eym. cbn [years months weeks days new_duration]. destruct u; simplify_eq; cbn in Hw; auto.
Qed.

Lemma date_until_add_witness :
  ∃ dur, date_until (new_unchecked 2024 1 31) (new_unchecked 2021 2 28) CalYear = Ret dur ∧
         date_add (new_unchecked 2024 1 31) dur Constrain = Ret (Ok (new_unchecked 2021 2 28)).
Proof.
  destruct (date_until_add (new_unchecked 2024 1 31) (new_unchecked 2021 2 28) CalYear) as (dur & H1 & H2 & _).
  - split; [|vm_compute; discriminate]. split; [vm_compute; split; [discriminate|reflexivity]|]. vm_compute. repeat split; discriminate.
  - split; [|vm_compute; discriminate]. split; [vm_compute; split; [discriminate|reflexivity]|]. vm_compute. repeat split; discriminate.
  - exists dur. split; assumption.
Defined.

(** Temporal admits durations of up to 2^32 - 1 years.  The year reached is cut to 32
    bits before the limits are checked: 2000-01-01 and 4294967295 years is 1999-01-01,
    and not out of range. *)
Lemma date_add_wraps :
  date_add (new_unchecked 2000 1 1) (new_duration 4294967295 0 0 0) Constrain = Ret (Ok (new_unchecked 1999 1 1)).
Proof. vm_compute. reflexivity. Qed.

(** * ISO weeks and epoch nanoseconds *)

Open Scope cruft_scope.
Open Scope Z_scope.

(** ** Weeks *)

Lemma as_u16_id z : 0 ≤ z < 65536 → as_u16 z = z.
Proof. intros Hz. by apply Z.mod_small. Qed.

(** Years with 53 weeks begin or end with a Thursday. *)
Lemma weeks_in_year_spec y :
  is_i32 y →
  iso_weeks_in_year y = if (gregorian_start (y + 1) `mod` 7 =? 4) || (gregorian_start y `mod` 7 =? 3) then 53 else 52.
Proof.
  intros Hy. unfold is_i32 in Hy. unfold iso_weeks_in_year. no_wrap (y - 1).
  assert (∀ z, -3000000000 ≤ z ≤ 3000000000 → i64 (z + z / 4 - z / 100 + z / 400) `mod` 7 = gregorian_start (z + 1) `mod` 7) as Hp.
  { intros z Hz. no_wrap (z + z / 4 - z / 100 + z / 400). unfold gregorian_start. replace (z + 1 - 1) with z by lia.
    replace (365 * z + z / 4 - z / 100 + z / 400) with (z + z / 4 - z / 100 + z / 400 + 52 * z * 7) by lia. by rewrite Z.mod_add. }
  rewrite !Hp by lia. by replace (y - 1 + 1) with y by lia.
Qed.

Lemma day_of_week_spec d : date_ok d → day_of_week d = Ret ((epoch_of d + 719163 - 1) `mod` 7 + 1).
Proof.
  intros Hd. unfold day_of_week. destruct (rd_number d Hd) as [-> Hb]. cbn [outcome_bind]. no_wrap (epoch_of d + 719163 - 1).
  f_equal. apply as_u16_id. dlia.
Qed.

Lemma day_of_year_spec d :
  date_ok d → day_of_year d = Ret (epoch_of d + 719163 - gregorian_start (year d)) ∧
  1 ≤ epoch_of d + 719163 - gregorian_start (year d) ≤ 365 + (if is_gregorian_leap_year (year d) then 1 else 0).
Proof.
  intros Hd. unfold day_of_year. destruct (rd_number d Hd) as [-> Hb]. cbn [outcome_bind]. destruct Hd as (Hy & Hm & Hd). unfold is_i32 in Hy.
  destruct (fixed_number_iso (year d) 1 1) as [-> Hs]; [lia..|]. cbn [outcome_bind]. unfold epoch_of, number in *.
  assert (month_cut (is_gregorian_leap_year (year d)) 1 = 0) as E1 by done. rewrite E1 in *.
  pose proof (month_cut_bound (is_gregorian_leap_year (year d)) (month d)) as Hc. unfold dim in Hd.
  assert (month_cut (is_gregorian_leap_year (year d)) (month d + 1) ≤ 365 + (if is_gregorian_leap_year (year d) then 1 else 0)) as Hend.
  { pose proof (month_start_le GREGORIAN (year d) (month d + 1) 13) as Hle. cbn in Hle. etransitivity; [apply Hle; lia|].
    by destruct (is_gregorian_leap_year (year d)). }
  split; [|destruct (is_gregorian_leap_year (year d)); lia]. rewrite (i64_id (_ - _ + 1)) by (unfold is_i64; lia).
  rewrite as_u16_id by (destruct (is_gregorian_leap_year (year d)); lia). f_equal. lia.
Qed.

Lemma year_end y : gregorian_start (y + 1) = gregorian_start y + 365 + (if is_gregorian_leap_year y then 1 else 0).
Proof. rewrite gregorian_next. destruct (is_gregorian_leap_year y); [change (month_cut true 13) with 366|change (month_cut false 13) with 365]; lia. Qed.

(** The ISO week of a date: its week is the one whose Thursday is that of the date,
    in the year that holds the Thursday, the first Thursday of a year being in week 1. *)
Lemma week_of_year_thursday (d : IsoDate) :
  date_ok d → is_i32 (year d - 1) → is_i32 (year d + 1) →
  let thursday := epoch_of d - (epoch_of d + 719163 - 1) `mod` 7 + 3 in
  ∃ wy w, week_of_year d = Ret (wy, w) ∧ number wy 1 1 ≤ thursday < number (wy + 1) 1 1 ∧
          number wy 1 1 + 7 * (w - 1) ≤ thursday < number wy 1 1 + 7 * w.
Proof.
  intros Hd Hp Hn thursday. unfold week_of_year. destruct (day_of_year_spec d Hd) as [-> Ho]. rewrite day_of_week_spec by done. cbn [outcome_bind].
  pose proof Hd as (Hy & _). unfold is_i32 in *. no_wrap (year d - 1). rewrite !weeks_in_year_spec by (unfold is_i32; lia).
  rewrite !i32_id by (unfold is_i32; lia). replace (year d - 1 + 1) with (year d) by lia.
  pose proof (year_end (year d)) as E1. pose proof (year_end (year d - 1)) as E0. replace (year d - 1 + 1) with (year d) in E0 by lia.
  pose proof (year_end (year d + 1)) as E2.
  assert (∀ y, number y 1 1 = gregorian_start y + 1 - 719163) as Hnum.
  { intros y. unfold number. assert (month_cut (is_gregorian_leap_year y) 1 = 0) as -> by done. lia. }
  subst thursday. set (n := epoch_of d + 719163) in *. replace (epoch_of d) with (n - 719163) in * by (subst n; lia). clearbody n.
  set (g := gregorian_start (year d)) in *. set (l := is_gregorian_leap_year (year d)) in *. set (l0 := is_gregorian_leap_year (year d - 1)) in *.
  set (w := (n - g - ((n - 1) `mod` 7 + 1) + 10) / 7).
  destruct (Z.ltb_spec w 1) as [Hw|Hw].
  - eexists _, _. split; [done|]. rewrite !Hnum. replace (year d - 1 + 1) with (year d) by lia. fold g.
    destruct (Z.eqb_spec (g `mod` 7) 4), (Z.eqb_spec (gregorian_start (year d - 1) `mod` 7) 3); cbn [orb]; destruct l0; subst w; dlia.
  - destruct (Z.ltb_spec (if (gregorian_start (year d + 1) `mod` 7 =? 4) || (g `mod` 7 =? 3) then 53 else 52) w) as [Hlt|Hge].
    + eexists _, _. split; [done|]. rewrite !Hnum.
      destruct (Z.eqb_spec (gregorian_start (year d + 1) `mod` 7) 4), (Z.eqb_spec (g `mod` 7) 3); cbn [orb] in Hlt;
        destruct l, (is_gregorian_leap_year (year d + 1)); subst w; dlia.
    + eexists _, _. split; [done|]. rewrite !Hnum, as_u8_id by (unfold is_u8; subst w; destruct l; dlia). fold g.
      destruct (Z.eqb_spec (gregorian_start (year d + 1) `mod` 7) 4), (Z.eqb_spec (g `mod` 7) 3); cbn [orb] in Hge; destruct l; subst w; dlia.
Qed.

(** ** Times *)

Definition time_ok (t : IsoTime) : Prop :=
  is_valid_time (hour t) (minute t) (second t) (millisecond t) (microsecond t) (nanosecond t) = true.

Lemma time_ok_iff t :
  time_ok t ↔ 0 ≤ hour t ≤ 23 ∧ 0 ≤ minute t ≤ 59 ∧ 0 ≤ second t ≤ 59 ∧ 0 ≤ millisecond t ≤ 999 ∧ 0 ≤ microsecond t ≤ 999 ∧
    0 ≤ nanosecond t ≤ 999.
Proof. unfold time_ok, is_valid_time, in_range. rewrite !andb_true_iff, !Z.leb_le. lia. Qed.

(** The nanoseconds of six components. *)
Definition nanos_of (h m s ms mis ns : Z) : Z := ((((h * 60 + m) * 60 + s) * 1000 + ms) * 1000 + mis) * 1000 + ns.

Lemma to_nanoseconds_spec t :
  time_ok t →
  to_nanoseconds t = nanos_of (hour t) (minute t) (second t) (millisecond t) (microsecond t) (nanosecond t) ∧
  0 ≤ to_nanoseconds t < NS_PER_DAY.
Proof.
  intros Ht%time_ok_iff. unfold to_nanoseconds, nanos_of, NS_PER_DAY, MS_PER_DAY.
  rewrite (i128_id (hour t * 60 + minute t)) by (unfold is_i128; lia).
  rewrite (i128_id (_ * 60 + second t)) by (unfold is_i128; lia). rewrite (i128_id (_ + millisecond t)) by (unfold is_i128; lia).
  rewrite (i128_id (_ + microsecond t)) by (unfold is_i128; lia). rewrite i128_id by (unfold is_i128; lia). lia.
Qed.

(** Names the quotient and the remainder of a division by a positive constant. *)
Ltac carry x k q r :=
  let Hq := fresh in let Hr := fresh in
  pose proof (Z.div_mod x k ltac:(done)) as Hq; pose proof (Z.mod_pos_bound x k ltac:(done)) as Hr;
  set (q := x / k) in *; set (r := x `mod` k) in *; clearbody q r.

(** Carrying keeps the whole: the days and the time of day that come out are worth the
    components that went in. *)
Lemma balance_time_spec h m s ms mis ns :
  Z.abs h ≤ 1000000000000000 → Z.abs m ≤ 1000000000000000 → Z.abs s ≤ 1000000000000000 → Z.abs ms ≤ 1000000000000000 →
  Z.abs mis ≤ 1000000000000000000000 → Z.abs ns ≤ 1000000000000000000000 →
  let '(dd, t) := balance_time h m s ms mis ns in
  time_ok t ∧ dd * NS_PER_DAY + to_nanoseconds t = nanos_of h m s ms mis ns.
Proof.
  intros Hh Hm Hs Hms Hmis Hns. unfold balance_time.
  carry ns 1000 q0 r0. rewrite (i128_id (mis + q0)) by (unfold is_i128; lia).
  carry (mis + q0) 1000 q1 r1. no_wrap q1. no_wrap (ms + q1). carry (ms + q1) 1000 q2 r2. no_wrap (s + q2).
  carry (s + q2) 60 q3 r3. no_wrap (m + q3). carry (m + q3) 60 q4 r4. no_wrap (h + q4). carry (h + q4) 24 q5 r5.
  rewrite !as_u8_id by (unfold is_u8; lia). rewrite !as_u16_id by lia.
  set (t := new_time r5 r4 r3 r2 r1 r0). assert (time_ok t) as Ht by (apply time_ok_iff; cbn; lia).
  split; [done|]. rewrite (proj1 (to_nanoseconds_spec t Ht)). cbn [hour minute second millisecond microsecond nanosecond t new_time].
  unfold nanos_of, NS_PER_DAY, MS_PER_DAY. lia.
Qed.

Lemma balance_time_valid t :
  time_ok t → balance_time (hour t) (minute t) (second t) (millisecond t) (microsecond t) (nanosecond t) = (0, t).
Proof.
  intros Ht%time_ok_iff. pose proof Ht as Ht'. destruct t as [h m s ms mis ns]. cbn in *. unfold balance_time.
  rewrite i128_id by (unfold is_i128; dlia). replace (mis + ns / 1000) with mis by dlia. no_wrap (mis / 1000).
  replace (ms + mis / 1000) with ms by dlia. no_wrap ms. replace (s + ms / 1000) with s by dlia. no_wrap s.
  replace (m + s / 60) with m by dlia. no_wrap m. replace (h + m / 60) with h by dlia. no_wrap h.
  rewrite !as_u8_id by (unfold is_u8; dlia). rewrite !as_u16_id by dlia. f_equal; [dlia|unfold new_time; f_equal; dlia].
Qed.

Lemma to_nanoseconds_inj t u : time_ok t → time_ok u → to_nanoseconds t = to_nanoseconds u → t = u.
Proof.
  intros Ht Hu. rewrite (proj1 (to_nanoseconds_spec t Ht)), (proj1 (to_nanoseconds_spec u Hu)).
  apply time_ok_iff in Ht. apply time_ok_iff in Hu. destruct t, u. unfold nanos_of. cbn in *. intros E. f_equal; lia.
Qed.

(** ** Epoch nanoseconds *)

(** Well beyond the range of instants, 8.64 times 10 to the 21. *)
Definition nanos_ok (ns : Z) : Prop := Z.abs ns ≤ 10000000000000000000000.

Lemma from_epoch_nanos_spec ns :
  nanos_ok ns →
  ∃ dt, from_epoch_nanos ns = Ret dt ∧ date_ok (date dt) ∧ time_ok (time dt) ∧
    epoch_of (date dt) = ns / NS_PER_DAY ∧ to_nanoseconds (time dt) = ns `mod` NS_PER_DAY.
Proof.
  intros Hns. unfold nanos_ok in Hns. unfold from_epoch_nanos, NS_PER_DAY, MS_PER_DAY.
  change (24 * 60 * 60 * 1000) with 86400000. change (86400000 * 1000000) with 86400000000000.
  rewrite (i128_id (ns - ns `mod` 1000000)) by (unfold is_i128; dlia). replace ((ns - ns `mod` 1000000) / 1000000) with (ns / 1000000) by dlia.
  replace (ns / 86400000000000) with (ns / 1000000 / 86400000) by (rewrite Z.div_div by done; done).
  assert (ns `mod` 86400000000000 = (ns / 1000000) `mod` 86400000 * 1000000 + ns `mod` 1000000) as -> by dlia.
  carry ns 1000000 q r. no_wrap q. assert (Z.abs q ≤ 10000000000000000) as Hq by lia. clear Hns.
  carry q 86400000 e ms.
  unfold UNIX_EPOCH_RD. no_wrap (e + 719163). destruct (ymd_of_number (e + 719163)) as (y & m & d & -> & Hy & Hm & Hd & Hnum); [lia|].
  cbn [outcome_bind]. pose proof (dim_bounds y m Hm). rewrite (i32_id y), !as_u8_id by (unfold is_i32, is_u8; lia).
  no_wrap (r / 1000). no_wrap (r `mod` 1000).
  assert ((q / 3600000) `mod` 24 = ms / 3600000 ∧ (q / 60000) `mod` 60 = (ms / 60000) `mod` 60 ∧ (q / 1000) `mod` 60 = (ms / 1000) `mod` 60 ∧
          q `mod` 1000 = ms `mod` 1000) as (-> & -> & -> & ->) by dlia.
  set (t := new_time (ms / 3600000) ((ms / 60000) `mod` 60) ((ms / 1000) `mod` 60) (ms `mod` 1000) (r / 1000) (r `mod` 1000)).
  assert (time_ok t) as Ht by (apply time_ok_iff; cbn; dlia). 
  assert (balance_time (ms / 3600000) ((ms / 60000) `mod` 60) ((ms / 1000) `mod` 60) (ms `mod` 1000) (r / 1000) (r `mod` 1000) = (0, t)) as ->
    by exact (balance_time_valid t Ht).
  cbn [negb Z.eqb outcome_bind]. eexists. split; [done|]. cbn [date time]. split; [|split; [done|]].
  - split; [cbn; unfold is_i32; lia|done].
  - split; [unfold epoch_of; cbn; lia|]. rewrite (proj1 (to_nanoseconds_spec t Ht)). cbn [hour minute second millisecond microsecond nanosecond t new_time].
    unfold nanos_of. dlia.
Qed.

(** An instant is a date and a time and back: any count of nanoseconds around the
    epoch, beyond Temporal's range on both sides, is converted to a valid date and time
    that are worth it, any valid date-time in that range to nanoseconds that convert back
    to it, and balancing time components, negative or large, gives a valid time and the
    days carried, worth the same together. *)
Lemma epoch_nanos_roundtrip (ns : Z) (dt : IsoDateTime) (h m s ms mis n : Z) :
  nanos_ok ns → date_ok (date dt) → Z.abs (epoch_of (date dt)) ≤ 115000000 → time_ok (time dt) →
  Forall (λ v, Z.abs v ≤ 1000000000000000) [h; m; s; ms] → Forall (λ v, Z.abs v ≤ 1000000000000000000000) [mis; n] →
  (∃ dt', from_epoch_nanos ns = Ret dt' ∧ date_ok (date dt') ∧ time_ok (time dt') ∧ to_epoch_nanos dt' = Ret ns) ∧
  (∃ ns', to_epoch_nanos dt = Ret ns' ∧ from_epoch_nanos ns' = Ret dt) ∧
  (let '(dd, t) := balance_time h m s ms mis n in time_ok t ∧ dd * NS_PER_DAY + to_nanoseconds t = nanos_of h m s ms mis n).
Proof.
  intros Hns Hd He Ht Hc Hc'. split; [|split].
  - destruct (from_epoch_nanos_spec ns Hns) as (dt' & E & Hd' & Ht' & Ed & Et). exists dt'. split_and!; try done.
    unfold to_epoch_nanos. rewrite to_epoch_days_ok by done. cbn [outcome_bind]. rewrite Ed, Et. unfold NS_PER_DAY, MS_PER_DAY, nanos_ok in *.
    rewrite i128_id by (unfold is_i128; dlia). f_equal. dlia.
  - destruct (to_nanoseconds_spec (time dt) Ht) as [_ Hb]. unfold NS_PER_DAY, MS_PER_DAY in Hb.
    exists (epoch_of (date dt) * NS_PER_DAY + to_nanoseconds (time dt)). split.
    + unfold to_epoch_nanos. rewrite to_epoch_days_ok by done. cbn [outcome_bind]. unfold NS_PER_DAY, MS_PER_DAY. by rewrite i128_id by (unfold is_i128; lia).
    + destruct (from_epoch_nanos_spec (epoch_of (date dt) * NS_PER_DAY + to_nanoseconds (time dt))) as (dt' & -> & Hd' & Ht' & Ed & Et);
        [unfold nanos_ok, NS_PER_DAY, MS_PER_DAY; lia|].
      unfold NS_PER_DAY, MS_PER_DAY in Ed, Et. f_equal. destruct dt as [da ti], dt' as [da' ti']. cbn in *. f_equal.
      * apply epoch_of_inj; [done..|]. rewrite Ed. dlia.
      * apply to_nanoseconds_inj; [done..|]. rewrite Et. dlia.
  - apply Forall_cons in Hc as [Hh [Hm [Hs [Hms _]%Forall_cons]%Forall_cons]%Forall_cons].
    apply Forall_cons in Hc' as [Hmis [Hn _]%Forall_cons]. by apply balance_time_spec.
Qed.

