(* ===== verification/Temporal.v ===== *)
(** * Temporal arithmetic (rusty-js-temporal-core/src/lib.rs)

    Rounding to increments in Temporal's nine modes, exact time durations and their
    components, and the rounding of calendar durations against a date.  The conversions to
    [f64] are not modelled. *)

From stdpp Require Import prelude.
From Stdlib Require Import Lia String.
From S2P Require Import Prelude Bytes Bits Calendar CalendarTheory IsoDates IsoDateTheory.

Open Scope cruft_scope.
Open Scope Z_scope.

(** ** Rounding *)

Inductive RoundingMode := Ceil | Floor | Expand | Trunc | HalfCeil | HalfFloor | HalfExpand | HalfTrunc | HalfEven.

Inductive UnsignedRoundingMode := UZero | UInfinity | UHalfZero | UHalfInfinity | UHalfEven.

#[export] Instance UnsignedRoundingMode_eq_dec : EqDecision UnsignedRoundingMode.
Proof. solve_decision. Defined.

(** [RoundingMode::negate]. *)
Definition negate (m : RoundingMode) : RoundingMode :=
  match m with
  | Ceil => Floor | Floor => Ceil | HalfCeil => HalfFloor | HalfFloor => HalfCeil
  | Trunc => Trunc | Expand => Expand | HalfTrunc => HalfTrunc | HalfExpand => HalfExpand | HalfEven => HalfEven
  end.

Definition get_unsigned_round_mode (m : RoundingMode) (is_positive : bool) : UnsignedRoundingMode :=
  match m, is_positive with
  | Ceil, true => UInfinity
  | (Ceil | Trunc), _ => UZero
  | Floor, true => UZero
  | (Floor | Expand), _ => UInfinity
  | HalfCeil, true => UHalfInfinity
  | (HalfCeil | HalfTrunc), _ => UHalfZero
  | HalfFloor, true => UHalfZero
  | (HalfFloor | HalfExpand), _ => UHalfInfinity
  | HalfEven, _ => UHalfEven
  end.

Definition apply_unsigned_rounding_mode (dividend divisor : Z) (mode : UnsignedRoundingMode) : outcome Z :=
  let r1 := div_euclid dividend divisor in
  let rem := rem_euclid dividend divisor in
  if divisor =? 0 then Panic
  else if rem =? 0 then Ret r1
  else
    let r2 := i128 (r1 + 1) in
    match mode with
    | UZero => Ret r1
    | UInfinity => Ret r2
    | _ =>
        let midway := divisor / 2 in
        let cmp := rem ?= midway in
        let cmp := match cmp with Eq => if negb (divisor `mod` 2 =? 0) then Lt else Eq | c => c end in
        match cmp with
        | Lt => Ret r1
        | Gt => Ret r2
        | Eq =>
            match mode with
            | UHalfZero => Ret r1
            | UHalfInfinity => Ret r2
            | UHalfEven => Ret (if r1 `mod` 2 =? 0 then r1 else r2)
            | _ => Panic
            end
        end
    end.

Definition round_to_increment (number increment : Z) (mode : RoundingMode) : outcome Z :=
  let is_positive := 0 <=? number in
  let unsigned := get_unsigned_round_mode mode is_positive in
  let magnitude := i128 (Z.abs number) in
  quotient <-! apply_unsigned_rounding_mode magnitude increment unsigned;
  let quotient := if negb is_positive then i128 (- quotient) else quotient in
  Ret (i128 (quotient * increment)).

(** ** Units and time durations *)

Definition NS_PER_MICROSECOND : Z := 1000.
Definition NS_PER_MILLISECOND : Z := 1000000.
Definition NS_PER_SECOND : Z := 1000000000.
Definition NS_PER_MINUTE : Z := 60 * NS_PER_SECOND.
Definition NS_PER_HOUR : Z := 60 * NS_PER_MINUTE.
Definition NS_PER_DAY : Z := 24 * NS_PER_HOUR.

Inductive Unit := Year | Month | Week | Day | Hour | Minute | Second | Millisecond | Microsecond | Nanosecond.

#[export] Instance Unit_eq_dec : EqDecision Unit.
Proof. solve_decision. Defined.

Definition as_nanoseconds (u : Unit) : option Z :=
  match u with
  | Hour => Some NS_PER_HOUR
  | Minute => Some NS_PER_MINUTE
  | Second => Some NS_PER_SECOND
  | Millisecond => Some NS_PER_MILLISECOND
  | Microsecond => Some NS_PER_MICROSECOND
  | Nanosecond => Some 1
  | Day => Some NS_PER_DAY
  | Year | Month | Week => None
  end.

(** [TimeDuration] is its count of nanoseconds. *)
Notation TimeDuration := Z (only parsing).

Record TimeComponents := {
  c_days : Z; c_hours : Z; c_minutes : Z; c_seconds : Z; c_milliseconds : Z; c_microseconds : Z; c_nanoseconds : Z }.

Definition from_components (hours minutes seconds milliseconds microseconds nanoseconds : Z) : TimeDuration :=
  i128 (hours * NS_PER_HOUR + minutes * NS_PER_MINUTE + seconds * NS_PER_SECOND + milliseconds * NS_PER_MILLISECOND +
        microseconds * NS_PER_MICROSECOND + nanoseconds).

Definition total (d : TimeDuration) (u : Unit) : option (Z * Z) := (λ n, (d, n)) <$> as_nanoseconds u.

(** [i128::checked_mul]. *)
Definition checked_mul128 (a b : Z) : option Z := if bool_decide (i128 (a * b) = a * b) then Some (a * b) else None.

(** [TimeDuration::round]; the rounding may panic only where [round_to_increment] does. *)
Definition round_duration (d : TimeDuration) (smallest_unit : Unit) (increment : Z) (mode : RoundingMode) : outcome (option TimeDuration) :=
  match as_nanoseconds smallest_unit with
  | None => Ret None
  | Some unit_ns =>
      match checked_mul128 unit_ns increment with
      | None => Ret None
      | Some step => r <-! round_to_increment d step mode; Ret (Some r)
      end
  end.

Definition scales : list Z := [NS_PER_DAY; NS_PER_HOUR; NS_PER_MINUTE; NS_PER_SECOND; NS_PER_MILLISECOND; NS_PER_MICROSECOND; 1].

Definition start_index (largest_unit : Unit) : nat :=
  match largest_unit with
  | Year | Month | Week | Day => 0
  | Hour => 1
  | Minute => 2
  | Second => 3
  | Millisecond => 4
  | Microsecond => 5
  | Nanosecond => 6
  end.

(** [for i in start..7 { out[i] = (rem / scales[i]) * sign; rem %= scales[i]; }]. *)
Fixpoint split_scales (sign rem : Z) (scales : list Z) : list Z :=
  match scales with
  | [] => []
  | s :: scales => i128 (Z.quot rem s * sign) :: split_scales sign (Z.rem rem s) scales
  end.

Definition to_components (d : TimeDuration) (largest_unit : Unit) : TimeComponents :=
  let sign := if d <? 0 then -1 else 1 in
  let start := start_index largest_unit in
  let out := replicate start 0 ++ split_scales sign (i128 (Z.abs d)) (drop start scales) in
  let at_ (i : nat) := default 0 (out !! i) in
  {| c_days := at_ 0%nat; c_hours := at_ 1%nat; c_minutes := at_ 2%nat; c_seconds := at_ 3%nat;
     c_milliseconds := at_ 4%nat; c_microseconds := at_ 5%nat; c_nanoseconds := at_ 6%nat |}.

(** ** Calendar durations *)

(** [UnsignedRoundingMode::apply_value]. *)
Definition apply_value (mode : UnsignedRoundingMode) (dividend divisor r1 r2 : Z) : Z :=
  if dividend =? i128 (r1 * divisor) then r1
  else if bool_decide (mode = UZero) then r1
  else if bool_decide (mode = UInfinity) then r2
  else
    let d1 := i128 (dividend - r1 * divisor) in
    let d2 := i128 (r2 * divisor - dividend) in
    match d1 ?= d2 with
    | Lt => r1
    | Gt => r2
    | Eq =>
        match mode with
        | UHalfZero => r1
        | UHalfInfinity => r2
        | _ => if rem_euclid (div_euclid r1 (i128 (r2 - r1))) 2 =? 0 then r1 else r2
        end
    end.

(** The closures [add] and [epoch]. *)
Definition add_to (relative : IsoDate) (dur : DateDuration) : fallible IsoDate string := date_add relative dur Constrain.
Definition epoch_ns (d : IsoDate) : outcome Z := e <-! to_epoch_days d; Ret (i128 (e * NS_PER_DAY)).

#[export] Instance DateDuration_eq_dec : EqDecision DateDuration.
Proof. solve_decision. Defined.

(** The closure [window]: the two candidates, as numbers of units and as durations. *)
Definition window (dd : DateDuration) (relative : IsoDate) (smallest : Unit) (increment sign : Z) (additional_shift : bool)
    : fallible (option (Z * Z * DateDuration * DateDuration)) string :=
  let shift := if additional_shift then i128 (increment * sign) else 0 in
  let trunc (v : Z) := round_to_increment v increment Trunc in
  match smallest with
  | Year =>
      t <-! trunc (years dd);
      let r1 := i128 (t + shift) in
      let r2 := i128 (r1 + increment * sign) in
      Ret (Ok (Some (r1, r2, new_duration (i64 r1) 0 0 0, new_duration (i64 r2) 0 0 0)))
  | Month =>
      t <-! trunc (months dd);
      let r1 := i128 (t + shift) in
      let r2 := i128 (r1 + increment * sign) in
      Ret (Ok (Some (r1, r2, new_duration (years dd) (i64 r1) 0 0, new_duration (years dd) (i64 r2) 0 0)))
  | Week =>
      iso_one <-!? add_to relative (new_duration (years dd) (months dd) 0 0);
      iso_two <-!? add_to relative (new_duration (years dd) (months dd) 0 (days dd));
      until <-! date_until iso_one iso_two CalWeek;
      t <-! trunc (i64 (weeks dd + weeks until));
      let r1 := i128 (t + shift) in
      let r2 := i128 (r1 + increment * sign) in
      Ret (Ok (Some (r1, r2, new_duration (years dd) (months dd) (i64 r1) 0, new_duration (years dd) (months dd) (i64 r2) 0)))
  | Day =>
      t <-! trunc (days dd);
      let r1 := i128 (t + shift) in
      let r2 := i128 (r1 + increment * sign) in
      Ret (Ok (Some (r1, r2, new_duration (years dd) (months dd) (weeks dd) (i64 r1),
                     new_duration (years dd) (months dd) (weeks dd) (i64 r2))))
  | _ => Ret (Ok None)
  end.

(** The closure [epoch_of]. *)
Definition nudge_epoch (relative : IsoDate) (smallest : Unit) (origin_epoch : Z) (dur : DateDuration) : fallible Z string :=
  if bool_decide (dur = duration_default) then Ret (Ok origin_epoch)
  else if bool_decide (smallest = Day) then
    let base := new_duration (years dur) (months dur) (weeks dur) 0 in
    base_date <-!? (if bool_decide (base = duration_default) then Ret (Ok relative) else date_add relative base Constrain);
    e <-! epoch_ns base_date;
    Ret (Ok (i128 (e + days dur * NS_PER_DAY)))
  else d <-!? add_to relative dur; e <-! epoch_ns d; Ret (Ok e).

(** The choice between the two candidates. *)
Definition nudge_choose (r1 r2 : Z) (start_dur end_dur : DateDuration) (start_epoch end_epoch dest_epoch increment sign : Z)
    (mode : RoundingMode) : DateDuration :=
  let divisor := i128 (end_epoch - start_epoch) in
  if divisor =? 0 then start_dur
  else
    let dividend := i128 (dest_epoch - start_epoch) in
    let total_times_divisor := i128 (r1 * divisor + dividend * increment * sign) in
    let unsigned := get_unsigned_round_mode mode (0 <=? sign) in
    let total_is_r2 := (div_euclid total_times_divisor divisor =? r2) && (rem_euclid total_times_divisor divisor =? 0) in
    let rounded_unit :=
      if total_is_r2 then i128 (Z.abs r2)
      else apply_value unsigned (i128 (Z.abs total_times_divisor)) (i128 (Z.abs divisor)) (i128 (Z.abs r1)) (i128 (Z.abs r2)) in
    if rounded_unit =? i128 (Z.abs r2) then end_dur else start_dur.

Definition nudge_calendar_unit (dd : DateDuration) (time_ns : Z) (relative : IsoDate) (smallest : Unit) (increment : Z)
    (mode : RoundingMode) : fallible DateDuration string :=
  origin_epoch <-! epoch_ns relative;
  dest <-!? add_to relative dd;
  dest_days <-! epoch_ns dest;
  let dest_epoch := i128 (dest_days + time_ns) in
  let sign := if origin_epoch <=? dest_epoch then 1 else -1 in
  w <-!? window dd relative smallest increment sign false;
  match w with
  | None => Ret (Ok dd)
  | Some (r1, r2, start_dur, end_dur) =>
      start_epoch <-!? nudge_epoch relative smallest origin_epoch start_dur;
      if dest_epoch =? start_epoch then Ret (Ok start_dur)
      else
        end_epoch <-!? nudge_epoch relative smallest origin_epoch end_dur;
        let contained :=
          if 0 <=? sign then (start_epoch <=? dest_epoch) && (dest_epoch <=? end_epoch)
          else (end_epoch <=? dest_epoch) && (dest_epoch <=? start_epoch) in
        if contained then Ret (Ok (nudge_choose r1 r2 start_dur end_dur start_epoch end_epoch dest_epoch increment sign mode))
        else
          w' <-!? window dd relative smallest increment sign true;
          match w' with
          | Some (r1s, r2s, sds, eds) =>
              start_epoch <-!? nudge_epoch relative smallest origin_epoch sds;
              end_epoch <-!? nudge_epoch relative smallest origin_epoch eds;
              Ret (Ok (nudge_choose r1s r2s sds eds start_epoch end_epoch dest_epoch increment sign mode))
          | None => Ret (Ok (nudge_choose r1 r2 start_dur end_dur start_epoch end_epoch dest_epoch increment sign mode))
          end
  end.

Definition rank (u : Unit) : Z := match u with Day => 1 | Week => 2 | Month => 3 | Year => 4 | _ => 0 end.

(** [for larger in [Week, Month, Year]], with its [continue] and [break]. *)
Fixpoint bubble_loop (units : list Unit) (dd : DateDuration) (relative : IsoDate) (largest smallest : Unit) (nudged_epoch sign : Z)
    : outcome DateDuration :=
  match units with
  | [] => Ret dd
  | larger :: units =>
      if rank larger <=? rank smallest then bubble_loop units dd relative largest smallest nudged_epoch sign
      else if rank largest <? rank larger then Ret dd
      else if bool_decide (larger = Week) && negb (bool_decide (largest = Week)) then
        bubble_loop units dd relative largest smallest nudged_epoch sign
      else
        let cand :=
          match larger with
          | Week => new_duration (years dd) (months dd) (i64 (weeks dd + sign)) 0
          | Month => new_duration (years dd) (i64 (months dd + sign)) 0 0
          | Year => new_duration (i64 (years dd + sign)) 0 0 0
          | _ => dd
          end in
        c <-! add_to relative cand;
        match c with
        | Err _ => Ret dd
        | Ok d =>
            cand_epoch <-! to_epoch_days d;
            let reached := if 0 <=? sign then cand_epoch <=? nudged_epoch else nudged_epoch <=? cand_epoch in
            if reached then bubble_loop units cand relative largest smallest nudged_epoch sign else Ret dd
        end
  end.

Definition bubble_relative_duration (dd : DateDuration) (relative : IsoDate) (largest smallest : Unit) : fallible DateDuration string :=
  if (rank largest <=? rank smallest) || (rank smallest =? 0) then Ret (Ok dd)
  else
    n <-!? add_to relative dd;
    nudged_epoch <-! to_epoch_days n;
    o <-! to_epoch_days relative;
    let sign := if o <=? nudged_epoch then 1 else -1 in
    r <-! bubble_loop [Week; Month; Year] dd relative largest smallest nudged_epoch sign;
    Ret (Ok r).

(** * Rounding and time durations *)

Open Scope cruft_scope.
Open Scope Z_scope.

(** ** Rounding *)

(** What each mode asks of the rounded value [r] of [n]: a multiple of the increment,
    on the side the mode says or nearest, ties broken as it says. *)
Definition rounded (mode : RoundingMode) (inc n r : Z) : Prop :=
  (inc | r) ∧
  match mode with
  | Ceil => n ≤ r < n + inc
  | Floor => r ≤ n < r + inc
  | Trunc => Z.abs r ≤ Z.abs n < Z.abs r + inc ∧ 0 ≤ r * n
  | Expand => Z.abs n ≤ Z.abs r < Z.abs n + inc ∧ 0 ≤ r * n
  | HalfCeil => - inc < 2 * (r - n) ≤ inc
  | HalfFloor => - inc ≤ 2 * (r - n) < inc
  | HalfTrunc => 2 * Z.abs (r - n) ≤ inc ∧ (2 * Z.abs (r - n) = inc → Z.abs r < Z.abs n)
  | HalfExpand => 2 * Z.abs (r - n) ≤ inc ∧ (2 * Z.abs (r - n) = inc → Z.abs n < Z.abs r)
  | HalfEven => 2 * Z.abs (r - n) ≤ inc ∧ (2 * Z.abs (r - n) = inc → (2 * inc | r))
  end.

Definition wide (z : Z) : Prop := Z.abs z ≤ 1329227995784915872903807060280344576.

(** The unsigned modes on a magnitude: the quotient below or above. *)
Definition unsigned_rounded (mode : UnsignedRoundingMode) (inc m q : Z) : Prop :=
  let q1 := m / inc in
  m = q * inc ∨
  q1 * inc < m ∧ (q = q1 ∨ q = q1 + 1) ∧
  match mode with
  | UZero => q = q1
  | UInfinity => q = q1 + 1
  | UHalfZero => q = (if 2 * (m - q1 * inc) <=? inc then q1 else q1 + 1)
  | UHalfInfinity => q = (if 2 * (m - q1 * inc) <? inc then q1 else q1 + 1)
  | UHalfEven => 2 * (m - q1 * inc) < inc ∧ q = q1 ∨ inc < 2 * (m - q1 * inc) ∧ q = q1 + 1 ∨ 2 * (m - q1 * inc) = inc ∧ (2 | q)
  end.

Lemma unsigned_rounding m inc mode :
  0 < inc → 0 ≤ m → wide m → ∃ q, apply_unsigned_rounding_mode m inc mode = Ret q ∧ unsigned_rounded mode inc m q.
Proof.
  intros Hi Hm Hw. unfold wide in Hw. unfold apply_unsigned_rounding_mode, unsigned_rounded.
  rewrite div_euclid_pos, rem_euclid_pos by done. rewrite (proj2 (Z.eqb_neq inc 0)) by lia.
  pose proof (Z.div_mod m inc ltac:(lia)) as Hdm. pose proof (Z.mod_pos_bound m inc Hi) as Hr.
  assert (0 ≤ m / inc ≤ m) as Hq by (split; [apply Z.div_pos; lia|apply Z.div_le_upper_bound; nia]).
  set (q1 := m / inc) in *. set (r := m `mod` inc) in *. clearbody q1 r.
  destruct (Z.eqb_spec r 0) as [E|E]; [exists q1; split; [done|left; lia]|].
  rewrite i128_id by (unfold is_i128; lia). assert (m - q1 * inc = r) as -> by lia.
  assert (q1 * inc < m) as Hlt by lia.
  pose proof (Z.div_mod inc 2 ltac:(lia)). pose proof (Z.mod_pos_bound inc 2 ltac:(lia)).
  destruct mode; [exists q1; split; [done|right; auto]|exists (q1 + 1); split; [done|right; auto]|..];
    (destruct (Z.compare_spec r (inc / 2)); [destruct (Z.eqb_spec (inc `mod` 2) 0); cbn [negb]|..]).
  1-4: eexists; split; [reflexivity|right; split_and!; [done|auto|destruct (Z.leb_spec (2 * r) inc); lia]].
  1-4: eexists; split; [reflexivity|right; split_and!; [done|auto|destruct (Z.ltb_spec (2 * r) inc); lia]].
  - destruct (Z.eqb_spec (q1 `mod` 2) 0) as [E2|E2]; eexists; (split; [reflexivity|right; split_and!; [done|auto|right; right; split; [lia|]]]).
    + by apply Z.mod_divide.
    + apply Z.mod_divide; [done|]. dlia.
  - eexists; split; [reflexivity|right; split_and!; [done|auto|left; lia]].
  - eexists; split; [reflexivity|right; split_and!; [done|auto|left; lia]].
  - eexists; split; [reflexivity|right; split_and!; [done|auto|right; left; lia]].
Qed.

(** The bounds of a rounded magnitude. *)
Lemma unsigned_rounded_near mode inc m q :
  0 < inc → 0 ≤ m → unsigned_rounded mode inc m q → m - inc < q * inc < m + inc ∧ 0 ≤ q.
Proof.
  intros Hi Hm Hq. pose proof (Z.div_mod m inc ltac:(lia)). pose proof (Z.mod_pos_bound m inc Hi). assert (0 ≤ m / inc) by (apply Z.div_pos; lia).
  destruct Hq as [E|(Hlt & [->| ->] & _)]; [|nia..]. split; [lia|]. nia.
Qed.

(** The sign put back on a rounded magnitude. *)
Lemma rounded_of_unsigned mode inc n q :
  0 < inc → unsigned_rounded (get_unsigned_round_mode mode (0 <=? n)) inc (Z.abs n) q →
  rounded mode inc n ((if 0 <=? n then q else - q) * inc).
Proof.
  intros Hi Hq. set (r := (if 0 <=? n then q else - q) * inc).
  assert (inc | r) as Hdiv by (eexists; reflexivity). assert (Z.abs r = q * inc ∧ 0 ≤ r * n ∧ (0 ≤ n → r = q * inc) ∧ (n < 0 → r = - (q * inc))) as (Habs & Hsgn & Hpos & Hneg).
  { destruct (unsigned_rounded_near _ _ _ _ Hi (Z.abs_nonneg n) Hq) as [_ Hq0]. subst r. destruct (Z.leb_spec 0 n); nia. }
  assert ((2 | q) → (2 * inc | r)) as Heven.
  { intros [k ->]. subst r. destruct (0 <=? n); [exists k|exists (- k)]; lia. }
  clearbody r. split; [done|]. unfold unsigned_rounded in Hq.
  pose proof (Z.div_mod (Z.abs n) inc ltac:(lia)) as Hdm. pose proof (Z.mod_pos_bound (Z.abs n) inc Hi) as Hr.
  set (t := Z.abs n / inc) in *. set (p := Z.abs n `mod` inc) in *. clearbody t p.
  assert (inc * t = t * inc) as Ht by lia. set (ti := t * inc) in *. clearbody ti.
  assert ((t + 1) * inc = ti + inc) as Ht1 by lia. 
  destruct Hq as [E|(Hlt & Hq & Hmode)].
  - destruct (Z.leb_spec 0 n); [specialize (Hpos ltac:(lia))|specialize (Hneg ltac:(lia))]; destruct mode; lia.
  - assert (q = t ∧ q * inc = ti ∨ q = t + 1 ∧ q * inc = ti + inc) as Hqi by (destruct Hq as [-> | ->]; [left|right]; lia).
    destruct (Z.leb_spec 0 n) as [Hn|Hn]; [specialize (Hpos ltac:(lia))|specialize (Hneg ltac:(lia))];
    destruct mode; cbn [get_unsigned_round_mode] in Hmode;
    try (destruct (Z.leb_spec (2 * (Z.abs n - ti)) inc)); try (destruct (Z.ltb_spec (2 * (Z.abs n - ti)) inc)); try lia.
    all: destruct Hmode as [[]|[[]|[? Hev]]]; (split; [lia|intros Htie; first [by apply Heven | exfalso; lia]]).
Qed.

Lemma round_to_increment_spec n inc mode :
  0 < inc → wide n → wide inc → ∃ r, round_to_increment n inc mode = Ret r ∧ rounded mode inc n r ∧ Z.abs r < Z.abs n + inc.
Proof.
  intros Hi Hn Hin. unfold wide in *. unfold round_to_increment. rewrite (i128_id (Z.abs n)) by (unfold is_i128; lia).
  destruct (unsigned_rounding (Z.abs n) inc (get_unsigned_round_mode mode (0 <=? n)) Hi) as (q & -> & Hq); [lia|unfold wide; lia|].
  cbn [outcome_bind]. destruct (unsigned_rounded_near _ _ _ _ Hi (Z.abs_nonneg n) Hq) as [Hb Hq0].
  assert (0 ≤ q ≤ q * inc) as Hqq by nia.
  eexists. split; [reflexivity|].
  assert (i128 ((if negb (0 <=? n) then i128 (- q) else q) * inc) = (if 0 <=? n then q else - q) * inc) as ->.
  { destruct (0 <=? n); cbn [negb]; [apply i128_id; unfold is_i128; lia|]. rewrite (i128_id (- q)) by (unfold is_i128; lia). apply i128_id. unfold is_i128. lia. }
  split; [by apply rounded_of_unsigned|]. destruct (0 <=? n); lia.
Qed.

Lemma small_multiple inc d : 0 < inc → - inc < d * inc < inc → d = 0.
Proof. nia. Qed.

Lemma rounded_unique mode inc n r r' : 0 < inc → rounded mode inc n r → rounded mode inc n r' → r = r'.
Proof.
  intros Hi [[k ->] H1] [[k' ->] H2]. destruct (decide (k = k')) as [->|Hne]; [done|exfalso].
  assert ((k - k') * inc = k * inc - k' * inc) as Hd by lia.
  assert (¬ - inc < k * inc - k' * inc < inc) as Hfar by (intros Hb; rewrite <-Hd in Hb; apply small_multiple in Hb; lia).
  assert (mode = HalfEven → (2 * inc | k * inc) → (2 * inc | k' * inc) → k * inc - k' * inc = inc ∨ k * inc - k' * inc = - inc → False) as Heven.
  { intros _ [j E] [j' E'] Hor. assert (k = 2 * j) as -> by nia. assert (k' = 2 * j') as -> by nia. nia. }
  assert (∀ j, - inc < j * inc < inc → j * inc = 0) as Hz by (intros j Hj; apply small_multiple in Hj; lia).
  pose proof (Hz k) as Hza. pose proof (Hz k') as Hzb. clear Hz.
  set (a := k * inc) in *. set (b := k' * inc) in *. clearbody a b. clear Hd.
  destruct mode; try lia; destruct H1 as [H1 T1], H2 as [H2 T2].
  - assert (0 ≤ a ∧ 0 ≤ b ∧ 0 ≤ n ∨ a ≤ 0 ∧ b ≤ 0 ∧ n ≤ 0) by nia. lia.
  - assert (0 ≤ a ∧ 0 ≤ b ∨ a ≤ 0 ∧ b ≤ 0 ∨ n = 0) by nia. lia.
  - apply Heven; [done|apply T1; lia|apply T2; lia|lia].
Qed.

Lemma rounded_negate mode inc n r : rounded mode inc n r → rounded (negate mode) inc (- n) (- r).
Proof.
  intros [Hd H]. split; [by apply Z.divide_opp_r|]. destruct mode; cbn; try lia.
  destruct H as [H Ht]. split; [lia|]. intros E. apply Z.divide_opp_r, Ht. lia.
Qed.

(** ** Properties *)

(** C4: rounding to an increment answers the one multiple the mode asks for, in all nine
    modes and on both sides of zero (ties up, down, to zero, from zero or to the even
    multiple), nothing wraps or panics, and rounding the opposite number with the negated mode gives
    the opposite. *)
Theorem rounding_correct (n inc : Z) (mode : RoundingMode) :
  0 < inc → wide n → wide inc →
  ∃ r, round_to_increment n inc mode = Ret r ∧ rounded mode inc n r ∧ (∀ r', rounded mode inc n r' → r' = r) ∧
       round_to_increment (- n) inc (negate mode) = Ret (- r).
Proof.
  intros Hi Hn Hin. destruct (round_to_increment_spec n inc mode) as (r & E & Hr & _); [done..|].
  exists r. split; [done|]. split; [done|]. split; [intros r' Hr'; by eapply rounded_unique|].
  destruct (round_to_increment_spec (- n) inc (negate mode)) as (r2 & -> & Hr2 & _); [done|unfold wide in *; lia|done|].
  f_equal. eapply rounded_unique; [done..|]. by apply rounded_negate.
Qed.

Lemma rounding_correct_witness :
  ∃ r, round_to_increment 25 10 HalfEven = Ret r ∧ rounded HalfEven 10 25 r ∧ (∀ r', rounded HalfEven 10 25 r' → r' = r) ∧
       round_to_increment (- (25)) 10 HalfEven = Ret (- r).
Proof. apply (rounding_correct 25 10 HalfEven); [reflexivity|vm_compute; discriminate|vm_compute; discriminate]. Defined.

(** The nanoseconds components are worth. *)
Definition worth (c : TimeComponents) : Z :=
  c_days c * NS_PER_DAY + c_hours c * NS_PER_HOUR + c_minutes c * NS_PER_MINUTE + c_seconds c * NS_PER_SECOND +
  c_milliseconds c * NS_PER_MILLISECOND + c_microseconds c * NS_PER_MICROSECOND + c_nanoseconds c.

Definition components (c : TimeComponents) : list Z :=
  [c_days c; c_hours c; c_minutes c; c_seconds c; c_milliseconds c; c_microseconds c; c_nanoseconds c].

(** One step of the split: the component, and what is left for the smaller units. *)
Lemma split_scales_cons sign rem s l :
  0 < s → 0 ≤ rem → wide rem → sign = 1 ∨ sign = -1 →
  ∃ q r, split_scales sign rem (s :: l) = (q * sign) :: split_scales sign r l ∧ rem = q * s + r ∧ 0 ≤ q ≤ rem ∧ 0 ≤ r < s ∧ wide r.
Proof.
  intros Hs Hr Hw Hsign. exists (rem / s), (rem `mod` s). unfold wide in *. pose proof (Z.div_mod rem s ltac:(lia)) as Hdm.
  pose proof (Z.mod_pos_bound rem s Hs). assert (0 ≤ rem / s ≤ rem) as Hq by (split; [apply Z.div_pos; lia|apply Z.div_le_upper_bound; nia]).
  cbn [split_scales]. rewrite Z.quot_div_nonneg, Z.rem_mod_nonneg by lia.
  rewrite i128_id by (unfold is_i128; destruct Hsign as [-> | ->]; lia). split_and!; try lia; done.
Qed.

(** Takes the split apart, one scale after the other. *)
Ltac split_step :=
  match goal with
  | |- context [split_scales ?sg ?r (?s :: ?l)] =>
      let q := fresh "q" in let r' := fresh "r" in
      destruct (split_scales_cons sg r s l) as (q & r' & -> & ? & ? & ? & ?); [done|lia|unfold wide in *; lia|by auto|]
  end.

(** The components of a time duration, from any largest unit down, are worth the
    duration exactly, have its sign, vanish above the largest unit and stay below one of
    the next larger unit under it; and a duration of hours and smaller components is put
    back together from them. *)
Lemma components_balanced (d : Z) (u : Unit) :
  wide d →
  let c := to_components d u in
  worth c = d ∧ Forall (λ v, 0 ≤ Z.sgn d * v) (components c) ∧ Forall (λ v, v = 0) (take (start_index u) (components c)) ∧
  Forall2 (λ v m, Z.abs v < m) (drop (S (start_index u)) (components c)) (drop (start_index u) [24; 60; 60; 1000; 1000; 1000]) ∧
  (c_days c = 0 →
   from_components (c_hours c) (c_minutes c) (c_seconds c) (c_milliseconds c) (c_microseconds c) (c_nanoseconds c) = d).
Proof.
  intros Hd c. assert (worth c = d ∧ Forall (λ v, 0 ≤ Z.sgn d * v) (components c) ∧ Forall (λ v, v = 0) (take (start_index u) (components c)) ∧
    Forall2 (λ v m, Z.abs v < m) (drop (S (start_index u)) (components c)) (drop (start_index u) [24; 60; 60; 1000; 1000; 1000])) as (Hw & Hs & Hz & Hb).
  { subst c. unfold to_components. set (s := if d <? 0 then -1 else 1). assert (s = 1 ∨ s = -1) as Hs by (subst s; destruct (d <? 0); auto).
    assert (Z.sgn d = 0 ∧ d = 0 ∨ Z.sgn d = s) as Hsgn by (subst s; destruct (Z.ltb_spec d 0); lia).
    assert (d = s * Z.abs d) as Habs by (subst s; destruct (Z.ltb_spec d 0); lia). clearbody s.
    unfold wide in Hd. rewrite (i128_id (Z.abs d)) by (unfold is_i128; lia).
    assert (0 ≤ Z.abs d ∧ wide (Z.abs d)) as [Hr Hw] by (unfold wide; lia). set (r := Z.abs d) in *. clearbody r.
    unfold scales, NS_PER_DAY, NS_PER_HOUR, NS_PER_MINUTE, NS_PER_SECOND, NS_PER_MILLISECOND, NS_PER_MICROSECOND.
    destruct u; cbn [start_index drop]; repeat split_step; cbn [split_scales]; cbn [replicate app lookup list_lookup default id];
      unfold worth, components, NS_PER_DAY, NS_PER_HOUR, NS_PER_MINUTE, NS_PER_SECOND, NS_PER_MILLISECOND, NS_PER_MICROSECOND;
      cbn [c_days c_hours c_minutes c_seconds c_milliseconds c_microseconds c_nanoseconds start_index take drop];
      (split_and!; [destruct Hs as [-> | ->]; lia|repeat constructor; destruct Hs as [-> | ->]; lia|repeat constructor|repeat constructor; destruct Hs as [-> | ->]; lia]). }
  split_and!; try done. intros E. unfold from_components. unfold worth in Hw. rewrite E in Hw. rewrite i128_id; [lia|unfold is_i128, wide in *; lia].
Qed.

(** * Rounding a duration to days against a date

    The rounding of calendar durations at the level of days is the rounding of the days
    and the time together. *)

Open Scope cruft_scope.
Open Scope Z_scope.

Lemma scaled_bound inc x b : 0 < inc ≤ 1000000000 → 0 ≤ x ≤ b → 0 ≤ inc * x ≤ 1000000000 * b.
Proof. nia. Qed.

Lemma scaled_compare c a b : 0 < c → (c * a ?= c * b) = (a ?= b).
Proof. intros Hc. symmetry. apply Zmult_compare_compat_l. lia. Qed.

(** [apply_value] between two neighbouring multiples is the unsigned rounding. *)
Lemma apply_value_spec mode m inc I k :
  0 < inc ≤ 1000000000 → 0 < I ≤ 86400000000000000000000 → 0 ≤ k → 0 ≤ k * inc ≤ 1000000000000 → 0 ≤ k * I ≤ 86400000000000000000000000 →
  k * I ≤ m < k * I + I →
  ∃ q, apply_value mode (m * inc) I (k * inc) ((k + 1) * inc) = q * inc ∧ (q = k ∨ q = k + 1) ∧ unsigned_rounded mode I m q.
Proof.
  intros Hi HI Hk Hki HkI Hm.
  assert (m / I = k) as Hq by (symmetry; apply (Z.div_unique_pos m I k (m - k * I)); lia).
  unfold unsigned_rounded. rewrite Hq.
  unfold apply_value. replace (m * inc) with (inc * m) by lia.
  replace (k * inc * I) with (inc * (k * I)) by lia. replace ((k + 1) * inc * I) with (inc * (k * I + I)) by lia.
  remember (k * I) as kI eqn:EkI.
  pose proof (scaled_bound inc kI _ Hi HkI) as B1. pose proof (scaled_bound inc m 86486400000000000000000000 Hi ltac:(lia)) as B2.
  pose proof (scaled_bound inc (kI + I) 86486400000000000000000000 Hi ltac:(lia)) as B3.
  rewrite (i128_id (inc * kI)) by (unfold is_i128; lia).
  rewrite (i128_id (inc * m - inc * kI)), (i128_id (inc * (kI + I) - inc * m)) by (unfold is_i128; lia).
  rewrite (i128_id ((k + 1) * inc - k * inc)) by (unfold is_i128; lia). replace ((k + 1) * inc - k * inc) with inc by lia.
  rewrite (div_euclid_pos (k * inc)), Z.div_mul, rem_euclid_pos by lia.
  replace (inc * m - inc * kI) with (inc * (m - kI)) by lia. replace (inc * (kI + I) - inc * m) with (inc * (kI + I - m)) by lia.
  rewrite scaled_compare by lia.
  destruct (Z.eqb_spec (inc * m) (inc * kI)) as [E|E].
  { exists k. split_and!; [done|by left|]. left. apply Z.mul_reg_l in E; lia. }
  assert (kI < m) as Hlt by (destruct (Z.eq_dec m kI) as [->|]; [done|lia]). clear B1 B2 B3 E Hq.
  assert (∀ q P, (q = k ∨ q = k + 1) → P q → ∃ q', q * inc = q' * inc ∧ (q' = k ∨ q' = k + 1) ∧ (m = q' * I ∨ kI < m ∧ (q' = k ∨ q' = k + 1) ∧ P q'))
    as Hex by (intros q P Hq HP; exists q; auto 10).
  destruct mode; cbn [bool_decide decide].
  - apply (Hex k); auto.
  - apply (Hex (k + 1)); auto.
  - destruct (Z.compare_spec (m - kI) (kI + I - m)); [apply (Hex k)|apply (Hex k)|apply (Hex (k + 1))]; auto; destruct (Z.leb_spec (2 * (m - kI)) I); lia.
  - destruct (Z.compare_spec (m - kI) (kI + I - m)); [apply (Hex (k + 1))|apply (Hex k)|apply (Hex (k + 1))]; auto; destruct (Z.ltb_spec (2 * (m - kI)) I); lia.
  - destruct (Z.compare_spec (m - kI) (kI + I - m)); [|apply (Hex k); auto; lia|apply (Hex (k + 1)); auto; lia].
    destruct (Z.eqb_spec (k `mod` 2) 0); [apply (Hex k)|apply (Hex (k + 1))]; auto; right; right; (split; [lia|]).
    + by apply Z.mod_divide.
    + apply Z.mod_divide; [done|]. dlia.
Qed.

Lemma date_add_Ok self dur overflow r :
  date_ok self → duration_ok dur → is_i32 (target_year self dur) → date_add self dur overflow = Ret (Ok r) →
  date_ok r ∧ epoch_of r = target_epoch self dur ∧ Z.abs (epoch_of r) ≤ MAX_EPOCH_DAYS.
Proof.
  intros H1 H2 H3 E. pose proof (date_add_spec self dur overflow H1 H2 H3) as H. rewrite E in H.
  destruct H as (Hr & He & Hb & _). by rewrite He.
Qed.

Lemma epoch_ns_ok x : date_ok x → Z.abs (epoch_of x) ≤ MAX_EPOCH_DAYS → epoch_ns x = Ret (epoch_of x * NS_PER_DAY).
Proof.
  intros Hx Hb. unfold epoch_ns. rewrite to_epoch_days_ok by done. cbn [outcome_bind]. f_equal. apply i128_id.
  unfold is_i128, MAX_EPOCH_DAYS, NS_PER_DAY, NS_PER_HOUR, NS_PER_MINUTE, NS_PER_SECOND in *. lia.
Qed.

Lemma rounded_exact mode inc n : 0 < inc → (inc | n) → rounded mode inc n n.
Proof. intros Hi Hd. split; [done|]. destruct mode; lia. Qed.

(** A destination between the ends is found contained. *)
Lemma nudge_contained st de en s u v :
  (s = 1 ∨ s = -1) → 0 ≤ u → 0 ≤ v → de - st = s * u → en - de = s * v →
  (if 0 <=? s then (st <=? de) && (de <=? en) else (en <=? de) && (de <=? st)) = true.
Proof. intros [-> | ->] Hu Hv E1 E2; cbn [Z.leb Z.compare]; rewrite andb_true_iff, !Z.leb_le; lia. Qed.

Section nudge.
Context (relative base dest : IsoDate) (y m w d time s inc : Z).
Let dd := new_duration y m w d.

Hypothesis relative_ok : date_ok relative.
Hypothesis relative_near : Z.abs (epoch_of relative) ≤ MAX_EPOCH_DAYS.
Hypothesis base_add : date_add relative (new_duration y m w 0) Constrain = Ret (Ok base).
Hypothesis dest_add : date_add relative dd Constrain = Ret (Ok dest).
Hypothesis ymw_ok : Z.abs y < 4294967296 ∧ Z.abs m < 4294967296 ∧ Z.abs w < 4294967296 ∧ Z.abs d ≤ 200000000000.
Hypothesis year_32 : is_i32 (target_year relative dd).

Lemma base_epoch :
  date_ok base ∧ date_ok dest ∧ epoch_of dest = epoch_of base + d ∧ Z.abs (epoch_of base) ≤ MAX_EPOCH_DAYS ∧ Z.abs (epoch_of dest) ≤ MAX_EPOCH_DAYS ∧
  (y = 0 → m = 0 → w = 0 → epoch_of base = epoch_of relative).
Proof.
  assert (duration_ok (new_duration y m w 0) ∧ duration_ok dd) as [K1 K2] by (unfold duration_ok; cbn; lia).
  destruct (date_add_Ok _ _ _ _ relative_ok K1 year_32 base_add) as (H1 & E1 & B1).
  destruct (date_add_Ok _ _ _ _ relative_ok K2 year_32 dest_add) as (H2 & E2 & B2).
  assert (epoch_of dest = epoch_of base + d) as E.
  { rewrite E1, E2. unfold target_epoch. change (target_start relative (new_duration y m w 0)) with (target_start relative dd). cbn. lia. }
  split_and!; try done. intros -> -> ->. rewrite E1. pose proof relative_ok as (_ & Hm & Hd).
  assert (target_year relative (new_duration 0 0 0 0) = year relative ∧ target_month relative (new_duration 0 0 0 0) = month relative) as [Ey Em].
  { destruct (target_ordinal relative (new_duration 0 0 0 0)) as [Ho Hm']. change (12 * years (new_duration 0 0 0 0) + months (new_duration 0 0 0 0)) with 0 in Ho. unfold ordinal in Ho. lia. }
  unfold target_epoch, target_start. rewrite Ey, Em, Z.min_l by lia. cbn. unfold epoch_of. lia.
Qed.

(** The two ways a candidate is placed agree: its days after the base date. *)
Lemma nudge_epoch_day origin r :
  origin = epoch_of relative * NS_PER_DAY → Z.abs r ≤ 300000000000 →
  nudge_epoch relative Day origin (new_duration y m w r) = Ret (Ok ((epoch_of base + r) * NS_PER_DAY)).
Proof.
  intros -> Hr. destruct base_epoch as (Hb & _ & _ & Hbb & _ & Hzero). unfold nudge_epoch.
  case_bool_decide as E; [injection E as -> -> -> ->; rewrite Hzero by done; do 2 f_equal; lia|].
  assert (bool_decide (Day = Day) = true) as -> by done. cbv iota zeta.
  change (new_duration (years (new_duration y m w r)) (months (new_duration y m w r)) (weeks (new_duration y m w r)) 0) with (new_duration y m w 0).
  change (days (new_duration y m w r)) with r.
  assert ((if bool_decide (new_duration y m w 0 = duration_default) return fallible IsoDate string then Ret (Ok relative)
           else date_add relative (new_duration y m w 0) Constrain)
    = Ret (Ok (if bool_decide (new_duration y m w 0 = duration_default) then relative else base))) as -> by (case_bool_decide; done).
  cbn [fallible_bind].
  assert (epoch_ns (if bool_decide (new_duration y m w 0 = duration_default) then relative else base) = Ret (epoch_of base * NS_PER_DAY)) as ->.
  { case_bool_decide as E0; [|by apply epoch_ns_ok]. injection E0 as -> -> ->. rewrite Hzero in * by done. by apply epoch_ns_ok. }
  cbn [outcome_bind]. unfold MAX_EPOCH_DAYS, NS_PER_DAY, NS_PER_HOUR, NS_PER_MINUTE, NS_PER_SECOND in *.
  rewrite i128_id by (unfold is_i128; lia). do 2 f_equal. lia.
Qed.

(** The increments of days the rounding lies between. *)
Let T := d * NS_PER_DAY + time.
Let I := inc * NS_PER_DAY.

Hypothesis inc_ok : 0 < inc ≤ 1000000000.
Hypothesis direction_ok :
  (s = 1 ∧ 0 ≤ d ∧ 0 ≤ time < NS_PER_DAY ∧ epoch_of relative * NS_PER_DAY ≤ epoch_of dest * NS_PER_DAY + time) ∨
  (s = -1 ∧ d ≤ 0 ∧ - NS_PER_DAY < time ≤ 0 ∧ epoch_of dest * NS_PER_DAY + time < epoch_of relative * NS_PER_DAY).

Let k := Z.abs d / inc.

Lemma day_numbers :
  Z.abs d ≤ 300000000 ∧ Z.abs T = s * T ∧ k * I ≤ Z.abs T < k * I + I ∧ 0 ≤ k ∧ 0 ≤ k * inc ≤ 300000000 ∧ (0 ≤ T ↔ s = 1 ∨ T = 0) ∧
  0 < I ≤ 86400000000000000000000 ∧ I = inc * NS_PER_DAY ∧ 0 ≤ k * I ≤ 25920000000000000000000000 ∧ Z.abs T ≤ 30000000000000000000000.
Proof.
  destruct base_epoch as (_ & _ & He & B1 & B2 & _). unfold MAX_EPOCH_DAYS in *.
  assert (NS_PER_DAY = 86400000000000) as EN by done. unfold I, T. rewrite EN in *.
  assert (Z.abs d ≤ 300000000) as Hd by lia.
  pose proof (Z.div_mod (Z.abs d) inc ltac:(lia)) as Hdm. pose proof (Z.mod_pos_bound (Z.abs d) inc ltac:(lia)) as Hr. fold k in Hdm.
  assert (0 ≤ k) as Hk by (apply Z.div_pos; lia). assert (k * inc = Z.abs d - Z.abs d `mod` inc) as Eki by lia.
  assert (k * (inc * 86400000000000) = (k * inc) * 86400000000000) as -> by lia. rewrite Eki.
  destruct direction_ok as [(-> & ? & ? & ?)|(-> & ? & ? & ?)]; split_and!; lia.
Qed.

Lemma trunc_days : round_to_increment d inc Trunc = Ret (s * (k * inc)).
Proof.
  destruct day_numbers as (Hd & _ & _ & Hk & Hki & _). destruct (round_to_increment_spec d inc Trunc) as (r & -> & Hr & _); [lia|unfold wide; lia..|].
  f_equal. apply (rounded_unique Trunc inc d); [lia|done|]. pose proof (Z.div_mod (Z.abs d) inc ltac:(lia)) as Hdm.
  pose proof (Z.mod_pos_bound (Z.abs d) inc ltac:(lia)) as Hm. fold k in Hdm.
  rewrite (Z.mul_comm inc k) in Hdm. split; [exists (s * k); lia|]. set (x := k * inc) in *. clearbody x.
  destruct direction_ok as [(-> & ? & _)|(-> & ? & _)]; (split; [lia|]); nia.
Qed.

Lemma window_day :
  window dd relative Day inc s false =
  Ret (Ok (Some (s * (k * inc), s * ((k + 1) * inc), new_duration y m w (s * (k * inc)), new_duration y m w (s * ((k + 1) * inc))))).
Proof.
  destruct day_numbers as (_ & _ & _ & Hk & Hki & _). unfold window. change (days dd) with d. rewrite trunc_days. cbn [outcome_bind].
  assert ((k + 1) * inc = k * inc + inc) as E1 by lia. rewrite E1. set (x := k * inc) in *. clearbody x.
  assert (-2000000000 ≤ s * x ≤ 2000000000 ∧ -3000000000 ≤ s * (x + inc) ≤ 3000000000 ∧ inc * s = s * inc) as (B1 & B2 & E2)
    by (destruct direction_ok as [(-> & _)|(-> & _)]; lia).
  rewrite Z.add_0_r, (i128_id (s * x)) by (unfold is_i128; lia). rewrite E2. replace (s * x + s * inc) with (s * (x + inc)) by lia.
  rewrite i128_id by (unfold is_i128; lia). by rewrite !i64_id by (unfold is_i64; lia).
Qed.

Lemma nudge_choose_day mode sd ed :
  Z.abs T ≠ k * I →
  ∃ q, nudge_choose (s * (k * inc)) (s * ((k + 1) * inc)) sd ed ((epoch_of base + s * (k * inc)) * NS_PER_DAY)
         ((epoch_of base + s * ((k + 1) * inc)) * NS_PER_DAY) (epoch_of dest * NS_PER_DAY + time) inc s mode =
       (if q =? k + 1 then ed else sd) ∧ (q = k ∨ q = k + 1) ∧
       unsigned_rounded (get_unsigned_round_mode mode (0 <=? T)) I (Z.abs T) q.
Proof.
  intros Hne. destruct day_numbers as (Hd & HT & HkT & Hk & Hki & Hsign & HI & EI & HkI & HTb). destruct base_epoch as (_ & _ & He & B1 & B2 & _).
  assert (s = 1 ∨ s = -1) as Hs by (destruct direction_ok as [(-> & _)|(-> & _)]; auto).
  assert ((0 <=? s) = (0 <=? T)) as Esgn by (destruct (Z.leb_spec 0 s), (Z.leb_spec 0 T); (done || lia)).
  assert (s * s = 1) as Ess by (destruct Hs as [-> | ->]; done).
  unfold nudge_choose. rewrite Esgn.
  replace ((epoch_of base + s * ((k + 1) * inc)) * NS_PER_DAY - (epoch_of base + s * (k * inc)) * NS_PER_DAY) with (s * I) by (rewrite EI; lia).
  replace (epoch_of dest * NS_PER_DAY + time - (epoch_of base + s * (k * inc)) * NS_PER_DAY) with (T - s * (k * I)) by (rewrite EI, He; unfold T; lia).
  clearbody T k I. clear direction_ok.
  rewrite (i128_id (s * I)), (i128_id (T - s * (k * I))) by (unfold is_i128; destruct Hs as [-> | ->]; lia).
  assert (s * I ≠ 0) as HsI by (clear - Hs HI; destruct Hs as [-> | ->]; lia). rewrite (proj2 (Z.eqb_neq _ _) HsI).
  assert (s * (k * inc) * (s * I) + (T - s * (k * I)) * inc * s = inc * Z.abs T) as ->.
  { rewrite HT. ring_simplify. replace (s ^ 2) with (s * s) by lia. ring. }
  pose proof (scaled_bound inc (Z.abs T) _ inc_ok (conj (Z.abs_nonneg T) HTb)) as Bm.
  rewrite (i128_id (inc * Z.abs T)) by (unfold is_i128; lia).
  assert (Z.abs (s * I) = I ∧ Z.abs (s * (k * inc)) = k * inc ∧ Z.abs (s * ((k + 1) * inc)) = (k + 1) * inc) as (Ea1 & Ea2 & Ea3)
    by (clear - Hs HI Hki inc_ok; destruct Hs as [-> | ->]; lia).
  assert ((div_euclid (inc * Z.abs T) (s * I) =? s * ((k + 1) * inc)) && (rem_euclid (inc * Z.abs T) (s * I) =? 0) = false) as ->.
  { apply not_true_iff_false. rewrite andb_true_iff, !Z.eqb_eq. intros [E1 E2]. destruct (div_rem_euclid (inc * Z.abs T) (s * I) HsI) as [Edm _].
    rewrite E1, E2 in Edm. assert (inc * Z.abs T = (s * s) * (inc * (k * I + I))) as Ex by (rewrite Edm; ring).
    rewrite Ess, Z.mul_1_l in Ex. apply Z.mul_reg_l in Ex; [clear - Ex HkT; lia|clear - inc_ok; lia]. }
  rewrite Ea1, Ea2, Ea3, (Z.abs_eq (inc * Z.abs T)) by (clear - Bm; lia). assert (0 ≤ (k + 1) * inc ≤ 2000000000) as Bk by (clear - Hki inc_ok; lia).
  rewrite (i128_id (inc * Z.abs T)), (i128_id I), (i128_id (k * inc)), (i128_id ((k + 1) * inc)) by (unfold is_i128; clear - Bm HI Hki Bk; lia).
  destruct (apply_value_spec (get_unsigned_round_mode mode (0 <=? T)) (Z.abs T) inc I k) as (q & Ev & Hq & Hr);
    [done|done|done|clear - Hki; lia|clear - HkI; lia|done|].
  exists q. rewrite (Z.mul_comm inc (Z.abs T)), Ev. split; [|done].
  destruct (Z.eqb_spec (q * inc) ((k + 1) * inc)) as [E|E], (Z.eqb_spec q (k + 1)) as [E'|E']; try done; exfalso;
    [apply Z.mul_reg_r in E; [done|clear - inc_ok; lia]|by rewrite E' in E].
Qed.

(** The rounding of the days and the time together. *)
Lemma nudge_days mode :
  ∃ r, nudge_calendar_unit dd time relative Day inc mode = Ret (Ok (new_duration y m w r)) ∧ rounded mode I T (r * NS_PER_DAY).
Proof.
  destruct day_numbers as (Hd & HT & HkT & Hk & Hki & Hsign & HI & EI & HkI & HTb). destruct base_epoch as (Hb & Hdo & He & B1 & B2 & _).
  assert (s = 1 ∨ s = -1) as Hs by (destruct direction_ok as [(-> & _)|(-> & _)]; auto).
  assert (date_add relative dd Constrain = Ret (Ok dest)) as Ea by exact dest_add. pose proof relative_near as Brel.
  assert (NS_PER_DAY = 86400000000000) as EN by done. unfold nudge_calendar_unit. rewrite epoch_ns_ok by done. cbn [outcome_bind]. unfold add_to. rewrite Ea. cbn [fallible_bind].
  rewrite epoch_ns_ok by done. cbn [outcome_bind]. unfold MAX_EPOCH_DAYS in *.
  assert (- NS_PER_DAY < time < NS_PER_DAY) as Htime by (clear - direction_ok EN; destruct direction_ok as [(_ & _ & ? & _)|(_ & _ & ? & _)]; lia).
  rewrite (i128_id (epoch_of dest * NS_PER_DAY + time)) by (clear - Htime EN B2; unfold is_i128; lia).
  assert ((if epoch_of relative * NS_PER_DAY <=? epoch_of dest * NS_PER_DAY + time then 1 else -1) = s) as ->
    by (clear - direction_ok; destruct direction_ok as [(-> & _ & _ & ?)|(-> & _ & _ & ?)]; destruct (Z.leb_spec (epoch_of relative * NS_PER_DAY) (epoch_of dest * NS_PER_DAY + time)); lia).
  rewrite window_day. cbn [fallible_bind]. assert (0 ≤ (k + 1) * inc ≤ 2000000000) as Bk by (clear - Hki inc_ok; lia).
  rewrite (nudge_epoch_day _ (s * (k * inc))) by (done || (clear - Hs Hki; destruct Hs as [-> | ->]; lia)). cbn [fallible_bind].
  assert (epoch_of dest * NS_PER_DAY + time - (epoch_of base + s * (k * inc)) * NS_PER_DAY = s * (Z.abs T - k * I)) as Ediff.
  { rewrite EI, He, Z.mul_sub_distr_l, HT, Z.mul_assoc. unfold T. clear - Hs. destruct Hs as [-> | ->]; ring. }
  destruct (Z.eqb_spec (epoch_of dest * NS_PER_DAY + time) ((epoch_of base + s * (k * inc)) * NS_PER_DAY)) as [Eq|Neq].
  - exists (s * (k * inc)). split; [done|]. replace (s * (k * inc) * NS_PER_DAY) with T.
    + apply rounded_exact; [clear - HI; lia|]. exists (s * k). clear - Eq He EI. rewrite EI. unfold T. lia.
    + clear - Eq He. unfold T. lia.
  - rewrite (nudge_epoch_day _ (s * ((k + 1) * inc))) by (done || (clear - Hs Bk; destruct Hs as [-> | ->]; lia)). cbn [fallible_bind].
    assert (Z.abs T ≠ k * I) as Hne by (intros Eq; rewrite Eq, Z.sub_diag, Z.mul_0_r in Ediff; clear - Ediff Neq; lia).
    assert ((epoch_of base + s * ((k + 1) * inc)) * NS_PER_DAY - (epoch_of dest * NS_PER_DAY + time) = s * (k * I + I - Z.abs T)) as Ediff2.
    { rewrite EI, He, Z.mul_sub_distr_l, HT, (Z.mul_assoc s s). unfold T. clear - Hs. destruct Hs as [-> | ->]; ring. }
    rewrite (nudge_contained _ _ _ s (Z.abs T - k * I) (k * I + I - Z.abs T)) by (done || (clear - HkT; lia)).
    destruct (nudge_choose_day mode (new_duration y m w (s * (k * inc))) (new_duration y m w (s * ((k + 1) * inc))) Hne) as (q & -> & Hq & Hu).
    exists (s * (q * inc)). split; [by destruct Hq as [-> | ->]; [rewrite (proj2 (Z.eqb_neq k (k + 1))) by lia|rewrite Z.eqb_refl]|].
    apply rounded_of_unsigned in Hu; [|clear - HI; lia]. replace (s * (q * inc) * NS_PER_DAY) with ((if 0 <=? T then q else - q) * I); [done|].
    assert (T ≠ 0) as HT0. { intros ET. rewrite ET in Hne, HkT. clear - Hne HkT Hk HkI. cbn in *. lia. }
    rewrite EI. clear - HT0 Hsign Hs. destruct (Z.leb_spec 0 T), Hs as [-> | ->]; lia.
Qed.
End nudge.

(** The duration with other days. *)
Definition with_days (dd : DateDuration) (d : Z) : DateDuration := new_duration (years dd) (months dd) (weeks dd) d.

(** Days and time point the same way as the whole duration. *)
Definition one_way (relative dest : IsoDate) (d time : Z) : Prop :=
  (0 ≤ d ∧ 0 ≤ time < NS_PER_DAY ∧ epoch_of relative * NS_PER_DAY ≤ epoch_of dest * NS_PER_DAY + time) ∨
  (d ≤ 0 ∧ - NS_PER_DAY < time ≤ 0 ∧ epoch_of dest * NS_PER_DAY + time < epoch_of relative * NS_PER_DAY).

(** Rounding a calendar duration with a time to days, against a date, in any mode
    and with any increment, forwards or backwards, keeps its years, months and weeks and
    rounds the days and the time together exactly as they are rounded as nanoseconds: the
    search for the window, the comparison of epochs and the scaled fraction add nothing. *)
Lemma nudge_day_rounds (relative base dest : IsoDate) (dd : DateDuration) (time inc : Z) (mode : RoundingMode) :
  date_limited relative → duration_ok dd → is_i32 (target_year relative dd) → 0 < inc ≤ 1000000000 →
  date_add relative (with_days dd 0) Constrain = Ret (Ok base) → date_add relative dd Constrain = Ret (Ok dest) →
  one_way relative dest (days dd) time →
  ∃ r, nudge_calendar_unit dd time relative Day inc mode = Ret (Ok (with_days dd r)) ∧
       round_to_increment (days dd * NS_PER_DAY + time) (inc * NS_PER_DAY) mode = Ret (r * NS_PER_DAY).
Proof.
  intros [Hrel Hnear] Hdur H32 Hinc Hbase Hdest Hway. destruct dd as [y m w d]. cbn [days] in *.
  destruct (nudge_days relative base dest y m w d time (if bool_decide (0 ≤ d ∧ 0 ≤ time < NS_PER_DAY ∧
    epoch_of relative * NS_PER_DAY ≤ epoch_of dest * NS_PER_DAY + time) then 1 else -1) inc) with (mode := mode) as (r & E & Hr); try done.
  { destruct Hway as [Hw|Hw]; [left|right]; [rewrite bool_decide_true by done|rewrite bool_decide_false by lia]; done. }
  exists r. split; [exact E|]. assert (NS_PER_DAY = 86400000000000) as EN by done.
  assert (Z.abs d ≤ 200000000000) as Hd by apply Hdur.
  destruct (round_to_increment_spec (d * NS_PER_DAY + time) (inc * NS_PER_DAY) mode) as (r' & -> & Hr' & _).
  - clear - Hinc EN. lia.
  - clear - Hd Hway EN. unfold wide, one_way in *. lia.
  - clear - Hinc EN. unfold wide. lia.
  - f_equal. eapply rounded_unique; [|exact Hr'|exact Hr]. clear - Hinc EN. lia.
Qed.

