(* ===== verification/Arrays.v ===== *)
(** * Arrays: indexing that panics out of range

    [index l i] is [l[i]] and [store l i v] is [l[i] = v]; both panic when [i] is not an
    index of [l].  [bump] is [l[i] += 1] for an array of [u16].  Shared by the
    compression formats and the archive reader. *)

From S2P Require Import Prelude Bytes Bits.

Local Open Scope Z_scope.
Local Open Scope cruft_scope.

Definition index {A} (l : list A) (i : Z) : outcome A := unwrap (get_at l i).

Definition store {A} (l : list A) (i : Z) (v : A) : outcome (list A) :=
  if (0 <=? i) && (i <? len l) then Ret (<[Z.to_nat i := v]> l) else Panic.

Definition bump (l : list Z) (i : Z) : outcome (list Z) := v <-! index l i; store l i (as_u16 (v + 1)).

(** A loop over a list whose body may panic. *)
Fixpoint for_each {A S} (body : A → S → outcome S) (l : list A) (s : S) : outcome S :=
  match l with
  | [] => Ret s
  | a :: l => s' <-! body a s; for_each body l s'
  end.

(** [iter().enumerate()]. *)
Definition enumerate {A} (l : list A) : list (nat * A) := zip (seq 0 (length l)) l.

Lemma outcome_bind_ret {A B} (a : A) (k : A → outcome B) : outcome_bind (Ret a) k = k a.
Proof. done. Qed.

Lemma index_nat {A} (l : list A) (n : nat) x : l !! n = Some x → index l (Z.of_nat n) = Ret x.
Proof.
  intros H. pose proof (lookup_lt_Some _ _ _ H). unfold index, get_at, len.
  rewrite (proj2 (Z.leb_le 0 _)), (proj2 (Z.ltb_lt _ _)), Nat2Z.id, H by lia. done.
Qed.

Lemma index_ok {A} (l : list A) i x : 0 ≤ i → l !! Z.to_nat i = Some x → index l i = Ret x.
Proof. intros Hi H. rewrite <-(Z2Nat.id i) by done. by apply index_nat. Qed.

Lemma index_total {A} (l : list A) i : 0 ≤ i < len l → ∃ x, index l i = Ret x ∧ l !! Z.to_nat i = Some x.
Proof.
  intros [Hi Hl]. unfold len in Hl. destruct (lookup_lt_is_Some_2 l (Z.to_nat i)) as [x Hx]; [lia|].
  exists x. split; [by apply index_ok|done].
Qed.

Lemma index_inv {A} (l : list A) i x : index l i = Ret x → 0 ≤ i < len l ∧ l !! Z.to_nat i = Some x.
Proof.
  unfold index, get_at. destruct (Z.leb_spec 0 i), (Z.ltb_spec i (len l)); simpl; try done.
  destruct (l !! Z.to_nat i); [|done]. by intros [= ->].
Qed.

Lemma store_ok {A} (l : list A) i v : 0 ≤ i < len l → store l i v = Ret (<[Z.to_nat i := v]> l).
Proof. intros [Hi Hl]. unfold store. by rewrite (proj2 (Z.leb_le _ _)), (proj2 (Z.ltb_lt _ _)). Qed.

Lemma for_each_app {A S} (body : A → S → outcome S) l1 l2 s :
  for_each body (l1 ++ l2) s = (s' <-! for_each body l1 s; for_each body l2 s').
Proof. revert s. induction l1 as [|a l1 IH]; intros s; [done|]. simpl. destruct (body a s); simpl; [apply IH|done]. Qed.

(** A loop keeps an invariant about what it has gone through. *)
Lemma for_each_inv {A S} (body : A → S → outcome S) (I : list A → S → Prop) l s :
  I [] s → (∀ done a rest s, l = done ++ a :: rest → I done s → ∃ s', body a s = Ret s' ∧ I (done ++ [a]) s') →
  ∃ s', for_each body l s = Ret s' ∧ I l s'.
Proof.
  intros H0 Hstep.
  assert (∀ rest pre s, l = pre ++ rest → I pre s → ∃ s', for_each body rest s = Ret s' ∧ I l s') as G.
  { induction rest as [|a rest IH]; intros pre s1 El HI.
    - rewrite app_nil_r in El. subst. by exists s1.
    - destruct (Hstep pre a rest s1 El HI) as (s2 & E & HI2). simpl. rewrite E. simpl.
      apply (IH (pre ++ [a])); [by rewrite <-app_assoc|done]. }
  by apply (G l []).
Qed.

Lemma len_replicate {A} (h : Z) (x : A) : 0 ≤ h → len (replicate (Z.to_nat h) x) = h.
Proof. intros Hh. unfold len. rewrite length_replicate. lia. Qed.
