(* ===== verification/Inflate.v ===== *)
(** * Inflate: the DEFLATE, zlib and gzip decoders and the stored encoders

    rusty-js-deflate/src/lib.rs.  A decoding step takes the bit reader and gives a value
    and the reader after it, an error, or a panic ([decoder]); [?] is its bind.  Loops
    that the source writes with [loop] or [while] run on fuel that the theory file proves
    enough: one unit per bit left and one more for the symbols of a block and for the
    blocks of a stream, one per entry for the code lengths.  Out of fuel they panic. *)

From S2P Require Import Prelude Bytes Bits Arrays.

Local Open Scope Z_scope.
Local Open Scope cruft_scope.

Inductive DecodeError :=
| UnexpectedEnd | InvalidBlockType | InvalidStoredLen | InvalidHuffmanCode | InvalidLengthCode
| InvalidDistanceCode | DistanceTooFar | InvalidGzipMagic | UnsupportedGzipMethod | GzipReservedFlags
| GzipCrcMismatch | GzipSizeMismatch | OutputTooLarge.

Definition MAX_OUTPUT : Z := 256 * 1024 * 1024.

(** ** The bit reader *)

Record BitReader := { data : list Z; byte_pos : nat; bit_pos : nat }.

Definition reader_new (bytes : list Z) : BitReader := {| data := bytes; byte_pos := 0; bit_pos := 0 |}.

Definition seek (br : BitReader) (byte bit : nat) : BitReader := {| data := data br; byte_pos := byte; bit_pos := bit |}.

Definition decoder (A : Type) : Type := BitReader → fallible (A * BitReader) DecodeError.

#[export] Instance decoder_ret : MRet decoder := λ A a br, Ret (Ok (a, br)).
#[export] Instance decoder_bind : MBind decoder := λ A B k m br, p <-!? m br; k p.1 p.2.

Definition fail {A} (e : DecodeError) : decoder A := λ br, Ret (Err e).
Definition lift {A} (m : fallible A DecodeError) : decoder A := λ br, a <-!? m; Ret (Ok (a, br)).
Definition pure_of {A} (m : outcome A) : decoder A := λ br, a <-! m; Ret (Ok (a, br)).

(** [for i in 0..n] of [read_bits], from bit [i] on. *)
Fixpoint read_bits_from (n : nat) (i value : Z) : decoder Z := λ br,
  match n with
  | O => Ret (Ok (value, br))
  | S n' =>
      match data br !! byte_pos br with
      | None => Ret (Err UnexpectedEnd)
      | Some b =>
          let bit := Z.land (Z.shiftr b (Z.of_nat (bit_pos br))) 1 in
          let value := Z.lor value (as_u32 (Z.shiftl bit i)) in
          let br := if bool_decide (S (bit_pos br) = 8%nat) then seek br (S (byte_pos br)) 0
                    else seek br (byte_pos br) (S (bit_pos br)) in
          read_bits_from n' (i + 1) value br
      end
  end.

Definition read_bits (n : nat) : decoder Z := read_bits_from n 0 0.

Definition align_to_byte : decoder unit := λ br,
  Ret (Ok (tt, if negb (bool_decide (bit_pos br = 0%nat)) then seek br (S (byte_pos br)) 0 else br)).

Definition read_aligned_u16_le : decoder Z := λ br,
  if bool_decide (length (data br) < byte_pos br + 2)%nat then Ret (Err UnexpectedEnd)
  else
    lo <-! index (data br) (Z.of_nat (byte_pos br));
    hi <-! index (data br) (Z.of_nat (byte_pos br) + 1);
    Ret (Ok (Z.lor lo (as_u16 (Z.shiftl hi 8)), seek br (byte_pos br + 2) (bit_pos br))).

Definition read_aligned_bytes (n : nat) : decoder (list Z) := λ br,
  if bool_decide (length (data br) < byte_pos br + n)%nat then Ret (Err UnexpectedEnd)
  else
    r <-! slice (data br) (Z.of_nat (byte_pos br)) (Z.of_nat (byte_pos br + n));
    Ret (Ok (r, seek br (byte_pos br + n) (bit_pos br))).

(** The bits between the position and the end. *)
Definition bits_left (br : BitReader) : nat := 8 * length (data br) - (8 * byte_pos br + bit_pos br).

(** ** Huffman tables *)

Record HuffmanTable := { counts : list Z; symbols : list Z }.

(** [counts[l] += 1] for every length, which must be below 16. *)
Fixpoint count_lengths (lengths counts : list Z) : fallible (list Z) DecodeError :=
  match lengths with
  | [] => Ret (Ok counts)
  | l :: lengths => if 16 <=? l then Ret (Err InvalidHuffmanCode) else counts <-! bump counts l; count_lengths lengths counts
  end.

(** [offsets[i + 1] = offsets[i] + counts[i]]. *)
Definition add_offset (counts : list Z) (i : Z) (offsets : list Z) : outcome (list Z) :=
  o <-! index offsets i; c <-! index counts i; store offsets (i + 1) (as_u16 (o + c)).

(** One turn of the loop that places the symbols: [symbols[next[l]] = sym; next[l] += 1]. *)
Definition place_symbol (e : nat * Z) (s : list Z * list Z) : outcome (list Z * list Z) :=
  let '(sym, l) := e in
  let '(symbols, next) := s in
  if negb (l =? 0) then
    p <-! index next l;
    symbols <-! store symbols p (as_u16 (Z.of_nat sym));
    next <-! bump next l;
    Ret (symbols, next)
  else Ret (symbols, next).

Definition from_lengths (lengths : list Z) : fallible HuffmanTable DecodeError :=
  counts <-!? count_lengths lengths (replicate 16 0);
  counts <-! store counts 0 0;
  offsets <-! for_each (add_offset counts) (Z.of_nat <$> seq 1 15) (replicate 17 0);
  let total := foldr Z.add 0 (drop 1 counts) in
  p <-! for_each place_symbol (enumerate lengths) (replicate (Z.to_nat total) 0, offsets);
  Ret (Ok {| counts := counts; symbols := p.1 |}).

(** [for l in 1..16] of [HuffmanTable::decode], from length [l] on. *)
Fixpoint decode_from (t : HuffmanTable) (n : nat) (l code first idx : Z) : decoder Z :=
  match n with
  | O => fail InvalidHuffmanCode
  | S n' =>
      bit ← read_bits 1;
      let code := Z.lor (as_u32 (Z.shiftl code 1)) bit in
      count ← pure_of (index (counts t) l);
      if code <? as_u32 (first + count) then
        let sym_idx := as_u32 (idx + (code - first)) in
        pure_of (index (symbols t) sym_idx)
      else decode_from t n' (l + 1) code (as_u32 (Z.shiftl (as_u32 (first + count)) 1)) (as_u32 (idx + count))
  end.

Definition decode (t : HuffmanTable) : decoder Z := decode_from t 15 1 0 0 0.

Definition fixed_literal_lengths : list Z := replicate 144 8 ++ replicate 112 9 ++ replicate 24 7 ++ replicate 8 8.
Definition fixed_distance_lengths : list Z := replicate 30 5.

Definition LENGTH_BASE : list Z :=
  [3; 4; 5; 6; 7; 8; 9; 10; 11; 13; 15; 17; 19; 23; 27; 31; 35; 43; 51; 59; 67; 83; 99; 115; 131; 163; 195; 227; 258].
Definition LENGTH_EXTRA : list Z :=
  [0; 0; 0; 0; 0; 0; 0; 0; 1; 1; 1; 1; 2; 2; 2; 2; 3; 3; 3; 3; 4; 4; 4; 4; 5; 5; 5; 5; 0].
Definition DISTANCE_BASE : list Z :=
  [1; 2; 3; 4; 5; 7; 9; 13; 17; 25; 33; 49; 65; 97; 129; 193; 257; 385; 513; 769; 1025; 1537; 2049; 3073; 4097; 6145;
   8193; 12289; 16385; 24577].
Definition DISTANCE_EXTRA : list Z :=
  [0; 0; 0; 0; 1; 1; 2; 2; 3; 3; 4; 4; 5; 5; 6; 6; 7; 7; 8; 8; 9; 9; 10; 10; 11; 11; 12; 12; 13; 13].
Definition CODE_LENGTH_ORDER : list Z := [16; 17; 18; 0; 8; 7; 9; 6; 10; 5; 11; 4; 12; 3; 13; 2; 14; 1; 15].

(** ** Dynamic tables *)

(** [for i in 0..hclen { code_lengths[CODE_LENGTH_ORDER[i]] = br.read_bits(3)? }], over
    the entries of the order it uses. *)
Fixpoint read_code_lengths (order code_lengths : list Z) : decoder (list Z) :=
  match order with
  | [] => mret code_lengths
  | o :: order =>
      v ← read_bits 3;
      code_lengths ← pure_of (store code_lengths o (as_u8 v));
      read_code_lengths order code_lengths
  end.

(** [for _ in 0..repeat { if i >= combined.len() { Err } combined[i] = v; i += 1 }]. *)
Fixpoint repeat_length (n : nat) (v : Z) (s : list Z * Z) : fallible (list Z * Z) DecodeError :=
  match n with
  | O => Ret (Ok s)
  | S n' =>
      let '(combined, i) := s in
      if len combined <=? i then Ret (Err InvalidHuffmanCode)
      else combined <-! store combined i v; repeat_length n' v (combined, i + 1)
  end.

(** One turn of [while i < combined.len()]. *)
Definition read_length (cl_table : HuffmanTable) (s : list Z * Z) : decoder (list Z * Z) :=
  sym ← decode cl_table;
  let '(combined, i) := s in
  if sym <=? 15 then
    combined ← pure_of (store combined i (as_u8 sym));
    mret (combined, i + 1)
  else if sym =? 16 then
    if i =? 0 then fail InvalidHuffmanCode
    else
      prev ← pure_of (index combined (i - 1));
      r ← read_bits 2;
      lift (repeat_length (Z.to_nat (r + 3)) prev s)
  else if sym =? 17 then
    r ← read_bits 3;
    lift (repeat_length (Z.to_nat (r + 3)) 0 s)
  else if sym =? 18 then
    r ← read_bits 7;
    lift (repeat_length (Z.to_nat (r + 11)) 0 s)
  else fail InvalidHuffmanCode.

Fixpoint read_lengths (fuel : nat) (cl_table : HuffmanTable) (s : list Z * Z) : decoder (list Z) :=
  if s.2 <? len s.1 then
    match fuel with
    | O => pure_of Panic
    | S fuel' => s ← read_length cl_table s; read_lengths fuel' cl_table s
    end
  else mret s.1.

Definition read_dynamic_tables : decoder (HuffmanTable * HuffmanTable) :=
  h ← read_bits 5; let hlit := h + 257 in
  h ← read_bits 5; let hdist := h + 1 in
  h ← read_bits 4; let hclen := h + 4 in
  order ← pure_of (slice CODE_LENGTH_ORDER 0 hclen);
  code_lengths ← read_code_lengths order (replicate 19 0);
  cl_table ← lift (from_lengths code_lengths);
  let n := Z.to_nat (hlit + hdist) in
  combined ← read_lengths n cl_table (replicate n 0, 0);
  l ← pure_of (slice combined 0 hlit);
  lit_table ← lift (from_lengths l);
  d ← pure_of (slice_from combined hlit);
  dist_table ← lift (from_lengths d);
  mret (lit_table, dist_table).

(** ** Blocks *)

(** [for i in 0..length]: the copy of a match, byte by byte, from [start + i]. *)
Fixpoint copy_match (n : nat) (max_output src : Z) (out : list Z) : fallible (list Z) DecodeError :=
  match n with
  | O => Ret (Ok out)
  | S n' =>
      b <-! index out src;
      let out := out ++ [b] in
      if max_output <? len out then Ret (Err OutputTooLarge) else copy_match n' max_output (src + 1) out
  end.

(** The length and distance that follow the symbol of a match, and the copy. *)
Definition read_match (dist : HuffmanTable) (max_output sym : Z) (out : list Z) : decoder (list Z) :=
  let code := sym - 257 in
  if 29 <=? code then fail InvalidLengthCode
  else
    lb ← pure_of (index LENGTH_BASE code);
    le ← pure_of (index LENGTH_EXTRA code);
    lx ← read_bits (Z.to_nat le);
    dist_sym ← decode dist;
    if 30 <=? dist_sym then fail InvalidDistanceCode
    else
      db ← pure_of (index DISTANCE_BASE dist_sym);
      de ← pure_of (index DISTANCE_EXTRA dist_sym);
      dx ← read_bits (Z.to_nat de);
      let distance := db + dx in
      if len out <? distance then fail DistanceTooFar
      else lift (copy_match (Z.to_nat (lb + lx)) max_output (len out - distance) out).

Fixpoint block_loop (fuel : nat) (lit dist : HuffmanTable) (max_output : Z) (out : list Z) : decoder (list Z) :=
  match fuel with
  | O => pure_of Panic
  | S fuel' =>
      if max_output <? len out then fail OutputTooLarge
      else
        sym ← decode lit;
        if sym <? 256 then block_loop fuel' lit dist max_output (out ++ [as_u8 sym])
        else if sym =? 256 then mret out
        else out ← read_match dist max_output sym out; block_loop fuel' lit dist max_output out
  end.

Definition decompress_block (out : list Z) (lit dist : HuffmanTable) (max_output : Z) : decoder (list Z) := λ br,
  block_loop (S (bits_left br)) lit dist max_output out br.

(** The arm of a stored block. *)
Definition stored_block (max_output : Z) (out : list Z) : decoder (list Z) :=
  _ ← align_to_byte;
  n ← read_aligned_u16_le;
  nlen ← read_aligned_u16_le;
  if negb (Z.lxor n nlen =? 65535) then fail InvalidStoredLen
  else
    bytes ← read_aligned_bytes (Z.to_nat n);
    match checked_add64 (len out) (len bytes) with
    | None => fail OutputTooLarge
    | Some next_len => if max_output <? next_len then fail OutputTooLarge else mret (out ++ bytes)
    end.

Definition fixed_block (max_output : Z) (out : list Z) : decoder (list Z) :=
  lit ← lift (from_lengths fixed_literal_lengths);
  dist ← lift (from_lengths fixed_distance_lengths);
  decompress_block out lit dist max_output.

Definition dynamic_block (max_output : Z) (out : list Z) : decoder (list Z) :=
  t ← read_dynamic_tables;
  decompress_block out t.1 t.2 max_output.

Definition read_block (max_output : Z) (out : list Z) : decoder (Z * list Z) :=
  bfinal ← read_bits 1;
  btype ← read_bits 2;
  out ← (if btype =? 0 then stored_block max_output out
         else if btype =? 1 then fixed_block max_output out
         else if btype =? 2 then dynamic_block max_output out
         else fail InvalidBlockType);
  mret (bfinal, out).

Fixpoint blocks_loop (fuel : nat) (max_output : Z) (out : list Z) : decoder (list Z) :=
  match fuel with
  | O => pure_of Panic
  | S fuel' =>
      p ← read_block max_output out;
      if negb (p.1 =? 0) then mret p.2 else blocks_loop fuel' max_output p.2
  end.

Definition inflate_with_limit (bytes : list Z) (max_output : Z) : fallible (list Z) DecodeError :=
  let br := reader_new bytes in
  p <-!? blocks_loop (S (bits_left br)) max_output [] br;
  Ret (Ok p.1).

Definition inflate (bytes : list Z) : fallible (list Z) DecodeError := inflate_with_limit bytes MAX_OUTPUT.

(** ** Checksums *)

(** [for _ in 0..8] of the table of [crc32]. *)
Fixpoint crc_entry (n : nat) (c : Z) : Z :=
  match n with
  | O => c
  | S n' => crc_entry n' (if negb (Z.land c 1 =? 0) then Z.lxor 3988292384 (Z.shiftr c 1) else Z.shiftr c 1)
  end.

Definition crc_table : list Z := (λ n, crc_entry 8 (Z.of_nat n)) <$> seq 0 256.

Definition crc_step (table : list Z) (b c : Z) : outcome Z :=
  e <-! index table (Z.land (Z.lxor c b) 255); Ret (Z.lxor e (Z.shiftr c 8)).

Definition crc32 (bytes : list Z) : outcome Z :=
  c <-! for_each (crc_step crc_table) bytes 4294967295; Ret (Z.lxor c 4294967295).

Definition adler_step (s : Z * Z) (x : Z) : Z * Z :=
  let a := as_u32 (s.1 + x) `mod` 65521 in (a, as_u32 (s.2 + a) `mod` 65521).

Definition adler32 (bytes : list Z) : Z :=
  let '(a, b) := foldl adler_step (1, 0) bytes in Z.lor (as_u32 (Z.shiftl b 16)) a.

(** ** gzip and zlib *)

(** [while p < data.len() && data[p] != 0 { p += 1 }] and the check and step over the zero
    byte: the file name and the comment of a gzip header, read off the bytes from [p] on. *)
Fixpoint skip_zero_terminated (bytes : list Z) (p : Z) : result Z DecodeError :=
  match bytes with
  | [] => Err UnexpectedEnd
  | b :: bytes => if negb (b =? 0) then skip_zero_terminated bytes (p + 1) else Ok (p + 1)
  end.

Definition skip_name (present : bool) (bytes : list Z) (p : Z) : fallible Z DecodeError :=
  if present then Ret (skip_zero_terminated (drop (Z.to_nat p) bytes) p) else Ret (Ok p).

(** The extra field. *)
Definition skip_extra (present : bool) (bytes : list Z) (p : Z) : fallible Z DecodeError :=
  if present then
    if len bytes <? p + 2 then Ret (Err UnexpectedEnd)
    else
      lo <-! index bytes p;
      hi <-! index bytes (p + 1);
      let p := p + (2 + Z.lor lo (Z.shiftl hi 8)) in
      if len bytes <? p then Ret (Err UnexpectedEnd) else Ret (Ok p)
  else Ret (Ok p).

Definition skip_header_crc (present : bool) (bytes : list Z) (p : Z) : fallible Z DecodeError :=
  if present then if len bytes <? p + 2 then Ret (Err UnexpectedEnd) else Ret (Ok (p + 2)) else Ret (Ok p).

Definition has_flag (flg bit : Z) : bool := negb (Z.land flg bit =? 0).

(** A little-endian [u32] at [p] of the trailer. *)
Definition le32 (trailer : list Z) (p : Z) : outcome Z :=
  b0 <-! index trailer p;
  b1 <-! index trailer (p + 1);
  b2 <-! index trailer (p + 2);
  b3 <-! index trailer (p + 3);
  Ret (Z.lor (Z.lor (Z.lor b0 (Z.shiftl b1 8)) (Z.shiftl b2 16)) (Z.shiftl b3 24)).

Definition gunzip_with_limit (bytes : list Z) (max_output : Z) : fallible (list Z) DecodeError :=
  if len bytes <? 18 then Ret (Err UnexpectedEnd)
  else
    b0 <-! index bytes 0;
    b1 <-! index bytes 1;
    if negb (b0 =? 31) || negb (b1 =? 139) then Ret (Err InvalidGzipMagic)
    else
      b2 <-! index bytes 2;
      if negb (b2 =? 8) then Ret (Err UnsupportedGzipMethod)
      else
        flg <-! index bytes 3;
        if has_flag flg 224 then Ret (Err GzipReservedFlags)
        else
          p <-!? skip_extra (has_flag flg 4) bytes 10;
          p <-!? skip_name (has_flag flg 8) bytes p;
          p <-!? skip_name (has_flag flg 16) bytes p;
          p <-!? skip_header_crc (has_flag flg 2) bytes p;
          if len bytes <? p + 8 then Ret (Err UnexpectedEnd)
          else
            payload <-! slice bytes p (len bytes - 8);
            trailer <-! slice_from bytes (len bytes - 8);
            out <-!? inflate_with_limit payload max_output;
            crc_expected <-! le32 trailer 0;
            isize_expected <-! le32 trailer 4;
            c <-! crc32 out;
            if negb (c =? crc_expected) then Ret (Err GzipCrcMismatch)
            else if negb (as_u32 (len out) =? isize_expected) then Ret (Err GzipSizeMismatch)
            else Ret (Ok out).

Definition gunzip (bytes : list Z) : fallible (list Z) DecodeError := gunzip_with_limit bytes MAX_OUTPUT.

Definition zlib_inflate_with_limit (bytes : list Z) (max_output : Z) : fallible (list Z) DecodeError :=
  if len bytes <? 6 then Ret (Err UnexpectedEnd)
  else
    cmf <-! index bytes 0;
    flg <-! index bytes 1;
    if negb (Z.land cmf 15 =? 8) then Ret (Err UnsupportedGzipMethod)
    else if negb (Z.lor (as_u16 (Z.shiftl cmf 8)) flg `mod` 31 =? 0) then Ret (Err InvalidHuffmanCode)
    else if has_flag flg 32 then Ret (Err GzipReservedFlags)
    else
      payload <-! slice bytes 2 (len bytes - 4);
      trailer <-! slice_from bytes (len bytes - 4);
      out <-!? inflate_with_limit payload max_output;
      b0 <-! index trailer 0;
      b1 <-! index trailer 1;
      b2 <-! index trailer 2;
      b3 <-! index trailer 3;
      let adler_expected := Z.lor (Z.lor (Z.lor (Z.shiftl b0 24) (Z.shiftl b1 16)) (Z.shiftl b2 8)) b3 in
      if negb (adler32 out =? adler_expected) then Ret (Err GzipCrcMismatch) else Ret (Ok out).

Definition zlib_inflate (bytes : list Z) : fallible (list Z) DecodeError := zlib_inflate_with_limit bytes MAX_OUTPUT.

Definition http_deflate_inflate_with_limit (bytes : list Z) (max_output : Z) : fallible (list Z) DecodeError :=
  r <-! zlib_inflate_with_limit bytes max_output;
  match r with Ok v => Ret (Ok v) | Err _ => inflate_with_limit bytes max_output end.

Definition http_deflate_inflate (bytes : list Z) : fallible (list Z) DecodeError :=
  http_deflate_inflate_with_limit bytes MAX_OUTPUT.

(** ** Stored encoders *)

Definition STORED_MAX : Z := 65535.

(** The header of a stored block: the final bit, the length and its complement. *)
Definition stored_header (is_final : bool) (n : Z) : list Z :=
  let n := as_u16 n in
  let m := 65535 - n in
  [if is_final then 1 else 0; as_u8 (Z.land n 255); as_u8 (Z.shiftr n 8); as_u8 (Z.land m 255); as_u8 (Z.shiftr m 8)].

(** [while i < data.len()], over the bytes from [i] on; each turn takes at least one. *)
Fixpoint stored_loop (fuel : nat) (rest : list Z) : list Z :=
  match fuel, rest with
  | S fuel', _ :: _ =>
      let chunk_len := Z.min STORED_MAX (len rest) in
      stored_header (chunk_len =? len rest) chunk_len ++ take (Z.to_nat chunk_len) rest ++
      stored_loop fuel' (drop (Z.to_nat chunk_len) rest)
  | _, _ => []
  end.

Definition deflate_stored (bytes : list Z) : list Z :=
  match bytes with
  | [] => [1; 0; 0; 255; 255]
  | _ => stored_loop (length bytes) bytes
  end.

(** The four bytes of a [u32], most significant first, and least significant first. *)
Definition be_bytes32 (v : Z) : list Z := [as_u8 (Z.shiftr v 24); as_u8 (Z.shiftr v 16); as_u8 (Z.shiftr v 8); as_u8 v].
Definition le_bytes32 (v : Z) : list Z := [as_u8 v; as_u8 (Z.shiftr v 8); as_u8 (Z.shiftr v 16); as_u8 (Z.shiftr v 24)].

Definition GZIP_HEADER : list Z := [31; 139; 8; 0; 0; 0; 0; 0; 0; 255].

Definition zlib_deflate_stored (bytes : list Z) : list Z :=
  [120; 1] ++ deflate_stored bytes ++ be_bytes32 (adler32 bytes).

Definition gzip_deflate_stored (bytes : list Z) : outcome (list Z) :=
  c <-! crc32 bytes;
  Ret (GZIP_HEADER ++ deflate_stored bytes ++ le_bytes32 c ++ le_bytes32 (as_u32 (len bytes))).
