(* ===== verification/Deflate.v ===== *)
(** * Deflate: the compressor

    rusty-js-deflate/src/compress.rs and stream.rs: LZ77 matching over hash chains, code
    lengths by package-merge, canonical codes, the bit writer, fixed and dynamic blocks,
    the gzip and zlib containers and the streaming adapter.  Array accesses out of range
    panic ([index], [store]).  The loop over the input runs on one unit of fuel per byte,
    the loops that cut a run into codes on one per entry of the run. *)

From S2P Require Import Prelude Bytes Bits Arrays Inflate.

Local Open Scope Z_scope.
Local Open Scope cruft_scope.

Definition DIST_BASE : list Z := DISTANCE_BASE.
Definition DIST_EXTRA : list Z := DISTANCE_EXTRA.
Definition CLCL_ORDER : list Z := CODE_LENGTH_ORDER.

Definition MIN_MATCH : Z := 3.
Definition MAX_MATCH : Z := 258.
Definition WSIZE : Z := 32768.
Definition HASH_SIZE : Z := Z.shiftl 1 15.
Definition MAX_CHAIN : nat := 256.

Inductive Sym :=
| Lit (b : Z)
| Match (len dist : Z).

(** ** LZ77 *)

Definition hash3 (data : list Z) (i : Z) : outcome Z :=
  a <-! index data i;
  b <-! index data (i + 1);
  c <-! index data (i + 2);
  Ret (Z.land (Z.lxor (Z.lxor (Z.shiftl a 10) (Z.shiftl b 5)) c) (HASH_SIZE - 1)).

(** The hash chains: [head] by hash, [prev] by position. *)
Definition chains : Type := list Z * list Z.

(** The closure [insert]. *)
Definition insert_hash (data : list Z) (i : Z) (s : chains) : outcome chains :=
  let '(head, prev) := s in
  if i + MIN_MATCH <=? len data then
    h <-! hash3 data i;
    p <-! index head h;
    prev <-! store prev i p;
    head <-! store head h (i32 i);
    Ret (head, prev)
  else Ret (head, prev).

(** [while i < end { insert(i); i += 1 }], for [n] positions from [i]. *)
Fixpoint insert_range (n : nat) (data : list Z) (i : Z) (s : chains) : outcome chains :=
  match n with
  | O => Ret s
  | S n' => s <-! insert_hash data i s; insert_range n' data (i + 1) s
  end.

(** [while l < max_len && data[c + l] == data[i + l] { l += 1 }], with [n] positions left
    before [max_len]. *)
Fixpoint match_len (n : nat) (data : list Z) (c i l : Z) : outcome Z :=
  match n with
  | O => Ret l
  | S n' =>
      x <-! index data (c + l);
      y <-! index data (i + l);
      if x =? y then match_len n' data c i (l + 1) else Ret l
  end.

(** [best_len == 0 || data[c + best_len] == data[i + best_len]]. *)
Definition promising (data : list Z) (c i best_len : Z) : outcome bool :=
  if best_len =? 0 then Ret true
  else x <-! index data (c + best_len); y <-! index data (i + best_len); Ret (x =? y).

(** [while cand >= 0 && chain > 0]: the best length and distance along a chain. *)
Fixpoint search_chain (chain : nat) (data prev : list Z) (i max_len cand best_len best_dist : Z) : outcome (Z * Z) :=
  match chain with
  | O => Ret (best_len, best_dist)
  | S chain' =>
      if 0 <=? cand then
        let c := cand in
        if WSIZE <? i - c then Ret (best_len, best_dist)
        else
          p <-! promising data c i best_len;
          l <-! (if p then match_len (Z.to_nat max_len) data c i 0 else Ret 0);
          if p && (best_len <? l) then
            if max_len <=? l then Ret (l, i - c)
            else next <-! index prev c; search_chain chain' data prev i max_len next l (i - c)
          else next <-! index prev c; search_chain chain' data prev i max_len next best_len best_dist
      else Ret (best_len, best_dist)
  end.

(** The longest match found at a position. *)
Definition find_match (data : list Z) (i : Z) (s : chains) : outcome (Z * Z) :=
  if i + MIN_MATCH <=? len data then
    h <-! hash3 data i;
    cand <-! index s.1 h;
    search_chain MAX_CHAIN data s.2 i (Z.min MAX_MATCH (len data - i)) cand 0 0
  else Ret (0, 0).

Fixpoint lz77_loop (fuel : nat) (data : list Z) (i : Z) (s : chains) (syms : list Sym) : outcome (list Sym) :=
  if i <? len data then
    match fuel with
    | O => Panic
    | S fuel' =>
        m <-! find_match data i s;
        let '(best_len, best_dist) := m in
        if MIN_MATCH <=? best_len then
          s <-! insert_range (Z.to_nat best_len) data i s;
          lz77_loop fuel' data (i + best_len) s (syms ++ [Match (as_u16 best_len) (as_u16 best_dist)])
        else
          b <-! index data i;
          s <-! insert_hash data i s;
          lz77_loop fuel' data (i + 1) s (syms ++ [Lit b])
    end
  else Ret syms.

Definition lz77 (data : list Z) : outcome (list Sym) :=
  match data with
  | [] => Ret []
  | _ => lz77_loop (length data) data 0 (replicate (Z.to_nat HASH_SIZE) (-1), replicate (length data) (-1)) []
  end.

(** ** The bit writer *)

Record BitWriter := { wout : list Z; bitbuf : Z; bitcnt : Z }.

Definition writer_new : BitWriter := {| wout := []; bitbuf := 0; bitcnt := 0 |}.

(** [while self.bitcnt >= 8]; at most 24 bits are pending. *)
Fixpoint flush_bytes (fuel : nat) (bw : BitWriter) : BitWriter :=
  match fuel with
  | O => bw
  | S fuel' =>
      if 8 <=? bitcnt bw then
        flush_bytes fuel' {| wout := wout bw ++ [as_u8 (Z.land (bitbuf bw) 255)]; bitbuf := Z.shiftr (bitbuf bw) 8; bitcnt := bitcnt bw - 8 |}
      else bw
  end.

Definition write_bits (v n : Z) (bw : BitWriter) : BitWriter :=
  let bits := as_u32 (Z.shiftl (Z.land v (Z.shiftl 1 n - 1)) (bitcnt bw)) in
  flush_bytes 4 {| wout := wout bw; bitbuf := Z.lor (bitbuf bw) bits; bitcnt := bitcnt bw + n |}.

(** [for _ in 0..len { rev = (rev << 1) | (c & 1); c >>= 1 }]. *)
Fixpoint reverse_bits (n : nat) (c rev : Z) : Z :=
  match n with
  | O => rev
  | S n' => reverse_bits n' (Z.shiftr c 1) (Z.lor (as_u32 (Z.shiftl rev 1)) (Z.land c 1))
  end.

Definition write_huff (code l : Z) (bw : BitWriter) : BitWriter :=
  if l =? 0 then bw else write_bits (reverse_bits (Z.to_nat l) code 0) l bw.

Definition finish (bw : BitWriter) : list Z :=
  if 0 <? bitcnt bw then wout bw ++ [as_u8 (Z.land (bitbuf bw) 255)] else wout bw.

(** ** Canonical codes *)

Definition count_positive (l : Z) (bl_count : list Z) : outcome (list Z) := if 0 <? l then bump bl_count l else Ret bl_count.

(** [code = (code + bl_count[bits - 1]) << 1; next_code[bits] = code]. *)
Definition first_code (bl_count : list Z) (bits : Z) (s : Z * list Z) : outcome (Z * list Z) :=
  let '(code, next_code) := s in
  c <-! index bl_count (bits - 1);
  let code := as_u16 (Z.shiftl (as_u16 (code + c)) 1) in
  next_code <-! store next_code bits code;
  Ret (code, next_code).

Definition assign_code (e : nat * Z) (s : list Z * list Z) : outcome (list Z * list Z) :=
  let '(i, l) := e in
  let '(codes, next_code) := s in
  if 0 <? l then
    c <-! index next_code l;
    codes <-! store codes (Z.of_nat i) c;
    next_code <-! bump next_code l;
    Ret (codes, next_code)
  else Ret (codes, next_code).

Definition canonical_codes (lengths : list Z) : outcome (list Z) :=
  let max_bits := foldr Z.max 0 lengths in
  let codes := replicate (length lengths) 0 in
  if max_bits =? 0 then Ret codes
  else
    let n := Z.to_nat max_bits in
    bl_count <-! for_each count_positive lengths (replicate (S n) 0);
    p <-! for_each (first_code bl_count) (Z.of_nat <$> seq 1 n) (0, replicate (S n) 0);
    q <-! for_each assign_code (enumerate lengths) (codes, p.2);
    Ret q.1.

(** ** Code lengths by package-merge *)

(** An item: its weight and the symbols in it. *)
Definition package : Type := Z * list Z.

(** [sort_by_key]: a stable sort. *)
Fixpoint sort_insert (key : Z → Z) (s : Z) (l : list Z) : list Z :=
  match l with
  | [] => [s]
  | t :: l' => if key s <=? key t then s :: l else t :: sort_insert key s l'
  end.

Definition sort_by_key (key : Z → Z) (l : list Z) : list Z := foldr (sort_insert key) [] l.

(** [while k + 1 < current.len()]: neighbours are packed in pairs. *)
Fixpoint pack (current : list package) : list package :=
  match current with
  | x :: y :: current => ((x.1 + y.1, x.2 ++ y.2) : package) :: pack current
  | _ => []
  end.

(** [while a < leaves.len() || b < packages.len()]. *)
Fixpoint merge_leaves (leaves : list package) : list package → list package :=
  match leaves with
  | [] => λ packages, packages
  | x :: leaves' =>
      fix go (packages : list package) : list package :=
        match packages with
        | [] => leaves
        | y :: packages' => if x.1 <=? y.1 then x :: merge_leaves leaves' packages else y :: go packages'
        end
  end.

Fixpoint package_merge (n : nat) (leaves current : list package) : list package :=
  match n with
  | O => current
  | S n' => package_merge n' leaves (merge_leaves leaves (pack current))
  end.

(** [counts[s] += 1] on [u32]. *)
Definition bump32 (s : Z) (counts : list Z) : outcome (list Z) := v <-! index counts s; store counts s (as_u32 (v + 1)).

Definition length_limited_huffman (freqs : list Z) (maxlen : Z) : outcome (list Z) :=
  let n := length freqs in
  let lengths := replicate n 0 in
  let symbols := (λ e, Z.of_nat e.1) <$> filter (λ e, 0 < e.2) (enumerate freqs) in
  match symbols with
  | [] => Ret lengths
  | [s] =>
      lengths <-! store lengths s 1;
      let filler := if s =? 0 then 1 else 0 in
      store lengths filler 1
  | _ =>
      let m := length symbols in
      let freq s := default 0 (freqs !! Z.to_nat s) in
      let syms := sort_by_key freq symbols in
      let leaves : list package := (λ s, (freq s, [s])) <$> syms in
      let current := package_merge (Z.to_nat (maxlen - 1)) leaves leaves in
      counts <-! for_each bump32 (take (2 * m - 2) current ≫= snd) (replicate n 0);
      Ret (as_u8 <$> counts)
  end.

(** ** Symbols of lengths and distances *)

(** [for j in 0..n { if BASE[j] <= v { idx = j } else { break } }]. *)
Fixpoint base_index (base : list Z) (j idx v : Z) : Z :=
  match base with
  | [] => idx
  | b :: base => if b <=? v then base_index base (j + 1) j v else idx
  end.

Definition length_sym (n : Z) : outcome (Z * Z * Z) :=
  let idx := base_index LENGTH_BASE 0 0 n in
  b <-! index LENGTH_BASE idx;
  e <-! index LENGTH_EXTRA idx;
  Ret (257 + idx, as_u16 (n - b), e).

Definition dist_sym (d : Z) : outcome (Z * Z * Z) :=
  let idx := base_index DIST_BASE 0 0 d in
  b <-! index DIST_BASE idx;
  e <-! index DIST_EXTRA idx;
  Ret (idx, as_u16 (d - b), e).

Definition fixed_litlen_lengths : list Z := replicate 144 8 ++ replicate 112 9 ++ replicate 24 7 ++ replicate 8 8.
Definition fixed_dist_lengths : list Z := replicate 30 5.

(** ** Runs of code lengths *)

(** A code of the header: the symbol, its extra bits and their number. *)
Definition rle : Type := Z * Z * Z.

(** [while i + run < n && all[i + run] == cur { run += 1 }]: how many more of [cur]. *)
Fixpoint run_length (cur : Z) (l : list Z) : nat :=
  match l with
  | x :: l => if x =? cur then S (run_length cur l) else O
  | [] => O
  end.

(** [while r >= low { c = r.min(high); out.push((sym, c - low, ebits)); r -= c; }]: the
    codes, and what is left of the run. *)
Fixpoint cut_run (fuel : nat) (sym low high ebits r : Z) : list rle * Z :=
  match fuel with
  | O => ([], r)
  | S fuel' =>
      if low <=? r then
        let c := Z.min r high in
        let '(out, r') := cut_run fuel' sym low high ebits (r - c) in ((sym, c - low, ebits) :: out, r')
      else ([], r)
  end.

(** The codes of a run of [run] lengths [cur]. *)
Definition rle_run (cur : Z) (run : nat) : list rle :=
  if cur =? 0 then
    let '(big, r) := cut_run run 18 11 138 7 (Z.of_nat run) in
    let '(small, r) := cut_run run 17 3 10 3 r in
    big ++ small ++ replicate (Z.to_nat r) (0, 0, 0)
  else
    let '(again, r) := cut_run run 16 3 6 2 (Z.of_nat run - 1) in
    (cur, 0, 0) :: again ++ replicate (Z.to_nat r) (cur, 0, 0).

Fixpoint rle_loop (fuel : nat) (l : list Z) : list rle :=
  match fuel, l with
  | S fuel', cur :: l' => let more := run_length cur l' in rle_run cur (S more) ++ rle_loop fuel' (drop more l')
  | _, _ => []
  end.

Definition rle_code_lengths (l : list Z) : list rle := rle_loop (length l) l.

(** ** Blocks *)

Definition count_sym (s : Sym) (f : list Z * list Z) : outcome (list Z * list Z) :=
  let '(ll, d) := f in
  match s with
  | Lit b => ll <-! bump32 b ll; Ret (ll, d)
  | Match n dist =>
      l <-! length_sym n;
      ll <-! bump32 l.1.1 ll;
      e <-! dist_sym dist;
      d <-! bump32 e.1.1 d;
      Ret (ll, d)
  end.

Definition block_frequencies (syms : list Sym) : outcome (list Z * list Z) :=
  f <-! for_each count_sym syms (replicate 288 0, replicate 30 0);
  ll <-! bump32 256 f.1;
  Ret (ll, f.2).

(** [bw.write_huff(codes[s], lens[s])]. *)
Definition write_sym (codes lens : list Z) (s : Z) (bw : BitWriter) : outcome BitWriter :=
  c <-! index codes s; l <-! index lens s; Ret (write_huff c l bw).

(** [if ebits > 0 { bw.write_bits(extra, ebits) }]. *)
Definition write_extra (extra ebits : Z) (bw : BitWriter) : BitWriter := if 0 <? ebits then write_bits extra ebits bw else bw.

Definition emit_symbol (ll_codes ll_lens d_codes d_lens : list Z) (s : Sym) (bw : BitWriter) : outcome BitWriter :=
  match s with
  | Lit b => write_sym ll_codes ll_lens b bw
  | Match n dist =>
      l <-! length_sym n;
      let '(lc, lev, leb) := l in
      bw <-! write_sym ll_codes ll_lens lc bw;
      let bw := write_extra lev leb bw in
      d <-! dist_sym dist;
      let '(dc, dev, deb) := d in
      bw <-! write_sym d_codes d_lens dc bw;
      Ret (write_extra dev deb bw)
  end.

Definition emit_symbols (syms : list Sym) (ll_codes ll_lens d_codes d_lens : list Z) (bw : BitWriter) : outcome BitWriter :=
  bw <-! for_each (emit_symbol ll_codes ll_lens d_codes d_lens) syms bw;
  write_sym ll_codes ll_lens 256 bw.

Definition encode_fixed (syms : list Sym) : outcome (list Z) :=
  let bw := write_bits 1 2 (write_bits 1 1 writer_new) in
  ll_codes <-! canonical_codes fixed_litlen_lengths;
  d_codes <-! canonical_codes fixed_dist_lengths;
  bw <-! emit_symbols syms ll_codes fixed_litlen_lengths d_codes fixed_dist_lengths bw;
  Ret (finish bw).

(** [while n > low && lens[at(n - 1)] == 0 { n -= 1 }], for [k] turns at most. *)
Fixpoint trim (k : nat) (lens : list Z) (place : Z → outcome Z) (low n : Z) : outcome Z :=
  match k with
  | O => Ret n
  | S k' =>
      if low <? n then
        p <-! place (n - 1);
        l <-! index lens p;
        if l =? 0 then trim k' lens place low (n - 1) else Ret n
      else Ret n
  end.

Definition count_rle (e : rle) (freq : list Z) : outcome (list Z) := bump32 e.1.1 freq.

Definition write_code_length (cl_lens : list Z) (o : Z) (bw : BitWriter) : outcome BitWriter :=
  v <-! index cl_lens o; Ret (write_bits v 3 bw).

Definition write_rle (cl_codes cl_lens : list Z) (e : rle) (bw : BitWriter) : outcome BitWriter :=
  let '(sym, extra, ebits) := e in
  bw <-! write_sym cl_codes cl_lens sym bw; Ret (write_extra extra ebits bw).

(** The code lengths of the distances: two of one bit when none is used. *)
Definition distance_lengths (d_freq : list Z) : outcome (list Z) :=
  d_lens <-! length_limited_huffman d_freq 15;
  if forallb (λ x, x =? 0) d_lens then d_lens <-! store d_lens 0 1; store d_lens 1 1 else Ret d_lens.

(** The header of a dynamic block, from the lengths of its two codes. *)
Definition write_header (ll_lens d_lens : list Z) (bw : BitWriter) : outcome BitWriter :=
  hlit <-! trim 29 ll_lens Ret 257 286;
  hdist <-! trim 29 d_lens Ret 1 30;
  l <-! slice ll_lens 0 hlit;
  d <-! slice d_lens 0 hdist;
  let rle := rle_code_lengths (l ++ d) in
  cl_freq <-! for_each count_rle rle (replicate 19 0);
  cl_lens <-! length_limited_huffman cl_freq 7;
  cl_codes <-! canonical_codes cl_lens;
  hclen <-! trim 15 cl_lens (index CLCL_ORDER) 4 19;
  let bw := write_bits (hclen - 4) 4 (write_bits (hdist - 1) 5 (write_bits (hlit - 257) 5 bw)) in
  order <-! slice CLCL_ORDER 0 hclen;
  bw <-! for_each (write_code_length cl_lens) order bw;
  for_each (write_rle cl_codes cl_lens) rle bw.

Definition encode_dynamic (syms : list Sym) : outcome (list Z) :=
  f <-! block_frequencies syms;
  ll_lens <-! length_limited_huffman f.1 15;
  d_lens <-! distance_lengths f.2;
  let bw := write_bits 2 2 (write_bits 1 1 writer_new) in
  bw <-! write_header ll_lens d_lens bw;
  ll_codes <-! canonical_codes ll_lens;
  d_codes <-! canonical_codes d_lens;
  bw <-! emit_symbols syms ll_codes ll_lens d_codes d_lens bw;
  Ret (finish bw).

Definition compressed_deflate (bytes : list Z) : outcome (list Z) :=
  syms <-! lz77 bytes;
  fixed <-! encode_fixed syms;
  dynamic <-! encode_dynamic syms;
  let stored := deflate_stored bytes in
  let best := fixed in
  let best := if len dynamic <? len best then dynamic else best in
  Ret (if len stored <? len best then stored else best).

Definition compressed_zlib_deflate (bytes : list Z) : outcome (list Z) :=
  d <-! compressed_deflate bytes;
  Ret ([120; 156] ++ d ++ be_bytes32 (adler32 bytes)).

Definition compressed_gzip_deflate (bytes : list Z) : outcome (list Z) :=
  d <-! compressed_deflate bytes;
  c <-! crc32 bytes;
  Ret (GZIP_HEADER ++ d ++ le_bytes32 c ++ le_bytes32 (as_u32 (len bytes))).

(** ** The streaming adapter *)

Inductive CompressionFormat := Gzip | Zlib | Raw.

Definition from_algorithm (algo : string) : option CompressionFormat :=
  if bool_decide (algo = "gzip"%string) then Some Gzip
  else if bool_decide (algo = "deflate"%string) then Some Zlib
  else if bool_decide (algo = "deflate-raw"%string) then Some Raw
  else None.

Record StreamCodec := { format : CompressionFormat; decoding : bool; input : list Z; finished : bool }.

(** The errors of the adapter: a write after the end, and a decoding error. *)
Inductive StreamError := BrokenPipe | InvalidData (e : DecodeError).

Definition codec_new (f : CompressionFormat) (d : bool) : StreamCodec :=
  {| format := f; decoding := d; input := []; finished := false |}.

Definition codec_push (c : StreamCodec) (bytes : list Z) : StreamCodec * result (list Z) StreamError :=
  if finished c then (c, Err BrokenPipe)
  else ({| format := format c; decoding := decoding c; input := input c ++ bytes; finished := false |}, Ok []).

(** [io::Write::write]: the number of bytes taken. *)
Definition codec_write (c : StreamCodec) (buf : list Z) : StreamCodec * result Z StreamError :=
  let '(c, r) := codec_push c buf in (c, match r with Ok _ => Ok (len buf) | Err e => Err e end).

Definition finish_inner (c : StreamCodec) (max_output : option Z) : fallible (list Z) StreamError :=
  if decoding c then
    let limit := default MAX_OUTPUT max_output in
    r <-! (match format c with
           | Gzip => gunzip_with_limit (input c) limit
           | Zlib => zlib_inflate_with_limit (input c) limit
           | Raw => inflate_with_limit (input c) limit
           end);
    Ret (result_map_err InvalidData r)
  else
    out <-! (match format c with
             | Gzip => compressed_gzip_deflate (input c)
             | Zlib => compressed_zlib_deflate (input c)
             | Raw => compressed_deflate (input c)
             end);
    Ret (Ok out).

Definition codec_finish (c : StreamCodec) : fallible (list Z) StreamError := finish_inner c None.
Definition finish_with_limit (c : StreamCodec) (max_output : Z) : fallible (list Z) StreamError := finish_inner c (Some max_output).
