(* ===== verification/InflateBits.v ===== *)
(** * InflateBits: what decoding steps do to the bit stream

    The bytes of a stream are its bits, least significant first ([stream]).  [reads m bs a]:
    at any place where the bits [bs] come next, the step [m] answers [a] and stands
    behind them; such statements compose along the binds of a decoder ([reads_bind]).
    [yields k m P]: wherever it stands, [m] does not panic, and a value it answers
    satisfies [P] and has used at least [k] bits ([yields_bind]). *)

From S2P Require Import Prelude Bytes Bits Arrays Inflate.

Local Open Scope Z_scope.
Local Open Scope cruft_scope.

(** ** Bits of numbers and of bytes *)

(** The [n] low bits of [v], least significant first, and the number they make. *)
Definition lsb_bits (n : nat) (v : Z) : list bool := (λ k, Z.testbit v (Z.of_nat k)) <$> seq 0 n.
Definition bits_val (bs : list bool) : Z := foldr (λ b acc, Z.b2z b + 2 * acc) 0 bs.

Definition stream (l : list Z) : list bool := l ≫= lsb_bits 8.

Lemma lsb_bits_length n v : length (lsb_bits n v) = n.
Proof. unfold lsb_bits. by rewrite length_fmap, length_seq. Qed.

Lemma lsb_bits_S n v : lsb_bits (S n) v = Z.testbit v 0 :: lsb_bits n (v / 2).
Proof.
  unfold lsb_bits. cbn [seq]. rewrite fmap_cons. f_equal. rewrite <-fmap_S_seq, <-list_fmap_compose.
  apply list_fmap_ext. intros _ k _. cbn. rewrite Nat2Z.inj_succ.
  rewrite <-(Z.div2_div v), Z.div2_spec, Z.shiftr_spec by lia. done.
Qed.

Lemma bits_val_lsb n v : bits_val (lsb_bits n v) = v `mod` 2 ^ Z.of_nat n.
Proof.
  revert v. induction n as [|n IH]; intros v; [by rewrite Z.mod_1_r|].
  rewrite lsb_bits_S. cbn [bits_val foldr]. fold (bits_val (lsb_bits n (v / 2))). rewrite IH.
  rewrite Nat2Z.inj_succ, Z.pow_succ_r by lia. rewrite Z.bit0_mod. rewrite (Z.rem_mul_r v 2) by lia. lia.
Qed.

Lemma bits_val_bound bs : 0 ≤ bits_val bs < 2 ^ len bs.
Proof.
  induction bs as [|b bs IH]; [done|]. rewrite len_cons. pose proof (len_nonneg bs).
  rewrite Z.pow_add_r by lia. cbn [bits_val foldr]. fold (bits_val bs). destruct b; simpl Z.b2z; lia.
Qed.

Lemma bits_val_app bs cs : bits_val (bs ++ cs) = bits_val bs + 2 ^ len bs * bits_val cs.
Proof.
  induction bs as [|b bs IH]; [rewrite app_nil_l, (@len_nil bool); assert (bits_val [] = 0) as -> by done; lia|]. rewrite len_cons. pose proof (len_nonneg bs).
  rewrite Z.pow_add_r by lia. cbn [app bits_val foldr]. fold (bits_val (bs ++ cs)) (bits_val bs). rewrite IH. lia.
Qed.

Lemma bits_val_inj bs cs : length bs = length cs → bits_val bs = bits_val cs → bs = cs.
Proof.
  revert cs. induction bs as [|b bs IH]; intros [|c cs] Hl E; try done. cbn [bits_val foldr] in E.
  fold (bits_val bs) (bits_val cs) in E. injection Hl as Hl.
  assert (b = c) as -> by (destruct b, c; simpl in E; done || lia). f_equal. apply IH; [done|lia].
Qed.

Lemma stream_length l : length (stream l) = (8 * length l)%nat.
Proof. unfold stream. induction l as [|x l IH]; [done|]. cbn [mbind list_bind]. rewrite length_app, IH. simpl. lia. Qed.

Lemma stream_app l k : stream (l ++ k) = stream l ++ stream k.
Proof. unfold stream. apply bind_app. Qed.

Lemma stream_cons x l : stream (x :: l) = lsb_bits 8 x ++ stream l.
Proof. done. Qed.

Lemma stream_lookup l p q : (q < 8)%nat → stream l !! (8 * p + q)%nat = (λ x, Z.testbit x (Z.of_nat q)) <$> l !! p.
Proof.
  intros Hq. revert p. induction l as [|x l IH]; intros p; [done|]. rewrite stream_cons. destruct p as [|p].
  - rewrite lookup_app_l by (rewrite lsb_bits_length; lia). unfold lsb_bits. rewrite list_lookup_fmap, lookup_seq_lt by lia. done.
  - rewrite lookup_app_r; rewrite lsb_bits_length; [|lia]. replace (8 * S p + q - 8)%nat with (8 * p + q)%nat by lia. apply IH.
Qed.

Lemma stream_drop l p : drop (8 * p) (stream l) = stream (drop p l).
Proof.
  revert p. induction l as [|x l IH]; intros p; [by rewrite drop_nil; change (stream []) with (@nil bool); rewrite drop_nil|].
  destruct p as [|p]; [done|]. rewrite stream_cons, drop_app_ge by (rewrite lsb_bits_length; lia). rewrite lsb_bits_length.
  replace (8 * S p - 8)%nat with (8 * p)%nat by lia. apply IH.
Qed.

(** ** Positions *)

Definition pos (br : BitReader) : nat := 8 * byte_pos br + bit_pos br.

Definition at_ok (br : BitReader) : Prop := (bit_pos br < 8)%nat ∧ (pos br ≤ 8 * length (data br))%nat.

Definition rest (br : BitReader) : list bool := drop (pos br) (stream (data br)).

Definition advance (br : BitReader) (n : nat) : BitReader := seek br ((pos br + n) / 8) ((pos br + n) mod 8).

Lemma pos_seek br n : pos (seek br (n / 8) (n mod 8)) = n.
Proof. unfold pos. cbn [seek byte_pos bit_pos]. pose proof (Nat.div_mod_eq n 8). lia. Qed.

Lemma pos_advance br n : pos (advance br n) = (pos br + n)%nat.
Proof. apply pos_seek. Qed.

Lemma advance_0 br : at_ok br → advance br 0 = br.
Proof.
  intros [Hb _]. unfold advance, seek. destruct br as [d p b]. cbn [pos byte_pos bit_pos data] in *. unfold pos. cbn [byte_pos bit_pos] in *.
  rewrite Nat.add_0_r. f_equal; symmetry; [apply (Nat.div_unique _ 8 p b)|apply (Nat.mod_unique _ 8 p b)]; lia.
Qed.

Lemma advance_add br n m : advance (advance br n) m = advance br (n + m).
Proof. unfold advance at 1. rewrite pos_advance, <-Nat.add_assoc. done. Qed.

Lemma rest_length br : length (rest br) = (8 * length (data br) - pos br)%nat.
Proof. unfold rest. by rewrite length_drop, stream_length. Qed.

Lemma rest_advance br n : rest (advance br n) = drop n (rest br).
Proof. unfold rest. rewrite pos_advance, drop_drop. done. Qed.

Lemma advance_ok br n : at_ok br → (n ≤ length (rest br))%nat → at_ok (advance br n).
Proof.
  intros [_ Hp] Hn. rewrite rest_length in Hn. split; [|rewrite pos_advance; cbn [advance seek data]; lia]. apply Nat.mod_upper_bound. lia.
Qed.

Lemma rest_cons br b r :
  at_ok br → rest br = b :: r → ∃ x, data br !! byte_pos br = Some x ∧ b = Z.testbit x (Z.of_nat (bit_pos br)).
Proof.
  intros [Hb _] E. assert (stream (data br) !! pos br = Some b) as L.
  { rewrite <-(Nat.add_0_r (pos br)), <-lookup_drop. unfold rest in E. by rewrite E. }
  unfold pos in L. rewrite stream_lookup in L by done. destruct (data br !! byte_pos br) as [x|]; [|done].
  exists x. split; [done|]. by injection L.
Qed.

Lemma rest_nil br : at_ok br → rest br = [] → data br !! byte_pos br = None.
Proof.
  intros [Hb _] E. apply (f_equal length) in E. rewrite rest_length in E. apply lookup_ge_None_2. unfold pos in E. simpl in E. lia.
Qed.

(** ** Steps that read given bits *)

Definition reads {A} (m : decoder A) (bs : list bool) (a : A) : Prop :=
  ∀ br r, at_ok br → rest br = bs ++ r → m br = Ret (Ok (a, advance br (length bs))).

Lemma decoder_bind_eq {A B} (m : decoder A) (k : A → decoder B) br : (m ≫= k) br = fallible_bind (m br) (λ p, k p.1 p.2).
Proof. done. Qed.

Lemma reads_ret {A} (a : A) : reads (mret a) [] a.
Proof. intros br r H _. cbn. by rewrite advance_0. Qed.

Lemma reads_app {A} (m : decoder A) bs cs a br r :
  reads m bs a → at_ok br → rest br = (bs ++ cs) ++ r →
  m br = Ret (Ok (a, advance br (length bs))) ∧ at_ok (advance br (length bs)) ∧ rest (advance br (length bs)) = cs ++ r.
Proof.
  intros Hm Hok E. rewrite <-app_assoc in E. split; [by apply (Hm br (cs ++ r))|].
  split; [|by rewrite rest_advance, E, drop_app_length]. apply advance_ok; [done|]. rewrite E, length_app. lia.
Qed.

Lemma reads_bind {A B} (m : decoder A) (k : A → decoder B) bs cs a b :
  reads m bs a → reads (k a) cs b → reads (m ≫= k) (bs ++ cs) b.
Proof.
  intros Hm Hk br r Hok E. destruct (reads_app m bs cs a br r Hm Hok E) as (E1 & Hok' & E2).
  rewrite decoder_bind_eq, E1. cbn [fallible_bind fst snd]. rewrite (Hk _ r) by done.
  by rewrite advance_add, length_app.
Qed.

Lemma reads_nil_bind {A B} (m : decoder A) (k : A → decoder B) cs a b :
  reads m [] a → reads (k a) cs b → reads (m ≫= k) cs b.
Proof. apply (reads_bind m k [] cs). Qed.

Lemma reads_pure {A} (m : outcome A) a : m = Ret a → reads (pure_of m) [] a.
Proof. intros -> br r Hok _. cbn. by rewrite advance_0. Qed.

Lemma reads_lift {A} (m : fallible A DecodeError) a : m = Ret (Ok a) → reads (lift m) [] a.
Proof. intros -> br r Hok _. cbn. by rewrite advance_0. Qed.

(** Reading bits one by one. *)
Lemma land_shiftr_1 x q : 0 ≤ q → Z.land (Z.shiftr x q) 1 = Z.b2z (Z.testbit x q).
Proof.
  intros Hq. change 1 with (Z.ones 1). rewrite Z.land_ones by lia. rewrite Z.shiftr_div_pow2 by lia.
  by rewrite Z.testbit_spec'.
Qed.

Lemma read_one br b r :
  at_ok br → rest br = b :: r →
  (if bool_decide (S (bit_pos br) = 8%nat) then seek br (S (byte_pos br)) 0 else seek br (byte_pos br) (S (bit_pos br))) = advance br 1.
Proof.
  intros [Hb _] _. unfold advance, pos. case_bool_decide as H8; f_equal.
  - apply (Nat.div_unique _ 8 _ 0); lia.
  - apply (Nat.mod_unique _ 8 (S (byte_pos br))); lia.
  - apply (Nat.div_unique _ 8 _ (S (bit_pos br))); lia.
  - apply (Nat.mod_unique _ 8 (byte_pos br)); lia.
Qed.

Lemma read_bits_from_step n i v br b r :
  at_ok br → rest br = b :: r → 0 ≤ i → i + 1 + Z.of_nat n ≤ 32 → 0 ≤ v < 2 ^ i →
  read_bits_from (S n) i v br = read_bits_from n (i + 1) (v + 2 ^ i * Z.b2z b) (advance br 1).
Proof.
  intros Hok E Hi Hn Hv. destruct (rest_cons br b r Hok E) as (x & Hx & Hb). cbn [read_bits_from]. rewrite Hx.
  rewrite (read_one br b r Hok E). rewrite land_shiftr_1, <-Hb by lia. f_equal. rewrite Z.shiftl_mul_pow2 by lia.
  assert (2 ^ i ≤ 2 ^ 31) as Hp by (apply Z.pow_le_mono_r; lia). change (2 ^ 31) with 2147483648 in Hp.
  assert (as_u32 (Z.b2z b * 2 ^ i) = 2 ^ i * Z.b2z b) as ->.
  { unfold as_u32. rewrite Z.mod_small; destruct b; simpl Z.b2z; lia. }
  rewrite Z.lor_comm, (lor_add_disjoint _ _ i); [lia|done|done|]. rewrite Z.mul_comm. apply Z.mod_mul. lia.
Qed.

Lemma read_bits_from_spec bs : ∀ i v br r,
  at_ok br → rest br = bs ++ r → 0 ≤ i → i + len bs ≤ 32 → 0 ≤ v < 2 ^ i →
  read_bits_from (length bs) i v br = Ret (Ok (v + 2 ^ i * bits_val bs, advance br (length bs))).
Proof.
  induction bs as [|b bs IH]; intros i v br r Hok E Hi Hl Hv.
  - cbn. rewrite advance_0 by done. do 3 f_equal. lia.
  - rewrite len_cons in Hl. pose proof (len_nonneg bs). cbn [length]. rewrite (read_bits_from_step _ _ _ _ b (bs ++ r)); try done; [|unfold len in *; lia].
    assert (2 ^ (i + 1) = 2 * 2 ^ i) as Hp by (rewrite Z.pow_add_r; lia).
    rewrite (IH (i + 1) _ _ r).
    + rewrite advance_add. do 3 f_equal. rewrite Hp. cbn [bits_val foldr]. fold (bits_val bs). lia.
    + apply advance_ok; [done|]. rewrite E. simpl. lia.
    + by rewrite rest_advance, E.
    + lia.
    + lia.
    + rewrite Hp. destruct b; simpl Z.b2z; lia.
Qed.

Lemma reads_bits n bs : length bs = n → (n ≤ 32)%nat → reads (read_bits n) bs (bits_val bs).
Proof.
  intros <- Hn br r Hok E. unfold read_bits. rewrite (read_bits_from_spec bs 0 0 br r); try done; [|unfold len; lia].
  do 3 f_equal. lia.
Qed.

Lemma reads_bits_val n v : (n ≤ 32)%nat → 0 ≤ v < 2 ^ Z.of_nat n → reads (read_bits n) (lsb_bits n v) v.
Proof.
  intros Hn Hv. rewrite <-(Z.mod_small v (2 ^ Z.of_nat n)) at 2 by done. rewrite <-bits_val_lsb.
  apply reads_bits; [apply lsb_bits_length|done].
Qed.

Lemma read_bits_from_short n : ∀ i v br,
  at_ok br → (length (rest br) < n)%nat → 0 ≤ i → i + Z.of_nat n ≤ 32 → 0 ≤ v < 2 ^ i →
  read_bits_from n i v br = Ret (Err UnexpectedEnd).
Proof.
  induction n as [|n IH]; intros i v br Hok Hl Hi Hn Hv; [lia|]. destruct (rest br) as [|b r] eqn:E.
  - cbn [read_bits_from]. by rewrite (rest_nil br Hok E).
  - rewrite (read_bits_from_step _ _ _ _ b r) by (done || lia). apply IH; [|rewrite rest_advance, length_drop, E; cbn [length] in *; lia|lia|lia|].
    + apply advance_ok; [done|]. rewrite E. simpl. lia.
    + rewrite Z.pow_add_r by lia. destruct b; simpl Z.b2z; lia.
Qed.

(** ** Steps that never panic *)

Definition yields {A} (k : nat) (m : decoder A) (P : A → Prop) : Prop :=
  ∀ br, at_ok br →
    match m br with
    | Ret (Ok (a, br')) => P a ∧ at_ok br' ∧ data br' = data br ∧ (pos br + k ≤ pos br')%nat
    | Ret (Err _) => True
    | Panic => False
    end.

Lemma yields_weaken {A} k k' (m : decoder A) (P Q : A → Prop) :
  yields k m P → (k' ≤ k)%nat → (∀ a, P a → Q a) → yields k' m Q.
Proof.
  intros H Hk HPQ br Hok. specialize (H br Hok). destruct (m br) as [[[a br']|e]|]; try done.
  destruct H as (HP & ? & ? & ?). split; [by apply HPQ|]. split_and!; (done || lia).
Qed.

Lemma yields_bind {A B} k k' (m : decoder A) (f : A → decoder B) P Q :
  yields k m P → (∀ a, P a → yields k' (f a) Q) → yields (k + k') (m ≫= f) Q.
Proof.
  intros Hm Hf br Hok. rewrite decoder_bind_eq. specialize (Hm br Hok). destruct (m br) as [[[a br1]|e]|]; try done.
  destruct Hm as (HP & Hok1 & Hd1 & Hp1). cbn [fallible_bind fst snd]. specialize (Hf a HP br1 Hok1).
  destruct (f a br1) as [[[b br2]|e]|]; try done. destruct Hf as (HQ & Hok2 & Hd2 & Hp2).
  split_and!; [done|done|congruence|lia].
Qed.

(** Steps that read nothing before the rest. *)
Lemma yields_bind_0 {A B} k (m : decoder A) (f : A → decoder B) P Q :
  yields 0 m P → (∀ a, P a → yields k (f a) Q) → yields k (m ≫= f) Q.
Proof. apply (yields_bind 0 k). Qed.

Lemma yields_then {A B} k (m : decoder A) (f : A → decoder B) P Q :
  yields k m P → (∀ a, P a → yields 0 (f a) Q) → yields k (m ≫= f) Q.
Proof. intros Hm Hf. rewrite <-(Nat.add_0_r k). by eapply yields_bind. Qed.

Lemma yields_ret {A} (a : A) (P : A → Prop) : P a → yields 0 (mret a) P.
Proof. intros HP br Hok. cbn. split_and!; (done || lia). Qed.

Lemma yields_fail {A} k e (P : A → Prop) : yields k (fail e) P.
Proof. by intros br Hok. Qed.

Lemma yields_pure {A} (m : outcome A) a (P : A → Prop) : m = Ret a → P a → yields 0 (pure_of m) P.
Proof. intros -> HP br Hok. cbn. split_and!; (done || lia). Qed.

Lemma yields_lift {A} (m : fallible A DecodeError) (P : A → Prop) :
  match m with Ret (Ok a) => P a | Ret (Err _) => True | Panic => False end → yields 0 (lift m) P.
Proof. intros H br Hok. unfold lift. destruct m as [[a|e]|]; try done. cbn. split_and!; (done || lia). Qed.

Lemma yields_bits n : (n ≤ 32)%nat → yields n (read_bits n) (λ v, 0 ≤ v < 2 ^ Z.of_nat n).
Proof.
  intros Hn br Hok. destruct (decide (length (rest br) < n)%nat) as [Hs|Hs].
  - unfold read_bits. by rewrite read_bits_from_short by (done || lia).
  - rewrite (reads_bits n (take n (rest br)) ltac:(rewrite length_take; lia) Hn br (drop n (rest br)) Hok) by by rewrite take_drop.
    rewrite length_take, Nat.min_l by lia. split; [|split_and!; [by apply advance_ok; [|lia]|done|by rewrite pos_advance]].
    pose proof (bits_val_bound (take n (rest br))) as H. unfold len in H. rewrite length_take, Nat.min_l in H by lia. done.
Qed.
