(* ===== verification/HuffmanTables.v ===== *)
(** * HuffmanTables: canonical prefix codes

    A code is given by the lengths of its code words, zero for a symbol that has none.
    The words of one length are consecutive numbers in the order of the symbols, from
    [first] on.  The decoder's table lists the symbols by length ([from_lengths_spec]),
    the encoder numbers them ([canonical_codes_spec]), and when the lengths satisfy
    Kraft's inequality ([kraft]) the decoder reads back what the encoder writes
    ([reads_code]).  Without it decoding still never panics ([yields_decode]). *)

From S2P Require Import Prelude Bytes Bits Arrays Inflate Deflate InflateBits.

Local Open Scope Z_scope.
Local Open Scope cruft_scope.

(** ** Counting lengths *)

(** How many entries of [L] are [l]; code words of length zero do not count. *)
Definition tally (L : list Z) (l : Z) : Z := len (filter (λ x, x = l) L).
Definition cnt (L : list Z) (l : nat) : Z := match l with O => 0 | _ => tally L (Z.of_nat l) end.

(** The first code word of length [l], and the symbols with shorter words. *)
Fixpoint first (L : list Z) (l : nat) : Z := match l with O => 0 | S l' => 2 * (first L l' + cnt L l') end.
Fixpoint offset (L : list Z) (l : nat) : Z := match l with O => 0 | S l' => offset L l' + cnt L l' end.

(** The symbols before [s] whose words have length [l]. *)
Definition rank (L : list Z) (s : nat) (l : Z) : Z := tally (take s L) l.

(** The code word of [s]. *)
Definition code_of (L : list Z) (s : nat) (l : Z) : Z := first L (Z.to_nat l) + rank L s l.

Definition lengths_ok (L : list Z) : Prop := Forall (λ l, 0 ≤ l < 16) L ∧ len L < 1000.

Lemma tally_nonneg L l : 0 ≤ tally L l.
Proof. apply len_nonneg. Qed.

Lemma tally_nil l : tally [] l = 0.
Proof. done. Qed.

Lemma tally_app L K l : tally (L ++ K) l = tally L l + tally K l.
Proof. unfold tally. by rewrite filter_app, len_app. Qed.

Lemma tally_cons x L l : tally (x :: L) l = (if bool_decide (x = l) then 1 else 0) + tally L l.
Proof. unfold tally. rewrite filter_cons. case_decide; case_bool_decide; try done. by rewrite len_cons. Qed.

Lemma tally_le L l : tally L l ≤ len L.
Proof. unfold tally, len. pose proof (length_filter (λ x, x = l) L). lia. Qed.

Lemma cnt_nonneg L l : 0 ≤ cnt L l.
Proof. destruct l; [done|apply tally_nonneg]. Qed.

Lemma cnt_le L l : cnt L l ≤ len L.
Proof. destruct l; [apply len_nonneg|apply tally_le]. Qed.

#[local] Hint Resolve tally_nonneg cnt_nonneg : core.

Lemma rank_lt L s l : L !! s = Some l → rank L s l < tally L l.
Proof.
  intros Hs. unfold rank. rewrite <-(take_drop_middle L s l Hs) at 2. rewrite tally_app, tally_cons, bool_decide_true by done.
  pose proof (tally_nonneg (drop (S s) L) l). lia.
Qed.

Lemma rank_S L s l : L !! s = Some l → rank L (S s) l = rank L s l + 1.
Proof. intros Hs. unfold rank. rewrite (take_S_r _ _ l) by done. rewrite tally_app, tally_cons, bool_decide_true by done. done. Qed.

Lemma rank_S_ne L s l l' : L !! s = Some l → l ≠ l' → rank L (S s) l' = rank L s l'.
Proof.
  intros Hs Hl. unfold rank. rewrite (take_S_r _ _ l) by done. rewrite tally_app, tally_cons, bool_decide_false by done. rewrite tally_nil. lia.
Qed.

Lemma rank_mono L s s' l : (s ≤ s')%nat → rank L s l ≤ rank L s' l.
Proof.
  intros Hs. unfold rank. replace s' with (s + (s' - s))%nat by lia. rewrite <-take_take_drop, tally_app.
  pose proof (tally_nonneg (take (s' - s) (drop s L)) l). lia.
Qed.

Lemma rank_nonneg L s l : 0 ≤ rank L s l.
Proof. apply tally_nonneg. Qed.

Lemma first_nonneg L l : 0 ≤ first L l.
Proof. induction l as [|l IH]; [done|]. cbn [first]. pose proof (cnt_nonneg L l). lia. Qed.

Lemma offset_nonneg L l : 0 ≤ offset L l.
Proof. induction l as [|l IH]; [done|]. cbn [offset]. pose proof (cnt_nonneg L l). lia. Qed.

Lemma offset_mono L l l' : (l ≤ l')%nat → offset L l ≤ offset L l'.
Proof. induction 1 as [|l' H IH]; [done|]. cbn [offset]. pose proof (cnt_nonneg L l'). lia. Qed.

Lemma offset_next L l l' : (l < l')%nat → offset L l + cnt L l ≤ offset L l'.
Proof. intros H. change (offset L l + cnt L l) with (offset L (S l)). by apply offset_mono. Qed.

Lemma first_next L l l' : (l < l')%nat → (first L l + cnt L l) * 2 ^ Z.of_nat (l' - l) ≤ first L l'.
Proof.
  induction 1 as [|l' H IH].
  - replace (S l - l)%nat with 1%nat by lia. cbn [first]. rewrite Z.pow_1_r. lia.
  - replace (S l' - l)%nat with (S (l' - l)) by lia. rewrite Nat2Z.inj_succ, Z.pow_succ_r by lia. cbn [first].
    pose proof (cnt_nonneg L l'). lia.
Qed.

(** The words up to a length are at most as many as the entries. *)
Lemma offset_le L l : offset L l ≤ len L.
Proof.
  assert (offset L l = len (filter (λ x, 1 ≤ x < Z.of_nat l) L)) as ->.
  { induction l as [|l IH]; cbn [offset].
    - assert (filter (λ x, 1 ≤ x < Z.of_nat 0) L = []) as -> by (induction L as [|x L IH]; [done|]; rewrite filter_cons, decide_False by lia; done). done.
    - rewrite IH. destruct l as [|l].
      + cbn [cnt]. rewrite Z.add_0_r. f_equal. apply filter_elem_ext. lia.
      + unfold cnt, tally, len. rewrite <-Nat2Z.inj_add. f_equal. symmetry. apply filter_split_length; lia. }
  unfold len. pose proof (length_filter (λ x, 1 ≤ x < Z.of_nat l) L). lia.
Qed.

(** Positions in the table: one interval per length, one place per symbol. *)
Definition place (L : list Z) (s : nat) (l : Z) : Z := offset L (Z.to_nat l) + rank L s l.

Lemma cnt_tally L l : 1 ≤ l → cnt L (Z.to_nat l) = tally L l.
Proof. intros Hl. destruct (Z.to_nat l) eqn:E; [lia|]. cbn. f_equal. lia. Qed.

Lemma place_bound L s l : L !! s = Some l → 1 ≤ l < 16 → 0 ≤ place L s l < offset L 16.
Proof.
  intros Hs Hl. pose proof (rank_lt L s l Hs). pose proof (offset_next L (Z.to_nat l) 16 ltac:(lia)) as H2.
  rewrite cnt_tally in H2 by lia. pose proof (rank_nonneg L s l). pose proof (offset_nonneg L (Z.to_nat l)). unfold place. lia.
Qed.

Lemma place_inj L s s' l l' :
  L !! s = Some l → L !! s' = Some l' → 1 ≤ l < 16 → 1 ≤ l' < 16 → (s < s')%nat → place L s l ≠ place L s' l'.
Proof.
  intros Hs Hs' Hl Hl' Hlt. unfold place. destruct (Z.lt_trichotomy l l') as [H|[->|H]].
  - pose proof (offset_next L (Z.to_nat l) (Z.to_nat l') ltac:(lia)) as H2. rewrite cnt_tally in H2 by lia.
    pose proof (rank_lt L s l Hs). pose proof (rank_nonneg L s' l'). lia.
  - pose proof (rank_mono L (S s) s' l' ltac:(lia)). rewrite (rank_S L s l' Hs) in *. lia.
  - pose proof (offset_next L (Z.to_nat l') (Z.to_nat l) ltac:(lia)) as H2. rewrite cnt_tally in H2 by lia.
    pose proof (rank_lt L s' l' Hs'). pose proof (rank_nonneg L s l). lia.
Qed.

(** ** Arrays given by a function of the index *)

Lemma index_seq (f : nat → Z) a n (i : Z) : 0 ≤ i - Z.of_nat a < Z.of_nat n → index (f <$> seq a n) (i - Z.of_nat a) = Ret (f (Z.to_nat i)).
Proof.
  intros Hi. apply index_ok; [lia|]. rewrite list_lookup_fmap, lookup_seq_lt by lia. cbn. do 2 f_equal. lia.
Qed.

Lemma index_seq0 (f : nat → Z) n (i : Z) : 0 ≤ i < Z.of_nat n → index (f <$> seq 0 n) i = Ret (f (Z.to_nat i)).
Proof. intros Hi. rewrite <-(Z.sub_0_r i) at 1. apply (index_seq f 0 n i). lia. Qed.

Lemma store_seq (f : nat → Z) n (i v : Z) :
  0 ≤ i < Z.of_nat n → store (f <$> seq 0 n) i v = Ret ((λ k, if bool_decide (k = Z.to_nat i) then v else f k) <$> seq 0 n).
Proof.
  intros Hi. rewrite store_ok by (unfold len; rewrite length_fmap, length_seq; lia). f_equal. apply list_eq. intros k.
  rewrite list_lookup_fmap. destruct (decide (k < n)%nat) as [Hk|Hk].
  - rewrite lookup_seq_lt by done. cbn. case_bool_decide as Ek.
    + subst. rewrite list_lookup_insert_eq; [done|]. rewrite length_fmap, length_seq. lia.
    + rewrite list_lookup_insert_ne by lia. by rewrite list_lookup_fmap, lookup_seq_lt.
  - rewrite lookup_seq_ge by lia. apply lookup_ge_None_2. rewrite length_insert, length_fmap, length_seq. lia.
Qed.

Lemma seq_ext (f g : nat → Z) a n : (∀ k, (a ≤ k < a + n)%nat → f k = g k) → f <$> seq a n = g <$> seq a n.
Proof. intros H. apply list_fmap_ext. intros i k Hk. apply H. by apply list_elem_of_lookup_2, elem_of_seq in Hk. Qed.

Lemma bump_seq (f : nat → Z) n (i : Z) :
  0 ≤ i < Z.of_nat n → 0 ≤ f (Z.to_nat i) < 65535 →
  bump (f <$> seq 0 n) i = Ret ((λ k, f k + (if bool_decide (k = Z.to_nat i) then 1 else 0)) <$> seq 0 n).
Proof.
  intros Hi Hf. unfold bump. rewrite index_seq0 by done. cbn [outcome_bind]. rewrite store_seq by done. f_equal. apply seq_ext.
  intros k _. case_bool_decide as Ek; [|lia]. subst k. unfold as_u16. rewrite Z.mod_small; lia.
Qed.

Lemma replicate_seq n (v : Z) : replicate n v = (λ _, v) <$> seq 0 n.
Proof. apply list_eq. intros i. rewrite list_lookup_fmap. destruct (decide (i < n)%nat).
  - by rewrite lookup_replicate_2, lookup_seq_lt by lia.
  - rewrite lookup_seq_ge by lia. apply lookup_replicate_None. lia.
Qed.

(** ** The decoder's table *)

Lemma count_lengths_spec L f :
  Forall (λ l, 0 ≤ l < 16) L → (∀ k, (k < 16)%nat → 0 ≤ f k ∧ f k + len L < 65536) →
  count_lengths L (f <$> seq 0 16) = Ret (Ok ((λ k, f k + tally L (Z.of_nat k)) <$> seq 0 16)).
Proof.
  intros HL. revert f. induction HL as [|l L Hl HL IH]; intros f Hf; cbn [count_lengths].
  - do 2 f_equal. apply seq_ext. intros k _. rewrite tally_nil. lia.
  - rewrite (proj2 (Z.leb_gt _ _)) by lia. pose proof (len_nonneg L).
    rewrite bump_seq by (try lia; specialize (Hf (Z.to_nat l) ltac:(lia)); rewrite len_cons in Hf; lia).
    cbn [outcome_bind]. rewrite IH.
    + do 2 f_equal. apply seq_ext. intros k Hk. rewrite tally_cons. repeat case_bool_decide; lia.
    + intros k Hk. specialize (Hf k Hk). rewrite len_cons in Hf. case_bool_decide; lia.
Qed.

Lemma offsets_spec L :
  len L < 1000 → for_each (add_offset (cnt L <$> seq 0 16)) (Z.of_nat <$> seq 1 15) (replicate 17 0) = Ret (offset L <$> seq 0 17).
Proof.
  intros HL. rewrite (replicate_seq 17 0).
  assert (∀ n a f, (1 ≤ a)%nat → (a + n = 16)%nat → (∀ k, (k ≤ a)%nat → f k = offset L k) →
    for_each (add_offset (cnt L <$> seq 0 16)) (Z.of_nat <$> seq a n) (f <$> seq 0 17) = Ret (offset L <$> seq 0 17)) as G.
  { induction n as [|n IH]; intros a f Ha Hn Hf.
    - change (Z.of_nat <$> seq a 0) with (@nil Z). cbn [for_each]. f_equal. apply seq_ext. intros k Hk. apply Hf. lia.
    - change (seq a (S n)) with (a :: seq (S a) n). rewrite fmap_cons. cbn [for_each]. unfold add_offset at 1. rewrite !index_seq0 by lia. cbn [outcome_bind].
      rewrite store_seq by lia. cbn [outcome_bind]. apply IH; [lia|lia|]. intros k Hk. case_bool_decide as Ek; [|apply Hf; lia].
      subst k. rewrite !Nat2Z.id, Hf by lia. replace (Z.to_nat (Z.of_nat a + 1)) with (S a) by lia.
      cbn [offset]. unfold as_u16. rewrite Z.mod_small; [done|]. pose proof (offset_le L (S a)) as H1. cbn [offset] in H1.
      pose proof (offset_nonneg L a). pose proof (cnt_nonneg L a). lia. }
  apply G; [lia|lia|]. intros k Hk. destruct k as [|[|k]]; [done|done|lia].
Qed.

Lemma total_spec L : foldr Z.add 0 (drop 1 (cnt L <$> seq 0 16)) = offset L 16.
Proof. cbn [seq fmap list_fmap drop foldr offset cnt Z.add]. lia. Qed.

Lemma enumerate_lookup {A} (L : list A) i : enumerate L !! i = (λ x, (i, x)) <$> L !! i.
Proof.
  unfold enumerate. rewrite lookup_zip_with. destruct (L !! i) as [x|] eqn:E.
  - pose proof (lookup_lt_Some _ _ _ E). rewrite lookup_seq_lt by done. done.
  - destruct (seq 0 (length L) !! i); done.
Qed.

Lemma enumerate_length {A} (L : list A) : length (enumerate L) = length L.
Proof. unfold enumerate. rewrite length_zip_with, length_seq. lia. Qed.

Lemma enumerate_split {A} (L : list A) done e rest :
  enumerate L = done ++ e :: rest → e.1 = length done ∧ L !! length done = Some e.2.
Proof.
  intros E. assert (enumerate L !! length done = Some e) as H by by rewrite E, list_lookup_middle.
  rewrite enumerate_lookup in H. destruct (L !! length done) as [x|] eqn:Ex; [|done]. injection H as <-. done.
Qed.

Definition sorted_symbols (L : list Z) (k : nat) (symbols : list Z) : Prop :=
  len symbols = offset L 16 ∧ Forall (λ s, 0 ≤ s < len L) symbols ∧
  (∀ s l, (s < k)%nat → L !! s = Some l → 1 ≤ l → symbols !! Z.to_nat (place L s l) = Some (Z.of_nat s)).

Lemma place_symbols_spec L :
  lengths_ok L →
  ∃ symbols next, for_each place_symbol (enumerate L) (replicate (Z.to_nat (offset L 16)) 0, offset L <$> seq 0 17) = Ret (symbols, next) ∧
    sorted_symbols L (length L) symbols.
Proof.
  intros [HL Hlen]. pose proof (offset_nonneg L 16) as Hoff. pose proof (offset_le L 16) as Hoff'.
  destruct (for_each_inv place_symbol (λ done s,
     sorted_symbols L (length done) s.1 ∧ ∃ f, s.2 = f <$> seq 0 17 ∧ ∀ k, (1 ≤ k < 16)%nat → f k = offset L k + rank L (length done) (Z.of_nat k))
     (enumerate L) (replicate (Z.to_nat (offset L 16)) 0, offset L <$> seq 0 17)) as ([symbols next] & E & HI).
  - split.
    + split_and!; [unfold len; cbn [fst]; rewrite length_replicate; lia| |cbn [length]; lia].
      cbn [fst]. destruct (Z.eqb_spec (offset L 16) 0) as [->|Hne]; [done|]. apply Forall_replicate. lia.
    + exists (offset L). split; [done|]. intros k Hk. unfold rank. change (take (length (@nil (nat * Z))) L) with (@nil Z). rewrite tally_nil. lia.
  - intros done [s l] rest [symbols next] Ed [(Hlen1 & Hall & Hs) (f & Ef & Hf)]. apply enumerate_split in Ed as [Es El]. cbn [fst snd] in *. subst s.
    rewrite length_app. cbn [length]. rewrite Nat.add_1_r. pose proof (lookup_lt_Some _ _ _ El) as Hlt.
    pose proof (Forall_lookup_1 _ _ _ _ HL El) as Hl. cbv beta in Hl. cbn [place_symbol]. destruct (Z.eqb_spec l 0) as [->|Hl0]; cbn [negb].
    + eexists. split; [done|]. split.
      * split_and!; [done|done|]. intros s l Hs' El' Hl1. apply Hs; [|done|done]. destruct (decide (s = length done)) as [->|]; [|lia].
        rewrite El in El'. simplify_eq. lia.
      * exists f. split; [done|]. intros k Hk. rewrite Hf by done. rewrite (rank_S_ne L _ 0) by (done || lia). done.
    + subst next. rewrite index_seq0 by lia. cbn [outcome_bind].
      assert (f (Z.to_nat l) = place L (length done) l) as Ep by (rewrite Hf by lia; unfold place; do 2 f_equal; lia).
      pose proof (place_bound L _ l El ltac:(lia)) as Hp. rewrite Ep, store_ok by lia. cbn [outcome_bind].
      rewrite bump_seq by (rewrite ?Ep; lia). cbn [outcome_bind]. eexists. split; [done|]. cbn [fst snd]. split.
      * unfold sorted_symbols, len in *. split_and!.
        { by rewrite length_insert. }
        { apply Forall_insert; [done|]. unfold as_u16. rewrite Z.mod_small; lia. }
        { intros s' l' Hs' El' Hl1. destruct (decide (s' = length done)) as [->|Hne].
          - rewrite El in El'. simplify_eq. rewrite list_lookup_insert_eq by lia. f_equal. unfold as_u16. rewrite Z.mod_small; lia.
          - pose proof (Forall_lookup_1 _ _ _ _ HL El') as Hl'. cbv beta in Hl'.
            pose proof (place_inj L s' (length done) l' l El' El ltac:(lia) ltac:(lia) ltac:(lia)) as Hne'.
            pose proof (place_bound L _ l' El' ltac:(lia)). rewrite list_lookup_insert_ne by lia. apply Hs; [lia|done|done]. }
      * eexists. split; [done|]. intros k Hk. cbn. rewrite Hf by done. case_bool_decide as Ek.
        { subst k. rewrite !Z2Nat.id by lia. rewrite (rank_S L _ l El). lia. }
        { rewrite (rank_S_ne L _ l) by (done || lia). lia. }
  - exists symbols, next. split; [done|]. rewrite enumerate_length in HI. apply HI.
Qed.

(** [from_lengths] never fails on lengths below 16. *)
Lemma from_lengths_spec L :
  lengths_ok L → ∃ symbols, from_lengths L = Ret (Ok {| counts := cnt L <$> seq 0 16; symbols := symbols |}) ∧ sorted_symbols L (length L) symbols.
Proof.
  intros HL. pose proof HL as [HF Hlen]. destruct (place_symbols_spec L HL) as (symbols & next & E & Hs). exists symbols. split; [|done].
  unfold from_lengths. rewrite replicate_seq, count_lengths_spec by (done || lia). cbn [fallible_bind].
  rewrite store_seq by lia. cbn [outcome_bind].
  replace ((λ k : nat, if bool_decide (k = Z.to_nat 0) then 0 else 0 + tally L (Z.of_nat k)) <$> seq 0 16) with (cnt L <$> seq 0 16).
  2: { apply seq_ext. intros k Hk. case_bool_decide as Ek; [by subst|]. destruct k; [done|]. cbn [cnt]. lia. }
  rewrite offsets_spec by done. cbn [outcome_bind]. rewrite total_spec, E. done.
Qed.

(** ** Writing and reading code words

    When the lengths satisfy Kraft's inequality the encoder's numbering of the code words
    fits their lengths ([words_fit], [canonical_codes_spec]) and the table decoder reads
    each word as its symbol ([reads_code]).  For any lengths below 16, decoding does not
    panic and answers a symbol of the code ([yields_decode]). *)

(** ** Kraft's inequality *)

(** The share of a word of length [x] among the words of 15 bits. *)
Definition share (x : Z) : Z := if x =? 0 then 0 else 2 ^ (15 - x).

Definition sum_of {A} (f : A → Z) (l : list A) : Z := foldr (λ x acc, f x + acc) 0 l.

Definition kraft (L : list Z) : Prop := sum_of share L ≤ 2 ^ 15.

Lemma sum_of_app {A} (f : A → Z) l k : sum_of f (l ++ k) = sum_of f l + sum_of f k.
Proof. induction l as [|x l IH]; [done|]. unfold sum_of in *. cbn [app foldr]. rewrite IH. lia. Qed.

Lemma sum_of_le {A} (f g : A → Z) l : Forall (λ x, f x ≤ g x) l → sum_of f l ≤ sum_of g l.
Proof. induction 1 as [|x l H _ IH]; [done|]. unfold sum_of in *. cbn [foldr]. lia. Qed.

Lemma sum_of_cons {A} (f : A → Z) x l : sum_of f (x :: l) = f x + sum_of f l.
Proof. done. Qed.

Lemma sum_of_ext {A} (f g : A → Z) l : Forall (λ x, f x = g x) l → sum_of f l = sum_of g l.
Proof. induction 1 as [|x l H _ IH]; [done|]. rewrite !sum_of_cons. lia. Qed.

(** The share of the words of length at most [l]. *)
Definition share_upto (l : nat) (x : Z) : Z := if (1 <=? x) && (x <=? Z.of_nat l) then 2 ^ (15 - x) else 0.

Lemma share_upto_S L l :
  sum_of (share_upto (S l)) L = sum_of (share_upto l) L + tally L (Z.of_nat (S l)) * 2 ^ (15 - Z.of_nat (S l)).
Proof.
  induction L as [|x L IH]; [done|]. rewrite !sum_of_cons, tally_cons, IH. unfold share_upto.
  destruct (Z.leb_spec 1 x), (Z.leb_spec x (Z.of_nat (S l))), (Z.leb_spec x (Z.of_nat l)); case_bool_decide; subst; cbn [andb]; lia.
Qed.

Lemma words_share L l : (l ≤ 15)%nat → (first L l + cnt L l) * 2 ^ (15 - Z.of_nat l) = sum_of (share_upto l) L.
Proof.
  induction l as [|l IH]; intros Hl.
  - cbn [first cnt]. rewrite Z.mul_0_l. symmetry. induction L as [|x L IH]; [done|]. rewrite sum_of_cons, IH. unfold share_upto.
    destruct (Z.leb_spec 1 x), (Z.leb_spec x (Z.of_nat 0)); cbn [andb]; lia.
  - rewrite share_upto_S, <-IH by lia. cbn [first]. change (cnt L (S l)) with (tally L (Z.of_nat (S l))).
    replace (15 - Z.of_nat l) with (Z.succ (15 - Z.of_nat (S l))) by lia. rewrite Z.pow_succ_r by lia. lia.
Qed.

Lemma words_fit L l : Forall (λ x, 0 ≤ x < 16) L → kraft L → (l ≤ 15)%nat → first L l + cnt L l ≤ 2 ^ Z.of_nat l.
Proof.
  intros HL HK Hl. pose proof (words_share L l Hl) as E. assert (sum_of (share_upto l) L ≤ sum_of share L) as Hle.
  { apply sum_of_le. eapply Forall_impl; [exact HL|]. intros x Hx. cbv beta in Hx. unfold share_upto, share.
    destruct (Z.leb_spec 1 x), (Z.leb_spec x (Z.of_nat l)), (Z.eqb_spec x 0); cbn [andb]; lia. }
  unfold kraft in HK. assert (2 ^ 15 = 2 ^ Z.of_nat l * 2 ^ (15 - Z.of_nat l)) as E2 by (rewrite <-Z.pow_add_r by lia; f_equal; lia).
  apply (Z.mul_le_mono_pos_r _ _ (2 ^ (15 - Z.of_nat l))); [apply Z.pow_pos_nonneg; lia|lia].
Qed.

Section code.
Context (L : list Z) (HL : lengths_ok L) (HK : kraft L).

Lemma code_bound s l : L !! s = Some l → 1 ≤ l → 0 ≤ code_of L s l < 2 ^ l.
Proof using HL HK.
  intros Hs Hl. destruct HL as [HF _]. pose proof (Forall_lookup_1 _ _ _ _ HF Hs) as Hb. cbv beta in Hb.
  pose proof (words_fit L (Z.to_nat l) HF HK ltac:(lia)) as H. rewrite cnt_tally, Z2Nat.id in H by lia.
  pose proof (rank_lt L s l Hs). pose proof (rank_nonneg L s l). pose proof (first_nonneg L (Z.to_nat l)). unfold code_of. lia.
Qed.

Lemma first_small l : (l ≤ 15)%nat → 0 ≤ first L l ∧ 0 ≤ cnt L l ∧ first L l + cnt L l ≤ 32768.
Proof using HL HK.
  intros Hl. pose proof (words_fit L l (proj1 HL) HK Hl). pose proof (first_nonneg L l). pose proof (cnt_nonneg L l).
  assert (2 ^ Z.of_nat l ≤ 2 ^ 15) by (apply Z.pow_le_mono_r; lia). lia.
Qed.

(** ** Numbering the words *)

Lemma count_positive_spec n f K :
  Forall (λ l, 0 ≤ l < Z.of_nat n) K → (∀ k, (k < n)%nat → 0 ≤ f k ∧ f k + len K < 65536) →
  for_each count_positive K (f <$> seq 0 n) = Ret ((λ k, f k + cnt K k) <$> seq 0 n).
Proof using.
  intros HKK. revert f. induction HKK as [|l K Hl HKK IH]; intros f Hf; cbn [for_each].
  - f_equal. apply seq_ext. intros k _. destruct k; cbn [cnt]; [|rewrite tally_nil]; lia.
  - pose proof (len_nonneg K). unfold count_positive at 1. destruct (Z.ltb_spec 0 l) as [H0|H0].
    + rewrite bump_seq by (try lia; specialize (Hf (Z.to_nat l) ltac:(lia)); rewrite len_cons in Hf; lia). cbn [outcome_bind]. rewrite IH.
      * f_equal. apply seq_ext. intros k Hk. destruct k as [|k]; cbn [cnt]; [rewrite bool_decide_false by lia; lia|]. rewrite tally_cons.
        repeat case_bool_decide; lia.
      * intros k Hk. specialize (Hf k Hk). rewrite len_cons in Hf. case_bool_decide; lia.
    + cbn [outcome_bind]. rewrite IH by (intros k Hk; specialize (Hf k Hk); rewrite len_cons in Hf; lia).
      f_equal. apply seq_ext. intros k Hk. destruct k as [|k]; cbn [cnt]; [done|]. rewrite tally_cons, bool_decide_false by lia. lia.
Qed.

Lemma first_code_spec n : (n ≤ 15)%nat →
  ∃ f, for_each (first_code (cnt L <$> seq 0 (S n))) (Z.of_nat <$> seq 1 n) (0, replicate (S n) 0) = Ret (first L n, f <$> seq 0 (S n)) ∧
    ∀ k, (1 ≤ k ≤ n)%nat → f k = first L k.
Proof using HL HK.
  intros Hn. rewrite replicate_seq.
  assert (∀ m a f, (1 ≤ a)%nat → (a + m = S n)%nat → (∀ k, (1 ≤ k < a)%nat → f k = first L k) →
    ∃ g, for_each (first_code (cnt L <$> seq 0 (S n))) (Z.of_nat <$> seq a m) (first L (a - 1), f <$> seq 0 (S n)) = Ret (first L n, g <$> seq 0 (S n)) ∧
      ∀ k, (1 ≤ k ≤ n)%nat → g k = first L k) as G.
  { induction m as [|m IH]; intros a f Ha Hm Hf.
    - change (Z.of_nat <$> seq a 0) with (@nil Z). cbn [for_each]. exists f. replace (a - 1)%nat with n by lia. split; [done|]. intros k Hk. apply Hf. lia.
    - change (seq a (S m)) with (a :: seq (S a) m). rewrite fmap_cons. cbn [for_each]. unfold first_code at 1.
      rewrite index_seq0 by lia. cbn [outcome_bind]. replace (Z.to_nat (Z.of_nat a - 1)) with (a - 1)%nat by lia.
      assert (as_u16 (Z.shiftl (as_u16 (first L (a - 1) + cnt L (a - 1))) 1) = first L a) as ->.
      { destruct a as [|a]; [lia|]. replace (S a - 1)%nat with a by lia. cbn [first]. pose proof (first_small a ltac:(lia)).
        pose proof (first_small (S a) ltac:(lia)) as H2. cbn [first] in H2. unfold as_u16. rewrite (Z.mod_small (first L a + _)) by lia.
        rewrite Z.shiftl_mul_pow2, Z.mod_small by lia. lia. }
      rewrite store_seq by lia. cbn [outcome_bind].
      specialize (IH (S a) (λ k, if bool_decide (k = Z.to_nat (Z.of_nat a)) then first L a else f k) ltac:(lia) ltac:(lia)).
      replace (S a - 1)%nat with a in IH by lia. apply IH. intros k Hk. case_bool_decide; [f_equal; lia|apply Hf; lia]. }
  apply (G n 1%nat (λ _, 0)); lia.
Qed.

Lemma max_bits_spec (K : list Z) : 0 ≤ foldr Z.max 0 K ∧ Forall (λ l, l ≤ foldr Z.max 0 K) K.
Proof using.
  induction K as [|l K [IH0 IH]]; [done|]. cbn [foldr]. split; [lia|]. constructor; [lia|]. eapply Forall_impl; [exact IH|]. intros x Hx. cbv beta in *. lia.
Qed.

Definition numbered (codes : list Z) : Prop :=
  length codes = length L ∧ ∀ s l, L !! s = Some l → 1 ≤ l → codes !! s = Some (code_of L s l).

Lemma assign_codes_spec n f :
  Forall (λ l, 0 ≤ l ≤ Z.of_nat n) L → (n ≤ 15)%nat → (∀ k, (1 ≤ k ≤ n)%nat → f k = first L k) →
  ∃ codes next, for_each assign_code (enumerate L) (replicate (length L) 0, f <$> seq 0 (S n)) = Ret (codes, next) ∧ numbered codes.
Proof using HL HK.
  intros Hn Hn15 Hf. destruct (for_each_inv assign_code (λ done s,
     (length s.1 = length L ∧ ∀ i l, (i < length done)%nat → L !! i = Some l → 1 ≤ l → s.1 !! i = Some (code_of L i l)) ∧
     ∃ f, s.2 = f <$> seq 0 (S n) ∧ ∀ k, (1 ≤ k ≤ n)%nat → f k = first L k + rank L (length done) (Z.of_nat k))
     (enumerate L) (replicate (length L) 0, f <$> seq 0 (S n))) as ([codes next] & E & HI).
  - split; [cbn [fst length]; split; [by rewrite length_replicate|lia]|]. exists f. split; [done|]. intros k Hk. rewrite Hf by done.
    unfold rank. change (take (length (@nil (nat * Z))) L) with (@nil Z). rewrite tally_nil. lia.
  - intros done [i l] rest [codes next] Ed [[Hlen Hc] (g & Eg & Hg)]. apply enumerate_split in Ed as [Es El]. cbn [fst snd] in *. subst i next.
    rewrite length_app. cbn [length]. rewrite Nat.add_1_r. pose proof (lookup_lt_Some _ _ _ El) as Hlt.
    pose proof (Forall_lookup_1 _ _ _ _ Hn El) as Hl. cbv beta in Hl. cbn [assign_code]. destruct (Z.ltb_spec 0 l) as [H0|H0].
    + assert (g (Z.to_nat l) = code_of L (length done) l) as Eg by (rewrite Hg by lia; unfold code_of; rewrite Z2Nat.id by lia; done).
      pose proof (code_bound _ l El ltac:(lia)) as Hb. assert (2 ^ l ≤ 2 ^ 15) by (apply Z.pow_le_mono_r; lia). change (2 ^ 15) with 32768 in *.
      rewrite index_seq0 by lia. cbn [outcome_bind]. rewrite store_ok by (unfold len; lia). cbn [outcome_bind]. rewrite Nat2Z.id.
      rewrite bump_seq by (rewrite ?Eg; lia). cbn [outcome_bind]. eexists. split; [done|]. cbn [fst snd]. split; [split|].
      * by rewrite length_insert.
      * intros i l' Hi El' Hl'. destruct (decide (i = length done)) as [->|Hne].
        { rewrite El in El'. simplify_eq. rewrite list_lookup_insert_eq by lia. by rewrite Eg. }
        { rewrite list_lookup_insert_ne by done. apply Hc; [lia|done|done]. }
      * eexists. split; [done|]. intros k Hk. cbv beta. rewrite Hg by done. case_bool_decide as Ek.
        { subst k. rewrite !Z2Nat.id by lia. rewrite (rank_S L _ l El). lia. }
        { rewrite (rank_S_ne L _ l) by (done || lia). lia. }
    + eexists. split; [done|]. cbn [fst snd]. split; [split; [done|]|].
      * intros i l' Hi El' Hl'. apply Hc; [|done|done]. destruct (decide (i = length done)) as [->|]; [|lia]. rewrite El in El'. simplify_eq. lia.
      * exists g. split; [done|]. intros k Hk. rewrite Hg by done. rewrite (rank_S_ne L _ l) by (done || lia). done.
  - exists codes, next. split; [done|]. rewrite enumerate_length in HI. destruct HI as [[HI1 HI2] _]. split; [done|]. intros s l Hs Hl.
    apply HI2; [by eapply lookup_lt_Some|done|done].
Qed.

Lemma canonical_codes_spec : ∃ codes, canonical_codes L = Ret codes ∧ numbered codes.
Proof using HL HK.
  destruct HL as [HF Hlen]. destruct (max_bits_spec L) as [H0 Hmax]. unfold canonical_codes. set (m := foldr Z.max 0 L) in *.
  destruct (Z.eqb_spec m 0) as [E|E].
  - eexists. split; [done|]. split; [by rewrite length_replicate|]. intros s l Hs Hl. pose proof (Forall_lookup_1 _ _ _ _ Hmax Hs). cbv beta in *. lia.
  - assert (m ≤ 15) as H15.
    { subst m. clear -HF. induction HF as [|x K Hx _ IH]; cbn [foldr]; lia. }
    rewrite replicate_seq, count_positive_spec; [|eapply Forall_impl; [apply Forall_and; split; [exact HF|exact Hmax]|]; intros x [Hx1 Hx2]; cbv beta in *; lia|lia].
    cbn [outcome_bind]. rewrite (seq_ext _ (cnt L)) by (intros; lia).
    rewrite <-(replicate_seq (S (Z.to_nat m)) 0). destruct (first_code_spec (Z.to_nat m) ltac:(lia)) as (f & -> & Hf). cbn [outcome_bind snd].
    destruct (assign_codes_spec (Z.to_nat m) f) as (codes & next & -> & Hc); [|lia|done|by exists codes].
    eapply Forall_impl; [apply Forall_and; split; [exact HF|exact Hmax]|]. intros x [Hx1 Hx2]. cbv beta in *. lia.
Qed.

(** ** Reading the words *)

End code.

(** The [n] low bits of [v], most significant first: the order of a code word. *)
Fixpoint msb_bits (n : nat) (v : Z) : list bool :=
  match n with O => [] | S n' => Z.testbit v (Z.of_nat n') :: msb_bits n' v end.

Lemma msb_bits_length n v : length (msb_bits n v) = n.
Proof. induction n; simpl; auto. Qed.

Lemma div_pow_step v n : v / 2 ^ Z.of_nat n = 2 * (v / 2 ^ Z.of_nat (S n)) + Z.b2z (Z.testbit v (Z.of_nat n)).
Proof.
  pose proof (Z.pow_pos_nonneg 2 (Z.of_nat n)). rewrite Z.testbit_spec' by lia. rewrite Nat2Z.inj_succ, Z.pow_succ_r by lia. rewrite (Z.mul_comm 2 (2 ^ _)), <-Z.div_div by lia.
  pose proof (Z.div_mod (v / 2 ^ Z.of_nat n) 2). lia.
Qed.

(** One more bit of a word. *)
Lemma shift_in code b : 0 ≤ code < 32768 → Z.lor (as_u32 (Z.shiftl code 1)) (Z.b2z b) = 2 * code + Z.b2z b.
Proof.
  intros Hc. rewrite Z.shiftl_mul_pow2 by lia. unfold as_u32. rewrite Z.mod_small by lia.
  rewrite (lor_add_disjoint _ _ 1); [lia|lia|destruct b; simpl; lia|]. change (2 ^ 1) with 2. apply Z.mod_mul. lia.
Qed.

Lemma reads_one b : reads (read_bits 1) [b] (Z.b2z b).
Proof. replace (Z.b2z b) with (bits_val [b]) by (cbn [bits_val foldr]; lia). apply reads_bits; [done|lia]. Qed.

Lemma reads_code_from L t s l r : ∀ n j,
  lengths_ok L → kraft L → counts t = cnt L <$> seq 0 16 → sorted_symbols L (length L) (symbols t) → L !! s = Some l → 1 ≤ l →
  (1 ≤ r)%nat → (j + r = S (Z.to_nat l))%nat → (1 ≤ j)%nat → (j + n = 16)%nat →
  reads (decode_from t n (Z.of_nat j) (code_of L s l / 2 ^ Z.of_nat r) (first L j) (offset L j)) (msb_bits r (code_of L s l)) (Z.of_nat s).
Proof.
  induction r as [|r IH]; intros n j HL HK Hc Hsym Hs Hl Hr Hj Hj1 Hn; [lia|]. pose proof HL as [HF Hlen].
  pose proof (Forall_lookup_1 _ _ _ _ HF Hs) as Hl16. cbv beta in Hl16. destruct n as [|n]; [lia|]. cbn [decode_from msb_bits].
  set (v := code_of L s l) in *. pose proof (code_bound L HL HK s l Hs Hl) as Hv. fold v in Hv.
  assert (0 ≤ v / 2 ^ Z.of_nat (S r) < 32768) as Hcode.
  { assert (2 ^ l ≤ 2 ^ 15) by (apply Z.pow_le_mono_r; lia). change (2 ^ 15) with 32768 in *. split; [apply Z.div_pos; lia|].
    apply Z.div_lt_upper_bound; [lia|]. assert (1 ≤ 2 ^ Z.of_nat (S r)) by (apply (Z.pow_le_mono_r 2 0); lia). lia. }
  apply (reads_bind _ _ [_] _ (Z.b2z (Z.testbit v (Z.of_nat r)))); [apply reads_one|]. rewrite shift_in, <-div_pow_step by done.
  apply (reads_nil_bind _ _ _ (cnt L j)); [apply reads_pure; rewrite Hc, index_seq0 by lia; by rewrite Nat2Z.id|].
  pose proof (first_small L HL HK j ltac:(lia)) as (Hf0 & Hc0 & Hfc). unfold as_u32 at 1. rewrite (Z.mod_small (first L j + _)) by lia.
  destruct r as [|r].
  - assert (j = Z.to_nat l) as -> by lia. rewrite Z.pow_0_r, Z.div_1_r. pose proof (rank_lt L s l Hs) as Hrk. pose proof (rank_nonneg L s l).
    rewrite cnt_tally in * by lia. rewrite (proj2 (Z.ltb_lt _ _)) by (unfold v, code_of; lia). cbn [msb_bits]. apply reads_pure.
    pose proof (place_bound L s l Hs ltac:(lia)) as Hp. pose proof (offset_le L 16). unfold as_u32. rewrite Z.mod_small by (unfold v, code_of, place in *; lia).
    replace (offset L (Z.to_nat l) + (v - first L (Z.to_nat l))) with (place L s l) by (unfold v, code_of, place; lia).
    destruct Hsym as (_ & _ & Hsym). apply index_ok; [lia|]. apply Hsym; [by eapply lookup_lt_Some|done|done].
  - pose proof (first_next L j (Z.to_nat l) ltac:(lia)) as Hnext. replace (Z.to_nat l - j)%nat with (S r) in Hnext by lia.
    rewrite (proj2 (Z.ltb_ge _ _)).
    2: { apply Z.div_le_lower_bound; [lia|]. pose proof (rank_nonneg L s l). unfold v, code_of. lia. }
    rewrite Z.shiftl_mul_pow2 by lia.
    unfold as_u32. rewrite (Z.mod_small (first L j + cnt L j)), (Z.mod_small ((first L j + cnt L j) * _)) by lia.
    rewrite (Z.mod_small (offset L j + _)) by (pose proof (offset_nonneg L j); pose proof (offset_le L (S j)) as Ho; cbn [offset] in Ho; lia).
    replace ((first L j + cnt L j) * 2 ^ 1) with (first L (S j)) by (cbn [first]; lia). replace (Z.of_nat j + 1) with (Z.of_nat (S j)) by lia.
    apply (IH n (S j)); try done; lia.
Qed.

(** A table and a code that belong together. *)
Definition table_of (L : list Z) (t : HuffmanTable) : Prop :=
  lengths_ok L ∧ counts t = cnt L <$> seq 0 16 ∧ sorted_symbols L (length L) (symbols t).

Lemma from_lengths_table L : lengths_ok L → ∃ t, from_lengths L = Ret (Ok t) ∧ table_of L t.
Proof. intros HL. destruct (from_lengths_spec L HL) as (sy & -> & Hs). by eexists. Qed.

Lemma reads_code L t s l :
  table_of L t → kraft L → L !! s = Some l → 1 ≤ l → reads (decode t) (msb_bits (Z.to_nat l) (code_of L s l)) (Z.of_nat s).
Proof.
  intros (HL & Hc & Hsym) HK Hs Hl. pose proof (code_bound L HL HK s l Hs Hl) as Hb. pose proof (Forall_lookup_1 _ _ _ _ (proj1 HL) Hs) as H16. cbv beta in H16.
  unfold decode. replace 0 with (code_of L s l / 2 ^ Z.of_nat (Z.to_nat l)) at 1 by (rewrite Z2Nat.id by lia; apply Z.div_small; lia).
  apply (reads_code_from L t s l (Z.to_nat l) 15 1); try done; lia.
Qed.

(** ** Decoding never panics *)

Lemma yields_decode_from L t n : ∀ j code first,
  table_of L t → (j + n = 16)%nat → (1 ≤ j)%nat → 0 ≤ code < 2 ^ Z.of_nat (j - 1) → 0 ≤ first ≤ 2 * code →
  yields 1 (decode_from t n (Z.of_nat j) code first (offset L j)) (λ s, 0 ≤ s < len L).
Proof.
  induction n as [|n IH]; intros j code first Ht Hj Hj1 Hc Hf; [apply yields_fail|]. pose proof Ht as ([HF Hlen] & Hcnt & (Hlen2 & Hall & _)).
  cbn [decode_from]. assert (2 ^ Z.of_nat (j - 1) ≤ 2 ^ 14) as Hp by (apply Z.pow_le_mono_r; lia). change (2 ^ 14) with 16384 in Hp.
  eapply yields_then; [by apply yields_bits; lia|]. intros bit Hbit. cbv beta in Hbit. change (2 ^ Z.of_nat 1) with 2 in Hbit.
  assert (bit = Z.b2z (bool_decide (bit = 1))) as -> by (case_bool_decide; simpl; lia). rewrite shift_in by lia. set (b := Z.b2z _) in *.
  assert (0 ≤ b < 2) as Hb by (subst b; destruct (bool_decide _); simpl; lia). clearbody b.
  eapply yields_bind_0; [apply (yields_pure _ (cnt L j) (λ c, c = cnt L j)); [by rewrite Hcnt, index_seq0, Nat2Z.id by lia|done]|]. intros c ->.
  pose proof (cnt_nonneg L j) as Hc0. pose proof (cnt_le L j) as Hc1. unfold as_u32 at 1. rewrite (Z.mod_small (first + _)) by lia.
  pose proof (offset_next L j 16 ltac:(lia)) as Ho. pose proof (offset_nonneg L j). pose proof (offset_le L 16).
  destruct (Z.ltb_spec (2 * code + b) (first + cnt L j)) as [Hlt|Hge].
  - unfold as_u32. rewrite Z.mod_small by lia. destruct (index_total (symbols t) (offset L j + (2 * code + b - first))) as (x & E & Hx); [lia|].
    eapply yields_pure; [exact E|]. by apply (Forall_lookup_1 _ _ _ _ Hall Hx).
  - rewrite Z.shiftl_mul_pow2 by lia. unfold as_u32. rewrite (Z.mod_small (first + _)), (Z.mod_small (offset L j + _)) by lia.
    rewrite (Z.mod_small ((first + cnt L j) * 2 ^ 1)) by lia. change (offset L j + cnt L j) with (offset L (S j)).
    replace (Z.of_nat j + 1) with (Z.of_nat (S j)) by lia. eapply yields_weaken; [apply IH; try done; try lia|lia|done].
    replace (S j - 1)%nat with (S (j - 1)) by lia. rewrite Nat2Z.inj_succ, Z.pow_succ_r by lia. lia.
Qed.

Lemma yields_decode L t : table_of L t → yields 1 (decode t) (λ s, 0 ≤ s < len L).
Proof. intros Ht. apply (yields_decode_from L t 15 1); try done; lia. Qed.
