(* ===== verification/PackageMerge.v ===== *)
(** * PackageMerge: code lengths that make a prefix code

    [length_limited_huffman] gives every symbol that occurs a length between one and the
    limit and the lengths satisfy Kraft's inequality ([limited_lengths_spec]).  The
    argument needs neither the order of the items nor that the lengths are optimal: in a
    prefix of [t] items, a symbol that occurs [c] times contributes [2^M - 2^(M-c)], and
    these add up to [t * 2^(M-1)] at least, level by level ([merged_worth]). *)

From S2P Require Import Prelude Bytes Bits Arrays Inflate Deflate InflateBits HuffmanTables.

Local Open Scope Z_scope.
Local Open Scope cruft_scope.

(** ** Sums *)

Lemma sum_of_perm {A} (f : A → Z) l k : l ≡ₚ k → sum_of f l = sum_of f k.
Proof. induction 1; rewrite ?sum_of_cons; try lia. Qed.

Lemma sum_of_fmap {A B} (g : A → B) (f : B → Z) l : sum_of f (g <$> l) = sum_of (λ x, f (g x)) l.
Proof. induction l as [|x l IH]; [done|]. rewrite fmap_cons, !sum_of_cons. lia. Qed.

(** What vanishes outside a filter adds nothing. *)
Lemma sum_of_filter {A} (P : A → Prop) `{∀ x, Decision (P x)} (f : A → Z) l :
  (∀ x, x ∈ l → ¬ P x → f x = 0) → sum_of f (filter P l) = sum_of f l.
Proof.
  induction l as [|x l IH]; intros Hf; [done|]. rewrite filter_cons, sum_of_cons.
  specialize (IH ltac:(intros y Hy; apply Hf; by right)). case_decide as HP; [rewrite sum_of_cons; lia|].
  rewrite (Hf x ltac:(by left) HP). lia.
Qed.

Lemma sum_of_scale {A} (f : A → Z) c l : sum_of (λ x, c * f x) l = c * sum_of f l.
Proof. induction l as [|x l IH]; [cbn; lia|]. rewrite !sum_of_cons, IH. lia. Qed.

(** ** Sorting and packing *)

Lemma sort_insert_perm key s l : sort_insert key s l ≡ₚ s :: l.
Proof.
  induction l as [|t l IH]; [done|]. cbn [sort_insert]. destruct (key s <=? key t); [done|].
  rewrite IH. apply Permutation_swap.
Qed.

Lemma sort_perm key l : sort_by_key key l ≡ₚ l.
Proof.
  induction l as [|s l IH]; [done|]. change (sort_by_key key (s :: l)) with (sort_insert key s (sort_by_key key l)).
  by rewrite sort_insert_perm, IH.
Qed.

(** The symbols in the first [t] items. *)
Definition taken (t : nat) (items : list package) : list Z := take t items ≫= snd.

Lemma taken_S t (x : package) items : taken (S t) (x :: items) = x.2 ++ taken t items.
Proof. done. Qed.

Lemma pack_length items : length (pack items) = (length items / 2)%nat.
Proof.
  assert (∀ n items, (length items ≤ n)%nat → length (pack items) = (length items / 2)%nat) as G; [|by eapply G].
  clear. induction n as [|n IH]; intros items Hn; [by destruct items; simpl in *; [|lia]|].
  destruct items as [|x [|y items]]; [done|done|]. cbn [pack length] in *. rewrite IH by lia.
  replace (S (S (length items))) with (length items + 1 * 2)%nat by lia. rewrite Nat.div_add by lia. lia.
Qed.

Lemma pack_taken b items : (2 * b ≤ length items)%nat → taken b (pack items) = taken (2 * b) items.
Proof.
  revert items. induction b as [|b IH]; intros items Hb; [done|]. replace (2 * S b)%nat with (S (S (2 * b))) in * by lia.
  destruct items as [|x [|y items]]; cbn [length] in Hb; [lia..|]. cbn [pack]. rewrite !taken_S. cbn [snd].
  rewrite IH by lia. by rewrite <-app_assoc.
Qed.

Lemma merge_nil_r leaves : merge_leaves leaves [] = leaves.
Proof. by destruct leaves. Qed.

Lemma merge_cons x leaves y packages :
  merge_leaves (x :: leaves) (y :: packages) =
  if x.1 <=? y.1 then x :: merge_leaves leaves (y :: packages) else y :: merge_leaves (x :: leaves) packages.
Proof. done. Qed.

Lemma merge_length leaves packages : length (merge_leaves leaves packages) = (length leaves + length packages)%nat.
Proof.
  revert packages. induction leaves as [|x leaves IH]; intros packages; [done|].
  induction packages as [|y packages IHp]; [rewrite merge_nil_r; simpl; lia|]. rewrite merge_cons.
  destruct (x.1 <=? y.1); cbn [length]; [rewrite IH|rewrite IHp]; cbn [length]; lia.
Qed.

(** A prefix of a merge is made of a prefix of each part. *)
Lemma merge_taken t leaves packages :
  (t ≤ length leaves + length packages)%nat →
  ∃ a b, (a ≤ length leaves)%nat ∧ (b ≤ length packages)%nat ∧ (a + b = t)%nat ∧
    ∀ s, tally (taken t (merge_leaves leaves packages)) s = tally (taken a leaves) s + tally (taken b packages) s.
Proof.
  revert leaves packages. induction t as [|t IH]; intros leaves packages Ht.
  { exists 0%nat, 0%nat. split_and!; try lia. done. }
  destruct leaves as [|x leaves].
  { exists 0%nat, (S t). simpl in Ht. split_and!; try (simpl; lia). intros s. change (taken 0 []) with (@nil Z). rewrite tally_nil. cbn [merge_leaves]. lia. }
  destruct packages as [|y packages].
  { exists (S t), 0%nat. simpl in Ht. split_and!; try (simpl; lia). intros s. rewrite merge_nil_r. change (taken 0 []) with (@nil Z). rewrite tally_nil. lia. }
  rewrite merge_cons. cbn [length] in Ht. destruct (x.1 <=? y.1).
  - destruct (IH leaves (y :: packages)) as (a & b & Ha & Hb & Hab & Hs); [cbn [length]; lia|]. exists (S a), b. cbn [length] in *. split_and!; try lia.
    intros s. rewrite !taken_S, !tally_app, Hs. lia.
  - destruct (IH (x :: leaves) packages) as (a & b & Ha & Hb & Hab & Hs); [cbn [length]; lia|]. exists a, (S b). cbn [length] in *. split_and!; try lia.
    intros s. rewrite !taken_S, !tally_app, Hs. lia.
Qed.

Lemma tally_nodup l s : NoDup l → tally l s = if bool_decide (s ∈ l) then 1 else 0.
Proof.
  induction 1 as [|x l Hx Hl IH]; [by rewrite bool_decide_false by set_solver|]. rewrite tally_cons, IH.
  destruct (decide (x = s)) as [->|Hne].
  - rewrite bool_decide_true, (bool_decide_false (s ∈ l)), bool_decide_true by (done || by left). lia.
  - rewrite (bool_decide_false (x = s)) by done. rewrite (bool_decide_ext (s ∈ x :: l) (s ∈ l)) by (rewrite elem_of_cons; naive_solver). lia.
Qed.

Lemma nodup_take (l : list Z) a : NoDup l → NoDup (take a l).
Proof. intros H. rewrite <-(take_drop a l) in H. by apply NoDup_app in H as (? & _). Qed.

(** ** The worth of a prefix *)

Section worth.
Context (syms : list Z) (Hnd : NoDup syms) (freq : Z → Z) (M : Z).

Let leaves : list package := (λ s, (freq s, [s])) <$> syms.

Definition worth (c : Z) : Z := 2 ^ M - 2 ^ (M - c).

Definition worth_of (l : list Z) : Z := sum_of (λ s, worth (tally l s)) syms.

Lemma worth_S c : 0 ≤ c < M → 2 * worth (c + 1) = 2 ^ M + worth c.
Proof using.
  intros Hc. unfold worth. replace (M - c) with (Z.succ (M - (c + 1))) by lia. rewrite Z.pow_succ_r by lia. lia.
Qed.

Lemma worth_nonneg c : 0 ≤ c ≤ M → 0 ≤ worth c.
Proof using. intros Hc. unfold worth. pose proof (Z.pow_le_mono_r 2 (M - c) M). lia. Qed.

Lemma taken_leaves a : taken a leaves = take a syms.
Proof using.
  unfold taken, leaves. rewrite <-fmap_take. induction (take a syms) as [|s l IH]; [done|]. rewrite fmap_cons. cbn. by rewrite IH.
Qed.

(** A prefix of the leaves on top of the symbols below. *)
Lemma worth_step a (c : Z → Z) :
  (∀ s, s ∈ syms → 0 ≤ c s < M) → (a ≤ length syms)%nat →
  Z.of_nat a * 2 ^ M + sum_of (λ s, worth (c s)) syms ≤ 2 * sum_of (λ s, worth (tally (take a syms) s + c s)) syms.
Proof using Hnd.
  intros Hc Ha. pose proof Hnd as Hn. rewrite <-(take_drop a syms) in Hn. apply NoDup_app in Hn as (Hn1 & Hdis & _).
  assert (∀ f, sum_of f syms = sum_of f (take a syms) + sum_of f (drop a syms)) as Hsplit by (intros f; by rewrite <-sum_of_app, take_drop).
  rewrite !Hsplit.
  assert (∀ s, s ∈ take a syms → s ∈ syms) as Hin1 by (intros s Hs; by eapply subseteq_take).
  assert (∀ s, s ∈ drop a syms → s ∈ syms) as Hin2 by (intros s Hs; by eapply subseteq_drop).
  assert (2 * sum_of (λ s, worth (tally (take a syms) s + c s)) (take a syms) = Z.of_nat a * 2 ^ M + sum_of (λ s, worth (c s)) (take a syms)) as E1.
  { rewrite <-sum_of_scale. replace (Z.of_nat a) with (len (take a syms)) by (unfold len; rewrite length_take; lia).
    assert (∀ l, (∀ s, s ∈ l → s ∈ take a syms) → sum_of (λ s, 2 * worth (tally (take a syms) s + c s)) l = len l * 2 ^ M + sum_of (λ s, worth (c s)) l) as G; [|by apply G].
    induction l as [|s l IH]; intros Hl; [done|]. rewrite !sum_of_cons, len_cons, IH by (intros; apply Hl; by right).
    rewrite tally_nodup, bool_decide_true by (done || apply Hl; by left). rewrite (Z.add_comm 1), worth_S by (apply Hc, Hin1, Hl; by left). lia. }
  assert (sum_of (λ s, worth (c s)) (drop a syms) ≤ 2 * sum_of (λ s, worth (tally (take a syms) s + c s)) (drop a syms)) as E2.
  { rewrite <-sum_of_scale. apply sum_of_le, Forall_forall. intros s Hs. rewrite tally_nodup, bool_decide_false by (done || intros H; by eapply Hdis).
    pose proof (worth_nonneg (c s)). pose proof (Hc s (Hin2 s Hs)). rewrite Z.add_0_l. lia. }
  lia.
Qed.

(** What is known of the items after [r] rounds. *)
Definition packed (r : Z) (items : list package) : Prop :=
  ∀ t, (t ≤ length items)%nat →
    (∀ s, tally (taken t items) s ≤ (if bool_decide (s ∈ syms) then r + 1 else 0)) ∧
    Z.of_nat t * 2 ^ (M - 1) ≤ worth_of (taken t items).

Lemma packed_leaves : 1 ≤ M → packed 0 leaves.
Proof using Hnd.
  intros HM t Ht. unfold leaves in Ht. rewrite length_fmap in Ht. rewrite taken_leaves. split.
  - intros s. rewrite tally_nodup by (by apply nodup_take). repeat case_bool_decide; try lia.
    exfalso. by eapply H0, subseteq_take.
  - pose proof (worth_step t (λ _, 0) ltac:(lia) Ht) as H. cbv beta in H. unfold worth_of.
    assert (sum_of (λ _, worth 0) syms = 0) as E.
    { assert (worth 0 = 0) as -> by (unfold worth; rewrite Z.sub_0_r; lia). clear. induction syms as [|s l IH]; [done|]. rewrite sum_of_cons. lia. }
    rewrite E in H. rewrite (sum_of_ext _ (λ s, worth (tally (take t syms) s))) in H by (apply Forall_true; intros; f_equal; lia).
    replace M with (Z.succ (M - 1)) in H at 1 by lia. rewrite Z.pow_succ_r in H by lia. lia.
Qed.

Lemma packed_merge r items : 0 ≤ r → r + 1 < M → packed r items → packed (r + 1) (merge_leaves leaves (pack items)).
Proof using Hnd.
  intros Hr HrM Hp t Ht. rewrite merge_length, pack_length in Ht.
  destruct (merge_taken t leaves (pack items)) as (a & b & Ha & Hb & Hab & Hs); [by rewrite pack_length|].
  unfold leaves in Ha. rewrite length_fmap in Ha. rewrite pack_length in Hb. pose proof (Nat.div_mod_eq (length items) 2) as Hd.
  destruct (Hp (2 * b)%nat ltac:(lia)) as [Hc Hw]. rewrite <-pack_taken in Hc, Hw by lia. setoid_rewrite taken_leaves in Hs. split.
  - intros s. rewrite Hs. specialize (Hc s). rewrite tally_nodup by (by apply nodup_take).
    repeat case_bool_decide; try lia. exfalso. by eapply H, subseteq_take.
  - pose proof (worth_step a (tally (taken b (pack items)))) as H. unfold worth_of in *.
    rewrite (sum_of_ext _ (λ s, worth (tally (take a syms) s + tally (taken b (pack items)) s))) by (apply Forall_true; intros s; by rewrite Hs).
    assert (∀ s, s ∈ syms → 0 ≤ tally (taken b (pack items)) s < M) as Hc'.
    { intros s Hin. specialize (Hc s). rewrite bool_decide_true in Hc by done. pose proof (tally_nonneg (taken b (pack items)) s). lia. }
    specialize (H Hc' Ha). replace M with (Z.succ (M - 1)) in H at 1 by lia. rewrite Z.pow_succ_r in H by lia. lia.
Qed.

Lemma package_merge_packed n : ∀ r items,
  0 ≤ r → r + Z.of_nat n < M → packed r items → packed (r + Z.of_nat n) (package_merge n leaves items).
Proof using Hnd.
  induction n as [|n IH]; intros r items Hr Hn Hp; cbn [package_merge]; [by rewrite Z.add_0_r|].
  replace (r + Z.of_nat (S n)) with (r + 1 + Z.of_nat n) by lia. apply IH; [lia|lia|]. apply packed_merge; [lia|lia|done].
Qed.

(** The lists grow to twice the number of symbols, less two at most. *)
Lemma package_merge_length n : ∀ k items,
  (2 * length syms - length items ≤ 2 ^ (n + k))%nat → (1 ≤ k)%nat →
  (2 * length syms - length (package_merge n leaves items) ≤ 2 ^ k)%nat.
Proof using.
  induction n as [|n IH]; intros k items H Hk; [done|]. cbn [package_merge]. apply IH; [|done].
  rewrite merge_length, pack_length. unfold leaves. rewrite length_fmap. pose proof (Nat.div_mod_eq (length items) 2) as Hd.
  pose proof (Nat.mod_upper_bound (length items) 2). cbn [Nat.add Nat.pow] in H.
  assert (Nat.Even (2 ^ (n + k))) as [e He] by (destruct k; [lia|]; rewrite Nat.add_succ_r; exists (2 ^ (n + k))%nat; done). lia.
Qed.

(** The first [2m - 2] items of the last list. *)
Lemma package_merge_spec :
  (2 ≤ length syms)%nat → (length syms ≤ 2 ^ Z.to_nat M)%nat → 1 ≤ M →
  let occ := taken (2 * length syms - 2) (package_merge (Z.to_nat (M - 1)) leaves leaves) in
  (∀ s, s ∈ syms → 1 ≤ tally occ s ≤ M) ∧ (∀ s, s ∉ syms → tally occ s = 0) ∧ sum_of (λ s, 2 ^ (M - tally occ s)) syms ≤ 2 ^ M.
Proof using Hnd.
  intros Hm HmM HM occ. set (items := package_merge (Z.to_nat (M - 1)) leaves leaves) in *.
  assert (length leaves = length syms) as El by (unfold leaves; by rewrite length_fmap).
  assert (2 * length syms - 2 ≤ length items)%nat as Hlen.
  { pose proof (package_merge_length (Z.to_nat (M - 1)) 1 leaves) as H. replace (Z.to_nat (M - 1) + 1)%nat with (Z.to_nat M) in H by lia.
    rewrite El in H. specialize (H ltac:(lia) ltac:(lia)). fold items in H. change (2 ^ 1)%nat with 2%nat in H. lia. }
  pose proof (package_merge_packed (Z.to_nat (M - 1)) 0 leaves ltac:(lia) ltac:(lia) (packed_leaves HM)) as Hp. fold items in Hp.
  destruct (Hp _ Hlen) as [Hc Hw]. fold occ in Hc, Hw. replace (Z.of_nat (2 * length syms - 2)) with (2 * (len syms - 1)) in Hw by (unfold len; lia).
  assert ((len syms - 1) * 2 ^ M ≤ worth_of occ) as Hw'.
  { replace M with (Z.succ (M - 1)) at 1 by lia. rewrite Z.pow_succ_r by lia. lia. }
  assert (∀ s, s ∈ syms → 0 ≤ tally occ s ≤ M) as Hb.
  { intros s Hs. specialize (Hc s). rewrite bool_decide_true in Hc by done. pose proof (tally_nonneg occ s). lia. }
  split_and!.
  - intros s Hs. split; [|by apply Hb]. destruct (Z.le_gt_cases 1 (tally occ s)) as [|Hlt]; [done|exfalso].
    assert (tally occ s = 0) as E0 by (pose proof (tally_nonneg occ s); lia).
    apply list_elem_of_split in Hs as (l1 & l2 & E). unfold worth_of in Hw'. rewrite E, sum_of_app, sum_of_cons, E0, len_app, len_cons in Hw'.
    assert (worth 0 = 0) as E00 by (unfold worth; rewrite Z.sub_0_r; lia). rewrite E00 in Hw'.
    assert (∀ l, (∀ x, x ∈ l → x ∈ syms) → sum_of (λ s, worth (tally occ s)) l ≤ len l * (2 ^ M - 1)) as G.
    { induction l as [|x l IH]; intros Hl; [done|]. rewrite sum_of_cons, len_cons. specialize (IH ltac:(intros; apply Hl; by right)).
      pose proof (Hb x (Hl x ltac:(by left))). unfold worth at 1. pose proof (Z.pow_pos_nonneg 2 (M - tally occ x)). lia. }
    pose proof (G l1 ltac:(rewrite E; set_solver)). pose proof (G l2 ltac:(rewrite E; set_solver)).
    assert (2 ≤ len l1 + len l2 + 1) by (rewrite E in Hm; rewrite length_app in Hm; unfold len; simpl in Hm; lia).
    assert (0 < 2 ^ M) by (apply Z.pow_pos_nonneg; lia). nia.
  - intros s Hs. specialize (Hc s). rewrite bool_decide_false in Hc by done. pose proof (tally_nonneg occ s). lia.
  - unfold worth_of in Hw'. assert (∀ l, sum_of (λ s, worth (tally occ s)) l = len l * 2 ^ M - sum_of (λ s, 2 ^ (M - tally occ s)) l) as G.
    { induction l as [|x l IH]; [done|]. rewrite !sum_of_cons, len_cons, IH. unfold worth. lia. }
    rewrite G in Hw'. lia.
Qed.
End worth.

(** ** The lengths *)

Lemma sum_of_insert {A} (f : A → Z) (l : list A) i x y : l !! i = Some x → sum_of f (<[i := y]> l) = sum_of f l - f x + f y.
Proof.
  intros Hi. pose proof (lookup_lt_Some _ _ _ Hi). rewrite insert_take_drop by done. rewrite <-(take_drop_middle l i x Hi) at 3.
  rewrite !sum_of_app, !sum_of_cons. lia.
Qed.

Lemma sum_of_zero {A} (f : A → Z) l : Forall (λ x, f x = 0) l → sum_of f l = 0.
Proof. induction 1 as [|x l H _ IH]; [done|]. rewrite sum_of_cons. lia. Qed.

Lemma bump32_seq (f : nat → Z) n (i : Z) :
  0 ≤ i < Z.of_nat n → 0 ≤ f (Z.to_nat i) < 4294967295 →
  bump32 i (f <$> seq 0 n) = Ret ((λ k, f k + (if bool_decide (k = Z.to_nat i) then 1 else 0)) <$> seq 0 n).
Proof.
  intros Hi Hf. unfold bump32. rewrite index_seq0 by done. cbn [outcome_bind]. rewrite store_seq by done. f_equal. apply seq_ext.
  intros k _. case_bool_decide as Ek; [|lia]. subst k. unfold as_u32. rewrite Z.mod_small; lia.
Qed.

Lemma count_occurrences n occ : ∀ f,
  Forall (λ s, 0 ≤ s < Z.of_nat n) occ → (∀ k, (k < n)%nat → 0 ≤ f k ∧ f k + tally occ (Z.of_nat k) < 4294967296) →
  for_each bump32 occ (f <$> seq 0 n) = Ret ((λ k, f k + tally occ (Z.of_nat k)) <$> seq 0 n).
Proof.
  induction occ as [|s occ IH]; intros f Ho Hf; cbn [for_each].
  - f_equal. apply seq_ext. intros k _. rewrite tally_nil. lia.
  - apply Forall_cons in Ho as [Hs Ho]. rewrite bump32_seq; [|done|].
    + cbn [outcome_bind]. rewrite IH; [|done|].
      * f_equal. apply seq_ext. intros k Hk. rewrite tally_cons. repeat case_bool_decide; lia.
      * intros k Hk. specialize (Hf k Hk). rewrite tally_cons in Hf. pose proof (tally_nonneg occ (Z.of_nat k)). repeat case_bool_decide; lia.
    + specialize (Hf (Z.to_nat s) ltac:(lia)). rewrite tally_cons, bool_decide_true in Hf by lia.
      pose proof (tally_nonneg occ (Z.of_nat (Z.to_nat s))). lia.
Qed.

(** The symbols that occur, with their places. *)
Lemma occurring_from a (F : list Z) :
  let S := (λ e, Z.of_nat e.1) <$> filter (λ e, 0 < e.2) (zip (seq a (length F)) F) in
  NoDup S ∧ (∀ s, s ∈ S ↔ ∃ i f, F !! i = Some f ∧ 0 < f ∧ s = Z.of_nat (a + i)) ∧ (length S ≤ length F)%nat.
Proof.
  revert a. induction F as [|f F IH]; intros a; cbn zeta.
  { split_and!; [constructor| |done]. intros s. split; [intros H; by apply elem_of_nil in H|intros (i & f & H & _); done]. }
  cbn [length seq zip zip_with]. rewrite filter_cons. destruct (IH (S a)) as (Hn & Hin & Hl). cbn zeta in *. cbn [snd].
  assert (∀ s, (∃ i g, (f :: F) !! i = Some g ∧ 0 < g ∧ s = Z.of_nat (a + i)) ↔
    (0 < f ∧ s = Z.of_nat a) ∨ ∃ i g, F !! i = Some g ∧ 0 < g ∧ s = Z.of_nat (S a + i)) as Hs.
  { intros s. split.
    - intros ([|i] & g & Hg & Hp & ->); [left|right]; cbn in Hg; [simplify_eq; split; [done|f_equal; lia]|]. exists i, g. split_and!; [done|done|f_equal; lia].
    - intros [[Hp ->]|(i & g & Hg & Hp & ->)]; [exists 0%nat, f|exists (S i), g]; (split_and!; [done|done|f_equal; lia]). }
  case_decide as Hf; rewrite ?fmap_cons; cbn [fst length]; (split_and!; [|intros s; rewrite Hs, ?elem_of_cons, Hin|lia]).
  - constructor; [|done]. rewrite Hin. intros (i & g & _ & _ & E). lia.
  - naive_solver.
  - done.
  - split; [naive_solver|]. intros [[? _]|?]; [lia|done].
Qed.

Definition good_lengths (F L : list Z) (M : Z) : Prop :=
  length L = length F ∧ Forall (λ l, 0 ≤ l ≤ M) L ∧ kraft L ∧
  (∀ s f, F !! s = Some f → 0 < f → ∃ l, L !! s = Some l ∧ 1 ≤ l) ∧
  (∀ s, F !! s = Some 0 → (2 ≤ s)%nat → L !! s = Some 0).

Lemma single_lengths F M s f0 :
  (2 ≤ length F)%nat → 1 ≤ M → F !! s = Some f0 → 0 < f0 → (∀ i f, F !! i = Some f → 0 < f → i = s) →
  ∃ L, (lengths <-! store (replicate (length F) 0) (Z.of_nat s) 1; store lengths (if Z.of_nat s =? 0 then 1 else 0) 1) = Ret L ∧ good_lengths F L M.
Proof.
  intros Hn HM HF Hf0 Hone. pose proof (lookup_lt_Some _ _ _ HF) as Hs. rewrite store_ok by (unfold len; rewrite length_replicate; lia). cbn [outcome_bind]. rewrite Nat2Z.id.
  set (k := if Z.of_nat s =? 0 then 1 else 0). assert (0 ≤ k < 2 ∧ Z.to_nat k ≠ s) as [Hk Hne] by (subst k; destruct (Z.eqb_spec (Z.of_nat s) 0); lia). clearbody k.
  rewrite store_ok by (unfold len; rewrite length_insert, length_replicate; lia). eexists. split; [done|].
  assert (replicate (length F) 0 !! s = Some 0) as E1 by (by apply lookup_replicate_2).
  assert (<[s:=1]> (replicate (length F) 0) !! Z.to_nat k = Some 0) as E2 by (rewrite list_lookup_insert_ne by done; apply lookup_replicate_2; lia).
  split_and!.
  - by rewrite !length_insert, length_replicate.
  - apply Forall_insert; [|lia]. apply Forall_insert; [|lia]. apply Forall_replicate. lia.
  - unfold kraft. rewrite (sum_of_insert _ _ _ 0 1 E2), (sum_of_insert _ _ _ 0 1 E1), sum_of_zero by (by apply Forall_replicate). done.
  - intros i f Hi Hf. rewrite (Hone i f Hi Hf). exists 1. split; [|done]. rewrite list_lookup_insert_ne, list_lookup_insert_eq by (done || rewrite length_replicate; lia). done.
  - intros i Hi H2. pose proof (lookup_lt_Some _ _ _ Hi). rewrite list_lookup_insert_ne by lia. destruct (decide (s = i)) as [->|].
    + rewrite HF in Hi. simplify_eq.
    + rewrite list_lookup_insert_ne by done. apply lookup_replicate_2. lia.
Qed.

Lemma limited_lengths_spec F M :
  Forall (λ f, 0 ≤ f) F → (2 ≤ length F)%nat → (length F ≤ 2 ^ Z.to_nat M)%nat → 1 ≤ M ≤ 15 →
  ∃ L, length_limited_huffman F M = Ret L ∧ good_lengths F L M.
Proof.
  intros HF Hn HnM HM. unfold length_limited_huffman. destruct (occurring_from 0 F) as (Hnd & Hin & Hlen). cbn zeta in *.
  fold (enumerate F) in Hnd, Hin, Hlen. set (S := _ <$> filter _ (enumerate F)) in *. destruct S as [|s1 [|s2 S']] eqn:ES.
  - eexists. split; [done|]. split_and!.
    + by rewrite length_replicate.
    + apply Forall_replicate. lia.
    + unfold kraft. rewrite sum_of_zero by (by apply Forall_replicate). done.
    + intros s f Hs Hf. assert (Z.of_nat (0 + s) ∈ @nil Z) as H%elem_of_nil by (apply Hin; eauto). done.
    + intros s Hs _. apply lookup_replicate_2. by eapply lookup_lt_Some.
  - destruct (proj1 (Hin s1) ltac:(by left)) as (i & f & Hi & Hf & ->). cbn [Nat.add] in *. apply (single_lengths F M i f); try done; [lia|].
    intros j g Hj Hg. assert (Z.of_nat (0 + j) ∈ [Z.of_nat i]) as H%list_elem_of_singleton by (apply Hin; eauto). lia.
  - rewrite <-ES in *. clearbody S. set (freq := λ s, default 0 (F !! Z.to_nat s)). set (syms := sort_by_key freq S).
    assert (syms ≡ₚ S) as Hperm by apply sort_perm. assert (NoDup syms) as Hnd' by (by rewrite Hperm). assert (length syms = length S) as El by (by rewrite Hperm).
    destruct (package_merge_spec syms Hnd' freq M) as (Hc & Hz & Hk); [rewrite El, ES; simpl; lia|lia|lia|].
    rewrite El in Hc, Hz, Hk. set (occ := taken _ _) in *. match goal with |- context [for_each bump32 ?o _] => change o with occ end.
    clearbody occ. assert (∀ s, s ∈ syms ↔ s ∈ S) as Hin' by (intros s; by rewrite Hperm).
    assert (∀ s, 0 ≤ tally occ s ≤ M) as Hb.
    { intros s. destruct (decide (s ∈ syms)) as [H|H]; [specialize (Hc s H); lia|rewrite Hz by done; lia]. }
    rewrite replicate_seq, count_occurrences; [|apply Forall_forall; intros s Hs|intros k _; pose proof (Hb (Z.of_nat k)); cbv beta; lia].
    2: { destruct (decide (s ∈ syms)) as [H|H].
         - apply Hin', Hin in H as (i & f & Hi & _ & ->). apply lookup_lt_Some in Hi. lia.
         - exfalso. apply Hz in H. apply list_elem_of_split in Hs as (l1 & l2 & ->). rewrite tally_app, tally_cons, bool_decide_true in H by done.
           pose proof (tally_nonneg l1 s). pose proof (tally_nonneg l2 s). lia. }
    cbn [outcome_bind]. eexists. split; [done|].
    assert (as_u8 <$> ((λ k, 0 + tally occ (Z.of_nat k)) <$> seq 0 (length F)) = (λ k, tally occ (Z.of_nat k)) <$> seq 0 (length F)) as ->.
    { rewrite <-list_fmap_compose. apply seq_ext. intros k _. cbn. unfold as_u8. pose proof (Hb (Z.of_nat k)). rewrite Z.mod_small; lia. }
    assert (∀ s, (s < length F)%nat → ((λ k, tally occ (Z.of_nat k)) <$> seq 0 (length F)) !! s = Some (tally occ (Z.of_nat s))) as Hl.
    { intros s Hs. by rewrite list_lookup_fmap, lookup_seq_lt. }
    split_and!.
    + by rewrite length_fmap, length_seq.
    + apply Forall_fmap, Forall_true. intros k. apply Hb.
    + unfold kraft. rewrite sum_of_fmap.
      rewrite <-(sum_of_fmap Z.of_nat (λ k, share (tally occ k))).
      rewrite <-(sum_of_filter (λ k, k ∈ syms)) by (intros x _ Hx; by rewrite Hz).
      rewrite (sum_of_perm _ _ syms).
      * rewrite (sum_of_ext _ (λ s, 2 ^ (15 - M) * 2 ^ (M - tally occ s))).
        { rewrite sum_of_scale. replace (2 ^ 15) with (2 ^ (15 - M) * 2 ^ M) by (rewrite <-Z.pow_add_r by lia; f_equal; lia). apply Z.mul_le_mono_nonneg_l; [apply Z.pow_nonneg; lia|done]. }
        apply Forall_forall. intros s Hs. specialize (Hc s Hs). unfold share. rewrite (proj2 (Z.eqb_neq _ _)) by lia. rewrite <-Z.pow_add_r by lia. f_equal. lia.
      * apply NoDup_Permutation; [apply NoDup_filter, NoDup_fmap_2; [apply _|apply NoDup_seq]|done|]. intros s. rewrite list_elem_of_filter, list_elem_of_fmap.
        split; [by intros [? _]|]. intros Hs. split; [done|]. apply Hin', Hin in Hs as (i & f & Hi & _ & ->). exists i. split; [done|]. apply elem_of_seq. apply lookup_lt_Some in Hi. lia.
    + intros s f Hs Hf. pose proof (lookup_lt_Some _ _ _ Hs). exists (tally occ (Z.of_nat s)). split; [by apply Hl|]. apply Hc, Hin', Hin. by exists s, f.
    + intros s Hs _. pose proof (lookup_lt_Some _ _ _ Hs). rewrite Hl by done. f_equal. apply Hz. rewrite Hin', Hin. intros (i & f & Hi & Hf & E).
      assert (s = i) as -> by lia. rewrite Hs in Hi. simplify_eq. lia.
Qed.
