(* ===== verification/Lz77.v ===== *)
(** * Lz77: the symbols stand for the data

    [covers data i syms j]: the symbols [syms] stand for the bytes of [data] from [i] up
    to [j], where a match of length [n] at distance [d] stands for [n] bytes that equal
    those [d] places before, overlap included.  [lz77_spec]: the hash chains never lead
    outside the data, nothing panics, and the symbols found cover the data. *)

From S2P Require Import Prelude Bytes Bits Arrays Inflate Deflate.

Local Open Scope Z_scope.
Local Open Scope cruft_scope.

Definition same_bytes (data : list Z) (c i n : Z) : Prop :=
  ∀ k, 0 ≤ k < n → data !! Z.to_nat (c + k) = data !! Z.to_nat (i + k).

(** One symbol at [i], and where it ends. *)
Definition stands (data : list Z) (i : Z) (s : Sym) (j : Z) : Prop :=
  match s with
  | Lit b => data !! Z.to_nat i = Some b ∧ j = i + 1
  | Match n d => 3 ≤ n ≤ 258 ∧ 1 ≤ d ≤ 32768 ∧ d ≤ i ∧ j = i + n ∧ j ≤ len data ∧ same_bytes data (i - d) i n
  end.

Inductive covers (data : list Z) : Z → list Sym → Z → Prop :=
| covers_nil i : covers data i [] i
| covers_cons i s j syms k : stands data i s j → covers data j syms k → covers data i (s :: syms) k.

Lemma covers_snoc data i syms j s k : covers data i syms j → stands data j s k → covers data i (syms ++ [s]) k.
Proof. induction 1 as [i|i s' j' syms j Hs _ IH]; intros H; [by repeat econstructor|]. econstructor; [done|by apply IH]. Qed.

Lemma covers_le data i syms j : covers data i syms j → 0 ≤ i → i + len syms ≤ j.
Proof.
  induction 1 as [i|i s j syms k Hs _ IH]; intros Hi; [change (len (@nil Sym)) with 0; lia|].
  rewrite len_cons. destruct s as [b|n d]; cbn in Hs; destruct_and! Hs; lia.
Qed.

(** ** The chains *)

Section lz77.
Context (data : list Z) (Hlen : len data < 2147483648).

Let n := len data.

(** Every position in the chains comes before [i]. *)
Definition chains_ok (i : Z) (s : chains) : Prop :=
  len s.1 = HASH_SIZE ∧ len s.2 = n ∧ Forall (λ p, -1 ≤ p < i) s.1 ∧ Forall (λ p, -1 ≤ p < i) s.2.

Lemma chains_mono i j s : i ≤ j → chains_ok i s → chains_ok j s.
Proof using.
  intros Hij (H1 & H2 & H3 & H4). split_and!; [done|done|..]; (eapply Forall_impl; [eassumption|]); intros x Hx; cbv beta in *; lia.
Qed.

Lemma hash3_ok i : 0 ≤ i → i + 3 ≤ n → ∃ h, hash3 data i = Ret h ∧ 0 ≤ h < HASH_SIZE.
Proof using.
  intros Hi Hn. subst n. unfold hash3. destruct (index_total data i) as (a & -> & _); [lia|].
  destruct (index_total data (i + 1)) as (b & -> & _); [lia|]. destruct (index_total data (i + 2)) as (c & -> & _); [lia|].
  cbn [outcome_bind]. eexists. split; [done|]. change (HASH_SIZE - 1) with (2 ^ 15 - 1). rewrite land_low by lia.
  apply (Z.mod_pos_bound _ (2 ^ 15)). lia.
Qed.

Lemma insert_hash_ok i s : 0 ≤ i < n → chains_ok i s → ∃ s', insert_hash data i s = Ret s' ∧ chains_ok (i + 1) s'.
Proof using Hlen.
  intros Hi Hs. destruct s as [head prev]. unfold insert_hash, MIN_MATCH. fold n. destruct (Z.leb_spec (i + 3) n) as [H3|H3].
  2: { eexists. split; [done|]. apply (chains_mono i); [lia|done]. }
  destruct (hash3_ok i) as (h & -> & Hh); [lia..|]. cbn [outcome_bind]. destruct Hs as (H1 & H2 & Hf1 & Hf2). cbn [fst snd] in *.
  destruct (index_total head h) as (p & -> & Hp); [lia|]. cbn [outcome_bind]. rewrite store_ok by lia. cbn [outcome_bind].
  rewrite store_ok by lia. cbn [outcome_bind]. eexists. split; [done|]. rewrite i32_id by (unfold is_i32; subst n; lia).
  assert (∀ l, Forall (λ p, -1 ≤ p < i) l → Forall (λ p, -1 ≤ p < i + 1) l) as Hm by (intros l Hl; eapply Forall_impl; [exact Hl|]; intros x Hx; cbv beta in *; lia).
  split_and!; cbn [fst snd]; [by unfold len in *; rewrite length_insert..|apply Forall_insert; [by apply Hm|lia]|].
  apply Forall_insert; [by apply Hm|]. pose proof (Forall_lookup_1 _ _ _ _ Hf1 Hp) as Hpp. cbv beta in Hpp. lia.
Qed.

Lemma insert_range_ok k : ∀ i s, 0 ≤ i → i + Z.of_nat k ≤ n → chains_ok i s →
  ∃ s', insert_range k data i s = Ret s' ∧ chains_ok (i + Z.of_nat k) s'.
Proof using Hlen.
  induction k as [|k IH]; intros i s Hi Hk Hs; cbn [insert_range]; [exists s; by rewrite Z.add_0_r|].
  destruct (insert_hash_ok i s) as (s1 & -> & Hs1); [lia|done|]. cbn [outcome_bind].
  destruct (IH (i + 1) s1) as (s2 & -> & Hs2); [lia|lia|done|]. exists s2. split; [done|].
  by replace (i + Z.of_nat (S k)) with (i + 1 + Z.of_nat k) by lia.
Qed.

(** ** The search *)

Lemma match_len_ok m : ∀ c i l, 0 ≤ c < i → 0 ≤ l → i + l + Z.of_nat m ≤ n → same_bytes data c i l →
  ∃ r, match_len m data c i l = Ret r ∧ l ≤ r ≤ l + Z.of_nat m ∧ same_bytes data c i r.
Proof using.
  induction m as [|m IH]; intros c i l Hc Hl Hm Hs; cbn [match_len]; [exists l; split_and!; (done || lia)|].
  subst n. destruct (index_total data (c + l)) as (x & -> & Hx); [lia|]. destruct (index_total data (i + l)) as (y & -> & Hy); [lia|].
  cbn [outcome_bind]. destruct (Z.eqb_spec x y) as [->|Hne]; [|exists l; split_and!; (done || lia)].
  destruct (IH c i (l + 1)) as (r & -> & Hr & Hsr); [lia|lia|lia| |exists r; split_and!; (done || lia)].
  intros k Hk. destruct (decide (k = l)) as [->|]; [by rewrite Hx, Hy|apply Hs; lia].
Qed.

(** What the best match so far is worth. *)
Definition best_ok (i max_len bl bd : Z) : Prop :=
  0 ≤ bl ≤ max_len ∧ (0 < bl → 1 ≤ bd ≤ 32768 ∧ bd ≤ i ∧ same_bytes data (i - bd) i bl).

Lemma search_chain_ok chain : ∀ prev i max_len cand bl bd,
  len prev = n → Forall (λ p, -1 ≤ p < i) prev → -1 ≤ cand < i → 0 < max_len → i + max_len ≤ n →
  best_ok i max_len bl bd → bl < max_len →
  ∃ bl' bd', search_chain chain data prev i max_len cand bl bd = Ret (bl', bd') ∧ best_ok i max_len bl' bd'.
Proof using.
  induction chain as [|chain IH]; intros prev i max_len cand bl bd Hp Hf Hc Hm Hn Hb Hlt; cbn [search_chain]; [by exists bl, bd|].
  destruct (Z.leb_spec 0 cand) as [H0|H0]; [|by exists bl, bd]. unfold WSIZE. destruct (Z.ltb_spec 32768 (i - cand)) as [Hw|Hw]; [by exists bl, bd|].
  destruct Hb as [Hb1 Hb2]. assert (∃ p, promising data cand i bl = Ret p) as (p & ->).
  { unfold promising. destruct (bl =? 0); [by eexists|]. subst n. destruct (index_total data (cand + bl)) as (x & -> & _); [lia|].
    destruct (index_total data (i + bl)) as (y & -> & _); [lia|]. by eexists. }
  cbn [outcome_bind]. assert (∃ l, (if p then match_len (Z.to_nat max_len) data cand i 0 else Ret 0) = Ret l ∧ 0 ≤ l ≤ max_len ∧ same_bytes data cand i l) as (l & -> & Hl & Hs).
  { destruct p; [|exists 0; split_and!; [done|lia|lia|intros k Hk; lia]].
    destruct (match_len_ok (Z.to_nat max_len) cand i 0) as (r & -> & Hr & Hs); [lia|lia|lia|intros k Hk; lia|]. exists r. split_and!; (done || lia). }
  cbn [outcome_bind]. destruct (index_total prev cand) as (q & Eq & Hq); [lia|]. pose proof (Forall_lookup_1 _ _ _ _ Hf Hq) as Hq'. cbv beta in Hq'. rewrite Eq.
  assert (best_ok i max_len l (i - cand)) as Hb'.
  { split; [lia|]. intros _. split_and!; [lia..|]. by replace (i - (i - cand)) with cand by lia. }
  destruct (p && (bl <? l)) eqn:E; cbn [outcome_bind].
  - destruct (Z.leb_spec max_len l); [by exists l, (i - cand)|]. apply IH; (done || lia).
  - apply IH; try done; lia.
Qed.

Lemma find_match_ok i s : 0 ≤ i < n → chains_ok i s →
  ∃ bl bd, find_match data i s = Ret (bl, bd) ∧ best_ok i (Z.min 258 (n - i)) bl bd.
Proof using.
  intros Hi (H1 & H2 & Hf1 & Hf2). unfold find_match, MIN_MATCH, MAX_MATCH. fold n. destruct (Z.leb_spec (i + 3) n) as [H3|H3].
  2: { exists 0, 0. split; [done|]. split; lia. }
  destruct (hash3_ok i) as (h & -> & Hh); [lia..|]. cbn [outcome_bind]. destruct (index_total s.1 h) as (c & -> & Hc); [lia|]. cbn [outcome_bind].
  pose proof (Forall_lookup_1 _ _ _ _ Hf1 Hc) as Hc'. cbv beta in Hc'. apply search_chain_ok; try done; try lia. split; lia.
Qed.

Lemma lz77_loop_ok fuel : ∀ i s syms,
  0 ≤ i ≤ n → n - i ≤ Z.of_nat fuel → chains_ok i s → covers data 0 syms i →
  ∃ syms', lz77_loop fuel data i s syms = Ret syms' ∧ covers data 0 syms' n.
Proof using Hlen.
  induction fuel as [|fuel IH]; intros i s syms Hi Hfuel Hs Hc; cbn [lz77_loop]; fold n.
  { rewrite (proj2 (Z.ltb_ge _ _)) by lia. replace i with n in Hc by lia. by exists syms. }
  destruct (Z.ltb_spec i n) as [Hlt|Hge]; [|replace i with n in Hc by lia; by exists syms].
  destruct (find_match_ok i s) as (bl & bd & -> & Hb1 & Hb2); [lia|done|]. cbn [outcome_bind]. unfold MIN_MATCH. destruct (Z.leb_spec 3 bl) as [H3|H3].
  - destruct (insert_range_ok (Z.to_nat bl) i s) as (s' & -> & Hs'); [lia|lia|done|]. cbn [outcome_bind]. rewrite Z2Nat.id in Hs' by lia.
    destruct Hb2 as (Hd1 & Hd2 & Hsame); [lia|]. apply IH; [lia|lia|done|]. apply (covers_snoc data 0 syms i); [done|].
    unfold as_u16. rewrite !Z.mod_small by lia. cbn. fold n. split_and!; (done || lia).
  - destruct (index_total data i) as (b & -> & Hb); [fold n; lia|]. cbn [outcome_bind].
    destruct (insert_hash_ok i s) as (s' & -> & Hs'); [lia|done|]. cbn [outcome_bind]. apply IH; [lia|lia|done|].
    by apply (covers_snoc data 0 syms i).
Qed.

End lz77.

Lemma lz77_spec data : len data < 2147483648 → ∃ syms, lz77 data = Ret syms ∧ covers data 0 syms (len data).
Proof.
  intros Hlen. pose proof (len_nonneg data) as H0. assert (∃ syms, lz77_loop (length data) data 0 (replicate (Z.to_nat HASH_SIZE) (-1), replicate (length data) (-1)) [] = Ret syms ∧
    covers data 0 syms (len data)) as G.
  { assert (0 ≤ HASH_SIZE) as HH by (vm_compute; discriminate). remember HASH_SIZE as h eqn:Eh.
    apply lz77_loop_ok; [exact Hlen|lia|unfold len; lia| |constructor]. unfold chains_ok. rewrite <-Eh. cbn [fst snd].
    split; [by apply len_replicate|]. split; [unfold len; by rewrite length_replicate|].
    split; apply Forall_replicate; lia. }
  destruct data; [exists []; split; [done|constructor]|exact G].
Qed.
