(* ===== verification/DeflateWriter.v ===== *)
(** * DeflateWriter: what the bit writer puts into the stream

    [writes f bs]: the step [f] appends the bits [bs] to what has been written, the
    counterpart of [reads].  A [PrefixCode] is a code that one side writes and the other
    reads; canonical codes whose lengths satisfy Kraft's inequality are instances
    ([canonical_prefix_code]), also when the reader sees the lengths without the zeros at
    their end. *)

From S2P Require Import Prelude Bytes Bits Arrays Inflate Deflate InflateBits HuffmanTables Lz77.

Local Open Scope Z_scope.
Local Open Scope cruft_scope.

(** ** Bits *)

Lemma lsb_bits_add n m v : lsb_bits (n + m) v = lsb_bits n v ++ lsb_bits m (v / 2 ^ Z.of_nat n).
Proof.
  revert v. induction n as [|n IH]; intros v; [by rewrite Z.pow_0_r, Z.div_1_r|]. cbn [Nat.add]. rewrite !lsb_bits_S, IH. cbn [app].
  pose proof (Z.pow_pos_nonneg 2 (Z.of_nat n)). by rewrite Z.div_div, Nat2Z.inj_succ, Z.pow_succ_r by lia.
Qed.

Lemma lsb_bits_mod n v w : v `mod` 2 ^ Z.of_nat n = w `mod` 2 ^ Z.of_nat n → lsb_bits n v = lsb_bits n w.
Proof. intros E. apply bits_val_inj; [by rewrite !lsb_bits_length|]. by rewrite !bits_val_lsb. Qed.

Lemma lsb_bits_val bs : lsb_bits (length bs) (bits_val bs) = bs.
Proof.
  apply bits_val_inj; [apply lsb_bits_length|]. rewrite bits_val_lsb. apply Z.mod_small. apply bits_val_bound.
Qed.

Lemma msb_bits_snoc n v : msb_bits (S n) v = msb_bits n (v / 2) ++ [Z.testbit v 0].
Proof.
  induction n as [|n IH]; [done|]. change (msb_bits (S (S n)) v) with (Z.testbit v (Z.of_nat (S n)) :: msb_bits (S n) v).
  rewrite IH. cbn [msb_bits app]. f_equal. rewrite <-(Z.div2_div v), Z.div2_spec, Z.shiftr_spec by lia. f_equal. lia.
Qed.

Lemma reverse_bits_spec n : ∀ c rev, 0 ≤ rev → rev * 2 ^ Z.of_nat n + 2 ^ Z.of_nat n ≤ 4294967296 →
  reverse_bits n c rev = rev * 2 ^ Z.of_nat n + bits_val (msb_bits n c).
Proof.
  induction n as [|n IH]; intros c rev Hr Hb; [cbn; lia|]. cbn [reverse_bits]. rewrite Nat2Z.inj_succ, Z.pow_succ_r in * by lia.
  pose proof (Z.pow_pos_nonneg 2 (Z.of_nat n) ltac:(lia) ltac:(lia)) as Hp.
  assert (Z.land c 1 = Z.b2z (Z.testbit c 0)) as -> by (rewrite <-(land_shiftr_1 c 0) by lia; by rewrite Z.shiftr_0_r).
  assert (Z.lor (as_u32 (Z.shiftl rev 1)) (Z.b2z (Z.testbit c 0)) = 2 * rev + Z.b2z (Z.testbit c 0)) as ->.
  { rewrite Z.shiftl_mul_pow2 by lia. unfold as_u32. rewrite Z.mod_small by nia. rewrite (lor_add_disjoint _ _ 1); [lia|lia|destruct (Z.testbit c 0); simpl; lia|].
    change (2 ^ 1) with 2. apply Z.mod_mul. lia. }
  rewrite Z.shiftr_div_pow2 by lia. change (2 ^ 1) with 2.
  rewrite IH by (destruct (Z.testbit c 0); simpl Z.b2z; nia). rewrite msb_bits_snoc, bits_val_app. unfold len. rewrite msb_bits_length.
  cbn [bits_val foldr]. lia.
Qed.

Lemma reverse_bits_word n c : (n ≤ 32)%nat → lsb_bits n (reverse_bits n c 0) = msb_bits n c.
Proof.
  intros Hn. assert (2 ^ Z.of_nat n ≤ 2 ^ 32) by (apply Z.pow_le_mono_r; lia). rewrite reverse_bits_spec by lia. rewrite Z.mul_0_l, Z.add_0_l.
  rewrite <-(msb_bits_length n c) at 1. apply lsb_bits_val.
Qed.

(** ** The writer *)

Definition written (bw : BitWriter) : list bool := stream (wout bw) ++ lsb_bits (Z.to_nat (bitcnt bw)) (bitbuf bw).

Definition writer_ok (bw : BitWriter) : Prop :=
  0 ≤ bitcnt bw < 8 ∧ 0 ≤ bitbuf bw < 2 ^ bitcnt bw ∧ bytes_ok (wout bw).

Lemma flush_bytes_spec fuel : ∀ bw,
  0 ≤ bitcnt bw < 8 * Z.of_nat fuel → 0 ≤ bitbuf bw < 2 ^ bitcnt bw → bytes_ok (wout bw) →
  writer_ok (flush_bytes fuel bw) ∧ written (flush_bytes fuel bw) = written bw.
Proof.
  induction fuel as [|fuel IH]; intros bw Hc Hb Ho; [lia|]. cbn [flush_bytes]. destruct (Z.leb_spec 8 (bitcnt bw)) as [H8|H8].
  - set (bw' := {| wout := _ |}). assert (written bw' = written bw) as <-.
    { unfold written, bw'. cbn [wout bitbuf bitcnt]. rewrite stream_app, stream_cons, <-app_assoc. f_equal. change (stream []) with (@nil bool). rewrite app_nil_r.
      replace (Z.to_nat (bitcnt bw)) with (8 + Z.to_nat (bitcnt bw - 8))%nat by lia. rewrite lsb_bits_add. f_equal; [|by rewrite Z.shiftr_div_pow2].
      apply lsb_bits_mod. change (2 ^ Z.of_nat 8) with 256. unfold as_u8. change 255 with (2 ^ 8 - 1). rewrite land_low by lia. change (2 ^ 8) with 256.
      by rewrite !Z.mod_mod by lia. }
    apply IH; cbn [bw' bitcnt bitbuf wout]; [lia| |apply Forall_app; split; [done|constructor; [apply as_u8_ok|constructor]]].
    rewrite Z.shiftr_div_pow2 by lia. split; [apply Z.div_pos; lia|]. apply Z.div_lt_upper_bound; [lia|]. rewrite <-Z.pow_add_r by lia.
    replace (8 + (bitcnt bw - 8)) with (bitcnt bw) by lia. lia.
  - split; [split_and!; (done || lia)|done].
Qed.

Lemma write_bits_spec v (n : nat) bw :
  writer_ok bw → (n ≤ 16)%nat →
  writer_ok (write_bits v (Z.of_nat n) bw) ∧ written (write_bits v (Z.of_nat n) bw) = written bw ++ lsb_bits n v.
Proof.
  intros (Hc & Hb & Ho) Hn. unfold write_bits. rewrite Z.shiftl_1_l, land_low by lia. set (u := v `mod` 2 ^ Z.of_nat n).
  pose proof (Z.pow_pos_nonneg 2 (Z.of_nat n) ltac:(lia) ltac:(lia)) as Hp. assert (0 ≤ u < 2 ^ Z.of_nat n) as Hu by (by apply Z.mod_pos_bound).
  pose proof (Z.pow_pos_nonneg 2 (bitcnt bw) ltac:(lia) ltac:(lia)) as Hp'.
  assert (2 ^ Z.of_nat n ≤ 2 ^ 16) by (apply Z.pow_le_mono_r; lia). assert (2 ^ bitcnt bw ≤ 2 ^ 7) by (apply Z.pow_le_mono_r; lia).
  change (2 ^ 16) with 65536 in *. change (2 ^ 7) with 128 in *. rewrite Z.shiftl_mul_pow2 by lia. unfold as_u32. rewrite Z.mod_small by nia.
  rewrite Z.lor_comm, (lor_add_disjoint _ _ (bitcnt bw)); [|lia|lia|apply Z.mod_mul; lia].
  set (bw1 := {| wout := wout bw; bitbuf := _; bitcnt := _ |}).
  assert (written bw1 = written bw ++ lsb_bits n v) as <-.
  { unfold written, bw1. cbn [wout bitbuf bitcnt]. rewrite <-app_assoc. f_equal. rewrite Z2Nat.inj_add, Nat2Z.id by lia. rewrite lsb_bits_add. f_equal.
    - apply lsb_bits_mod. rewrite Z2Nat.id by lia. rewrite Z.add_comm, Z.mod_add by lia. done.
    - rewrite Z2Nat.id by lia. rewrite Z.div_add_l, Z.div_small, Z.add_0_r by lia. apply lsb_bits_mod. subst u. apply Z.mod_mod. lia. }
  apply (flush_bytes_spec 4); cbn [bw1 wout bitbuf bitcnt]; [lia| |done]. rewrite Z.pow_add_r by lia. nia.
Qed.

Lemma writer_new_ok : writer_ok writer_new ∧ written writer_new = [].
Proof. split; [|done]. split_and!; [done|done|done|done|constructor]. Qed.

(** The bits of the finished stream, up to the end of the last byte. *)
Lemma finish_spec bw : writer_ok bw → ∃ pad, stream (finish bw) = written bw ++ pad.
Proof.
  intros (Hc & Hb & Ho). unfold finish. destruct (Z.ltb_spec 0 (bitcnt bw)).
  - exists (lsb_bits (8 - Z.to_nat (bitcnt bw)) (bitbuf bw / 2 ^ Z.of_nat (Z.to_nat (bitcnt bw)))). rewrite stream_app, stream_cons. change (stream []) with (@nil bool).
    rewrite app_nil_r. unfold written. rewrite <-app_assoc. f_equal. rewrite <-lsb_bits_add.
    replace (Z.to_nat (bitcnt bw) + (8 - Z.to_nat (bitcnt bw)))%nat with 8%nat by lia. apply lsb_bits_mod. change (2 ^ Z.of_nat 8) with 256.
    unfold as_u8. change 255 with (2 ^ 8 - 1). rewrite land_low by lia. change (2 ^ 8) with 256. by rewrite !Z.mod_mod by lia.
  - exists []. unfold written. replace (bitcnt bw) with 0 by lia. by rewrite !app_nil_r.
Qed.

(** ** Steps that write given bits *)

Definition writes (f : BitWriter → outcome BitWriter) (bs : list bool) : Prop :=
  ∀ bw, writer_ok bw → ∃ bw', f bw = Ret bw' ∧ writer_ok bw' ∧ written bw' = written bw ++ bs.

Lemma writes_then f g bs cs : writes f bs → writes g cs → writes (λ bw, bw' <-! f bw; g bw') (bs ++ cs).
Proof.
  intros Hf Hg bw Hok. destruct (Hf bw Hok) as (b1 & -> & Hok1 & E1). cbn [outcome_bind]. destruct (Hg b1 Hok1) as (b2 & -> & Hok2 & E2).
  exists b2. split_and!; [done|done|]. by rewrite E2, E1, app_assoc.
Qed.

Lemma writes_pure (g : BitWriter → BitWriter) bs :
  (∀ bw, writer_ok bw → writer_ok (g bw) ∧ written (g bw) = written bw ++ bs) → writes (λ bw, Ret (g bw)) bs.
Proof. intros Hg bw Hok. destruct (Hg bw Hok). by eexists. Qed.

Lemma writes_bits v (n : nat) z : z = Z.of_nat n → (n ≤ 16)%nat → writes (λ bw, Ret (write_bits v z bw)) (lsb_bits n v).
Proof. intros -> Hn. apply writes_pure. intros bw Hok. by apply write_bits_spec. Qed.

Lemma writes_extra v (n : nat) z : z = Z.of_nat n → (n ≤ 16)%nat → writes (λ bw, Ret (write_extra v z bw)) (lsb_bits n v).
Proof.
  intros -> Hn. apply writes_pure. intros bw Hok. unfold write_extra. destruct (Z.ltb_spec 0 (Z.of_nat n)); [by apply write_bits_spec|].
  replace n with 0%nat by lia. change (lsb_bits 0 v) with (@nil bool). by rewrite app_nil_r.
Qed.

Lemma writes_for_each {A} (f : A → BitWriter → outcome BitWriter) (g : A → list bool) l :
  (∀ a, a ∈ l → writes (f a) (g a)) → writes (for_each f l) (l ≫= g).
Proof.
  induction l as [|a l IH]; intros Hf; [intros bw Hok; exists bw; split_and!; [done|done|by rewrite app_nil_r]|].
  cbn [for_each mbind list_bind]. apply (writes_then (f a)); [apply Hf; by left|]. apply IH. intros b Hb. apply Hf. by right.
Qed.

(** ** Prefix codes *)

(** A code with words for the symbols in [used]: written through [codes] and [lens], read
    through [t]. *)
Class PrefixCode (codes lens : list Z) (t : HuffmanTable) (used : Z → Prop) (word : Z → list bool) : Prop := {
  word_written s : used s → writes (write_sym codes lens s) (word s);
  word_read s : used s → reads (decode t) (word s) s;
  word_nonempty s : used s → (1 ≤ length (word s))%nat;
}.

Definition length_at (L : list Z) (s : Z) : Z := default 0 (L !! Z.to_nat s).
Definition canonical_word (L : list Z) (s : Z) : list bool :=
  msb_bits (Z.to_nat (length_at L s)) (code_of L (Z.to_nat s) (length_at L s)).
Definition has_word (L : list Z) (s : Z) : Prop := 0 ≤ s ∧ 1 ≤ length_at L s.

Lemma has_word_lookup L s : has_word L s → L !! Z.to_nat s = Some (length_at L s) ∧ (Z.to_nat s < length L)%nat.
Proof.
  intros [Hs Hl]. unfold length_at in *. destruct (L !! Z.to_nat s) eqn:E; cbn in *; [|lia]. split; [done|]. by eapply lookup_lt_Some.
Qed.

(** Zeros at the end change neither the words nor the counts. *)
Lemma tally_trailing K Z0 l : Forall (λ x, x = 0) Z0 → 1 ≤ l → tally (K ++ Z0) l = tally K l.
Proof.
  intros HZ Hl. rewrite tally_app. enough (tally Z0 l = 0) by lia. induction HZ as [|x Z0 -> _ IH]; [done|].
  rewrite tally_cons, bool_decide_false by lia. lia.
Qed.

Lemma code_of_trailing K Z0 s l : Forall (λ x, x = 0) Z0 → (s ≤ length K)%nat → code_of (K ++ Z0) s l = code_of K s l.
Proof.
  intros HZ Hs. unfold code_of, rank. rewrite take_app_le by done. f_equal.
  assert (∀ k, cnt (K ++ Z0) k = cnt K k) as Hc by (intros [|k]; [done|]; apply tally_trailing; [done|lia]).
  induction (Z.to_nat l) as [|k IH]; [done|]. cbn [first]. by rewrite IH, Hc.
Qed.

Lemma canonical_prefix_code K Z0 codes t :
  Forall (λ x, x = 0) Z0 → lengths_ok (K ++ Z0) → kraft (K ++ Z0) → table_of K t → numbered (K ++ Z0) codes →
  PrefixCode codes (K ++ Z0) t (has_word K) (canonical_word K).
Proof.
  intros HZ HL HK Ht [Hn Hc]. assert (kraft K) as HK'.
  { unfold kraft in *. rewrite sum_of_app in HK. enough (sum_of share Z0 = 0) by lia. clear -HZ. induction HZ as [|x l -> _ IH]; [done|]. by rewrite sum_of_cons, IH. }
  assert (∀ s, has_word K s → (K ++ Z0) !! Z.to_nat s = Some (length_at K s) ∧ code_of (K ++ Z0) (Z.to_nat s) (length_at K s) = code_of K (Z.to_nat s) (length_at K s)
     ∧ 1 ≤ length_at K s < 16) as Hw.
  { intros s Hs. destruct (has_word_lookup K s Hs) as [E Hlt]. assert ((K ++ Z0) !! Z.to_nat s = Some (length_at K s)) as E' by (by apply lookup_app_l_Some).
    pose proof (Forall_lookup_1 _ _ _ _ (proj1 HL) E'). destruct Hs. split_and!; [done|apply code_of_trailing; [done|lia]|lia|cbv beta in *; lia]. }
  split.
  - intros s Hs. destruct (Hw s Hs) as (E & Ec & Hl). destruct Hs as [H0 _]. intros bw Hok. unfold write_sym.
    rewrite (index_ok codes s (code_of K (Z.to_nat s) (length_at K s))) by (done || (rewrite <-Ec; apply Hc; [done|lia])).
    rewrite (index_ok (K ++ Z0) s (length_at K s)) by done. cbn [outcome_bind]. eexists. split; [done|].
    unfold write_huff. rewrite (proj2 (Z.eqb_neq _ _)) by lia. unfold canonical_word.
    rewrite <-reverse_bits_word by lia. set (v := reverse_bits _ _ _). pose proof (write_bits_spec v (Z.to_nat (length_at K s)) bw Hok ltac:(lia)) as H. by rewrite Z2Nat.id in H by lia.
  - intros s Hs. destruct (has_word_lookup K s Hs) as [E _]. destruct Hs as [H0 Hl].
    pose proof (reads_code K t (Z.to_nat s) (length_at K s) Ht HK' E Hl) as H. by rewrite Z2Nat.id in H by done.
  - intros s Hs. unfold canonical_word. rewrite msb_bits_length. destruct Hs. lia.
Qed.

(** ** A block of symbols is read back

    For any two prefix codes, the symbols of [lz77] written by [emit_symbols] are read by
    [decompress_block] as the bytes they stand for ([reads_block]). *)

(** ** Symbols of lengths and distances *)

(** A property of the numbers from [z] on, checked one by one. *)
Fixpoint all_from (P : Z → bool) (n : nat) (z : Z) : bool :=
  match n with O => true | S n' => P z && all_from P n' (z + 1) end.

Lemma all_from_spec P n : ∀ z v, all_from P n z = true → z ≤ v < z + Z.of_nat n → P v = true.
Proof.
  induction n as [|n IH]; intros z v H Hv; [lia|]. cbn in H. apply andb_prop in H as [H1 H2].
  destruct (decide (v = z)) as [->|]; [done|]. apply (IH (z + 1)); [done|lia].
Qed.

Lemma range_check P lo hi : all_from P (Z.to_nat (hi - lo + 1)) lo = true → ∀ v, lo ≤ v ≤ hi → P v = true.
Proof. intros H v Hv. eapply (all_from_spec P); [exact H|lia]. Qed.

(** The symbol of a value: its base and extra bits make the value. *)
Definition symbol_for (base extra : list Z) (shift v : Z) (r : outcome (Z * Z * Z)) : bool :=
  match r with
  | Ret (sym, x, e) =>
      match index base (sym - shift), index extra (sym - shift) with
      | Ret b, Ret e' => (shift <=? sym) && (e =? e') && (b + x =? v) && (0 <=? x) && (x <? 2 ^ e) && (0 <=? e) && (e <=? 13)
      | _, _ => false
      end
  | Panic => false
  end.

Definition symbol_spec (base extra : list Z) (shift v : Z) (r : outcome (Z * Z * Z)) : Prop :=
  ∃ sym x (e : nat) b, r = Ret (sym, x, Z.of_nat e) ∧ index base (sym - shift) = Ret b ∧ index extra (sym - shift) = Ret (Z.of_nat e) ∧
    shift ≤ sym ∧ b + x = v ∧ 0 ≤ x < 2 ^ Z.of_nat e ∧ (e ≤ 13)%nat.

Lemma symbol_for_spec base extra shift v r : symbol_for base extra shift v r = true → symbol_spec base extra shift v r.
Proof.
  unfold symbol_for, symbol_spec. destruct r as [[[sym x] e]|]; [|done]. destruct (index base (sym - shift)) as [b|] eqn:Eb; [|done].
  destruct (index extra (sym - shift)) as [e'|] eqn:Ee; [|done]. rewrite !andb_true_iff, !Z.leb_le, !Z.eqb_eq, Z.ltb_lt. intros H. destruct_and! H. subst e'.
  exists sym, x, (Z.to_nat e), b. rewrite Z2Nat.id by lia. split_and!; (done || lia).
Qed.

Lemma length_sym_spec n : 3 ≤ n ≤ 258 → symbol_spec LENGTH_BASE LENGTH_EXTRA 257 n (length_sym n).
Proof.
  intros Hn. apply symbol_for_spec. revert n Hn. apply (range_check (λ n, symbol_for LENGTH_BASE LENGTH_EXTRA 257 n (length_sym n))).
  vm_compute. reflexivity.
Qed.

Lemma dist_sym_spec d : 1 ≤ d ≤ 32768 → symbol_spec DISTANCE_BASE DISTANCE_EXTRA 0 d (dist_sym d).
Proof.
  intros Hd. apply symbol_for_spec. revert d Hd. apply (range_check (λ d, symbol_for DISTANCE_BASE DISTANCE_EXTRA 0 d (dist_sym d))).
  vm_compute. reflexivity.
Qed.

(** ** The bits of a symbol *)

Definition sym_value (r : outcome (Z * Z * Z)) : Z * Z * Z := match r with Ret p => p | Panic => (0, 0, 0) end.

(** The symbols of the two codes that [s] uses. *)
Definition lit_symbol (s : Sym) : Z := match s with Lit b => b | Match n _ => (sym_value (length_sym n)).1.1 end.
Definition dist_symbols (s : Sym) : list Z := match s with Lit _ => [] | Match _ d => [(sym_value (dist_sym d)).1.1] end.

Section block.
Context (ll_codes ll_lens d_codes d_lens : list Z) (lit dist : HuffmanTable) (lused dused : Z → Prop) (lword dword : Z → list bool).
Context `{!PrefixCode ll_codes ll_lens lit lused lword, !PrefixCode d_codes d_lens dist dused dword}.

Definition extra_bits (p : Z * Z * Z) : list bool := let '(_, x, e) := p in lsb_bits (Z.to_nat e) x.

Definition sym_bits (s : Sym) : list bool :=
  match s with
  | Lit b => lword b
  | Match n d =>
      (lword (lit_symbol s) ++ extra_bits (sym_value (length_sym n))) ++
      (dword (sym_value (dist_sym d)).1.1 ++ extra_bits (sym_value (dist_sym d)))
  end.

(** The symbols of [s] have words. *)
Definition sym_used (s : Sym) : Prop := lused (lit_symbol s) ∧ Forall dused (dist_symbols s).

Lemma emit_symbol_writes data i s j :
  stands data i s j → sym_used s → writes (emit_symbol ll_codes ll_lens d_codes d_lens s) (sym_bits s).
Proof using PrefixCode0 PrefixCode1.
  intros Hs [Hl Hd]. destruct s as [b|n d]; [exact (word_written b Hl)|]. destruct Hs as (Hn & Hd1 & _).
  destruct (length_sym_spec n Hn) as (lc & lx & le & lb & El & _ & _ & _ & _ & _ & Hle).
  destruct (dist_sym_spec d Hd1) as (dc & dx & de & db & Ed & _ & _ & _ & _ & _ & Hde).
  cbn [dist_symbols] in Hd. rewrite Forall_singleton in Hd. cbn [lit_symbol sym_bits] in *. rewrite El, Ed in *. cbn [sym_value fst extra_bits] in *. rewrite !Nat2Z.id.
  intros bw Hok. cbn [emit_symbol]. rewrite El, Ed. cbn [outcome_bind].
  destruct (writes_then _ _ _ _ (writes_then _ _ _ _ (word_written lc Hl) (writes_extra lx le _ eq_refl ltac:(lia)))
    (writes_then _ _ _ _ (word_written dc Hd) (writes_extra dx de _ eq_refl ltac:(lia))) bw Hok) as (bw' & E & Hw).
  exists bw'. split; [|done]. rewrite <-E. destruct (write_sym ll_codes ll_lens lc bw); done.
Qed.

Lemma emit_symbols_writes data i syms j :
  covers data i syms j → Forall sym_used syms → lused 256 →
  writes (emit_symbols syms ll_codes ll_lens d_codes d_lens) ((syms ≫= sym_bits) ++ lword 256).
Proof using PrefixCode0 PrefixCode1.
  intros Hc Hu H256. unfold emit_symbols. apply writes_then; [|by apply word_written]. apply writes_for_each. intros s Hs.
  rewrite Forall_forall in Hu. specialize (Hu s Hs). induction Hc as [|i s' j' syms k Hst _ IH]; [by apply elem_of_nil in Hs|].
  apply elem_of_cons in Hs as [->|Hs]; [by eapply emit_symbol_writes|by apply IH].
Qed.

(** ** Copying a match *)

Lemma take_snoc (l : list Z) (k : nat) x : l !! k = Some x → take k l ++ [x] = take (S k) l.
Proof. intros H. symmetry. by apply take_S_r. Qed.

Lemma copy_match_spec data max_output n : ∀ i d,
  len data ≤ max_output → 1 ≤ d ≤ i → i + Z.of_nat n ≤ len data → same_bytes data (i - d) i (Z.of_nat n) →
  copy_match n max_output (i - d) (take (Z.to_nat i) data) = Ret (Ok (take (Z.to_nat (i + Z.of_nat n)) data)).
Proof using.
  induction n as [|n IH]; intros i d Hm Hd Hn Hs; cbn [copy_match]; [by rewrite Z.add_0_r|].
  assert (∃ x, data !! Z.to_nat i = Some x) as [x Hx] by (apply lookup_lt_is_Some_2; unfold len in Hn; lia).
  pose proof (Hs 0 ltac:(lia)) as E0. rewrite !Z.add_0_r, Hx in E0.
  rewrite (index_ok _ _ x); [|lia|by rewrite lookup_take_lt by lia]. cbn [outcome_bind]. rewrite take_snoc by done.
  assert (len (take (S (Z.to_nat i)) data) ≤ max_output) as Hl by (unfold len in *; rewrite length_take; lia).
  rewrite (proj2 (Z.ltb_ge _ _)) by done. replace (S (Z.to_nat i)) with (Z.to_nat (i + 1)) by lia.
  replace (i - d + 1) with (i + 1 - d) by lia. rewrite (IH (i + 1) d) by (try lia; intros k Hk; specialize (Hs (k + 1) ltac:(lia));
    replace (i + 1 - d + k) with (i - d + (k + 1)) by lia; replace (i + 1 + k) with (i + (k + 1)) by lia; done).
  do 4 f_equal. lia.
Qed.

Lemma read_match_reads data max_output i n d :
  len data ≤ max_output → 0 ≤ i → stands data i (Match n d) (i + n) → sym_used (Match n d) →
  reads (read_match dist max_output (lit_symbol (Match n d)) (take (Z.to_nat i) data))
    (extra_bits (sym_value (length_sym n)) ++ (dword (sym_value (dist_sym d)).1.1 ++ extra_bits (sym_value (dist_sym d))))
    (take (Z.to_nat (i + n)) data).
Proof using PrefixCode1.
  intros Hm Hi (Hn & Hd & Hdi & _ & Hj & Hs) [_ Hu]. cbn [dist_symbols] in Hu. rewrite Forall_singleton in Hu. cbn [lit_symbol] in *.
  destruct (length_sym_spec n Hn) as (lc & lx & le & lb & El & Hlb & Hle & Hlc & Hln & Hlx & Hle13).
  destruct (dist_sym_spec d Hd) as (dc & dx & de & db & Ed & Hdb & Hde & Hdc & Hdd & Hdx & Hde13).
  rewrite El, Ed in *. cbn [sym_value fst extra_bits] in *. rewrite !Nat2Z.id. unfold read_match. rewrite Z.sub_0_r in *.
  pose proof (proj1 (index_inv _ _ _ Hlb)) as Hlr. pose proof (proj1 (index_inv _ _ _ Hdb)) as Hdr.
  change (len LENGTH_BASE) with 29 in Hlr. change (len DISTANCE_BASE) with 30 in Hdr. rewrite (proj2 (Z.leb_gt _ _)) by lia.
  eapply reads_nil_bind; [by apply reads_pure|]. eapply reads_nil_bind; [by apply reads_pure|]. rewrite Nat2Z.id.
  eapply reads_bind; [apply reads_bits_val; [lia|done]|]. eapply reads_bind; [by apply word_read|]. rewrite (proj2 (Z.leb_gt _ _)) by lia.
  eapply reads_nil_bind; [by apply reads_pure|]. eapply reads_nil_bind; [by apply reads_pure|]. rewrite Nat2Z.id.
  rewrite <-(app_nil_r (lsb_bits de dx)). eapply reads_bind; [apply reads_bits_val; [lia|done]|].
  assert (len (take (Z.to_nat i) data) = i) as Et by (unfold len in *; rewrite length_take; lia).
  rewrite Et, Hdd, Hln. rewrite (proj2 (Z.ltb_ge _ _)) by lia. apply reads_lift.
  rewrite copy_match_spec by (rewrite ?Z2Nat.id by lia; done || lia). by rewrite Z2Nat.id by lia.
Qed.

(** ** The block *)

Lemma block_loop_reads data max_output syms : ∀ i fuel,
  len data ≤ max_output → bytes_ok data → 0 ≤ i → covers data i syms (len data) → Forall sym_used syms → lused 256 → (length syms < fuel)%nat →
  reads (block_loop fuel lit dist max_output (take (Z.to_nat i) data)) ((syms ≫= sym_bits) ++ lword 256) data.
Proof using PrefixCode0 PrefixCode1.
  induction syms as [|s syms IH]; intros i fuel Hm Hbytes Hi Hc Hu H256 Hf; (destruct fuel as [|fuel]; [simpl in Hf; lia|]); cbn [block_loop];
    (rewrite (proj2 (Z.ltb_ge _ _)) by (unfold len in *; rewrite length_take; lia)).
  - inversion_clear Hc. cbn [mbind list_bind app]. rewrite <-(app_nil_r (lword 256)). eapply reads_bind; [by apply word_read|].
    change (256 <? 256) with false. change (256 =? 256) with true. cbn match. unfold len. rewrite Nat2Z.id, firstn_all. apply reads_ret.
  - inversion Hc as [|? ? j ? ? Hs Hc']. subst. apply Forall_cons in Hu as [Hus Hu]. cbn [mbind list_bind]. rewrite <-app_assoc.
    assert (length syms < fuel)%nat as Hf' by (simpl in Hf; lia). destruct s as [b|n d].
    + destruct Hs as [Hb ->]. pose proof (Forall_lookup_1 _ _ _ _ Hbytes Hb) as Hb8. unfold is_u8 in Hb8. cbn [sym_bits]. eapply reads_bind; [exact (word_read b (proj1 Hus))|].
      rewrite (proj2 (Z.ltb_lt _ _)) by apply Hb8. rewrite as_u8_id by done. rewrite take_snoc by done.
      replace (S (Z.to_nat i)) with (Z.to_nat (i + 1)) by lia. apply IH; try done; lia.
    + pose proof Hs as (Hn & _ & _ & -> & _). destruct (length_sym_spec n Hn) as (lc & lx & le & lb & El & Hlb & _ & Hlc & _).
      cbn [sym_bits]. rewrite <- !app_assoc. eapply reads_bind; [exact (word_read _ (proj1 Hus))|].
      assert (257 ≤ lit_symbol (Match n d)) as Hl by (cbn [lit_symbol]; rewrite El; exact Hlc).
      rewrite (proj2 (Z.ltb_ge _ _)), (proj2 (Z.eqb_neq _ _)) by lia. rewrite (app_assoc (dword _)), (app_assoc (extra_bits _)). eapply reads_bind.
      * exact (read_match_reads data max_output i n d Hm Hi Hs Hus).
      * apply IH; try done; lia.
Qed.

Lemma sym_bits_length syms : Forall sym_used syms → (length syms ≤ length (syms ≫= sym_bits))%nat.
Proof using PrefixCode0.
  induction 1 as [|s syms [Hl _] _ IH]; [done|]. cbn [mbind list_bind length]. rewrite length_app.
  pose proof (word_nonempty (lit_symbol s) Hl). destruct s; cbn [sym_bits lit_symbol] in *; rewrite ?length_app; cbn in IH; lia.
Qed.

Lemma reads_block data max_output syms :
  len data ≤ max_output → bytes_ok data → covers data 0 syms (len data) → Forall sym_used syms → lused 256 →
  reads (decompress_block [] lit dist max_output) ((syms ≫= sym_bits) ++ lword 256) data.
Proof using PrefixCode0 PrefixCode1.
  intros Hm Hb Hc Hu H256 br r Hok E. unfold decompress_block.
  apply (block_loop_reads data max_output syms 0 _) with (r := r); try done.
  assert (bits_left br = length (rest br)) as -> by (by rewrite rest_length). rewrite E, !length_app. pose proof (sym_bits_length syms Hu). lia.
Qed.
End block.
