(* ===== verification/DeflateHeader.v ===== *)
(** * DeflateHeader: the header of a dynamic block is read back

    The run-length codes of the code lengths ([rle_decodes]), the lengths of the code for
    them in their odd order ([reads_code_lengths]), and the counts that cut zeros off the
    end ([trim_spec]); then the whole of what the encoder writes. *)

From S2P Require Import Prelude Bytes Bits Arrays Inflate Deflate InflateBits HuffmanTables PackageMerge Lz77 DeflateWriter.

Local Open Scope Z_scope.
Local Open Scope cruft_scope.

(** ** Run-length codes *)

(** The lengths a code stands for after the lengths [P]. *)
Definition rle_values (P : list Z) (e : rle) : list Z :=
  let '(sym, extra, _) := e in
  if sym <=? 15 then [sym]
  else if sym =? 16 then replicate (Z.to_nat (extra + 3)) (default 0 (last P))
  else if sym =? 17 then replicate (Z.to_nat (extra + 3)) 0
  else replicate (Z.to_nat (extra + 11)) 0.

Definition rle_ok (P : list Z) (e : rle) : Prop :=
  let '(sym, extra, ebits) := e in
  (0 ≤ sym ≤ 15 ∧ extra = 0 ∧ ebits = 0) ∨ (sym = 16 ∧ 0 ≤ extra < 4 ∧ ebits = 2 ∧ P ≠ []) ∨
  (sym = 17 ∧ 0 ≤ extra < 8 ∧ ebits = 3) ∨ (sym = 18 ∧ 0 ≤ extra < 128 ∧ ebits = 7).

(** The codes [es] turn the lengths [P] into [Q]. *)
Inductive decodes : list Z → list rle → list Z → Prop :=
| decodes_nil P : decodes P [] P
| decodes_cons P e es Q : rle_ok P e → decodes (P ++ rle_values P e) es Q → decodes P (e :: es) Q.

Lemma decodes_app P es Q fs R : decodes P es Q → decodes Q fs R → decodes P (es ++ fs) R.
Proof. induction 1; intros H2; [done|]. econstructor; [done|by auto]. Qed.

Lemma decodes_one P e Q : rle_ok P e → Q = P ++ rle_values P e → decodes P [e] Q.
Proof. intros H ->. econstructor; [done|constructor]. Qed.

Lemma rle_values_length P e : rle_ok P e → (1 ≤ length (rle_values P e))%nat.
Proof.
  destruct e as [[sym extra] ebits]. unfold rle_ok, rle_values. intros H.
  destruct (Z.leb_spec sym 15); [simpl; lia|]. destruct (Z.eqb_spec sym 16); [rewrite length_replicate; lia|].
  destruct (Z.eqb_spec sym 17); rewrite length_replicate; lia.
Qed.

Lemma decodes_length P es Q : decodes P es Q → (length P + length es ≤ length Q)%nat.
Proof.
  induction 1 as [|P e es Q He _ IH]; [simpl; lia|]. rewrite length_app in IH. pose proof (rle_values_length P e He). cbn [length]. lia.
Qed.

(** Repeating a value. *)
Lemma decodes_replicate v P n : 0 ≤ v ≤ 15 → decodes P (replicate n (v, 0, 0)) (P ++ replicate n v).
Proof.
  intros Hv. revert P. induction n as [|n IH]; intros P; [rewrite app_nil_r; constructor|]. cbn [replicate]. econstructor; [by left|].
  unfold rle_values. rewrite (proj2 (Z.leb_le _ _)) by lia. specialize (IH (P ++ [v])). by rewrite <-app_assoc in IH.
Qed.

(** Cutting a run into codes, where a code for [c] stands for [c] times [v]. *)
Lemma cut_run_spec (I : list Z → Prop) v sym low high ebits :
  1 ≤ low ≤ high → (∀ P c, I P → low ≤ c ≤ high → decodes P [(sym, c - low, ebits)] (P ++ replicate (Z.to_nat c) v) ∧ I (P ++ replicate (Z.to_nat c) v)) →
  ∀ fuel r P, I P → 0 ≤ r ≤ Z.of_nat fuel →
  let '(out, r') := cut_run fuel sym low high ebits r in
  0 ≤ r' ≤ r ∧ r' < low ∧ decodes P out (P ++ replicate (Z.to_nat (r - r')) v).
Proof.
  intros Hlow Hcode. induction fuel as [|fuel IH]; intros r P HI Hr; cbn [cut_run].
  { split_and!; [lia..|]. rewrite Z.sub_diag, app_nil_r. constructor. }
  destruct (Z.leb_spec low r) as [Hl|Hl]; [|split_and!; [lia..|]; rewrite Z.sub_diag, app_nil_r; constructor].
  set (c := Z.min r high). destruct (Hcode P c HI) as [Hd HI']; [lia|]. specialize (IH (r - c) _ HI' ltac:(lia)).
  destruct (cut_run fuel sym low high ebits (r - c)) as [out r']. destruct IH as (H1 & H2 & H3). split_and!; [lia..|].
  change ((sym, c - low, ebits) :: out) with ([(sym, c - low, ebits)] ++ out). eapply decodes_app; [exact Hd|].
  rewrite <-app_assoc, <-replicate_add in H3. replace (Z.to_nat c + Z.to_nat (r - c - r'))%nat with (Z.to_nat (r - r')) in H3 by lia. done.
Qed.

Lemma cut_18 P c : True → 11 ≤ c ≤ 138 → decodes P [(18, c - 11, 7)] (P ++ replicate (Z.to_nat c) 0) ∧ True.
Proof.
  intros _ Hc. split; [|done]. apply decodes_one; [do 3 right; lia|]. unfold rle_values. simpl Z.leb. simpl Z.eqb. cbn match. do 3 f_equal. lia.
Qed.

Lemma cut_17 P c : True → 3 ≤ c ≤ 10 → decodes P [(17, c - 3, 3)] (P ++ replicate (Z.to_nat c) 0) ∧ True.
Proof.
  intros _ Hc. split; [|done]. apply decodes_one; [do 2 right; left; lia|]. unfold rle_values. simpl Z.leb. simpl Z.eqb. cbn match. do 3 f_equal. lia.
Qed.

Lemma cut_16 v P c : last P = Some v → 3 ≤ c ≤ 6 →
  decodes P [(16, c - 3, 2)] (P ++ replicate (Z.to_nat c) v) ∧ last (P ++ replicate (Z.to_nat c) v) = Some v.
Proof.
  intros Hl Hc. split.
  - apply decodes_one; [right; left; split_and!; [done|lia..|done|by intros ->]|]. unfold rle_values. simpl Z.leb. simpl Z.eqb. cbn match. rewrite Hl. cbn [default]. do 2 f_equal. lia.
  - rewrite last_app. destruct (Z.to_nat c) as [|k] eqn:E; [lia|]. rewrite <-(Nat.add_1_r k), replicate_add. cbn [replicate]. by rewrite last_snoc.
Qed.

Lemma rle_run_decodes cur run P : 0 ≤ cur ≤ 15 → decodes P (rle_run cur (S run)) (P ++ replicate (S run) cur).
Proof.
  intros Hc. unfold rle_run. destruct (Z.eqb_spec cur 0) as [->|Hne].
  - pose proof (cut_run_spec (λ _, True) 0 18 11 138 7 ltac:(lia) cut_18 (S run) (Z.of_nat (S run)) P I ltac:(lia)) as H1.
    destruct (cut_run _ 18 _ _ _ _) as [big r1]. destruct H1 as (Hr1 & _ & D1).
    pose proof (cut_run_spec (λ _, True) 0 17 3 10 3 ltac:(lia) cut_17 (S run) r1 (P ++ replicate (Z.to_nat (Z.of_nat (S run) - r1)) 0) I ltac:(lia)) as H2.
    destruct (cut_run _ 17 _ _ _ _) as [small r2]. destruct H2 as (Hr2 & _ & D2).
    eapply decodes_app; [exact D1|]. eapply decodes_app; [exact D2|].
    replace (P ++ replicate (S run) 0) with (((P ++ replicate (Z.to_nat (Z.of_nat (S run) - r1)) 0) ++ replicate (Z.to_nat (r1 - r2)) 0) ++ replicate (Z.to_nat r2) 0).
    { by apply decodes_replicate. }
    rewrite <- !app_assoc, <- !replicate_add. do 2 f_equal. lia.
  - pose proof (cut_run_spec (λ Q, last Q = Some cur) cur 16 3 6 2 ltac:(lia) (cut_16 cur) (S run) (Z.of_nat (S run) - 1) (P ++ [cur]) ltac:(cbv beta; by rewrite last_snoc) ltac:(lia)) as H1.
    destruct (cut_run _ 16 _ _ _ _) as [again r1]. destruct H1 as (Hr1 & _ & D1). econstructor; [left; lia|].
    unfold rle_values. rewrite (proj2 (Z.leb_le _ _)) by lia. eapply decodes_app; [exact D1|].
    replace (P ++ replicate (S run) cur) with ((((P ++ [cur]) ++ replicate (Z.to_nat (Z.of_nat (S run) - 1 - r1)) cur) ++ replicate (Z.to_nat r1) cur)).
    { by apply decodes_replicate. }
    rewrite <- !app_assoc, <-replicate_add. change [cur] with (replicate 1 cur). rewrite <-replicate_add. do 2 f_equal. lia.
Qed.

Lemma run_length_spec cur l : replicate (run_length cur l) cur ++ drop (run_length cur l) l = l ∧ (run_length cur l ≤ length l)%nat.
Proof.
  induction l as [|x l IH]; [done|]. cbn [run_length]. destruct (Z.eqb_spec x cur) as [->|]; [|split; [done|lia]].
  destruct IH as [IH1 IH2]. cbn [replicate drop app length]. by rewrite IH1; split; [|lia].
Qed.

Lemma rle_loop_decodes fuel : ∀ l P, Forall (λ x, 0 ≤ x ≤ 15) l → (length l ≤ fuel)%nat → decodes P (rle_loop fuel l) (P ++ l).
Proof.
  induction fuel as [|fuel IH]; intros l P Hl Hf; [destruct l; simpl in Hf; [rewrite app_nil_r; constructor|lia]|].
  destruct l as [|cur l]; [rewrite app_nil_r; constructor|]. cbn [rle_loop]. destruct (run_length_spec cur l) as [E Hr].
  apply Forall_cons in Hl as [Hc Hl]. eapply decodes_app; [by apply rle_run_decodes|].
  replace (P ++ cur :: l) with ((P ++ replicate (S (run_length cur l)) cur) ++ drop (run_length cur l) l) by (rewrite <-app_assoc; cbn [replicate app]; by rewrite E).
  apply IH; [by apply Forall_drop|]. rewrite length_drop. simpl in Hf. lia.
Qed.

Lemma rle_decodes l : Forall (λ x, 0 ≤ x ≤ 15) l → decodes [] (rle_code_lengths l) l.
Proof. intros Hl. by apply (rle_loop_decodes (length l) l []). Qed.

(** ** Reading the lengths *)

Lemma store_next (P k : list Z) v x : store (P ++ x :: k) (len P) v = Ret (P ++ v :: k).
Proof.
  rewrite store_ok by (rewrite len_app, len_cons; pose proof (len_nonneg P); pose proof (len_nonneg k); lia).
  unfold len. by rewrite Nat2Z.id, insert_app_r_alt, Nat.sub_diag by lia.
Qed.

Lemma repeat_length_spec n : ∀ v P k, (n ≤ k)%nat →
  repeat_length n v (P ++ replicate k 0, len P) = Ret (Ok ((P ++ replicate n v) ++ replicate (k - n) 0, len (P ++ replicate n v))).
Proof.
  induction n as [|n IH]; intros v P k Hk; cbn [repeat_length]; [by rewrite Nat.sub_0_r, app_nil_r|].
  destruct k as [|k]; [lia|]. rewrite (proj2 (Z.leb_gt _ _)) by (rewrite len_app; unfold len; rewrite length_replicate; lia). cbn [replicate].
  rewrite store_next. cbn [outcome_bind]. specialize (IH v (P ++ [v]) k ltac:(lia)). rewrite <-app_assoc in IH. cbn [app] in IH.
  rewrite len_app in IH. change (len [v]) with 1 in IH. rewrite IH. rewrite <- !app_assoc. done.
Qed.

Section lengths.
Context (codes lens : list Z) (t : HuffmanTable) (used : Z → Prop) (word : Z → list bool).
Context `{!PrefixCode codes lens t used word}.

Definition rle_bits (e : rle) : list bool := let '(sym, extra, ebits) := e in word sym ++ lsb_bits (Z.to_nat ebits) extra.

Lemma write_rle_writes P e : rle_ok P e → used e.1.1 → writes (write_rle codes lens e) (rle_bits e).
Proof using PrefixCode0.
  intros He Hu. destruct e as [[sym extra] ebits]. cbn [write_rle rle_bits fst] in *. unfold rle_ok in He.
  apply (writes_then (write_sym codes lens sym)); [by apply word_written|]. apply writes_extra; lia.
Qed.

Lemma read_length_reads P e k :
  rle_ok P e → used e.1.1 → (length (rle_values P e) ≤ k)%nat →
  reads (read_length t (P ++ replicate k 0, len P)) (rle_bits e)
    ((P ++ rle_values P e) ++ replicate (k - length (rle_values P e)) 0, len (P ++ rle_values P e)).
Proof using PrefixCode0.
  destruct e as [[sym extra] ebits]. unfold rle_ok, rle_bits, rle_values, read_length. cbn [fst]. intros He Hu Hk.
  eapply reads_bind; [by apply word_read|]. destruct He as [(Hs & -> & ->)|[(-> & Hx & -> & HP)|[(-> & Hx & ->)|(-> & Hx & ->)]]].
  - rewrite (proj2 (Z.leb_le sym 15)) in * by lia. change (lsb_bits (Z.to_nat 0) 0) with (@nil bool). destruct k as [|k]; [simpl in Hk; lia|].
    eapply reads_nil_bind; [apply reads_pure; cbn [replicate]; rewrite store_next; reflexivity|]. rewrite as_u8_id by (unfold is_u8; lia).
    cbn [length]. rewrite Nat.sub_1_r. cbn [Nat.pred]. rewrite <-app_assoc, len_app. apply reads_ret.
  - change (16 <=? 15) with false in *. change (16 =? 16) with true in *. cbn match in *. rewrite length_replicate in *.
    destruct P as [|x P _] using rev_ind; [done|]. rewrite last_snoc. cbn [default]. rewrite (proj2 (Z.eqb_neq _ _)) by (rewrite len_app; change (len [x]) with 1; pose proof (len_nonneg P); lia).
    eapply reads_nil_bind; [apply reads_pure, (index_ok _ _ x)|].
    { rewrite len_app. change (len [x]) with 1. pose proof (len_nonneg P). lia. }
    { rewrite len_app. change (len [x]) with 1. unfold len. replace (Z.to_nat (Z.of_nat (length P) + 1 - 1)) with (length P) by lia. rewrite <-app_assoc. by apply list_lookup_middle. }
    rewrite <-(app_nil_r (lsb_bits _ _)). eapply reads_bind; [apply (reads_bits_val 2); [lia|done]|]. apply reads_lift. by apply repeat_length_spec.
  - change (17 <=? 15) with false in *. change (17 =? 16) with false in *. change (17 =? 17) with true in *. cbn match in *. rewrite length_replicate in *.
    rewrite <-(app_nil_r (lsb_bits _ _)). eapply reads_bind; [apply (reads_bits_val 3); [lia|done]|]. apply reads_lift. by apply repeat_length_spec.
  - change (18 <=? 15) with false in *. change (18 =? 16) with false in *. change (18 =? 17) with false in *. change (18 =? 18) with true. cbn match in *. rewrite length_replicate in *.
    rewrite <-(app_nil_r (lsb_bits _ _)). eapply reads_bind; [apply (reads_bits_val 7); [lia|done]|]. apply reads_lift. by apply repeat_length_spec.
Qed.

Lemma read_lengths_reads P es Q :
  decodes P es Q → Forall (λ e, used e.1.1) es → ∀ fuel, (length es ≤ fuel)%nat →
  reads (read_lengths fuel t (P ++ replicate (length Q - length P) 0, len P)) (es ≫= rle_bits) Q.
Proof using PrefixCode0.
  induction 1 as [P|P e es Q He Hd IH]; intros Hu fuel Hf.
  - rewrite Nat.sub_diag, app_nil_r. destruct fuel; cbn [read_lengths fst snd]; rewrite (proj2 (Z.ltb_ge _ _)) by lia; apply reads_ret.
  - apply Forall_cons in Hu as [Hue Hu]. destruct fuel as [|fuel]; [simpl in Hf; lia|]. cbn [length] in Hf. pose proof (decodes_length _ _ _ Hd) as Hl.
    rewrite length_app in Hl. pose proof (rle_values_length P e He). cbn [read_lengths fst snd mbind list_bind].
    rewrite (proj2 (Z.ltb_lt _ _)) by (rewrite len_app; unfold len; rewrite length_replicate; lia).
    eapply reads_bind; [apply (read_length_reads P e); [done|done|lia]|]. specialize (IH Hu fuel ltac:(lia)).
    rewrite length_app in IH. replace (length Q - length P - length (rle_values P e))%nat with (length Q - (length P + length (rle_values P e)))%nat by lia. exact IH.
Qed.
End lengths.

(** ** The lengths of the code for lengths *)

Definition fill (cl acc order : list Z) : list Z := foldl (λ acc o, <[Z.to_nat o := length_at cl o]> acc) acc order.

Lemma fill_length cl order : ∀ acc, length (fill cl acc order) = length acc.
Proof. induction order as [|o order IH]; intros acc; [done|]. unfold fill in *. cbn [foldl]. rewrite IH. apply length_insert. Qed.

Lemma fill_lookup cl order : ∀ acc k, (k < length acc)%nat → Forall (λ o, 0 ≤ o) order →
  fill cl acc order !! k = if bool_decide (Z.of_nat k ∈ order) then Some (length_at cl (Z.of_nat k)) else acc !! k.
Proof.
  induction order as [|o order IH]; intros acc k Hk Ho; [by rewrite bool_decide_false by (intros H; by apply elem_of_nil in H)|].
  apply Forall_cons in Ho as [Ho1 Ho]. change (fill cl acc (o :: order)) with (fill cl (<[Z.to_nat o := length_at cl o]> acc) order). rewrite IH by (rewrite ?length_insert; done).
  destruct (decide (Z.of_nat k ∈ order)) as [H|H]; [rewrite !bool_decide_true by set_solver; done|]. rewrite bool_decide_false by done.
  destruct (decide (o = Z.of_nat k)) as [->|Hne].
  - rewrite bool_decide_true by set_solver. rewrite Nat2Z.id. by rewrite list_lookup_insert_eq.
  - rewrite bool_decide_false by set_solver. apply list_lookup_insert_ne. lia.
Qed.

Lemma read_code_lengths_fill cl order : ∀ acc,
  Forall (λ l, 0 ≤ l ≤ 7) cl → Forall (λ o, 0 ≤ o < len acc) order →
  reads (read_code_lengths order acc) (order ≫= λ o, lsb_bits 3 (length_at cl o)) (fill cl acc order).
Proof.
  induction order as [|o order IH]; intros acc Hcl Ho; [apply reads_ret|]. apply Forall_cons in Ho as [Ho1 Ho]. cbn [read_code_lengths mbind list_bind].
  assert (0 ≤ length_at cl o ≤ 7) as Hl.
  { unfold length_at. destruct (cl !! Z.to_nat o) eqn:E; cbn; [|lia]. apply (Forall_lookup_1 _ _ _ _ Hcl E). }
  eapply reads_bind; [apply reads_bits_val; [lia|change (2 ^ Z.of_nat 3) with 8; lia]|].
  eapply reads_nil_bind; [by apply reads_pure, store_ok|]. rewrite as_u8_id by (unfold is_u8; lia). cbn [fill foldl].
  apply IH; [done|]. unfold len in *. by rewrite length_insert.
Qed.

Lemma order_complete k : 0 ≤ k < 19 → k ∈ CODE_LENGTH_ORDER.
Proof.
  intros Hk. apply (bool_decide_eq_true (k ∈ CODE_LENGTH_ORDER)).
  assert (forallb (λ k, bool_decide (Z.of_nat k ∈ CODE_LENGTH_ORDER)) (seq 0 19) = true) as H by (vm_compute; reflexivity).
  rewrite forallb_forall in H. specialize (H (Z.to_nat k)). rewrite Z2Nat.id in H by lia. apply H, list_elem_of_In, elem_of_seq. lia.
Qed.

Lemma order_range : Forall (λ o, 0 ≤ o < 19) CODE_LENGTH_ORDER.
Proof. unfold CODE_LENGTH_ORDER. repeat constructor; done. Qed.

Lemma reads_code_lengths cl (h : nat) :
  length cl = 19%nat → Forall (λ l, 0 ≤ l ≤ 7) cl → Forall (λ o, length_at cl o = 0) (drop h CODE_LENGTH_ORDER) →
  reads (read_code_lengths (take h CODE_LENGTH_ORDER) (replicate 19 0)) (take h CODE_LENGTH_ORDER ≫= λ o, lsb_bits 3 (length_at cl o)) cl.
Proof.
  intros Hl Hcl Hz. assert (fill cl (replicate 19 0) (take h CODE_LENGTH_ORDER) = cl) as E.
  { apply list_eq_same_length with 19%nat; [done|by rewrite fill_length, length_replicate|]. intros k x y Hk Hx Hy.
    rewrite fill_lookup in Hx; [|by rewrite length_replicate|apply Forall_take; eapply Forall_impl; [apply order_range|]; intros; cbv beta in *; lia].
    assert (length_at cl (Z.of_nat k) = y) as Ey by (unfold length_at; by rewrite Nat2Z.id, Hy). case_bool_decide as Hin; [congruence|].
    rewrite lookup_replicate_2 in Hx by done. pose proof (order_complete (Z.of_nat k) ltac:(lia)) as Ho. rewrite <-(take_drop h CODE_LENGTH_ORDER) in Ho.
    apply elem_of_app in Ho as [Ho|Ho]; [done|]. rewrite Forall_forall in Hz. specialize (Hz _ Ho). cbv beta in Hz. congruence. }
  pose proof (read_code_lengths_fill cl (take h CODE_LENGTH_ORDER) (replicate 19 0) Hcl (Forall_take _ _ _ order_range)) as H. by rewrite E in H.
Qed.

(** ** Cutting zeros off *)

Lemma trim_spec lens (place : Z → outcome Z) (f : Z → Z) low k : ∀ n,
  low ≤ n ≤ low + Z.of_nat k → (∀ j, low ≤ j < n → place j = Ret (f j) ∧ 0 ≤ f j < len lens) →
  ∃ m, trim k lens place low n = Ret m ∧ low ≤ m ≤ n ∧ ∀ j, m ≤ j < n → length_at lens (f j) = 0.
Proof.
  induction k as [|k IH]; intros n Hn Hp; cbn [trim]; [exists n; split_and!; (done || lia)|].
  destruct (Z.ltb_spec low n) as [Hlt|Hge]; [|exists n; split_and!; (done || lia)].
  destruct (Hp (n - 1) ltac:(lia)) as [-> Hf]. cbn [outcome_bind]. destruct (index_total lens (f (n - 1)) Hf) as (x & -> & Hx). cbn [outcome_bind].
  destruct (Z.eqb_spec x 0) as [->|]; [|exists n; split_and!; (done || lia)].
  destruct (IH (n - 1)) as (m & -> & Hm & Hz); [lia|intros; apply Hp; lia|]. exists m. split_and!; [done|lia..|]. intros j Hj.
  destruct (decide (j = n - 1)) as [->|]; [|apply Hz; lia]. unfold length_at. by rewrite Hx.
Qed.

(** ** Fixed and dynamic blocks inflate to the data

    The frequencies counted give every symbol a word, both kinds of block are a header and
    a block of symbols, and inflating either gives the data back ([encode_fixed_spec],
    [encode_dynamic_spec]). *)

(** ** Frequencies *)

Lemma lit_symbol_range data i s j : bytes_ok data → stands data i s j → 0 ≤ lit_symbol s < 286 ∧ Forall (λ d, 0 ≤ d < 30) (dist_symbols s).
Proof.
  intros Hb Hs. destruct s as [b|n d]; cbn [lit_symbol dist_symbols].
  - destruct Hs as [Hx _]. pose proof (Forall_lookup_1 _ _ _ _ Hb Hx) as H. unfold is_u8 in H. split; [lia|constructor].
  - destruct Hs as (Hn & Hd & _). destruct (length_sym_spec n Hn) as (lc & lx & le & lb & -> & Hi & _ & Hlc & _).
    destruct (dist_sym_spec d Hd) as (dc & dx & de & db & -> & Hj & _ & Hdc & _). cbn [sym_value fst].
    apply index_inv in Hi as [Hi _], Hj as [Hj _]. change (len LENGTH_BASE) with 29 in Hi. change (len DISTANCE_BASE) with 30 in Hj.
    split; [lia|]. constructor; [lia|constructor].
Qed.

Lemma symbols_range data i syms j :
  bytes_ok data → covers data i syms j → Forall (λ s, 0 ≤ lit_symbol s < 286 ∧ Forall (λ d, 0 ≤ d < 30) (dist_symbols s)) syms.
Proof. intros Hb Hc. induction Hc as [|i s j syms k Hs _ IH]; constructor; [by eapply lit_symbol_range|done]. Qed.

Definition small_counts (n : nat) (f : nat → Z) (extra : Z) : Prop := ∀ k, (k < n)%nat → 0 ≤ f k ∧ f k + extra < 4294967295.

Lemma count_sym_spec data i s j f g :
  bytes_ok data → stands data i s j → small_counts 288 f 1 → small_counts 30 g 1 →
  count_sym s (f <$> seq 0 288, g <$> seq 0 30) =
  Ret ((λ k, f k + tally [lit_symbol s] (Z.of_nat k)) <$> seq 0 288, (λ k, g k + tally (dist_symbols s) (Z.of_nat k)) <$> seq 0 30).
Proof.
  intros Hb Hs Hf Hg. destruct (lit_symbol_range data i s j Hb Hs) as [Hl Hd].
  assert (∀ n h x, 0 ≤ x < Z.of_nat n → small_counts n h 1 → bump32 x (h <$> seq 0 n) = Ret ((λ k, h k + tally [x] (Z.of_nat k)) <$> seq 0 n)) as Hbump.
  { intros n h x Hx Hh. pose proof (Hh (Z.to_nat x) ltac:(lia)). rewrite bump32_seq by lia. f_equal. apply seq_ext. intros k _.
    rewrite tally_cons, tally_nil. repeat case_bool_decide; lia. }
  destruct s as [b|n d]; cbn [count_sym lit_symbol dist_symbols] in *.
  - rewrite Hbump by (done || lia). cbn [outcome_bind]. do 2 f_equal. apply seq_ext. intros k _. rewrite tally_nil. lia.
  - destruct Hs as (Hn & Hd1 & _). destruct (length_sym_spec n Hn) as (lc & lx & le & lb & E & _). rewrite E in *. cbn [outcome_bind fst sym_value] in *.
    rewrite Hbump by (done || lia). cbn [outcome_bind]. destruct (dist_sym_spec d Hd1) as (dc & dx & de & db & E' & _). rewrite E' in *. cbn [outcome_bind fst sym_value] in *.
    rewrite Forall_singleton in Hd. rewrite Hbump by (done || lia). done.
Qed.

Lemma count_syms_spec data syms : ∀ i j f g,
  bytes_ok data → covers data i syms j → small_counts 288 f (len syms) → small_counts 30 g (len syms) →
  for_each count_sym syms (f <$> seq 0 288, g <$> seq 0 30) =
  Ret ((λ k, f k + tally (lit_symbol <$> syms) (Z.of_nat k)) <$> seq 0 288, (λ k, g k + tally (syms ≫= dist_symbols) (Z.of_nat k)) <$> seq 0 30).
Proof.
  induction syms as [|s syms IH]; intros i j f g Hb Hc Hf Hg; cbn [for_each].
  - rewrite fmap_nil. cbn [mbind list_bind]. do 2 f_equal; apply seq_ext; intros k _; rewrite tally_nil; lia.
  - inversion Hc as [|? ? j' ? ? Hs Hc']. subst. pose proof (len_nonneg syms). rewrite (count_sym_spec data i s j'); [|done|done|..].
    2,3: intros k Hk; rewrite len_cons in *; first [pose proof (Hf k Hk)|pose proof (Hg k Hk)]; lia.
    cbn [outcome_bind]. rewrite (IH j' j); [|done|done|..].
    + rewrite fmap_cons. cbn [mbind list_bind]. do 2 f_equal; apply seq_ext; intros k _; rewrite ?tally_app, ?tally_cons, ?tally_nil; lia.
    + intros k Hk. pose proof (Hf k Hk) as H1. rewrite len_cons in H1. pose proof (tally_le [lit_symbol s] (Z.of_nat k)) as H2. change (len [lit_symbol s]) with 1 in H2.
      pose proof (tally_nonneg [lit_symbol s] (Z.of_nat k)). lia.
    + intros k Hk. pose proof (Hg k Hk) as H1. rewrite len_cons in H1. pose proof (tally_le (dist_symbols s) (Z.of_nat k)) as H2.
      assert (len (dist_symbols s) ≤ 1) by (destruct s as [x|x y]; unfold Bytes.len; simpl; lia). pose proof (tally_nonneg (dist_symbols s) (Z.of_nat k)). lia.
Qed.

Lemma tally_in l x : x ∈ l → 1 ≤ tally l x.
Proof.
  intros (l1 & l2 & ->)%list_elem_of_split. rewrite tally_app, tally_cons, bool_decide_true by done.
  pose proof (tally_nonneg l1 x). pose proof (tally_nonneg l2 x). lia.
Qed.

Lemma block_frequencies_spec data syms :
  bytes_ok data → covers data 0 syms (len data) → len data < 2147483648 →
  ∃ ll d, block_frequencies syms = Ret (ll, d) ∧ length ll = 288%nat ∧ length d = 30%nat ∧ Forall (λ f, 0 ≤ f) ll ∧ Forall (λ f, 0 ≤ f) d ∧
    (∀ s x, s ∈ syms → x = lit_symbol s ∨ x = 256 → ∃ f, ll !! Z.to_nat x = Some f ∧ 0 < f) ∧
    (∃ f, ll !! 256%nat = Some f ∧ 0 < f) ∧
    (∀ s x, s ∈ syms → x ∈ dist_symbols s → ∃ f, d !! Z.to_nat x = Some f ∧ 0 < f) ∧
    ll !! 286%nat = Some 0 ∧ ll !! 287%nat = Some 0.
Proof.
  intros Hb Hc Hn. pose proof (covers_le _ _ _ _ Hc ltac:(lia)) as Hlen. unfold block_frequencies.
  rewrite (replicate_seq 288), (replicate_seq 30), (count_syms_spec data syms 0 (len data)) by (done || (intros k Hk; lia)).
  cbn [outcome_bind fst snd]. set (lits := lit_symbol <$> syms). set (dists := syms ≫= dist_symbols).
  assert (∀ x, tally lits x ≤ len syms) as Hls by (intros x; pose proof (tally_le lits x) as H; unfold len in *; subst lits; by rewrite length_fmap in H).
  rewrite bump32_seq by (pose proof (tally_nonneg lits (Z.of_nat (Z.to_nat 256))); specialize (Hls (Z.of_nat (Z.to_nat 256))); lia).
  cbn [outcome_bind]. eexists _, _. split; [done|].
  pose proof (symbols_range data 0 syms (len data) Hb Hc) as Hr.
  assert (∀ k F, (k < 288)%nat → ((λ k, 0 + tally lits (Z.of_nat k) + (if bool_decide (k = Z.to_nat 256) then 1 else 0)) <$> seq 0 288) !! k = Some F ↔
     F = tally lits (Z.of_nat k) + (if bool_decide (k = Z.to_nat 256) then 1 else 0)) as Hll.
  { intros k F Hk. rewrite list_lookup_fmap, lookup_seq_lt by done. cbn [fmap option_fmap option_map]. split; [intros [= <-]; lia|intros ->; f_equal; lia]. }
  assert (∀ k, (286 ≤ k)%nat → tally lits (Z.of_nat k) = 0) as Hzero.
  { intros k Hk. subst lits. clear -Hr Hk. induction Hr as [|s syms [Hs _] _ IH]; [done|]. rewrite fmap_cons, tally_cons, bool_decide_false by lia. lia. }
  split_and!.
  - by rewrite length_fmap, length_seq.
  - by rewrite length_fmap, length_seq.
  - apply Forall_fmap, Forall_true. intros k. cbn. pose proof (tally_nonneg lits (Z.of_nat k)). destruct (bool_decide _); lia.
  - apply Forall_fmap, Forall_true. intros k. cbn. pose proof (tally_nonneg dists (Z.of_nat k)). lia.
  - intros s x Hs Hx. rewrite Forall_forall in Hr. destruct (Hr s Hs) as [Hl _]. eexists. rewrite Hll by lia. split; [done|].
    destruct Hx as [-> | ->]; [|rewrite bool_decide_true by done; pose proof (tally_nonneg lits (Z.of_nat (Z.to_nat 256))); lia].
    rewrite Z2Nat.id by lia. pose proof (tally_in lits (lit_symbol s) ltac:(apply list_elem_of_fmap; by exists s)). destruct (bool_decide _); lia.
  - eexists. rewrite Hll by lia. split; [done|]. rewrite bool_decide_true by done. pose proof (tally_nonneg lits (Z.of_nat 256)). lia.
  - intros s x Hs Hx. rewrite Forall_forall in Hr. destruct (Hr s Hs) as [_ Hd]. rewrite Forall_forall in Hd. specialize (Hd x Hx). cbv beta in Hd.
    eexists. rewrite list_lookup_fmap, lookup_seq_lt by lia. split; [done|]. cbn [Nat.add]. rewrite Z2Nat.id by lia.
    pose proof (tally_in dists x ltac:(apply list_elem_of_bind; by exists s)). lia.
  - rewrite Hll by lia. rewrite bool_decide_false by (intros H; apply (f_equal Z.of_nat) in H; rewrite Z2Nat.id in H by done; lia). by rewrite Hzero by lia.
  - rewrite Hll by lia. rewrite bool_decide_false by (intros H; apply (f_equal Z.of_nat) in H; rewrite Z2Nat.id in H by done; lia). by rewrite Hzero by lia.
Qed.

(** ** The lengths of the two codes *)

Lemma fits_15 n : (n ≤ 512)%nat → (n ≤ 2 ^ Z.to_nat 15)%nat.
Proof. intros Hn. apply (Nat.le_trans _ (2 ^ 9)); [exact Hn|]. apply Nat.pow_le_mono_r; lia. Qed.

Lemma distance_lengths_spec F :
  length F = 30%nat → Forall (λ f, 0 ≤ f) F →
  ∃ D, distance_lengths F = Ret D ∧ length D = 30%nat ∧ Forall (λ l, 0 ≤ l ≤ 15) D ∧ kraft D ∧
    (∀ s f, F !! s = Some f → 0 < f → ∃ l, D !! s = Some l ∧ 1 ≤ l).
Proof.
  intros Hl HF. destruct (limited_lengths_spec F 15) as (D & E & Hlen & Hr & Hk & Hpos & _); [done|lia|apply fits_15; lia|lia|].
  unfold distance_lengths. rewrite E. cbn [outcome_bind]. destruct (forallb _ D) eqn:Ez.
  - assert (Forall (λ x, x = 0) D) as HD by (apply Forall_forall; intros x Hx; rewrite forallb_forall in Ez; apply Z.eqb_eq, Ez; by apply list_elem_of_In).
    assert (D = replicate 30 0) as ->.
    { apply list_eq_same_length with 30%nat; [by rewrite length_replicate|congruence|]. intros i x y Hi Hx Hy. rewrite lookup_replicate_2 in Hy by done.
      pose proof (Forall_lookup_1 _ _ _ _ HD Hx). simplify_eq. done. }
    rewrite !store_ok by done. cbn [outcome_bind]. rewrite store_ok by done. eexists. split; [done|]. split; [done|].
    split; [apply Forall_insert; [|lia]; apply Forall_insert; [|lia]; apply Forall_replicate; lia|].
    split; [vm_compute; discriminate|]. intros s f Hs Hf. destruct (Hpos s f Hs Hf) as (l & Hl' & H1). apply lookup_replicate in Hl' as [-> _]. lia.
  - exists D. split_and!; try done. congruence.
Qed.

(** ** The header *)

Lemma zeros_after lens (m n : nat) :
  (∀ j, Z.of_nat m ≤ j < Z.of_nat n → length_at lens j = 0) → (length lens ≤ n)%nat → Forall (λ x, x = 0) (drop m lens).
Proof.
  intros Hz Hn. apply Forall_lookup. intros i x Hx. rewrite lookup_drop in Hx. pose proof (lookup_lt_Some _ _ _ Hx).
  specialize (Hz (Z.of_nat (m + i)) ltac:(lia)). unfold length_at in Hz. by rewrite Nat2Z.id, Hx in Hz.
Qed.

Lemma slice_take {A} (l : list A) (n : Z) : 0 ≤ n ≤ len l → slice l 0 n = Ret (take (Z.to_nat n) l).
Proof. intros Hn. rewrite slice_ok by lia. by rewrite drop_0, Z.sub_0_r. Qed.

(** The code for the lengths [V]: its lengths and what they serve. *)
Lemma length_code_spec es :
  Forall (λ e : rle, 0 ≤ e.1.1 ≤ 18) es → len es < 1000 →
  ∃ freq cl codes t, for_each count_rle es (replicate 19 0) = Ret freq ∧ length_limited_huffman freq 7 = Ret cl ∧ canonical_codes cl = Ret codes ∧
    from_lengths cl = Ret (Ok t) ∧ length cl = 19%nat ∧ Forall (λ l, 0 ≤ l ≤ 7) cl ∧
    PrefixCode codes cl t (has_word cl) (canonical_word cl) ∧ Forall (λ e : rle, has_word cl e.1.1) es.
Proof.
  intros Hes Hlen. set (occ := (λ e : rle, e.1.1) <$> es).
  assert (for_each count_rle es (replicate 19 0) = for_each bump32 occ (replicate 19 0)) as E.
  { subst occ. generalize (replicate 19 0). clear. induction es as [|e es IH]; intros f; [done|]. cbn [for_each fmap list_fmap]. unfold count_rle at 1.
    destruct (bump32 e.1.1 f); [apply IH|done]. }
  assert (len occ = len es) as El by (unfold len, occ; by rewrite length_fmap).
  rewrite E, (replicate_seq 19), count_occurrences;
    [|subst occ; apply Forall_fmap; eapply Forall_impl; [exact Hes|]; intros x Hx; cbn in *; lia|intros k Hk; pose proof (tally_le occ (Z.of_nat k)); lia].
  set (freq := _ <$> seq 0 19). assert (length freq = 19%nat) as Hf by (unfold freq; by rewrite length_fmap, length_seq).
  destruct (limited_lengths_spec freq 7) as (cl & Ecl & Hl & Hr & Hk & Hpos & _);
    [unfold freq; apply Forall_fmap, Forall_true; intros k; cbn; pose proof (tally_nonneg occ (Z.of_nat k)); lia|lia|rewrite Hf; vm_compute; lia|lia|].
  assert (lengths_ok cl) as Hok by (split; [eapply Forall_impl; [exact Hr|]; intros x Hx; cbv beta in *; lia|unfold len; lia]).
  destruct (canonical_codes_spec cl Hok Hk) as (codes & Ec & Hn). destruct (from_lengths_table cl Hok) as (t & Et & Ht).
  exists freq, cl, codes, t. split_and!; try done.
  - pose proof (canonical_prefix_code cl [] codes t (Forall_nil_2 _)) as H. rewrite !app_nil_r in H. by apply H.
  - apply Forall_forall. intros e He. rewrite Forall_forall in Hes. specialize (Hes e He). cbv beta in Hes.
    assert (freq !! Z.to_nat e.1.1 = Some (0 + tally occ e.1.1)) as Hfreq.
    { unfold freq. rewrite list_lookup_fmap, lookup_seq_lt by lia. cbn. do 3 f_equal. lia. }
    pose proof (tally_in occ e.1.1 ltac:(subst occ; apply list_elem_of_fmap; by exists e)).
    destruct (Hpos _ _ Hfreq ltac:(lia)) as (l & Hl1 & Hl2). split; [lia|]. unfold length_at. by rewrite Hl1.
Qed.

Lemma decodes_syms P es Q : decodes P es Q → Forall (λ e : rle, 0 ≤ e.1.1 ≤ 18) es.
Proof. induction 1 as [|P e es Q He _ IH]; constructor; [|done]. destruct e as [[sym x] b]. unfold rle_ok in He. cbn. lia. Qed.

Lemma decodes_writes codes cl t P es Q :
  decodes P es Q → PrefixCode codes cl t (has_word cl) (canonical_word cl) → Forall (λ e : rle, has_word cl e.1.1) es →
  writes (for_each (write_rle codes cl) es) (es ≫= rle_bits (canonical_word cl)).
Proof.
  intros Hd HP. induction Hd as [|P e es Q He _ IH]; intros Hu; [intros bw Hok; exists bw; by rewrite app_nil_r|].
  apply Forall_cons in Hu as [Hue Hu]. cbn [for_each mbind list_bind]. apply (writes_then (write_rle codes cl e)); [|by apply IH].
  by eapply write_rle_writes.
Qed.

Lemma header_spec L D :
  length L = 288%nat → length D = 30%nat → Forall (λ l, 0 ≤ l ≤ 15) L → Forall (λ l, 0 ≤ l ≤ 15) D → L !! 286%nat = Some 0 → L !! 287%nat = Some 0 →
  ∃ bs (h d : nat) lit dist, writes (write_header L D) bs ∧ reads read_dynamic_tables bs (lit, dist) ∧
    Forall (λ x, x = 0) (drop h L) ∧ Forall (λ x, x = 0) (drop d D) ∧ table_of (take h L) lit ∧ table_of (take d D) dist.
Proof.
  intros HL HD HLr HDr H286 H287.
  destruct (trim_spec L Ret id 257 29 286) as (h & Eh & Hh & Hhz); [lia|intros j Hj; split; [done|unfold id, len; lia]|].
  destruct (trim_spec D Ret id 1 29 30) as (d & Ed & Hd & Hdz); [lia|intros j Hj; split; [done|unfold id, len; lia]|].
  assert (Forall (λ x, x = 0) (drop (Z.to_nat h) L)) as HLz.
  { apply (zeros_after _ _ 288); [|lia]. intros j Hj. destruct (decide (j < 286)); [apply Hhz; lia|]. unfold length_at.
    assert (Z.to_nat j = 286%nat ∨ Z.to_nat j = 287%nat) as [-> | ->] by lia; [by rewrite H286|by rewrite H287]. }
  assert (Forall (λ x, x = 0) (drop (Z.to_nat d) D)) as HDz by (apply (zeros_after _ _ 30); [intros j Hj; apply Hdz; lia|lia]).
  set (K := take (Z.to_nat h) L) in *. set (M := take (Z.to_nat d) D) in *. set (es := rle_code_lengths (K ++ M)).
  assert (length K = Z.to_nat h) as HlK by (unfold K; rewrite length_take; lia). assert (length M = Z.to_nat d) as HlM by (unfold M; rewrite length_take; lia).
  assert (Forall (λ l, 0 ≤ l ≤ 15) K ∧ Forall (λ l, 0 ≤ l ≤ 15) M) as [HKr HMr] by (split; by apply Forall_take).
  assert (decodes [] es (K ++ M)) as Hdec by (apply rle_decodes, Forall_app; done).
  pose proof (decodes_length _ _ _ Hdec) as Hel. rewrite length_app in Hel. cbn [length] in Hel.
  destruct (length_code_spec es) as (freq & cl & codes & t & Ef & Ecl & Ec & Et & Hcl & Hclr & HP & Hu); [by eapply decodes_syms|unfold len; lia|].
  destruct (trim_spec cl (index CLCL_ORDER) (λ j, default 0 (CLCL_ORDER !! Z.to_nat j)) 4 15 19) as (c & Ecc & Hc & Hcz); [lia| |].
  { intros j Hj. destruct (index_total CLCL_ORDER j) as (x & Ex & Hx); [change (len CLCL_ORDER) with 19; lia|]. rewrite Hx. split; [done|].
    pose proof (Forall_lookup_1 _ _ _ _ order_range Hx). unfold len. rewrite Hcl. done. }
  assert (Forall (λ o, length_at cl o = 0) (drop (Z.to_nat c) CODE_LENGTH_ORDER)) as Hcz'.
  { apply Forall_lookup. intros i x Hx. rewrite lookup_drop in Hx. pose proof (lookup_lt_Some _ _ _ Hx) as Hi. change (length CODE_LENGTH_ORDER) with 19%nat in Hi.
    specialize (Hcz (Z.of_nat (Z.to_nat c + i)) ltac:(lia)). cbv beta in Hcz. rewrite Nat2Z.id in Hcz. unfold CLCL_ORDER in Hcz. by rewrite Hx in Hcz. }
  assert (lengths_ok K ∧ lengths_ok M) as [HKok HMok].
  { split; (split; [eapply Forall_impl; [eassumption|]; intros x Hx; cbv beta in *; lia|unfold len; lia]). }
  destruct (from_lengths_table K HKok) as (lit & Elit & Hlit). destruct (from_lengths_table M HMok) as (dist & Edist & Hdist).
  set (obits := take (Z.to_nat c) CODE_LENGTH_ORDER ≫= λ o, lsb_bits 3 (length_at cl o)).
  exists (lsb_bits 5 (h - 257) ++ lsb_bits 5 (d - 1) ++ lsb_bits 4 (c - 4) ++ obits ++ (es ≫= rle_bits (canonical_word cl))), (Z.to_nat h), (Z.to_nat d), lit, dist.
  split; [|split; [|done]].
  - intros bw Hok. unfold write_header. rewrite Eh, Ed. cbn [outcome_bind]. rewrite !slice_take by (unfold len; lia). cbn [outcome_bind].
    fold K M es. rewrite Ef. cbn [outcome_bind]. rewrite Ecl. cbn [outcome_bind]. rewrite Ec. cbn [outcome_bind]. rewrite Ecc. cbn [outcome_bind].
    rewrite slice_take by (change (len CLCL_ORDER) with 19; lia). cbn [outcome_bind].
    assert (writes (for_each (write_code_length cl) (take (Z.to_nat c) CODE_LENGTH_ORDER)) obits) as Hw.
    { apply writes_for_each. intros o Ho. pose proof (Forall_take _ (Z.to_nat c) _ order_range) as Hr. rewrite Forall_forall in Hr. specialize (Hr o Ho). cbv beta in Hr.
      intros bw' Hok'. unfold write_code_length. destruct (index_total cl o) as (x & -> & Hx); [unfold len; lia|]. cbn [outcome_bind].
      assert (length_at cl o = x) as -> by (unfold length_at; by rewrite Hx). apply (writes_bits x 3 3 eq_refl); [lia|done]. }
    exact (writes_then _ _ _ _ (writes_bits (h - 257) 5 5 eq_refl ltac:(lia)) (writes_then _ _ _ _ (writes_bits (d - 1) 5 5 eq_refl ltac:(lia))
      (writes_then _ _ _ _ (writes_bits (c - 4) 4 4 eq_refl ltac:(lia)) (writes_then _ _ _ _ Hw (decodes_writes _ _ _ _ _ _ Hdec HP Hu)))) bw Hok).
  - unfold read_dynamic_tables. eapply reads_bind; [apply reads_bits_val; [lia|change (2 ^ Z.of_nat 5) with 32; lia]|]. cbv zeta.
    eapply reads_bind; [apply reads_bits_val; [lia|change (2 ^ Z.of_nat 5) with 32; lia]|].
    eapply reads_bind; [apply reads_bits_val; [lia|change (2 ^ Z.of_nat 4) with 16; lia]|].
    replace (h - 257 + 257) with h by lia. replace (d - 1 + 1) with d by lia. replace (c - 4 + 4) with c by lia.
    eapply reads_nil_bind; [apply reads_pure, slice_take; change (len CODE_LENGTH_ORDER) with 19; lia|].
    eapply reads_bind; [by apply reads_code_lengths|]. eapply reads_nil_bind; [by apply reads_lift|].
    rewrite <-(app_nil_r (es ≫= _)). eapply reads_bind.
    + pose proof (read_lengths_reads codes cl t (has_word cl) (canonical_word cl) [] es (K ++ M) Hdec Hu (Z.to_nat (h + d)) ltac:(lia)) as H.
      cbn [app length] in H. rewrite Nat.sub_0_r, length_app, HlK, HlM in H. replace (Z.to_nat (h + d)) with (Z.to_nat h + Z.to_nat d)%nat in * by lia. exact H.
    + eapply reads_nil_bind; [apply reads_pure; rewrite slice_take by (unfold len; rewrite length_app; lia); rewrite take_app_le, take_ge by lia; reflexivity|].
      eapply reads_nil_bind; [by apply reads_lift|].
      eapply reads_nil_bind; [apply reads_pure, slice_from_app; unfold len; lia|]. eapply reads_nil_bind; [by apply reads_lift|]. apply reads_ret.
Qed.

(** ** One final block is the stream *)

Lemma inflate_reads out max_output bits pad data :
  stream out = bits ++ pad → reads (read_block max_output []) bits (1, data) → inflate_with_limit out max_output = Ret (Ok data).
Proof.
  intros E Hr. unfold inflate_with_limit. cbn [blocks_loop]. rewrite decoder_bind_eq.
  rewrite (Hr (reader_new out) pad); [done| |exact E]. split; [cbn; lia|]. unfold pos. cbn. lia.
Qed.

Lemma reads_fixed_header max_output body data :
  reads (fixed_block max_output []) body data → reads (read_block max_output []) (lsb_bits 1 1 ++ lsb_bits 2 1 ++ body) (1, data).
Proof.
  intros H. unfold read_block. eapply reads_bind; [apply (reads_bits_val 1 1); [lia|split; [lia|reflexivity]]|].
  eapply reads_bind; [apply (reads_bits_val 2 1); [lia|split; [lia|reflexivity]]|]. rewrite <-(app_nil_r body). eapply reads_bind; [exact H|apply reads_ret].
Qed.

Lemma reads_dynamic_header max_output body data :
  reads (dynamic_block max_output []) body data → reads (read_block max_output []) (lsb_bits 1 1 ++ lsb_bits 2 2 ++ body) (1, data).
Proof.
  intros H. unfold read_block. eapply reads_bind; [apply (reads_bits_val 1 1); [lia|split; [lia|reflexivity]]|].
  eapply reads_bind; [apply (reads_bits_val 2 2); [lia|split; [lia|reflexivity]]|]. rewrite <-(app_nil_r body). eapply reads_bind; [exact H|apply reads_ret].
Qed.

Lemma used_symbols data syms K D :
  (∀ s x, s ∈ syms → x = lit_symbol s → has_word K x) → (∀ s x, s ∈ syms → x ∈ dist_symbols s → has_word D x) →
  covers data 0 syms (len data) → Forall (sym_used (has_word K) (has_word D)) syms.
Proof.
  intros HK HD _. apply Forall_forall. intros s Hs. split; [by eapply HK|]. apply Forall_forall. intros x Hx. by eapply HD.
Qed.

(** A word for every length that is not zero, also when zeros were cut off. *)
Lemma has_word_take L h s l : Forall (λ x, x = 0) (drop h L) → 0 ≤ s → L !! Z.to_nat s = Some l → 1 ≤ l → has_word (take h L) s.
Proof.
  intros Hz Hs Hl H1. split; [done|]. unfold length_at. destruct (decide (Z.to_nat s < h)%nat) as [H|H].
  - by rewrite lookup_take_lt, Hl by done.
  - exfalso. assert (drop h L !! (Z.to_nat s - h)%nat = Some l) as E by (rewrite lookup_drop; by replace (h + (Z.to_nat s - h))%nat with (Z.to_nat s) by lia).
    pose proof (Forall_lookup_1 _ _ _ _ Hz E). cbv beta in *. lia.
Qed.

Lemma fixed_lengths_ok : lengths_ok fixed_litlen_lengths ∧ kraft fixed_litlen_lengths ∧ lengths_ok fixed_dist_lengths ∧ kraft fixed_dist_lengths.
Proof.
  assert (∀ L, forallb (λ l, (0 <=? l) && (l <? 16)) L = true → Forall (λ l, 0 ≤ l < 16) L) as G.
  { intros L H. apply Forall_forall. intros x Hx%list_elem_of_In. rewrite forallb_forall in H. specialize (H x Hx). lia. }
  split_and!; [split; [apply G; vm_compute; reflexivity|vm_compute; reflexivity]|vm_compute; discriminate|
    split; [apply G; vm_compute; reflexivity|vm_compute; reflexivity]|vm_compute; discriminate].
Qed.

Lemma fixed_words n L : forallb (λ l, 1 <=? l) L = true → length L = n → ∀ s, 0 ≤ s < Z.of_nat n → has_word L s.
Proof.
  intros H Hn s Hs. split; [lia|]. unfold length_at. destruct (lookup_lt_is_Some_2 L (Z.to_nat s)) as [l Hl]; [lia|]. rewrite Hl. cbn.
  rewrite forallb_forall in H. specialize (H l). apply Z.leb_le, H, list_elem_of_In. by eapply list_elem_of_lookup_2.
Qed.

Section encode.
Context (data : list Z) (syms : list Sym) (Hb : bytes_ok data) (Hc : covers data 0 syms (len data)) (Hn : len data < 2147483648).

Lemma encode_fixed_spec :
  ∃ out, encode_fixed syms = Ret out ∧ ∀ max_output, len data ≤ max_output → inflate_with_limit out max_output = Ret (Ok data).
Proof using Hb Hc Hn.
  destruct fixed_lengths_ok as (HLo & HLk & HDo & HDk). destruct (canonical_codes_spec _ HLo HLk) as (lc & Elc & HlN).
  destruct (canonical_codes_spec _ HDo HDk) as (dc & Edc & HdN). destruct (from_lengths_table _ HLo) as (lit & Elit & Hlit).
  destruct (from_lengths_table _ HDo) as (dist & Edist & Hdist).
  pose proof (canonical_prefix_code fixed_litlen_lengths [] lc lit (Forall_nil_2 _)) as HP1. rewrite !app_nil_r in HP1. specialize (HP1 HLo HLk Hlit HlN).
  pose proof (canonical_prefix_code fixed_dist_lengths [] dc dist (Forall_nil_2 _)) as HP2. rewrite !app_nil_r in HP2. specialize (HP2 HDo HDk Hdist HdN).
  pose proof (fixed_words 288 fixed_litlen_lengths eq_refl eq_refl) as HwL. pose proof (fixed_words 30 fixed_dist_lengths eq_refl eq_refl) as HwD.
  pose proof (symbols_range data 0 syms (len data) Hb Hc) as Hr.
  assert (Forall (sym_used (has_word fixed_litlen_lengths) (has_word fixed_dist_lengths)) syms) as Hu.
  { eapply Forall_impl; [exact Hr|]. intros s [H1 H2]. split; [apply HwL; lia|]. eapply Forall_impl; [exact H2|]. intros x Hx. apply HwD. cbv beta in Hx. lia. }
  destruct (writes_then _ _ _ _ (writes_then _ _ _ _ (writes_bits 1 1 1 eq_refl ltac:(lia)) (writes_bits 1 2 2 eq_refl ltac:(lia)))
    (emit_symbols_writes lc fixed_litlen_lengths dc fixed_dist_lengths lit dist _ _ _ _ data 0 syms (len data) Hc Hu (HwL 256 ltac:(lia)))
    writer_new (proj1 writer_new_ok)) as (bw & E & Hok & Hw).
  destruct (finish_spec bw Hok) as (pad & Hfin). exists (finish bw). split.
  - unfold encode_fixed. rewrite Elc. cbn [outcome_bind]. rewrite Edc. cbn [outcome_bind] in *. by rewrite E.
  - intros max_output Hm. rewrite Hw, (proj2 writer_new_ok) in Hfin. cbn [app] in Hfin. eapply inflate_reads; [exact Hfin|].
    rewrite <-app_assoc. apply reads_fixed_header. unfold fixed_block. eapply reads_nil_bind; [apply reads_lift; exact Elit|].
    eapply reads_nil_bind; [apply reads_lift; exact Edist|].
    eapply (reads_block lc fixed_litlen_lengths dc fixed_dist_lengths lit dist); [exact HP1|exact HP2|exact Hm|exact Hb|exact Hc|exact Hu|apply HwL; lia].
Qed.

Lemma encode_dynamic_spec :
  ∃ out, encode_dynamic syms = Ret out ∧ ∀ max_output, len data ≤ max_output → inflate_with_limit out max_output = Ret (Ok data).
Proof using Hb Hc Hn.
  destruct (block_frequencies_spec data syms Hb Hc Hn) as (lf & df & Ef & Hlf & Hdf & Hl0 & Hd0 & Hls & (f256 & H256 & Hf256) & Hds & H286 & H287).
  destruct (limited_lengths_spec lf 15) as (L & EL & HlL & HrL & HkL & HpL & HzL); [done|lia|apply fits_15; lia|lia|].
  destruct (distance_lengths_spec df Hdf Hd0) as (D & ED & HlD & HrD & HkD & HpD).
  destruct (header_spec L D) as (bs & h & d & lit & dist & Hwh & Hrh & HLz & HDz & Hlit & Hdist);
    [congruence|done|done|done|apply HzL; [done|lia]|apply HzL; [done|lia]|].
  assert (lengths_ok L ∧ lengths_ok D) as [HLo HDo].
  { split; (split; [eapply Forall_impl; [eassumption|]; intros x Hx; cbv beta in *; lia|unfold len; lia]). }
  destruct (canonical_codes_spec _ HLo HkL) as (lc & Elc & HlN). destruct (canonical_codes_spec _ HDo HkD) as (dc & Edc & HdN).
  pose proof (canonical_prefix_code (take h L) (drop h L) lc lit HLz) as HP1. rewrite !take_drop in HP1. specialize (HP1 HLo HkL Hlit HlN).
  pose proof (canonical_prefix_code (take d D) (drop d D) dc dist HDz) as HP2. rewrite !take_drop in HP2. specialize (HP2 HDo HkD Hdist HdN).
  pose proof (symbols_range data 0 syms (len data) Hb Hc) as Hr. rewrite Forall_forall in Hr.
  assert (has_word (take h L) 256) as Hw256.
  { destruct (HpL 256%nat f256 H256 Hf256) as (l & Hl & H1). by eapply (has_word_take L h 256 l). }
  assert (Forall (sym_used (has_word (take h L)) (has_word (take d D))) syms) as Hu.
  { apply (used_symbols data); [..|done].
    - intros s x Hs ->. destruct (Hls s _ Hs (or_introl eq_refl)) as (f & Hf & Hf0). destruct (HpL _ f Hf Hf0) as (l & Hl & H1).
      eapply (has_word_take L h _ l); try done. apply (Hr s Hs).
    - intros s x Hs Hx. destruct (Hds s x Hs Hx) as (f & Hf & Hf0). destruct (HpD _ f Hf Hf0) as (l & Hl & H1).
      eapply (has_word_take D d _ l); try done. destruct (Hr s Hs) as [_ H]. rewrite Forall_forall in H. apply (H x Hx). }
  destruct (writes_then _ _ _ _ (writes_then _ _ _ _ (writes_then _ _ _ _ (writes_bits 1 1 1 eq_refl ltac:(lia)) (writes_bits 2 2 2 eq_refl ltac:(lia))) Hwh)
    (emit_symbols_writes lc L dc D lit dist _ _ _ _ data 0 syms (len data) Hc Hu Hw256) writer_new (proj1 writer_new_ok)) as (bw & E & Hok & Hw).
  destruct (finish_spec bw Hok) as (pad & Hfin). exists (finish bw). split.
  - unfold encode_dynamic. rewrite Ef. cbn [outcome_bind fst snd]. rewrite EL. cbn [outcome_bind]. rewrite ED. cbn [outcome_bind] in *.
    destruct (write_header L D _) as [bw1|]; [|done]. cbn [outcome_bind] in *. rewrite Elc. cbn [outcome_bind]. rewrite Edc. cbn [outcome_bind]. by rewrite E.
  - intros max_output Hm. rewrite Hw, (proj2 writer_new_ok) in Hfin. cbn [app] in Hfin. eapply inflate_reads; [exact Hfin|].
    rewrite <- !app_assoc. apply reads_dynamic_header. unfold dynamic_block. eapply reads_bind; [exact Hrh|]. cbn [fst snd].
    eapply (reads_block lc L dc D lit dist); [exact HP1|exact HP2|exact Hm|exact Hb|exact Hc|exact Hu|exact Hw256].
Qed.
End encode.
