(* ===== verification/DeflateRoundtrip.v ===== *)
(** * DeflateRoundtrip: what is compressed is decompressed

    Stored blocks, the choice of the best encoding, the zlib and gzip containers and the
    streaming adapter. *)

From S2P Require Import Prelude Bytes Bits Arrays Inflate Deflate InflateBits HuffmanTables Lz77 DeflateWriter DeflateHeader.
From S2P Require Import Prelude Bytes Bits Arrays Inflate Deflate InflateBits HuffmanTables Lz77 DeflateWriter DeflateHeader.

Local Open Scope Z_scope.
Local Open Scope cruft_scope.

(** ** Stored blocks *)

(** The reader at the start of byte [p]. *)
Definition at_byte (bytes : list Z) (p : nat) : BitReader := {| data := bytes; byte_pos := p; bit_pos := 0 |}.

Lemma stored_header_bits (fin : bool) r :
  lsb_bits 8 (if fin then 1 else 0) ++ r = lsb_bits 1 (Z.b2z fin) ++ lsb_bits 2 0 ++ lsb_bits 5 0 ++ r.
Proof. by destruct fin. Qed.

Lemma stored_header_eq fin n : 0 ≤ n ≤ 65535 →
  stored_header fin n = [if fin then 1 else 0; as_u8 (Z.land n 255); as_u8 (Z.shiftr n 8); as_u8 (Z.land (65535 - n) 255); as_u8 (Z.shiftr (65535 - n) 8)].
Proof. intros Hn. unfold stored_header, as_u16. by rewrite Z.mod_small by lia. Qed.

Lemma u16_bytes n : 0 ≤ n ≤ 65535 → Z.lor (as_u8 (Z.land n 255)) (as_u16 (Z.shiftl (as_u8 (Z.shiftr n 8)) 8)) = n.
Proof.
  intros Hn. change 255 with (2 ^ 8 - 1). rewrite land_low by lia. rewrite Z.shiftr_div_pow2 by lia. change (2 ^ 8) with 256.
  assert (0 ≤ n / 256 < 256) as Hq by (split; [apply Z.div_pos; lia|apply Z.div_lt_upper_bound; lia]).
  unfold as_u8. rewrite Z.mod_mod, (Z.mod_small (n / 256) 256) by lia. pose proof (Z.div_mod n 256). pose proof (Z.mod_pos_bound n 256).
  rewrite Z.shiftl_mul_pow2 by lia. change (2 ^ 8) with 256. unfold as_u16. rewrite (Z.mod_small (n / 256 * 256)) by lia.
  rewrite Z.lor_comm, (lor_add_disjoint _ _ 8); [lia|lia|change (2 ^ 8) with 256; lia|apply Z.mod_mul; lia].
Qed.

Lemma complement n : 0 ≤ n ≤ 65535 → Z.lxor n (65535 - n) = 65535.
Proof.
  intros Hn. apply Z.eqb_eq. revert n Hn. apply (range_check (λ n, Z.lxor n (65535 - n) =? 65535)). vm_compute. reflexivity.
Qed.

Lemma index_middle {A} (pre l : list A) p k x : p = len pre → 0 ≤ k → l !! Z.to_nat k = Some x → index (pre ++ l) (p + k) = Ret x.
Proof.
  intros -> Hk Hx. pose proof (len_nonneg pre). apply index_ok; [lia|]. unfold len in *. rewrite lookup_app_r by lia.
  by replace (Z.to_nat (Z.of_nat (length pre) + k) - length pre)%nat with (Z.to_nat k) by lia.
Qed.

Lemma read_stored max_output out pre fin chunk rest :
  len chunk ≤ 65535 → len out + len chunk ≤ max_output → len out + len chunk ≤ u64_max →
  read_block max_output out (at_byte (pre ++ stored_header fin (len chunk) ++ chunk ++ rest) (length pre)) =
  Ret (Ok ((Z.b2z fin, out ++ chunk), at_byte (pre ++ stored_header fin (len chunk) ++ chunk ++ rest) (length pre + 5 + length chunk))).
Proof.
  intros Hn Hm H64. pose proof (len_nonneg chunk) as H0. rewrite !stored_header_eq by lia.
  set (h1 := as_u8 (Z.land (len chunk) 255)). set (h2 := as_u8 (Z.shiftr (len chunk) 8)).
  set (h3 := as_u8 (Z.land (65535 - len chunk) 255)). set (h4 := as_u8 (Z.shiftr (65535 - len chunk) 8)). set (all := pre ++ _). set (br := at_byte all (length pre)).
  assert (at_ok br) as Hok by (split; [cbn; lia|]; unfold pos, br, at_byte, all; cbn [byte_pos bit_pos data]; rewrite !length_app; lia).
  assert (InflateBits.rest br = lsb_bits 1 (Z.b2z fin) ++ lsb_bits 2 0 ++ lsb_bits 5 0 ++ stream (h1 :: h2 :: h3 :: h4 :: chunk ++ rest)) as Er.
  { unfold InflateBits.rest, br, pos, at_byte. cbn [byte_pos bit_pos data]. rewrite Nat.add_0_r, stream_drop. unfold all. rewrite drop_app_length.
    cbn [app]. rewrite stream_cons. apply stored_header_bits. }
  unfold read_block. rewrite decoder_bind_eq. rewrite (reads_bits_val 1 (Z.b2z fin) ltac:(lia) ltac:(destruct fin; simpl; lia) br _ Hok Er).
  cbn [fallible_bind fst snd]. rewrite decoder_bind_eq. pose proof (stream_length (h1 :: h2 :: h3 :: h4 :: chunk ++ rest)) as Hsl.
  rewrite (reads_bits_val 2 0 ltac:(lia) ltac:(simpl; lia) (advance br (length (lsb_bits 1 (Z.b2z fin)))) (lsb_bits 5 0 ++ stream (h1 :: h2 :: h3 :: h4 :: chunk ++ rest)));
    [|apply advance_ok; [done|]; rewrite Er, !length_app; simpl; lia|by rewrite rest_advance, Er, drop_app_length].
  cbn [fallible_bind fst snd]. rewrite advance_add, !lsb_bits_length. change (0 =? 0) with true. cbn match.
  assert (advance br (1 + 2) = {| data := all; byte_pos := length pre; bit_pos := 3 |}) as ->.
  { unfold advance, seek, pos, br, at_byte. cbn [data byte_pos bit_pos]. f_equal.
    - symmetry. apply (Nat.div_unique _ 8 _ 3); lia.
    - symmetry. apply (Nat.mod_unique _ 8 (length pre)); lia. }
  rewrite decoder_bind_eq. unfold stored_block. rewrite decoder_bind_eq. cbn [align_to_byte fallible_bind fst snd bit_pos].
  rewrite bool_decide_false by done. cbn [negb seek]. unfold seek. cbn [data byte_pos bit_pos].
  assert (∀ k x, (k < 5)%nat → [if fin then 1 else 0; h1; h2; h3; h4] !! k = Some x → index all (Z.of_nat (length pre + k)) = Ret x) as Hi.
  { intros k x Hk Hx. unfold all. rewrite Nat2Z.inj_add. apply index_middle; [done|lia|]. rewrite Nat2Z.id, lookup_app_l; [done|simpl; lia]. }
  assert (length all = length pre + 5 + length chunk + length rest)%nat as Hal by (unfold all; rewrite !length_app; simpl; lia).
  assert (read_aligned_u16_le {| data := all; byte_pos := S (length pre); bit_pos := 0 |} = Ret (Ok (len chunk, at_byte all (length pre + 3)))) as E1.
  { unfold read_aligned_u16_le. cbn [data byte_pos bit_pos]. rewrite bool_decide_false by lia.
    replace (S (length pre)) with (length pre + 1)%nat by lia. rewrite (Hi 1%nat h1) by (done || lia).
    replace (Z.of_nat (length pre + 1) + 1) with (Z.of_nat (length pre + 2)) by lia. rewrite (Hi 2%nat h2) by (done || lia). cbn [outcome_bind].
    unfold h1, h2. rewrite u16_bytes by lia. unfold seek, at_byte. cbn [data byte_pos bit_pos]. do 4 f_equal. lia. }
  assert (read_aligned_u16_le (at_byte all (length pre + 3)) = Ret (Ok (65535 - len chunk, at_byte all (length pre + 5)))) as E2.
  { unfold read_aligned_u16_le, at_byte. cbn [data byte_pos bit_pos]. rewrite bool_decide_false by lia.
    rewrite (Hi 3%nat h3) by (done || lia).
    replace (Z.of_nat (length pre + 3) + 1) with (Z.of_nat (length pre + 4)) by lia. rewrite (Hi 4%nat h4) by (done || lia). cbn [outcome_bind].
    unfold h3, h4. rewrite u16_bytes by lia. unfold seek. cbn [data byte_pos bit_pos]. do 4 f_equal. lia. }
  rewrite decoder_bind_eq, E1. cbn [fallible_bind fst snd]. rewrite decoder_bind_eq, E2. cbn [fallible_bind fst snd].
  rewrite complement by lia. change (negb (65535 =? 65535)) with false. cbn match. rewrite decoder_bind_eq. unfold read_aligned_bytes at 1. unfold at_byte. cbn [data byte_pos bit_pos].
  assert (Z.to_nat (len chunk) = length chunk) as El by (unfold len; lia). rewrite !El, bool_decide_false by lia.
  assert (slice all (Z.of_nat (length pre + 5)) (Z.of_nat (length pre + 5 + length chunk)) = Ret chunk) as E3.
  { unfold all. change (pre ++ [_; h1; h2; h3; h4] ++ chunk ++ rest) with (pre ++ [if fin then 1 else 0; h1; h2; h3; h4] ++ chunk ++ rest). rewrite app_assoc.
    apply slice_middle; rewrite len_app; unfold len; simpl; lia. }
  rewrite E3. cbn [outcome_bind fallible_bind fst snd]. unfold checked_add64. rewrite (proj2 (Z.leb_le _ _)) by lia.
  rewrite (proj2 (Z.ltb_ge _ _)) by lia. done.
Qed.

Lemma stored_loop_step n bytes : bytes ≠ [] →
  let c := Z.min STORED_MAX (len bytes) in
  stored_loop (S n) bytes = stored_header (c =? len bytes) c ++ take (Z.to_nat c) bytes ++ stored_loop n (drop (Z.to_nat c) bytes).
Proof. by destruct bytes. Qed.

Lemma len_positive {A} (l : list A) : l ≠ [] → 1 ≤ len l.
Proof. destruct l; [done|]. rewrite len_cons. pose proof (len_nonneg l). lia. Qed.

Lemma stored_loop_inflates max_output n : ∀ bytes pre tail out fuel,
  bytes ≠ [] → (length bytes ≤ n)%nat → (length bytes ≤ fuel)%nat → len out + len bytes ≤ max_output → len out + len bytes ≤ u64_max →
  ∃ br, blocks_loop fuel max_output out (at_byte (pre ++ stored_loop n bytes ++ tail) (length pre)) = Ret (Ok (out ++ bytes, br)).
Proof.
  induction n as [|n IH]; intros bytes pre tail out fuel Hne Hn Hf Hm H64; [destruct bytes; simpl in Hn; [done|lia]|].
  pose proof (len_positive bytes Hne) as Hpos. destruct fuel as [|fuel]; [unfold len in Hpos; lia|].
  rewrite (stored_loop_step n bytes Hne). cbv zeta. set (c := Z.min STORED_MAX (len bytes)).
  assert (1 ≤ c ≤ 65535 ∧ c ≤ len bytes) as [Hc1 Hc2] by (unfold c, STORED_MAX; lia).
  set (chunk := take (Z.to_nat c) bytes). assert (len chunk = c) as Hchunk by (unfold chunk, len in *; rewrite length_take; lia).
  rewrite <- !app_assoc. cbn [blocks_loop]. rewrite decoder_bind_eq. set (tl := stored_loop n _ ++ tail).
  pose proof (read_stored max_output out pre (c =? len bytes) chunk tl ltac:(lia) ltac:(lia) ltac:(lia)) as Hd. rewrite Hchunk in Hd.
  rewrite Hd. cbn [fallible_bind fst snd]. destruct (Z.eqb_spec c (len bytes)) as [Ec|Ec].
  - cbn [Z.b2z]. change (negb (1 =? 0)) with true. cbn match. assert (chunk = bytes) as -> by (unfold chunk; apply take_ge; unfold len in Ec; lia). by eexists.
  - cbn [Z.b2z]. change (negb (0 =? 0)) with false. cbn match. unfold tl.
    assert (len (drop (Z.to_nat c) bytes) = len bytes - c) as Hdl by (unfold len in *; rewrite length_drop; lia).
    destruct (IH (drop (Z.to_nat c) bytes) (pre ++ stored_header false c ++ chunk) tail (out ++ chunk) fuel) as (br & Ebr).
    + intros H0. rewrite H0 in Hdl. change (len (@nil Z)) with 0 in Hdl. lia.
    + rewrite length_drop. lia.
    + rewrite length_drop. lia.
    + rewrite len_app. lia.
    + rewrite len_app. lia.
    + exists br. rewrite <- !app_assoc in Ebr. replace (length (pre ++ stored_header false c ++ chunk)) with (length pre + 5 + length chunk)%nat in Ebr
        by (rewrite !length_app; simpl; lia). rewrite Ebr. unfold chunk. by rewrite take_drop.
Qed.

Lemma stored_loop_length n : ∀ l, (length l ≤ n)%nat → (length l ≤ length (stored_loop n l))%nat.
Proof.
  induction n as [|n IH]; intros l Hl; [lia|]. destruct (decide (l = [])) as [->|Hne]; [simpl; lia|].
  rewrite stored_loop_step by done. cbv zeta. set (c := Z.to_nat _). rewrite !length_app, length_take. pose proof (len_positive l Hne).
  assert (1 ≤ c)%nat by (unfold c, STORED_MAX in *; lia). specialize (IH (drop c l) ltac:(rewrite length_drop; lia)). rewrite length_drop in IH. lia.
Qed.

Lemma inflate_from_start bytes max_output out br :
  blocks_loop (S (bits_left (at_byte bytes 0))) max_output [] (at_byte bytes 0) = Ret (Ok (out, br)) →
  inflate_with_limit bytes max_output = Ret (Ok out).
Proof. intros E. unfold inflate_with_limit. change (reader_new bytes) with (at_byte bytes 0). cbv zeta. by rewrite E. Qed.

Lemma deflate_stored_spec bytes max_output :
  len bytes ≤ max_output → len bytes ≤ u64_max → inflate_with_limit (deflate_stored bytes) max_output = Ret (Ok bytes).
Proof.
  intros Hm H64. destruct (decide (bytes = [])) as [->|Hne].
  - eapply inflate_from_start. change (deflate_stored []) with ([] ++ stored_header true (len (@nil Z)) ++ [] ++ @nil Z).
    cbn [blocks_loop]. rewrite decoder_bind_eq. set (r := read_block _ _). change 0%nat with (length (@nil Z)). subst r.
    rewrite read_stored by (unfold u64_max; change (len (@nil Z)) with 0 in *; lia). cbn [fallible_bind fst snd]. reflexivity.
  - assert (deflate_stored bytes = [] ++ stored_loop (length bytes) bytes ++ []) as Eq by (destruct bytes; [done|]; cbn [deflate_stored app]; by rewrite app_nil_r).
    destruct (stored_loop_inflates max_output (length bytes) bytes [] [] [] (S (bits_left (at_byte (deflate_stored bytes) 0))) Hne (Nat.le_refl _)) as [br Ebr].
    + unfold bits_left. cbn [at_byte data byte_pos bit_pos]. rewrite Eq, app_nil_l, app_nil_r. pose proof (stored_loop_length (length bytes) bytes (Nat.le_refl _)). lia.
    + done.
    + done.
    + rewrite <-Eq in Ebr. by apply (inflate_from_start _ _ _ br).
Qed.

(** ** The best of the three encodings *)

Lemma compressed_deflate_spec bytes : bytes_ok bytes → len bytes < 2147483648 →
  ∃ out, compressed_deflate bytes = Ret out ∧ len out ≤ len (deflate_stored bytes) ∧
    ∀ max_output, len bytes ≤ max_output → inflate_with_limit out max_output = Ret (Ok bytes).
Proof.
  intros Hb Hn. destruct (lz77_spec bytes Hn) as (syms & Es & Hc). unfold compressed_deflate. rewrite Es. cbn [outcome_bind].
  destruct (encode_fixed_spec bytes syms Hb Hc Hn) as (fixed & -> & Hf). destruct (encode_dynamic_spec bytes syms Hb Hc Hn) as (dynamic & -> & Hd).
  cbn [outcome_bind]. cbv zeta. set (best := if len dynamic <? len fixed then dynamic else fixed).
  assert (∀ max_output, len bytes ≤ max_output → inflate_with_limit best max_output = Ret (Ok bytes)) as Hbest by (subst best; by destruct (_ <? _)).
  eexists. split; [done|]. destruct (Z.ltb_spec (len (deflate_stored bytes)) (len best)); [|by split].
  split; [lia|]. intros m Hm. apply deflate_stored_spec; [done|unfold u64_max; lia].
Qed.

(** ** Zlib, gzip and the streaming adapter

    The checksums are 32-bit words, a word is read back from its four bytes, a payload that
    inflates to the data does so inside a zlib or gzip container, and so what is pushed into
    an encoding codec in any pieces comes out of a decoding codec fed with any cuts of its
    output ([deflate_roundtrip]). *)

(** ** Words of 32 bits *)

Lemma lxor_bound n a b : 0 ≤ n → 0 ≤ a < 2 ^ n → 0 ≤ b < 2 ^ n → 0 ≤ Z.lxor a b < 2 ^ n.
Proof.
  intros Hn Ha Hb. assert (0 ≤ Z.lxor a b) as H0 by (apply Z.lxor_nonneg; lia). split; [done|].
  assert (Z.lxor a b / 2 ^ n = 0) as H; [|apply Z.div_small_iff in H; lia].
  rewrite <-Z.shiftr_div_pow2, Z.shiftr_lxor, !Z.shiftr_div_pow2, !Z.div_small by done. done.
Qed.

(** The four bytes of a word. *)
Lemma word_bytes v : is_u32 v → ∃ b0 b1 b2 b3,
  is_u8 b0 ∧ is_u8 b1 ∧ is_u8 b2 ∧ is_u8 b3 ∧ v = b0 + b1 * 2 ^ 8 + b2 * 2 ^ 16 + b3 * 2 ^ 24 ∧
  le_bytes32 v = [b0; b1; b2; b3] ∧ be_bytes32 v = [b3; b2; b1; b0].
Proof.
  intros Hv. unfold is_u32 in Hv. exists (as_u8 v), (as_u8 (Z.shiftr v 8)), (as_u8 (Z.shiftr v 16)), (as_u8 (Z.shiftr v 24)).
  split_and!; try apply as_u8_ok; [|done|done]. rewrite !Z.shiftr_div_pow2 by lia. unfold as_u8.
  change (2 ^ 16) with (2 ^ 8 * 2 ^ 8). change (2 ^ 24) with (2 ^ 8 * 2 ^ 8 * 2 ^ 8). change (2 ^ 8) with 256. rewrite <- !Z.div_div by lia.
  pose proof (Z.div_mod v 256). pose proof (Z.div_mod (v / 256) 256). pose proof (Z.div_mod (v / 256 / 256) 256).
  assert (0 ≤ v / 256 / 256 / 256 < 256) as Hq; [|rewrite (Z.mod_small _ _ Hq); lia].
  rewrite !Z.div_div by lia. split; [apply Z.div_pos; lia|apply Z.div_lt_upper_bound; lia].
Qed.

Lemma shiftl_add lo b k : 0 ≤ k → 0 ≤ lo < 2 ^ k → Z.lor lo (Z.shiftl b k) = lo + b * 2 ^ k.
Proof. intros Hk Hlo. rewrite Z.lor_comm, lor_shift_add by done. lia. Qed.

Lemma le_word v b0 b1 b2 b3 :
  is_u8 b0 → is_u8 b1 → is_u8 b2 → v = b0 + b1 * 2 ^ 8 + b2 * 2 ^ 16 + b3 * 2 ^ 24 →
  Z.lor (Z.lor (Z.lor b0 (Z.shiftl b1 8)) (Z.shiftl b2 16)) (Z.shiftl b3 24) = v.
Proof. unfold is_u8. intros H0 H1 H2 ->. rewrite (shiftl_add b0), (shiftl_add (b0 + _)), (shiftl_add (b0 + _ + _)) by lia. done. Qed.

Lemma be_word v b0 b1 b2 b3 :
  is_u8 b0 → is_u8 b1 → is_u8 b2 → v = b0 + b1 * 2 ^ 8 + b2 * 2 ^ 16 + b3 * 2 ^ 24 →
  Z.lor (Z.lor (Z.lor (Z.shiftl b3 24) (Z.shiftl b2 16)) (Z.shiftl b1 8)) b0 = v.
Proof.
  intros H0 H1 H2 E. rewrite <-(le_word v b0 b1 b2 b3) by done. apply Z.bits_inj'. intros n _. rewrite !Z.lor_spec.
  by destruct (Z.testbit b0 n), (Z.testbit (Z.shiftl b1 8) n), (Z.testbit (Z.shiftl b2 16) n), (Z.testbit (Z.shiftl b3 24) n).
Qed.

(** ** Checksums *)

Lemma crc_table_ok : length crc_table = 256%nat ∧ Forall is_u32 crc_table.
Proof.
  split; [done|]. assert (forallb (λ v, (0 <=? v) && (v <? 4294967296)) crc_table = true) as H by (vm_compute; reflexivity).
  apply Forall_forall. intros x Hx%list_elem_of_In. rewrite forallb_forall in H. specialize (H x Hx). unfold is_u32. lia.
Qed.

Lemma crc_step_ok b c : is_u32 c → ∃ c', crc_step crc_table b c = Ret c' ∧ is_u32 c'.
Proof.
  intros Hc. destruct crc_table_ok as [Hl Ht]. unfold crc_step. change 255 with (2 ^ 8 - 1). rewrite land_low by lia. change (2 ^ 8) with 256.
  pose proof (Z.mod_pos_bound (Z.lxor c b) 256 ltac:(lia)). destruct (index_total crc_table (Z.lxor c b `mod` 256)) as (e & -> & He); [unfold len; lia|].
  eexists. split; [reflexivity|]. pose proof (Forall_lookup_1 _ _ _ _ Ht He) as Hu. unfold is_u32 in *. change 4294967296 with (2 ^ 32) in *.
  apply lxor_bound; [lia|done|]. rewrite Z.shiftr_div_pow2 by lia. split; [apply Z.div_pos; lia|apply Z.div_lt_upper_bound; lia].
Qed.

Lemma crc32_ok bytes : ∃ c, crc32 bytes = Ret c ∧ is_u32 c.
Proof.
  assert (∀ c, is_u32 c → ∃ c', for_each (crc_step crc_table) bytes c = Ret c' ∧ is_u32 c') as G.
  { induction bytes as [|b bytes IH]; intros c Hc; [by exists c|]. destruct (crc_step_ok b c Hc) as (c1 & E & Hc1). cbn [for_each]. rewrite E. by apply IH. }
  destruct (G 4294967295) as (c & E & Hc); [unfold is_u32; lia|]. unfold crc32. rewrite E. eexists. split; [reflexivity|].
  unfold is_u32 in *. apply (lxor_bound 32); [lia|done|lia].
Qed.

Lemma adler32_ok bytes : is_u32 (adler32 bytes).
Proof.
  assert (∀ s, (0 ≤ s.1 < 65521 ∧ 0 ≤ s.2 < 65521) → let t := foldl adler_step s bytes in 0 ≤ t.1 < 65521 ∧ 0 ≤ t.2 < 65521) as G.
  { induction bytes as [|b bytes IH]; intros s Hs; [done|]. apply IH. cbn [adler_step fst snd]. split; by apply Z.mod_pos_bound. }
  specialize (G (1, 0)). unfold adler32. destruct (foldl adler_step (1, 0) bytes) as [a b]. cbn [fst snd] in G. destruct G as [Ha Hb]; [lia|].
  unfold as_u32. rewrite Z.mod_small, lor_shift_add by (rewrite ?Z.shiftl_mul_pow2; lia). unfold is_u32. lia.
Qed.

(** ** The containers *)

Lemma index_header (h r : list Z) k x : 0 ≤ k → h !! Z.to_nat k = Some x → index (h ++ r) k = Ret x.
Proof. intros Hk H. apply index_ok; [done|]. by apply lookup_app_l_Some. Qed.

Lemma zlib_container flg payload bytes max_output :
  flg = 1 ∨ flg = 156 → inflate_with_limit payload max_output = Ret (Ok bytes) →
  zlib_inflate_with_limit ([120; flg] ++ payload ++ be_bytes32 (adler32 bytes)) max_output = Ret (Ok bytes).
Proof.
  intros Hf E. destruct (word_bytes (adler32 bytes) (adler32_ok bytes)) as (b0 & b1 & b2 & b3 & H0 & H1 & H2 & H3 & Ev & _ & ->).
  set (all := [120; flg] ++ _). assert (len all = 2 + len payload + 4) as Hl by (unfold all; rewrite !len_app; unfold len at 1 3; simpl length; lia).
  pose proof (len_nonneg payload). unfold zlib_inflate_with_limit. rewrite (proj2 (Z.ltb_ge _ _)) by lia.
  unfold all at 1 2. rewrite (index_header _ _ 0 120), (index_header _ _ 1 flg) by done. fold all. cbn [outcome_bind]. change (negb (Z.land 120 15 =? 8)) with false. cbn match.
  replace (negb (Z.lor (as_u16 (Z.shiftl 120 8)) flg `mod` 31 =? 0)) with false by (by destruct Hf as [-> | ->]).
  replace (has_flag flg 32) with false by (by destruct Hf as [-> | ->]). cbn match.
  rewrite !Hl.
  assert (slice all 2 (2 + len payload + 4 - 4) = Ret payload) as -> by (apply slice_middle; [done|change (len [120; flg]) with 2; lia]).
  assert (slice_from all (2 + len payload + 4 - 4) = Ret [b3; b2; b1; b0]) as ->.
  { replace (2 + len payload + 4 - 4) with (len ([120; flg] ++ payload)) by (rewrite len_app; change (len [120; flg]) with 2; lia).
    unfold all. rewrite app_assoc. by apply slice_from_app. }
  cbn [outcome_bind]. rewrite E. cbn [fallible_bind].
  change (index [b3; b2; b1; b0] 0) with (Ret b3). change (index [b3; b2; b1; b0] 1) with (Ret b2).
  change (index [b3; b2; b1; b0] 2) with (Ret b1). change (index [b3; b2; b1; b0] 3) with (Ret b0). cbn [outcome_bind]. cbv zeta.
  rewrite (be_word (adler32 bytes)) by done. by rewrite Z.eqb_refl.
Qed.

Lemma gzip_container payload bytes c max_output :
  inflate_with_limit payload max_output = Ret (Ok bytes) → crc32 bytes = Ret c →
  gunzip_with_limit (GZIP_HEADER ++ payload ++ le_bytes32 c ++ le_bytes32 (as_u32 (len bytes))) max_output = Ret (Ok bytes).
Proof.
  intros E Ec. destruct (crc32_ok bytes) as (c' & Ec' & Hc). assert (c' = c) as -> by congruence. clear Ec'.
  destruct (word_bytes c Hc) as (b0 & b1 & b2 & b3 & H0 & H1 & H2 & H3 & Ev & -> & _).
  destruct (word_bytes (as_u32 (len bytes))) as (n0 & n1 & n2 & n3 & I0 & I1 & I2 & I3 & Ew & -> & _); [by apply Z.mod_pos_bound|].
  change ([b0; b1; b2; b3] ++ [n0; n1; n2; n3]) with [b0; b1; b2; b3; n0; n1; n2; n3]. set (t := [b0; b1; b2; b3; n0; n1; n2; n3]).
  set (all := GZIP_HEADER ++ payload ++ t). pose proof (len_nonneg payload).
  assert (len all = 10 + len payload + 8) as Hl by (unfold all; rewrite !len_app; change (len GZIP_HEADER) with 10; change (len t) with 8; lia).
  unfold gunzip_with_limit. rewrite (proj2 (Z.ltb_ge (len all) 18)) by lia.
  unfold all at 1 2 3 4. rewrite (index_header _ _ 0 31), (index_header _ _ 1 139), (index_header _ _ 2 8), (index_header _ _ 3 0) by done. fold all.
  cbn [outcome_bind]. change (negb (31 =? 31) || negb (139 =? 139)) with false. change (negb (8 =? 8)) with false. change (has_flag 0 224) with false. cbn match.
  change (has_flag 0 4) with false. change (has_flag 0 8) with false. change (has_flag 0 16) with false. change (has_flag 0 2) with false.
  unfold skip_extra, skip_name, skip_header_crc. cbn [fallible_bind]. rewrite (proj2 (Z.ltb_ge (len all) (10 + 8))) by lia.
  rewrite !Hl.
  assert (slice all 10 (10 + len payload + 8 - 8) = Ret payload) as -> by (apply slice_middle; [done|change (len GZIP_HEADER) with 10; lia]).
  assert (slice_from all (10 + len payload + 8 - 8) = Ret t) as ->.
  { replace (10 + len payload + 8 - 8) with (len (GZIP_HEADER ++ payload)) by (rewrite len_app; change (len GZIP_HEADER) with 10; lia).
    unfold all. rewrite app_assoc. by apply slice_from_app. }
  cbn [outcome_bind]. rewrite E. cbn [fallible_bind].
  change (le32 t 0) with (Ret (Z.lor (Z.lor (Z.lor b0 (Z.shiftl b1 8)) (Z.shiftl b2 16)) (Z.shiftl b3 24))).
  change (le32 t 4) with (Ret (Z.lor (Z.lor (Z.lor n0 (Z.shiftl n1 8)) (Z.shiftl n2 16)) (Z.shiftl n3 24))).
  cbn [outcome_bind]. rewrite Ec. cbn [outcome_bind]. rewrite (le_word c), (le_word (as_u32 (len bytes))) by done. by rewrite !Z.eqb_refl.
Qed.

(** The encoders that only store. *)
Lemma zlib_stored_spec bytes max_output : len bytes ≤ max_output → len bytes ≤ u64_max →
  zlib_inflate_with_limit (zlib_deflate_stored bytes) max_output = Ret (Ok bytes).
Proof. intros Hm H64. apply zlib_container; [by left|]. by apply deflate_stored_spec. Qed.

Lemma gzip_stored_spec bytes max_output : len bytes ≤ max_output → len bytes ≤ u64_max →
  ∃ out, gzip_deflate_stored bytes = Ret out ∧ gunzip_with_limit out max_output = Ret (Ok bytes).
Proof.
  intros Hm H64. destruct (crc32_ok bytes) as (c & Ec & _). unfold gzip_deflate_stored. rewrite Ec. eexists. split; [reflexivity|].
  apply gzip_container; [by apply deflate_stored_spec|done].
Qed.

(** ** The streaming adapter *)

(** Successive pushes. *)
Definition push_all (c : StreamCodec) (pieces : list (list Z)) : StreamCodec := foldl (λ c p, (codec_push c p).1) c pieces.

Lemma push_all_input f d pieces : ∀ i,
  push_all {| format := f; decoding := d; input := i; finished := false |} pieces =
  {| format := f; decoding := d; input := i ++ concat pieces; finished := false |}.
Proof.
  induction pieces as [|p pieces IH]; intros i; [cbn; by rewrite app_nil_r|]. change (concat (p :: pieces)) with (p ++ concat pieces).
  rewrite app_assoc. apply IH.
Qed.

Lemma encode_payload fmt bytes : bytes_ok bytes → len bytes < 2147483648 →
  ∃ out, finish_inner {| format := fmt; decoding := false; input := bytes; finished := false |} None = Ret (Ok out) ∧
    len out ≤ len (deflate_stored bytes) + 18 ∧
    ∀ limit, len bytes ≤ limit → finish_inner {| format := fmt; decoding := true; input := out; finished := false |} (Some limit) = Ret (Ok bytes).
Proof.
  intros Hb Hn. destruct (compressed_deflate_spec bytes Hb Hn) as (d & Ed & Hl & Hd). destruct (crc32_ok bytes) as (c & Ec & _).
  unfold finish_inner. cbn [decoding format input]. destruct fmt; cbn [default from_option].
  - unfold compressed_gzip_deflate. rewrite Ed. cbn [outcome_bind]. rewrite Ec. cbn [outcome_bind]. eexists. split; [reflexivity|]. split.
    + rewrite !len_app. change (len GZIP_HEADER) with 10. unfold le_bytes32, len in *. simpl length. lia.
    + intros limit Hm. cbv zeta. change (id limit) with limit. by rewrite (gzip_container d bytes c limit (Hd limit Hm) Ec).
  - unfold compressed_zlib_deflate. rewrite Ed. cbn [outcome_bind]. eexists. split; [reflexivity|]. split.
    + rewrite !len_app. unfold be_bytes32, len in *. simpl length. lia.
    + intros limit Hm. cbv zeta. change (id limit) with limit. by rewrite (zlib_container 156 d bytes limit (or_intror eq_refl) (Hd limit Hm)).
  - rewrite Ed. cbn [outcome_bind]. eexists. split; [reflexivity|]. split; [lia|]. intros limit Hm. cbv zeta. change (id limit) with limit. by rewrite (Hd limit Hm).
Qed.

(** C14: what a codec compresses, a codec of the same format decompresses: for gzip, zlib
    and raw DEFLATE, bytes pushed in any pieces give, at the end, an output at most 18 bytes
    longer than storing them would, and that output, pushed in any cuts to a decoding codec
    whose limit is at least the length of the bytes, gives the bytes back.  The positions of
    the compressor are [i32], hence the bound on the length. *)
Theorem deflate_roundtrip fmt pieces :
  bytes_ok (concat pieces) → len (concat pieces) < 2147483648 →
  ∃ out, codec_finish (push_all (codec_new fmt false) pieces) = Ret (Ok out) ∧
    len out ≤ len (deflate_stored (concat pieces)) + 18 ∧
    ∀ cuts limit, concat cuts = out → len (concat pieces) ≤ limit →
      finish_with_limit (push_all (codec_new fmt true) cuts) limit = Ret (Ok (concat pieces)).
Proof.
  intros Hb Hn. destruct (encode_payload fmt _ Hb Hn) as (out & E & Hl & Hd). exists out. unfold codec_finish, finish_with_limit, codec_new.
  rewrite !push_all_input, app_nil_l. split; [done|]. split; [done|]. intros cuts limit <- Hm. rewrite push_all_input, app_nil_l. by apply Hd.
Qed.

Lemma deflate_roundtrip_witness : ∃ out,
  codec_finish (push_all (codec_new Gzip false) [[97; 98; 97; 98]; []; [97; 98; 97; 98; 99]]) = Ret (Ok out) ∧
  len out ≤ 32 ∧
  ∀ cuts, concat cuts = out → finish_with_limit (push_all (codec_new Gzip true) cuts) 9 = Ret (Ok [97; 98; 97; 98; 97; 98; 97; 98; 99]).
Proof.
  destruct (deflate_roundtrip Gzip [[97; 98; 97; 98]; []; [97; 98; 97; 98; 99]]) as (out & E & Hl & Hd).
  - repeat constructor; done.
  - done.
  - exists out. split; [exact E|]. split; [exact Hl|]. intros cuts Hc. by apply Hd.
Defined.
