(* ===== verification/InflateTotal.v ===== *)
(** * InflateTotal: decoding any bytes ends, without a panic and within the limit

    Whatever the bytes, the decoder answers a value or an error: no table is indexed out
    of range, the fuel of its loops is enough, and what it answers is no longer than the
    limit it was given ([inflate_total]). *)

From S2P Require Import Prelude Bytes Bits Arrays Inflate InflateBits HuffmanTables DeflateWriter DeflateHeader DeflateRoundtrip.

Local Open Scope Z_scope.
Local Open Scope cruft_scope.

(** What [yields] says of a step at one place. *)
Definition answers {A} (k : nat) (P : A → Prop) (br : BitReader) (r : fallible (A * BitReader) DecodeError) : Prop :=
  match r with
  | Ret (Ok (a, br')) => P a ∧ at_ok br' ∧ data br' = data br ∧ (pos br + k ≤ pos br')%nat
  | Ret (Err _) => True
  | Panic => False
  end.

Lemma inflating_bind {A B} k (m : decoder A) (f : A → decoder B) (P : A → Prop) (Q : B → Prop) br :
  answers k P br (m br) →
  (∀ a br', P a → at_ok br' → data br' = data br → (pos br + k ≤ pos br')%nat → answers 0 Q br' (f a br')) →
  answers k Q br ((m ≫= f) br).
Proof.
  intros Hm Hf. rewrite decoder_bind_eq. unfold answers at 1 in Hm. destruct (m br) as [[[a br1]|e]|]; try done.
  destruct Hm as (HP & Hok1 & Hd1 & Hp1). cbn [fallible_bind fst snd]. specialize (Hf a br1 HP Hok1 Hd1 Hp1). unfold answers in *.
  destruct (f a br1) as [[[b br2]|e]|]; try done. destruct Hf as (HQ & Hok2 & Hd2 & Hp2). split_and!; [done|done|congruence|lia].
Qed.

Lemma inflating_weaken {A} k (P : A → Prop) br r : answers k P br r → answers 0 P br r.
Proof. unfold answers. destruct r as [[[a br']|e]|]; try done. intros (? & ? & ? & ?). split_and!; (done || lia). Qed.

(** A pure step that answers [a]. *)
Lemma yields_value {A B} k (m : outcome A) a (f : A → decoder B) Q : m = Ret a → yields k (f a) Q → yields k (pure_of m ≫= f) Q.
Proof. intros E Hf. eapply yields_bind_0; [by apply (yields_pure m a (eq a))|]. by intros ? <-. Qed.

(** A read of [n] bits, whose number the rest does not count. *)
Lemma yields_read {B} n (f : Z → decoder B) Q :
  (n ≤ 32)%nat → (∀ v, 0 ≤ v < 2 ^ Z.of_nat n → yields 0 (f v) Q) → yields 0 (read_bits n ≫= f) Q.
Proof. intros Hn Hf. apply (yields_weaken (n + 0) 0 _ Q Q); [|lia|done]. eapply yields_bind; [by apply yields_bits|done]. Qed.

Lemma bits_left_less br br' k : at_ok br' → data br' = data br → (pos br + k ≤ pos br')%nat → (bits_left br' + k ≤ bits_left br)%nat.
Proof. intros [_ Hp] Hd Hk. unfold bits_left, pos in *. rewrite Hd in *. lia. Qed.

(** ** Code lengths *)

Definition code_lengths_ok (l : list Z) : Prop := Forall (λ x, 0 ≤ x < 16) l.

Lemma store_lengths l i v : code_lengths_ok l → 0 ≤ v < 16 → 0 ≤ i < len l → ∃ l', store l i v = Ret l' ∧ code_lengths_ok l' ∧ len l' = len l.
Proof.
  intros Hl Hv Hi. rewrite store_ok by done. eexists. split; [reflexivity|]. split; [by apply Forall_insert|]. unfold len. by rewrite length_insert.
Qed.

Lemma read_code_lengths_yields order : ∀ l, Forall (λ o, 0 ≤ o < len l) order → code_lengths_ok l →
  yields 0 (read_code_lengths order l) (λ l', code_lengths_ok l' ∧ len l' = len l).
Proof.
  induction order as [|o order IH]; intros l Ho Hl; [by apply yields_ret|]. apply Forall_cons in Ho as [Ho1 Ho]. cbn [read_code_lengths].
  apply yields_read; [lia|]. intros v Hv.
  change (2 ^ Z.of_nat 3) with 8 in Hv. destruct (store_lengths l o (as_u8 v)) as (l1 & E & Hl1 & Hn); [done|unfold as_u8; rewrite Z.mod_small; lia|done|].
  eapply yields_value; [exact E|]. rewrite <-Hn. apply IH; [|done]. by rewrite Hn.
Qed.

Definition filling (n : Z) (s : list Z * Z) : Prop := code_lengths_ok s.1 ∧ len s.1 = n ∧ 0 ≤ s.2.

Lemma repeat_length_total m : ∀ v s n, filling n s → 0 ≤ v < 16 →
  match repeat_length m v s with Ret (Ok s') => filling n s' ∧ s.2 + Z.of_nat m = s'.2 | Ret (Err _) => True | Panic => False end.
Proof.
  induction m as [|m IH]; intros v [l i] n Hs Hv; [cbn; split; [done|lia]|]. destruct Hs as (Hl & Hn & Hi). cbn [fst snd] in *. cbn [repeat_length].
  destruct (Z.leb_spec (len l) i); [done|]. destruct (store_lengths l i v Hl Hv ltac:(lia)) as (l' & -> & Hl' & Hn'). cbn [outcome_bind].
  specialize (IH v (l', i + 1) n). cbn [snd] in IH. destruct (repeat_length m v (l', i + 1)) as [[s'|e]|]; [|done|].
  - destruct IH as [H1 H2]; [split_and!; cbn [fst snd]; (done || lia)|done|]. split; [done|lia].
  - apply IH; [split_and!; cbn [fst snd]; (done || lia)|done].
Qed.

(** A turn of the loop fills at least one entry. *)
Lemma read_length_yields t s n L : table_of L t → len L = 19 → filling n s → s.2 < n →
  yields 0 (read_length t s) (λ s', filling n s' ∧ s.2 + 1 ≤ s'.2).
Proof.
  intros Ht HL Hs Hlt. assert (∀ m v, (1 ≤ m)%nat → 0 ≤ v < 16 → yields 0 (lift (repeat_length m v s)) (λ s', filling n s' ∧ s.2 + 1 ≤ s'.2)) as Hrep.
  { intros m v Hm Hv. apply yields_lift. pose proof (repeat_length_total m v s n Hs Hv) as H. destruct (repeat_length m v s) as [[s'|e]|]; try done.
    destruct H as [H1 H2]. split; [done|lia]. }
  assert (∀ k lo v, (k ≤ 7)%nat → 1 ≤ lo → 0 ≤ v < 16 →
    yields 0 (read_bits k ≫= λ r, lift (repeat_length (Z.to_nat (r + lo)) v s)) (λ s', filling n s' ∧ s.2 + 1 ≤ s'.2)) as Hrun.
  { intros k lo v Hk Hlo Hv. apply yields_read; [lia|]. intros r Hr.
    apply Hrep; [lia|done]. }
  unfold read_length. eapply yields_weaken; [eapply (yields_bind 1 0); [by apply (yields_decode L)|]|lia|intros s' Hs'; exact Hs'].
  intros sym Hsym. cbv beta in Hsym. rewrite HL in Hsym. destruct s as [l i]. destruct Hs as (Hl & Hn & Hi). cbn [fst snd] in *.
  destruct (Z.leb_spec sym 15).
  - destruct (store_lengths l i (as_u8 sym)) as (l' & E & Hl' & Hn'); [done|unfold as_u8; rewrite Z.mod_small; lia|lia|].
    eapply yields_value; [exact E|]. apply yields_ret. split; [split_and!; cbn [fst snd]; (done || lia)|cbn [snd]; lia].
  - destruct (Z.eqb_spec sym 16); [destruct (Z.eqb_spec i 0); [apply yields_fail|]|destruct (Z.eqb_spec sym 17); [|destruct (Z.eqb_spec sym 18); [|apply yields_fail]]].
    + destruct (index_total l (i - 1)) as (prev & E & Hp); [lia|]. eapply yields_value; [exact E|].
      apply (Hrun 2%nat 3 prev); [lia|lia|exact (Forall_lookup_1 _ _ _ _ Hl Hp)].
    + apply (Hrun 3%nat 3 0); lia.
    + apply (Hrun 7%nat 11 0); lia.
Qed.

Lemma read_lengths_yields t L n fuel : ∀ s, table_of L t → len L = 19 → filling n s → n - s.2 ≤ Z.of_nat fuel →
  yields 0 (read_lengths fuel t s) (λ l, code_lengths_ok l ∧ len l = n).
Proof.
  induction fuel as [|fuel IH]; intros s Ht HL Hs Hf; cbn [read_lengths]; pose proof Hs as (Hl & Hn & Hi); rewrite Hn.
  - rewrite (proj2 (Z.ltb_ge _ _)) by lia. by apply yields_ret.
  - destruct (Z.ltb_spec s.2 n); [|by apply yields_ret]. eapply yields_bind_0; [by apply (read_length_yields t s n L)|].
    intros s' [Hs' Hlt]. apply IH; try done. lia.
Qed.

(** ** Tables *)

Definition table_below (n : Z) (t : HuffmanTable) : Prop := ∃ L, table_of L t ∧ len L ≤ n.

Lemma table_yields n l : code_lengths_ok l → len l ≤ n → n < 1000 → yields 0 (lift (from_lengths l)) (table_below n).
Proof.
  intros Hl Hn H1. destruct (from_lengths_table l) as (t & E & Ht); [split; [done|lia]|]. apply yields_lift. rewrite E. by exists l.
Qed.

Lemma read_dynamic_tables_yields : yields 0 read_dynamic_tables (λ t, table_below 288 t.1 ∧ table_below 32 t.2).
Proof.
  unfold read_dynamic_tables. apply yields_read; [lia|]. intros h1 Hh1. cbv beta zeta in *. change (2 ^ Z.of_nat 5) with 32 in *.
  apply yields_read; [lia|]. intros h2 Hh2. cbv beta zeta in *. change (2 ^ Z.of_nat 5) with 32 in *.
  apply yields_read; [lia|]. intros h3 Hh3. cbv beta zeta in *. change (2 ^ Z.of_nat 4) with 16 in *.
  eapply (yields_value _ _ (take (Z.to_nat (h3 + 4)) CODE_LENGTH_ORDER)).
  { rewrite slice_ok by (change (len CODE_LENGTH_ORDER) with 19; lia). by rewrite drop_0, Z.sub_0_r. }
  eapply yields_bind_0; [apply read_code_lengths_yields|].
  { apply Forall_take. eapply Forall_impl; [exact order_range|]. intros o Ho. cbv beta in *. change (len (replicate 19 0)) with 19. lia. }
  { by apply Forall_replicate. }
  intros cl [Hcl Hn]. change (len (replicate 19 0)) with 19 in Hn. destruct (from_lengths_table cl) as (t & E & Ht); [split; [done|lia]|].
  eapply yields_bind_0; [apply (yields_lift _ (eq t)); by rewrite E|]. intros ? <-. set (n := h1 + 257 + (h2 + 1)).
  eapply yields_bind_0; [apply (read_lengths_yields t cl n); [done|done| |cbn [snd]; lia]|].
  { split_and!; cbn [fst snd]; [by apply Forall_replicate|apply len_replicate; lia|lia]. }
  intros combined [Hc Hlen]. eapply (yields_value _ _ (take (Z.to_nat (h1 + 257)) combined)).
  { rewrite slice_ok by lia. by rewrite drop_0, Z.sub_0_r. }
  eapply yields_bind_0; [apply (table_yields 288); [by apply Forall_take|unfold len; rewrite length_take; lia|lia]|]. intros lit Hlit.
  eapply (yields_value _ _ (drop (Z.to_nat (h1 + 257)) combined)).
  { by rewrite slice_from_ok by lia. }
  eapply yields_bind_0; [apply (table_yields 32); [by apply Forall_drop|unfold len in *; rewrite length_drop; lia|lia]|]. intros dist Hdist.
  by apply yields_ret.
Qed.

(** ** Blocks *)

Lemma copy_match_total n : ∀ max_output src out, 0 ≤ src < len out →
  match copy_match n max_output src out with Panic => False | _ => True end.
Proof.
  induction n as [|n IH]; intros m src out Hs; [done|]. cbn [copy_match]. destruct (index_total out src Hs) as (b & -> & _). cbn [outcome_bind].
  cbv zeta. destruct (_ <? _); [done|]. apply IH. rewrite len_app. change (len [b]) with 1. lia.
Qed.


(** A table of the constants, indexed in range. *)
Lemma constant_yields (l : list Z) i (P : Z → bool) :
  forallb P l = true → 0 ≤ i < len l → yields 0 (pure_of (index l i)) (λ x, P x = true).
Proof.
  intros HP Hi. destruct (index_total l i Hi) as (x & E & Hx). eapply yields_pure; [exact E|]. rewrite forallb_forall in HP.
  apply HP, list_elem_of_In. by eapply list_elem_of_lookup_2.
Qed.

Lemma read_match_yields dist max_output sym out : table_below 32 dist → 257 ≤ sym → yields 0 (read_match dist max_output sym out) (λ _, True).
Proof.
  intros (L & HD & HL) Hsym. unfold read_match. cbv zeta. destruct (Z.leb_spec 29 (sym - 257)); [apply yields_fail|].
  eapply yields_bind_0; [apply (constant_yields LENGTH_BASE _ (Z.leb 0)); [done|change (len LENGTH_BASE) with 29; lia]|]. intros lb Hlb.
  eapply yields_bind_0; [apply (constant_yields LENGTH_EXTRA _ (λ e, (0 <=? e) && (e <=? 5))); [done|change (len LENGTH_EXTRA) with 29; lia]|]. intros le Hle.
  apply yields_read; [cbv beta in *; lia|]. intros lx Hlx.
  apply (yields_weaken (1 + 0) 0 _ (λ _, True)); [eapply yields_bind; [by apply (yields_decode L)|]|lia|done]. intros ds Hds. cbv beta in Hds.
  destruct (Z.leb_spec 30 ds); [apply yields_fail|].
  eapply yields_bind_0; [apply (constant_yields DISTANCE_BASE _ (Z.leb 1)); [done|change (len DISTANCE_BASE) with 30; lia]|]. intros db Hdb.
  eapply yields_bind_0; [apply (constant_yields DISTANCE_EXTRA _ (λ e, (0 <=? e) && (e <=? 13))); [done|change (len DISTANCE_EXTRA) with 30; lia]|]. intros de Hde.
  apply yields_read; [cbv beta in *; lia|]. intros dx Hdx. cbv beta in *.
  destruct (Z.ltb_spec (len out) (db + dx)); [apply yields_fail|]. apply yields_lift.
  pose proof (copy_match_total (Z.to_nat (lb + lx)) max_output (len out - (db + dx)) out ltac:(lia)) as Hc. revert Hc. by destruct (copy_match _ _ _ _) as [[?|?]|].
Qed.

Definition within (max_output : Z) (out : list Z) : Prop := len out ≤ max_output.


Lemma block_loop_answers fuel lit dist max_output : ∀ out br,
  table_below 288 lit → table_below 32 dist → at_ok br → (bits_left br < fuel)%nat →
  answers 0 (within max_output) br (block_loop fuel lit dist max_output out br).
Proof.
  induction fuel as [|fuel IH]; intros out br Hl Hd Hok Hf; [lia|]. cbn [block_loop]. destruct (Z.ltb_spec max_output (len out)); [done|].
  destruct Hl as (L & Ht & HL). eapply inflating_weaken, (inflating_bind 1 _ _ (λ s, 0 ≤ s < len L)); [by apply (yields_decode L lit Ht)|].
  intros sym br1 Hsym Hok1 Hd1 Hp1. pose proof (bits_left_less br br1 1 Hok1 Hd1 Hp1). destruct (Z.ltb_spec sym 256); [apply IH; [by exists L|done|done|lia]|].
  destruct (Z.eqb_spec sym 256); [apply (yields_ret out (within max_output)); done|].
  eapply (inflating_bind 0 _ _ (λ _, True)); [apply read_match_yields; [done|lia|done]|].
  intros out' br2 _ Hok2 Hd2 Hp2. pose proof (bits_left_less br1 br2 0 Hok2 Hd2 Hp2). apply IH; [by exists L|done|done|lia].
Qed.

Lemma decompress_block_yields out lit dist max_output :
  table_below 288 lit → table_below 32 dist → yields 0 (decompress_block out lit dist max_output) (within max_output).
Proof. intros Hl Hd br Hok. apply (block_loop_answers _ _ _ _ _ br); try done. lia. Qed.

Lemma fixed_block_yields max_output out : yields 0 (fixed_block max_output out) (within max_output).
Proof.
  assert (∀ L, forallb (λ l, (0 <=? l) && (l <? 16)) L = true → code_lengths_ok L) as G.
  { intros L H. apply Forall_forall. intros x Hx%list_elem_of_In. rewrite forallb_forall in H. specialize (H x Hx). lia. }
  unfold fixed_block. eapply yields_bind_0; [apply (table_yields 288); [by apply G|done|lia]|]. intros lit Hlit.
  eapply yields_bind_0; [apply (table_yields 32); [by apply G|done|lia]|]. intros dist Hdist. by apply decompress_block_yields.
Qed.

Lemma dynamic_block_yields max_output out : yields 0 (dynamic_block max_output out) (within max_output).
Proof. eapply yields_bind_0; [apply read_dynamic_tables_yields|]. intros t [Hl Hd]. by apply decompress_block_yields. Qed.

(** *** Stored blocks, read from the start of a byte *)

Definition aligned (br : BitReader) : Prop := bit_pos br = 0%nat ∧ (byte_pos br ≤ length (data br))%nat.

Lemma aligned_ok br : aligned br → at_ok br ∧ pos br = (8 * byte_pos br)%nat.
Proof. intros [Hb Hp]. unfold at_ok, pos. rewrite Hb. lia. Qed.

Lemma align_to_byte_spec br : at_ok br → ∃ br', align_to_byte br = Ret (Ok (tt, br')) ∧ aligned br' ∧ data br' = data br ∧ (pos br ≤ pos br')%nat.
Proof.
  intros [Hb Hp]. unfold align_to_byte. eexists. split; [reflexivity|]. unfold aligned, pos in *. case_bool_decide as E; cbn [negb].
  - split_and!; (done || lia).
  - cbn [seek data byte_pos bit_pos]. split_and!; (done || lia).
Qed.

(** Reading [n] bytes from the start of a byte. *)
Lemma read_aligned_bytes_spec n br : aligned br →
  read_aligned_bytes n br = Ret (Err UnexpectedEnd) ∨
  ∃ r br', read_aligned_bytes n br = Ret (Ok (r, br')) ∧ aligned br' ∧ data br' = data br ∧ (pos br ≤ pos br')%nat.
Proof.
  intros [Hb Hp]. unfold read_aligned_bytes. case_bool_decide as E; [by left|right]. rewrite slice_ok by (unfold len; lia). cbn [outcome_bind].
  eexists _, _. split; [reflexivity|]. unfold aligned, pos. cbn [seek data byte_pos bit_pos]. split_and!; (done || lia).
Qed.

Lemma read_aligned_u16_spec br : aligned br →
  read_aligned_u16_le br = Ret (Err UnexpectedEnd) ∨
  ∃ v br', read_aligned_u16_le br = Ret (Ok (v, br')) ∧ aligned br' ∧ data br' = data br ∧ (pos br ≤ pos br')%nat.
Proof.
  intros [Hb Hp]. unfold read_aligned_u16_le. case_bool_decide as E; [by left|right].
  destruct (index_total (data br) (Z.of_nat (byte_pos br))) as (lo & -> & _); [unfold len; lia|].
  destruct (index_total (data br) (Z.of_nat (byte_pos br) + 1)) as (hi & -> & _); [unfold len; lia|]. cbn [outcome_bind].
  eexists _, _. split; [reflexivity|]. unfold aligned, pos. cbn [seek data byte_pos bit_pos]. split_and!; (done || lia).
Qed.

Lemma stored_block_yields max_output out : yields 0 (stored_block max_output out) (within max_output).
Proof.
  intros br Hok. unfold stored_block. destruct (align_to_byte_spec br Hok) as (br1 & E1 & A1 & D1 & P1).
  rewrite decoder_bind_eq, E1. cbn [fallible_bind fst snd].
  destruct (read_aligned_u16_spec br1 A1) as [E2|(n & br2 & E2 & A2 & D2 & P2)]; rewrite decoder_bind_eq, E2; [done|]. cbn [fallible_bind fst snd].
  destruct (read_aligned_u16_spec br2 A2) as [E3|(nlen & br3 & E3 & A3 & D3 & P3)]; rewrite decoder_bind_eq, E3; [done|]. cbn [fallible_bind fst snd].
  destruct (negb _); [done|].
  destruct (read_aligned_bytes_spec (Z.to_nat n) br3 A3) as [E4|(r & br4 & E4 & A4 & D4 & P4)]; rewrite decoder_bind_eq, E4; [done|]. cbn [fallible_bind fst snd].
  destruct (checked_add64 (len out) (len r)) as [next|] eqn:Ec; [|done]. destruct (Z.ltb_spec max_output next); [done|].
  unfold checked_add64 in Ec. destruct (_ <=? _); [|done]. injection Ec as <-. destruct (aligned_ok br4 A4) as [Hok4 _].
  split_and!; [unfold within; rewrite len_app; lia|exact Hok4|congruence|lia].
Qed.

(** ** The stream *)

Lemma read_block_yields max_output out : yields 1 (read_block max_output out) (λ p, within max_output p.2).
Proof.
  unfold read_block. eapply (yields_then 1); [apply yields_bits; lia|]. intros bfinal _. apply yields_read; [lia|]. intros btype _.
  eapply (yields_bind_0 0 _ _ (within max_output)); [|intros out' Ho; by apply yields_ret].
  destruct (btype =? 0); [apply stored_block_yields|]. destruct (btype =? 1); [apply fixed_block_yields|]. destruct (btype =? 2); [apply dynamic_block_yields|apply yields_fail].
Qed.

Lemma blocks_loop_answers fuel max_output : ∀ out br, at_ok br → (bits_left br < fuel)%nat →
  answers 0 (within max_output) br (blocks_loop fuel max_output out br).
Proof.
  induction fuel as [|fuel IH]; intros out br Hok Hf; [lia|]. cbn [blocks_loop].
  eapply inflating_weaken, (inflating_bind 1 _ _ (λ p, within max_output p.2)); [by apply read_block_yields|].
  intros p br1 Hp Hok1 Hd1 Hp1. pose proof (bits_left_less br br1 1 Hok1 Hd1 Hp1). destruct (negb _); [by apply (yields_ret p.2 (within max_output))|].
  apply IH; [done|lia].
Qed.

(** An answer within a limit. *)
Definition bounded (max_output : Z) (r : fallible (list Z) DecodeError) : Prop :=
  match r with Ret (Ok out) => len out ≤ max_output | Ret (Err _) => True | Panic => False end.

Lemma inflate_bounded bytes max_output : bounded max_output (inflate_with_limit bytes max_output).
Proof.
  unfold inflate_with_limit. cbv zeta. pose proof (blocks_loop_answers (S (bits_left (reader_new bytes))) max_output [] (reader_new bytes)) as H.
  destruct (blocks_loop _ _ _ _) as [[[out br]|e]|]; cbn [fallible_bind bounded fst]; [|done|].
  - apply H; [|lia]. split; cbn; lia.
  - apply H; [|lia]. split; cbn; lia.
Qed.

(** Steps over the fields of a gzip header: an error, or a position further on. *)
Definition steps (bytes : list Z) (p : Z) (r : fallible Z DecodeError) : Prop :=
  match r with Ret (Ok p') => p ≤ p' ≤ len bytes | Ret (Err _) => True | Panic => False end.

Lemma skip_zero_spec l : ∀ p, match skip_zero_terminated l p with Ok p' => p ≤ p' ≤ p + len l | Err _ => True end.
Proof.
  induction l as [|b l IH]; intros p; [done|]. cbn [skip_zero_terminated]. pose proof (len_nonneg l). destruct (negb _).
  - specialize (IH (p + 1)). destruct (skip_zero_terminated l (p + 1)); [|done]. rewrite len_cons. lia.
  - rewrite len_cons. lia.
Qed.

Lemma skip_name_spec present bytes p : 0 ≤ p ≤ len bytes → steps bytes p (skip_name present bytes p).
Proof.
  intros Hp. unfold skip_name. destruct present; [|cbn; lia]. pose proof (skip_zero_spec (drop (Z.to_nat p) bytes) p) as H.
  cbn [steps]. destruct (skip_zero_terminated _ _); [|done]. unfold len in *. rewrite length_drop in H. lia.
Qed.

Lemma skip_extra_spec present bytes p : bytes_ok bytes → 0 ≤ p ≤ len bytes → steps bytes p (skip_extra present bytes p).
Proof.
  intros Hb Hp. unfold skip_extra. destruct present; [|cbn; lia]. destruct (Z.ltb_spec (len bytes) (p + 2)); [done|].
  destruct (index_total bytes p) as (lo & -> & Hlo); [lia|]. destruct (index_total bytes (p + 1)) as (hi & -> & Hhi); [lia|]. cbn [outcome_bind]. cbv zeta.
  pose proof (Forall_lookup_1 _ _ _ _ Hb Hlo) as H1. pose proof (Forall_lookup_1 _ _ _ _ Hb Hhi) as H2. unfold is_u8 in *.
  assert (0 ≤ Z.lor lo (Z.shiftl hi 8)) by (apply Z.lor_nonneg; rewrite Z.shiftl_nonneg; lia). destruct (Z.ltb_spec (len bytes) (p + (2 + Z.lor lo (Z.shiftl hi 8)))); cbn; lia.
Qed.

Lemma skip_header_crc_spec present bytes p : 0 ≤ p ≤ len bytes → steps bytes p (skip_header_crc present bytes p).
Proof. intros Hp. unfold skip_header_crc. destruct present; [|cbn; lia]. destruct (Z.ltb_spec (len bytes) (p + 2)); cbn; lia. Qed.

Lemma steps_bind {A} bytes p r (k : Z → fallible A DecodeError) (G : fallible A DecodeError → Prop) :
  steps bytes p r → (∀ e, G (Ret (Err e))) → (∀ p', p ≤ p' ≤ len bytes → G (k p')) → G (fallible_bind r k).
Proof. intros Hs He Hk. destruct r as [[p'|e]|]; cbn [fallible_bind]; [by apply Hk|apply He|done]. Qed.

(** An index in range answers. *)
Lemma bounded_index m (l : list Z) i k : 0 ≤ i < len l → (∀ x, bounded m (k x)) → bounded m (x <-! index l i; k x).
Proof. intros Hi Hk. destruct (index_total l i Hi) as (x & -> & _). apply Hk. Qed.

Lemma bounded_le32 m (l : list Z) i k : 0 ≤ i → i + 4 ≤ len l → (∀ x, bounded m (k x)) → bounded m (x <-! le32 l i; k x).
Proof.
  intros Hi Hl Hk. unfold le32. destruct (index_total l i) as (b0 & -> & _); [lia|]. destruct (index_total l (i + 1)) as (b1 & -> & _); [lia|].
  destruct (index_total l (i + 2)) as (b2 & -> & _); [lia|]. destruct (index_total l (i + 3)) as (b3 & -> & _); [lia|]. apply Hk.
Qed.

Lemma bounded_if m (b : bool) e r : bounded m r → bounded m (if b then Ret (Err e) else r).
Proof. by destruct b. Qed.

Lemma gunzip_bounded bytes m : bytes_ok bytes → (∀ out, ∃ c, crc32 out = Ret c) → bounded m (gunzip_with_limit bytes m).
Proof.
  intros Hb Hcrc. unfold gunzip_with_limit. destruct (Z.ltb_spec (len bytes) 18); [done|].
  apply bounded_index; [lia|]. intros b0. apply bounded_index; [lia|]. intros b1. apply bounded_if. apply bounded_index; [lia|]. intros b2. apply bounded_if.
  apply bounded_index; [lia|]. intros flg. apply bounded_if.
  apply (steps_bind bytes 10); [apply skip_extra_spec; [done|lia]|done|]. intros p1 Hp1.
  apply (steps_bind bytes p1); [apply skip_name_spec; lia|done|]. intros p2 Hp2. apply (steps_bind bytes p2); [apply skip_name_spec; lia|done|]. intros p3 Hp3.
  apply (steps_bind bytes p3); [apply skip_header_crc_spec; lia|done|]. intros p4 Hp4. destruct (Z.ltb_spec (len bytes) (p4 + 8)); [done|].
  rewrite slice_ok, slice_from_ok by lia. cbn [outcome_bind]. set (t := drop (Z.to_nat (len bytes - 8)) bytes). assert (len t = 8) as Ht by (unfold t, len in *; rewrite length_drop; lia).
  pose proof (inflate_bounded (take (Z.to_nat (len bytes - 8 - p4)) (drop (Z.to_nat p4) bytes)) m) as Hi. destruct (inflate_with_limit _ m) as [[out|e]|]; [|done|done].
  cbn [fallible_bind]. apply bounded_le32; [lia|lia|]. intros c1. apply bounded_le32; [lia|lia|]. intros c2. destruct (Hcrc out) as [c ->]. cbn [outcome_bind].
  by do 2 apply bounded_if.
Qed.

Lemma zlib_bounded bytes m : bounded m (zlib_inflate_with_limit bytes m).
Proof.
  unfold zlib_inflate_with_limit. destruct (Z.ltb_spec (len bytes) 6); [done|]. apply bounded_index; [lia|]. intros cmf. apply bounded_index; [lia|]. intros flg.
  do 3 apply bounded_if. rewrite slice_ok, slice_from_ok by lia. cbn [outcome_bind]. set (t := drop (Z.to_nat (len bytes - 4)) bytes).
  assert (len t = 4) as Ht by (unfold t, len in *; rewrite length_drop; lia).
  pose proof (inflate_bounded (take (Z.to_nat (len bytes - 4 - 2)) (drop (Z.to_nat 2) bytes)) m) as Hi. destruct (inflate_with_limit _ m) as [[out|e]|]; [|done|done].
  cbn [fallible_bind]. do 4 (apply bounded_index; [lia|]; intros ?). by apply bounded_if.
Qed.

(** C39: whatever the bytes, the decoders of raw DEFLATE, gzip, zlib and the [deflate] coding
    of HTTP answer, without a panic (no index out of range, no loop that does not end): an
    error, or an output no longer than the limit given. *)
Theorem inflate_total bytes max_output : bytes_ok bytes →
  bounded max_output (inflate_with_limit bytes max_output) ∧ bounded max_output (gunzip_with_limit bytes max_output) ∧
  bounded max_output (zlib_inflate_with_limit bytes max_output) ∧ bounded max_output (http_deflate_inflate_with_limit bytes max_output).
Proof.
  intros Hb. split_and!; [apply inflate_bounded| |apply zlib_bounded|].
  - apply gunzip_bounded; [done|]. intros out. destruct (crc32_ok out) as (c & E & _). by exists c.
  - unfold http_deflate_inflate_with_limit. pose proof (zlib_bounded bytes max_output) as Hz. destruct (zlib_inflate_with_limit _ _) as [[out|e]|]; [done|apply inflate_bounded|done].
Qed.

Lemma inflate_total_witness : bounded 3 (gunzip_with_limit (replicate 20 255) 3) ∧ bounded 3 (inflate_with_limit [3; 0] 3).
Proof.
  split.
  - apply (inflate_total (replicate 20 255) 3). by apply Forall_replicate.
  - apply (inflate_total [3; 0] 3). repeat constructor; done.
Defined.
