(* ===== verification/Tar.v ===== *)
(** * Tar: reading, writing and extracting tar archives

    rusty-js-tar/src/lib.rs.  Numbers that the code adds up are [usize] values which wrap
    or panic as the build profile says.  A [PathBuf] is its text, which here is UTF-8; a
    path given to the file system is its components, as [Path]'s equality has it.  The
    file system answers every operation, given those before it, with success or an error;
    an extraction records the operations it asks for ([trace]).  The loop over the headers
    runs on one unit of fuel per byte and one more, the loop over the records of a PAX header
    on one per byte: every turn moves on.  Out of fuel they panic. *)

From Stdlib Require String.
From S2P Require Import Prelude Paths Text Utf8 Bytes Arrays.

Local Open Scope Z_scope.
Local Open Scope cruft_scope.

Definition BLOCK : Z := 512.

Inductive TarError :=
| TruncatedHeader
| TruncatedEntry (path : string) (expected got : Z)
| BadChecksum (path : string) (expected actual : Z)
| BadNumber (field : string)
| BadPath
| UnsafePath (path : string)
| BadPax (e : string)
| Io (e : string).

Inductive EntryKind := File | Directory | Other (k : Z).

Definition is_file (k : EntryKind) : bool := match k with File => true | _ => false end.
Definition is_dir (k : EntryKind) : bool := match k with Directory => true | _ => false end.

Record Entry := { path : string; kind : EntryKind; contents : list Z; mode : Z; mtime : Z }.

Record Pax := { pax_path : option string }.

Definition pax_default : Pax := {| pax_path := None |}.

(** [iter().position(p)]. *)
Fixpoint position (p : Z → bool) (l : list Z) : option nat :=
  match l with
  | [] => None
  | x :: l => if p x then Some O else S <$> position p l
  end.

(** [iter().take_while(p)]. *)
Fixpoint take_while (p : Z → bool) (l : list Z) : list Z :=
  match l with
  | x :: l => if p x then x :: take_while p l else []
  | [] => []
  end.

Definition all_zero (l : list Z) : bool := forallb (λ b, b =? 0) l.

Definition round_block `{Profile} (n : Z) : outcome Z :=
  a <-! add64 n BLOCK; a <-! sub64 a 1; Ret (a / BLOCK * BLOCK).

(** ** Numbers *)

(** The digits of [u64::from_str_radix] in base 8. *)
Fixpoint parse_octal_digits (acc : Z) (s : string) : option Z :=
  match s with
  | EmptyString => Some acc
  | String a s' =>
      if code_in a 48 55 then
        let acc' := acc * 8 + (code a - 48) in
        if acc' <=? u64_max then parse_octal_digits acc' s' else None
      else None
  end.

(** [u64::from_str_radix(s, 8)]: one optional leading [+], then at least one digit. *)
Definition parse_octal (s : string) : option Z :=
  match s with
  | EmptyString => None
  | String a EmptyString => if bool_decide (a = "+"%char) then None else parse_octal_digits 0 s
  | String a s' => if bool_decide (a = "+"%char) then parse_octal_digits 0 s' else parse_octal_digits 0 s
  end.

(** A number of the header: in base 256 when the first byte has its high bit, else in
    octal digits up to a zero byte or a space. *)
Definition parse_number (bytes : list Z) (field : string) : result Z TarError :=
  match bytes with
  | b :: rest =>
      if negb (Z.land b 128 =? 0) then Ok (foldl (λ value b, Z.lor (wrap64 (Z.shiftl value 8)) b) (Z.land b 127) rest)
      else
        match take_while (λ b, negb (b =? 0) && negb (b =? 32)) bytes with
        | [] => Ok 0
        | text =>
            match string_from_utf8 text with
            | None => Err (BadNumber field)
            | Some s => match parse_octal (trim s) with Some v => Ok v | None => Err (BadNumber field) end
            end
        end
  | [] => Ok 0
  end.

Definition checksum (header : list Z) : Z :=
  foldr Z.add 0 (imap (λ i b, if (148 <=? Z.of_nat i) && (Z.of_nat i <? 156) then 32 else b) header).

Definition nul_string (bytes : list Z) : result string TarError :=
  let stop := default (length bytes) (position (λ b, b =? 0) bytes) in
  match string_from_utf8 (take stop bytes) with Some s => Ok s | None => Err BadPath end.

Definition header_path (header : list Z) : fallible string TarError :=
  n <-! slice header 0 100;
  name <-!? Ret (nul_string n);
  p <-! slice header 345 500;
  prefix <-!? Ret (nul_string p);
  if bool_decide (name = ""%string) then Ret (Err BadPath)
  else if bool_decide (prefix = ""%string) then Ret (Ok name)
  else Ret (Ok (path_join prefix name)).

(** ** PAX records *)

(** One record, from [i] on: where it ends, and what it leaves. *)
Definition pax_record `{Profile} (data : list Z) (i : Z) (pax : Pax) : fallible (Z * Pax) TarError :=
  rest <-! slice_from data i;
  match position (λ b, b =? 32) rest with
  | None => Ret (Err (BadPax "missing length separator"))
  | Some space_rel =>
      let space_rel := Z.of_nat space_rel in
      t <-! slice data i (i + space_rel);
      match string_from_utf8 t with
      | None => Ret (Err (BadPax "non-utf8 length"))
      | Some len_text =>
          match parse_uint u64_max len_text with
          | None => Ret (Err (BadPax "invalid length"))
          | Some n =>
              if n =? 0 then Ret (Err (BadPax "record length out of bounds"))
              else
                stop <-! add64 i n;
                if len data <? stop then Ret (Err (BadPax "record length out of bounds"))
                else
                  record <-! slice data (i + space_rel + 1) stop;
                  if negb (bool_decide (last record = Some 10)) then Ret (Err (BadPax "record missing newline"))
                  else
                    let body := take (length record - 1) record in
                    match position (λ b, b =? 61) body with
                    | None => Ret (Ok (stop, pax))
                    | Some eq =>
                        match string_from_utf8 (take eq body) with
                        | None => Ret (Err (BadPax "non-utf8 key"))
                        | Some key =>
                            match string_from_utf8 (drop (S eq) body) with
                            | None => Ret (Err (BadPax "non-utf8 value"))
                            | Some value =>
                                Ret (Ok (stop, if bool_decide (key = "path"%string) then {| pax_path := Some value |} else pax))
                            end
                        end
                    end
          end
      end
  end.

Fixpoint pax_loop `{Profile} (fuel : nat) (data : list Z) (i : Z) (pax : Pax) : fallible Pax TarError :=
  if i <? len data then
    match fuel with
    | O => Panic
    | S fuel' => p <-!? pax_record data i pax; pax_loop fuel' data p.1 p.2
    end
  else Ret (Ok pax).

Definition parse_pax `{Profile} (data : list Z) : fallible Pax TarError := pax_loop (length data) data 0 pax_default.

(** ** Archives *)

Definition entry_kind (b : Z) : EntryKind :=
  if (b =? 0) || (b =? 48) then File else if b =? 53 then Directory else Other b.

(** The locals of [parse_archive]: the offset, the PAX header read last, the entries. *)
Definition archive_state : Type := Z * Pax * list Entry.

(** One turn of the loop; [None] when the archive ends. *)
Definition archive_step `{Profile} (bytes : list Z) (s : archive_state) : fallible (option archive_state) TarError :=
  let '(offset, pending, out) := s in
  if len bytes <? offset + BLOCK then
    r <-! slice_from bytes offset;
    if all_zero r then Ret (Ok None) else Ret (Err TruncatedHeader)
  else
    header <-! slice bytes offset (offset + BLOCK);
    let offset := offset + BLOCK in
    if all_zero header then Ret (Ok None)
    else
      raw_path <-!? header_path header;
      f <-! slice header 148 156;
      expected <-!? Ret (parse_number f "checksum");
      let actual := checksum header in
      if negb (expected =? actual) then Ret (Err (BadChecksum raw_path expected actual))
      else
        f <-! slice header 124 136;
        size <-!? Ret (parse_number f "size");
        f <-! slice header 100 108;
        mode <-!? Ret (parse_number f "mode");
        f <-! slice header 136 148;
        mtime <-!? Ret (parse_number f "mtime");
        t <-! index header 156;
        data_end <-! add64 offset size;
        r <-! round_block size;
        padded_end <-! add64 offset r;
        if (len bytes <? data_end) || (len bytes <? padded_end) then
          Ret (Err (TruncatedEntry raw_path size (saturating_sub64 (len bytes) offset)))
        else
          data <-! slice bytes offset data_end;
          if t =? 120 then pax <-!? parse_pax data; Ret (Ok (Some (padded_end, pax, out)))
          else if t =? 103 then Ret (Ok (Some (padded_end, pending, out)))
          else
            let e := {| path := default raw_path (pax_path pending); kind := entry_kind t; contents := data; mode := mode; mtime := mtime |} in
            Ret (Ok (Some (padded_end, pax_default, out ++ [e]))).

Fixpoint archive_loop `{Profile} (fuel : nat) (bytes : list Z) (s : archive_state) : fallible (list Entry) TarError :=
  match fuel with
  | O => Panic
  | S fuel' =>
      r <-!? archive_step bytes s;
      match r with None => Ret (Ok s.2) | Some s => archive_loop fuel' bytes s end
  end.

Definition parse_archive `{Profile} (bytes : list Z) : fallible (list Entry) TarError :=
  archive_loop (S (length bytes)) bytes (0, pax_default, []).

(** ** Entry paths *)

Definition is_ascii_alphabetic (b : Z) : bool := (65 <=? b) && (b <=? 90) || (97 <=? b) && (b <=? 122).

Definition looks_like_drive_prefix (text : string) : bool :=
  match as_bytes text with b0 :: b1 :: _ => is_ascii_alphabetic b0 && (b1 =? 58) | _ => false end.

Definition path_has_windows_root_shape (p : string) : bool :=
  existsb (λ b, b =? 92) (as_bytes p) || string_starts_with "//" p || looks_like_drive_prefix p.

Definition is_windows_drive_component (part : string) : bool := looks_like_drive_prefix part.

(** [for component in path.components()]; the components of a Unix path have no prefix. *)
Fixpoint push_components (p : string) (cs : list component) (out : string) : result string TarError :=
  match cs with
  | [] => Ok out
  | Normal part :: cs => if is_windows_drive_component part then Err (UnsafePath p) else push_components p cs (path_join out part)
  | CurDir :: cs => push_components p cs out
  | (ParentDir | RootDir) :: _ => Err (UnsafePath p)
  end.

Definition sanitize_entry_path (p : string) : result string TarError :=
  if path_has_windows_root_shape p then Err (UnsafePath p) else push_components p (components p) "".

(** ** Extraction *)

Inductive fs_op :=
| CreateDirAll (p : list component)
| WriteFile (p : list component) (data : list Z).

(** The file system: the error an operation answers after those performed before it. *)
Definition file_system : Type := list fs_op → fs_op → option string.

Definition trace : Type := list fs_op.


Definition perform (fs : file_system) (op : fs_op) (e : string → TarError) : trace → trace * result unit TarError :=
  λ t, (t ++ [op], match fs t op with None => Ok tt | Some msg => Err (e msg) end).

(** [Path::parent]: the components but the last one, unless that is the root. *)
Definition parent (p : list component) : option (list component) :=
  match last p with Some (Normal _ | CurDir | ParentDir) => Some (removelast p) | _ => None end.

Definition create_parent (fs : file_system) (full : list component) (t : trace) : trace * result unit TarError :=
  match parent full with Some d => perform fs (CreateDirAll d) Io t | None => (t, Ok tt) end.

(** One turn of the loop of [extract_archive]: the files written so far. *)
Definition extract_entry (fs : file_system) (dest : string) (entry : Entry) (count : Z) (t : trace) : trace * result Z TarError :=
  match sanitize_entry_path (path entry) with
  | Err e => (t, Err e)
  | Ok safe =>
      if bool_decide (safe = ""%string) then (t, Ok count)
      else
        let full := components (path_join dest safe) in
        match kind entry with
        | File =>
            match create_parent fs full t with
            | (t, Err e) => (t, Err e)
            | (t, Ok _) =>
                match perform fs (WriteFile full (contents entry)) Io t with
                | (t, Err e) => (t, Err e)
                | (t, Ok _) => (t, Ok (count + 1))
                end
            end
        | Directory =>
            match perform fs (CreateDirAll full) Io t with
            | (t, Err e) => (t, Err e)
            | (t, Ok _) => (t, Ok count)
            end
        | Other k => (t, Err (UnsafePath (path entry +:+ " (unsupported entry kind " +:+ u64_to_string k +:+ ")")))
        end
  end.

Fixpoint extract_entries (fs : file_system) (dest : string) (entries : list Entry) (count : Z) (t : trace) : trace * result Z TarError :=
  match entries with
  | [] => (t, Ok count)
  | e :: entries =>
      match extract_entry fs dest e count t with
      | (t, Err e) => (t, Err e)
      | (t, Ok count) => extract_entries fs dest entries count t
      end
  end.

Definition extract_archive `{Profile} (fs : file_system) (bytes : list Z) (dest : string) : outcome (trace * result Z TarError) :=
  r <-! parse_archive bytes;
  Ret (match r with Err e => ([], Err e) | Ok entries => extract_entries fs dest entries 0 [] end).

(** ** Writing *)

(** [l[a..a + s.len()].copy_from_slice(s)]. *)
Definition copy_at (l : list Z) (a : Z) (s : list Z) : outcome (list Z) :=
  if (0 <=? a) && (a + len s <=? len l) then Ret (take (Z.to_nat a) l ++ s ++ drop (Z.to_nat (a + len s)) l) else Panic.

Fixpoint octal_loop (fuel : nat) (v : Z) (acc : list Z) : list Z :=
  match fuel with
  | O => acc
  | S fuel' => let acc := v `mod` 8 + 48 :: acc in if v <? 8 then acc else octal_loop fuel' (v / 8) acc
  end.

(** [format!("{value:0width$o}")]: a [u64] has at most 22 octal digits. *)
Definition format_octal (width : nat) (value : Z) : list Z :=
  let s := octal_loop 22 value [] in replicate (width - length s) 48 ++ s.

(** A field of [n] bytes. *)
Definition write_octal (n : nat) (value : Z) : outcome (list Z) :=
  let width := (n - 1)%nat in
  let s := format_octal width value in
  let start := (width - length s)%nat in
  copy_at (replicate n 0) (Z.of_nat start) s.

Definition write_checksum (value : Z) : outcome (list Z) :=
  let s := format_octal 6 value in
  if negb (length s =? 6)%nat then Panic
  else
    f <-! copy_at (replicate 8 0) 0 s;
    f <-! store f 6 0;
    store f 7 32.

(** [write_octal(&mut header[a..a + n], value)]. *)
Definition octal_field (header : list Z) (a : Z) (n : nat) (value : Z) : outcome (list Z) :=
  f <-! write_octal n value; copy_at header a f.

Definition append_header (out : list Z) (path : string) (size mode mtime kind : Z) : fallible (list Z) TarError :=
  let path_bytes := as_bytes path in
  if 100 <? len path_bytes then Ret (Err BadPath)
  else
    header <-! copy_at (replicate (Z.to_nat BLOCK) 0) 0 path_bytes;
    header <-! octal_field header 100 8 mode;
    header <-! octal_field header 108 8 0;
    header <-! octal_field header 116 8 0;
    header <-! octal_field header 124 12 size;
    header <-! octal_field header 136 12 mtime;
    header <-! copy_at header 148 (replicate 8 32);
    header <-! store header 156 kind;
    header <-! copy_at header 257 (as_bytes "ustar" ++ [0]);
    header <-! copy_at header 263 (as_bytes "00");
    let sum := checksum header in
    f <-! write_checksum sum;
    header <-! copy_at header 148 f;
    Ret (Ok (out ++ header)).

Definition pad_block `{Profile} (out : list Z) (n : Z) : outcome (list Z) :=
  r <-! round_block n; pad <-! sub64 r n; Ret (out ++ replicate (Z.to_nat pad) 0).

Definition append_file `{Profile} (out : list Z) (file : string * list Z) : fallible (list Z) TarError :=
  out <-!? append_header out file.1 (len file.2) 420 0 48;
  out <-! pad_block (out ++ file.2) (len file.2);
  Ret (Ok out).

Fixpoint append_files `{Profile} (out : list Z) (files : list (string * list Z)) : fallible (list Z) TarError :=
  match files with
  | [] => Ret (Ok out)
  | f :: files => out <-!? append_file out f; append_files out files
  end.

Definition build_ustar_archive `{Profile} (files : list (string * list Z)) : fallible (list Z) TarError :=
  out <-!? append_files [] files;
  Ret (Ok (out ++ replicate (Z.to_nat BLOCK) 0 ++ replicate (Z.to_nat BLOCK) 0)).
