(* ===== verification/TarPaths.v ===== *)
(** * TarPaths: an extraction stays inside its directory

    The path that sanitising an entry's path leaves has normal components only, so whatever
    an archive holds, every operation an extraction asks of the file system is on the
    directory it was given or on something below it ([tar_extraction_confined]). *)

From Stdlib Require String.
From S2P Require Import Prelude Paths Text Bytes Arrays Tar.

Local Open Scope cruft_scope.

(** ** Segments of a path *)

(** A name without a separator that is neither empty nor a dot. *)
Definition plain_name (s : string) : Prop := s ≠ "" ∧ s ≠ "." ∧ s ≠ ".." ∧ slash ∉ String.list_ascii_of_string s.

Lemma split_char_free c s w : w ∈ split_char c s → c ∉ String.list_ascii_of_string w.
Proof.
  revert w. induction s as [|a s IH]; intros w; cbn [split_char].
  - rewrite list_elem_of_singleton. intros ->. cbn. set_solver.
  - case_bool_decide as E.
    + rewrite elem_of_cons. intros [-> | Hw]; [cbn; set_solver|by apply IH].
    + destruct (split_char c s) as [|x xs] eqn:Es; [by destruct (split_char_not_nil c s)|].
      rewrite elem_of_cons. intros [-> | Hw]; [|apply IH; by right]. cbn. specialize (IH x ltac:(by left)). set_solver.
Qed.

Lemma split_char_single c s : c ∉ String.list_ascii_of_string s → split_char c s = [s].
Proof.
  induction s as [|a s IH]; [done|]. cbn. intros H. rewrite bool_decide_eq_false_2 by set_solver. rewrite IH by set_solver. done.
Qed.

Lemma segment_plain seg s : slash ∉ String.list_ascii_of_string seg → segment_component seg = Some (Normal s) → s = seg ∧ plain_name s.
Proof.
  intros Hs. unfold segment_component. case_bool_decide as E1; [done|]. case_bool_decide as E2; [done|]. intros [= <-].
  split; [done|]. unfold plain_name. split_and!; naive_solver.
Qed.

Lemma components_plain p s : Normal s ∈ components p → plain_name s.
Proof.
  unfold components, leading_cur_dir. rewrite elem_of_app. intros [H|H].
  - exfalso. destruct (is_absolute p); [set_solver|]. case_bool_decide; set_solver.
  - apply list_elem_of_omap in H as (seg & Hseg & E). apply segment_plain in E as [-> H]; [done|]. by eapply split_char_free.
Qed.

Lemma plain_components s : plain_name s → components s = [Normal s] ∧ is_absolute s = false.
Proof.
  intros (H1 & H2 & H3 & H4). assert (is_absolute s = false) as Ha.
  { unfold is_absolute. destruct s as [|a s]; [done|]. cbn. rewrite bool_decide_eq_false_2; [done|]. intros <-. apply H4. cbn. set_solver. }
  split; [|done]. unfold components, leading_cur_dir. rewrite Ha, split_char_single by done. cbn [head omap list_omap].
  rewrite bool_decide_eq_false_2 by congruence. unfold segment_component. rewrite !bool_decide_eq_false_2 by naive_solver. done.
Qed.

(** Joining a path of one plain name, or of several, to any directory. *)
Lemma components_join_relative base p :
  is_absolute p = false → head (split_char slash p) ≠ Some "." →
  components (path_join base p) = components base ++ components p.
Proof.
  intros Ha Hd. assert (components p = omap segment_component (split_char slash p)) as Ep.
  { unfold components, leading_cur_dir. by rewrite Ha, bool_decide_eq_false_2. }
  unfold path_join. rewrite Ha. destruct (decide (base = "")) as [->|Hne].
  { rewrite bool_decide_eq_true_2 by done. cbn. by rewrite string_app_nil_l. }
  rewrite bool_decide_eq_false_2 by done. cbn [orb]. rewrite Ep.
  destruct (string_ends_with_slash base) eqn:E; [|by apply components_app].
  apply ends_with_slash_inv in E as [c ->]. rewrite string_app_assoc. destruct (decide (c = "")) as [->|Hc].
  - done.
  - rewrite components_app by done. rewrite <-(string_app_nil_r "/"), components_app by done. cbn. by rewrite app_nil_r.
Qed.

(** A relative path of plain names. *)
Definition plain_path (p : string) (names : list string) : Prop :=
  is_absolute p = false ∧ components p = Normal <$> names ∧ head (split_char slash p) ≠ Some "." ∧ (names = [] → p = "").

Lemma plain_path_nil : plain_path "" [].
Proof. split_and!; done. Qed.

Lemma join_absolute base p : base ≠ "" → is_absolute p = false → is_absolute (path_join base p) = is_absolute base.
Proof.
  intros Hb Hp. unfold path_join. rewrite Hp. destruct base as [|a b]; [done|]. rewrite bool_decide_eq_false_2 by done. cbn [orb].
  destruct (string_ends_with_slash _); unfold is_absolute; by rewrite ?string_app_cons.
Qed.

Lemma plain_path_join base names s : plain_path base names → plain_name s → plain_path (path_join base s) (names ++ [s]).
Proof.
  intros (Ha & Hc & Hd & He) Hs. destruct (plain_components s Hs) as [Ec Es]. pose proof Hs as (H1 & H2 & H3 & H4).
  assert (head (split_char slash s) ≠ Some ".") as Hds by (rewrite split_char_single by done; cbn; congruence).
  split_and!.
  - destruct (decide (base = "")) as [->|Hne]; [unfold path_join; by rewrite Es|]. by rewrite join_absolute.
  - rewrite components_join_relative, Hc, Ec, fmap_app by done. done.
  - unfold path_join. rewrite Es. destruct (decide (base = "")) as [->|Hne]; [rewrite bool_decide_eq_true_2 by done; by rewrite string_app_nil_l|].
    rewrite bool_decide_eq_false_2 by done. cbn [orb]. destruct (string_ends_with_slash base) eqn:E.
    + apply ends_with_slash_inv in E as [c ->]. rewrite string_app_assoc. change ("/" +:+ s) with (String slash s). rewrite head_split_char_app.
      change (c +:+ "/") with (c +:+ String slash "") in Hd. by rewrite head_split_char_app in Hd.
    + change ("/" +:+ s) with (String slash s). by rewrite head_split_char_app.
  - intros Hn. by destruct names.
Qed.

Lemma push_components_spec p cs : ∀ out names safe,
  plain_path out names → (∀ s, Normal s ∈ cs → plain_name s) → push_components p cs out = Ok safe → ∃ names', plain_path safe names'.
Proof.
  induction cs as [|c cs IH]; intros out names safe Ho Hcs E; cbn [push_components] in E; [injection E as <-; by exists names|].
  destruct c as [| | |s]; try done.
  - eapply IH; [exact Ho| |exact E]. intros s Hs. apply Hcs. by right.
  - destruct (is_windows_drive_component s); [done|]. eapply IH; [apply plain_path_join; [exact Ho|apply Hcs; by left]| |exact E].
    intros s' Hs. apply Hcs. by right.
Qed.

Lemma sanitize_plain p safe : sanitize_entry_path p = Ok safe → ∃ names, plain_path safe names.
Proof.
  unfold sanitize_entry_path. destruct (path_has_windows_root_shape p); [done|]. intros E.
  eapply push_components_spec; [apply plain_path_nil| |exact E]. intros s. apply components_plain.
Qed.

(** ** Extraction *)

(** A path at or below the directory [dest]: only names follow. *)
Definition below (dest : string) (p : list component) : Prop := ∃ names, p = components dest ++ (Normal <$> names).

Definition op_below (dest : string) (op : fs_op) : Prop := match op with CreateDirAll p | WriteFile p _ => below dest p end.

(** The file an entry is written to, if it is one. *)
Definition file_target (dest : string) (e : Entry) : option (list component * list Z) :=
  match kind e, sanitize_entry_path (path e) with
  | File, Ok safe => if bool_decide (safe = "") then None else Some (components (path_join dest safe), contents e)
  | _, _ => None
  end.

Definition written (t : trace) : list (list component * list Z) :=
  omap (λ op, match op with WriteFile p d => Some (p, d) | CreateDirAll _ => None end) t.

Lemma written_app t u : written (t ++ u) = written t ++ written u.
Proof. apply omap_app. Qed.

Lemma safe_below dest safe names : plain_path safe names → components (path_join dest safe) = components dest ++ (Normal <$> names).
Proof. intros (Ha & Hc & Hd & _). by rewrite components_join_relative, Hc. Qed.

Lemma parent_below dest p q : below dest p → p ≠ components dest → parent p = Some q → below dest q.
Proof.
  intros [names ->] Hne. destruct names as [|s names _] using rev_ind; [rewrite fmap_nil, app_nil_r in Hne; done|].
  unfold parent. rewrite fmap_app, (assoc_L (++)). change (Normal <$> [s]) with [Normal s]. rewrite last_snoc, removelast_last. intros [= <-]. by exists names.
Qed.

Lemma extract_entry_spec fs dest e count t t' r :
  extract_entry fs dest e count t = (t', r) →
  ∃ ops, t' = t ++ ops ∧ Forall (op_below dest) ops ∧
    (∀ n, r = Ok n → n = (count + Z.of_nat (length (written ops)))%Z ∧ written ops = option_list (file_target dest e)).
Proof.
  unfold extract_entry, file_target. destruct (sanitize_entry_path (path e)) as [safe|err] eqn:Es.
  2: { intros [= <- <-]. exists []. rewrite app_nil_r. split_and!; [done|constructor|done]. }
  destruct (sanitize_plain _ _ Es) as (names & Hp). case_bool_decide as Hn.
  { intros [= <- <-]. exists []. rewrite app_nil_r. split_and!; [done|constructor|]. intros n [= <-]. split; [cbn; lia|]. by destruct (kind e). }
  pose proof (safe_below dest safe names Hp) as Hfull. set (full := components (path_join dest safe)) in *.
  assert (below dest full) as Hb by (by exists names).
  assert (full ≠ components dest) as Hne.
  { rewrite Hfull. intros H. apply (f_equal length) in H. rewrite length_app, length_fmap in H. destruct names; [|cbn in H; lia]. destruct Hp as (_ & _ & _ & He). by apply Hn, He. }
  destruct (kind e) as [| |k].
  - unfold create_parent. destruct (parent full) as [q|] eqn:Eq.
    + pose proof (parent_below dest full q Hb Hne Eq) as Hq. unfold perform at 1. destruct (fs t (CreateDirAll q)).
      { intros [= <- <-]. exists [CreateDirAll q]. split_and!; [done|by repeat constructor|done]. }
      unfold perform. destruct (fs (t ++ [CreateDirAll q]) _); intros [= <- <-]; exists [CreateDirAll q; WriteFile full (contents e)];
        rewrite <-app_assoc; (split_and!; [done|by repeat constructor|]); [done|]. intros n [= <-]. by split.
    + unfold perform. destruct (fs t _); intros [= <- <-]; exists [WriteFile full (contents e)]; (split_and!; [done|by repeat constructor|]); [done|].
      intros n [= <-]. by split.
  - unfold perform. destruct (fs t _); intros [= <- <-]; exists [CreateDirAll full]; (split_and!; [done|by repeat constructor|]); [done|].
    intros n [= <-]. split; [cbn; lia|done].
  - intros [= <- <-]. exists []. rewrite app_nil_r. split_and!; [done|constructor|done].
Qed.

Lemma extract_entries_spec fs dest es : ∀ count t t' r,
  extract_entries fs dest es count t = (t', r) →
  ∃ ops, t' = t ++ ops ∧ Forall (op_below dest) ops ∧
    (∀ n, r = Ok n → n = (count + Z.of_nat (length (written ops)))%Z ∧ written ops = omap (file_target dest) es).
Proof.
  induction es as [|e es IH]; intros count t t' r E; cbn [extract_entries] in E.
  - injection E as <- <-. exists []. rewrite app_nil_r. split_and!; [done|constructor|]. intros n [= <-]. split; [cbn; lia|done].
  - destruct (extract_entry fs dest e count t) as [t1 [c1|err]] eqn:E1; destruct (extract_entry_spec _ _ _ _ _ _ _ E1) as (ops & -> & Hops & Hw).
    + destruct (IH _ _ _ _ E) as (ops2 & -> & Hops2 & Hw2). exists (ops ++ ops2). rewrite app_assoc. split_and!; [done|by apply Forall_app|].
      intros n Hn. destruct (Hw c1 eq_refl) as [-> Ew]. destruct (Hw2 n Hn) as [-> Ew2]. rewrite written_app, length_app, Ew2. split; [lia|].
      rewrite Ew. cbn. by destruct (file_target dest e).
    + injection E as <- <-. exists ops. split_and!; done.
Qed.

(** C5: whatever archive it is given and however the file system answers, an extraction asks
    only for operations on the directory it was given or on paths made of that directory and
    plain names below it: no absolute path, no [..] and no link of an archive reaches
    outside.  When it succeeds, the files it wrote are the archive's files with a path that
    is not empty, in order and with their contents, and it answers how many they are. *)
Theorem tar_extraction_confined `{Profile} fs bytes dest t r :
  extract_archive fs bytes dest = Ret (t, r) →
  Forall (op_below dest) t ∧
  ∀ n, r = Ok n → ∃ entries, parse_archive bytes = Ret (Ok entries) ∧
    written t = omap (file_target dest) entries ∧ n = Z.of_nat (length (written t)).
Proof.
  unfold extract_archive. destruct (parse_archive bytes) as [[es|e]|]; cbn [outcome_bind]; [| |done].
  - intros [= E]. destruct (extract_entries_spec _ _ _ _ _ _ _ E) as (ops & -> & Hops & Hw). split; [done|]. intros n Hn.
    destruct (Hw n Hn) as [-> Ew]. by exists es.
  - intros [= <- <-]. split; [constructor|done].
Qed.

(** An archive of two files, one with a dot in its path. *)
Definition sample_archive : list Z :=
  match @build_ustar_archive true [("a/./b", [1; 2]%Z); ("c", [])] with Ret (Ok bytes) => bytes | _ => [] end.

Definition sample_trace : trace :=
  [CreateDirAll [RootDir; Normal "d"; Normal "a"]; WriteFile [RootDir; Normal "d"; Normal "a"; Normal "b"] [1; 2]%Z;
   CreateDirAll [RootDir; Normal "d"]; WriteFile [RootDir; Normal "d"; Normal "c"] []].

Lemma tar_extraction_confined_witness :
  @extract_archive true (λ _ _, None) sample_archive "/d" = Ret (sample_trace, Ok 2%Z) ∧ Forall (op_below "/d") sample_trace.
Proof.
  assert (@extract_archive true (λ _ _, None) sample_archive "/d" = Ret (sample_trace, Ok 2%Z)) as E by (vm_compute; reflexivity).
  split; [exact E|]. exact (proj1 (@tar_extraction_confined true _ _ _ _ _ E)).
Defined.

(** ** Archives on which the reader panics

    A PAX record whose length does not reach past its own length field, and an entry whose
    size, in base 256, is close to 2^64: in both cases the slice that follows begins after
    its end. *)
Lemma parse_pax_short_record_panics : @parse_pax true (as_bytes "1 x") = Panic ∧ @parse_pax false (as_bytes "1 x") = Panic.
Proof. split; vm_compute; reflexivity. Qed.

Definition huge_size_archive : list Z :=
  let size := [128; 0; 0; 0]%Z ++ replicate 8 255%Z in
  let header := take 124 sample_archive ++ size ++ drop 136 (take 512 sample_archive) in
  match write_checksum (checksum header) with
  | Ret f => take 148 header ++ f ++ drop 156 header
  | Panic => []
  end.

Lemma parse_archive_huge_size_panics :
  @parse_archive true huge_size_archive = Panic ∧ @parse_archive false huge_size_archive = Panic.
Proof. split; vm_compute; reflexivity. Qed.
