(* ===== verification/TarRoundtrip.v ===== *)
(** * TarRoundtrip: what is archived is parsed back

    A header that [append_header] writes is read back as the path, the size and the other
    fields it was made from, so parsing the archive of a list of files gives those files
    ([tar_roundtrip]). *)

From Stdlib Require String.
From S2P Require Import Prelude Paths Text Utf8 Bytes Arrays Tar.

Local Open Scope Z_scope.
Local Open Scope cruft_scope.

(** ** Octal numbers *)

Definition octal_digit (d : Z) : Prop := 48 ≤ d ≤ 55.
Definition octal_value (acc : Z) (l : list Z) : Z := foldl (λ a d, a * 8 + (d - 48)) acc l.

Lemma octal_value_bound l : ∀ acc, 0 ≤ acc → Forall octal_digit l → acc * 8 ^ len l ≤ octal_value acc l < (acc + 1) * 8 ^ len l.
Proof.
  induction l as [|d l IH]; intros acc Ha Hl; [rewrite (@len_nil Z); change (octal_value acc []) with acc; lia|]. apply Forall_cons in Hl as [Hd Hl]. unfold octal_digit in Hd. cbn [octal_value foldl].
  rewrite len_cons. pose proof (len_nonneg l). rewrite Z.pow_add_r by lia. specialize (IH (acc * 8 + (d - 48)) ltac:(lia) Hl). unfold octal_value in IH. change (8 ^ 1) with 8.
  pose proof (Z.pow_pos_nonneg 8 (len l) ltac:(lia) ltac:(lia)). nia.
Qed.

Lemma octal_loop_spec fuel : ∀ v acc, 0 ≤ v < 8 ^ Z.of_nat fuel → (1 ≤ fuel)%nat →
  ∃ ds, octal_loop fuel v acc = ds ++ acc ∧ Forall octal_digit ds ∧ octal_value 0 ds = v ∧ (1 ≤ length ds)%nat ∧
    ∀ k : nat, (1 ≤ k)%nat → v < 8 ^ Z.of_nat k → (length ds ≤ k)%nat.
Proof.
  induction fuel as [|fuel IH]; intros v acc Hv Hf; [lia|]. cbn [octal_loop]. pose proof (Z.mod_pos_bound v 8 ltac:(lia)) as Hm.
  destruct (Z.ltb_spec v 8) as [H8|H8].
  - exists [v `mod` 8 + 48]. rewrite Z.mod_small by lia. split_and!; [done|repeat constructor; lia|cbn; lia|cbn; lia|]. intros k Hk _. cbn. lia.
  - rewrite Nat2Z.inj_succ, Z.pow_succ_r in Hv by lia. assert (1 ≤ fuel)%nat by (destruct fuel; [cbn in Hv; lia|lia]).
    destruct (IH (v / 8) (v `mod` 8 + 48 :: acc)) as (ds & E & Hd & Hval & Hl & Hk); [split; [apply Z.div_pos; lia|apply Z.div_lt_upper_bound; lia]|done|].
    exists (ds ++ [v `mod` 8 + 48]). rewrite E, <-app_assoc. split_and!; [done|apply Forall_app; split; [done|repeat constructor; lia]| |rewrite length_app; cbn; lia|].
    + unfold octal_value in *. rewrite foldl_app, Hval. cbn. pose proof (Z.div_mod v 8). lia.
    + intros k H1 Hlt. rewrite length_app. cbn [length]. destruct (decide (k = 1)%nat) as [->|]; [cbn in Hlt; lia|].
      enough (length ds ≤ k - 1)%nat by lia. apply Hk; [lia|]. apply Z.div_lt_upper_bound; [lia|].
      rewrite <-Z.pow_succ_r by lia. by replace (Z.succ (Z.of_nat (k - 1))) with (Z.of_nat k) by lia.
Qed.

Lemma octal_value_zeros n l : octal_value 0 (replicate n 48 ++ l) = octal_value 0 l.
Proof. induction n as [|n IH]; [done|]. exact IH. Qed.

(** The digits of a number that [width] digits hold, or [width + 1]. *)
Lemma format_octal_spec (width : nat) v : 0 ≤ v < 8 ^ Z.of_nat width → (1 ≤ width ≤ 20)%nat →
  ∃ ds, format_octal width v = ds ∧ Forall octal_digit ds ∧ octal_value 0 ds = v ∧ length ds = width.
Proof.
  intros Hv Hw. assert (8 ^ Z.of_nat width ≤ 8 ^ 22) by (apply Z.pow_le_mono_r; lia).
  destruct (octal_loop_spec 22 v []) as (ds & E & Hd & Hval & Hl & Hk); [change (Z.of_nat 22) with 22; lia|lia|]. rewrite app_nil_r in E.
  specialize (Hk width ltac:(lia) ltac:(lia)). eexists. split; [reflexivity|]. unfold format_octal. rewrite E. split_and!.
  - apply Forall_app. split; [|done]. apply Forall_replicate. unfold octal_digit. lia.
  - by rewrite octal_value_zeros.
  - rewrite length_app, length_replicate. lia.
Qed.

Lemma octal_digit_cases d : octal_digit d → is_u8 d ∧ code_in (byte d) 48 55 = true ∧ code (byte d) = d ∧ is_ascii (byte d) = true ∧ graphic (byte d) = true ∧
  negb (d =? 0) && negb (d =? 32) = true ∧ byte d ≠ "+"%char ∧ Z.land d 128 = 0.
Proof.
  unfold octal_digit. intros Hd. assert (d ∈ [48; 49; 50; 51; 52; 53; 54; 55]) as Hin.
  { rewrite !elem_of_cons. lia. }
  repeat (apply elem_of_cons in Hin as [-> | Hin]; [split_and!; (reflexivity || (unfold is_u8; lia) || discriminate)|]). set_solver.
Qed.

Lemma octal_string l : Forall octal_digit l →
  string_from_utf8 l = Some (string_of_bytes l) ∧ trim (string_of_bytes l) = string_of_bytes l.
Proof.
  intros Hl. assert (utf8 (byte <$> l)) as Hu.
  { induction Hl as [|d l Hd _ IH]; [constructor|]. rewrite fmap_cons. apply utf8_ascii; [|done]. by apply octal_digit_cases. }
  split; [unfold string_from_utf8; by rewrite (proj2 (from_utf8_iff _) Hu)|]. apply trim_graphic. clear Hu. unfold string_of_bytes.
  induction Hl as [|d l Hd _ IH]; [done|]. rewrite fmap_cons. cbn [String.string_of_list_ascii string_forallb]. rewrite IH.
  destruct (octal_digit_cases d Hd) as (_ & _ & _ & _ & -> & _). done.
Qed.

Lemma parse_octal_digits_spec l : ∀ acc, 0 ≤ acc → Forall octal_digit l → octal_value acc l ≤ u64_max →
  parse_octal_digits acc (string_of_bytes l) = Some (octal_value acc l).
Proof.
  induction l as [|d l IH]; intros acc Ha Hl Hb; [done|]. apply Forall_cons in Hl as [Hd Hl]. destruct (octal_digit_cases d Hd) as (_ & H1 & H2 & _). unfold octal_digit in Hd.
  unfold string_of_bytes. rewrite fmap_cons. cbn [String.string_of_list_ascii parse_octal_digits]. rewrite H1, H2. cbv zeta.
  cbn [octal_value foldl] in *. fold (octal_value (acc * 8 + (d - 48)) l) in *.
  pose proof (octal_value_bound l (acc * 8 + (d - 48)) ltac:(lia) Hl). pose proof (Z.pow_pos_nonneg 8 (len l) ltac:(lia) (len_nonneg l)).
  rewrite (proj2 (Z.leb_le _ _)) by nia. apply IH; [lia|done|done].
Qed.

Lemma parse_octal_spec l : l ≠ [] → Forall octal_digit l → octal_value 0 l ≤ u64_max → parse_octal (string_of_bytes l) = Some (octal_value 0 l).
Proof.
  intros Hne Hl Hb. pose proof (parse_octal_digits_spec l 0 ltac:(lia) Hl Hb) as E. destruct l as [|d l]; [done|]. pose proof Hl as Hl'.
  apply Forall_cons in Hl' as [Hd _]. destruct (octal_digit_cases d Hd) as (_ & _ & _ & _ & _ & _ & Hp & _).
  unfold string_of_bytes in *. rewrite fmap_cons in *. cbn [String.string_of_list_ascii] in *. unfold parse_octal. rewrite bool_decide_eq_false_2 by done.
  by destruct (String.string_of_list_ascii _).
Qed.

Lemma take_while_digits l r : Forall octal_digit l → (r = [] ∨ head r = Some 0) →
  take_while (λ b, negb (b =? 0) && negb (b =? 32)) (l ++ r) = l.
Proof.
  intros Hl Hr. induction Hl as [|d l Hd _ IH]; cbn [app take_while].
  - destruct Hr as [-> | Hr]; [done|]. destruct r; [done|]. cbn in Hr. by injection Hr as ->.
  - destruct (octal_digit_cases d Hd) as (_ & _ & _ & _ & _ & -> & _). by rewrite IH.
Qed.

(** A field of digits, up to its end or a zero byte, reads as their value. *)
Lemma parse_number_digits l r f : l ≠ [] → Forall octal_digit l → (r = [] ∨ head r = Some 0) → octal_value 0 l ≤ u64_max →
  parse_number (l ++ r) f = Ok (octal_value 0 l).
Proof.
  intros Hne Hl Hr Hb. pose proof (take_while_digits l r Hl Hr) as Et. destruct (octal_string l Hl) as [Es Etr]. pose proof (parse_octal_spec l Hne Hl Hb) as Ep.
  destruct l as [|d l]; [done|]. pose proof Hl as Hl'. apply Forall_cons in Hl' as [Hd _]. destruct (octal_digit_cases d Hd) as (_ & _ & _ & _ & _ & _ & _ & Hd0).
  unfold parse_number. cbn [app] in *. rewrite Hd0, Et. change (negb (0 =? 0)) with false. cbn match. by rewrite Es, Etr, Ep.
Qed.

(** ** Writing into a header *)

Lemma copy_at_middle l m r s a : a = len l → length m = length s → copy_at (l ++ m ++ r) a s = Ret (l ++ s ++ r).
Proof.
  intros -> Hm. unfold copy_at. rewrite !len_app. pose proof (len_nonneg l). pose proof (len_nonneg r). assert (len m = len s) as Hms by (unfold len; lia).
  rewrite (proj2 (Z.leb_le _ _)), (proj2 (Z.leb_le _ _)) by lia. cbn [andb]. unfold len. rewrite Nat2Z.id, take_app_length. do 3 f_equal.
  rewrite app_assoc. replace (Z.to_nat (Z.of_nat (length l) + Z.of_nat (length s))) with (length (l ++ m)) by (rewrite length_app; lia). by rewrite drop_app_length.
Qed.

Lemma digits_bytes l : Forall octal_digit l → bytes_ok l.
Proof. intros Hl. eapply Forall_impl; [exact Hl|]. intros d Hd. by apply octal_digit_cases. Qed.

(** A numeric field: as many digits as fit, and a zero byte after them unless the field is
    full; [v] has at most [n] digits. *)
Lemma write_octal_spec (n : nat) v : (2 ≤ n ≤ 20)%nat → 0 ≤ v < 8 ^ Z.of_nat n →
  ∃ l, write_octal n v = Ret l ∧ length l = n ∧ bytes_ok l ∧ ∀ f, parse_number l f = Ok v.
Proof.
  intros Hn Hv. assert (8 ^ Z.of_nat n ≤ 8 ^ 20) as Hp by (apply Z.pow_le_mono_r; lia). unfold write_octal.
  destruct (decide (v < 8 ^ Z.of_nat (n - 1))) as [Hs|Hs].
  - destruct (format_octal_spec (n - 1) v) as (ds & -> & Hd & Hval & Hl); [lia|lia|]. cbv zeta. rewrite Hl, Nat.sub_diag.
    exists (ds ++ [0]). split; [|split; [rewrite length_app; cbn; lia|split; [apply Forall_app; split; [by apply digits_bytes|by repeat constructor]|]]].
    + replace n with ((n - 1) + 1)%nat at 1 by lia. rewrite replicate_add. apply (copy_at_middle [] (replicate (n - 1) 0) [0]); [done|by rewrite length_replicate].
    + intros f. rewrite parse_number_digits; [by rewrite Hval|by intros ->; cbn in *; lia|done|by right|unfold u64_max; lia].
  - assert (8 ^ Z.of_nat n ≤ 8 ^ 22) by (apply Z.pow_le_mono_r; lia).
    destruct (octal_loop_spec 22 v []) as (ds & E & Hd & Hval & Hl & Hk); [change (Z.of_nat 22) with 22; lia|lia|]. rewrite app_nil_r in E.
    assert (length ds = n) as Hdn.
    { pose proof (Hk n ltac:(lia) ltac:(lia)). destruct (decide (length ds ≤ n - 1)%nat); [|lia]. exfalso.
      pose proof (octal_value_bound ds 0 ltac:(lia) Hd) as [_ Hb]. rewrite Hval in Hb. assert (8 ^ len ds ≤ 8 ^ Z.of_nat (n - 1)) by (apply Z.pow_le_mono_r; unfold len; lia). lia. }
    unfold format_octal. rewrite E. cbv zeta. replace (n - 1 - length ds)%nat with 0%nat by lia. cbn [replicate app]. replace (n - 1 - length ds)%nat with 0%nat by lia.
    exists ds. split; [|split; [done|split; [by apply digits_bytes|]]].
    + pose proof (copy_at_middle [] (replicate n 0) [] ds 0 eq_refl) as Hc. rewrite !app_nil_l, !app_nil_r in Hc. apply Hc. by rewrite length_replicate.
    + intros f. rewrite <-(app_nil_r ds), parse_number_digits; [by rewrite Hval|intros ->; cbn in Hdn; lia|done|by left|unfold u64_max; lia].
Qed.

(** The checksum, of six digits. *)
Lemma write_checksum_spec v : 0 ≤ v < 8 ^ 6 → ∃ l, write_checksum v = Ret l ∧ length l = 8%nat ∧ ∀ f, parse_number l f = Ok v.
Proof.
  intros Hv. destruct (format_octal_spec 6 v) as (ds & E & Hd & Hval & Hl); [exact Hv|lia|]. unfold write_checksum. rewrite E. cbv zeta. rewrite Hl. change (negb (6 =? 6)%nat) with false. cbn match.
  exists (ds ++ [0; 32]). destruct ds as [|d0 [|d1 [|d2 [|d3 [|d4 [|d5 [|]]]]]]]; try done. split; [reflexivity|]. split; [done|].
  intros f. rewrite parse_number_digits; [by rewrite Hval|done|done|by right|rewrite Hval; unfold u64_max; lia].
Qed.

(** ** Headers as segments *)

Lemma copy_segment L i m s a : L !! i = Some m → length m = length s → a = len (concat (take i L)) →
  copy_at (concat L) a s = Ret (concat (<[i := s]> L)).
Proof.
  intros Hi Hm ->. pose proof (lookup_lt_Some _ _ _ Hi). rewrite <-(take_drop_middle L i m Hi) at 1. rewrite insert_take_drop by done.
  rewrite !concat_app. cbn [concat]. by apply copy_at_middle.
Qed.

Lemma slice_segment (L : list (list Z)) i m a b : L !! i = Some m → a = len (concat (take i L)) → b = a + len m → slice (concat L) a b = Ret m.
Proof.
  intros Hi -> ->. rewrite <-(take_drop_middle L i m Hi) at 1. rewrite concat_app. cbn [concat]. by apply slice_middle.
Qed.

(** The fields of a header, in order. *)
Definition fields (name md uid gid size mtime sum kind : list Z) : list (list Z) :=
  [name; md; uid; gid; size; mtime; sum; kind; replicate 100 0; as_bytes "ustar" ++ [0]; as_bytes "00"; replicate 80 0; replicate 155 0; replicate 12 0].

Definition name_field (p : string) : list Z := as_bytes p ++ replicate (100 - length (as_bytes p)) 0.

Definition fields_ok (name md uid gid size mtime sum kind : list Z) : Prop :=
  length name = 100%nat ∧ length md = 8%nat ∧ length uid = 8%nat ∧ length gid = 8%nat ∧ length size = 12%nat ∧ length mtime = 12%nat ∧
  length sum = 8%nat ∧ length kind = 1%nat.

Ltac field_len := cbn [take concat fields]; unfold len; rewrite ?length_app, ?length_replicate;
  change (length (as_bytes "ustar")) with 5%nat; change (length (as_bytes "00")) with 2%nat; cbn [length];
  lia.

Lemma checksum_ignores a c c' b : length a = 148%nat → length c = 8%nat → length c' = 8%nat → checksum (a ++ c ++ b) = checksum (a ++ c' ++ b).
Proof.
  intros Ha Hc Hc'. unfold checksum. f_equal. apply list_eq. intros i. rewrite !list_lookup_imap.
  destruct (decide (i < 148)%nat) as [H1|H1]; [by rewrite !lookup_app_l by lia|]. rewrite !(lookup_app_r a) by lia.
  destruct (decide (i < 156)%nat) as [H2|H2]; [|rewrite !lookup_app_r by lia; by rewrite Hc, Hc'].
  rewrite !lookup_app_l by lia. destruct (lookup_lt_is_Some_2 c (i - length a)) as [x ->]; [lia|]. destruct (lookup_lt_is_Some_2 c' (i - length a)) as [y ->]; [lia|].
  cbn. rewrite (proj2 (Z.leb_le _ _)), (proj2 (Z.ltb_lt _ _)) by lia. done.
Qed.

Lemma sum_bound m l : 0 ≤ m → Forall (λ v, 0 ≤ v ≤ m) l → 0 ≤ foldr Z.add 0 l ≤ m * len l.
Proof. intros Hm Hl. induction Hl as [|v l Hv _ IH]; [rewrite (@len_nil Z); cbn [foldr]; lia|]. rewrite len_cons. cbn [foldr]. lia. Qed.

Lemma checksum_bound l : bytes_ok l → 0 ≤ checksum l ≤ 255 * len l.
Proof.
  intros Hl. unfold checksum. set (l' := imap _ l). assert (len l' = len l) as <- by (unfold len, l'; by rewrite length_imap). apply sum_bound; [lia|].
  apply Forall_lookup. intros i x. unfold l'. rewrite list_lookup_imap. destruct (l !! i) as [b|] eqn:E; [|done]. cbn. intros [= <-].
  pose proof (Forall_lookup_1 _ _ _ _ Hl E) as Hb. unfold is_u8 in Hb. destruct (_ && _); lia.
Qed.

Lemma fields_length name md uid gid size mtime sum kind :
  fields_ok name md uid gid size mtime sum kind → len (concat (fields name md uid gid size mtime sum kind)) = 512.
Proof. intros (? & ? & ? & ? & ? & ? & ? & ?). field_len. Qed.

(** Two headers that differ in the checksum have the same checksum. *)
Lemma fields_checksum name md uid gid size mtime sum sum' kind :
  fields_ok name md uid gid size mtime sum kind → length sum' = 8%nat →
  checksum (concat (fields name md uid gid size mtime sum' kind)) = checksum (concat (fields name md uid gid size mtime sum kind)).
Proof.
  intros (H1 & H2 & H3 & H4 & H5 & H6 & H7 & H8) H7'.
  assert (∀ c, concat (fields name md uid gid size mtime c kind) =
    concat [name; md; uid; gid; size; mtime] ++ c ++ concat (drop 7 (fields name md uid gid size mtime c kind))) as E.
  { intros c. cbn [fields concat drop]. rewrite app_nil_r, <- !app_assoc. done. }
  rewrite !E. apply checksum_ignores; [cbn [concat]; rewrite !length_app; simpl length; lia|done|done].
Qed.

Lemma bytes_ok_zeros n : bytes_ok (replicate n 0).
Proof. apply Forall_replicate. unfold is_u8. lia. Qed.

Lemma concat_bytes (L : list (list Z)) : Forall bytes_ok L → bytes_ok (concat L).
Proof. intros H. induction H as [|l L Hl _ IH]; [constructor|]. cbn [concat]. by apply Forall_app. Qed.

Lemma fields_bytes name md uid gid size mtime sum kind :
  bytes_ok name → bytes_ok md → bytes_ok uid → bytes_ok gid → bytes_ok size → bytes_ok mtime → bytes_ok sum → bytes_ok kind →
  bytes_ok (concat (fields name md uid gid size mtime sum kind)).
Proof.
  intros. apply concat_bytes. unfold fields. repeat (apply Forall_cons; split); try done; try apply bytes_ok_zeros.
Qed.

Lemma name_field_ok p : len (as_bytes p) ≤ 100 → length (name_field p) = 100%nat ∧ bytes_ok (name_field p).
Proof.
  intros Hp. unfold name_field. split; [unfold len in Hp; rewrite length_app, length_replicate; lia|].
  apply Forall_app. split; [apply as_bytes_ok|apply bytes_ok_zeros].
Qed.

(** A header under construction. *)
Definition draft (name md uid gid size mtime sum kind u v : list Z) : list (list Z) :=
  [name; md; uid; gid; size; mtime; sum; kind; replicate 100 0; u; v; replicate 80 0; replicate 155 0; replicate 12 0].

Definition blank (n : nat) : list Z := replicate n 0.

Lemma draft_start p : len (as_bytes p) ≤ 100 →
  copy_at (replicate (Z.to_nat BLOCK) 0) 0 (as_bytes p) =
  Ret (concat (draft (name_field p) (blank 8) (blank 8) (blank 8) (blank 12) (blank 12) (blank 8) (blank 1) (blank 6) (blank 2))).
Proof.
  intros Hp. replace (Z.to_nat BLOCK) with (length (as_bytes p) + (512 - length (as_bytes p)))%nat by (unfold BLOCK, len in *; lia). rewrite replicate_add.
  pose proof (copy_at_middle [] (replicate (length (as_bytes p)) 0) (replicate (512 - length (as_bytes p)) 0) (as_bytes p) 0 eq_refl ltac:(by rewrite length_replicate)) as E.
  rewrite !app_nil_l in E. rewrite E. f_equal. replace (512 - length (as_bytes p))%nat with ((100 - length (as_bytes p)) + 412)%nat by (unfold len in *; lia).
  rewrite replicate_add. unfold draft, name_field, blank. cbn [concat]. by rewrite <-app_assoc.
Qed.

Lemma store_copy l i v : 0 ≤ i < len l → store l i v = copy_at l i [v].
Proof.
  intros Hi. rewrite store_ok by done. unfold copy_at. change (len [v]) with 1. rewrite (proj2 (Z.leb_le _ _)), (proj2 (Z.leb_le _ _)) by lia. cbn [andb].
  unfold len in Hi. rewrite insert_take_drop by lia. cbn [app]. by replace (Z.to_nat (i + 1)) with (S (Z.to_nat i)) by lia.
Qed.

(** Writing segment [i] of a header. *)
Ltac put i :=
  match goal with |- context [copy_at (concat ?L) ?a ?s] =>
    let E := fresh in
    assert (copy_at (concat L) a s = Ret (concat (<[i := s]> L))) as E
      by (eapply copy_segment; [reflexivity|unfold blank; rewrite ?length_replicate; (done || lia)|unfold draft, blank; field_len]);
    rewrite E; clear E; cbn [outcome_bind]; unfold draft; cbn [insert list_insert]
  end.

Lemma append_header_spec p size md mt k :
  len (as_bytes p) ≤ 100 → 0 ≤ size < 8 ^ 12 → 0 ≤ md < 8 ^ 8 → 0 ≤ mt < 8 ^ 12 → is_u8 k →
  ∃ mdf uid gid szf mtf sum, let h := fields (name_field p) mdf uid gid szf mtf sum [k] in
    (∀ out, append_header out p size md mt k = Ret (Ok (out ++ concat h))) ∧ fields_ok (name_field p) mdf uid gid szf mtf sum [k] ∧
    ∀ f, parse_number mdf f = Ok md ∧ parse_number szf f = Ok size ∧ parse_number mtf f = Ok mt ∧ parse_number sum f = Ok (checksum (concat h)).
Proof.
  intros Hp Hsz Hmd Hmt Hk. destruct (name_field_ok p Hp) as [Ln On].
  destruct (write_octal_spec 8 md) as (mdf & Emd & Lmd & Omd & Pmd); [lia|exact Hmd|].
  destruct (write_octal_spec 8 0) as (z & Ez & Lz & Oz & _); [lia|change (Z.of_nat 8) with 8; lia|].
  destruct (write_octal_spec 12 size) as (szf & Esz & Lsz & Osz & Psz); [lia|exact Hsz|].
  destruct (write_octal_spec 12 mt) as (mtf & Emt & Lmt & Omt & Pmt); [lia|exact Hmt|].
  set (H1 := fields (name_field p) mdf z z szf mtf (replicate 8 32) [k]).
  assert (0 ≤ checksum (concat H1) < 8 ^ 6) as Hcs.
  { destruct (checksum_bound (concat H1)) as [Ha Hb]; [apply fields_bytes; try done; [by apply Forall_replicate|by constructor]|].
    assert (len (concat H1) = 512) as Hl by (by apply fields_length). lia. }
  destruct (write_checksum_spec (checksum (concat H1)) Hcs) as (sum & Es & Ls & Ps).
  assert (fields_ok (name_field p) mdf z z szf mtf sum [k]) as Hok by (split_and!; done).
  exists mdf, z, z, szf, mtf, sum. cbv zeta. split; [|split; [done|intros f; split; [done|split; [done|split; [done|]]]]].
  - intros out. unfold append_header. rewrite (proj2 (Z.ltb_ge _ _)) by lia. rewrite draft_start by done. cbn [outcome_bind]. unfold octal_field. rewrite Emd, Ez, Esz, Emt. cbn [outcome_bind].
    put 1%nat. put 2%nat. put 3%nat. put 4%nat. put 5%nat. put 6%nat.
    rewrite store_copy.
    2: { cbn [concat app]. unfold blank, len. rewrite !length_app, !length_replicate. rewrite Ln, Lmd, Lz, Lsz, Lmt. cbn [length]. lia. }
    put 7%nat. put 9%nat. put 10%nat.
    match goal with |- context [checksum (concat ?L)] => change L with H1 end. cbv zeta. rewrite Es. cbn [outcome_bind]. unfold H1, fields. put 6%nat. done.
  - rewrite Ps. f_equal. unfold H1. apply fields_checksum; [done|by rewrite length_replicate].
Qed.

(** ** Reading a header *)

Lemma position_zero l r : Forall (λ b, b ≠ 0) l → position (λ b, b =? 0) (l ++ 0 :: r) = Some (length l).
Proof. intros Hl. induction Hl as [|b l Hb _ IH]; [done|]. cbn [app position]. rewrite (proj2 (Z.eqb_neq _ _)) by done. by rewrite IH. Qed.

Lemma position_none l : Forall (λ b, b ≠ 0) l → position (λ b, b =? 0) l = None.
Proof. intros Hl. induction Hl as [|b l Hb _ IH]; [done|]. cbn [position]. rewrite (proj2 (Z.eqb_neq _ _)) by done. by rewrite IH. Qed.

(** A path that fits: text, not empty, without a zero byte, of at most 100 bytes. *)
Definition path_fits (p : string) : Prop := is_str p ∧ p ≠ ""%string ∧ Forall (λ b, b ≠ 0) (as_bytes p) ∧ len (as_bytes p) ≤ 100.

Lemma nul_string_name p : path_fits p → nul_string (name_field p) = Ok p.
Proof.
  intros (Hs & _ & Hz & Hl). unfold nul_string, name_field. cbv zeta. unfold len in Hl. destruct (100 - length (as_bytes p))%nat as [|n] eqn:En.
  - cbn [replicate]. rewrite app_nil_r, position_none by done. cbn [default from_option id]. rewrite take_ge by done. by rewrite string_from_as_bytes.
  - cbn [replicate]. rewrite position_zero by done. cbn [default from_option id]. rewrite take_app_length. by rewrite string_from_as_bytes.
Qed.

Section header.
Context (p : string) (md uid gid size mtime sum : list Z) (k : Z).
Context (Hp : path_fits p) (Hok : fields_ok (name_field p) md uid gid size mtime sum [k]).

Let h := fields (name_field p) md uid gid size mtime sum [k].

Ltac seg i := apply (slice_segment h i); [reflexivity|..]; unfold h; destruct Hok as (H1 & H2 & H3 & H4 & H5 & H6 & H7 & H8); field_len.

Lemma header_slices :
  slice (concat h) 0 100 = Ret (name_field p) ∧ slice (concat h) 345 500 = Ret (replicate 155 0) ∧ slice (concat h) 148 156 = Ret sum ∧
  slice (concat h) 124 136 = Ret size ∧ slice (concat h) 100 108 = Ret md ∧ slice (concat h) 136 148 = Ret mtime ∧ index (concat h) 156 = Ret k.
Proof using Hok.
  split_and!; [seg 0%nat|seg 12%nat|seg 6%nat|seg 4%nat|seg 1%nat|seg 5%nat|].
  destruct Hok as (H1 & H2 & H3 & H4 & H5 & H6 & H7 & H8). unfold h, fields. cbn [concat].
  rewrite !app_assoc. set (pre := ((((((name_field p ++ md) ++ uid) ++ gid) ++ size) ++ mtime) ++ sum)). 
  rewrite <- !app_assoc. apply index_ok; [lia|]. rewrite lookup_app_r by (unfold pre; rewrite !length_app; lia).
  by replace (Z.to_nat 156 - length pre)%nat with 0%nat by (unfold pre; rewrite !length_app; lia).
Qed.

Lemma header_path_name : header_path (concat h) = Ret (Ok p).
Proof using Hp Hok.
  destruct header_slices as (E1 & E2 & _). unfold header_path. rewrite E1. cbn [outcome_bind]. rewrite nul_string_name by done. cbn [fallible_bind].
  rewrite E2. cbn [outcome_bind]. change (nul_string (replicate 155 0)) with (@Ok string TarError ""%string). cbn [fallible_bind].
  destruct Hp as (_ & Hne & _). by rewrite bool_decide_eq_false_2.
Qed.

Lemma header_not_zero : all_zero (concat h) = false.
Proof using Hp Hok.
  destruct Hp as (_ & Hne & Hz & _). unfold h, fields, name_field. cbn [concat]. destruct p as [|a s]; [done|].
  change (as_bytes (String a s)) with (code a :: as_bytes s) in *. apply Forall_cons in Hz as [Ha _]. cbn [app all_zero forallb].
  by rewrite (proj2 (Z.eqb_neq _ _)).
Qed.
End header.

(** ** Archives *)

Definition padded (n : Z) : Z := (n + 511) / 512 * 512.

Lemma padded_spec n : 0 ≤ n → n ≤ padded n < n + 512.
Proof. intros Hn. unfold padded. pose proof (Z.div_mod (n + 511) 512). pose proof (Z.mod_pos_bound (n + 511) 512). lia. Qed.

Section archive.
Context `{Profile}.

Lemma round_block_spec n : 0 ≤ n → n + 512 ≤ u64_max → round_block n = Ret (padded n).
Proof.
  intros Hn Hb. unfold round_block, BLOCK. rewrite add64_exact by lia. cbn [outcome_bind]. unfold sub64. rewrite (proj2 (Z.ltb_ge _ _)) by lia.
  rewrite andb_false_r. cbn [outcome_bind]. rewrite wrap64_id by (unfold is_u64; lia). unfold padded. by replace (n + 512 - 1) with (n + 511) by lia.
Qed.

(** The blocks of a file: its header, its bytes and the padding. *)
Definition file_ok (f : string * list Z) : Prop := path_fits f.1 ∧ len f.2 < 8 ^ 12.

Lemma append_file_spec f : file_ok f →
  ∃ md uid gid size mtime sum, let h := fields (name_field f.1) md uid gid size mtime sum [48] in
    (∀ out, append_file out f = Ret (Ok (out ++ concat h ++ f.2 ++ replicate (Z.to_nat (padded (len f.2) - len f.2)) 0))) ∧
    fields_ok (name_field f.1) md uid gid size mtime sum [48] ∧
    ∀ n, parse_number md n = Ok 420 ∧ parse_number size n = Ok (len f.2) ∧ parse_number mtime n = Ok 0 ∧ parse_number sum n = Ok (checksum (concat h)).
Proof.
  intros [Hp Hl]. pose proof (len_nonneg f.2) as H0. change (8 ^ 12) with 68719476736 in Hl.
  destruct (append_header_spec f.1 (len f.2) 420 0 48) as (md & u & g & sz & mt & sum & E & Hok & Hn);
    [apply Hp|change (8 ^ 12) with 68719476736; lia|done|done|done|]. cbv zeta in *.
  exists md, u, g, sz, mt, sum. split; [|by split]. intros out. unfold append_file. rewrite E. cbn [fallible_bind]. unfold pad_block.
  rewrite round_block_spec by (unfold u64_max; lia). cbn [outcome_bind]. pose proof (padded_spec (len f.2) H0). unfold sub64. rewrite (proj2 (Z.ltb_ge _ _)) by lia.
  rewrite andb_false_r. cbn [outcome_bind]. rewrite wrap64_id by (unfold is_u64, u64_max; lia). by rewrite <- !app_assoc.
Qed.

Lemma answer_inj {A E} (a b : A) : @Ret (result A E) (Ok a) = Ret (Ok b) → a = b.
Proof. congruence. Qed.

(** The entry of a file. *)
Definition file_entry (f : string * list Z) : Entry := {| path := f.1; kind := File; contents := f.2; mode := 420; mtime := 0 |}.

Lemma archive_step_file pre f blocks post out : file_ok f →
  append_file [] f = Ret (Ok blocks) → len (pre ++ blocks ++ post) ≤ u64_max →
  archive_step (pre ++ blocks ++ post) (len pre, pax_default, out) = Ret (Ok (Some (len pre + len blocks, pax_default, out ++ [file_entry f]))) ∧ 512 ≤ len blocks.
Proof.
  intros Hf Eb Hb. destruct (append_file_spec f Hf) as (md & u & g & sz & mt & sum & E & Hok & Hn). cbv zeta in *. rewrite E, app_nil_l in Eb. apply answer_inj in Eb as <-.
  destruct Hf as [Hp Hl]. change (8 ^ 12) with 68719476736 in Hl. pose proof (len_nonneg f.2) as H0. pose proof (padded_spec (len f.2) H0) as Hpad. pose proof (len_nonneg pre).
  set (h := concat (fields _ _ _ _ _ _ _ _)) in *. assert (len h = 512) as Hh by (by apply fields_length). set (pad := replicate _ 0) in *.
  assert (len pad = padded (len f.2) - len f.2) as Hpl by (apply len_replicate; lia). set (all := pre ++ (h ++ f.2 ++ pad) ++ post) in *.
  assert (all = pre ++ h ++ f.2 ++ pad ++ post) as Ea by (unfold all; by rewrite <- !app_assoc). pose proof (len_nonneg post).
  assert (len all = len pre + 512 + padded (len f.2) + len post) as Hall by (rewrite Ea, (len_app pre), (len_app h), (len_app f.2), (len_app pad); lia).
  assert (len (h ++ f.2 ++ pad) = 512 + padded (len f.2)) as Hbl by (rewrite (len_app h), (len_app f.2); lia).
  destruct (header_slices f.1 md u g sz mt sum 48 Hok) as (_ & _ & E148 & E124 & E100 & E136 & E156). fold h in E148, E124, E100, E136, E156.
  split; [|lia]. unfold archive_step, BLOCK. rewrite (proj2 (Z.ltb_ge _ _)) by lia.
  assert (slice all (len pre) (len pre + 512) = Ret h) as -> by (rewrite Ea; apply slice_middle; lia). cbn [outcome_bind].
  unfold h. rewrite (header_not_zero f.1 md u g sz mt sum 48 Hp Hok), (header_path_name f.1 md u g sz mt sum 48 Hp Hok). fold h. cbn [fallible_bind].
  rewrite E148. cbn [outcome_bind]. rewrite (proj2 (proj2 (proj2 (Hn _)))). cbn [fallible_bind]. cbv zeta. rewrite Z.eqb_refl. cbn [negb].
  rewrite E124. cbn [outcome_bind]. rewrite (proj1 (proj2 (Hn _))). cbn [fallible_bind]. rewrite E100. cbn [outcome_bind]. rewrite (proj1 (Hn _)). cbn [fallible_bind].
  rewrite E136. cbn [outcome_bind]. rewrite (proj1 (proj2 (proj2 (Hn _)))). cbn [fallible_bind]. rewrite E156. cbn [outcome_bind].
  rewrite add64_exact by lia. cbn [outcome_bind]. rewrite round_block_spec by lia. cbn [outcome_bind]. rewrite add64_exact by lia. cbn [outcome_bind].
  rewrite !(proj2 (Z.ltb_ge _ _)) by lia. cbn [orb].
  assert (slice all (len pre + 512) (len pre + 512 + len f.2) = Ret f.2) as -> by (rewrite Ea, app_assoc; apply slice_middle; rewrite (len_app pre); lia). cbn [outcome_bind].
  change (48 =? 120) with false. change (48 =? 103) with false. cbn match. change (entry_kind 48) with File. rewrite Hbl. do 5 f_equal. lia.
Qed.

Lemma archive_end pre out fuel : len pre + 1024 ≤ u64_max →
  archive_loop (S fuel) (pre ++ replicate 512 0 ++ replicate 512 0) (len pre, pax_default, out) = Ret (Ok out).
Proof.
  intros Hb. pose proof (len_nonneg pre). cbn [archive_loop]. unfold archive_step, BLOCK. rewrite (proj2 (Z.ltb_ge _ _)) by (rewrite !len_app; unfold len; rewrite !length_replicate; lia).
  rewrite (slice_middle pre (replicate 512 0) (replicate 512 0)) by (done || (unfold len; rewrite length_replicate; lia)). done.
Qed.

(** The blocks of several files. *)
Lemma append_files_spec files : ∀ out, Forall file_ok files → ∃ blocks, append_files out files = Ret (Ok (out ++ blocks)) ∧
  ∀ pre rest fuel es, (length files < fuel)%nat → len (pre ++ blocks ++ rest) ≤ u64_max →
    ∃ fuel', (0 < fuel')%nat ∧ archive_loop fuel (pre ++ blocks ++ rest) (len pre, pax_default, es) =
      archive_loop fuel' (pre ++ blocks ++ rest) (len (pre ++ blocks), pax_default, es ++ (file_entry <$> files)).
Proof.
  induction files as [|f files IH]; intros out Hf.
  - exists []. rewrite app_nil_r. split; [done|]. intros pre rest fuel es Hl Hb. exists fuel. split; [lia|]. by rewrite !app_nil_r.
  - apply Forall_cons in Hf as [Hf Hfs]. assert (∃ b, ∀ out, append_file out f = Ret (Ok (out ++ b))) as [b Eb].
    { destruct (append_file_spec f Hf) as (md & u & g & sz & mt & sum & E & _). by eexists. }
    destruct (IH (out ++ b) Hfs) as (blocks & E & Hloop). exists (b ++ blocks). split; [cbn [append_files]; rewrite Eb; cbn [fallible_bind]; by rewrite E, app_assoc|].
    intros pre rest fuel es Hl Hb. destruct fuel as [|fuel]; [lia|]. cbn [length] in Hl. rewrite <-app_assoc in Hb |- *.
    destruct (archive_step_file pre f b (blocks ++ rest) es Hf ltac:(by rewrite Eb) Hb) as [Es _].
    cbn [archive_loop]. rewrite Es. cbn [fallible_bind]. rewrite <-len_app.
    replace (pre ++ b ++ blocks ++ rest) with ((pre ++ b) ++ blocks ++ rest) in Hb |- * by (by rewrite <-app_assoc).
    destruct (Hloop (pre ++ b) rest fuel (es ++ [file_entry f]) ltac:(lia) Hb) as (fuel' & Hf' & ->). exists fuel'. split; [done|].
    replace ((pre ++ b) ++ blocks) with (pre ++ b ++ blocks) by (by rewrite <-app_assoc). rewrite fmap_cons. by rewrite <-(app_assoc es).
Qed.

Lemma blocks_length files : ∀ out blocks, Forall file_ok files → append_files out files = Ret (Ok (out ++ blocks)) → (length files ≤ length blocks)%nat.
Proof.
  induction files as [|f files IH]; intros out blocks Hf E; [cbn; lia|]. apply Forall_cons in Hf as [Hf Hfs].
  destruct (append_file_spec f Hf) as (md & u & g & sz & mt & sum & Eb & Hok & _). cbv zeta in *. cbn [append_files] in E. rewrite Eb in E. cbn [fallible_bind] in E.
  set (h := concat _) in *. assert (len h = 512) as Hh by (by apply fields_length). set (b := h ++ _) in *.
  destruct (append_files_spec files (out ++ b) Hfs) as (bs & E' & _). rewrite E' in E. apply answer_inj in E. rewrite <-app_assoc in E. apply app_inv_head in E as <-.
  specialize (IH _ _ Hfs E'). rewrite length_app. assert (1 ≤ length b)%nat by (unfold b; rewrite length_app; unfold len in Hh; lia). cbn [length]. lia.
Qed.

(** C19: an archive built from files with paths that fit (text, not empty, without a zero
    byte, of at most 100 bytes) and fewer than 2^36 bytes each is built without a panic or
    an error, and parsing it gives those files, in order, as regular files with their
    contents, mode 644 and time 0, in a build that checks overflow and in one that wraps. *)
Theorem tar_roundtrip files :
  Forall file_ok files →
  ∃ bytes, build_ustar_archive files = Ret (Ok bytes) ∧
    (len bytes ≤ u64_max → parse_archive bytes = Ret (Ok (file_entry <$> files))).
Proof.
  intros Hf. destruct (append_files_spec files [] Hf) as (blocks & E & Hloop). pose proof (blocks_length files [] blocks Hf E) as Hbl.
  unfold build_ustar_archive. rewrite E. cbn [fallible_bind]. eexists. split; [reflexivity|]. rewrite app_nil_l. intros Hb.
  change (Z.to_nat BLOCK) with 512%nat in *. set (rest := replicate 512 0 ++ replicate 512 0) in *. unfold parse_archive.
  destruct (Hloop [] rest (S (length (blocks ++ rest))) []) as (fuel' & Hf' & Ef); [rewrite length_app; lia|exact Hb|].
  change (len []) with 0 in Ef. rewrite !app_nil_l in Ef. rewrite Ef. destruct fuel' as [|fuel']; [lia|]. unfold rest. apply archive_end.
  assert (len (blocks ++ rest) = len blocks + 1024) as Hl by (rewrite len_app; unfold rest, len; by rewrite length_app, !length_replicate). lia.
Qed.
End archive.

Lemma tar_roundtrip_witness : let _ : Profile := true in
  ∃ bytes, build_ustar_archive [("package/index.js"%string, [1; 2; 3]); ("package/a"%string, [])] = Ret (Ok bytes) ∧
    (len bytes ≤ u64_max → parse_archive bytes =
      Ret (Ok [file_entry ("package/index.js"%string, [1; 2; 3]); file_entry ("package/a"%string, [])])).
Proof.
  apply (@tar_roundtrip true [("package/index.js"%string, [1; 2; 3]); ("package/a"%string, [])]).
  assert (∀ s, from_utf8 (String.list_ascii_of_string s) = true → s ≠ ""%string → forallb (λ b, negb (b =? 0)) (as_bytes s) = true → len (as_bytes s) ≤ 100 → path_fits s) as G.
  { intros s H1 H2 H3 H4. split_and!; [by apply from_utf8_iff|done| |done]. apply Forall_forall. intros b Hb%list_elem_of_In. rewrite forallb_forall in H3. specialize (H3 b Hb). by destruct (Z.eqb_spec b 0). }
  repeat (apply Forall_cons; split); [split; [apply G; vm_compute; done|vm_compute; done]..|constructor].
Defined.
