(* ===== verification/Integrity.v ===== *)
(** * Integrity: message digests and the integrity of packages

    rusty-js-pm-integrity/src/lib.rs: SHA-1, SHA-256 and SHA-512 over machine words, and the
    check of a package against its subresource-integrity string or its legacy checksum.
    The two functions of the SHA-2 family are the same text but for the width of a word, the
    rotations, the constants and the sizes, which the record [Sha2] collects; each is an
    instance of one definition.  Array accesses out of range panic.  The loops that pad run on
    one unit of fuel per byte of a block. *)

From Stdlib Require String.
From S2P Require Import Prelude Text Bytes BaseN Arrays.

Local Open Scope Z_scope.
Local Open Scope cruft_scope.

(** ** Machine words of [w] bits *)

Definition word (w z : Z) : Z := z `mod` 2 ^ w.
Definition rotate_left (w x n : Z) : Z := Z.lor (word w (Z.shiftl x n)) (Z.shiftr x (w - n)).
Definition rotate_right (w x n : Z) : Z := Z.lor (Z.shiftr x n) (word w (Z.shiftl x (w - n))).
Definition wrapping_add (w a b : Z) : Z := word w (a + b).
Definition not_word (w x : Z) : Z := 2 ^ w - 1 - x.

(** ** Padding and blocks *)

(** [while chunks.len() % block != rest { chunks.push(0) }]. *)
Fixpoint push_zeros (fuel : nat) (block rest : Z) (chunks : list Z) : list Z :=
  if len chunks `mod` block =? rest then chunks
  else match fuel with O => chunks | S fuel' => push_zeros fuel' block rest (chunks ++ [0]) end.

(** The message, the byte 0x80, zeros, and the length in bits in [n] bytes. *)
Definition pad_message (block : Z) (n : nat) (bit_len : Z) (bytes : list Z) : list Z :=
  push_zeros (Z.to_nat block) block (block - Z.of_nat n) (bytes ++ [128]) ++ to_be_bytes n bit_len.

(** [chunks.chunks_exact(n)]. *)
Fixpoint chunks_exact (fuel n : nat) (l : list Z) : list (list Z) :=
  match fuel with
  | O => []
  | S fuel' => if bool_decide (length l < n)%nat then [] else take n l :: chunks_exact fuel' n (drop n l)
  end.

(** [for (i, word) in w.iter_mut().take(16).enumerate()]: the words of a block, of [b] bytes
    each, into the start of the schedule. *)
Definition load_word (b : Z) (chunk : list Z) (i : Z) (w : list Z) : outcome (list Z) :=
  s <-! slice chunk (i * b) (i * b + b); store w i (from_be_bytes s).

Definition load_block (b : Z) (chunk w : list Z) : outcome (list Z) := for_each (load_word b chunk) (Z.of_nat <$> seq 0 16) w.

(** [for i in a..b]. *)
Definition range (a n : nat) : list Z := Z.of_nat <$> seq a n.

(** ** SHA-1 *)

Definition sha1_schedule_step (i : Z) (w : list Z) : outcome (list Z) :=
  a <-! index w (i - 3);
  b <-! index w (i - 8);
  c <-! index w (i - 14);
  d <-! index w (i - 16);
  store w i (rotate_left 32 (Z.lxor (Z.lxor (Z.lxor a b) c) d) 1).

Definition sha1_function (i : nat) (b c d : Z) : Z * Z :=
  if bool_decide (i ≤ 19)%nat then (Z.lor (Z.land b c) (Z.land (not_word 32 b) d), 1518500249)
  else if bool_decide (i ≤ 39)%nat then (Z.lxor (Z.lxor b c) d, 1859775393)
  else if bool_decide (i ≤ 59)%nat then (Z.lor (Z.lor (Z.land b c) (Z.land b d)) (Z.land c d), 2400959708)
  else (Z.lxor (Z.lxor b c) d, 3395469782).

Definition sha1_round (e : nat * Z) (s : list Z) : outcome (list Z) :=
  let '(i, wi) := e in
  match s with
  | [a; b; c; d; e] =>
      let '(f, k) := sha1_function i b c d in
      let temp := wrapping_add 32 (wrapping_add 32 (wrapping_add 32 (wrapping_add 32 (rotate_left 32 a 5) f) e) k) wi in
      Ret [temp; a; rotate_left 32 b 30; c; d]
  | _ => Panic
  end.

Definition sha1_block (chunk h : list Z) : outcome (list Z) :=
  w <-! load_block 4 chunk (replicate 80 0);
  w <-! for_each sha1_schedule_step (range 16 64) w;
  s <-! for_each sha1_round (enumerate w) h;
  Ret (zip_with (wrapping_add 32) h s).

Definition sha1_init : list Z := [1732584193; 4023233417; 2562383102; 271733878; 3285377520].

Definition sha1_digest (bytes : list Z) : outcome (list Z) :=
  let bit_len := wrap64 (len bytes * 8) in
  let chunks := pad_message 64 8 bit_len bytes in
  h <-! for_each sha1_block (chunks_exact (length chunks) 64 chunks) sha1_init;
  Ret (h ≫= to_be_bytes 4).

(** ** SHA-2 *)

Record Sha2 := {
  width : Z;
  rounds : nat;
  constants : list Z;
  initial : list Z;
  schedule0 : Z → Z;
  schedule1 : Z → Z;
  sum0 : Z → Z;
  sum1 : Z → Z;
  length_bytes : nat;
}.

Definition word_bytes_of (p : Sha2) : Z := width p / 8.
Definition block_size (p : Sha2) : Z := 16 * word_bytes_of p.

Definition schedule_step (p : Sha2) (i : Z) (w : list Z) : outcome (list Z) :=
  x15 <-! index w (i - 15);
  let s0 := schedule0 p x15 in
  x2 <-! index w (i - 2);
  let s1 := schedule1 p x2 in
  x16 <-! index w (i - 16);
  x7 <-! index w (i - 7);
  store w i (wrapping_add (width p) (wrapping_add (width p) (wrapping_add (width p) x16 s0) x7) s1).

Definition round (p : Sha2) (w : list Z) (i : Z) (s : list Z) : outcome (list Z) :=
  match s with
  | [a; b; c; d; e; f; g; hh] =>
      let add := wrapping_add (width p) in
      let s1 := sum1 p e in
      let ch := Z.lxor (Z.land e f) (Z.land (not_word (width p) e) g) in
      k <-! index (constants p) i;
      wi <-! index w i;
      let temp1 := add (add (add (add hh s1) ch) k) wi in
      let s0 := sum0 p a in
      let maj := Z.lxor (Z.lxor (Z.land a b) (Z.land a c)) (Z.land b c) in
      let temp2 := add s0 maj in
      Ret [add temp1 temp2; a; b; c; add d temp1; e; f; g]
  | _ => Panic
  end.

Definition sha2_block (p : Sha2) (chunk h : list Z) : outcome (list Z) :=
  w <-! load_block (word_bytes_of p) chunk (replicate (rounds p) 0);
  w <-! for_each (schedule_step p) (range 16 (rounds p - 16)) w;
  s <-! for_each (round p w) (range 0 (rounds p)) h;
  Ret (zip_with (wrapping_add (width p)) h s).

Definition sha2_digest (p : Sha2) (bit_len : Z) (bytes : list Z) : outcome (list Z) :=
  let chunks := pad_message (block_size p) (length_bytes p) bit_len bytes in
  h <-! for_each (sha2_block p) (chunks_exact (length chunks) (Z.to_nat (block_size p)) chunks) (initial p);
  Ret (h ≫= to_be_bytes (Z.to_nat (word_bytes_of p))).

Definition K256 : list Z :=
  [1116352408; 1899447441; 3049323471; 3921009573; 961987163; 1508970993; 2453635748; 2870763221; 3624381080;
   310598401; 607225278; 1426881987; 1925078388; 2162078206; 2614888103; 3248222580; 3835390401; 4022224774;
   264347078; 604807628; 770255983; 1249150122; 1555081692; 1996064986; 2554220882; 2821834349; 2952996808;
   3210313671; 3336571891; 3584528711; 113926993; 338241895; 666307205; 773529912; 1294757372; 1396182291;
   1695183700; 1986661051; 2177026350; 2456956037; 2730485921; 2820302411; 3259730800; 3345764771; 3516065817;
   3600352804; 4094571909; 275423344; 430227734; 506948616; 659060556; 883997877; 958139571; 1322822218; 1537002063;
   1747873779; 1955562222; 2024104815; 2227730452; 2361852424; 2428436474; 2756734187; 3204031479; 3329325298].

Definition sha256_init : list Z :=
  [1779033703; 3144134277; 1013904242; 2773480762; 1359893119; 2600822924; 528734635; 1541459225].

Definition xor3 (a b c : Z) : Z := Z.lxor (Z.lxor a b) c.

Definition sha256 : Sha2 := {|
  width := 32;
  rounds := 64;
  constants := K256;
  initial := sha256_init;
  schedule0 x := xor3 (rotate_right 32 x 7) (rotate_right 32 x 18) (Z.shiftr x 3);
  schedule1 x := xor3 (rotate_right 32 x 17) (rotate_right 32 x 19) (Z.shiftr x 10);
  sum0 a := xor3 (rotate_right 32 a 2) (rotate_right 32 a 13) (rotate_right 32 a 22);
  sum1 e := xor3 (rotate_right 32 e 6) (rotate_right 32 e 11) (rotate_right 32 e 25);
  length_bytes := 8;
|}.

Definition sha256_digest (bytes : list Z) : outcome (list Z) := sha2_digest sha256 (wrap64 (len bytes * 8)) bytes.

Definition K512 : list Z :=
  [4794697086780616226; 8158064640168781261; 13096744586834688815; 16840607885511220156; 4131703408338449720;
   6480981068601479193; 10538285296894168987; 12329834152419229976; 15566598209576043074; 1334009975649890238;
   2608012711638119052; 6128411473006802146; 8268148722764581231; 9286055187155687089; 11230858885718282805;
   13951009754708518548; 16472876342353939154; 17275323862435702243; 1135362057144423861; 2597628984639134821;
   3308224258029322869; 5365058923640841347; 6679025012923562964; 8573033837759648693; 10970295158949994411;
   12119686244451234320; 12683024718118986047; 13788192230050041572; 14330467153632333762; 15395433587784984357;
   489312712824947311; 1452737877330783856; 2861767655752347644; 3322285676063803686; 5560940570517711597;
   5996557281743188959; 7280758554555802590; 8532644243296465576; 9350256976987008742; 10552545826968843579;
   11727347734174303076; 12113106623233404929; 14000437183269869457; 14369950271660146224; 15101387698204529176;
   15463397548674623760; 17586052441742319658; 1182934255886127544; 1847814050463011016; 2177327727835720531;
   2830643537854262169; 3796741975233480872; 4115178125766777443; 5681478168544905931; 6601373596472566643;
   7507060721942968483; 8399075790359081724; 8693463985226723168; 9568029438360202098; 10144078919501101548;
   10430055236837252648; 11840083180663258601; 13761210420658862357; 14299343276471374635; 14566680578165727644;
   15097957966210449927; 16922976911328602910; 17689382322260857208; 500013540394364858; 748580250866718886;
   1242879168328830382; 1977374033974150939; 2944078676154940804; 3659926193048069267; 4368137639120453308;
   4836135668995329356; 5532061633213252278; 6448918945643986474; 6902733635092675308; 7801388544844847127].

Definition sha512_init : list Z :=
  [7640891576956012808; 13503953896175478587; 4354685564936845355; 11912009170470909681; 5840696475078001361;
   11170449401992604703; 2270897969802886507; 6620516959819538809].

Definition sha512 : Sha2 := {|
  width := 64;
  rounds := 80;
  constants := K512;
  initial := sha512_init;
  schedule0 x := xor3 (rotate_right 64 x 1) (rotate_right 64 x 8) (Z.shiftr x 7);
  schedule1 x := xor3 (rotate_right 64 x 19) (rotate_right 64 x 61) (Z.shiftr x 6);
  sum0 a := xor3 (rotate_right 64 a 28) (rotate_right 64 a 34) (rotate_right 64 a 39);
  sum1 e := xor3 (rotate_right 64 e 14) (rotate_right 64 e 18) (rotate_right 64 e 41);
  length_bytes := 16;
|}.

Definition sha512_digest (bytes : list Z) : outcome (list Z) := sha2_digest sha512 (len bytes * 8) bytes.

(** ** Checks *)

Inductive IntegrityError :=
| UnsupportedAlgorithm (algo : string)
| MalformedSri (sri : string)
| Base64Decode (e : BaseNError)
| DigestMismatch (algorithm : string) (expected_len got_len : Z)
| HexDecode (e : BaseNError)
| ShasumMismatch.

Definition sri_base64 (text : string) : result (list Z) IntegrityError := result_map_err Base64Decode (decode_base64 (as_bytes text)).
Definition decode_hex (text : string) : result (list Z) IntegrityError := result_map_err HexDecode (decode_base16 (as_bytes text)).

Definition verify_sri (bytes : list Z) (sri : string) : fallible unit IntegrityError :=
  match split_once "-" sri with
  | None => Ret (Err (MalformedSri sri))
  | Some (algo, rest) =>
      expected <-!? Ret (sri_base64 rest);
      if bool_decide (algo = "sha512"%string) then
        actual <-! sha512_digest bytes;
        if bool_decide (actual = expected) then Ret (Ok tt)
        else Ret (Err (DigestMismatch "sha512" (len expected) (len actual)))
      else Ret (Err (UnsupportedAlgorithm algo))
  end.

Definition verify_shasum (bytes : list Z) (shasum : string) : fallible unit IntegrityError :=
  expected <-!? Ret (decode_hex shasum);
  actual <-! sha1_digest bytes;
  if bool_decide (actual = expected) then Ret (Ok tt) else Ret (Err ShasumMismatch).

Definition canonical_sha256_hex (bytes : list Z) : outcome string :=
  d <-! sha256_digest bytes; Ret (string_of_bytes (encode_base16_lower d)).

(** ** Digests have their size, and what the integrity check accepts

    Padding makes whole blocks and ends with the length; the digest functions answer 20, 32
    and 64 bytes for every message ([digests_typed]); a package passes its check exactly
    when its digest is the one the text encodes ([verify_sri_iff], [verify_shasum_iff]). *)

(** ** Padding *)

Lemma push_zeros_spec fuel block rest : ∀ chunks,
  0 < block → 0 ≤ rest < block → (rest - len chunks) `mod` block ≤ Z.of_nat fuel →
  push_zeros fuel block rest chunks = chunks ++ replicate (Z.to_nat ((rest - len chunks) `mod` block)) 0.
Proof.
  induction fuel as [|fuel IH]; intros chunks Hb Hr Hf; pose proof (Z.mod_pos_bound (rest - len chunks) block Hb) as Hm; cbn [push_zeros];
    destruct (Z.eqb_spec (len chunks `mod` block) rest) as [E|E].
  1,3: assert ((rest - len chunks) `mod` block = 0) as -> by (rewrite <-E, Zminus_mod, Zmod_mod, <-Zminus_mod; apply Z.sub_diag || (rewrite Z.sub_diag; by apply Z.mod_0_l; lia)); by rewrite app_nil_r.
  - exfalso. apply E. assert ((rest - len chunks) `mod` block = 0) as H0 by lia. apply Z.mod_divide in H0 as [k Hk]; [|lia].
    replace (len chunks) with (rest + (- k) * block) by lia. rewrite Z.mod_add by lia. by apply Z.mod_small.
  - assert ((rest - len chunks) `mod` block ≠ 0) as H0.
    { intros H0. apply E. apply Z.mod_divide in H0 as [k Hk]; [|lia]. replace (len chunks) with (rest + (- k) * block) by lia. rewrite Z.mod_add by lia. by apply Z.mod_small. }
    assert ((rest - len (chunks ++ [0])) `mod` block = (rest - len chunks) `mod` block - 1) as Em.
    { rewrite len_app. change (len [0]) with 1. symmetry. apply (Z.mod_unique_pos _ _ ((rest - len chunks) / block)); [lia|]. pose proof (Z.div_mod (rest - len chunks) block). lia. }
    rewrite IH, Em by lia. rewrite <-app_assoc. f_equal.
    replace (Z.to_nat ((rest - len chunks) `mod` block)) with (S (Z.to_nat ((rest - len chunks) `mod` block - 1))) by lia. done.
Qed.

Lemma pad_message_spec block (n : nat) bit_len bytes : 0 < block → 1 ≤ Z.of_nat n < block →
  ∃ k, 0 ≤ k < block ∧ pad_message block n bit_len bytes = bytes ++ [128] ++ replicate (Z.to_nat k) 0 ++ to_be_bytes n bit_len ∧
    len (pad_message block n bit_len bytes) `mod` block = 0.
Proof.
  intros Hb Hn. unfold pad_message. set (rest := block - Z.of_nat n). set (m := bytes ++ [128]). pose proof (Z.mod_pos_bound (rest - len m) block Hb) as Hk.
  rewrite push_zeros_spec by lia. exists ((rest - len m) `mod` block). split; [done|]. split; [unfold m; by rewrite <- !app_assoc|].
  rewrite !len_app, len_replicate by lia. assert (len (to_be_bytes n bit_len) = Z.of_nat n) as -> by (unfold len; by rewrite to_be_bytes_length).
  pose proof (Z.div_mod (rest - len m) block). replace (len m + (rest - len m) `mod` block + Z.of_nat n) with ((1 - (rest - len m) / block) * block) by lia. by apply Z.mod_mul; lia.
Qed.

Lemma chunks_exact_length fuel n : ∀ l c, c ∈ chunks_exact fuel n l → length c = n.
Proof.
  induction fuel as [|fuel IH]; intros l c; cbn [chunks_exact]; [set_solver|]. case_bool_decide as E; [set_solver|].
  rewrite elem_of_cons. intros [-> | H]; [rewrite length_take; lia|by apply (IH (drop n l))].
Qed.

(** The blocks make up the message when its length is a multiple of theirs. *)
Lemma chunks_exact_concat fuel n : ∀ l, (1 ≤ n)%nat → (length l ≤ fuel)%nat → (length l mod n = 0)%nat → concat (chunks_exact fuel n l) = l.
Proof.
  induction fuel as [|fuel IH]; intros l Hn Hf Hm; cbn [chunks_exact]; [by destruct l; [|cbn in Hf; lia]|]. case_bool_decide as E.
  - rewrite Nat.mod_small in Hm by done. by destruct l.
  - cbn [concat]. rewrite IH; [apply take_drop|done|rewrite length_drop; lia|]. rewrite length_drop.
    apply Nat.Div0.mod_divides in Hm as [q Hq]. destruct q as [|q]; [lia|]. replace (length l - n)%nat with (q * n)%nat by lia. apply Nat.Div0.mod_mul.
Qed.

(** ** Digests *)

(** A loop whose body keeps [P] and answers on the elements of the list. *)
Lemma for_each_total {A S} (body : A → S → outcome S) (P : S → Prop) l s :
  P s → (∀ a s, a ∈ l → P s → ∃ s', body a s = Ret s' ∧ P s') → ∃ s', for_each body l s = Ret s' ∧ P s'.
Proof.
  intros Hs Hb. apply (for_each_inv body (λ _ s, P s)); [done|]. intros pre a rest t -> Ht. apply Hb; [set_solver|done].
Qed.

Lemma range_spec a n i : i ∈ range a n → Z.of_nat a ≤ i < Z.of_nat (a + n).
Proof. unfold range. intros (k & -> & Hk)%list_elem_of_fmap. apply elem_of_seq in Hk. lia. Qed.

Lemma load_block_total b chunk w (n : nat) : 0 ≤ b → length chunk = Z.to_nat (16 * b) → length w = n → (16 ≤ n)%nat →
  ∃ w', load_block b chunk w = Ret w' ∧ length w' = n.
Proof.
  intros Hb Hc Hw Hn. unfold load_block. apply (for_each_total _ (λ w, length w = n)); [done|]. intros i v Hi Hv.
  apply (range_spec 0 16) in Hi. unfold load_word. rewrite slice_ok by (unfold len; nia). cbn [outcome_bind]. rewrite store_ok by (unfold len; lia).
  eexists. split; [reflexivity|]. by rewrite length_insert.
Qed.

Ltac index_step := match goal with |- context [index ?l ?i] => let x := fresh "x" in
  destruct (index_total l i) as (x & -> & _); [unfold len; lia|]; cbn [outcome_bind] end.

Lemma sha1_block_total chunk h : length chunk = 64%nat → length h = 5%nat → ∃ h', sha1_block chunk h = Ret h' ∧ length h' = 5%nat.
Proof.
  intros Hc Hh. unfold sha1_block. destruct (load_block_total 4 chunk (replicate 80 0) 80) as (w & -> & Hw); [lia|done|done|lia|]. cbn [outcome_bind].
  destruct (for_each_total sha1_schedule_step (λ w, length w = 80%nat) (range 16 64) w Hw) as (w' & -> & Hw').
  { intros i v Hi Hv. apply range_spec in Hi. unfold sha1_schedule_step. do 4 index_step. rewrite store_ok by (unfold len; lia). eexists. split; [reflexivity|]. by rewrite length_insert. }
  cbn [outcome_bind]. destruct (for_each_total sha1_round (λ s, length s = 5%nat) (enumerate w') h Hh) as (s & -> & Hs).
  { intros [i wi] s _ Hs. destruct s as [|a [|b [|c [|d [|e [|]]]]]]; try done. unfold sha1_round. destruct (sha1_function i b c d). by eexists. }
  eexists. split; [reflexivity|]. rewrite length_zip_with. lia.
Qed.

(** What the record of a SHA-2 function must satisfy. *)
Definition sha2_ok (p : Sha2) : Prop :=
  1 ≤ word_bytes_of p ∧ (16 ≤ rounds p)%nat ∧ length (constants p) = rounds p ∧ length (initial p) = 8%nat ∧ 1 ≤ Z.of_nat (length_bytes p) < block_size p.

Lemma sha2_block_total p chunk h : sha2_ok p → length chunk = Z.to_nat (block_size p) → length h = 8%nat → ∃ h', sha2_block p chunk h = Ret h' ∧ length h' = 8%nat.
Proof.
  intros (Hb & Hr & Hk & _ & _) Hc Hh. unfold sha2_block.
  destruct (load_block_total (word_bytes_of p) chunk (replicate (rounds p) 0) (rounds p)) as (w & -> & Hw); [lia|done|by rewrite length_replicate|done|]. cbn [outcome_bind].
  destruct (for_each_total (schedule_step p) (λ w, length w = rounds p) (range 16 (rounds p - 16)) w Hw) as (w' & -> & Hw').
  { intros i v Hi Hv. apply range_spec in Hi. unfold schedule_step. do 4 index_step. rewrite store_ok by (unfold len; lia). eexists. split; [reflexivity|]. by rewrite length_insert. }
  cbn [outcome_bind]. destruct (for_each_total (round p w') (λ s, length s = 8%nat) (range 0 (rounds p)) h Hh) as (s & -> & Hs).
  { intros i s Hi Hs. apply range_spec in Hi. destruct s as [|a [|b [|c [|d [|e [|f [|g [|hh [|]]]]]]]]]; try done. unfold round. cbv zeta. do 2 index_step. by eexists. }
  eexists. split; [reflexivity|]. rewrite length_zip_with. lia.
Qed.

(** A digest: [n] bytes. *)
Definition digest (n : nat) (r : outcome (list Z)) : Prop := ∃ d, r = Ret d ∧ length d = n ∧ bytes_ok d.

Lemma words_bytes n h : length (h ≫= to_be_bytes n) = (length h * n)%nat ∧ bytes_ok (h ≫= to_be_bytes n).
Proof.
  induction h as [|x h [IHl IHb]]; [by split; [|constructor]|]. change ((x :: h) ≫= to_be_bytes n) with (to_be_bytes n x ++ (h ≫= to_be_bytes n)).
  rewrite length_app, IHl, to_be_bytes_length. split; [done|]. apply Forall_app. split; [apply to_be_bytes_ok|done].
Qed.

Lemma words_digest n h : digest (length h * n) (Ret (h ≫= to_be_bytes n)).
Proof. eexists. split; [reflexivity|]. apply words_bytes. Qed.

Lemma sha2_digest_total p bit_len bytes : sha2_ok p → digest (8 * Z.to_nat (word_bytes_of p)) (sha2_digest p bit_len bytes).
Proof.
  intros Hp. pose proof Hp as (Hb & Hr & Hk & Hi & Hl). unfold sha2_digest. cbv zeta. set (chunks := pad_message _ _ _ _).
  destruct (for_each_total (sha2_block p) (λ h, length h = 8%nat) (chunks_exact (length chunks) (Z.to_nat (block_size p)) chunks) (initial p) Hi) as (h & -> & Hh).
  { intros c h Hc Hh. apply sha2_block_total; [done|by eapply chunks_exact_length|done]. }
  cbn [outcome_bind]. rewrite <-Hh. apply words_digest.
Qed.

(** SHA-1, SHA-256 and SHA-512 answer, for every message and without a panic, a digest
    of 20, 32 and 64 bytes; the message they work on, padded, is a whole number of blocks
    that begins with the message and the byte 0x80. *)
Lemma digests_typed bytes :
  digest 20 (sha1_digest bytes) ∧ digest 32 (sha256_digest bytes) ∧ digest 64 (sha512_digest bytes) ∧
  ∀ p bit_len, sha2_ok p → let padded := pad_message (block_size p) (length_bytes p) bit_len bytes in
    concat (chunks_exact (length padded) (Z.to_nat (block_size p)) padded) = padded ∧ (bytes ++ [128]) `prefix_of` padded.
Proof.
  split_and!.
  - unfold sha1_digest. cbv zeta. set (chunks := pad_message _ _ _ _).
    destruct (for_each_total sha1_block (λ h, length h = 5%nat) (chunks_exact (length chunks) 64 chunks) sha1_init eq_refl) as (h & -> & Hh).
    { intros c h Hc Hh. apply sha1_block_total; [by eapply chunks_exact_length|done]. }
    cbn [outcome_bind]. change 20%nat with (5 * 4)%nat. rewrite <-Hh. apply words_digest.
  - apply (sha2_digest_total sha256). split_and!; (done || cbn; lia).
  - apply (sha2_digest_total sha512). split_and!; (done || cbn; lia).
  - intros p bit_len (Hb & _ & _ & _ & Hl). assert (0 < block_size p) as H0 by (unfold block_size; lia).
    destruct (pad_message_spec (block_size p) (length_bytes p) bit_len bytes H0 Hl) as (k & Hk & E & Hm). cbv zeta. split.
    + apply chunks_exact_concat; [lia|lia|]. apply Nat2Z.inj. rewrite Nat2Z.inj_mod, Z2Nat.id by lia. exact Hm.
    + rewrite E, app_assoc. by eexists.
Qed.

(** The published digests of the empty message and of [abc]. *)
Example sha512_abc : fmap encode_base16_lower (match sha512_digest (as_bytes "abc") with Ret d => Some d | Panic => None end) =
  Some (as_bytes "ddaf35a193617abacc417349ae20413112e6fa4e89a97ea20a9eeee64b55d39a2192992a274fc1a836ba3c23a3feebbd454d4423643ce80e2a9ac94fa54ca49f").
Proof. vm_compute. reflexivity. Qed.

Example sha256_empty : fmap encode_base16_lower (match sha256_digest [] with Ret d => Some d | Panic => None end) =
  Some (as_bytes "e3b0c44298fc1c149afbf4c8996fb92427ae41e4649b934ca495991b7852b855").
Proof. vm_compute. reflexivity. Qed.

Example sha1_abc : verify_shasum (as_bytes "abc") "a9993e364706816aba3e25717850c26c9cd0d89d" = Ret (Ok tt).
Proof. vm_compute. reflexivity. Qed.

(** ** Checks *)

Lemma verify_sri_iff bytes sri :
  verify_sri bytes sri = Ret (Ok tt) ↔
  ∃ rest d, split_once "-" sri = Some ("sha512"%string, rest) ∧ sha512_digest bytes = Ret d ∧ decode_base64 (as_bytes rest) = Ok d.
Proof.
  destruct (sha2_digest_total sha512 (len bytes * 8) bytes) as (d & Ed & _); [split_and!; (done || cbn; lia)|]. fold (sha512_digest bytes) in Ed.
  unfold verify_sri, sri_base64. rewrite Ed. cbn [outcome_bind]. destruct (split_once "-" sri) as [[algo rest]|]; [|split; [done|by intros (? & ? & ? & _)]]. split.
  - destruct (decode_base64 (as_bytes rest)) as [x|e] eqn:E; cbn [result_map_err fallible_bind]; [|done]. case_bool_decide as Ha; [|done]. case_bool_decide as Hd; [|done].
    intros _. subst. by exists rest, x.
  - intros (r & d' & [= -> ->] & [= <-] & ->). cbn [result_map_err fallible_bind]. by rewrite !bool_decide_eq_true_2.
Qed.

Lemma verify_shasum_iff bytes text :
  verify_shasum bytes text = Ret (Ok tt) ↔ ∃ d, sha1_digest bytes = Ret d ∧ decode_base16 (as_bytes text) = Ok d.
Proof.
  unfold verify_shasum, decode_hex. split.
  - destruct (decode_base16 (as_bytes text)) as [x|e]; cbn [result_map_err fallible_bind]; [|done]. destruct (sha1_digest bytes) as [d|]; cbn [outcome_bind]; [|done].
    case_bool_decide as Hd; [|done]. intros _. subst. by exists x.
  - intros (d & -> & ->). cbn [result_map_err fallible_bind outcome_bind]. by rewrite bool_decide_eq_true_2.
Qed.
