(* ===== verification/Gunzip.v ===== *)
(** * Gunzip: gzip streams of several members

    crates/compression/src/lib.rs has a decoder of its own, whose text up to the blocks is
    that of rusty-js-deflate, so the definitions of [Inflate] stand for both; what differs
    is that it says how many bytes it has read, and that a gzip stream may have several
    members.  The loop over the members runs on one unit of fuel per byte: a member has at
    least eighteen.  Any bytes are decoded without a panic, within the limit
    ([gunzip_members_bounded]). *)

From S2P Require Import Prelude Bytes Bits Arrays Inflate InflateBits InflateTotal DeflateRoundtrip.

Local Open Scope Z_scope.
Local Open Scope cruft_scope.

Definition inflate_with_limit_consumed (bytes : list Z) (max_output : Z) : fallible (list Z * Z) DecodeError :=
  let br := reader_new bytes in
  p <-!? blocks_loop (S (bits_left br)) max_output [] br;
  q <-!? align_to_byte p.2;
  Ret (Ok (p.1, Z.of_nat (byte_pos q.2))).

(** One member: its bytes, and how many bytes of input it took. *)
Definition gunzip_member (bytes : list Z) (max_output : Z) : fallible (list Z * Z) DecodeError :=
  if len bytes <? 18 then Ret (Err UnexpectedEnd)
  else
    b0 <-! index bytes 0;
    b1 <-! index bytes 1;
    if negb (b0 =? 31) || negb (b1 =? 139) then Ret (Err InvalidGzipMagic)
    else
      b2 <-! index bytes 2;
      if negb (b2 =? 8) then Ret (Err UnsupportedGzipMethod)
      else
        flg <-! index bytes 3;
        if has_flag flg 224 then Ret (Err GzipReservedFlags)
        else
          p <-!? skip_extra (has_flag flg 4) bytes 10;
          p <-!? skip_name (has_flag flg 8) bytes p;
          p <-!? skip_name (has_flag flg 16) bytes p;
          p <-!? skip_header_crc (has_flag flg 2) bytes p;
          if len bytes <? p then Ret (Err UnexpectedEnd)
          else
            payload <-! slice_from bytes p;
            r <-!? inflate_with_limit_consumed payload max_output;
            let trailer_start := p + r.2 in
            if len bytes <? trailer_start + 8 then Ret (Err UnexpectedEnd)
            else
              trailer <-! slice bytes trailer_start (trailer_start + 8);
              crc_expected <-! le32 trailer 0;
              isize_expected <-! le32 trailer 4;
              c <-! crc32 r.1;
              if negb (c =? crc_expected) then Ret (Err GzipCrcMismatch)
              else if negb (as_u32 (len r.1) =? isize_expected) then Ret (Err GzipSizeMismatch)
              else Ret (Ok (r.1, trailer_start + 8)).

(** [offset + 2 <= data.len() && data[offset] == 0x1f && data[offset + 1] == 0x8b]. *)
Definition member_starts (bytes : list Z) (offset : Z) : outcome bool :=
  if offset + 2 <=? len bytes then
    b0 <-! index bytes offset;
    if b0 =? 31 then b1 <-! index bytes (offset + 1); Ret (b1 =? 139) else Ret false
  else Ret false.

Fixpoint members_loop (fuel : nat) (bytes : list Z) (max_output offset : Z) (out : list Z) : fallible (Z * list Z) DecodeError :=
  more <-! member_starts bytes offset;
  if more : bool then
    match fuel with
    | O => Panic
    | S fuel' =>
        let remaining_budget := saturating_sub64 max_output (len out) in
        rest <-! slice_from bytes offset;
        r <-!? gunzip_member rest remaining_budget;
        members_loop fuel' bytes max_output (offset + r.2) (out ++ r.1)
    end
  else Ret (Ok (offset, out)).

(** [gunzip_with_limit] of that crate. *)
Definition gunzip_members_with_limit (bytes : list Z) (max_output : Z) : fallible (list Z) DecodeError :=
  r <-!? members_loop (length bytes) bytes max_output 0 [];
  if r.1 =? 0 then m <-!? gunzip_member bytes max_output; Ret (Ok m.1) else Ret (Ok r.2).

Definition gunzip_members (bytes : list Z) : fallible (list Z) DecodeError := gunzip_members_with_limit bytes MAX_OUTPUT.

(** ** It answers *)

(** An answer within a limit that has taken between [lo] and [hi] bytes. *)
Definition taken (max_output lo hi : Z) (r : fallible (list Z * Z) DecodeError) : Prop :=
  match r with Ret (Ok (out, n)) => len out ≤ max_output ∧ lo ≤ n ≤ hi | Ret (Err _) => True | Panic => False end.

Lemma inflate_consumed_bounded bytes max_output : taken max_output 0 (len bytes) (inflate_with_limit_consumed bytes max_output).
Proof.
  unfold inflate_with_limit_consumed. cbv zeta.
  assert (at_ok (reader_new bytes)) as Hok by (split; cbn; lia).
  pose proof (blocks_loop_answers (S (bits_left (reader_new bytes))) max_output [] (reader_new bytes) Hok ltac:(lia)) as H.
  destruct (blocks_loop _ _ _ _) as [[[out br]|e]|]; cbn [fallible_bind fst snd]; [|done|done]. destruct H as (Hw & Hbr & Hd & _).
  destruct (align_to_byte_spec br Hbr) as (br' & -> & [_ Hp] & Hd' & _). cbn [fallible_bind fst snd taken]. split; [done|].
  rewrite Hd', Hd in Hp. cbn in Hp. unfold len. lia.
Qed.

Lemma gunzip_member_taken bytes m : bytes_ok bytes → taken m 18 (len bytes) (gunzip_member bytes m).
Proof.
  intros Hb. unfold gunzip_member. destruct (Z.ltb_spec (len bytes) 18); [done|].
  destruct (index_total bytes 0) as (b0 & -> & _); [lia|]. destruct (index_total bytes 1) as (b1 & -> & _); [lia|]. cbn [outcome_bind]. destruct (_ || _); [done|].
  destruct (index_total bytes 2) as (b2 & -> & _); [lia|]. cbn [outcome_bind]. destruct (negb _); [done|].
  destruct (index_total bytes 3) as (flg & -> & _); [lia|]. cbn [outcome_bind]. destruct (has_flag flg 224); [done|].
  apply (steps_bind bytes 10); [apply skip_extra_spec; [done|lia]|done|]. intros p1 Hp1.
  apply (steps_bind bytes p1); [apply skip_name_spec; lia|done|]. intros p2 Hp2. apply (steps_bind bytes p2); [apply skip_name_spec; lia|done|]. intros p3 Hp3.
  apply (steps_bind bytes p3); [apply skip_header_crc_spec; lia|done|]. intros p4 Hp4. rewrite (proj2 (Z.ltb_ge _ _)) by lia.
  rewrite slice_from_ok by lia. cbn [outcome_bind]. pose proof (inflate_consumed_bounded (drop (Z.to_nat p4) bytes) m) as Hi.
  destruct (inflate_with_limit_consumed _ m) as [[[out n]|e]|]; cbn [fallible_bind fst snd]; [|done|done]. destruct Hi as [Hout Hn].
  cbv zeta. destruct (Z.ltb_spec (len bytes) (p4 + n + 8)); [done|]. rewrite slice_ok by lia. cbn [outcome_bind]. set (t := take _ _).
  assert (len t = 8) as Ht by (unfold t, len in *; rewrite length_take, length_drop; lia).
  assert (∀ i, 0 ≤ i → i + 4 ≤ 8 → ∃ v, le32 t i = Ret v) as Hle.
  { intros i Hi0 Hi8. unfold le32. destruct (index_total t i) as (x0 & -> & _); [lia|]. destruct (index_total t (i + 1)) as (x1 & -> & _); [lia|].
    destruct (index_total t (i + 2)) as (x2 & -> & _); [lia|]. destruct (index_total t (i + 3)) as (x3 & -> & _); [lia|]. by eexists. }
  destruct (Hle 0) as [c1 ->]; [lia|lia|]. destruct (Hle 4) as [c2 ->]; [lia|lia|]. cbn [outcome_bind].
  destruct (crc32_ok out) as (c & -> & _). cbn [outcome_bind]. destruct (negb _); [done|]. destruct (negb _); [done|]. cbn. split; [done|lia].
Qed.

Lemma members_loop_bounded fuel bytes m : bytes_ok bytes → ∀ offset out,
  0 ≤ offset ≤ len bytes → len out ≤ m → len bytes - offset ≤ Z.of_nat fuel * 18 →
  match members_loop fuel bytes m offset out with Ret (Ok (o, out')) => 0 ≤ o ∧ len out' ≤ m | Ret (Err _) => True | Panic => False end.
Proof.
  intros Hb. induction fuel as [|fuel IH]; intros offset out Ho Hm Hf; cbn [members_loop]; unfold member_starts at 1; (destruct (Z.leb_spec (offset + 2) (len bytes)); [|cbn; lia]).
  - exfalso. lia.
  - destruct (index_total bytes offset) as (b0 & -> & _); [lia|]. cbn [outcome_bind]. destruct (b0 =? 31); [|cbn; lia].
    destruct (index_total bytes (offset + 1)) as (b1 & -> & _); [lia|]. cbn [outcome_bind]. destruct (b1 =? 139); [|cbn; lia].
    rewrite slice_from_ok by lia. cbn [outcome_bind]. cbv zeta. set (rest := drop _ _). assert (len rest = len bytes - offset) as Hr by (unfold rest, len in *; rewrite length_drop; lia).
    pose proof (gunzip_member_taken rest (saturating_sub64 m (len out)) ltac:(by apply Forall_drop)) as Hg.
    destruct (gunzip_member rest _) as [[[o n]|e]|]; cbn [fallible_bind fst snd]; [|done|done]. destruct Hg as [Hl Hn]. unfold saturating_sub64 in Hl.
    apply IH; [lia|rewrite len_app; lia|lia].
Qed.

Lemma gunzip_members_bounded bytes m : bytes_ok bytes → 0 ≤ m → bounded m (gunzip_members_with_limit bytes m).
Proof.
  intros Hb Hm. unfold gunzip_members_with_limit. pose proof (members_loop_bounded (length bytes) bytes m Hb 0 []) as H. pose proof (len_nonneg bytes).
  destruct (members_loop _ _ _ _ _) as [[[o out]|e]|]; cbn [fallible_bind fst snd].
  - destruct H as [Ho Hl]; [lia|done|unfold len; lia|]. destruct (o =? 0); [|done].
    pose proof (gunzip_member_taken bytes m Hb) as Hg. destruct (gunzip_member bytes m) as [[[o' n]|e]|]; cbn [fallible_bind fst snd]; [|done|done]. apply Hg.
  - done.
  - apply H; [lia|done|unfold len; lia].
Qed.
