(* ===== verification/Fetcher.v ===== *)
(** * Fetcher: fetching a package into the store

    rusty-js-pm/src/fetcher.rs, store.rs and integrity.rs: the download, the check of the
    digest, the extraction of the archive with its root directory stripped, and the
    publication of the result in the content-addressed store.  The network, the file
    system and the environment are parameters ([World]); a computation records the
    operations it asks of the file system and then answers, fails or panics ([io]), so that
    what it did is known whatever happened.  A walk over a stored package reads its tree at
    once.  The counters and timers of the profile are left out. *)

From Stdlib Require String.
From S2P Require Import Prelude Paths Text Bytes BaseN Inflate Tar TarPaths Integrity Gunzip.

Local Open Scope cruft_scope.

(** ** The world *)

Inductive disk_op :=
| MkDirAll (p : list component)
| CreateFile (p : list component)
| CopyInto (p : list component) (data : list Z)
| WriteAll (p : list component) (data : list Z)
| RemoveDirAll (p : list component)
| Rename (p q : list component).

Inductive node := FileNode | DirNode (children : list (string * node)) | OtherNode.

Record World := {
  http_get_follow : string → result (list Z) string;
  disk : list disk_op → disk_op → option string;
  is_file_at : list disk_op → list component → bool;
  tree_at : list disk_op → list component → result (list (string * node)) string;
  store_root : string;
  process_id : string;
  allow_legacy_sha1_shasum : bool;
}.

Inductive FetchError :=
| Http (e : string)
| NoIntegrity
| WeakLegacyShasum
| TarballTooLarge (n limit : Z)
| IntegrityFailed (e : IntegrityError)
| FetchIo (e : string)
| FetchUnsafePath (p : string)
| UnsafeEntryKind (p : string)
| GunzipFailed (e : DecodeError)
| UntarFailed (e : TarError).

(** ** Computations *)

Definition io (A : Type) : Type := list disk_op → list disk_op * fallible A FetchError.

#[export] Instance io_ret : MRet io := λ A a t, (t, Ret (Ok a)).
#[export] Instance io_bind : MBind io := λ A B k m t,
  match m t with
  | (t, Ret (Ok a)) => k a t
  | (t, Ret (Err e)) => (t, Ret (Err e))
  | (t, Panic) => (t, Panic)
  end.

Definition answer {A} (r : fallible A FetchError) : io A := λ t, (t, r).
Definition throw {A} (e : FetchError) : io A := answer (Ret (Err e)).
Definition observe {A} (q : list disk_op → A) : io A := λ t, (t, Ret (Ok (q t))).

(** [map_err] on an answer. *)
Definition map_err {A E F} (f : E → F) (r : fallible A E) : fallible A F := r <-! r; Ret (result_map_err f r).

Definition operate (w : World) (op : disk_op) : io unit := λ t,
  (t ++ [op], match disk w t op with None => Ret (Ok tt) | Some e => Ret (Err (FetchIo e)) end).

(** [let _ = ..]: whether it succeeds does not matter. *)
Definition attempt (op : disk_op) : io unit := λ t, (t ++ [op], Ret (Ok tt)).

(** ** Checks *)

Record ResolvedDep := { tarball_url : string; integrity : option string; shasum : option string }.

Definition MAX_TARBALL_BYTES : Z := 64 * 1024 * 1024.

Definition check_tarball_size (n : Z) : fallible unit FetchError :=
  if (MAX_TARBALL_BYTES <? n)%Z then Ret (Err (TarballTooLarge n MAX_TARBALL_BYTES)) else Ret (Ok tt).

Definition verify_bytes (w : World) (dep : ResolvedDep) (bytes : list Z) : fallible unit FetchError :=
  match integrity dep with
  | Some sri => map_err IntegrityFailed (verify_sri bytes sri)
  | None =>
      match shasum dep with
      | Some sum => if negb (allow_legacy_sha1_shasum w) then Ret (Err WeakLegacyShasum) else map_err IntegrityFailed (verify_shasum bytes sum)
      | None => Ret (Ok tt)
      end
  end.

Definition has_digest (dep : ResolvedDep) : bool := negb (bool_decide (integrity dep = None) && bool_decide (shasum dep = None)).

(** ** Paths of entries *)

(** The root all files and directories share, when none is in [package]. *)
Fixpoint common_alternate_root_loop (entries : list Entry) (root : option string) : option string :=
  match entries with
  | [] => root
  | e :: entries =>
      if negb (is_file (kind e)) && negb (is_dir (kind e)) then common_alternate_root_loop entries root
      else
        match head (components (path e)) with
        | Some (Normal first) =>
            if bool_decide (first = "package") then None
            else
              match root with
              | Some candidate => if bool_decide (candidate ≠ first) then None else common_alternate_root_loop entries root
              | None => common_alternate_root_loop entries (Some first)
              end
        | _ => common_alternate_root_loop entries root
        end
  end.

Definition common_alternate_root (entries : list Entry) : option string := common_alternate_root_loop entries None.

Definition sanitize_entry_path_with_root (p : string) (alternate_root : option string) : result string FetchError :=
  let unsafe := FetchUnsafePath p in
  if path_has_windows_root_shape p then Err unsafe
  else
    match components p with
    | [] => Ok ""
    | first :: rest =>
        out <-? (match first with
                 | Normal s =>
                     if bool_decide (s = "package") || bool_decide (alternate_root = Some s) then Ok ""
                     else if is_windows_drive_component s then Err unsafe
                     else Ok (path_join "" s)
                 | CurDir => Ok ""
                 | RootDir | ParentDir => Err unsafe
                 end);
        result_map_err (λ _, unsafe) (push_components p rest out)
    end.

(** ** Extraction *)

Definition make_parent (w : World) (d : list component) : io unit :=
  match parent d with Some q => operate w (MkDirAll q) | None => mret tt end.

(** One turn of the loop: the files written so far. *)
Definition extract_into (w : World) (dest : string) (root : option string) (entry : Entry) (count : Z) : io Z :=
  match kind entry with
  | Other k => if (k =? 49)%Z || (k =? 50)%Z then throw (UnsafeEntryKind (path entry)) else mret count
  | _ =>
      safe ← answer (Ret (sanitize_entry_path_with_root (path entry) root));
      if bool_decide (safe = "") then mret count
      else
        let d := components (path_join dest safe) in
        if is_dir (kind entry) then _ ← operate w (MkDirAll d); mret count
        else
          _ ← make_parent w d;
          _ ← operate w (CreateFile d);
          _ ← operate w (CopyInto d (contents entry));
          mret (count + 1)%Z
  end.

Fixpoint extract_all (w : World) (dest : string) (root : option string) (entries : list Entry) (count : Z) : io Z :=
  match entries with
  | [] => mret count
  | e :: entries => count ← extract_into w dest root e count; extract_all w dest root entries count
  end.

Definition extract_tar_into `{Profile} (w : World) (bytes : list Z) (dest : string) : io Z :=
  decompressed ← answer (map_err GunzipFailed (gunzip_members bytes));
  entries ← answer (map_err UntarFailed (parse_archive decompressed));
  extract_all w dest (common_alternate_root entries) entries 0%Z.

Definition verify_and_extract_bytes `{Profile} (w : World) (dep : ResolvedDep) (bytes : list Z) (staging : string) : io Z :=
  _ ← answer (check_tarball_size (len bytes));
  _ ← answer (verify_bytes w dep bytes);
  _ ← operate w (MkDirAll (components staging));
  extract_tar_into w bytes staging.

Definition fetch_and_extract `{Profile} (w : World) (dep : ResolvedDep) (staging : string) : io Z :=
  if negb (has_digest dep) then throw NoIntegrity
  else
    bytes ← answer (Ret (result_map_err Http (http_get_follow w (tarball_url dep))));
    _ ← answer (check_tarball_size (len bytes));
    verify_and_extract_bytes w dep bytes staging.

(** ** The store *)

Definition COMPLETE_MARKER : string := ".cruft-store-complete".

(** [integrity.or(shasum)], hashed. *)
Definition content_key (dep : ResolvedDep) : outcome (option string) :=
  match match integrity dep with Some i => Some i | None => shasum dep end with
  | None => Ret None
  | Some raw =>
      if bool_decide (raw = "") then Ret None
      else h <-! canonical_sha256_hex (as_bytes raw); Ret (Some ("addr-" +:+ h))
  end.

Definition entry_dir (w : World) (key : string) : string := path_join (store_root w) key.
Definition temp_entry_dir (w : World) (key : string) : string :=
  path_join (store_root w) (".tmp-" +:+ key +:+ "-" +:+ process_id w).
Definition marker (dir : string) : list component := components (path_join dir COMPLETE_MARKER).
Definition is_present (w : World) (key : string) : io bool := observe (λ t, is_file_at w t (marker (entry_dir w key))).

(** [walk] of [count_regular_files]. *)
Fixpoint count_node (n : node) : Z :=
  match n with
  | DirNode children =>
      (fix walk children :=
         match children with
         | [] => 0%Z
         | (name, c) :: children =>
             ((if string_starts_with ".cruft-" name then 0
               else match c with DirNode _ => count_node c | FileNode => 1 | OtherNode => 0 end) + walk children)%Z
         end) children
  | _ => 0%Z
  end.

Definition count_regular_files (w : World) (dir : list component) : io Z :=
  r ← observe (λ t, tree_at w t dir);
  match r with Ok children => mret (count_node (DirNode children)) | Err e => throw (FetchIo e) end.

Record StorePackage := { store_dir : string; from_cache : bool; file_count : Z; tarball_bytes : option Z }.

(** The renaming that publishes an entry, which another process may have published first. *)
Definition publish (w : World) (key : string) (tmp entry : list component) : io unit := λ t,
  let op := Rename tmp entry in
  match disk w t op with
  | None => (t ++ [op], Ret (Ok tt))
  | Some e =>
      (present ← is_present w key;
       if present : bool then attempt (RemoveDirAll tmp) else throw (FetchIo e)) (t ++ [op])
  end.

Definition fetch_into_store `{Profile} (w : World) (dep : ResolvedDep) : io StorePackage :=
  if negb (has_digest dep) then throw NoIntegrity
  else
    k ← answer (k <-! content_key dep; Ret (Ok k));
    match k with
    | None => throw NoIntegrity
    | Some key =>
        let entry := entry_dir w key in
        present ← is_present w key;
        if present : bool then
          n ← count_regular_files w (components entry);
          mret {| store_dir := entry; from_cache := true; file_count := n; tarball_bytes := None |}
        else
          bytes ← answer (Ret (result_map_err Http (http_get_follow w (tarball_url dep))));
          _ ← answer (check_tarball_size (len bytes));
          _ ← answer (verify_bytes w dep bytes);
          let tmp := temp_entry_dir w key in
          _ ← attempt (RemoveDirAll (components tmp));
          _ ← operate w (MkDirAll (components tmp));
          n ← extract_tar_into w bytes tmp;
          _ ← operate w (WriteAll (marker tmp) [49%Z]);
          _ ← (match parent (components entry) with Some q => attempt (MkDirAll q) | None => mret tt end);
          _ ← publish w key (components tmp) (components entry);
          mret {| store_dir := entry; from_cache := false; file_count := n; tarball_bytes := Some (len bytes) |}
    end.

(** ** Only verified packages reach the store

    However the network and the file system behave, fetching a package works inside its own
    temporary directory, and the entry of the store appears only by renaming that directory
    once everything in it was written from bytes with the digest asked for
    ([store_publishes_verified]). *)

(** ** What a computation does *)

(** Whatever it answers, [m] only adds operations that satisfy [P]. *)
Definition performs {A} (P : disk_op → Prop) (m : io A) : Prop := ∀ t t' r, m t = (t', r) → ∃ ops, t' = t ++ ops ∧ Forall P ops.

Lemma performs_pure {A} P (m : io A) : (∀ t, (m t).1 = t) → performs P m.
Proof. intros H t t' r E. exists []. rewrite app_nil_r. split; [|constructor]. rewrite <-(H t), E. done. Qed.

Lemma performs_bind {A B} P (m : io A) (k : A → io B) : performs P m → (∀ a, performs P (k a)) → performs P (m ≫= k).
Proof.
  intros Hm Hk t t' r E. unfold mbind, io_bind in E. destruct (m t) as [t1 [[a|e]|]] eqn:E1; destruct (Hm _ _ _ E1) as (ops & -> & Hops).
  - destruct (Hk a _ _ _ E) as (ops2 & -> & Hops2). exists (ops ++ ops2). rewrite app_assoc. split; [done|by apply Forall_app].
  - injection E as <- _. by exists ops.
  - injection E as <- _. by exists ops.
Qed.

Lemma performs_operate w (P : disk_op → Prop) op : P op → performs P (operate w op).
Proof. intros Hp t t' r [= <- _]. exists [op]. by repeat constructor. Qed.

Lemma performs_attempt (P : disk_op → Prop) op : P op → performs P (attempt op).
Proof. intros Hp t t' r [= <- _]. exists [op]. by repeat constructor. Qed.

Lemma performs_answer {A B} P (r : fallible A FetchError) (k : A → io B) :
  (∀ a, r = Ret (Ok a) → performs P (k a)) → performs P (answer r ≫= k).
Proof.
  intros Hk t t' x E. unfold mbind, io_bind, answer in E. destruct r as [[a|e]|]; [by eapply Hk|..].
  all: injection E as <- _; exists []; by rewrite app_nil_r.
Qed.

#[local] Hint Extern 1 (performs _ (mret _)) => by apply performs_pure : performs.
#[local] Hint Extern 1 (performs _ (answer _)) => by apply performs_pure : performs.
#[local] Hint Extern 1 (performs _ (throw _)) => by apply performs_pure : performs.
#[local] Hint Extern 1 (performs _ (observe _)) => by apply performs_pure : performs.
#[local] Hint Resolve performs_operate performs_attempt : performs.

(** ** Extraction stays below its directory *)

Definition op_under (dest : string) (op : disk_op) : Prop :=
  match op with
  | MkDirAll p | CreateFile p | CopyInto p _ | WriteAll p _ | RemoveDirAll p => below dest p
  | Rename _ _ => False
  end.

Lemma below_self dest : below dest (components dest).
Proof. exists []. by rewrite app_nil_r. Qed.

Lemma sanitize_root_plain p root safe : sanitize_entry_path_with_root p root = Ok safe → ∃ names, plain_path safe names.
Proof.
  unfold sanitize_entry_path_with_root. destruct (path_has_windows_root_shape p); [done|]. pose proof (components_plain p) as Hp.
  destruct (components p) as [|c cs]; [intros [= <-]; exists []; apply plain_path_nil|].
  assert (∀ s, Normal s ∈ cs → plain_name s) as Hcs by (intros s Hs; apply Hp; by right).
  assert (∀ out names, plain_path out names → result_map_err (λ _, FetchUnsafePath p) (push_components p cs out) = Ok safe → ∃ names, plain_path safe names) as Hpush.
  { intros out names Ho E. destruct (push_components p cs out) as [o|e] eqn:Ep; [|done]. injection E as <-. by eapply push_components_spec. }
  destruct c as [| | |s]; cbn [result_bind]; try done.
  - apply (Hpush "" []), plain_path_nil.
  - destruct (_ || _); cbn [result_bind]; [apply (Hpush "" []), plain_path_nil|]. destruct (is_windows_drive_component s); cbn [result_bind]; [done|].
    apply (Hpush _ ([] ++ [s])), plain_path_join; [apply plain_path_nil|]. apply Hp. by left.
Qed.

Lemma safe_op dest safe : (∃ names, plain_path safe names) → below dest (components (path_join dest safe)).
Proof. intros [names Hp]. exists names. by apply safe_below. Qed.

Lemma make_parent_performs w dest safe : safe ≠ "" → (∃ names, plain_path safe names) →
  performs (op_under dest) (make_parent w (components (path_join dest safe))).
Proof.
  intros Hne [names Hp]. unfold make_parent. destruct (parent _) as [q|] eqn:Eq; [|auto with performs]. apply performs_operate.
  eapply parent_below; [by apply safe_op; exists names| |exact Eq]. rewrite (safe_below dest safe names Hp). intros H.
  apply (f_equal length) in H. rewrite length_app, length_fmap in H. destruct names; [|cbn in H; lia]. destruct Hp as (_ & _ & _ & He). by apply Hne, He.
Qed.

Lemma extract_into_performs w dest root e count : performs (op_under dest) (extract_into w dest root e count).
Proof.
  unfold extract_into. destruct (kind e) as [| |k] eqn:Ek; [| |destruct (_ || _); auto with performs].
  all: apply performs_answer; intros safe [= Es]; apply sanitize_root_plain in Es; case_bool_decide as Hn; [auto with performs|]; cbn [is_dir].
  - repeat (apply performs_bind; [|intros []]); auto with performs.
    + by apply make_parent_performs.
    + by apply performs_operate, safe_op.
    + by apply performs_operate, safe_op.
  - apply performs_bind; [by apply performs_operate, safe_op|]. intros []. auto with performs.
Qed.

Lemma extract_all_performs w dest root es : ∀ count, performs (op_under dest) (extract_all w dest root es count).
Proof.
  induction es as [|e es IH]; intros count; cbn [extract_all]; [auto with performs|]. apply performs_bind; [apply extract_into_performs|done].
Qed.

Lemma extract_tar_performs `{Profile} w bytes dest : performs (op_under dest) (extract_tar_into w bytes dest).
Proof.
  unfold extract_tar_into. apply performs_bind; [auto with performs|]. intros d. apply performs_bind; [auto with performs|]. intros es. apply extract_all_performs.
Qed.

(** ** What passes the check *)

(** The digest asked for is the digest of the bytes. *)
Definition verified (w : World) (dep : ResolvedDep) (bytes : list Z) : Prop :=
  match integrity dep with
  | Some sri => ∃ rest d, split_once "-" sri = Some ("sha512", rest) ∧ sha512_digest bytes = Ret d ∧ decode_base64 (as_bytes rest) = Ok d
  | None => ∃ sum d, shasum dep = Some sum ∧ allow_legacy_sha1_shasum w = true ∧ sha1_digest bytes = Ret d ∧ decode_base16 (as_bytes sum) = Ok d
  end.

Lemma verify_bytes_sound w dep bytes : has_digest dep = true → verify_bytes w dep bytes = Ret (Ok tt) → verified w dep bytes.
Proof.
  unfold has_digest, verify_bytes, verified, map_err. destruct (integrity dep) as [sri|].
  - intros _. destruct (verify_sri bytes sri) as [[[]|e]|] eqn:E; cbn; try done. intros _. by apply verify_sri_iff.
  - destruct (shasum dep) as [sum|]; [|done]. intros _. destruct (allow_legacy_sha1_shasum w); [|done]. cbn [negb].
    destruct (verify_shasum bytes sum) as [[[]|e]|] eqn:E; cbn; try done. intros _. apply verify_shasum_iff in E as (d & E1 & E2). by exists sum, d.
Qed.

Lemma check_size_sound n : check_tarball_size n = Ret (Ok tt) → (n ≤ MAX_TARBALL_BYTES)%Z.
Proof. unfold check_tarball_size. destruct (Z.ltb_spec MAX_TARBALL_BYTES n); done. Qed.

(** Running an answer, and an operation. *)
Lemma run_answer {A B} (r : fallible A FetchError) (k : A → io B) t t' x :
  (answer r ≫= k) t = (t', x) → (t' = t ∧ (∀ a, x ≠ Ret (Ok a))) ∨ ∃ a, r = Ret (Ok a) ∧ k a t = (t', x).
Proof. unfold mbind, io_bind, answer. destruct r as [[a|e]|]; [|intros [= <- <-]; by left..]. intros E. right. by exists a. Qed.

Lemma run_operate {B} w op (k : unit → io B) t t' x :
  (operate w op ≫= k) t = (t', x) → (t' = t ++ [op] ∧ (∀ a, x ≠ Ret (Ok a))) ∨ (disk w t op = None ∧ k tt (t ++ [op]) = (t', x)).
Proof. unfold mbind, io_bind, operate. destruct (disk w t op); [intros [= <- <-]; by left|]. intros E. by right. Qed.

(** ** The staging directory *)

(** Fetching into a directory touches nothing outside it, and nothing at all unless the
    bytes downloaded have the digest asked for and are not too many. *)
Lemma fetch_and_extract_verified `{Profile} w dep staging ops r :
  fetch_and_extract w dep staging [] = (ops, r) →
  Forall (op_under staging) ops ∧
  (ops ≠ [] ∨ (∃ n, r = Ret (Ok n)) → ∃ bytes, http_get_follow w (tarball_url dep) = Ok bytes ∧ (len bytes ≤ MAX_TARBALL_BYTES)%Z ∧ verified w dep bytes).
Proof.
  unfold fetch_and_extract. destruct (has_digest dep) eqn:Hd; [|intros [= <- <-]; split; [constructor|naive_solver]]. cbn [negb]. intros E.
  apply run_answer in E as [[-> Hx]|(bytes & Eb & E)]; [split; [constructor|]; intros [?|[n ->]]; [done|by destruct (Hx n)]|].
  apply run_answer in E as [[-> Hx]|([] & Es & E)]; [split; [constructor|]; intros [?|[n ->]]; [done|by destruct (Hx n)]|].
  unfold verify_and_extract_bytes in E.
  apply run_answer in E as [[-> Hx]|([] & _ & E)]; [split; [constructor|]; intros [?|[n ->]]; [done|by destruct (Hx n)]|].
  apply run_answer in E as [[-> Hx]|([] & Ev & E)]; [split; [constructor|]; intros [?|[n ->]]; [done|by destruct (Hx n)]|].
  assert (∃ bytes, http_get_follow w (tarball_url dep) = Ok bytes ∧ (len bytes ≤ MAX_TARBALL_BYTES)%Z ∧ verified w dep bytes) as Hv.
  { exists bytes. destruct (http_get_follow w (tarball_url dep)) as [b|e]; [|done]. cbn in Eb. injection Eb as ->.
    split; [done|]. split; [by apply check_size_sound|by apply verify_bytes_sound]. }
  split; [|done]. apply run_operate in E as [[-> _]|[_ E]]; [repeat constructor; apply below_self|].
  destruct (extract_tar_performs w bytes staging _ _ _ E) as (ops' & -> & Hops). apply Forall_app. split; [|done]. repeat constructor. apply below_self.
Qed.

(** ** The store *)

Section store.
Context `{Profile} (w : World) (dep : ResolvedDep) (key : string).

Let tmp : string := temp_entry_dir w key.
Let entry : list component := components (entry_dir w key).

(** The operations before anything is published, when all of them succeeded: the directory
    is made afresh, the archive extracted, the marker written. *)
Definition staged (bytes : list Z) (ops : list disk_op) (n : Z) : Prop :=
  ∃ ext, ops = [RemoveDirAll (components tmp); MkDirAll (components tmp)] ++ ext ++ [WriteAll (marker tmp) [49%Z]] ∧
    extract_tar_into w bytes tmp [RemoveDirAll (components tmp); MkDirAll (components tmp)] =
      ([RemoveDirAll (components tmp); MkDirAll (components tmp)] ++ ext, Ret (Ok n)).

(** What publishes it. *)
Definition publishing (ops : list disk_op) : Prop :=
  ∃ last, ops = match parent entry with Some q => [MkDirAll q] | None => [] end ++ Rename (components tmp) entry :: last ∧
    (last = [] ∨ last = [RemoveDirAll (components tmp)]).

Lemma marker_below : below tmp (marker tmp).
Proof. unfold marker. exists [COMPLETE_MARKER]. by rewrite components_join_relative. Qed.

Lemma publish_spec t t' r : publish w key (components tmp) entry t = (t', r) →
  ∃ last, t' = t ++ Rename (components tmp) entry :: last ∧ (last = [] ∨ last = [RemoveDirAll (components tmp)]).
Proof.
  unfold publish. cbv zeta. destruct (disk w t _) as [e|].
  - unfold mbind, io_bind, is_present, observe. destruct (is_file_at w _ _); intros [= <- _].
    + exists [RemoveDirAll (components tmp)]. rewrite <-app_assoc. split; [done|by right].
    + exists []. split; [done|by left].
  - intros [= <- _]. exists []. split; [done|by left].
Qed.

Lemma run_publish (bytes : list Z) t n t' r :
  (_ ← (match parent entry with Some q => attempt (MkDirAll q) | None => mret tt end);
   _ ← publish w key (components tmp) entry;
   mret {| store_dir := entry_dir w key; from_cache := false; file_count := n; tarball_bytes := Some (len bytes) |}) t = (t', r) →
  ∃ ops, t' = t ++ ops ∧ publishing ops.
Proof.
  intros E. unfold publishing. destruct (parent entry) as [q|].
  - unfold mbind at 1, io_bind at 1, attempt in E. unfold mbind, io_bind in E.
    destruct (publish w key (components tmp) entry (t ++ [MkDirAll q])) as [t1 x] eqn:Ep. apply publish_spec in Ep as (last & -> & Hl).
    assert (t' = (t ++ [MkDirAll q]) ++ Rename (components tmp) entry :: last) as -> by (by destruct x as [[[]|e]|]; injection E as <- _).
    exists (MkDirAll q :: Rename (components tmp) entry :: last). rewrite <-app_assoc. split; [done|]. by exists last.
  - unfold mbind at 1, io_bind at 1, mret at 1, io_ret at 1 in E. unfold mbind, io_bind in E.
    destruct (publish w key (components tmp) entry t) as [t1 x] eqn:Ep. apply publish_spec in Ep as (last & -> & Hl).
    assert (t' = t ++ Rename (components tmp) entry :: last) as -> by (by destruct x as [[[]|e]|]; injection E as <- _).
    exists (Rename (components tmp) entry :: last). split; [done|]. by exists last.
Qed.
End store.

(** C40: whatever the network, the file system and the archive do, fetching a package into the
    store works inside its own temporary directory until, and unless, all of this has
    happened: the bytes downloaded are at most 64 MiB and have the digest the dependency
    asks for (SHA-512, or SHA-1 where that is allowed), the temporary directory was made
    afresh, the archive was extracted into it without an error, and the marker written.
    Only then is the directory of the entry made and the temporary directory renamed to it,
    so an entry that is present is complete and verified. *)
Theorem store_publishes_verified `{Profile} w dep ops r :
  fetch_into_store w dep [] = (ops, r) →
  ops = [] ∨
  ∃ key bytes, content_key dep = Ret (Some key) ∧ http_get_follow w (tarball_url dep) = Ok bytes ∧
    (len bytes ≤ MAX_TARBALL_BYTES)%Z ∧ verified w dep bytes ∧
    (Forall (op_under (temp_entry_dir w key)) ops ∧ (∀ p, r ≠ Ret (Ok p)) ∨
     ∃ inside n tail, ops = inside ++ tail ∧ Forall (op_under (temp_entry_dir w key)) inside ∧
       staged w key bytes inside n ∧ publishing w key tail).
Proof.
  unfold fetch_into_store. destruct (has_digest dep) eqn:Hd; [|intros [= <- <-]; by left]. cbn [negb]. intros E.
  apply run_answer in E as [[-> _]|(k & Ek & E)]; [by left|]. destruct k as [key|]; [|injection E as <- <-; by left].
  assert (content_key dep = Ret (Some key)) as Hk by (destruct (content_key dep) as [x|]; [|done]; cbn in Ek; by injection Ek as ->).
  cbv zeta in E. unfold is_present in E. unfold mbind at 1, io_bind at 1, observe at 1 in E. destruct (is_file_at w [] _).
  { unfold mbind at 1, io_bind at 1, count_regular_files, mbind, io_bind, observe in E. left. destruct (tree_at w [] _); by injection E as <- _. }
  apply run_answer in E as [[-> _]|(bytes & Eb & E)]; [by left|]. apply run_answer in E as [[-> _]|([] & Es & E)]; [by left|].
  apply run_answer in E as [[-> _]|([] & Ev & E)]; [by left|]. right. exists key, bytes. split; [done|].
  assert (http_get_follow w (tarball_url dep) = Ok bytes) as Hg by (destruct (http_get_follow w (tarball_url dep)); [|done]; cbn in Eb; by injection Eb as ->).
  split; [done|]. split; [by apply check_size_sound|]. split; [by apply verify_bytes_sound|].
  set (tmp := temp_entry_dir w key) in *. set (rm := RemoveDirAll (components tmp)) in *.
  assert (op_under tmp rm ∧ op_under tmp (MkDirAll (components tmp))) as [Hrm Hmk] by (split; apply below_self).
  unfold mbind at 1, io_bind at 1, attempt at 1 in E. rewrite app_nil_l in E.
  apply run_operate in E as [[-> Hx]|[_ E]]; [left; by split; [repeat constructor|]|]. change ([rm] ++ [MkDirAll (components tmp)]) with [rm; MkDirAll (components tmp)] in E.
  unfold mbind at 1, io_bind at 1 in E. destruct (extract_tar_into w bytes tmp _) as [t1 [[n|e]|]] eqn:Ex.
  2,3: injection E as <- <-; left; split; [|done]; destruct (extract_tar_performs w bytes tmp _ _ _ Ex) as (ext & -> & Hext); apply Forall_app; by repeat constructor.
  destruct (extract_tar_performs w bytes tmp _ _ _ Ex) as (ext & -> & Hext).
  assert (op_under tmp (WriteAll (marker tmp) [49%Z])) as Hm by apply marker_below.
  assert (Forall (op_under tmp) (([rm; MkDirAll (components tmp)] ++ ext) ++ [WriteAll (marker tmp) [49%Z]])) as Hin.
  { apply Forall_app. split; [apply Forall_app; split; [by repeat constructor|done]|by repeat constructor]. }
  apply run_operate in E as [[-> Hx]|[_ E]]; [by left|]. right. apply run_publish in E as (tail & -> & Hp). eexists _, n, tail. split; [reflexivity|].
  split; [done|]. split; [|done]. exists ext. split; [by rewrite <-app_assoc|done].
Qed.

(** A gzipped archive of two files, and a world in which everything succeeds. *)
Definition sample_package : list Z :=
  ([31; 139; 8; 0; 0; 0; 0; 0; 0; 255; 43; 72; 76; 206; 78; 76; 79; 213; 79; 212; 79; 98; 160; 21; 48; 0; 2; 51; 19;
   19; 48; 13; 4; 232; 52; 16; 24; 33; 177; 65; 226; 230; 230; 134; 38; 12; 10; 6; 12; 116; 0; 165; 197; 37; 137; 69;
   64; 43; 25; 70; 38; 96; 100; 98; 24; 5; 35; 24; 20; 64; 243; 127; 50; 13; 237; 32; 156; 255; 209; 217; 230; 38;
   230; 198; 163; 249; 127; 20; 140; 130; 81; 48; 10; 104; 9; 0; 127; 25; 119; 35; 0; 10; 0; 0])%Z.

Definition sample_dep : ResolvedDep := {|
  tarball_url := "https://registry.test/a.tgz";
  integrity := match sha512_digest sample_package with Ret d => Some ("sha512-" +:+ string_of_bytes (encode_base64 d)) | Panic => None end;
  shasum := None |}.

Definition sample_world : World := {|
  http_get_follow := λ _, Ok sample_package; disk := λ _ _, None; is_file_at := λ _ _, false; tree_at := λ _ _, Ok [];
  store_root := "/s"; process_id := "7"; allow_legacy_sha1_shasum := false |}.

Lemma store_publishes_verified_witness :
  let run := @fetch_into_store true sample_world sample_dep [] in
  length run.1 = 11 ∧ ∃ key bytes, content_key sample_dep = Ret (Some key) ∧ http_get_follow sample_world (tarball_url sample_dep) = Ok bytes ∧ verified sample_world sample_dep bytes.
Proof.
  cbv zeta. assert (length (@fetch_into_store true sample_world sample_dep []).1 = 11) as Hl by (vm_compute; reflexivity). split; [exact Hl|].
  destruct (@store_publishes_verified true sample_world sample_dep _ _ (surjective_pairing _)) as [E|(key & bytes & Hk & Hg & _ & Hv & _)].
  - apply (f_equal length) in E. rewrite Hl in E. discriminate E.
  - exists key, bytes. split; [exact Hk|]. split; [exact Hg|exact Hv].
Defined.
