(* ===== verification/Http1.v ===== *)
(** * Http1: the HTTP/1.1 codec

    http-codec/src/lib.rs: requests and responses, their framing, the chunked coding, and
    [ResponseDecoder], which reads a response from bytes in any pieces.  Positions are [usize]
    values: a sum wraps or panics as the build profile says, a slice out of range panics.
    A message of [format!] is the text it gives.  The loops over chunks run on one unit of
    fuel per byte and one more, since every turn reads at least the end of a line; out of
    fuel they panic.  [parse_chunked_trailers], whose position may wrap around, answers
    [None] when it has not ended within its fuel. *)

From Stdlib Require String.
From S2P Require Import Prelude Text Utf8 Bytes.

Local Open Scope Z_scope.
Local Open Scope cruft_scope.

(** ** What the code uses of [str] and slices *)

Definition string_map (f : char → char) : string → string :=
  fix go s := match s with EmptyString => EmptyString | String a s' => String (f a) (go s') end.

(** [str::to_ascii_lowercase], [str::to_ascii_uppercase], [eq_ignore_ascii_case]. *)
Definition lower_char (a : char) : char := if code_in a 65 90 then byte (code a + 32) else a.
Definition upper_char (a : char) : char := if code_in a 97 122 then byte (code a - 32) else a.
Definition to_ascii_lowercase : string → string := string_map lower_char.
Definition to_ascii_uppercase : string → string := string_map upper_char.
Definition eq_ignore_ascii_case (s t : string) : bool := bool_decide (to_ascii_lowercase s = to_ascii_lowercase t).

(** [s.split(CRLF)]. *)
Fixpoint split_crlf (s : string) : list string :=
  match s with
  | EmptyString => [EmptyString]
  | String a s1 =>
      match s1 with
      | String b s2 =>
          if (code a =? 13) && (code b =? 10) then EmptyString :: split_crlf s2 else push_front a (split_crlf s1)
      | EmptyString => push_front a (split_crlf s1)
      end
  end.

(** [s.splitn(n, c)]. *)
Fixpoint splitn (n : nat) (c : char) (s : string) : list string :=
  match n with
  | O => []
  | S n' =>
      match n' with
      | O => [s]
      | S _ => match split_once c s with None => [s] | Some (w, rest) => w :: splitn n' c rest end
      end
  end.

(** [String::from_utf8_lossy]. *)
Definition string_lossy (l : list Z) : string := String.string_of_list_ascii (from_utf8_lossy (byte <$> l)).

(** The digits of [usize::from_str_radix] in base 16. *)
Definition hex_digit (a : char) : option Z :=
  if code_in a 48 57 then Some (code a - 48)
  else if code_in a 65 70 then Some (code a - 55)
  else if code_in a 97 102 then Some (code a - 87)
  else None.

Fixpoint parse_hex_digits (acc : Z) (s : string) : option Z :=
  match s with
  | EmptyString => Some acc
  | String a s' =>
      match hex_digit a with
      | Some v => let acc' := acc * 16 + v in if acc' <=? u64_max then parse_hex_digits acc' s' else None
      | None => None
      end
  end.

(** [l.windows(w.len()).position(|x| x == w)]; [l.starts_with(w)]. *)
Definition starts_with (w l : list Z) : bool := bool_decide (take (length w) l = w).

Fixpoint find_window (w l : list Z) : option nat :=
  if starts_with w l then Some O
  else match l with [] => None | _ :: l' => S <$> find_window w l' end.

(** [l.iter().position(|b| b == c)]. *)
Fixpoint find_byte (c : Z) (l : list Z) : option nat :=
  match l with [] => None | b :: l' => if b =? c then Some O else S <$> find_byte c l' end.

Definition CRLF : list Z := [13; 10].

(** ** Limits, messages and errors *)

Definition MAX_HEADER_SECTION_BYTES : Z := 16 * 1024.
Definition MAX_HEADER_LINE_BYTES : Z := 8 * 1024.
Definition MAX_HEADER_COUNT : Z := 100.
Definition MAX_DECODED_BODY_BYTES : Z := 16 * 1024 * 1024.
Definition MAX_CHUNK_COUNT : Z := 100000.

Definition header_list : Type := list (string * string).

Record ParsedRequest := {
  rq_method : string; rq_target : string; rq_version : string;
  rq_headers : header_list; rq_body : list Z; rq_trailers : header_list }.

Record ParsedResponse := {
  rs_version : string; rs_status : Z; rs_reason : string; rs_headers : header_list; rs_body : list Z }.

Record ResponseHead := { version : string; status : Z; reason : string; headers : header_list }.

Inductive CodecError :=
| Truncated
| BadStartLine (s : string)
| BadHeader (s : string)
| BadVersion (s : string)
| BadStatus (s : string)
| BadChunkEncoding (s : string)
| ContentLengthMismatch
| LimitExceeded (s : string).

Inductive BodyFraming := Chunked | Length (n : Z) | Eof | Empty.

(** ** The end of the header section *)

Definition find_header_end_from (bytes : list Z) (start : Z) : option Z :=
  if len bytes <? 4 then None
  else
    let start := Z.min start (saturating_sub64 (len bytes) 4) in
    match find_window [13; 10; 13; 10] (drop (Z.to_nat start) bytes) with
    | Some i => Some (start + Z.of_nat i + 4)
    | None => None
    end.

Definition find_header_end (bytes : list Z) : option Z := find_header_end_from bytes 0.

Definition section_limit : CodecError := LimitExceeded "header section exceeds 16384 bytes".

Definition validate_header_section (section : list Z) : result unit CodecError :=
  if MAX_HEADER_SECTION_BYTES <? len section then Err section_limit else Ok tt.

Definition validate_header_buffer_len (n : Z) : result unit CodecError :=
  if MAX_HEADER_SECTION_BYTES <? n then Err section_limit else Ok tt.

(** ** Header fields *)

Definition case_insensitive_values (hs : header_list) (name : string) : list string :=
  let lower := to_ascii_lowercase name in
  snd <$> filter (λ h, to_ascii_lowercase h.1 = lower) hs.

Definition is_field_name_byte (a : char) : bool :=
  existsb (Z.eqb (code a)) [33; 35; 36; 37; 38; 39; 42; 43; 45; 46; 94; 95; 96; 124; 126]
  || code_in a 48 57 || code_in a 65 90 || code_in a 97 122.

Definition validate_header_name (name : string) : result unit CodecError :=
  if bool_decide (name = ""%string) then Err (BadHeader "empty header name")
  else if negb (string_forallb is_field_name_byte name) then Err (BadHeader ("invalid header name " +:+ name))
  else Ok tt.

(** Carriage return, line feed and zero are not allowed. *)
Definition is_value_byte (a : char) : bool := negb ((code a =? 13) || (code a =? 10) || (code a =? 0)).

Definition validate_header_value (value : string) : result unit CodecError :=
  if negb (string_forallb is_value_byte value) then Err (BadHeader "invalid header value byte") else Ok tt.

Definition validate_http_version (v : string) : result unit CodecError :=
  if bool_decide (v = "HTTP/1.1"%string) then Ok tt else Err (BadVersion v).

(** One turn of [for line in s.split(CRLF)]. *)
Definition parse_header_line (line : string) (out : header_list) : result header_list CodecError :=
  if bool_decide (line = ""%string) then Ok out
  else if MAX_HEADER_LINE_BYTES <? Z.of_nat (String.length line) then Err (LimitExceeded "header line exceeds 8192 bytes")
  else if MAX_HEADER_COUNT <=? len out then Err (LimitExceeded "header count exceeds 100")
  else
    match split_once ":" line with
    | None => Err (BadHeader line)
    | Some (name_raw, rest) =>
        if negb (bool_decide (name_raw = trim name_raw)) then Err (BadHeader "whitespace before header colon")
        else
          _ <-? validate_header_name name_raw;
          let value := trim rest in
          _ <-? validate_header_value value;
          Ok (out ++ [(name_raw, value)])
    end.

Fixpoint parse_header_lines (lines : list string) (out : header_list) : result header_list CodecError :=
  match lines with
  | [] => Ok out
  | line :: lines => out <-? parse_header_line line out; parse_header_lines lines out
  end.

Definition parse_headers (section : list Z) : result header_list CodecError :=
  _ <-? validate_header_section section;
  match string_from_utf8 section with
  | None => Err (BadHeader "non-UTF-8 header bytes")
  | Some s => parse_header_lines (split_crlf s) []
  end.

(** ** Framing *)

Definition checked_body_len (n : Z) : result unit CodecError :=
  if MAX_DECODED_BODY_BYTES <? n then Err (LimitExceeded "decoded body exceeds 16777216 bytes") else Ok tt.

Definition checked_add_body_len (current add : Z) : result Z CodecError :=
  match checked_add64 current add with
  | None => Err (LimitExceeded "decoded body length overflow")
  | Some next => _ <-? checked_body_len next; Ok next
  end.

Fixpoint same_content_length (values : list string) (seen : option string) : result (option string) CodecError :=
  match values with
  | [] => Ok seen
  | value :: values =>
      let normalized := trim value in
      match seen with
      | Some prev =>
          if negb (bool_decide (prev = normalized)) then Err (BadHeader "conflicting content-length headers")
          else same_content_length values seen
      | None => same_content_length values (Some normalized)
      end
  end.

Definition content_length (hs : header_list) : result (option Z) CodecError :=
  seen <-? same_content_length (case_insensitive_values hs "content-length") None;
  match seen with
  | None => Ok None
  | Some cl =>
      match parse_uint u64_max cl with
      | Some n => Ok (Some n)
      | None => Err (BadHeader ("invalid content-length " +:+ cl))
      end
  end.

Fixpoint push_tokens (pieces : list string) (tokens : list string) : result (list string) CodecError :=
  match pieces with
  | [] => Ok tokens
  | token :: pieces =>
      let token := trim token in
      if bool_decide (token = ""%string) then Err (BadHeader "empty transfer-encoding token")
      else push_tokens pieces (tokens ++ [to_ascii_lowercase token])
  end.

Fixpoint encoding_tokens (values : list string) (tokens : list string) : result (list string) CodecError :=
  match values with
  | [] => Ok tokens
  | value :: values => tokens <-? push_tokens (split_char "," value) tokens; encoding_tokens values tokens
  end.

Definition transfer_encoding (hs : header_list) : result (option (list string)) CodecError :=
  let values := case_insensitive_values hs "transfer-encoding" in
  match values with
  | [] => Ok None
  | _ => tokens <-? encoding_tokens values []; Ok (Some tokens)
  end.

Definition decode_framing (hs : header_list) : result (option BodyFraming) CodecError :=
  te <-? transfer_encoding hs;
  cl <-? content_length hs;
  match te, cl with
  | Some _, Some _ => Err (BadHeader "content-length with transfer-encoding")
  | Some tokens, None =>
      if negb (bool_decide (last tokens = Some "chunked"%string)) then Err (BadHeader "transfer-encoding chunked must be final")
      else if existsb (λ t, negb (bool_decide (t = "chunked"%string))) tokens then Err (BadHeader "unsupported transfer-encoding")
      else Ok (Some Chunked)
  | None, Some n => _ <-? checked_body_len n; Ok (Some (Length n))
  | None, None => Ok None
  end.

(** ** The chunked coding *)

Definition parse_chunk_size_line (line : list Z) : result Z CodecError :=
  match string_from_utf8 line with
  | None => Err (BadChunkEncoding "non-UTF-8 chunk size")
  | Some size_str =>
      let size_hex := default ""%string (head (split_char ";" size_str)) in
      if bool_decide (size_hex = ""%string) || negb (string_forallb (λ a, bool_decide (is_Some (hex_digit a))) size_hex)
      then Err (BadChunkEncoding ("bad chunk size " +:+ size_hex))
      else
        match parse_hex_digits 0 size_hex with
        | Some n => Ok n
        | None => Err (BadChunkEncoding ("bad chunk size " +:+ size_hex))
        end
  end.

(** [format!("{:X}")]. *)
Fixpoint hex_loop (fuel : nat) (v : Z) (acc : list Z) : list Z :=
  match fuel with
  | O => acc
  | S fuel' =>
      let d := v `mod` 16 in
      let acc := (if d <? 10 then d + 48 else d + 55) :: acc in
      if v <? 16 then acc else hex_loop fuel' (v / 16) acc
  end.

(** A [usize] has at most 16 digits. *)
Definition format_hex (v : Z) : list Z := hex_loop 16 v [].

Definition encode_chunk (out c : list Z) : list Z := out ++ format_hex (len c) ++ CRLF ++ c ++ CRLF.

Definition chunked_encode (chunks : list (list Z)) : list Z := foldl encode_chunk [] chunks ++ [48; 13; 10; 13; 10].

(** The state of the loop of [chunked_decode]; a turn answers or goes on. *)
Record chunk_state := { at_ : Z; decoded : list Z; chunks : Z }.

Inductive turn (S A : Type) := Next (s : S) | Answer (a : A).
Arguments Next {S A} s.
Arguments Answer {S A} a.

Definition chunked_decode_turn `{Profile} (bytes : list Z) (s : chunk_state) :
    fallible (turn chunk_state (list Z)) CodecError :=
  let i := at_ s in
  rest <-! slice_from bytes i;
  match find_window CRLF rest with
  | None => Ret (Err Truncated)
  | Some rel =>
      line_end <-! add64 (Z.of_nat rel) i;
      line <-! slice bytes i line_end;
      size <-!? Ret (parse_chunk_size_line line);
      i <-! add64 line_end 2;
      if size =? 0 then
        rest <-! slice_from bytes i;
        if starts_with CRLF rest then Ret (Ok (Answer (decoded s)))
        else
          match find_window CRLF rest with
          | None => Ret (Err (BadChunkEncoding "missing terminator"))
          | Some _ => Ret (Ok (Answer (decoded s)))
          end
      else if MAX_CHUNK_COUNT <=? chunks s then Ret (Err (LimitExceeded "chunk count exceeds 100000"))
      else
        _ <-!? Ret (checked_add_body_len (len (decoded s)) size);
        stop <-! add64 i size;
        if len bytes <? stop then Ret (Err (BadChunkEncoding "chunk size exceeds remaining bytes"))
        else
          d <-! slice bytes i stop;
          e <-! add64 stop 2;
          if len bytes <? e then Ret (Err (BadChunkEncoding "incomplete: chunk CRLF not yet received"))
          else
            w <-! slice bytes stop e;
            if negb (bool_decide (w = CRLF)) then Ret (Err (BadChunkEncoding "chunk not followed by CRLF"))
            else Ret (Ok (Next {| at_ := e; decoded := decoded s ++ d; chunks := chunks s + 1 |}))
  end.

Fixpoint chunked_decode_loop `{Profile} (fuel : nat) (bytes : list Z) (s : chunk_state) : fallible (list Z) CodecError :=
  match fuel with
  | O => Panic
  | S fuel' =>
      if at_ s <? len bytes then
        t <-!? chunked_decode_turn bytes s;
        match t with Next s => chunked_decode_loop fuel' bytes s | Answer out => Ret (Ok out) end
      else Ret (Err (BadChunkEncoding "no zero-chunk terminator"))
  end.

Definition chunked_decode `{Profile} (bytes : list Z) : fallible (list Z) CodecError :=
  chunked_decode_loop (S (length bytes)) bytes {| at_ := 0; decoded := []; chunks := 0 |}.

(** The loop of [chunked_consumed_len] counts the bytes decoded. *)
Record consumed_state := { c_at : Z; c_decoded : Z; c_chunks : Z }.

Definition chunked_consumed_turn `{Profile} (bytes : list Z) (s : consumed_state) : fallible (turn consumed_state Z) CodecError :=
  let i := c_at s in
  rest <-! slice_from bytes i;
  match find_window CRLF rest with
  | None => Ret (Err (BadChunkEncoding "missing chunk-size CRLF"))
  | Some rel =>
      line_end <-! add64 (Z.of_nat rel) i;
      line <-! slice bytes i line_end;
      size <-!? Ret (parse_chunk_size_line line);
      i <-! add64 line_end 2;
      if size =? 0 then
        rest <-! slice_from bytes i;
        if starts_with CRLF rest then n <-! add64 i 2; Ret (Ok (Answer n))
        else
          match find_window [13; 10; 13; 10] rest with
          | None => Ret (Err (BadChunkEncoding "missing terminator"))
          | Some term => n <-! add64 i (Z.of_nat term); n <-! add64 n 4; Ret (Ok (Answer n))
          end
      else if MAX_CHUNK_COUNT <=? c_chunks s then Ret (Err (LimitExceeded "chunk count exceeds 100000"))
      else
        n <-!? Ret (checked_add_body_len (c_decoded s) size);
        stop <-! add64 i size;
        e <-! add64 stop 2;
        if len bytes <? e then Ret (Err Truncated)
        else
          w <-! slice bytes stop e;
          if negb (bool_decide (w = CRLF)) then Ret (Err (BadChunkEncoding "chunk not followed by CRLF"))
          else Ret (Ok (Next {| c_at := e; c_decoded := n; c_chunks := c_chunks s + 1 |}))
  end.

Fixpoint chunked_consumed_loop `{Profile} (fuel : nat) (bytes : list Z) (s : consumed_state) : fallible Z CodecError :=
  match fuel with
  | O => Panic
  | S fuel' =>
      if c_at s <? len bytes then
        t <-!? chunked_consumed_turn bytes s;
        match t with Next s => chunked_consumed_loop fuel' bytes s | Answer n => Ret (Ok n) end
      else Ret (Err Truncated)
  end.

Definition chunked_consumed_len `{Profile} (bytes : list Z) : fallible Z CodecError :=
  chunked_consumed_loop (S (length bytes)) bytes {| c_at := 0; c_decoded := 0; c_chunks := 0 |}.

(** A trailer line, without its end: a name and a value around the first colon, if the name
    is not empty. *)
Definition trailer_of (line : list Z) : header_list :=
  match find_byte 58 line with
  | Some colon =>
      let name := trim (string_lossy (take colon line)) in
      let val := trim (string_lossy (drop (S colon) line)) in
      if bool_decide (name = ""%string) then [] else [(name, val)]
  | None => []
  end.

Fixpoint trailer_lines `{Profile} (fuel : nat) (bytes : list Z) (i : Z) (trailers : header_list) : outcome (option header_list) :=
  match fuel with
  | O => Ret None
  | S fuel' =>
      rest <-! slice_from bytes i;
      match find_window CRLF rest with
      | None | Some O => Ret (Some trailers)
      | Some rel2 =>
          stop <-! add64 i (Z.of_nat rel2);
          line <-! slice bytes i stop;
          i <-! add64 stop 2;
          trailer_lines fuel' bytes i (trailers ++ trailer_of line)
      end
  end.

Fixpoint chunk_trailers_loop `{Profile} (fuel : nat) (bytes : list Z) (i : Z) : outcome (option header_list) :=
  match fuel with
  | O => Ret None
  | S fuel' =>
      if negb (i <? len bytes) then Ret (Some [])
      else
        rest <-! slice_from bytes i;
        match find_window CRLF rest with
        | None => Ret (Some [])
        | Some rel =>
            line_end <-! add64 (Z.of_nat rel) i;
            line <-! slice bytes i line_end;
            match parse_chunk_size_line line with
            | Err _ => Ret (Some [])
            | Ok size =>
                i <-! add64 line_end 2;
                if size =? 0 then trailer_lines (S (length bytes)) bytes i []
                else
                  i <-! add64 i size;
                  e <-! add64 i 2;
                  if len bytes <? e then Ret (Some [])
                  else chunk_trailers_loop fuel' bytes e
            end
        end
  end.

Definition parse_chunked_trailers `{Profile} (bytes : list Z) : outcome (option header_list) :=
  chunk_trailers_loop (S (length bytes)) bytes 0.

(** ** Whole messages *)

(** The first line of a header section and the lines after it. *)
Definition split_start_line `{Profile} (section : list Z) : outcome (list Z * list Z) :=
  match find_window CRLF section with
  | Some crlf =>
      let crlf := Z.of_nat crlf in
      first <-! slice section 0 crlf;
      start <-! add64 crlf 2;
      rest <-! slice_from section start;
      Ret (first, rest)
  | None => Ret (section, [])
  end.

(** [&bytes[..header_end - 4]]. *)
Definition head_bytes `{Profile} (bytes : list Z) (header_end : Z) : outcome (list Z) :=
  stop <-! sub64 header_end 4; slice bytes 0 stop.

Definition decode_body `{Profile} (hs : header_list) (body_bytes : list Z) : fallible (list Z) CodecError :=
  framing <-!? Ret (decode_framing hs);
  match framing with
  | Some Chunked => chunked_decode body_bytes
  | Some (Length n) =>
      _ <-!? Ret (checked_body_len n);
      if len body_bytes <? n then Ret (Err ContentLengthMismatch) else b <-! slice body_bytes 0 n; Ret (Ok b)
  | Some Empty => Ret (Ok [])
  | Some Eof | None => _ <-!? Ret (checked_body_len (len body_bytes)); Ret (Ok body_bytes)
  end.

Definition decode_body_exact `{Profile} (hs : header_list) (body_bytes : list Z) : fallible (list Z) CodecError :=
  framing <-!? Ret (decode_framing hs);
  match framing with
  | Some (Length n) => if negb (len body_bytes =? n) then Ret (Err ContentLengthMismatch) else decode_body hs body_bytes
  | _ => decode_body hs body_bytes
  end.

Definition mentions_chunked (h : string * string) : bool :=
  eq_ignore_ascii_case h.1 "transfer-encoding" && string_contains "chunked" (to_ascii_lowercase h.2).

(** [None]: the search for trailers did not end. *)
Definition parse_request `{Profile} (bytes : list Z) : fallible (option ParsedRequest) CodecError :=
  match find_header_end bytes with
  | None => Ret (Err Truncated)
  | Some header_end =>
      header_section <-! head_bytes bytes header_end;
      _ <-!? Ret (validate_header_section header_section);
      body_section <-! slice_from bytes header_end;
      p <-! split_start_line header_section;
      match string_from_utf8 p.1 with
      | None => Ret (Err (BadStartLine "non-UTF-8 start line"))
      | Some start_line =>
          match splitn 3 " " start_line with
          | [method; target; v] =>
              _ <-!? Ret (validate_http_version v);
              hs <-!? Ret (parse_headers p.2);
              body <-!? decode_body_exact hs body_section;
              let is_chunked := existsb mentions_chunked hs in
              trailers <-! (if is_chunked then parse_chunked_trailers body_section else Ret (Some []));
              Ret (Ok (match trailers with
                       | Some ts => Some {| rq_method := method; rq_target := target; rq_version := v; rq_headers := hs;
                                            rq_body := body; rq_trailers := ts |}
                       | None => None
                       end))
          | _ => Ret (Err (BadStartLine start_line))
          end
      end
  end.

Definition parse_head_section `{Profile} (header_section : list Z) : fallible ResponseHead CodecError :=
  _ <-!? Ret (validate_header_section header_section);
  p <-! split_start_line header_section;
  match string_from_utf8 p.1 with
  | None => Ret (Err (BadStartLine "non-UTF-8 status line"))
  | Some status_line =>
      match splitn 3 " " status_line with
      | v :: code :: parts =>
          _ <-!? Ret (validate_http_version v);
          match parse_uint u16_max code with
          | None => Ret (Err (BadStatus code))
          | Some n =>
              let reason := default ""%string (head parts) in
              hs <-!? Ret (parse_headers p.2);
              Ret (Ok {| version := v; status := n; reason := reason; headers := hs |})
          end
      | _ => Ret (Err (BadStartLine status_line))
      end
  end.

Definition parse_response `{Profile} (bytes : list Z) : fallible ParsedResponse CodecError :=
  match find_header_end bytes with
  | None => Ret (Err Truncated)
  | Some header_end =>
      section <-! head_bytes bytes header_end;
      h <-!? parse_head_section section;
      body_bytes <-! slice_from bytes header_end;
      body <-!? decode_body_exact (headers h) body_bytes;
      Ret (Ok {| rs_version := version h; rs_status := status h; rs_reason := reason h; rs_headers := headers h; rs_body := body |})
  end.

Definition message_consumed_len `{Profile} (bytes : list Z) : fallible Z CodecError :=
  match find_header_end bytes with
  | None => Ret (Err Truncated)
  | Some header_end =>
      header_section <-! head_bytes bytes header_end;
      _ <-!? Ret (validate_header_section header_section);
      p <-! split_start_line header_section;
      hs <-!? Ret (parse_headers p.2);
      framing <-!? Ret (decode_framing hs);
      match framing with
      | Some (Length n) =>
          rest <-! slice_from bytes header_end;
          if len rest <? n then Ret (Err ContentLengthMismatch) else k <-! add64 header_end n; Ret (Ok k)
      | Some Chunked =>
          rest <-! slice_from bytes header_end;
          n <-!? chunked_consumed_len rest;
          k <-! add64 header_end n; Ret (Ok k)
      | _ => Ret (Ok header_end)
      end
  end.

(** ** Writing *)

Fixpoint write_header_lines (hs : header_list) (out : list Z) (has_cl has_te : bool) : result (list Z * bool * bool) CodecError :=
  match hs with
  | [] => Ok (out, has_cl, has_te)
  | (n, v) :: hs =>
      _ <-? validate_header_name n;
      _ <-? validate_header_value v;
      let lower := to_ascii_lowercase n in
      let has_cl := if bool_decide (lower = "content-length"%string) then true else has_cl in
      let has_te := if bool_decide (lower = "transfer-encoding"%string) then true else has_te in
      write_header_lines hs (out ++ as_bytes n ++ as_bytes ": " ++ as_bytes v ++ CRLF) has_cl has_te
  end.

Definition write_headers (out : list Z) (hs : header_list) (body_len : Z) (auto_content_length : bool) : result (list Z) CodecError :=
  r <-? write_header_lines hs out false false;
  let '(out, has_cl, has_te) := r in
  if has_cl && has_te then Err (BadHeader "content-length with transfer-encoding")
  else if auto_content_length && negb has_cl && negb has_te
  then Ok (out ++ as_bytes "Content-Length: " ++ as_bytes (u64_to_string body_len) ++ CRLF)
  else Ok out.

Definition method_omits_bodyless_content_length (method : string) : bool :=
  existsb (λ m, bool_decide (to_ascii_uppercase method = m)) ["GET"; "HEAD"; "DELETE"; "OPTIONS"; "TRACE"; "CONNECT"]%string.

Definition try_serialize_request (method target : string) (hs : header_list) (body : list Z) : result (list Z) CodecError :=
  let out := as_bytes method ++ as_bytes " " ++ as_bytes target ++ as_bytes " HTTP/1.1" ++ CRLF in
  let auto_content_length := negb (bool_decide (body = []) && method_omits_bodyless_content_length method) in
  out <-? write_headers out hs (len body) auto_content_length;
  Ok (out ++ CRLF ++ body).

(** [expect]: an error is a panic. *)
Definition serialize_request (method target : string) (hs : header_list) (body : list Z) : outcome (list Z) :=
  match try_serialize_request method target hs body with Ok out => Ret out | Err _ => Panic end.

Definition status_line (status : Z) (reason : string) : list Z :=
  as_bytes "HTTP/1.1 " ++ as_bytes (u64_to_string status) ++ as_bytes " " ++ as_bytes reason ++ CRLF.

Definition try_serialize_response (status : Z) (reason : string) (hs : header_list) (body : list Z) : result (list Z) CodecError :=
  out <-? write_headers (status_line status reason) hs (len body) true;
  Ok (out ++ CRLF ++ body).

Definition try_serialize_response_head (status : Z) (reason : string) (hs : header_list) : result (list Z) CodecError :=
  out <-? write_headers (status_line status reason) hs 0 false;
  Ok (out ++ CRLF).

Definition serialize_response (status : Z) (reason : string) (hs : header_list) (body : list Z) : outcome (list Z) :=
  match try_serialize_response status reason hs body with Ok out => Ret out | Err _ => Panic end.
