(* ===== verification/Http1Decoder.v ===== *)
(** * Http1Decoder: reading a response as its bytes arrive

    [ResponseDecoder] of http-codec/src/lib.rs.  A method takes the decoder and answers it
    changed, with a value or an error: what a method changed before it failed stays changed.
    [read_chunked] is a loop over the states of the chunked coding; one turn is
    [chunk_turn], and a line of the trailers, on which the source has a loop of its own, is a
    turn.  Every turn but the last takes bytes from the buffer, so that a unit of fuel per
    byte and one more are enough; out of fuel it panics. *)

From Stdlib Require String.
From S2P Require Import Prelude Text Utf8 Bytes Http1.

Local Open Scope Z_scope.
Local Open Scope cruft_scope.

Inductive ChunkState := Size | Data (remaining : Z) | DataCrlf | Trailer.

Record ResponseDecoder := {
  buf : list Z; header_scan_start : Z; the_head : option ResponseHead; the_framing : BodyFraming;
  emitted : Z; chunks_seen : Z; chunk : ChunkState; complete : bool; closed : bool; trailers : header_list }.

Definition ResponseDecoder_new : ResponseDecoder :=
  {| buf := []; header_scan_start := 0; the_head := None; the_framing := Eof; emitted := 0; chunks_seen := 0;
     chunk := Size; complete := false; closed := false; trailers := [] |}.

Definition set_buf (b : list Z) (d : ResponseDecoder) : ResponseDecoder :=
  {| buf := b; header_scan_start := header_scan_start d; the_head := the_head d; the_framing := the_framing d;
     emitted := emitted d; chunks_seen := chunks_seen d; chunk := chunk d; complete := complete d; closed := closed d;
     trailers := trailers d |}.
Definition set_scan (s : Z) (d : ResponseDecoder) : ResponseDecoder :=
  {| buf := buf d; header_scan_start := s; the_head := the_head d; the_framing := the_framing d;
     emitted := emitted d; chunks_seen := chunks_seen d; chunk := chunk d; complete := complete d; closed := closed d;
     trailers := trailers d |}.
Definition set_head (h : ResponseHead) (f : BodyFraming) (d : ResponseDecoder) : ResponseDecoder :=
  {| buf := buf d; header_scan_start := header_scan_start d; the_head := Some h; the_framing := f;
     emitted := emitted d; chunks_seen := chunks_seen d; chunk := chunk d; complete := complete d; closed := closed d;
     trailers := trailers d |}.
Definition set_emitted (n : Z) (d : ResponseDecoder) : ResponseDecoder :=
  {| buf := buf d; header_scan_start := header_scan_start d; the_head := the_head d; the_framing := the_framing d;
     emitted := n; chunks_seen := chunks_seen d; chunk := chunk d; complete := complete d; closed := closed d;
     trailers := trailers d |}.
Definition set_chunk (seen : Z) (c : ChunkState) (d : ResponseDecoder) : ResponseDecoder :=
  {| buf := buf d; header_scan_start := header_scan_start d; the_head := the_head d; the_framing := the_framing d;
     emitted := emitted d; chunks_seen := seen; chunk := c; complete := complete d; closed := closed d;
     trailers := trailers d |}.
Definition set_complete (d : ResponseDecoder) : ResponseDecoder :=
  {| buf := buf d; header_scan_start := header_scan_start d; the_head := the_head d; the_framing := the_framing d;
     emitted := emitted d; chunks_seen := chunks_seen d; chunk := chunk d; complete := true; closed := closed d;
     trailers := trailers d |}.
Definition set_closed (d : ResponseDecoder) : ResponseDecoder :=
  {| buf := buf d; header_scan_start := header_scan_start d; the_head := the_head d; the_framing := the_framing d;
     emitted := emitted d; chunks_seen := chunks_seen d; chunk := chunk d; complete := complete d; closed := true;
     trailers := trailers d |}.
Definition set_trailers (t : header_list) (d : ResponseDecoder) : ResponseDecoder :=
  {| buf := buf d; header_scan_start := header_scan_start d; the_head := the_head d; the_framing := the_framing d;
     emitted := emitted d; chunks_seen := chunks_seen d; chunk := chunk d; complete := complete d; closed := closed d;
     trailers := t |}.

(** What a method answers: the decoder it leaves, and a value or an error. *)
Definition answered (A : Type) : Type := outcome (ResponseDecoder * result A CodecError).

Definition answered_bind {A B} (m : answered A) (k : ResponseDecoder → A → answered B) : answered B :=
  match m with
  | Ret (d, Ok a) => k d a
  | Ret (d, Err e) => Ret (d, Err e)
  | Panic => Panic
  end.

(** [e?] of an expression that leaves the decoder as it is. *)
Definition try {A} (d : ResponseDecoder) (r : fallible A CodecError) : answered A := x <-! r; Ret (d, x).

(** [self.buf.drain(..k)]: what it takes and the decoder it leaves. *)
Definition drain (k : Z) (d : ResponseDecoder) : outcome (list Z * ResponseDecoder) :=
  taken <-! slice (buf d) 0 k; rest <-! slice_from (buf d) k; Ret (taken, set_buf rest d).

Definition push (bytes : list Z) (d : ResponseDecoder) : ResponseDecoder := set_buf (buf d ++ bytes) d.

Definition close (d : ResponseDecoder) : ResponseDecoder :=
  let d := set_closed d in
  match the_head d, the_framing d, buf d with
  | Some _, Eof, [] => set_complete d
  | _, _, _ => d
  end.

Definition body_framing (h : ResponseHead) : result BodyFraming CodecError :=
  if (status h <? 200) || (status h =? 204) || (status h =? 304) then Ok Empty
  else framing <-? decode_framing (headers h); Ok (default Eof framing).

Definition no_body (f : BodyFraming) : bool :=
  match f with Empty => true | Length n => n =? 0 | _ => false end.

Definition is_empty (l : list Z) : bool := match l with [] => true | _ => false end.

Definition head `{Profile} (d : ResponseDecoder) : answered (option ResponseHead) :=
  match the_head d with
  | Some h => Ret (d, Ok (Some h))
  | None =>
      match find_header_end_from (buf d) (header_scan_start d) with
      | None =>
          answered_bind (try d (Ret (validate_header_buffer_len (saturating_sub64 (len (buf d)) 3)))) (λ d _,
          if closed d && negb (is_empty (buf d)) then Ret (d, Err Truncated)
          else Ret (set_scan (saturating_sub64 (len (buf d)) 3) d, Ok None))
      | Some stop =>
          section <-! head_bytes (buf d) stop;
          answered_bind (try d (parse_head_section section)) (λ d h,
          answered_bind (try d (Ret (body_framing h))) (λ d f,
          p <-! drain stop (set_head h f d);
          let d := p.2 in
          let d := if no_body f then set_complete d else d in
          Ret (d, Ok (Some h))))
      end
  end.

Definition framing `{Profile} (d : ResponseDecoder) : answered (option BodyFraming) :=
  answered_bind (head d) (λ d h, Ret (d, Ok (match h with None => None | Some _ => Some (the_framing d) end))).

Definition is_complete (d : ResponseDecoder) : bool := complete d.

(** One turn of the loop of [read_chunked], with the bytes read so far. *)
Definition chunk_turn `{Profile} (d : ResponseDecoder) (out : list Z) : answered (turn (list Z) (list Z)) :=
  match chunk d with
  | Size =>
      match find_window CRLF (buf d) with
      | None =>
          if closed d then Ret (d, Err (BadChunkEncoding "connection closed mid chunk-size")) else Ret (d, Ok (Answer out))
      | Some line_end =>
          line <-! slice (buf d) 0 (Z.of_nat line_end);
          answered_bind (try d (Ret (parse_chunk_size_line line))) (λ d size,
          k <-! add64 (Z.of_nat line_end) 2;
          p <-! drain k d;
          let d := p.2 in
          if size =? 0 then Ret (set_chunk (chunks_seen d) Trailer d, Ok (Next out))
          else if MAX_CHUNK_COUNT <=? chunks_seen d then Ret (d, Err (LimitExceeded "chunk count exceeds 100000"))
          else
            let d := set_chunk (chunks_seen d + 1) (chunk d) d in
            answered_bind (try d (Ret (checked_add_body_len (emitted d) size))) (λ d _,
            Ret (set_chunk (chunks_seen d) (Data size) d, Ok (Next out))))
      end
  | Data remaining =>
      if is_empty (buf d) then
        if closed d then Ret (d, Err (BadChunkEncoding "connection closed mid chunk")) else Ret (d, Ok (Answer out))
      else
        let take := Z.min remaining (len (buf d)) in
        answered_bind (try d (Ret (checked_add_body_len (emitted d) take))) (λ d _,
        p <-! drain take d;
        n <-! add64 (emitted p.2) take;
        let d := set_emitted n p.2 in
        Ret (set_chunk (chunks_seen d) (if take =? remaining then DataCrlf else Data (remaining - take)) d, Ok (Next (out ++ p.1))))
  | DataCrlf =>
      if len (buf d) <? 2 then Ret (d, Ok (Answer out))
      else
        w <-! slice (buf d) 0 2;
        if negb (bool_decide (w = CRLF)) then Ret (d, Err (BadChunkEncoding "missing chunk CRLF"))
        else p <-! drain 2 d; Ret (set_chunk (chunks_seen p.2) Size p.2, Ok (Next out))
  | Trailer =>
      match find_window CRLF (buf d) with
      | None => Ret (d, Ok (Answer out))
      | Some O => p <-! drain 2 d; Ret (set_complete p.2, Ok (Answer out))
      | Some rel =>
          k <-! add64 (Z.of_nat rel) 2;
          p <-! drain k d;
          line <-! slice p.1 0 (Z.of_nat rel);
          Ret (set_trailers (trailers p.2 ++ trailer_of line) p.2, Ok (Next out))
      end
  end.

Fixpoint read_chunked_loop `{Profile} (fuel : nat) (d : ResponseDecoder) (out : list Z) : answered (list Z) :=
  match fuel with
  | O => Panic
  | S fuel' =>
      answered_bind (chunk_turn d out) (λ d t,
      match t with Next out => read_chunked_loop fuel' d out | Answer out => Ret (d, Ok out) end)
  end.

Definition read_chunked `{Profile} (d : ResponseDecoder) : answered (list Z) := read_chunked_loop (S (length (buf d))) d [].

Definition read_body `{Profile} (d : ResponseDecoder) : answered (list Z) :=
  answered_bind (head d) (λ d h,
  match h with
  | None => Ret (d, Ok [])
  | Some _ =>
      if complete d then Ret (d, Ok [])
      else
        match the_framing d with
        | Empty => Ret (d, Ok [])
        | Length n =>
            answered_bind (try d (Ret (checked_body_len n))) (λ d _,
            want <-! sub64 n (emitted d);
            let take := Z.min want (len (buf d)) in
            p <-! drain take d;
            k <-! add64 (emitted p.2) take;
            let d := set_emitted k p.2 in
            if emitted d =? n then Ret (set_complete d, Ok p.1)
            else if closed d then Ret (d, Err ContentLengthMismatch)
            else Ret (d, Ok p.1))
        | Eof =>
            answered_bind (try d (Ret (checked_add_body_len (emitted d) (len (buf d))))) (λ d _,
            p <-! drain (len (buf d)) d;
            k <-! add64 (emitted p.2) (len p.1);
            let d := set_emitted k p.2 in
            Ret (if closed d then set_complete d else d, Ok p.1))
        | Chunked => read_chunked d
        end
  end).
