(* ===== verification/Http1Theory.v ===== *)
(** * Http1Theory: searching, parsing heads, and the limits

    What the functions of [Http1] answer, in either build profile: the windows they search
    for, and that none of them panics on bytes of which a machine can hold that many. *)

From Stdlib Require String.
From S2P Require Import Prelude Text Utf8 Bytes Http1.

Local Open Scope Z_scope.
Local Open Scope cruft_scope.

(** ** Searching for a window *)

Lemma starts_with_true w l : starts_with w l = true ↔ w `prefix_of` l.
Proof.
  unfold starts_with. rewrite bool_decide_eq_true. split.
  - intros <-. exists (drop (length w) l). by rewrite take_drop.
  - intros [k ->]. by rewrite take_app_length.
Qed.

Lemma window_app w l k : (length w ≤ length l)%nat → starts_with w (l ++ k) = starts_with w l.
Proof. intros Hl. unfold starts_with. by rewrite take_app_le. Qed.

Lemma find_window_eq w l :
  find_window w l = if starts_with w l then Some O else match l with [] => None | _ :: l' => S <$> find_window w l' end.
Proof. by destruct l. Qed.

Lemma find_window_self w k : find_window w (w ++ k) = Some O.
Proof. rewrite find_window_eq, (proj2 (starts_with_true _ _)) by by eexists. done. Qed.

Lemma find_window_Some w l n : find_window w l = Some n → ∃ k, l = take n l ++ w ++ k ∧ length (take n l) = n.
Proof.
  revert n. induction l as [|x l IH]; intros n; rewrite find_window_eq.
  - destruct (starts_with w []) eqn:Hs; [|done]. intros [= <-]. apply starts_with_true in Hs as [k Hk]. by exists k.
  - destruct (starts_with w (x :: l)) eqn:Hs.
    + intros [= <-]. apply starts_with_true in Hs as [k Hk]. exists k. by rewrite take_0.
    + destruct (find_window w l) as [m|]; [|done]. intros [= <-]. destruct (IH m eq_refl) as (k & E & Hm). exists k. cbn [take app length].
      by rewrite <-E, Hm.
Qed.

Lemma find_window_bound w l n : find_window w l = Some n → (n + length w ≤ length l)%nat.
Proof. intros (k & E & Hn)%find_window_Some. rewrite E, !length_app, Hn. lia. Qed.

Lemma find_window_app w l k n : find_window w l = Some n → find_window w (l ++ k) = Some n.
Proof.
  revert n. induction l as [|x l IH]; intros n E; pose proof (find_window_bound _ _ _ E) as Hb; rewrite find_window_eq in E |- *.
  - rewrite window_app by lia. by destruct (starts_with w []).
  - rewrite window_app by lia. destruct (starts_with w (x :: l)); [done|]. cbn [app].
    destruct (find_window w l) as [m|]; [|done]. by rewrite (IH m eq_refl).
Qed.

Lemma find_window_app_l w p l : (∀ q x r, p = q ++ x :: r → starts_with w (x :: r ++ l) = false) →
  find_window w (p ++ l) = (λ n, (length p + n)%nat) <$> find_window w l.
Proof.
  induction p as [|x p IH]; intros Hp; cbn [app length]; [by destruct (find_window w l)|].
  rewrite find_window_eq, (Hp [] x p) by done. rewrite IH by (intros q y r ->; apply (Hp (x :: q) y r); done). by destruct (find_window w l).
Qed.

(** A window in a list that has none up to [n] begins at [n] or after. *)
Lemma find_window_after w l k n : find_window w l = None → find_window w (l ++ k) = Some n → (length l < n + length w)%nat.
Proof.
  revert n. induction l as [|x l IH]; intros n E; rewrite find_window_eq in E.
  - destruct w as [|c w]; [done|]. intros _. cbn. lia.
  - destruct (starts_with w (x :: l)) eqn:Hs; [done|]. cbn [app]. rewrite find_window_eq.
    destruct (starts_with w (x :: l ++ k)) eqn:Hs2.
    + intros [= <-]. destruct (decide (length w ≤ length (x :: l))%nat) as [Hl|Hl]; [|lia].
      change (x :: l ++ k) with ((x :: l) ++ k) in Hs2. rewrite window_app in Hs2 by done. congruence.
    + destruct (find_window w (l ++ k)) as [m|]; [|done]. intros [= <-]. destruct (find_window w l); [done|].
      specialize (IH m eq_refl eq_refl). cbn [length]. lia.
Qed.

Lemma find_window_drop w l n : find_window w l = None → find_window w (drop n l) = None.
Proof.
  revert n. induction l as [|x l IH]; intros [|n] E; try done. cbn [drop]. apply IH. rewrite find_window_eq in E.
  destruct (starts_with w (x :: l)); [done|]. by destruct (find_window w l).
Qed.

Lemma find_window_step w l n m : find_window w l = Some m → (n ≤ m)%nat → find_window w (drop n l) = Some (m - n)%nat.
Proof.
  revert n m. induction l as [|x l IH]; intros [|n] m E Hn; try (by rewrite drop_0, Nat.sub_0_r).
  - rewrite find_window_eq in E. destruct (starts_with w []); [|done]. injection E as <-. lia.
  - rewrite find_window_eq in E. destruct (starts_with w (x :: l)); [injection E as <-; lia|].
    destruct (find_window w l) as [k|]; [|done]. injection E as <-. cbn [drop]. rewrite (IH n k) by (done || lia). done.
Qed.

(** Searching from [n], where the first [n + length w - 1] elements hold no window. *)
Lemma find_window_from w l n : w ≠ [] →
  (∀ m, find_window w l = Some m → (n ≤ m)%nat) → (λ m, (n + m)%nat) <$> find_window w (drop n l) = find_window w l.
Proof.
  intros Hw Hn. destruct (find_window w l) as [m|] eqn:E.
  - rewrite (find_window_step w l n m E) by auto. cbn. f_equal. specialize (Hn m eq_refl). lia.
  - by rewrite find_window_drop.
Qed.

(** ** Numbers *)

Lemma hex_digit_bound a v : hex_digit a = Some v → 0 ≤ v < 16.
Proof.
  unfold hex_digit. destruct (code_in a 48 57) eqn:E1; [apply code_in_true in E1; intros [= <-]; lia|].
  destruct (code_in a 65 70) eqn:E2; [apply code_in_true in E2; intros [= <-]; lia|].
  destruct (code_in a 97 102) eqn:E3; [apply code_in_true in E3; intros [= <-]; lia|done].
Qed.

Lemma parse_hex_digits_bound s : ∀ acc n, 0 ≤ acc ≤ u64_max → parse_hex_digits acc s = Some n → 0 ≤ n ≤ u64_max.
Proof.
  induction s as [|a s IH]; intros acc n Ha; cbn [parse_hex_digits]; [by intros [= <-]|].
  destruct (hex_digit a) as [v|] eqn:Ev; [|done]. apply hex_digit_bound in Ev. destruct (Z.leb_spec (acc * 16 + v) u64_max); [|done]. apply IH. lia.
Qed.

Lemma parse_chunk_size_bound line n : parse_chunk_size_line line = Ok n → 0 ≤ n ≤ u64_max.
Proof.
  unfold parse_chunk_size_line. destruct (string_from_utf8 line); [|done]. destruct (_ || _); [done|].
  destruct (parse_hex_digits 0 _) as [m|] eqn:Em; [|done]. intros [= <-]. eapply parse_hex_digits_bound, Em. unfold u64_max. lia.
Qed.

Lemma checked_add_Ok a b n : checked_add_body_len a b = Ok n → n = a + b ∧ a + b ≤ MAX_DECODED_BODY_BYTES.
Proof.
  unfold checked_add_body_len, checked_add64. destruct (a + b <=? u64_max); [|done]. unfold checked_body_len. destruct (Z.ltb_spec MAX_DECODED_BODY_BYTES (a + b)); [done|].
  by intros [= <-].
Qed.

Lemma parse_digits_nonneg max s : ∀ acc n, 0 ≤ acc → parse_digits max acc s = Some n → 0 ≤ n.
Proof.
  induction s as [|a s IH]; intros acc n Ha; cbn [parse_digits]; [by intros [= <-]|].
  destruct (digit_val a) as [v|] eqn:Ev; [|done]. apply digit_val_bound in Ev. destruct (_ <=? _)%Z; [|done]. apply IH. lia.
Qed.

Lemma parse_uint_nonneg max s n : parse_uint max s = Some n → 0 ≤ n.
Proof.
  unfold parse_uint. destruct s as [|a [|b s]]; [done| |]; destruct (bool_decide _); try done; by apply parse_digits_nonneg.
Qed.

(** What a framing is decoded from. *)
Lemma decode_framing_Length hs n : decode_framing hs = Ok (Some (Length n)) →
  transfer_encoding hs = Ok None ∧ content_length hs = Ok (Some n) ∧ 0 ≤ n ≤ MAX_DECODED_BODY_BYTES.
Proof.
  unfold decode_framing. destruct (transfer_encoding hs) as [te|] eqn:Et; [|done]. cbn [result_bind].
  destruct (content_length hs) as [cl|] eqn:Ec; [|done]. cbn [result_bind]. destruct te as [tokens|], cl as [m|]; [done| | |done].
  - destruct (negb _); [done|]. by destruct (existsb _ _).
  - unfold checked_body_len. destruct (Z.ltb_spec MAX_DECODED_BODY_BYTES m); [done|]. cbn [result_bind]. intros [= <-]. split_and!; [done|done| |done].
    unfold content_length in Ec. apply result_bind_Ok in Ec as (seen & _ & Ec). destruct seen as [s|]; [|done].
    destruct (parse_uint u64_max s) as [k|] eqn:Ek; [|done]. injection Ec as <-. by eapply parse_uint_nonneg.
Qed.

(** ** Heads *)

Section heads.
Context `{Profile}.

Lemma split_start_line_eq section : len section ≤ u64_max →
  split_start_line section =
    Ret (match find_window CRLF section with Some n => (take n section, drop (n + 2) section) | None => (section, []) end).
Proof.
  intros Hl. unfold split_start_line. destruct (find_window CRLF section) as [n|] eqn:En; [|done]. apply find_window_bound in En. cbn [length CRLF] in En.
  unfold len in Hl. rewrite slice_ok by (unfold len; lia). cbn [outcome_bind]. rewrite add64_exact by lia. cbn [outcome_bind].
  rewrite slice_from_ok by (unfold len; lia). cbn [outcome_bind]. by rewrite Z.sub_0_r, drop_0, Nat2Z.id, (Z2Nat.inj_add _ 2), Nat2Z.id by lia.
Qed.

Lemma parse_head_section_total section : len section ≤ u64_max → ∃ r, parse_head_section section = Ret r.
Proof.
  intros Hl. unfold parse_head_section. destruct (validate_header_section section) as [[]|]; [|by eexists]. cbn [fallible_bind].
  rewrite split_start_line_eq by done. cbn [outcome_bind]. destruct (string_from_utf8 _) as [l|]; [|by eexists].
  destruct (splitn 3 " " l) as [|v [|c parts]]; [by eexists..|]. destruct (validate_http_version v); [|by eexists]. cbn [fallible_bind].
  destruct (parse_uint u16_max c); [|by eexists]. destruct (parse_headers _); by eexists.
Qed.

Lemma parse_head_section_long section : MAX_HEADER_SECTION_BYTES < len section → parse_head_section section = Ret (Err section_limit).
Proof. intros Hl. unfold parse_head_section, validate_header_section. by rewrite (proj2 (Z.ltb_lt _ _)). Qed.

Lemma head_bytes_eq bytes n : (n ≤ length bytes)%nat → len bytes ≤ u64_max - 4 → head_bytes bytes (Z.of_nat n + 4) = Ret (take n bytes).
Proof.
  intros Hn Hl. unfold head_bytes, sub64, len in *. rewrite (proj2 (Z.ltb_ge _ _)) by lia. rewrite andb_false_r. cbn [outcome_bind].
  replace (Z.of_nat n + 4 - 4) with (Z.of_nat n) by lia. rewrite wrap64_id by (unfold is_u64; lia). rewrite slice_ok by (unfold len; lia).
  by rewrite Z.sub_0_r, drop_0, Nat2Z.id.
Qed.
End heads.

Lemma find_header_end_eq bytes start : 0 ≤ start →
  (∀ m, find_window [13; 10; 13; 10] bytes = Some m → start ≤ Z.of_nat m) →
  find_header_end_from bytes start = (λ m, Z.of_nat m + 4) <$> find_window [13; 10; 13; 10] bytes.
Proof.
  intros H0 Hs. unfold find_header_end_from. destruct (Z.ltb_spec (len bytes) 4) as [Hl|Hl].
  { destruct (find_window _ bytes) as [m|] eqn:Em; [|done]. apply find_window_bound in Em. unfold len in Hl. cbn in Em. lia. }
  unfold saturating_sub64. rewrite Z.max_l by lia. set (st := Z.min start (len bytes - 4)).
  rewrite <-(find_window_from _ bytes (Z.to_nat st)) by (try done; intros m Em; pose proof (Hs m Em); lia).
  destruct (find_window _ (drop _ _)) as [i|]; [|done]. cbn. f_equal. lia.
Qed.
