(* ===== verification/Http1Stream.v ===== *)
(** * Http1Stream: a response read in pieces is the response read at once

    [decode_stream] is a client of [ResponseDecoder]: it pushes each piece and reads the
    body, then closes the connection and reads what is left.  The turns of the chunked
    coding are restated without machine arithmetic ([turn_of]); a turn on a longer buffer
    does what it does on a shorter one, or takes more of the same chunk. *)

From Stdlib Require String.
From S2P Require Import Prelude Text Utf8 Bytes Http1 Http1Decoder Http1Theory.

Local Open Scope Z_scope.
Local Open Scope cruft_scope.

(** ** Clients *)

Section client.
Context `{Profile}.

Definition feed (piece : list Z) (d : ResponseDecoder) : answered (list Z) := read_body (push piece d).

Fixpoint feeds (pieces : list (list Z)) (d : ResponseDecoder) : answered (list Z) :=
    match pieces with
    | [] => Ret (d, Ok [])
    | p :: ps => answered_bind (feed p d) (λ d o, answered_bind (feeds ps d) (λ d o', Ret (d, Ok (o ++ o'))))
    end.

Definition decode_stream (pieces : list (list Z)) : answered (list Z) :=
    answered_bind (feeds pieces ResponseDecoder_new) (λ d o,
    answered_bind (read_body (close d)) (λ d o', Ret (d, Ok (o ++ o')))).
End client.

(** What can be seen of an answer: the decoder, but for the place its search for the end of
    the header section goes on from, and the value; or the error. *)
Definition outcome_of {A} (r : answered A) : option (result (ResponseDecoder * A) CodecError) :=
  match r with
  | Ret (d, Ok a) => Some (Ok (set_scan 0 d, a))
  | Ret (_, Err e) => Some (Err e)
  | Panic => None
  end.

(** ** The invariant of a decoder *)

Definition header_end : list Z := [13; 10; 13; 10].

Definition chunk_ok (sofar : Z) (c : ChunkState) : Prop :=
  match c with Data r => 0 < r ∧ sofar + r ≤ MAX_DECODED_BODY_BYTES | _ => True end.

Record decoder_ok (d : ResponseDecoder) : Prop := {
  ok_scan : the_head d = None → 0 ≤ header_scan_start d ∧
    ∀ k m, find_window header_end (buf d ++ k) = Some m → header_scan_start d ≤ Z.of_nat m;
  ok_fresh : the_head d = None → complete d = false ∧ emitted d = 0 ∧ chunk d = Size;
  ok_emitted : 0 ≤ emitted d ≤ MAX_DECODED_BODY_BYTES;
  ok_length : ∀ n, the_framing d = Length n → emitted d ≤ n;
  ok_chunk : chunk_ok (emitted d) (chunk d);
  ok_size : the_framing d ≠ Chunked → chunk d = Size }.

(** A buffer holds at most [isize::MAX] bytes. *)
Definition isize_max : Z := 9223372036854775807.

Definition fits (d : ResponseDecoder) : Prop := len (buf d) ≤ isize_max.

Lemma new_ok : decoder_ok ResponseDecoder_new.
Proof. split; cbn; [intros _; split; lia|done|unfold MAX_DECODED_BODY_BYTES; lia|done..]. Qed.

Lemma push_ok b d : decoder_ok d → decoder_ok (push b d).
Proof.
  intros [H1 H2 H3 H4 H5 H6]. split; [|done..]. intros Hh. destruct (H1 Hh) as [H0 Hs]. split; [done|]. intros k m. cbn [push set_buf buf].
  rewrite <-app_assoc. apply Hs.
Qed.

(** ** A turn, without machine arithmetic *)

Definition turn_of (d : ResponseDecoder) (out : list Z) : ResponseDecoder * result (turn (list Z) (list Z)) CodecError :=
  match chunk d with
  | Size =>
      match find_window CRLF (buf d) with
      | None => if closed d then (d, Err (BadChunkEncoding "connection closed mid chunk-size")) else (d, Ok (Answer out))
      | Some n =>
          match parse_chunk_size_line (take n (buf d)) with
          | Err e => (d, Err e)
          | Ok size =>
              let d := set_buf (drop (n + 2) (buf d)) d in
              if size =? 0 then (set_chunk (chunks_seen d) Trailer d, Ok (Next out))
              else if MAX_CHUNK_COUNT <=? chunks_seen d then (d, Err (LimitExceeded "chunk count exceeds 100000"))
              else
                match checked_add_body_len (emitted d) size with
                | Err e => (set_chunk (chunks_seen d + 1) Size d, Err e)
                | Ok _ => (set_chunk (chunks_seen d + 1) (Data size) d, Ok (Next out))
                end
          end
      end
  | Data r =>
      if is_empty (buf d) then
        if closed d then (d, Err (BadChunkEncoding "connection closed mid chunk")) else (d, Ok (Answer out))
      else
        let t := Z.min r (len (buf d)) in
        (set_chunk (chunks_seen d) (if t =? r then DataCrlf else Data (r - t))
           (set_emitted (emitted d + t) (set_buf (drop (Z.to_nat t) (buf d)) d)),
         Ok (Next (out ++ take (Z.to_nat t) (buf d))))
  | DataCrlf =>
      if len (buf d) <? 2 then (d, Ok (Answer out))
      else if negb (starts_with CRLF (buf d)) then (d, Err (BadChunkEncoding "missing chunk CRLF"))
      else (set_chunk (chunks_seen d) Size (set_buf (drop 2 (buf d)) d), Ok (Next out))
  | Trailer =>
      match find_window CRLF (buf d) with
      | None => (d, Ok (Answer out))
      | Some O => (set_complete (set_buf (drop 2 (buf d)) d), Ok (Answer out))
      | Some rel =>
          (set_trailers (trailers d ++ trailer_of (take rel (buf d))) (set_buf (drop (rel + 2) (buf d)) d), Ok (Next out))
      end
  end.

Lemma drain_ok k d : 0 ≤ k ≤ len (buf d) → drain k d = Ret (take (Z.to_nat k) (buf d), set_buf (drop (Z.to_nat k) (buf d)) d).
Proof.
  intros Hk. unfold drain. rewrite slice_ok by lia. cbn [outcome_bind]. rewrite slice_from_ok by lia. cbn [outcome_bind]. by rewrite Z.sub_0_r, drop_0.
Qed.

Lemma drain_nat n d : (n ≤ length (buf d))%nat → drain (Z.of_nat n) d = Ret (take n (buf d), set_buf (drop n (buf d)) d).
Proof. intros Hn. rewrite drain_ok by (unfold len; lia). by rewrite Nat2Z.id. Qed.

Lemma add64_nat `{Profile} (d : ResponseDecoder) n m : fits d → (n + m ≤ length (buf d))%nat → add64 (Z.of_nat n) (Z.of_nat m) = Ret (Z.of_nat (n + m)).
Proof. unfold fits, isize_max, len. intros Hf Hn. rewrite add64_exact by (unfold u64_max; lia). f_equal. lia. Qed.

Lemma slice_nat (l : list Z) n : (n ≤ length l)%nat → slice l 0 (Z.of_nat n) = Ret (take n l).
Proof. intros Hn. rewrite slice_ok by (unfold len; lia). by rewrite Z.sub_0_r, drop_0, Nat2Z.id. Qed.

Lemma checked_add_small a b : 0 ≤ a → 0 ≤ b → a + b ≤ MAX_DECODED_BODY_BYTES → checked_add_body_len a b = Ok (a + b).
Proof.
  intros Ha Hb Hm. unfold checked_add_body_len, checked_add64, checked_body_len, MAX_DECODED_BODY_BYTES, u64_max in *.
  rewrite (proj2 (Z.leb_le _ _)) by lia. cbn [result_bind]. by rewrite (proj2 (Z.ltb_ge _ _)) by lia.
Qed.

Lemma chunk_turn_spec `{Profile} d out : decoder_ok d → fits d → chunk_turn d out = Ret (turn_of d out).
Proof.
  intros [_ _ He _ Hc _] Hf. unfold chunk_turn, turn_of. destruct (chunk d) as [|r| |] eqn:Ec; cbn [chunk_ok] in Hc.
  - destruct (find_window CRLF (buf d)) as [n|] eqn:En; [|by destruct (closed d)]. pose proof (find_window_bound _ _ _ En) as Hb. cbn [length CRLF] in Hb.
    rewrite slice_nat by lia. cbn [outcome_bind]. destruct (parse_chunk_size_line _) as [size|e]; [|done]. cbn [try outcome_bind answered_bind].
    change 2 with (Z.of_nat 2). rewrite (add64_nat d) by (done || lia). cbn [outcome_bind]. rewrite drain_nat by lia. cbn [outcome_bind snd].
    change (chunks_seen (set_buf _ d)) with (chunks_seen d). destruct (size =? 0); [done|]. destruct (MAX_CHUNK_COUNT <=? chunks_seen d); [done|]. cbn.
    rewrite Ec. by destruct (checked_add_body_len (emitted d) size).
  - destruct (is_empty (buf d)) eqn:Eb; [by destruct (closed d)|]. set (t := Z.min r (len (buf d))).
    assert (0 ≤ t ≤ len (buf d) ∧ emitted d + t ≤ MAX_DECODED_BODY_BYTES) as [Ht Hm] by (pose proof (len_nonneg (buf d)); lia).
    rewrite checked_add_small by lia. cbn [try outcome_bind answered_bind]. rewrite drain_ok by done. cbn [outcome_bind snd fst].
    change (emitted (set_buf _ d)) with (emitted d). rewrite add64_exact by (unfold MAX_DECODED_BODY_BYTES, u64_max in *; lia). done.
  - destruct (Z.ltb_spec (len (buf d)) 2) as [|Hl]; [done|]. change 2 with (Z.of_nat 2). rewrite slice_nat by (unfold len in Hl; lia). cbn [outcome_bind].
    unfold starts_with. change (length CRLF) with 2%nat. destruct (negb _); [done|]. rewrite drain_nat by (unfold len in Hl; lia). done.
  - destruct (find_window CRLF (buf d)) as [[|n]|] eqn:En; [| |done]; pose proof (find_window_bound _ _ _ En) as Hb; cbn [length CRLF] in Hb.
    + change 2 with (Z.of_nat 2). rewrite drain_nat by lia. done.
    + change 2 with (Z.of_nat 2). rewrite (add64_nat d) by (done || lia). cbn [outcome_bind]. rewrite drain_nat by lia. cbn [outcome_bind snd fst].
      rewrite slice_nat by (rewrite length_take; lia). cbn [outcome_bind]. by rewrite take_take, Nat.min_l by lia.
Qed.

(** Everything a turn leaves alone. *)
Definition same_reply (d d' : ResponseDecoder) : Prop :=
  the_head d' = the_head d ∧ the_framing d' = the_framing d ∧ closed d' = closed d.

Definition turned (d d' : ResponseDecoder) (r : turn (list Z) (list Z)) : Prop :=
  decoder_ok d' ∧ same_reply d d' ∧ (length (buf d') ≤ length (buf d))%nat ∧
  match r with Next _ => complete d' = complete d ∧ (length (buf d') < length (buf d))%nat | Answer _ => True end.

Lemma turned_same d out : decoder_ok d → turned d d (Answer out).
Proof. intros Hd. by split_and!. Qed.

Lemma turned_next d d' r : decoder_ok d → is_Some (the_head d) → the_framing d = Chunked → same_reply d d' →
  0 ≤ emitted d' ≤ MAX_DECODED_BODY_BYTES → chunk_ok (emitted d') (chunk d') → (length (buf d') < length (buf d))%nat →
  match r with Next _ => complete d' = complete d | Answer _ => True end → turned d d' r.
Proof.
  intros [Hs Hfr He Hl Hc Hz] [h Hh] Hn (E1 & E2 & E3) He' Hc' Hb Hr. split_and!; [|done|lia|by destruct r].
  split; [congruence|congruence|done|intros n; congruence|done|congruence].
Qed.

Lemma drop_shorter (l : list Z) n : (0 < n)%nat → (0 < length l)%nat → (length (drop n l) < length l)%nat.
Proof. intros Hn Hl. rewrite length_drop. lia. Qed.

Lemma turn_keeps d out d' r : decoder_ok d → is_Some (the_head d) → the_framing d = Chunked → turn_of d out = (d', Ok r) → turned d d' r.
Proof.
  intros Hd Hh Hn. pose proof (ok_emitted d Hd) as He. pose proof (ok_chunk d Hd) as Hc.
  unfold turn_of. destruct (chunk d) as [|r0| |] eqn:Ec; cbn [chunk_ok] in Hc.
  - destruct (find_window CRLF (buf d)) as [n|] eqn:En; [|destruct (closed d); [done|]; intros [= <- <-]; by apply turned_same].
    pose proof (find_window_bound _ _ _ En) as Hb. cbn [length CRLF] in Hb. destruct (parse_chunk_size_line _) as [size|e] eqn:Ep; [|done]. apply parse_chunk_size_bound in Ep.
    change (chunks_seen (set_buf _ d)) with (chunks_seen d). change (emitted (set_buf _ d)) with (emitted d).
    destruct (Z.eqb_spec size 0); [|destruct (_ <=? _); [done|]; destruct (checked_add_body_len _ _) as [k|] eqn:Ek; [apply checked_add_Ok in Ek as [-> Hk]|done]].
    all: intros [= <- <-]; apply turned_next; try done; first [apply drop_shorter; lia|cbn; lia].
  - destruct (is_empty (buf d)) eqn:Eb; [destruct (closed d); [done|]; intros [= <- <-]; by apply turned_same|]. set (t := Z.min r0 (len (buf d))).
    assert (0 < len (buf d)) as Hp by (destruct (buf d) as [|x l]; [done|]; rewrite len_cons; pose proof (len_nonneg l); lia).
    intros [= <- <-]. apply turned_next; try done; [cbn; lia|cbn; destruct (Z.eqb_spec t r0); cbn; lia|apply drop_shorter; unfold len in *; lia].
  - destruct (Z.ltb_spec (len (buf d)) 2) as [|Hl2]; [intros [= <- <-]; by apply turned_same|]. destruct (negb _); [done|].
    intros [= <- <-]. apply turned_next; try done. apply drop_shorter; unfold len in *; lia.
  - destruct (find_window CRLF (buf d)) as [[|n]|] eqn:En; [| |intros [= <- <-]; by apply turned_same].
    all: pose proof (find_window_bound _ _ _ En) as Hb; cbn [length CRLF] in Hb; intros [= <- <-].
    all: apply turned_next; try done; first [apply drop_shorter; lia|cbn; by rewrite Ec].
Qed.

(** ** The loop *)

(** A decoder in the middle of a body in chunks. *)
Record reading (d : ResponseDecoder) : Prop := {
  rd_ok : decoder_ok d;
  rd_head : is_Some (the_head d);
  rd_framing : the_framing d = Chunked;
  rd_going : complete d = false;
  rd_fits : fits d }.

Lemma reading_next d out d' o : reading d → turn_of d out = (d', Ok (Next o)) → reading d' ∧ (length (buf d') < length (buf d))%nat.
Proof.
  intros [Hd Hh Hn Hg Hf] E. destruct (turn_keeps d out d' (Next o) Hd Hh Hn E) as (Hd' & (E1 & E2 & E3) & _ & E4 & Hl). split; [|done].
  split; [done|by rewrite E1|by rewrite E2|congruence|]. unfold fits, len in *. lia.
Qed.

Section run.
Context `{Profile}.

Lemma loop_fuel f g d out : reading d → (length (buf d) < f)%nat → (length (buf d) < g)%nat → read_chunked_loop f d out = read_chunked_loop g d out.
Proof.
  revert g d out. induction f as [|f IH]; intros [|g] d out Hr Hf Hg; [lia..|]. cbn [read_chunked_loop].
  rewrite chunk_turn_spec by apply Hr. destruct (turn_of d out) as [d' [[o|o]|e]] eqn:E; [|done..]. cbn [answered_bind].
  destruct (reading_next d out d' o Hr E) as [Hr' Hl]. apply IH; [done|lia|lia].
Qed.

Definition run (d : ResponseDecoder) (out : list Z) : answered (list Z) := read_chunked_loop (S (length (buf d))) d out.

Lemma run_unfold d out : reading d →
  run d out = match turn_of d out with
              | (d', Ok (Next o)) => run d' o
              | (d', Ok (Answer o)) => Ret (d', Ok o)
              | (d', Err e) => Ret (d', Err e)
              end.
Proof.
  intros Hr. unfold run at 1. cbn [read_chunked_loop]. rewrite chunk_turn_spec by apply Hr.
  destruct (turn_of d out) as [d' [[o|o]|e]] eqn:E; [|done..]. cbn [answered_bind]. destruct (reading_next d out d' o Hr E) as [Hr' Hl].
  apply loop_fuel; [done|lia|lia].
Qed.

  (** Induction along the turns of a run. *)
Lemma run_ind (P : ResponseDecoder → list Z → Prop) :
  (∀ d out, reading d → (∀ d' o, turn_of d out = (d', Ok (Next o)) → reading d' ∧ P d' o) → P d out) → ∀ d out, reading d → P d out.
Proof.
  intros HP d. remember (length (buf d)) as n eqn:En. revert d En. induction n as [n IH] using lt_wf_ind; intros d En out Hr. apply HP; [done|].
  intros d' o E. destruct (reading_next d out d' o Hr E) as [Hr' Hl]. split; [done|]. by apply (IH (length (buf d'))); [lia| |].
Qed.
End run.

(** ** A turn on a longer buffer *)

Lemma push_buf b d : buf (push b d) = buf d ++ b.
Proof. done. Qed.

Lemma push_reading b d : reading d → fits (push b d) → reading (push b d).
Proof. intros [H1 H2 H3 H4 H5] Hf. split; [by apply push_ok|done..]. Qed.

Definition turn_on (d : ResponseDecoder) (b : list Z) (out : list Z) (x : ResponseDecoder * result (turn (list Z) (list Z)) CodecError) : Prop :=
  match x with
  | (_, Err e) => ∃ d', turn_of (push b d) out = (d', Err e)
  | (d', Ok (Next o)) =>
      turn_of (push b d) out = (push b d', Ok (Next o)) ∨
      turn_of d' o = (d', Ok (Answer o)) ∧ turn_of (push b d) out = turn_of (push b d') o
  | (d', Ok (Answer o)) => o = out ∧ d' = d ∨ complete d' = true ∧ turn_of (push b d) out = (push b d', Ok (Answer o))
  end.

Lemma is_empty_app (l k : list Z) : is_empty l = false → is_empty (l ++ k) = false.
Proof. by destruct l. Qed.

Lemma data_turn_on d b out r : reading d → closed d = false → chunk d = Data r → turn_on d b out (turn_of d out).
Proof.
  intros [Hd _ _ _ _] Hop Ec. pose proof (ok_chunk d Hd) as Hc. rewrite Ec in Hc. cbn [chunk_ok] in Hc. unfold turn_on, turn_of at 1. rewrite Ec, Hop.
  destruct (is_empty (buf d)) eqn:Eb; [by left|]. set (t := Z.min r (len (buf d))).
  assert (0 < len (buf d)) as Hp by (destruct (buf d) as [|x l]; [done|]; rewrite len_cons; pose proof (len_nonneg l); lia).
  destruct (decide (r ≤ len (buf d) ∨ b = [])) as [Hle|Hgt].
  - left. unfold turn_of. change (chunk (push b d)) with (chunk d). rewrite Ec, push_buf, is_empty_app by done. rewrite len_app.
    assert (Z.min r (len (buf d) + len b) = t) as -> by (destruct Hle as [|Hb]; [|rewrite Hb in *]; pose proof (len_nonneg b); unfold t, len in *; cbn in *; lia).
    change (emitted (push b d)) with (emitted d). change (chunks_seen (push b d)) with (chunks_seen d).
    rewrite take_app_le, drop_app_le by (unfold t, len in *; lia). done.
  - apply Decidable.not_or in Hgt as [Hgt Hb]. right. assert (t = len (buf d)) as -> by (unfold t; lia).
    rewrite (proj2 (Z.eqb_neq _ _)) by lia. replace (Z.to_nat (len (buf d))) with (length (buf d)) by (unfold len; lia). rewrite drop_all, firstn_all. split.
    + unfold turn_of. cbn. by rewrite Hop.
    + unfold turn_of. change (chunk (push b d)) with (chunk d). rewrite Ec, push_buf, is_empty_app by done. cbn [chunk set_chunk push set_buf set_emitted buf app].
      destruct (is_empty b) eqn:Eb2; [by destruct b|]. rewrite len_app. change (emitted (set_buf _ d)) with (emitted d). cbn [chunks_seen set_buf emitted set_emitted set_chunk push].
      set (u := Z.min (r - len (buf d)) (len b)). assert (0 ≤ u) as Hu by (unfold u; pose proof (len_nonneg b); lia).
      assert (Z.min r (len (buf d) + len b) = len (buf d) + u) as -> by (unfold u; lia).
      replace (Z.to_nat (len (buf d) + u)) with (length (buf d) + Z.to_nat u)%nat by (unfold len; lia).
      rewrite drop_app_add, take_app_add, Z.add_assoc, app_assoc. replace (len (buf d) + u =? r) with (u =? r - len (buf d)) by (destruct (Z.eqb_spec u (r - len (buf d))), (Z.eqb_spec (len (buf d) + u) r); lia || done).
      by replace (r - (len (buf d) + u)) with (r - len (buf d) - u) by lia.
Qed.

Lemma set_buf_app n (l b : list Z) d : (n ≤ length l)%nat → set_buf (drop n (l ++ b)) (push b d) = push b (set_buf (drop n l) d).
Proof. intros Hn. rewrite drop_app_le by done. done. Qed.

Lemma turn_of_on d b out : reading d → closed d = false → turn_on d b out (turn_of d out).
Proof.
  intros Hr Hop. pose proof Hr as [Hd _ _ _ _]. destruct (chunk d) as [|r| |] eqn:Ec; [|by eapply data_turn_on| |].
  - unfold turn_on, turn_of at 1. rewrite Ec, Hop. destruct (find_window CRLF (buf d)) as [n|] eqn:En; [|by left].
    pose proof (find_window_bound _ _ _ En) as Hb. cbn [length CRLF] in Hb. unfold turn_of. change (chunk (push b d)) with (chunk d).
    rewrite Ec, push_buf, (find_window_app _ _ b _ En), take_app_le, set_buf_app by lia. destruct (parse_chunk_size_line _) as [size|e]; [|by eexists].
    change (chunks_seen (push b (set_buf ?l d))) with (chunks_seen d). change (emitted (push b (set_buf ?l d))) with (emitted d).
    change (chunks_seen (set_buf ?l d)) with (chunks_seen d). change (emitted (set_buf ?l d)) with (emitted d).
    destruct (size =? 0); [by left|]. destruct (_ <=? _); [by eexists|]. destruct (checked_add_body_len _ _); [by left|by eexists].
  - unfold turn_on, turn_of at 1. rewrite Ec. destruct (Z.ltb_spec (len (buf d)) 2) as [|Hl]; [by left|]. unfold turn_of. change (chunk (push b d)) with (chunk d).
    rewrite Ec, push_buf, (proj2 (Z.ltb_ge _ _)) by (rewrite len_app; pose proof (len_nonneg b); lia).
    rewrite window_app, set_buf_app by (unfold len in Hl; cbn; lia). destruct (negb _); [by eexists|by left].
  - unfold turn_on, turn_of at 1. rewrite Ec. destruct (find_window CRLF (buf d)) as [[|n]|] eqn:En; [| |by left].
    all: pose proof (find_window_bound _ _ _ En) as Hb; cbn [length CRLF] in Hb; unfold turn_of; change (chunk (push b d)) with (chunk d).
    all: rewrite Ec, push_buf, (find_window_app _ _ b _ En), ?take_app_le, set_buf_app by lia; first [by left|by right].
Qed.

(** What [read_body] does with a decoder that goes on with bytes [out] in hand. *)
Definition resume `{Profile} (d : ResponseDecoder) (out : list Z) : answered (list Z) :=
  if complete d then Ret (d, Ok out) else run d out.

Lemma run_split `{Profile} b d out : reading d → closed d = false → fits (push b d) →
  outcome_of (run (push b d) out) = outcome_of (answered_bind (run d out) (λ d1 o1, resume (push b d1) o1)).
Proof.
  intros Hr. revert d out Hr. refine (run_ind _ _). intros d out Hr IH Hop Hf. pose proof (push_reading b d Hr Hf) as Hp.
  pose proof (turn_of_on d b out Hr Hop) as Ht. rewrite (run_unfold d) by done. rewrite (run_unfold (push b d)) by done.
  destruct (turn_of d out) as [d' [[o|o]|e]] eqn:E; cbn [turn_on] in Ht.
  - destruct (IH d' o eq_refl) as [Hr' IH']. destruct (reading_next d out d' o Hr E) as [_ Hl].
    pose proof Hr as [Hd Hh Hn _ _]. destruct (turn_keeps d out d' _ Hd Hh Hn E) as (_ & (_ & _ & E3) & _).
    assert (fits (push b d')) as Hf' by (unfold fits in *; rewrite !push_buf, !len_app in *; unfold len in *; lia).
    destruct Ht as [->|[Ea ->]]; [by apply IH'; [congruence|]|]. rewrite (run_unfold d'), Ea by done. cbn [answered_bind]. unfold resume.
    replace (complete (push b d')) with false by (symmetry; exact (rd_going _ Hr')). rewrite (run_unfold (push b d')) by (by apply push_reading). done.
  - cbn [answered_bind]. unfold resume. destruct Ht as [[-> ->]|[Hc ->]].
    + replace (complete (push b d)) with false by (symmetry; exact (rd_going _ Hr)). by rewrite (run_unfold (push b d)).
    + by replace (complete (push b d')) with true by done.
  - by destruct Ht as [d'' ->].
Qed.

(** The bytes in hand only go in front. *)
Definition prepend (o : list Z) (r : answered (list Z)) : answered (list Z) := answered_bind r (λ d x, Ret (d, Ok (o ++ x))).

Definition turn_prepend (o : list Z) (x : ResponseDecoder * result (turn (list Z) (list Z)) CodecError) :=
  match x with
  | (d, Ok (Next a)) => (d, Ok (Next (o ++ a)))
  | (d, Ok (Answer a)) => (d, Ok (Answer (o ++ a)))
  | (d, Err e) => (d, Err e)
  end.

Lemma turn_of_prepend d o out : turn_of d (o ++ out) = turn_prepend o (turn_of d out).
Proof.
  unfold turn_of. destruct (chunk d).
  - destruct (find_window _ _) as [n|]; [|by destruct (closed d)]. destruct (parse_chunk_size_line _); [|done]. cbv zeta.
    destruct (_ =? _); [done|]. destruct (_ <=? _); [done|]. by destruct (checked_add_body_len _ _).
  - destruct (is_empty _); [by destruct (closed d)|]. cbn [turn_prepend]. by rewrite app_assoc.
  - destruct (_ <? _); [done|]. by destruct (negb _).
  - by destruct (find_window _ _) as [[|n]|].
Qed.

Lemma run_prepend `{Profile} d o out : reading d → run d (o ++ out) = prepend o (run d out).
Proof.
  intros Hr. revert d out Hr. refine (run_ind _ _). intros d out Hr IH. rewrite !run_unfold, turn_of_prepend by done.
  destruct (turn_of d out) as [d' [[x|x]|e]] eqn:E; cbn [turn_prepend]; [|done..]. by apply IH.
Qed.

(** A run keeps the reply, and either completes it or is still reading. *)
Lemma run_keeps `{Profile} d out d' o : reading d → run d out = Ret (d', Ok o) →
  decoder_ok d' ∧ same_reply d d' ∧ (length (buf d') ≤ length (buf d))%nat.
Proof.
  intros Hr. revert d out Hr. refine (run_ind _ _). intros d out Hr IH. rewrite run_unfold by done.
  destruct (turn_of d out) as [d1 [[x|x]|e]] eqn:E; [| |done].
  - destruct (IH d1 x eq_refl) as [Hr1 IH1]. intros E1. destruct (IH1 E1) as (H1 & (A1 & A2 & A3) & H3). destruct Hr as [Hd Hh Hn _ _].
    destruct (turn_keeps d out d1 _ Hd Hh Hn E) as (_ & (B1 & B2 & B3) & Hl & _). split_and!; [done|split_and!; congruence|lia].
  - intros [= <- <-]. destruct Hr as [Hd Hh Hn _ _]. by destruct (turn_keeps d out d1 _ Hd Hh Hn E) as (? & ? & ? & _).
Qed.

Lemma run_answers `{Profile} d out : reading d → run d out ≠ Panic.
Proof.
  intros Hr. revert d out Hr. refine (run_ind _ _). intros d out Hr IH. rewrite run_unfold by done.
  destruct (turn_of d out) as [d1 [[x|x]|e]] eqn:E; [by apply IH|done..].
Qed.

(** ** The body, once the head is there *)

Definition body `{Profile} (d : ResponseDecoder) : answered (list Z) :=
  if complete d then Ret (d, Ok [])
  else
    match the_framing d with
    | Empty => Ret (d, Ok [])
    | Length n =>
        if MAX_DECODED_BODY_BYTES <? n then Ret (d, Err (LimitExceeded "decoded body exceeds 16777216 bytes"))
        else
          let t := Z.min (n - emitted d) (len (buf d)) in
          let d' := set_emitted (emitted d + t) (set_buf (drop (Z.to_nat t) (buf d)) d) in
          if emitted d + t =? n then Ret (set_complete d', Ok (take (Z.to_nat t) (buf d)))
          else if closed d then Ret (d', Err ContentLengthMismatch)
          else Ret (d', Ok (take (Z.to_nat t) (buf d)))
    | Eof =>
        match checked_add_body_len (emitted d) (len (buf d)) with
        | Err e => Ret (d, Err e)
        | Ok n => let d' := set_emitted n (set_buf [] d) in Ret (if closed d then set_complete d' else d', Ok (buf d))
        end
    | Chunked => run d []
    end.

Lemma sub64_exact `{Profile} a b : 0 ≤ b ≤ a → a ≤ u64_max → sub64 a b = Ret (a - b).
Proof.
  intros Hb Ha. unfold sub64. rewrite (proj2 (Z.ltb_ge a b)) by lia. rewrite andb_false_r. by rewrite wrap64_id by (unfold is_u64; lia).
Qed.

Lemma read_body_head `{Profile} d : is_Some (the_head d) → decoder_ok d → fits d → read_body d = body d.
Proof.
  intros [h Hh] Hd Hf. unfold read_body, head, body. rewrite Hh. cbn [answered_bind]. destruct (complete d); [done|].
  pose proof (ok_emitted d Hd) as He. pose proof (len_nonneg (buf d)) as Hl0.
  destruct (the_framing d) as [|n| |] eqn:Ef; [done| | |done].
  - pose proof (ok_length d Hd n Ef) as Hn. unfold checked_body_len. destruct (Z.ltb_spec MAX_DECODED_BODY_BYTES n); [done|]. cbn [try outcome_bind answered_bind].
    rewrite sub64_exact by (unfold u64_max, MAX_DECODED_BODY_BYTES in *; lia). cbn [outcome_bind]. rewrite drain_ok by lia. cbn [outcome_bind snd fst].
    change (emitted (set_buf _ d)) with (emitted d). rewrite add64_exact by (unfold MAX_DECODED_BODY_BYTES, u64_max in *; lia). done.
  - destruct (checked_add_body_len _ _) as [k|] eqn:Ek; [|done]. apply checked_add_Ok in Ek as [-> Hk]. cbn [try outcome_bind answered_bind].
    rewrite drain_ok by lia. cbn [outcome_bind snd fst]. change (emitted (set_buf _ d)) with (emitted d).
    replace (Z.to_nat (len (buf d))) with (length (buf d)) by (unfold len; lia). rewrite drop_all, firstn_all.
    rewrite add64_exact by (unfold MAX_DECODED_BODY_BYTES, u64_max in *; lia). done.
Qed.

(** An open decoder with a head. *)
Record replying (d : ResponseDecoder) : Prop := {
  rp_ok : decoder_ok d;
  rp_head : is_Some (the_head d);
  rp_open : closed d = false;
  rp_fits : fits d }.

Lemma replying_reading d : replying d → the_framing d = Chunked → complete d = false → reading d.
Proof. intros [H1 H2 H3 H4] Hf Hc. split; done. Qed.

Lemma push_replying b d : replying d → fits (push b d) → replying (push b d).
Proof. intros [H1 H2 H3 H4] Hf. split; [by apply push_ok|done..]. Qed.

Lemma body_keeps `{Profile} d d' o : replying d → body d = Ret (d', Ok o) →
  replying d' ∧ the_head d' = the_head d ∧ (length (buf d') ≤ length (buf d))%nat.
Proof.
  intros Hr. pose proof Hr as [Hd Hh Ho Hf]. pose proof (ok_emitted d Hd) as He. pose proof (len_nonneg (buf d)) as Hl0.
  assert (∀ x, the_head x = the_head d → the_framing x = the_framing d → closed x = closed d → (length (buf x) ≤ length (buf d))%nat →
    0 ≤ emitted x ≤ MAX_DECODED_BODY_BYTES → (∀ n, the_framing d = Length n → emitted x ≤ n) → chunk_ok (emitted x) (chunk x) →
    chunk x = chunk d →
    replying x ∧ the_head x = the_head d ∧ (length (buf x) ≤ length (buf d))%nat) as Hx.
  { intros x E1 E2 E3 E4 E5 E6 E7 E8. destruct Hh as [h Hh]. split_and!; [|done|done]. split; [|by rewrite E1, Hh|by rewrite E3|unfold fits, len in *; lia].
    split; [congruence|congruence|done|by rewrite E2|done|]. rewrite E2, E8. apply Hd. }
  unfold body. destruct (complete d) eqn:Ec; [by intros [= <- _]|]. destruct (the_framing d) as [|n| |] eqn:Ef.
  - intros E. pose proof (replying_reading d Hr Ef Ec) as Hrd. destruct (run_keeps d [] d' o Hrd E) as (H1 & (E1 & E2 & E3) & H3).
    split_and!; [|done|done]. split; [done|by rewrite E1|by rewrite E3|unfold fits, len in *; lia].
  - pose proof (ok_length d Hd n Ef) as Hn. destruct (Z.ltb_spec MAX_DECODED_BODY_BYTES n); [done|]. cbv zeta. set (t := Z.min _ _). assert (0 ≤ t ≤ len (buf d)) as Ht by lia.
    pose proof (ok_size d Hd ltac:(congruence)) as Hz.
    destruct (_ =? _); [|rewrite Ho]; intros [= <- _]; apply Hx; try done; cbn; rewrite ?length_drop; try (by rewrite Hz); try lia; intros m [= <-]; lia.
  - pose proof (ok_size d Hd ltac:(congruence)) as Hz. destruct (checked_add_body_len _ _) as [k|] eqn:Ek; [|done]. apply checked_add_Ok in Ek as [-> Hk]. rewrite Ho.
    intros [= <- _]. apply Hx; try done; cbn; try (by rewrite Hz); lia.
  - by intros [= <- _].
Qed.

Lemma resume_body `{Profile} d o : replying d → the_framing d = Chunked → resume d o = prepend o (body d).
Proof.
  intros Hr Hf. unfold resume, body. destruct (complete d) eqn:Ec; [cbn; by rewrite app_nil_r|]. rewrite Hf.
  rewrite <-run_prepend by (by apply replying_reading). by rewrite app_nil_r.
Qed.

Lemma answered_bind_ext {A B} (r : answered A) (f g : ResponseDecoder → A → answered B) :
  (∀ d a, r = Ret (d, Ok a) → f d a = g d a) → answered_bind r f = answered_bind r g.
Proof. intros Hfg. destruct r as [[d [a|e]]|]; [by apply Hfg|done..]. Qed.

Lemma checked_add_more a b c : 0 ≤ a ≤ MAX_DECODED_BODY_BYTES → 0 ≤ b → 0 ≤ c → b + c ≤ isize_max →
  checked_add_body_len a (b + c) = match checked_add_body_len a b with Ok n => checked_add_body_len n c | Err e => Err e end.
Proof.
  unfold checked_add_body_len, checked_add64, checked_body_len, isize_max, MAX_DECODED_BODY_BYTES, u64_max. intros Ha Hb Hc Hm.
  rewrite !(proj2 (Z.leb_le _ _)) by lia. destruct (Z.ltb_spec (16 * 1024 * 1024) (a + b)); cbn [result_bind].
  - by rewrite (proj2 (Z.ltb_lt _ _)) by lia.
  - rewrite (proj2 (Z.leb_le _ _)) by lia. by rewrite Z.add_assoc.
Qed.

Lemma body_split `{Profile} b d : replying d → fits (push b d) →
  outcome_of (body (push b d)) = outcome_of (answered_bind (body d) (λ d1 o1, prepend o1 (body (push b d1)))).
Proof.
  intros Hr Hf. pose proof Hr as [Hd Hh Ho _]. pose proof (ok_emitted d Hd) as He. pose proof (len_nonneg (buf d)) as Hl0. pose proof (len_nonneg b) as Hl1.
  destruct (complete d) eqn:Ec.
  { unfold body at 2. rewrite Ec. cbn [answered_bind]. unfold body. change (complete (push b d)) with (complete d). by rewrite Ec. }
  destruct (the_framing d) as [|n| |] eqn:Ef.
  - pose proof (replying_reading d Hr Ef Ec) as Hrd. unfold body at 1 2. change (complete (push b d)) with (complete d). change (the_framing (push b d)) with (the_framing d).
    rewrite Ec, Ef, run_split by done. f_equal. apply answered_bind_ext. intros d1 o1 E.
    destruct (run_keeps d [] d1 o1 Hrd E) as (H1 & (E1 & E2 & E3) & H3). apply resume_body; [|change (the_framing d1 = Chunked); congruence].
    apply push_replying; [split; [done|by rewrite E1|by rewrite E3|]|]; unfold fits in *; rewrite ?push_buf, ?len_app in *; unfold len in *; lia.
  - pose proof (ok_length d Hd n Ef) as Hn. unfold body at 1 2. change (complete (push b d)) with (complete d). change (the_framing (push b d)) with (the_framing d).
    rewrite Ec, Ef, Ho. change (closed (push b d)) with (closed d). rewrite Ho. destruct (Z.ltb_spec MAX_DECODED_BODY_BYTES n) as [|Hn2]; [done|]. cbv zeta.
    change (emitted (push b d)) with (emitted d). rewrite push_buf, len_app. set (t := Z.min (n - emitted d) (len (buf d))).
    destruct (Z.eqb_spec (emitted d + t) n) as [Et|Et].
    + assert (Z.min (n - emitted d) (len (buf d) + len b) = t) as -> by lia. rewrite (proj2 (Z.eqb_eq _ _)) by done. cbn [answered_bind].
      unfold body. cbn. rewrite app_nil_r, take_app_le, drop_app_le by (unfold t, len in *; lia). done.
    + assert (t = len (buf d)) as Et2 by lia. rewrite Et2. replace (Z.to_nat (len (buf d))) with (length (buf d)) by (unfold len; lia). rewrite drop_all, firstn_all.
      cbn [answered_bind]. unfold body. cbn [complete push set_buf set_emitted the_framing closed emitted buf app]. rewrite Ec, Ef, Ho, (proj2 (Z.ltb_ge _ _)) by done. cbv zeta.
      set (u := Z.min (n - (emitted d + len (buf d))) (len b)). assert (0 ≤ u) as Hu by lia.
      assert (Z.min (n - emitted d) (len (buf d) + len b) = len (buf d) + u) as -> by (unfold u; lia).
      replace (Z.to_nat (len (buf d) + u)) with (length (buf d) + Z.to_nat u)%nat by (unfold len; lia). rewrite drop_app_add, take_app_add, !Z.add_assoc.
      by destruct (_ =? _).
  - unfold body at 1 2. change (complete (push b d)) with (complete d). change (the_framing (push b d)) with (the_framing d). change (closed (push b d)) with (closed d).
    rewrite Ec, Ef, Ho. change (emitted (push b d)) with (emitted d). rewrite push_buf, len_app. unfold fits in Hf. rewrite push_buf, len_app in Hf.
    rewrite checked_add_more by lia. destruct (checked_add_body_len _ _) as [k|] eqn:Ek; [|done]. cbn [answered_bind]. unfold body.
    cbn [complete push set_buf set_emitted the_framing closed emitted buf app]. rewrite Ec, Ef, Ho. by destruct (checked_add_body_len k _).
  - unfold body. change (complete (push b d)) with (complete d). change (the_framing (push b d)) with (the_framing d). rewrite Ec, Ef. cbn [answered_bind].
    change (complete (push b d)) with (complete d). change (the_framing (push b d)) with (the_framing d). by rewrite Ec, Ef.
Qed.

(** ** The head *)

(** The decoder after a head that takes the first [m] bytes and the empty line. *)
Definition opened (m : nat) (h : ResponseHead) (f : BodyFraming) (d : ResponseDecoder) : ResponseDecoder :=
  let d := set_buf (drop (m + 4) (buf d)) (set_head h f d) in
  if no_body f then set_complete d else d.

Lemma body_framing_Length h n : body_framing h = Ok (Length n) → 0 ≤ n.
Proof.
  unfold body_framing. destruct (_ || _); [done|]. destruct (decode_framing (headers h)) as [[f|]|] eqn:E; [|done..]. intros [= ->].
  by apply decode_framing_Length in E as (_ & _ & ? & _).
Qed.

Lemma opened_ok m h f d : the_head d = None → decoder_ok d → body_framing h = Ok f → decoder_ok (opened m h f d).
Proof.
  intros Hh Hd Ef. destruct (ok_fresh d Hd Hh) as (_ & He & Hc). unfold opened. destruct (no_body f); (split; cbn; rewrite ?Hc, ?He; try done).
  all: try (unfold MAX_DECODED_BODY_BYTES; lia). all: intros n ->; by apply body_framing_Length in Ef.
Qed.

Lemma push_opened b m h f d : (m + 4 ≤ length (buf d))%nat → opened m h f (push b d) = push b (opened m h f d).
Proof. intros Hm. unfold opened. rewrite push_buf, drop_app_le by done. by destruct (no_body f). Qed.

Lemma opened_scan s m h f d : opened m h f (set_scan s d) = set_scan s (opened m h f d).
Proof. unfold opened. by destruct (no_body f). Qed.

Lemma opened_head m h f d : the_head (opened m h f d) = Some h ∧ closed (opened m h f d) = closed d ∧ buf (opened m h f d) = drop (m + 4) (buf d) ∧
  emitted (opened m h f d) = emitted d.
Proof. unfold opened. by destruct (no_body f). Qed.

Lemma head_spec `{Profile} d : the_head d = None → decoder_ok d → fits d →
  head d =
    match find_window header_end (buf d) with
    | None =>
        if MAX_HEADER_SECTION_BYTES <? saturating_sub64 (len (buf d)) 3 then Ret (d, Err section_limit)
        else if closed d && negb (is_empty (buf d)) then Ret (d, Err Truncated)
        else Ret (set_scan (saturating_sub64 (len (buf d)) 3) d, Ok None)
    | Some m =>
        answered_bind (try d (parse_head_section (take m (buf d)))) (λ d h,
        answered_bind (try d (Ret (body_framing h))) (λ d f, Ret (opened m h f d, Ok (Some h))))
    end.
Proof.
  intros Hh Hd Hf. destruct (ok_scan d Hd Hh) as [H0 Hs]. unfold head. rewrite Hh, find_header_end_eq; [|done|].
  2: { intros m Em. apply (Hs []). by rewrite app_nil_r. }
  change [13; 10; 13; 10] with header_end. destruct (find_window header_end (buf d)) as [m|] eqn:Em; cbn [fmap option_fmap option_map].
  - apply find_window_bound in Em. cbn [length header_end] in Em. rewrite head_bytes_eq by (unfold fits, isize_max, u64_max in *; lia). cbn [outcome_bind].
    destruct (parse_head_section _) as [[h|e]|]; [|done..]. cbn [try outcome_bind answered_bind]. destruct (body_framing h) as [f|e]; [|done]. cbn [answered_bind].
    replace (Z.of_nat m + 4) with (Z.of_nat (m + 4)) by lia. by rewrite drain_nat by (cbn; lia).
  - unfold validate_header_buffer_len. by destruct (_ <? _).
Qed.

(** ** Where the search goes on from does not matter *)

Lemma turn_of_scan s d out : turn_of (set_scan s d) out = (set_scan s (turn_of d out).1, (turn_of d out).2).
Proof.
  unfold turn_of. change (chunk (set_scan s d)) with (chunk d). change (buf (set_scan s d)) with (buf d). change (closed (set_scan s d)) with (closed d).
  destruct (chunk d).
  - destruct (find_window _ _) as [n|]; [|by destruct (closed d)]. destruct (parse_chunk_size_line _); [|done]. cbv zeta.
    change (chunks_seen (set_buf ?l (set_scan s d))) with (chunks_seen (set_buf l d)). change (emitted (set_buf ?l (set_scan s d))) with (emitted (set_buf l d)).
    destruct (_ =? _); [done|]. destruct (_ <=? _); [done|]. by destruct (checked_add_body_len _ _).
  - destruct (is_empty _); [by destruct (closed d)|done].
  - destruct (_ <? _); [done|]. by destruct (negb _).
  - by destruct (find_window _ _) as [[|n]|].
Qed.

Lemma set_scan_ok s d : the_head d ≠ None → decoder_ok d → decoder_ok (set_scan s d).
Proof. intros Hh [H1 H2 H3 H4 H5 H6]. by split. Qed.

Lemma set_scan_reading s d : reading d → reading (set_scan s d).
Proof. intros [H1 H2 H3 H4 H5]. split; try done. apply set_scan_ok; [|done]. destruct H2 as [h Hh]. congruence. Qed.

Lemma outcome_of_bind {A B} (r r' : answered A) (f g : ResponseDecoder → A → answered B) :
  outcome_of r = outcome_of r' → (∀ d d' a, r = Ret (d, Ok a) → r' = Ret (d', Ok a) → set_scan 0 d = set_scan 0 d' → outcome_of (f d a) = outcome_of (g d' a)) →
  outcome_of (answered_bind r f) = outcome_of (answered_bind r' g).
Proof.
  intros E Hf. destruct r as [[d [a|e]]|], r' as [[d' [a'|e']]|]; cbn [outcome_of] in E; try done.
  - assert (set_scan 0 d = set_scan 0 d' ∧ a = a') as [E1 ->] by (split; congruence). by apply Hf.
  - cbn. congruence.
Qed.

Lemma run_scan `{Profile} s d out : reading d → outcome_of (run (set_scan s d) out) = outcome_of (run d out).
Proof.
  intros Hr. revert d out Hr. refine (run_ind _ _). intros d out Hr IH. rewrite (run_unfold d) by done.
  rewrite (run_unfold (set_scan s d)) by (by apply set_scan_reading). rewrite turn_of_scan.
  destruct (turn_of d out) as [d' [[o|o]|e]] eqn:E; cbn [fst snd]; [|done..]. by apply IH.
Qed.

Lemma body_scan `{Profile} s d : is_Some (the_head d) → decoder_ok d → fits d → outcome_of (body (set_scan s d)) = outcome_of (body d).
Proof.
  intros Hh Hd Hf. unfold body. change (complete (set_scan s d)) with (complete d). change (the_framing (set_scan s d)) with (the_framing d).
  change (emitted (set_scan s d)) with (emitted d). change (buf (set_scan s d)) with (buf d). change (closed (set_scan s d)) with (closed d).
  destruct (complete d) eqn:Ec; [done|]. destruct (the_framing d) as [|n| |] eqn:Ef; [by apply run_scan| | |done].
  - destruct (_ <? _); [done|]. cbv zeta. destruct (_ =? _); [done|]. by destruct (closed d).
  - destruct (checked_add_body_len _ _); [|done]. by destruct (closed d).
Qed.

(** [read_body] on a decoder without a head. *)
Lemma read_body_fresh `{Profile} d : the_head d = None → decoder_ok d → fits d →
  read_body d =
    match find_window header_end (buf d) with
    | None =>
        if MAX_HEADER_SECTION_BYTES <? saturating_sub64 (len (buf d)) 3 then Ret (d, Err section_limit)
        else if closed d && negb (is_empty (buf d)) then Ret (d, Err Truncated)
        else Ret (set_scan (saturating_sub64 (len (buf d)) 3) d, Ok [])
    | Some m =>
        answered_bind (try d (parse_head_section (take m (buf d)))) (λ d h,
        answered_bind (try d (Ret (body_framing h))) (λ d f, body (opened m h f d)))
    end.
Proof.
  intros Hh Hd Hf. unfold read_body at 1. rewrite head_spec by done. destruct (find_window header_end (buf d)) as [m|] eqn:Em.
  - destruct (parse_head_section _) as [[h|e]|]; [|done..]. cbn [try outcome_bind answered_bind].
    destruct (body_framing h) as [f|e] eqn:Ef; [|done]. cbn [answered_bind]. destruct (opened_head m h f d) as (E1 & E2 & E3 & _).
    rewrite <-read_body_head; [unfold read_body, head; by rewrite E1|by rewrite E1|by apply opened_ok|].
    unfold fits, len in *. rewrite E3, length_drop. lia.
  - destruct (_ <? _); [done|]. by destruct (closed d && _).
Qed.

Lemma read_body_scan `{Profile} s d : decoder_ok d → decoder_ok (set_scan s d) → fits d → outcome_of (read_body (set_scan s d)) = outcome_of (read_body d).
Proof.
  intros Hd Hd' Hf. destruct (the_head d) as [h|] eqn:Hh.
  - rewrite !read_body_head by (done || by rewrite ?Hh). apply body_scan; [by rewrite Hh|done|done].
  - rewrite (read_body_fresh d), (read_body_fresh (set_scan s d)) by done. change (buf (set_scan s d)) with (buf d). change (closed (set_scan s d)) with (closed d).
    destruct (find_window header_end (buf d)) as [m|] eqn:Em.
    + destruct (parse_head_section _) as [[h|e]|]; [|done..]. cbn [try outcome_bind answered_bind].
      destruct (body_framing h) as [f|e] eqn:Ef; [|done]. cbn [answered_bind]. rewrite opened_scan. destruct (opened_head m h f d) as (E1 & E2 & E3 & _).
      apply body_scan; [by rewrite E1|by apply opened_ok|]. unfold fits, len in *. rewrite E3, length_drop. lia.
    + destruct (_ <? _); [done|]. by destruct (closed d && _).
Qed.

Lemma set_scan_eq d d' : set_scan 0 d = set_scan 0 d' → d' = set_scan (header_scan_start d') d.
Proof. destruct d, d'. cbn. by intros [= -> -> -> -> -> -> -> -> ->]. Qed.

(** Decoders that differ in nothing else answer alike, and go on alike. *)
Lemma read_body_same `{Profile} d d' : decoder_ok d → decoder_ok d' → fits d → set_scan 0 d = set_scan 0 d' → outcome_of (read_body d) = outcome_of (read_body d').
Proof. intros H1 H2 H3 E. pose proof (set_scan_eq d d' E) as Ed. rewrite Ed in H2 |- *. symmetry. by apply read_body_scan. Qed.

(** ** Reading, cut in two *)

(** An open decoder. *)
Record listening (d : ResponseDecoder) : Prop := {
  ls_ok : decoder_ok d;
  ls_open : closed d = false;
  ls_fits : fits d }.

Lemma push_listening b d : listening d → fits (push b d) → listening (push b d).
Proof. intros [H1 H2 H3] Hf. split; [by apply push_ok|done..]. Qed.

Lemma opened_replying m h f d : listening d → the_head d = None → body_framing h = Ok f → replying (opened m h f d).
Proof.
  intros [Hd Ho Hf] Hh Ef. destruct (opened_head m h f d) as (E1 & E2 & E3 & _). split; [by apply opened_ok|by rewrite E1|congruence|].
  unfold fits, len in *. rewrite E3, length_drop. lia.
Qed.

(** After a search that found nothing, the next one may start three bytes before the end. *)
Lemma waiting_ok d : decoder_ok d → find_window header_end (buf d) = None → decoder_ok (set_scan (saturating_sub64 (len (buf d)) 3) d).
Proof.
  intros [H1 H2 H3 H4 H5 H6] En. split; try done. intros Hh. cbn. unfold saturating_sub64. split; [lia|]. intros k m Em.
  pose proof (find_window_after _ _ _ _ En Em) as Ha. cbn [length header_end] in Ha. unfold len. lia.
Qed.

Lemma read_keeps `{Profile} d d' o : listening d → read_body d = Ret (d', Ok o) → listening d' ∧ (length (buf d') ≤ length (buf d))%nat.
Proof.
  intros Hl. pose proof Hl as [Hd Ho Hf]. destruct (the_head d) as [h|] eqn:Hh.
  - rewrite read_body_head by (done || by rewrite Hh). intros E. assert (replying d) as Hr by (split; [done|by rewrite Hh|done..]).
    destruct (body_keeps d d' o Hr E) as ([A1 A2 A3 A4] & _ & Hb). by split; [split|].
  - rewrite read_body_fresh by done. destruct (find_window header_end (buf d)) as [m|] eqn:Em.
    + destruct (parse_head_section _) as [[h|e]|]; [|done..]. cbn [try outcome_bind answered_bind]. destruct (body_framing h) as [f|e] eqn:Ef; [|done]. cbn [answered_bind].
      intros E. destruct (body_keeps _ d' o (opened_replying m h f d Hl Hh Ef) E) as ([A1 A2 A3 A4] & _ & Hb). destruct (opened_head m h f d) as (_ & _ & E3 & _).
      rewrite E3, length_drop in Hb. split; [by split|lia].
    + destruct (_ <? _); [done|]. destruct (closed d && _); [done|]. intros [= <- <-]. split; [|done]. split; [by apply waiting_ok|done..].
Qed.

Lemma push_fits b d d' : fits (push b d) → (length (buf d') ≤ length (buf d))%nat → fits (push b d').
Proof. unfold fits. rewrite !push_buf, !len_app. unfold len. lia. Qed.

Lemma prepend_outcome o r r' : outcome_of r = outcome_of r' → outcome_of (prepend o r) = outcome_of (prepend o r').
Proof. intros E. apply outcome_of_bind; [done|]. intros d d' a _ _ Es. cbn [outcome_of]. by rewrite Es. Qed.

Lemma answered_bind_outcome {A B} (r : answered A) (f g : ResponseDecoder → A → answered B) :
  (∀ d a, r = Ret (d, Ok a) → outcome_of (f d a) = outcome_of (g d a)) → outcome_of (answered_bind r f) = outcome_of (answered_bind r g).
Proof. intros Hfg. destruct r as [[d [a|e]]|]; [by apply Hfg|done..]. Qed.

Lemma replying_split `{Profile} b d : replying d → fits (push b d) →
  outcome_of (body (push b d)) = outcome_of (answered_bind (body d) (λ d1 o1, prepend o1 (read_body (push b d1)))).
Proof.
  intros Hr Hf. rewrite body_split by done. apply answered_bind_outcome. intros d1 o1 E. destruct (body_keeps d d1 o1 Hr E) as (Hr1 & _ & Hb).
  pose proof (push_fits b d d1 Hf Hb) as Hf1. destruct (push_replying b d1 Hr1 Hf1) as [A1 A2 A3 A4]. by rewrite read_body_head.
Qed.

Lemma read_split `{Profile} b d : listening d → fits (push b d) →
  outcome_of (read_body (push b d)) = outcome_of (answered_bind (read_body d) (λ d1 o1, prepend o1 (read_body (push b d1)))).
Proof.
  intros Hl Hf. pose proof Hl as [Hd Ho Hf0]. pose proof (push_listening b d Hl Hf) as [Hd' Ho' _]. destruct (the_head d) as [h|] eqn:Hh.
  { rewrite (read_body_head d), (read_body_head (push b d)) by (done || by (cbn; rewrite Hh)). apply replying_split; [split; [done|by rewrite Hh|done..]|done]. }
  rewrite (read_body_fresh d) by done. destruct (find_window header_end (buf d)) as [m|] eqn:Em.
  - rewrite (read_body_fresh (push b d)) by done. rewrite push_buf, (find_window_app _ _ b m Em). pose proof (find_window_bound _ _ _ Em) as Hb. cbn [length header_end] in Hb.
    rewrite take_app_le by lia. destruct (parse_head_section _) as [[h|e]|]; [|done..]. cbn [try outcome_bind answered_bind].
    destruct (body_framing h) as [f|e] eqn:Ef; [|done]. cbn [answered_bind]. rewrite push_opened by done.
    apply replying_split; [by apply opened_replying|]. destruct (opened_head m h f d) as (_ & _ & E3 & _).
    apply (push_fits b d); [done|]. rewrite E3, length_drop. lia.
  - destruct (Z.ltb_spec MAX_HEADER_SECTION_BYTES (saturating_sub64 (len (buf d)) 3)) as [Hlim|Hlim].
    + rewrite (read_body_fresh (push b d)) by done. rewrite push_buf. unfold saturating_sub64, MAX_HEADER_SECTION_BYTES in Hlim.
      destruct (find_window header_end (buf d ++ b)) as [m|] eqn:Em2.
      * pose proof (find_window_after _ _ _ _ Em Em2) as Ha. pose proof (find_window_bound _ _ _ Em2) as Hb. cbn [length header_end] in Ha, Hb.
        rewrite parse_head_section_long; [done|]. unfold len in *. rewrite length_take. unfold MAX_HEADER_SECTION_BYTES. lia.
      * rewrite (proj2 (Z.ltb_lt _ _)); [done|]. rewrite len_app. pose proof (len_nonneg b). unfold saturating_sub64, MAX_HEADER_SECTION_BYTES. lia.
    + rewrite Ho. cbn [andb answered_bind]. set (s := saturating_sub64 (len (buf d)) 3).
      transitivity (outcome_of (read_body (push b (set_scan s d)))).
      * change (push b (set_scan s d)) with (set_scan s (push b d)). symmetry. apply read_body_scan; [done| |done].
        change (set_scan s (push b d)) with (push b (set_scan s d)). by apply push_ok, waiting_ok.
      * unfold prepend. destruct (read_body _) as [[d1 [o1|e]]|]; done.
Qed.

Lemma push_push a b d : push b (push a d) = push (a ++ b) d.
Proof. unfold push. cbn. by rewrite app_assoc. Qed.

Lemma feeds_concat `{Profile} p ps d : listening d → fits (push (p ++ concat ps) d) →
  outcome_of (feeds (p :: ps) d) = outcome_of (feed (p ++ concat ps) d).
Proof.
  revert p d. induction ps as [|q ps IH]; intros p d Hl Hf.
  - cbn [feeds concat]. rewrite app_nil_r. destruct (feed p d) as [[d1 [o1|e]]|]; [|done..]. cbn [answered_bind]. by rewrite app_nil_r.
  - cbn [concat] in *. assert (fits (push p d)) as Hfp.
    { unfold fits in *. rewrite push_buf, len_app in *. rewrite len_app in Hf. pose proof (len_nonneg (q ++ concat ps)). lia. }
    pose proof (push_listening p d Hl Hfp) as Hlp. unfold feed at 1. rewrite <-push_push. rewrite read_split by (done || by rewrite push_push).
    change (feeds (p :: q :: ps) d) with (answered_bind (feed p d) (λ d o, prepend o (feeds (q :: ps) d))). apply answered_bind_outcome. intros d1 o1 E.
    apply prepend_outcome. destruct (read_keeps _ _ _ Hlp E) as [Hl1 Hb]. apply IH; [done|]. apply (push_fits _ (push p d)); [|done]. by rewrite push_push.
Qed.

(** ** What is read is counted, and bounded *)

Lemma turn_emits d out d' r : decoder_ok d → turn_of d out = (d', Ok r) →
  emitted d' + len out = emitted d + len (match r with Next o | Answer o => o end).
Proof.
  intros Hd. pose proof (ok_chunk d Hd) as Hc. unfold turn_of. destruct (chunk d) as [|r0| |]; cbn [chunk_ok] in Hc.
  - destruct (find_window _ _); [|destruct (closed d); [done|]; by intros [= <- <-]]. destruct (parse_chunk_size_line _); [|done]. cbv zeta.
    destruct (_ =? _); [by intros [= <- <-]|]. destruct (_ <=? _); [done|]. destruct (checked_add_body_len _ _); [by intros [= <- <-]|done].
  - destruct (is_empty _); [destruct (closed d); [done|]; by intros [= <- <-]|]. intros [= <- <-]. cbn. rewrite len_app. unfold len. rewrite length_take.
    unfold len. lia.
  - destruct (_ <? _); [by intros [= <- <-]|]. destruct (negb _); [done|]. by intros [= <- <-].
  - destruct (find_window _ _) as [[|n]|]; by intros [= <- <-].
Qed.

Lemma run_emits `{Profile} d out d' o : reading d → run d out = Ret (d', Ok o) → emitted d' + len out = emitted d + len o.
Proof.
  intros Hr. revert d out Hr. refine (run_ind _ _). intros d out Hr IH. rewrite run_unfold by done.
  destruct (turn_of d out) as [d1 [[x|x]|e]] eqn:E; [| |done]; pose proof (turn_emits _ _ _ _ (rd_ok d Hr) E) as He; cbn in He.
  - destruct (IH d1 x eq_refl) as [_ IH1]. intros E1. specialize (IH1 E1). lia.
  - by intros [= <- <-].
Qed.

(** An answer that is no panic, and counts what it reads within the limit. *)
Definition counted (d : ResponseDecoder) (r : answered (list Z)) : Prop :=
  ∃ d' x, r = Ret (d', x) ∧ ∀ o, x = Ok o → emitted d' = emitted d + len o ∧ emitted d' ≤ MAX_DECODED_BODY_BYTES.

Lemma body_counted `{Profile} d : is_Some (the_head d) → decoder_ok d → fits d → counted d (body d).
Proof.
  intros Hh Hd Hf. pose proof (ok_emitted d Hd) as He. pose proof (len_nonneg (buf d)) as Hl0.
  assert (∀ d' o, emitted d' = emitted d + len o → emitted d' ≤ MAX_DECODED_BODY_BYTES → counted d (Ret (d', Ok o))) as Hok by (intros d' o H1 H2; exists d', (Ok o); split; [done|]; by intros o' [= <-]).
  assert (∀ d' e, counted d (Ret (d', Err e))) as Herr by (intros d' e; by exists d', (Err e)).
  unfold body. destruct (complete d) eqn:Ec; [apply Hok; rewrite ?len_nil; lia|]. destruct (the_framing d) as [|n| |] eqn:Ef.
  - assert (reading d) as Hr by by split. pose proof (run_answers d [] Hr) as Hp. destruct (run d []) as [[d' [o|e]]|] eqn:E; [|done..].
    pose proof (run_emits d [] d' o Hr E) as Hm. destruct (run_keeps d [] d' o Hr E) as (Hd' & _). pose proof (ok_emitted d' Hd'). rewrite len_nil in Hm; apply Hok; lia.
  - pose proof (ok_length d Hd n Ef) as Hn. destruct (Z.ltb_spec MAX_DECODED_BODY_BYTES n); [done|]. cbv zeta. set (t := Z.min _ _).
    assert (len (take (Z.to_nat t) (buf d)) = t) as Et by (unfold len in *; rewrite length_take; lia).
    destruct (_ =? _); [|destruct (closed d); [done|]]; apply Hok; cbn; lia.
  - destruct (checked_add_body_len _ _) as [k|] eqn:Ek; [|done]. apply checked_add_Ok in Ek as [-> Hk]. destruct (closed d); by apply Hok.
  - apply Hok; rewrite ?len_nil; lia.
Qed.

Lemma read_counted `{Profile} d : decoder_ok d → fits d → counted d (read_body d).
Proof.
  intros Hd Hf. destruct (the_head d) as [h|] eqn:Hh; [rewrite read_body_head by (done || by rewrite Hh); apply body_counted; [by rewrite Hh|done|done]|].
  assert (∀ e d', counted d (Ret (d', Err e))) as Herr by (intros e d'; by exists d', (Err e)).
  rewrite read_body_fresh by done. destruct (find_window _ _) as [m|].
  - destruct (parse_head_section_total (take m (buf d))) as [r ->]; [unfold fits, isize_max, u64_max, len in *; rewrite length_take; lia|].
    destruct r as [h|e]; [|apply Herr]. cbn [try outcome_bind answered_bind]. destruct (body_framing h) as [f|e] eqn:Ef; [|apply Herr]. cbn [answered_bind].
    destruct (opened_head m h f d) as (E1 & E2 & E3 & E4). pose proof (body_counted (opened m h f d)) as Hc. unfold counted in *. rewrite <-E4.
    apply Hc; [by rewrite E1|by apply opened_ok|]. unfold fits, len in *. rewrite E3, length_drop. lia.
  - destruct (_ <? _); [done|]. destruct (closed d && _); [done|]. eexists _, _. split; [done|]. intros o [= <-]. pose proof (ok_emitted d Hd). rewrite len_nil. cbn [emitted set_scan]. lia.
Qed.

Lemma counted_Ok d d' o : counted d (Ret (d', Ok o)) → emitted d' = emitted d + len o ∧ emitted d' ≤ MAX_DECODED_BODY_BYTES.
Proof. intros (d1 & x & [= <- <-] & Hx). by apply Hx. Qed.

Lemma feeds_counted `{Profile} ps d : listening d → fits (push (concat ps) d) → counted d (feeds ps d) ∧
  ∀ d' o, feeds ps d = Ret (d', Ok o) → listening d'.
Proof.
  revert d. induction ps as [|p ps IH]; intros d Hl Hf.
  - pose proof (ok_emitted d (ls_ok d Hl)). split; [|by intros d' o [= <- _]]. eexists _, _. split; [done|]. intros o [= <-]. rewrite len_nil. lia.
  - cbn [concat] in Hf. assert (fits (push p d)) as Hfp.
    { unfold fits in *. rewrite push_buf, !len_app in *. pose proof (len_nonneg (concat ps)). lia. }
    pose proof (push_listening p d Hl Hfp) as Hlp. cbn [feeds]. unfold feed. pose proof (read_counted (push p d) (ls_ok _ Hlp) Hfp) as (d1 & [o1|e] & E & Hc); rewrite E; cbn [answered_bind].
    + destruct (Hc o1 eq_refl) as [Hc1 _]. destruct (read_keeps _ _ _ Hlp E) as [Hl1 Hb].
      destruct (IH d1 Hl1) as [(d2 & [o2|e] & E2 & Hc2) Hk]; [apply (push_fits _ (push p d)); [by rewrite push_push|done]| |]; rewrite E2 in Hk |- *; cbn [answered_bind].
      * destruct (Hc2 o2 eq_refl) as [Hc3 Hc4]. split; [|intros d' o [= <- _]; by eapply Hk]. eexists _, _. split; [done|]. intros o [= <-]. rewrite len_app.
        change (emitted (push p d)) with (emitted d) in Hc1. lia.
      * by split; [eexists _, _|].
    + by split; [eexists _, _|].
Qed.

(** ** Closing *)

Lemma close_facts d : the_head (close d) = the_head d ∧ buf (close d) = buf d ∧ emitted (close d) = emitted d.
Proof. unfold close. cbn. destruct (the_head d) as [h|] eqn:E, (the_framing d), (buf d) eqn:Eb; cbn; by rewrite ?E, ?Eb. Qed.

Lemma close_ok d : decoder_ok d → decoder_ok (close d).
Proof. intros [H1 H2 H3 H4 H5 H6]. unfold close. cbn. destruct (the_head d) as [h|] eqn:E, (the_framing d) eqn:Ef, (buf d) eqn:Eb; split; cbn; rewrite ?E, ?Ef, ?Eb; done. Qed.

Lemma close_scan s d : close (set_scan s d) = set_scan s (close d).
Proof. unfold close. cbn. by destruct (the_head d), (the_framing d), (buf d). Qed.

Lemma close_same d d' : set_scan 0 d = set_scan 0 d' → set_scan 0 (close d) = set_scan 0 (close d').
Proof. intros E. by rewrite <- !close_scan, E. Qed.

(** C10: cutting a response into other pieces changes nothing.  Whatever the bytes are and
    however they are cut, valid or not, in a build that checks overflow or in one that wraps,
    a decoder that is given the pieces one after another, and the end of the connection after
    the last, ends with the same body, head, trailers and completeness, or with the same
    error, as one that is given all the bytes at once; it never panics and hands out at most
    16 MiB. *)
Theorem response_in_pieces `{Profile} pieces :
  len (concat pieces) ≤ isize_max →
  outcome_of (decode_stream pieces) = outcome_of (decode_stream [concat pieces]) ∧
  ∃ r, outcome_of (decode_stream pieces) = Some r ∧ ∀ d o, r = Ok (d, o) → len o ≤ MAX_DECODED_BODY_BYTES.
Proof.
  intros Hlen. assert (listening ResponseDecoder_new) as Hn by (split; [apply new_ok|done|vm_compute; discriminate]).
  assert (∀ ps, len (concat ps) ≤ isize_max → fits (push (concat ps) ResponseDecoder_new)) as Hf by done. split.
  - destruct pieces as [|p ps]; [reflexivity|]. unfold decode_stream. cbn [concat] in *. apply outcome_of_bind.
    + rewrite feeds_concat by (done || by apply (Hf (p :: ps))). cbn [feeds]. destruct (feed _ _) as [[d [o|e]]|]; [|done..]. cbn. by rewrite app_nil_r.
    + intros d d' o E E' Es. destruct (feeds_counted (p :: ps) _ Hn (Hf (p :: ps) Hlen)) as [_ Hl]. apply Hl in E.
      destruct (feeds_counted [p ++ concat ps] ResponseDecoder_new Hn) as [_ Hl']; [cbn [concat]; rewrite app_nil_r; by apply (Hf (p :: ps))|]. apply Hl' in E'.
      destruct (close_facts d) as (_ & Eb & _). apply prepend_outcome, read_body_same; [apply close_ok, E|apply close_ok, E'| |by apply close_same].
      unfold fits. rewrite Eb. apply E.
  - destruct (feeds_counted pieces _ Hn (Hf pieces Hlen)) as [(d & [o|e] & E & Hc) Hl]; unfold decode_stream; rewrite E; cbn [answered_bind]; [|by eexists].
    destruct (Hc o eq_refl) as [H1 _]. pose proof (Hl d o E) as [Hd _ Hfd]. destruct (close_facts d) as (_ & Eb & Ee).
    destruct (read_counted (close d)) as (d2 & [o2|e] & E2 & Hc2); [by apply close_ok|by unfold fits; rewrite Eb| |]; rewrite E2; [|by eexists].
    destruct (Hc2 o2 eq_refl) as [H2 H3]. eexists. split; [done|]. intros d' o' [= _ <-]. rewrite len_app. change (emitted ResponseDecoder_new) with 0 in H1. rewrite Ee in H2. lia.
Qed.

(** A response in chunks with a trailer, cut inside a chunk and inside an end of line. *)
Definition sample_response : list Z :=
  as_bytes "HTTP/1.1 200 OK" ++ CRLF ++ as_bytes "Transfer-Encoding: chunked" ++ CRLF ++ CRLF ++
  as_bytes "5" ++ CRLF ++ as_bytes "hello" ++ CRLF ++ as_bytes "0" ++ CRLF ++ as_bytes "X: y" ++ CRLF ++ CRLF.

Lemma response_in_pieces_witness :
  let pieces := [take 50 sample_response; take 5 (drop 50 sample_response); drop 55 sample_response] in
  @outcome_of _ (@decode_stream true pieces) = @outcome_of _ (@decode_stream true [sample_response]) ∧
  ∃ d, @outcome_of _ (@decode_stream true pieces) = Some (Ok (d, as_bytes "hello")) ∧ complete d = true ∧ trailers d = [("X", "y")]%string.
Proof.
  cbv zeta. split.
  - exact (proj1 (@response_in_pieces true [take 50 sample_response; take 5 (drop 50 sample_response); drop 55 sample_response] ltac:(vm_compute; discriminate))).
  - eexists. split; [vm_compute; reflexivity|]. split; reflexivity.
Defined.
