(* ===== verification/Http1Roundtrip.v ===== *)
(** * Http1Roundtrip: a message written is the message read

    The text of a head is its lines joined by CRLF; what is written is that text, an empty
    line and the body.  [find_header_end], [split_start_line] and [parse_headers] take it
    apart again, and the framing that was written is the one the body is read with. *)

From Stdlib Require String.
From S2P Require Import Prelude Text Utf8 Bytes Http1 Http1Decoder Http1Theory Http1Stream.

Local Open Scope Z_scope.
Local Open Scope cruft_scope.

(** ** Lines *)

Definition crlf : string := String (byte 13) (String (byte 10) EmptyString).

Definition line_char (a : char) : bool := negb ((code a =? 13) || (code a =? 10)).

(** Text without carriage returns and line feeds. *)
Definition on_one_line (s : string) : Prop := string_forallb line_char s = true.

Definition bare (l : list Z) : Prop := Forall (λ b, b ≠ 13 ∧ b ≠ 10) l.

Lemma bare_line s : on_one_line s → bare (as_bytes s).
Proof.
  intros Hs. apply Forall_fmap, Forall_forall. intros a Ha. cbn. unfold on_one_line in Hs. rewrite string_forallb_list in Hs. specialize (Hs a Ha).
  unfold line_char in Hs. lia.
Qed.

Fixpoint join_lines (l : list Z) (ls : list (list Z)) : list Z :=
  match ls with [] => l | l' :: ls => l ++ CRLF ++ join_lines l' ls end.

Fixpoint join_text (l : string) (ls : list string) : string :=
  match ls with [] => l | l' :: ls => l +:+ crlf +:+ join_text l' ls end.

Lemma as_bytes_join l ls : as_bytes (join_text l ls) = join_lines (as_bytes l) (as_bytes <$> ls).
Proof. revert l. induction ls as [|l' ls IH]; intros l; [done|]. cbn [join_text join_lines fmap list_fmap]. by rewrite !as_bytes_app, IH. Qed.

Lemma is_str_app s t : is_str s → is_str t → is_str (s +:+ t).
Proof.
  unfold is_str. intros Hs Ht. replace (String.list_ascii_of_string (s +:+ t)) with (String.list_ascii_of_string s ++ String.list_ascii_of_string t); [by apply utf8_app|].
  clear. induction s as [|a s IH]; [done|]. cbn. by rewrite IH.
Qed.

Lemma crlf_str : is_str crlf.
Proof. apply from_utf8_iff. reflexivity. Qed.

Lemma is_str_join l ls : is_str l → Forall is_str ls → is_str (join_text l ls).
Proof.
  intros Hl Hls. revert l Hl. induction Hls as [|l' ls Hl' Hls IH]; intros l Hl; [done|]. cbn [join_text].
  apply is_str_app; [done|]. apply is_str_app; [apply crlf_str|by apply IH].
Qed.

Lemma starts_with_cons c w x l : starts_with (c :: w) (x :: l) = true → x = c.
Proof. rewrite starts_with_true. intros [k Hk]. by injection Hk. Qed.

Lemma starts_with_not c w x l : x ≠ c → starts_with (c :: w) (x :: l) = false.
Proof. intros Hx. apply not_true_iff_false. intros H%starts_with_cons. done. Qed.

Lemma find_past_line w l rest : bare l → find_window (13 :: w) (l ++ rest) = (λ n, (length l + n)%nat) <$> find_window (13 :: w) rest.
Proof.
  intros Hl. apply find_window_app_l. intros q x r ->. apply starts_with_not. unfold bare in Hl. rewrite Forall_app, Forall_cons in Hl. apply Hl.
Qed.

Lemma find_crlf_line l rest : bare l → find_window CRLF (l ++ CRLF ++ rest) = Some (length l).
Proof. intros Hl. unfold CRLF at 1. rewrite find_past_line by done. fold CRLF. rewrite find_window_self. cbn [fmap option_fmap option_map]. by rewrite Nat.add_0_r. Qed.

Lemma find_crlf_none l : bare l → find_window CRLF l = None.
Proof. intros Hl. unfold CRLF. rewrite <-(app_nil_r l), find_past_line by done. done. Qed.

(** The end of a head is the first empty line. *)
Lemma find_header_end_join l ls rest : bare l → Forall (λ x, bare x ∧ x ≠ []) ls →
  find_window header_end (join_lines l ls ++ header_end ++ rest) = Some (length (join_lines l ls)).
Proof.
  intros Hl Hls. revert l Hl. induction Hls as [|l' ls [Hl' Hne] Hls IH]; intros l Hl; cbn [join_lines].
  - unfold header_end at 1. rewrite find_past_line by done. fold header_end. rewrite find_window_self. cbn [fmap option_fmap option_map]. by rewrite Nat.add_0_r.
  - rewrite <- !app_assoc. unfold header_end at 1. rewrite find_past_line by done. fold header_end.
    rewrite find_window_app_l.
    + rewrite IH by done. cbn [fmap option_fmap option_map]. f_equal. rewrite !length_app. cbn. lia.
    + destruct l' as [|c l']; [done|]. assert (c ≠ 13) as Hc by (unfold bare in Hl'; rewrite Forall_cons in Hl'; apply Hl').
      assert (∃ t, join_lines (c :: l') ls ++ header_end ++ rest = c :: t) as [t ->] by (destruct ls; cbn; by eexists).
      intros [|q1 [|q2 q]] x r [=]; subst; try (by apply starts_with_not); [|by destruct q].
      apply not_true_iff_false. rewrite starts_with_true. intros [k Hk]. cbn in Hk. congruence.
Qed.

Lemma split_start_line_join `{Profile} l ls : bare l → len (join_lines l ls) ≤ u64_max →
  split_start_line (join_lines l ls) = Ret (l, match ls with [] => [] | l' :: ls => join_lines l' ls end).
Proof.
  intros Hl Hf. rewrite split_start_line_eq by done. destruct ls as [|l' ls]; cbn [join_lines]; [by rewrite find_crlf_none|].
  rewrite find_crlf_line by done. rewrite take_app_length. by replace (length l + 2)%nat with (length (l ++ CRLF)) by (rewrite length_app; done); rewrite app_assoc, drop_app_length.
Qed.

(** ** Splitting text at its line ends *)

Lemma split_crlf_line s t : on_one_line s → split_crlf (s +:+ crlf +:+ t) = s :: split_crlf t.
Proof.
  unfold on_one_line. induction s as [|a s IH]; intros Hs; [done|]. cbn [string_forallb] in Hs. apply andb_true_iff in Hs as [Ha Hs].
  rewrite string_app_cons. specialize (IH Hs). unfold line_char in Ha. apply negb_true_iff, orb_false_iff in Ha as [Ha _].
  destruct s as [|b s]; [rewrite string_app_nil_l in *; unfold crlf in *; rewrite string_app_cons in *|rewrite string_app_cons in *]; cbn [split_crlf] in *; rewrite Ha; cbn [andb].
  - by rewrite IH.
  - by rewrite IH.
Qed.

Lemma split_crlf_none s : on_one_line s → split_crlf s = [s].
Proof.
  unfold on_one_line. induction s as [|a s IH]; intros Hs; [done|]. cbn [string_forallb] in Hs. apply andb_true_iff in Hs as [Ha Hs].
  specialize (IH Hs). unfold line_char in Ha. apply negb_true_iff, orb_false_iff in Ha as [Ha _].
  destruct s as [|b s]; cbn [split_crlf] in *; [done|]. rewrite Ha. cbn [andb]. by rewrite IH.
Qed.

Lemma split_crlf_join l ls : on_one_line l → Forall on_one_line ls → split_crlf (join_text l ls) = l :: ls.
Proof.
  intros Hl Hls. revert l Hl. induction Hls as [|l' ls Hl' Hls IH]; intros l Hl; cbn [join_text]; [by apply split_crlf_none|].
  rewrite split_crlf_line by done. by rewrite IH.
Qed.

(** ** Header fields *)

Definition header_line (h : string * string) : string := h.1 +:+ ": " +:+ h.2.

(** A field that is written and read back. *)
Record field_ok (h : string * string) : Prop := {
  fo_name_str : is_str h.1;
  fo_value_str : is_str h.2;
  fo_name : validate_header_name h.1 = Ok tt;
  fo_value : validate_header_value h.2 = Ok tt;
  fo_trim : trim h.2 = h.2;
  fo_len : Z.of_nat (String.length (header_line h)) ≤ MAX_HEADER_LINE_BYTES }.

Lemma field_name_byte a : is_field_name_byte a = true → graphic a = true ∧ a ≠ ":"%char ∧ line_char a = true.
Proof.
  destruct a as [b0 b1 b2 b3 b4 b5 b6 b7]. destruct b0, b1, b2, b3, b4, b5, b6, b7; vm_compute; (discriminate || intros _; split_and!; discriminate || done).
Qed.

Lemma name_facts n : validate_header_name n = Ok tt →
  n ≠ ""%string ∧ string_forallb graphic n = true ∧ no_char ":" n = true ∧ on_one_line n.
Proof.
  unfold validate_header_name. case_bool_decide as He; [done|]. destruct (string_forallb is_field_name_byte n) eqn:Hn; [|done]. intros _. split; [done|].
  split_and!; [| |]; refine (string_forallb_impl _ _ _ _ Hn); intros a (H1 & H2 & H3)%field_name_byte; [done| |done].
  by rewrite bool_decide_eq_false_2.
Qed.

Lemma value_one_line v : validate_header_value v = Ok tt → on_one_line v.
Proof.
  unfold validate_header_value. destruct (string_forallb is_value_byte v) eqn:Hv; [|done]. intros _. refine (string_forallb_impl _ _ _ _ Hv).
  intros a. unfold is_value_byte, line_char. rewrite !negb_true_iff, !orb_false_iff. tauto.
Qed.

Lemma header_line_one h : field_ok h → on_one_line (header_line h) ∧ header_line h ≠ ""%string.
Proof.
  intros [_ _ Hn Hv _ _]. apply name_facts in Hn as (Hne & _ & _ & Hn). apply value_one_line in Hv. unfold on_one_line, header_line in *.
  rewrite !string_forallb_app, Hn, Hv. split; [done|]. destruct h as [n v]. cbn in *. by destruct n.
Qed.

Lemma header_line_str h : field_ok h → is_str (header_line h).
Proof. intros [H1 H2 _ _ _ _]. unfold header_line. apply is_str_app; [done|]. apply is_str_app; [apply from_utf8_iff; reflexivity|done]. Qed.

Lemma trim_space v : trim (String " " v) = trim v.
Proof. reflexivity. Qed.

Lemma parse_header_line_ok h out : field_ok h → len out < MAX_HEADER_COUNT → parse_header_line (header_line h) out = Ok (out ++ [h]).
Proof.
  intros Hh Hl. destruct (header_line_one h Hh) as [_ Hne]. destruct Hh as [_ _ Hn Hv Ht Hlen]. unfold parse_header_line.
  rewrite bool_decide_eq_false_2 by done. rewrite (proj2 (Z.ltb_ge _ _)), (proj2 (Z.leb_gt _ _)) by done.
  destruct (name_facts _ Hn) as (_ & Hg & Hc & _). unfold header_line. change (": " +:+ h.2) with (String ":" (String " " h.2)). rewrite split_once_app by done.
  rewrite trim_graphic, bool_decide_eq_true_2 by done. cbn [negb]. rewrite Hn. cbn [result_bind]. rewrite trim_space, Ht, Hv. by destruct h.
Qed.

Lemma parse_header_lines_ok hs out : Forall field_ok hs → len out + len hs ≤ MAX_HEADER_COUNT →
  parse_header_lines (header_line <$> hs) out = Ok (out ++ hs).
Proof.
  intros Hhs. revert out. induction Hhs as [|h hs Hh Hhs IH]; intros out Hl; cbn [fmap list_fmap parse_header_lines]; [by rewrite app_nil_r|].
  rewrite len_cons in Hl. pose proof (len_nonneg hs). rewrite parse_header_line_ok by (done || lia). cbn [result_bind].
  rewrite IH by (rewrite len_app, len_cons, len_nil; lia). by rewrite <-app_assoc.
Qed.

Definition head_text (first : string) (hs : header_list) : list Z := join_lines (as_bytes first) (as_bytes <$> (header_line <$> hs)).

Lemma parse_headers_ok first hs : Forall field_ok hs → len hs ≤ MAX_HEADER_COUNT → len (head_text first hs) ≤ MAX_HEADER_SECTION_BYTES →
  parse_headers (match as_bytes <$> (header_line <$> hs) with [] => [] | l' :: ls => join_lines l' ls end) = Ok hs.
Proof.
  intros Hhs Hc Hl. destruct hs as [|h hs]; [reflexivity|]. cbn [fmap list_fmap]. rewrite <-as_bytes_join. unfold parse_headers, validate_header_section.
  rewrite (proj2 (Z.ltb_ge _ _)).
  2: { unfold head_text in Hl. cbn [fmap list_fmap join_lines] in Hl. rewrite !len_app, <-as_bytes_join in Hl. pose proof (len_nonneg (as_bytes first)). pose proof (len_nonneg CRLF). lia. }
  cbn [result_bind]. pose proof (Forall_impl _ _ _ Hhs header_line_str) as Hstr. apply Forall_cons in Hstr as [Hs1 Hs2].
  pose proof (Forall_impl _ _ _ Hhs header_line_one) as Hone. apply Forall_cons in Hone as [[Ho1 _] Ho2].
  rewrite string_from_as_bytes by (apply is_str_join; [done|by apply Forall_fmap]). rewrite split_crlf_join; [|done|].
  - by apply (parse_header_lines_ok (h :: hs) []).
  - apply Forall_fmap. refine (Forall_impl _ _ _ Ho2 _). by intros x [Hx _].
Qed.

(** ** Reading a head back *)

Section message.
Context `{Profile}.

  (** A first line and fields that fit. *)
Record head_ok (first : string) (hs : header_list) : Prop := {
    ho_str : is_str first;
    ho_line : on_one_line first;
    ho_fields : Forall field_ok hs;
    ho_count : len hs ≤ MAX_HEADER_COUNT;
    ho_len : len (head_text first hs) ≤ MAX_HEADER_SECTION_BYTES }.

Definition message (first : string) (hs : header_list) (body : list Z) : list Z := head_text first hs ++ header_end ++ body.

Lemma head_lines_ok first hs : head_ok first hs →
  bare (as_bytes first) ∧ Forall (λ x, bare x ∧ x ≠ []) (as_bytes <$> (header_line <$> hs)).
Proof.
  intros [_ Hl Hf _ _]. split; [by apply bare_line|]. apply Forall_fmap, Forall_fmap. refine (Forall_impl _ _ _ Hf _). intros h Hh. cbn.
  destruct (header_line_one h Hh) as [H1 H2]. split; [by apply bare_line|]. intros E. apply H2. apply as_bytes_inj. by rewrite E.
Qed.

Lemma message_end first hs body : head_ok first hs →
    find_window header_end (message first hs body) = Some (length (head_text first hs)).
Proof. intros Hh. destruct (head_lines_ok first hs Hh) as [H1 H2]. by apply find_header_end_join. Qed.

Lemma message_header_end first hs body : head_ok first hs →
  find_header_end (message first hs body) = Some (Z.of_nat (length (head_text first hs)) + 4).
Proof.
  intros Hh. unfold find_header_end. rewrite find_header_end_eq by (done || (intros; lia)). change [13; 10; 13; 10] with header_end. by rewrite message_end.
Qed.

Lemma message_head first hs body : head_ok first hs → len (message first hs body) ≤ isize_max →
  head_bytes (message first hs body) (Z.of_nat (length (head_text first hs)) + 4) = Ret (head_text first hs) ∧
  slice_from (message first hs body) (Z.of_nat (length (head_text first hs)) + 4) = Ret body.
Proof.
  intros Hh Hl. unfold message in *. split.
  - rewrite head_bytes_eq; [by rewrite take_app_length|rewrite length_app; lia|unfold isize_max, u64_max in *; lia].
  - rewrite app_assoc. apply slice_from_app. rewrite len_app. unfold len. cbn. lia.
Qed.

Lemma section_valid first hs : head_ok first hs → validate_header_section (head_text first hs) = Ok tt.
Proof. intros Hh. unfold validate_header_section. by rewrite (proj2 (Z.ltb_ge _ _)) by apply Hh. Qed.

Lemma start_line_ok first hs : head_ok first hs →
  split_start_line (head_text first hs) = Ret (as_bytes first, match as_bytes <$> (header_line <$> hs) with [] => [] | l' :: ls => join_lines l' ls end).
Proof.
  intros Hh. destruct (head_lines_ok first hs Hh) as [H1 H2]. apply split_start_line_join; [done|]. destruct Hh as [_ _ _ _ Hl]. unfold head_text in Hl.
  unfold MAX_HEADER_SECTION_BYTES, u64_max in *. lia.
Qed.

Lemma headers_ok first hs : head_ok first hs →
    parse_headers (match as_bytes <$> (header_line <$> hs) with [] => [] | l' :: ls => join_lines l' ls end) = Ok hs.
Proof. intros [_ _ H1 H2 H3]. by apply (parse_headers_ok first). Qed.

Lemma first_line_text first hs : head_ok first hs → string_from_utf8 (as_bytes first) = Some first.
Proof. intros Hh. apply string_from_as_bytes, Hh. Qed.
End message.

(** ** What is written *)

Definition has (name : string) (hs : header_list) : bool := existsb (λ h, bool_decide (to_ascii_lowercase h.1 = name)) hs.

Lemma write_header_lines_ok hs : ∀ out c t, Forall field_ok hs →
  write_header_lines hs out c t =
    Ok (out ++ concat ((λ h, as_bytes (header_line h) ++ CRLF) <$> hs), c || has "content-length" hs, t || has "transfer-encoding" hs).
Proof.
  induction hs as [|[n v] hs IH]; intros out c t Hf; [cbn; by rewrite app_nil_r, !orb_false_r|]. apply Forall_cons in Hf as [Hh Hf].
  pose proof (fo_name _ Hh) as E1. pose proof (fo_value _ Hh) as E2. cbn [fst snd] in E1, E2. cbn [write_header_lines]. rewrite E1, E2. cbn [result_bind]. rewrite IH by done. cbn [fmap list_fmap concat has existsb fst].
  unfold header_line. cbn [fst snd]. rewrite !as_bytes_app, <- !app_assoc. unfold has.
  by destruct c, t, (bool_decide (_ = "content-length"%string)), (bool_decide (_ = "transfer-encoding"%string)).
Qed.

(** The fields a message is written with: its own, and the length of the body when that is
    wanted and they say nothing about framing. *)
Definition sent (hs : header_list) (body : list Z) (auto : bool) : header_list :=
  if auto then hs ++ [("Content-Length", u64_to_string (len body))]%string else hs.

Definition unframed (hs : header_list) : Prop := has "content-length" hs = false ∧ has "transfer-encoding" hs = false.

Lemma text_lines l ls rest : l ++ CRLF ++ concat ((λ x, x ++ CRLF) <$> ls) ++ CRLF ++ rest = join_lines l ls ++ header_end ++ rest.
Proof.
  revert l. induction ls as [|l' ls IH]; intros l; cbn [fmap list_fmap concat join_lines]; [done|]. rewrite <- !app_assoc. do 2 f_equal. apply IH.
Qed.

Lemma written first hs body : as_bytes first ++ CRLF ++ concat ((λ h, as_bytes (header_line h) ++ CRLF) <$> hs) ++ CRLF ++ body = message first hs body.
Proof. unfold message, head_text. rewrite <-text_lines. do 4 f_equal. induction hs as [|h hs IH]; cbn; by rewrite ?IH. Qed.

Lemma sent_lines hs body auto : concat ((λ h, as_bytes (header_line h) ++ CRLF) <$> sent hs body auto) =
  concat ((λ h, as_bytes (header_line h) ++ CRLF) <$> hs) ++ if auto then as_bytes "Content-Length: " ++ as_bytes (u64_to_string (len body)) ++ CRLF else [].
Proof. unfold sent. destruct auto; [|by rewrite app_nil_r]. rewrite fmap_app, concat_app. cbn [fmap list_fmap concat]. by rewrite app_nil_r. Qed.

Lemma write_headers_ok out hs body auto : Forall field_ok hs → unframed hs →
  write_headers out hs (len body) auto = Ok (out ++ concat ((λ h, as_bytes (header_line h) ++ CRLF) <$> sent hs body auto)).
Proof.
  intros Hf [Hc Ht]. unfold write_headers. rewrite write_header_lines_ok by done. cbn [result_bind]. rewrite Hc, Ht, sent_lines. cbn [orb andb negb].
  destruct auto; cbn [andb]; [by rewrite <- !app_assoc|by rewrite app_nil_r].
Qed.

(** ** The framing that was written *)

Lemma values_none hs name : has (to_ascii_lowercase name) hs = false → case_insensitive_values hs name = [].
Proof.
  unfold case_insensitive_values, has. cbv zeta. induction hs as [|h hs IH]; [done|]. cbn [existsb]. rewrite orb_false_iff, bool_decide_eq_false. intros [H1 H2].
  cbn [filter list_filter]. rewrite decide_False by done. by apply IH.
Qed.

Lemma values_app hs k name : case_insensitive_values (hs ++ k) name = case_insensitive_values hs name ++ case_insensitive_values k name.
Proof.
  unfold case_insensitive_values. cbv zeta. induction hs as [|h hs IH]; [done|]. cbn [filter list_filter app]. destruct (decide _); [|exact IH].
  cbn [fmap list_fmap app]. f_equal. exact IH.
Qed.

Lemma digit_graphic a : is_ascii_digit a = true → graphic a = true.
Proof. unfold is_ascii_digit, graphic. rewrite !code_in_true. lia. Qed.

Lemma trim_number z : trim (u64_to_string z) = u64_to_string z.
Proof. apply trim_graphic. refine (string_forallb_impl _ _ _ digit_graphic _). apply u64_to_string_digits. Qed.

Lemma sent_te hs body auto : unframed hs → transfer_encoding (sent hs body auto) = Ok None.
Proof.
  intros [_ Ht]. unfold transfer_encoding. rewrite values_none; [done|]. change (to_ascii_lowercase "transfer-encoding") with "transfer-encoding"%string.
  unfold sent. destruct auto; [|done]. unfold has in *. by rewrite existsb_app, Ht.
Qed.

Lemma sent_cl hs body auto : unframed hs → len body ≤ MAX_DECODED_BODY_BYTES →
  content_length (sent hs body auto) = Ok (if auto then Some (len body) else None).
Proof.
  intros [Hc _] Hb. unfold content_length, sent. destruct auto; [|by rewrite values_none].
  rewrite values_app, values_none by done. change (case_insensitive_values [(_, ?x)] _) with [x]. cbn [app].
  cbn [same_content_length result_bind]. rewrite trim_number, parse_u64_to_string; [done|]. pose proof (len_nonneg body). unfold MAX_DECODED_BODY_BYTES, u64_max in *. lia.
Qed.

Lemma sent_framing hs body auto : unframed hs → len body ≤ MAX_DECODED_BODY_BYTES →
  decode_framing (sent hs body auto) = Ok (if auto then Some (Length (len body)) else None).
Proof.
  intros Hu Hb. unfold decode_framing. rewrite sent_te, sent_cl by done. cbn [result_bind]. destruct auto; [|done].
  unfold checked_body_len. by rewrite (proj2 (Z.ltb_ge _ _)).
Qed.

Lemma sent_not_chunked hs body auto : unframed hs → existsb mentions_chunked (sent hs body auto) = false.
Proof.
  intros [_ Ht]. assert (existsb mentions_chunked hs = false) as E.
  { revert Ht. unfold has, mentions_chunked, eq_ignore_ascii_case. induction hs as [|h hs IH]; [done|]. cbn [existsb].
    change (to_ascii_lowercase "transfer-encoding") with "transfer-encoding"%string. rewrite !orb_false_iff. intros [-> H2]. split; [done|by apply IH]. }
  unfold sent. destruct auto; [|done]. by rewrite existsb_app, E.
Qed.

(** ** Requests and responses *)

Definition request_line (method target : string) : string := method +:+ String " " (target +:+ String " " "HTTP/1.1").

Definition response_line (status : Z) (reason : string) : string := "HTTP/1.1" +:+ String " " (u64_to_string status +:+ String " " reason).

Definition omits_length (method : string) (body : list Z) : bool := bool_decide (body = []) && method_omits_bodyless_content_length method.

(** A request that can be written: its head fits, its method and target hold no space, and its
    fields leave the framing to the codec. *)
Record request_ok (method target : string) (hs : header_list) (body : list Z) : Prop := {
  rqo_method : no_char " " method = true;
  rqo_target : no_char " " target = true;
  rqo_fields : unframed hs;
  rqo_head : head_ok (request_line method target) (sent hs body (negb (omits_length method body)));
  rqo_body : len body ≤ MAX_DECODED_BODY_BYTES }.

Record response_ok (status : Z) (reason : string) (hs : header_list) (body : list Z) : Prop := {
  rso_status : 0 ≤ status ≤ u16_max;
  rso_fields : unframed hs;
  rso_head : head_ok (response_line status reason) (sent hs body true);
  rso_body : len body ≤ MAX_DECODED_BODY_BYTES }.

Lemma sent_own hs body auto : Forall field_ok (sent hs body auto) → Forall field_ok hs.
Proof. unfold sent. destruct auto; [|done]. by intros [? _]%Forall_app. Qed.

Lemma request_written method target hs body : request_ok method target hs body →
  try_serialize_request method target hs body = Ok (message (request_line method target) (sent hs body (negb (omits_length method body))) body).
Proof.
  intros [_ _ Hu [_ _ Hf _ _] _]. unfold try_serialize_request. rewrite (write_headers_ok _ hs body) by (done || by eapply sent_own). cbn [result_bind]. f_equal.
  rewrite <-written. unfold request_line. rewrite !as_bytes_app. change (String " " ?x) with (" " +:+ x). rewrite !as_bytes_app. by rewrite <- !app_assoc.
Qed.

Lemma response_written status reason hs body : response_ok status reason hs body →
  try_serialize_response status reason hs body = Ok (message (response_line status reason) (sent hs body true) body).
Proof.
  intros [_ Hu [_ _ Hf _ _] _]. unfold try_serialize_response. rewrite (write_headers_ok _ hs body) by (done || by eapply sent_own). cbn [result_bind]. f_equal.
  rewrite <-written. unfold response_line, status_line. rewrite !as_bytes_app. change (String " " ?x) with (" " +:+ x). rewrite !as_bytes_app. by rewrite <- !app_assoc.
Qed.

Lemma parse_uint_to_string max z : 0 ≤ z ≤ max → parse_uint max (u64_to_string z) = Some z.
Proof.
  intros Hz. rewrite parse_uint_digits by auto using u64_to_string_digits, u64_to_string_not_nil.
  pose proof (DecimalN.Unsigned.of_to (Z.to_N z)) as E. unfold N.of_uint in E. unfold u64_to_string. rewrite parse_digits_of_uint; rewrite ?E, ?Z2N.id; try done; lia.
Qed.

Lemma splitn_three a b c : no_char " " a = true → no_char " " b = true → splitn 3 " " (a +:+ String " " (b +:+ String " " c)) = [a; b; c].
Proof. intros Ha Hb. cbn [splitn]. by rewrite !split_once_app. Qed.

Lemma status_no_space z : no_char " " (u64_to_string z) = true.
Proof.
  refine (string_forallb_impl _ _ _ _ (u64_to_string_digits z)). intros a Ha. apply code_in_true in Ha. rewrite bool_decide_eq_false_2; [done|].
  intros ->. vm_compute in Ha. by destruct Ha as [Ha _].
Qed.

Section roundtrip.
Context `{Profile}.

Lemma decode_sent hs body auto : unframed hs → len body ≤ MAX_DECODED_BODY_BYTES → (auto = false → body = []) →
  decode_body_exact (sent hs body auto) body = Ret (Ok body).
Proof.
  intros Hu Hb Ha. unfold decode_body_exact, decode_body. rewrite sent_framing by done. cbn [fallible_bind]. destruct auto.
  - rewrite Z.eqb_refl. cbn [negb]. unfold checked_body_len. rewrite (proj2 (Z.ltb_ge _ _)) by done. cbn [fallible_bind]. rewrite Z.ltb_irrefl.
    rewrite slice_ok by (pose proof (len_nonneg body); lia). cbn [outcome_bind]. rewrite Z.sub_0_r, drop_0. unfold len. by rewrite Nat2Z.id, firstn_all.
  - rewrite (Ha eq_refl). reflexivity.
Qed.

Lemma parse_request_message method target hs body : no_char " " method = true → no_char " " target = true →
  head_ok (request_line method target) hs → existsb mentions_chunked hs = false → decode_body_exact hs body = Ret (Ok body) →
  len (message (request_line method target) hs body) ≤ isize_max →
  parse_request (message (request_line method target) hs body) =
    Ret (Ok (Some {| rq_method := method; rq_target := target; rq_version := "HTTP/1.1"; rq_headers := hs; rq_body := body; rq_trailers := [] |})).
Proof.
  intros Hm Ht Hh Hc Hd Hl. unfold parse_request. rewrite message_header_end by done. destruct (message_head _ hs body Hh Hl) as [-> E2]. cbn [outcome_bind].
  rewrite section_valid by done. cbn [fallible_bind]. rewrite E2. cbn [outcome_bind]. rewrite start_line_ok by done. cbn [outcome_bind fst snd].
  rewrite (first_line_text _ hs) by done. unfold request_line at 1. rewrite splitn_three by done. cbn [validate_http_version bool_decide fallible_bind].
  unfold validate_http_version. rewrite bool_decide_eq_true_2 by done. cbn [fallible_bind]. rewrite (headers_ok _ hs) by done. cbn [fallible_bind]. rewrite Hd. cbn [fallible_bind].
  by rewrite Hc.
Qed.

Lemma parse_head_message status reason hs : 0 ≤ status ≤ u16_max → head_ok (response_line status reason) hs →
  parse_head_section (head_text (response_line status reason) hs) = Ret (Ok {| version := "HTTP/1.1"; status := status; reason := reason; headers := hs |}).
Proof.
  intros Hs Hh. unfold parse_head_section. rewrite section_valid by done. cbn [fallible_bind]. rewrite start_line_ok by done. cbn [outcome_bind fst snd].
  rewrite (first_line_text _ hs) by done. unfold response_line at 1. rewrite splitn_three by (done || apply status_no_space).
  unfold validate_http_version. rewrite bool_decide_eq_true_2 by done. cbn [fallible_bind]. rewrite parse_uint_to_string by done.
  rewrite (headers_ok _ hs) by done. done.
Qed.

Lemma message_consumed first hs body rest n : head_ok first hs → len (message first hs (body ++ rest)) ≤ isize_max →
  decode_framing hs = Ok n → n = (if bool_decide (body = []) then n else Some (Length (len body))) → (n = None ∨ n = Some (Length (len body))) →
  message_consumed_len (message first hs (body ++ rest)) = Ret (Ok (len (message first hs body))).
Proof.
  intros Hh Hl Hf Hn Hcase. unfold message_consumed_len. rewrite message_header_end by done. destruct (message_head _ hs (body ++ rest) Hh Hl) as [-> E2].
  cbn [outcome_bind]. rewrite section_valid by done. cbn [fallible_bind]. rewrite start_line_ok by done. cbn [outcome_bind fst snd].
  rewrite (headers_ok _ hs) by done. cbn [fallible_bind]. rewrite Hf. cbn [fallible_bind].
  assert (len (message first hs body) = Z.of_nat (length (head_text first hs)) + 4 + len body) as El by (unfold message; rewrite !len_app; unfold len; cbn; lia).
  destruct Hcase as [->| ->].
  - case_bool_decide as Eb; [|done]. do 2 f_equal. rewrite El, Eb, len_nil. lia.
  - rewrite E2. cbn [outcome_bind]. rewrite len_app, (proj2 (Z.ltb_ge _ _)) by (pose proof (len_nonneg rest); lia).
    unfold message in Hl. rewrite !len_app in Hl. unfold isize_max in Hl. change (len header_end) with 4 in Hl. rewrite add64_exact; [cbn [outcome_bind]; by rewrite El|].
    pose proof (len_nonneg body). pose proof (len_nonneg rest). unfold u64_max, len in *. lia.
Qed.

Lemma decode_written first status reason hs body : first = response_line status reason → 0 ≤ status ≤ u16_max → 200 ≤ status → status ≠ 204 → status ≠ 304 →
  head_ok first hs → decode_framing hs = Ok (Some (Length (len body))) → len body ≤ MAX_DECODED_BODY_BYTES → len (message first hs body) ≤ isize_max →
  ∃ d, decode_stream [message first hs body] = Ret (d, Ok body) ∧ complete d = true ∧
    the_head d = Some {| version := "HTTP/1.1"; Http1.status := status; reason := reason; headers := hs |}.
Proof.
  intros -> Hs H200 H204 H304 Hh Hf Hb Hl. set (h := {| version := "HTTP/1.1"; Http1.status := status; reason := reason; headers := hs |}).
  set (m := length (head_text (response_line status reason) hs)). set (d0 := push (message (response_line status reason) hs body) ResponseDecoder_new).
  assert (decoder_ok d0) as Hd0 by apply push_ok, new_ok. assert (fits d0) as Hf0 by done.
  assert (∃ d, read_body d0 = Ret (d, Ok body) ∧ complete d = true ∧ the_head d = Some h) as (d & E & Hc & Hhd).
  { rewrite read_body_fresh by done. change (buf d0) with (message (response_line status reason) hs body). rewrite message_end by done. fold m.
    replace (take m (message (response_line status reason) hs body)) with (head_text (response_line status reason) hs) by (symmetry; apply take_app_length).
    rewrite parse_head_message by done. cbn [try outcome_bind answered_bind]. fold h.
    assert (body_framing h = Ok (Length (len body))) as ->.
    { unfold body_framing. cbn [Http1.status headers h]. rewrite (proj2 (Z.ltb_ge _ _)), !(proj2 (Z.eqb_neq _ _)) by done. cbn [orb]. by rewrite Hf. }
    cbn [answered_bind]. assert (buf (opened m h (Length (len body)) d0) = body) as Eb.
    { destruct (opened_head m h (Length (len body)) d0) as (_ & _ & -> & _). change (buf d0) with (message (response_line status reason) hs body).
      unfold message. rewrite app_assoc. replace (m + 4)%nat with (length (head_text (response_line status reason) hs ++ header_end)) by (rewrite length_app; done).
      apply drop_app_length. }
    unfold opened in *. cbn [no_body] in *. destruct (Z.eqb_spec (len body) 0) as [Ez|Ez].
    - unfold Http1Stream.body. cbn [complete set_complete]. destruct body as [|x l]; [|rewrite len_cons in Ez; pose proof (len_nonneg l); lia].
      eexists. split; [reflexivity|done].
    - cbn [buf set_buf set_head] in Eb. unfold Http1Stream.body. cbn [complete set_buf set_head the_framing emitted buf]. rewrite Eb.
      change (complete d0) with false. change (emitted d0) with 0. change (closed _) with false. cbv iota. rewrite (proj2 (Z.ltb_ge _ _)) by done. cbv zeta.
      rewrite Z.sub_0_r, Z.min_id, Z.add_0_l, Z.eqb_refl. replace (Z.to_nat (len body)) with (length body) by (unfold len; lia). rewrite firstn_all.
      eexists. split; [reflexivity|done]. }
  exists (close d). unfold decode_stream. cbn [feeds]. unfold feed. fold d0. rewrite E. cbn [answered_bind]. destruct (close_facts d) as (E1 & E2 & E3).
  assert (complete (close d) = true) as Hcc by (unfold close; cbn; rewrite Hhd; by destruct (the_framing d), (buf d)).
  unfold read_body, head. rewrite E1, Hhd. cbn [answered_bind]. rewrite Hcc. cbn [answered_bind]. by rewrite !app_nil_r.
Qed.
End roundtrip.

Lemma message_fits first hs body : head_ok first hs → len body ≤ MAX_DECODED_BODY_BYTES → len (message first hs body) ≤ isize_max.
Proof.
  intros [_ _ _ _ Hl] Hb. unfold message. rewrite !len_app. change (len header_end) with 4. unfold MAX_HEADER_SECTION_BYTES, MAX_DECODED_BODY_BYTES, isize_max in *. lia.
Qed.

Lemma message_app first hs body rest : message first hs body ++ rest = message first hs (body ++ rest).
Proof. unfold message. by rewrite <- !app_assoc. Qed.

(** C27: what [try_serialize_request] writes for a request that fits the limits,
    [parse_request] reads back: method, target, fields (with the length of the body, where it
    is written) and body; and whatever follows it on the connection, [message_consumed_len]
    finds where it ends.  What [try_serialize_response] writes, [parse_response] reads back,
    and so does a [ResponseDecoder], which is then complete, unless the status says that
    there is no body.  This holds in either build profile. *)
Theorem http1_roundtrip `{Profile} :
  (∀ method target hs body, request_ok method target hs body →
    ∃ bytes, try_serialize_request method target hs body = Ok bytes ∧
      parse_request bytes =
        Ret (Ok (Some {| rq_method := method; rq_target := target; rq_version := "HTTP/1.1";
                         rq_headers := sent hs body (negb (omits_length method body)); rq_body := body; rq_trailers := [] |})) ∧
      ∀ rest, len (bytes ++ rest) ≤ isize_max → message_consumed_len (bytes ++ rest) = Ret (Ok (len bytes))) ∧
  (∀ status reason hs body, response_ok status reason hs body →
    ∃ bytes, try_serialize_response status reason hs body = Ok bytes ∧
      parse_response bytes =
        Ret (Ok {| rs_version := "HTTP/1.1"; rs_status := status; rs_reason := reason; rs_headers := sent hs body true; rs_body := body |}) ∧
      (200 ≤ status → status ≠ 204 → status ≠ 304 →
        ∃ d, decode_stream [bytes] = Ret (d, Ok body) ∧ complete d = true ∧
          the_head d = Some {| version := "HTTP/1.1"; Http1.status := status; reason := reason; headers := sent hs body true |})).
Proof.
  split.
  - intros method target hs body Hr. eexists. split; [by apply request_written|]. destruct Hr as [Hm Ht Hu Hh Hb].
    assert (negb (omits_length method body) = false → body = []) as Ho.
    { intros E%negb_false_iff. unfold omits_length in E. apply andb_true_iff in E as [E _]. by apply bool_decide_eq_true in E. }
    split.
    + apply parse_request_message; [done|done|done|by apply sent_not_chunked|by apply decode_sent|by apply message_fits].
    + intros rest Hl. rewrite message_app in *. apply (message_consumed _ _ _ _ (if negb (omits_length method body) then Some (Length (len body)) else None)); [done|done|by apply sent_framing| |].
      * destruct (negb _); [by case_bool_decide|]. by rewrite (Ho eq_refl).
      * destruct (negb _); [by right|by left].
  - intros status reason hs body Hr. eexists. split; [by apply response_written|]. destruct Hr as [Hs Hu Hh Hb].
    pose proof (message_fits _ _ _ Hh Hb) as Hl. split.
    + unfold parse_response. rewrite message_header_end by done. destruct (message_head _ _ body Hh Hl) as [-> E2]. cbn [outcome_bind].
      rewrite parse_head_message by done. cbn [fallible_bind]. rewrite E2. cbn [outcome_bind headers]. by rewrite decode_sent.
    + intros H200 H204 H304. apply (decode_written _ status reason); try done. by rewrite sent_framing.
Qed.

(** A field can be checked by computing. *)
Definition field_okb (h : string * string) : bool :=
  from_utf8 (String.list_ascii_of_string h.1) && from_utf8 (String.list_ascii_of_string h.2) &&
  is_ok (validate_header_name h.1) && is_ok (validate_header_value h.2) && bool_decide (trim h.2 = h.2) &&
  (Z.of_nat (String.length (header_line h)) <=? MAX_HEADER_LINE_BYTES).

Lemma field_okb_true h : field_okb h = true → field_ok h.
Proof.
  unfold field_okb. rewrite !andb_true_iff, !from_utf8_iff, bool_decide_eq_true, Z.leb_le. intros (((((H1 & H2) & H3) & H4) & H5) & H6).
  split; try done; [by destruct (validate_header_name h.1) as [[]|]|by destruct (validate_header_value h.2) as [[]|]].
Qed.

Lemma fields_checked hs : forallb field_okb hs = true → Forall field_ok hs.
Proof. rewrite forallb_forall. intros Hf. apply Forall_forall. intros h Hh. by apply field_okb_true, Hf, list_elem_of_In. Qed.

Lemma http1_roundtrip_witness :
  request_ok "POST" "/x?y=1" [("Host", "a.b")]%string [104; 105] ∧
  ∃ bytes, try_serialize_request "POST" "/x?y=1" [("Host", "a.b")]%string [104; 105] = Ok bytes ∧
    @message_consumed_len true (bytes ++ [71; 69; 84]) = Ret (Ok (len bytes)).
Proof.
  assert (request_ok "POST" "/x?y=1" [("Host", "a.b")]%string [104; 105]) as Hr.
  { split; [reflexivity|reflexivity|by split| |vm_compute; discriminate].
    split; [apply from_utf8_iff; reflexivity|reflexivity|apply fields_checked; reflexivity|vm_compute; discriminate..]. }
  split; [exact Hr|]. destruct (proj1 (@http1_roundtrip true) _ _ _ _ Hr) as (bytes & E & _ & Hc). exists bytes. split; [exact E|].
  apply Hc. vm_compute in E. injection E as <-. vm_compute. discriminate.
Defined.
