(* ===== verification/Http1Chunked.v ===== *)
(** * Http1Chunked: the chunked coding, and messages nobody can make ambiguous

    The loops over chunks end, within the buffer and the limits; once a body has been
    decoded, the search for its trailers ends too.  From this: every byte string is a request
    with one framing or an error ([request_framing_safe]).  The end of the file shows
    where the codec is laxer than it means to be. *)

From Stdlib Require String.
From S2P Require Import Prelude Text Utf8 Bytes Http1 Http1Decoder Http1Theory Http1Stream Http1Roundtrip.

Local Open Scope Z_scope.
Local Open Scope cruft_scope.

(** ** Positions *)

Section loops.
Context `{Profile} (bytes : list Z) (Hsmall : len bytes ≤ isize_max).

  (** What [parse_chunk_size_line] reads at position [i], and where the line ends. *)
Definition size_at (i : Z) (rel : nat) (size : Z) : Prop :=
    find_window CRLF (drop (Z.to_nat i) bytes) = Some rel ∧ parse_chunk_size_line (take rel (drop (Z.to_nat i) bytes)) = Ok size.

Lemma rel_bound i rel : 0 ≤ i ≤ len bytes → find_window CRLF (drop (Z.to_nat i) bytes) = Some rel → i + Z.of_nat rel + 2 ≤ len bytes.
Proof. intros Hi Hr%find_window_bound. rewrite length_drop in Hr. cbn [length CRLF] in Hr. unfold len in *. lia. Qed.

  (** The part of a turn that the three loops share: a line, found and cut out. *)
Lemma line_at i rel : 0 ≤ i ≤ len bytes → find_window CRLF (drop (Z.to_nat i) bytes) = Some rel →
  add64 (Z.of_nat rel) i = Ret (i + Z.of_nat rel) ∧ slice bytes i (i + Z.of_nat rel) = Ret (take rel (drop (Z.to_nat i) bytes)) ∧
  add64 (i + Z.of_nat rel) 2 = Ret (i + Z.of_nat rel + 2) ∧ slice_from bytes (i + Z.of_nat rel + 2) = Ret (drop (Z.to_nat (i + Z.of_nat rel + 2)) bytes).
Proof.
  intros Hi Hr. pose proof (rel_bound i rel Hi Hr) as Hb. unfold isize_max in Hsmall. split_and!.
  - rewrite add64_exact by (unfold u64_max; lia). f_equal. lia.
  - rewrite slice_ok by lia. by replace (Z.to_nat (i + Z.of_nat rel - i)) with rel by lia.
  - by rewrite add64_exact by (unfold u64_max; lia).
  - by rewrite slice_from_ok by lia.
Qed.

Definition decode_next (s s' : chunk_state) : Prop :=
    ∃ rel size, size_at (at_ s) rel size ∧ 0 < size ∧ at_ s' = at_ s + Z.of_nat rel + 2 + size + 2 ∧ at_ s' ≤ len bytes ∧
      len (decoded s') = len (decoded s) + size ∧ len (decoded s') ≤ MAX_DECODED_BODY_BYTES.

Definition decode_turned (s : chunk_state) (r : result (turn chunk_state (list Z)) CodecError) : Prop :=
    match r with
    | Ok (Next s') => decode_next s s'
    | Ok (Answer out) => out = decoded s ∧ ∃ rel, size_at (at_ s) rel 0
    | Err _ => True
    end.

Lemma decode_turn_total s : 0 ≤ at_ s ≤ len bytes → ∃ r, chunked_decode_turn bytes s = Ret r ∧ decode_turned s r.
Proof.
  intros Hi. unfold chunked_decode_turn. rewrite slice_from_ok by done. cbn [outcome_bind].
  destruct (find_window CRLF _) as [rel|] eqn:Er; [|by eexists]. destruct (line_at _ rel Hi Er) as (-> & E2 & E3 & E4). pose proof (rel_bound _ rel Hi Er) as Hb.
  cbn [outcome_bind]. rewrite E2. cbn [outcome_bind]. destruct (parse_chunk_size_line _) as [size|e] eqn:Ep; [|by eexists]. cbn [fallible_bind]. rewrite E3. cbn [outcome_bind].
  pose proof (parse_chunk_size_bound _ _ Ep) as Hz. destruct (Z.eqb_spec size 0) as [->|Hne].
  { rewrite E4. cbn [outcome_bind]. assert (decode_turned s (Ok (Answer (decoded s)))) as Hout by (split; [done|]; by exists rel).
    destruct (starts_with _ _); [by eexists|]. destruct (find_window CRLF (drop (Z.to_nat (_ + 2)) _)); [by eexists|]. eexists. split; [reflexivity|exact I]. }
  destruct (_ <=? _); [by eexists|]. destruct (checked_add_body_len _ _) as [k|] eqn:Ek; [|by eexists]. apply checked_add_Ok in Ek as [_ Hk]. cbn [fallible_bind].
  pose proof (len_nonneg (decoded s)). rewrite add64_exact by (unfold MAX_DECODED_BODY_BYTES, isize_max, u64_max in *; lia). cbn [outcome_bind].
  destruct (Z.ltb_spec (len bytes) (at_ s + Z.of_nat rel + 2 + size)) as [|Hs]; [by eexists|]. rewrite slice_ok by lia. cbn [outcome_bind].
  rewrite add64_exact by (unfold isize_max, u64_max in *; lia). cbn [outcome_bind].
  destruct (Z.ltb_spec (len bytes) (at_ s + Z.of_nat rel + 2 + size + 2)) as [|He]; [by eexists|]. rewrite slice_ok by lia. cbn [outcome_bind].
  destruct (negb _); [by eexists|]. eexists. split; [done|]. exists rel, size. split; [done|]. split; [lia|]. split; [done|]. split; [done|]. cbn [decoded].
  rewrite len_app. set (d := take _ _). assert (len d = size) as -> by (unfold d, len in *; rewrite length_take, length_drop; lia). by split.
Qed.

Lemma trailer_lines_total fuel : ∀ i ts, 0 ≤ i ≤ len bytes → (Z.to_nat (len bytes - i) < fuel)%nat →
  ∃ ts', trailer_lines fuel bytes i ts = Ret (Some ts').
Proof.
  induction fuel as [|fuel IH]; intros i ts Hi Hf; [lia|]. cbn [trailer_lines]. rewrite slice_from_ok by done. cbn [outcome_bind].
  destruct (find_window CRLF _) as [rel|] eqn:Er; [|by eexists]. destruct rel as [|rel]; [by eexists|].
  destruct (line_at _ _ Hi Er) as (E1 & E2 & E3 & _). pose proof (rel_bound _ _ Hi Er) as Hb.
  rewrite add64_exact by (unfold isize_max, u64_max in *; lia). cbn [outcome_bind]. rewrite E2. cbn [outcome_bind]. rewrite E3. cbn [outcome_bind]. apply IH; lia.
Qed.

  (** The trailers after a chunk are those after the next. *)
Lemma trailers_next fuel s s' : 0 ≤ at_ s < len bytes → decode_next s s' →
  chunk_trailers_loop (S fuel) bytes (at_ s) = chunk_trailers_loop fuel bytes (at_ s').
Proof.
  intros Hi (rel & size & [Er Ep] & Hz & -> & He & _). cbn [chunk_trailers_loop]. rewrite (proj2 (Z.ltb_lt _ _)) by lia. cbn [negb].
  rewrite slice_from_ok by lia. cbn [outcome_bind]. rewrite Er. destruct (line_at (at_ s) rel ltac:(lia) Er) as (-> & E2 & E3 & E4).
  cbn [outcome_bind]. rewrite E2. cbn [outcome_bind]. rewrite Ep, E3. cbn [outcome_bind]. rewrite (proj2 (Z.eqb_neq size 0)) by lia.
  pose proof (rel_bound (at_ s) rel ltac:(lia) Er). rewrite add64_exact by (unfold isize_max, u64_max in *; lia). cbn [outcome_bind].
  rewrite add64_exact by (unfold isize_max, u64_max in *; lia). cbn [outcome_bind]. by rewrite (proj2 (Z.ltb_ge _ _)).
Qed.

Lemma trailers_last fuel i rel : 0 ≤ i < len bytes → size_at i rel 0 → ∃ ts, chunk_trailers_loop (S fuel) bytes i = Ret (Some ts).
Proof.
  intros Hi [Er Ep]. cbn [chunk_trailers_loop]. rewrite (proj2 (Z.ltb_lt _ _)) by lia. cbn [negb]. rewrite slice_from_ok by lia. cbn [outcome_bind]. rewrite Er.
  destruct (line_at i rel ltac:(lia) Er) as (-> & E2 & E3 & E4). cbn [outcome_bind]. rewrite E2. cbn [outcome_bind]. rewrite Ep, E3. cbn [outcome_bind].
  change (0 =? 0) with true. cbv iota. pose proof (rel_bound i rel ltac:(lia) Er). apply trailer_lines_total; [lia|unfold len; lia].
Qed.

Lemma decode_loop_total fuel : ∀ s, 0 ≤ at_ s ≤ len bytes → (Z.to_nat (len bytes - at_ s) < fuel)%nat → len (decoded s) ≤ MAX_DECODED_BODY_BYTES →
  ∃ r, chunked_decode_loop fuel bytes s = Ret r ∧
    ∀ out, r = Ok out → len out ≤ MAX_DECODED_BODY_BYTES ∧ ∃ ts, chunk_trailers_loop fuel bytes (at_ s) = Ret (Some ts).
Proof.
  induction fuel as [|fuel IH]; intros s Hi Hf Hd; [lia|]. cbn [chunked_decode_loop]. destruct (Z.ltb_spec (at_ s) (len bytes)) as [Hlt|]; [|by eexists].
  destruct (decode_turn_total s Hi) as (r & -> & Hr). destruct r as [[s'|out]|e]; cbn [fallible_bind]; [| |by eexists].
  - pose proof Hr as (rel & size & [Er _] & Hz & Ha & He & Hl & Hm). destruct (IH s') as (r & E & Hr'); [lia|lia|done|]. exists r. split; [done|].
    intros out ->. destruct (Hr' out eq_refl) as [H1 H2]. split; [done|]. by rewrite (trailers_next fuel s s') by (done || lia).
  - destruct Hr as [-> [rel Hs]]. eexists. split; [done|]. intros out [= <-]. split; [done|]. by eapply trailers_last; [lia|].
Qed.

Lemma chunked_decode_total : ∃ r, chunked_decode bytes = Ret r ∧
    ∀ out, r = Ok out → len out ≤ MAX_DECODED_BODY_BYTES ∧ ∃ ts, parse_chunked_trailers bytes = Ret (Some ts).
Proof. apply decode_loop_total; cbn; [pose proof (len_nonneg bytes); lia|unfold len; lia|rewrite len_nil; unfold MAX_DECODED_BODY_BYTES; lia]. Qed.

Lemma consumed_turn_total s : 0 ≤ c_at s ≤ len bytes → 0 ≤ c_decoded s →
  ∃ r, chunked_consumed_turn bytes s = Ret r ∧
    match r with
    | Ok (Next s') => c_at s < c_at s' ≤ len bytes ∧ 0 ≤ c_decoded s'
    | Ok (Answer n) => 0 ≤ n ≤ len bytes
    | Err _ => True
    end.
Proof.
  intros Hi Hd. unfold chunked_consumed_turn. rewrite slice_from_ok by done. cbn [outcome_bind].
  destruct (find_window CRLF _) as [rel|] eqn:Er; [|by eexists]. destruct (line_at _ rel Hi Er) as (-> & E2 & E3 & E4). pose proof (rel_bound _ rel Hi Er) as Hb.
  cbn [outcome_bind]. rewrite E2. cbn [outcome_bind]. destruct (parse_chunk_size_line _) as [size|e] eqn:Ep; [|by eexists]. cbn [fallible_bind]. rewrite E3. cbn [outcome_bind].
  pose proof (parse_chunk_size_bound _ _ Ep) as Hz. destruct (Z.eqb_spec size 0) as [->|Hne].
  { rewrite E4. cbn [outcome_bind]. set (i := c_at s + Z.of_nat rel + 2) in *. assert (0 ≤ i) as H0 by lia. destruct (starts_with CRLF _) eqn:Es.
    - apply starts_with_true, prefix_length in Es. rewrite length_drop in Es. cbn [length CRLF] in Es.
      rewrite add64_exact by (unfold isize_max, u64_max in *; lia). cbn [outcome_bind]. eexists. split; [done|]. unfold len in *. cbv beta iota. lia.
    - destruct (find_window [13; 10; 13; 10] (drop (Z.to_nat i) bytes)) as [term|] eqn:Et; [|by eexists]. apply find_window_bound in Et. rewrite length_drop in Et. cbn [length] in Et.
      unfold isize_max, u64_max, len in *. rewrite add64_exact by (unfold u64_max; lia). cbn [outcome_bind]. rewrite add64_exact by (unfold u64_max; lia). cbn [outcome_bind]. eexists. split; [done|]. cbv beta iota. lia. }
  destruct (_ <=? _); [by eexists|]. destruct (checked_add_body_len _ _) as [k|] eqn:Ek; [|by eexists]. apply checked_add_Ok in Ek as [-> Hk]. cbn [fallible_bind].
  rewrite add64_exact by (unfold MAX_DECODED_BODY_BYTES, isize_max, u64_max in *; lia). cbn [outcome_bind].
  rewrite add64_exact by (unfold MAX_DECODED_BODY_BYTES, isize_max, u64_max in *; lia). cbn [outcome_bind].
  destruct (Z.ltb_spec (len bytes) (c_at s + Z.of_nat rel + 2 + size + 2)) as [|He]; [by eexists|]. rewrite slice_ok by lia. cbn [outcome_bind].
  destruct (negb _); [by eexists|]. eexists. split; [done|]. cbn. lia.
Qed.

Lemma consumed_loop_total fuel : ∀ s, 0 ≤ c_at s ≤ len bytes → 0 ≤ c_decoded s → (Z.to_nat (len bytes - c_at s) < fuel)%nat →
  ∃ r, chunked_consumed_loop fuel bytes s = Ret r ∧ ∀ n, r = Ok n → 0 ≤ n ≤ len bytes.
Proof.
  induction fuel as [|fuel IH]; intros s Hi Hd Hf; [lia|]. cbn [chunked_consumed_loop]. destruct (Z.ltb_spec (c_at s) (len bytes)) as [Hlt|]; [|by eexists].
  destruct (consumed_turn_total s Hi Hd) as (r & -> & Hr). destruct r as [[s'|n]|e]; cbn [fallible_bind]; [apply IH; lia| |by eexists].
  eexists. split; [done|]. by intros m [= <-].
Qed.

Lemma chunked_consumed_total : ∃ r, chunked_consumed_len bytes = Ret r ∧ ∀ n, r = Ok n → 0 ≤ n ≤ len bytes.
Proof. apply consumed_loop_total; cbn; [pose proof (len_nonneg bytes); lia|lia|unfold len; lia]. Qed.
End loops.

(** ** Chunks written and read back *)

Definition hex_byte (b : Z) : Prop := 48 ≤ b ≤ 57 ∨ 65 ≤ b ≤ 70.

Lemma hex_byte_digit d : 0 ≤ d < 16 → hex_byte (if d <? 10 then d + 48 else d + 55) ∧ hex_digit (byte (if d <? 10 then d + 48 else d + 55)) = Some d.
Proof.
  intros Hd. unfold hex_byte, hex_digit, code_in. rewrite code_byte by (destruct (Z.ltb_spec d 10); lia).
  destruct (Z.ltb_spec d 10).
  - rewrite (proj2 (andb_true_iff _ _)) by lia. split; [lia|f_equal; lia].
  - replace ((48 <=? d + 55) && (d + 55 <=? 57)) with false by lia. replace ((65 <=? d + 55) && (d + 55 <=? 70)) with true by lia. split; [lia|f_equal; lia].
Qed.

Lemma string_of_bytes_app l k : string_of_bytes (l ++ k) = string_of_bytes l +:+ string_of_bytes k.
Proof. unfold string_of_bytes. induction l as [|b l IH]; [done|]. cbn in *. by rewrite IH. Qed.

Lemma hex_loop_spec fuel : ∀ v s, 0 ≤ v < 16 ^ Z.of_nat fuel → v ≤ u64_max →
  ∃ ds, hex_loop fuel v s = ds ++ s ∧ (fuel ≠ O → ds ≠ []) ∧ Forall hex_byte ds ∧ ∀ t, parse_hex_digits 0 (string_of_bytes ds +:+ t) = parse_hex_digits v t.
Proof.
  induction fuel as [|fuel IH]; intros v s Hv Hm.
  - exists []. split_and!; [done|done|constructor|]. intros t. cbn in Hv. by replace v with 0 by lia.
  - cbn [hex_loop]. cbv zeta. pose proof (Z.mod_pos_bound v 16 ltac:(lia)) as Hd. destruct (hex_byte_digit (v `mod` 16) Hd) as [Hb Hx].
    set (x := if v `mod` 16 <? 10 then _ else _) in *. pose proof (Z.div_mod v 16 ltac:(lia)) as Ev. destruct (Z.ltb_spec v 16) as [Hlt|Hge].
    + exists [x]. split_and!; [done|done|by apply Forall_singleton|]. intros t. change (string_of_bytes [x] +:+ t) with (String (byte x) t). cbn [parse_hex_digits]. rewrite Hx, Z.mod_small, Z.mul_0_l, Z.add_0_l by lia. cbv zeta. by rewrite (proj2 (Z.leb_le _ _)).
    + rewrite Nat2Z.inj_succ, Z.pow_succ_r in Hv by lia. destruct (IH (v / 16) (x :: s)) as (ds & E & _ & Hds & Hp); [split; [apply Z.div_pos; lia|apply Z.div_lt_upper_bound; lia]|lia|].
      exists (ds ++ [x]). rewrite E, <-app_assoc. split_and!; [done|by destruct ds|by apply Forall_app; split; [|apply Forall_singleton]|].
      intros t. rewrite string_of_bytes_app, string_app_assoc, Hp. change (string_of_bytes [x] +:+ t) with (String (byte x) t). cbn [parse_hex_digits]. rewrite Hx. replace (v / 16 * 16 + v `mod` 16) with v by lia. cbv zeta. by rewrite (proj2 (Z.leb_le _ _)).
Qed.

Lemma format_hex_spec v : 0 ≤ v ≤ u64_max →
  format_hex v ≠ [] ∧ Forall hex_byte (format_hex v) ∧ parse_hex_digits 0 (string_of_bytes (format_hex v)) = Some v.
Proof.
  intros Hv. destruct (hex_loop_spec 16 v []) as (ds & E & Hne & Hh & Hp); [change (16 ^ Z.of_nat 16) with 18446744073709551616; unfold u64_max in Hv; lia|lia|].
  unfold format_hex. rewrite E, app_nil_r. split_and!; [by apply Hne|done|]. specialize (Hp EmptyString). by rewrite string_app_nil_r in Hp.
Qed.

Lemma hex_bytes_string ds (f : char → bool) : Forall hex_byte ds → (∀ a, 48 ≤ code a ≤ 57 ∨ 65 ≤ code a ≤ 70 → f a = true) → string_forallb f (string_of_bytes ds) = true.
Proof.
  intros Hds Hf. induction Hds as [|b ds Hb Hds IH]; [done|]. cbn. rewrite Hf; [exact IH|]. rewrite code_byte by (unfold hex_byte in Hb; lia). exact Hb.
Qed.

Lemma parse_format_hex v : 0 ≤ v ≤ u64_max → parse_chunk_size_line (format_hex v) = Ok v.
Proof.
  intros Hv. destruct (format_hex_spec v Hv) as (Hne & Hh & Hp). unfold parse_chunk_size_line, string_from_utf8.
  assert (from_utf8 (byte <$> format_hex v) = true) as ->.
  { apply from_utf8_iff. clear - Hh. induction Hh as [|b ds Hb Hds IH]; [constructor|]. cbn. constructor; [|done]. unfold is_ascii. rewrite code_byte; unfold hex_byte in Hb; lia. }
  rewrite split_char_none. 2: { apply hex_bytes_string; [done|]. intros a Ha. rewrite bool_decide_eq_false_2; [done|]. intros ->. vm_compute in Ha. destruct Ha as [[_ Ha]|[Ha _]]; by apply Ha. }
  change (default EmptyString _) with (string_of_bytes (format_hex v)). cbv zeta. rewrite bool_decide_eq_false_2 by (destruct (format_hex v); done). rewrite hex_bytes_string; [cbn [orb negb]; by rewrite Hp|done|].
  intros a Ha. apply bool_decide_eq_true. unfold hex_digit, code_in. destruct Ha as [Ha|Ha].
  - rewrite (proj2 (andb_true_iff _ _)) by lia. by eexists.
  - replace ((48 <=? code a) && (code a <=? 57)) with false by lia. rewrite (proj2 (andb_true_iff _ _)) by lia. by eexists.
Qed.

Lemma format_hex_bare v : 0 ≤ v ≤ u64_max → bare (format_hex v).
Proof. intros Hv. destruct (format_hex_spec v Hv) as (_ & Hh & _). refine (Forall_impl _ _ _ Hh _). unfold hex_byte. lia. Qed.

Definition chunk_bytes (c : list Z) : list Z := format_hex (len c) ++ CRLF ++ c ++ CRLF.

Lemma chunked_encode_eq cs : chunked_encode cs = concat (chunk_bytes <$> cs) ++ [48; 13; 10; 13; 10].
Proof.
  unfold chunked_encode. f_equal. assert (∀ out, foldl encode_chunk out cs = out ++ concat (chunk_bytes <$> cs)) as E; [|apply (E [])].
  induction cs as [|c cs IH]; intros out; cbn [foldl fmap list_fmap concat]; [by rewrite app_nil_r|]. rewrite IH. unfold encode_chunk, chunk_bytes. by rewrite <- !app_assoc.
Qed.

Section chunk.
Context `{Profile} (pre c post : list Z).
Let whole : list Z := pre ++ chunk_bytes c ++ post.
Context (Hsmall : len whole ≤ isize_max) (Hc : c ≠ []).

Lemma chunk_line : drop (Z.to_nat (len pre)) whole = format_hex (len c) ++ CRLF ++ c ++ CRLF ++ post ∧
  find_window CRLF (drop (Z.to_nat (len pre)) whole) = Some (length (format_hex (len c))).
Proof.
  assert (drop (Z.to_nat (len pre)) whole = format_hex (len c) ++ CRLF ++ c ++ CRLF ++ post) as E.
  { unfold whole, len. rewrite Nat2Z.id, drop_app_length. unfold chunk_bytes. by rewrite <- !app_assoc. }
  split; [done|]. rewrite E. apply find_crlf_line, format_hex_bare. unfold whole in Hsmall. rewrite len_app in Hsmall. unfold chunk_bytes in Hsmall. rewrite !len_app in Hsmall.
  unfold isize_max, u64_max, len in *. lia.
Qed.

Lemma chunk_sizes : len c ≤ u64_max ∧ 0 < len c ∧ len pre + len (chunk_bytes c) ≤ len whole ∧
  len (chunk_bytes c) = Z.of_nat (length (format_hex (len c))) + 2 + len c + 2.
Proof.
  assert (len (chunk_bytes c) = Z.of_nat (length (format_hex (len c))) + 2 + len c + 2) as E by (unfold chunk_bytes; rewrite !len_app; change (len CRLF) with 2; unfold len; lia).
  unfold whole in *. rewrite !len_app in *. pose proof (len_nonneg post). pose proof (len_nonneg pre). split_and!; [|destruct c; [done|rewrite len_cons; pose proof (len_nonneg l); lia]|lia|done].
  unfold isize_max, u64_max in *. lia.
Qed.

Lemma chunk_slices : let i := len pre + Z.of_nat (length (format_hex (len c))) + 2 in
  slice whole i (i + len c) = Ret c ∧ slice whole (i + len c) (i + len c + 2) = Ret CRLF.
Proof.
  cbv zeta. unfold whole, chunk_bytes. split.
  - replace (pre ++ (format_hex (len c) ++ CRLF ++ c ++ CRLF) ++ post) with ((pre ++ format_hex (len c) ++ CRLF) ++ c ++ CRLF ++ post) by (by rewrite <- !app_assoc).
    apply slice_middle; rewrite !len_app; change (len CRLF) with 2; unfold len; lia.
  - replace (pre ++ (format_hex (len c) ++ CRLF ++ c ++ CRLF) ++ post) with ((pre ++ format_hex (len c) ++ CRLF ++ c) ++ CRLF ++ post) by (by rewrite <- !app_assoc).
    apply slice_middle; rewrite !len_app; change (len CRLF) with 2; unfold len; lia.
Qed.

Lemma decode_chunk s : at_ s = len pre → chunks s < MAX_CHUNK_COUNT → len (decoded s) + len c ≤ MAX_DECODED_BODY_BYTES →
  chunked_decode_turn whole s = Ret (Ok (Next {| at_ := len pre + len (chunk_bytes c); decoded := decoded s ++ c; chunks := chunks s + 1 |})).
Proof.
  intros Ha Hk Hd. destruct chunk_line as [El Ew]. destruct chunk_sizes as (H1 & H2 & H3 & H4). destruct chunk_slices as [Ec Ee]. pose proof (len_nonneg pre) as Hp0.
  unfold chunked_decode_turn. rewrite Ha, slice_from_ok by lia. cbn [outcome_bind]. rewrite Ew. destruct (line_at whole Hsmall (len pre) _ ltac:(lia) Ew) as (-> & E2 & E3 & _).
  cbn [outcome_bind]. rewrite E2, El, take_app_length. cbn [outcome_bind]. rewrite parse_format_hex by lia. cbn [fallible_bind]. rewrite E3. cbn [outcome_bind].
  rewrite (proj2 (Z.eqb_neq _ _)) by lia. rewrite (proj2 (Z.leb_gt _ _)) by done. rewrite checked_add_small by (pose proof (len_nonneg (decoded s)); lia). cbn [fallible_bind].
  unfold isize_max in Hsmall. rewrite add64_exact by (unfold u64_max in *; lia). cbn [outcome_bind]. rewrite (proj2 (Z.ltb_ge _ _)) by lia. rewrite Ec. cbn [outcome_bind].
  rewrite add64_exact by (unfold u64_max in *; lia). cbn [outcome_bind]. rewrite (proj2 (Z.ltb_ge _ _)) by lia. rewrite Ee. cbn [outcome_bind].
  rewrite bool_decide_eq_true_2 by done. cbn [negb]. do 4 f_equal. lia.
Qed.

Lemma consume_chunk s : c_at s = len pre → c_chunks s < MAX_CHUNK_COUNT → 0 ≤ c_decoded s → c_decoded s + len c ≤ MAX_DECODED_BODY_BYTES →
  chunked_consumed_turn whole s = Ret (Ok (Next {| c_at := len pre + len (chunk_bytes c); c_decoded := c_decoded s + len c; c_chunks := c_chunks s + 1 |})).
Proof.
  intros Ha Hk H0 Hd. destruct chunk_line as [El Ew]. destruct chunk_sizes as (H1 & H2 & H3 & H4). destruct chunk_slices as [Ec Ee]. pose proof (len_nonneg pre) as Hp0.
  unfold chunked_consumed_turn. rewrite Ha, slice_from_ok by lia. cbn [outcome_bind]. rewrite Ew. destruct (line_at whole Hsmall (len pre) _ ltac:(lia) Ew) as (-> & E2 & E3 & _).
  cbn [outcome_bind]. rewrite E2, El, take_app_length. cbn [outcome_bind]. rewrite parse_format_hex by lia. cbn [fallible_bind]. rewrite E3. cbn [outcome_bind].
  rewrite (proj2 (Z.eqb_neq _ _)) by lia. rewrite (proj2 (Z.leb_gt _ _)) by done. rewrite checked_add_small by lia. cbn [fallible_bind].
  unfold isize_max in Hsmall. rewrite add64_exact by (unfold u64_max in *; lia). cbn [outcome_bind]. rewrite add64_exact by (unfold u64_max in *; lia). cbn [outcome_bind].
  rewrite (proj2 (Z.ltb_ge _ _)) by lia. rewrite Ee. cbn [outcome_bind].
  rewrite bool_decide_eq_true_2 by done. cbn [negb]. do 4 f_equal. lia.
Qed.
End chunk.

Definition the_end : list Z := [48; 13; 10; 13; 10].

Lemma chunk_bytes_len c : 0 < len (chunk_bytes c).
Proof. unfold chunk_bytes. rewrite !len_app. change (len CRLF) with 2. pose proof (len_nonneg (format_hex (len c))). pose proof (len_nonneg c). lia. Qed.

Section chunks.
Context `{Profile}.

Lemma end_line pre rest : len (pre ++ the_end ++ rest) ≤ isize_max →
  let whole := pre ++ the_end ++ rest in
  find_window CRLF (drop (Z.to_nat (len pre)) whole) = Some 1%nat ∧ take 1 (drop (Z.to_nat (len pre)) whole) = [48] ∧
  drop (Z.to_nat (len pre + 1 + 2)) whole = [13; 10] ++ rest ∧ len pre + 5 ≤ len whole.
Proof.
  cbv zeta. intros Hs. assert (drop (Z.to_nat (len pre)) (pre ++ the_end ++ rest) = the_end ++ rest) as -> by (unfold len; by rewrite Nat2Z.id, drop_app_length).
  split_and!; [reflexivity|reflexivity| |].
  - replace (Z.to_nat (len pre + 1 + 2)) with (length (pre ++ [48; 13; 10])) by (rewrite length_app; unfold len; cbn; lia).
    replace (pre ++ the_end ++ rest) with ((pre ++ [48; 13; 10]) ++ [13; 10] ++ rest) by (by rewrite <-app_assoc). apply drop_app_length.
  - rewrite !len_app. change (len the_end) with 5. pose proof (len_nonneg rest). lia.
Qed.

Lemma decode_chunks cs : ∀ fuel pre rest s, at_ s = len pre → Forall (λ c, c ≠ []) cs → chunks s + len cs ≤ MAX_CHUNK_COUNT →
  len (decoded s) + len (concat cs) ≤ MAX_DECODED_BODY_BYTES → (length cs < fuel)%nat →
  len (pre ++ concat (chunk_bytes <$> cs) ++ the_end ++ rest) ≤ isize_max →
  chunked_decode_loop fuel (pre ++ concat (chunk_bytes <$> cs) ++ the_end ++ rest) s = Ret (Ok (decoded s ++ concat cs)).
Proof.
  induction cs as [|c cs IH]; intros [|fuel] pre rest s Ha Hne Hk Hd Hf Hs; [lia| |lia|].
  - cbn [fmap list_fmap concat] in *. rewrite app_nil_l in Hs |- *. destruct (end_line pre rest Hs) as (Ew & El & Er & Hb). cbn [chunked_decode_loop].
    pose proof (len_nonneg pre). rewrite Ha, (proj2 (Z.ltb_lt _ _)) by lia. unfold chunked_decode_turn. rewrite Ha, slice_from_ok by lia. cbn [outcome_bind]. rewrite Ew.
    destruct (line_at _ Hs (len pre) 1 ltac:(lia) Ew) as (-> & E2 & E3 & E4). cbn [outcome_bind]. rewrite E2, El. cbn [outcome_bind].
    change (parse_chunk_size_line [48]) with (@Ok Z CodecError 0). cbn [fallible_bind]. rewrite E3. cbn [outcome_bind]. rewrite Z.eqb_refl, E4. cbn [outcome_bind].
    change (Z.of_nat 1) with 1. rewrite Er. change ([13; 10] ++ rest) with (CRLF ++ rest). rewrite (proj2 (starts_with_true _ _)) by by eexists. cbn [fallible_bind]. by rewrite app_nil_r.
  - apply Forall_cons in Hne as [Hc Hne]. cbn [fmap list_fmap concat] in *. rewrite <-app_assoc in Hs |- *. rewrite len_cons in Hk. rewrite len_app in Hd.
    pose proof (len_nonneg cs). pose proof (len_nonneg (concat cs)). pose proof (len_nonneg pre). pose proof (chunk_bytes_len c). cbn [chunked_decode_loop].
    rewrite (proj2 (Z.ltb_lt _ _)) by (rewrite Ha, !len_app; pose proof (len_nonneg (concat (chunk_bytes <$> cs))); pose proof (len_nonneg (the_end ++ rest)); rewrite ?len_app in *; lia).
    rewrite decode_chunk by (done || lia). cbn [fallible_bind].
    assert (pre ++ chunk_bytes c ++ concat (chunk_bytes <$> cs) ++ the_end ++ rest = (pre ++ chunk_bytes c) ++ concat (chunk_bytes <$> cs) ++ the_end ++ rest) as Ew by (by rewrite <-app_assoc).
    rewrite Ew in Hs |- *. cbn [length] in Hf. rewrite IH; [cbn [decoded]; by rewrite <-app_assoc|cbn [at_]; by rewrite len_app|done|cbn [chunks]; lia|cbn [decoded]; rewrite len_app; lia|lia|done].
Qed.

Lemma consume_chunks cs : ∀ fuel pre rest s, c_at s = len pre → Forall (λ c, c ≠ []) cs → c_chunks s + len cs ≤ MAX_CHUNK_COUNT →
  0 ≤ c_decoded s → c_decoded s + len (concat cs) ≤ MAX_DECODED_BODY_BYTES → (length cs < fuel)%nat →
  len (pre ++ concat (chunk_bytes <$> cs) ++ the_end ++ rest) ≤ isize_max →
  chunked_consumed_loop fuel (pre ++ concat (chunk_bytes <$> cs) ++ the_end ++ rest) s = Ret (Ok (len (pre ++ concat (chunk_bytes <$> cs) ++ the_end))).
Proof.
  induction cs as [|c cs IH]; intros [|fuel] pre rest s Ha Hne Hk H0 Hd Hf Hs; [lia| |lia|].
  - cbn [fmap list_fmap concat] in *. rewrite app_nil_l in Hs |- *. destruct (end_line pre rest Hs) as (Ew & El & Er & Hb). cbn [chunked_consumed_loop].
    pose proof (len_nonneg pre). rewrite Ha, (proj2 (Z.ltb_lt _ _)) by lia. unfold chunked_consumed_turn. rewrite Ha, slice_from_ok by lia. cbn [outcome_bind]. rewrite Ew.
    destruct (line_at _ Hs (len pre) 1 ltac:(lia) Ew) as (-> & E2 & E3 & E4). cbn [outcome_bind]. rewrite E2, El. cbn [outcome_bind].
    change (parse_chunk_size_line [48]) with (@Ok Z CodecError 0). cbn [fallible_bind]. rewrite E3. cbn [outcome_bind]. rewrite Z.eqb_refl, E4. cbn [outcome_bind].
    change (Z.of_nat 1) with 1. rewrite Er. change ([13; 10] ++ rest) with (CRLF ++ rest). rewrite (proj2 (starts_with_true _ _)) by by eexists.
    rewrite add64_exact by (unfold isize_max, u64_max in *; lia). cbn [outcome_bind fallible_bind]. rewrite app_nil_l, len_app. change (len the_end) with 5. do 2 f_equal. lia.
  - apply Forall_cons in Hne as [Hc Hne]. cbn [fmap list_fmap concat] in *. rewrite <-app_assoc in Hs |- *. rewrite len_cons in Hk. rewrite len_app in Hd.
    pose proof (len_nonneg cs). pose proof (len_nonneg (concat cs)). pose proof (len_nonneg pre). pose proof (chunk_bytes_len c). pose proof (len_nonneg c). cbn [chunked_consumed_loop].
    rewrite (proj2 (Z.ltb_lt _ _)) by (rewrite Ha, !len_app; pose proof (len_nonneg (concat (chunk_bytes <$> cs))); pose proof (len_nonneg (the_end ++ rest)); rewrite ?len_app in *; lia).
    rewrite consume_chunk by (done || lia). cbn [fallible_bind].
    assert (pre ++ chunk_bytes c ++ concat (chunk_bytes <$> cs) ++ the_end ++ rest = (pre ++ chunk_bytes c) ++ concat (chunk_bytes <$> cs) ++ the_end ++ rest) as Ew by (by rewrite <-app_assoc).
    rewrite Ew in Hs |- *. cbn [length] in Hf. rewrite IH; [by rewrite <- !app_assoc|cbn [c_at]; by rewrite len_app|done|cbn [c_chunks]; lia|cbn [c_decoded]; lia|cbn [c_decoded]; lia|lia|done].
Qed.

Lemma chunks_fuel cs rest : Forall (λ c, c ≠ []) cs → (length cs < S (length (concat (chunk_bytes <$> cs) ++ the_end ++ rest)))%nat.
Proof.
  intros Hne. rewrite length_app. assert (length cs ≤ length (concat (chunk_bytes <$> cs)))%nat; [|lia].
  induction Hne as [|c cs Hc Hne IH]; [done|]. cbn [fmap list_fmap concat length]. rewrite length_app. pose proof (chunk_bytes_len c). unfold len in *. lia.
Qed.

  (** Chunks that are not empty, within the limits, decode to their bytes, and whatever
      follows them is left. *)
Lemma chunked_roundtrip cs rest : Forall (λ c, c ≠ []) cs → len cs ≤ MAX_CHUNK_COUNT → len (concat cs) ≤ MAX_DECODED_BODY_BYTES →
  len (chunked_encode cs ++ rest) ≤ isize_max →
  chunked_decode (chunked_encode cs ++ rest) = Ret (Ok (concat cs)) ∧ chunked_consumed_len (chunked_encode cs ++ rest) = Ret (Ok (len (chunked_encode cs))).
Proof.
  intros Hne Hk Hd Hs. rewrite chunked_encode_eq in Hs |- *. fold the_end in Hs |- *. rewrite <-app_assoc in Hs |- *. unfold chunked_decode, chunked_consumed_len. split.
  - apply (decode_chunks cs _ [] rest); cbn; try done. by apply chunks_fuel.
  - rewrite (consume_chunks cs _ [] rest); cbn; try done. by apply chunks_fuel.
Qed.
End chunks.

(** ** What a parsed head guarantees *)

Definition field_valid (h : string * string) : Prop := validate_header_name h.1 = Ok tt ∧ validate_header_value h.2 = Ok tt.

Lemma parse_header_line_valid line out out' : parse_header_line line out = Ok out' → Forall field_valid out → len out ≤ MAX_HEADER_COUNT →
  Forall field_valid out' ∧ len out' ≤ MAX_HEADER_COUNT.
Proof.
  unfold parse_header_line. case_bool_decide; [by intros [= <-]|]. destruct (_ <? _); [done|]. destruct (Z.leb_spec MAX_HEADER_COUNT (len out)) as [|Hl]; [done|].
  destruct (split_once ":" line) as [[name_raw rest]|]; [|done]. destruct (negb _); [done|].
  destruct (validate_header_name name_raw) as [[]|] eqn:En; [|done]. cbn [result_bind]. destruct (validate_header_value (trim rest)) as [[]|] eqn:Ev; [|done].
  cbn [result_bind]. intros [= <-] Hf _. split; [apply Forall_app; split; [done|by apply Forall_singleton]|]. rewrite len_app, len_cons, len_nil. unfold MAX_HEADER_COUNT in *. lia.
Qed.

Lemma parse_header_lines_valid lines : ∀ out out', parse_header_lines lines out = Ok out' → Forall field_valid out → len out ≤ MAX_HEADER_COUNT →
  Forall field_valid out' ∧ len out' ≤ MAX_HEADER_COUNT.
Proof.
  induction lines as [|line lines IH]; intros out out'; cbn [parse_header_lines]; [by intros [= <-]|]. intros (o & E & E')%result_bind_Ok Hf Hl.
  destruct (parse_header_line_valid _ _ _ E Hf Hl). by apply (IH o).
Qed.

Lemma parse_headers_valid section hs : parse_headers section = Ok hs → Forall field_valid hs ∧ len hs ≤ MAX_HEADER_COUNT.
Proof.
  unfold parse_headers. intros (u & _ & E)%result_bind_Ok. destruct (string_from_utf8 section); [|done].
  apply (parse_header_lines_valid _ _ _ E); [constructor|]. rewrite len_nil. unfold MAX_HEADER_COUNT. lia.
Qed.

Lemma same_length_Some values : ∀ seen r, same_content_length values (Some seen) = Ok r → r = Some seen ∧ Forall (λ v, trim v = seen) values.
Proof.
  induction values as [|v values IH]; intros seen r; cbn [same_content_length]; [by intros [= <-]|]. case_bool_decide as Hs; [|done]. cbn [negb].
  intros [-> Hf]%IH. split; [done|]. by constructor.
Qed.

Lemma content_length_spec hs r : content_length hs = Ok r →
  match r with
  | None => case_insensitive_values hs "content-length" = []
  | Some n => case_insensitive_values hs "content-length" ≠ [] ∧ ∀ v, v ∈ case_insensitive_values hs "content-length" → parse_uint u64_max (trim v) = Some n
  end.
Proof.
  unfold content_length. intros (seen & Es & E)%result_bind_Ok. destruct (case_insensitive_values hs "content-length") as [|v values].
  - injection Es as <-. by injection E as <-.
  - cbn [same_content_length] in Es. apply same_length_Some in Es as [-> Hf]. destruct (parse_uint u64_max (trim v)) as [n|] eqn:En; [|done]. injection E as <-.
    split; [done|]. intros w [->|Hw]%elem_of_cons; [done|]. rewrite Forall_forall in Hf. by rewrite (Hf w Hw).
Qed.

Lemma push_tokens_spec pieces : ∀ tokens r, push_tokens pieces tokens = Ok r → r = tokens ++ ((λ w, to_ascii_lowercase (trim w)) <$> pieces).
Proof.
  induction pieces as [|w pieces IH]; intros tokens r; cbn [push_tokens]; [by intros [= <-]; rewrite app_nil_r|]. case_bool_decide; [done|].
  intros ->%IH. by rewrite <-app_assoc.
Qed.

Lemma encoding_tokens_spec values : ∀ tokens r, encoding_tokens values tokens = Ok r →
  r = tokens ++ concat ((λ v, (λ w, to_ascii_lowercase (trim w)) <$> split_char "," v) <$> values).
Proof.
  induction values as [|v values IH]; intros tokens r; cbn [encoding_tokens]; [by intros [= <-]; rewrite app_nil_r|].
  intros (t & ->%push_tokens_spec & ->%IH)%result_bind_Ok. by rewrite <-app_assoc.
Qed.

Lemma transfer_encoding_spec hs r : transfer_encoding hs = Ok r →
  match r with
  | None => case_insensitive_values hs "transfer-encoding" = []
  | Some tokens => case_insensitive_values hs "transfer-encoding" ≠ [] ∧
      tokens = concat ((λ v, (λ w, to_ascii_lowercase (trim w)) <$> split_char "," v) <$> case_insensitive_values hs "transfer-encoding")
  end.
Proof.
  unfold transfer_encoding. cbv zeta. destruct (case_insensitive_values hs "transfer-encoding") as [|v values]; [by intros [= <-]|].
  intros (tokens & E & E')%result_bind_Ok. injection E' as <-. by apply encoding_tokens_spec in E.
Qed.

(** A message says how long its body is in one way, or not at all: lengths that all say the
    same, or the chunked coding alone. *)
Inductive one_framing (hs : header_list) (body : list Z) : Prop :=
| framed_by_end : case_insensitive_values hs "transfer-encoding" = [] → case_insensitive_values hs "content-length" = [] → one_framing hs body
| framed_by_length : case_insensitive_values hs "transfer-encoding" = [] → case_insensitive_values hs "content-length" ≠ [] →
    (∀ v, v ∈ case_insensitive_values hs "content-length" → parse_uint u64_max (trim v) = Some (len body)) → one_framing hs body
| framed_by_chunks : case_insensitive_values hs "content-length" = [] → case_insensitive_values hs "transfer-encoding" ≠ [] →
    (∀ v w, v ∈ case_insensitive_values hs "transfer-encoding" → w ∈ split_char "," v → to_ascii_lowercase (trim w) = "chunked"%string) → one_framing hs body.

Lemma decode_framing_spec hs f : decode_framing hs = Ok f → ∀ body, (∀ n, f = Some (Length n) → len body = n) → one_framing hs body ∧ f ≠ Some Eof ∧ f ≠ Some Empty.
Proof.
  unfold decode_framing. intros (te & Et & E)%result_bind_Ok body Hb. apply result_bind_Ok in E as (cl & Ec & E).
  apply transfer_encoding_spec in Et. apply content_length_spec in Ec. destruct te as [tokens|], cl as [n|]; [done| | |].
  - destruct (negb _); [done|]. destruct (existsb _ tokens) eqn:Ex; [done|]. injection E as <-. split; [|done]. destruct Et as [Hne ->]. apply framed_by_chunks; [done|done|].
    intros v w Hv Hw. apply not_true_iff_false in Ex. destruct (decide (to_ascii_lowercase (trim w) = "chunked"%string)) as [|Hn]; [done|]. destruct Ex.
    apply existsb_exists. exists (to_ascii_lowercase (trim w)). rewrite bool_decide_eq_false_2 by done. split; [|done]. apply list_elem_of_In. apply list_elem_of_In, in_concat.
    exists ((λ w, to_ascii_lowercase (trim w)) <$> split_char "," v). split; apply list_elem_of_In, list_elem_of_fmap; by eexists.
  - destruct (checked_body_len n); [|done]. injection E as <-. split; [|done]. destruct Ec as [Hne Hv]. apply framed_by_length; [done|done|]. by rewrite (Hb n).
  - injection E as <-. split; [|done]. by apply framed_by_end.
Qed.

(** ** Whole messages *)

Section messages.
Context `{Profile}.

Lemma decode_body_exact_total hs body : len body ≤ isize_max →
  ∃ r, decode_body_exact hs body = Ret r ∧ ∀ out, r = Ok out →
    one_framing hs out ∧ len out ≤ MAX_DECODED_BODY_BYTES ∧
    ((decode_framing hs = Ok (Some Chunked) ∧ ∃ ts, parse_chunked_trailers body = Ret (Some ts)) ∨ case_insensitive_values hs "transfer-encoding" = []).
Proof.
  intros Hb. unfold decode_body_exact, decode_body. destruct (decode_framing hs) as [f|e] eqn:Ef; [|by eexists]. cbn [fallible_bind].
  pose proof (decode_framing_spec hs f Ef) as Hs. destruct f as [[|n| |]|].
  - destruct (chunked_decode_total body Hb) as (r & -> & Hr). eexists. split; [done|]. intros out ->. destruct (Hr out eq_refl) as [H1 H2].
    split_and!; [by apply Hs|done|by left].
  - pose proof (decode_framing_Length hs n Ef) as (_ & _ & Hn). destruct (Z.eqb_spec (len body) n) as [<-|]; [|by eexists]. cbn [negb].
    unfold checked_body_len. rewrite (proj2 (Z.ltb_ge _ _)) by lia. cbn [fallible_bind]. rewrite Z.ltb_irrefl, slice_ok by lia. cbn [outcome_bind]. eexists. split; [done|].
    intros out [= <-]. assert (len (take (Z.to_nat (len body - 0)) (drop (Z.to_nat 0) body)) = len body) as El by (rewrite Z.sub_0_r, drop_0; unfold len; by rewrite Nat2Z.id, firstn_all).
    destruct (Hs (take (Z.to_nat (len body - 0)) (drop (Z.to_nat 0) body))) as (H1 & _); [by intros n [= <-]|]. split_and!; [done|lia|right].
    pose proof (decode_framing_Length hs _ Ef) as (Ht & _). by apply transfer_encoding_spec in Ht.
  - destruct (Hs []) as (_ & Hx & _); [|done]. done.
  - destruct (Hs []) as (_ & _ & Hx); [|done]. done.
  - unfold checked_body_len. destruct (Z.ltb_spec MAX_DECODED_BODY_BYTES (len body)); [by eexists|]. eexists. split; [done|]. intros out [= <-].
    destruct (Hs body) as (H1 & _); [done|]. split_and!; [done|done|right]. unfold decode_framing in Ef. apply result_bind_Ok in Ef as (te & Et & Ef).
    apply transfer_encoding_spec in Et. destruct te as [tokens|]; [|done]. apply result_bind_Ok in Ef as (cl & _ & Ef). destruct cl; [done|].
    destruct (negb _); [done|]. by destruct (existsb _ _).
Qed.

  (** Without a Transfer-Encoding field no field is taken for one that says chunked. *)
Lemma no_te_not_chunked hs : case_insensitive_values hs "transfer-encoding" = [] → existsb mentions_chunked hs = false.
Proof.
  intros E. apply not_true_iff_false. intros ([n v] & Hin & Hm)%existsb_exists. unfold mentions_chunked, eq_ignore_ascii_case in Hm.
  apply andb_true_iff in Hm as [Hm _]. apply bool_decide_eq_true in Hm. cbn [fst] in Hm.
  assert (v ∈ case_insensitive_values hs "transfer-encoding") as Hv; [|rewrite E in Hv; by apply not_elem_of_nil in Hv].
  unfold case_insensitive_values. cbv zeta. apply list_elem_of_fmap. exists (n, v). split; [done|]. apply list_elem_of_filter. split; [exact Hm|by apply list_elem_of_In].
Qed.

Lemma header_end_bound bytes n : find_header_end bytes = Some n → 4 ≤ n ≤ len bytes.
Proof.
  unfold find_header_end. rewrite find_header_end_eq by (done || (intros; lia)). destruct (find_window _ bytes) as [m|] eqn:Em; [|done].
  intros [= <-]. apply find_window_bound in Em. cbn [length] in Em. unfold len. lia.
Qed.

Lemma message_parts bytes n : len bytes ≤ isize_max → find_header_end bytes = Some n →
  ∃ section rest, head_bytes bytes n = Ret section ∧ slice_from bytes n = Ret rest ∧ len section ≤ len bytes ∧ len rest ≤ len bytes ∧ n + len rest = len bytes.
Proof.
  intros Hl Hn%header_end_bound. exists (take (Z.to_nat (n - 4)) bytes), (drop (Z.to_nat n) bytes). split_and!.
  - replace n with (Z.of_nat (Z.to_nat (n - 4)) + 4) at 1 by lia. apply head_bytes_eq; [unfold len in Hn; lia|unfold isize_max, u64_max in *; lia].
  - by apply slice_from_ok; lia.
  - unfold len. rewrite length_take. lia.
  - unfold len. rewrite length_drop. lia.
  - unfold len in *. rewrite length_drop. lia.
Qed.

  (** C29: whatever bytes a client sends, parsing them as a request ends, without a panic, in an
      error or in a request that can be read in one way only: version 1.1, at most 100 fields
      whose names are tokens and whose values hold no line end and no zero byte, a body of at
      most 16 MiB, and one framing: no Content-Length and Transfer-Encoding together, every
      Content-Length the length of the body, every coding [chunked].  Finding where a
      message ends, and parsing a response, never panic either, and the end is in the buffer. *)
Theorem request_framing_safe bytes : len bytes ≤ isize_max →
  (∃ r, parse_request bytes = Ret r ∧
    match r with
    | Err _ => True
    | Ok None => False
    | Ok (Some q) => rq_version q = "HTTP/1.1"%string ∧ Forall field_valid (rq_headers q) ∧ len (rq_headers q) ≤ MAX_HEADER_COUNT ∧
                     len (rq_body q) ≤ MAX_DECODED_BODY_BYTES ∧ one_framing (rq_headers q) (rq_body q)
    end) ∧
  (∃ r, message_consumed_len bytes = Ret r ∧ ∀ n, r = Ok n → 4 ≤ n ≤ len bytes) ∧
  (∃ r, parse_response bytes = Ret r).
Proof.
  intros Hl. destruct (find_header_end bytes) as [n|] eqn:En.
  2: { unfold parse_request, message_consumed_len, parse_response. rewrite En. split_and!; by eexists. }
  pose proof (header_end_bound bytes n En) as Hn. destruct (message_parts bytes n Hl En) as (section & rest & E1 & E2 & Hs & Hr & Hsum). split_and!.
  - unfold parse_request. rewrite En, E1. cbn [outcome_bind]. destruct (validate_header_section section) as [[]|]; [|by eexists]. cbn [fallible_bind]. rewrite E2. cbn [outcome_bind].
    rewrite split_start_line_eq by (unfold isize_max, u64_max in *; lia). cbn [outcome_bind]. destruct (string_from_utf8 _) as [line|]; [|by eexists].
    destruct (splitn 3 " " line) as [|m [|t [|v [|]]]]; [by eexists..| |by eexists]. unfold validate_http_version. case_bool_decide as Hv; [|by eexists]. cbn [fallible_bind].
    destruct (parse_headers _) as [hs|e] eqn:Eh; [|by eexists]. cbn [fallible_bind]. apply parse_headers_valid in Eh as [Hf Hc].
    destruct (decode_body_exact_total hs rest) as (r & -> & Hb); [lia|]. destruct r as [body|e]; [|by eexists]. cbn [fallible_bind].
    destruct (Hb body eq_refl) as (H1 & H2 & [[_ [ts Ets]]|Hte]).
    + rewrite Ets. destruct (existsb mentions_chunked hs); (eexists; split; [reflexivity|done]).
    + rewrite no_te_not_chunked by done. by eexists.
  - unfold message_consumed_len. rewrite En, E1. cbn [outcome_bind]. destruct (validate_header_section section) as [[]|]; [|by eexists]. cbn [fallible_bind].
    rewrite split_start_line_eq by (unfold isize_max, u64_max in *; lia). cbn [outcome_bind].
    destruct (parse_headers _) as [hs|e]; [|by eexists]. cbn [fallible_bind]. destruct (decode_framing hs) as [[[|k| |]|]|e] eqn:Ef; cbn [fallible_bind]; [| |by eexists; split; [done|]; intros m [= <-]..|by eexists].
    + rewrite E2. cbn [outcome_bind]. destruct (chunked_consumed_total rest) as (r & -> & Hc); [lia|]. destruct r as [k|e]; [|by eexists]. cbn [fallible_bind].
      specialize (Hc k eq_refl). rewrite add64_exact by (unfold isize_max, u64_max in *; lia). cbn [outcome_bind]. eexists. split; [done|]. intros m [= <-]. lia.
    + rewrite E2. cbn [outcome_bind]. pose proof (decode_framing_Length hs k Ef) as (_ & _ & Hk). destruct (Z.ltb_spec (len rest) k); [by eexists|].
      rewrite add64_exact by (unfold isize_max, u64_max in *; lia). cbn [outcome_bind]. eexists. split; [done|]. intros m [= <-]. lia.
  - unfold parse_response. rewrite En, E1. cbn [outcome_bind]. destruct (parse_head_section_total section) as [r ->]; [unfold isize_max, u64_max in *; lia|].
    destruct r as [h|e]; [|by eexists]. cbn [fallible_bind]. rewrite E2. cbn [outcome_bind]. destruct (decode_body_exact_total (headers h) rest) as (r & -> & _); [lia|].
    destruct r; by eexists.
Qed.
End messages.

(** A request with a length and a coding is refused. *)
Definition smuggled : list Z :=
  as_bytes "POST / HTTP/1.1" ++ CRLF ++ as_bytes "Content-Length: 4" ++ CRLF ++ as_bytes "transfer-encoding: chunked" ++ CRLF ++ CRLF ++
  as_bytes "0" ++ CRLF ++ CRLF.

Lemma request_framing_safe_witness :
  @parse_request true smuggled = Ret (Err (BadHeader "content-length with transfer-encoding")) ∧
  ∃ r, @message_consumed_len true smuggled = Ret r ∧ ∀ n, r = Ok n → 4 ≤ n ≤ len smuggled.
Proof.
  split; [vm_compute; reflexivity|]. exact (proj1 (proj2 (@request_framing_safe true smuggled ltac:(vm_compute; discriminate)))).
Defined.

(** ** Where the codec is lax *)

(** Names and values of fields are checked before they are written; the method, the target and
    the reason are not, so a target with a line end in it adds fields to the request. *)
Definition target_with_fields : string := "/ HTTP/1.1" +:+ crlf +:+ "X-Admin: 1" +:+ crlf +:+ "Y: z".

Definition injecting_request : list Z := match try_serialize_request "GET" target_with_fields [] [] with Ok bytes => bytes | Err _ => [] end.

Lemma request_target_injects : @parse_request true injecting_request =
  Ret (Ok (Some {| rq_method := "GET"; rq_target := "/"; rq_version := "HTTP/1.1"; rq_headers := [("X-Admin", "1"); ("Y", "z HTTP/1.1")];
                   rq_body := []; rq_trailers := [] |}))%string.
Proof. vm_compute. reflexivity. Qed.

(** A length may have a plus sign. *)
Lemma content_length_plus : content_length [("Content-Length", "+2")]%string = Ok (Some 2).
Proof. reflexivity. Qed.

(** An empty chunk is written as the end of the body. *)
Lemma empty_chunk_ends_body : @chunked_decode true (chunked_encode [[97]; []; [98]]) = Ret (Ok [97]).
Proof. vm_compute. reflexivity. Qed.

Definition chunked_head : list Z := as_bytes "POST / HTTP/1.1" ++ CRLF ++ as_bytes "Transfer-Encoding: chunked" ++ CRLF ++ CRLF.

(** A chunk size that has not arrived in full is an encoding error and not a truncation. *)
Lemma partial_chunk_size : @message_consumed_len true (chunked_head ++ as_bytes "5") = Ret (Err (BadChunkEncoding "missing chunk-size CRLF")).
Proof. vm_compute. reflexivity. Qed.

(** A body whose trailers are cut off is parsed as complete, and has no end. *)
Lemma cut_trailers_parse :
  let bytes := chunked_head ++ as_bytes "0" ++ CRLF ++ as_bytes "A: b" ++ CRLF in
  @parse_request true bytes =
    Ret (Ok (Some {| rq_method := "POST"; rq_target := "/"; rq_version := "HTTP/1.1"; rq_headers := [("Transfer-Encoding", "chunked")];
                     rq_body := []; rq_trailers := [("A", "b")] |}))%string ∧
  @message_consumed_len true bytes = Ret (Err (BadChunkEncoding "missing terminator")).
Proof. split; vm_compute; reflexivity. Qed.

(** A connection closed after the data of a chunk is no error, and the body never complete. *)
Lemma closed_after_data :
  match @decode_stream true [as_bytes "HTTP/1.1 200 OK" ++ CRLF ++ as_bytes "Transfer-Encoding: chunked" ++ CRLF ++ CRLF ++ as_bytes "5" ++ CRLF ++ as_bytes "hello"] with
  | Ret (d, Ok body) => body = as_bytes "hello" ∧ complete d = false ∧ closed d = true
  | _ => False
  end.
Proof. vm_compute. by split. Qed.

(** Where sums wrap, [parse_chunked_trailers] comes back to where it started on a size that
    nothing has checked, and never ends. *)
Definition circular : list Z := as_bytes "FFFFFFFFFFFFFFEC" ++ CRLF.

Lemma circular_trailers_loop fuel : @chunk_trailers_loop false fuel circular 0 = Ret None.
Proof.
  assert (@add64 false (Z.of_nat 16) 0 = Ret 16 ∧ @add64 false 16 2 = Ret 18 ∧ @add64 false 18 18446744073709551596 = Ret 18446744073709551614 ∧
    @add64 false 18446744073709551614 2 = Ret 0 ∧ slice circular 0 16 = Ret (take 16 circular) ∧
    parse_chunk_size_line (take 16 circular) = Ok 18446744073709551596) as (E1 & E2 & E3 & E4 & E5 & E6) by (split_and!; vm_compute; reflexivity).
  induction fuel as [|fuel IH]; [done|]. cbn [chunk_trailers_loop]. change (0 <? len circular) with true. cbn [negb].
  change (slice_from circular 0) with (Ret circular). cbn [outcome_bind]. change (find_window CRLF circular) with (Some 16%nat). cbv iota.
  rewrite E1. cbn [outcome_bind]. rewrite E5. cbn [outcome_bind]. rewrite E6, E2. cbn [outcome_bind]. change (18446744073709551596 =? 0) with false. cbv iota.
  rewrite E3. cbn [outcome_bind]. rewrite E4. cbn [outcome_bind]. change (len circular <? 0) with false. exact IH.
Qed.
