(* ===== verification/Der.v ===== *)
(** * Der: distinguished encoding of ASN.1

    asn1-der/src/lib.rs.  A reader is the bytes it has left; a reading method answers what is
    left with a value or an error.  A value is its tag and its content.  The walk over a tree
    runs on one unit of fuel per byte and one more, since every value read takes at least two
    bytes; out of fuel it panics.  A depth is a number of bytes at most, so adding one to
    it cannot overflow. *)

From Stdlib Require String.
From S2P Require Import Prelude Text Utf8 Bytes Bits Arrays.

Local Open Scope Z_scope.
Local Open Scope cruft_scope.

Inductive DerError :=
| UnexpectedEnd
| InvalidLength
| UnknownTag (t : Z)
| WrongTag (expected actual : Z)
| NotConstructed
| NotPrimitive
| InvalidOid
| InvalidInteger
| TrailingData
| MaxDepthExceeded.

Definition TAG_BOOLEAN : Z := 1.
Definition TAG_INTEGER : Z := 2.
Definition TAG_BIT_STRING : Z := 3.
Definition TAG_OCTET_STRING : Z := 4.
Definition TAG_NULL : Z := 5.
Definition TAG_OID : Z := 6.
Definition TAG_UTF8_STRING : Z := 12.
Definition TAG_SEQUENCE : Z := 48.
Definition TAG_PRINTABLE_STRING : Z := 19.
Definition TAG_IA5_STRING : Z := 22.
Definition TAG_UTC_TIME : Z := 23.
Definition TAG_GENERALIZED_TIME : Z := 24.

Record DerValue := { tag : Z; content : list Z }.

Definition is_constructed (v : DerValue) : bool := negb (Z.land (tag v) 32 =? 0).
Definition is_context_specific (v : DerValue) : bool := Z.land (tag v) 192 =? 128.
Definition context_tag_number (v : DerValue) : Z := Z.land (tag v) 31.

(** ** Reading *)

Definition validate_tag (tag : Z) : result unit DerError :=
  let class := Z.land tag 192 in
  let constructed := negb (Z.land tag 32 =? 0) in
  let number := Z.land tag 31 in
  if number =? 31 then Err (UnknownTag tag)
  else if negb (class =? 0) then Ok tt
  else if existsb (Z.eqb number) [1; 2; 3; 4; 5; 6; 12; 19; 20; 22; 23; 24; 28; 30] then
    if constructed then Err NotPrimitive else Ok tt
  else if existsb (Z.eqb number) [16; 17] then
    if constructed then Ok tt else Err NotConstructed
  else Err (UnknownTag tag).

(** The length, and the number of bytes it takes. *)
Definition parse_length (buf : list Z) : fallible (Z * Z) DerError :=
  match buf with
  | [] => Ret (Err UnexpectedEnd)
  | first :: _ =>
      if first <? 128 then Ret (Ok (first, 1))
      else
        let n := Z.land first 127 in
        if (n =? 0) || (4 <? n) then Ret (Err InvalidLength)
        else if len buf <? 1 + n then Ret (Err UnexpectedEnd)
        else
          length <-! for_each (λ i length, b <-! index buf (1 + i); Ret (Z.lor (wrap64 (Z.shiftl length 8)) b))
                       (Z.of_nat <$> seq 0 (Z.to_nat n)) 0;
          leading <-! (if 1 <? n then b <-! index buf 1; Ret (b =? 0) else Ret false);
          if ((n =? 1) && (length <? 128)) || leading then Ret (Err InvalidLength)
          else Ret (Ok (length, 1 + n))
  end.

(** What a reading method leaves, and its answer. *)
Definition reading (A : Type) : Type := outcome (list Z * result A DerError).

Definition read_tlv (buf : list Z) : reading DerValue :=
  match buf with
  | [] => Ret (buf, Err UnexpectedEnd)
  | tag :: after =>
      match validate_tag tag with
      | Err e => Ret (buf, Err e)
      | Ok _ =>
          r <-! parse_length after;
          match r with
          | Err e => Ret (buf, Err e)
          | Ok (length, header_len) =>
              let total := 1 + header_len + length in
              if len buf <? total then Ret (buf, Err UnexpectedEnd)
              else
                content <-! slice buf (1 + header_len) (1 + header_len + length);
                rest <-! slice_from buf total;
                Ret (rest, Ok {| tag := tag; content := content |})
          end
      end
  end.

(** A value of another tag is read all the same. *)
Definition read_tag (expected : Z) (buf : list Z) : reading DerValue :=
  r <-! read_tlv buf;
  match r with
  | (rest, Ok v) => Ret (rest, if negb (tag v =? expected) then Err (WrongTag expected (tag v)) else Ok v)
  | (rest, Err e) => Ret (rest, Err e)
  end.

Definition peek_tag (buf : list Z) : option Z := head buf.

Definition into_reader (v : DerValue) : result (list Z) DerError :=
  if negb (is_constructed v) then Err NotConstructed else Ok (content v).

Definition parse_single (buf : list Z) : fallible DerValue DerError :=
  r <-! read_tlv buf;
  match r with
  | (rest, Ok v) => Ret (match rest with [] => Ok v | _ => Err TrailingData end)
  | (_, Err e) => Ret (Err e)
  end.

(** The loop of [walk] over the values of [buf], at [depth]. *)
Fixpoint walk_loop (fuel : nat) (buf : list Z) (depth max_depth : Z) : fallible unit DerError :=
  match fuel with
  | O => Panic
  | S fuel' =>
      match buf with
      | [] => Ret (Ok tt)
      | _ =>
          r <-! read_tlv buf;
          match r with
          | (_, Err e) => Ret (Err e)
          | (rest, Ok value) =>
              _ <-!? (if is_constructed value then
                        if max_depth <? depth + 1 then Ret (Err MaxDepthExceeded)
                        else walk_loop fuel' (content value) (depth + 1) max_depth
                      else Ret (Ok tt));
              walk_loop fuel' rest depth max_depth
          end
      end
  end.

Definition walk (buf : list Z) (depth max_depth : Z) : fallible unit DerError :=
  if max_depth <? depth then Ret (Err MaxDepthExceeded) else walk_loop (S (length buf)) buf depth max_depth.

Definition validate_der_tree (buf : list Z) (max_depth : Z) : fallible unit DerError :=
  value <-!? parse_single buf;
  if is_constructed value then walk (content value) 1 max_depth else Ret (Ok tt).

(** ** The values of the universal types *)

Definition expect_tag (v : DerValue) (expected : Z) : result unit DerError :=
  if negb (tag v =? expected) then Err (WrongTag expected (tag v)) else Ok tt.

Definition as_integer_bytes (v : DerValue) : result (list Z) DerError :=
  _ <-? expect_tag v TAG_INTEGER;
  match content v with
  | [] => Err InvalidInteger
  | b0 :: b1 :: _ =>
      if ((b0 =? 0) && (Z.land b1 128 =? 0)) || ((b0 =? 255) && negb (Z.land b1 128 =? 0)) then Err InvalidInteger
      else Ok (content v)
  | _ => Ok (content v)
  end.

Definition as_unsigned_integer (v : DerValue) : result (list Z) DerError :=
  bytes <-? as_integer_bytes v;
  match bytes with
  | b0 :: rest =>
      if negb (Z.land b0 128 =? 0) then Err InvalidInteger
      else if (1 <? len bytes) && (b0 =? 0) then Ok rest
      else Ok bytes
  | [] => Ok bytes
  end.

Definition as_i64 (v : DerValue) : fallible Z DerError :=
  bytes <-!? Ret (as_integer_bytes v);
  if 8 <? len bytes then Ret (Err InvalidInteger)
  else
    b0 <-! index bytes 0;
    let start := if negb (Z.land b0 128 =? 0) then -1 else 0 in
    Ret (Ok (foldl (λ v b, Z.lor (i64 (Z.shiftl v 8)) (Z.land b 255)) start bytes)).

(** The number of unused bits, and the bytes. *)
Definition as_bit_string (v : DerValue) : result (Z * list Z) DerError :=
  _ <-? expect_tag v TAG_BIT_STRING;
  match content v with
  | [] => Err InvalidLength
  | unused :: data =>
      if 7 <? unused then Err InvalidLength
      else if negb (unused =? 0) then
        match last data with
        | None => Err InvalidLength
        | Some b => if negb (Z.land b (Z.shiftl 1 unused - 1) =? 0) then Err InvalidLength else Ok (unused, data)
        end
      else Ok (unused, data)
  end.

(** The loop of [as_oid] over the bytes after the first. *)
Fixpoint oid_loop (bytes : list Z) (value : Z) (out : list Z) : result (Z * list Z) DerError :=
  match bytes with
  | [] => Ok (value, out)
  | b :: bytes =>
      if Z.shiftr u64_max 7 <? value then Err InvalidOid
      else
        let value := Z.lor (wrap64 (Z.shiftl value 7)) (Z.land b 127) in
        if Z.land b 128 =? 0 then oid_loop bytes 0 (out ++ [value]) else oid_loop bytes value out
  end.

Definition as_oid (v : DerValue) : result (list Z) DerError :=
  _ <-? expect_tag v TAG_OID;
  match content v with
  | [] => Err InvalidOid
  | first_byte :: rest =>
      r <-? oid_loop rest 0 [first_byte / 40; first_byte `mod` 40];
      if negb (r.1 =? 0) then Err InvalidOid else Ok r.2
  end.

Definition as_string (v : DerValue) : result string DerError :=
  if existsb (Z.eqb (tag v)) [TAG_UTF8_STRING; TAG_PRINTABLE_STRING; TAG_IA5_STRING] then
    match string_from_utf8 (content v) with Some s => Ok s | None => Err InvalidLength end
  else Err (WrongTag TAG_UTF8_STRING (tag v)).

Definition as_utc_time (v : DerValue) : result (list Z) DerError := _ <-? expect_tag v TAG_UTC_TIME; Ok (content v).

Definition as_generalized_time (v : DerValue) : result (list Z) DerError := _ <-? expect_tag v TAG_GENERALIZED_TIME; Ok (content v).

Definition as_bool (v : DerValue) : result bool DerError :=
  _ <-? expect_tag v TAG_BOOLEAN;
  match content v with
  | [b] => if b =? 0 then Ok false else if b =? 255 then Ok true else Err InvalidLength
  | _ => Err InvalidLength
  end.

Definition oid_to_string (arcs : list Z) : string := string_join "." (u64_to_string <$> arcs).

(** ** Writing *)

(** The loop of [enc_len]: at most the eight bytes of a [usize]. *)
Fixpoint len_loop (fuel : nat) (n : Z) (be : list Z) : list Z :=
  match fuel with
  | O => be
  | S fuel' => if 0 <? n then len_loop fuel' (Z.shiftr n 8) (Z.land n 255 :: be) else be
  end.

Definition enc_len (n : Z) : list Z :=
  if n <? 128 then [as_u8 n]
  else let be := len_loop 8 n [] in Z.lor 128 (as_u8 (len be)) :: be.

Definition enc_tlv (tag : Z) (content : list Z) : list Z := tag :: enc_len (len content) ++ content.

Definition enc_sequence (items : list (list Z)) : list Z := enc_tlv TAG_SEQUENCE (concat items).

(** The magnitude without the zeros in front of its last byte. *)
Fixpoint strip_zeros (magnitude : list Z) : list Z :=
  match magnitude with
  | b :: rest => match rest with [] => magnitude | _ => if b =? 0 then strip_zeros rest else magnitude end
  | [] => magnitude
  end.

Definition enc_integer_unsigned (magnitude : list Z) : outcome (list Z) :=
  let trimmed := match magnitude with [] => [0] | _ => strip_zeros magnitude end in
  b0 <-! index trimmed 0;
  Ret (enc_tlv TAG_INTEGER ((if negb (Z.land b0 128 =? 0) then [0] else []) ++ trimmed)).

Definition enc_integer_small (v : Z) : outcome (list Z) := enc_integer_unsigned (to_be_bytes 8 v).

Definition enc_octet_string (data : list Z) : list Z := enc_tlv TAG_OCTET_STRING data.

Definition enc_bit_string (data : list Z) : list Z := enc_tlv TAG_BIT_STRING (0 :: data).

Definition enc_null : list Z := enc_tlv TAG_NULL [].

(** [a * b] on [u64]. *)
Definition mul64 `{Profile} (a b : Z) : outcome Z := if overflow_checks && (u64_max <? a * b) then Panic else Ret (wrap64 (a * b)).

(** The groups of seven bits above the last, lowest first: at most nine of a [u64]. *)
Fixpoint arc_loop (fuel : nat) (n : Z) (stack : list Z) : list Z :=
  match fuel with
  | O => stack
  | S fuel' => if 0 <? n then arc_loop fuel' (Z.shiftr n 7) (stack ++ [Z.lor (Z.land n 127) 128]) else stack
  end.

Definition enc_arc (arc : Z) : list Z := reverse (arc_loop 10 (Z.shiftr arc 7) [Z.land arc 127]).

Definition enc_oid `{Profile} (arcs : list Z) : outcome (list Z) :=
  body <-! match arcs with
           | a0 :: a1 :: rest => p <-! mul64 a0 40; p <-! add64 p a1; Ret (as_u8 p :: concat (enc_arc <$> rest))
           | _ => Ret []
           end;
  Ret (enc_tlv TAG_OID body).

Definition enc_context_constructed (tag_num : Z) (content : list Z) : list Z := enc_tlv (Z.lor 160 (Z.land tag_num 31)) content.

(** ** One encoding per value

    A length has one encoding, the shortest; so [read_tlv] succeeds exactly on what [enc_tlv]
    writes ([read_tlv_iff]), and [validate_der_tree] accepts exactly the encodings of values
    nested no deeper than it is told ([der_canonical]).  Integers and object identifiers that
    are written are read back. *)

(** ** Big-endian numbers without zeros in front *)

Definition minimal (bs : list Z) : Prop := bytes_ok bs ∧ head bs ≠ Some 0.

Lemma bytes_ok_snoc bs b : bytes_ok (bs ++ [b]) ↔ bytes_ok bs ∧ is_u8 b.
Proof. unfold bytes_ok. rewrite Forall_app, Forall_singleton. done. Qed.

Lemma minimal_snoc bs b : minimal (bs ++ [b]) → minimal bs ∧ is_u8 b ∧ 0 < from_be_bytes bs * 256 + b.
Proof.
  intros [Hb Hh]. apply bytes_ok_snoc in Hb as [Hbs Hb]. pose proof (from_be_bytes_nonneg bs Hbs) as H0. destruct bs as [|x bs]; unfold is_u8 in *.
  - split_and!; [by split; [constructor|]|lia|lia|]. cbn in Hh. change (from_be_bytes []) with 0 in *. assert (b ≠ 0) by congruence. lia.
  - cbn in Hh. split_and!; [by split|lia|lia|]. assert (x ≠ 0) as Hx by congruence. assert (0 < from_be_bytes (x :: bs)) as Hp; [|lia].
    clear - Hbs Hx. revert Hbs. induction bs as [|y bs IH] using rev_ind; intros Hbs.
    + apply Forall_cons in Hbs as [Hx2 _]. unfold is_u8 in Hx2. cbn. lia.
    + rewrite app_comm_cons in Hbs |- *. apply bytes_ok_snoc in Hbs as [Hbs Hy]. specialize (IH Hbs). rewrite from_be_bytes_app. unfold is_u8 in Hy. lia.
Qed.

Lemma shiftr_8 v b : 0 ≤ v → is_u8 b → Z.shiftr (v * 256 + b) 8 = v ∧ Z.land (v * 256 + b) 255 = b.
Proof.
  unfold is_u8. intros Hv Hb. split.
  - rewrite Z.shiftr_div_pow2 by lia. change (2 ^ 8) with 256. rewrite Z.div_add_l by lia. rewrite Z.div_small by lia. lia.
  - change 255 with (2 ^ 8 - 1). rewrite land_low by lia. change (2 ^ 8) with 256. rewrite Z.add_comm, Z.mod_add by lia. apply Z.mod_small. lia.
Qed.

Lemma len_loop_minimal bs : ∀ fuel acc, minimal bs → (length bs ≤ fuel)%nat → len_loop fuel (from_be_bytes bs) acc = bs ++ acc.
Proof.
  induction bs as [|b bs IH] using rev_ind; intros fuel acc Hm Hf.
  - by destruct fuel.
  - apply minimal_snoc in Hm as (Hm & Hb & Hp). rewrite length_app in Hf. cbn [length] in Hf. destruct fuel as [|fuel]; [lia|]. cbn [len_loop].
    rewrite from_be_bytes_app, (proj2 (Z.ltb_lt _ _)) by done. destruct (shiftr_8 (from_be_bytes bs) b) as [-> ->]; [by apply from_be_bytes_nonneg, Hm|done|].
    rewrite IH by (done || lia). by rewrite <-app_assoc.
Qed.

Lemma minimal_exists k : ∀ n, 0 < n < 256 ^ Z.of_nat k → ∃ bs, minimal bs ∧ from_be_bytes bs = n ∧ bs ≠ [] ∧ (length bs ≤ k)%nat.
Proof.
  induction k as [|k IH]; intros n Hn; [cbn in Hn; lia|]. rewrite Nat2Z.inj_succ, Z.pow_succ_r in Hn by lia.
  pose proof (Z.div_mod n 256 ltac:(lia)) as Hd. pose proof (Z.mod_pos_bound n 256 ltac:(lia)) as Hm.
  destruct (Z.eq_dec (n / 256) 0) as [Hz|Hz].
  - exists [n]. split_and!; [split; [apply Forall_singleton; unfold is_u8; lia|cbn; intros [=]; lia]|cbn; lia|done|cbn; lia].
  - destruct (IH (n / 256)) as (bs & [Hb Hh] & Hv & Hne & Hl); [split; [pose proof (Z.div_pos n 256); lia|apply Z.div_lt_upper_bound; lia]|].
    exists (bs ++ [n `mod` 256]). split_and!; [split|by rewrite from_be_bytes_app, Hv; lia|by destruct bs|rewrite length_app; cbn; lia].
    + apply bytes_ok_snoc. split; [done|unfold is_u8; lia].
    + by destruct bs.
Qed.

(** ** Lengths *)

Lemma lor_128 k : 0 ≤ k < 128 → Z.lor 128 k = 128 + k ∧ Z.land (128 + k) 127 = k.
Proof.
  intros Hk. split.
  - rewrite (lor_add_disjoint 128 k 7) by (done || lia). done.
  - change 127 with (2 ^ 7 - 1). rewrite land_low by lia. change (2 ^ 7) with 128. rewrite Z.add_comm. replace (k + 128) with (k + 1 * 128) by lia. rewrite Z.mod_add, Z.mod_small by lia. done.
Qed.

Lemma enc_len_short n : 0 ≤ n < 128 → enc_len n = [n].
Proof. intros Hn. unfold enc_len. rewrite (proj2 (Z.ltb_lt _ _)) by lia. by rewrite as_u8_id by (unfold is_u8; lia). Qed.

Lemma enc_len_long bs : minimal bs → 128 ≤ from_be_bytes bs → (length bs ≤ 8)%nat → enc_len (from_be_bytes bs) = 128 + len bs :: bs.
Proof.
  intros Hm Hn Hl. unfold enc_len. rewrite (proj2 (Z.ltb_ge _ _)) by done. cbv zeta. rewrite len_loop_minimal, app_nil_r by done.
  rewrite as_u8_id by (unfold is_u8, len; lia). by rewrite (proj1 (lor_128 (len bs) ltac:(unfold len; lia))).
Qed.

(** The bytes of a long length, read in order. *)
Lemma length_bytes b0 l n : bytes_ok l → (n ≤ length l)%nat → (n ≤ 7)%nat →
  for_each (λ i length, b <-! index (b0 :: l) (1 + i); Ret (Z.lor (wrap64 (Z.shiftl length 8)) b)) (Z.of_nat <$> seq 0 n) 0 =
  Ret (from_be_bytes (take n l)).
Proof.
  intros Hl. induction n as [|n IH]; intros Hn H7; [done|]. rewrite seq_S, fmap_app, for_each_app, IH by lia. cbn [outcome_bind fmap list_fmap for_each Nat.add].
  destruct (lookup_lt_is_Some_2 l n ltac:(lia)) as [b Eb]. replace (1 + Z.of_nat n) with (Z.of_nat (S n)) by lia. rewrite (index_nat _ _ b) by done. cbn [outcome_bind].
  assert (is_u8 b) as Hb by exact (Forall_lookup_1 _ _ _ _ Hl Eb). rewrite (take_S_r _ _ b) by done. rewrite from_be_bytes_app. f_equal.
  assert (bytes_ok (take n l)) as Ht by by apply Forall_take. pose proof (from_be_bytes_bound _ Ht) as Hbd.
  assert (256 ^ len (take n l) ≤ 256 ^ 6) as Hp by (apply Z.pow_le_mono_r; [lia|]; unfold len; rewrite length_take; lia). change (256 ^ 6) with 281474976710656 in Hp.
  rewrite Z.shiftl_mul_pow2 by lia. change (2 ^ 8) with 256. rewrite wrap64_id by (unfold is_u64, u64_max; lia).
  rewrite (lor_add_disjoint _ b 8); [done|lia|exact Hb|]. change (2 ^ 8) with 256. apply Z.mod_mul. lia.
Qed.

Definition short_length : Z := 4294967296.

(** A length is its short form, or the count of the bytes of a minimal number, and the bytes. *)
Lemma enc_len_cases n : 0 ≤ n < short_length →
  (n < 128 ∧ enc_len n = [n]) ∨
  (128 ≤ n ∧ ∃ bs, minimal bs ∧ (1 ≤ length bs ≤ 4)%nat ∧ n = from_be_bytes bs ∧ enc_len n = 128 + len bs :: bs).
Proof.
  intros Hn. destruct (Z.lt_ge_cases n 128) as [Hlt|Hge]; [left; split; [done|apply enc_len_short; lia]|right]. split; [done|].
  destruct (minimal_exists 4 n) as (bs & Hbs & Hv & Hne & Hl); [unfold short_length in Hn; change (256 ^ Z.of_nat 4) with 4294967296; lia|].
  exists bs. split_and!; [done|destruct bs; [done|cbn; lia]|done|done|]. rewrite <-Hv. apply enc_len_long; [done|lia|lia].
Qed.

(** What a long form that is read must be: two bytes or more do not say less than one could. *)
Lemma minimal_long bs : bytes_ok bs → (1 ≤ length bs)%nat →
  (minimal bs ∧ 128 ≤ from_be_bytes bs ↔
   (len bs =? 1) && (from_be_bytes bs <? 128) || (1 <? len bs) && bool_decide (head bs = Some 0) = false).
Proof.
  intros Hb Hl. unfold minimal. destruct bs as [|b1 [|b2 t]]; [cbn in Hl; lia| |].
  - change (len [b1]) with 1. cbn [Z.eqb andb Pos.eqb Z.ltb Z.compare Pos.compare Pos.compare_cont orb]. rewrite orb_false_r, Z.ltb_ge. cbn. split; [tauto|].
    intros H. split_and!; [done|intros [=]; lia|done].
  - rewrite !len_cons. pose proof (len_nonneg t). rewrite (proj2 (Z.eqb_neq _ 1)), (proj2 (Z.ltb_lt 1 _)) by lia. cbn [andb orb head].
    rewrite bool_decide_eq_false. split; [tauto|]. intros Hh. split_and!; [done|done|].
    assert (256 ≤ from_be_bytes (b1 :: b2 :: t)) as Hx; [|lia]. assert (b1 ≠ 0) as Hb1 by congruence. clear - Hb Hb1.
    apply Forall_cons in Hb as [H1 Hb]. apply Forall_cons in Hb as [H2 Hb]. unfold is_u8 in *.
    revert Hb. induction t as [|x t IH] using rev_ind; intros Hb; [cbn; lia|]. apply bytes_ok_snoc in Hb as [Hb Hx].
    change (b1 :: b2 :: t ++ [x]) with ((b1 :: b2 :: t) ++ [x]). rewrite from_be_bytes_app. specialize (IH Hb). unfold is_u8 in Hx. lia.
Qed.

Definition length_read (buf : list Z) (r : result (Z * Z) DerError) : Prop :=
  ∀ n h, r = Ok (n, h) ↔ 0 ≤ n < short_length ∧ h = len (enc_len n) ∧ ∃ rest, buf = enc_len n ++ rest.

Lemma length_refused buf e : (∀ n rest, 0 ≤ n < short_length → buf ≠ enc_len n ++ rest) → length_read buf (Err e).
Proof. intros Hb n h. split; [done|]. intros (Hn & _ & rest & E). by destruct (Hb n rest Hn). Qed.

Lemma parse_long first l : 128 ≤ first < 256 → bytes_ok l →
  let n := first - 128 in let bs := take (Z.to_nat n) l in
  parse_length (first :: l) =
    if (n =? 0) || (4 <? n) then Ret (Err InvalidLength)
    else if len l <? n then Ret (Err UnexpectedEnd)
    else if (n =? 1) && (from_be_bytes bs <? 128) || (1 <? n) && bool_decide (head bs = Some 0) then Ret (Err InvalidLength)
    else Ret (Ok (from_be_bytes bs, 1 + n)).
Proof.
  intros Hf Hl n bs. unfold parse_length. rewrite (proj2 (Z.ltb_ge _ _)) by lia. cbv zeta.
  destruct (lor_128 n ltac:(unfold n; lia)) as [_ Hm]. replace (128 + n) with first in Hm by (unfold n; lia). rewrite Hm.
  destruct (Z.eqb_spec n 0); [done|]. destruct (Z.ltb_spec 4 n); [done|]. cbn [orb]. rewrite len_cons.
  destruct (Z.ltb_spec (len l) n); [by rewrite (proj2 (Z.ltb_lt _ _)) by lia|]. rewrite (proj2 (Z.ltb_ge _ _)) by lia.
  rewrite length_bytes by (done || unfold n, len in *; lia). cbn [outcome_bind]. fold bs.
  assert (length bs = Z.to_nat n) as Hbl by (unfold bs; rewrite length_take; unfold len in *; lia).
  destruct (Z.ltb_spec 1 n); [|cbn [outcome_bind andb]; by destruct (_ || _)].
  assert (∃ b1 t, bs = b1 :: t) as (b1 & t & Ebs) by (destruct bs; [cbn in Hbl; lia|by eexists _, _]).
  assert (index (first :: l) 1 = Ret b1) as ->.
  { apply (index_nat (first :: l) 1). rewrite <-(take_drop (Z.to_nat n) l). fold bs. by rewrite Ebs. }
  cbn [outcome_bind andb]. assert (head bs = Some b1) as -> by by rewrite Ebs.
  replace (bool_decide (Some b1 = Some 0)) with (b1 =? 0) by (case_bool_decide as Hx; destruct (Z.eqb_spec b1 0); congruence). by destruct (_ || _).
Qed.

Lemma parse_length_total buf : bytes_ok buf → ∃ r, parse_length buf = Ret r ∧ length_read buf r.
Proof.
  intros Hb. destruct buf as [|first l].
  { eexists. split; [done|]. apply length_refused. intros n rest Hn E. by destruct (enc_len_cases n Hn) as [[_ E2]|(_ & bs & _ & _ & _ & E2)]; rewrite E2 in E. }
  apply Forall_cons in Hb as [Hf Hl]. unfold is_u8 in Hf. destruct (Z.ltb_spec first 128) as [Hs|Hs].
  { exists (Ok (first, 1)). cbn [parse_length]. rewrite (proj2 (Z.ltb_lt _ _)) by done. split; [done|]. intros n h. split.
    - intros [= <- <-]. rewrite enc_len_short by lia. unfold short_length. split_and!; [lia|lia|done|by exists l].
    - intros (Hn & -> & rest & E). destruct (enc_len_cases n Hn) as [[_ E2]|(_ & bs & _ & _ & _ & E2)]; rewrite E2 in E |- *; injection E as -> _; [done|].
      pose proof (len_nonneg bs). lia. }
  rewrite parse_long by (done || lia). cbv zeta. set (n := first - 128). set (bs := take (Z.to_nat n) l).
  assert (∀ m rest, 0 ≤ m < short_length → first :: l = enc_len m ++ rest → 1 ≤ n ≤ 4 ∧ n ≤ len l ∧ minimal bs ∧ m = from_be_bytes bs ∧ 128 ≤ m ∧ len (enc_len m) = 1 + n) as Hinv.
  { intros m rest Hm E. destruct (enc_len_cases m Hm) as [[H1 E2]|(H1 & bs' & H2 & H3 & H4 & E2)]; rewrite E2 in E |- *; injection E as E3 E4; [lia|].
    assert (n = len bs') as En by (unfold n; lia). assert (bs = bs') as Ebs by (unfold bs; rewrite E4, En; unfold len; rewrite Nat2Z.id; apply take_app_length).
    rewrite Ebs, len_cons, E4, len_app. pose proof (len_nonneg rest). unfold len in En |- *. split_and!; try done; lia. }
  destruct ((n =? 0) || (4 <? n)) eqn:E1; [eexists; split; [done|]; apply length_refused; intros m rest Hm E; destruct (Hinv m rest Hm E); lia|].
  destruct (Z.ltb_spec (len l) n); [eexists; split; [done|]; apply length_refused; intros m rest Hm E; destruct (Hinv m rest Hm E) as (_ & ? & _); lia|].
  assert (length bs = Z.to_nat n) as Hbl by (unfold bs; rewrite length_take; unfold len in *; lia). assert (len bs = n) as Hlb by (unfold len; lia).
  assert (bytes_ok bs) as Hbs by by apply Forall_take. pose proof (minimal_long bs Hbs ltac:(lia)) as Hmin. rewrite Hlb in Hmin.
  destruct ((n =? 1) && (from_be_bytes bs <? 128) || (1 <? n) && bool_decide (head bs = Some 0)) eqn:E2.
  - eexists. split; [done|]. apply length_refused. intros m rest Hm E. destruct (Hinv m rest Hm E) as (_ & _ & H3 & -> & H4 & _). discriminate (proj1 Hmin (conj H3 H4)).
  - destruct (proj2 Hmin eq_refl) as [Hm H128]. eexists. split; [done|]. intros m h. split.
    + intros [= <- <-]. pose proof (from_be_bytes_bound bs Hbs) as Hbd. rewrite Hlb in Hbd. assert (256 ^ n ≤ 256 ^ 4) as Hp by (apply Z.pow_le_mono_r; lia).
      change (256 ^ 4) with short_length in Hp. rewrite enc_len_long by (done || lia). rewrite len_cons, Hlb. split_and!; [lia|lia|done|].
      exists (drop (Z.to_nat n) l). cbn [app]. unfold bs. rewrite take_drop. f_equal. unfold n. lia.
    + intros (Hm2 & -> & rest & E). by destruct (Hinv m rest Hm2 E) as (_ & _ & _ & -> & _ & ->).
Qed.

(** ** Values *)

(** A value that has an encoding: a tag the reader takes, and a content that is not too long. *)
Definition value_ok (v : DerValue) : Prop := validate_tag (tag v) = Ok tt ∧ len (content v) < short_length.

Definition encoded (v : DerValue) : list Z := enc_tlv (tag v) (content v).

Lemma enc_len_app_inj n m r s : 0 ≤ n < short_length → 0 ≤ m < short_length → bytes_ok (enc_len n ++ r) → enc_len n ++ r = enc_len m ++ s → n = m ∧ r = s.
Proof.
  intros Hn Hm Hb E. destruct (parse_length_total (enc_len n ++ r) Hb) as (x & _ & Hx).
  assert (x = Ok (n, len (enc_len n))) as -> by (apply Hx; split_and!; [lia|lia|done|by exists r]).
  assert (Ok (n, len (enc_len n)) = Ok (m, len (enc_len m)) :> result (Z * Z) DerError) as [= Enm _] by (apply Hx; split_and!; [lia|lia|done|by exists s]).
  subst m. split; [done|]. by apply app_inv_head in E.
Qed.

Lemma encoded_app_inj v w r s : value_ok v → value_ok w → bytes_ok (encoded v ++ r) → encoded v ++ r = encoded w ++ s → v = w ∧ r = s.
Proof.
  intros [_ Hv] [_ Hw] Hb E. unfold encoded, enc_tlv in *. cbn [app] in *. injection E as Et E. apply Forall_cons in Hb as [_ Hb]. rewrite <-app_assoc in Hb. rewrite <- !app_assoc in E.
  apply enc_len_app_inj in E as [El E]; [|by split; [apply len_nonneg|]..|done]. apply app_inj_1 in E as [Ec ->]; [|unfold len in El; lia].
  destruct v, w. cbn in *. by subst.
Qed.

(** [read_tlv] reads a value exactly from its encoding, and never panics. *)
Lemma read_tlv_spec buf : bytes_ok buf →
  (∃ v rest, value_ok v ∧ buf = encoded v ++ rest ∧ read_tlv buf = Ret (rest, Ok v)) ∨
  (∃ e, read_tlv buf = Ret (buf, Err e) ∧ ∀ v rest, value_ok v → buf ≠ encoded v ++ rest).
Proof.
  intros Hb. destruct buf as [|tg after]; [right; by eexists|]. cbn [read_tlv]. destruct (validate_tag tg) as [[]|e] eqn:Et.
  2: { right. eexists. split; [done|]. intros v rest [Hv _] [= -> _]. congruence. }
  apply Forall_cons in Hb as [_ Hb]. destruct (parse_length_total after Hb) as (r & -> & Hr). cbn [outcome_bind].
  assert (∀ v rest, value_ok v → tg :: after = encoded v ++ rest → r = Ok (len (content v), len (enc_len (len (content v)))) ∧
    after = enc_len (len (content v)) ++ content v ++ rest) as Hinv.
  { intros v rest [_ Hv] [= -> E]. rewrite <-app_assoc in E. split; [|done]. apply Hr. split_and!; [apply len_nonneg|done|done|by eexists]. }
  destruct r as [[n h]|e]; [|right; eexists; split; [done|]; intros v rest Hv E; by destruct (Hinv v rest Hv E)].
  destruct (proj1 (Hr n h) eq_refl) as (Hn & -> & rest0 & E0). pose proof (f_equal len E0) as El. rewrite len_app in El.
  pose proof (len_nonneg (enc_len n)) as H0. rewrite len_cons. destruct (Z.ltb_spec (1 + len after) (1 + len (enc_len n) + n)).
  { right. eexists. split; [done|]. intros v rest Hv E. destruct (Hinv v rest Hv E) as [[= -> _] E1]. rewrite E0 in E1. apply app_inv_head in E1.
    rewrite E1, len_app in El. pose proof (len_nonneg rest). lia. }
  left. assert (n ≤ len rest0) as Hle by lia. exists {| tag := tg; content := take (Z.to_nat n) rest0 |}, (drop (Z.to_nat n) rest0).
  assert (len (take (Z.to_nat n) rest0) = n) as Hlt by (unfold len in *; rewrite length_take; lia).
  assert (tg :: after = encoded {| tag := tg; content := take (Z.to_nat n) rest0 |} ++ drop (Z.to_nat n) rest0) as E.
  { unfold encoded, enc_tlv. cbn [tag content app]. rewrite Hlt, <-app_assoc, take_drop. by rewrite E0. }
  split; [split; cbn; [done|lia]|]. split; [done|].
  assert (tg :: after = (tg :: enc_len n) ++ take (Z.to_nat n) rest0 ++ drop (Z.to_nat n) rest0) as E2 by (rewrite take_drop; cbn [app]; by rewrite E0).
  rewrite E2, slice_middle by (rewrite ?len_cons; lia). cbn [outcome_bind]. rewrite app_assoc, slice_from_app by (rewrite len_app, len_cons; lia). done.
Qed.

Lemma read_encoded v rest : value_ok v → bytes_ok (encoded v ++ rest) → read_tlv (encoded v ++ rest) = Ret (rest, Ok v).
Proof.
  intros Hv Hb. destruct (read_tlv_spec _ Hb) as [(w & rest' & Hw & E & ->)|(e & _ & Hno)]; [|by destruct (Hno v rest Hv)].
  by destruct (encoded_app_inj _ _ _ _ Hv Hw Hb E) as [-> ->].
Qed.

(** ** Trees

    The values of a buffer: the first one, what is in it when it is constructed, and the rest. *)

Inductive forest :=
| Leaf
| Primitive (t : Z) (c : list Z) (rest : forest)
| Constructed (t : Z) (inside rest : forest).

Fixpoint forest_bytes (f : forest) : list Z :=
  match f with
  | Leaf => []
  | Primitive t c rest => enc_tlv t c ++ forest_bytes rest
  | Constructed t inside rest => enc_tlv t (forest_bytes inside) ++ forest_bytes rest
  end.

(** How deep the constructed values are nested. *)
Fixpoint forest_depth (f : forest) : Z :=
  match f with
  | Leaf => 0
  | Primitive _ _ rest => forest_depth rest
  | Constructed _ inside rest => Z.max (1 + forest_depth inside) (forest_depth rest)
  end.

Fixpoint forest_ok (f : forest) : Prop :=
  match f with
  | Leaf => True
  | Primitive t c rest => value_ok {| tag := t; content := c |} ∧ Z.land t 32 = 0 ∧ forest_ok rest
  | Constructed t inside rest => value_ok {| tag := t; content := forest_bytes inside |} ∧ Z.land t 32 ≠ 0 ∧ forest_ok inside ∧ forest_ok rest
  end.

(** One value and no rest. *)
Definition single (f : forest) : Prop :=
  match f with Leaf => False | Primitive _ _ rest | Constructed _ _ rest => rest = Leaf end.

Lemma forest_depth_nonneg f : 0 ≤ forest_depth f.
Proof. induction f; cbn; lia. Qed.

Lemma bytes_ok_app l r : bytes_ok (l ++ r) ↔ bytes_ok l ∧ bytes_ok r.
Proof. apply Forall_app. Qed.

Lemma enc_tlv_bytes t c : bytes_ok (enc_tlv t c) → bytes_ok c.
Proof. unfold enc_tlv. intros H. apply Forall_cons in H as [_ H]. by apply bytes_ok_app in H as [_ H]. Qed.

Lemma enc_len_nonempty n : 0 ≤ n < short_length → (1 ≤ length (enc_len n))%nat.
Proof. intros Hn. destruct (enc_len_cases n Hn) as [[_ ->]|(_ & bs & _ & _ & _ & ->)]; cbn; lia. Qed.

Lemma encoded_longer v : value_ok v → (2 + length (content v) ≤ length (encoded v))%nat.
Proof.
  intros [_ Hl]. unfold encoded, enc_tlv. cbn [length]. rewrite length_app. pose proof (enc_len_nonempty (len (content v)) (conj (len_nonneg _) Hl)). lia.
Qed.

(** The bytes of values are those of one list of values. *)
Lemma forest_bytes_inj f : ∀ g, forest_ok f → forest_ok g → bytes_ok (forest_bytes f) → forest_bytes f = forest_bytes g → f = g.
Proof.
  assert (∀ v l, [] ≠ encoded v ++ l) as Hnil by done.
  induction f as [|t c rest IH|t ins IHi rest IH]; intros g Hf Hg Hb E; destruct g as [|t' c' rest'|t' ins' rest']; cbn [forest_ok forest_bytes] in *; try done.
  - destruct Hf as (Hv & Hc & Hf), Hg as (Hv' & Hc' & Hg). destruct (encoded_app_inj _ _ _ _ Hv Hv' Hb E) as [[= -> ->] Er].
    apply bytes_ok_app in Hb as [_ Hb]. by rewrite (IH rest').
  - exfalso. destruct Hf as (Hv & Hc & Hf), Hg as (Hv' & Hc' & Hg). destruct (encoded_app_inj _ _ _ _ Hv Hv' Hb E) as [[= -> _] _]. done.
  - exfalso. destruct Hf as (Hv & Hc & Hf), Hg as (Hv' & Hc' & Hg). destruct (encoded_app_inj _ _ _ _ Hv Hv' Hb E) as [[= -> _] _]. done.
  - destruct Hf as (Hv & Hc & Hi & Hf), Hg as (Hv' & Hc' & Hi' & Hg). destruct (encoded_app_inj _ _ _ _ Hv Hv' Hb E) as [[= -> Ei] Er].
    apply bytes_ok_app in Hb as [Hbi Hb]. apply enc_tlv_bytes in Hbi. by rewrite (IHi ins'), (IH rest').
Qed.

Lemma constructed_land v : is_constructed v = false ↔ Z.land (tag v) 32 = 0.
Proof. unfold is_constructed. by destruct (Z.eqb_spec (Z.land (tag v) 32) 0). Qed.

Lemma forest_not_encoded buf f : (∀ v rest, value_ok v → buf ≠ encoded v ++ rest) → buf ≠ [] → forest_ok f → buf ≠ forest_bytes f.
Proof.
  intros Hno Hne Hf E. destruct f as [|t c rest|t ins rest]; cbn [forest_bytes forest_ok] in *; [done|..].
  - by apply (Hno _ (forest_bytes rest) (proj1 Hf)).
  - by apply (Hno _ (forest_bytes rest) (proj1 Hf)).
Qed.

(** The values of a buffer that starts with a value. *)
Lemma forest_encoded v rest f : value_ok v → bytes_ok (encoded v ++ rest) →
  forest_ok f ∧ encoded v ++ rest = forest_bytes f ↔
  ∃ fr, forest_ok fr ∧ rest = forest_bytes fr ∧
    ((is_constructed v = false ∧ f = Primitive (tag v) (content v) fr) ∨
     (is_constructed v = true ∧ ∃ fi, forest_ok fi ∧ content v = forest_bytes fi ∧ f = Constructed (tag v) fi fr)).
Proof.
  intros Hv Hb. split.
  - intros [Hf E]. destruct f as [|t c fr|t fi fr]; cbn [forest_ok forest_bytes] in *; [done|..].
    + destruct Hf as (Hw & Hc & Hf). destruct (encoded_app_inj _ _ _ _ Hv Hw Hb E) as [-> ->]. exists fr. split_and!; [done..|]. left. by split; [apply constructed_land|].
    + destruct Hf as (Hw & Hc & Hfi & Hf). destruct (encoded_app_inj _ _ _ _ Hv Hw Hb E) as [-> ->]. exists fr. split_and!; [done..|]. right.
      split; [|by exists fi]. apply not_false_iff_true. by rewrite constructed_land.
  - intros (fr & Hfr & -> & [[Hc ->]|(Hc & fi & Hfi & Ec & ->)]); cbn [forest_ok forest_bytes].
    + apply constructed_land in Hc. by destruct v.
    + apply not_false_iff_true in Hc. rewrite constructed_land in Hc. rewrite <-Ec. by destruct v.
Qed.

Lemma walk_loop_iff fuel : ∀ buf depth max_depth, bytes_ok buf → (length buf < fuel)%nat → depth ≤ max_depth →
  ∃ r, walk_loop fuel buf depth max_depth = Ret r ∧
    (r = Ok tt ↔ ∃ f, forest_ok f ∧ buf = forest_bytes f ∧ forest_depth f ≤ max_depth - depth).
Proof.
  induction fuel as [|fuel IH]; intros buf depth max_depth Hb Hf Hd; [lia|]. destruct (decide (buf = [])) as [->|Hne].
  { exists (Ok tt). split; [done|]. split; [|done]. intros _. exists Leaf. split_and!; [done..|cbn; lia]. }
  assert (walk_loop (S fuel) buf depth max_depth = (r <-! read_tlv buf; match r with
    | (_, Err e) => Ret (Err e)
    | (rest, Ok value) => _ <-!? (if is_constructed value then if max_depth <? depth + 1 then Ret (Err MaxDepthExceeded) else walk_loop fuel (content value) (depth + 1) max_depth
                                  else Ret (Ok tt)); walk_loop fuel rest depth max_depth end)) as -> by by destruct buf.
  destruct (read_tlv_spec buf Hb) as [(v & rest & Hv & E & ->)|(e & -> & Hno)]; cbn [outcome_bind].
  2: { eexists. split; [done|]. split; [done|]. intros (f & Hf2 & E & _). exfalso. by eapply forest_not_encoded. }
  subst buf. pose proof (encoded_longer v Hv) as Hlong. rewrite length_app in Hf. pose proof Hb as Hb2. apply bytes_ok_app in Hb2 as [Hbv Hbr]. apply enc_tlv_bytes in Hbv.
  destruct (IH rest depth max_depth Hbr ltac:(lia) Hd) as (rr & Hrr & Hrr2).
  assert (∀ f, forest_ok f ∧ encoded v ++ rest = forest_bytes f ∧ forest_depth f ≤ max_depth - depth ↔
    (forest_ok f ∧ encoded v ++ rest = forest_bytes f) ∧ forest_depth f ≤ max_depth - depth) as Hassoc by tauto.
  destruct (is_constructed v) eqn:Ec.
  - destruct (Z.ltb_spec max_depth (depth + 1)).
    { cbn [outcome_bind]. eexists. split; [done|]. split; [done|]. intros (f & Hff). exfalso. apply Hassoc in Hff as [Hff Hfd].
      apply forest_encoded in Hff as (fr & _ & _ & [[Hc _]|(_ & fi & _ & _ & ->)]); [congruence| |done..]. cbn [forest_depth] in Hfd. pose proof (forest_depth_nonneg fi). lia. }
    destruct (IH (content v) (depth + 1) max_depth Hbv ltac:(lia) ltac:(lia)) as (ri & -> & Hri). cbn [outcome_bind]. destruct ri as [[]|e].
    + rewrite Hrr. eexists. split; [done|]. rewrite Hrr2. destruct (proj1 Hri eq_refl) as (fi & Hfi & Ei & Hdi). split.
      * intros (fr & Hfr & Er & Hdr). exists (Constructed (tag v) fi fr). apply Hassoc. split; [|cbn [forest_depth]; lia]. apply forest_encoded; [done..|]. exists fr. split_and!; [done..|].
        right. split; [done|]. by exists fi.
      * intros (f & Hff). apply Hassoc in Hff as [Hff Hfd]. apply forest_encoded in Hff as (fr & Hfr & -> & [[Hc _]|(_ & fi' & _ & _ & ->)]); [congruence| |done..].
        cbn [forest_depth] in Hfd. exists fr. split_and!; [done..|lia].
    + eexists. split; [done|]. split; [done|]. intros (f & Hff). exfalso. apply Hassoc in Hff as [Hff Hfd]. apply forest_encoded in Hff as (fr & _ & _ & [[Hc _]|(_ & fi & Hfi & Ei & ->)]); [congruence| |done..].
      cbn [forest_depth] in Hfd. enough (Err e = Ok tt :> result unit DerError) by done. apply Hri. exists fi. split_and!; [done..|lia].
  - cbn [outcome_bind]. rewrite Hrr. eexists. split; [done|]. rewrite Hrr2. split.
    + intros (fr & Hfr & Er & Hdr). exists (Primitive (tag v) (content v) fr). apply Hassoc. split; [|done]. apply forest_encoded; [done..|]. exists fr. split_and!; [done..|]. by left.
    + intros (f & Hff). apply Hassoc in Hff as [Hff Hfd]. apply forest_encoded in Hff as (fr & Hfr & -> & [[_ ->]|(Hc & _)]); [|congruence|done..]. by exists fr.
Qed.

Lemma parse_single_spec buf : bytes_ok buf →
  (∃ v, value_ok v ∧ buf = encoded v ∧ parse_single buf = Ret (Ok v)) ∨
  (∃ e, parse_single buf = Ret (Err e) ∧ ∀ v, value_ok v → buf ≠ encoded v).
Proof.
  intros Hb. unfold parse_single. destruct (read_tlv_spec buf Hb) as [(v & rest & Hv & E & ->)|(e & -> & Hno)]; cbn [outcome_bind].
  - destruct rest as [|x rest]; [left; exists v; split_and!; [done|by rewrite app_nil_r in E|done]|]. right. eexists. split; [done|]. intros w Hw E2.
    subst buf. rewrite <-(app_nil_r (encoded w)) in E2. by destruct (encoded_app_inj _ _ _ _ Hv Hw Hb E2).
  - right. eexists. split; [done|]. intros v Hv E. apply (Hno v [] Hv). by rewrite app_nil_r.
Qed.

Lemma single_encoded f : forest_ok f → single f → ∃ v, value_ok v ∧ forest_bytes f = encoded v.
Proof. destruct f as [|t c rest|t ins rest]; cbn; [done|..]; intros Hf ->; destruct Hf as [Hv _]; (eexists; split; [exact Hv|]); by rewrite app_nil_r. Qed.

Lemma parse_single_encoded v : value_ok v → bytes_ok (encoded v) → parse_single (encoded v) = Ret (Ok v).
Proof.
  intros Hv Hb. unfold parse_single. pose proof (read_encoded v [] Hv) as Hr. rewrite app_nil_r in Hr. by rewrite Hr.
Qed.

Lemma validate_der_tree_iff buf max_depth : bytes_ok buf → 0 ≤ max_depth →
  ∃ r, validate_der_tree buf max_depth = Ret r ∧
    (r = Ok tt ↔ ∃ f, forest_ok f ∧ single f ∧ forest_depth f ≤ max_depth ∧ buf = forest_bytes f).
Proof.
  intros Hb Hm. unfold validate_der_tree. destruct (parse_single_spec buf Hb) as [(v & Hv & -> & ->)|(e & -> & Hno)]; cbn [outcome_bind fallible_bind].
  2: { eexists. split; [done|]. split; [done|]. intros (f & Hf & Hs & _ & ->). destruct (single_encoded f Hf Hs) as (v & Hv & E). by destruct (Hno v Hv). }
  assert (∀ f, forest_ok f ∧ encoded v = forest_bytes f ↔
    (is_constructed v = false ∧ f = Primitive (tag v) (content v) Leaf) ∨
    (is_constructed v = true ∧ ∃ fi, forest_ok fi ∧ content v = forest_bytes fi ∧ f = Constructed (tag v) fi Leaf)) as Hshape.
  { intros f. pose proof (forest_encoded v [] f Hv) as Hfe. rewrite app_nil_r in Hfe. rewrite (Hfe Hb). split.
    - intros (fr & Hfr & E & H). assert (fr = Leaf) as -> by (by destruct fr). done.
    - intros H. by exists Leaf. }
  pose proof (enc_tlv_bytes _ _ Hb) as Hbc. destruct (is_constructed v) eqn:Ec.
  - unfold walk. destruct (Z.ltb_spec max_depth 1).
    { eexists. split; [done|]. split; [done|]. intros (f & Hf & _ & Hd & E). exfalso. destruct (proj1 (Hshape f) (conj Hf E)) as [[? _]|(_ & fi & _ & _ & ->)]; [congruence|].
      cbn [forest_depth] in Hd. pose proof (forest_depth_nonneg fi). lia. }
    destruct (walk_loop_iff (S (length (content v))) (content v) 1 max_depth Hbc ltac:(lia) ltac:(lia)) as (r & -> & Hr). eexists. split; [done|]. rewrite Hr. split.
    + intros (fi & Hfi & Ei & Hd). exists (Constructed (tag v) fi Leaf). destruct (proj2 (Hshape (Constructed (tag v) fi Leaf))) as [Hok E]; [right; split; [done|by exists fi]|].
      split_and!; [done..|cbn [forest_depth]; lia|done].
    + intros (f & Hf & _ & Hd & E). destruct (proj1 (Hshape f) (conj Hf E)) as [[? _]|(_ & fi & Hfi & Ei & ->)]; [congruence|]. cbn [forest_depth] in Hd. exists fi. split_and!; [done..|lia].
  - eexists. split; [done|]. split; [|done]. intros _. destruct (proj2 (Hshape (Primitive (tag v) (content v) Leaf))) as [Hok E]; [by left|].
    exists (Primitive (tag v) (content v) Leaf). by split_and!.
Qed.

(** C34: the validation of a tree of values never panics and ends; it accepts exactly the
    bytes of one value nested no deeper than asked, with the tags of its rules and the shortest
    lengths, and these bytes are the bytes of no other tree. *)
Theorem der_canonical (buf : list Z) (max_depth : Z) : bytes_ok buf → 0 ≤ max_depth →
  (∃ r, validate_der_tree buf max_depth = Ret r ∧
    (r = Ok tt ↔ ∃ f, forest_ok f ∧ single f ∧ forest_depth f ≤ max_depth ∧ buf = forest_bytes f)) ∧
  (∀ f g, forest_ok f → forest_ok g → forest_bytes f = buf → forest_bytes g = buf → f = g).
Proof.
  intros Hb Hm. split; [by apply validate_der_tree_iff|]. intros f g Hf Hg Ef Eg. apply forest_bytes_inj; [done..| |]; congruence.
Qed.

Lemma der_canonical_witness :
  let buf := [48; 8; 2; 1; 5; 48; 3; 4; 1; 7] in
  (∃ r, validate_der_tree buf 2 = Ret r ∧
    (r = Ok tt ↔ ∃ f, forest_ok f ∧ single f ∧ forest_depth f ≤ 2 ∧ buf = forest_bytes f)) ∧
  (∀ f g, forest_ok f → forest_ok g → forest_bytes f = buf → forest_bytes g = buf → f = g).
Proof. apply (der_canonical [48; 8; 2; 1; 5; 48; 3; 4; 1; 7] 2); [repeat constructor; unfold is_u8; lia|lia]. Defined.

Example der_depth_limit :
  validate_der_tree [48; 8; 2; 1; 5; 48; 3; 4; 1; 7] 2 = Ret (Ok tt) ∧ validate_der_tree [48; 8; 2; 1; 5; 48; 3; 4; 1; 7] 1 = Ret (Err MaxDepthExceeded) ∧
  validate_der_tree [48; 129; 3; 2; 1; 5] 9 = Ret (Err InvalidLength).
Proof. done. Qed.

(** ** Integers *)

Lemma strip_zeros_spec m : bytes_ok m → m ≠ [] →
  bytes_ok (strip_zeros m) ∧ from_be_bytes (strip_zeros m) = from_be_bytes m ∧ (length (strip_zeros m) ≤ length m)%nat ∧
  ∃ b0 t, strip_zeros m = b0 :: t ∧ (b0 = 0 → t = []).
Proof.
  intros Hb Hne. induction m as [|b m IH]; [done|]. destruct m as [|b2 m]; [cbn; split_and!; [done..|by exists b, []]|].
  change (strip_zeros (b :: b2 :: m)) with (if b =? 0 then strip_zeros (b2 :: m) else b :: b2 :: m). apply Forall_cons in Hb as [Hb0 Hb].
  destruct (Z.eqb_spec b 0) as [->|Hn].
  - destruct (IH Hb ltac:(done)) as (H1 & H2 & H3 & H4). split_and!; [done|by rewrite H2|cbn [length] in *; lia|done].
  - split_and!; [by constructor|done|done|by exists b, (b2 :: m)].
Qed.

Lemma from_be_bytes_cons b l : from_be_bytes (b :: l) = b * 256 ^ len l + from_be_bytes l.
Proof.
  induction l as [|x l IH] using rev_ind; [rewrite len_nil; unfold from_be_bytes; cbn [foldl]; lia|].
  rewrite app_comm_cons, !from_be_bytes_app, IH, len_app. change (len [x]) with 1. rewrite Z.pow_add_r by (pose proof (len_nonneg l); lia). ring.
Qed.

(** The bit of a byte that is the sign of the integer it starts. *)
Lemma sign_bit b : is_u8 b → (Z.land b 128 =? 0) = (b <? 128).
Proof.
  unfold is_u8. intros Hb. destruct (Z.ltb_spec b 128) as [Hlt|Hge].
  - apply Z.eqb_eq. change 128 with (2 ^ 7). apply Z.bits_inj'. intros i Hi. rewrite Z.land_spec, Z.pow2_bits_eqb, Z.bits_0 by lia.
    destruct (Z.eqb_spec 7 i) as [<-|]; [|by rewrite andb_false_r]. rewrite andb_true_r, <-(Z.mod_small b (2 ^ 7)) by lia. by apply Z.mod_pow2_bits_high.
  - apply Z.eqb_neq. intros E. pose proof (lor_128 (b - 128) ltac:(lia)) as [E2 _]. replace (128 + (b - 128)) with b in E2 by lia.
    rewrite <-E2 in E. apply (f_equal (λ z, Z.testbit z 7)) in E. rewrite Z.land_spec, Z.lor_spec in E. done.
Qed.

(** The bytes of an integer that is not negative, folded as [as_i64] does. *)
Lemma i64_fold bs : bytes_ok bs → from_be_bytes bs < 9223372036854775808 → foldl (λ v b, Z.lor (i64 (Z.shiftl v 8)) (Z.land b 255)) 0 bs = from_be_bytes bs.
Proof.
  induction bs as [|b bs IH] using rev_ind; intros Hb Hlt; [done|]. apply bytes_ok_snoc in Hb as [Hbs Hb]. pose proof (from_be_bytes_nonneg bs Hbs).
  rewrite from_be_bytes_app in Hlt |- *. unfold is_u8 in Hb. rewrite foldl_app, IH by (done || lia). cbn [foldl]. rewrite Z.shiftl_mul_pow2 by lia. change (2 ^ 8) with 256.
  rewrite i64_id by (unfold is_i64; lia). change 255 with (2 ^ 8 - 1) at 1. rewrite land_low by lia. change (2 ^ 8) with 256. rewrite (Z.mod_small b) by lia.
  apply (lor_add_disjoint _ b 8); [lia|change (2 ^ 8) with 256; lia|]. change (2 ^ 8) with 256. apply Z.mod_mul. lia.
Qed.

Lemma enc_len_bytes (c : list Z) : len c < short_length → bytes_ok (enc_len (len c)).
Proof.
  intros Hc. pose proof (len_nonneg c). destruct (enc_len_cases (len c) ltac:(lia)) as [[Hs ->]|(_ & x & [Hx _] & Hxl & _ & ->)].
  - repeat constructor; unfold is_u8; lia.
  - constructor; [unfold is_u8, len; lia|done].
Qed.

(** The content of the integer that [bs] writes: a zero in front of a sign bit. *)
Definition unsigned_content (bs : list Z) : list Z := (if 128 <=? default 0 (head bs) then [0] else []) ++ bs.

Lemma enc_unsigned m : bytes_ok m → ∃ bs b0 t, enc_integer_unsigned m = Ret (enc_tlv TAG_INTEGER (unsigned_content bs)) ∧
  bs = b0 :: t ∧ (b0 = 0 → t = []) ∧ bytes_ok bs ∧ from_be_bytes bs = from_be_bytes m ∧ len bs ≤ Z.max 1 (len m).
Proof.
  intros Hb. unfold enc_integer_unsigned. assert (∃ m', match m with [] => [0] | _ :: _ => strip_zeros m end = strip_zeros m' ∧ m' ≠ [] ∧ bytes_ok m' ∧
    from_be_bytes m' = from_be_bytes m ∧ len m' ≤ Z.max 1 (len m)) as (m' & -> & Hne & Hb' & Ev & Hl).
  { destruct m as [|b m]; [exists [0]; split_and!; try done; repeat constructor; done|]. exists (b :: m). split_and!; [done..|lia]. }
  destruct (strip_zeros_spec m' Hb' Hne) as (H1 & H2 & H3 & b0 & t & E & H4). exists (strip_zeros m'), b0, t. rewrite E in *.
  change (index (b0 :: t) 0) with (Ret b0). cbn [outcome_bind]. rewrite (sign_bit b0) by by apply Forall_cons in H1 as [? _].
  rewrite <-Z.leb_antisym. split_and!; [done..|congruence|unfold len in *; lia].
Qed.

Lemma as_unsigned_content b0 t c : c = unsigned_content (b0 :: t) → bytes_ok (b0 :: t) → (b0 = 0 → t = []) →
  as_integer_bytes {| tag := TAG_INTEGER; content := c |} = Ok c ∧ as_unsigned_integer {| tag := TAG_INTEGER; content := c |} = Ok (b0 :: t) ∧
  ∃ c0 ct, c = c0 :: ct ∧ 0 ≤ c0 < 128.
Proof.
  intros -> Hb Hz. apply Forall_cons in Hb as [Hb _]. pose proof (sign_bit b0 Hb) as Hs. unfold is_u8 in Hb. unfold as_unsigned_integer, as_integer_bytes, unsigned_content, expect_tag.
  change (default 0 (head (b0 :: t))) with b0. cbn [tag content]. change (TAG_INTEGER =? TAG_INTEGER) with true. cbn [negb result_bind]. destruct (Z.leb_spec 128 b0); cbn [app].
  - rewrite (proj2 (Z.ltb_ge _ _)) in Hs by lia. rewrite Hs. cbn [Z.eqb Z.land negb andb orb result_bind]. rewrite !len_cons. pose proof (len_nonneg t).
    rewrite (proj2 (Z.ltb_lt _ _)) by lia. split_and!; [done..|]. by eexists _, _.
  - rewrite (proj2 (Z.ltb_lt _ _)) in Hs by lia. rewrite (proj2 (Z.eqb_neq b0 255)) by lia. destruct t as [|b1 t].
    + cbn [result_bind]. rewrite Hs. split_and!; [done..|]. eexists _, _. split; [done|lia].
    + assert (b0 ≠ 0) as Hn by (intros E; by specialize (Hz E)). rewrite (proj2 (Z.eqb_neq b0 0)) by done. cbn [andb orb result_bind]. rewrite Hs, (proj2 (Z.eqb_neq b0 0)), andb_false_r by done.
      split_and!; [done..|]. eexists _, _. split; [done|lia].
Qed.

(** A number below two to the 63 is what at most eight bytes of content say. *)
Lemma unsigned_content_length b0 t : bytes_ok (b0 :: t) → (b0 = 0 → t = []) →
  8 < len (unsigned_content (b0 :: t)) ↔ 9223372036854775808 ≤ from_be_bytes (b0 :: t).
Proof.
  intros Hb Hz. pose proof Hb as Hb2. apply Forall_cons in Hb2 as [H0 Ht]. unfold is_u8 in H0. apply from_be_bytes_bound in Ht. rewrite from_be_bytes_cons.
  assert (∀ k, k ≤ len t → 0 ≤ k → 256 ^ k ≤ 256 ^ len t) as Hge by (intros k ??; apply Z.pow_le_mono_r; lia).
  assert (∀ k, len t ≤ k → 256 ^ len t ≤ 256 ^ k) as Hle by (intros k ?; apply Z.pow_le_mono_r; lia). pose proof (len_nonneg t) as H1.
  assert (∀ lo hi, lo ≤ b0 ≤ hi → lo * 256 ^ len t ≤ b0 * 256 ^ len t ≤ hi * 256 ^ len t) as Hm by (intros lo hi ?; nia).
  unfold unsigned_content. change (default 0 (head (b0 :: t))) with b0. rewrite len_app, len_cons. destruct (Z.leb_spec 128 b0).
  - specialize (Hm 128 255 ltac:(lia)). change (len [0]) with 1. destruct (Z.ltb_spec (len t) 7) as [Hl|Hl]; [specialize (Hle 6 ltac:(lia))|specialize (Hge 7 ltac:(lia) ltac:(lia))];
      change (256 ^ 6) with 281474976710656 in *; change (256 ^ 7) with 72057594037927936 in *; split; intros; lia.
  - change (len []) with 0. destruct (decide (t = [])) as [->|Hne]; [change (from_be_bytes []) with 0; change (@len Z []) with 0; change (256 ^ 0) with 1; lia|]. assert (b0 ≠ 0) by (intros E; by apply Hne, Hz).
    specialize (Hm 1 127 ltac:(lia)). destruct (Z.ltb_spec (len t) 8) as [Hl|Hl]; [specialize (Hle 7 ltac:(lia))|specialize (Hge 8 ltac:(lia) ltac:(lia))];
      change (256 ^ 8) with 18446744073709551616 in *; change (256 ^ 7) with 72057594037927936 in *; split; intros; lia.
Qed.

(** An integer that is written is read back, without the zeros in front of it, and as a
    machine integer when it fits one. *)
Lemma der_integer_roundtrip m : bytes_ok m → len m < short_length - 1 →
  ∃ out v bs, enc_integer_unsigned m = Ret out ∧ parse_single out = Ret (Ok v) ∧ as_unsigned_integer v = Ok bs ∧
    from_be_bytes bs = from_be_bytes m ∧ (head bs = Some 0 → bs = [0]) ∧
    as_i64 v = Ret (if from_be_bytes m <? 9223372036854775808 then Ok (from_be_bytes m) else Err InvalidInteger).
Proof.
  intros Hb Hl. destruct (enc_unsigned m Hb) as (bs & b0 & t & E & -> & Hz & Hbs & Ev & Hlen). set (c := unsigned_content (b0 :: t)).
  exists (enc_tlv TAG_INTEGER c), {| tag := TAG_INTEGER; content := c |}, (b0 :: t).
  destruct (as_unsigned_content b0 t c eq_refl Hbs Hz) as (Hi & Hu & c0 & ct & Ec & Hc0).
  assert (bytes_ok c) as Hbc by (apply Forall_app; split; [destruct (_ <=? _); repeat constructor; done|done]).
  assert (value_ok {| tag := TAG_INTEGER; content := c |}) as Hv.
  { split; [done|]. cbn [content]. unfold c, unsigned_content. rewrite len_app. unfold short_length in *. destruct (_ <=? _); [change (len [0]) with 1|rewrite len_nil]; lia. }
  split_and!; [done| |done|done| |].
  - apply (parse_single_encoded _ Hv). unfold encoded, enc_tlv. cbn [tag content]. constructor; [unfold is_u8, TAG_INTEGER; lia|]. apply bytes_ok_app. split; [|done].
    apply enc_len_bytes. exact (proj2 Hv).
  - cbn [head]. intros [= ->]. by rewrite Hz.
  - unfold as_i64. rewrite Hi. cbn [fallible_bind]. pose proof (unsigned_content_length b0 t Hbs Hz) as Hlc. fold c in Hlc. rewrite Ev in Hlc.
    destruct (Z.ltb_spec (from_be_bytes m) 9223372036854775808), (Z.ltb_spec 8 (len c)); try (exfalso; lia); [|done]. rewrite Ec. change (index (c0 :: ct) 0) with (Ret c0).
    cbn [outcome_bind]. rewrite <-Ec, sign_bit, (proj2 (Z.ltb_lt c0 128)) by (unfold is_u8; lia). cbn [negb].
    assert (from_be_bytes c = from_be_bytes m) as Ecm.
    { rewrite <-Ev. unfold c, unsigned_content. destruct (_ <=? _); [|done]. cbn [app]. rewrite (from_be_bytes_cons 0). lia. }
    by rewrite i64_fold, Ecm by (done || lia).
Qed.

(** ** Object identifiers *)

Lemma land_127_128 n : 0 ≤ n → Z.land n 127 = n `mod` 128 ∧ Z.land (n `mod` 128) 128 = 0 ∧ Z.land (n `mod` 128) 127 = n `mod` 128 ∧
  Z.lor (n `mod` 128) 128 = 128 + n `mod` 128 ∧ Z.land (128 + n `mod` 128) 127 = n `mod` 128 ∧ Z.land (128 + n `mod` 128) 128 ≠ 0.
Proof.
  intros Hn. pose proof (Z.mod_pos_bound n 128 ltac:(lia)) as Hm. destruct (lor_128 (n `mod` 128) Hm) as [E1 E2].
  assert (∀ k, Z.land k 127 = k `mod` 128) as Hl by (intros k; change 127 with (2 ^ 7 - 1); by rewrite land_low by lia).
  pose proof (sign_bit (n `mod` 128) ltac:(unfold is_u8; lia)) as E3. rewrite (proj2 (Z.ltb_lt _ _)) in E3 by lia. apply Z.eqb_eq in E3.
  pose proof (sign_bit (128 + n `mod` 128) ltac:(unfold is_u8; lia)) as E4. rewrite (proj2 (Z.ltb_ge _ _)) in E4 by lia. apply Z.eqb_neq in E4.
  rewrite !Hl, Z.mod_mod by lia. rewrite Hl in E2. rewrite Z.lor_comm. split_and!; done.
Qed.

Lemma shiftr_7 n g : 0 ≤ n → is_u64 n → g = n `mod` 128 → Z.lor (wrap64 (Z.shiftl (Z.shiftr n 7) 7)) g = n ∧ (Z.shiftr u64_max 7 <? Z.shiftr n 7) = false.
Proof.
  intros Hn Hu ->. unfold is_u64, u64_max in *. rewrite Z.shiftr_div_pow2, Z.shiftl_mul_pow2 by lia. change (2 ^ 7) with 128. pose proof (Z.div_mod n 128 ltac:(lia)) as Hd.
  pose proof (Z.mod_pos_bound n 128 ltac:(lia)) as Hm. split.
  - rewrite wrap64_id by (unfold is_u64, u64_max; lia). rewrite (lor_add_disjoint _ _ 7); [lia|lia|done|]. change (2 ^ 7) with 128. apply Z.mod_mul. lia.
  - apply Z.ltb_ge. change (Z.shiftr 18446744073709551615 7) with 144115188075855871. lia.
Qed.

Lemma shiftr_7_lt n m : 0 ≤ n → n < 128 * m → Z.shiftr n 7 < m.
Proof. intros Hn Hm. rewrite Z.shiftr_div_pow2 by lia. change (2 ^ 7) with 128. apply Z.div_lt_upper_bound; lia. Qed.

Lemma is_u64_shiftr_7 n : 0 ≤ n ≤ u64_max → is_u64 (Z.shiftr n 7).
Proof. unfold is_u64, u64_max. intros Hn. pose proof (shiftr_7_lt n 18446744073709551616 ltac:(lia) ltac:(lia)). pose proof (proj2 (Z.shiftr_nonneg n 7) ltac:(lia)). lia. Qed.

(** Reading the groups of an arc gives the arc. *)
Lemma oid_loop_groups fuel : ∀ n stack tail out, is_u64 n → n < 128 ^ Z.of_nat fuel →
  oid_loop (reverse (arc_loop fuel n stack) ++ tail) 0 out = oid_loop (reverse stack ++ tail) n out.
Proof.
  induction fuel as [|fuel IH]; intros n stack tail out Hu Hn; unfold is_u64 in Hu; [change (128 ^ Z.of_nat 0) with 1 in Hn; replace n with 0 by lia; done|].
  cbn [arc_loop]. destruct (Z.ltb_spec 0 n); [|by replace n with 0 by lia]. rewrite Nat2Z.inj_succ, Z.pow_succ_r in Hn by lia.
  destruct (land_127_128 n ltac:(lia)) as (E1 & _ & _ & E4 & E5 & E6). destruct (shiftr_7 n (n `mod` 128) ltac:(lia) Hu eq_refl) as [E7 E8].
  rewrite IH; [| |].
  - rewrite reverse_snoc, E1, E4. cbn [app oid_loop]. rewrite E8, E5, E7. by rewrite (proj2 (Z.eqb_neq _ _)) by done.
  - apply is_u64_shiftr_7. lia.
  - apply shiftr_7_lt; [lia|lia].
Qed.

Lemma oid_loop_arc n tail out : is_u64 n → oid_loop (enc_arc n ++ tail) 0 out = oid_loop tail 0 (out ++ [n]).
Proof.
  intros Hu. pose proof Hu as Hu2. unfold is_u64, u64_max in Hu2. unfold enc_arc. rewrite oid_loop_groups.
  - destruct (land_127_128 n ltac:(lia)) as (E1 & E2 & E3 & _). destruct (shiftr_7 n (n `mod` 128) ltac:(lia) Hu eq_refl) as [E7 E8].
    rewrite E1. cbn [reverse rev_append app oid_loop]. change (reverse [n `mod` 128]) with [n `mod` 128]. cbn [app oid_loop]. by rewrite E8, E3, E7, E2.
  - by apply is_u64_shiftr_7.
  - change (128 ^ Z.of_nat 10) with 1180591620717411303424. apply shiftr_7_lt; lia.
Qed.

Lemma oid_loop_arcs arcs : ∀ out, Forall is_u64 arcs → oid_loop (concat (enc_arc <$> arcs)) 0 out = Ok (0, out ++ arcs).
Proof.
  induction arcs as [|a arcs IH]; intros out Hu; [by rewrite app_nil_r|]. apply Forall_cons in Hu as [Ha Hu]. cbn [fmap list_fmap concat].
  rewrite oid_loop_arc, IH by done. by rewrite <-app_assoc.
Qed.

Lemma arc_loop_bytes fuel : ∀ n stack, 0 ≤ n → bytes_ok stack → bytes_ok (arc_loop fuel n stack) ∧ (length (arc_loop fuel n stack) ≤ fuel + length stack)%nat.
Proof.
  induction fuel as [|fuel IH]; intros n stack Hn Hb; [done|]. cbn [arc_loop]. destruct (0 <? n); [|split; [done|lia]].
  destruct (land_127_128 n Hn) as (E1 & _ & _ & E4 & _). pose proof (Z.mod_pos_bound n 128 ltac:(lia)).
  destruct (IH (Z.shiftr n 7) (stack ++ [Z.lor (Z.land n 127) 128])) as [H1 H2]; [by apply Z.shiftr_nonneg|apply bytes_ok_snoc; split; [done|rewrite E1, E4; unfold is_u8; lia]|].
  split; [done|]. rewrite length_app in H2. cbn [length] in H2. lia.
Qed.

Lemma enc_arcs_bytes arcs : Forall is_u64 arcs → bytes_ok (concat (enc_arc <$> arcs)) ∧ len (concat (enc_arc <$> arcs)) ≤ 11 * len arcs.
Proof.
  induction arcs as [|a arcs IH]; intros Hu; [split; [constructor|by cbn]|]. apply Forall_cons in Hu as [Ha Hu]. destruct (IH Hu) as [H1 H2]. cbn [fmap list_fmap concat]. unfold is_u64 in Ha.
  destruct (land_127_128 a ltac:(lia)) as (E1 & _). pose proof (Z.mod_pos_bound a 128 ltac:(lia)).
  destruct (arc_loop_bytes 10 (Z.shiftr a 7) [Z.land a 127]) as [H3 H4]; [apply Z.shiftr_nonneg; lia|rewrite E1; repeat constructor; unfold is_u8; lia|]. cbn [length] in H4.
  split; [apply bytes_ok_app; split; [by apply Forall_reverse|done]|]. rewrite len_app, len_cons. unfold enc_arc at 1, len at 1. rewrite length_reverse. lia.
Qed.

Section Oid.
Context `{!Profile}.

(** An object identifier whose first two arcs fit the byte they share is read back. *)
Lemma der_oid_roundtrip a0 a1 rest : 0 ≤ a0 → 0 ≤ a1 < 40 → a0 * 40 + a1 < 256 → Forall is_u64 rest → 11 * len rest < short_length - 1 →
  ∃ out v, enc_oid (a0 :: a1 :: rest) = Ret out ∧ parse_single out = Ret (Ok v) ∧ as_oid v = Ok (a0 :: a1 :: rest).
Proof.
  intros H0 H1 H2 Hr Hl. destruct (enc_arcs_bytes rest Hr) as [Hb Hlen]. set (b := a0 * 40 + a1). set (c := b :: concat (enc_arc <$> rest)).
  exists (enc_tlv TAG_OID c), {| tag := TAG_OID; content := c |}. split_and!.
  - unfold enc_oid, mul64, add64. rewrite (proj2 (Z.ltb_ge _ _)) by (unfold u64_max; lia). rewrite andb_false_r. cbn [outcome_bind].
    rewrite wrap64_id by (unfold is_u64, u64_max; lia). rewrite (proj2 (Z.ltb_ge _ _)) by (unfold u64_max; lia). rewrite andb_false_r. cbn [outcome_bind].
    rewrite wrap64_id by (unfold is_u64, u64_max; lia). by rewrite as_u8_id by (unfold is_u8; lia).
  - assert (value_ok {| tag := TAG_OID; content := c |}) as Hv by (split; [done|]; cbn [content]; unfold c; rewrite len_cons; lia).
    apply (parse_single_encoded _ Hv). unfold encoded, enc_tlv. cbn [tag content]. constructor; [unfold is_u8, TAG_OID; lia|]. apply bytes_ok_app.
    split; [by apply enc_len_bytes, Hv|]. constructor; [unfold is_u8, b; lia|done].
  - unfold as_oid. change (expect_tag {| tag := TAG_OID; content := c |} TAG_OID) with (Ok tt : result unit DerError). cbn [result_bind content c].
    rewrite oid_loop_arcs by done. cbn [result_bind fst snd]. change (negb (0 =? 0)) with false. cbn [app]. unfold b.
    by rewrite Z.div_add_l, (Z.div_small a1), Z.add_0_r, Z.add_comm, Z.mod_add, Z.mod_small by lia.
Qed.

End Oid.

Section Findings.
Context `{!Profile}.

(** 2.999 (first two arcs above the byte) is written as 1.15 and its own reading of the
    standard encoding is 3.16.55; a last arc that is cut short is dropped. *)
Lemma oid_first_arcs_lost :
  enc_oid [2; 999] = Ret [6; 1; 55] ∧
  as_oid {| tag := TAG_OID; content := [55] |} = Ok [1; 15] ∧
  as_oid {| tag := TAG_OID; content := [136; 55] |} = Ok [3; 16; 55] ∧
  as_oid {| tag := TAG_OID; content := [42; 128] |} = Ok [1; 2].
Proof. unfold enc_oid, mul64, add64. change (u64_max <? 2 * 40) with false. rewrite andb_false_r. cbn [outcome_bind]. change (u64_max <? wrap64 (2 * 40) + 999) with false. by rewrite andb_false_r. Qed.

End Findings.
