(* ===== verification/Punycode.v ===== *)
(** * Punycode: labels in ASCII

    rusty-js-punycode/src/lib.rs.  A Rust string is the list of its characters, as code points.
    Numbers are [u32]: an addition that can pass the largest one is [add32], which depends on
    the build profile, and the checked operations answer an error; a subtraction follows the
    comparison that makes it safe, and the biases and thresholds stay far below the limit.
    An outer turn of the encoder takes one unit of fuel per character, its digits 33 (every digit
    divides by ten at least), the loop of [adapt] 33, an outer turn of the decoder one per
    character; a loop out of fuel panics. *)

From S2P Require Import Prelude Bytes.

Local Open Scope Z_scope.
Local Open Scope cruft_scope.

Definition BASE : Z := 36.
Definition TMIN : Z := 1.
Definition TMAX : Z := 26.
Definition SKEW : Z := 38.
Definition DAMP : Z := 700.
Definition INITIAL_BIAS : Z := 72.
Definition INITIAL_N : Z := 128.
Definition DELIMITER : Z := 45.
Definition ACE_PREFIX : list Z := [120; 110; 45; 45].

Inductive PunycodeError := NonBasicInput | InvalidDigit | Overflow | UnexpectedEnd | InvalidCodePoint.

Definition as_u32 (v : Z) : Z := v `mod` 4294967296.

(** [a + b] on [u32]. *)
Definition add32 `{Profile} (a b : Z) : outcome Z := if overflow_checks && (u32_max <? a + b) then Panic else Ret (as_u32 (a + b)).

Definition checked_add (a b : Z) : result Z PunycodeError := if a + b <=? u32_max then Ok (a + b) else Err Overflow.
Definition checked_mul (a b : Z) : result Z PunycodeError := if a * b <=? u32_max then Ok (a * b) else Err Overflow.

(** [char::from_u32] answers a character. *)
Definition is_char (n : Z) : bool := ((0 <=? n) && (n <? 55296)) || ((57344 <=? n) && (n <=? 1114111)).

Definition is_ascii_str (s : list Z) : bool := forallb (λ c, c <? 128) s.

(** The loop of [adapt]. *)
Fixpoint adapt_loop (fuel : nat) (delta k : Z) : outcome (Z * Z) :=
  match fuel with
  | O => Panic
  | S fuel' => if ((BASE - TMIN) * TMAX) / 2 <? delta then adapt_loop fuel' (delta / (BASE - TMIN)) (k + BASE) else Ret (delta, k)
  end.

Definition adapt `{Profile} (delta num_points : Z) (first_time : bool) : outcome Z :=
  let delta := delta / (if first_time then DAMP else 2) in
  if num_points =? 0 then Panic
  else
    delta <-! add32 delta (delta / num_points);
    r <-! adapt_loop 33 delta 0;
    let '(delta, k) := r in
    Ret (k + (BASE - TMIN + 1) * delta / (delta + SKEW)).

Definition threshold (k bias : Z) : Z :=
  if k <=? bias + TMIN then TMIN else if bias + TMAX <=? k then TMAX else k - bias.

Definition encode_digit (d : Z) : Z := if d <? 26 then 97 + d else 48 + (d - 26).

Definition decode_digit (c : Z) : option Z :=
  if (97 <=? c) && (c <=? 122) then Some (c - 97)
  else if (65 <=? c) && (c <=? 90) then Some (c - 65)
  else if (48 <=? c) && (c <=? 57) then Some (c - 48 + 26)
  else None.

(** ** Encoding *)

(** The digits of [delta]: the inner loop of [encode] and the digit after it. *)
Fixpoint encode_delta (fuel : nat) (q k bias : Z) : outcome (list Z) :=
  match fuel with
  | O => Panic
  | S fuel' =>
      let t := threshold k bias in
      if q <? t then Ret [encode_digit q]
      else
        ds <-! encode_delta fuel' ((q - t) / (BASE - t)) (k + BASE) bias;
        Ret (encode_digit (t + (q - t) `mod` (BASE - t)) :: ds)
  end.

Record encoder := { e_output : list Z; e_delta : Z; e_bias : Z; e_h : Z }.

(** One character of the pass for the code point [n]. *)
Definition encode_char `{Profile} (basic n c : Z) (st : encoder) : fallible encoder PunycodeError :=
  delta <-!? Ret (if c <? n then checked_add (e_delta st) 1 else Ok (e_delta st));
  if c =? n then
    ds <-! encode_delta 33 delta BASE (e_bias st);
    h1 <-! add32 (e_h st) 1;
    bias <-! adapt delta h1 (e_h st =? basic);
    Ret (Ok {| e_output := e_output st ++ ds; e_delta := 0; e_bias := bias; e_h := h1 |})
  else Ret (Ok {| e_output := e_output st; e_delta := delta; e_bias := e_bias st; e_h := e_h st |}).

Fixpoint encode_pass `{Profile} (basic n : Z) (input : list Z) (st : encoder) : fallible encoder PunycodeError :=
  match input with
  | [] => Ret (Ok st)
  | c :: input => st <-!? encode_char basic n c st; encode_pass basic n input st
  end.

(** The smallest character that is [n] or more. *)
Definition next_code_point (n : Z) (input : list Z) : option Z :=
  match filter (λ c, n ≤ c) input with [] => None | c :: cs => Some (foldl Z.min c cs) end.

Fixpoint encode_loop `{Profile} (fuel : nat) (input : list Z) (basic total n : Z) (st : encoder) : fallible (list Z) PunycodeError :=
  match fuel with
  | O => Panic
  | S fuel' =>
      if e_h st <? total then
        match next_code_point n input with
        | None => Ret (Err UnexpectedEnd)
        | Some m =>
            h1 <-! add32 (e_h st) 1;
            skipped <-!? Ret (checked_mul (m - n) h1);
            delta <-!? Ret (checked_add (e_delta st) skipped);
            st <-!? encode_pass basic m input {| e_output := e_output st; e_delta := delta; e_bias := e_bias st; e_h := e_h st |};
            delta <-! add32 (e_delta st) 1;
            n <-! add32 m 1;
            encode_loop fuel' input basic total n {| e_output := e_output st; e_delta := delta; e_bias := e_bias st; e_h := e_h st |}
        end
      else Ret (Ok (e_output st))
  end.

Definition encode `{Profile} (input : list Z) : fallible (list Z) PunycodeError :=
  let basics := filter (λ c, c < 128) input in
  let basic := as_u32 (len basics) in
  let output := basics ++ (if 0 <? basic then [DELIMITER] else []) in
  encode_loop (S (length input)) input basic (as_u32 (len input)) INITIAL_N
    {| e_output := output; e_delta := 0; e_bias := INITIAL_BIAS; e_h := basic |}.

(** ** Decoding *)

(** The inner loop of [decode]: the position it reaches, and the characters left. *)
Fixpoint decode_delta (rest : list Z) (i w k bias : Z) : result (Z * list Z) PunycodeError :=
  match rest with
  | [] => Err UnexpectedEnd
  | c :: rest =>
      match decode_digit c with
      | None => Err InvalidDigit
      | Some digit =>
          step <-? checked_mul digit w;
          i <-? checked_add i step;
          let t := threshold k bias in
          if digit <? t then Ok (i, rest)
          else
            w <-? checked_mul w (BASE - t);
            decode_delta rest i w (k + BASE) bias
      end
  end.

(** [output.insert(i, n)], which panics past the end. *)
Definition insert_at (i n : Z) (output : list Z) : outcome (list Z) :=
  if i <=? len output then Ret (take (Z.to_nat i) output ++ n :: drop (Z.to_nat i) output) else Panic.

Fixpoint decode_loop `{Profile} (fuel : nat) (rest output : list Z) (n i bias : Z) : fallible (list Z) PunycodeError :=
  match fuel with
  | O => Panic
  | S fuel' =>
      match rest with
      | [] => Ret (Ok output)
      | _ =>
          let old_i := i in
          r <-!? Ret (decode_delta rest i 1 BASE bias);
          let '(i, rest) := r in
          out_len <-! add32 (as_u32 (len output)) 1;
          bias <-! adapt (i - old_i) out_len (old_i =? 0);
          n <-!? Ret (checked_add n (i / out_len));
          let i := i `mod` out_len in
          if n <? 128 then Ret (Err InvalidCodePoint)
          else if negb (is_char n) then Ret (Err InvalidCodePoint)
          else
            output <-! insert_at i n output;
            i <-! add32 i 1;
            decode_loop fuel' rest output n i bias
      end
  end.

(** The part before the last delimiter, and the part after it. *)
Fixpoint split_last (s : list Z) : option (list Z * list Z) :=
  match s with
  | [] => None
  | c :: s =>
      match split_last s with
      | Some (a, b) => Some (c :: a, b)
      | None => if c =? DELIMITER then Some ([], s) else None
      end
  end.

Definition decode `{Profile} (input : list Z) : fallible (list Z) PunycodeError :=
  if negb (is_ascii_str input) then Ret (Err NonBasicInput)
  else
    let '(basic, rest) := match split_last input with Some p => p | None => ([], input) end in
    output <-!? decode_loop (S (length rest)) rest basic INITIAL_N 0 INITIAL_BIAS;
    Ret (if forallb is_char output then Ok output else Err InvalidCodePoint).

Definition label_to_ascii `{Profile} (label : list Z) : fallible (list Z) PunycodeError :=
  if is_ascii_str label then Ret (Ok label)
  else e <-!? encode label; Ret (Ok (ACE_PREFIX ++ e)).

Definition label_to_unicode `{Profile} (label : list Z) : fallible (list Z) PunycodeError :=
  if bool_decide (take 4 label = ACE_PREFIX) then decode (drop 4 label) else Ret (Ok label).

Example encode_vector : @encode true [98; 252; 99; 104; 101; 114] = Ret (Ok [98; 99; 104; 101; 114; 45; 107; 118; 97]).
Proof. vm_compute. reflexivity. Qed.

Example decode_vector : @decode true [98; 99; 104; 101; 114; 45; 107; 118; 97] = Ret (Ok [98; 252; 99; 104; 101; 114]).
Proof. vm_compute. reflexivity. Qed.

(** ** Digits and thresholds *)

Lemma threshold_range k bias : 1 ≤ threshold k bias ≤ 26.
Proof.
  unfold threshold, TMIN, TMAX. destruct (Z.leb_spec k (bias + 1)); [lia|]. destruct (Z.leb_spec (bias + 26) k); lia.
Qed.

Lemma decode_encode_digit d : 0 ≤ d < 36 → decode_digit (encode_digit d) = Some d.
Proof.
  intros Hd. unfold encode_digit, decode_digit. destruct (Z.ltb_spec d 26).
  - rewrite (proj2 (Z.leb_le 97 _)), (proj2 (Z.leb_le _ 122)) by lia. cbn [andb]. f_equal. lia.
  - rewrite (proj2 (Z.leb_gt 97 _)), (proj2 (Z.leb_gt 65 _)), (proj2 (Z.leb_le 48 _)), (proj2 (Z.leb_le _ 57)) by lia. cbn [andb]. f_equal. lia.
Qed.

Lemma encode_digit_basic d : 0 ≤ d < 36 → 48 ≤ encode_digit d < 128.
Proof. intros Hd. unfold encode_digit. destruct (Z.ltb_spec d 26); lia. Qed.

Section Numbers.
Context `{!Profile}.

Lemma add32_ok a b : 0 ≤ a + b ≤ u32_max → add32 a b = Ret (a + b).
Proof.
  intros Hr. unfold add32. rewrite (proj2 (Z.ltb_ge _ _)) by lia. rewrite andb_false_r. unfold as_u32. unfold u32_max in Hr. by rewrite Z.mod_small by lia.
Qed.

Lemma checked_add_ok a b : a + b ≤ u32_max → checked_add a b = Ok (a + b).
Proof. intros Hr. unfold checked_add. by rewrite (proj2 (Z.leb_le _ _)). Qed.

Lemma checked_mul_ok a b : a * b ≤ u32_max → checked_mul a b = Ok (a * b).
Proof. intros Hr. unfold checked_mul. by rewrite (proj2 (Z.leb_le _ _)). Qed.

Lemma adapt_loop_total fuel : ∀ delta k, delta < 2 ^ Z.of_nat fuel → (0 < fuel)%nat → ∃ r, adapt_loop fuel delta k = Ret r.
Proof.
  induction fuel as [|fuel IH]; intros delta k Hd Hf; [lia|]. cbn [adapt_loop]. change (((BASE - TMIN) * TMAX) / 2) with 455. change (BASE - TMIN) with 35.
  destruct (Z.ltb_spec 455 delta); [|by eexists]. rewrite Nat2Z.inj_succ, Z.pow_succ_r in Hd by lia. apply IH.
  - apply Z.div_lt_upper_bound; lia.
  - destruct fuel; [cbn in Hd; lia|lia].
Qed.

Lemma adapt_total delta num_points first_time : 0 ≤ delta ≤ u32_max → 1 ≤ num_points → ∃ b, adapt delta num_points first_time = Ret b.
Proof.
  intros Hd Hn. unfold adapt. rewrite (proj2 (Z.eqb_neq _ _)) by lia. cbv zeta. set (d := delta / (if first_time then DAMP else 2)).
  assert (0 ≤ d ∧ 2 * d ≤ delta) as Hdd.
  { subst d. unfold DAMP. destruct first_time; split; try (apply Z.div_pos; lia); [|apply Z.mul_div_le; lia].
    pose proof (Z.mul_div_le delta 700 ltac:(lia)). pose proof (Z.div_pos delta 700 ltac:(lia) ltac:(lia)). lia. }
  assert (0 ≤ d / num_points ≤ d) as Hq by (split; [apply Z.div_pos; lia|apply Z.div_le_upper_bound; nia]).
  rewrite add32_ok by lia. cbn [outcome_bind]. destruct (adapt_loop_total 33 (d + d / num_points) 0) as [[d' k'] ->]; [|lia|by eexists].
  change (2 ^ Z.of_nat 33) with 8589934592. unfold u32_max in Hd. lia.
Qed.

End Numbers.

(** The digits of a number, read back by the decoder, whatever follows them. *)
Lemma delta_digits fuel : ∀ q k bias, 0 ≤ q < 2 ^ Z.of_nat fuel - 1 →
  ∃ ds, encode_delta fuel q k bias = Ret ds ∧ ds ≠ [] ∧ Forall (λ d, 48 ≤ d < 128) ds ∧
    ∀ i w rest, 0 ≤ i → 1 ≤ w → i + w * q ≤ u32_max → 35 * (w * q) ≤ u32_max →
      decode_delta (ds ++ rest) i w k bias = Ok (i + w * q, rest).
Proof.
  induction fuel as [|fuel IH]; intros q k bias Hq; [change (2 ^ Z.of_nat 0) with 1 in Hq; lia|]. cbn [encode_delta]. pose proof (threshold_range k bias) as Ht. set (t := threshold k bias) in *.
  destruct (Z.ltb_spec q t) as [Hlt|Hge].
  - exists [encode_digit q]. split_and!; [done..|apply Forall_singleton, encode_digit_basic; lia|]. intros i w rest Hi Hw H1 H2. cbn [app decode_delta].
    rewrite decode_encode_digit, checked_mul_ok by lia. cbn [result_bind]. rewrite checked_add_ok by lia. cbn [result_bind]. fold t.
    rewrite (proj2 (Z.ltb_lt _ _)) by lia. do 2 f_equal. lia.
  - pose proof (Z.div_mod (q - t) (BASE - t) ltac:(unfold BASE; lia)) as Hdm. pose proof (Z.mod_pos_bound (q - t) (BASE - t) ltac:(unfold BASE; lia)) as Hm.
    set (q' := (q - t) / (BASE - t)) in *. set (r := (q - t) `mod` (BASE - t)) in *. unfold BASE in Hdm, Hm.
    assert (0 ≤ q') as Hq' by (apply Z.div_pos; unfold BASE; lia). assert (10 * q' ≤ q) as H10 by nia.
    rewrite Nat2Z.inj_succ, Z.pow_succ_r in Hq by lia.
    destruct (IH q' (k + BASE) bias) as (ds & -> & Hne & Hb & Hdec); [lia|]. cbn [outcome_bind].
    eexists. split; [done|]. split_and!; [done|constructor; [apply encode_digit_basic; lia|done]|]. intros i w rest Hi Hw H1 H2. cbn [app decode_delta].
    rewrite decode_encode_digit by lia. assert (w * q = (t + r) * w + (w * (36 - t)) * q') as Hsplit by nia.
    assert (0 ≤ (w * (36 - t)) * q' ∧ w * (36 - t) ≤ 35 * (w * q)) as [Hw0 Hw35] by nia.
    rewrite checked_mul_ok by nia. cbn [result_bind]. rewrite checked_add_ok by nia. cbn [result_bind]. fold t.
    rewrite (proj2 (Z.ltb_ge _ _)) by lia. unfold BASE at 1. rewrite checked_mul_ok by lia. cbn [result_bind]. rewrite Hdec by nia. do 2 f_equal. lia.
Qed.

(** ** The encoder and the decoder in step *)

(** What is decoded in the middle of the pass for [n]: the characters up to [n] before the
    place of the pass, those below [n] after it. *)
Definition merged (n : Z) (pre suf : list Z) : list Z := filter (λ c, c ≤ n) pre ++ filter (λ c, c < n) suf.

Definition place (n : Z) (pre : list Z) : Z := len (filter (λ c, c ≤ n) pre).

(** The encoder in the middle of the pass for [n], and a decoder at [nd] and [i] that has read
    all it wrote: what [delta] still lacks is the way from the decoder to the place of the pass. *)
Record in_step (basic n : Z) (pre suf : list Z) (st : encoder) (nd i : Z) : Prop := {
  step_h : e_h st = len (merged n pre suf);
  step_way : nd * (e_h st + 1) + i + e_delta st = n * (e_h st + 1) + place n pre;
  step_delta : 0 ≤ e_delta st;
  step_i : 0 ≤ i;
  step_nd : 0 ≤ nd;
  step_first : i = 0 ↔ e_h st = basic;
}.

Definition short (input : list Z) : Prop := (length input ≤ 100)%nat.

Definition chars_ok (input : list Z) : Prop := Forall (λ c, is_char c = true) input.

Lemma is_char_range c : is_char c = true → 0 ≤ c ≤ 1114111.
Proof. unfold is_char. intros E. apply orb_true_iff in E as [E|E]; apply andb_true_iff in E as [E1 E2]; apply Z.leb_le in E1; [apply Z.ltb_lt in E2|apply Z.leb_le in E2]; lia. Qed.

Lemma filter_length_le {A} (P : A → Prop) `{∀ x, Decision (P x)} (l : list A) : (length (filter P l) ≤ length l)%nat.
Proof. induction l as [|x l IH]; [done|]. rewrite filter_cons. case_decide; cbn [length]; lia. Qed.

Lemma merged_length n pre suf : len (merged n pre suf) ≤ len (pre ++ suf).
Proof.
  unfold merged, len. rewrite !length_app. pose proof (filter_length_le (λ c, c ≤ n) pre). pose proof (filter_length_le (λ c, c < n) suf). lia.
Qed.

Lemma place_le n pre suf : 0 ≤ place n pre ≤ len (merged n pre suf).
Proof. unfold place, merged. rewrite len_app. pose proof (len_nonneg (filter (λ c, c < n) suf)). pose proof (len_nonneg (filter (λ c, c ≤ n) pre)). lia. Qed.

Lemma in_step_bound basic n pre suf st nd i : in_step basic n pre suf st nd i → short (pre ++ suf) → 0 ≤ n ≤ 1114111 →
  e_h st ≤ 100 ∧ 0 ≤ e_h st ∧ 35 * (i + e_delta st) + 35 ≤ u32_max.
Proof.
  intros [Hh Hw Hd Hi Hnd _] Hs Hn. pose proof (merged_length n pre suf) as Hm. pose proof (place_le n pre suf) as Hp. unfold short in Hs.
  assert (len (pre ++ suf) ≤ 100) as Hl by (unfold len; lia). rewrite <-Hh in Hm, Hp. unfold u32_max. assert (0 ≤ e_h st ≤ 100) by lia. split_and!; [lia..|].
  assert (n * (e_h st + 1) ≤ 1114111 * 101) by nia. assert (0 ≤ nd * (e_h st + 1)) by nia. lia.
Qed.

Lemma merged_skip n pre c suf : c ≠ n → merged n (pre ++ [c]) suf = merged n pre (c :: suf).
Proof.
  intros Hne. unfold merged. rewrite filter_app, (filter_cons _ c suf), filter_cons, filter_nil. destruct (decide (c < n)).
  - rewrite decide_True by lia. by rewrite <-app_assoc.
  - rewrite decide_False by lia. by rewrite app_nil_r.
Qed.

Lemma merged_insert n pre suf : merged n (pre ++ [n]) suf =
  take (Z.to_nat (place n pre)) (merged n pre (n :: suf)) ++ n :: drop (Z.to_nat (place n pre)) (merged n pre (n :: suf)).
Proof.
  unfold merged, place, len. rewrite Nat2Z.id, take_app_length, drop_app_length, filter_app, (filter_cons _ n suf), filter_cons, filter_nil.
  rewrite decide_True by lia. rewrite decide_False by lia. by rewrite <-app_assoc.
Qed.

Lemma place_snoc n pre c : place n (pre ++ [c]) = place n pre + (if decide (c ≤ n) then 1 else 0).
Proof. unfold place. rewrite filter_app, filter_cons, filter_nil, len_app. by case_decide. Qed.

Section Step.
Context `{!Profile}.

(** One insertion of the decoder. *)
Lemma decode_turn fuel ds rest output nd i bias delta n pos bias' :
  ds ≠ [] → decode_delta (ds ++ rest) i 1 BASE bias = Ok (i + delta, rest) →
  nd * (len output + 1) + i + delta = n * (len output + 1) + pos → 0 ≤ pos ≤ len output → len output ≤ 100 → 0 ≤ nd → 0 ≤ i → 0 ≤ delta →
  128 ≤ n → is_char n = true → adapt delta (len output + 1) (i =? 0) = Ret bias' →
  decode_loop (S fuel) (ds ++ rest) output nd i bias =
  decode_loop fuel rest (take (Z.to_nat pos) output ++ n :: drop (Z.to_nat pos) output) n (pos + 1) bias'.
Proof.
  intros Hne Hd Hw Hp Hl Hnd Hi Hdl Hn Hc Ha. pose proof (len_nonneg output) as H0. cbn [decode_loop]. destruct (ds ++ rest) as [|x l] eqn:E; [by destruct ds|].
  rewrite Hd. cbn [fallible_bind]. assert (as_u32 (len output) = len output) as -> by (unfold as_u32; rewrite Z.mod_small; lia).
  rewrite add32_ok by (unfold u32_max; lia). cbn [outcome_bind]. replace (i + delta - i) with delta by lia. rewrite Ha. cbn [outcome_bind].
  assert (i + delta = (n - nd) * (len output + 1) + pos) as -> by lia.
  assert (((n - nd) * (len output + 1) + pos) / (len output + 1) = n - nd) as -> by (rewrite Z.div_add_l by lia; rewrite Z.div_small by lia; lia).
  assert (((n - nd) * (len output + 1) + pos) `mod` (len output + 1) = pos) as -> by (rewrite Z.add_comm, Z.mod_add by lia; apply Z.mod_small; lia).
  pose proof (is_char_range n Hc). rewrite checked_add_ok by (unfold u32_max; lia). cbn [fallible_bind]. replace (nd + (n - nd)) with n by lia.
  rewrite (proj2 (Z.ltb_ge n 128)), Hc by lia. cbn [negb]. unfold insert_at. rewrite (proj2 (Z.leb_le _ _)) by lia. cbn [outcome_bind].
  by rewrite add32_ok by (unfold u32_max; lia).
Qed.

(** A pass of the encoder, and what the decoder makes of what it writes. *)
Definition pass_read (n : Z) (input : list Z) (pre suf : list Z) (st st' : encoder) (nd i nd' i' : Z) (ds : list Z) : Prop :=
  e_output st' = e_output st ++ ds ∧ Forall (λ d, 48 ≤ d < 128) ds ∧
  ∃ k, (k ≤ length ds)%nat ∧ ∀ fuel rest,
    decode_loop (k + fuel) (ds ++ rest) (merged n pre suf) nd i (e_bias st) = decode_loop fuel rest (merged n input []) nd' i' (e_bias st').

Lemma encode_pass_read basic n suf : ∀ pre st nd i, in_step basic n pre suf st nd i → short (pre ++ suf) → 128 ≤ n → is_char n = true → basic ≤ e_h st →
  ∃ st' nd' i' ds, encode_pass basic n suf st = Ret (Ok st') ∧ in_step basic n (pre ++ suf) [] st' nd' i' ∧ basic ≤ e_h st' ∧
    pass_read n (pre ++ suf) pre suf st st' nd i nd' i' ds.
Proof.
  induction suf as [|c suf IH]; intros pre st nd i Hst Hs Hn Hc Hb.
  { exists st, nd, i, []. rewrite app_nil_r. split_and!; [done..|]. split_and!; [by rewrite app_nil_r|done|]. exists 0%nat. split; [done|]. done. }
  pose proof (is_char_range n Hc) as Hr. destruct (in_step_bound _ _ _ _ _ _ _ Hst Hs ltac:(lia)) as (Hh1 & Hh0 & Hov). destruct Hst as [Hh Hw Hd Hi Hnd Hf].
  cbn [encode_pass]. unfold encode_char. assert (pre ++ c :: suf = (pre ++ [c]) ++ suf) as Eapp by by rewrite <-app_assoc. destruct (Z.ltb_spec c n) as [Hlt|Hge].
  - rewrite checked_add_ok by (unfold u32_max in *; lia). cbn [fallible_bind]. rewrite (proj2 (Z.eqb_neq c n)) by lia. cbn [fallible_bind]. rewrite Eapp in Hs |- *.
    destruct (IH (pre ++ [c]) {| e_output := e_output st; e_delta := e_delta st + 1; e_bias := e_bias st; e_h := e_h st |} nd i) as (st' & nd' & i' & ds & E & Hin & Hb' & Ho & Hds & k & Hk & Hread); [|done..|].
    + split; cbn [e_h e_delta]; [rewrite merged_skip by lia; done|rewrite place_snoc, decide_True by lia; lia|lia|lia|lia|done].
    + exists st', nd', i', ds. split_and!; [done..|]. split_and!; [done..|]. exists k. split; [done|]. intros fuel rest. rewrite <-(Hread fuel rest). by rewrite merged_skip by lia.
  - cbn [fallible_bind]. destruct (Z.eqb_spec c n) as [->|Hne].
    + destruct (delta_digits 33 (e_delta st) BASE (e_bias st)) as (d1 & -> & Hne1 & Hb1 & Hdec); [change (2 ^ Z.of_nat 33) with 8589934592; unfold u32_max in *; lia|].
      cbn [outcome_bind]. rewrite add32_ok by (unfold u32_max; lia). cbn [outcome_bind].
      destruct (adapt_total (e_delta st) (e_h st + 1) (e_h st =? basic)) as [b Ea]; [unfold u32_max in *; lia|lia|]. rewrite Ea. cbn [outcome_bind fallible_bind]. rewrite Eapp in Hs |- *.
      pose proof (place_le n pre (n :: suf)) as Hpl. pose proof (merged_insert n pre suf) as Emi.
      assert (len (merged n (pre ++ [n]) suf) = e_h st + 1) as Hlen.
      { rewrite Emi, len_app, len_cons, Hh. unfold len. rewrite length_take, length_drop. unfold len in Hpl. lia. }
      destruct (IH (pre ++ [n]) {| e_output := e_output st ++ d1; e_delta := 0; e_bias := b; e_h := e_h st + 1 |} n (place n pre + 1)) as (st' & nd' & i' & ds & E & Hin & Hb' & Ho & Hds & k & Hk & Hread); [|done|done|done|cbn; lia|].
      * split; cbn [e_h e_delta]; [done|rewrite place_snoc, decide_True by lia; lia|lia|lia|lia|]. split; [lia|]. intros Eh. lia.
      * exists st', nd', i', (d1 ++ ds). split_and!; [done..|]. split_and!; [rewrite Ho; cbn [e_output]; by rewrite <-app_assoc|by apply Forall_app|]. exists (S k).
        split; [rewrite length_app; destruct d1; [done|cbn; lia]|]. intros fuel rest. rewrite <-(Hread fuel rest), Emi, <-app_assoc.
        change (S k + fuel)%nat with (S (k + fuel)). apply (decode_turn _ _ _ _ _ _ _ (e_delta st)); rewrite <- ?Hh; try (done || lia).
        -- rewrite Hdec by (unfold u32_max in *; lia). do 2 f_equal. lia.
        -- cbn [e_bias]. rewrite <-Ea. f_equal. destruct (Z.eqb_spec i 0) as [Ei|Ei], (Z.eqb_spec (e_h st) basic) as [Eh|Eh]; tauto.
    + cbn [fallible_bind]. rewrite Eapp in Hs |- *.
      destruct (IH (pre ++ [c]) {| e_output := e_output st; e_delta := e_delta st; e_bias := e_bias st; e_h := e_h st |} nd i) as (st' & nd' & i' & ds & E & Hin & Hb' & Ho & Hds & k & Hk & Hread); [|done..|].
      * split; cbn [e_h e_delta]; [rewrite merged_skip by lia; done|rewrite place_snoc, decide_False by lia; lia|lia|lia|lia|done].
      * exists st', nd', i', ds. split_and!; [done..|]. split_and!; [done..|]. exists k. split; [done|]. intros fuel rest. rewrite <-(Hread fuel rest). by rewrite merged_skip by lia.
Qed.

End Step.

Lemma foldl_min l : ∀ a, foldl Z.min a l ∈ a :: l ∧ ∀ c, c ∈ a :: l → foldl Z.min a l ≤ c.
Proof.
  induction l as [|b l IH]; intros a; cbn [foldl]; [split; [by left|intros c [->|Hc]%elem_of_cons; [done|by apply not_elem_of_nil in Hc]]|].
  destruct (IH (Z.min a b)) as [Hin Hle]. split.
  - apply elem_of_cons in Hin as [->|Hin]; [destruct (Z.min_spec a b) as [[_ ->]|[_ ->]]; [by left|by right; left]|by right; right].
  - intros c Hc. pose proof (Hle (Z.min a b) ltac:(left)) as Hm. apply elem_of_cons in Hc as [->|[->|Hc]%elem_of_cons]; [lia|lia|]. apply Hle. by right.
Qed.

Lemma next_code_point_spec n input c : c ∈ input → n ≤ c →
  ∃ m, next_code_point n input = Some m ∧ m ∈ input ∧ n ≤ m ∧ ∀ c', c' ∈ input → n ≤ c' → m ≤ c'.
Proof.
  intros Hc Hn. unfold next_code_point. assert (c ∈ filter (λ c, n ≤ c) input) as Hin by by apply list_elem_of_filter.
  destruct (filter (λ c, n ≤ c) input) as [|a l] eqn:E; [by apply not_elem_of_nil in Hin|]. destruct (foldl_min l a) as [H1 H2]. rewrite <-E in H1, H2. exists (foldl Z.min a l).
  apply list_elem_of_filter in H1 as [H1 H3]. split_and!; [done..|]. intros c' Hc' Hle. apply H2. by apply list_elem_of_filter.
Qed.

(** Between two passes everything below [n] is decoded. *)
Lemma merged_nil n input : merged n [] input = filter (λ c, c < n) input.
Proof. done. Qed.

Lemma merged_end n input : merged n input [] = merged (n + 1) [] input.
Proof. unfold merged. rewrite filter_nil, app_nil_r, filter_nil. cbn [app]. apply list_filter_iff. intros c. lia. Qed.

Lemma merged_none n m input : n ≤ m → (∀ c, c ∈ input → n ≤ c → m ≤ c) → merged m [] input = merged n [] input.
Proof.
  intros Hnm. rewrite !merged_nil. induction input as [|c l IH]; intros Hc; [done|]. rewrite !filter_cons, IH by (intros c' Hin; apply Hc; by right).
  pose proof (Hc c ltac:(left)). repeat case_decide; (done || lia).
Qed.

(** A pass for a character of the input decodes at least one more. *)
Lemma merged_grows m input : m ∈ input → len (merged m [] input) < len (merged m input []).
Proof.
  intros Hm. rewrite merged_end, !merged_nil. unfold len. induction input as [|c l IH]; [by apply not_elem_of_nil in Hm|]. rewrite !filter_cons.
  assert (length (filter (λ c, (c < m)%Z) l) ≤ length (filter (λ c, (c < m + 1)%Z) l))%nat as Hle.
  { clear. induction l as [|c l IH]; [done|]. rewrite !filter_cons. repeat case_decide; cbn [length]; lia. }
  apply elem_of_cons in Hm as [<-|Hm]; [|specialize (IH Hm)]; repeat case_decide; cbn [length]; lia.
Qed.

Lemma merged_all n input : len (merged n [] input) = len input → merged n [] input = input.
Proof.
  rewrite merged_nil. unfold len. induction input as [|c l IH]; [done|]. rewrite filter_cons. pose proof (filter_length_le (λ c, c < n) l) as Hl.
  case_decide; cbn [length]; intros E; [f_equal; apply IH; lia|lia].
Qed.

Lemma merged_missing n input : len (merged n [] input) < len input → ∃ c, c ∈ input ∧ n ≤ c.
Proof.
  rewrite merged_nil. unfold len. induction input as [|c l IH]; [cbn; lia|]. rewrite filter_cons. case_decide as Hc; cbn [length]; intros Hl.
  - destruct IH as (c' & Hin & Hn); [lia|]. exists c'. by split; [right|].
  - exists c. split; [left|lia].
Qed.

Section Roundtrip.
Context `{!Profile}.

Lemma encode_loop_read basic input : short input → chars_ok input → ∀ fuel n st nd i,
  in_step basic n [] input st nd i → 128 ≤ n → basic ≤ e_h st → len input - e_h st < Z.of_nat fuel →
  ∃ ds, encode_loop fuel input basic (len input) n st = Ret (Ok (e_output st ++ ds)) ∧ Forall (λ d, 48 ≤ d < 128) ds ∧
    ∀ fuel', (length ds ≤ fuel')%nat → decode_loop (S fuel') ds (merged n [] input) nd i (e_bias st) = Ret (Ok input).
Proof.
  intros Hs Hok. induction fuel as [|fuel IH]; intros n st nd i Hst Hn Hb Hf.
  { exfalso. pose proof (step_h _ _ _ _ _ _ _ Hst) as Hh. pose proof (merged_length n [] input). cbn [app] in *. lia. }
  pose proof (step_h _ _ _ _ _ _ _ Hst) as Hh. pose proof (merged_length n [] input) as Hml. cbn [app] in Hml. cbn [encode_loop]. destruct (Z.ltb_spec (e_h st) (len input)) as [Hlt|Hge].
  2: { exists []. rewrite app_nil_r. split_and!; [done..|]. intros fuel' _. cbn [decode_loop]. by rewrite merged_all by lia. }
  destruct (merged_missing n input ltac:(lia)) as (c & Hc & Hnc). destruct (next_code_point_spec n input c Hc Hnc) as (m & -> & Hm & Hnm & Hmin).
  assert (is_char m = true) as Hcm by exact (proj1 (Forall_forall _ _) Hok m Hm). pose proof (is_char_range m Hcm).
  pose proof (merged_none n m input Hnm Hmin) as Emerge.
  assert (in_step basic m [] input {| e_output := e_output st; e_delta := e_delta st + (m - n) * (e_h st + 1); e_bias := e_bias st; e_h := e_h st |} nd i) as Hst2.
  { destruct Hst as [_ Hw Hd Hi Hnd Hfi]. pose proof (len_nonneg (merged n [] input)). split; cbn [e_h e_delta]; [by rewrite Emerge|change (place m []) with 0; change (place n []) with 0 in Hw; lia|nia|done..]. }
  destruct (in_step_bound _ _ _ _ _ _ _ Hst2 Hs ltac:(lia)) as (Hh1 & Hh0 & Hov). cbn [e_h e_delta] in Hh1, Hh0, Hov. pose proof (step_delta _ _ _ _ _ _ _ Hst) as Hd0. pose proof (step_i _ _ _ _ _ _ _ Hst) as Hi0.
  rewrite add32_ok by (unfold u32_max; lia). cbn [outcome_bind]. rewrite checked_mul_ok by (unfold u32_max in *; lia). cbn [fallible_bind]. rewrite checked_add_ok by (unfold u32_max in *; lia). cbn [fallible_bind].
  destruct (encode_pass_read basic m input [] _ nd i Hst2 Hs ltac:(lia) Hcm Hb) as (st' & nd' & i' & d1 & -> & Hst3 & Hb3 & Ho3 & Hd1 & k & Hk & Hread). cbn [fallible_bind e_output e_bias] in *.
  cbn [app] in Hst3. destruct (in_step_bound _ _ _ _ _ _ _ Hst3 ltac:(by rewrite app_nil_r) ltac:(lia)) as (Hh1' & Hh0' & Hov').
  pose proof (step_i _ _ _ _ _ _ _ Hst3). pose proof (step_delta _ _ _ _ _ _ _ Hst3).
  rewrite add32_ok by (unfold u32_max in *; lia). cbn [outcome_bind]. rewrite add32_ok by (unfold u32_max; lia). cbn [outcome_bind].
  pose proof (merged_grows m input Hm) as Hg. rewrite Emerge, <-Hh, <-(step_h _ _ _ _ _ _ _ Hst3) in Hg.
  destruct (IH (m + 1) {| e_output := e_output st'; e_delta := e_delta st' + 1; e_bias := e_bias st'; e_h := e_h st' |} nd' i') as (d2 & -> & Hd2 & Hread2); [|lia|done|cbn; lia|].
  { destruct Hst3 as [Hh3 Hw3 Hd3 Hi3 Hnd3 Hf3]. pose proof Hh3 as Hh3b. rewrite merged_end in Hh3b. split; cbn [e_h e_delta]; [done| |lia|done..].
    unfold merged in Hh3. rewrite filter_nil, app_nil_r in Hh3. fold (place m input) in Hh3. change (place (m + 1) []) with 0. lia. }
  cbn [e_output e_bias] in *. exists (d1 ++ d2). rewrite Ho3, <-app_assoc. split_and!; [done|by apply Forall_app|]. intros fuel' Hf'. rewrite length_app in Hf'.
  specialize (Hread (S (fuel' - k)) d2). rewrite <-Emerge. replace (S fuel') with (k + S (fuel' - k))%nat by lia. rewrite Hread. cbn [app]. rewrite merged_end. apply Hread2. lia.
Qed.

Lemma split_last_none s : Forall (λ d, d ≠ DELIMITER) s → split_last s = None.
Proof.
  induction 1 as [|c s Hc _ IH]; [done|]. cbn [split_last]. rewrite IH. by rewrite (proj2 (Z.eqb_neq _ _)).
Qed.

Lemma split_last_app a s : Forall (λ d, d ≠ DELIMITER) s → split_last (a ++ DELIMITER :: s) = Some (a, s).
Proof.
  intros Hs. induction a as [|c a IH]; cbn [app split_last]; [by rewrite split_last_none, Z.eqb_refl|by rewrite IH].
Qed.


(** Encoding a text of at most a hundred characters and decoding gives the text. *)
Lemma encode_decode input : short input → chars_ok input →
  ∃ out, encode input = Ret (Ok out) ∧ Forall (λ c, 0 ≤ c < 128) out ∧ decode out = Ret (Ok input).
Proof.
  intros Hs Hok. unfold encode. set (basics := filter (λ c, c < 128) input).
  assert (len basics ≤ len input) as Hle by (unfold basics, len; pose proof (filter_length_le (λ c, c < 128) input); lia). pose proof (len_nonneg basics).
  unfold short in Hs. assert (len input ≤ 100) as Hli by (unfold len; lia).
  assert (as_u32 (len basics) = len basics ∧ as_u32 (len input) = len input) as [-> ->] by (unfold as_u32; rewrite !Z.mod_small; lia). cbv zeta.
  destruct (encode_loop_read (len basics) input Hs Hok (S (length input)) INITIAL_N
    {| e_output := basics ++ (if 0 <? len basics then [DELIMITER] else []); e_delta := 0; e_bias := INITIAL_BIAS; e_h := len basics |} 128 0) as (ds & -> & Hds & Hread).
  - split; cbn [e_h e_delta]; try done; unfold INITIAL_N; change (place 128 []) with 0; lia.
  - done.
  - cbn. lia.
  - cbn [e_h]. unfold len in *. lia.
  - assert (Forall (λ c, 0 ≤ c < 128) basics) as Hbas.
    { apply Forall_forall. intros c [Hc Hin]%list_elem_of_filter. split; [|done]. pose proof (proj1 (Forall_forall _ _) Hok c Hin) as Hch. cbn in Hch. apply is_char_range in Hch. lia. }
    cbn [e_output e_bias] in *. set (sep := if 0 <? len basics then [DELIMITER] else []) in *.
    assert (Forall (λ c, 0 ≤ c < 128) ((basics ++ sep) ++ ds)) as Hascii.
    { repeat apply Forall_app_2; [done|unfold sep; destruct (0 <? len basics); repeat constructor; done|]. eapply Forall_impl; [exact Hds|]. intros d; cbn; lia. }
    eexists. split; [done|]. split; [done|]. unfold decode. assert (is_ascii_str ((basics ++ sep) ++ ds) = true) as ->.
    { unfold is_ascii_str. apply forallb_forall. intros c Hc. apply Z.ltb_lt. apply list_elem_of_In in Hc. by destruct (proj1 (Forall_forall _ _) Hascii c Hc). }
    cbn [negb]. assert (Forall (λ d, d ≠ DELIMITER) ds) as Hnd by (eapply Forall_impl; [exact Hds|]; unfold DELIMITER; intros d; cbn; lia).
    assert (match split_last ((basics ++ sep) ++ ds) with Some p => p | None => ([], (basics ++ sep) ++ ds) end = (basics, ds)) as ->.
    { unfold sep. destruct (Z.ltb_spec 0 (len basics)).
      - rewrite <-app_assoc. cbn [app]. by rewrite split_last_app.
      - assert (basics = []) as -> by (destruct basics; [done|unfold len in *; cbn [length] in *; lia]). cbn [app]. by rewrite split_last_none. }
    specialize (Hread (length ds) ltac:(lia)). rewrite merged_nil in Hread. unfold INITIAL_N in *. fold basics in Hread. rewrite Hread. cbn [fallible_bind].
    by rewrite (proj2 (forallb_forall _ _)) by (intros c Hc; apply list_elem_of_In in Hc; exact (proj1 (Forall_forall _ _) Hok c Hc)).
Qed.

(** C38: the punycode of a text of at most a hundred characters is ASCII, is found without a
    panic or an error, and decodes to the text; a label goes to its ASCII form and back, unless
    it is ASCII and has the prefix of the encoded ones already. *)
Theorem punycode_roundtrip (label : list Z) : short label → chars_ok label →
  (∃ out, encode label = Ret (Ok out) ∧ Forall (λ c, 0 ≤ c < 128) out ∧ decode out = Ret (Ok label)) ∧
  (is_ascii_str label = false ∨ take 4 label ≠ ACE_PREFIX →
   ∃ a, label_to_ascii label = Ret (Ok a) ∧ is_ascii_str a = true ∧ label_to_unicode a = Ret (Ok label)).
Proof.
  intros Hs Hok. destruct (encode_decode label Hs Hok) as (out & Ee & Ho & Ed). split; [by exists out|]. intros Hp. unfold label_to_ascii, label_to_unicode.
  destruct (is_ascii_str label) eqn:Ea.
  - eexists. split; [done|]. split; [done|]. by rewrite bool_decide_false by (destruct Hp; done).
  - rewrite Ee. cbn [fallible_bind]. eexists. split; [done|]. split; [|done]. unfold is_ascii_str. rewrite forallb_app. apply andb_true_iff. split; [done|].
    apply forallb_forall. intros c Hc. apply Z.ltb_lt. apply list_elem_of_In in Hc. by destruct (proj1 (Forall_forall _ _) Ho c Hc).
Qed.

End Roundtrip.

Lemma punycode_roundtrip_witness :
  let label := [109; 252; 110; 99; 104; 101; 110; 20182] in
  (∃ out, @encode true label = Ret (Ok out) ∧ Forall (λ c, 0 ≤ c < 128) out ∧ @decode true out = Ret (Ok label)) ∧
  (is_ascii_str label = false ∨ take 4 label ≠ ACE_PREFIX →
   ∃ a, @label_to_ascii true label = Ret (Ok a) ∧ is_ascii_str a = true ∧ @label_to_unicode true a = Ret (Ok label)).
Proof. apply (@punycode_roundtrip true); [unfold short; cbn; lia|repeat constructor]. Defined.
