(* ===== verification/EventLoop.v ===== *)
(** * EventLoop: the job queues and their turns

    rusty-js-runtime/src/job_queue.rs, and the drains of module.rs.  The queues hold jobs with
    the async context they were queued in and the objects they keep alive.  What a job does
    is code of the program: the interpreter and the host, whose runtime object is declared in a
    file that is not in the tree, are the operations of the class [Host].  The fields of the
    runtime that the queues do not use are its [world].
    [taken] is a record the model keeps of the jobs taken from the queues, with the lengths that
    [record_event_loop_job] prints; counters, timers and traces are left out.
    A loop that does not end in its fuel answers [None]. *)

From S2P Require Import Prelude Text.

(** ** Data *)

Abbreviation ObjectRef := nat (only parsing).

(** A number is the bits of a double. *)
Inductive Value :=
| Undefined
| Null
| Boolean (b : bool)
| Number (bits : Z)
| JsString (s : string)
| BigInt (z : Z)
| Symbol (s : string)
| Object (id : ObjectRef).

Inductive RuntimeError :=
| TypeError (message : string)
| Thrown (v : Value)
| AsyncHookFatal (v : Value)
| OtherError (debug : string).

Definition context : Type := gmap ObjectRef Value.

Inductive HostEnqueuePhase :=
| HostCompletionMacrotask
| MessageDeliveryMacrotask
| EventSemanticMacrotask
| TimerCallbackMacrotask
| AtomicsWaitAsyncPollMacrotask.

Inductive queue_name := Nexttick | Microtasks | Macrotasks.

Section Jobs.
Context {Closure Handler FrameSnapshot : Type}.

Inductive JobKind :=
| KClosure (f : Closure)
| QueueMicrotaskCallback (cb : Value)
| PromiseReaction (handler : option Handler) (value : Value) (chain : ObjectRef) (cap_resolve cap_reject : option Value) (is_rejected : bool)
| AsyncAwaitContinuation (chain promise : ObjectRef) (snapshot : FrameSnapshot) (value : Value) (is_rejected : bool).

Record Job := { label : string; kind : JobKind; async_context : context; roots : list ObjectRef }.

Record JobQueue := { microtasks : list Job; nexttick : list Job; macrotasks : list Job }.

Definition JobQueue_new : JobQueue := {| microtasks := []; nexttick := []; macrotasks := [] |}.

Definition microtask_count (q : JobQueue) : nat := length (microtasks q).
Definition macrotask_count (q : JobQueue) : nat := length (macrotasks q).

Definition is_nil {A} (l : list A) : bool := match l with [] => true | _ => false end.

Definition is_empty (q : JobQueue) : bool := is_nil (microtasks q) && is_nil (macrotasks q) && is_nil (nexttick q).

Definition object_of (v : Value) : option ObjectRef := match v with Object id => Some id | _ => None end.

(** The objects a queue keeps alive. *)
Definition job_roots (job : Job) : list ObjectRef :=
  roots job ++ (map_to_list (async_context job)).*1 ++ omap object_of (map_to_list (async_context job)).*2.

Definition collect_roots (q : JobQueue) (rs : list ObjectRef) : list ObjectRef :=
  rs ++ ((microtasks q ++ macrotasks q ++ nexttick q) ≫= job_roots).

Definition jobs (n : queue_name) (q : JobQueue) : list Job :=
  match n with Nexttick => nexttick q | Microtasks => microtasks q | Macrotasks => macrotasks q end.

Definition set_jobs (n : queue_name) (l : list Job) (q : JobQueue) : JobQueue :=
  match n with
  | Nexttick => {| microtasks := microtasks q; nexttick := l; macrotasks := macrotasks q |}
  | Microtasks => {| microtasks := l; nexttick := nexttick q; macrotasks := macrotasks q |}
  | Macrotasks => {| microtasks := microtasks q; nexttick := nexttick q; macrotasks := l |}
  end.

(** A job taken from a queue, and what was left in the queues. *)
Record entry := { phase : queue_name; job : Job; nexttick_len : nat; microtask_len : nat; macrotask_len : nat }.

End Jobs.

Arguments JobKind : clear implicits.
Arguments Job : clear implicits.
Arguments JobQueue : clear implicits.
Arguments entry : clear implicits.

Section Runtime.
Context {Closure Handler FrameSnapshot World Poll : Type}.

#[local] Abbreviation Job := (Job Closure Handler FrameSnapshot).
#[local] Abbreviation JobKind := (JobKind Closure Handler FrameSnapshot).

Record Runtime := {
  job_queue : JobQueue Closure Handler FrameSnapshot;
  als_context : context;
  active_job_roots : list (list ObjectRef);
  microtask_budget_limit : option Z;
  microtask_budget_used : Z;
  io_wait_tick : bool;
  poll_io : option Poll;
  world : World;
  taken : list (entry Closure Handler FrameSnapshot);
}.

Definition set_job_queue q rt := {| job_queue := q; als_context := als_context rt; active_job_roots := active_job_roots rt;
  microtask_budget_limit := microtask_budget_limit rt; microtask_budget_used := microtask_budget_used rt; io_wait_tick := io_wait_tick rt;
  poll_io := poll_io rt; world := world rt; taken := taken rt |}.
Definition set_als_context c rt := {| job_queue := job_queue rt; als_context := c; active_job_roots := active_job_roots rt;
  microtask_budget_limit := microtask_budget_limit rt; microtask_budget_used := microtask_budget_used rt; io_wait_tick := io_wait_tick rt;
  poll_io := poll_io rt; world := world rt; taken := taken rt |}.
Definition set_active_job_roots a rt := {| job_queue := job_queue rt; als_context := als_context rt; active_job_roots := a;
  microtask_budget_limit := microtask_budget_limit rt; microtask_budget_used := microtask_budget_used rt; io_wait_tick := io_wait_tick rt;
  poll_io := poll_io rt; world := world rt; taken := taken rt |}.
Definition set_microtask_budget_used u rt := {| job_queue := job_queue rt; als_context := als_context rt; active_job_roots := active_job_roots rt;
  microtask_budget_limit := microtask_budget_limit rt; microtask_budget_used := u; io_wait_tick := io_wait_tick rt;
  poll_io := poll_io rt; world := world rt; taken := taken rt |}.
Definition set_io_wait_tick b rt := {| job_queue := job_queue rt; als_context := als_context rt; active_job_roots := active_job_roots rt;
  microtask_budget_limit := microtask_budget_limit rt; microtask_budget_used := microtask_budget_used rt; io_wait_tick := b;
  poll_io := poll_io rt; world := world rt; taken := taken rt |}.
Definition set_poll_io p rt := {| job_queue := job_queue rt; als_context := als_context rt; active_job_roots := active_job_roots rt;
  microtask_budget_limit := microtask_budget_limit rt; microtask_budget_used := microtask_budget_used rt; io_wait_tick := io_wait_tick rt;
  poll_io := p; world := world rt; taken := taken rt |}.
Definition set_taken l rt := {| job_queue := job_queue rt; als_context := als_context rt; active_job_roots := active_job_roots rt;
  microtask_budget_limit := microtask_budget_limit rt; microtask_budget_used := microtask_budget_used rt; io_wait_tick := io_wait_tick rt;
  poll_io := poll_io rt; world := world rt; taken := l |}.

(** The code around the queues: closures, the interpreter, promise jobs, the collector's
    trigger, the host's poll, and the setting of the environment. *)
Class Host := {
  call_closure : Closure → Runtime → Runtime * result unit RuntimeError;
  call_function : Value → Value → list Value → Runtime → Runtime * result Value RuntimeError;
  run_reaction_job : option Handler → Value → ObjectRef → option Value → option Value → bool → Runtime → Runtime * result unit RuntimeError;
  run_async_await_continuation_job : ObjectRef → ObjectRef → FrameSnapshot → Value → bool → Runtime → Runtime * result unit RuntimeError;
  take_async_hook_fatal_exception : Runtime → Runtime * option Value;
  maybe_collect_between_jobs : Runtime → Runtime;
  run_poll : Poll → Runtime → Runtime * result bool RuntimeError;
  empty_async_context_fast_enabled : bool;
}.

(** ** Queueing *)

Definition push_back (n : queue_name) (j : Job) (rt : Runtime) : Runtime :=
  set_job_queue (set_jobs n (jobs n (job_queue rt) ++ [j]) (job_queue rt)) rt.

Definition closure_job (label : string) (roots : list ObjectRef) (context : context) (f : Closure) : Job :=
  {| label := label; kind := KClosure f; async_context := context; roots := roots |}.

Definition enqueue_microtask_rooted_with_async_context label roots context f rt := push_back Microtasks (closure_job label roots context f) rt.
Definition enqueue_microtask_rooted label roots f rt := push_back Microtasks (closure_job label roots (als_context rt) f) rt.
Definition enqueue_microtask label f rt := enqueue_microtask_rooted label [] f rt.

Definition enqueue_queue_microtask_callback (cb : Value) (roots : list ObjectRef) (rt : Runtime) : Runtime :=
  push_back Microtasks {| label := "queueMicrotask"; kind := QueueMicrotaskCallback cb; async_context := als_context rt; roots := roots |} rt.

Definition enqueue_promise_reaction_job roots handler value chain cap_resolve cap_reject is_rejected (rt : Runtime) : Runtime :=
  push_back Microtasks {| label := "PromiseReactionJob"; kind := PromiseReaction handler value chain cap_resolve cap_reject is_rejected;
                          async_context := als_context rt; roots := roots |} rt.

(** The context of a snapshot is a field of it. *)
Definition enqueue_async_await_continuation_job (snapshot_context : FrameSnapshot → context) roots chain promise snapshot value is_rejected (rt : Runtime) : Runtime :=
  push_back Microtasks {| label := "AsyncAwaitContinuationJob"; kind := AsyncAwaitContinuation chain promise snapshot value is_rejected;
                          async_context := snapshot_context snapshot; roots := roots |} rt.

Definition enqueue_nexttick_rooted label roots f rt := push_back Nexttick (closure_job label roots (als_context rt) f) rt.
Definition enqueue_macrotask_rooted_with_async_context label roots context f rt := push_back Macrotasks (closure_job label roots context f) rt.
Definition enqueue_macrotask_rooted label roots f rt := push_back Macrotasks (closure_job label roots (als_context rt) f) rt.
Definition enqueue_macrotask label f rt := enqueue_macrotask_rooted label [] f rt.

Definition enqueue_host_phase_rooted (phase : HostEnqueuePhase) label roots f rt : Runtime :=
  match phase with
  | HostCompletionMacrotask | MessageDeliveryMacrotask | EventSemanticMacrotask | TimerCallbackMacrotask
  | AtomicsWaitAsyncPollMacrotask => enqueue_macrotask_rooted label roots f rt
  end.

Definition enqueue_host_phase_rooted_with_async_context (phase : HostEnqueuePhase) label roots context f rt : Runtime :=
  match phase with
  | HostCompletionMacrotask | MessageDeliveryMacrotask | EventSemanticMacrotask | TimerCallbackMacrotask
  | AtomicsWaitAsyncPollMacrotask => enqueue_macrotask_rooted_with_async_context label roots context f rt
  end.

(** ** Async-local storage *)

Definition als_get_store (id : ObjectRef) (rt : Runtime) : Value := default Undefined (als_context rt !! id).
Definition als_has_store (id : ObjectRef) (rt : Runtime) : bool := bool_decide (is_Some (als_context rt !! id)).
Definition als_clear_store (id : ObjectRef) (rt : Runtime) : Runtime := set_als_context (delete id (als_context rt)) rt.
Definition als_context_snapshot (rt : Runtime) : context := als_context rt.
Definition als_context_replace (c : context) (rt : Runtime) : Runtime * context := (set_als_context c rt, als_context rt).
Definition als_set_store (id : ObjectRef) (store : Value) (rt : Runtime) : Runtime := set_als_context (<[id := store]> (als_context rt)) rt.

(** ** Running *)

(** A computation on the runtime: out of fuel, or an answer. *)
Definition M (A : Type) : Type := Runtime → option (Runtime * result A RuntimeError).

#[export] Instance M_ret : MRet M := λ A a rt, Some (rt, Ok a).
#[export] Instance M_bind : MBind M := λ A B k m rt,
  match m rt with
  | Some (rt, Ok a) => k a rt
  | Some (rt, Err e) => Some (rt, Err e)
  | None => None
  end.

Definition out_of_fuel {A} : M A := λ _, None.
Definition throw {A} (e : RuntimeError) : M A := λ rt, Some (rt, Err e).
Definition modify (f : Runtime → Runtime) : M unit := λ rt, Some (f rt, Ok tt).
Definition get {A} (f : Runtime → A) : M A := λ rt, Some (rt, Ok (f rt)).
Definition lift {A} (f : Runtime → Runtime * result A RuntimeError) : M A := λ rt, Some (f rt).

(** [pop_front], with a record of it. *)
Definition pop_front (n : queue_name) : M (option Job) := λ rt,
  match jobs n (job_queue rt) with
  | [] => Some (rt, Ok None)
  | j :: rest =>
      let q := set_jobs n rest (job_queue rt) in
      let e := {| phase := n; job := j; nexttick_len := length (nexttick q); microtask_len := length (microtasks q); macrotask_len := length (macrotasks q) |} in
      Some (set_taken (taken rt ++ [e]) (set_job_queue q rt), Ok (Some j))
  end.

Definition usize_max : Z := 18446744073709551615.

Definition budget_error (limit used : Z) (label : string) : RuntimeError :=
  TypeError ("microtask budget exceeded: limit=" +:+ u64_to_string limit +:+ " attempted=" +:+ u64_to_string used +:+ " label=" +:+ label).

Definition check_microtask_budget (label : string) (rt : Runtime) : Runtime * result unit RuntimeError :=
  match microtask_budget_limit rt with
  | None => (rt, Ok tt)
  | Some limit =>
      let used := Z.min usize_max (microtask_budget_used rt + 1) in
      let rt := set_microtask_budget_used used rt in
      if (limit <? used)%Z then (rt, Err (budget_error limit used label)) else (rt, Ok tt)
  end.

Context `{!Host}.

Definition run_job_kind (k : JobKind) (rt : Runtime) : Runtime * result unit RuntimeError :=
  match k with
  | KClosure f => call_closure f rt
  | QueueMicrotaskCallback cb => let '(rt, _) := call_function cb Undefined [] rt in (rt, Ok tt)
  | PromiseReaction handler value chain cap_resolve cap_reject is_rejected =>
      run_reaction_job handler value chain cap_resolve cap_reject is_rejected rt
  | AsyncAwaitContinuation chain promise snapshot value is_rejected =>
      run_async_await_continuation_job chain promise snapshot value is_rejected rt
  end.

Definition push_active (rs : list ObjectRef) (rt : Runtime) : Runtime := set_active_job_roots (active_job_roots rt ++ [rs]) rt.
Definition pop_active (rt : Runtime) : Runtime := set_active_job_roots (removelast (active_job_roots rt)) rt.

Definition run_job_static (j : Job) (rt : Runtime) : Runtime * result unit RuntimeError :=
  if empty_async_context_fast_enabled && bool_decide (async_context j = ∅) && bool_decide (als_context rt = ∅) then
    let rt := push_active (roots j) rt in
    let '(rt, result) := run_job_kind (kind j) rt in
    (pop_active rt, result)
  else
    let '(rt, saved) := als_context_replace (async_context j) rt in
    let rt := push_active (roots j) rt in
    let '(rt, result) := run_job_kind (kind j) rt in
    let rt := pop_active rt in
    (set_als_context saved rt, result).

Definition pump_one_microtask : M bool :=
  o ← pop_front Nexttick;
  match o with
  | Some j => _ ← lift (run_job_static j); mret true
  | None =>
      o ← pop_front Microtasks;
      match o with
      | None => mret false
      | Some j => _ ← lift (check_microtask_budget (label j)); _ ← lift (run_job_static j); mret true
      end
  end.

(** The two inner loops of [drain_microtask_checkpoint]. *)
Fixpoint checkpoint_nextticks (fuel : nat) : M unit :=
  match fuel with
  | O => out_of_fuel
  | S fuel =>
      o ← pop_front Nexttick;
      match o with None => mret tt | Some j => _ ← lift (run_job_static j); checkpoint_nextticks fuel end
  end.

Fixpoint checkpoint_microtasks (fuel : nat) : M unit :=
  match fuel with
  | O => out_of_fuel
  | S fuel =>
      o ← pop_front Microtasks;
      match o with
      | None => mret tt
      | Some j => _ ← lift (check_microtask_budget (label j)); _ ← lift (run_job_static j); checkpoint_microtasks fuel
      end
  end.

Fixpoint drain_microtask_checkpoint (fuel : nat) : M unit :=
  match fuel with
  | O => out_of_fuel
  | S fuel' =>
      _ ← checkpoint_nextticks fuel;
      _ ← checkpoint_microtasks fuel;
      empty ← get (λ rt, is_nil (nexttick (job_queue rt)));
      if empty : bool then mret tt else drain_microtask_checkpoint fuel'
  end.

(** After each job of a tick: a fatal exception of a hook ends the turn. *)
Definition after_job : M unit :=
  fatal ← (λ rt, let '(rt, v) := take_async_hook_fatal_exception rt in Some (rt, Ok v));
  match fatal with
  | Some v => throw (AsyncHookFatal v)
  | None => modify maybe_collect_between_jobs
  end.

Fixpoint tick_nextticks (fuel : nat) (did_work : bool) : M bool :=
  match fuel with
  | O => out_of_fuel
  | S fuel =>
      o ← pop_front Nexttick;
      match o with
      | None => mret did_work
      | Some j => _ ← lift (run_job_static j); _ ← after_job; tick_nextticks fuel true
      end
  end.

Fixpoint tick_microtasks (fuel : nat) (did_work : bool) : M bool :=
  match fuel with
  | O => out_of_fuel
  | S fuel =>
      o ← pop_front Microtasks;
      match o with
      | None => mret did_work
      | Some j => _ ← lift (check_microtask_budget (label j)); _ ← lift (run_job_static j); _ ← after_job; tick_microtasks fuel true
      end
  end.

Fixpoint tick_checkpoint (fuel : nat) (did_work : bool) : M bool :=
  match fuel with
  | O => out_of_fuel
  | S fuel' =>
      did_work ← tick_nextticks fuel did_work;
      did_work ← tick_microtasks fuel did_work;
      empty ← get (λ rt, is_nil (nexttick (job_queue rt)));
      if empty : bool then mret did_work else tick_checkpoint fuel' did_work
  end.

Definition pump_one_tick (fuel : nat) : M bool :=
  did_work ← tick_checkpoint fuel false;
  o ← pop_front Macrotasks;
  match o with
  | None => mret did_work
  | Some j => _ ← lift (run_job_static j); _ ← after_job; mret true
  end.

Definition max_iterations : Z := 10000000.

(** One call of the host's poll, which is out of its place while it runs. *)
Definition poll_once : M bool := λ rt,
  match poll_io rt with
  | None => Some (rt, Ok false)
  | Some poll =>
      match run_poll poll (set_poll_io None rt) with
      | (rt, Ok progressed) => Some (set_poll_io (Some poll) rt, Ok progressed)
      | (rt, Err e) => Some (rt, Err e)
      end
  end.

(** The turns of [run_to_completion]; [tick_fuel] is for the loops of a tick. *)
Fixpoint run_turns (fuel tick_fuel : nat) (iter : Z) : M unit :=
  match fuel with
  | O => out_of_fuel
  | S fuel =>
      fatal ← (λ rt, let '(rt, v) := take_async_hook_fatal_exception rt in Some (rt, Ok v));
      match fatal with
      | Some v => throw (AsyncHookFatal v)
      | None =>
          let iter := (iter + 1)%Z in
          if (max_iterations <? iter)%Z then throw (TypeError "run_to_completion: max-iteration safety bound exceeded")
          else
            _ ← modify (set_microtask_budget_used 0);
            did_work ← pump_one_tick tick_fuel;
            waiting ← get io_wait_tick;
            _ ← modify (if waiting : bool then set_io_wait_tick false else id);
            let iter := if waiting : bool then 0%Z else iter in
            if did_work : bool then run_turns fuel tick_fuel iter
            else
              progressed ← poll_once;
              if progressed : bool then run_turns fuel tick_fuel 0 else mret tt
      end
  end.

Definition run_to_completion (fuel tick_fuel : nat) : M unit := run_turns fuel tick_fuel 0.

(** ** The drains of module evaluation *)

Fixpoint module_microtasks (fuel : nat) : M unit :=
  match fuel with
  | O => out_of_fuel
  | S fuel =>
      o ← pop_front Microtasks;
      match o with
      | None => mret tt
      | Some j => _ ← lift (check_microtask_budget (label j)); _ ← lift (run_job_static j); _ ← modify maybe_collect_between_jobs; module_microtasks fuel
      end
  end.

Fixpoint module_nextticks (fuel : nat) : M unit :=
  match fuel with
  | O => out_of_fuel
  | S fuel =>
      o ← pop_front Nexttick;
      match o with
      | None => mret tt
      | Some j => _ ← lift (run_job_static j); _ ← modify maybe_collect_between_jobs; module_nextticks fuel
      end
  end.

(** With [include_dynamic_import], as every caller asks for: no job is deferred. *)
Fixpoint drain_module_microtasks (fuel : nat) : M unit :=
  match fuel with
  | O => out_of_fuel
  | S fuel' =>
      _ ← module_nextticks fuel;
      _ ← module_microtasks fuel;
      empty ← get (λ rt, is_nil (nexttick (job_queue rt)));
      if empty : bool then mret tt else drain_module_microtasks fuel'
  end.

Definition drain_outermost_module_microtasks (fuel : nat) : M unit :=
  _ ← module_microtasks fuel; drain_module_microtasks fuel.

End Runtime.

Arguments Runtime : clear implicits.
Arguments Host : clear implicits.
