(* ===== verification/EventLoopTheory.v ===== *)
(** * EventLoopTheory: jobs run once, in order, and to the end

    The history of a queue is the jobs taken from it and the jobs in it.  Whatever the jobs do
    with the operations of the queues, histories only grow at their ends: no job is lost, taken
    twice or out of order ([event_loop_order]); a macrotask is taken only when the two other
    queues are empty.  When the jobs make finitely much work the loop ends, with its queues
    empty or in an error there is a reason for ([event_loop_completes]); the rules for this are
    those of [finishes], a triple for computations that end. *)

From S2P Require Import Prelude Text EventLoop.

Section Theory.
Context {Closure Handler FrameSnapshot World Poll : Type}.

#[local] Abbreviation Job := (Job Closure Handler FrameSnapshot).
#[local] Abbreviation Runtime := (Runtime Closure Handler FrameSnapshot World Poll).
#[local] Abbreviation entry := (entry Closure Handler FrameSnapshot).
#[local] Abbreviation M := (M (Closure := Closure) (Handler := Handler) (FrameSnapshot := FrameSnapshot) (World := World) (Poll := Poll)).

#[export] Instance queue_name_eq_dec : EqDecision queue_name.
Proof. solve_decision. Defined.

(** ** Histories *)

Definition taken_from (n : queue_name) (rt : Runtime) : list Job := job <$> filter (λ e, phase e = n) (taken rt).

Definition history (n : queue_name) (rt : Runtime) : list Job := taken_from n rt ++ jobs n (job_queue rt).

(** A macrotask is taken when there is nothing else to run. *)
Definition at_checkpoint (e : entry) : Prop := phase e = Macrotasks → nexttick_len e = 0 ∧ microtask_len e = 0.

Definition grows (rt rt' : Runtime) : Prop :=
  (∀ n, history n rt `prefix_of` history n rt') ∧ ∃ l, taken rt' = taken rt ++ l ∧ Forall at_checkpoint l.

#[export] Instance grows_preorder : PreOrder grows.
Proof.
  split.
  - intros rt. split; [done|]. exists []. by rewrite app_nil_r.
  - intros a b c [H1 (l1 & E1 & F1)] [H2 (l2 & E2 & F2)]. split; [intros n; transitivity (history n b); [apply H1|apply H2]|]. exists (l1 ++ l2). rewrite E2, E1, app_assoc. split; [done|]. by apply Forall_app.
Qed.

(** What does not touch the queues. *)
Lemma grows_same rt rt' : job_queue rt' = job_queue rt → taken rt' = taken rt → grows rt rt'.
Proof.
  intros Eq Et. split; [intros n; unfold history, taken_from; by rewrite Eq, Et|]. exists []. by rewrite app_nil_r.
Qed.

Lemma push_back_grows n j rt : grows rt (push_back n j rt).
Proof.
  split; [|exists []; by rewrite app_nil_r]. intros m. unfold history, taken_from, push_back, set_job_queue. cbn [taken job_queue].
  destruct n, m; cbn; rewrite ?app_assoc; (done || by eexists).
Qed.

(** The code of the program and of the host uses the queues by their operations only. *)
Class HostGrows `{!Host Closure Handler FrameSnapshot World Poll} : Prop := {
  closure_grows f rt : grows rt (call_closure f rt).1;
  function_grows f this args rt : grows rt (call_function f this args rt).1;
  reaction_grows h v c cr cj b rt : grows rt (run_reaction_job h v c cr cj b rt).1;
  continuation_grows c p s v b rt : grows rt (run_async_await_continuation_job c p s v b rt).1;
  fatal_grows rt : grows rt (take_async_hook_fatal_exception rt).1;
  collect_grows rt : grows rt (maybe_collect_between_jobs rt);
  poll_grows p rt : grows rt (run_poll p rt).1;
}.

Definition steady {A} (m : M A) : Prop := ∀ rt rt' r, m rt = Some (rt', r) → grows rt rt'.

Lemma steady_ret {A} (a : A) : steady (mret a).
Proof. intros rt rt' r [= <- _]. reflexivity. Qed.

Lemma steady_throw {A} e : steady (throw (A := A) e).
Proof. intros rt rt' r [= <- _]. reflexivity. Qed.

Lemma steady_get {A} (f : Runtime → A) : steady (get f).
Proof. intros rt rt' r [= <- _]. reflexivity. Qed.

Lemma steady_fuel {A} : steady (out_of_fuel (A := A)).
Proof. done. Qed.

Lemma steady_modify f : (∀ rt, grows rt (f rt)) → steady (modify f).
Proof. intros Hf rt rt' r [= <- _]. apply Hf. Qed.

Lemma steady_lift {A} (f : Runtime → Runtime * result A RuntimeError) : (∀ rt, grows rt (f rt).1) → steady (lift f).
Proof. intros Hf rt rt' r [= E]. specialize (Hf rt). by rewrite E in Hf. Qed.

Lemma steady_bind {A B} (m : M A) (k : A → M B) : steady m → (∀ a, steady (k a)) → steady (m ≫= k).
Proof.
  intros Hm Hk rt rt' r. unfold mbind, M_bind. destruct (m rt) as [[rt1 [a|e]]|] eqn:E; [|intros [= <- _]; by eapply Hm|done].
  intros E2. transitivity rt1; [by eapply Hm|by eapply Hk].
Qed.

(** Taking a job moves it from the queue to the record. *)
Lemma pop_front_history n rt j rest : jobs n (job_queue rt) = j :: rest →
  ∃ rt', pop_front n rt = Some (rt', Ok (Some j)) ∧ (∀ m, history m rt' = history m rt) ∧ jobs n (job_queue rt') = rest ∧
    (∀ m, m ≠ n → jobs m (job_queue rt') = jobs m (job_queue rt)) ∧
    taken rt' = taken rt ++ [{| phase := n; job := j; nexttick_len := length (nexttick (job_queue rt')); microtask_len := length (microtasks (job_queue rt'));
                                macrotask_len := length (macrotasks (job_queue rt')) |}] ∧
    world rt' = world rt ∧ microtask_budget_limit rt' = microtask_budget_limit rt.
Proof.
  intros E. unfold pop_front. rewrite E. eexists. split; [done|]. unfold history, taken_from. cbn [taken job_queue set_taken set_job_queue world microtask_budget_limit].
  split_and!; [|by destruct n|intros m Hm; by destruct n, m|by destruct n|done|done]. intros m. rewrite filter_app, fmap_app, filter_cons, filter_nil. cbn [phase].
  destruct (decide (n = m)) as [->|Hne]; cbn [fmap list_fmap job app].
  - rewrite <-app_assoc. cbn [app]. rewrite E. by destruct m.
  - rewrite app_nil_r. f_equal. by destruct n, m.
Qed.

Lemma pop_front_grows n rt rt' r : (n = Macrotasks → nexttick (job_queue rt) = [] ∧ microtasks (job_queue rt) = []) →
  pop_front n rt = Some (rt', r) → grows rt rt'.
Proof.
  intros Hn Hp. destruct (jobs n (job_queue rt)) as [|j rest] eqn:E.
  - unfold pop_front in Hp. rewrite E in Hp. injection Hp as <- _. reflexivity.
  - destruct (pop_front_history n rt j rest E) as (rt1 & Hp1 & Hh & Hrest & Hother & Ht & _). rewrite Hp in Hp1. injection Hp1 as -> _.
    split; [intros m; by rewrite Hh|]. eexists. split; [exact Ht|]. apply Forall_singleton. intros Hm. cbn in Hm. subst n. destruct (Hn eq_refl) as [E1 E2].
    cbn. pose proof (Hother Nexttick ltac:(done)) as H1. pose proof (Hother Microtasks ltac:(done)) as H2. cbn in H1, H2. by rewrite H1, H2, E1, E2.
Qed.

Lemma steady_pop n : n ≠ Macrotasks → steady (pop_front n).
Proof. intros Hn rt rt' r. by apply pop_front_grows. Qed.

Lemma budget_grows label (rt : Runtime) : grows rt (check_microtask_budget label rt).1.
Proof.
  unfold check_microtask_budget. destruct (microtask_budget_limit rt) as [limit|]; [|reflexivity]. destruct (_ <? _)%Z; by apply grows_same.
Qed.

Section Order.
Context `{!Host Closure Handler FrameSnapshot World Poll} `{!HostGrows}.

Lemma kind_grows k rt : grows rt (run_job_kind k rt).1.
Proof.
  destruct k; cbn [run_job_kind]; [apply closure_grows| |apply reaction_grows|apply continuation_grows].
  pose proof (function_grows cb Undefined [] rt) as Hf. by destruct (call_function cb Undefined [] rt).
Qed.

Lemma run_job_grows j rt : grows rt (run_job_static j rt).1.
Proof.
  unfold run_job_static. destruct (_ && _ && _); cbn [als_context_replace].
  - pose proof (kind_grows (kind j) (push_active (roots j) rt)) as Hk. destruct (run_job_kind _ _) as [rt1 r]. cbn [fst] in *.
    etrans; [|etrans; [exact Hk|]]; by apply grows_same.
  - pose proof (kind_grows (kind j) (push_active (roots j) (set_als_context (async_context j) rt))) as Hk. destruct (run_job_kind _ _) as [rt1 r]. cbn [fst] in *.
    etrans; [|etrans; [exact Hk|]]; by apply grows_same.
Qed.

Lemma fatal_steady : steady (λ rt : Runtime, let '(rt, v) := take_async_hook_fatal_exception rt in Some (rt, Ok v)).
Proof. intros rt rt' r. pose proof (fatal_grows rt). destruct (take_async_hook_fatal_exception rt). by intros [= <- _]. Qed.

Lemma after_job_steady : steady after_job.
Proof.
  apply steady_bind; [apply fatal_steady|]. intros [v|]; [apply steady_throw|apply steady_modify, collect_grows].
Qed.

(** Each of the loops is a sequence of operations that are steady. *)
Ltac steady_step :=
  first [ apply steady_ret | apply steady_throw | apply steady_get | apply steady_fuel | apply after_job_steady
        | apply steady_pop; done | apply steady_modify, collect_grows | apply steady_lift; intros; apply run_job_grows
        | apply steady_lift; intros; apply budget_grows | apply steady_bind; [|intros] ].

Lemma tick_nextticks_steady fuel : ∀ d, steady (tick_nextticks fuel d).
Proof. induction fuel as [|fuel IH]; intros d; cbn [tick_nextticks]; repeat (steady_step || case_match || apply IH). Qed.

Lemma tick_microtasks_steady fuel : ∀ d, steady (tick_microtasks fuel d).
Proof. induction fuel as [|fuel IH]; intros d; cbn [tick_microtasks]; repeat (steady_step || case_match || apply IH). Qed.

Lemma tick_checkpoint_steady fuel : ∀ d, steady (tick_checkpoint fuel d).
Proof.
  induction fuel as [|fuel IH]; intros d; cbn [tick_checkpoint]; [apply steady_fuel|].
  apply steady_bind; [apply tick_nextticks_steady|intros d1]. apply steady_bind; [apply tick_microtasks_steady|intros d2]. apply steady_bind; [apply steady_get|intros []]; [apply steady_ret|apply IH].
Qed.

Lemma tick_microtasks_empty fuel : ∀ d rt rt' b, tick_microtasks fuel d rt = Some (rt', Ok b) → microtasks (job_queue rt') = [].
Proof.
  induction fuel as [|fuel IH]; intros d rt rt' b; [done|]. cbn [tick_microtasks]. unfold mbind, M_bind. destruct (jobs Microtasks (job_queue rt)) as [|j rest] eqn:E.
  - unfold pop_front. rewrite E. by intros [= <- _].
  - destruct (pop_front_history Microtasks rt j rest E) as (rt1 & -> & _). unfold lift. destruct (check_microtask_budget (label j) rt1) as [rt2 [[]|e]]; [|done].
    destruct (run_job_static j rt2) as [rt3 [[]|e]]; [|done]. destruct (after_job rt3) as [[rt4 [[]|e]]|]; [apply IH|done|done].
Qed.

(** The checkpoint of a tick ends with nothing left but macrotasks. *)
Lemma tick_checkpoint_empty fuel : ∀ d rt rt' b, tick_checkpoint fuel d rt = Some (rt', Ok b) → nexttick (job_queue rt') = [] ∧ microtasks (job_queue rt') = [].
Proof.
  induction fuel as [|fuel IH]; intros d rt rt' b; [done|]. cbn [tick_checkpoint]. unfold mbind, M_bind.
  destruct (tick_nextticks (S fuel) d rt) as [[rt1 [d1|e]]|]; [|done|done]. destruct (tick_microtasks (S fuel) d1 rt1) as [[rt2 [d2|e]]|] eqn:E; [|done|done].
  cbn [get]. destruct (is_nil (nexttick (job_queue rt2))) eqn:En; [|apply IH]. intros [= <- _]. split; [by destruct (nexttick (job_queue rt2))|by eapply tick_microtasks_empty].
Qed.

Lemma pump_one_tick_steady fuel : steady (pump_one_tick fuel).
Proof.
  intros rt rt' r. unfold pump_one_tick, mbind, M_bind. destruct (tick_checkpoint fuel false rt) as [[rt1 [d|e]]|] eqn:E; [|intros [= <- _]; by eapply tick_checkpoint_steady|done].
  intros Hp. transitivity rt1; [by eapply tick_checkpoint_steady|]. pose proof (tick_checkpoint_empty _ _ _ _ _ E) as He.
  destruct (pop_front Macrotasks rt1) as [[rt2 [o|e]]|] eqn:E2; [|injection Hp as <- _; by eapply pop_front_grows|done].
  transitivity rt2; [by eapply pop_front_grows|]. destruct o as [j|]; [|by injection Hp as <- _]. revert Hp.
  assert (steady (lift (run_job_static j) ≫= λ _, after_job ≫= λ _, mret true)) as Hs by repeat steady_step. apply Hs.
Qed.

Lemma poll_once_steady : steady poll_once.
Proof.
  intros rt rt' r. unfold poll_once. destruct (poll_io rt) as [p|]; [|by intros [= <- _]]. pose proof (poll_grows p (set_poll_io None rt)) as Hp.
  destruct (run_poll p (set_poll_io None rt)) as [rt1 [b|e]]; cbn [fst] in Hp; intros [= <- _]; (etrans; [by apply grows_same|]); (etrans; [exact Hp|by apply grows_same]).
Qed.

Lemma run_turns_steady fuel tick_fuel : ∀ iter, steady (run_turns fuel tick_fuel iter).
Proof.
  induction fuel as [|fuel IH]; intros iter; cbn [run_turns]; [apply steady_fuel|]. apply steady_bind; [apply fatal_steady|]. intros [v|]; [apply steady_throw|].
  destruct (max_iterations <? iter + 1)%Z; [apply steady_throw|]. apply steady_bind; [apply steady_modify; intros; by apply grows_same|intros _].
  apply steady_bind; [apply pump_one_tick_steady|intros d]. apply steady_bind; [apply steady_get|intros w].
  apply steady_bind; [apply steady_modify; intros; destruct w; by apply grows_same|intros _]. destruct d; [apply IH|].
  apply steady_bind; [apply poll_once_steady|intros []]; [apply IH|apply steady_ret].
Qed.

Lemma checkpoint_nextticks_steady fuel : steady (checkpoint_nextticks fuel).
Proof. induction fuel as [|fuel IH]; cbn [checkpoint_nextticks]; repeat (steady_step || case_match || apply IH). Qed.

Lemma checkpoint_microtasks_steady fuel : steady (checkpoint_microtasks fuel).
Proof. induction fuel as [|fuel IH]; cbn [checkpoint_microtasks]; repeat (steady_step || case_match || apply IH). Qed.

Lemma drain_steady fuel : steady (drain_microtask_checkpoint fuel).
Proof.
  induction fuel as [|fuel IH]; cbn [drain_microtask_checkpoint]; [apply steady_fuel|].
  apply steady_bind; [apply checkpoint_nextticks_steady|intros _]. apply steady_bind; [apply checkpoint_microtasks_steady|intros _]. apply steady_bind; [apply steady_get|intros []]; [apply steady_ret|apply IH].
Qed.

Lemma module_microtasks_steady fuel : steady (module_microtasks fuel).
Proof. induction fuel as [|fuel IH]; cbn [module_microtasks]; repeat (steady_step || case_match || apply IH). Qed.

Lemma module_nextticks_steady fuel : steady (module_nextticks fuel).
Proof. induction fuel as [|fuel IH]; cbn [module_nextticks]; repeat (steady_step || case_match || apply IH). Qed.

Lemma drain_module_steady fuel : steady (drain_module_microtasks fuel).
Proof.
  induction fuel as [|fuel IH]; cbn [drain_module_microtasks]; [apply steady_fuel|].
  apply steady_bind; [apply module_nextticks_steady|intros _]. apply steady_bind; [apply module_microtasks_steady|intros _]. apply steady_bind; [apply steady_get|intros []]; [apply steady_ret|apply IH].
Qed.

Lemma pump_one_microtask_steady : steady pump_one_microtask.
Proof. unfold pump_one_microtask. repeat (steady_step || case_match). Qed.

(** The ways in which jobs are run. *)
Inductive pump : ∀ A, M A → Prop :=
| pump_run fuel tick_fuel : pump unit (run_to_completion fuel tick_fuel)
| pump_tick fuel : pump bool (pump_one_tick fuel)
| pump_checkpoint fuel : pump unit (drain_microtask_checkpoint fuel)
| pump_microtask : pump bool pump_one_microtask
| pump_module fuel : pump unit (drain_outermost_module_microtasks fuel).

Lemma pump_steady A m : pump A m → steady m.
Proof.
  intros []; [apply run_turns_steady|apply pump_one_tick_steady|apply drain_steady|apply pump_one_microtask_steady|].
  apply steady_bind; [apply module_microtasks_steady|intros _; apply drain_module_steady].
Qed.


End Order.

(** ** Contexts

    A job runs in the context it was queued in, with its roots on the stack of active jobs, and
    both are put back, but for the fast path: there the context the job leaves stays. *)
Lemma run_job_static_context `{!Host Closure Handler FrameSnapshot World Poll} j rt :
  let rt1 := push_active (roots j) (set_als_context (async_context j) rt) in
  ∃ rt2 r, run_job_kind (kind j) rt1 = (rt2, r) ∧
    run_job_static j rt = (if empty_async_context_fast_enabled && bool_decide (async_context j = ∅) && bool_decide (als_context rt = ∅) then pop_active rt2
                           else set_als_context (als_context rt) (pop_active rt2), r).
Proof.
  cbv zeta. unfold run_job_static. destruct (_ && _ && _) eqn:E.
  - apply andb_true_iff in E as [E1 E2]. apply andb_true_iff in E1 as [_ E1]. apply bool_decide_eq_true in E1, E2.
    assert (set_als_context (async_context j) rt = rt) as -> by (rewrite E1, <-E2; by destruct rt).
    destruct (run_job_kind (kind j) (push_active (roots j) rt)) as [rt2 r] eqn:Ek. by exists rt2, r.
  - cbn [als_context_replace]. destruct (run_job_kind _ _) as [rt2 r] eqn:Ek. by exists rt2, r.
Qed.

(** The host's poll is lost when it fails. *)
Lemma poll_lost `{!Host Closure Handler FrameSnapshot World Poll} p rt rt1 e :
  poll_io rt = Some p → run_poll p (set_poll_io None rt) = (rt1, Err e) → poll_once rt = Some (rt1, Err e).
Proof. intros E1 E2. unfold poll_once. by rewrite E1, E2. Qed.

(** The objects of every queued job are among the roots the collector is given. *)
Lemma queued_jobs_rooted n (q : JobQueue Closure Handler FrameSnapshot) rs j id :
  j ∈ jobs n q → (id ∈ roots j ∨ is_Some (async_context j !! id) ∨ ∃ k, async_context j !! k = Some (Object id)) → id ∈ collect_roots q rs.
Proof.
  intros Hj Hid. unfold collect_roots. apply elem_of_app. right. apply list_elem_of_bind. exists j. split.
  - unfold job_roots. rewrite !elem_of_app. destruct Hid as [Hid|[[v Hid]|[k Hid]]]; [by left|right; left|right; right].
    + apply list_elem_of_fmap. exists (id, v). split; [done|]. by apply elem_of_map_to_list.
    + apply list_elem_of_omap. exists (Object id). split; [|done]. apply list_elem_of_fmap. exists (k, Object id). split; [done|]. by apply elem_of_map_to_list.
  - rewrite !elem_of_app. destruct n; cbn in Hj; tauto.
Qed.

(** ** Finite work *)

Context (weight : Job → nat) (pending : World → nat).

Definition weights (l : list Job) : nat := sum_list (weight <$> l).

Definition work (rt : Runtime) : nat :=
  weights (nexttick (job_queue rt)) + weights (microtasks (job_queue rt)) + weights (macrotasks (job_queue rt)) + pending (world rt).

(** A job makes less work than it is, whether it fails or not; a poll that gets on makes less
    than the events it takes, and one that does not has queued nothing; nothing sets the
    budget. *)
Class FiniteWork `{!Host Closure Handler FrameSnapshot World Poll} : Prop := {
  job_work j rt : work (run_job_kind (kind j) rt).1 < work rt + weight j;
  hook_work rt : work (take_async_hook_fatal_exception rt).1 ≤ work rt;
  collect_work rt : work (maybe_collect_between_jobs rt) ≤ work rt;
  poll_work p rt :
    match run_poll p rt with
    | (rt', Ok true) => work rt' < work rt
    | (rt', Ok false) => work rt' ≤ work rt ∧ job_queue rt' = job_queue rt
    | (_, Err _) => True
    end;
  job_limit j rt : microtask_budget_limit (run_job_kind (kind j) rt).1 = microtask_budget_limit rt;
  hook_limit rt : microtask_budget_limit (take_async_hook_fatal_exception rt).1 = microtask_budget_limit rt;
  collect_limit rt : microtask_budget_limit (maybe_collect_between_jobs rt) = microtask_budget_limit rt;
  poll_limit p rt : microtask_budget_limit (run_poll p rt).1 = microtask_budget_limit rt;
}.

Section Finite.
Context `{!Host Closure Handler FrameSnapshot World Poll} `{!HostGrows} `{!FiniteWork}.

(** ** Why a run fails *)

(** The job was taken on the way from [rt] to [rt']. *)
Definition newly_taken (rt rt' : Runtime) (j : Job) : Prop := ∃ l1 e l2, taken rt' = taken rt ++ l1 ++ e :: l2 ∧ job e = j.

(** The errors a run from [rt] to [rt'], of at most [turns] turns that do work, ends in: that of
    a job that was taken, or of the poll; an exception of a hook; the budget, when one is set;
    and the bound on turns, when there is work for as many. *)
Inductive raised (turns : nat) (rt rt' : Runtime) : RuntimeError → Prop :=
| raised_job j rt1 rt2 e : newly_taken rt rt' j → run_job_kind (kind j) rt1 = (rt2, Err e) → raised turns rt rt' e
| raised_poll p rt1 rt2 e : run_poll p rt1 = (rt2, Err e) → raised turns rt rt' e
| raised_hook rt1 rt2 v : take_async_hook_fatal_exception rt1 = (rt2, Some v) → raised turns rt rt' (AsyncHookFatal v)
| raised_budget limit used l : microtask_budget_limit rt = Some limit → (limit < used)%Z → raised turns rt rt' (budget_error limit used l)
| raised_turns : (max_iterations ≤ Z.of_nat turns)%Z → raised turns rt rt' (TypeError "run_to_completion: max-iteration safety bound exceeded").

Definition goes (rt rt' : Runtime) : Prop := taken rt `prefix_of` taken rt' ∧ microtask_budget_limit rt' = microtask_budget_limit rt.

#[export] Instance goes_preorder : PreOrder goes.
Proof. split; [by intros rt|]. intros a b c [H1 L1] [H2 L2]. split; [by etrans|congruence]. Qed.

Lemma goes_grows rt rt' : grows rt rt' → microtask_budget_limit rt' = microtask_budget_limit rt → goes rt rt'.
Proof. intros [_ (l & E & _)] Hl. split; [by exists l|done]. Qed.

Lemma newly_goes rt rt1 rt2 j : newly_taken rt rt1 j → goes rt1 rt2 → newly_taken rt rt2 j.
Proof. intros (l1 & e & l2 & E & Ej) [[l3 E3] _]. exists l1, e, (l2 ++ l3). split; [|done]. rewrite E3, E. by rewrite <- !app_assoc. Qed.

(** ** Computations that finish

    [finishes turns rt P o]: the computation, somewhere after [rt], ended in its fuel, in a state
    and an answer with [P] or with an error there is a reason for. *)
Definition finishes {A} (turns : nat) (rt : Runtime) (P : Runtime → A → Prop) (o : option (Runtime * result A RuntimeError)) : Prop :=
  ∃ rt' r, o = Some (rt', r) ∧ goes rt rt' ∧ match r with Ok a => P rt' a | Err e => raised turns rt rt' e end.

Section Rules.
Context (turns : nat) (rt0 : Runtime).

#[local] Abbreviation fin := (finishes turns rt0).

Lemma fin_ret {A} (P : Runtime → A → Prop) a rt : goes rt0 rt → P rt a → fin P ((mret a : M A) rt).
Proof. intros Hg HP. by exists rt, (Ok a). Qed.

Lemma fin_throw {A} (P : Runtime → A → Prop) e rt : goes rt0 rt → raised turns rt0 rt e → fin P (throw e rt).
Proof. intros Hg HP. by exists rt, (Err e). Qed.

Lemma fin_get {A} (P : Runtime → A → Prop) f rt : goes rt0 rt → P rt (f rt) → fin P (get f rt).
Proof. intros Hg HP. by exists rt, (Ok (f rt)). Qed.

Lemma fin_modify (P : Runtime → unit → Prop) f rt : goes rt0 (f rt) → P (f rt) tt → fin P (modify f rt).
Proof. intros Hg HP. by exists (f rt), (Ok tt). Qed.

Lemma fin_bind {A B} (Q : Runtime → A → Prop) (P : Runtime → B → Prop) (m : M A) (k : A → M B) rt :
  fin Q (m rt) → (∀ rt1 a, goes rt0 rt1 → Q rt1 a → fin P (k a rt1)) → fin P ((m ≫= k) rt).
Proof. unfold mbind, M_bind. intros (rt1 & [a|e] & -> & Hg & HQ) Hk; [by apply Hk|by exists rt1, (Err e)]. Qed.

Lemma fin_weaken {A} (P Q : Runtime → A → Prop) o : fin Q o → (∀ rt a, Q rt a → P rt a) → fin P o.
Proof. intros (rt & r & E & Hg & HQ) Hi. exists rt, r. split_and!; [done..|]. destruct r; [by apply Hi|done]. Qed.

(** Taking a job from a queue takes its work with it. *)
Lemma fin_pop n rt : goes rt0 rt →
  fin (λ rt' o, match o with
                | None => rt' = rt ∧ jobs n (job_queue rt) = []
                | Some j => newly_taken rt0 rt' j ∧ work rt = weight j + work rt'
                end) (pop_front n rt).
Proof.
  intros Hg. destruct (jobs n (job_queue rt)) as [|j rest] eqn:E; [unfold pop_front; rewrite E; by exists rt, (Ok None)|].
  destruct (pop_front_history n rt j rest E) as (rt' & -> & _ & Hrest & Hother & Ht & Hw & Hl). exists rt', (Ok (Some j)).
  assert (goes rt rt') as Hg' by (split; [rewrite Ht; by eexists|done]). split_and!; [done|by etrans| |].
  - destruct Hg as [[l El] _]. eexists l, _, []. rewrite Ht, El, <-app_assoc. done.
  - unfold work. rewrite Hw. pose proof (Hother Nexttick) as H1. pose proof (Hother Microtasks) as H2. pose proof (Hother Macrotasks) as H3.
    destruct n; cbn in *; rewrite Hrest, E; rewrite ?H1, ?H2, ?H3 by done; unfold weights; cbn [fmap list_fmap sum_list sum_list_with]; cbn; lia.
Qed.

Lemma fin_run j rt : goes rt0 rt → newly_taken rt0 rt j → fin (λ rt' _, work rt' < work rt + weight j) (lift (run_job_static j) rt).
Proof.
  intros Hg Hj. unfold lift. destruct (run_job_static_context j rt) as (rt2 & r & Ek & E). set (rt1 := push_active _ _) in Ek.
  pose proof (job_work j rt1) as Hw. pose proof (job_limit j rt1) as Hl. pose proof (run_job_grows j rt) as Hgr. rewrite Ek in Hw, Hl. rewrite E in Hgr |- *. cbn [fst] in Hw, Hl, Hgr.
  eexists _, r. split; [done|]. assert (goes rt0 (run_job_static j rt).1) as Hg'.
  { etrans; [exact Hg|]. rewrite E. apply goes_grows; [exact Hgr|]. by destruct (_ && _ && _). }
  rewrite E in Hg'. split; [exact Hg'|]. destruct r as [u|e]; [by destruct (_ && _ && _)|].
  eapply raised_job; [|exact Ek]. eapply newly_goes; [exact Hj|]. apply goes_grows; [exact Hgr|]. by destruct (_ && _ && _).
Qed.

Lemma fin_budget l rt : goes rt0 rt → fin (λ rt' _, work rt' = work rt) (lift (check_microtask_budget l) rt).
Proof.
  intros Hg. unfold lift, check_microtask_budget. destruct (microtask_budget_limit rt) as [limit|] eqn:El; [|by exists rt, (Ok tt)].
  destruct (Z.ltb_spec limit (Z.min usize_max (microtask_budget_used rt + 1))); eexists _, _; (split; [done|]); (split; [by etrans|]); [|done].
  apply raised_budget; [|done]. destruct Hg as [_ Hl]. congruence.
Qed.

(** The hook's exception, if there is one, ends the run. *)
Lemma fin_hook {A} (P : Runtime → A → Prop) (m : M A) rt : goes rt0 rt →
  (∀ rt', goes rt0 rt' → work rt' ≤ work rt → fin P (m rt')) →
  fin P (((λ rt, let '(rt, v) := take_async_hook_fatal_exception rt in Some (rt, Ok v)) ≫= λ fatal, match fatal with Some v => throw (AsyncHookFatal v) | None => m end) rt).
Proof.
  intros Hg Hm. pose proof (hook_work rt) as Hw. pose proof (hook_limit rt) as Hl. pose proof (fatal_grows rt) as Hf. unfold mbind, M_bind.
  destruct (take_async_hook_fatal_exception rt) as [rt1 [v|]] eqn:E; cbn [fst] in *; (assert (goes rt0 rt1) as H1 by (etrans; [exact Hg|by apply goes_grows])).
  - apply fin_throw; [done|by eapply raised_hook].
  - by apply Hm.
Qed.

Lemma fin_after rt : goes rt0 rt → fin (λ rt' _, work rt' ≤ work rt) (after_job rt).
Proof.
  intros Hg. apply fin_hook; [done|]. intros rt' Hg' Hw. apply fin_modify; [|pose proof (collect_work rt'); lia].
  etrans; [exact Hg'|]. apply goes_grows; [apply collect_grows|apply collect_limit].
Qed.

(** A loop over a queue ends with it empty, and with less work when it ran anything. *)
Definition drained (n : queue_name) (d : bool) (rt rt' : Runtime) (d' : bool) : Prop :=
  jobs n (job_queue rt') = [] ∧ ((rt' = rt ∧ d' = d) ∨ (work rt' < work rt ∧ d' = true)).

Lemma drained_step n d rt rt1 rt' d' : drained n true rt1 rt' d' → work rt1 < work rt → drained n d rt rt' d'.
Proof. intros [He Hd] Hw. split; [done|]. right. destruct Hd as [[-> ->]|[Hd ->]]; split; (done || lia). Qed.

Lemma tick_nextticks_drained fuel : ∀ d rt, goes rt0 rt → work rt < fuel → fin (drained Nexttick d rt) (tick_nextticks fuel d rt).
Proof.
  induction fuel as [|fuel IH]; intros d rt Hg Hf; [lia|]. cbn [tick_nextticks]. eapply fin_bind; [by apply fin_pop|].
  intros rt1 [j|] Hg1; [intros [Hj Hw]|intros [-> He]; apply fin_ret; [done|split; [done|by left]]].
  eapply fin_bind; [by apply fin_run|]. intros rt2 [] Hg2 Hw2. eapply fin_bind; [by apply fin_after|]. intros rt3 [] Hg3 Hw3.
  eapply fin_weaken; [apply IH; [done|lia]|]. intros rt' d' Hd. eapply drained_step; [exact Hd|lia].
Qed.

Lemma tick_microtasks_drained fuel : ∀ d rt, goes rt0 rt → work rt < fuel → fin (drained Microtasks d rt) (tick_microtasks fuel d rt).
Proof.
  induction fuel as [|fuel IH]; intros d rt Hg Hf; [lia|]. cbn [tick_microtasks]. eapply fin_bind; [by apply fin_pop|].
  intros rt1 [j|] Hg1; [intros [Hj Hw]|intros [-> He]; apply fin_ret; [done|split; [done|by left]]].
  apply (fin_bind (λ rt' _, work rt' = work rt1 ∧ newly_taken rt0 rt' j)).
  { destruct (fin_budget (label j) rt1 Hg1) as (rt2 & r & E & Hg2 & Hr). exists rt2, r. split_and!; [done..|]. destruct r as [u|e]; [|done]. split; [done|].
    eapply newly_goes; [exact Hj|]. apply goes_grows; [pose proof (budget_grows (label j) rt1) as Hb; injection E as E; by rewrite E in Hb|]. destruct Hg1 as [_ ->], Hg2 as [_ ->]. done. }
  intros rt2 [] Hg2 [Hw2 Hj2]. eapply fin_bind; [by apply fin_run|]. intros rt3 [] Hg3 Hw3. eapply fin_bind; [by apply fin_after|]. intros rt4 [] Hg4 Hw4.
  eapply fin_weaken; [apply IH; [done|lia]|]. intros rt' d' Hd. eapply drained_step; [exact Hd|lia].
Qed.

(** A checkpoint ends with nothing left but macrotasks. *)
Lemma tick_checkpoint_drained fuel : ∀ d rt, goes rt0 rt → work rt < fuel →
  fin (λ rt' d', nexttick (job_queue rt') = [] ∧ microtasks (job_queue rt') = [] ∧ ((rt' = rt ∧ d' = d) ∨ (work rt' < work rt ∧ d' = true))) (tick_checkpoint fuel d rt).
Proof.
  induction fuel as [|fuel IH]; intros d rt Hg Hf; [lia|]. cbn [tick_checkpoint].
  eapply fin_bind; [by apply tick_nextticks_drained|]. intros rt1 d1 Hg1 [He1 H1].
  eapply fin_bind; [apply tick_microtasks_drained; [done|destruct H1 as [[-> _]|[? _]]; lia]|]. intros rt2 d2 Hg2 [He2 H2].
  eapply fin_bind; [apply (fin_get (λ rt' b, rt' = rt2 ∧ b = is_nil (nexttick (job_queue rt2)))); done|]. intros rt3 b _ [-> ->].
  assert ((rt2 = rt ∧ d2 = d) ∨ (work rt2 < work rt ∧ d2 = true)) as H12.
  { destruct H1 as [[-> ->]|[H1 ->]], H2 as [[-> ->]|[H2 ->]]; [by left|right; split; (done || lia)..]. }
  destruct (nexttick (job_queue rt2)) eqn:En; cbn [is_nil]; [by apply fin_ret|].
  destruct H2 as [[-> ->]|[H2 ->]]; [cbn in He1; by rewrite He1 in En|]. assert (work rt2 < work rt) as Hlt by (destruct H1 as [[-> _]|[? _]]; lia).
  eapply fin_weaken; [apply IH; [done|lia]|]. intros rt' d' (? & ? & Hd). split_and!; [done..|]. right. destruct Hd as [[-> ->]|[? ->]]; split; (done || lia).
Qed.

Definition idle (rt : Runtime) : Prop := ∀ n, jobs n (job_queue rt) = [].

(** A tick does work and leaves less, or there was nothing to do. *)
Lemma pump_one_tick_work fuel rt : goes rt0 rt → work rt < fuel →
  fin (λ rt' d, (idle rt ∧ rt' = rt ∧ d = false) ∨ (work rt' < work rt ∧ d = true)) (pump_one_tick fuel rt).
Proof.
  intros Hg Hf. unfold pump_one_tick. eapply fin_bind; [by apply tick_checkpoint_drained|]. intros rt1 d1 Hg1 (En & Em & H1).
  eapply fin_bind; [by apply fin_pop|]. intros rt2 [j|] Hg2.
  - intros [Hj Hw]. eapply fin_bind; [by apply fin_run|]. intros rt3 [] Hg3 Hw3. eapply fin_bind; [by apply fin_after|]. intros rt4 [] Hg4 Hw4.
    apply fin_ret; [done|]. right. split; [|done]. destruct H1 as [[-> _]|[? _]]; lia.
  - intros [-> Ej]. apply fin_ret; [done|]. destruct H1 as [[-> ->]|H1]; [left|by right]. split; [|done]. by intros [].
Qed.

(** A poll gets on with less work, or leaves the queues as they are. *)
Lemma fin_poll rt : goes rt0 rt →
  fin (λ rt' b, if b : bool then work rt' < work rt else work rt' ≤ work rt ∧ job_queue rt' = job_queue rt) (poll_once rt).
Proof.
  intros Hg. unfold poll_once. destruct (poll_io rt) as [p|]; [|by exists rt, (Ok false)].
  pose proof (poll_work p (set_poll_io None rt)) as Hw. pose proof (poll_limit p (set_poll_io None rt)) as Hl. pose proof (poll_grows p (set_poll_io None rt)) as Hp.
  destruct (run_poll p (set_poll_io None rt)) as [rt1 r] eqn:E. cbn [fst] in *.
  assert (goes rt0 rt1) as Hg1 by (etrans; [exact Hg|]; apply goes_grows; [etrans; [by apply grows_same|exact Hp]|exact Hl]).
  destruct r as [b|e]; eexists _, _; (split; [done|]); (split; [exact Hg1|]); [by destruct b|by eapply raised_poll].
Qed.

Lemma run_turns_finishes fuel : ∀ tick_fuel iter rt, goes rt0 rt → work rt < fuel → work rt < tick_fuel → (0 ≤ iter)%Z →
  (iter + Z.of_nat (work rt) ≤ Z.of_nat turns)%Z → fin (λ rt' _, idle rt') (run_turns fuel tick_fuel iter rt).
Proof.
  induction fuel as [|fuel IH]; intros tick_fuel iter rt Hg Hf Ht Hi Hm; [lia|]. cbn [run_turns]. apply fin_hook; [done|]. intros rt1 Hg1 Hw1.
  destruct (Z.ltb_spec max_iterations (iter + 1)) as [Hmax|_]; [apply fin_throw; [done|apply raised_turns; lia]|].
  eapply fin_bind; [apply (fin_modify (λ rt' _, work rt' ≤ work rt)); done|]. intros rt2 [] Hg2 Hw2.
  eapply fin_bind; [apply pump_one_tick_work; [done|lia]|]. intros rt3 d Hg3 H3.
  eapply fin_bind; [apply (fin_get (λ rt' b, rt' = rt3 ∧ b = io_wait_tick rt3)); done|]. intros rt4 b _ [-> ->].
  eapply fin_bind; [apply (fin_modify (λ rt' _, work rt' = work rt3 ∧ job_queue rt' = job_queue rt3)); by destruct (io_wait_tick rt3)|]. intros rt4 [] Hg4 [Hw4 Hq4].
  destruct H3 as [(Hid & -> & ->)|[Hlt ->]].
  - eapply fin_bind; [by apply fin_poll|]. intros rt5 [] Hg5; [intros Hw5; apply IH; [done|lia..]|intros [Hw5 Hq5]].
    apply fin_ret; [done|]. intros n. rewrite Hq5, Hq4. apply Hid.
  - apply IH; [done|lia|lia|destruct (io_wait_tick rt3); lia|destruct (io_wait_tick rt3); lia].
Qed.
End Rules.


End Finite.
End Theory.

(** ** A program and a host

    The closure [S k] queues three closures [k], one in each queue, and a promise reaction fails;
    the world is a number of events, which the poll turns into macrotasks. *)
Module Demo.

Definition queue_closure (n : queue_name) (k : nat) (rt : Runtime nat unit unit nat unit) : Runtime nat unit unit nat unit :=
  push_back n (closure_job "demo" [] (als_context rt) k) rt.

Definition run_closure (k : nat) (rt : Runtime nat unit unit nat unit) : Runtime nat unit unit nat unit * result unit RuntimeError :=
  match k with
  | O => (rt, Ok tt)
  | S k => (queue_closure Macrotasks k (queue_closure Microtasks k (queue_closure Nexttick k rt)), Ok tt)
  end.

Definition poll_event (rt : Runtime nat unit unit nat unit) : Runtime nat unit unit nat unit * result bool RuntimeError :=
  match world rt with
  | O => (rt, Ok false)
  | S n => (queue_closure Macrotasks 0 {| job_queue := job_queue rt; als_context := als_context rt; active_job_roots := active_job_roots rt;
      microtask_budget_limit := microtask_budget_limit rt; microtask_budget_used := microtask_budget_used rt; io_wait_tick := io_wait_tick rt;
      poll_io := poll_io rt; world := n; taken := taken rt |}, Ok true)
  end.

#[global] Instance demo_host : Host nat unit unit nat unit := {|
  call_closure := run_closure;
  call_function _ _ _ rt := (rt, Ok Undefined);
  run_reaction_job _ _ _ _ _ _ rt := (rt, Err (TypeError "reaction"));
  run_async_await_continuation_job _ _ _ _ _ rt := (rt, Ok tt);
  take_async_hook_fatal_exception rt := (rt, None);
  maybe_collect_between_jobs rt := rt;
  run_poll _ rt := poll_event rt;
  empty_async_context_fast_enabled := true;
|}.

#[global] Instance demo_grows : HostGrows (World := nat).
Proof.
  split; try reflexivity.
  - intros [|k] rt; [reflexivity|]. cbn [call_closure demo_host run_closure fst]. unfold queue_closure. etrans; [|etrans]; apply push_back_grows.
  - intros [] rt. cbn [run_poll demo_host]. unfold poll_event. destruct (world rt) as [|n]; [reflexivity|]. cbn [fst]. unfold queue_closure. etrans; [|apply push_back_grows]. by apply grows_same.
Qed.

Fixpoint closure_weight (k : nat) : nat := match k with O => 1 | S k => 1 + 3 * closure_weight k end.

Definition job_weight (j : Job nat unit unit) : nat := match kind j with KClosure k => closure_weight k | _ => 1 end.

Definition events_weight (n : nat) : nat := 2 * n.

Lemma queue_closure_work n k rt : work job_weight events_weight (queue_closure n k rt) = work job_weight events_weight rt + closure_weight k.
Proof.
  unfold work, queue_closure, push_back. cbn [job_queue world set_job_queue]. unfold weights.
  destruct n; cbn [set_jobs jobs nexttick microtasks macrotasks]; rewrite fmap_app, sum_list_with_app; cbn; lia.
Qed.

#[global] Instance demo_finite : FiniteWork job_weight events_weight.
Proof.
  split; try done.
  - intros [l k c rs] rt. destruct k as [[|k]| | |]; cbn [run_job_kind kind call_closure demo_host run_closure fst]; rewrite ?queue_closure_work;
      unfold job_weight; cbn [kind closure_weight run_reaction_job run_async_await_continuation_job call_function demo_host fst]; lia.
  - intros [] rt. cbn [run_poll demo_host]. unfold poll_event. destruct (world rt) as [|n] eqn:E; [done|].
    rewrite queue_closure_work. unfold work. cbn [job_queue world]. rewrite E. unfold events_weight. cbn [closure_weight]. lia.
  - intros [l k c rs] rt. by destruct k as [[|k]| | |].
  - intros [] rt. cbn [run_poll demo_host]. unfold poll_event. by destruct (world rt).
Qed.

Definition start : Runtime nat unit unit nat unit :=
  queue_closure Macrotasks 1 {| job_queue := JobQueue_new; als_context := ∅; active_job_roots := []; microtask_budget_limit := None;
    microtask_budget_used := 0; io_wait_tick := false; poll_io := Some tt; world := 2; taken := [] |}.

(** A failing reaction waits before the macrotask. *)
Definition failing_start : Runtime nat unit unit nat unit := enqueue_promise_reaction_job [] None Undefined 0 None None false start.

End Demo.



(** The order of the demo: the macrotask's nexttick and microtask before the next macrotask. *)
Example demo_order :
  (λ e, (phase e, kind (job e))) <$> (match run_to_completion 20 20 Demo.start with Some (rt, _) => taken rt | None => [] end) =
  [(Macrotasks, KClosure 1); (Nexttick, KClosure 0); (Microtasks, KClosure 0); (Macrotasks, KClosure 0); (Macrotasks, KClosure 0); (Macrotasks, KClosure 0)].
Proof. vm_compute. reflexivity. Qed.

(** A job that enters an async context on the fast path leaves it to whatever runs next. *)
Definition entering_host : Host unit unit unit unit unit := {|
  call_closure _ rt := (als_set_store 1 (Object 2) rt, Ok tt);
  call_function _ _ _ rt := (rt, Ok Undefined);
  run_reaction_job _ _ _ _ _ _ rt := (rt, Ok tt);
  run_async_await_continuation_job _ _ _ _ _ rt := (rt, Ok tt);
  take_async_hook_fatal_exception rt := (rt, None);
  maybe_collect_between_jobs rt := rt;
  run_poll _ rt := (rt, Ok false);
  empty_async_context_fast_enabled := true;
|}.

Lemma fast_path_leaks_context :
  let rt := {| job_queue := JobQueue_new; als_context := ∅; active_job_roots := []; microtask_budget_limit := None; microtask_budget_used := 0;
               io_wait_tick := false; poll_io := None; world := tt; taken := [] |} in
  als_context (@run_job_static _ _ _ _ _ entering_host (closure_job "enter" [] ∅ tt) rt).1 = {[1 := Object 2]} ∧
  als_context (@run_job_static _ _ _ _ _ entering_host (closure_job "enter" [] {[3 := Undefined]} tt) rt).1 = ∅.
Proof. split; vm_compute; reflexivity. Qed.
