(* ===== verification/Promise.v ===== *)
(** * Promise: promise states, reactions and their jobs

    rusty-js-runtime/src/promise.rs and the promise types of value.rs, on the queues of
    [EventLoop].  The heap of objects keeps of each object what promises use; a reference the
    program holds is live ([GcMutator]), so reading one is total.  The already-resolved cell of
    a pair of resolving functions is an index of [flags].  The interpreter, whose file is not
    in the tree, and the callbacks of async_hooks are the operations of the class [Interp];
    counters and timers are left out.  Resolving with a chain of fulfilled promises recurs once
    for each; [None] is out of fuel, which a fuel above their number excludes. *)

From S2P Require Import Prelude Text EventLoop.

Section Types.
Context {FrameSnapshot Proto Cell : Type}.

Inductive CapturedBinding :=
| BindingCell (cell : Cell)
| EvalVarShadow (cell : Cell)
| ImmutableSelfName (cell : Cell)
| GlobalObject
| ScriptGlobalVar.

Record PromiseLazyArrowHandler := {
  la_proto : Proto;
  upvalues : list Cell;
  captured_bindings : list CapturedBinding;
  creation_realm : nat;
  creation_global : option ObjectRef;
  import_meta : option ObjectRef;
  bound_this : option Value;
  bound_this_cell : option Cell;
  bound_derived_initial_this : option Value;
  bound_executing_function : option ObjectRef;
  bound_new_target : option Value;
  bound_new_target_allowed : bool;
  captured_with_env_stack : list ObjectRef;
}.

Record PromiseLazyArrowOneCellHandler := {
  oc_proto : Proto;
  oc_upvalue : Cell;
  oc_creation_realm : nat;
  oc_creation_global : option ObjectRef;
  oc_bound_this : option Value;
  oc_bound_executing_function : option ObjectRef;
  oc_bound_new_target_allowed : bool;
}.

Inductive PromiseReactionHandler :=
| Callable (v : Value)
| LazyArrow (lazy : PromiseLazyArrowHandler)
| LazyArrowOneCell (lazy : PromiseLazyArrowOneCellHandler)
| HAsyncAwaitContinuation (promise : ObjectRef) (snapshot : FrameSnapshot).

Record PromiseReaction := { handler : option PromiseReactionHandler; chain : ObjectRef; cap_resolve : option Value; cap_reject : option Value }.

Inductive PromiseStatus := Pending | Fulfilled | Rejected.

Record PromiseState := {
  status : PromiseStatus;
  value : Value;
  fulfill_reactions : list PromiseReaction;
  reject_reactions : list PromiseReaction;
}.

(** What a native function of the heap does, when it is one of a resolving pair. *)
Inductive native := ResolveFn (promise : ObjectRef) (flag : nat) | RejectFn (promise : ObjectRef) (flag : nat) | OtherNative.

Inductive InternalKind :=
| KPromise (ps : PromiseState)
| KFunction (f : native) (f_roots : list ObjectRef)
| OtherKind.

Record ObjectData := {
  proto : option ObjectRef;
  own_then : bool;
  own_suppress : bool;
  internal_kind : InternalKind;
}.

#[export] Instance ObjectData_inhabited : Inhabited ObjectData :=
  populate {| proto := None; own_then := false; own_suppress := false; internal_kind := OtherKind |}.

(** The closures of promise jobs, and those of the host. *)
Inductive PClosure (H : Type) :=
| ThenableJob (then_v value : Value) (resolve_id reject_id : ObjectRef)
| ReactionClosure (h : option PromiseReactionHandler) (value : Value) (chain : ObjectRef) (cap_resolve cap_reject : option Value) (is_rejected : bool)
| HostClosure (h : H).
End Types.

Arguments CapturedBinding : clear implicits.
Arguments PromiseLazyArrowHandler : clear implicits.
Arguments PromiseLazyArrowOneCellHandler : clear implicits.
Arguments PromiseReactionHandler : clear implicits.
Arguments PromiseReaction : clear implicits.
Arguments PromiseState : clear implicits.
Arguments InternalKind : clear implicits.
Arguments ObjectData : clear implicits.
Arguments PClosure : clear implicits.
Arguments ThenableJob {FrameSnapshot Proto Cell H}.
Arguments ReactionClosure {FrameSnapshot Proto Cell H}.
Arguments HostClosure {FrameSnapshot Proto Cell H}.

Record PWorld (FrameSnapshot Proto Cell W : Type) := {
  heap : gmap ObjectRef (ObjectData FrameSnapshot Proto Cell);
  flags : list bool;
  pending_unhandled : gset ObjectRef;
  promise_prototype : option ObjectRef;
  rest : W;
}.
Arguments heap {_ _ _ _}.
Arguments flags {_ _ _ _}.
Arguments pending_unhandled {_ _ _ _}.
Arguments promise_prototype {_ _ _ _}.
Arguments rest {_ _ _ _}.

Inductive AsyncResume := ResumeThrow (v : Value) | ResumeValue (v : Value).

Section Promise.
Context {FrameSnapshot Proto Cell HostCode W Poll HookState Suspended : Type}.

#[local] Abbreviation Handler := (PromiseReactionHandler FrameSnapshot Proto Cell).
#[local] Abbreviation Reaction := (PromiseReaction FrameSnapshot Proto Cell).
#[local] Abbreviation ObjectData := (ObjectData FrameSnapshot Proto Cell).
#[local] Abbreviation World := (PWorld FrameSnapshot Proto Cell W).
#[local] Abbreviation R := (Runtime (PClosure FrameSnapshot Proto Cell HostCode) Handler FrameSnapshot World Poll).

Definition set_world (w : World) (rt : R) : R := {| job_queue := job_queue rt; als_context := als_context rt; active_job_roots := active_job_roots rt;
  microtask_budget_limit := microtask_budget_limit rt; microtask_budget_used := microtask_budget_used rt; io_wait_tick := io_wait_tick rt;
  poll_io := poll_io rt; world := w; taken := taken rt |}.

Definition set_heap (h : gmap ObjectRef ObjectData) (rt : R) : R := set_world {| heap := h; flags := flags (world rt);
  pending_unhandled := pending_unhandled (world rt); promise_prototype := promise_prototype (world rt); rest := rest (world rt) |} rt.
Definition set_flags (f : list bool) (rt : R) : R := set_world {| heap := heap (world rt); flags := f;
  pending_unhandled := pending_unhandled (world rt); promise_prototype := promise_prototype (world rt); rest := rest (world rt) |} rt.
Definition set_pending_unhandled (u : gset ObjectRef) (rt : R) : R := set_world {| heap := heap (world rt); flags := flags (world rt);
  pending_unhandled := u; promise_prototype := promise_prototype (world rt); rest := rest (world rt) |} rt.

Definition obj (rt : R) (id : ObjectRef) : ObjectData := heap (world rt) !!! id.

Definition set_kind (id : ObjectRef) (k : InternalKind FrameSnapshot Proto Cell) (rt : R) : R :=
  let o := obj rt id in
  set_heap (<[id := {| proto := proto o; own_then := own_then o; own_suppress := own_suppress o; internal_kind := k |}]> (heap (world rt))) rt.

Definition unhandled_remove (id : ObjectRef) (rt : R) : R := set_pending_unhandled (pending_unhandled (world rt) ∖ {[id]}) rt.
Definition unhandled_insert (id : ObjectRef) (rt : R) : R := set_pending_unhandled ({[id]} ∪ pending_unhandled (world rt)) rt.

Class Interp := {
  alloc_ref : R → ObjectRef;
  spec_get : Value → string → R → R * result Value RuntimeError;
  is_callable : Value → R → bool;
  interp_call : Value → Value → list Value → R → R * result Value RuntimeError;
  call_lazy_promise_arrow : PromiseLazyArrowHandler Proto Cell → Value → R → R * result Value RuntimeError;
  call_lazy_promise_arrow_one_cell : PromiseLazyArrowOneCellHandler Proto Cell → Value → R → R * result Value RuntimeError;
  resume_suspended_async : FrameSnapshot → AsyncResume → R → R * Suspended;
  settle_async_result : ObjectRef → Suspended → R → R;
  make_error_instance : string → string → R → R * option ObjectRef;
  debug_error : RuntimeError → string;
  cell_value : Cell → R → Value;
  trace_object_refs : FrameSnapshot → list ObjectRef;
  snapshot_context : FrameSnapshot → context;
  async_hooks_emit_promise_init : ObjectRef → option Value → R → R;
  async_hooks_emit_promise_resolve : ObjectRef → R → R;
  async_hooks_emit_promise_destroy : ObjectRef → R → R;
  async_hooks_enter_promise_reaction : ObjectRef → R → R * HookState;
  async_hooks_exit_promise_reaction : HookState → ObjectRef → R → R;
  structured_promise_reaction_job_enabled : bool;
  structured_async_await_continuation_job_enabled : bool;
}.

Context `{!Interp}.

Definition alloc_object (o : ObjectData) (rt : R) : R * ObjectRef :=
  let id := alloc_ref rt in (set_heap (<[id := o]> (heap (world rt))) rt, id).

Definition new_promise_with_async_trigger (trigger : option Value) (rt : R) : R * ObjectRef :=
  let '(rt, promise) := alloc_object {| proto := promise_prototype (world rt); own_then := false; own_suppress := false;
    internal_kind := KPromise {| status := Pending; value := Undefined; fulfill_reactions := []; reject_reactions := [] |} |} rt in
  (async_hooks_emit_promise_init promise trigger rt, promise).

Definition new_promise (rt : R) : R * ObjectRef := new_promise_with_async_trigger None rt.

(** The value of an error a promise is rejected with. *)
Definition reason_of (e : RuntimeError) : Value := match e with Thrown v => v | other => JsString (debug_error other) end.

(** ** Reactions *)

Definition binding_object (rt : R) (b : CapturedBinding Cell) : option ObjectRef :=
  match b with
  | BindingCell cell | EvalVarShadow cell | ImmutableSelfName cell => object_of (cell_value cell rt)
  | GlobalObject | ScriptGlobalVar => None
  end.

Definition option_object (v : option Value) : list ObjectRef := option_list (v ≫= object_of).

Definition handler_roots (rt : R) (h : option Handler) : list ObjectRef :=
  match h with
  | Some (Callable v) => option_list (object_of v)
  | Some (LazyArrow lazy) =>
      option_list (creation_global lazy) ++ option_list (import_meta lazy) ++
      omap (λ cell, object_of (cell_value cell rt)) (upvalues lazy) ++ omap (binding_object rt) (captured_bindings lazy) ++
      option_object (bound_this lazy) ++ option_list (bound_this_cell lazy ≫= λ cell, object_of (cell_value cell rt)) ++
      option_object (bound_derived_initial_this lazy) ++ option_list (bound_executing_function lazy) ++ option_object (bound_new_target lazy) ++
      captured_with_env_stack lazy
  | Some (LazyArrowOneCell lazy) =>
      option_list (oc_creation_global lazy) ++ option_list (object_of (cell_value (oc_upvalue lazy) rt)) ++
      option_object (oc_bound_this lazy) ++ option_list (oc_bound_executing_function lazy)
  | Some (HAsyncAwaitContinuation promise snapshot) => promise :: trace_object_refs snapshot
  | None => []
  end.

Definition enqueue_reaction (h : option Handler) (value : Value) (chain : ObjectRef) (cap_resolve cap_reject : option Value) (is_rejected : bool) (rt : R) : R :=
  let roots := handler_roots rt h ++ option_list (object_of value) ++ [chain] ++ option_object cap_resolve ++ option_object cap_reject in
  if negb structured_promise_reaction_job_enabled then
    enqueue_microtask_rooted "PromiseReactionJob" roots (ReactionClosure h value chain cap_resolve cap_reject is_rejected) rt
  else
    match h with
    | Some (HAsyncAwaitContinuation promise snapshot) =>
        if structured_async_await_continuation_job_enabled && bool_decide (cap_resolve = None) && bool_decide (cap_reject = None) then
          enqueue_async_await_continuation_job snapshot_context roots chain promise snapshot value is_rejected rt
        else enqueue_promise_reaction_job roots h value chain cap_resolve cap_reject is_rejected rt
    | _ => enqueue_promise_reaction_job roots h value chain cap_resolve cap_reject is_rejected rt
    end.

(** Reactions queued in order. *)
Definition enqueue_reactions (rs : list Reaction) (value : Value) (is_rejected : bool) (rt : R) : R :=
  foldl (λ rt r, enqueue_reaction (handler r) value (chain r) (cap_resolve r) (cap_reject r) is_rejected rt) rt rs.

(** The value a promise holds, read again after the hooks. *)
Definition promise_value (rt : R) (promise : ObjectRef) : Value :=
  match internal_kind (obj rt promise) with KPromise ps => value ps | _ => Undefined end.

(** ** Settling *)

Definition run_hooks (promise : ObjectRef) (rt : R) : R := async_hooks_emit_promise_destroy promise (async_hooks_emit_promise_resolve promise rt).

(** The end of [resolve_promise]: fulfilling with a value that is not to be followed. *)
Definition fulfill_promise (promise : ObjectRef) (v : Value) (rt : R) : R :=
  match internal_kind (obj rt promise) with
  | KPromise ps =>
      match status ps with
      | Pending =>
          let reactions := fulfill_reactions ps in
          let rt := set_kind promise (KPromise {| status := Fulfilled; value := v; fulfill_reactions := []; reject_reactions := reject_reactions ps |}) rt in
          let rt := run_hooks promise rt in
          enqueue_reactions reactions (promise_value rt promise) false rt
      | _ => rt
      end
  | _ => rt
  end.

Definition fulfill_promise_non_object (promise : ObjectRef) (v : Value) (rt : R) : R :=
  match internal_kind (obj rt promise) with
  | KPromise ps =>
      match status ps with
      | Pending =>
          let reactions := fulfill_reactions ps in
          let rt := set_kind promise (KPromise {| status := Fulfilled; value := v; fulfill_reactions := []; reject_reactions := reject_reactions ps |}) rt in
          let rt := run_hooks promise rt in
          enqueue_reactions reactions v false rt
      | _ => rt
      end
  | _ => rt
  end.

Definition reject_promise (promise : ObjectRef) (reason : Value) (rt : R) : R :=
  match internal_kind (obj rt promise) with
  | KPromise ps =>
      match status ps with
      | Pending =>
          let reactions := reject_reactions ps in
          let rt := set_kind promise (KPromise {| status := Rejected; value := reason; fulfill_reactions := fulfill_reactions ps; reject_reactions := [] |}) rt in
          let rt := run_hooks promise rt in
          let host_report_suppressed := own_suppress (obj rt promise) in
          let rt := if is_nil reactions && negb host_report_suppressed then unhandled_insert promise rt else rt in
          enqueue_reactions reactions (promise_value rt promise) true rt
      | _ => rt
      end
  | _ => rt
  end.

Definition create_resolving_functions (promise : ObjectRef) (rt : R) : R * (ObjectRef * ObjectRef) :=
  let flag := length (flags (world rt)) in
  let rt := set_flags (flags (world rt) ++ [false]) rt in
  let function f := {| proto := None; own_then := false; own_suppress := false; internal_kind := KFunction f [] |} in
  let '(rt, resolve_id) := alloc_object (function (ResolveFn promise flag)) rt in
  let '(rt, reject_id) := alloc_object (function (RejectFn promise flag)) rt in
  let add_root id rt := match internal_kind (obj rt id) with KFunction f rs => set_kind id (KFunction f (rs ++ [promise])) rt | _ => rt end in
  (add_root reject_id (add_root resolve_id rt), (resolve_id, reject_id)).

(** The settled value of a promise to follow: an object that is one, without its own [then]
    and with the prototype of promises. *)
Definition native_promise (rt : R) (id : ObjectRef) : option (PromiseStatus * Value) :=
  let o := obj rt id in
  if own_then o || negb (bool_decide (proto o = promise_prototype (world rt))) then None
  else match internal_kind o with KPromise ps => Some (status ps, value ps) | _ => None end.

Definition adopting (promise : ObjectRef) : Reaction := {| handler := None; chain := promise; cap_resolve := None; cap_reject := None |}.

(** [promise] waits for the promise [id]. *)
Definition adopt (promise id : ObjectRef) (rt : R) : R :=
  match internal_kind (obj rt id) with
  | KPromise ps =>
      set_kind id (KPromise {| status := status ps; value := value ps; fulfill_reactions := fulfill_reactions ps ++ [adopting promise];
                               reject_reactions := reject_reactions ps ++ [adopting promise] |}) rt
  | _ => rt
  end.

Fixpoint resolve_promise (fuel : nat) (promise : ObjectRef) (v : Value) (rt : R) : option R :=
  match fuel with
  | O => None
  | S fuel =>
      match v with
      | Object value_id =>
          if bool_decide (value_id = promise) then
            let '(rt, e) := make_error_instance "TypeError" "Chaining cycle detected for promise" rt in
            Some (reject_promise promise (match e with Some id => Object id | None => JsString "Chaining cycle detected for promise" end) rt)
          else
            match native_promise rt value_id with
            | Some (Pending, _) => Some (unhandled_remove value_id (adopt promise value_id rt))
            | Some (Fulfilled, settled) => resolve_promise fuel promise settled rt
            | Some (Rejected, settled) => Some (reject_promise promise settled (unhandled_remove value_id rt))
            | None =>
                match spec_get v "then" rt with
                | (rt, Err e) => Some (reject_promise promise (reason_of e) rt)
                | (rt, Ok then_v) =>
                    if is_callable then_v rt then
                      let '(rt, (resolve_id, reject_id)) := create_resolving_functions promise rt in
                      let roots := omap object_of [then_v; v; Object resolve_id; Object reject_id] in
                      Some (enqueue_microtask_rooted "PromiseResolveThenableJob" roots (ThenableJob then_v v resolve_id reject_id) rt)
                    else Some (fulfill_promise promise v rt)
                end
            end
      | _ => Some (fulfill_promise promise v rt)
      end
  end.

(** The natives of a resolving pair. *)
Definition call_resolve_fn (fuel : nat) (promise : ObjectRef) (flag : nat) (args : list Value) (rt : R) : option R :=
  if default false (flags (world rt) !! flag) then Some rt
  else resolve_promise fuel promise (default Undefined (head args)) (set_flags (<[flag := true]> (flags (world rt))) rt).

Definition call_reject_fn (promise : ObjectRef) (flag : nat) (args : list Value) (rt : R) : R :=
  if default false (flags (world rt) !! flag) then rt
  else reject_promise promise (default Undefined (head args)) (set_flags (<[flag := true]> (flags (world rt))) rt).

(** ** Jobs *)

(** The closure of the job that calls a thenable. *)
Definition run_thenable_job (then_v v : Value) (resolve_id reject_id : ObjectRef) (rt : R) : R * result unit RuntimeError :=
  match interp_call then_v v [Object resolve_id; Object reject_id] rt with
  | (rt, Ok _) => (rt, Ok tt)
  | (rt, Err e) =>
      match interp_call (Object reject_id) Undefined [reason_of e] rt with
      | (rt, Ok _) => (rt, Ok tt)
      | (rt, Err e) => (rt, Err e)
      end
  end.

Definition resolve_capability (fuel : nat) (chain : ObjectRef) (cap_resolve : option Value) (v : Value) (rt : R) : option (R * result unit RuntimeError) :=
  match cap_resolve with
  | Some resolve => match interp_call resolve Undefined [v] rt with (rt, Ok _) => Some (rt, Ok tt) | (rt, Err e) => Some (rt, Err e) end
  | None => (λ rt, (rt, Ok tt)) <$> resolve_promise fuel chain v rt
  end.

Definition reject_capability (chain : ObjectRef) (cap_reject : option Value) (reason : Value) (rt : R) : R * result unit RuntimeError :=
  match cap_reject with
  | Some reject => match interp_call reject Undefined [reason] rt with (rt, Ok _) => (rt, Ok tt) | (rt, Err e) => (rt, Err e) end
  | None => (reject_promise chain reason rt, Ok tt)
  end.

(** What follows a handler: the capability, and the hooks unless it throws. *)
Definition settle_with (fuel : nat) (chain : ObjectRef) (cap_resolve cap_reject : option Value) (result : R * result Value RuntimeError) : option (R * Prelude.result unit RuntimeError) :=
  match result with
  | (rt, Ok v) => resolve_capability fuel chain cap_resolve v rt
  | (rt, Err e) => Some (reject_capability chain cap_reject (reason_of e) rt)
  end.

Definition resume_of (v : Value) (is_rejected : bool) : AsyncResume := if is_rejected then ResumeThrow v else ResumeValue v.

Definition reaction_job (fuel : nat) (h : option Handler) (v : Value) (chain : ObjectRef) (cap_resolve cap_reject : option Value) (is_rejected : bool) (rt : R) :
    option (R * result unit RuntimeError) :=
  let '(rt, hooks) := async_hooks_enter_promise_reaction chain rt in
  let exit (o : option (R * result unit RuntimeError)) :=
    match o with
    | Some (rt, Ok _) => Some (async_hooks_exit_promise_reaction hooks chain rt, Ok tt)
    | o => o
    end in
  match h with
  | Some (HAsyncAwaitContinuation promise snapshot) =>
      let '(rt, r) := resume_suspended_async snapshot (resume_of v is_rejected) rt in
      exit (Some (settle_async_result promise r rt, Ok tt))
  | Some (Callable f) => exit (settle_with fuel chain cap_resolve cap_reject (interp_call f Undefined [v] rt))
  | Some (LazyArrow lazy) => exit (settle_with fuel chain cap_resolve cap_reject (call_lazy_promise_arrow lazy v rt))
  | Some (LazyArrowOneCell lazy) => exit (settle_with fuel chain cap_resolve cap_reject (call_lazy_promise_arrow_one_cell lazy v rt))
  | None =>
      exit (if is_rejected then Some (reject_capability chain cap_reject v rt) else resolve_capability fuel chain cap_resolve v rt)
  end.

Definition async_await_continuation_job (chain promise : ObjectRef) (snapshot : FrameSnapshot) (v : Value) (is_rejected : bool) (rt : R) : R * result unit RuntimeError :=
  let '(rt, hooks) := async_hooks_enter_promise_reaction chain rt in
  let '(rt, r) := resume_suspended_async snapshot (resume_of v is_rejected) rt in
  let rt := settle_async_result promise r rt in
  (async_hooks_exit_promise_reaction hooks chain rt, Ok tt).

End Promise.
