(* ===== verification/PromiseTheory.v ===== *)
(** * PromiseTheory: a promise settles once and its reactions are queued once, in order

    The operations on promises, whatever the program's code between them does with the same
    operations, never change a promise that is settled ([promise_settles_once]); settling one
    queues a job for each of its reactions, in the order they were registered; after one call of
    a resolving pair the two functions do nothing. *)

From S2P Require Import Prelude Text EventLoop EventLoopTheory Promise.

Section Theory.
Context {FrameSnapshot Proto Cell HostCode W Poll HookState Suspended : Type}.

#[local] Abbreviation Handler := (PromiseReactionHandler FrameSnapshot Proto Cell).
#[local] Abbreviation Reaction := (PromiseReaction FrameSnapshot Proto Cell).
#[local] Abbreviation Job := (Job (PClosure FrameSnapshot Proto Cell HostCode) Handler FrameSnapshot).
#[local] Abbreviation R := (Runtime (PClosure FrameSnapshot Proto Cell HostCode) Handler FrameSnapshot (PWorld FrameSnapshot Proto Cell W) Poll).
#[local] Abbreviation Interp := (Interp (FrameSnapshot := FrameSnapshot) (Proto := Proto) (Cell := Cell) (HostCode := HostCode) (W := W) (Poll := Poll)
  (HookState := HookState) (Suspended := Suspended)).

(** ** What stays *)

Definition settled (rt : R) (p : ObjectRef) (st : PromiseStatus) (v : Value) : Prop :=
  st ≠ Pending ∧ ∃ ps, internal_kind (obj rt p) = KPromise ps ∧ status ps = st ∧ value ps = v.

Definition set_flag (rt : R) (i : nat) : Prop := flags (world rt) !! i = Some true.

Definition frame (rt rt' : R) : Prop :=
  grows rt rt' ∧ (∀ p st v, settled rt p st v → settled rt' p st v) ∧ (∀ i, set_flag rt i → set_flag rt' i).

#[export] Instance frame_preorder : PreOrder frame.
Proof.
  split; [intros rt; split; [reflexivity|done]|]. intros a b c (G1 & S1 & F1) (G2 & S2 & F2). split; [by transitivity b|]. split; eauto.
Qed.

(** The code of the program leaves settled promises and set flags as they are, and uses the
    queues by their operations. *)
Class InterpFrame `{!Interp} : Prop := {
  alloc_fresh rt : heap (world rt) !! alloc_ref rt = None;
  get_frame v k rt : frame rt (spec_get v k rt).1;
  call_frame f this args rt : frame rt (interp_call f this args rt).1;
  lazy_frame l v rt : frame rt (call_lazy_promise_arrow l v rt).1;
  lazy_one_frame l v rt : frame rt (call_lazy_promise_arrow_one_cell l v rt).1;
  resume_frame s r rt : frame rt (resume_suspended_async s r rt).1;
  settle_frame p r rt : frame rt (settle_async_result p r rt);
  error_frame n m rt : frame rt (make_error_instance n m rt).1;
  init_frame p t rt : frame rt (async_hooks_emit_promise_init p t rt);
  resolve_hook_frame p rt : frame rt (async_hooks_emit_promise_resolve p rt);
  destroy_hook_frame p rt : frame rt (async_hooks_emit_promise_destroy p rt);
  enter_frame c rt : frame rt (async_hooks_enter_promise_reaction c rt).1;
  exit_frame s c rt : frame rt (async_hooks_exit_promise_reaction s c rt);
}.

Lemma push_back_frame n j (rt : R) : frame rt (push_back n j rt).
Proof. split; [apply push_back_grows|done]. Qed.

Lemma obj_set_kind id k (rt : R) p :
  obj (set_kind id k rt) p = if decide (p = id) then {| proto := proto (obj rt id); own_then := own_then (obj rt id); own_suppress := own_suppress (obj rt id); internal_kind := k |}
                             else obj rt p.
Proof.
  unfold obj, set_kind, set_heap, set_world. cbn [world heap]. destruct (decide (p = id)) as [->|Hne]; [by rewrite lookup_total_insert_eq|by rewrite lookup_total_insert_ne].
Qed.

(** Changing the kind of an object that is not a settled promise, or keeping it one. *)
Lemma set_kind_frame id k (rt : R) :
  (∀ st v, settled rt id st v → ∃ ps, k = KPromise ps ∧ status ps = st ∧ value ps = v) → frame rt (set_kind id k rt).
Proof.
  intros Hk. split; [by apply grows_same|]. split; [|done]. intros p st v Hs. destruct (Hs) as (Hst & ps & Ep & E1 & E2). split; [done|]. rewrite obj_set_kind.
  case_decide as Hp; [subst p|by exists ps]. destruct (Hk _ _ Hs) as (ps' & -> & ? & ?). by exists ps'.
Qed.

Lemma world_frame (rt rt' : R) : job_queue rt' = job_queue rt → taken rt' = taken rt → heap (world rt') = heap (world rt) →
  (∀ i, set_flag rt i → set_flag rt' i) → frame rt rt'.
Proof.
  intros Hq Ht Hh Hf. split; [by apply grows_same|]. split; [|done]. intros p st v (Hst & ps & Ep & ?). split; [done|]. exists ps. unfold obj in *. by rewrite Hh.
Qed.

Lemma unhandled_insert_frame id (rt : R) : frame rt (unhandled_insert id rt).
Proof. by apply world_frame. Qed.

Lemma unhandled_remove_frame id (rt : R) : frame rt (unhandled_remove id rt).
Proof. by apply world_frame. Qed.

Lemma adopt_frame p id (rt : R) : frame rt (adopt p id rt).
Proof.
  unfold adopt. destruct (internal_kind (obj rt id)) as [ps| |] eqn:E; [|reflexivity..]. apply set_kind_frame. intros st v (_ & ps' & E' & <- & <-). rewrite E in E'. injection E' as <-.
  by eexists.
Qed.

Lemma set_flag_frame i (rt : R) : frame rt (set_flags (<[i := true]> (flags (world rt))) rt).
Proof.
  apply world_frame; [done..|]. intros j Hj. unfold set_flag in *. cbn [world flags set_flags set_world]. destruct (decide (i = j)) as [->|Hne].
  - apply list_lookup_insert_eq. by eapply lookup_lt_Some.
  - by rewrite list_lookup_insert_ne.
Qed.

Section Frames.
Context `{!Interp} `{!InterpFrame}.

Lemma alloc_frame o (rt : R) : frame rt (alloc_object o rt).1.
Proof.
  split; [by apply grows_same|]. split; [|done]. intros p st v (Hst & ps & Ep & ?). split; [done|]. exists ps. split; [|done]. cbn [alloc_object fst].
  unfold obj, set_heap, set_world in *. cbn [world heap]. destruct (decide (p = alloc_ref rt)) as [->|Hne]; [|by rewrite lookup_total_insert_ne].
  rewrite lookup_total_alt, alloc_fresh in Ep. done.
Qed.

Lemma new_promise_frame t (rt : R) : frame rt (new_promise_with_async_trigger t rt).1.
Proof.
  unfold new_promise_with_async_trigger. destruct (alloc_object _ rt) as [rt1 p] eqn:E. cbn [fst]. etrans; [|apply init_frame].
  match type of E with alloc_object ?o rt = _ => pose proof (alloc_frame o rt) as Ha end. by rewrite E in Ha.
Qed.

(** One job is queued, which runs the reaction. *)
Definition runs (j : Job) (h : option Handler) (v : Value) (c : ObjectRef) (cr cj : option Value) (b : bool) : Prop :=
  c ∈ roots j ∧
  (kind j = KClosure (ReactionClosure h v c cr cj b) ∨ kind j = EventLoop.PromiseReaction h v c cr cj b ∨
   ∃ p s, h = Some (HAsyncAwaitContinuation p s) ∧ cr = None ∧ cj = None ∧ kind j = AsyncAwaitContinuation c p s v b).

Lemma enqueue_reaction_push h v c cr cj b (rt : R) : ∃ j, enqueue_reaction h v c cr cj b rt = push_back Microtasks j rt ∧ runs j h v c cr cj b.
Proof.
  unfold enqueue_reaction. assert (c ∈ handler_roots rt h ++ option_list (object_of v) ++ [c] ++ option_object cr ++ option_object cj) as Hc by set_solver.
  destruct (negb _); [by eexists; split; [reflexivity|split; [done|left]]|]. destruct h as [[f|l|l|p s]|]; try (by eexists; split; [reflexivity|split; [done|right; left]]).
  destruct (_ && _ && _) eqn:E; [|by eexists; split; [reflexivity|split; [done|right; left]]]. apply andb_true_iff in E as [E E2]. apply andb_true_iff in E as [_ E1].
  apply bool_decide_eq_true in E1, E2. eexists. split; [reflexivity|]. split; [done|]. right. right. by exists p, s.
Qed.

Lemma enqueue_reactions_push rs v b : ∀ rt : R, ∃ js, microtasks (job_queue (enqueue_reactions rs v b rt)) = microtasks (job_queue rt) ++ js ∧
  Forall2 (λ j r, runs j (handler r) v (chain r) (cap_resolve r) (cap_reject r) b) js rs ∧ frame rt (enqueue_reactions rs v b rt) ∧ world (enqueue_reactions rs v b rt) = world rt.
Proof.
  induction rs as [|r rs IH]; intros rt; [exists []; rewrite app_nil_r; split_and!; [done|constructor|reflexivity|done]|].
  change (enqueue_reactions (r :: rs) v b rt) with (enqueue_reactions rs v b (enqueue_reaction (handler r) v (chain r) (cap_resolve r) (cap_reject r) b rt)).
  destruct (enqueue_reaction_push (handler r) v (chain r) (cap_resolve r) (cap_reject r) b rt) as (j & E & Hj). rewrite E.
  destruct (IH (push_back Microtasks j rt)) as (js & E2 & Hjs & Hf & Hw). exists (j :: js). split_and!; [|by constructor| |by rewrite Hw].
  - rewrite E2. cbn. by rewrite <-app_assoc.
  - etrans; [apply push_back_frame|done].
Qed.

Lemma run_hooks_frame p (rt : R) : frame rt (run_hooks p rt).
Proof. unfold run_hooks. etrans; [apply resolve_hook_frame|apply destroy_hook_frame]. Qed.

Definition pending (rt : R) (p : ObjectRef) (ps : PromiseState FrameSnapshot Proto Cell) : Prop := internal_kind (obj rt p) = KPromise ps ∧ status ps = Pending.

(** Settling a pending promise: the hooks run on the settled promise, then its reactions
    are queued. *)
Definition settles (p : ObjectRef) (st : PromiseStatus) (v : Value) (rs : list Reaction) (b : bool) (rt rt' : R) : Prop :=
  frame rt rt' ∧ settled rt' p st v ∧
  ∃ rt1 js, frame rt rt1 ∧ microtasks (job_queue rt') = microtasks (job_queue rt1) ++ js ∧
    Forall2 (λ j r, runs j (handler r) v (chain r) (cap_resolve r) (cap_reject r) b) js rs.

Lemma settle_step p st v ps frs rrs (rt : R) : pending rt p ps → st ≠ Pending →
  let rt1 := run_hooks p (set_kind p (KPromise {| status := st; value := v; fulfill_reactions := frs; reject_reactions := rrs |}) rt) in
  frame rt rt1 ∧ settled rt1 p st v.
Proof.
  intros [Ep Hp] Hst. cbv zeta. set (rt0 := set_kind _ _ _). pose proof (run_hooks_frame p rt0) as Hh. split.
  - etrans; [|exact Hh]. apply set_kind_frame. intros st' v' (Hst' & ps' & E & E1 & _). congruence.
  - apply Hh. split; [done|]. unfold rt0. rewrite obj_set_kind, decide_True by done. by eexists.
Qed.

Lemma settled_value (rt : R) p st v : settled rt p st v → promise_value rt p = v.
Proof. intros (_ & ps & E & _ & Ev). unfold promise_value. by rewrite E. Qed.

Lemma enqueue_settles p st v rs b (rt rt1 : R) : frame rt rt1 → settled rt1 p st v → settles p st v rs b rt (enqueue_reactions rs v b rt1).
Proof.
  intros Hf Hs. destruct (enqueue_reactions_push rs v b rt1) as (js & E & Hjs & Hf2 & _). split; [by etrans|]. split; [by apply Hf2|]. by exists rt1, js.
Qed.

Lemma fulfill_settles p v ps (rt : R) : pending rt p ps →
  settles p Fulfilled v (fulfill_reactions ps) false rt (fulfill_promise p v rt) ∧
  settles p Fulfilled v (fulfill_reactions ps) false rt (fulfill_promise_non_object p v rt).
Proof.
  intros Hp. pose proof Hp as [Ep Hst]. unfold fulfill_promise, fulfill_promise_non_object. rewrite Ep, Hst. cbv zeta.
  destruct (settle_step p Fulfilled v ps [] (reject_reactions ps) rt Hp ltac:(done)) as [Hf Hs]. rewrite (settled_value _ _ _ _ Hs). split; by apply enqueue_settles.
Qed.

Lemma reject_settles p v ps (rt : R) : pending rt p ps → settles p Rejected v (reject_reactions ps) true rt (reject_promise p v rt).
Proof.
  intros Hp. pose proof Hp as [Ep Hst]. unfold reject_promise. rewrite Ep, Hst. cbv zeta.
  destruct (settle_step p Rejected v ps (fulfill_reactions ps) [] rt Hp ltac:(done)) as [Hf Hs]. destruct (_ && _).
  - pose proof (unhandled_insert_frame p) as Hu. erewrite (settled_value _ _ _ v) by (apply Hu; exact Hs). apply enqueue_settles; [by etrans; [|apply Hu]|by apply Hu].
  - rewrite (settled_value _ _ _ _ Hs). by apply enqueue_settles.
Qed.

(** Settling what is not pending does nothing. *)
Lemma settle_noop p v (rt : R) : (∀ ps, ¬ pending rt p ps) → fulfill_promise p v rt = rt ∧ fulfill_promise_non_object p v rt = rt ∧ reject_promise p v rt = rt.
Proof.
  intros Hp. unfold fulfill_promise, fulfill_promise_non_object, reject_promise. destruct (internal_kind (obj rt p)) as [ps| |] eqn:E; [|done..].
  destruct (status ps) eqn:Es; [|done..]. by destruct (Hp ps).
Qed.

Lemma pending_dec p (rt : R) : (∃ ps, pending rt p ps) ∨ ∀ ps, ¬ pending rt p ps.
Proof.
  unfold pending. destruct (internal_kind (obj rt p)) as [ps| |]; [destruct (status ps) eqn:E|..]; [left; by exists ps|right; intros ps' [E1 E2]; congruence..].
Qed.

Lemma fulfill_frame p v (rt : R) : frame rt (fulfill_promise p v rt) ∧ frame rt (fulfill_promise_non_object p v rt).
Proof.
  destruct (pending_dec p rt) as [[ps Hp]|Hp]; [by destruct (fulfill_settles p v ps rt Hp) as [[? _] [? _]]|]. destruct (settle_noop p v rt Hp) as (-> & -> & _). by split.
Qed.

Lemma reject_frame p v (rt : R) : frame rt (reject_promise p v rt).
Proof. destruct (pending_dec p rt) as [[ps Hp]|Hp]; [by apply (reject_settles p v ps rt Hp)|]. by destruct (settle_noop p v rt Hp) as (_ & _ & ->). Qed.

(** ** Resolving *)

Lemma add_root_frame id p (rt : R) : frame rt (match internal_kind (obj rt id) with KFunction f rs => set_kind id (KFunction f (rs ++ [p])) rt | _ => rt end).
Proof. destruct (internal_kind (obj rt id)) as [| |] eqn:E; [reflexivity| |reflexivity]. apply set_kind_frame. intros st v (_ & ps & E' & _). congruence. Qed.

Lemma create_frame p (rt : R) : frame rt (create_resolving_functions p rt).1.
Proof.
  unfold create_resolving_functions. set (rt0 := set_flags _ rt). assert (frame rt rt0) as Hf0.
  { apply world_frame; [done..|]. intros i Hi. unfold set_flag in *. cbn [rt0 world flags set_flags set_world]. by apply lookup_app_l_Some. }
  match goal with |- context [alloc_object ?o rt0] => pose proof (alloc_frame o rt0) as Hf1; destruct (alloc_object o rt0) as [rt1 a] end. cbn [fst] in Hf1.
  match goal with |- context [alloc_object ?o rt1] => pose proof (alloc_frame o rt1) as Hf2; destruct (alloc_object o rt1) as [rt2 b] end. cbn [fst] in Hf2 |- *.
  etrans; [exact Hf0|]. etrans; [exact Hf1|]. etrans; [exact Hf2|]. etrans; [apply (add_root_frame a p)|apply add_root_frame].
Qed.

Lemma resolve_frame fuel : ∀ p v (rt rt' : R), resolve_promise fuel p v rt = Some rt' → frame rt rt'.
Proof.
  induction fuel as [|fuel IH]; intros p v rt rt'; [done|]. cbn [resolve_promise]. pose proof (proj1 (fulfill_frame p v rt)) as Hv.
  destruct v as [| | | | | | |id]; [intros [= <-]; exact Hv..|].
  case_bool_decide.
  - destruct (make_error_instance _ _ rt) as [rt1 e] eqn:E. intros [= <-]. match type of E with make_error_instance ?n ?m rt = _ => pose proof (error_frame n m rt) as He end.
    rewrite E in He. etrans; [exact He|apply reject_frame].
  - destruct (native_promise rt id) as [[[] settled]|].
    + intros [= <-]. etrans; [apply adopt_frame|apply unhandled_remove_frame].
    + apply IH.
    + intros [= <-]. etrans; [apply unhandled_remove_frame|apply reject_frame].
    + pose proof (get_frame (Object id) "then" rt) as Hg. destruct (spec_get (Object id) "then" rt) as [rt1 [then_v|e]]; cbn [fst] in Hg.
      * destruct (is_callable then_v rt1).
        -- pose proof (create_frame p rt1) as Hc. destruct (create_resolving_functions p rt1) as [rt2 [a b]]. cbn [fst] in Hc. intros [= <-].
           etrans; [exact Hg|]. etrans; [exact Hc|apply push_back_frame].
        -- intros [= <-]. etrans; [exact Hg|exact (proj1 (fulfill_frame _ _ _))].
      * intros [= <-]. etrans; [exact Hg|apply reject_frame].
Qed.

Lemma call_resolve_frame fuel p i args (rt rt' : R) : call_resolve_fn fuel p i args rt = Some rt' → frame rt rt'.
Proof.
  unfold call_resolve_fn. destruct (default false _); [by intros [= <-]|]. intros E. etrans; [apply set_flag_frame|by eapply resolve_frame].
Qed.

Lemma call_reject_frame p i args (rt : R) : frame rt (call_reject_fn p i args rt).
Proof. unfold call_reject_fn. destruct (default false _); [done|]. etrans; [apply set_flag_frame|apply reject_frame]. Qed.

(** ** Jobs *)

Lemma thenable_frame t v a b (rt : R) : frame rt (run_thenable_job t v a b rt).1.
Proof.
  unfold run_thenable_job. pose proof (call_frame t v [Object a; Object b] rt) as H1. destruct (interp_call t v _ rt) as [rt1 [x|e]]; cbn [fst] in *; [done|].
  pose proof (call_frame (Object b) Undefined [reason_of e] rt1) as H2. destruct (interp_call (Object b) _ _ rt1) as [rt2 [x|e2]]; cbn [fst] in *; by etrans.
Qed.

Definition frame_job (rt : R) (o : option (R * result unit RuntimeError)) : Prop := ∀ rt' r, o = Some (rt', r) → frame rt rt'.

Lemma resolve_capability_frame fuel c cr v (rt : R) : frame_job rt (resolve_capability fuel c cr v rt).
Proof.
  intros rt' r. unfold resolve_capability. destruct cr as [f|].
  - pose proof (call_frame f Undefined [v] rt) as H1. destruct (interp_call f _ _ rt) as [rt1 [x|e]]; cbn [fst] in *; by intros [= <- _].
  - destruct (resolve_promise fuel c v rt) as [rt1|] eqn:E; [|done]. intros [= <- _]. by eapply resolve_frame.
Qed.

Lemma reject_capability_frame c cj v (rt : R) : frame rt (reject_capability c cj v rt).1.
Proof.
  unfold reject_capability. destruct cj as [f|]; [|apply reject_frame].
  pose proof (call_frame f Undefined [v] rt) as H1. by destruct (interp_call f _ _ rt) as [rt1 [x|e]].
Qed.

Lemma settle_with_frame fuel c cr cj (rt : R) res : frame rt res.1 → frame_job rt (settle_with fuel c cr cj res).
Proof.
  intros Hr rt' r. destruct res as [rt1 [v|e]]; cbn [settle_with fst] in *.
  - intros E. etrans; [exact Hr|by eapply resolve_capability_frame].
  - intros [= E]. pose proof (reject_capability_frame c cj (reason_of e) rt1) as Hj. rewrite E in Hj. by etrans.
Qed.

Lemma reaction_job_frame fuel h v c cr cj b (rt : R) : frame_job rt (reaction_job fuel h v c cr cj b rt).
Proof.
  intros rt' r. unfold reaction_job. pose proof (enter_frame c rt) as He. destruct (async_hooks_enter_promise_reaction c rt) as [rt1 s]. cbn [fst] in He.
  assert (∀ o, frame_job rt1 o → match o with Some (rt, Ok _) => Some (async_hooks_exit_promise_reaction s c rt, Ok tt) | o => o end = Some (rt', r) → frame rt rt') as Hexit.
  { intros [[rt2 [x|e]]|] Ho; [intros [= <- _]|intros [= <- _]|done]; (etrans; [exact He|]); (etrans; [by eapply Ho|]); [apply exit_frame|reflexivity]. }
  destruct h as [[f|l|l|p sn]|]; try (apply Hexit, settle_with_frame; first [apply call_frame | apply lazy_frame | apply lazy_one_frame]).
  - pose proof (resume_frame sn (resume_of v b) rt1) as Hr. destruct (resume_suspended_async sn (resume_of v b) rt1) as [rt2 x]. cbn [fst] in Hr.
    apply (Hexit (Some (settle_async_result p x rt2, Ok tt))). intros rt3 r3 [= <- _]. etrans; [exact Hr|apply settle_frame].
  - apply Hexit. destruct b; [|apply resolve_capability_frame]. intros rt3 r3 [= E]. pose proof (reject_capability_frame c cj v rt1) as Hj. by rewrite E in Hj.
Qed.

Lemma continuation_frame c p s v b (rt : R) : frame rt (async_await_continuation_job c p s v b rt).1.
Proof.
  unfold async_await_continuation_job. pose proof (enter_frame c rt) as He. destruct (async_hooks_enter_promise_reaction c rt) as [rt1 h]. cbn [fst] in He.
  pose proof (resume_frame s (resume_of v b) rt1) as Hr. destruct (resume_suspended_async s (resume_of v b) rt1) as [rt2 x]. cbn [fst] in *.
  etrans; [exact He|]. etrans; [exact Hr|]. etrans; [apply settle_frame|apply exit_frame].
Qed.

(** ** Runs *)

(** One operation on promises, or code of the program. *)
Inductive promise_step (rt : R) : R → Prop :=
| step_new trigger : promise_step rt (new_promise_with_async_trigger trigger rt).1
| step_pair p : promise_step rt (create_resolving_functions p rt).1
| step_resolve fuel p v rt' : resolve_promise fuel p v rt = Some rt' → promise_step rt rt'
| step_fulfill p v : promise_step rt (fulfill_promise_non_object p v rt)
| step_reject p v : promise_step rt (reject_promise p v rt)
| step_call_resolve fuel p i args rt' : call_resolve_fn fuel p i args rt = Some rt' → promise_step rt rt'
| step_call_reject p i args : promise_step rt (call_reject_fn p i args rt)
| step_thenable t v a b : promise_step rt (run_thenable_job t v a b rt).1
| step_reaction fuel h v c cr cj b rt' r : reaction_job fuel h v c cr cj b rt = Some (rt', r) → promise_step rt rt'
| step_continuation c p s v b : promise_step rt (async_await_continuation_job c p s v b rt).1
| step_code f this args : promise_step rt (interp_call f this args rt).1.

Lemma step_frame (rt rt' : R) : promise_step rt rt' → frame rt rt'.
Proof.
  intros []; [apply new_promise_frame|apply create_frame|by eapply resolve_frame|apply fulfill_frame|apply reject_frame|by eapply call_resolve_frame
    |apply call_reject_frame|apply thenable_frame|by eapply reaction_job_frame|apply continuation_frame|apply call_frame].
Qed.

Lemma steps_frame (rt rt' : R) : rtc promise_step rt rt' → frame rt rt'.
Proof. induction 1 as [|rt rt1 rt' Hs _ IH]; [reflexivity|]. etrans; [by apply step_frame|done]. Qed.

Lemma called_noop fuel p i args (rt : R) : set_flag rt i → call_resolve_fn fuel p i args rt = Some rt ∧ call_reject_fn p i args rt = rt.
Proof. intros Hf. unfold call_resolve_fn, call_reject_fn. by rewrite Hf. Qed.

(** A function of a pair sets its flag. *)
Lemma call_sets_flag fuel p i args (rt rt' : R) : i < length (flags (world rt)) →
  call_resolve_fn fuel p i args rt = Some rt' ∨ call_reject_fn p i args rt = rt' → set_flag rt' i.
Proof.
  intros Hi Hc. assert (set_flag (set_flags (<[i := true]> (flags (world rt))) rt) i) as Hset by by apply list_lookup_insert_eq.
  destruct (lookup_lt_is_Some_2 _ _ Hi) as [b Eb]. unfold call_resolve_fn, call_reject_fn in Hc. rewrite Eb in Hc. cbn [default from_option] in Hc. destruct b; cbn [id] in Hc.
  - destruct Hc as [[= <-]| <-]; exact Eb.
  - destruct Hc as [E| <-]; [by eapply (resolve_frame _ _ _ _ _ E)|by apply reject_frame].
Qed.

(** C31: whatever is done with promises, in any order and with any code of the program in
    between, a promise that is settled keeps its state and its value, and the queues lose
    nothing; settling one that is pending queues a job for each of the reactions of its side,
    in the order of their registration, and settling any other does nothing; and after one call
    of a resolving pair neither function does anything any more. *)
Theorem promise_settles_once (rt rt' : R) : rtc promise_step rt rt' →
  (∀ p st v, settled rt p st v → settled rt' p st v) ∧ (∀ n, history n rt `prefix_of` history n rt') ∧
  (∀ p ps v, pending rt' p ps →
     settles p Fulfilled v (fulfill_reactions ps) false rt' (fulfill_promise p v rt') ∧ settles p Rejected v (reject_reactions ps) true rt' (reject_promise p v rt')) ∧
  (∀ p v, (∀ ps, ¬ pending rt' p ps) → fulfill_promise p v rt' = rt' ∧ reject_promise p v rt' = rt') ∧
  (∀ fuel p i args, i < length (flags (world rt)) → ∀ rt0, call_resolve_fn fuel p i args rt = Some rt0 ∨ call_reject_fn p i args rt = rt0 →
     ∀ rt1, rtc promise_step rt0 rt1 → ∀ fuel' args', call_resolve_fn fuel' p i args' rt1 = Some rt1 ∧ call_reject_fn p i args' rt1 = rt1).
Proof.
  intros Hr. destruct (steps_frame _ _ Hr) as ([Hh _] & Hs & _). split_and!; [done..| | |].
  - intros p ps v Hp. split; [exact (proj1 (fulfill_settles p v ps rt' Hp))|exact (reject_settles p v ps rt' Hp)].
  - intros p v Hp. by destruct (settle_noop p v rt' Hp) as (-> & _ & ->).
  - intros fuel p i args Hi rt0 Hc rt1 Hr1 fuel' args'. apply called_noop. apply (steps_frame _ _ Hr1). by eapply call_sets_flag.
Qed.

(** ** Resolving ends

    When the values of fulfilled promises lead down, resolving needs no more fuel than the
    rank of the value. *)
Lemma resolve_promise_total (rank : ObjectRef → nat) (rt : R) :
  (∀ id id', native_promise rt id = Some (Fulfilled, Object id') → rank id' < rank id) →
  ∀ p v, is_Some (resolve_promise (S (default 0 ((S ∘ rank) <$> object_of v))) p v rt).
Proof.
  intros Hrank p v. assert (∀ fuel v, default 0 ((S ∘ rank) <$> object_of v) < fuel → is_Some (resolve_promise fuel p v rt)) as Hall; [|apply Hall; lia].
  clear v. induction fuel as [|fuel IH]; intros v Hf; [lia|]. cbn [resolve_promise]. destruct v as [| | | | | | |id]; try by eexists. cbn in Hf. case_bool_decide.
  - destruct (make_error_instance _ _ rt). by eexists.
  - destruct (native_promise rt id) as [[[] settled]|] eqn:E; [by eexists| |by eexists|].
    + apply IH. destruct settled as [| | | | | | |id']; cbn; try lia. pose proof (Hrank _ _ E). lia.
    + destruct (spec_get (Object id) "then" rt) as [rt1 [t|e]]; [|by eexists]. destruct (is_callable t rt1); [|by eexists].
      destruct (create_resolving_functions p rt1) as [rt2 [a b]]. by eexists.
Qed.

End Frames.
End Theory.

(** ** A run *)
Module PromiseDemo.

Abbreviation DR := (Runtime (PClosure unit unit unit unit) (PromiseReactionHandler unit unit unit) unit (PWorld unit unit unit unit) unit).

#[global] Instance demo_interp : Interp (FrameSnapshot := unit) (Proto := unit) (Cell := unit) (HostCode := unit) (W := unit) (Poll := unit) (HookState := unit) (Suspended := unit) := {|
  alloc_ref rt := fresh (dom (heap (world rt)));
  spec_get _ _ rt := (rt, Ok Undefined);
  is_callable _ _ := false;
  interp_call _ _ _ rt := (rt, Ok Undefined);
  call_lazy_promise_arrow _ _ rt := (rt, Ok Undefined);
  call_lazy_promise_arrow_one_cell _ _ rt := (rt, Ok Undefined);
  resume_suspended_async _ _ rt := (rt, tt);
  settle_async_result _ _ rt := rt;
  make_error_instance _ _ rt := (rt, None);
  debug_error _ := "error";
  cell_value _ _ := Undefined;
  trace_object_refs _ := [];
  snapshot_context _ := ∅;
  async_hooks_emit_promise_init _ _ rt := rt;
  async_hooks_emit_promise_resolve _ rt := rt;
  async_hooks_emit_promise_destroy _ rt := rt;
  async_hooks_enter_promise_reaction _ rt := (rt, tt);
  async_hooks_exit_promise_reaction _ _ rt := rt;
  structured_promise_reaction_job_enabled := true;
  structured_async_await_continuation_job_enabled := true;
|}.

#[global] Instance demo_frame : InterpFrame (HostCode := unit) (W := unit) (Poll := unit) (HookState := unit) (Suspended := unit).
Proof. split; try reflexivity. intros rt. cbn. apply not_elem_of_dom, is_fresh. Qed.

Definition start : DR := {| job_queue := JobQueue_new; als_context := ∅; active_job_roots := []; microtask_budget_limit := None; microtask_budget_used := 0;
  io_wait_tick := false; poll_io := None; taken := [];
  world := {| heap := ∅; flags := [false]; pending_unhandled := ∅; promise_prototype := None; rest := tt |} |}.

Definition created : DR := (new_promise start).1.

End PromiseDemo.

Lemma promise_settles_once_witness :
  let rt := PromiseDemo.start in let rt' := PromiseDemo.created in
  (∀ p st v, settled rt p st v → settled rt' p st v) ∧ (∀ n, history n rt `prefix_of` history n rt') ∧
  (∀ p ps v, pending rt' p ps →
     settles p Fulfilled v (fulfill_reactions ps) false rt' (fulfill_promise p v rt') ∧ settles p Rejected v (reject_reactions ps) true rt' (reject_promise p v rt')) ∧
  (∀ p v, (∀ ps, ¬ pending rt' p ps) → fulfill_promise p v rt' = rt' ∧ reject_promise p v rt' = rt') ∧
  (∀ fuel p i args, i < length (flags (world rt)) → ∀ rt0, call_resolve_fn fuel p i args rt = Some rt0 ∨ call_reject_fn p i args rt = rt0 →
     ∀ rt1, rtc promise_step rt0 rt1 → ∀ fuel' args', call_resolve_fn fuel' p i args' rt1 = Some rt1 ∧ call_reject_fn p i args' rt1 = rt1).
Proof. apply promise_settles_once. apply rtc_once. apply (step_new PromiseDemo.start None). Defined.
