(* ===== verification/BigUInt.v ===== *)
(** * BigUInt: arithmetic on numbers of any size

    [BigUInt] of web-crypto/src/lib.rs, on which RSA and the elliptic curves rest.  A number is
    the list of its limbs, words of 32 bits, least significant first; [value] is the number.
    Loops that run over indices and write each place of a fresh vector once, in order, build the
    list.  Indexing that is not in range by the bounds of its loop may panic.  The accumulator of
    [mul_schoolbook] is a [u128]; it wraps, which numbers of fewer than 2^63 limbs never make it
    do.  The recursion of [mul] runs on one unit of fuel per limb and one more. *)

From S2P Require Import Prelude Bytes Bits Arrays.

Local Open Scope Z_scope.
Local Open Scope cruft_scope.

(** ** Definitions *)

Abbreviation BigUInt := (list Z) (only parsing).

Definition zero : BigUInt := [0].
Definition one : BigUInt := [1].

(** [a.get(i).copied().unwrap_or(0)]. *)
Definition limb (a : BigUInt) (i : nat) : Z := default 0 (a !! i).

(** [(0..n).rev().find(f)]. *)
Fixpoint rfind (f : nat → bool) (n : nat) : option nat :=
  match n with
  | O => None
  | S i => if f i then Some i else rfind f i
  end.

Fixpoint trim_rev (r : list Z) : list Z :=
  match r with
  | x :: rest => match rest with [] => r | _ => if x =? 0 then trim_rev rest else r end
  | [] => r
  end.

Definition trim (a : BigUInt) : BigUInt := reverse (trim_rev (reverse a)).

Definition from_limbs (limbs : list Z) : BigUInt := trim limbs.

Definition from_be_bytes (b : list Z) : outcome BigUInt :=
  let n_limbs := ((length b + 3) / 4)%nat in
  limbs <-! for_each (λ ib limbs,
      l <-! index limbs (Z.of_nat (ib.1 / 4));
      store limbs (Z.of_nat (ib.1 / 4)) (Z.lor l (Z.shiftl ib.2 (Z.of_nat (ib.1 mod 4 * 8)))))
    (enumerate (reverse b)) (replicate n_limbs 0);
  Ret (trim limbs).

Definition to_be_bytes (a : BigUInt) (n : nat) : outcome (list Z) :=
  for_each (λ i out, store out (Z.of_nat (n - 1 - i)) (as_u8 (Z.land (Z.shiftr (limb a (i / 4)) (Z.of_nat (i mod 4 * 8))) 255)))
    (seq 0 n) (replicate n 0).

Definition is_zero (a : BigUInt) : bool := forallb (Z.eqb 0) a.

(** [u32::leading_zeros]. *)
Definition leading_zeros (x : Z) : Z := if x =? 0 then 32 else 31 - Z.log2 x.

Definition bit_len (a : BigUInt) : nat :=
  match rfind (λ i, negb (limb a i =? 0)) (length a) with
  | Some i => i * 32 + (32 - Z.to_nat (leading_zeros (limb a i)))
  | None => 0
  end.

Definition bit (a : BigUInt) (i : nat) : bool := negb (Z.land (limb a (i / 32)) (Z.shiftl 1 (Z.of_nat (i mod 32))) =? 0).

Definition effective_len (a : BigUInt) : nat := from_option S 0%nat (rfind (λ i, negb (limb a i =? 0)) (length a)).

Fixpoint cmp_limbs (a b : BigUInt) (n : nat) : comparison :=
  match n with
  | O => Eq
  | S i => match limb a i ?= limb b i with Eq => cmp_limbs a b i | ord => ord end
  end.

Definition cmp (a b : BigUInt) : comparison :=
  let la_eff := effective_len a in
  let lb_eff := effective_len b in
  if negb (la_eff =? lb_eff)%nat then (la_eff ?= lb_eff)%nat else cmp_limbs a b la_eff.

Fixpoint add_loop (n : nat) (a b : BigUInt) (i : nat) (carry : Z) : list Z :=
  match n with
  | O => []
  | S n =>
      let sum := limb a i + limb b i + carry in
      Z.land sum 4294967295 :: add_loop n a b (S i) (Z.shiftr sum 32)
  end.

Definition add (a b : BigUInt) : BigUInt := trim (add_loop (S (length a `max` length b)) a b 0 0).

Fixpoint sub_loop (n : nat) (a b : BigUInt) (i : nat) (borrow : Z) : list Z :=
  match n with
  | O => []
  | S n =>
      let diff := limb a i - limb b i - borrow in
      if diff <? 0 then as_u32 (diff + Z.shiftl 1 32) :: sub_loop n a b (S i) 1
      else as_u32 diff :: sub_loop n a b (S i) 0
  end.

Definition sub (a b : BigUInt) : BigUInt := trim (sub_loop (length a) a b 0 0).

Definition shl_limbs (a : BigUInt) (k : nat) : BigUInt := if is_zero a then zero else trim (replicate k 0 ++ a).

Definition u128 (z : Z) : Z := z `mod` 340282366920938463463374607431768211456.

(** The sum of the products of column [k], on top of [acc]. *)
Definition column (a b : BigUInt) (k : nat) (acc : Z) : outcome Z :=
  let i_min := (if length b <=? k then k - length b + 1 else 0)%nat in
  let i_max := (S k `min` length a)%nat in
  for_each (λ i acc, x <-! index a (Z.of_nat i); y <-! index b (Z.of_nat (k - i)); Ret (u128 (acc + x * y)))
    (seq i_min (i_max - i_min)) acc.

Fixpoint columns (n : nat) (a b : BigUInt) (k : nat) (acc : Z) : outcome (list Z) :=
  match n with
  | O => Ret [as_u32 acc]
  | S n =>
      acc <-! column a b k acc;
      rest <-! columns n a b (S k) (Z.shiftr acc 32);
      Ret (as_u32 acc :: rest)
  end.

Definition mul_schoolbook (a b : BigUInt) : outcome BigUInt :=
  limbs <-! columns (length a + length b) a b 0 0; Ret (trim limbs).

Definition KARATSUBA_THRESHOLD : nat := 24.

Fixpoint mul_fuel (fuel : nat) (a b : BigUInt) : outcome BigUInt :=
  match fuel with
  | O => Panic
  | S fuel =>
      let n := (length a `max` length b)%nat in
      if (n <? KARATSUBA_THRESHOLD)%nat || (length a <? 2)%nat || (length b <? 2)%nat then mul_schoolbook a b
      else
        let split := ((n + 1) / 2)%nat in
        let a_lo := from_limbs (take split a) in
        let a_hi := from_limbs (drop split a) in
        let b_lo := from_limbs (take split b) in
        let b_hi := from_limbs (drop split b) in
        z0 <-! mul_fuel fuel a_lo b_lo;
        z2 <-! mul_fuel fuel a_hi b_hi;
        z1_full <-! mul_fuel fuel (add a_lo a_hi) (add b_lo b_hi);
        let z1 := sub (sub z1_full z0) z2 in
        Ret (add (add z0 (shl_limbs z1 split)) (shl_limbs z2 (2 * split)))
  end.

Definition mul (a b : BigUInt) : outcome BigUInt := mul_fuel (S (length a `max` length b)) a b.

Fixpoint shl1_loop (a : BigUInt) (carry : Z) : list Z :=
  match a with
  | [] => [carry]
  | l :: a => Z.lor (as_u32 (Z.shiftl l 1)) carry :: shl1_loop a (Z.shiftr l 31)
  end.

Definition shl1 (a : BigUInt) : BigUInt := trim (shl1_loop a 0).

(** [r.0[0] |= 1], on a number without limbs after [push(0)]. *)
Definition set_low_bit (r : BigUInt) : BigUInt :=
  match r with
  | [] => [Z.lor 0 1]
  | l :: r => Z.lor l 1 :: r
  end.

(** The bits of [a] below [i], from the top. *)
Fixpoint divmod_loop (i : nat) (a divisor : BigUInt) (q_limbs : list Z) (r : BigUInt) : outcome (list Z * BigUInt) :=
  match i with
  | O => Ret (q_limbs, r)
  | S i =>
      let r := shl1 r in
      let r := if bit a i then set_low_bit r else r in
      match cmp r divisor with
      | Lt => divmod_loop i a divisor q_limbs r
      | _ =>
          q <-! index q_limbs (Z.of_nat (i / 32));
          q_limbs <-! store q_limbs (Z.of_nat (i / 32)) (Z.lor q (Z.shiftl 1 (Z.of_nat (i mod 32))));
          divmod_loop i a divisor q_limbs (sub r divisor)
      end
  end.

Definition divmod (a divisor : BigUInt) : outcome (BigUInt * BigUInt) :=
  if is_zero divisor then Panic
  else
    let bits := bit_len a in
    qr <-! divmod_loop bits a divisor (replicate ((bits + 31) / 32 + 1) 0) zero;
    Ret (trim qr.1, trim qr.2).

Definition modulo (a m : BigUInt) : outcome BigUInt := qr <-! divmod a m; Ret qr.2.

(** The bits of [e] from [i] on, [n] of them. *)
Fixpoint mod_pow_loop (n i : nat) (e m result base : BigUInt) : outcome BigUInt :=
  match n with
  | O => Ret result
  | S n =>
      result <-! (if bit e i then p <-! mul result base; modulo p m else Ret result);
      square <-! mul base base;
      base <-! modulo square m;
      mod_pow_loop n (S i) e m result base
  end.

Definition mod_pow (base e m : BigUInt) : outcome BigUInt :=
  match cmp m one with
  | Eq => Ret zero
  | _ => base <-! modulo base m; mod_pow_loop (bit_len e) 0 e m one base
  end.

(** ** The number a list of limbs stands for *)

Fixpoint value (a : BigUInt) : Z :=
  match a with
  | [] => 0
  | x :: a => x + 4294967296 * value a
  end.

Definition limbs_ok (a : BigUInt) : Prop := Forall is_u32 a.

(** The weight of limb [n]. *)
Definition weight (n : nat) : Z := 4294967296 ^ Z.of_nat n.

Lemma weight_0 : weight 0 = 1.
Proof. done. Qed.

Lemma weight_S n : weight (S n) = 4294967296 * weight n.
Proof. unfold weight. rewrite Nat2Z.inj_succ, Z.pow_succ_r; lia. Qed.

Lemma weight_add n m : weight (n + m) = weight n * weight m.
Proof. unfold weight. rewrite Nat2Z.inj_add, Z.pow_add_r; lia. Qed.

Lemma weight_pos n : 0 < weight n.
Proof. unfold weight. apply Z.pow_pos_nonneg; lia. Qed.

Lemma weight_le n m : (n ≤ m)%nat → weight n ≤ weight m.
Proof. intros H. unfold weight. apply Z.pow_le_mono_r; lia. Qed.

Lemma weight_pow n : weight n = 2 ^ (32 * Z.of_nat n).
Proof. unfold weight. change 4294967296 with (2 ^ 32). by rewrite <-Z.pow_mul_r by lia. Qed.

Lemma value_app a b : value (a ++ b) = value a + weight (length a) * value b.
Proof. induction a as [|x a IH]; cbn [app value length]; [rewrite weight_0; lia|]. rewrite IH, weight_S. lia. Qed.

Lemma value_bounds a : limbs_ok a → 0 ≤ value a < weight (length a).
Proof.
  induction 1 as [|x a Hx Ha IH]; cbn [value length]; [rewrite weight_0; lia|]. rewrite weight_S. unfold is_u32 in Hx. lia.
Qed.

Lemma value_zeros n : value (replicate n 0) = 0.
Proof. induction n as [|n IH]; cbn [replicate value]; [done|]. by rewrite IH. Qed.

Lemma zeros_ok n : limbs_ok (replicate n 0).
Proof. apply Forall_replicate. unfold is_u32. lia. Qed.

Lemma limb_ok a i : limbs_ok a → 0 ≤ limb a i < 4294967296.
Proof. intros Ha. unfold limb. destruct (a !! i) as [x|] eqn:E; cbn [default from_option id]; [exact (Forall_lookup_1 _ _ _ _ Ha E)|lia]. Qed.

Lemma limb_index a i : (i < length a)%nat → index a (Z.of_nat i) = Ret (limb a i).
Proof. intros Hi. destruct (lookup_lt_is_Some_2 a i Hi) as [x E]. unfold limb. rewrite E. by apply index_nat. Qed.

Lemma value_drop a i : value (drop i a) = limb a i + 4294967296 * value (drop (S i) a).
Proof.
  unfold limb. destruct (a !! i) as [x|] eqn:E; cbn [default from_option id].
  - by rewrite (drop_S _ _ _ E).
  - apply lookup_ge_None in E. by rewrite !drop_ge by lia.
Qed.

Lemma value_take_drop n a i : value (take (S n) (drop i a)) = limb a i + 4294967296 * value (take n (drop (S i) a)).
Proof.
  unfold limb. destruct (a !! i) as [x|] eqn:E; cbn [default from_option id].
  - by rewrite (drop_S _ _ _ E).
  - apply lookup_ge_None in E. rewrite !drop_ge by lia. by rewrite !take_nil.
Qed.

Lemma value_take a i : value (take (S i) a) = value (take i a) + weight i * limb a i.
Proof.
  unfold limb. destruct (a !! i) as [x|] eqn:E; cbn [default from_option id].
  - rewrite (take_S_r _ _ _ E), value_app, length_take. pose proof (lookup_lt_Some _ _ _ E). rewrite Nat.min_l by lia. cbn [value]. ring.
  - apply lookup_ge_None in E. rewrite !take_ge by lia. ring.
Qed.

Lemma value_take_drop_split a i : value a = value (take i a) + weight i * value (drop i a).
Proof.
  destruct (decide (i ≤ length a)%nat) as [Hi|Hi].
  - rewrite <-(take_drop i a) at 1. rewrite value_app, length_take, Nat.min_l by done. done.
  - rewrite take_ge, drop_ge by lia. cbn [value]. lia.
Qed.

Lemma take_ok n a : limbs_ok a → limbs_ok (take n a).
Proof. apply Forall_take. Qed.

Lemma drop_ok n a : limbs_ok a → limbs_ok (drop n a).
Proof. apply Forall_drop. Qed.

Lemma take_value_bounds i a : limbs_ok a → 0 ≤ value (take i a) < weight i.
Proof.
  intros Ha. pose proof (value_bounds _ (take_ok i a Ha)) as Hb. rewrite length_take in Hb.
  pose proof (weight_le (i `min` length a) i ltac:(lia)). lia.
Qed.

(** A limb is a digit of the number. *)
Lemma limb_digit a i : limbs_ok a → limb a i = (value a / weight i) `mod` 4294967296.
Proof.
  intros Ha. rewrite (value_take_drop_split a i). pose proof (weight_pos i). pose proof (take_value_bounds i a Ha).
  rewrite Z.mul_comm, Z.div_add, (Z.div_small (value _)) by lia. rewrite Z.add_0_l, value_drop, Z.mul_comm, Z.mod_add by lia.
  symmetry. apply Z.mod_small. by apply limb_ok.
Qed.

Lemma value_insert a i x : (i < length a)%nat → value (<[i := x]> a) = value a + weight i * (x - limb a i).
Proof.
  intros Hi. unfold limb. destruct (lookup_lt_is_Some_2 a i Hi) as [y Ey]. rewrite Ey. cbn [default from_option id].
  pose proof (f_equal value (take_drop_middle a i y Ey)) as E. rewrite <-E, (insert_take_drop a) by done.
  rewrite !value_app. cbn [value]. rewrite length_take. replace (i `min` length a)%nat with i by lia. ring.
Qed.

Lemma insert_ok a i x : limbs_ok a → is_u32 x → limbs_ok (<[i := x]> a).
Proof. intros Ha Hx. by apply Forall_insert. Qed.

(** ** Trimming *)

Lemma reverse_nil_inv {A} (l : list A) : reverse l = [] → l = [].
Proof. intros E. rewrite <-(reverse_involutive l), E. done. Qed.

Lemma trim_rev_spec r : ∃ k, r = replicate k 0 ++ trim_rev r ∧ (r ≠ [] → trim_rev r ≠ []) ∧ (∀ y l, trim_rev r = y :: l → l ≠ [] → y ≠ 0).
Proof.
  induction r as [|x r IH]; [exists 0%nat; split_and!; naive_solver|]. cbn [trim_rev]. destruct r as [|x2 r].
  - exists 0%nat. split_and!; [done|done|]. by intros y l [= -> <-].
  - destruct (Z.eqb_spec x 0) as [->|Hx].
    + destruct IH as (k & E & Hne & Hz). exists (S k). split_and!; [cbn [replicate app]; by rewrite <-E|intros _; by apply Hne|done].
    + exists 0%nat. split_and!; [done|done|]. by intros y l [= <- <-].
Qed.

Lemma trim_keeps a : ∃ k, a = trim a ++ replicate k 0 ∧ (a ≠ [] → trim a ≠ []) ∧ (∀ y l, trim a = l ++ [y] → l ≠ [] → y ≠ 0).
Proof.
  unfold trim. destruct (trim_rev_spec (reverse a)) as (k & E & Hne & Hz). exists k. split_and!.
  - rewrite <-(reverse_involutive a) at 1. rewrite E at 1. by rewrite reverse_app, reverse_replicate.
  - intros Ha Hr. apply Hne; [by intros ->%reverse_nil_inv|]. by apply reverse_nil_inv.
  - intros y l El Hl. apply (Hz y (reverse l)); [|by intros ->%reverse_nil_inv].
    rewrite <-(reverse_involutive (trim_rev _)), El. by rewrite reverse_app.
Qed.

Lemma value_trim a : value (trim a) = value a.
Proof. destruct (trim_keeps a) as (k & E & _). rewrite E at 2. rewrite value_app, value_zeros. lia. Qed.

Lemma trim_ok a : limbs_ok a → limbs_ok (trim a).
Proof. destruct (trim_keeps a) as (k & E & _). unfold limbs_ok. rewrite E at 1. rewrite Forall_app. tauto. Qed.

Lemma trim_nonempty a : a ≠ [] → trim a ≠ [].
Proof. by destruct (trim_keeps a) as (k & _ & H & _). Qed.

(** A number without limbs that say nothing is as long as it must be. *)
Lemma trim_length a n : limbs_ok a → value a < weight n → (length (trim a) ≤ n `max` 1)%nat.
Proof.
  intros Ha Hv. destruct (trim_keeps a) as (k & E & _ & Hz). rewrite <-value_trim in Hv. apply trim_ok in Ha.
  destruct (trim a) as [|y l _] eqn:Et using rev_ind; [cbn; lia|]. destruct (decide (l = [])) as [->|Hl]; [cbn; lia|].
  specialize (Hz y l eq_refl Hl). apply Forall_app in Ha as [Hl2 Hy]. rewrite Forall_singleton in Hy. unfold is_u32 in Hy.
  rewrite value_app in Hv. cbn [value] in Hv. pose proof (value_bounds l Hl2). rewrite length_app. cbn [length].
  destruct (decide (n ≤ length l)%nat) as [Hn|]; [|lia]. apply weight_le in Hn. pose proof (weight_pos (length l)). nia.
Qed.

(** ** Looking at a number *)

Lemma is_zero_spec a : limbs_ok a → is_zero a = (value a =? 0).
Proof.
  unfold is_zero. induction 1 as [|x a Hx Ha IH]; [done|]. cbn [forallb value]. rewrite IH. pose proof (value_bounds a Ha). unfold is_u32 in Hx.
  destruct (Z.eqb_spec 0 x), (Z.eqb_spec (value a) 0), (Z.eqb_spec (x + 4294967296 * value a) 0); cbn; (done || lia).
Qed.

Lemma rfind_spec f n :
  match rfind f n with
  | Some i => (i < n)%nat ∧ f i = true ∧ ∀ j, (i < j < n)%nat → f j = false
  | None => ∀ j, (j < n)%nat → f j = false
  end.
Proof.
  induction n as [|n IH]; cbn [rfind]; [intros; lia|]. destruct (f n) eqn:E; [split_and!; [lia|done|intros; lia]|]. destruct (rfind f n) as [i|].
  - destruct IH as (Hi & Hf & Hj). split_and!; [lia|done|]. intros j Hj2. destruct (decide (j = n)) as [->|]; [done|]. apply Hj. lia.
  - intros j Hj. destruct (decide (j = n)) as [->|]; [done|]. apply IH. lia.
Qed.

(** The limbs above the last that is not zero add nothing. *)
Lemma rfind_value a :
  match rfind (λ i, negb (limb a i =? 0)) (length a) with
  | Some i => limb a i ≠ 0 ∧ value a = value (take i a) + weight i * limb a i
  | None => value a = 0
  end.
Proof.
  pose proof (rfind_spec (λ i, negb (limb a i =? 0)) (length a)) as H. cbn beta in H.
  assert (∀ i, (∀ j, (i ≤ j < length a)%nat → negb (limb a j =? 0) = false) → value a = value (take i a)) as G.
  { intros i Hj. rewrite (value_take_drop_split a i). enough (value (drop i a) = 0) as -> by lia.
    remember (length a - i)%nat as n eqn:En. revert i Hj En. induction n as [|n IH]; intros i Hj En; [by rewrite drop_ge by lia|].
    rewrite value_drop, (IH (S i)) by (try intros; try apply Hj; lia). specialize (Hj i ltac:(lia)). apply negb_false_iff, Z.eqb_eq in Hj. lia. }
  destruct (rfind _ _) as [i|].
  - destruct H as (_ & Hi & Hj). apply negb_true_iff, Z.eqb_neq in Hi. split; [done|]. rewrite <-value_take. apply G. intros j Hj2. apply Hj. lia.
  - rewrite (G 0%nat); [done|]. intros j Hj. apply H. lia.
Qed.

Lemma effective_value a : value a = value (take (effective_len a) a) ∧
  (limbs_ok a → effective_len a ≠ 0%nat → weight (effective_len a - 1) ≤ value a).
Proof.
  unfold effective_len. pose proof (rfind_value a) as H. destruct (rfind _ _) as [i|]; cbn [from_option].
  - destruct H as [Hi Hv]. split; [by rewrite value_take|]. intros Ha _. rewrite Hv. replace (S i - 1)%nat with i by lia.
    pose proof (limb_ok a i Ha). pose proof (take_value_bounds i a Ha). pose proof (weight_pos i). nia.
  - split; [done|]. intros _ E. lia.
Qed.

Lemma cmp_limbs_spec a b n : limbs_ok a → limbs_ok b → cmp_limbs a b n = (value (take n a) ?= value (take n b)).
Proof.
  intros Ha Hb. induction n as [|n IH]; [done|]. cbn [cmp_limbs]. rewrite !value_take. pose proof (take_value_bounds n a Ha). pose proof (take_value_bounds n b Hb).
  pose proof (weight_pos n). destruct (Z.compare_spec (limb a n) (limb b n)) as [E|E|E].
  - rewrite IH, E. destruct (Z.compare_spec (value (take n a)) (value (take n b))); symmetry; [apply Z.compare_eq_iff|apply Z.compare_lt_iff|apply Z.compare_gt_iff]; lia.
  - symmetry. apply Z.compare_lt_iff. nia.
  - symmetry. apply Z.compare_gt_iff. nia.
Qed.

Lemma cmp_spec a b : limbs_ok a → limbs_ok b → cmp a b = (value a ?= value b).
Proof.
  intros Ha Hb. unfold cmp. destruct (effective_value a) as [Ea La], (effective_value b) as [Eb Lb]. specialize (La Ha). specialize (Lb Hb).
  pose proof (take_value_bounds (effective_len a) a Ha) as Ba. pose proof (take_value_bounds (effective_len b) b Hb) as Bb. rewrite <-Ea in Ba. rewrite <-Eb in Bb.
  destruct (Nat.eqb_spec (effective_len a) (effective_len b)) as [E|E]; cbn [negb].
  - rewrite cmp_limbs_spec by done. rewrite E at 2. by rewrite <-Ea, <-Eb.
  - destruct (Nat.compare_spec (effective_len a) (effective_len b)) as [|Hlt|Hlt]; [done| |]; symmetry.
    + apply Z.compare_lt_iff. pose proof (weight_le (effective_len a) (effective_len b - 1) ltac:(lia)). specialize (Lb ltac:(lia)). lia.
    + apply Z.compare_gt_iff. pose proof (weight_le (effective_len b) (effective_len a - 1) ltac:(lia)). specialize (La ltac:(lia)). lia.
Qed.

(** ** Adding and subtracting *)

Lemma add_loop_spec a b n : ∀ i carry, limbs_ok a → limbs_ok b → 0 ≤ carry →
  value (drop i a) + value (drop i b) + carry < weight n →
  limbs_ok (add_loop n a b i carry) ∧ value (add_loop n a b i carry) = value (drop i a) + value (drop i b) + carry.
Proof.
  induction n as [|n IH]; intros i carry Ha Hb Hc Hv.
  - rewrite weight_0 in Hv. pose proof (value_bounds _ (drop_ok i a Ha)). pose proof (value_bounds _ (drop_ok i b Hb)).
    split; [by apply Forall_nil|]. cbn [add_loop value]. lia.
  - cbn [add_loop value]. rewrite (value_drop a i), (value_drop b i), weight_S in *. pose proof (limb_ok a i Ha). pose proof (limb_ok b i Hb).
    set (s := limb a i + limb b i + carry) in *. change 4294967295 with (2 ^ 32 - 1). rewrite land_low, Z.shiftr_div_pow2 by lia. change (2 ^ 32) with 4294967296.
    pose proof (Z.div_mod s 4294967296 ltac:(lia)). pose proof (Z.mod_pos_bound s 4294967296 ltac:(lia)).
    assert (0 ≤ s / 4294967296) by (apply Z.div_pos; lia).
    destruct (IH (S i) (s / 4294967296) Ha Hb ltac:(lia)) as [Hok ->]; [lia|]. split; [|lia]. apply Forall_cons. split; [unfold is_u32; lia|done].
Qed.

Lemma add_spec a b : limbs_ok a → limbs_ok b → limbs_ok (add a b) ∧ value (add a b) = value a + value b.
Proof.
  intros Ha Hb. unfold add. rewrite value_trim.
  destruct (add_loop_spec a b (S (length a `max` length b)) 0 0 Ha Hb ltac:(lia)) as [Hok ->].
  - rewrite !drop_0, weight_S. pose proof (value_bounds a Ha). pose proof (value_bounds b Hb).
    pose proof (weight_le (length a) (length a `max` length b) ltac:(lia)). pose proof (weight_le (length b) (length a `max` length b) ltac:(lia)). lia.
  - rewrite !drop_0. split; [by apply trim_ok|lia].
Qed.

(** What is borrowed at the end is lost. *)
Lemma sub_loop_spec a b n : ∀ i borrow, limbs_ok a → limbs_ok b → 0 ≤ borrow ≤ 1 →
  limbs_ok (sub_loop n a b i borrow) ∧ length (sub_loop n a b i borrow) = n ∧
  ∃ out, 0 ≤ out ≤ 1 ∧
    value (sub_loop n a b i borrow) = value (take n (drop i a)) - value (take n (drop i b)) - borrow + weight n * out.
Proof.
  induction n as [|n IH]; intros i borrow Ha Hb Hc.
  - split; [by apply Forall_nil|]. split; [done|]. exists borrow. split; [done|]. cbn [sub_loop]. rewrite !take_0, weight_0. cbn [value]. lia.
  - cbn [sub_loop]. rewrite !value_take_drop, weight_S. pose proof (limb_ok a i Ha). pose proof (limb_ok b i Hb). set (d := limb a i - limb b i - borrow).
    destruct (Z.ltb_spec d 0) as [Hd|Hd].
    + destruct (IH (S i) 1 Ha Hb ltac:(lia)) as (Hok & Hl & out & Ho & E). split; [|split; [cbn; by rewrite Hl|]].
      * apply Forall_cons. split; [|done]. unfold is_u32, as_u32. apply Z.mod_pos_bound. lia.
      * exists out. split; [done|]. cbn [value]. rewrite E. change (Z.shiftl 1 32) with 4294967296. unfold as_u32. rewrite Z.mod_small by lia. lia.
    + destruct (IH (S i) 0 Ha Hb ltac:(lia)) as (Hok & Hl & out & Ho & E). split; [|split; [cbn; by rewrite Hl|]].
      * apply Forall_cons. split; [|done]. unfold is_u32, as_u32. apply Z.mod_pos_bound. lia.
      * exists out. split; [done|]. cbn [value]. rewrite E. unfold as_u32. rewrite Z.mod_small by lia. lia.
Qed.

Lemma sub_spec a b : limbs_ok a → limbs_ok b → value b ≤ value a → limbs_ok (sub a b) ∧ value (sub a b) = value a - value b.
Proof.
  intros Ha Hb Hle. unfold sub. rewrite value_trim. destruct (sub_loop_spec a b (length a) 0 0 Ha Hb ltac:(lia)) as (Hok & Hl & out & Ho & E).
  split; [by apply trim_ok|]. rewrite !drop_0, take_ge in E by done. pose proof (value_bounds a Ha) as Hab.
  pose proof (value_take_drop_split b (length a)) as Eb. pose proof (value_bounds _ (drop_ok (length a) b Hb)). pose proof (take_value_bounds (length a) b Hb).
  assert (value (drop (length a) b) = 0) as Hz by nia. rewrite Hz in Eb. pose proof (value_bounds _ Hok) as Hvb. rewrite Hl in Hvb.
  assert (out = 0) as -> by nia. lia.
Qed.

Lemma shl_limbs_spec a k : limbs_ok a → limbs_ok (shl_limbs a k) ∧ value (shl_limbs a k) = weight k * value a.
Proof.
  intros Ha. unfold shl_limbs. rewrite is_zero_spec by done. destruct (Z.eqb_spec (value a) 0) as [E|E].
  - rewrite E. split; [apply Forall_singleton; unfold is_u32; lia|cbn; lia].
  - rewrite value_trim, value_app, value_zeros, length_replicate. split; [|lia]. apply trim_ok, Forall_app. split; [apply zeros_ok|done].
Qed.

Lemma from_limbs_spec a : limbs_ok a → limbs_ok (from_limbs a) ∧ value (from_limbs a) = value a.
Proof. intros Ha. split; [by apply trim_ok|apply value_trim]. Qed.

(** ** Multiplying *)

(** The sum of [limb a i * limb b (k - i)] over the indices [l]. *)
Definition products (a b : BigUInt) (k : nat) (l : list nat) : Z := foldr (λ i s, limb a i * limb b (k - i) + s) 0 l.

Lemma products_app a b k l1 l2 : products a b k (l1 ++ l2) = products a b k l1 + products a b k l2.
Proof. unfold products. induction l1 as [|i l1 IH]; cbn [app foldr]; [lia|]. rewrite IH. lia. Qed.

Lemma products_zero a b k l : (∀ i, i ∈ l → limb a i = 0 ∨ limb b (k - i) = 0) → products a b k l = 0.
Proof.
  unfold products. induction l as [|i l IH]; intros H; [done|]. cbn [foldr]. rewrite IH by (intros j Hj; apply H; by right).
  destruct (H i ltac:(by left)) as [-> | ->]; lia.
Qed.

Lemma limb_above a i : (length a ≤ i)%nat → limb a i = 0.
Proof. intros Hi. unfold limb. by rewrite (proj2 (lookup_ge_None a i)). Qed.

Lemma column_range a b k : let i_min := (if length b <=? k then k - length b + 1 else 0)%nat in let i_max := (S k `min` length a)%nat in
  products a b k (seq i_min (i_max - i_min)) = products a b k (seq 0 (S k)).
Proof.
  intros i_min i_max. assert (i_min ≤ S k)%nat as Hm by (unfold i_min; destruct (Nat.leb_spec (length b) k); lia).
  assert (∀ i, (i < i_min)%nat → limb b (k - i) = 0) as Hlow by (intros i Hi; apply limb_above; unfold i_min in Hi; destruct (Nat.leb_spec (length b) k); lia).
  destruct (decide (i_min ≤ i_max)%nat) as [Hle|Hgt].
  - assert (seq 0 (S k) = seq 0 i_min ++ seq i_min (i_max - i_min) ++ seq i_max (S k - i_max)) as ->.
    { replace (S k) with (i_min + ((i_max - i_min) + (S k - i_max)))%nat at 1 by (unfold i_max in *; lia).
      rewrite !seq_app. repeat f_equal; lia. }
    rewrite !products_app, (products_zero _ _ _ (seq 0 i_min)), (products_zero _ _ _ (seq i_max _)); [lia| |].
    + intros i Hi%elem_of_seq. left. apply limb_above. unfold i_max in Hi. lia.
    + intros i Hi%elem_of_seq. right. apply Hlow. lia.
  - replace (i_max - i_min)%nat with 0%nat by lia. cbn [seq]. symmetry. change (products a b k []) with 0. apply products_zero. intros i Hi. apply (elem_of_seq 0 (S k)) in Hi.
    destruct (decide (i < i_min)%nat); [right; by apply Hlow|left; apply limb_above; unfold i_max in Hgt; lia].
Qed.

Lemma products_cons x a b k : products (x :: a) b (S k) (seq 0 (S (S k))) = x * limb b (S k) + products a b k (seq 0 (S k)).
Proof.
  change (seq 0 (S (S k))) with (0%nat :: seq 1 (S k)). rewrite <-(fmap_S_seq 0 (S k)). generalize (seq 0 (S k)). intros l.
  unfold products. cbn [foldr]. f_equal.
  induction l as [|i l IH]; [done|]. cbn [fmap list_fmap foldr]. by rewrite IH.
Qed.

(** The columns below [n], with their weights. *)
Fixpoint column_sum (a b : BigUInt) (n : nat) : Z :=
  match n with
  | O => 0
  | S n => column_sum a b n + weight n * products a b n (seq 0 (S n))
  end.

Lemma column_sum_cons x a b n : column_sum (x :: a) b (S n) = x * value (take (S n) b) + 4294967296 * column_sum a b n.
Proof.
  induction n as [|n IH].
  - cbn [column_sum seq]. rewrite value_take, take_0. unfold products. cbn [foldr value]. rewrite weight_0. cbn [limb lookup list_lookup Nat.sub]. unfold limb at 1. cbn. lia.
  - cbn [column_sum] in *. rewrite (value_take b (S n)). rewrite products_cons, weight_S in *. lia.
Qed.

Lemma column_sum_product a b n : (length a + length b ≤ n)%nat → column_sum a b n = value a * value b.
Proof.
  revert n. induction a as [|x a IH]; intros n Hn.
  - clear Hn. cbn [value]. induction n as [|n IHn]; [done|]. cbn [column_sum]. rewrite IHn, products_zero; [lia|]. by left.
  - cbn [length] in Hn. destruct n as [|n]; [lia|]. rewrite column_sum_cons, IH, take_ge by lia. cbn [value]. lia.
Qed.

Lemma products_bound a b k l : limbs_ok a → limbs_ok b → 0 ≤ products a b k l ≤ Z.of_nat (length l) * 18446744065119617025.
Proof.
  intros Ha Hb. unfold products. induction l as [|i l IH]; cbn [foldr length]; [lia|].
  pose proof (limb_ok a i Ha). pose proof (limb_ok b (k - i) Hb). assert (limb a i * limb b (k - i) ≤ 4294967295 * 4294967295) by (apply Z.mul_le_mono_nonneg; lia). nia.
Qed.

Lemma column_loop a b k l : ∀ acc, limbs_ok a → limbs_ok b → (∀ i, i ∈ l → (i < length a)%nat ∧ (k - i < length b)%nat) →
  0 ≤ acc → acc + Z.of_nat (length l) * 18446744065119617025 < 340282366920938463463374607431768211456 →
  for_each (λ i acc, x <-! index a (Z.of_nat i); y <-! index b (Z.of_nat (k - i)); Ret (u128 (acc + x * y))) l acc = Ret (acc + products a b k l).
Proof.
  induction l as [|i l IH]; intros acc Ha Hb Hr H0 Hacc; [cbn; f_equal; unfold products; cbn; lia|].
  cbn [for_each]. destruct (Hr i ltac:(by left)) as [H1 H2]. rewrite !limb_index by done. cbn [outcome_bind length] in *.
  pose proof (limb_ok a i Ha). pose proof (limb_ok b (k - i) Hb). assert (limb a i * limb b (k - i) ≤ 4294967295 * 4294967295) by (apply Z.mul_le_mono_nonneg; lia).
  unfold u128. rewrite Z.mod_small by nia. rewrite IH; [|done|done| |nia|nia].
  - f_equal. unfold products. cbn [foldr]. lia.
  - intros j Hj. apply Hr. by right.
Qed.

Definition MAX_LIMBS : Z := 9223372036854775808.

Lemma column_spec a b k acc : limbs_ok a → limbs_ok b → (k < length a + length b)%nat → len a < MAX_LIMBS → 0 ≤ acc ≤ len a * 4294967296 →
  column a b k acc = Ret (acc + products a b k (seq 0 (S k))) ∧ 0 ≤ acc + products a b k (seq 0 (S k)) ≤ len a * 18446744073709551616.
Proof.
  intros Ha Hb Hk Hs Hacc. unfold column. rewrite <-(column_range a b k). cbv zeta. set (i_min := (if length b <=? k then _ else _)%nat).
  set (l := seq i_min _). assert (length l ≤ length a)%nat as Hl by (unfold l; rewrite length_seq; lia). unfold len, MAX_LIMBS in *.
  pose proof (products_bound a b k l Ha Hb). rewrite column_loop; [split; [done|nia]|done|done| |lia|nia].
  intros i Hi%elem_of_seq. unfold i_min in *. destruct (Nat.leb_spec (length b) k); lia.
Qed.

Lemma columns_spec a b n : ∀ k acc, limbs_ok a → limbs_ok b → (k + n ≤ length a + length b)%nat → len a < MAX_LIMBS → 0 ≤ acc ≤ len a * 4294967296 →
  ∃ low fin, columns n a b k acc = Ret (low ++ [as_u32 fin]) ∧ limbs_ok low ∧ length low = n ∧ 0 ≤ fin ∧
    column_sum a b k + weight k * (value low + weight n * fin) = column_sum a b (k + n) + weight k * acc.
Proof.
  induction n as [|n IH]; intros k acc Ha Hb Hk Hs Hacc.
  - exists [], acc. split_and!; [done|by apply Forall_nil|done|lia|]. rewrite weight_0, Nat.add_0_r. cbn [value]. lia.
  - cbn [columns]. destruct (column_spec a b k acc Ha Hb ltac:(lia) Hs Hacc) as [-> Hb2]. cbn [outcome_bind]. set (acc' := acc + _) in *.
    rewrite Z.shiftr_div_pow2 by lia. change (2 ^ 32) with 4294967296. pose proof (Z.div_mod acc' 4294967296 ltac:(lia)) as Hd. pose proof (Z.mod_pos_bound acc' 4294967296 ltac:(lia)).
    destruct (IH (S k) (acc' / 4294967296) Ha Hb ltac:(lia) Hs) as (low & fin & -> & Hok & Hl & Hf & E).
    { split; [apply Z.div_pos; lia|]. apply Z.div_le_upper_bound; lia. }
    cbn [outcome_bind]. exists (as_u32 acc' :: low), fin. split_and!; [done| |cbn; lia|done|].
    + apply Forall_cons. split; [unfold is_u32, as_u32; lia|done].
    + replace (k + S n)%nat with (S k + n)%nat by lia. cbn [column_sum] in E. cbn [value]. rewrite !weight_S in *. unfold as_u32. unfold acc' in *. nia.
Qed.

Lemma mul_schoolbook_spec a b : limbs_ok a → limbs_ok b → len a < MAX_LIMBS →
  ∃ c, mul_schoolbook a b = Ret c ∧ limbs_ok c ∧ value c = value a * value b ∧ (length c ≤ (length a + length b) `max` 1)%nat.
Proof.
  intros Ha Hb Hs. unfold mul_schoolbook.
  destruct (columns_spec a b (length a + length b) 0 0 Ha Hb ltac:(lia) Hs ltac:(unfold len; lia)) as (low & fin & -> & Hok & Hl & Hf & E). cbn [outcome_bind].
  rewrite weight_0, Nat.add_0_l, (column_sum_product a b (length a + length b)) in E by lia. cbn [column_sum] in E. pose proof (value_bounds a Ha). pose proof (value_bounds b Hb).
  pose proof (value_bounds low Hok) as Hlow. rewrite Hl, weight_add in *. pose proof (weight_pos (length a)). pose proof (weight_pos (length b)).
  assert (value a * value b < weight (length a) * weight (length b)) as Hp by (apply Z.mul_lt_mono_nonneg; lia).
  assert (fin = 0) as -> by nia. change (as_u32 0) with 0.
  assert (limbs_ok (low ++ [0])) as Hok2 by (apply Forall_app; split; [done|apply Forall_singleton; unfold is_u32; lia]).
  assert (value (low ++ [0]) = value a * value b) as Hv by (rewrite value_app; cbn [value]; lia).
  exists (trim (low ++ [0])). split_and!; [done|by apply trim_ok|by rewrite value_trim|]. apply trim_length; [done|]. rewrite Hv, weight_add. lia.
Qed.

Lemma add_length a b k : limbs_ok a → limbs_ok b → value a + value b < weight k → (length (add a b) ≤ k `max` 1)%nat.
Proof.
  intros Ha Hb Hk. destruct (add_loop_spec a b (S (length a `max` length b)) 0 0 Ha Hb ltac:(lia)) as [Hok E].
  - rewrite !drop_0, weight_S. pose proof (value_bounds a Ha). pose proof (value_bounds b Hb).
    pose proof (weight_le (length a) (length a `max` length b) ltac:(lia)). pose proof (weight_le (length b) (length a `max` length b) ltac:(lia)). lia.
  - apply trim_length; [done|]. rewrite E, !drop_0. lia.
Qed.

(** The halves of a number. *)
Lemma halves a s : limbs_ok a → (length a ≤ 2 * s)%nat →
  let lo := from_limbs (take s a) in let hi := from_limbs (drop s a) in
  limbs_ok lo ∧ limbs_ok hi ∧ (length lo ≤ s `max` 1)%nat ∧ (length hi ≤ s `max` 1)%nat ∧
  value a = value lo + weight s * value hi ∧ 0 ≤ value lo < weight s ∧ 0 ≤ value hi < weight s.
Proof.
  intros Ha Hl lo hi. destruct (from_limbs_spec _ (take_ok s a Ha)) as [Hlo Vlo], (from_limbs_spec _ (drop_ok s a Ha)) as [Hhi Vhi].
  pose proof (take_value_bounds s a Ha) as Blo. pose proof (value_bounds _ (drop_ok s a Ha)) as Bhi. rewrite length_drop in Bhi.
  pose proof (weight_le (length a - s) s ltac:(lia)). fold lo in Hlo, Vlo. fold hi in Hhi, Vhi. rewrite Vlo, Vhi.
  split_and!; [done|done|apply trim_length; [by apply take_ok|lia]|apply trim_length; [by apply drop_ok|lia]|apply value_take_drop_split|lia..].
Qed.

(** Karatsuba's recursion ends, and multiplies. *)
Lemma mul_fuel_spec fuel : ∀ a b, limbs_ok a → limbs_ok b → len a < MAX_LIMBS → len b < MAX_LIMBS → (length a `max` length b < fuel)%nat →
  ∃ c, mul_fuel fuel a b = Ret c ∧ limbs_ok c ∧ value c = value a * value b ∧ (length c ≤ (length a + length b) `max` 1)%nat.
Proof.
  induction fuel as [|fuel IH]; intros a b Ha Hb Hsa Hsb Hf; [lia|]. cbn [mul_fuel].
  destruct ((_ <? KARATSUBA_THRESHOLD)%nat || _ || _) eqn:Et; [by apply mul_schoolbook_spec|].
  apply orb_false_iff in Et as [[Hn Ha2]%orb_false_iff Hb2]. apply Nat.ltb_ge in Hn, Ha2, Hb2. unfold KARATSUBA_THRESHOLD in Hn.
  set (n := (length a `max` length b)%nat) in *. set (split := ((n + 1) / 2)%nat).
  assert (n ≤ 2 * split ≤ n + 1)%nat as Hsp by (pose proof (Nat.div_mod_eq (n + 1) 2); pose proof (Nat.mod_upper_bound (n + 1) 2 ltac:(done)); unfold split; lia).
  destruct (halves a split Ha ltac:(lia)) as (Oal & Oah & Lal & Lah & Ea & Bal & Bah), (halves b split Hb ltac:(lia)) as (Obl & Obh & Lbl & Lbh & Eb & Bbl & Bbh).
  cbv zeta. set (al := from_limbs (take split a)) in *. set (ah := from_limbs (drop split a)) in *. set (bl := from_limbs (take split b)) in *. set (bh := from_limbs (drop split b)) in *.
  destruct (add_spec al ah Oal Oah) as [Osa Vsa], (add_spec bl bh Obl Obh) as [Osb Vsb].
  pose proof (add_length al ah (S split) Oal Oah ltac:(rewrite weight_S; lia)) as Lsa. pose proof (add_length bl bh (S split) Obl Obh ltac:(rewrite weight_S; lia)) as Lsb.
  unfold len in *. destruct (IH al bl) as (z0 & -> & O0 & V0 & _); [done|done|lia..|]. destruct (IH ah bh) as (z2 & -> & O2 & V2 & _); [done|done|lia..|].
  destruct (IH (add al ah) (add bl bh)) as (z1 & -> & O1 & V1 & _); [done|done|lia..|]. cbn [outcome_bind].
  destruct (sub_spec z1 z0 O1 O0) as [O10 V10]; [nia|]. destruct (sub_spec _ z2 O10 O2) as [O12 V12]; [nia|].
  destruct (shl_limbs_spec _ split O12) as [Os1 Vs1], (shl_limbs_spec z2 (2 * split) O2) as [Os2 Vs2].
  destruct (add_spec z0 _ O0 Os1) as [Oa Va]. destruct (add_spec _ _ Oa Os2) as [Ob Vb]. eexists. split; [done|]. split; [done|].
  assert (value (add (add z0 (shl_limbs (sub (sub z1 z0) z2) split)) (shl_limbs z2 (2 * split))) = value a * value b) as E.
  { rewrite Vb, Va, Vs1, Vs2, V12, V10, V1, V0, V2, Vsa, Vsb, Ea, Eb. replace (2 * split)%nat with (split + split)%nat by lia. rewrite weight_add. ring. }
  split; [done|]. apply add_length; [done|done|]. rewrite <-Vb, E. pose proof (value_bounds a Ha). pose proof (value_bounds b Hb). rewrite weight_add. apply Z.mul_lt_mono_nonneg; lia.
Qed.

Lemma mul_spec a b : limbs_ok a → limbs_ok b → len a < MAX_LIMBS → len b < MAX_LIMBS →
  ∃ c, mul a b = Ret c ∧ limbs_ok c ∧ value c = value a * value b ∧ (length c ≤ (length a + length b) `max` 1)%nat.
Proof. intros. apply mul_fuel_spec; [done..|lia]. Qed.

(** ** Bits *)

Lemma shl1_loop_spec a : ∀ carry, limbs_ok a → 0 ≤ carry ≤ 1 → limbs_ok (shl1_loop a carry) ∧ value (shl1_loop a carry) = 2 * value a + carry.
Proof.
  induction a as [|x a IH]; intros carry Ha Hc; cbn [shl1_loop value].
  - split; [apply Forall_singleton; unfold is_u32; lia|lia].
  - apply Forall_cons in Ha as [Hx Ha]. unfold is_u32 in Hx. rewrite Z.shiftl_mul_pow2, Z.shiftr_div_pow2 by lia. change (2 ^ 1) with 2. change (2 ^ 31) with 2147483648.
    pose proof (Z.div_mod x 2147483648 ltac:(lia)). pose proof (Z.mod_pos_bound x 2147483648 ltac:(lia)).
    assert (0 ≤ x / 2147483648 ≤ 1) as Hd by lia. destruct (IH _ Ha Hd) as [Hok ->].
    assert (as_u32 (x * 2) = 2 * (x `mod` 2147483648)) as -> by (unfold as_u32; change 4294967296 with (2 * 2147483648); by rewrite (Z.mul_comm x 2), Z.mul_mod_distr_l by lia).
    rewrite (lor_add_disjoint _ carry 1); [|lia|change (2 ^ 1) with 2; lia|change (2 ^ 1) with 2; rewrite Z.mul_comm; apply Z.mod_mul; lia].
    split; [|lia]. apply Forall_cons. split; [unfold is_u32; lia|done].
Qed.

Lemma shl1_spec a : limbs_ok a → limbs_ok (shl1 a) ∧ value (shl1 a) = 2 * value a ∧ shl1 a ≠ [].
Proof.
  intros Ha. unfold shl1. destruct (shl1_loop_spec a 0 Ha ltac:(lia)) as [Hok E]. rewrite value_trim. split_and!; [by apply trim_ok|lia|].
  apply trim_nonempty. by destruct a.
Qed.

Lemma land_shiftl_1 x i : 0 ≤ i → negb (Z.land x (Z.shiftl 1 i) =? 0) = Z.testbit x i.
Proof.
  intros Hi. rewrite Z.shiftl_1_l. destruct (Z.testbit x i) eqn:E.
  - apply negb_true_iff, Z.eqb_neq. intros H. apply (f_equal (λ z, Z.testbit z i)) in H. rewrite Z.land_spec, E, Z.pow2_bits_true, Z.bits_0 in H by done. done.
  - apply negb_false_iff, Z.eqb_eq. apply Z.bits_inj_0. intros j. rewrite Z.land_spec, Z.pow2_bits_eqb by done. destruct (Z.eqb_spec i j) as [->|]; [by rewrite E|apply andb_false_r].
Qed.

Lemma bit_spec a i : limbs_ok a → bit a i = Z.testbit (value a) (Z.of_nat i).
Proof.
  intros Ha. unfold bit. rewrite land_shiftl_1 by lia. rewrite limb_digit by done. rewrite weight_pow. change 4294967296 with (2 ^ 32).
  pose proof (Nat.div_mod_eq i 32) as Hd. pose proof (Nat.mod_upper_bound i 32 ltac:(done)).
  rewrite Z.mod_pow2_bits_low, Z.div_pow2_bits by lia. f_equal. lia.
Qed.

Lemma bit_len_bound a : limbs_ok a → 0 ≤ value a < 2 ^ Z.of_nat (bit_len a).
Proof.
  intros Ha. pose proof (value_bounds a Ha) as H0. unfold bit_len. pose proof (rfind_value a) as H. destruct (rfind _ _) as [i|].
  - destruct H as [Hi Hv]. rewrite Hv in *. pose proof (limb_ok a i Ha). pose proof (take_value_bounds i a Ha).
    unfold leading_zeros. rewrite (proj2 (Z.eqb_neq _ 0)) by done. pose proof (Z.log2_nonneg (limb a i)) as Hg0.
    assert (Z.log2 (limb a i) < 32) as Hg by (apply Z.log2_lt_pow2; [lia|]; change (2 ^ 32) with 4294967296; lia).
    replace (Z.of_nat _) with (32 * Z.of_nat i + Z.succ (Z.log2 (limb a i))) by lia. rewrite Z.pow_add_r, <-weight_pow by lia.
    pose proof (Z.log2_spec (limb a i) ltac:(lia)). pose proof (weight_pos i). nia.
  - rewrite H. cbn. lia.
Qed.

Lemma testbit_div v i : 0 ≤ i → v / 2 ^ i = 2 * (v / 2 ^ (i + 1)) + Z.b2z (Z.testbit v i).
Proof.
  intros Hi. rewrite Z.pow_add_r, <-Z.div_div by (try apply Z.pow_pos_nonneg; lia). change (2 ^ 1) with 2.
  pose proof (Z.div_mod (v / 2 ^ i) 2 ltac:(lia)) as Hd.
  rewrite <-Z.bit0_mod in Hd. rewrite Z.div_pow2_bits, Z.add_0_l in Hd by lia. lia.
Qed.

(** ** Division *)

Lemma set_low_bit_spec r : limbs_ok r → r ≠ [] → Z.even (value r) = true → limbs_ok (set_low_bit r) ∧ value (set_low_bit r) = value r + 1.
Proof.
  intros Hr Hne He. destruct r as [|x r]; [done|]. cbn [set_low_bit value] in *. apply Forall_cons in Hr as [Hx Hr]. unfold is_u32 in Hx.
  rewrite Z.even_add, Z.even_mul in He. cbn [Z.even] in He. assert (Z.even x = true) as Hex by (by destruct (Z.even x)).
  apply Zeven_bool_iff, Zeven_ex in Hex as [m ->]. rewrite (lor_add_disjoint _ 1 1); [|lia|done|change (2 ^ 1) with 2; rewrite Z.mul_comm; apply Z.mod_mul; lia].
  split; [|lia]. apply Forall_cons. split; [unfold is_u32; lia|done].
Qed.

(** Setting a bit of the quotient below those that are set. *)
Lemma set_quotient_bit q i Q : limbs_ok q → (i < 32 * length q)%nat → value q = 2 ^ (Z.of_nat i + 1) * Q → 0 ≤ Q →
  ∃ q', (x <-! index q (Z.of_nat (i / 32)); store q (Z.of_nat (i / 32)) (Z.lor x (Z.shiftl 1 (Z.of_nat (i mod 32))))) = Ret q' ∧
    limbs_ok q' ∧ length q' = length q ∧ value q' = 2 ^ Z.of_nat i * (2 * Q + 1).
Proof.
  intros Hq Hi Hv HQ. pose proof (Nat.div_mod_eq i 32) as Hd. pose proof (Nat.mod_upper_bound i 32 ltac:(done)) as Hm.
  set (w := (i / 32)%nat) in *. set (b := (i mod 32)%nat) in *. assert (w < length q)%nat as Hw by lia.
  rewrite limb_index by done. cbn [outcome_bind]. rewrite store_ok by (unfold len; lia). rewrite Nat2Z.id. eexists. split; [done|].
  assert (0 < 2 ^ Z.of_nat b) as Hpb by (apply Z.pow_pos_nonneg; lia).
  assert (2 ^ (Z.of_nat b + 1) = 2 * 2 ^ Z.of_nat b) as Hpb1 by (rewrite Z.pow_add_r by lia; lia).
  assert (limb q w = 2 ^ (Z.of_nat b + 1) * (Q `mod` 2 ^ (31 - Z.of_nat b))) as El.
  { rewrite limb_digit, Hv, weight_pow by done. replace (Z.of_nat i + 1) with (32 * Z.of_nat w + (Z.of_nat b + 1)) by lia. rewrite Z.pow_add_r, <-Z.mul_assoc, (Z.mul_comm (2 ^ (32 * _))), Z.div_mul by (try apply Z.pow_nonzero; lia).
    assert (4294967296 = 2 ^ (Z.of_nat b + 1) * 2 ^ (31 - Z.of_nat b)) as -> by (rewrite <-Z.pow_add_r by lia; replace (Z.of_nat b + 1 + (31 - Z.of_nat b)) with 32 by lia; done).
    by rewrite Z.mul_mod_distr_l by (apply Z.pow_nonzero; lia). }
  assert (Z.lor (limb q w) (Z.shiftl 1 (Z.of_nat b)) = limb q w + 2 ^ Z.of_nat b) as Elor.
  { rewrite Z.shiftl_1_l. apply (lor_add_disjoint _ _ (Z.of_nat b + 1)); [lia|lia|]. rewrite El, Z.mul_comm. apply Z.mod_mul. lia. }
  rewrite Elor. pose proof (limb_ok q w Hq) as Hl. split_and!.
  - apply insert_ok; [done|]. unfold is_u32. split; [lia|].
    assert (Q `mod` 2 ^ (31 - Z.of_nat b) ≤ 2 ^ (31 - Z.of_nat b) - 1) as Hmod by (pose proof (Z.mod_pos_bound Q (2 ^ (31 - Z.of_nat b)) ltac:(apply Z.pow_pos_nonneg; lia)); lia).
    assert (2 ^ (Z.of_nat b + 1) * 2 ^ (31 - Z.of_nat b) = 4294967296) as Hpp by (rewrite <-Z.pow_add_r by lia; replace (Z.of_nat b + 1 + (31 - Z.of_nat b)) with 32 by lia; done).
    rewrite El. nia.
  - apply length_insert.
  - rewrite value_insert by done. rewrite Hv. replace (limb q w + 2 ^ Z.of_nat b - limb q w) with (2 ^ Z.of_nat b) by lia.
    rewrite weight_pow, <-Z.pow_add_r by lia. replace (32 * Z.of_nat w + Z.of_nat b) with (Z.of_nat i) by lia. rewrite Z.pow_add_r by lia. ring.
Qed.

Lemma divmod_loop_spec a d i : limbs_ok a → limbs_ok d → 0 < value d → ∀ q r Q, limbs_ok q → limbs_ok r → (i ≤ 32 * length q)%nat →
  0 ≤ value r < value d → 0 ≤ Q → value q = 2 ^ Z.of_nat i * Q → value a / 2 ^ Z.of_nat i = Q * value d + value r →
  ∃ q' r', divmod_loop i a d q r = Ret (q', r') ∧ limbs_ok q' ∧ limbs_ok r' ∧ value a = value q' * value d + value r' ∧ 0 ≤ value r' < value d.
Proof.
  intros Ha Hd Hd0. induction i as [|i IH]; intros q r Q Hq Hr Hi Hrd HQ Eq Ea.
  - exists q, r. change (Z.of_nat 0) with 0 in *. rewrite Z.pow_0_r, Z.div_1_r in *. split_and!; [done..|nia|lia|lia].
  - cbn [divmod_loop]. rewrite Nat2Z.inj_succ, <-Z.add_1_r in *. destruct (shl1_spec r Hr) as (Or & Vr & Nr). rewrite bit_spec by done.
    set (b := Z.testbit (value a) (Z.of_nat i)) in *. set (r1 := if b then set_low_bit (shl1 r) else shl1 r).
    assert (limbs_ok r1 ∧ value r1 = 2 * value r + Z.b2z b) as [O1 V1].
    { unfold r1. destruct b; [|cbn [Z.b2z]; split; [done|lia]]. destruct (set_low_bit_spec (shl1 r) Or Nr) as [O2 V2]; [rewrite Vr; apply Z.even_mul|]. split; [done|]. cbn [Z.b2z]. lia. }
    pose proof (testbit_div (value a) (Z.of_nat i) ltac:(lia)) as Et. fold b in Et. rewrite cmp_spec by done.
    assert (value a / 2 ^ Z.of_nat i = 2 * Q * value d + value r1) as Ea1 by (rewrite Et, V1, Ea; ring).
    assert (value q = 2 ^ Z.of_nat i * (2 * Q)) as Eq1 by (rewrite Eq, Z.pow_add_r by lia; ring).
    assert (0 ≤ value r1 < 2 * value d) as B1 by (destruct b; cbn [Z.b2z] in V1; lia).
    assert (value d ≤ value r1 → ∃ q' r',
      (x <-! index q (Z.of_nat (i / 32)); q0 <-! store q (Z.of_nat (i / 32)) (Z.lor x (Z.shiftl 1 (Z.of_nat (i mod 32)))); divmod_loop i a d q0 (sub r1 d)) = Ret (q', r') ∧
      limbs_ok q' ∧ limbs_ok r' ∧ value a = value q' * value d + value r' ∧ 0 ≤ value r' < value d) as Hge.
    { intros Hle. destruct (sub_spec r1 d O1 Hd Hle) as [Os Vs]. destruct (set_quotient_bit q i Q Hq ltac:(lia) Eq HQ) as (q0 & E0 & Oq & Lq & Vq).
      destruct (index q _) as [x|]; [|done]. cbn [outcome_bind] in *. rewrite E0. cbn [outcome_bind].
      apply (IH _ _ (2 * Q + 1)); [done|done|rewrite Lq; lia|lia|lia|done|]. rewrite Ea1, Vs. ring. }
    destruct (Z.compare_spec (value r1) (value d)) as [E|E|E]; [apply Hge; lia| |apply Hge; lia].
    apply (IH _ _ (2 * Q)); [done|done|lia|lia|lia|done|done].
Qed.

Lemma divmod_spec a d : limbs_ok a → limbs_ok d → 0 < value d →
  ∃ q r, divmod a d = Ret (q, r) ∧ limbs_ok q ∧ limbs_ok r ∧ value q = value a / value d ∧ value r = value a `mod` value d ∧ (length r ≤ length d `max` 1)%nat.
Proof.
  intros Ha Hd Hd0. unfold divmod. rewrite is_zero_spec, (proj2 (Z.eqb_neq _ 0)) by (done || lia).
  set (n := ((bit_len a + 31) / 32 + 1)%nat). assert (bit_len a ≤ 32 * n)%nat as Hn by (pose proof (Nat.div_mod_eq (bit_len a + 31) 32); pose proof (Nat.mod_upper_bound (bit_len a + 31) 32 ltac:(done)); unfold n; lia).
  destruct (divmod_loop_spec a d (bit_len a) Ha Hd Hd0 (replicate n 0) zero 0) as (q & r & -> & Oq & Or & E & Hr).
  - apply zeros_ok.
  - apply Forall_singleton. unfold is_u32. lia.
  - by rewrite length_replicate.
  - cbn. lia.
  - lia.
  - rewrite value_zeros. lia.
  - rewrite Z.div_small by (by apply bit_len_bound). done.
  - cbn [outcome_bind fst snd]. exists (trim q), (trim r). rewrite !value_trim. split_and!; [done|by apply trim_ok|by apply trim_ok| | |].
    + apply Z.div_unique with (value r); lia.
    + apply Z.mod_unique with (value q); lia.
    + apply trim_length; [done|]. pose proof (value_bounds d Hd). lia.
Qed.

Lemma modulo_spec a d : limbs_ok a → limbs_ok d → 0 < value d →
  ∃ r, modulo a d = Ret r ∧ limbs_ok r ∧ value r = value a `mod` value d ∧ (length r ≤ length d `max` 1)%nat.
Proof. intros Ha Hd H0. unfold modulo. destruct (divmod_spec a d Ha Hd H0) as (q & r & -> & _ & Hr & _ & Vr & Lr). by exists r. Qed.

(** ** Powers *)

Lemma mod_pow_loop_spec e m n : ∀ i result base, limbs_ok e → limbs_ok m → 1 < value m → len m + len m < MAX_LIMBS →
  limbs_ok result → limbs_ok base → (length result ≤ length m `max` 1)%nat → (length base ≤ length m `max` 1)%nat → value result < value m →
  value e < 2 ^ Z.of_nat (i + n) →
  ∃ p, mod_pow_loop n i e m result base = Ret p ∧ limbs_ok p ∧ (length p ≤ length m `max` 1)%nat ∧
    value p = (value result * value base ^ (value e / 2 ^ Z.of_nat i)) `mod` value m.
Proof.
  induction n as [|n IH]; intros i result base He Hm Hm1 Hs Hr Hb Lr Lb Hrm Hv.
  - exists result. split_and!; [done|done|done|]. rewrite Nat.add_0_r in Hv. pose proof (value_bounds e He). rewrite (Z.div_small (value e)) by lia.
    pose proof (value_bounds result Hr). rewrite Z.pow_0_r, Z.mul_1_r, Z.mod_small; lia.
  - cbn [mod_pow_loop]. rewrite bit_spec by done. unfold len in Hs.
    assert (∃ r1, (if Z.testbit (value e) (Z.of_nat i) then p <-! mul result base; modulo p m else Ret result) = Ret r1 ∧ limbs_ok r1 ∧ (length r1 ≤ length m `max` 1)%nat ∧
      value r1 = (value result * value base ^ Z.b2z (Z.testbit (value e) (Z.of_nat i))) `mod` value m) as (r1 & -> & O1 & L1 & V1).
    { pose proof (value_bounds result Hr). destruct (Z.testbit _ _); cbn [Z.b2z].
      - destruct (mul_spec result base Hr Hb) as (p & -> & Op & Vp & _); [unfold len, MAX_LIMBS in *; lia..|]. cbn [outcome_bind].
        destruct (modulo_spec p m Op Hm ltac:(lia)) as (r1 & -> & O1 & V1 & L1). exists r1. split_and!; [done..|]. by rewrite V1, Vp, Z.pow_1_r.
      - exists result. split_and!; [done..|]. rewrite Z.pow_0_r, Z.mul_1_r, Z.mod_small; lia. }
    cbn [outcome_bind]. destruct (mul_spec base base Hb Hb) as (sq & -> & Osq & Vsq & _); [unfold len, MAX_LIMBS in *; lia..|]. cbn [outcome_bind].
    destruct (modulo_spec sq m Osq Hm ltac:(lia)) as (b1 & -> & Ob1 & Vb1 & Lb1). cbn [outcome_bind].
    destruct (IH (S i) r1 b1 He Hm Hm1 Hs O1 Ob1 L1 Lb1) as (p & -> & Op & Lp & Vp).
    { rewrite V1. apply Z.mod_pos_bound. lia. }
    { by replace (S i + n)%nat with (i + S n)%nat by lia. }
    exists p. split_and!; [done..|]. rewrite Vp, V1, Vb1, Vsq. rewrite (testbit_div (value e) (Z.of_nat i)), Nat2Z.inj_succ, <-Z.add_1_r by lia.
    set (h := value e / 2 ^ (Z.of_nat i + 1)). assert (0 ≤ h) as Hh by (apply Z.div_pos; [apply value_bounds, He|apply Z.pow_pos_nonneg; lia]).
    set (c := Z.b2z _). assert (0 ≤ c) as Hc by (unfold c; destruct (Z.testbit _ _); cbn; lia).
    rewrite (Z.add_comm (2 * h)), Z.pow_add_r, Z.pow_mul_r by lia. rewrite Z.mul_assoc. rewrite Zmult_mod_idemp_l.
    rewrite (Z.mul_mod (value result * value base ^ c) _ (value m)), (Z.mul_mod (value result * value base ^ c) ((value base ^ 2) ^ h)) by lia.
    f_equal. f_equal. rewrite Z.mod_pow_l. by rewrite <-Z.pow_2_r.
Qed.

(** The power, whatever the modulus but zero, for which the assertion of [divmod] fails. *)
Lemma mod_pow_spec base e m : limbs_ok base → limbs_ok e → limbs_ok m → 0 < value m → len m + len m < MAX_LIMBS →
  ∃ p, mod_pow base e m = Ret p ∧ limbs_ok p ∧ value p = (value base ^ value e) `mod` value m.
Proof.
  intros Hb He Hm H0 Hs. unfold mod_pow. assert (limbs_ok one) as O1 by (apply Forall_singleton; unfold is_u32; lia). rewrite cmp_spec by done. change (value one) with 1.
  assert (1 < value m → ∃ p, (b <-! modulo base m; mod_pow_loop (bit_len e) 0 e m one b) = Ret p ∧ limbs_ok p ∧ value p = (value base ^ value e) `mod` value m) as G.
  { intros Hm1. destruct (modulo_spec base m Hb Hm H0) as (b & -> & Ob & Vb & Lb). cbn [outcome_bind].
    destruct (mod_pow_loop_spec e m (bit_len e) 0 one b) as (p & -> & Op & _ & Vp); [done|done|done|done|done|done|cbn; lia|done|change (value one) with 1; lia|apply bit_len_bound, He|].
    exists p. split_and!; [done..|]. rewrite Vp, Vb. change (value one) with 1. change (2 ^ Z.of_nat 0) with 1. rewrite Z.mul_1_l, Z.div_1_r. apply Z.mod_pow_l. }
  destruct (Z.compare_spec (value m) 1) as [E|E|E]; [|lia|by apply G].
  exists zero. split_and!; [done|apply Forall_singleton; unfold is_u32; lia|]. rewrite E, Z.mod_1_r. done.
Qed.

(** ** Bytes *)

(** The number whose bytes are [l], the lowest first. *)
Definition from_le_bytes (l : list Z) : Z := foldr (λ b v, b + 256 * v) 0 l.

Lemma from_le_reverse b : from_le_bytes (reverse b) = Bytes.from_be_bytes b.
Proof.
  induction b as [|x b IH] using rev_ind; [done|]. rewrite reverse_snoc, Bytes.from_be_bytes_app. cbn [from_le_bytes foldr]. fold (from_le_bytes (reverse b)). rewrite IH. lia.
Qed.

Lemma pow_256 i : 256 ^ Z.of_nat i = weight (i / 4) * 2 ^ Z.of_nat (i mod 4 * 8).
Proof.
  rewrite weight_pow, <-Z.pow_add_r by lia. change 256 with (2 ^ 8). rewrite <-Z.pow_mul_r by lia. f_equal. pose proof (Nat.div_mod_eq i 4). lia.
Qed.

Lemma from_bytes_loop l : ∀ i limbs, bytes_ok l → limbs_ok limbs → (i + length l ≤ 4 * length limbs)%nat → value limbs < 256 ^ Z.of_nat i →
  ∃ out, for_each (λ ib limbs, l <-! index limbs (Z.of_nat (ib.1 / 4)); store limbs (Z.of_nat (ib.1 / 4)) (Z.lor l (Z.shiftl ib.2 (Z.of_nat (ib.1 mod 4 * 8)))))
    (zip (seq i (length l)) l) limbs = Ret out ∧ limbs_ok out ∧ value out = value limbs + 256 ^ Z.of_nat i * from_le_bytes l.
Proof.
  induction l as [|b l IH]; intros i limbs Hl Hok Hi Hv; [exists limbs; split_and!; [done|done|cbn; lia]|].
  apply Forall_cons in Hl as [Hb Hl]. unfold is_u8 in Hb. cbn [length seq zip zip_with for_each fst snd] in *.
  pose proof (Nat.div_mod_eq i 4) as Hd. pose proof (Nat.mod_upper_bound i 4 ltac:(done)) as Hm. assert (i / 4 < length limbs)%nat as Hw by lia.
  rewrite limb_index by done. cbn [outcome_bind]. rewrite store_ok by (unfold len; lia). cbn [outcome_bind]. rewrite Nat2Z.id.
  pose proof (pow_256 i) as Hp. set (w := (i / 4)%nat) in *. set (c := Z.of_nat (i mod 4 * 8)) in *. assert (0 ≤ c ≤ 24) as Hc by (unfold c; lia).
  pose proof (value_bounds _ Hok) as H0. pose proof (weight_pos w) as Hwp.
  assert (0 ≤ limb limbs w < 2 ^ c) as Hlo.
  { rewrite limb_digit by done. rewrite Z.mod_small; [split; [apply Z.div_pos; lia|apply Z.div_lt_upper_bound; lia]|].
    assert (2 ^ c ≤ 2 ^ 24) by (apply Z.pow_le_mono_r; lia). change (2 ^ 24) with 16777216 in *.
    split; [apply Z.div_pos; lia|]. apply Z.div_lt_upper_bound; [lia|]. nia. }
  rewrite Z.lor_comm, lor_shift_add by lia. assert (2 ^ 8 * 2 ^ c ≤ 2 ^ 32) as H32 by (rewrite <-Z.pow_add_r by lia; apply Z.pow_le_mono_r; lia).
  change (2 ^ 8) with 256 in H32. change (2 ^ 32) with 4294967296 in H32.
  destruct (IH (S i) (<[w := b * 2 ^ c + limb limbs w]> limbs)) as (out & -> & Oo & Vo); [done| |rewrite length_insert; lia| |].
  - apply insert_ok; [done|]. unfold is_u32. nia.
  - rewrite value_insert by done. rewrite Nat2Z.inj_succ, Z.pow_succ_r by lia. rewrite Hp in *. nia.
  - exists out. split_and!; [done|done|]. rewrite Vo, value_insert by done. cbn [from_le_bytes foldr]. fold (from_le_bytes l).
    rewrite Nat2Z.inj_succ, Z.pow_succ_r, Hp by lia. ring.
Qed.

Lemma from_be_bytes_spec b : bytes_ok b → ∃ a, from_be_bytes b = Ret a ∧ limbs_ok a ∧ value a = Bytes.from_be_bytes b ∧ (length a ≤ ((length b + 3) / 4) `max` 1)%nat.
Proof.
  intros Hb. unfold from_be_bytes, enumerate. set (n := ((length b + 3) / 4)%nat).
  assert (length b ≤ 4 * n)%nat as Hn by (pose proof (Nat.div_mod_eq (length b + 3) 4); pose proof (Nat.mod_upper_bound (length b + 3) 4 ltac:(done)); unfold n; lia).
  assert (bytes_ok (reverse b)) as Hr by by apply Forall_reverse.
  destruct (from_bytes_loop (reverse b) 0 (replicate n 0) Hr (zeros_ok n)) as (out & -> & Oo & Vo).
  - by rewrite length_reverse, length_replicate.
  - rewrite value_zeros. done.
  - cbn [outcome_bind]. rewrite value_zeros, from_le_reverse in Vo. exists (trim out). rewrite value_trim. split_and!; [done|by apply trim_ok|cbn in Vo; lia|].
    apply trim_length; [done|]. cbn in Vo. pose proof (from_be_bytes_bound b Hb). rewrite Vo. unfold len in *.
    assert (256 ^ Z.of_nat (length b) ≤ weight n); [|lia]. unfold weight. change 4294967296 with (256 ^ 4). rewrite <-Z.pow_mul_r by lia. apply Z.pow_le_mono_r; lia.
Qed.

Lemma byte_of_limb a i : limbs_ok a → as_u8 (Z.land (Z.shiftr (limb a (i / 4)) (Z.of_nat (i mod 4 * 8))) 255) = (value a / 256 ^ Z.of_nat i) `mod` 256.
Proof.
  intros Ha. pose proof (Nat.mod_upper_bound i 4 ltac:(done)) as Hm. rewrite pow_256. set (c := Z.of_nat (i mod 4 * 8)) in *. assert (0 ≤ c ≤ 24) as Hc by (unfold c; lia).
  rewrite limb_digit, Z.shiftr_div_pow2 by (done || lia). change 255 with (2 ^ 8 - 1). rewrite land_low by lia. unfold as_u8. change 256 with (2 ^ 8).
  rewrite Z.mod_mod by done. rewrite <-Z.div_div by (try apply Z.pow_pos_nonneg; try lia; pose proof (weight_pos (i / 4)); lia).
  rewrite !div_pow_mod by lia. f_equal. apply Z.mod_mod_divide. change 4294967296 with (2 ^ 32). exists (2 ^ (32 - (c + 8))). rewrite <-Z.pow_add_r by lia. f_equal. lia.
Qed.

Lemma to_be_bytes_spec a n : limbs_ok a → to_be_bytes a n = Ret (Bytes.to_be_bytes n (value a)).
Proof.
  intros Ha. unfold to_be_bytes.
  assert (∀ i, (i ≤ n)%nat → for_each (λ i out, store out (Z.of_nat (n - 1 - i)) (as_u8 (Z.land (Z.shiftr (limb a (i / 4)) (Z.of_nat (i mod 4 * 8))) 255))) (seq 0 i) (replicate n 0)
    = Ret (replicate (n - i) 0 ++ Bytes.to_be_bytes i (value a))) as G; [|rewrite (G n) by done; by rewrite Nat.sub_diag].
  induction i as [|i IH]; intros Hi; [by rewrite Nat.sub_0_r, app_nil_r|]. rewrite seq_S, for_each_app, IH by lia. cbn [outcome_bind for_each Nat.add].
  rewrite store_ok by (unfold len; rewrite length_app, length_replicate; lia). cbn [outcome_bind]. rewrite Nat2Z.id, byte_of_limb by done. f_equal.
  replace (n - i)%nat with (n - S i + 1)%nat by lia. rewrite replicate_add. cbn [replicate]. rewrite <-app_assoc.
  replace (n - 1 - i)%nat with (length (replicate (n - S i) 0%Z) + 0)%nat by (rewrite length_replicate; lia). rewrite insert_app_r. done.
Qed.
