(* ===== verification/Montgomery.v ===== *)
(** * Montgomery: powers modulo an odd number

    [MontCtx], [mont_redc], [mont_mul] and [mod_pow_mont] of web-crypto/src/lib.rs, on the numbers
    of [BigUInt].  A loop [while carry > 0] that walks to the end of the vector is [add_carry] on
    what is left of it.  The sums of a row fit the [u64] or [u128] they are computed in.  With
    [R] for the weight of the limbs of the modulus, a product in Montgomery form is the product
    divided by [R]; congruences are those of the Standard Library's [eqm]. *)

From Stdlib Require Import Znumtheory Zpow_facts.
From S2P Require Import Prelude Bytes Bits Arrays BigUInt.

Local Open Scope Z_scope.
Local Open Scope cruft_scope.

(** ** Definitions *)

Record MontCtx := { p : list Z; k : nat; m_prime : Z; r_sq_mod_p : list Z }.

(** One step of Newton's iteration, on [u32]. *)
Definition newton (p0 x : Z) : Z := as_u32 (x * as_u32 (2 - as_u32 (p0 * x))).

Definition for_modulus (p : list Z) : outcome MontCtx :=
  match p with
  | [] => Panic
  | p0 :: _ =>
      if negb (Z.land p0 1 =? 1) then Panic
      else
        let k := length p in
        let x := Nat.iter 6 (newton p0) 1 in
        r <-! from_be_bytes (1 :: replicate (8 * k) 0);
        r_sq <-! modulo r p;
        Ret {| p := p; k := k; m_prime := as_u32 (0 - x); r_sq_mod_p := r_sq |}
  end.

(** Adding [acc] to the limbs from one on, until nothing is carried. *)
Fixpoint add_carry (t : list Z) (acc : Z) : list Z :=
  match t with
  | [] => []
  | x :: t' => if 0 <? acc then as_u32 (acc + x) :: add_carry t' (Z.shiftr (acc + x) 32) else t
  end.

Definition carry_from (t : list Z) (i : nat) (acc : Z) : list Z := take i t ++ add_carry (drop i t) acc.

(** [t[i + j] += f(j) * u] for the [n] limbs of a factor, and what is carried. *)
Definition mul_row (f : nat → outcome Z) (n : nat) (u : Z) (i : nat) (t : list Z) : outcome (list Z * Z) :=
  for_each (λ j tc,
      x <-! index tc.1 (Z.of_nat (i + j));
      y <-! f j;
      let acc := tc.2 + (x + y * u) in
      t <-! store tc.1 (Z.of_nat (i + j)) (as_u32 acc);
      Ret (t, Z.shiftr acc 32))
    (seq 0 n) (t, 0).

(** The same in the words of [mont_redc]: product, sum and carry are [u64]. *)
Definition redc_row (p_limbs : list Z) (n : nat) (u : Z) (i : nat) (t : list Z) : outcome (list Z * Z) :=
  for_each (λ j tc,
      pj <-! index p_limbs (Z.of_nat j);
      let prod := u * pj in
      x <-! index tc.1 (Z.of_nat (i + j));
      let sum := x + Z.land prod 4294967295 + Z.land tc.2 4294967295 in
      t <-! store tc.1 (Z.of_nat (i + j)) (as_u32 sum);
      Ret (t, Z.shiftr sum 32 + Z.shiftr prod 32 + Z.shiftr tc.2 32))
    (seq 0 n) (t, 0).

Definition quotient_digit (ti m_prime : Z) : Z := Z.land (wrap64 (ti * m_prime)) 4294967295.

Definition redc_turn (ctx : MontCtx) (i : nat) (t : list Z) : outcome (list Z) :=
  ti <-! index t (Z.of_nat i);
  let u := quotient_digit ti (m_prime ctx) in
  if u =? 0 then Ret t
  else
    tc <-! redc_row (p ctx) (k ctx) u i t;
    Ret (carry_from tc.1 (i + k ctx) tc.2).

(** The limbs from [k] on, less the modulus when they reach it. *)
Definition reduced (ctx : MontCtx) (t : list Z) : list Z :=
  let result := from_limbs (drop (k ctx) t) in
  match cmp result (p ctx) with Lt => result | _ => sub result (p ctx) end.

Definition mont_redc (t : list Z) (ctx : MontCtx) : outcome (list Z) :=
  t <-! for_each (redc_turn ctx) (seq 0 (k ctx)) (t ++ replicate (2 * k ctx + 1 - length t) 0);
  Ret (reduced ctx t).

Definition mul_turn (am bm : list Z) (ctx : MontCtx) (i : nat) (t : list Z) : outcome (list Z) :=
  tc <-! mul_row (λ j, Ret (limb am j)) (k ctx) (limb bm i) i t;
  let t := carry_from tc.1 (i + k ctx) tc.2 in
  ti <-! index t (Z.of_nat i);
  let u := quotient_digit ti (m_prime ctx) in
  tc <-! mul_row (λ j, index (p ctx) (Z.of_nat j)) (k ctx) u i t;
  Ret (carry_from tc.1 (i + k ctx) tc.2).

Definition mont_mul_cios_u128 (am bm : list Z) (ctx : MontCtx) : outcome (list Z) :=
  t <-! for_each (mul_turn am bm ctx) (seq 0 (k ctx)) (replicate (2 * k ctx + 2) 0);
  Ret (reduced ctx t).

Definition mont_mul (am bm : list Z) (ctx : MontCtx) : outcome (list Z) := mont_mul_cios_u128 am bm ctx.

Definition mont_to (a : list Z) (ctx : MontCtx) : outcome (list Z) := mont_mul a (r_sq_mod_p ctx) ctx.

Definition mont_from (am : list Z) (ctx : MontCtx) : outcome (list Z) := mont_redc am ctx.

(** The bits of [e] from [i] on, [n] of them. *)
Fixpoint mont_pow_loop (n i : nat) (e : list Z) (ctx : MontCtx) (result b : list Z) : outcome (list Z) :=
  match n with
  | O => Ret result
  | S n =>
      result <-! (if bit e i then mont_mul result b ctx else Ret result);
      b <-! mont_mul b b ctx;
      mont_pow_loop n (S i) e ctx result b
  end.

Definition mod_pow_mont (base e m : list Z) : outcome (list Z) :=
  ctx <-! for_modulus m;
  base <-! modulo base m;
  base_mont <-! mont_to base ctx;
  one_mont <-! mont_to one ctx;
  result <-! mont_pow_loop (bit_len e) 0 e ctx one_mont base_mont;
  mont_from result ctx.

(** ** Carries and rows *)

Lemma add_carry_spec t : ∀ acc, limbs_ok t → 0 ≤ acc → value t + acc < weight (length t) →
  limbs_ok (add_carry t acc) ∧ length (add_carry t acc) = length t ∧ value (add_carry t acc) = value t + acc.
Proof.
  induction t as [|x t IH]; intros acc Ht Ha Hv.
  - cbn [length value] in *. rewrite weight_0 in Hv. split_and!; [done|done|cbn; lia].
  - cbn [add_carry]. destruct (Z.ltb_spec 0 acc); [|split_and!; [done|done|lia]]. apply Forall_cons in Ht as [Hx Ht]. unfold is_u32 in Hx.
    cbn [value length] in *. rewrite weight_S in Hv. rewrite Z.shiftr_div_pow2 by lia. change (2 ^ 32) with 4294967296.
    pose proof (Z.div_mod (acc + x) 4294967296 ltac:(lia)). pose proof (Z.mod_pos_bound (acc + x) 4294967296 ltac:(lia)).
    destruct (IH ((acc + x) / 4294967296) Ht) as (Ho & Hl & E); [apply Z.div_pos; lia|lia|]. unfold as_u32. split_and!; [|lia|lia].
    apply Forall_cons. split; [unfold is_u32; lia|done].
Qed.

Lemma carry_from_spec t i acc : limbs_ok t → (i ≤ length t)%nat → 0 ≤ acc → value t + weight i * acc < weight (length t) →
  limbs_ok (carry_from t i acc) ∧ length (carry_from t i acc) = length t ∧ value (carry_from t i acc) = value t + weight i * acc.
Proof.
  intros Ht Hi Ha Hv. unfold carry_from. pose proof (value_take_drop_split t i) as E. pose proof (take_value_bounds i t Ht). pose proof (weight_pos i).
  destruct (add_carry_spec (drop i t) acc) as (Ho & Hl & Ev); [by apply drop_ok|done| |].
  - rewrite length_drop. replace (length t) with (i + (length t - i))%nat in Hv by lia. rewrite weight_add in Hv. nia.
  - split_and!.
    + apply Forall_app. split; [by apply take_ok|done].
    + rewrite length_app, Hl, length_take, length_drop. lia.
    + rewrite value_app, length_take, Ev. replace (i `min` length t)%nat with i by lia. lia.
Qed.

(** A row adds a multiple of what it has read of the factor. *)
Definition row_state (F : list Z) (u : Z) (i : nat) (t : list Z) (j : nat) (tc : list Z * Z) : Prop :=
  limbs_ok tc.1 ∧ length tc.1 = length t ∧ 0 ≤ tc.2 ≤ 8589934592 ∧
  value tc.1 + weight (i + j) * tc.2 = value t + u * weight i * value (take j F).

Lemma row_state_0 F u i t : limbs_ok t → row_state F u i t 0 (t, 0).
Proof. intros Ht. unfold row_state. cbn [fst snd]. rewrite take_0. cbn [value]. split_and!; [done|done|lia|lia|lia]. Qed.

(** A step leaves [lo] in place [i + j] and carries [hi]. *)
Lemma row_step F u i t j tc lo hi : row_state F u i t j tc → (i + j < length t)%nat → 0 ≤ lo < 4294967296 → 0 ≤ hi ≤ 8589934592 →
  lo + 4294967296 * hi = limb tc.1 (i + j) + limb F j * u + tc.2 → row_state F u i t (S j) (<[i + j := lo]> tc.1, hi)%nat.
Proof.
  intros (Ho & Hl & Hc & Hv) Hj Hlo Hhi E. unfold row_state. cbn [fst snd]. split_and!; [by apply insert_ok|by rewrite length_insert|lia|lia|].
  rewrite value_insert, value_take, Nat.add_succ_r, weight_S, weight_add in * by lia.
  transitivity (value tc.1 + weight i * weight j * tc.2 + u * weight i * (weight j * limb F j)); [|rewrite Hv; ring].
  replace (limb tc.1 (i + j)) with (lo + 4294967296 * hi - limb F j * u - tc.2) by lia. ring.
Qed.

Lemma mul_row_spec f F n u i t : limbs_ok F → limbs_ok t → 0 ≤ u < 4294967296 → (i + n ≤ length t)%nat → (∀ j, (j < n)%nat → f j = Ret (limb F j)) →
  ∃ tc, mul_row f n u i t = Ret tc ∧ row_state F u i t n tc.
Proof.
  intros HF Ht Hu Hl Hf. unfold mul_row. assert (∀ m, (m ≤ n)%nat → ∃ tc, for_each (λ j tc,
      x <-! index tc.1 (Z.of_nat (i + j)); y <-! f j; let acc := tc.2 + (x + y * u) in
      t <-! store tc.1 (Z.of_nat (i + j)) (as_u32 acc); Ret (t, Z.shiftr acc 32)) (seq 0 m) (t, 0) = Ret tc ∧ row_state F u i t m tc) as G; [|by apply G].
  induction m as [|m IH]; intros Hm; [exists (t, 0); split; [done|by apply row_state_0]|].
  destruct (IH ltac:(lia)) as (tc & E & Hs). rewrite seq_S, for_each_app, E. cbn [outcome_bind for_each Nat.add]. pose proof Hs as (Ho & Hlt & Hc & Hv).
  rewrite limb_index, Hf by lia. cbn [outcome_bind]. rewrite store_ok by (unfold len; lia). cbn [outcome_bind]. rewrite Nat2Z.id. eexists. split; [done|].
  pose proof (limb_ok tc.1 (i + m) Ho). pose proof (limb_ok F m HF). set (acc := tc.2 + (limb tc.1 (i + m) + limb F m * u)).
  assert (0 ≤ limb F m * u ≤ 4294967295 * 4294967295) as Hp by (split; [apply Z.mul_nonneg_nonneg; lia|apply Z.mul_le_mono_nonneg; lia]).
  rewrite Z.shiftr_div_pow2 by lia. change (2 ^ 32) with 4294967296. pose proof (Z.div_mod acc 4294967296 ltac:(lia)). pose proof (Z.mod_pos_bound acc 4294967296 ltac:(lia)).
  apply row_step; [done|lia|unfold as_u32; lia| |unfold as_u32; lia]. split; [apply Z.div_pos; lia|apply Z.div_le_upper_bound; lia].
Qed.

Lemma redc_row_spec F u i t : limbs_ok F → limbs_ok t → 0 ≤ u < 4294967296 → (i + length F ≤ length t)%nat →
  ∃ tc, redc_row F (length F) u i t = Ret tc ∧ row_state F u i t (length F) tc.
Proof.
  intros HF Ht Hu Hl. unfold redc_row. assert (∀ m, (m ≤ length F)%nat → ∃ tc, for_each (λ j tc,
      pj <-! index F (Z.of_nat j); let prod := u * pj in x <-! index tc.1 (Z.of_nat (i + j));
      let sum := x + Z.land prod 4294967295 + Z.land tc.2 4294967295 in
      t <-! store tc.1 (Z.of_nat (i + j)) (as_u32 sum); Ret (t, Z.shiftr sum 32 + Z.shiftr prod 32 + Z.shiftr tc.2 32)) (seq 0 m) (t, 0) = Ret tc ∧ row_state F u i t m tc) as G; [|by apply G].
  induction m as [|m IH]; intros Hm; [exists (t, 0); split; [done|by apply row_state_0]|].
  destruct (IH ltac:(lia)) as (tc & E & Hs). rewrite seq_S, for_each_app, E. cbn [outcome_bind for_each Nat.add]. pose proof Hs as (Ho & Hlt & Hc & Hv).
  rewrite !limb_index by lia. cbn [outcome_bind]. rewrite store_ok by (unfold len; lia). cbn [outcome_bind]. rewrite Nat2Z.id. eexists. split; [done|].
  pose proof (limb_ok tc.1 (i + m) Ho). pose proof (limb_ok F m HF). set (prod := u * limb F m).
  assert (0 ≤ prod ≤ 4294967295 * 4294967295) as Hp by (unfold prod; split; [apply Z.mul_nonneg_nonneg; lia|apply Z.mul_le_mono_nonneg; lia]).
  change 4294967295 with (2 ^ 32 - 1) in *. rewrite !land_low, !Z.shiftr_div_pow2 by lia. change (2 ^ 32) with 4294967296 in *.
  set (sum := limb tc.1 (i + m) + prod `mod` 4294967296 + tc.2 `mod` 4294967296).
  pose proof (Z.div_mod sum 4294967296 ltac:(lia)). pose proof (Z.div_mod prod 4294967296 ltac:(lia)). pose proof (Z.div_mod tc.2 4294967296 ltac:(lia)).
  pose proof (Z.mod_pos_bound sum 4294967296 ltac:(lia)). pose proof (Z.mod_pos_bound prod 4294967296 ltac:(lia)). pose proof (Z.mod_pos_bound tc.2 4294967296 ltac:(lia)).
  apply row_step; [done|lia|unfold as_u32; lia|lia|unfold as_u32; unfold prod in *; lia].
Qed.

(** ** The context *)

Record ctx_ok (ctx : MontCtx) : Prop := {
  p_ok : limbs_ok (p ctx);
  p_pos : 0 < value (p ctx);
  p_odd : Z.odd (value (p ctx)) = true;
  k_eq : k ctx = length (p ctx);
  m_prime_eq : (limb (p ctx) 0 * m_prime ctx + 1) `mod` 4294967296 = 0;
  r_sq_ok : limbs_ok (r_sq_mod_p ctx);
  r_sq_eq : value (r_sq_mod_p ctx) = (weight (k ctx) * weight (k ctx)) `mod` value (p ctx);
}.

Lemma newton_step p0 x e : 0 ≤ e → 2 * e ≤ 32 → (2 ^ e | p0 * x - 1) → (2 ^ (2 * e) | p0 * newton p0 x - 1).
Proof.
  intros He He2 [q Hq]. unfold newton, as_u32.
  pose proof (Z.div_mod (p0 * x) 4294967296 ltac:(lia)) as D1. set (a := (p0 * x) `mod` 4294967296) in *.
  pose proof (Z.div_mod (2 - a) 4294967296 ltac:(lia)) as D2. set (b := (2 - a) `mod` 4294967296) in *.
  pose proof (Z.div_mod (x * b) 4294967296 ltac:(lia)) as D3. set (c := (x * b) `mod` 4294967296) in *.
  set (q1 := (p0 * x) / 4294967296) in *. set (q2 := (2 - a) / 4294967296) in *. set (q3 := (x * b) / 4294967296) in *.
  assert (4294967296 = 2 ^ (2 * e) * 2 ^ (32 - 2 * e)) as E32 by (rewrite <-Z.pow_add_r by lia; replace (2 * e + (32 - 2 * e)) with 32 by lia; done).
  assert (2 ^ (2 * e) = 2 ^ e * 2 ^ e) as Ee by (rewrite <-Z.pow_add_r by lia; f_equal; lia).
  assert (p0 * c - 1 = - (q * 2 ^ e) * (q * 2 ^ e) + 4294967296 * (p0 * x * (q1 - q2) - p0 * q3)) as ->.
  { replace c with (x * b - 4294967296 * q3) by lia. replace b with (2 - a - 4294967296 * q2) by lia. replace a with (p0 * x - 4294967296 * q1) by lia.
    assert (p0 * x = q * 2 ^ e + 1) as Hpx by lia.
    transitivity (p0 * x * (2 - p0 * x) - 1 + 4294967296 * (p0 * x * (q1 - q2) - p0 * q3)); [ring|]. rewrite Hpx. ring. }
  exists (- q * q + 2 ^ (32 - 2 * e) * (p0 * x * (q1 - q2) - p0 * q3)). rewrite E32, Ee. ring.
Qed.

Lemma newton_inverse p0 : Z.odd p0 = true → (4294967296 | p0 * Nat.iter 6 (newton p0) 1 - 1).
Proof.
  intros Ho. assert (2 ^ 1 | p0 * 1 - 1) as H1.
  { apply Zodd_bool_iff, Zodd_ex in Ho as [m ->]. exists m. change (2 ^ 1) with 2. lia. }
  apply newton_step in H1; [|lia|lia]. apply newton_step in H1; [|lia|lia]. apply newton_step in H1; [|lia|lia]. apply newton_step in H1; [|lia|lia]. apply newton_step in H1; [|lia|lia].
  change (2 ^ (2 * (2 * (2 * (2 * (2 * 1)))))) with 4294967296 in H1.
  assert ((2 ^ 16 | p0 * newton p0 (newton p0 (newton p0 (newton p0 (newton p0 1)))) - 1)) as H2 by (eapply Z.divide_trans; [|exact H1]; exists (2 ^ 16); done).
  apply newton_step in H2; [|lia|lia]. done.
Qed.

(** A modulus that is even or zero fails the assertion; any other gives a context. *)
Lemma for_modulus_spec m : limbs_ok m → len m < MAX_LIMBS →
  if Z.odd (value m) then ∃ ctx, for_modulus m = Ret ctx ∧ ctx_ok ctx ∧ p ctx = m else for_modulus m = Panic.
Proof.
  intros Hm Hs. unfold for_modulus. destruct m as [|p0 m]; [done|]. assert (Z.odd (value (p0 :: m)) = Z.odd p0) as Eo by (cbn [value]; rewrite Z.odd_add, Z.odd_mul; cbn; by rewrite xorb_false_r).
  assert (Z.land p0 1 = if Z.odd p0 then 1 else 0) as -> by (change 1 with (2 ^ 1 - 1) at 1; rewrite land_low by lia; change (2 ^ 1) with 2; rewrite Zmod_odd; done).
  rewrite Eo. destruct (Z.odd p0) eqn:Ep; [|done]. cbn [negb Z.eqb Pos.eqb]. set (l := length (p0 :: m)).
  assert (0 < value (p0 :: m)) as Hpos.
  { pose proof (value_bounds _ Hm). destruct (Z.eq_dec (value (p0 :: m)) 0) as [E|]; [|lia]. by rewrite E in Eo. }
  destruct (from_be_bytes_spec (1 :: replicate (8 * l) 0)) as (r & -> & Or & Vr & _).
  { apply Forall_cons. split; [unfold is_u8; lia|]. apply Forall_replicate. unfold is_u8. lia. }
  cbn [outcome_bind]. destruct (modulo_spec r (p0 :: m) Or Hm Hpos) as (rs & -> & Ors & Vrs & _). cbn [outcome_bind]. eexists. split; [done|]. split; [|done].
  constructor; cbn [p k m_prime r_sq_mod_p]; [done|done|by rewrite Eo|done| |done|].
  - change (limb (p0 :: m) 0) with p0. destruct (newton_inverse p0 Ep) as [q Hq]. set (x := Nat.iter 6 (newton p0) 1) in *.
    unfold as_u32. pose proof (Z.div_mod (0 - x) 4294967296 ltac:(lia)). set (q2 := (0 - x) / 4294967296) in *.
    replace (p0 * ((0 - x) `mod` 4294967296) + 1) with ((- q - p0 * q2) * 4294967296) by nia. apply Z.mod_mul. lia.
  - rewrite Vrs, Vr. f_equal. fold l. rewrite <-weight_add. unfold weight. change 4294967296 with (256 ^ 4). rewrite <-Z.pow_mul_r by lia.
    replace (4 * Z.of_nat (l + l)) with (Z.of_nat (8 * l)) by lia. generalize (8 * l)%nat. clear. intros n. unfold Bytes.from_be_bytes. cbn [foldl].
    assert (∀ v, foldl (λ acc b, acc * 256 + b) v (replicate n 0) = v * 256 ^ Z.of_nat n) as G.
    { induction n as [|n IH]; intros v; [cbn; lia|]. cbn [replicate foldl]. rewrite IH, Nat2Z.inj_succ, Z.pow_succ_r by lia. ring. }
    rewrite G. lia.
Qed.

(** ** Turns: one more limb is made zero *)

Lemma odd_inverse_digit ctx ti : ctx_ok ctx → 0 ≤ ti →
  let u := quotient_digit ti (m_prime ctx) in 0 ≤ u < 4294967296 ∧ (ti + u * limb (p ctx) 0) `mod` 4294967296 = 0.
Proof.
  intros Hc Hti. unfold quotient_digit, wrap64, u64_modulus. change 4294967295 with (2 ^ 32 - 1). rewrite land_low by lia. change (2 ^ 32) with 4294967296.
  rewrite Z.mod_mod_divide by (by exists 4294967296). cbv zeta. split; [apply Z.mod_pos_bound; lia|].
  rewrite Z.add_mod, Z.mul_mod_idemp_l, <-Z.add_mod by done. pose proof (m_prime_eq ctx Hc) as E. apply Z.mod_divide in E as [q Hq]; [|done].
  replace (ti + ti * m_prime ctx * limb (p ctx) 0) with (ti * q * 4294967296) by (replace (m_prime ctx * limb (p ctx) 0) with (q * 4294967296 - 1) by lia; nia). apply Z.mod_mul. done.
Qed.

Lemma value_low a : limbs_ok a → value a `mod` 4294967296 = limb a 0.
Proof. intros Ha. rewrite limb_digit by done. by rewrite weight_0, Z.div_1_r. Qed.

(** The quotient digit of a number that ends in [i] zeros makes one more. *)
Lemma one_more_zero ctx t i : ctx_ok ctx → limbs_ok t → (weight i | value t) →
  let u := quotient_digit (limb t i) (m_prime ctx) in 0 ≤ u < 4294967296 ∧ (weight (S i) | value t + u * weight i * value (p ctx)).
Proof.
  intros Hc Ht [V HV] u. pose proof (limb_ok t i Ht) as Hl. destruct (odd_inverse_digit ctx (limb t i) Hc ltac:(lia)) as [Hu E]. fold u in Hu, E. split; [done|].
  pose proof (weight_pos i) as Hw. rewrite limb_digit, HV, Z.div_mul in E by (done || lia).
  assert ((V + u * value (p ctx)) `mod` 4294967296 = 0) as E2.
  { rewrite <-(value_low (p ctx) (p_ok ctx Hc)) in E. rewrite Z.add_mod_idemp_l, <-Z.add_mod_idemp_r, Z.mul_mod_idemp_r, Z.add_mod_idemp_r in E by done. done. }
  apply Z.mod_divide in E2 as [q Hq]; [|done]. exists q. rewrite HV, weight_S. nia.
Qed.

(** What a turn gives: one more zero, by adding a multiple of the modulus. *)
Definition turned (ctx : MontCtx) (i : nat) (n : nat) (v : Z) (t' : list Z) : Prop :=
  limbs_ok t' ∧ length t' = n ∧ (weight (S i) | value t') ∧ ∃ u, 0 ≤ u < 4294967296 ∧ value t' = v + u * weight i * value (p ctx).

Lemma k_limbs ctx : ctx_ok ctx → (1 ≤ k ctx)%nat ∧ value (p ctx) < weight (k ctx).
Proof.
  intros Hc. pose proof (value_bounds _ (p_ok ctx Hc)). pose proof (p_pos ctx Hc). rewrite k_eq by done. split; [|lia].
  destruct (p ctx); [cbn in *; lia|cbn; lia].
Qed.

Lemma row_carried ctx F u i t tc : limbs_ok t → row_state F u i t (k ctx) tc → (i + k ctx ≤ length t)%nat →
  value t + u * weight i * value (take (k ctx) F) < weight (length t) →
  let t' := carry_from tc.1 (i + k ctx) tc.2 in limbs_ok t' ∧ length t' = length t ∧ value t' = value t + u * weight i * value (take (k ctx) F).
Proof.
  intros Ht (Ho & Hl & Hc & Hv) Hi Hb t'. destruct (carry_from_spec tc.1 (i + k ctx) tc.2 Ho) as (Ho2 & Hl2 & Hv2); [lia|lia|rewrite Hl; lia|].
  fold t' in Ho2, Hl2, Hv2. split_and!; [done|lia|lia].
Qed.

Lemma take_p ctx : ctx_ok ctx → take (k ctx) (p ctx) = p ctx.
Proof. intros Hc. rewrite k_eq by done. apply take_ge. done. Qed.

Lemma redc_turn_spec ctx i t : ctx_ok ctx → limbs_ok t → (i < k ctx)%nat → (2 * k ctx ≤ length t)%nat → (weight i | value t) →
  value t + weight (S i) * value (p ctx) ≤ weight (length t) →
  ∃ t', redc_turn ctx i t = Ret t' ∧ turned ctx i (length t) (value t) t'.
Proof.
  intros Hc Ht Hi Hl Hd Hb. destruct (one_more_zero ctx t i Hc Ht Hd) as [Hu Hz]. unfold redc_turn. rewrite limb_index by lia. cbn [outcome_bind].
  set (u := quotient_digit (limb t i) (m_prime ctx)) in *. pose proof (weight_pos i). pose proof (p_pos ctx Hc). rewrite weight_S in Hb.
  destruct (Z.eqb_spec u 0) as [E|E].
  - exists t. split; [done|]. rewrite E in Hz. replace (value t + 0 * weight i * value (p ctx)) with (value t) in Hz by ring. split_and!; [done..|]. exists 0. split; lia.
  - pose proof (k_eq ctx Hc) as Hk. destruct (redc_row_spec (p ctx) u i t) as (tc & Et & Hs); [apply Hc|done|done|lia|]. rewrite Hk, Et. cbn [outcome_bind]. rewrite <-Hk in *. eexists. split; [done|].
    destruct (row_carried ctx (p ctx) u i t tc) as (Ho & Hlen & Hv); [done|done|lia|rewrite take_p by done; nia|]. rewrite take_p in Hv by done.
    split_and!; [done|done|by rewrite Hv|]. by exists u.
Qed.

Lemma mul_turn_spec ctx am bm i t : ctx_ok ctx → limbs_ok am → limbs_ok bm → value am < weight (k ctx) → limbs_ok t → (i < k ctx)%nat → (2 * k ctx ≤ length t)%nat → (weight i | value t) →
  value t + weight (S i) * value am + weight (S i) * value (p ctx) ≤ weight (length t) →
  ∃ t', mul_turn am bm ctx i t = Ret t' ∧ turned ctx i (length t) (value t + limb bm i * weight i * value am) t'.
Proof.
  intros Hc Ha Hb Ham Ht Hi Hl Hd Hv. pose proof (weight_pos i). pose proof (p_pos ctx Hc). rewrite weight_S in Hv. pose proof (limb_ok bm i Hb). pose proof (value_bounds am Ha).
  assert (value (take (k ctx) am) = value am) as Eam.
  { pose proof (value_take_drop_split am (k ctx)). pose proof (take_value_bounds (k ctx) am Ha). pose proof (value_bounds _ (drop_ok (k ctx) am Ha)). assert (value (drop (k ctx) am) = 0) by nia. nia. }
  unfold mul_turn. destruct (mul_row_spec (λ j, Ret (limb am j)) am (k ctx) (limb bm i) i t) as (tc & -> & Hs); [done|done|done|lia|done|]. cbn [outcome_bind].
  destruct (row_carried ctx am (limb bm i) i t tc) as (Ho1 & Hl1 & Hv1); [done|done|lia|rewrite Eam; nia|]. set (t1 := carry_from tc.1 (i + k ctx) tc.2) in *. rewrite Eam in Hv1.
  assert ((weight i | value t1)) as Hd1 by (destruct Hd as [q Hq]; exists (q + limb bm i * value am); rewrite Hv1, Hq; ring).
  destruct (one_more_zero ctx t1 i Hc Ho1 Hd1) as [Hu Hz]. rewrite limb_index by lia. cbn [outcome_bind]. set (u := quotient_digit (limb t1 i) (m_prime ctx)) in *.
  destruct (mul_row_spec (λ j, index (p ctx) (Z.of_nat j)) (p ctx) (k ctx) u i t1) as (tc2 & -> & Hs2); [apply Hc|done|done|lia|intros j Hj; apply limb_index; rewrite <-k_eq by done; done|]. cbn [outcome_bind].
  eexists. split; [done|]. destruct (row_carried ctx (p ctx) u i t1 tc2) as (Ho & Hlen & Hv2); [done|done|lia|rewrite take_p by done; rewrite Hl1, Hv1; nia|]. rewrite take_p in Hv2 by done.
  split_and!; [done|lia|by rewrite Hv2|]. exists u. split; [done|]. by rewrite Hv2, Hv1.
Qed.

(** After [i] turns the number ends in [i] zeros and is [S i] and a multiple of the modulus. *)
Definition partial (ctx : MontCtx) (S : nat → Z) (n i : nat) (t : list Z) : Prop :=
  limbs_ok t ∧ length t = n ∧ (weight i | value t) ∧ ∃ U, 0 ≤ U < weight i ∧ value t = S i + U * value (p ctx).

Lemma turns ctx turn S n t : partial ctx S n 0 t →
  (∀ i t, (i < k ctx)%nat → partial ctx S n i t → ∃ t', turn i t = Ret t' ∧ turned ctx i n (value t + (S (i + 1)%nat - S i)) t') →
  ∃ t', for_each turn (seq 0 (k ctx)) t = Ret t' ∧ partial ctx S n (k ctx) t'.
Proof.
  intros H0 Hturn. assert (∀ m, (m ≤ k ctx)%nat → ∃ t', for_each turn (seq 0 m) t = Ret t' ∧ partial ctx S n m t') as G; [|by apply G].
  induction m as [|m IH]; intros Hm; [by exists t|]. destruct (IH ltac:(lia)) as (t1 & E & Hp). rewrite seq_S, for_each_app, E. cbn [outcome_bind for_each Nat.add].
  destruct (Hturn m t1 ltac:(lia) Hp) as (t2 & -> & Ho & Hl & Hd & u & Hu & Hv). cbn [outcome_bind]. exists t2. split; [done|]. split_and!; [done..|].
  destruct Hp as (_ & _ & _ & U & HU & EU). exists (U + u * weight m). pose proof (weight_pos m). rewrite weight_S. split; [nia|].
  rewrite Hv, EU. replace (m + 1)%nat with (Datatypes.S m) by lia. ring.
Qed.

Lemma reduced_spec ctx S n t : ctx_ok ctx → partial ctx S n (k ctx) t → 0 ≤ S (k ctx) < value (p ctx) * weight (k ctx) →
  limbs_ok (reduced ctx t) ∧ value (reduced ctx t) < value (p ctx) ∧ (length (reduced ctx t) ≤ k ctx)%nat ∧ eqm (value (p ctx)) (value (reduced ctx t) * weight (k ctx)) (S (k ctx)).
Proof.
  intros Hc (Ho & Hl & [V HV] & U & HU & EU) HS. destruct (k_limbs ctx Hc) as [Hk Hpw]. pose proof (weight_pos (k ctx)). pose proof (p_pos ctx Hc).
  assert (value (drop (k ctx) t) = V) as Ed.
  { pose proof (value_take_drop_split t (k ctx)). pose proof (take_value_bounds (k ctx) t Ho). nia. }
  assert (0 ≤ V < 2 * value (p ctx)) as HVb by nia. assert (eqm (value (p ctx)) (V * weight (k ctx)) (S (k ctx))) as Hm.
  { unfold eqm. rewrite <-HV, EU. rewrite Z.mod_add by lia. done. }
  unfold reduced. destruct (from_limbs_spec _ (drop_ok (k ctx) t Ho)) as [Of Vf]. rewrite Ed in Vf. rewrite cmp_spec by (done || apply Hc). rewrite Vf.
  assert (value (p ctx) ≤ V → limbs_ok (sub (from_limbs (drop (k ctx) t)) (p ctx)) ∧ value (sub (from_limbs (drop (k ctx) t)) (p ctx)) < value (p ctx) ∧
    (length (sub (from_limbs (drop (k ctx) t)) (p ctx)) ≤ k ctx)%nat ∧ eqm (value (p ctx)) (value (sub (from_limbs (drop (k ctx) t)) (p ctx)) * weight (k ctx)) (S (k ctx))) as Hge.
  { intros Hle. destruct (sub_spec (from_limbs (drop (k ctx) t)) (p ctx) Of) as [Os Vs]; [apply Hc|lia|]. rewrite Vs, Vf. split_and!; [done|lia| |].
    - etransitivity; [apply (trim_length _ (k ctx))|lia].
      + by destruct (sub_loop_spec (from_limbs (drop (k ctx) t)) (p ctx) (length (from_limbs (drop (k ctx) t))) 0 0 Of ltac:(apply Hc) ltac:(lia)) as (? & _).
      + rewrite <-value_trim. change (value (sub (from_limbs (drop (k ctx) t)) (p ctx)) < weight (k ctx)). lia.
    - etransitivity; [|exact Hm]. unfold eqm. replace ((V - value (p ctx)) * weight (k ctx)) with (V * weight (k ctx) + (- weight (k ctx)) * value (p ctx)) by ring. apply Z.mod_add. lia. }
  destruct (Z.compare_spec V (value (p ctx))) as [E|E|E]; [apply Hge; lia| |apply Hge; lia].
  rewrite Vf. split_and!; [done|done| |done]. etransitivity; [apply (trim_length _ (k ctx))|lia]; [by apply drop_ok|lia].
Qed.

Lemma mont_redc_spec ctx T : ctx_ok ctx → limbs_ok T → (length T ≤ 2 * k ctx + 1)%nat → value T < value (p ctx) * weight (k ctx) →
  ∃ z, mont_redc T ctx = Ret z ∧ limbs_ok z ∧ value z < value (p ctx) ∧ (length z ≤ k ctx)%nat ∧ eqm (value (p ctx)) (value z * weight (k ctx)) (value T).
Proof.
  intros Hc HT Hl Hv. unfold mont_redc. set (t0 := T ++ replicate _ 0). destruct (k_limbs ctx Hc) as [Hk Hpw]. pose proof (weight_pos (k ctx)). pose proof (p_pos ctx Hc). pose proof (value_bounds T HT).
  assert (value t0 = value T) as V0 by (unfold t0; rewrite value_app, value_zeros; lia).
  destruct (turns ctx (redc_turn ctx) (λ _, value T) (2 * k ctx + 1) t0) as (t & -> & Hp).
  - split_and!; [apply Forall_app; split; [done|apply zeros_ok]|unfold t0; rewrite length_app, length_replicate; lia|exists (value t0); rewrite weight_0; lia|]. exists 0. rewrite weight_0. lia.
  - intros i t Hi (Ho & Hlt & Hd & U & HU & EU). rewrite Z.sub_diag, Z.add_0_r, <-Hlt. apply redc_turn_spec; [done|done|done|lia|done|].
    assert (weight (S i) ≤ weight (k ctx)) by (apply weight_le; lia). pose proof (weight_pos i). rewrite weight_S in *.
    rewrite Hlt. replace (2 * k ctx + 1)%nat with (S (k ctx + k ctx)) by lia. rewrite weight_S, weight_add. nia.
  - cbn [outcome_bind]. exists (reduced ctx t). split; [done|]. apply (reduced_spec ctx (λ _, value T) (2 * k ctx + 1)); [done|done|lia].
Qed.

Lemma mont_mul_spec ctx am bm : ctx_ok ctx → limbs_ok am → limbs_ok bm → value am < weight (k ctx) → value bm < value (p ctx) →
  ∃ z, mont_mul am bm ctx = Ret z ∧ limbs_ok z ∧ value z < value (p ctx) ∧ (length z ≤ k ctx)%nat ∧ eqm (value (p ctx)) (value z * weight (k ctx)) (value am * value bm).
Proof.
  intros Hc Ha Hb Hav Hbv. unfold mont_mul, mont_mul_cios_u128. destruct (k_limbs ctx Hc) as [Hk Hpw]. pose proof (weight_pos (k ctx)). pose proof (p_pos ctx Hc).
  pose proof (value_bounds am Ha). pose proof (value_bounds bm Hb). set (S := λ i, value am * value (take i bm)).
  destruct (turns ctx (mul_turn am bm ctx) S (2 * k ctx + 2) (replicate (2 * k ctx + 2) 0)) as (t & -> & Hp).
  - split_and!; [apply zeros_ok|apply length_replicate|exists 0; rewrite value_zeros; lia|]. exists 0. rewrite value_zeros, weight_0. unfold S. rewrite take_0. cbn [value]. lia.
  - intros i t Hi (Ho & Hlt & Hd & U & HU & EU). rewrite Nat.add_1_r. unfold S. rewrite value_take.
    replace (value am * (value (take i bm) + weight i * limb bm i) - value am * value (take i bm)) with (limb bm i * weight i * value am) by ring.
    rewrite <-Hlt. apply mul_turn_spec; [done|done|done|lia|done|done|lia|done|].
    assert (weight (Datatypes.S i) ≤ weight (k ctx)) by (apply weight_le; lia). pose proof (weight_pos i). rewrite weight_S in *. pose proof (take_value_bounds i bm Hb).
    rewrite Hlt. replace (2 * k ctx + 2)%nat with (Datatypes.S (Datatypes.S (k ctx + k ctx))) by lia. rewrite !weight_S, weight_add. unfold S in EU.
    assert (value am * value (take i bm) ≤ weight (k ctx) * weight (k ctx)) by (apply Z.mul_le_mono_nonneg; lia).
    assert (U * value (p ctx) ≤ weight (k ctx) * weight (k ctx)) by (apply Z.mul_le_mono_nonneg; lia).
    assert (4294967296 * weight i * value am ≤ weight (k ctx) * weight (k ctx)) by (apply Z.mul_le_mono_nonneg; lia).
    assert (4294967296 * weight i * value (p ctx) ≤ weight (k ctx) * weight (k ctx)) by (apply Z.mul_le_mono_nonneg; lia). lia.
  - cbn [outcome_bind]. exists (reduced ctx t). split; [done|].
    assert (value (take (k ctx) bm) = value bm) as Eb.
    { pose proof (value_take_drop_split bm (k ctx)). pose proof (take_value_bounds (k ctx) bm Hb). pose proof (value_bounds _ (drop_ok (k ctx) bm Hb)). assert (value (drop (k ctx) bm) = 0) by nia. nia. }
    destruct (reduced_spec ctx S (2 * k ctx + 2) t Hc Hp) as (Oz & Vz & Lz & Ez); [unfold S; rewrite Eb; nia|]. unfold S in Ez. rewrite Eb in Ez. done.
Qed.

(** ** Montgomery form *)

Lemma weight_coprime ctx n : ctx_ok ctx → Z.gcd (weight n) (value (p ctx)) = 1.
Proof.
  intros Hc. apply Zgcd_1_rel_prime. apply rel_prime_sym. unfold weight. apply rel_prime_Zpower_r; [lia|]. change 4294967296 with (2 ^ 32). apply rel_prime_Zpower_r; [lia|].
  apply rel_prime_sym, prime_rel_prime; [apply prime_2|]. intros [q Hq]. pose proof (p_odd ctx Hc) as Ho. rewrite Hq, Z.odd_mul in Ho. cbn in Ho. by rewrite andb_false_r in Ho.
Qed.

Lemma cancel_weight ctx n x y : ctx_ok ctx → eqm (value (p ctx)) (x * weight n) (y * weight n) → eqm (value (p ctx)) x y.
Proof.
  intros Hc E. pose proof (p_pos ctx Hc). unfold eqm in *. apply Z.cong_iff_0 in E. apply Z.cong_iff_0.
  apply Z.mod_divide in E; [|lia]. apply Z.mod_divide; [lia|]. rewrite <-Z.mul_sub_distr_r in E. rewrite Z.mul_comm in E.
  apply (Z.gauss _ (weight n)); [done|]. rewrite Z.gcd_comm. by apply weight_coprime.
Qed.

(** [x] is [v] in Montgomery form. *)
Definition mont_form (ctx : MontCtx) (x : list Z) (v : Z) : Prop :=
  limbs_ok x ∧ value x < value (p ctx) ∧ (length x ≤ k ctx)%nat ∧ eqm (value (p ctx)) (value x) (v * weight (k ctx)).

Lemma mont_form_mul ctx x y v w : ctx_ok ctx → mont_form ctx x v → mont_form ctx y w → ∃ z, mont_mul x y ctx = Ret z ∧ mont_form ctx z (v * w).
Proof.
  intros Hc (Ox & Vx & Lx & Ex) (Oy & Vy & Ly & Ey). destruct (k_limbs ctx Hc) as [_ Hpw]. destruct (mont_mul_spec ctx x y Hc Ox Oy ltac:(lia) Vy) as (z & -> & Oz & Vz & Lz & Ez). exists z. split; [done|]. split_and!; [done..|].
  apply (cancel_weight ctx (k ctx)); [done|]. etransitivity; [exact Ez|]. etransitivity; [exact (Zmult_eqm _ _ _ Ex _ _ Ey)|]. unfold eqm. f_equal. ring.
Qed.

Lemma mont_to_spec ctx a : ctx_ok ctx → limbs_ok a → value a < weight (k ctx) → ∃ z, mont_to a ctx = Ret z ∧ mont_form ctx z (value a).
Proof.
  intros Hc Ha Hv. unfold mont_to. destruct (mont_mul_spec ctx a (r_sq_mod_p ctx) Hc Ha ltac:(apply Hc) Hv) as (z & -> & Oz & Vz & Lz & Ez).
  { rewrite r_sq_eq by done. apply Z.mod_pos_bound. apply Hc. }
  exists z. split; [done|]. split_and!; [done..|]. apply (cancel_weight ctx (k ctx)); [done|]. etransitivity; [exact Ez|]. rewrite r_sq_eq by done. unfold eqm. pose proof (p_pos ctx Hc).
  rewrite Z.mul_mod_idemp_r by lia. f_equal. ring.
Qed.

Lemma mont_from_spec ctx x v : ctx_ok ctx → mont_form ctx x v → ∃ z, mont_from x ctx = Ret z ∧ limbs_ok z ∧ value z = v `mod` value (p ctx).
Proof.
  intros Hc (Ox & Vx & Lx & Ex). destruct (k_limbs ctx Hc) as [Hk Hpw]. pose proof (p_pos ctx Hc). unfold mont_from.
  destruct (mont_redc_spec ctx x Hc Ox ltac:(lia)) as (z & -> & Oz & Vz & Lz & Ez); [pose proof (weight_pos (k ctx)); nia|]. exists z. split_and!; [done|done|].
  assert (eqm (value (p ctx)) (value z) v) as E by (apply (cancel_weight ctx (k ctx)); [done|]; by etransitivity). unfold eqm in E. rewrite <-E. symmetry. apply Z.mod_small. split; [by apply value_bounds|done].
Qed.

Lemma mont_pow_loop_spec ctx e n : ∀ i result b x v, ctx_ok ctx → limbs_ok e → mont_form ctx result v → mont_form ctx b x → value e < 2 ^ Z.of_nat (i + n) →
  ∃ z, mont_pow_loop n i e ctx result b = Ret z ∧ mont_form ctx z (v * x ^ (value e / 2 ^ Z.of_nat i)).
Proof.
  induction n as [|n IH]; intros i result b x v Hc He Hr Hb Hv.
  - exists result. split; [done|]. rewrite Nat.add_0_r in Hv. pose proof (value_bounds e He). rewrite Z.div_small, Z.pow_0_r, Z.mul_1_r by lia. done.
  - cbn [mont_pow_loop]. rewrite bit_spec by done.
    assert (∃ r, (if Z.testbit (value e) (Z.of_nat i) then mont_mul result b ctx else Ret result) = Ret r ∧ mont_form ctx r (v * x ^ Z.b2z (Z.testbit (value e) (Z.of_nat i)))) as (r & -> & Hr1).
    { destruct (Z.testbit _ _); cbn [Z.b2z]; [rewrite Z.pow_1_r; by apply mont_form_mul|]. exists result. by rewrite Z.pow_0_r, Z.mul_1_r. }
    cbn [outcome_bind]. destruct (mont_form_mul ctx b b x x Hc Hb Hb) as (b1 & -> & Hb1). cbn [outcome_bind].
    destruct (IH (S i) r b1 (x * x) _ Hc He Hr1 Hb1) as (z & -> & Hz); [by replace (S i + n)%nat with (i + S n)%nat by lia|]. exists z. split; [done|].
    assert (v * x ^ Z.b2z (Z.testbit (value e) (Z.of_nat i)) * (x * x) ^ (value e / 2 ^ Z.of_nat (S i)) = v * x ^ (value e / 2 ^ Z.of_nat i)) as <-; [|done].
    rewrite (testbit_div (value e) (Z.of_nat i)), Nat2Z.inj_succ, <-Z.add_1_r by lia. set (h := value e / 2 ^ (Z.of_nat i + 1)).
    assert (0 ≤ h) as Hh by (apply Z.div_pos; [apply value_bounds, He|apply Z.pow_pos_nonneg; lia]). set (c := Z.b2z _). assert (0 ≤ c) by (unfold c; destruct (Z.testbit _ _); cbn; lia).
    rewrite (Z.add_comm (2 * h)), Z.pow_add_r, Z.pow_mul_r by lia. rewrite <-Z.pow_2_r. ring.
Qed.

(** Powers modulo an odd number by way of Montgomery form are the powers; an even modulus fails
    the assertion of [for_modulus]. *)
Lemma mod_pow_mont_spec base e m : limbs_ok base → limbs_ok e → limbs_ok m → len m < MAX_LIMBS →
  if Z.odd (value m) then ∃ z, mod_pow_mont base e m = Ret z ∧ limbs_ok z ∧ value z = (value base ^ value e) `mod` value m
  else mod_pow_mont base e m = Panic.
Proof.
  intros Hb He Hm Hs. pose proof (for_modulus_spec m Hm Hs) as Hf. unfold mod_pow_mont. destruct (Z.odd (value m)) eqn:Eo; [|by rewrite Hf]. destruct Hf as (ctx & -> & Hc & Ep). cbn [outcome_bind].
  pose proof (p_pos ctx Hc) as Hpos. destruct (k_limbs ctx Hc) as [Hk Hpw]. rewrite Ep in *. destruct (modulo_spec base m Hb Hm Hpos) as (b & -> & Ob & Vb & _). cbn [outcome_bind].
  pose proof (Z.mod_pos_bound (value base) (value m) Hpos). destruct (mont_to_spec ctx b Hc Ob ltac:(lia)) as (bm & -> & Hbm). cbn [outcome_bind].
  assert (limbs_ok one) as O1 by (apply Forall_singleton; unfold is_u32; lia).
  destruct (mont_to_spec ctx one Hc O1) as (om & -> & Hom); [change (value one) with 1; pose proof (weight_le 1 (k ctx) Hk); change (weight 1) with 4294967296 in *; lia|]. cbn [outcome_bind].
  destruct (mont_pow_loop_spec ctx e (bit_len e) 0 om bm (value b) (value one) Hc He Hom Hbm) as (r & -> & Hr); [by apply bit_len_bound|]. cbn [outcome_bind].
  destruct (mont_from_spec ctx r _ Hc Hr) as (z & -> & Oz & Vz). exists z. split_and!; [done..|]. rewrite Vz, Ep, Vb. change (value one) with 1. change (2 ^ Z.of_nat 0) with 1.
  rewrite Z.mul_1_l, Z.div_1_r. apply Z.mod_pow_l.
Qed.

(** ** The arithmetic of the crate *)

(** C23: arithmetic on limbs implements arithmetic on numbers: reading and writing bytes,
    comparison, sum, difference, the product (schoolbook and Karatsuba), quotient and remainder,
    and the two ways of taking powers, bit by bit with divisions and in Montgomery form, which
    agree whenever the modulus is odd; nothing panics but for a zero divisor or, in Montgomery
    form, an even modulus. *)
Theorem numbers_refine (a b m : list Z) (l : list Z) (n : nat) : limbs_ok a → limbs_ok b → limbs_ok m → len a < MAX_LIMBS → len b < MAX_LIMBS → len m + len m < MAX_LIMBS → bytes_ok l →
  (∃ x, from_be_bytes l = Ret x ∧ limbs_ok x ∧ value x = Bytes.from_be_bytes l) ∧ to_be_bytes a n = Ret (Bytes.to_be_bytes n (value a)) ∧
  cmp a b = (value a ?= value b) ∧ (limbs_ok (add a b) ∧ value (add a b) = value a + value b) ∧
  (value b ≤ value a → limbs_ok (sub a b) ∧ value (sub a b) = value a - value b) ∧
  (∃ c, mul a b = Ret c ∧ limbs_ok c ∧ value c = value a * value b) ∧
  (if value m =? 0 then divmod a m = Panic else ∃ q r, divmod a m = Ret (q, r) ∧ limbs_ok q ∧ limbs_ok r ∧ value q = value a / value m ∧ value r = value a `mod` value m) ∧
  (0 < value m → ∃ p, mod_pow a b m = Ret p ∧ limbs_ok p ∧ value p = (value a ^ value b) `mod` value m) ∧
  (if Z.odd (value m) then ∃ p, mod_pow_mont a b m = Ret p ∧ limbs_ok p ∧ value p = (value a ^ value b) `mod` value m else mod_pow_mont a b m = Panic).
Proof.
  intros Ha Hb Hm La Lb Lm Hl. pose proof (value_bounds m Hm). split_and!.
  - destruct (from_be_bytes_spec l Hl) as (x & ? & ? & ? & _). by exists x.
  - by apply to_be_bytes_spec.
  - by apply cmp_spec.
  - by apply add_spec.
  - by apply add_spec.
  - by apply sub_spec.
  - destruct (mul_spec a b Ha Hb La Lb) as (c & ? & ? & ? & _). by exists c.
  - destruct (Z.eqb_spec (value m) 0) as [E|E]; [unfold divmod; by rewrite is_zero_spec, E|].
    destruct (divmod_spec a m Ha Hm) as (q & r & ? & ? & ? & ? & ? & _); [lia|]. by exists q, r.
  - intros H0. by apply mod_pow_spec.
  - apply mod_pow_mont_spec; [done..|]. pose proof (len_nonneg m). lia.
Qed.

Lemma numbers_refine_witness : mod_pow_mont [2; 1] [77] [4294967295; 7] = mod_pow [2; 1] [77] [4294967295; 7] ∧ mod_pow_mont [2] [5] [6] = Panic ∧ divmod [1; 2] [0] = Panic.
Proof.
  split; [|split].
  - destruct (numbers_refine [2; 1] [77] [4294967295; 7] [1; 2] 3) as (_ & _ & _ & _ & _ & _ & _ & Hp & Hm);
      [by repeat constructor|by repeat constructor|by repeat constructor|done|done|done|by repeat constructor|]. vm_compute. reflexivity.
  - destruct (numbers_refine [2] [5] [6] [] 1) as (_ & _ & _ & _ & _ & _ & _ & _ & Hm);
      [by repeat constructor|by repeat constructor|by repeat constructor|done|done|done|by repeat constructor|]. exact Hm.
  - destruct (numbers_refine [1; 2] [5] [0] [] 1) as (_ & _ & _ & _ & _ & _ & Hd & _);
      [by repeat constructor|by repeat constructor|by repeat constructor|done|done|done|by repeat constructor|]. exact Hd.
Defined.
