(* ===== verification/Rsa.v ===== *)
(** * Rsa: signatures and encryption with RSA

    The RSA functions of web-crypto/src/lib.rs: PKCS 1 version 1.5, OAEP and PSS, on the numbers
    of [BigUInt] and the powers of [Montgomery].  A hash function and the length of its values
    are parameters of those that take them.  A key whose modulus is even fails an assertion; the
    theorems say when. *)

From Stdlib Require String.
From S2P Require Import Prelude Bytes Bits Arrays BigUInt Montgomery.

Local Open Scope Z_scope.
Local Open Scope cruft_scope.

(** ** The primitives *)

Definition timing_safe_equal (a b : list Z) : bool :=
  if negb (length a =? length b)%nat then false
  else foldl (λ diff xy, Z.lor diff (Z.lxor xy.1 xy.2)) 0 (zip a b) =? 0.

Definition rsaep (n e m : list Z) : fallible (list Z) string :=
  match cmp m n with
  | Lt => r <-! mod_pow_mont m e n; Ret (Ok r)
  | _ => Ret (Err "RSAEP: message representative out of range")
  end.

Definition rsadp (n d c : list Z) : fallible (list Z) string :=
  match cmp c n with
  | Lt => r <-! mod_pow_mont c d n; Ret (Ok r)
  | _ => Ret (Err "RSADP: ciphertext representative out of range")
  end.

(** ** PKCS 1, version 1.5 *)

Definition digest_info_prefix (hash_name : string) : result (list Z) string :=
  if bool_decide (hash_name = "SHA-1") then Ok [48; 33; 48; 9; 6; 5; 43; 14; 3; 2; 26; 5; 0; 4; 20]
  else if bool_decide (hash_name = "SHA-256") then Ok [48; 49; 48; 13; 6; 9; 96; 134; 72; 1; 101; 3; 4; 2; 1; 5; 0; 4; 32]
  else if bool_decide (hash_name = "SHA-384") then Ok [48; 65; 48; 13; 6; 9; 96; 134; 72; 1; 101; 3; 4; 2; 2; 5; 0; 4; 48]
  else if bool_decide (hash_name = "SHA-512") then Ok [48; 81; 48; 13; 6; 9; 96; 134; 72; 1; 101; 3; 4; 2; 3; 5; 0; 4; 64]
  else Err ("PKCS1-v1_5: unsupported hash " +:+ hash_name).

Definition emsa_pkcs1_v1_5_encode (hash : list Z) (em_len : nat) (hash_name : string) : result (list Z) string :=
  prefix <-? digest_info_prefix hash_name;
  let t_len := (length prefix + length hash)%nat in
  if (em_len <? t_len + 11)%nat then Err "PKCS1-v1_5: intended encoded message length too short"
  else Ok ([0; 1] ++ replicate (em_len - t_len - 3) 255 ++ [0] ++ prefix ++ hash).

Definition rsa_pkcs1_v15_sign (n_bytes d_bytes hash : list Z) (hash_name : string) : fallible (list Z) string :=
  let k := length n_bytes in
  em <-!? Ret (emsa_pkcs1_v1_5_encode hash k hash_name);
  n <-! from_be_bytes n_bytes;
  d <-! from_be_bytes d_bytes;
  m_int <-! from_be_bytes em;
  s_int <-!? rsadp n d m_int;
  s <-! to_be_bytes s_int k;
  Ret (Ok s).

Definition rsa_pkcs1_v15_verify (n_bytes e_bytes hash signature : list Z) (hash_name : string) : fallible unit string :=
  let k := length n_bytes in
  if negb (length signature =? k)%nat then Ret (Err "PKCS1-v1_5: signature length mismatch")
  else
    n <-! from_be_bytes n_bytes;
    e <-! from_be_bytes e_bytes;
    s_int <-! from_be_bytes signature;
    m_int <-!? rsaep n e s_int;
    em_recovered <-! to_be_bytes m_int k;
    em_expected <-!? Ret (emsa_pkcs1_v1_5_encode hash k hash_name);
    if negb (timing_safe_equal em_recovered em_expected) then Ret (Err "PKCS1-v1_5: signature verification failed")
    else Ret (Ok tt).

Definition rsa_private_encrypt_pkcs1 (n_bytes d_bytes msg : list Z) : fallible (list Z) string :=
  let k := length n_bytes in
  if (k <? 11)%nat || (k - 11 <? length msg)%nat then Ret (Err "privateEncrypt: message too long for RSA key size")
  else
    let em := [0; 1] ++ replicate (k - length msg - 3) 255 ++ [0] ++ msg in
    n <-! from_be_bytes n_bytes;
    d <-! from_be_bytes d_bytes;
    m_int <-! from_be_bytes em;
    s <-!? rsadp n d m_int;
    out <-! to_be_bytes s k;
    Ret (Ok out).

(** The first place from [i] on that does not hold 255. *)
Fixpoint skip_ff (em : list Z) (i : nat) : nat :=
  match em with
  | b :: em => if b =? 255 then skip_ff em (S i) else i
  | [] => i
  end.

Definition rsa_public_decrypt_pkcs1 (n_bytes e_bytes ct : list Z) : fallible (list Z) string :=
  let k := length n_bytes in
  n <-! from_be_bytes n_bytes;
  e <-! from_be_bytes e_bytes;
  c <-! from_be_bytes ct;
  m <-!? rsaep n e c;
  em <-! to_be_bytes m k;
  em0 <-! index em 0;
  if negb (length em =? k)%nat || negb (em0 =? 0) then Ret (Err "publicDecrypt: invalid PKCS#1 type-1 block")
  else
    em1 <-! index em 1;
    if negb (em1 =? 1) then Ret (Err "publicDecrypt: invalid PKCS#1 type-1 block")
    else
      let i := skip_ff (drop 2 em) 2 in
      if (i <? 10)%nat || (length em <=? i)%nat then Ret (Err "publicDecrypt: invalid PKCS#1 padding")
      else
        emi <-! index em (Z.of_nat i);
        if negb (emi =? 0) then Ret (Err "publicDecrypt: invalid PKCS#1 padding")
        else out <-! slice_from em (Z.of_nat i + 1); Ret (Ok out).

Section Hash.
Context (hash_fn : list Z → list Z) (hlen : nat).

Definition mgf1 (mgf_seed : list Z) (mask_len : nat) : outcome (list Z) :=
  if (hlen =? 0)%nat then Panic
  else
    let n_iters := ((mask_len + hlen - 1) / hlen)%nat in
    Ret (take mask_len (concat ((λ counter, hash_fn (mgf_seed ++ Bytes.to_be_bytes 4 (as_u32 (Z.of_nat counter)))) <$> seq 0 n_iters))).

(** ** OAEP *)

(** The encoded message.  When [ps_len] underflows, an overflow check or the allocation of that many
    bytes panics. *)
Definition oaep_encode (k : nat) (message label seed : list Z) : outcome (list Z) :=
  if (k <? length message + 2 * hlen + 2)%nat then Panic
  else
    let ps_len := (k - length message - 2 * hlen - 2)%nat in
    let db := hash_fn label ++ replicate ps_len 0 ++ [1] ++ message in
    db_mask <-! mgf1 seed (k - hlen - 1);
    let masked_db := xor_bytes db db_mask in
    seed_mask <-! mgf1 masked_db hlen;
    let masked_seed := xor_bytes seed seed_mask in
    Ret ([0] ++ masked_seed ++ masked_db).

Definition rsa_oaep_encrypt (n_bytes e_bytes message label seed : list Z) : fallible (list Z) string :=
  n <-! from_be_bytes n_bytes;
  e <-! from_be_bytes e_bytes;
  let k := length n_bytes in
  if (k =? 0)%nat then Ret (Err "RSA-OAEP: empty modulus")
  else if (k - (2 * hlen + 2) <? length message)%nat then Ret (Err "RSA-OAEP: message too long")
  else if negb (length seed =? hlen)%nat then Ret (Err ("RSA-OAEP: seed length must be " +:+ Text.u64_to_string (Z.of_nat hlen)))
  else
    em <-! oaep_encode k message label seed;
    m_int <-! from_be_bytes em;
    c_int <-!? rsaep n e m_int;
    out <-! to_be_bytes c_int k;
    Ret (Ok out).

(** The search for the separator looks at every byte, whatever it has found; [seen_sep] and
    [bad_ps] are bits. *)
Definition separator_step (s : nat * Z * Z) (ib : nat * Z) : nat * Z * Z :=
  let '(sep, seen_sep, bad_ps) := s in
  let is_zero := if ib.2 =? 0 then 1 else 0 in
  let is_one := if ib.2 =? 1 then 1 else 0 in
  let before_sep := Z.lxor 1 seen_sep in
  let first_sep := Z.land before_sep is_one in
  (if first_sep =? 1 then ib.1 else sep, Z.lor seen_sep is_one,
   Z.lor bad_ps (Z.land (Z.land before_sep (Z.lxor 1 is_zero)) (Z.lxor 1 is_one))).

Definition oaep_decode (k : nat) (em label : list Z) : fallible (list Z) string :=
  let l_hash := hash_fn label in
  y <-! index em 0;
  masked_seed <-! slice em 1 (1 + Z.of_nat hlen);
  masked_db <-! slice_from em (1 + Z.of_nat hlen);
  seed_mask <-! mgf1 masked_db hlen;
  let seed := xor_bytes masked_seed seed_mask in
  db_mask <-! mgf1 seed (k - hlen - 1);
  let db := xor_bytes masked_db db_mask in
  l_hash_prime <-! slice db 0 (Z.of_nat hlen);
  rest <-! slice_from db (Z.of_nat hlen);
  let '(sep, seen_sep, bad_ps) := foldl separator_step (0%nat, 0, 0) (enumerate rest) in
  if negb ((y =? 0) && timing_safe_equal l_hash_prime l_hash && (bad_ps =? 0) && (seen_sep =? 1)) then Ret (Err "RSA-OAEP: decryption error")
  else out <-! slice_from rest (Z.of_nat sep + 1); Ret (Ok out).

Definition rsa_oaep_decrypt (n_bytes d_bytes ciphertext label : list Z) : fallible (list Z) string :=
  n <-! from_be_bytes n_bytes;
  d <-! from_be_bytes d_bytes;
  let k := length n_bytes in
  if negb (length ciphertext =? k)%nat then Ret (Err "RSA-OAEP: ciphertext length mismatch")
  else if (k <? 2 * hlen + 2)%nat then Ret (Err "RSA-OAEP: modulus too small for hash")
  else
    c_int <-! from_be_bytes ciphertext;
    m_int <-!? rsadp n d c_int;
    em <-! to_be_bytes m_int k;
    oaep_decode k em label.

(** ** PSS *)

Definition emsa_pss_encode (message : list Z) (em_bits : nat) (salt : list Z) : fallible (list Z) string :=
  let em_len := ((em_bits + 7) / 8)%nat in
  let s_len := length salt in
  if (em_len <? hlen + s_len + 2)%nat then Ret (Err "EMSA-PSS-ENCODE: encoding length too short")
  else
    let m_hash := hash_fn message in
    let h := hash_fn (replicate 8 0 ++ m_hash ++ salt) in
    let db := replicate (em_len - s_len - hlen - 2) 0 ++ [1] ++ salt in
    db_mask <-! mgf1 h (em_len - hlen - 1);
    let masked_db := xor_bytes db db_mask in
    let unused_bits := Z.of_nat (8 * em_len - em_bits) in
    masked_db <-! (if 0 <? unused_bits then b <-! index masked_db 0; store masked_db 0 (Z.land b (Z.shiftr 255 unused_bits)) else Ret masked_db);
    Ret (Ok (masked_db ++ h ++ [188])).

Definition emsa_pss_verify (message em : list Z) (em_bits s_len : nat) : fallible unit string :=
  let em_len := ((em_bits + 7) / 8)%nat in
  if negb (length em =? em_len)%nat then Ret (Err "EMSA-PSS-VERIFY: EM length mismatch")
  else if (em_len <? hlen + s_len + 2)%nat then Ret (Err "EMSA-PSS-VERIFY: inconsistent")
  else
    trailer <-! unwrap (last em);
    if negb (trailer =? 188) then Ret (Err "EMSA-PSS-VERIFY: missing 0xbc trailer")
    else
      let db_len := (em_len - hlen - 1)%nat in
      masked_db <-! slice em 0 (Z.of_nat db_len);
      h <-! slice em (Z.of_nat db_len) (Z.of_nat (em_len - 1));
      let unused_bits := Z.of_nat (8 * em_len - em_bits) in
      first <-! (if 0 <? unused_bits then b <-! index masked_db 0; Ret (Z.land b (as_u8 (as_u16 (Z.shiftl 255 (8 - unused_bits))))) else Ret 0);
      if negb (first =? 0) then Ret (Err "EMSA-PSS-VERIFY: non-zero leftmost bits")
      else
        db_mask <-! mgf1 h db_len;
        let db := xor_bytes masked_db db_mask in
        db <-! (if 0 <? unused_bits then b <-! index db 0; store db 0 (Z.land b (Z.shiftr 255 unused_bits)) else Ret db);
        let ps_len := (em_len - hlen - s_len - 2)%nat in
        ps <-! slice db 0 (Z.of_nat ps_len);
        if existsb (λ b, negb (b =? 0)) ps then Ret (Err "EMSA-PSS-VERIFY: non-zero PS")
        else
          sep <-! index db (Z.of_nat ps_len);
          if negb (sep =? 1) then Ret (Err "EMSA-PSS-VERIFY: missing 0x01 separator")
          else
            salt <-! slice_from db (Z.of_nat ps_len + 1);
            let h_prime := hash_fn (replicate 8 0 ++ hash_fn message ++ salt) in
            if negb (timing_safe_equal h h_prime) then Ret (Err "EMSA-PSS-VERIFY: H mismatch") else Ret (Ok tt).

(** [mod_bits - 1]: for a zero modulus an overflow check panics; without one it wraps around to
    2^64 - 1, of which the length in bytes that is computed from it is 0, and encoding fails. *)
Definition pss_em_bits `{Profile} (n : list Z) : fallible nat string :=
  if (bit_len n =? 0)%nat then if overflow_checks then Panic else Ret (Err "EMSA-PSS-ENCODE: encoding length too short")
  else Ret (Ok (bit_len n - 1)%nat).

Definition rsa_pss_sign `{Profile} (n_bytes d_bytes message salt : list Z) : fallible (list Z) string :=
  let k := length n_bytes in
  n <-! from_be_bytes n_bytes;
  em_bits <-!? pss_em_bits n;
  em <-!? emsa_pss_encode message em_bits salt;
  d <-! from_be_bytes d_bytes;
  m_int <-! from_be_bytes em;
  s_int <-!? rsadp n d m_int;
  s <-! to_be_bytes s_int k;
  Ret (Ok s).

Definition rsa_pss_verify (n_bytes e_bytes message signature : list Z) (s_len : nat) : fallible unit string :=
  let k := length n_bytes in
  if negb (length signature =? k)%nat then Ret (Err "RSA-PSS-VERIFY: signature length mismatch")
  else
    n <-! from_be_bytes n_bytes;
    e <-! from_be_bytes e_bytes;
    s_int <-! from_be_bytes signature;
    m_int <-!? rsaep n e s_int;
    let em_bits := (bit_len n - 1)%nat in
    let em_len := ((em_bits + 7) / 8)%nat in
    em <-! to_be_bytes m_int em_len;
    emsa_pss_verify message em em_bits s_len.

End Hash.

(** ** Bytes and numbers *)

Lemma lor_foldl_zero l : ∀ d, (foldl (λ diff xy, Z.lor diff (Z.lxor xy.1 xy.2)) d l =? 0) = (d =? 0) && forallb (λ xy : Z * Z, xy.1 =? xy.2) l.
Proof.
  induction l as [|[x y] l IH]; intros d; cbn [foldl forallb fst snd]; [by rewrite andb_true_r|]. rewrite IH.
  assert ((Z.lor d (Z.lxor x y) =? 0) = (d =? 0) && (x =? y)) as ->; [|by rewrite andb_assoc].
  destruct (Z.eqb_spec d 0) as [->|Hd], (Z.eqb_spec x y) as [->|Hxy]; cbn [andb].
  - by rewrite Z.lxor_nilpotent.
  - rewrite Z.lor_0_l. apply Z.eqb_neq. by intros E%Z.lxor_eq.
  - rewrite Z.lxor_nilpotent, Z.lor_0_r. by apply Z.eqb_neq.
  - apply Z.eqb_neq. intros E. by apply Z.lor_eq_0_iff in E as [? _].
Qed.

Lemma timing_safe_equal_spec a b : timing_safe_equal a b = bool_decide (a = b).
Proof.
  unfold timing_safe_equal. destruct (Nat.eqb_spec (length a) (length b)) as [El|El]; cbn [negb].
  - rewrite lor_foldl_zero. cbn [Z.eqb andb]. revert b El. induction a as [|x a IH]; intros [|y b] El; try done.
    cbn [zip zip_with forallb fst snd]. rewrite IH by (cbn in El; lia). destruct (Z.eqb_spec x y) as [->|Hxy]; cbn [andb].
    + apply bool_decide_ext. split; [by intros ->|by intros [=]].
    + symmetry. apply bool_decide_eq_false. by intros [=].
  - symmetry. apply bool_decide_eq_false. by intros ->.
Qed.

Lemma from_be_inj a b : bytes_ok a → bytes_ok b → length a = length b → Bytes.from_be_bytes a = Bytes.from_be_bytes b → a = b.
Proof. intros Ha Hb Hl E. rewrite <-(to_from_be_bytes a), <-(to_from_be_bytes b) by done. by rewrite Hl, E. Qed.

(** The bytes of a number are given bytes when the number is theirs. *)
Lemma to_be_bytes_eq l v : bytes_ok l → 0 ≤ v < 256 ^ len l → Bytes.to_be_bytes (length l) v = l ↔ v = Bytes.from_be_bytes l.
Proof.
  intros Hl Hv. split; [intros E|intros ->; by apply to_from_be_bytes]. rewrite <-E, from_to_be_bytes by done. done.
Qed.

(** Bytes that fewer than [MAX_LIMBS] limbs hold. *)
Definition short (l : list Z) : Prop := bytes_ok l ∧ len l < MAX_LIMBS.

Lemma number_of l : short l → ∃ a, from_be_bytes l = Ret a ∧ limbs_ok a ∧ value a = Bytes.from_be_bytes l ∧ len a < MAX_LIMBS.
Proof.
  intros [Hl Hs]. destruct (from_be_bytes_spec l Hl) as (a & -> & Oa & Va & La). exists a. split_and!; [done..|]. unfold len, MAX_LIMBS in *.
  pose proof (Nat.div_le_upper_bound (length l + 3) 4 (length l `max` 1) ltac:(lia) ltac:(lia)). lia.
Qed.

Lemma rsaep_spec n e m : limbs_ok n → limbs_ok e → limbs_ok m → len n < MAX_LIMBS →
  if value n <=? value m then rsaep n e m = Ret (Err "RSAEP: message representative out of range")
  else if Z.even (value n) then rsaep n e m = Panic
  else ∃ r, rsaep n e m = Ret (Ok r) ∧ limbs_ok r ∧ value r = (value m ^ value e) `mod` value n.
Proof.
  intros Hn He Hm Hs. unfold rsaep. rewrite cmp_spec by done. rewrite Z.leb_compare, (Z.compare_antisym (value m) (value n)).
  destruct (value m ?= value n) eqn:E; cbn [CompOpp]; [done| |done]. pose proof (mod_pow_mont_spec m e n Hm He Hn Hs) as H.
  rewrite <-Z.negb_odd. destruct (Z.odd (value n)); cbn [negb]; [|by rewrite H]. destruct H as (z & -> & Oz & Vz). by exists z.
Qed.

(** Encryption and decryption are the same computation, but for the message of the error. *)
Lemma rsadp_ok n d c r : rsadp n d c = Ret (Ok r) ↔ rsaep n d c = Ret (Ok r).
Proof. unfold rsadp, rsaep. by destruct (cmp c n); try done; split. Qed.

(** What succeeds is the power. *)
Lemma rsaep_inv n e m r : limbs_ok n → limbs_ok e → limbs_ok m → len n < MAX_LIMBS → rsaep n e m = Ret (Ok r) →
  limbs_ok r ∧ value m < value n ∧ Z.even (value n) = false ∧ value r = (value m ^ value e) `mod` value n.
Proof.
  intros Hn He Hm Hs E. pose proof (rsaep_spec n e m Hn He Hm Hs) as H. destruct (Z.leb_spec (value n) (value m)); [by rewrite H in E|].
  destruct (Z.even (value n)); [by rewrite H in E|]. destruct H as (r' & E' & Or & Vr). rewrite E' in E. by injection E as ->.
Qed.

Lemma rsaep_ok n e m : limbs_ok n → limbs_ok e → limbs_ok m → len n < MAX_LIMBS → value m < value n → Z.even (value n) = false →
  ∃ r, rsaep n e m = Ret (Ok r) ∧ limbs_ok r ∧ value r = (value m ^ value e) `mod` value n.
Proof. intros Hn He Hm Hs Hlt Ho. pose proof (rsaep_spec n e m Hn He Hm Hs) as H. rewrite (proj2 (Z.leb_gt _ _)), Ho in H by done. done. Qed.

(** The two exponents of a key undo each other. *)
Definition key_pair (N E D : Z) : Prop := ∀ m, 0 ≤ m < N → ((m ^ D) `mod` N) ^ E `mod` N = m ∧ ((m ^ E) `mod` N) ^ D `mod` N = m.

(** ** PKCS 1, version 1.5 *)

Lemma digest_info_prefix_ok name prefix : digest_info_prefix name = Ok prefix → bytes_ok prefix ∧ (length prefix ≤ 19)%nat.
Proof.
  unfold digest_info_prefix, bytes_ok. repeat case_bool_decide; intros [= <-]; (split; [apply (bool_decide_eq_true_1 _); vm_compute; reflexivity|cbn; lia]).
Qed.

Lemma emsa_encode_ok hash k name em : bytes_ok hash → emsa_pkcs1_v1_5_encode hash k name = Ok em → bytes_ok em ∧ length em = k.
Proof.
  intros Hh. unfold emsa_pkcs1_v1_5_encode. destruct (digest_info_prefix name) as [prefix|] eqn:Ep; [|done]. cbn [result_bind]. apply digest_info_prefix_ok in Ep as [Hp _].
  destruct (Nat.ltb_spec k (length prefix + length hash + 11)); [done|]. intros [= <-]. split.
  - unfold bytes_ok in *. rewrite !Forall_cons, !Forall_app, Forall_cons, Forall_app. split_and!; [unfold is_u8; lia..| |unfold is_u8; lia|done|done]. apply Forall_replicate. unfold is_u8. lia.
  - cbn [length app]. rewrite length_app, length_replicate. cbn [length]. rewrite length_app. lia.
Qed.

Lemma pkcs1_verify_eq n e h s name : short n → bytes_ok e → bytes_ok h → bytes_ok s →
  let N := Bytes.from_be_bytes n in let E := Bytes.from_be_bytes e in let S := Bytes.from_be_bytes s in
  rsa_pkcs1_v15_verify n e h s name =
    (if negb (length s =? length n)%nat then Ret (Err "PKCS1-v1_5: signature length mismatch")
     else if N <=? S then Ret (Err "RSAEP: message representative out of range")
     else if Z.even N then Panic
     else match emsa_pkcs1_v1_5_encode h (length n) name with
          | Err x => Ret (Err x)
          | Ok em => Ret (if (S ^ E) `mod` N =? Bytes.from_be_bytes em then Ok tt else Err "PKCS1-v1_5: signature verification failed")
          end).
Proof.
  intros Hn He Hh Hs N E S. destruct (number_of n Hn) as (nn & En & On & Vn & Ln). destruct (from_be_bytes_spec e He) as (ee & Ee & Oe & Ve & _). destruct (from_be_bytes_spec s Hs) as (ss & Es & Os & Vs & _).
  unfold rsa_pkcs1_v15_verify. destruct (Nat.eqb_spec (length s) (length n)) as [El|El]; cbn [negb]; [|done]. rewrite En, Ee, Es. cbn [outcome_bind].
  pose proof (rsaep_spec nn ee ss On Oe Os Ln) as Hr. rewrite Vn, Ve, Vs in Hr. fold N E S in Hr. destruct (Z.leb_spec N S); [by rewrite Hr|]. destruct (Z.even N); [by rewrite Hr|].
  destruct Hr as (r & -> & Or & Vr). cbn [fallible_bind outcome_bind]. rewrite to_be_bytes_spec by done. cbn [outcome_bind].
  destruct (emsa_pkcs1_v1_5_encode h (length n) name) as [em|x] eqn:Eem; [|done]. cbn [fallible_bind outcome_bind]. destruct (emsa_encode_ok _ _ _ _ Hh Eem) as [Hem Lem].
  rewrite timing_safe_equal_spec, Vr. pose proof (from_be_bytes_bound n (proj1 Hn)) as HN. fold N in HN. pose proof (from_be_bytes_nonneg s Hs) as HS0. fold S in HS0.
  pose proof (Z.mod_pos_bound (S ^ E) N ltac:(lia)) as Hb.
  assert (bool_decide (Bytes.to_be_bytes (length n) ((S ^ E) `mod` N) = em) = ((S ^ E) `mod` N =? Bytes.from_be_bytes em)) as ->.
  { rewrite <-Lem. apply Bool.eq_true_iff_eq. rewrite bool_decide_eq_true, Z.eqb_eq. apply to_be_bytes_eq; [done|]. unfold len in *. rewrite Lem. lia. }
  by destruct (_ =? _).
Qed.

(** A private operation that succeeds gives a power that is less than the modulus, in as many
    bytes. *)
Lemma private_bytes n d m r : short n → bytes_ok d → bytes_ok m →
  (nn <-! from_be_bytes n; dd <-! from_be_bytes d; mm <-! from_be_bytes m; x <-!? rsadp nn dd mm; s <-! to_be_bytes x (length n); Ret (Ok s)) = Ret (Ok r) →
  let N := Bytes.from_be_bytes n in Bytes.from_be_bytes m < N ∧ Z.even N = false ∧ bytes_ok r ∧ length r = length n ∧
  Bytes.from_be_bytes r = (Bytes.from_be_bytes m ^ Bytes.from_be_bytes d) `mod` N ∧ Bytes.from_be_bytes r < N.
Proof.
  intros Hn Hd Hm. destruct (number_of n Hn) as (nn & -> & On & Vn & Ln). destruct (from_be_bytes_spec d Hd) as (dd & -> & Od & Vd & _). destruct (from_be_bytes_spec m Hm) as (mm & -> & Om & Vm & _). cbn [outcome_bind].
  destruct (rsadp nn dd mm) as [[x|x]|] eqn:Er; cbn [fallible_bind outcome_bind]; [|done|done]. apply rsadp_ok in Er. apply rsaep_inv in Er as (Or & Hlt & Hev & Vr); [|done..].
  rewrite to_be_bytes_spec by done. cbn [outcome_bind]. intros [= <-]. set (N := Bytes.from_be_bytes n) in *. rewrite Vn, Vm, Vd in *. fold N in Hlt, Hev, Vr. pose proof (from_be_bytes_bound n (proj1 Hn)) as HN. fold N in HN.
  pose proof (from_be_bytes_nonneg m Hm). pose proof (Z.mod_pos_bound (Bytes.from_be_bytes m ^ Bytes.from_be_bytes d) N ltac:(lia)).
  rewrite from_to_be_bytes by (rewrite Vr; unfold len in *; lia). split_and!; [done|done|apply to_be_bytes_ok|apply to_be_bytes_length|done|lia].
Qed.

(** C17: a signature verifies exactly when it is as long as the modulus, a smaller number, and its
    power is the encoding of the digest; the other outcomes are the errors the code gives, and a
    panic when the modulus is even.  What a key signs, its public half verifies. *)
Theorem rsa_pkcs1_exact (n e h s : list Z) (name : string) : short n → bytes_ok e → bytes_ok h → bytes_ok s →
  let N := Bytes.from_be_bytes n in let E := Bytes.from_be_bytes e in let S := Bytes.from_be_bytes s in
  rsa_pkcs1_v15_verify n e h s name =
    (if negb (length s =? length n)%nat then Ret (Err "PKCS1-v1_5: signature length mismatch")
     else if N <=? S then Ret (Err "RSAEP: message representative out of range")
     else if Z.even N then Panic
     else match emsa_pkcs1_v1_5_encode h (length n) name with
          | Err x => Ret (Err x)
          | Ok em => Ret (if (S ^ E) `mod` N =? Bytes.from_be_bytes em then Ok tt else Err "PKCS1-v1_5: signature verification failed")
          end) ∧
  (∀ d, bytes_ok d → key_pair N E (Bytes.from_be_bytes d) → rsa_pkcs1_v15_sign n d h name = Ret (Ok s) → rsa_pkcs1_v15_verify n e h s name = Ret (Ok tt)).
Proof.
  intros Hn He Hh Hs N E S. split; [by apply pkcs1_verify_eq|]. intros d Hd Hk Hsign. rewrite pkcs1_verify_eq by done. unfold rsa_pkcs1_v15_sign in Hsign.
  destruct (emsa_pkcs1_v1_5_encode h (length n) name) as [em|x] eqn:Eem; [|done]. cbn [fallible_bind outcome_bind] in Hsign. destruct (emsa_encode_ok _ _ _ _ Hh Eem) as [Hem Lem].
  destruct (private_bytes n d em s Hn Hd Hem Hsign) as (Hlt & Hev & _ & El & Es & HS). fold N S in Hlt, Hev, Es, HS |- *. fold E.
  rewrite El, Nat.eqb_refl, (proj2 (Z.leb_gt _ _)), Hev by lia. cbn [negb]. pose proof (from_be_bytes_nonneg em Hem). rewrite Es, (proj1 (Hk (Bytes.from_be_bytes em) ltac:(lia))). by rewrite Z.eqb_refl.
Qed.

Lemma rsa_pkcs1_exact_witness :
  let n := replicate 26 255 in let even := replicate 25 255 ++ [254] in let s := [0; 1] ++ replicate 8 255 ++ [0] ++ [48; 33; 48; 9; 6; 5; 43; 14; 3; 2; 26; 5; 0; 4; 20] in
  rsa_pkcs1_v15_verify n [1] [] s "SHA-1" = Ret (Ok tt) ∧ rsa_pkcs1_v15_verify even [1] [] s "SHA-1" = Panic.
Proof.
  assert (∀ l, forallb (λ b, (0 <=? b) && (b <? 256)) l = true → bytes_ok l) as Hb.
  { intros l Hl. apply Forall_forall. intros b Hin. apply list_elem_of_In in Hin. rewrite forallb_forall in Hl. specialize (Hl b Hin). unfold is_u8. apply andb_true_iff in Hl as [H1 H2]. lia. }
  split.
  - apply (rsa_pkcs1_exact (replicate 26 255) [1] [] _ "SHA-1") with (d := [1]); [split; [by apply Hb|done]|by apply Hb..| |by vm_compute].
    intros m Hm. change (Bytes.from_be_bytes [1]) with 1. rewrite !Z.pow_1_r, !Z.mod_small by (rewrite ?Z.mod_small; lia). done.
  - destruct (rsa_pkcs1_exact (replicate 25 255 ++ [254]) [1] [] ([0; 1] ++ replicate 8 255 ++ [0] ++ [48; 33; 48; 9; 6; 5; 43; 14; 3; 2; 26; 5; 0; 4; 20]) "SHA-1") as [-> _]; [split; [by apply Hb|done]|by apply Hb..|]. by vm_compute.
Defined.

(** ** OAEP *)

Lemma separator_seen sep l : ∀ i, foldl separator_step (sep, 1, 0) (zip (seq i (length l)) l) = (sep, 1, 0).
Proof. induction l as [|b l IH]; intros i; [done|]. cbn [length seq zip zip_with foldl]. rewrite <-(IH (S i)) at 2. f_equal. unfold separator_step. cbn [fst snd]. by destruct (b =? 1), (b =? 0). Qed.

Lemma separator_zero i l : foldl separator_step (0%nat, 0, 0) (zip (seq i (length (0 :: l))) (0 :: l)) = foldl separator_step (0%nat, 0, 0) (zip (seq (S i) (length l)) l).
Proof. done. Qed.

Lemma separator_found ps msg : foldl separator_step (0%nat, 0, 0) (enumerate (replicate ps 0 ++ [1] ++ msg)) = (ps, 1, 0).
Proof.
  unfold enumerate. assert (∀ i, foldl separator_step (0%nat, 0, 0) (zip (seq i (length (replicate ps 0 ++ [1] ++ msg))) (replicate ps 0 ++ [1] ++ msg)) = ((i + ps)%nat, 1, 0)) as G; [|apply (G 0%nat)].
  induction ps as [|ps IH]; intros i.
  - rewrite Nat.add_0_r. exact (separator_seen i msg (S i)).
  - change (replicate (S ps) 0 ++ [1] ++ msg) with (0 :: (replicate ps 0 ++ [1] ++ msg)). rewrite separator_zero, IH. f_equal. f_equal. lia.
Qed.

Section Hashes.
Context (hash_fn : list Z → list Z) (hlen : nat).
Context (hash_ok : ∀ l, bytes_ok (hash_fn l)) (hash_length : ∀ l, length (hash_fn l) = hlen).

Lemma mgf1_spec seed n : hlen ≠ 0%nat → ∃ t, mgf1 hash_fn hlen seed n = Ret t ∧ length t = n ∧ bytes_ok t.
Proof.
  intros Hh. unfold mgf1. destruct (Nat.eqb_spec hlen 0); [done|]. eexists. split; [done|].
  assert (∀ l : list nat, length (concat ((λ counter, hash_fn (seed ++ Bytes.to_be_bytes 4 (as_u32 (Z.of_nat counter)))) <$> l)) = (length l * hlen)%nat) as Hl.
  { induction l as [|c l IH]; [done|]. cbn [fmap list_fmap concat length]. rewrite length_app, hash_length. rewrite IH. lia. }
  rewrite length_take, Hl, length_seq. split.
  - assert (n ≤ (n + hlen - 1) / hlen * hlen)%nat; [|lia]. pose proof (Nat.div_mod_eq (n + hlen - 1) hlen). pose proof (Nat.mod_upper_bound (n + hlen - 1) hlen ltac:(done)). lia.
  - apply Forall_take. unfold bytes_ok. rewrite Forall_concat. apply Forall_fmap, Forall_true. intros c. apply hash_ok.
Qed.

Lemma mgf1_no_hash seed n : hlen = 0%nat → mgf1 hash_fn hlen seed n = Panic.
Proof. intros E. unfold mgf1. by rewrite (proj2 (Nat.eqb_eq hlen 0)). Qed.

Lemma oaep_decode_encode k message label seed em : bytes_ok message → bytes_ok seed → length seed = hlen → oaep_encode hash_fn hlen k message label seed = Ret em →
  bytes_ok em ∧ length em = k ∧ (2 * hlen + 2 ≤ k)%nat ∧ oaep_decode hash_fn hlen k em label = Ret (Ok message).
Proof.
  intros Hm Hs Es. unfold oaep_encode. destruct (Nat.ltb_spec k (length message + 2 * hlen + 2)) as [|Hkl]; [done|].
  set (db := hash_fn label ++ replicate (k - length message - 2 * hlen - 2) 0 ++ [1] ++ message).
  assert (length db = k - hlen - 1)%nat as Ldb by (unfold db; rewrite !length_app, hash_length, length_replicate; cbn [length]; lia).
  assert (bytes_ok db) as Odb by (unfold db, bytes_ok; rewrite !Forall_app, Forall_singleton; split_and!; [apply hash_ok|apply Forall_replicate; unfold is_u8; lia|unfold is_u8; lia|done]).
  destruct (decide (hlen = 0%nat)) as [Hz|Hz]; [by rewrite mgf1_no_hash|].
  destruct (mgf1_spec seed (k - hlen - 1) Hz) as (dbm & Edbm & Ldbm & Odbm). rewrite Edbm. cbn [outcome_bind]. set (mdb := xor_bytes db dbm).
  destruct (mgf1_spec mdb hlen Hz) as (sm & Esm & Lsm & Osm). rewrite Esm. cbn [outcome_bind]. set (ms := xor_bytes seed sm). intros [= <-].
  assert (length ms = hlen) as Lms by (unfold ms; rewrite xor_bytes_length; lia). assert (length mdb = k - hlen - 1)%nat as Lmdb by (unfold mdb; rewrite xor_bytes_length; lia).
  split_and!; [|cbn [app length]; rewrite length_app; lia|lia|].
  - unfold bytes_ok. rewrite !Forall_cons, Forall_app. split_and!; [unfold is_u8; lia|by apply xor_bytes_ok|by apply xor_bytes_ok].
  - unfold oaep_decode. change (index (0 :: ms ++ mdb) 0) with (Ret 0). cbn [outcome_bind].
    rewrite (slice_middle [0] ms mdb) by (unfold len; rewrite ?Lms; cbn; lia). cbn [outcome_bind].
    change (0 :: ms ++ mdb) with ([0] ++ ms ++ mdb). rewrite app_assoc, slice_from_app by (rewrite len_app; unfold len; rewrite Lms; cbn; lia). cbn [outcome_bind].
    rewrite Esm. cbn [outcome_bind]. unfold ms at 1. rewrite xor_xor by lia. rewrite Edbm. cbn [outcome_bind]. unfold mdb. rewrite xor_xor by lia. unfold db.
    rewrite (slice_prefix (hash_fn label)) by (unfold len; by rewrite hash_length). cbn [outcome_bind]. rewrite slice_from_app by (unfold len; by rewrite hash_length). cbn [outcome_bind].
    rewrite separator_found, timing_safe_equal_spec, bool_decide_eq_true_2 by done. cbn [Z.eqb Pos.eqb andb negb].
    rewrite app_assoc, slice_from_app by (rewrite len_app; unfold len; rewrite length_replicate; cbn; lia). done.
Qed.

(** What is encrypted under a key is decrypted to the message. *)
Lemma oaep_roundtrip n e d message label seed c : short n → bytes_ok e → bytes_ok d → bytes_ok message → bytes_ok seed →
  key_pair (Bytes.from_be_bytes n) (Bytes.from_be_bytes e) (Bytes.from_be_bytes d) →
  rsa_oaep_encrypt hash_fn hlen n e message label seed = Ret (Ok c) → rsa_oaep_decrypt hash_fn hlen n d c label = Ret (Ok message).
Proof.
  intros Hn He Hd Hm Hs Hk. destruct (number_of n Hn) as (nn & En & On & Vn & Ln). destruct (from_be_bytes_spec e He) as (ee & Ee & Oe & Ve & _). destruct (from_be_bytes_spec d Hd) as (dd & Ed & Od & Vd & _).
  unfold rsa_oaep_encrypt, rsa_oaep_decrypt. rewrite En, Ee, Ed. cbn [outcome_bind]. set (k := length n). destruct (Nat.eqb_spec k 0); [done|]. destruct (Nat.ltb_spec (k - (2 * hlen + 2)) (length message)); [done|].
  destruct (Nat.eqb_spec (length seed) hlen) as [Es|]; cbn [negb]; [|done]. destruct (oaep_encode _ _ _ _ _ _) as [em|] eqn:Eem; cbn [outcome_bind]; [|done].
  destruct (oaep_decode_encode _ _ _ _ _ Hm Hs Es Eem) as (Oem & Lem & Hkl & Hdec).
  destruct (from_be_bytes_spec em Oem) as (mm & -> & Omm & Vmm & _). cbn [outcome_bind]. destruct (rsaep nn ee mm) as [[r|x]|] eqn:Er; cbn [fallible_bind outcome_bind]; [|done|done].
  apply rsaep_inv in Er as (Or & Hlt & Hev & Vr); [|done..]. rewrite to_be_bytes_spec by done. cbn [outcome_bind]. intros [= <-].
  rewrite to_be_bytes_length, Nat.eqb_refl. cbn [negb]. destruct (Nat.ltb_spec k (2 * hlen + 2)); [lia|].
  pose proof (from_be_bytes_bound n (proj1 Hn)) as HN. unfold len in HN. fold k in HN. pose proof (from_be_bytes_nonneg em Oem). rewrite Vn, Vmm, Ve in *. pose proof (Z.mod_pos_bound (Bytes.from_be_bytes em ^ Bytes.from_be_bytes e) (Bytes.from_be_bytes n) ltac:(lia)) as Hb.
  destruct (from_be_bytes_spec (Bytes.to_be_bytes k (value r)) (to_be_bytes_ok _ _)) as (cc & -> & Occ & Vcc & _). cbn [outcome_bind]. rewrite from_to_be_bytes in Vcc by (rewrite Vr; lia).
  destruct (rsaep_ok nn dd cc On Od Occ Ln) as (x & Ex & Ox & Vx); [rewrite Vcc, Vr, Vn; lia|by rewrite Vn|]. apply rsadp_ok in Ex. rewrite Ex. cbn [fallible_bind outcome_bind].
  assert (value x = Bytes.from_be_bytes em) as Vxm by (rewrite Vx, Vcc, Vr, Vn, Vd; apply Hk; lia).
  rewrite to_be_bytes_spec, Vxm by done. cbn [outcome_bind].
  assert (Bytes.to_be_bytes k (Bytes.from_be_bytes em) = em) as -> by (rewrite <-Lem; by apply to_from_be_bytes). done.
Qed.

(** *** PSS *)

Lemma pss_unmask u x m : Z.land (Z.lxor (Z.land (Z.lxor x m) (Z.shiftr 255 u)) m) (Z.shiftr 255 u) = Z.land x (Z.shiftr 255 u).
Proof. apply Z.bits_inj'. intros n _. rewrite !Z.land_spec, !Z.lxor_spec, !Z.land_spec, !Z.lxor_spec. by destruct (Z.testbit x n), (Z.testbit m n), (Z.testbit (Z.shiftr 255 u) n). Qed.

Lemma pss_high_bits u b : 0 < u < 8 → Z.land (Z.land b (Z.shiftr 255 u)) (as_u8 (as_u16 (Z.shiftl 255 (8 - u)))) = 0.
Proof.
  intros Hu. rewrite <-Z.land_assoc. assert (Z.land (Z.shiftr 255 u) (as_u8 (as_u16 (Z.shiftl 255 (8 - u)))) = 0) as ->; [|apply Z.land_0_r].
  assert (u = 1 ∨ u = 2 ∨ u = 3 ∨ u = 4 ∨ u = 5 ∨ u = 6 ∨ u = 7) as Hc by lia. by destruct Hc as [->|[->|[->|[->|[->|[->| ->]]]]]].
Qed.

Lemma pss_low_bit u x : 0 ≤ u < 8 → 0 ≤ x ≤ 1 → Z.land x (Z.shiftr 255 u) = x.
Proof.
  intros Hu Hx. assert (x = 0 ∨ x = 1) as [->| ->] by lia; [done|]. change 1 with (2 ^ 1 - 1) at 1. rewrite Z.land_comm, land_low by lia. change (2 ^ 1) with 2.
  assert (u = 0 ∨ u = 1 ∨ u = 2 ∨ u = 3 ∨ u = 4 ∨ u = 5 ∨ u = 6 ∨ u = 7) as Hc by lia. by destruct Hc as [->|[->|[->|[->|[->|[->|[->| ->]]]]]]].
Qed.

Lemma no_nonzero n : existsb (λ b, negb (b =? 0)) (replicate n 0) = false.
Proof. by induction n. Qed.

(** The data block begins with 0 or 1, whatever the padding and the salt. *)
Lemma pss_db_head ps salt : ∃ d rest, replicate ps 0 ++ [1] ++ salt = d :: rest ∧ 0 ≤ d ≤ 1.
Proof. destruct ps as [|ps]; [by exists 1, salt|]. by exists 0, (replicate ps 0 ++ [1] ++ salt). Qed.

Lemma pss_verify_encode message em_bits salt em : bytes_ok salt → emsa_pss_encode hash_fn hlen message em_bits salt = Ret (Ok em) →
  bytes_ok em ∧ length em = ((em_bits + 7) / 8)%nat ∧ emsa_pss_verify hash_fn hlen message em em_bits (length salt) = Ret (Ok tt).
Proof.
  intros Hs. unfold emsa_pss_encode, emsa_pss_verify. set (em_len := ((em_bits + 7) / 8)%nat). assert (Z.of_nat (8 * em_len - em_bits) < 8) as Hu.
  { pose proof (Nat.div_mod_eq (em_bits + 7) 8). unfold em_len. pose proof (Nat.mod_upper_bound (em_bits + 7) 8 ltac:(done)). lia. }
  set (u := Z.of_nat (8 * em_len - em_bits)) in *. assert (0 ≤ u) as Hu0 by (unfold u; lia).
  destruct (Nat.ltb_spec em_len (hlen + length salt + 2)) as [|Hl]; [done|]. set (h := hash_fn (replicate 8 0 ++ hash_fn message ++ salt)).
  assert (length h = hlen) as Lh by apply hash_length. destruct (decide (hlen = 0%nat)) as [Hz|Hz]; [by rewrite mgf1_no_hash|].
  set (ps := (em_len - length salt - hlen - 2)%nat). destruct (mgf1_spec h (em_len - hlen - 1) Hz) as (dbm & Em & Lm & Om). rewrite Em. cbn [outcome_bind].
  destruct (pss_db_head ps salt) as (d & rest & Edb & Hd). assert (S (length rest) = em_len - hlen - 1)%nat as Lr.
  { apply (f_equal length) in Edb. rewrite !length_app, length_replicate in Edb. cbn [length] in Edb. unfold ps in Edb. lia. }
  assert (bytes_ok (d :: rest)) as Odb by (rewrite <-Edb; unfold bytes_ok; rewrite !Forall_app, Forall_singleton; split_and!; [apply Forall_replicate; unfold is_u8; lia|unfold is_u8; lia|done]).
  apply Forall_cons in Odb as [Od Or]. rewrite Edb. destruct dbm as [|t ts]; [cbn [length] in Lm; lia|]. apply Forall_cons in Om as [Ot Ots]. cbn [length] in Lm.
  set (f := if 0 <? u then Z.land (Z.lxor d t) (Z.shiftr 255 u) else Z.lxor d t). set (mdb := f :: xor_bytes rest ts).
  assert ((if 0 <? u then b <-! index (xor_bytes (d :: rest) (t :: ts)) 0; store (xor_bytes (d :: rest) (t :: ts)) 0 (Z.land b (Z.shiftr 255 u)) else Ret (xor_bytes (d :: rest) (t :: ts))) = Ret mdb) as ->.
  { unfold mdb, f. destruct (0 <? u); [|done]. change (index (xor_bytes (d :: rest) (t :: ts)) 0) with (Ret (Z.lxor d t)). cbn [outcome_bind]. rewrite store_ok by (unfold xor_bytes; cbn [zip_with]; rewrite len_cons; pose proof (len_nonneg (zip_with Z.lxor rest ts)); lia). done. }
  cbn [outcome_bind]. intros [= E]. assert (em = mdb ++ h ++ [188]) as -> by by rewrite <-E. clear E. assert (length mdb = em_len - hlen - 1)%nat as Lmdb by (unfold mdb; cbn [length]; rewrite xor_bytes_length; lia).
  assert (is_u8 f) as Of.
  { unfold f. pose proof (lxor_u8 d t Od Ot) as Hx. destruct (0 <? u); [|done]. by apply land_u8. }
  split_and!.
  - unfold bytes_ok, mdb. apply Forall_app. split; [apply Forall_cons; split; [done|by apply xor_bytes_ok]|]. apply Forall_app. split; [apply hash_ok|]. apply Forall_singleton. unfold is_u8. lia.
  - rewrite !length_app, Lmdb, Lh. cbn [length]. lia.
  - assert (length (mdb ++ h ++ [188]) = em_len) as Lem by (rewrite !length_app, Lmdb, Lh; cbn [length]; lia). rewrite Lem, Nat.eqb_refl. cbn [negb].
    rewrite app_assoc, last_snoc. cbn [unwrap outcome_bind Z.eqb Pos.eqb negb]. rewrite <-app_assoc.
    rewrite slice_prefix by (unfold len; lia). cbn [outcome_bind]. rewrite slice_middle by (unfold len; lia). cbn [outcome_bind].
    assert ((if 0 <? u then b <-! index mdb 0; Ret (Z.land b (as_u8 (as_u16 (Z.shiftl 255 (8 - u))))) else Ret 0) = Ret 0) as ->.
    { unfold mdb, f. destruct (Z.ltb_spec 0 u) as [H0|]; [|done]. change (index (_ :: xor_bytes rest ts) 0) with (Ret (Z.land (Z.lxor d t) (Z.shiftr 255 u))). cbn [outcome_bind]. by rewrite pss_high_bits. }
    cbn [outcome_bind Z.eqb negb]. rewrite Em. cbn [outcome_bind].
    assert (xor_bytes mdb (t :: ts) = Z.lxor f t :: rest) as -> by (unfold mdb, xor_bytes; cbn [zip_with]; f_equal; by apply xor_xor; lia).
    assert ((if 0 <? u then b <-! index (Z.lxor f t :: rest) 0; store (Z.lxor f t :: rest) 0 (Z.land b (Z.shiftr 255 u)) else Ret (Z.lxor f t :: rest)) = Ret (replicate ps 0 ++ [1] ++ salt)) as ->.
    { rewrite Edb. unfold f. destruct (0 <? u).
      - change (index (?x :: rest) 0) with (Ret x). cbn [outcome_bind]. rewrite store_ok by (rewrite len_cons; pose proof (len_nonneg rest); lia). cbn. by rewrite pss_unmask, pss_low_bit.
      - by rewrite Z.lxor_assoc, Z.lxor_nilpotent, Z.lxor_0_r. }
    cbn [outcome_bind]. replace (em_len - hlen - length salt - 2)%nat with ps by (unfold ps; lia). rewrite slice_prefix by (unfold len; by rewrite length_replicate). cbn [outcome_bind].
    rewrite no_nonzero.
    rewrite (index_nat _ _ 1) by (rewrite lookup_app_r, length_replicate, Nat.sub_diag by (by rewrite length_replicate); reflexivity). cbn [outcome_bind Z.eqb Pos.eqb negb].
    rewrite app_assoc, slice_from_app by (unfold len; rewrite length_app, length_replicate; cbn [length]; lia). cbn [outcome_bind].
    by rewrite timing_safe_equal_spec, bool_decide_eq_true_2.
Qed.

(** What the private exponent made of bytes that are a smaller number, the public one takes back. *)
Lemma public_of_private n e d m r : short n → bytes_ok e → bytes_ok d → bytes_ok m → key_pair (Bytes.from_be_bytes n) (Bytes.from_be_bytes e) (Bytes.from_be_bytes d) →
  (nn <-! from_be_bytes n; dd <-! from_be_bytes d; mm <-! from_be_bytes m; x <-!? rsadp nn dd mm; s <-! to_be_bytes x (length n); Ret (Ok s)) = Ret (Ok r) →
  length r = length n ∧ ∃ nn ee rr x, from_be_bytes n = Ret nn ∧ from_be_bytes e = Ret ee ∧ from_be_bytes r = Ret rr ∧ rsaep nn ee rr = Ret (Ok x) ∧ limbs_ok x ∧ value x = Bytes.from_be_bytes m.
Proof.
  intros Hn He Hd Hm Hk Hs. destruct (private_bytes n d m r Hn Hd Hm Hs) as (Hlt & Hev & Or & El & Er & Hr). split; [done|].
  destruct (number_of n Hn) as (nn & En & On & Vn & Ln). destruct (from_be_bytes_spec e He) as (ee & Ee & Oe & Ve & _). destruct (from_be_bytes_spec r Or) as (rr & Err & Orr & Vr & _).
  destruct (rsaep_ok nn ee rr On Oe Orr Ln) as (x & Ex & Ox & Vx); [by rewrite Vr, Vn|by rewrite Vn|]. exists nn, ee, rr, x. split_and!; try done.
  rewrite Vx, Vr, Vn, Ve, Er. pose proof (from_be_bytes_nonneg m Hm). apply Hk. lia.
Qed.

(** What is signed with PSS is verified with a salt of the same length. *)
Lemma pss_roundtrip `{Profile} n e d message salt s : short n → bytes_ok e → bytes_ok d → bytes_ok salt →
  key_pair (Bytes.from_be_bytes n) (Bytes.from_be_bytes e) (Bytes.from_be_bytes d) →
  rsa_pss_sign hash_fn hlen n d message salt = Ret (Ok s) → rsa_pss_verify hash_fn hlen n e message s (length salt) = Ret (Ok tt).
Proof.
  intros Hn He Hd Hs Hk. destruct (number_of n Hn) as (nn & En & On & Vn & Ln). unfold rsa_pss_sign. rewrite En. cbn [outcome_bind]. unfold pss_em_bits.
  destruct (Nat.eqb_spec (bit_len nn) 0); [by destruct overflow_checks|]. cbn [fallible_bind outcome_bind]. destruct (emsa_pss_encode _ _ _ _ _) as [[em|x]|] eqn:Eem; cbn [fallible_bind outcome_bind]; [|done|done].
  destruct (pss_verify_encode _ _ _ _ Hs Eem) as (Oem & Lem & Hv). intros Hsign.
  destruct (public_of_private n e d em s Hn He Hd Oem Hk) as (El & nn' & ee & ss & x & En' & Ee & Ess & Ex & Ox & Vx); [by rewrite En|]. rewrite En in En'. injection En' as <-.
  unfold rsa_pss_verify. rewrite El, Nat.eqb_refl, En, Ee, Ess. cbn [negb outcome_bind]. rewrite Ex. cbn [fallible_bind outcome_bind]. rewrite to_be_bytes_spec, Vx, <-Lem by done. cbn [outcome_bind].
  by rewrite to_from_be_bytes.
Qed.

End Hashes.

(** ** The first block type *)

Lemma skip_ff_spec k msg : ∀ i, skip_ff (replicate k 255 ++ 0 :: msg) i = (i + k)%nat.
Proof. induction k as [|k IH]; intros i; cbn [replicate app skip_ff]; [cbn; lia|]. change (255 =? 255) with true. cbn iota. rewrite IH. lia. Qed.

(** What is encrypted with the private exponent is decrypted with the public one. *)
Lemma type1_roundtrip n e d msg c : short n → bytes_ok e → bytes_ok d → bytes_ok msg →
  key_pair (Bytes.from_be_bytes n) (Bytes.from_be_bytes e) (Bytes.from_be_bytes d) →
  rsa_private_encrypt_pkcs1 n d msg = Ret (Ok c) → rsa_public_decrypt_pkcs1 n e c = Ret (Ok msg).
Proof.
  intros Hn He Hd Hm Hk. unfold rsa_private_encrypt_pkcs1. destruct (Nat.ltb_spec (length n) 11); [done|]. destruct (Nat.ltb_spec (length n - 11) (length msg)); [done|]. cbn [orb].
  set (ps := (length n - length msg - 3)%nat). set (em := [0; 1] ++ replicate ps 255 ++ [0] ++ msg). intros Hs.
  assert (bytes_ok em) as Oem by (unfold em, bytes_ok; rewrite !Forall_app, !Forall_cons; split_and!; [unfold is_u8; lia..|by apply Forall_nil|apply Forall_replicate; unfold is_u8; lia|unfold is_u8; lia|by apply Forall_nil|done]).
  assert (length em = length n) as Lem by (unfold em; rewrite !length_app, length_replicate; cbn [length]; unfold ps; lia).
  destruct (public_of_private n e d em c Hn He Hd Oem Hk Hs) as (El & nn & ee & cc & x & En & Ee & Ec & Ex & Ox & Vx).
  unfold rsa_public_decrypt_pkcs1. rewrite En, Ee, Ec. cbn [outcome_bind]. rewrite Ex. cbn [fallible_bind outcome_bind]. rewrite to_be_bytes_spec, Vx, <-Lem, to_from_be_bytes by done. cbn [outcome_bind].
  rewrite (index_nat em 0 0 eq_refl : index em 0 = Ret 0), (index_nat em 1 1 eq_refl : index em 1 = Ret 1). cbn [outcome_bind]. rewrite Nat.eqb_refl. cbn [negb orb Z.eqb Pos.eqb].
  change (drop 2 em) with (replicate ps 255 ++ 0 :: msg). rewrite skip_ff_spec. destruct (Nat.ltb_spec (2 + ps) 10); [unfold ps in *; lia|]. destruct (Nat.leb_spec (length em) (2 + ps)); [unfold ps in *; lia|]. cbn [orb].
  assert (em = ([0; 1] ++ replicate ps 255) ++ [0] ++ msg) as -> by by rewrite <-app_assoc. assert (length ([0; 1] ++ replicate ps 255) = (2 + ps)%nat) as Lp by by rewrite length_app, length_replicate.
  rewrite (index_nat _ _ 0) by (rewrite lookup_app_r, Lp, Nat.sub_diag by (by rewrite Lp); reflexivity). cbn [outcome_bind Z.eqb negb].
  rewrite app_assoc, slice_from_app; [done|]. unfold len. rewrite length_app, Lp. cbn [length]. lia.
Qed.

(** C15: with any hash function, what OAEP encrypts under a key it decrypts to the message, what
    PSS signs it verifies, and what the private exponent encrypts as a block of type 1 the public
    one decrypts. *)
Theorem rsa_schemes_roundtrip `{Profile} (hash_fn : list Z → list Z) (hlen : nat) (n e d : list Z) :
  (∀ l, bytes_ok (hash_fn l)) → (∀ l, length (hash_fn l) = hlen) → short n → bytes_ok e → bytes_ok d →
  key_pair (Bytes.from_be_bytes n) (Bytes.from_be_bytes e) (Bytes.from_be_bytes d) →
  (∀ message label seed c, bytes_ok message → bytes_ok seed →
    rsa_oaep_encrypt hash_fn hlen n e message label seed = Ret (Ok c) → rsa_oaep_decrypt hash_fn hlen n d c label = Ret (Ok message)) ∧
  (∀ message salt s, bytes_ok salt → rsa_pss_sign hash_fn hlen n d message salt = Ret (Ok s) → rsa_pss_verify hash_fn hlen n e message s (length salt) = Ret (Ok tt)) ∧
  (∀ msg c, bytes_ok msg → rsa_private_encrypt_pkcs1 n d msg = Ret (Ok c) → rsa_public_decrypt_pkcs1 n e c = Ret (Ok msg)).
Proof.
  intros Hok Hlen Hn He Hd Hk. split_and!.
  - intros message label seed c Hm Hs. by apply oaep_roundtrip.
  - intros message salt s Hs. by apply pss_roundtrip.
  - intros msg c Hm. by apply type1_roundtrip.
Qed.

Lemma rsa_schemes_roundtrip_witness :
  let hash := λ l : list Z, Bytes.to_be_bytes 2 (foldr Z.add 7 l) in let n := replicate 16 255 in let P : Profile := true in
  (∃ c, rsa_oaep_encrypt hash 2 n [1] [104; 105] [] [1; 2] = Ret (Ok c) ∧ rsa_oaep_decrypt hash 2 n [1] c [] = Ret (Ok [104; 105])) ∧
  (∃ s, rsa_pss_sign hash 2 n [1] [104; 105] [3; 4; 5] = Ret (Ok s) ∧ rsa_pss_verify hash 2 n [1] [104; 105] s 3 = Ret (Ok tt)).
Proof.
  destruct (rsa_schemes_roundtrip (H := true : Profile) (λ l : list Z, Bytes.to_be_bytes 2 (foldr Z.add 7 l)) 2 (replicate 16 255) [1] [1]) as (Ho & Hp & _).
  - intros l. apply to_be_bytes_ok.
  - intros l. apply to_be_bytes_length.
  - split; [|done]. apply Forall_replicate. done.
  - by repeat constructor.
  - by repeat constructor.
  - intros m Hm. change (Bytes.from_be_bytes [1]) with 1. rewrite !Z.pow_1_r, !Z.mod_small by (rewrite ?Z.mod_small; lia). done.
  - split.
    + eexists. split; [vm_compute; reflexivity|]. apply (Ho [104; 105] [] [1; 2]); [by repeat constructor..|]. by vm_compute.
    + eexists. split; [vm_compute; reflexivity|]. apply (Hp [104; 105] [3; 4; 5]); [by repeat constructor..|]. by vm_compute.
Defined.
