(* ===== verification/Aes.v ===== *)
(** * Aes: the block cipher

    AES as web-crypto/src/lib.rs computes it: the key expansion, the four steps of a round and
    their inverses on a state of sixteen bytes, stored by rows, and both directions of the cipher.
    The theorems: each inverse undoes its step, and the two directions of the cipher undo each
    other for every key the callers let through. *)

From Stdlib Require Import Btauto.
From S2P Require Import Prelude Bytes Bits Arrays.

Local Open Scope Z_scope.
Local Open Scope cruft_scope.

(** ** Tables *)

Definition AES_SBOX : list Z :=
  [99; 124; 119; 123; 242; 107; 111; 197; 48; 1; 103; 43; 254; 215; 171; 118;
   202; 130; 201; 125; 250; 89; 71; 240; 173; 212; 162; 175; 156; 164; 114; 192;
   183; 253; 147; 38; 54; 63; 247; 204; 52; 165; 229; 241; 113; 216; 49; 21;
   4; 199; 35; 195; 24; 150; 5; 154; 7; 18; 128; 226; 235; 39; 178; 117;
   9; 131; 44; 26; 27; 110; 90; 160; 82; 59; 214; 179; 41; 227; 47; 132;
   83; 209; 0; 237; 32; 252; 177; 91; 106; 203; 190; 57; 74; 76; 88; 207;
   208; 239; 170; 251; 67; 77; 51; 133; 69; 249; 2; 127; 80; 60; 159; 168;
   81; 163; 64; 143; 146; 157; 56; 245; 188; 182; 218; 33; 16; 255; 243; 210;
   205; 12; 19; 236; 95; 151; 68; 23; 196; 167; 126; 61; 100; 93; 25; 115;
   96; 129; 79; 220; 34; 42; 144; 136; 70; 238; 184; 20; 222; 94; 11; 219;
   224; 50; 58; 10; 73; 6; 36; 92; 194; 211; 172; 98; 145; 149; 228; 121;
   231; 200; 55; 109; 141; 213; 78; 169; 108; 86; 244; 234; 101; 122; 174; 8;
   186; 120; 37; 46; 28; 166; 180; 198; 232; 221; 116; 31; 75; 189; 139; 138;
   112; 62; 181; 102; 72; 3; 246; 14; 97; 53; 87; 185; 134; 193; 29; 158;
   225; 248; 152; 17; 105; 217; 142; 148; 155; 30; 135; 233; 206; 85; 40; 223;
   140; 161; 137; 13; 191; 230; 66; 104; 65; 153; 45; 15; 176; 84; 187; 22].

Definition AES_RCON : list Z :=
  [0; 1; 2; 4; 8; 16; 32; 64; 128; 27; 54].

Definition AES_INV_SBOX : list Z :=
  [82; 9; 106; 213; 48; 54; 165; 56; 191; 64; 163; 158; 129; 243; 215; 251;
   124; 227; 57; 130; 155; 47; 255; 135; 52; 142; 67; 68; 196; 222; 233; 203;
   84; 123; 148; 50; 166; 194; 35; 61; 238; 76; 149; 11; 66; 250; 195; 78;
   8; 46; 161; 102; 40; 217; 36; 178; 118; 91; 162; 73; 109; 139; 209; 37;
   114; 248; 246; 100; 134; 104; 152; 22; 212; 164; 92; 204; 93; 101; 182; 146;
   108; 112; 72; 80; 253; 237; 185; 218; 94; 21; 70; 87; 167; 141; 157; 132;
   144; 216; 171; 0; 140; 188; 211; 10; 247; 228; 88; 5; 184; 179; 69; 6;
   208; 44; 30; 143; 202; 63; 15; 2; 193; 175; 189; 3; 1; 19; 138; 107;
   58; 145; 17; 65; 79; 103; 220; 234; 151; 242; 207; 206; 240; 180; 230; 115;
   150; 172; 116; 34; 231; 173; 53; 133; 226; 249; 55; 232; 28; 117; 223; 110;
   71; 241; 26; 113; 29; 41; 197; 137; 111; 183; 98; 14; 170; 24; 190; 27;
   252; 86; 62; 75; 198; 210; 121; 32; 154; 219; 192; 254; 120; 205; 90; 244;
   31; 221; 168; 51; 136; 7; 199; 49; 177; 18; 16; 89; 39; 128; 236; 95;
   96; 81; 127; 169; 25; 181; 74; 13; 45; 229; 122; 159; 147; 201; 156; 239;
   160; 224; 59; 77; 174; 42; 245; 176; 200; 235; 187; 60; 131; 83; 153; 97;
   23; 43; 4; 126; 186; 119; 214; 38; 225; 105; 20; 99; 85; 33; 12; 125].

(** A byte as an index of a table of 256 entries, which is never out of range. *)
Definition sub_byte (table : list Z) (b : Z) : Z := default 0 (table !! Z.to_nat b).

(** ** Words *)

Definition aes_xtime (x : Z) : Z := Z.lxor (as_u8 (Z.shiftl x 1)) (if negb (Z.land x 128 =? 0) then 27 else 0).

Definition rotate_left_8 (w : Z) : Z := Z.lor (as_u32 (Z.shiftl w 8)) (Z.shiftr w 24).

Definition aes_sub_word (w : Z) : Z := Bytes.from_be_bytes (sub_byte AES_SBOX <$> Bytes.to_be_bytes 4 w).

(** The [i]-th word of the schedule from those before it. *)
Definition expand_word (nk i : nat) (w : list Z) : outcome (list Z) :=
  t <-! index w (Z.of_nat i - 1);
  t <-! (if (nk =? 0)%nat then Panic
         else if (i mod nk =? 0)%nat then
           rcon <-! index AES_RCON (Z.of_nat (i / nk));
           Ret (Z.lxor (aes_sub_word (rotate_left_8 t)) (as_u32 (Z.shiftl rcon 24)))
         else if (6 <? nk)%nat && (i mod nk =? 4)%nat then Ret (aes_sub_word t) else Ret t);
  back <-! index w (Z.of_nat (i - nk));
  Ret (w ++ [Z.lxor back t]).

Definition key_word (key : list Z) (i : nat) (w : list Z) : outcome (list Z) :=
  bytes <-! slice key (Z.of_nat (4 * i)) (Z.of_nat (4 * i) + 4);
  Ret (w ++ [Bytes.from_be_bytes bytes]).

Definition aes_key_expansion (key : list Z) : outcome (list Z) :=
  let nk := (length key / 4)%nat in
  let nr := (nk + 6)%nat in
  let total := (4 * (nr + 1))%nat in
  w <-! for_each (key_word key) (seq 0 nk) [];
  for_each (expand_word nk) (seq nk (total - nk)) w.

(** ** The steps of a round *)

(** Byte [i] of a state. *)
Definition at_byte (state : list Z) (i : nat) : Z := default 0 (state !! i).

(** A state from its bytes by row and column. *)
Definition by_cell (f : nat → nat → Z) : list Z := (λ i, f (i / 4)%nat (i mod 4)%nat) <$> seq 0 16.

Definition aes_add_round_key (state w : list Z) : list Z :=
  by_cell (λ r c, Z.lxor (at_byte state (r * 4 + c)) (at_byte (Bytes.to_be_bytes 4 (at_byte w c)) r)).

Definition aes_sub_bytes (state : list Z) : list Z := sub_byte AES_SBOX <$> state.

Definition aes_shift_rows (state : list Z) : list Z :=
  by_cell (λ r c, if (r =? 0)%nat then at_byte state c else at_byte state (r * 4 + (c + r) mod 4)).

(** One byte of a column from itself, the one below it and the sum of the column. *)
Definition mixed (a b t : Z) : Z := Z.lxor a (Z.lxor t (aes_xtime (Z.lxor a b))).

Definition aes_mix_columns (state : list Z) : list Z :=
  by_cell (λ r c,
    let s k := at_byte state (4 * k + c) in
    let t := Z.lxor (Z.lxor (Z.lxor (s 0%nat) (s 1%nat)) (s 2%nat)) (s 3%nat) in
    mixed (s r) (s ((r + 1) mod 4)%nat) t).

Definition aes_inv_sub_bytes (state : list Z) : list Z := sub_byte AES_INV_SBOX <$> state.

Definition aes_inv_shift_rows (state : list Z) : list Z :=
  by_cell (λ r c, if (r =? 0)%nat then at_byte state c else at_byte state (r * 4 + (c + 4 - r) mod 4)).

(** The turns of the product in the field of 256 elements. *)
Fixpoint gf_mul_loop (n : nat) (p a b : Z) : Z :=
  match n with
  | O => p
  | S n =>
      let p := if negb (Z.land b 1 =? 0) then Z.lxor p a else p in
      let hi := Z.land a 128 in
      let a := as_u8 (Z.shiftl a 1) in
      let a := if negb (hi =? 0) then Z.lxor a 27 else a in
      gf_mul_loop n p a (Z.shiftr b 1)
  end.

Definition gf_mul (a b : Z) : Z := gf_mul_loop 8 0 a b.

Definition unmixed (a b c d : Z) : Z := Z.lxor (Z.lxor (Z.lxor (gf_mul 14 a) (gf_mul 11 b)) (gf_mul 13 c)) (gf_mul 9 d).

(** Row [r] has the coefficients 14, 11, 13, 9 rotated by [r]. *)
Definition aes_inv_mix_columns (state : list Z) : list Z :=
  by_cell (λ r c,
    let s k := at_byte state (4 * ((r + k) mod 4) + c) in
    unmixed (s 0%nat) (s 1%nat) (s 2%nat) (s 3%nat)).

(** ** The cipher *)

(** The columns of a block are the words of it; also the way back. *)
Definition transpose (block : list Z) : list Z := by_cell (λ r c, at_byte block (4 * c + r)).

Definition round_key (w : list Z) (round : nat) : outcome (list Z) :=
  slice w (Z.of_nat (4 * round)) (Z.of_nat (4 * round) + 4).

(** [w.len() / 4 - 1], which underflows for a schedule of fewer than four words; without overflow
    checks the slice that follows panics. *)
Definition rounds (w : list Z) : outcome nat :=
  if (length w / 4 =? 0)%nat then Panic else Ret (length w / 4 - 1)%nat.

Definition encrypt_round (w : list Z) (round : nat) (state : list Z) : outcome (list Z) :=
  k <-! round_key w round;
  Ret (aes_add_round_key (aes_mix_columns (aes_shift_rows (aes_sub_bytes state))) k).

Definition aes_encrypt_block (block w : list Z) : outcome (list Z) :=
  nr <-! rounds w;
  k0 <-! round_key w 0;
  state <-! for_each (encrypt_round w) (seq 1 (nr - 1)) (aes_add_round_key (transpose block) k0);
  k <-! round_key w nr;
  Ret (transpose (aes_add_round_key (aes_shift_rows (aes_sub_bytes state)) k)).

Definition decrypt_round (w : list Z) (round : nat) (state : list Z) : outcome (list Z) :=
  k <-! round_key w round;
  Ret (aes_inv_mix_columns (aes_add_round_key (aes_inv_sub_bytes (aes_inv_shift_rows state)) k)).

Definition aes_decrypt_block (block w : list Z) : outcome (list Z) :=
  nr <-! rounds w;
  k <-! round_key w nr;
  state <-! for_each (decrypt_round w) (reverse (seq 1 (nr - 1))) (aes_add_round_key (transpose block) k);
  k0 <-! round_key w 0;
  Ret (transpose (aes_add_round_key (aes_inv_sub_bytes (aes_inv_shift_rows state)) k0)).

Definition key_length_ok (key : list Z) : bool := (length key =? 16)%nat || (length key =? 24)%nat || (length key =? 32)%nat.

Definition aes_encrypt_block_with_key (key block : list Z) : outcome (list Z) :=
  if key_length_ok key then w <-! aes_key_expansion key; aes_encrypt_block block w else Panic.

Definition aes_decrypt_block_with_key (key block : list Z) : outcome (list Z) :=
  w <-! aes_key_expansion key; aes_decrypt_block block w.

Example fips_197 :
  aes_encrypt_block_with_key [0; 1; 2; 3; 4; 5; 6; 7; 8; 9; 10; 11; 12; 13; 14; 15] [0; 17; 34; 51; 68; 85; 102; 119; 136; 153; 170; 187; 204; 221; 238; 255] =
  Ret [105; 196; 224; 216; 106; 123; 4; 48; 216; 205; 183; 128; 112; 180; 197; 90].
Proof. by vm_compute. Qed.

(** ** The steps and their inverses *)

Definition state_ok (s : list Z) : Prop := length s = 16%nat ∧ bytes_ok s.

(** Equalities of exclusive ors, bit by bit. *)
Ltac xor_bits := apply Z.bits_inj'; intros ? _; rewrite ?Z.lxor_spec; btauto.

Lemma byte_equation (f g : Z → Z) : forallb (λ b, f b =? g b) every_byte = true → ∀ b, is_u8 b → f b = g b.
Proof. intros H b Hb. by apply Z.eqb_eq, (byte_decide (λ b, f b =? g b)). Qed.

Lemma four (P : nat → Prop) : P 0%nat → P 1%nat → P 2%nat → P 3%nat → ∀ r, (r < 4)%nat → P r.
Proof. intros H0 H1 H2 H3 [|[|[|[|r]]]] Hr; [done..|lia]. Qed.

Lemma sixteen (P : list Z → Prop) :
  (∀ x0 x1 x2 x3 x4 x5 x6 x7 x8 x9 x10 x11 x12 x13 x14 x15, P [x0; x1; x2; x3; x4; x5; x6; x7; x8; x9; x10; x11; x12; x13; x14; x15]) → ∀ s, length s = 16%nat → P s.
Proof. intros H s Hs. do 16 (destruct s as [|? s]; [done|]). destruct s; [apply H|done]. Qed.

Lemma at_cell f r c : (r < 4)%nat → (c < 4)%nat → at_byte (by_cell f) (r * 4 + c) = f r c.
Proof. revert r. apply (four (λ r, _ → _)); revert c; by apply (four (λ c, _)). Qed.

Lemma by_cell_eq f s : length s = 16%nat → (∀ r c, (r < 4)%nat → (c < 4)%nat → f r c = at_byte s (r * 4 + c)) → by_cell f = s.
Proof.
  revert s. apply (sixteen (λ s, _ → by_cell f = s)). intros x0 x1 x2 x3 x4 x5 x6 x7 x8 x9 x10 x11 x12 x13 x14 x15 H. change (by_cell f) with [f 0%nat 0%nat; f 0%nat 1%nat; f 0%nat 2%nat; f 0%nat 3%nat; f 1%nat 0%nat; f 1%nat 1%nat; f 1%nat 2%nat; f 1%nat 3%nat; f 2%nat 0%nat; f 2%nat 1%nat; f 2%nat 2%nat; f 2%nat 3%nat; f 3%nat 0%nat; f 3%nat 1%nat; f 3%nat 2%nat; f 3%nat 3%nat].
  by rewrite !H by lia.
Qed.

Lemma by_cell_ok f : (∀ r c, (r < 4)%nat → (c < 4)%nat → is_u8 (f r c)) → state_ok (by_cell f).
Proof.
  intros H. split; [done|]. unfold by_cell, bytes_ok. apply Forall_fmap, Forall_seq. intros i Hi. apply H.
  - apply Nat.Div0.div_lt_upper_bound; lia.
  - by apply Nat.mod_upper_bound.
Qed.

Lemma at_byte_ok s i : bytes_ok s → is_u8 (at_byte s i).
Proof. intros Hs. unfold at_byte. destruct (s !! i) as [b|] eqn:E; cbn; [by apply (Forall_lookup_1 _ _ _ _ Hs E)|unfold is_u8; lia]. Qed.

Lemma add_round_key_ok s w : state_ok s → state_ok (aes_add_round_key s w).
Proof. intros [_ Hs]. apply by_cell_ok. intros r c _ _. apply lxor_u8; apply at_byte_ok; [done|apply to_be_bytes_ok]. Qed.

Lemma add_round_key_twice s w : state_ok s → aes_add_round_key (aes_add_round_key s w) w = s.
Proof.
  intros [Hl _]. apply by_cell_eq; [done|]. intros r c Hr Hc. unfold aes_add_round_key at 1. rewrite at_cell by done.
  by rewrite Z.lxor_assoc, Z.lxor_nilpotent, Z.lxor_0_r.
Qed.

Lemma sub_byte_ok table b : bytes_ok table → is_u8 (sub_byte table b).
Proof. apply at_byte_ok. Qed.

Lemma sboxes_ok : bytes_ok AES_SBOX ∧ bytes_ok AES_INV_SBOX.
Proof. split; apply (bool_decide_eq_true_1 _); by vm_compute. Qed.

Lemma sub_bytes_ok s : state_ok s → state_ok (aes_sub_bytes s) ∧ state_ok (aes_inv_sub_bytes s).
Proof.
  intros [Hl _]. unfold aes_sub_bytes, aes_inv_sub_bytes, state_ok, bytes_ok. rewrite !length_fmap. split; (split; [done|]); apply Forall_fmap, Forall_true; intros b; apply sub_byte_ok, sboxes_ok.
Qed.

Lemma sub_bytes_inverse s : bytes_ok s → aes_inv_sub_bytes (aes_sub_bytes s) = s ∧ aes_sub_bytes (aes_inv_sub_bytes s) = s.
Proof.
  intros Hs. unfold aes_sub_bytes, aes_inv_sub_bytes. rewrite <- ! list_fmap_compose. split; (etrans; [apply (list_fmap_ext _ id)|apply list_fmap_id]); intros i b Hb; apply (Forall_lookup_1 _ _ _ _ Hs) in Hb; revert b Hb; apply byte_equation; by vm_compute.
Qed.

Lemma shift_rows_ok s : state_ok s → state_ok (aes_shift_rows s) ∧ state_ok (aes_inv_shift_rows s).
Proof. intros [_ Hs]. split; apply by_cell_ok; intros r c _ _; destruct (r =? 0)%nat; by apply at_byte_ok. Qed.

Lemma shift_rows_inverse s : length s = 16%nat → aes_inv_shift_rows (aes_shift_rows s) = s ∧ aes_shift_rows (aes_inv_shift_rows s) = s.
Proof. revert s. apply sixteen. by intros. Qed.

Lemma transpose_ok s : state_ok s → state_ok (transpose s).
Proof. intros [_ Hs]. apply by_cell_ok. intros r c _ _. by apply at_byte_ok. Qed.

Lemma transpose_twice s : length s = 16%nat → transpose (transpose s) = s.
Proof. revert s. apply sixteen. by intros. Qed.

(** *** The field *)

Lemma low_bit b : negb (Z.land b 1 =? 0) = Z.testbit b 0.
Proof. change 1 with (2 ^ 1 - 1). rewrite land_low, Z.bit0_odd, Zmod_odd by lia. by destruct (Z.odd b). Qed.

Lemma gf_mul_loop_xor n : ∀ p q a b c, gf_mul_loop n (Z.lxor p q) a (Z.lxor b c) = Z.lxor (gf_mul_loop n p a b) (gf_mul_loop n q a c).
Proof.
  induction n as [|n IH]; intros p q a b c; [done|]. cbn [gf_mul_loop]. rewrite !low_bit, Z.lxor_spec, Z.shiftr_lxor. set (a' := if negb (Z.land a 128 =? 0) then _ else _). clearbody a'. rewrite <-IH. f_equal.
  destruct (Z.testbit b 0), (Z.testbit c 0); cbn [xorb]; xor_bits.
Qed.

Lemma gf_mul_xor k b c : gf_mul k (Z.lxor b c) = Z.lxor (gf_mul k b) (gf_mul k c).
Proof. apply (gf_mul_loop_xor 8 0 0). Qed.

Lemma xtime_gf b : is_u8 b → aes_xtime b = gf_mul 2 b.
Proof. revert b. apply byte_equation. by vm_compute. Qed.

Lemma gf_byte k b : is_u8 k → is_u8 (gf_mul k b).
Proof.
  intros Hk. unfold gf_mul. assert (is_u8 0) as Hp by done. revert Hp Hk. generalize 0. generalize 8%nat. intros n. revert k b. induction n as [|n IH]; intros k b p Hp Hk; [done|]. cbn [gf_mul_loop].
  apply IH; [destruct (negb _); [by apply lxor_u8|done]|destruct (negb _); [apply lxor_u8; [apply as_u8_ok|done]|apply as_u8_ok]].
Qed.

(** The coefficients of the inverse undo those of the step, in one column. *)
Lemma sum_of_parts a x p q r s : p = a → q = 0 → r = 0 → s = 0 → x = Z.lxor (Z.lxor (Z.lxor p q) r) s → x = a.
Proof. intros -> -> -> -> ->. by rewrite !Z.lxor_0_r. Qed.

Lemma unmix_column a b c d t : is_u8 a → is_u8 b → is_u8 c → is_u8 d → t = Z.lxor (Z.lxor (Z.lxor a b) c) d →
  unmixed (mixed a b t) (mixed b c t) (mixed c d t) (mixed d a t) = a.
Proof.
  intros Ha Hb Hc Hd ->. unfold mixed, unmixed. rewrite !xtime_gf by by apply lxor_u8. rewrite !gf_mul_xor.
  assert (∀ k x, is_u8 x → (k = 14 ∨ k = 11 ∨ k = 13 ∨ k = 9) → gf_mul k (gf_mul 2 x) = gf_mul (as_u8 (2 * k)) x) as Hk.
  { intros k x Hx H. revert x Hx. by destruct H as [->|[->|[->| ->]]]; apply byte_equation; vm_compute. }
  rewrite !(Hk 14), !(Hk 11), !(Hk 13), !(Hk 9) by auto. cbn [as_u8].
  assert (∀ x, is_u8 x → Z.lxor (Z.lxor (Z.lxor (Z.lxor (gf_mul (as_u8 (2 * 14)) x) (gf_mul 11 x)) (gf_mul 13 x)) (gf_mul 9 x)) (gf_mul (as_u8 (2 * 9)) x) = x) as E1 by (apply byte_equation; by vm_compute).
  assert (∀ x, is_u8 x → Z.lxor (Z.lxor (Z.lxor (Z.lxor (gf_mul 14 x) (gf_mul (as_u8 (2 * 14)) x)) (gf_mul (as_u8 (2 * 11)) x)) (gf_mul 13 x)) (gf_mul 9 x) = 0) as E2 by (apply (byte_equation _ (λ _, 0)); by vm_compute).
  assert (∀ x, is_u8 x → Z.lxor (Z.lxor (Z.lxor (Z.lxor (gf_mul 14 x) (gf_mul 11 x)) (gf_mul (as_u8 (2 * 11)) x)) (gf_mul (as_u8 (2 * 13)) x)) (gf_mul 9 x) = 0) as E3 by (apply (byte_equation _ (λ _, 0)); by vm_compute).
  assert (∀ x, is_u8 x → Z.lxor (Z.lxor (Z.lxor (Z.lxor (gf_mul 14 x) (gf_mul 11 x)) (gf_mul 13 x)) (gf_mul (as_u8 (2 * 13)) x)) (gf_mul (as_u8 (2 * 9)) x) = 0) as E4 by (apply (byte_equation _ (λ _, 0)); by vm_compute).
  apply (sum_of_parts a _ _ _ _ _ (E1 a Ha) (E2 b Hb) (E3 c Hc) (E4 d Hd)). xor_bits.
Qed.

Lemma remix_column a b c d t : is_u8 a → is_u8 b → is_u8 c → is_u8 d →
  let i0 := unmixed a b c d in let i1 := unmixed b c d a in let i2 := unmixed c d a b in let i3 := unmixed d a b c in
  t = Z.lxor (Z.lxor (Z.lxor i0 i1) i2) i3 → mixed i0 i1 t = a.
Proof.
  intros Ha Hb Hc Hd. cbn zeta. intros ->. unfold mixed. rewrite xtime_gf by (apply lxor_u8; unfold unmixed; repeat apply lxor_u8; by apply gf_byte). unfold unmixed. rewrite !gf_mul_xor.
  assert (∀ k x, is_u8 x → (k = 14 ∨ k = 11 ∨ k = 13 ∨ k = 9) → gf_mul 2 (gf_mul k x) = gf_mul (as_u8 (2 * k)) x) as Hk.
  { intros k x Hx H. revert x Hx. by destruct H as [->|[->|[->| ->]]]; apply byte_equation; vm_compute. }
  rewrite !(Hk 14), !(Hk 11), !(Hk 13), !(Hk 9) by auto.
  assert (∀ x, is_u8 x → Z.lxor (Z.lxor (Z.lxor (Z.lxor (gf_mul 9 x) (gf_mul 13 x)) (gf_mul 11 x)) (gf_mul (as_u8 (2 * 14)) x)) (gf_mul (as_u8 (2 * 9)) x) = x) as E1 by (apply byte_equation; by vm_compute).
  assert (∀ x, is_u8 x → Z.lxor (Z.lxor (Z.lxor (Z.lxor (gf_mul 14 x) (gf_mul 9 x)) (gf_mul 13 x)) (gf_mul (as_u8 (2 * 11)) x)) (gf_mul (as_u8 (2 * 14)) x) = 0) as E2 by (apply (byte_equation _ (λ _, 0)); by vm_compute).
  assert (∀ x, is_u8 x → Z.lxor (Z.lxor (Z.lxor (Z.lxor (gf_mul 11 x) (gf_mul 14 x)) (gf_mul 9 x)) (gf_mul (as_u8 (2 * 13)) x)) (gf_mul (as_u8 (2 * 11)) x) = 0) as E3 by (apply (byte_equation _ (λ _, 0)); by vm_compute).
  assert (∀ x, is_u8 x → Z.lxor (Z.lxor (Z.lxor (Z.lxor (gf_mul 13 x) (gf_mul 11 x)) (gf_mul 14 x)) (gf_mul (as_u8 (2 * 9)) x)) (gf_mul (as_u8 (2 * 13)) x) = 0) as E4 by (apply (byte_equation _ (λ _, 0)); by vm_compute).
  apply (sum_of_parts a _ _ _ _ _ (E1 a Ha) (E2 b Hb) (E3 c Hc) (E4 d Hd)). xor_bits.
Qed.

Lemma at_column f k c : (k < 4)%nat → (c < 4)%nat → at_byte (by_cell f) (4 * k + c) = f k c.
Proof. intros. by rewrite Nat.mul_comm, at_cell. Qed.

Lemma mixed_ok a b t : is_u8 a → is_u8 b → is_u8 t → is_u8 (mixed a b t).
Proof. intros Ha Hb Ht. unfold mixed. rewrite xtime_gf by by apply lxor_u8. repeat apply lxor_u8; try done. by apply gf_byte. Qed.

Lemma unmixed_ok a b c d : is_u8 (unmixed a b c d).
Proof. unfold unmixed. by repeat apply lxor_u8; apply gf_byte. Qed.

Lemma mix_columns_ok s : state_ok s → state_ok (aes_mix_columns s) ∧ state_ok (aes_inv_mix_columns s).
Proof.
  intros [_ Hs]. split; apply by_cell_ok; intros r c _ _; cbn zeta; [|apply unmixed_ok].
  apply mixed_ok; [by apply at_byte_ok..|]. repeat apply lxor_u8; by apply at_byte_ok.
Qed.

Lemma mix_columns_inverse s : state_ok s → aes_inv_mix_columns (aes_mix_columns s) = s ∧ aes_mix_columns (aes_inv_mix_columns s) = s.
Proof.
  intros [Hl Hs]. pose proof (λ i, at_byte_ok s i Hs) as Hb. split; (apply by_cell_eq; [done|]); intros r c Hr Hc; replace (r * 4)%nat with (4 * r)%nat by lia; revert r Hr; apply four; cbn zeta; cbn [Nat.add Nat.modulo Nat.divmod Nat.sub fst snd];
    unfold aes_mix_columns, aes_inv_mix_columns; rewrite !at_column by lia; cbn zeta; cbn [Nat.add Nat.modulo Nat.divmod Nat.sub fst snd].
  all: generalize (Hb (4 * 0 + c)%nat) (Hb (4 * 1 + c)%nat) (Hb (4 * 2 + c)%nat) (Hb (4 * 3 + c)%nat); generalize (at_byte s (4 * 0 + c)) (at_byte s (4 * 1 + c)) (at_byte s (4 * 2 + c)) (at_byte s (4 * 3 + c)); intros x0 x1 x2 x3 H0 H1 H2 H3.
  - apply (unmix_column x0 x1 x2 x3); [done..|xor_bits].
  - apply (unmix_column x1 x2 x3 x0); [done..|xor_bits].
  - apply (unmix_column x2 x3 x0 x1); [done..|xor_bits].
  - apply (unmix_column x3 x0 x1 x2); [done..|xor_bits].
  - apply (remix_column x0 x1 x2 x3); [done..|xor_bits].
  - apply (remix_column x1 x2 x3 x0); [done..|xor_bits].
  - apply (remix_column x2 x3 x0 x1); [done..|xor_bits].
  - apply (remix_column x3 x0 x1 x2); [done..|xor_bits].
Qed.

(** ** The cipher and its inverse *)

Definition schedule_ok (w : list Z) : Prop := ∃ nr, (1 ≤ nr)%nat ∧ length w = (4 * (nr + 1))%nat.

Lemma rounds_ok w : schedule_ok w → ∃ nr, rounds w = Ret nr ∧ (1 ≤ nr)%nat ∧ length w = (4 * (nr + 1))%nat.
Proof.
  intros (nr & Hn & Hl). exists nr. split; [|done]. unfold rounds. rewrite Hl, Nat.mul_comm, Nat.div_mul by done. destruct (Nat.eqb_spec (nr + 1) 0); [lia|]. f_equal. lia.
Qed.

Lemma round_key_ok w nr r : length w = (4 * (nr + 1))%nat → (r ≤ nr)%nat → ∃ k, round_key w r = Ret k.
Proof. intros Hl Hr. unfold round_key. rewrite slice_ok by (unfold len; lia). by eexists. Qed.

(** The first half of a round and its inverse. *)
Definition half (s : list Z) : list Z := aes_shift_rows (aes_sub_bytes s).
Definition unhalf (s : list Z) : list Z := aes_inv_sub_bytes (aes_inv_shift_rows s).

Lemma half_ok s : state_ok s → state_ok (half s) ∧ state_ok (unhalf s).
Proof. intros Hs. split; [apply shift_rows_ok, sub_bytes_ok, Hs|apply sub_bytes_ok, shift_rows_ok, Hs]. Qed.

Lemma half_inverse s : state_ok s → unhalf (half s) = s ∧ half (unhalf s) = s.
Proof.
  intros Hs. unfold half, unhalf. rewrite (proj1 (shift_rows_inverse _ (proj1 (proj1 (sub_bytes_ok s Hs))))), (proj1 (sub_bytes_inverse s (proj2 Hs))).
  rewrite (proj2 (sub_bytes_inverse _ (proj2 (proj2 (shift_rows_ok s Hs))))), (proj2 (shift_rows_inverse s (proj1 Hs))). done.
Qed.

Lemma rounds_total w nr l s : length w = (4 * (nr + 1))%nat → Forall (λ r, (r ≤ nr)%nat) l → state_ok s →
  (∃ s', for_each (encrypt_round w) l s = Ret s' ∧ state_ok s') ∧ (∃ s', for_each (decrypt_round w) l s = Ret s' ∧ state_ok s').
Proof.
  intros Hw Hl. revert s. induction Hl as [|r l Hr Hl IH]; intros s Hs; [split; by exists s|]. destruct (round_key_ok w nr r Hw Hr) as (k & Ek). cbn [for_each]. unfold encrypt_round at 1, decrypt_round at 1. rewrite Ek. cbn [outcome_bind]. split.
  - apply IH. by apply add_round_key_ok, mix_columns_ok, half_ok.
  - apply IH. by apply mix_columns_ok, add_round_key_ok, half_ok.
Qed.

Lemma rounds_back w nr l : length w = (4 * (nr + 1))%nat → Forall (λ r, (r ≤ nr)%nat) l → ∀ s s', state_ok s → 
  (for_each (encrypt_round w) l s = Ret s' → for_each (decrypt_round w) (reverse l) (half s') = Ret (half s)) ∧
  (for_each (decrypt_round w) l s = Ret s' → for_each (encrypt_round w) (reverse l) (unhalf s') = Ret (unhalf s)).
Proof.
  intros Hw Hl. induction Hl as [|r l Hr Hl IH]; intros s s' Hs; [split; by intros [= <-]|]. destruct (round_key_ok w nr r Hw Hr) as (k & Ek). cbn [for_each].
  unfold encrypt_round at 1, decrypt_round at 2. rewrite Ek. cbn [outcome_bind]. rewrite reverse_cons, !for_each_app.
  pose proof (half_ok s Hs) as [Hh Hu]. split; intros E.
  - apply IH in E; [|by apply add_round_key_ok, mix_columns_ok]. rewrite E. cbn [outcome_bind for_each]. unfold decrypt_round. rewrite Ek. cbn [outcome_bind]. fold (half s). change (aes_inv_sub_bytes (aes_inv_shift_rows ?x)) with (unhalf x).
    rewrite (proj1 (half_inverse _ (add_round_key_ok _ _ (proj1 (mix_columns_ok _ Hh))))), add_round_key_twice by (by apply mix_columns_ok). by rewrite (proj1 (mix_columns_inverse _ Hh)).
  - apply IH in E; [|by apply mix_columns_ok, add_round_key_ok]. rewrite E. cbn [outcome_bind for_each]. unfold encrypt_round. rewrite Ek. cbn [outcome_bind]. change (aes_shift_rows (aes_sub_bytes ?x)) with (half x).
    fold (unhalf s). rewrite (proj2 (half_inverse _ (proj2 (mix_columns_ok _ (add_round_key_ok _ _ Hu))))), (proj2 (mix_columns_inverse _ (add_round_key_ok _ _ Hu))). by rewrite add_round_key_twice.
Qed.

Lemma aes_block_inverse w b : schedule_ok w → state_ok b →
  (∃ c, aes_encrypt_block b w = Ret c ∧ state_ok c ∧ aes_decrypt_block c w = Ret b) ∧ (∃ c, aes_decrypt_block b w = Ret c ∧ state_ok c ∧ aes_encrypt_block c w = Ret b).
Proof.
  intros (nr & En & Hn & Hl)%rounds_ok Hb. unfold aes_encrypt_block, aes_decrypt_block. rewrite En. cbn [outcome_bind].
  destruct (round_key_ok w nr 0 Hl) as (k0 & E0); [lia|]. destruct (round_key_ok w nr nr Hl) as (k & Ek); [lia|]. rewrite E0, Ek. cbn [outcome_bind].
  assert (Forall (λ r, (r ≤ nr)%nat) (seq 1 (nr - 1))) as Hf by (apply Forall_seq; lia). pose proof (transpose_ok b Hb) as Ht. split.
  - set (s0 := aes_add_round_key (transpose b) k0). assert (state_ok s0) as H0 by by apply add_round_key_ok. destruct (rounds_total w nr _ s0 Hl Hf H0) as [(s & Es & Hs) _]. rewrite Es. cbn [outcome_bind]. fold (half s).
    pose proof (proj1 (half_ok s Hs)) as Hh. assert (state_ok (aes_add_round_key (half s) k)) as Ha by by apply add_round_key_ok. eexists. split; [done|]. split; [by apply transpose_ok|].
    rewrite transpose_twice, add_round_key_twice by (done || apply Ha). rewrite (proj1 (rounds_back w nr _ Hl Hf s0 s H0) Es). cbn [outcome_bind]. fold (unhalf (half s0)). rewrite (proj1 (half_inverse s0 H0)).
    unfold s0. by rewrite add_round_key_twice, transpose_twice by (done || apply Hb).
  - set (s0 := aes_add_round_key (transpose b) k). assert (state_ok s0) as H0 by by apply add_round_key_ok. assert (Forall (λ r, (r ≤ nr)%nat) (reverse (seq 1 (nr - 1)))) as Hg by by apply Forall_reverse.
    destruct (rounds_total w nr _ s0 Hl Hg H0) as [_ (s & Es & Hs)]. rewrite Es. cbn [outcome_bind]. fold (unhalf s).
    pose proof (proj2 (half_ok s Hs)) as Hh. assert (state_ok (aes_add_round_key (unhalf s) k0)) as Ha by by apply add_round_key_ok. eexists. split; [done|]. split; [by apply transpose_ok|].
    rewrite transpose_twice, add_round_key_twice by (done || apply Ha). pose proof (proj2 (rounds_back w nr _ Hl Hg s0 s H0) Es) as Eb. rewrite reverse_involutive in Eb. rewrite Eb. cbn [outcome_bind]. fold (half (unhalf s0)). rewrite (proj2 (half_inverse s0 H0)).
    unfold s0. by rewrite add_round_key_twice, transpose_twice by (done || apply Hb).
Qed.

(** ** The key schedule *)

Lemma key_words key n : (4 * n ≤ length key)%nat → ∃ w, for_each (key_word key) (seq 0 n) [] = Ret w ∧ length w = n.
Proof.
  induction n as [|n IH]; intros Hn; [by exists []|]. destruct IH as (w & E & Hw); [lia|]. rewrite seq_S, for_each_app, E. cbn [outcome_bind for_each Nat.add]. unfold key_word. rewrite slice_ok by (unfold len; lia). cbn [outcome_bind].
  eexists. split; [done|]. rewrite length_app, Hw. cbn [length]. lia.
Qed.

Lemma expand_word_ok nk i w : (1 ≤ nk)%nat → (nk ≤ i)%nat → (i / nk ≤ 10)%nat → length w = i → ∃ w', expand_word nk i w = Ret w' ∧ length w' = S i.
Proof.
  intros Hk Hi Hr Hl. unfold expand_word. destruct (index_total w (Z.of_nat i - 1)) as (t & -> & _); [unfold len; lia|]. cbn [outcome_bind]. destruct (Nat.eqb_spec nk 0); [lia|].
  destruct (index_total w (Z.of_nat (i - nk))) as (b & Eb & _); [unfold len; lia|]. destruct (index_total AES_RCON (Z.of_nat (i / nk))) as (rc & Erc & _); [change (len AES_RCON) with 11; lia|].
  destruct (_ =? 0)%nat; [|destruct (_ && _)]; rewrite ?Erc; cbn [outcome_bind]; rewrite Eb; cbn [outcome_bind]; eexists; (split; [done|]); rewrite length_app, Hl; cbn [length]; lia.
Qed.

Lemma expand_words nk w n : (1 ≤ nk)%nat → ((nk + n - 1) / nk ≤ 10)%nat → length w = nk → ∃ w', for_each (expand_word nk) (seq nk n) w = Ret w' ∧ length w' = (nk + n)%nat.
Proof.
  intros Hk Hr Hl. induction n as [|n IH]; [exists w; split; [done|lia]|]. destruct IH as (w1 & E & H1); [etrans; [|exact Hr]; apply Nat.Div0.div_le_mono; lia|].
  rewrite seq_S, for_each_app, E. cbn [outcome_bind for_each]. destruct (expand_word_ok nk (nk + n) w1) as (w2 & -> & H2); [done|lia| |done|]; [by replace (nk + S n - 1)%nat with (nk + n)%nat in Hr by lia|]. exists w2. split; [done|lia].
Qed.

Lemma key_expansion_ok key : key_length_ok key = true → ∃ w, aes_key_expansion key = Ret w ∧ schedule_ok w.
Proof.
  unfold key_length_ok. intros Hk. assert (length key = 16 ∨ length key = 24 ∨ length key = 32)%nat as Hc.
  { apply orb_prop in Hk as [[H|H]%orb_prop|H]; apply Nat.eqb_eq in H; auto. }
  unfold aes_key_expansion, schedule_ok. destruct (key_words key (length key / 4)) as (w & -> & Hw); [apply Nat.Div0.mul_div_le|]. cbn [outcome_bind].
  set (nk := (length key / 4)%nat) in *. assert (nk = 4 ∨ nk = 6 ∨ nk = 8)%nat as Hn by (unfold nk; destruct Hc as [->|[->| ->]]; cbn; auto).
  assert ((nk + (4 * (nk + 6 + 1) - nk) - 1) / nk ≤ 10)%nat as Hr by (destruct Hn as [->|[->| ->]]; cbn; lia).
  destruct (expand_words nk w (4 * (nk + 6 + 1) - nk)) as (w' & Ew & Hw'); [lia|done|done|]. exists w'. split; [done|]. exists (nk + 6)%nat. lia.
Qed.

(** For every key of a length the callers let through, encryption and decryption of a block
    never panic, give a block, and undo each other both ways: the cipher is a permutation of the
    blocks.  The encrypting function of the crate panics for exactly the other lengths. *)
Lemma aes_permutation (key b : list Z) : state_ok b →
  if key_length_ok key
  then (∃ c, aes_encrypt_block_with_key key b = Ret c ∧ state_ok c ∧ aes_decrypt_block_with_key key c = Ret b) ∧
       (∃ c, aes_decrypt_block_with_key key b = Ret c ∧ state_ok c ∧ aes_encrypt_block_with_key key c = Ret b)
  else aes_encrypt_block_with_key key b = Panic.
Proof.
  intros Hb. unfold aes_encrypt_block_with_key, aes_decrypt_block_with_key. destruct (key_length_ok key) eqn:Ek; [|done].
  destruct (key_expansion_ok key Ek) as (w & -> & Hw). cbn [outcome_bind]. by apply aes_block_inverse.
Qed.

