(* ===== verification/AesModes.v ===== *)
(** * AesModes: modes of operation of the block cipher

    CBC with and without padding, CTR, key wrap and GCM of web-crypto/src/lib.rs, on the cipher of
    [Aes].  The theorem: the modes are the equations of the standards ([chained], [streamed]), with
    counters that count modulo the power of two their length asks for; what is encrypted is
    decrypted, unwrapping accepts exactly what wrapping makes, and decryption with GCM answers
    exactly when the tag is the one of the ciphertext as far as it goes. *)

From Stdlib Require String.
From Stdlib Require Import Btauto.
From S2P Require Import Prelude Bytes Bits Arrays Rsa Aes.

Local Open Scope Z_scope.
Local Open Scope cruft_scope.

(** ** Pieces of a slice *)

Fixpoint chunks_fuel (fuel n : nat) (l : list Z) : list (list Z) :=
  match fuel, l with
  | O, _ | _, [] => []
  | S fuel, _ => take n l :: chunks_fuel fuel n (drop n l)
  end.

(** [chunks(n)]; every piece takes a byte, so the length is enough fuel. *)
Definition chunks (n : nat) (l : list Z) : list (list Z) := chunks_fuel (length l) n l.

(** Sixteen bytes of a piece, xored with a block. *)
Definition xor_block (chunk prev : list Z) : outcome (list Z) := if (length chunk <? 16)%nat then Panic else Ret (xor_bytes chunk prev).

(** [copy_from_slice] into an array of [n] bytes. *)
Definition copy_exact (n : nat) (chunk : list Z) : outcome (list Z) := if (length chunk =? n)%nat then Ret chunk else Panic.

(** ** CBC *)

Definition key_error (mode : string) (key : list Z) : string := mode +:+ ": invalid key length " +:+ Text.u64_to_string (len key).

Definition cbc_encrypt_chunk (w chunk : list Z) (s : list Z * list Z) : outcome (list Z * list Z) :=
  block <-! xor_block chunk s.1; c <-! aes_encrypt_block block w; Ret (c, s.2 ++ c).

Definition aes_cbc_encrypt (key iv plaintext : list Z) : fallible (list Z) string :=
  if negb (key_length_ok key) then Ret (Err (key_error "AES-CBC" key))
  else if negb (length iv =? 16)%nat then Ret (Err "AES-CBC: IV must be 16 bytes")
  else
    w <-! aes_key_expansion key;
    let pad := (16 - length plaintext mod 16)%nat in
    let padded := plaintext ++ replicate pad (as_u8 (Z.of_nat pad)) in
    s <-! for_each (cbc_encrypt_chunk w) (chunks 16 padded) (iv, []);
    Ret (Ok s.2).

Definition aes_cbc_encrypt_no_pad (key iv plaintext : list Z) : fallible (list Z) string :=
  if negb (key_length_ok key) then Ret (Err (key_error "AES-CBC" key))
  else if negb (length iv =? 16)%nat then Ret (Err "AES-CBC: IV must be 16 bytes")
  else if negb (length plaintext mod 16 =? 0)%nat then Ret (Err "AES-CBC: data not block-aligned")
  else
    w <-! aes_key_expansion key;
    s <-! for_each (cbc_encrypt_chunk w) (chunks 16 plaintext) (iv, []);
    Ret (Ok s.2).

Definition cbc_decrypt_chunk (w chunk : list Z) (s : list Z * list Z) : outcome (list Z * list Z) :=
  block <-! copy_exact 16 chunk; d <-! aes_decrypt_block block w; Ret (block, s.2 ++ xor_bytes d s.1).

Definition aes_cbc_decrypt_no_pad (key iv ciphertext : list Z) : fallible (list Z) string :=
  if negb (key_length_ok key) then Ret (Err (key_error "AES-CBC" key))
  else if negb (length iv =? 16)%nat then Ret (Err "AES-CBC: IV must be 16 bytes")
  else if (length ciphertext =? 0)%nat || negb (length ciphertext mod 16 =? 0)%nat then Ret (Err "AES-CBC: ciphertext must be a positive multiple of 16 bytes")
  else
    w <-! aes_key_expansion key;
    s <-! for_each (cbc_decrypt_chunk w) (chunks 16 ciphertext) (iv, []);
    Ret (Ok s.2).

Definition cbc_unpad (out : list Z) : fallible (list Z) string :=
  match last out with
  | None => Ret (Err "AES-CBC: empty output")
  | Some pad =>
      if (pad =? 0) || (16 <? pad) then Ret (Err "AES-CBC: bad padding")
      else if len out <? pad then Ret (Err "AES-CBC: bad padding")
      else
        tail <-! slice_from out (len out - pad);
        if forallb (λ b, b =? pad) tail then Ret (Ok (take (length out - Z.to_nat pad) out)) else Ret (Err "AES-CBC: bad padding")
  end.

Definition aes_cbc_decrypt (key iv ciphertext : list Z) : fallible (list Z) string :=
  out <-!? aes_cbc_decrypt_no_pad key iv ciphertext; cbc_unpad out.

(** ** CTR *)

(** The bytes of the counter below [n], from the last one down. *)
Fixpoint counter_loop (n : nat) (counter : list Z) (remaining carry : Z) : outcome (list Z) :=
  match n with
  | O => Ret counter
  | S idx =>
      if (0 <? remaining) && negb (carry =? 0) then
        let take := Z.min remaining 8 in
        let mask := if take =? 8 then 255 else Z.shiftl 1 take - 1 in
        b <-! index counter (Z.of_nat idx);
        let low := Z.land b mask in
        let high := Z.land b (Z.lxor mask 65535) in
        let sum := low + carry in
        let new_low := Z.land sum mask in
        counter <-! store counter (Z.of_nat idx) (as_u8 (Z.lor high new_low));
        counter_loop idx counter (remaining - take) (Z.shiftr sum take)
      else Ret counter
  end.

Definition counter_inc (counter : list Z) (bits : Z) : outcome (list Z) := counter_loop 16 counter bits 1.

Fixpoint ctr_loop (w : list Z) (bits : Z) (total : nat) (l : list (list Z)) (block_idx : nat) (counter out : list Z) : outcome (list Z) :=
  match l with
  | [] => Ret out
  | chunk :: l =>
      ks <-! aes_encrypt_block counter w;
      let out := out ++ xor_bytes chunk ks in
      let block_idx := S block_idx in
      if (block_idx =? total)%nat then Ret out
      else counter <-! counter_inc counter bits; ctr_loop w bits total l block_idx counter out
  end.

Definition aes_ctr_xor_with_key (key counter0 : list Z) (counter_bits : Z) (data : list Z) : fallible (list Z) string :=
  if negb (key_length_ok key) then Ret (Err (key_error "AES-CTR" key))
  else if negb (length counter0 =? 16)%nat then Ret (Err "AES-CTR: counter must be 16 bytes")
  else if (counter_bits =? 0) || (128 <? counter_bits) then Ret (Err "AES-CTR: length must be in 1..=128")
  else
    w <-! aes_key_expansion key;
    out <-! ctr_loop w counter_bits ((length data + 15) / 16) (chunks 16 data) 0 counter0 [];
    Ret (Ok out).

(** ** Key wrap *)

Definition AES_KW_IV : list Z := [166; 166; 166; 166; 166; 166; 166; 166].

(** The [n] blocks of eight bytes from place [from] on. *)
Definition blocks8 (n from : nat) (l : list Z) : outcome (list (list Z)) :=
  for_each (λ i r, b <-! slice l (Z.of_nat (from + i * 8)) (Z.of_nat (from + (i + 1) * 8)); Ret (r ++ [b])) (seq 0 n) [].

(** The turns of the two nested loops. *)
Definition kw_turns (n : nat) : list (nat * nat) := concat ((λ j, (λ i, (j, i)) <$> seq 0 n) <$> seq 0 6).

Definition kw_count (n : nat) (ji : nat * nat) : list Z := Bytes.to_be_bytes 8 (Z.of_nat (n * ji.1 + ji.2 + 1)).

Definition wrap_turn (w : list Z) (n : nat) (ji : nat * nat) (s : list Z * list (list Z)) : outcome (list Z * list (list Z)) :=
  ri <-! index s.2 (Z.of_nat ji.2);
  enc <-! aes_encrypt_block (s.1 ++ ri) w;
  r <-! store s.2 (Z.of_nat ji.2) (drop 8 enc);
  Ret (xor_bytes (take 8 enc) (kw_count n ji), r).

Definition aes_kw_wrap (kek plaintext : list Z) : fallible (list Z) string :=
  if negb (key_length_ok kek) then Ret (Err ("AES-KW: invalid KEK length " +:+ Text.u64_to_string (len kek)))
  else if negb (length plaintext mod 8 =? 0)%nat || (length plaintext =? 0)%nat then Ret (Err "AES-KW: plaintext must be a positive multiple of 8 bytes")
  else
    let n := (length plaintext / 8)%nat in
    w <-! aes_key_expansion kek;
    r <-! blocks8 n 0 plaintext;
    s <-! for_each (wrap_turn w n) (kw_turns n) (AES_KW_IV, r);
    Ret (Ok (s.1 ++ concat s.2)).

Definition unwrap_turn (w : list Z) (n : nat) (ji : nat * nat) (s : list Z * list (list Z)) : outcome (list Z * list (list Z)) :=
  ri <-! index s.2 (Z.of_nat ji.2);
  dec <-! aes_decrypt_block (xor_bytes s.1 (kw_count n ji) ++ ri) w;
  r <-! store s.2 (Z.of_nat ji.2) (drop 8 dec);
  Ret (take 8 dec, r).

Definition aes_kw_unwrap (kek ciphertext : list Z) : fallible (list Z) string :=
  if negb (key_length_ok kek) then Ret (Err ("AES-KW: invalid KEK length " +:+ Text.u64_to_string (len kek)))
  else if negb (length ciphertext mod 8 =? 0)%nat || (length ciphertext <? 16)%nat then Ret (Err "AES-KW: ciphertext must be a multiple of 8 bytes ≥ 16")
  else
    let n := (length ciphertext / 8 - 1)%nat in
    w <-! aes_key_expansion kek;
    a <-! slice ciphertext 0 8;
    r <-! blocks8 n 8 ciphertext;
    s <-! for_each (unwrap_turn w n) (reverse (kw_turns n)) (a, r);
    if negb (timing_safe_equal s.1 AES_KW_IV) then Ret (Err "AES-KW: integrity check failed") else Ret (Ok (concat s.2)).

(** ** GCM *)

Fixpoint gf128_loop (n : nat) (i xv v z : Z) : Z :=
  match n with
  | O => z
  | S n =>
      let z := if Z.land (Z.shiftr xv (127 - i)) 1 =? 1 then Z.lxor z v else z in
      let lsb := Z.land v 1 =? 1 in
      let v := Z.shiftr v 1 in
      let v := if lsb then Z.lxor v (Z.shiftl 225 120) else v in
      gf128_loop n (i + 1) xv v z
  end.

Definition gf128_mul (x y : list Z) : list Z := Bytes.to_be_bytes 16 (gf128_loop 128 0 (Bytes.from_be_bytes x) (Bytes.from_be_bytes y) 0).

(** A piece as a block, with zeros after it. *)
Definition zero_padded (c : list Z) : list Z := c ++ replicate (16 - length c) 0.

Definition absorb (h : list Z) (data y : list Z) : list Z := foldl (λ y c, gf128_mul (xor_bytes y (zero_padded c)) h) y (chunks 16 data).

(** A length in bits; no slice is long enough for the product to overflow. *)
Definition bit_length (l : list Z) : list Z := Bytes.to_be_bytes 8 (wrap64 (len l * 8)).

Definition ghash (h aad ct : list Z) : list Z :=
  let y := absorb h ct (absorb h aad (replicate 16 0)) in
  gf128_mul (xor_bytes y (bit_length aad ++ bit_length ct)) h.

Definition gcm_j0 (h iv : list Z) : list Z :=
  if (length iv =? 12)%nat then iv ++ [0; 0; 0; 1]
  else gf128_mul (xor_bytes (absorb h iv (replicate 16 0)) (replicate 8 0 ++ bit_length iv)) h.

(** The last four bytes of the counter, and one more. *)
Definition inc32 (counter : list Z) : list Z := take 12 counter ++ Bytes.to_be_bytes 4 (as_u32 (Bytes.from_be_bytes (drop 12 counter) + 1)).

Definition ctr_xor_chunk (w chunk : list Z) (s : list Z * list Z) : outcome (list Z * list Z) :=
  ks <-! aes_encrypt_block s.1 w; Ret (inc32 s.1, s.2 ++ xor_bytes chunk ks).

Definition aes_ctr_xor (w counter0 data : list Z) : outcome (list Z) :=
  s <-! for_each (ctr_xor_chunk w) (chunks 16 data) (counter0, []); Ret s.2.

Definition gcm_tag (w h j0 aad ciphertext : list Z) : outcome (list Z) :=
  ej0 <-! aes_encrypt_block j0 w; Ret (xor_bytes (ghash h aad ciphertext) ej0).

Definition aes_gcm_encrypt (key iv aad plaintext : list Z) : fallible (list Z) string :=
  if negb (key_length_ok key) then Ret (Err (key_error "AES-GCM" key))
  else if (length iv =? 0)%nat then Ret (Err "AES-GCM: IV must be at least 1 byte")
  else
    w <-! aes_key_expansion key;
    h <-! aes_encrypt_block (replicate 16 0) w;
    let j0 := gcm_j0 h iv in
    ciphertext <-! aes_ctr_xor w (inc32 j0) plaintext;
    tag <-! gcm_tag w h j0 aad ciphertext;
    Ret (Ok (ciphertext ++ tag)).

Definition aes_gcm_decrypt_split (key iv aad ciphertext tag : list Z) : fallible (list Z) string :=
  if negb (key_length_ok key) then Ret (Err (key_error "AES-GCM" key))
  else if (length iv =? 0)%nat then Ret (Err "AES-GCM: IV must be at least 1 byte")
  else if (length tag =? 0)%nat then Ret (Err "AES-GCM: authentication tag mismatch")
  else
    w <-! aes_key_expansion key;
    h <-! aes_encrypt_block (replicate 16 0) w;
    let j0 := gcm_j0 h iv in
    expected_tag <-! gcm_tag w h j0 aad ciphertext;
    let n := (length tag `min` 16)%nat in
    if negb (timing_safe_equal (take n expected_tag) (take n tag)) then Ret (Err "AES-GCM: authentication tag mismatch")
    else plain <-! aes_ctr_xor w (inc32 j0) ciphertext; Ret (Ok plain).

Definition aes_gcm_decrypt (key iv aad ct_and_tag : list Z) : fallible (list Z) string :=
  if negb (key_length_ok key) then Ret (Err (key_error "AES-GCM" key))
  else if (length ct_and_tag <? 16)%nat then Ret (Err "AES-GCM: input too short for tag")
  else aes_gcm_decrypt_split key iv aad (take (length ct_and_tag - 16) ct_and_tag) (drop (length ct_and_tag - 16) ct_and_tag).

(** The first test vector of RFC 3394, and test case 2 of the GCM specification. *)
Example rfc_3394 : aes_kw_wrap [0; 1; 2; 3; 4; 5; 6; 7; 8; 9; 10; 11; 12; 13; 14; 15] [0; 17; 34; 51; 68; 85; 102; 119; 136; 153; 170; 187; 204; 221; 238; 255] = Ret (Ok [31; 166; 139; 10; 129; 18; 180; 71; 174; 243; 75; 216; 251; 90; 123; 130; 157; 62; 134; 35; 113; 210; 207; 229]).
Proof. by vm_compute. Qed.

Example gcm_case_2 : aes_gcm_encrypt (replicate 16 0) (replicate 12 0) [] (replicate 16 0) = Ret (Ok [3; 136; 218; 206; 96; 182; 163; 146; 243; 40; 194; 185; 113; 178; 254; 120; 171; 110; 71; 212; 44; 236; 19; 189; 245; 58; 103; 178; 18; 87; 189; 223]).
Proof. by vm_compute. Qed.

(** ** Pieces *)

(** Pieces of [n], the last of which may be shorter. *)
Fixpoint pieces (n : nat) (bs : list (list Z)) : Prop :=
  match bs with
  | [] => True
  | b :: bs => (1 ≤ length b ≤ n)%nat ∧ (bs ≠ [] → length b = n) ∧ pieces n bs
  end.

Lemma chunks_fuel_pieces n bs : pieces n bs → ∀ fuel, (length bs ≤ fuel)%nat → chunks_fuel fuel n (concat bs) = bs.
Proof.
  induction bs as [|b bs IH]; intros Hp [|fuel] Hf; try done; [cbn in Hf; lia|]. destruct Hp as (Hb & Hn & Hp). cbn [concat chunks_fuel].
  destruct (b ++ concat bs) as [|x l] eqn:E; [destruct b; [cbn in Hb; lia|done]|]. rewrite <-E. clear x l E.
  assert (take n (b ++ concat bs) = b ∧ drop n (b ++ concat bs) = concat bs) as [-> ->].
  { destruct (decide (bs = [])) as [->|Hne]; [cbn [concat]; rewrite app_nil_r, take_ge, drop_ge by lia; done|]. specialize (Hn Hne). by rewrite <-Hn, take_app_length, drop_app_length. }
  rewrite IH; [done|done|cbn [length] in Hf; lia].
Qed.

Lemma pieces_length n bs : pieces n bs → (length bs ≤ length (concat bs))%nat.
Proof. induction bs as [|b bs IH]; intros Hp; [done|]. destruct Hp as (Hb & _ & Hp). cbn [concat length]. rewrite length_app. specialize (IH Hp). lia. Qed.

Lemma chunks_concat n bs : pieces n bs → chunks n (concat bs) = bs.
Proof. intros Hp. apply chunks_fuel_pieces; [done|by apply pieces_length with n]. Qed.

Lemma chunks_pieces n l : (1 ≤ n)%nat → pieces n (chunks n l) ∧ concat (chunks n l) = l.
Proof.
  intros Hn. unfold chunks. assert (∀ fuel l, (length l ≤ fuel)%nat → pieces n (chunks_fuel fuel n l) ∧ concat (chunks_fuel fuel n l) = l) as G; [|by apply G].
  clear l. induction fuel as [|fuel IH]; intros l Hl; [by destruct l; [|cbn in Hl; lia]|]. destruct l as [|x l]; [done|]. cbn [chunks_fuel concat pieces].
  destruct (IH (drop n (x :: l))) as [Hp Hc]; [rewrite length_drop; cbn [length] in *; lia|]. rewrite Hc, take_drop. split; [|done]. split_and!; [rewrite length_take; cbn [length]; lia..| |done].
  intros Hne. rewrite length_take. destruct (decide (n ≤ length (x :: l))%nat); [lia|]. rewrite drop_ge in Hne by lia. by destruct fuel.
Qed.

(** Whether lists are pieces depends on their lengths only. *)
Lemma pieces_like n bs cs : Forall2 (λ b c : list Z, length b = length c) bs cs → pieces n bs → pieces n cs.
Proof.
  induction 1 as [|b c bs cs Hl Hf IH]; [done|]. cbn [pieces]. rewrite Hl. intros (Hb & Hn & Hp). split_and!; [lia..| |by apply IH]. intros Hne. apply Hn. intros ->. by inversion Hf; subst.
Qed.

Lemma pieces_whole n bs : (1 ≤ n)%nat → Forall (λ b : list Z, length b = n) bs → pieces n bs.
Proof. intros Hn. induction 1 as [|b bs Hb Hf IH]; [done|]. cbn [pieces]. rewrite Hb. split_and!; [lia..|done|done]. Qed.

Lemma whole_pieces n l k : (1 ≤ n)%nat → length l = (k * n)%nat → ∃ bs, l = concat bs ∧ Forall (λ b : list Z, length b = n) bs ∧ length bs = k.
Proof.
  intros Hn. revert l. induction k as [|k IH]; intros l Hl; [exists []; by destruct l|]. destruct (IH (drop n l)) as (bs & E & Hf & Hk); [rewrite length_drop; lia|].
  exists (take n l :: bs). cbn [concat length]. rewrite <-E, take_drop. split_and!; [done| |by rewrite Hk]. apply Forall_cons. split; [rewrite length_take; lia|done].
Qed.

Lemma pieces_count n bs : pieces n bs → (1 ≤ n)%nat → ((length (concat bs) + (n - 1)) / n = length bs)%nat.
Proof.
  intros Hp Hn. symmetry. assert (length (concat bs) ≤ n * length bs ∧ (bs ≠ [] → n * length bs < length (concat bs) + n))%nat as [H1 H2].
  { induction bs as [|b bs IH]; [cbn; split; [lia|done]|]. destruct Hp as (Hb & Hw & Hp). cbn [concat length]. rewrite length_app. destruct (IH Hp) as [IH1 IH2]. split; [lia|]. intros _.
    destruct (decide (bs = [])) as [->|Hne]; [cbn; lia|]. specialize (Hw Hne). specialize (IH2 Hne). lia. }
  apply Nat.div_unique with (length (concat bs) + (n - 1) - n * length bs)%nat; destruct (decide (bs = [])) as [->|Hne]; try (cbn; lia); specialize (H2 Hne); lia.
Qed.

Lemma concat_bytes_ok bs : bytes_ok (concat bs) ↔ Forall bytes_ok bs.
Proof. unfold bytes_ok. apply Forall_concat. Qed.

(** ** Loops undone *)

Lemma for_each_undo {A S} (f g : A → S → outcome S) (I : S → Prop) l s : (∀ x s, x ∈ l → I s → ∃ s', f x s = Ret s' ∧ I s' ∧ g x s' = Ret s) → I s →
  ∃ s', for_each f l s = Ret s' ∧ I s' ∧ for_each g (reverse l) s' = Ret s.
Proof.
  revert s. induction l as [|x l IH]; intros s H Hs; [by exists s|]. destruct (H x s) as (s1 & E1 & H1 & G1); [by left|done|]. destruct (IH s1) as (s2 & E2 & H2 & G2); [intros y t Hy; apply H; by right|done|].
  exists s2. cbn [for_each]. rewrite E1. cbn [outcome_bind]. split_and!; [done..|]. rewrite reverse_cons, for_each_app, G2. cbn [outcome_bind for_each]. by rewrite G1.
Qed.

Lemma xor_bytes_state a b : state_ok a → state_ok b → state_ok (xor_bytes a b).
Proof. intros [La Ha] [Lb Hb]. split; [rewrite xor_bytes_length; lia|by apply xor_bytes_ok]. Qed.

(** ** What the modes are

    The equations of NIST SP 800-38A and 800-38D, block by block: in CBC each block is encrypted
    after it is xored with the block before, the first one with the initialisation vector; a
    stream xors block [i] with the encryption of the counter whose number is [number i]. *)

Definition block (i : nat) (l : list Z) : list Z := take 16 (drop (16 * i) l).

Definition chained (w iv data c : list Z) : Prop :=
  length c = length data ∧
  ∀ i, (16 * i < length data)%nat → aes_encrypt_block (xor_bytes (block i data) (block i (iv ++ c))) w = Ret (block i c).

Definition streamed (w : list Z) (number : nat → Z) (data z : list Z) : Prop :=
  length z = length data ∧
  ∀ i, (16 * i < length data)%nat → ∃ ks, aes_encrypt_block (Bytes.to_be_bytes 16 (number i)) w = Ret ks ∧ block i z = xor_bytes (block i data) ks.

Lemma block_first b l : (length b ≤ 16)%nat → (l ≠ [] → length b = 16)%nat → block 0 (b ++ l) = b.
Proof.
  intros Hb Hl. unfold block. rewrite Nat.mul_0_r, drop_0. destruct (decide (l = [])) as [->|Hne]; [rewrite app_nil_r; by apply take_ge|]. rewrite <-(Hl Hne). apply take_app_length.
Qed.

Lemma block_next i b l : length b = 16%nat → block (S i) (b ++ l) = block i l.
Proof. intros Hb. unfold block. replace (16 * S i)%nat with (length b + 16 * i)%nat by lia. by rewrite drop_app_add. Qed.

Lemma chained_nil w iv : chained w iv [] [].
Proof. split; [done|]. cbn. lia. Qed.

Lemma streamed_nil w number : streamed w number [] [].
Proof. split; [done|]. cbn. lia. Qed.

#[local] Hint Resolve chained_nil streamed_nil : core.

Lemma chained_cons w iv b c data cs : length iv = 16%nat → length b = 16%nat → length c = 16%nat →
  aes_encrypt_block (xor_bytes b iv) w = Ret c → chained w c data cs → chained w iv (b ++ data) (c ++ cs).
Proof.
  intros Li Lb Lc E [Hl H]. split; [rewrite !length_app; lia|]. intros [|i] Hi.
  - by rewrite !block_first by (done || lia).
  - rewrite length_app in Hi. rewrite !block_next by done. apply H. lia.
Qed.

Lemma streamed_cons w number next b z data zs ks : (length b ≤ 16)%nat → (data ≠ [] → length b = 16)%nat → length z = length b →
  aes_encrypt_block (Bytes.to_be_bytes 16 (number 0%nat)) w = Ret ks → z = xor_bytes b ks → (∀ i, next i = number (S i)) →
  streamed w next data zs → streamed w number (b ++ data) (z ++ zs).
Proof.
  intros Hb Hd Lz E Ez Hn [Hl H]. split; [rewrite !length_app; lia|]. rewrite length_app. intros [|i] Hi.
  - exists ks. split; [done|]. rewrite (block_first b data), (block_first z zs); [done|lia| |done..]. intros Hne. rewrite Lz. apply Hd. intros ->. by destruct zs.
  - assert (length b = 16)%nat as L16 by (apply Hd; intros E0; rewrite E0, Nat.add_0_r in Hi; lia). rewrite !block_next, <-Hn by lia. apply H. lia.
Qed.

Section Schedule.
Context (w : list Z) (Hw : schedule_ok w).

(** ** CBC *)

Lemma cbc_encrypt_back bs : Forall state_ok bs → ∀ prev out, state_ok prev →
  ∃ cs last, for_each (cbc_encrypt_chunk w) bs (prev, out) = Ret (last, out ++ concat cs) ∧ Forall state_ok cs ∧ length cs = length bs ∧ chained w prev (concat bs) (concat cs) ∧
    ∀ out', ∃ last', for_each (cbc_decrypt_chunk w) cs (prev, out') = Ret (last', out' ++ concat bs).
Proof.
  induction 1 as [|b bs Hb Hbs IH]; intros prev out Hp; [exists [], prev; rewrite app_nil_r; split_and!; auto; intros out'; exists prev; by rewrite app_nil_r|].
  cbn [for_each]. unfold cbc_encrypt_chunk at 1, xor_block. cbn [fst snd]. rewrite (proj1 Hb). cbn [Nat.ltb Nat.leb outcome_bind].
  destruct (proj1 (aes_block_inverse w _ Hw (xor_bytes_state b prev Hb Hp))) as (c & Ec & Hc & Ed). rewrite Ec. cbn [outcome_bind]. destruct (IH c (out ++ c) Hc) as (cs & last & -> & Hcs & Hl & Hch & Hd).
  exists (c :: cs), last. cbn [concat length]. rewrite app_assoc, Hl. split_and!; [done|by apply Forall_cons|done|by apply chained_cons; [apply Hp|apply Hb|apply Hc|..]|]. intros out'. cbn [for_each]. unfold cbc_decrypt_chunk at 1, copy_exact. rewrite (proj1 Hc). cbn [Nat.eqb outcome_bind fst snd].
  rewrite Ed. cbn [outcome_bind]. rewrite xor_xor by (by rewrite (proj1 Hb), (proj1 Hp)). destruct (Hd (out' ++ b)) as (last' & ->). exists last'. by rewrite app_assoc.
Qed.

Lemma cbc_decrypt_back cs : Forall state_ok cs → ∀ prev out, state_ok prev →
  ∃ bs last, for_each (cbc_decrypt_chunk w) cs (prev, out) = Ret (last, out ++ concat bs) ∧ Forall state_ok bs ∧ length bs = length cs ∧
    ∀ out', ∃ last', for_each (cbc_encrypt_chunk w) bs (prev, out') = Ret (last', out' ++ concat cs).
Proof.
  induction 1 as [|c cs Hc Hcs IH]; intros prev out Hp; [exists [], prev; rewrite app_nil_r; split_and!; auto; intros out'; exists prev; by rewrite app_nil_r|].
  cbn [for_each]. unfold cbc_decrypt_chunk at 1, copy_exact. rewrite (proj1 Hc). cbn [Nat.eqb outcome_bind fst snd].
  destruct (proj2 (aes_block_inverse w _ Hw Hc)) as (d & -> & Hd & Ee). cbn [outcome_bind]. destruct (IH c (out ++ xor_bytes d prev) Hc) as (bs & last & -> & Hbs & Hl & He).
  exists (xor_bytes d prev :: bs), last. cbn [concat length]. rewrite app_assoc, Hl. split_and!; [done|apply Forall_cons; split; [by apply xor_bytes_state|done]|done|]. intros out'. cbn [for_each]. unfold cbc_encrypt_chunk at 1, xor_block. cbn [fst snd].
  rewrite xor_bytes_length, (proj1 Hd), (proj1 Hp). cbn [Nat.min Nat.ltb Nat.leb outcome_bind]. rewrite xor_xor by (by rewrite (proj1 Hd), (proj1 Hp)). rewrite Ee. cbn [outcome_bind]. destruct (He (out' ++ c)) as (last' & ->). exists last'. by rewrite app_assoc.
Qed.

End Schedule.

(** ** The counter *)

(** The byte a turn writes, and the carry it leaves. *)
Lemma counter_byte t b : 1 ≤ t ≤ 8 → is_u8 b →
  let mask := if t =? 8 then 255 else Z.shiftl 1 t - 1 in
  as_u8 (Z.lor (Z.land b (Z.lxor mask 65535)) (Z.land (Z.land b mask + 1) mask)) = b / 2 ^ t * 2 ^ t + (b + 1) `mod` 2 ^ t ∧
  Z.shiftr (Z.land b mask + 1) t = (b `mod` 2 ^ t + 1) / 2 ^ t.
Proof.
  intros Ht Hb. assert (t = 1 ∨ t = 2 ∨ t = 3 ∨ t = 4 ∨ t = 5 ∨ t = 6 ∨ t = 7 ∨ t = 8) as Hc by lia.
  split; revert b Hb; destruct Hc as [->|[->|[->|[->|[->|[->|[->| ->]]]]]]]; apply byte_equation; by vm_compute.
Qed.

(** The turn on numbers. *)
Lemma counter_step V b t r : 0 ≤ V → is_u8 b → 1 ≤ t → t = Z.min r 8 →
  256 * (V / 2 ^ (r - t) * 2 ^ (r - t) + (V + (b `mod` 2 ^ t + 1) / 2 ^ t) `mod` 2 ^ (r - t)) + (b / 2 ^ t * 2 ^ t + (b + 1) `mod` 2 ^ t) =
  (256 * V + b) / 2 ^ r * 2 ^ r + (256 * V + b + 1) `mod` 2 ^ r.
Proof.
  unfold is_u8. intros HV Hb Ht Er. destruct (Z.le_gt_cases 8 r).
  - assert (t = 8) as -> by lia. change (2 ^ 8) with 256. set (m := 2 ^ (r - 8)). assert (0 < m) by (apply Z.pow_pos_nonneg; lia).
    assert (2 ^ r = 256 * m) as -> by (change 256 with (2 ^ 8); unfold m; rewrite <-Z.pow_add_r by lia; by replace (8 + (r - 8)) with r by lia). rewrite (Z.div_small b), (Z.mod_small b) by lia.
    assert ((256 * V + b) / (256 * m) = V / m) as -> by (rewrite <-Z.div_div, (Z.mul_comm 256 V), Z.div_add_l, (Z.div_small b 256), Z.add_0_r by lia; done).
    assert ((256 * V + b + 1) `mod` (256 * m) = (b + 1) `mod` 256 + 256 * ((V + (b + 1) / 256) `mod` m)) as ->; [|lia].
    replace (256 * V + b + 1) with (V * 256 + (b + 1)) by lia. by rewrite Z.rem_mul_r, Z.div_add_l, (Z.add_comm (V * 256)), Z.mod_add by lia.
  - assert (t = r) as -> by lia. rewrite Z.sub_diag. change (2 ^ 0) with 1. rewrite Z.div_1_r, Z.mod_1_r. set (m := 2 ^ r). assert (0 < m) by (apply Z.pow_pos_nonneg; lia).
    assert (256 = 2 ^ (8 - r) * m) as -> by (unfold m; rewrite <-Z.pow_add_r by lia; by replace (8 - r + r) with 8 by lia). replace (2 ^ (8 - r) * m * V) with (2 ^ (8 - r) * V * m) by lia.
    rewrite Z.div_add_l by lia. rewrite <-Z.add_assoc, (Z.add_comm (_ * m) (b + 1)), Z.mod_add by lia. lia.
Qed.

Lemma counter_loop_spec n : ∀ counter r carry, (n ≤ length counter)%nat → bytes_ok counter → 0 ≤ r ≤ 8 * Z.of_nat n → 0 ≤ carry ≤ 1 →
  ∃ c', counter_loop n counter r carry = Ret c' ∧ length c' = length counter ∧ bytes_ok c' ∧ drop n c' = drop n counter ∧
    let V := Bytes.from_be_bytes (take n counter) in Bytes.from_be_bytes (take n c') = V / 2 ^ r * 2 ^ r + (V + carry) `mod` 2 ^ r.
Proof.
  assert (∀ V r, 0 ≤ V → 0 ≤ r → V / 2 ^ r * 2 ^ r + V `mod` 2 ^ r = V) as Hdm by (intros V r HV Hr; pose proof (Z.div_mod V (2 ^ r)); pose proof (Z.pow_pos_nonneg 2 r); lia).
  induction n as [|n IH]; intros counter r carry Hn Hc Hr Hk.
  - exists counter. split_and!; try done. cbn. assert (r = 0) as -> by lia. change (2 ^ 0) with 1. by rewrite Z.mod_1_r.
  - cbn [counter_loop]. set (V := Bytes.from_be_bytes (take (S n) counter)). assert (0 ≤ V) as HV by (apply from_be_bytes_nonneg; by apply Forall_take).
    destruct (Z.ltb_spec 0 r); cbn [andb]; [|exists counter; split_and!; try done; cbn zeta; assert (r = 0) as -> by lia; change (2 ^ 0) with 1; rewrite Z.mod_1_r, Z.div_1_r; lia].
    destruct (Z.eqb_spec carry 0) as [->|]; cbn [negb]; [exists counter; split_and!; try done; cbn zeta; rewrite Z.add_0_r, Hdm by lia; done|].
    assert (carry = 1) as -> by lia. destruct (lookup_lt_is_Some_2 counter n Hn) as [b Eb]. rewrite (index_nat _ _ b Eb). cbn [outcome_bind]. assert (is_u8 b) as Hb by (by apply (Forall_lookup_1 _ _ _ _ Hc Eb)).
    set (t := Z.min r 8). destruct (counter_byte t b ltac:(lia) Hb) as [E1 E2]. rewrite E1, E2. clear E1 E2. rewrite store_ok by (unfold len; lia). cbn [outcome_bind]. rewrite Nat2Z.id. set (b' := b / 2 ^ t * 2 ^ t + (b + 1) `mod` 2 ^ t).
    assert (is_u8 b') as Hb' by (unfold b'; rewrite <-(proj1 (counter_byte t b ltac:(lia) Hb)); apply as_u8_ok).
    assert (0 < 2 ^ t) by (apply Z.pow_pos_nonneg; lia). pose proof (Z.mod_pos_bound b (2 ^ t) ltac:(lia)).
    destruct (IH (<[n := b']> counter) (r - t) ((b `mod` 2 ^ t + 1) / 2 ^ t)) as (c' & E & Hl & Ho & Hd & Hv); [rewrite length_insert; lia|by apply Forall_insert|lia|split; [apply Z.div_pos; lia|apply Z.lt_succ_r, Z.div_lt_upper_bound; lia]|].
    exists c'. rewrite length_insert in Hl. assert (c' !! n = Some b') as Ec by (rewrite <-(Nat.add_0_r n), <-lookup_drop, Hd, lookup_drop, Nat.add_0_r; apply list_lookup_insert_eq; lia).
    split_and!; [done|done|done| |].
    + rewrite <-(Nat.add_1_r n). rewrite <-(drop_drop c' 1 n), Hd, drop_drop. apply drop_insert_lt. lia.
    + unfold V. cbn zeta. rewrite (take_S_r c' n b'), (take_S_r counter n b), !from_be_bytes_app by done. cbn zeta in Hv. rewrite take_insert_ge in Hv by lia. rewrite Hv. rewrite !(Z.mul_comm _ 256). apply counter_step; try done; [apply from_be_bytes_nonneg; by apply Forall_take|lia].
Qed.

(** The counter after [i] steps: the bits above are as they were, those below count. *)
Definition counted (bits V i : Z) : Z := V / 2 ^ bits * 2 ^ bits + (V + i) `mod` 2 ^ bits.

Lemma counter_inc_spec counter bits : state_ok counter → 0 ≤ bits ≤ 128 →
  ∃ c', counter_inc counter bits = Ret c' ∧ state_ok c' ∧ Bytes.from_be_bytes c' = counted bits (Bytes.from_be_bytes counter) 1.
Proof.
  intros [Hl Hc] Hb. destruct (counter_loop_spec 16 counter bits 1) as (c' & E & Hl' & Hc' & _ & Hv); [by rewrite Hl|done|lia|lia|]. exists c'. rewrite Hl in Hl'. split_and!; [done|by split|].
  cbn zeta in Hv. by rewrite !take_ge in Hv by lia.
Qed.

Lemma counted_next bits V i j : 0 ≤ bits → counted bits (counted bits V i) j = counted bits V (i + j).
Proof.
  intros Hb. unfold counted. set (m := 2 ^ bits). assert (0 < m) by (apply Z.pow_pos_nonneg; lia). pose proof (Z.mod_pos_bound (V + i) m ltac:(lia)).
  rewrite Z.div_add_l, (Z.div_small (_ `mod` m)) by lia. rewrite Z.add_0_r. f_equal. rewrite <-Z.add_assoc, (Z.add_comm (V / m * m)), Z.mod_add, Z.add_mod_idemp_l by lia. f_equal. lia.
Qed.

Lemma counted_0 bits V : 0 ≤ bits → counted bits V 0 = V.
Proof. intros Hb. unfold counted. rewrite Z.add_0_r, Z.mul_comm. symmetry. apply Z.div_mod. pose proof (Z.pow_pos_nonneg 2 bits). lia. Qed.

(** The bytes of a counter, as the number the first block of a stream has. *)
Lemma first_counter bits c : 0 ≤ bits → state_ok c → Bytes.to_be_bytes 16 (counted bits (Bytes.from_be_bytes c) 0) = c.
Proof. intros Hb [Lc Hc]. rewrite counted_0 by done. rewrite <-Lc. by apply to_from_be_bytes. Qed.

Lemma counted_bound bits V i : 0 ≤ bits ≤ 128 → 0 ≤ V < 2 ^ 128 → 0 ≤ counted bits V i < 2 ^ 128.
Proof.
  intros Hb HV. unfold counted. assert (2 ^ 128 = 2 ^ (128 - bits) * 2 ^ bits) as E by (rewrite <-Z.pow_add_r by lia; by rewrite Z.sub_add). set (m := 2 ^ bits) in *. assert (0 < m) by (apply Z.pow_pos_nonneg; lia).
  pose proof (Z.mod_pos_bound (V + i) m ltac:(lia)). assert (V / m < 2 ^ (128 - bits)) by (apply Z.div_lt_upper_bound; lia). pose proof (Z.div_pos V m ltac:(lia) ltac:(lia)). nia.
Qed.

(** Two counters fewer than [2 ^ bits] steps apart differ. *)
Lemma counted_distinct bits V i j : 0 ≤ bits → 0 ≤ i < j → j < 2 ^ bits → counted bits V i ≠ counted bits V j.
Proof.
  intros Hb Hij Hj E. unfold counted in E. apply Z.add_cancel_l in E. set (m := 2 ^ bits) in *. assert ((j - i) `mod` m = 0) as Hm.
  { replace (j - i) with (V + j - (V + i)) by lia. rewrite Zminus_mod, E, Z.sub_diag. apply Z.mod_0_l. lia. }
  rewrite Z.mod_small in Hm by lia. lia.
Qed.

Section Streams.
Context (w : list Z) (Hw : schedule_ok w).

(** ** CTR *)

Lemma xor_piece b ks : bytes_ok b → state_ok ks → (length b ≤ 16)%nat →
  let z := xor_bytes b ks in bytes_ok z ∧ length z = length b ∧ xor_bytes z ks = b.
Proof. intros Hb [Lk Hk] Hl. cbn zeta. split_and!; [by apply xor_bytes_ok|rewrite xor_bytes_length; lia|apply xor_xor; lia]. Qed.

Lemma ctr_loop_back bits total l : 0 ≤ bits ≤ 128 → pieces 16 l → Forall bytes_ok l → ∀ idx counter out, (idx + length l = total)%nat → state_ok counter →
  ∃ zs, ctr_loop w bits total l idx counter out = Ret (out ++ concat zs) ∧ Forall bytes_ok zs ∧ Forall2 (λ b c : list Z, length b = length c) l zs ∧
    streamed w (λ i, counted bits (Bytes.from_be_bytes counter) (Z.of_nat i)) (concat l) (concat zs) ∧
    ∀ out', ctr_loop w bits total zs idx counter out' = Ret (out' ++ concat l).
Proof.
  intros Hbits. induction l as [|b l IH]; intros Hp Hl idx counter out Hi Hc; [exists []; rewrite app_nil_r; split_and!; auto; intros out'; by rewrite app_nil_r|].
  destruct Hp as (Hb & Hw16 & Hp). apply Forall_cons in Hl as [Ob Hl]. cbn [ctr_loop]. destruct (proj1 (aes_block_inverse w _ Hw Hc)) as (ks & Ek & Hk & _). rewrite Ek. cbn [outcome_bind].
  destruct (xor_piece b ks Ob Hk ltac:(lia)) as (Oz & Lz & Ez). destruct (counter_inc_spec counter bits Hc Hbits) as (c' & Ec & Hc' & Vc). cbn [length] in Hi.
  destruct (IH Hp Hl (S idx) c' (out ++ xor_bytes b ks)) as (zs & Ezs & Hzs & Hf & Hst & Hback); [lia|done|].
  exists (xor_bytes b ks :: zs). split_and!; [|by apply Forall_cons|by constructor| |].
  - destruct (Nat.eqb_spec (S idx) total) as [Et|Et]; [|rewrite Ec; cbn [outcome_bind concat]; by rewrite Ezs, app_assoc].
    assert (l = []) as -> by (destruct l; [done|cbn in Hi; lia]). inversion Hf; subst. cbn [concat]. by rewrite app_nil_r.
  - cbn [concat]. eapply streamed_cons; [lia| |done|by rewrite first_counter by (done || lia)|done| |exact Hst].
    + intros Hne. apply Hw16. by intros ->.
    + intros i. rewrite Vc, counted_next by lia. f_equal. lia.
  - intros out'. cbn [ctr_loop]. rewrite Ek. cbn [outcome_bind]. rewrite Ez. destruct (Nat.eqb_spec (S idx) total) as [Et|Et]; [|rewrite Ec; cbn [outcome_bind concat]; by rewrite Hback, app_assoc].
    assert (l = []) as -> by (destruct l; [done|cbn in Hi; lia]). cbn [concat]. by rewrite app_nil_r.
Qed.

(** No two of the counters within their count are encrypted to the same block. *)
Lemma keystream_fresh bits c i j : state_ok c → 0 ≤ bits ≤ 128 → 0 ≤ i < j → j < 2 ^ bits →
  aes_encrypt_block (Bytes.to_be_bytes 16 (counted bits (Bytes.from_be_bytes c) i)) w ≠ aes_encrypt_block (Bytes.to_be_bytes 16 (counted bits (Bytes.from_be_bytes c) j)) w.
Proof.
  intros [Lc Hc] Hb Hij Hj E. pose proof (from_be_bytes_bound c Hc) as HV. unfold len in HV. rewrite Lc in HV. set (V := Bytes.from_be_bytes c) in *.
  assert (∀ k, state_ok (Bytes.to_be_bytes 16 k)) as Hs by (intros k; split; [apply to_be_bytes_length|apply to_be_bytes_ok]).
  destruct (proj1 (aes_block_inverse w _ Hw (Hs (counted bits V i)))) as (x & Ex & _ & Dx). destruct (proj1 (aes_block_inverse w _ Hw (Hs (counted bits V j)))) as (y & Ey & _ & Dy).
  rewrite Ex, Ey in E. injection E as ->. rewrite Dx in Dy. assert (∀ a b : list Z, Ret a = Ret b → a = b) as Hinj by (by intros ? ? [= ->]). apply Hinj in Dy as Eb. apply (f_equal Bytes.from_be_bytes) in Eb.
  rewrite !from_to_be_bytes in Eb by (by apply counted_bound). apply (counted_distinct bits V i j); [lia|done..].
Qed.

(** ** The stream of GCM *)

Lemma inc32_ok c : state_ok c → state_ok (inc32 c).
Proof.
  intros [Lc Hc]. unfold inc32. split; [rewrite length_app, length_take, to_be_bytes_length; lia|]. apply Forall_app. split; [by apply Forall_take|apply to_be_bytes_ok].
Qed.

Lemma inc32_number c : state_ok c → Bytes.from_be_bytes (inc32 c) = counted 32 (Bytes.from_be_bytes c) 1.
Proof.
  intros [Lc Hc]. unfold inc32. rewrite from_be_bytes_cat, to_be_bytes_length. rewrite <-(take_drop 12 c) at 3. rewrite from_be_bytes_cat, length_drop, Lc. change (256 ^ Z.of_nat (16 - 12)) with (2 ^ 32). change (256 ^ Z.of_nat 4) with (2 ^ 32).
  set (a := Bytes.from_be_bytes (take 12 c)). assert (0 ≤ Bytes.from_be_bytes (drop 12 c) < 2 ^ 32) as Hb.
  { pose proof (from_be_bytes_bound (drop 12 c) (Forall_drop _ _ _ Hc)) as H. unfold len in H. rewrite length_drop, Lc in H. exact H. }
  rewrite from_to_be_bytes by (apply Z.mod_pos_bound; done). unfold counted, as_u32. rewrite Z.div_add_l, (Z.div_small (Bytes.from_be_bytes _)), Z.add_0_r by done.
  change 4294967296 with (2 ^ 32). f_equal. by rewrite <-Z.add_assoc, (Z.add_comm (a * 2 ^ 32)), Z.mod_add by done.
Qed.

Lemma ctr_xor_back l : pieces 16 l → Forall bytes_ok l → ∀ counter out, state_ok counter →
  ∃ zs last, for_each (ctr_xor_chunk w) l (counter, out) = Ret (last, out ++ concat zs) ∧ Forall bytes_ok zs ∧ Forall2 (λ b c : list Z, length b = length c) l zs ∧
    streamed w (λ i, counted 32 (Bytes.from_be_bytes counter) (Z.of_nat i)) (concat l) (concat zs) ∧
    ∀ out', ∃ last', for_each (ctr_xor_chunk w) zs (counter, out') = Ret (last', out' ++ concat l).
Proof.
  induction l as [|b l IH]; intros Hp Hl counter out Hc; [exists [], counter; rewrite app_nil_r; split_and!; auto; intros out'; exists counter; by rewrite app_nil_r|].
  destruct Hp as (Hb & Hw16 & Hp). apply Forall_cons in Hl as [Ob Hl]. cbn [for_each]. unfold ctr_xor_chunk at 1. cbn [fst snd]. destruct (proj1 (aes_block_inverse w _ Hw Hc)) as (ks & Ek & Hk & _). rewrite Ek. cbn [outcome_bind].
  destruct (xor_piece b ks Ob Hk ltac:(lia)) as (Oz & Lz & Ez). destruct (IH Hp Hl (inc32 counter) (out ++ xor_bytes b ks) (inc32_ok _ Hc)) as (zs & last & -> & Hzs & Hf & Hst & Hback).
  exists (xor_bytes b ks :: zs), last. cbn [concat]. rewrite app_assoc. split_and!; [done|by apply Forall_cons|by constructor| |].
  - eapply streamed_cons; [lia| |done|by rewrite first_counter|done| |exact Hst].
    + intros Hne. apply Hw16. by intros ->.
    + intros i. rewrite inc32_number, counted_next by done. f_equal. lia.
  - intros out'. cbn [for_each]. unfold ctr_xor_chunk at 1. cbn [fst snd]. rewrite Ek. cbn [outcome_bind]. rewrite Ez. destruct (Hback (out' ++ b)) as (last' & ->). exists last'. by rewrite app_assoc.
Qed.

Lemma like_length (l zs : list (list Z)) : Forall2 (λ b c : list Z, length b = length c) l zs → length (concat l) = length (concat zs).
Proof. induction 1 as [|b c l zs Hb Hf IH]; [done|]. cbn [concat]. rewrite !length_app. lia. Qed.

Lemma aes_ctr_xor_back counter data : state_ok counter → bytes_ok data →
  ∃ z, aes_ctr_xor w counter data = Ret z ∧ bytes_ok z ∧ streamed w (λ i, counted 32 (Bytes.from_be_bytes counter) (Z.of_nat i)) data z ∧ aes_ctr_xor w counter z = Ret data.
Proof.
  intros Hc Hd. destruct (chunks_pieces 16 data) as [Hp Hcat]; [lia|]. assert (Forall bytes_ok (chunks 16 data)) as Hb by (apply concat_bytes_ok; by rewrite Hcat).
  destruct (ctr_xor_back _ Hp Hb counter [] Hc) as (zs & last & E & Hz & Hf & Hst & Hback). rewrite Hcat in Hst. exists (concat zs). unfold aes_ctr_xor. rewrite E. cbn [outcome_bind snd app].
  rewrite chunks_concat by (by apply (pieces_like 16 (chunks 16 data))). destruct (Hback []) as (last' & ->). cbn [outcome_bind snd app]. rewrite Hcat. split_and!; [done|by apply concat_bytes_ok|done|done].
Qed.

(** ** Key wrap *)

Definition kw_ok (n : nat) (s : list Z * list (list Z)) : Prop := (length s.1 = 8%nat ∧ bytes_ok s.1) ∧ length s.2 = n ∧ Forall (λ b, length b = 8%nat ∧ bytes_ok b) s.2.

Lemma halves_ok b : state_ok b → (length (take 8 b) = 8%nat ∧ bytes_ok (take 8 b)) ∧ (length (drop 8 b) = 8%nat ∧ bytes_ok (drop 8 b)).
Proof. intros [Hl Hb]. rewrite length_take, length_drop, Hl. split; (split; [done|]); [by apply Forall_take|by apply Forall_drop]. Qed.

Lemma kw_count_ok n ji : length (kw_count n ji) = 8%nat ∧ bytes_ok (kw_count n ji).
Proof. split; [apply to_be_bytes_length|apply to_be_bytes_ok]. Qed.

Lemma join_ok a b : length a = 8%nat ∧ bytes_ok a → length b = 8%nat ∧ bytes_ok b → state_ok (a ++ b).
Proof. intros [La Ha] [Lb Hb]. split; [rewrite length_app; lia|by apply Forall_app]. Qed.

Lemma xor8_ok a b : length a = 8%nat ∧ bytes_ok a → length b = 8%nat ∧ bytes_ok b → (length (xor_bytes a b) = 8%nat ∧ bytes_ok (xor_bytes a b)) ∧ xor_bytes (xor_bytes a b) b = a.
Proof. intros [La Ha] [Lb Hb]. split; [split; [rewrite xor_bytes_length; lia|by apply xor_bytes_ok]|apply xor_xor; lia]. Qed.

Lemma kw_turns_in n ji : ji ∈ kw_turns n → (ji.2 < n)%nat.
Proof.
  unfold kw_turns. intros Hin. apply list_elem_of_In, in_concat in Hin as (l & Hl & Hin). apply list_elem_of_In, list_elem_of_fmap in Hl as (j & -> & _). apply list_elem_of_In, list_elem_of_fmap in Hin as (i & -> & Hi). apply elem_of_seq in Hi. cbn. lia.
Qed.

Lemma turn_back n ji s : (ji.2 < n)%nat → kw_ok n s →
  (∃ s', wrap_turn w n ji s = Ret s' ∧ kw_ok n s' ∧ unwrap_turn w n ji s' = Ret s) ∧ (∃ s', unwrap_turn w n ji s = Ret s' ∧ kw_ok n s' ∧ wrap_turn w n ji s' = Ret s).
Proof.
  destruct s as [a r]. unfold kw_ok. cbn [fst snd]. intros Hi (Ha & Hl & Hr). destruct (lookup_lt_is_Some_2 r ji.2 ltac:(lia)) as [ri Er]. pose proof (Forall_lookup_1 _ _ _ _ Hr Er) as Hri. pose proof (kw_count_ok n ji) as Hk.
  unfold wrap_turn, unwrap_turn. cbn [fst snd]. rewrite (index_nat _ _ ri Er). cbn [outcome_bind].
  assert (∀ x y : list Z, length x = 8%nat → take 8 (x ++ y) = x ∧ drop 8 (x ++ y) = y) as Htd by (intros x y Hx; rewrite <-Hx, take_app_length, drop_app_length; done).
  assert (∀ x, state_ok x → index (<[ji.2 := drop 8 x]> r) (Z.of_nat ji.2) = Ret (drop 8 x)) as Hix by (intros x _; apply index_nat, list_lookup_insert_eq; lia).
  assert (∀ x, store (<[ji.2 := x]> r) (Z.of_nat ji.2) ri = Ret r) as Hst by (intros x; rewrite store_ok, Nat2Z.id, list_insert_insert_eq, list_insert_id by (done || unfold len; rewrite ?length_insert; lia); done).
  split.
  - destruct (proj1 (aes_block_inverse w _ Hw (join_ok a ri Ha Hri))) as (c & -> & Hc & Ed). cbn [outcome_bind]. rewrite store_ok, Nat2Z.id by (unfold len; lia). cbn [outcome_bind]. destruct (halves_ok c Hc) as [Hc1 Hc2]. destruct (xor8_ok _ _ Hc1 Hk) as [Hx Ex].
    eexists. split; [done|]. cbn [fst snd]. rewrite length_insert. split; [split_and!; [apply Hx|apply Hx|done|by apply Forall_insert]|]. rewrite Hix by done. cbn [outcome_bind]. rewrite Ex, take_drop, Ed. cbn [outcome_bind].
    destruct (Htd a ri (proj1 Ha)) as [-> ->]. by rewrite Hst.
  - destruct (xor8_ok _ _ Ha Hk) as [Hx Ex]. destruct (proj2 (aes_block_inverse w _ Hw (join_ok _ ri Hx Hri))) as (d & -> & Hd & Ee). cbn [outcome_bind]. rewrite store_ok, Nat2Z.id by (unfold len; lia). cbn [outcome_bind]. destruct (halves_ok d Hd) as [Hd1 Hd2].
    eexists. split; [done|]. cbn [fst snd]. rewrite length_insert. split; [split_and!; [apply Hd1|apply Hd1|done|by apply Forall_insert]|]. rewrite Hix by done. cbn [outcome_bind]. rewrite take_drop, Ee. cbn [outcome_bind].
    destruct (Htd _ ri (proj1 Hx)) as [-> ->]. rewrite Hst. cbn [outcome_bind]. by rewrite Ex.
Qed.

Lemma kw_rounds_back n s : kw_ok n s →
  (∃ s', for_each (wrap_turn w n) (kw_turns n) s = Ret s' ∧ kw_ok n s' ∧ for_each (unwrap_turn w n) (reverse (kw_turns n)) s' = Ret s) ∧
  (∃ s', for_each (unwrap_turn w n) (reverse (kw_turns n)) s = Ret s' ∧ kw_ok n s' ∧ for_each (wrap_turn w n) (kw_turns n) s' = Ret s).
Proof.
  intros Hs. split.
  - apply (for_each_undo _ _ (kw_ok n)); [|done]. intros ji t Hin Ht. by apply turn_back; [apply kw_turns_in|].
  - destruct (for_each_undo (unwrap_turn w n) (wrap_turn w n) (kw_ok n) (reverse (kw_turns n)) s) as (s' & E & H & B); [|done|exists s'; by rewrite reverse_involutive in B].
    intros ji t Hin Ht. apply turn_back; [apply kw_turns_in; by apply elem_of_reverse|done].
Qed.

End Streams.

Lemma concat_length8 bs : Forall (λ b : list Z, length b = 8%nat) bs → length (concat bs) = (length bs * 8)%nat.
Proof. induction 1 as [|b bs Hb Hf IH]; [done|]. cbn [concat length]. rewrite length_app. lia. Qed.

Lemma blocks8_ok from pre bs : length pre = from → Forall (λ b : list Z, length b = 8%nat) bs → blocks8 (length bs) from (pre ++ concat bs) = Ret bs.
Proof.
  intros <- Hf. unfold blocks8. assert (∀ k, (k ≤ length bs)%nat → for_each (λ i r, b <-! slice (pre ++ concat bs) (Z.of_nat (length pre + i * 8)) (Z.of_nat (length pre + (i + 1) * 8)); Ret (r ++ [b])) (seq 0 k) [] = Ret (take k bs)) as G; [|rewrite G by done; by rewrite take_ge].
  induction k as [|k IH]; intros Hk; [done|]. rewrite seq_S, for_each_app, IH by lia. cbn [outcome_bind for_each Nat.add]. destruct (lookup_lt_is_Some_2 bs k Hk) as [b Eb].
  assert (concat bs = concat (take k bs) ++ b ++ concat (drop (S k) bs)) as ->.
  { rewrite <-(take_drop_middle bs k b Eb) at 1. by rewrite concat_app. }
  assert (length (concat (take k bs)) = k * 8)%nat as Lt by (rewrite concat_length8, length_take by (by apply Forall_take); lia).
  rewrite app_assoc, (slice_middle _ b) by (rewrite len_app; unfold len; rewrite Lt, ?(Forall_lookup_1 _ _ _ _ Hf Eb); lia). cbn [outcome_bind]. by rewrite (take_S_r _ _ b).
Qed.

(** ** The modes *)

Lemma with_schedule key : key_length_ok key = true → ∃ w, aes_key_expansion key = Ret w ∧ schedule_ok w.
Proof. apply key_expansion_ok. Qed.

Lemma whole_states bs : Forall (λ b : list Z, length b = 16%nat) bs → bytes_ok (concat bs) → Forall state_ok bs.
Proof. intros Hl Hb. apply concat_bytes_ok in Hb. rewrite Forall_forall in Hl, Hb. apply Forall_forall. intros b Hin. split; [by apply Hl|by apply Hb]. Qed.

Lemma states_length bs : Forall state_ok bs → length (concat bs) = (length bs * 16)%nat.
Proof. induction 1 as [|b bs [Hb _] Hf IH]; [done|]. cbn [concat length]. rewrite length_app. lia. Qed.

Lemma states_chunks bs : Forall state_ok bs → chunks 16 (concat bs) = bs.
Proof. intros Hf. apply chunks_concat, pieces_whole; [lia|]. eapply Forall_impl; [exact Hf|]. by intros b [? _]. Qed.

Lemma states_bytes bs : Forall state_ok bs → bytes_ok (concat bs).
Proof. intros Hf. apply concat_bytes_ok. eapply Forall_impl; [exact Hf|]. by intros b [_ ?]. Qed.

(** Whole blocks: encryption and decryption without padding undo each other. *)
Lemma cbc_whole key w iv data : key_length_ok key = true → aes_key_expansion key = Ret w → schedule_ok w → state_ok iv → bytes_ok data → (length data mod 16 = 0)%nat → (length data ≠ 0)%nat →
  (∃ c, aes_cbc_encrypt_no_pad key iv data = Ret (Ok c) ∧ bytes_ok c ∧ chained w iv data c ∧ aes_cbc_decrypt_no_pad key iv c = Ret (Ok data)) ∧
  (∃ p, aes_cbc_decrypt_no_pad key iv data = Ret (Ok p) ∧ bytes_ok p ∧ length p = length data ∧ aes_cbc_encrypt_no_pad key iv p = Ret (Ok data)).
Proof.
  intros Hk Ew Hw Hiv Hd Hm Hne. unfold aes_cbc_encrypt_no_pad, aes_cbc_decrypt_no_pad. rewrite Hk, (proj1 Hiv), Ew, Hm. cbn [negb Nat.eqb outcome_bind].
  rewrite (proj2 (Nat.eqb_neq _ _) Hne). cbn [orb]. destruct (whole_pieces 16 data (length data / 16)) as (bs & -> & Hbs & Hl); [lia|pose proof (Nat.div_mod_eq (length data) 16); lia|].
  pose proof (whole_states bs Hbs Hd) as Hs. rewrite (states_length bs Hs) in *. rewrite (states_chunks bs Hs). split.
  - destruct (cbc_encrypt_back w Hw bs Hs iv [] Hiv) as (cs & last & -> & Hcs & Lc & Hch & Hback). cbn [outcome_bind snd app]. exists (concat cs). rewrite (states_length cs Hcs), Lc, (states_chunks cs Hcs), Hm, (proj2 (Nat.eqb_neq _ _) Hne). cbn [negb Nat.eqb orb].
    destruct (Hback []) as (last' & ->). cbn [outcome_bind snd app]. split_and!; try done. by apply states_bytes.
  - destruct (cbc_decrypt_back w Hw bs Hs iv [] Hiv) as (cs & last & -> & Hcs & Lc & Hback). cbn [outcome_bind snd app]. exists (concat cs). rewrite (states_length cs Hcs), Lc, (states_chunks cs Hcs), Hm. cbn [negb Nat.eqb].
    destruct (Hback []) as (last' & ->). cbn [outcome_bind snd app]. split_and!; try done. by apply states_bytes.
Qed.

Lemma unpad_padded p pad : (1 ≤ pad ≤ 16)%nat → cbc_unpad (p ++ replicate pad (as_u8 (Z.of_nat pad))) = Ret (Ok p).
Proof.
  intros Hp. unfold cbc_unpad. assert (as_u8 (Z.of_nat pad) = Z.of_nat pad) as -> by (apply Z.mod_small; lia). destruct pad as [|n]; [lia|].
  assert (last (p ++ replicate (S n) (Z.of_nat (S n))) = Some (Z.of_nat (S n))) as -> by (rewrite replicate_S_end, app_assoc; apply last_snoc). destruct (Z.eqb_spec (Z.of_nat (S n)) 0); [lia|]. destruct (Z.ltb_spec 16 (Z.of_nat (S n))); [lia|]. cbn [orb].
  rewrite len_app. unfold len at 2 4. rewrite length_replicate. pose proof (len_nonneg p). destruct (Z.ltb_spec (len p + Z.of_nat (S n)) (Z.of_nat (S n))); [lia|].
  rewrite slice_from_app by lia. cbn [outcome_bind]. assert (∀ m x, forallb (λ b, b =? x) (replicate m x) = true) as -> by (induction m as [|m IH]; intros x; [done|]; cbn [replicate forallb]; by rewrite Z.eqb_refl, IH).
  rewrite length_app, length_replicate, Nat2Z.id, Nat.add_sub. by rewrite take_app_length.
Qed.

Lemma cbc_padded key w iv data : key_length_ok key = true → aes_key_expansion key = Ret w → schedule_ok w → state_ok iv → bytes_ok data →
  ∃ c, aes_cbc_encrypt key iv data = Ret (Ok c) ∧ aes_cbc_decrypt key iv c = Ret (Ok data) ∧
    let pad := (16 - length data mod 16)%nat in chained w iv (data ++ replicate pad (Z.of_nat pad)) c.
Proof.
  intros Hk Ew Hw Hiv Hd. set (pad := (16 - length data mod 16)%nat). pose proof (Nat.mod_upper_bound (length data) 16 ltac:(done)) as Hm. pose proof (Nat.div_mod_eq (length data) 16) as Hdm.
  set (padded := data ++ replicate pad (as_u8 (Z.of_nat pad))). assert (length padded = (length data / 16 + 1) * 16)%nat as Lp by (unfold padded; rewrite length_app, length_replicate; unfold pad; lia).
  assert (bytes_ok padded) as Hp by (apply Forall_app; split; [done|apply Forall_replicate, as_u8_ok]).
  destruct (cbc_whole key w iv padded Hk Ew Hw Hiv Hp) as [(c & Ec & _ & Hch & Hback) _]; [by rewrite Lp, Nat.Div0.mod_mul|lia|]. exists c. split_and!.
  - unfold aes_cbc_encrypt_no_pad in Ec. unfold aes_cbc_encrypt. rewrite Hk, (proj1 Hiv) in *. cbn [negb Nat.eqb] in *. rewrite Lp, Nat.Div0.mod_mul in Ec. exact Ec.
  - unfold aes_cbc_decrypt. rewrite Hback. cbn [fallible_bind]. apply unpad_padded. unfold pad. lia.
  - unfold padded in Hch. replace (as_u8 (Z.of_nat pad)) with (Z.of_nat pad) in Hch; [done|]. symmetry. apply Z.mod_small. unfold pad. lia.
Qed.

Lemma ctr_twice key w counter bits data : key_length_ok key = true → aes_key_expansion key = Ret w → schedule_ok w → state_ok counter → 1 ≤ bits ≤ 128 → bytes_ok data →
  ∃ z, aes_ctr_xor_with_key key counter bits data = Ret (Ok z) ∧ streamed w (λ i, counted bits (Bytes.from_be_bytes counter) (Z.of_nat i)) data z ∧ aes_ctr_xor_with_key key counter bits z = Ret (Ok data).
Proof.
  intros Hk Ew Hw Hc Hb Hd. unfold aes_ctr_xor_with_key. rewrite Hk, (proj1 Hc), Ew. cbn [negb Nat.eqb outcome_bind]. destruct (Z.eqb_spec bits 0); [lia|]. destruct (Z.ltb_spec 128 bits); [lia|]. cbn [orb].
  destruct (chunks_pieces 16 data) as [Hp Hcat]; [lia|]. assert (Forall bytes_ok (chunks 16 data)) as Hbs by (apply concat_bytes_ok; by rewrite Hcat).
  destruct (ctr_loop_back w Hw bits (length (chunks 16 data)) (chunks 16 data) ltac:(lia) Hp Hbs 0 counter [] eq_refl Hc) as (zs & Ez & Hz & Hf & Hst & Hback). rewrite Hcat in Hst.
  assert ((length data + 15) / 16 = length (chunks 16 data))%nat as Hn by (rewrite <-(pieces_count 16 (chunks 16 data)), Hcat by (done || lia); done). rewrite Hn, Ez. cbn [outcome_bind app]. exists (concat zs). split_and!; [done..|].
  rewrite (proj1 Hst), Hn, chunks_concat by (by apply (pieces_like 16 (chunks 16 data))). rewrite Hback. cbn [outcome_bind app]. by rewrite Hcat.
Qed.

Definition eight (b : list Z) : Prop := length b = 8%nat ∧ bytes_ok b.

Lemma eights l : bytes_ok l → (length l mod 8 = 0)%nat → ∃ bs, l = concat bs ∧ Forall eight bs ∧ length bs = (length l / 8)%nat.
Proof.
  intros Hl Hm. destruct (whole_pieces 8 l (length l / 8)) as (bs & E & Hf & Hn); [lia|pose proof (Nat.div_mod_eq (length l) 8); lia|]. exists bs. split_and!; [done| |done].
  rewrite E in Hl. apply concat_bytes_ok in Hl. rewrite Forall_forall in Hl, Hf. apply Forall_forall. intros b Hin. split; [by apply Hf|by apply Hl].
Qed.

Lemma eights_length bs : Forall eight bs → length (concat bs) = (length bs * 8)%nat ∧ Forall (λ b : list Z, length b = 8%nat) bs.
Proof. intros Hf. assert (Forall (λ b : list Z, length b = 8%nat) bs) as H by (eapply Forall_impl; [exact Hf|]; by intros b [? _]). split; [by apply concat_length8|done]. Qed.

Lemma kw_iv_ok : eight AES_KW_IV.
Proof. split; [done|by repeat constructor]. Qed.

(** Unwrapping accepts exactly what wrapping makes. *)
Lemma kw_exact kek c p : key_length_ok kek = true → bytes_ok c → bytes_ok p → aes_kw_unwrap kek c = Ret (Ok p) ↔ aes_kw_wrap kek p = Ret (Ok c).
Proof.
  intros Hk Hc Hp. destruct (with_schedule kek Hk) as (w & Ew & Hw). unfold aes_kw_unwrap, aes_kw_wrap. rewrite Hk, Ew. cbn [negb outcome_bind]. split.
  - destruct (Nat.eqb_spec (length c mod 8) 0) as [Hm|]; cbn [negb orb]; [|done]. destruct (Nat.ltb_spec (length c) 16); [done|]. destruct (eights c Hc Hm) as (all & -> & Hall & Ln). destruct (eights_length _ Hall) as [Lc _].
    destruct all as [|a bs]; [cbn in *; lia|]. apply Forall_cons in Hall as [Ha Hbs]. destruct (eights_length _ Hbs) as [_ Hb8]. rewrite Lc, Nat.div_mul by done. cbn [length Nat.sub concat]. rewrite Nat.sub_0_r.
    rewrite slice_prefix by (unfold len; by rewrite (proj1 Ha)). cbn [outcome_bind]. rewrite (blocks8_ok 8 a bs (proj1 Ha) Hb8). cbn [outcome_bind].
    destruct (proj2 (kw_rounds_back w Hw (length bs) (a, bs) (conj Ha (conj eq_refl Hbs)))) as ([iv rs] & -> & (Hiv & Lr & Hr) & Hback). cbn [outcome_bind fst snd] in *. rewrite timing_safe_equal_spec. case_bool_decide as Ei; cbn [negb]; [|done]. subst iv. intros [= <-].
    destruct (eights_length _ Hr) as [Lp Hr8]. rewrite Lp, Nat.Div0.mod_mul, Nat.div_mul, Lr by done. cbn [Nat.eqb negb orb]. destruct (Nat.eqb_spec (length bs * 8) 0); [cbn [length] in *; lia|].
    rewrite <-Lr. change (concat rs) with ([] ++ concat rs). rewrite (blocks8_ok 0 [] rs eq_refl Hr8), Lr. cbn [outcome_bind app]. by rewrite Hback.
  - destruct (Nat.eqb_spec (length p mod 8) 0) as [Hm|]; cbn [negb orb]; [|done]. destruct (Nat.eqb_spec (length p) 0); [done|]. destruct (eights p Hp Hm) as (rs & -> & Hr & Ln). destruct (eights_length _ Hr) as [Lp Hr8].
    rewrite <-Ln. change (concat rs) with ([] ++ concat rs) at 1. rewrite (blocks8_ok 0 [] rs eq_refl Hr8). cbn [outcome_bind].
    destruct (proj1 (kw_rounds_back w Hw (length rs) (AES_KW_IV, rs) (conj kw_iv_ok (conj eq_refl Hr)))) as ([a bs] & -> & (Ha & Lb & Hbs) & Hback). cbn [outcome_bind fst snd] in *. intros [= <-]. destruct (eights_length _ Hbs) as [Lc Hb8].
    rewrite length_app, Lc, (proj1 Ha). replace (8 + length bs * 8)%nat with ((length bs + 1) * 8)%nat by lia. rewrite Nat.Div0.mod_mul, Nat.div_mul, Nat.add_sub by done. cbn [Nat.eqb negb orb]. destruct (Nat.ltb_spec ((length bs + 1) * 8) 16); [cbn [length] in *; lia|].
    rewrite slice_prefix by (unfold len; by rewrite (proj1 Ha)). cbn [outcome_bind]. rewrite (blocks8_ok 8 a bs (proj1 Ha) Hb8), Lb. cbn [outcome_bind]. rewrite Hback. cbn [outcome_bind fst snd]. by rewrite timing_safe_equal_spec, bool_decide_eq_true_2.
Qed.

(** *** GCM *)

Lemma gf128_ok x y : state_ok (gf128_mul x y).
Proof. split; [apply to_be_bytes_length|apply to_be_bytes_ok]. Qed.

Lemma gcm_j0_ok h iv : bytes_ok iv → state_ok (gcm_j0 h iv).
Proof.
  intros Hi. unfold gcm_j0. destruct (Nat.eqb_spec (length iv) 12) as [El|]; [|apply gf128_ok]. split; [rewrite length_app, El; done|]. apply Forall_app. split; [done|by repeat constructor].
Qed.

(** Encryption streams the plaintext from the counter after the first one, whose encryption
    masks the hash of the additional data and the ciphertext as the tag; decryption answers
    exactly when the tag it is given is that tag as far as it goes. *)
Lemma gcm_exact key w iv aad p : key_length_ok key = true → aes_key_expansion key = Ret w → schedule_ok w → iv ≠ [] → bytes_ok iv → bytes_ok p →
  ∃ c t h e, aes_gcm_encrypt key iv aad p = Ret (Ok (c ++ t)) ∧
    streamed w (λ i, counted 32 (Bytes.from_be_bytes (gcm_j0 h iv)) (Z.of_nat i + 1)) p c ∧ bytes_ok c ∧
    aes_encrypt_block (replicate 16 0) w = Ret h ∧ aes_encrypt_block (gcm_j0 h iv) w = Ret e ∧ t = xor_bytes (ghash h aad c) e ∧ length t = 16%nat ∧
    ∀ tag, aes_gcm_decrypt_split key iv aad c tag =
      Ret (if negb (length tag =? 0)%nat && bool_decide (take (length tag `min` 16) t = take 16 tag) then Ok p else Err "AES-GCM: authentication tag mismatch").
Proof.
  intros Hk Ew Hw Hne Hi Hp. assert (state_ok (replicate 16 0)) as Hz by (split; [done|apply Forall_replicate; done]).
  destruct (proj1 (aes_block_inverse w _ Hw Hz)) as (h & Eh & Hh & _). set (j0 := gcm_j0 h iv). pose proof (gcm_j0_ok h iv Hi) as Hj. fold j0 in Hj.
  destruct (aes_ctr_xor_back w Hw (inc32 j0) p (inc32_ok _ Hj) Hp) as (c & Ec & Oc & Hst & Hback). destruct (proj1 (aes_block_inverse w _ Hw Hj)) as (e & Ee & He & _).
  exists c, (xor_bytes (ghash h aad c) e), h, e. assert ((length iv =? 0)%nat = false) as Eiv by (by destruct iv).
  assert (length (xor_bytes (ghash h aad c) e) = 16%nat) as Lt by (assert (length (ghash h aad c) = 16%nat) as Lg by apply gf128_ok; by rewrite xor_bytes_length, Lg, (proj1 He)).
  split_and!; [| |done..|].
  2:{ destruct Hst as [Hl Hst]. split; [done|]. intros i Hlt. rewrite Z.add_comm, <-counted_next, <-inc32_number by done. by apply Hst. }
  - unfold aes_gcm_encrypt. rewrite Hk, Eiv, Ew. cbn [negb outcome_bind]. rewrite Eh. cbn [outcome_bind]. fold j0. rewrite Ec. cbn [outcome_bind]. unfold gcm_tag. rewrite Ee. done.
  - intros tag. unfold aes_gcm_decrypt_split. rewrite Hk, Eiv, Ew. cbn [negb]. destruct (Nat.eqb_spec (length tag) 0); cbn [negb andb]; [done|]. cbn [outcome_bind]. rewrite Eh. cbn [outcome_bind]. fold j0. unfold gcm_tag. rewrite Ee. cbn [outcome_bind].
    rewrite timing_safe_equal_spec. assert (take (length tag `min` 16) tag = take 16 tag) as -> by (destruct (Nat.min_spec (length tag) 16) as [[Hlt ->]|[Hge ->]]; [by rewrite !take_ge by lia|done]).
    case_bool_decide; cbn [negb]; [|done]. by rewrite Hback.
Qed.

Lemma gcm_split (c t : list Z) : length t = 16%nat → take (length (c ++ t) - 16) (c ++ t) = c ∧ drop (length (c ++ t) - 16) (c ++ t) = t.
Proof. intros Ht. rewrite length_app, Ht, Nat.add_sub. by rewrite take_app_length, drop_app_length. Qed.

Lemma gcm_joined key iv aad p c t : key_length_ok key = true → length t = 16%nat → aes_gcm_decrypt_split key iv aad c t = Ret (Ok p) → aes_gcm_decrypt key iv aad (c ++ t) = Ret (Ok p).
Proof.
  intros Hk Lt Hd. unfold aes_gcm_decrypt. rewrite Hk. cbn [negb]. destruct (Nat.ltb_spec (length (c ++ t)) 16); [rewrite length_app in *; lia|]. destruct (gcm_split c t Lt) as [-> ->]. done.
Qed.

(** C28: under every key of a length the code accepts, with [w] its schedule: CBC chains the blocks
    of the data, padded or whole, and decrypts what it encrypts, both ways on whole blocks; CTR xors
    block [i] with the encryption of the counter's number [i], its low bits counting and the others
    as they were, no two of which are encrypted alike within the count, and applied twice gives
    back the data; unwrapping a key accepts exactly what wrapping makes; GCM streams the data from the
    second counter on, with the first one masking the tag, decrypts what it encrypts, and answers
    exactly when the tag is, as far as it goes, that of the ciphertext and the additional data.
    Nothing panics. *)
Theorem aes_modes_roundtrip (key iv counter aad data : list Z) (bits : Z) :
  key_length_ok key = true → bytes_ok iv → iv ≠ [] → state_ok counter → bytes_ok data → 1 ≤ bits ≤ 128 →
  ∃ w, aes_key_expansion key = Ret w ∧
  (∃ c, aes_cbc_encrypt key counter data = Ret (Ok c) ∧ aes_cbc_decrypt key counter c = Ret (Ok data) ∧
    let pad := (16 - length data mod 16)%nat in chained w counter (data ++ replicate pad (Z.of_nat pad)) c) ∧
  ((length data mod 16 = 0)%nat → data ≠ [] →
    (∃ c, aes_cbc_encrypt_no_pad key counter data = Ret (Ok c) ∧ aes_cbc_decrypt_no_pad key counter c = Ret (Ok data) ∧ chained w counter data c) ∧
    (∃ p, aes_cbc_decrypt_no_pad key counter data = Ret (Ok p) ∧ aes_cbc_encrypt_no_pad key counter p = Ret (Ok data))) ∧
  (∃ z, aes_ctr_xor_with_key key counter bits data = Ret (Ok z) ∧ aes_ctr_xor_with_key key counter bits z = Ret (Ok data) ∧
    streamed w (λ i, counted bits (Bytes.from_be_bytes counter) (Z.of_nat i)) data z) ∧
  (∀ n i j, 0 ≤ n ≤ 128 → 0 ≤ i < j → j < 2 ^ n →
    aes_encrypt_block (Bytes.to_be_bytes 16 (counted n (Bytes.from_be_bytes counter) i)) w ≠ aes_encrypt_block (Bytes.to_be_bytes 16 (counted n (Bytes.from_be_bytes counter) j)) w) ∧
  (∀ p, bytes_ok p → aes_kw_unwrap key data = Ret (Ok p) ↔ aes_kw_wrap key p = Ret (Ok data)) ∧
  (∃ c t h e, aes_gcm_encrypt key iv aad data = Ret (Ok (c ++ t)) ∧ aes_gcm_decrypt key iv aad (c ++ t) = Ret (Ok data) ∧
    streamed w (λ i, counted 32 (Bytes.from_be_bytes (gcm_j0 h iv)) (Z.of_nat i + 1)) data c ∧
    aes_encrypt_block (replicate 16 0) w = Ret h ∧ aes_encrypt_block (gcm_j0 h iv) w = Ret e ∧ t = xor_bytes (ghash h aad c) e ∧
    ∀ tag, aes_gcm_decrypt_split key iv aad c tag =
      Ret (if negb (length tag =? 0)%nat && bool_decide (take (length tag `min` 16) t = take 16 tag) then Ok data else Err "AES-GCM: authentication tag mismatch")).
Proof.
  intros Hk Hi Hne Hc Hd Hb. destruct (with_schedule key Hk) as (w & Ew & Hw). exists w. split_and!; [done|..].
  - by apply cbc_padded.
  - intros Hm Hn. assert (length data ≠ 0)%nat as Hl by (by destruct data). destruct (cbc_whole key w counter data Hk Ew Hw Hc Hd Hm Hl) as [(c & ? & _ & ? & ?) (p & ? & _ & _ & ?)]. split; [by exists c|by exists p].
  - destruct (ctr_twice key w counter bits data Hk Ew Hw Hc Hb Hd) as (z & ? & ? & ?). by exists z.
  - intros n i j. by apply keystream_fresh.
  - intros p Hp. by apply kw_exact.
  - destruct (gcm_exact key w iv aad data Hk Ew Hw Hne Hi Hd) as (c & t & h & e & ? & ? & _ & ? & ? & ? & Lt & Htag). exists c, t, h, e. split_and!; try done.
    apply gcm_joined; [done..|]. rewrite Htag, Lt. cbn [Nat.eqb negb andb Nat.min]. by rewrite bool_decide_eq_true_2.
Qed.

(** A key of ones, a counter about to carry, and data of a block and a half. *)
Lemma aes_modes_roundtrip_witness :
  let key := replicate 16 1 in let counter := replicate 15 3 ++ [255] in let data := replicate 24 7 in
  ∃ w z, aes_key_expansion key = Ret w ∧ aes_ctr_xor_with_key key counter 8 data = Ret (Ok z) ∧ aes_ctr_xor_with_key key counter 8 z = Ret (Ok data) ∧
    streamed w (λ i, counted 8 (Bytes.from_be_bytes counter) (Z.of_nat i)) data z ∧ counted 8 (Bytes.from_be_bytes counter) 1 = Bytes.from_be_bytes (replicate 15 3 ++ [0]).
Proof.
  cbn zeta. destruct (aes_modes_roundtrip (replicate 16 1) (replicate 12 2) (replicate 15 3 ++ [255]) [] (replicate 24 7) 8) as (w & Ew & _ & _ & (z & E1 & E2 & Hst) & _);
    [done|by repeat constructor|done|by split; [|repeat constructor]|by repeat constructor|lia|].
  exists w, z. split_and!; [done..|]. by vm_compute.
Defined.
